(* ===== verification/_CoqProject ===== *)
-Q . S2P
Prelude.v
Sql.v
Json.v
Frames.v
Hlc.v
Text.v
Hashline.v
TokenCount.v
HistoryFold.v
HistoryTiers.v
CacheMarkers.v
ModelRouter.v
DurableWork.v
RelayRouter.v
ModelResolution.v
RequestParts.v
RelayStream.v
Spool.v
InferenceStream.v
RelayLane.v
RelayParts.v
Dispatch.v
ThreadExecutor.v
Store.v
ChangeLog.v
Relations.v
Reducers.v
Replication.v
Consistency.v
Changeset.v
Transport.v
Exchange.v
Backfill.v
WarmCompaction.v
StreamParser.v
AgentLoop.v
ToolPairs.v
Cron.v
Tasks.v
TaskResolution.v
EventPayload.v
Scheduler.v
TaskRun.v
LifeCycle.v
SchedulerProps.v
RunProps.v
FiringProps.v
LeaderElection.v
Annotation.v
Purge.v
DelegationSegments.v
WorkspaceFiles.v
