(* ===== verification/Prelude.v ===== *)
(** * Bound: a verification of the agent cluster

    Bound runs one agent on a cluster of hosts.  Every host keeps a full SQLite
    replica; hosts synchronize by a change log, hand each other work through a
    durable spool, and schedule tasks without a leader.  This development
    models the code that decides what happens to that state, and proves what
    the rest of the program relies on.  Each file opens with what it holds;
    this is the map of the whole.

    ** The parts and how they interact

    - Work.  Whatever must survive a restart is a row of [durable_work]
      (DurableWork.v): inserted behind an idempotency fence, claimed under a
      token, consumed, released or dead-lettered.  The older
      [dispatch_queue] is drained beside it (Dispatch.v), and messages reach
      the agent through the thread executor (ThreadExecutor.v).
    - Replication.  A write of a synced table commits with a change-log entry
      (Store.v, ChangeLog.v) stamped by the hybrid logical clock (Hlc.v).
      Entries travel as encrypted frames (Frames.v, Json.v) through the
      transport (Transport.v) under per-peer cursors (Changeset.v) and are
      applied by the reducers (Reducers.v, Replication.v; Relations.v is the
      canonicalisation they share with start-up).  Replicas that drifted are
      compared by digests (Consistency.v); the hub pages keys and rows to a
      spoke that resumes where a lost connection left it (Exchange.v), and the
      spoke plans, pushes and pulls what is missing (Backfill.v).  The files an
      agent wrote go into their table when its run ends (WorkspaceFiles.v).
    - Relay.  A host that lacks a tool, a model or a client session finds one
      that has it (RelayRouter.v, ModelResolution.v) and writes a durable row
      for it.  The spool between hosts moves the row (Spool.v); the other
      host's lane claims and dispatches it (RelayLane.v), puts a large request
      together from its parts (RequestParts.v, RelayParts.v), reads the
      context from its own replica (DelegationSegments.v), runs the inference
      (InferenceStream.v) on its own backends (ModelRouter.v), and its response
      rows travel back to the stream that waits for them (RelayStream.v).
    - Turns.  The agent loop (AgentLoop.v) runs turns over the parsed model
      stream (StreamParser.v).  Its context is the thread's rows, with purged
      messages substituted (Purge.v), tool pairs made legal (ToolPairs.v),
      rendered for the model (Annotation.v), tiered and folded to a token budget
      (TokenCount.v, HistoryFold.v, HistoryTiers.v), with cache breakpoints
      (CacheMarkers.v); between turns the stored context is compacted in place
      (WarmCompaction.v).  Files are edited by hash anchors (Hashline.v).
    - Scheduling.  Cron schedules (Cron.v) and task rows (Tasks.v) are resolved
      to one host per firing (TaskResolution.v), rescheduled and repaired
      (Scheduler.v), and run in ticks (TaskRun.v) whose wakeups fold event
      rows (EventPayload.v).  LifeCycle.v is the abstract life cycle of a task,
      edges and their guards; SchedulerProps.v, RunProps.v and FiringProps.v
      hold the theorems.  Platform connectors run on the host that
      LeaderElection.v elects.
    - Shared: this file (results, tactics, list and option lemmas), Sql.v
      (statements over a table), Text.v (UTF-16 texts).

    ** Which file models which source

    - DurableWork.v: core/src/durable-work.ts; [insert], [claim], [consume] and
      the other operations carry the code's names, [dw_exec] is their sum.
    - Dispatch.v: core/src/dispatch.ts.  ThreadExecutor.v:
      core/src/thread-executor.ts, one event per uninterrupted stretch.
    - ChangeLog.v: core/src/change-log.ts.  Relations.v:
      core/src/memory-relations.ts, normalize-edge-relations.ts.
      Consistency.v: core/src/consistency.ts, row-hash-cache.ts and the
      invalidation triggers of schema.ts.
    - Hlc.v: shared/src/hlc.ts.  Hashline.v: shared/src/hashline.ts.
      TokenCount.v: shared/src/tokens.ts.
    - Frames.v, Reducers.v, Replication.v, Changeset.v, Transport.v, Spool.v,
      Exchange.v, Backfill.v: sync/src (ws-frames, reducers, peer-cursor,
      changeset, pruning, and ws-transport by its four protocols: change log,
      spool, consistency stream and row pull, backfill).
    - WorkspaceFiles.v: sandbox/src/fs-persist.ts, cluster-fs.ts and [persistFs]
      of cli/src/commands/start/agent-factory.ts.
    - RelayRouter.v, ModelResolution.v, RequestParts.v, RelayStream.v,
      InferenceStream.v, RelayLane.v, RelayParts.v: agent/src (relay-router,
      delegation, topology, model-resolution, inference-request-parts,
      relay-stream, relay-await-helpers, relay-wait, relay-processor).
      [RelayLane.boot_recovery] is from cli/src/commands/start/bootstrap.ts.
      DelegationSegments.v: agent/src/delegation-segments.ts and the message
      query it reads.
    - ModelRouter.v: llm/src/model-router.ts.
    - AgentLoop.v, StreamParser.v: loop/src.  Purge.v, ToolPairs.v,
      Annotation.v, HistoryFold.v, HistoryTiers.v, CacheMarkers.v,
      WarmCompaction.v: agent/src (purge-substitution, tool-pair-sanitize,
      annotation, progressive-fidelity, history-boundary, cache-marker,
      warm-compaction), with the role filter and the rendering of instants of
      context-assembly.ts.
    - Cron.v, TaskResolution.v, EventPayload.v, Scheduler.v, TaskRun.v:
      agent/src (task-resolution, event-payload, scheduler, tools/cancel).
      LeaderElection.v: platforms/src/leader-election.ts.

    ** What the theorems show

    - Work is neither lost nor run twice: every operation moves a row only
      along the edges it is licensed to take, and removes only the rows it may
      ([dw_exec_life], [dw_run_wf]), exclusion by token
      ([token_fencing]), the fence between the two dispatch stores
      ([claimPending_fence]), and the disposition of every claimed row
      ([request_settled], [disposition_matrix]).
    - The network may drop and repeat frames: a row accepted for transfer is
      at the sender or at the receiver at every moment and settles there
      ([work_never_lost], [hop_delivers]); the drain of the change log passes no
      entry by ([drain_no_loss]).
    - Relayed inference end to end: the text a requester puts together is the
      text the backend streamed, chunks in order and ended once, when each chunk
      is claimed before the next burst can pass it
      ([relayed_inference], [response_delivery], [flush_bounded]); a request in
      parts is opened whole and once ([parts_roundtrip], [parts_opened],
      [parts_open_once]); its context is the requester's, byte for byte but
      for a marker at the end of the shared prefix, when the two replicas hold
      compatible rows ([segments_roundtrip]); client messages go to one host,
      remembered for five minutes ([intake_forward]).
    - Replicas converge: last writer wins is order-independent
      ([lww_converges]) while the names the UNIQUE indexes of schema.ts guard
      stay apart, a replay is the fold of the reducers over its events and logs
      exactly those they applied ([replay_logs_applied]), an outbox entry
      and its row commit together or not at all ([outbox_atomic],
      [events_match_commits]).  The comparison of two hosts names
      exactly the rows that differ ([comparison_exact]); an exchange that is cut
      resumes and delivers the whole listing while the hub's writes leave that
      listing alone, a pull exactly the rows asked for
      ([exchange_resumes], [row_pull_exact]); a round of backfill leaves the row
      stamped later on both sides, UNIQUE names apart
      ([backfill_reconciles]).  Files are persisted
      all or nothing, and the log names the files written ([persist_exact]).
    - Every action of a host moves a task row along the edges that action
      licenses, each under its guard; a run starts only from a row its host
      has claimed, an eviction only from a running one
      ([scheduler_refines_life_cycle], [reachable_rows_ok]); one host
      dispatches a firing and runs it once ([single_dispatcher],
      [firing_runs_once]); cron search returns the least matching minute.
    - A turn: the loop terminates, the stream parser and the sanitizer equal
      their references, purging takes tool pairs whole ([purge_contract]), tiers
      partition the history, batched edits equal the reference edit.  The
      bytes the provider caches stay: rendering a row does not depend on what
      follows it ([annotation_stable]), and compaction changes nothing twice
      ([compaction_stable]; stubs that fit, no later user message).

    Each of these has its conditions; where the code does not meet what its own
    comments promise, an Example in the file shows the run.  Lemmas beyond the
    properties (the fold, the elector, the pool, resolution, task runs) are
    proved in their files.

    ** Modelling decisions

    - Instants are milliseconds in [Z]; an ISO string compares as its instant.
      [new Date()] and [randomUUID()] are arguments, with one clock reading per
      synchronous call.  Integers that wrap in the code (32-bit hashes, the
      16-bit clock counter) wrap here; other numbers are exact where doubles
      are.
    - The synced tables carry the partial UNIQUE indexes of schema.ts
      (Store.v): an insert or update that meets one is refused as SQLite does.
    - Numbers are decimals and print as [JSON.stringify] prints them; Json.v
      says where a decimal and a double part.
    - A string of a table or a frame is its UTF-8 bytes; code that measures or
      cuts characters works on UTF-16 texts.
    - A call runs to its end without interleaving unless it awaits; code with
      awaits is an event-driven machine (executor, elector, scheduler runs,
      exchange) or is split at the await (lane, stream, backfill).
    - Fallible code returns [result]; transactions restore the database on a
      throw.  Lane handlers are functions of state and error.
    - Code outside the repository is an argument: the tokenizer, SHA-1 and
      SHA-256, base64 and text decoder, the cipher, [RegExp], [Date.parse],
      table schemas, the socket, the agent's file system, model backends, tool
      executors and client handlers.  Laws assumed of them are named hypotheses
      of the theorems that use them, each with a witness at a concrete function.
    - Advertised model entries and stream sequence numbers are read at their
      declared types.  Logs, spans and metrics are left out throughout.

    ** Fuel

    Recursion that is not structural takes fuel, and each use is shown or
    chosen to be enough: the cron search runs over the minutes to the code's own
    horizon; the agent loop's fuel is bounded by its turn and retry limits and
    [run_terminates] gives the amount; the fold and the id deduplication use the
    length of their list; the wait for a model its timeout divided by the poll
    interval; the emission of buffered chunks the size of the buffer; batches,
    parts, and the pages of an exchange the number of rows they are cut from.

    ** Not modelled

    - The assembly of prompts and the concrete loop class (context-assembly.ts,
      bound-agent-loop.ts): the stages with an algorithm are modelled, the rest
      is reading of tables and text.
    - Summary extraction, graph queries, heartbeat and consolidation reports:
      prompts, SQL and text, whose result is decided by a language model.
    - Snapshot chunks of ws-transport.ts: [seedNewPeer] no longer starts any, so
      they are never made.  Socket life cycle and reconnection.
    - Client-tool dispatch, wakeup routing, MCP client, bridge and handoff: the
      asynchronous handlers behind one argument of the lane; they wait for
      browsers and servers outside the program.
    - Web server, platform pollers, drivers of model providers, the shell of the
      sandbox, the command line, the clients, configuration schemas, telemetry:
      input and output, wiring and declarations.
    - Encryption and keys: thin layers over a library, assumed by its laws. *)
From Stdlib Require Export ZArith Lia Bool.
From stdpp Require Export base tactics list gmap strings sorting.
From stdpp Require Export options.

#[global] Open Scope Z_scope.
#[global] Open Scope list_scope.
#[global] Set Default Goal Selector "1".
#[global] Set Warnings "-level-tolerance".

(** * Results of fallible code

    A TypeScript call either returns or throws; a throwing call carries the
    error message. *)
Inductive result (A : Type) : Type :=
| Ok (a : A)
| Throw (msg : string).
Arguments Ok {A} a.
Arguments Throw {A} msg.

Definition is_Ok {A} (m : result A) : Prop := ∃ a, m = Ok a.

Declare Scope bound_scope.
Delimit Scope bound_scope with bound.

Definition result_bind {A B} (m : result A) (k : A → result B) : result B :=
  match m with
  | Ok a => k a
  | Throw e => Throw e
  end.

Notation "'let!' x := m 'in' k" := (result_bind m (fun x => k))
  (at level 10, x pattern, m at level 100, k at level 200,
   format "'[v' 'let!'  x  :=  m  'in' '/' k ']'") : bound_scope.

Lemma result_bind_ok {A B} (m : result A) (k : A → result B) b :
  result_bind m k = Ok b ↔ ∃ a, m = Ok a ∧ k a = Ok b.
Proof. destruct m; naive_solver. Qed.

(** * Tactics *)

(** Split boolean conjunctions and disjunctions in the context and turn
    integer and string tests into propositions. *)
Ltac bool_props :=
  repeat match goal with
  | H : (_ && _)%bool = true |- _ => apply andb_prop in H; destruct H
  | H : (_ || _)%bool = false |- _ => apply orb_false_elim in H; destruct H
  | H : negb _ = true |- _ => apply negb_true_iff in H
  | H : negb _ = false |- _ => apply negb_false_iff in H
  | H : bool_decide _ = true |- _ => apply bool_decide_eq_true_1 in H
  | H : bool_decide _ = false |- _ => apply bool_decide_eq_false_1 in H
  | H : (_ <=? _)%Z = true |- _ => apply Z.leb_le in H
  | H : (_ <=? _)%Z = false |- _ => apply Z.leb_gt in H
  | H : (_ <? _)%Z = true |- _ => apply Z.ltb_lt in H
  | H : (_ <? _)%Z = false |- _ => apply Z.ltb_ge in H
  | H : (_ =? _)%Z = true |- _ => apply Z.eqb_eq in H
  | H : (_ =? _)%Z = false |- _ => apply Z.eqb_neq in H
  end.

(** Case split on the innermost test of an [if] or [match] of the goal. *)
Ltac split_test :=
  match goal with
  | |- context [if ?b then _ else _] => destruct b eqn:?
  | |- context [match ?x with _ => _ end] => destruct x eqn:?
  end.

(** * String order

    JavaScript's [<] on strings and SQLite's BINARY collation agree with the
    lexicographic byte order on the ASCII strings (timestamps, HLCs, ids) the
    program compares. *)
Definition sltb (s t : string) : bool := String.ltb s t.
Definition sleb (s t : string) : bool := String.leb s t.
Notation "s <s t" := (sltb s t = true) (at level 70) : bound_scope.
Notation "s ≤s t" := (sleb s t = true) (at level 70) : bound_scope.
Open Scope bound_scope.

Lemma scompare_refl s : String.compare s s = Eq.
Proof.
  induction s as [|c s IH]; [done|]. simpl. unfold Ascii.compare.
  by rewrite N.compare_refl.
Qed.

Lemma sleb_le s t : s ≤s t ↔ String.le s t.
Proof. unfold sleb, String.le. by rewrite Is_true_true. Qed.

Lemma sltb_compare s t : s <s t ↔ String.compare s t = Lt.
Proof. unfold sltb, String.ltb. destruct (String.compare s t); naive_solver. Qed.

Lemma sleb_sltb s t : sleb s t = negb (sltb t s).
Proof.
  unfold sleb, sltb, String.leb, String.ltb.
  rewrite (String.compare_antisym t s). by destruct (String.compare s t).
Qed.

Lemma sltb_sleb s t : sltb s t = negb (sleb t s).
Proof. rewrite sleb_sltb. by rewrite negb_involutive. Qed.

Lemma sleb_refl s : s ≤s s.
Proof. by apply sleb_le. Qed.

Lemma sleb_trans s t u : s ≤s t → t ≤s u → s ≤s u.
Proof. rewrite !sleb_le. intros. by etrans. Qed.

Lemma sleb_antisym s t : s ≤s t → t ≤s s → s = t.
Proof. apply String.leb_antisym. Qed.

Lemma sltb_irrefl s : sltb s s = false.
Proof. unfold sltb, String.ltb. by rewrite scompare_refl. Qed.

Lemma sltb_sleb_weak s t : s <s t → s ≤s t.
Proof.
  intros H. destruct (String.leb_total s t) as [?|Hts]; [done|].
  rewrite sltb_sleb in H. unfold sleb in H. by rewrite Hts in H.
Qed.

Lemma sltb_sleb_trans s t u : s <s t → t ≤s u → s <s u.
Proof.
  intros Hst Htu. rewrite sltb_sleb. apply negb_true_iff.
  destruct (sleb u s) eqn:Hus; [|done].
  assert (t ≤s s) as Hts by (by eapply sleb_trans).
  rewrite sltb_sleb, Hts in Hst. done.
Qed.

Lemma sleb_sltb_trans s t u : s ≤s t → t <s u → s <s u.
Proof.
  intros Hst Htu. rewrite sltb_sleb. apply negb_true_iff.
  destruct (sleb u s) eqn:Hus; [|done].
  assert (u ≤s t) as Hut by (by eapply sleb_trans).
  rewrite sltb_sleb, Hut in Htu. done.
Qed.

Lemma sltb_trans s t u : s <s t → t <s u → s <s u.
Proof. intros H1 H2. eapply sltb_sleb_trans; [done|]. by apply sltb_sleb_weak. Qed.

Lemma sltb_ne s t : s <s t → s ≠ t.
Proof. intros H ->. by rewrite sltb_irrefl in H. Qed.

Lemma sltb_total s t : s ≠ t → s <s t ∨ t <s s.
Proof.
  intros Hne. rewrite !sltb_sleb.
  destruct (sleb t s) eqn:H1, (sleb s t) eqn:H2; simpl; auto.
  exfalso. apply Hne. by apply sleb_antisym.
Qed.

Lemma sltb_asym s t : s <s t → sltb t s = false.
Proof.
  intros H. destruct (sltb t s) eqn:E; [|done].
  pose proof (sltb_trans _ _ _ H E) as Hss. by rewrite sltb_irrefl in Hss.
Qed.

(** Appending: a common prefix is irrelevant, and a strict difference between
    prefixes of one length decides. *)
Lemma scompare_app_prefix p s t :
  String.compare (p +:+ s) (p +:+ t) = String.compare s t.
Proof.
  induction p as [|c p IH]; [done|].
  change (String c p +:+ s) with (String c (p +:+ s)).
  change (String c p +:+ t) with (String c (p +:+ t)).
  simpl. unfold Ascii.compare. by rewrite N.compare_refl.
Qed.

Lemma sltb_app_prefix p s t : sltb (p +:+ s) (p +:+ t) = sltb s t.
Proof. unfold sltb, String.ltb. by rewrite scompare_app_prefix. Qed.

Lemma sltb_app_same_length a b s t :
  String.length a = String.length b → a <s b → (a +:+ s) <s (b +:+ t).
Proof.
  rewrite !sltb_compare. revert b.
  induction a as [|c a IH]; intros [|d b] Hlen Hlt; simplify_eq/=.
  change (String c a +:+ s) with (String c (a +:+ s)).
  change (String d b +:+ t) with (String d (b +:+ t)).
  simpl. destruct (Ascii.compare c d) eqn:E; [|done..]. by apply IH.
Qed.

Lemma slength_app s t : String.length (s +:+ t) = (String.length s + String.length t)%nat.
Proof.
  induction s as [|c s IH]; [done|].
  change (String c s +:+ t) with (String c (s +:+ t)). simpl. by rewrite IH.
Qed.

Lemma sapp_assoc s t u : (s +:+ t) +:+ u = s +:+ (t +:+ u).
Proof.
  induction s as [|c s IH]; [done|].
  change (String c s +:+ t) with (String c (s +:+ t)).
  change (String c (s +:+ t) +:+ u) with (String c ((s +:+ t) +:+ u)).
  change (String c s +:+ (t +:+ u)) with (String c (s +:+ (t +:+ u))).
  by rewrite IH.
Qed.

Lemma sapp_nil_r s : s +:+ "" = s.
Proof.
  induction s as [|c s IH]; [done|].
  change (String c s +:+ "") with (String c (s +:+ "")). by rewrite IH.
Qed.

Create HintDb bound discriminated.
Create Rewrite HintDb bound.
#[export] Hint Resolve sleb_refl sltb_sleb_weak sltb_ne : bound.
#[export] Hint Rewrite sltb_irrefl sltb_app_prefix slength_app sapp_assoc sapp_nil_r : bound.

#[export] Instance sltb_le_trans_inst : Transitive (λ s t, s <s t).
Proof. exact sltb_trans. Qed.
#[export] Instance sleb_preorder : PreOrder (λ s t, s ≤s t).
Proof. split; [exact sleb_refl|exact sleb_trans]. Qed.

(** [seqb] decides string equality, JavaScript's [===] on strings. *)
Definition seqb (s t : string) : bool := String.eqb s t.

Lemma seqb_true s t : seqb s t = true ↔ s = t.
Proof. apply String.eqb_eq. Qed.
Lemma seqb_false s t : seqb s t = false ↔ s ≠ t.
Proof. apply String.eqb_neq. Qed.
Lemma seqb_refl s : seqb s s = true.
Proof. apply String.eqb_refl. Qed.
#[export] Hint Rewrite seqb_refl : bound.

(** [s.startsWith(p)] and [s.includes(p)]. *)
Definition starts_with (p s : string) : bool := String.prefix p s.

Fixpoint includes (s p : string) : bool :=
  starts_with p s ||
  match s with
  | EmptyString => false
  | String _ s' => includes s' p
  end.

(** The empty string, [null] and [undefined] are falsy; [truthy] is the test of
    [if (s)] on a nullable string. *)
Definition nonempty (s : string) : bool := negb (seqb s "").
Definition truthy (o : option string) : bool :=
  match o with Some s => nonempty s | None => false end.

(** Concatenation of a list of strings. *)
Definition sconcat (l : list string) : string := foldr (λ a b, a +:+ b) "" l.

(** * Lists *)

Definition sum_list_Z (l : list Z) : Z := foldr Z.add 0 l.

Lemma sum_list_Z_app l k : sum_list_Z (l ++ k) = sum_list_Z l + sum_list_Z k.
Proof. induction l; simpl; lia. Qed.

Lemma sum_list_Z_nonneg l : Forall (λ z, 0 ≤ z) l → 0 ≤ sum_list_Z l.
Proof. induction 1; simpl; lia. Qed.

Lemma filter_length_le {A} (p : A → bool) l : (length (List.filter p l) ≤ length l)%nat.
Proof. induction l; simpl; [done|]. split_test; simpl; lia. Qed.

Lemma filter_sublist {A} (p : A → bool) l : sublist (List.filter p l) l.
Proof. induction l as [|x l IH]; simpl; [constructor|]. by destruct (p x); constructor. Qed.

Lemma filter_In_iff {A} (p : A → bool) l x :
  x ∈ List.filter p l ↔ x ∈ l ∧ p x = true.
Proof. rewrite !list_elem_of_In. apply filter_In. Qed.

Lemma Forall_bool_filter {A} (P : A → Prop) (p : A → bool) l :
  Forall P l → Forall P (List.filter p l).
Proof.
  rewrite !Forall_forall. intros H x Hx. apply filter_In_iff in Hx as [? ?]. auto.
Qed.

Lemma filter_bool_all {A} (p : A → bool) l :
  (∀ x, x ∈ l → p x = true) → List.filter p l = l.
Proof.
  induction l as [|x l IH]; intros H; [done|]. simpl.
  rewrite H by set_solver. f_equal. apply IH. set_solver.
Qed.

Lemma filter_bool_none {A} (p : A → bool) l :
  (∀ x, x ∈ l → p x = false) → List.filter p l = [].
Proof.
  induction l as [|x l IH]; intros H; [done|]. simpl.
  rewrite H by set_solver. apply IH. set_solver.
Qed.

Lemma NoDup_fmap_filter {A B} (f : A → B) (p : A → bool) l :
  NoDup (f <$> l) → NoDup (f <$> List.filter p l).
Proof.
  intros H. eapply sublist_NoDup; [exact H|].
  clear H. induction l as [|x l IH]; simpl; [constructor|].
  destruct (p x); simpl; by constructor.
Qed.

Lemma sublist_elem {A} (l k : list A) x : sublist l k → x ∈ l → x ∈ k.
Proof. induction 1; set_solver. Qed.
Lemma sublist_fmap {A B} (f : A → B) (l k : list A) : sublist l k → sublist (f <$> l) (f <$> k).
Proof. induction 1; csimpl; by constructor. Qed.
Lemma sublist_Forall {A} (P : A → Prop) (l k : list A) : sublist l k → Forall P k → Forall P l.
Proof. rewrite !Forall_forall. eauto using sublist_elem. Qed.
Lemma omap_ext_elem {A B} (f g : A → option B) (l : list A) : (∀ x, x ∈ l → f x = g x) → omap f l = omap g l.
Proof. induction l as [|x l IH]; intros H; [done|]. csimpl. rewrite H by set_solver. rewrite IH; [done|]. set_solver. Qed.

(** First hits. *)
Lemma find_app {A} (f : A → bool) l1 l2 :
  List.find f (l1 ++ l2) = match List.find f l1 with Some x => Some x | None => List.find f l2 end.
Proof. induction l1 as [|x l1 IH]; [done|]. simpl. by destruct (f x). Qed.
Lemma find_filter {A} (f g : A → bool) l : List.find f (List.filter g l) = List.find (λ x, g x && f x) l.
Proof. induction l as [|x l IH]; [done|]. simpl. destruct (g x); simpl; [|done]. by destruct (f x). Qed.
Lemma find_fmap {A B} (f : B → bool) (g : A → B) l : List.find f (g <$> l) = g <$> List.find (λ x, f (g x)) l.
Proof. induction l as [|x l IH]; [done|]. simpl. by destruct (f (g x)). Qed.
Lemma find_none_all {A} (f : A → bool) l : (∀ x, x ∈ l → f x = false) → List.find f l = None.
Proof.
  induction l as [|x l IH]; intros H; [done|]. simpl. rewrite H by set_solver. apply IH. set_solver.
Qed.
Lemma find_ext {A} (f g : A → bool) l : (∀ x, x ∈ l → f x = g x) → List.find f l = List.find g l.
Proof.
  induction l as [|x l IH]; intros H; [done|]. simpl. rewrite H by set_solver. destruct (g x); [done|]. apply IH. set_solver.
Qed.
Lemma find_elem {A} (f : A → bool) l x : List.find f l = Some x → x ∈ l ∧ f x = true.
Proof. intros H%List.find_some. by rewrite list_elem_of_In. Qed.

(** Sorted lists. *)
Lemma sublist_StronglySorted {A} (R : relation A) (l k : list A) :
  sublist l k → StronglySorted R k → StronglySorted R l.
Proof.
  induction 1 as [|x l k Hlk IH|x l k Hlk IH]; intros Hs; [done|..]; apply StronglySorted_inv in Hs as [Hs Hx].
  - constructor; [by apply IH|]. by eapply sublist_Forall.
  - by apply IH.
Qed.
Lemma seq_StronglySorted a n : StronglySorted lt (seq a n).
Proof.
  revert a. induction n as [|n IH]; intros a; simpl; constructor; [apply IH|].
  apply Forall_forall. intros x Hx%list_elem_of_In%in_seq. lia.
Qed.

(** * Stable sorting

    [Array.prototype.sort] with a comparator, which is stable; [lt a b] is
    [compare(a, b) < 0]. *)
Section stable_sort.
Context {A : Type} (lt : A → A → bool).
Fixpoint stable_insert (x : A) (l : list A) : list A :=
  match l with
  | [] => [x]
  | y :: l' => if lt x y then x :: l else y :: stable_insert x l'
  end.
Definition stable_sort (l : list A) : list A := foldl (λ acc x, stable_insert x acc) [] l.

Lemma stable_insert_perm x l : stable_insert x l ≡ₚ x :: l.
Proof using.
  induction l as [|y l IH]; [done|]. simpl. destruct (lt x y); [done|]. rewrite IH. apply Permutation_swap.
Qed.
Lemma foldl_insert_perm l acc : foldl (λ a x, stable_insert x a) acc l ≡ₚ l ++ acc.
Proof using.
  revert acc. induction l as [|x l IH]; intros acc; [done|]. simpl. rewrite IH, stable_insert_perm. apply Permutation_sym, Permutation_middle.
Qed.
Lemma stable_sort_perm l : stable_sort l ≡ₚ l.
Proof using. unfold stable_sort. rewrite foldl_insert_perm. by rewrite app_nil_r. Qed.
Lemma length_stable_sort l : length (stable_sort l) = length l.
Proof using. by rewrite stable_sort_perm. Qed.
Lemma elem_of_stable_sort x l : x ∈ stable_sort l ↔ x ∈ l.
Proof using. by rewrite stable_sort_perm. Qed.

(** [le a b] is [compare(a, b) <= 0]. *)
Definition cmp_le (a b : A) : Prop := lt b a = false.
Hypothesis lt_trans_neg : ∀ a b c, lt b a = false → lt c b = false → lt c a = false.
Hypothesis lt_asym : ∀ a b, lt a b = true → lt b a = false.
Lemma stable_insert_sorted x l : StronglySorted cmp_le l → StronglySorted cmp_le (stable_insert x l).
Proof using lt_trans_neg lt_asym.
  unfold cmp_le. induction 1 as [|y l Hl IH Hy]; simpl; [by repeat constructor|].
  destruct (lt x y) eqn:E.
  - constructor; [by constructor|]. constructor; [by apply lt_asym|]. rewrite Forall_forall in Hy |- *. intros z Hz.
    eapply lt_trans_neg; [by apply lt_asym|by apply Hy].
  - constructor; [done|]. rewrite Forall_forall in Hy |- *. intros z. rewrite stable_insert_perm.
    intros [->|Hz]%elem_of_cons; [done|by apply Hy].
Qed.
Lemma stable_sort_sorted l : StronglySorted cmp_le (stable_sort l).
Proof using lt_trans_neg lt_asym.
  unfold stable_sort. cut (∀ acc, StronglySorted cmp_le acc → StronglySorted cmp_le (foldl (λ a x, stable_insert x a) acc l)).
  { intros H. apply H. constructor. }
  induction l as [|x l IH]; intros acc Hacc; [done|]. simpl. apply IH. by apply stable_insert_sorted.
Qed.
(** The head of a sorted list is least, and the first of the least ones. *)
Lemma stable_sort_head x l rest : stable_sort l = x :: rest → x ∈ l ∧ ∀ y, y ∈ l → lt y x = false.
Proof using lt_trans_neg lt_asym.
  intros Heq. split; [rewrite <-elem_of_stable_sort, Heq; left|]. intros y Hy.
  rewrite <-elem_of_stable_sort, Heq in Hy. apply elem_of_cons in Hy as [->|Hy].
  - destruct (lt x x) eqn:E; [|done]. by rewrite (lt_asym _ _ E) in E.
  - pose proof (stable_sort_sorted l) as Hs. rewrite Heq in Hs. inversion Hs as [|? ? _ Hall]. rewrite Forall_forall in Hall. by apply Hall.
Qed.
End stable_sort.
