(* ===== verification/Sql.v ===== *)
(** * Tables

    The SQLite statements the program issues against one table, over a table
    held as the list of its rows in rowid order: [UPDATE ... SET f WHERE p],
    [DELETE ... WHERE p], [SELECT ... WHERE p], [INSERT OR IGNORE] and
    [ORDER BY].  [db.run(...).changes] is the number of rows the predicate
    selects.  The lemmas reduce a statement to its effect on the row with one
    primary key, which is how the components reason about their tables. *)
From S2P Require Import Prelude.

Section Statements.
Context {R : Type}.
Implicit Types (p q : R → bool) (f : R → R) (t : list R).

Definition sql_select p t : list R := List.filter p t.
Definition sql_count p t : nat := length (List.filter p t).
Definition sql_update p f t : list R := (λ r, if p r then f r else r) <$> t.
Definition sql_delete p t : list R := List.filter (λ r, negb (p r)) t.

(** [db.run("UPDATE ...")]: the new table and [result.changes]. *)
Definition run_update p f t : list R * nat := (sql_update p f t, sql_count p t).
Definition run_delete p t : list R * nat := (sql_delete p t, sql_count p t).

(** [INSERT OR IGNORE]: [clash old new] says the two rows share the value of
    some UNIQUE index; the row is then not inserted and [changes] is 0. *)
Definition insert_or_ignore (clash : R → R → bool) (r : R) t : list R * nat :=
  if existsb (λ old, clash old r) t then (t, 0%nat) else (t ++ [r], 1%nat).

(** [ORDER BY k ASC]; rows with equal keys stay in rowid order. *)
Fixpoint order_insert (k : R → Z) (r : R) (l : list R) : list R :=
  match l with
  | [] => [r]
  | x :: l' => if k r <=? k x then r :: l else x :: order_insert k r l'
  end.
Definition order_by (k : R → Z) t : list R := foldr (order_insert k) [] t.

Lemma order_insert_perm k r l : order_insert k r l ≡ₚ r :: l.
Proof.
  induction l as [|x l IH]; simpl; [done|]. destruct (k r <=? k x); [done|].
  rewrite IH. apply Permutation_swap.
Qed.

Lemma order_by_perm k t : order_by k t ≡ₚ t.
Proof. induction t as [|x t IH]; simpl; [done|]. by rewrite order_insert_perm, IH. Qed.

Lemma elem_of_order_by k t r : r ∈ order_by k t ↔ r ∈ t.
Proof. by rewrite order_by_perm. Qed.

Lemma order_insert_sorted k r l :
  StronglySorted (λ a b, k a ≤ k b) l → StronglySorted (λ a b, k a ≤ k b) (order_insert k r l).
Proof.
  induction 1 as [|x l Hs IH Hall]; simpl; [by repeat constructor|].
  destruct (Z.leb_spec (k r) (k x)).
  - constructor; [by constructor|]. constructor; [done|].
    eapply Forall_impl; [exact Hall|]. simpl. lia.
  - constructor; [done|]. rewrite order_insert_perm. constructor; [lia|done].
Qed.

Lemma order_by_sorted k t : StronglySorted (λ a b, k a ≤ k b) (order_by k t).
Proof. induction t; simpl; [constructor|]. by apply order_insert_sorted. Qed.

Lemma run_update_fst p f t : (run_update p f t).1 = sql_update p f t.
Proof. done. Qed.

Lemma elem_of_select p t r : r ∈ sql_select p t ↔ r ∈ t ∧ p r = true.
Proof. apply filter_In_iff. Qed.

Lemma elem_of_delete p t r : r ∈ sql_delete p t ↔ r ∈ t ∧ p r = false.
Proof. unfold sql_delete. rewrite filter_In_iff. by rewrite negb_true_iff. Qed.

Lemma elem_of_update p f t r :
  r ∈ sql_update p f t ↔ ∃ r0, r0 ∈ t ∧ r = if p r0 then f r0 else r0.
Proof. unfold sql_update. rewrite list_elem_of_fmap. naive_solver. Qed.

Lemma sql_count_zero p t : sql_count p t = 0%nat ↔ ∀ r, r ∈ t → p r = false.
Proof.
  unfold sql_count. rewrite length_zero_iff_nil. split.
  - intros Hf r Hr. destruct (p r) eqn:E; [|done].
    assert (r ∈ List.filter p t) as Hin by (by apply filter_In_iff).
    rewrite Hf in Hin. by apply not_elem_of_nil in Hin.
  - apply filter_bool_none.
Qed.

Lemma sql_update_none p f t : (∀ r, r ∈ t → p r = false) → sql_update p f t = t.
Proof.
  intros H. unfold sql_update. rewrite <-(list_fmap_id t) at 2.
  apply list_fmap_ext. intros i r Hi. by rewrite H by (by eapply list_elem_of_lookup_2).
Qed.

Lemma sql_count_zero_update p f t : sql_count p t = 0%nat → sql_update p f t = t.
Proof. intros H. apply sql_update_none. by apply sql_count_zero. Qed.

Lemma sql_delete_none p t : (∀ r, r ∈ t → p r = false) → sql_delete p t = t.
Proof. intros H. apply filter_bool_all. intros r Hr. by rewrite H. Qed.

Lemma update_Forall (P : R → Prop) p f t :
  Forall P t → (∀ r, P r → p r = true → P (f r)) → Forall P (sql_update p f t).
Proof.
  rewrite !Forall_forall. intros H Hf r Hr.
  apply elem_of_update in Hr as (r0 & Hr0 & ->).
  destruct (p r0) eqn:E; auto.
Qed.

Lemma delete_Forall (P : R → Prop) p t : Forall P t → Forall P (sql_delete p t).
Proof. apply Forall_bool_filter. Qed.

(** A projection the update leaves alone keeps its column. *)
Lemma update_fmap {B} (π : R → B) p f t :
  (∀ r, π (f r) = π r) → π <$> sql_update p f t = π <$> t.
Proof.
  intros Hf. unfold sql_update. rewrite <-list_fmap_compose.
  apply list_fmap_ext. intros i r _. simpl. destruct (p r); auto.
Qed.

Lemma delete_NoDup {B} (π : R → B) p t : NoDup (π <$> t) → NoDup (π <$> sql_delete p t).
Proof. apply NoDup_fmap_filter. Qed.

Lemma insert_or_ignore_cases clash r t :
  (insert_or_ignore clash r t = (t, 0%nat) ∧ ∃ old, old ∈ t ∧ clash old r = true) ∨
  (insert_or_ignore clash r t = (t ++ [r], 1%nat) ∧ ∀ old, old ∈ t → clash old r = false).
Proof.
  unfold insert_or_ignore. destruct (existsb _ t) eqn:E.
  - left. split; [done|]. apply existsb_exists in E as (old & Hin & Hc).
    exists old. by rewrite list_elem_of_In.
  - right. split; [done|]. intros old Hin. destruct (clash old r) eqn:Hc; [|done].
    assert (existsb (λ old, clash old r) t = true) as Ht; [|congruence].
    apply existsb_exists. exists old. by rewrite <-list_elem_of_In.
Qed.
End Statements.

(** ** The row with a given primary key *)
Section PrimaryKey.
Context {R : Type} (key : R → string).
Implicit Types (p : R → bool) (f : R → R) (t : list R) (k : string).

Definition row_at k t : option R := List.find (λ r, seqb (key r) k) t.
#[local] Arguments row_at : simpl never.

Definition keys_unique t : Prop := NoDup (key <$> t).

Lemma row_at_cons k r t :
  row_at k (r :: t) = if seqb (key r) k then Some r else row_at k t.
Proof. done. Qed.

Lemma row_at_Some k t r : row_at k t = Some r → r ∈ t ∧ key r = k.
Proof.
  intros H. apply find_some in H as [Hin Hk]. rewrite list_elem_of_In.
  split; [done|]. by apply seqb_true.
Qed.

Lemma row_at_None k t : row_at k t = None ↔ ∀ r, r ∈ t → key r ≠ k.
Proof.
  induction t as [|x t IH]; [set_solver|]. rewrite row_at_cons.
  destruct (seqb (key x) k) eqn:E.
  - apply seqb_true in E. split; [done|]. intros H. exfalso. apply (H x); [set_solver|done].
  - apply seqb_false in E. rewrite IH. set_solver.
Qed.

Lemma row_at_elem k t r : keys_unique t → r ∈ t → key r = k → row_at k t = Some r.
Proof.
  unfold keys_unique. induction t as [|x t IH]; intros Hnd Hin Hk; [set_solver|].
  rewrite row_at_cons. rewrite fmap_cons in Hnd. apply NoDup_cons in Hnd as [Hx Hnd].
  apply elem_of_cons in Hin as [->|Hin]; [by subst; rewrite seqb_refl|].
  destruct (seqb (key x) k) eqn:E; [|auto].
  apply seqb_true in E. exfalso. apply Hx. rewrite E, <-Hk. by apply list_elem_of_fmap_2.
Qed.

Lemma row_at_update p f t k :
  (∀ r, key (f r) = key r) →
  row_at k (sql_update p f t) = (λ r, if p r then f r else r) <$> row_at k t.
Proof.
  intros Hf. induction t as [|x t IH]; [done|].
  unfold sql_update in *. rewrite fmap_cons, !row_at_cons, IH.
  assert (key (if p x then f x else x) = key x) as -> by (destruct (p x); auto).
  by destruct (seqb (key x) k).
Qed.

Lemma row_at_delete p t k :
  keys_unique t →
  row_at k (sql_delete p t) =
    match row_at k t with Some r => if p r then None else Some r | None => None end.
Proof.
  unfold keys_unique, sql_delete. induction t as [|x t IH]; intros Hnd; [done|].
  rewrite fmap_cons in Hnd. apply NoDup_cons in Hnd as [Hx Hnd].
  rewrite row_at_cons. simpl. destruct (seqb (key x) k) eqn:E.
  - apply seqb_true in E as E'. destruct (p x) eqn:Hp; simpl.
    + apply row_at_None. intros r Hr Hk. apply Hx.
      apply filter_In_iff in Hr as [Hr _]. rewrite E', <-Hk. by apply list_elem_of_fmap_2.
    + rewrite row_at_cons. by rewrite E.
  - destruct (p x); simpl; [by apply IH|]. rewrite row_at_cons, E. by apply IH.
Qed.

Lemma row_at_app k t1 t2 :
  row_at k (t1 ++ t2) = match row_at k t1 with Some r => Some r | None => row_at k t2 end.
Proof.
  induction t1 as [|x t1 IH]; [done|]. rewrite <-app_comm_cons, !row_at_cons.
  by destruct (seqb (key x) k).
Qed.

(** [WHERE key = k AND q]: at most one row, so [changes] is 0 or 1 and says
    whether the row with that key satisfies [q]. *)
Lemma sql_count_key q t k :
  keys_unique t →
  sql_count (λ r, seqb (key r) k && q r) t =
    match row_at k t with Some r => if q r then 1%nat else 0%nat | None => 0%nat end.
Proof.
  unfold keys_unique, sql_count. induction t as [|x t IH]; intros Hnd; [done|].
  rewrite fmap_cons in Hnd. apply NoDup_cons in Hnd as [Hx Hnd].
  rewrite row_at_cons. simpl. destruct (seqb (key x) k) eqn:E; simpl; [|auto].
  apply seqb_true in E. assert (row_at k t = None) as Hnone.
  { apply row_at_None. intros r Hr Hk. apply Hx. rewrite E, <-Hk. by apply list_elem_of_fmap_2. }
  specialize (IH Hnd). rewrite Hnone in IH. destruct (q x); simpl; lia.
Qed.

Lemma changes_key q t k :
  keys_unique t →
  (sql_count (λ r, seqb (key r) k && q r) t =? 1)%nat = true ↔
    ∃ r, row_at k t = Some r ∧ q r = true.
Proof.
  intros Hnd. rewrite sql_count_key by done. rewrite Nat.eqb_eq.
  destruct (row_at k t) as [r|]; [|by split; [|intros (? & ? & _)]].
  destruct (q r) eqn:E; split; [by exists r|done|done|].
  intros (r' & [= <-] & Hq). congruence.
Qed.
End PrimaryKey.

#[global] Arguments row_at {R} key k t : simpl never.
#[export] Hint Resolve delete_Forall delete_NoDup : bound.

(** At most one row has a given key. *)
Lemma filter_one {R} (key : R → string) (q : R → bool) t r :
  keys_unique key t → r ∈ t → List.filter (λ x, q x && seqb (key x) (key r)) t = if q r then [r] else [].
Proof.
  unfold keys_unique; induction t as [|x t IH]; intros Hk Hr; [by apply elem_of_nil in Hr|].
  apply NoDup_cons in Hk as [Hx Hk]; simpl; apply elem_of_cons in Hr as [->|Hr].
  - rewrite seqb_refl, andb_true_r, filter_bool_none; [by destruct (q x)|].
    intros y Hy; destruct (seqb (key y) (key x)) eqn:E; [|by rewrite andb_false_r].
    apply seqb_true in E; destruct Hx; rewrite <- E; by apply list_elem_of_fmap_2.
  - rewrite (proj2 (seqb_false _ _)), andb_false_r; [by apply IH|].
    intros E; apply Hx; rewrite E; by apply list_elem_of_fmap_2.
Qed.
