(* ===== verification/Json.v ===== *)
(** * JSON values

    The part of the language's [JSON] object the program uses: the value type,
    [JSON.stringify] and [JSON.parse] on UTF-8 text, and property access.
    Objects keep their keys in insertion order and a repeated key overwrites
    the earlier value in place, as in JavaScript.  Numbers are decimal:
    [JNum m e] is [m * 10^e] with [e <= 0] in lowest terms.  A non-integer is
    printed as the language prints a number with these digits ([1.5], [0.02],
    [1.5e-7]); rounding to double precision is not modelled, nor the exponent
    form of integers from 10^21 on, so that texts and sizes are those of
    [JSON.stringify] for numbers whose shortest digits are the model's.  [json_roundtrip] is the law the
    other components use. *)
From Stdlib Require Import Ascii.
From S2P Require Import Prelude.

#[local] Set Warnings "-register-all".

Inductive json : Type :=
| JNull
| JBool (b : bool)
| JNum (m e : Z)
| JStr (s : string)
| JArr (l : list json)
| JObj (fs : list (string * json)).

Definition JInt (z : Z) : json := JNum z 0.

Section json_ind.
Context (P : json → Prop).
Context (Hnull : P JNull) (Hbool : ∀ b, P (JBool b)) (Hnum : ∀ m e, P (JNum m e))
  (Hstr : ∀ s, P (JStr s)) (Harr : ∀ l, Forall P l → P (JArr l))
  (Hobj : ∀ fs, Forall (λ kv, P kv.2) fs → P (JObj fs)).

Fixpoint json_nested_ind (v : json) : P v :=
  match v with
  | JNull => Hnull
  | JBool b => Hbool b
  | JNum m e => Hnum m e
  | JStr s => Hstr s
  | JArr l =>
      Harr l ((fix go l : Forall P l :=
        match l with
        | [] => List.Forall_nil _
        | x :: l' => List.Forall_cons _ _ _ (json_nested_ind x) (go l')
        end) l)
  | JObj fs =>
      Hobj fs ((fix go fs : Forall (λ kv, P kv.2) fs :=
        match fs with
        | [] => List.Forall_nil _
        | kv :: fs' => List.Forall_cons _ _ _ (json_nested_ind kv.2) (go fs')
        end) fs)
  end.
End json_ind.

(** [obj[k] = v]: overwrite in place, or append a new key. *)
Fixpoint fields_set {V} (k : string) (v : V) (fs : list (string * V)) : list (string * V) :=
  match fs with
  | [] => [(k, v)]
  | (k', v') :: fs' => if seqb k' k then (k, v) :: fs' else (k', v') :: fields_set k v fs'
  end.

Fixpoint fields_get {V} (k : string) (fs : list (string * V)) : option V :=
  match fs with
  | [] => None
  | (k', v') :: fs' => if seqb k' k then Some v' else fields_get k fs'
  end.

Definition fields_remove {V} (k : string) (fs : list (string * V)) : list (string * V) :=
  List.filter (λ kv, negb (seqb kv.1 k)) fs.

(** [v.k]: [None] is [undefined]. *)
Definition json_get (k : string) (v : json) : option json :=
  match v with JObj fs => fields_get k fs | _ => None end.

Definition as_string (v : option json) : option string :=
  match v with Some (JStr s) => Some s | _ => None end.

Lemma fields_get_set {V} k k' (v : V) fs :
  fields_get k (fields_set k' v fs) = if seqb k' k then Some v else fields_get k fs.
Proof.
  induction fs as [|[k0 v0] fs IH]; simpl; [done|].
  destruct (seqb k0 k') eqn:E0; simpl.
  - apply seqb_true in E0 as ->. by destruct (seqb k' k).
  - rewrite IH. destruct (seqb k0 k) eqn:E1; [|done].
    apply seqb_true in E1 as ->. destruct (seqb k' k) eqn:E2; [|done].
    apply seqb_true in E2 as ->. by rewrite seqb_refl in E0.
Qed.

Lemma fields_set_fresh {V} k (v : V) fs :
  k ∉ fs.*1 → fields_set k v fs = fs ++ [(k, v)].
Proof.
  induction fs as [|[k0 v0] fs IH]; intros H; [done|]. simpl in *.
  destruct (seqb k0 k) eqn:E; [apply seqb_true in E; set_solver|].
  rewrite IH; set_solver.
Qed.

(** ** Printing *)
Definition dquote : ascii := ascii_of_nat 34.
Definition backslash : ascii := ascii_of_nat 92.
Definition chars (s : string) : list ascii := String.list_ascii_of_string s.
Definition of_chars (l : list ascii) : string := String.string_of_list_ascii l.
(** [toLowerCase] of an ASCII string. *)
Definition lower_char (c : ascii) : ascii :=
  let n := nat_of_ascii c in if (65 <=? n)%nat && (n <=? 90)%nat then ascii_of_nat (n + 32) else c.
Definition toLowerCase (s : string) : string := of_chars (lower_char <$> chars s).

Definition hex_digit (n : nat) : ascii :=
  ascii_of_nat (if (n <? 10)%nat then 48 + n else 87 + n).

Definition escape_char (c : ascii) : list ascii :=
  let n := nat_of_ascii c in
  if Ascii.eqb c dquote then [backslash; dquote]
  else if Ascii.eqb c backslash then [backslash; backslash]
  else if (n =? 8)%nat then [backslash; "b"%char]
  else if (n =? 9)%nat then [backslash; "t"%char]
  else if (n =? 10)%nat then [backslash; "n"%char]
  else if (n =? 12)%nat then [backslash; "f"%char]
  else if (n =? 13)%nat then [backslash; "r"%char]
  else if (n <? 32)%nat then
    [backslash; "u"%char; "0"%char; "0"%char; hex_digit (n / 16); hex_digit (n mod 16)]
  else [c].

Definition print_str (s : string) : list ascii :=
  dquote :: concat (escape_char <$> chars s) ++ [dquote].

(** Decimal digits, most significant first; [log2 z + 1] digits are enough. *)
Definition digit_char (d : Z) : ascii := ascii_of_nat (48 + Z.to_nat d).
Fixpoint print_digits (n : nat) (z : Z) (acc : list ascii) : list ascii :=
  match n with
  | O => acc
  | S n' =>
      let acc' := digit_char (z mod 10) :: acc in
      if z <? 10 then acc' else print_digits n' (z / 10) acc'
  end.
Definition print_nonneg (z : Z) : list ascii := print_digits (S (Z.to_nat (Z.log2 z))) z [].
Definition print_Z (z : Z) : list ascii :=
  if z <? 0 then "-"%char :: print_nonneg (- z) else print_nonneg z.

(** [Number::toString] of the digits [d] with [-e] of them behind the point,
    none of them a trailing zero: in place, after zeros, or with an exponent. *)
Definition print_decimal (d : list ascii) (e : Z) : list ascii :=
  let n := Z.of_nat (length d) + e in
  if 0 <? n then take (Z.to_nat n) d ++ "."%char :: drop (Z.to_nat n) d
  else if -6 <? n then "0"%char :: "."%char :: repeat "0"%char (Z.to_nat (- n)) ++ d
  else match d with
       | c :: (_ :: _) as ds => c :: "."%char :: ds
       | _ => d
       end ++ "e"%char :: print_Z (n - 1).
Definition print_num (m e : Z) : list ascii :=
  if e =? 0 then print_Z m
  else if m <? 0 then "-"%char :: print_decimal (print_nonneg (- m)) e else print_decimal (print_nonneg m) e.

Fixpoint sep_by (sep : list ascii) (ls : list (list ascii)) : list ascii :=
  match ls with
  | [] => []
  | [l] => l
  | l :: ls' => l ++ sep ++ sep_by sep ls'
  end.

Fixpoint print_json (v : json) : list ascii :=
  match v with
  | JNull => chars "null"
  | JBool true => chars "true"
  | JBool false => chars "false"
  | JNum m e => print_num m e
  | JStr s => print_str s
  | JArr l => "["%char :: sep_by [","%char] (print_json <$> l) ++ ["]"%char]
  | JObj fs =>
      "{"%char ::
      sep_by [","%char] ((λ kv, print_str kv.1 ++ ":"%char :: print_json kv.2) <$> fs)
      ++ ["}"%char]
  end.

(** [JSON.stringify]. *)
Definition json_stringify (v : json) : string := of_chars (print_json v).

(** ** Parsing *)
Definition is_ws (c : ascii) : bool :=
  let n := nat_of_ascii c in
  (n =? 32)%nat || (n =? 9)%nat || (n =? 10)%nat || (n =? 13)%nat.

Fixpoint skip_ws (s : list ascii) : list ascii :=
  match s with
  | c :: s' => if is_ws c then skip_ws s' else s
  | [] => []
  end.

Fixpoint strip_prefix (p s : list ascii) : option (list ascii) :=
  match p, s with
  | [], _ => Some s
  | c :: p', d :: s' => if Ascii.eqb c d then strip_prefix p' s' else None
  | _ :: _, [] => None
  end.

Definition hex_value (c : ascii) : option nat :=
  let n := nat_of_ascii c in
  if (48 <=? n)%nat && (n <=? 57)%nat then Some (n - 48)%nat
  else if (97 <=? n)%nat && (n <=? 102)%nat then Some (n - 87)%nat
  else if (65 <=? n)%nat && (n <=? 70)%nat then Some (n - 55)%nat
  else None.

Definition utf8 (n : nat) : list ascii :=
  if (n <? 128)%nat then [ascii_of_nat n]
  else if (n <? 2048)%nat then [ascii_of_nat (192 + n / 64); ascii_of_nat (128 + n mod 64)]
  else [ascii_of_nat (224 + n / 4096); ascii_of_nat (128 + (n / 64) mod 64);
        ascii_of_nat (128 + n mod 64)].

Definition unescape (c : ascii) : option ascii :=
  if Ascii.eqb c dquote then Some dquote
  else if Ascii.eqb c backslash then Some backslash
  else if Ascii.eqb c "/" then Some "/"%char
  else if Ascii.eqb c "b" then Some (ascii_of_nat 8)
  else if Ascii.eqb c "t" then Some (ascii_of_nat 9)
  else if Ascii.eqb c "n" then Some (ascii_of_nat 10)
  else if Ascii.eqb c "f" then Some (ascii_of_nat 12)
  else if Ascii.eqb c "r" then Some (ascii_of_nat 13)
  else None.

Definition cons_chars (l : list ascii) (o : option (list ascii * list ascii)) :=
  match o with Some (s, r) => Some (l ++ s, r) | None => None end.

(** The characters of a string literal up to its closing quote. *)
Fixpoint parse_chars (s : list ascii) : option (list ascii * list ascii) :=
  match s with
  | [] => None
  | c :: r =>
      if Ascii.eqb c dquote then Some ([], r)
      else if Ascii.eqb c backslash then
        match r with
        | e :: r' =>
            match unescape e with
            | Some d => cons_chars [d] (parse_chars r')
            | None =>
                if Ascii.eqb e "u" then
                  match r' with
                  | h1 :: h2 :: h3 :: h4 :: r'' =>
                      match hex_value h1, hex_value h2, hex_value h3, hex_value h4 with
                      | Some a, Some b, Some c', Some d =>
                          cons_chars (utf8 (4096 * a + 256 * b + 16 * c' + d)) (parse_chars r'')
                      | _, _, _, _ => None
                      end
                  | _ => None
                  end
                else None
            end
        | [] => None
        end
      else if (nat_of_ascii c <? 32)%nat then None
      else cons_chars [c] (parse_chars r)
  end.

Definition is_digit (c : ascii) : bool :=
  (48 <=? nat_of_ascii c)%nat && (nat_of_ascii c <=? 57)%nat.

Fixpoint span (p : ascii → bool) (s : list ascii) : list ascii * list ascii :=
  match s with
  | c :: s' => if p c then let '(a, b) := span p s' in (c :: a, b) else ([], s)
  | [] => ([], [])
  end.

(** A run of digits without superfluous leading zeros. *)
Definition digits_value (ds : list ascii) : Z :=
  foldl (λ acc c, 10 * acc + Z.of_nat (nat_of_ascii c - 48)) 0 ds.
Definition int_digits (ds : list ascii) : bool :=
  match ds with
  | [] => false
  | [c] => true
  | c :: _ => negb (Ascii.eqb c "0")
  end.

(** Bring [m * 10^e] to the form [JNum] keeps. *)
Fixpoint strip_zeros (n : nat) (m e : Z) : json :=
  match n with
  | O => JNum m e
  | S n' => if (e <? 0) && (m mod 10 =? 0) then strip_zeros n' (m / 10) (e + 1) else JNum m e
  end.
Definition make_num (m e : Z) : json :=
  if 0 <=? e then JNum (m * 10 ^ e) 0 else strip_zeros (Z.to_nat (- e)) m e.

Definition parse_exp (s : list ascii) : option (Z * list ascii) :=
  match s with
  | c :: r =>
      if Ascii.eqb c "e" || Ascii.eqb c "E" then
        let '(neg, r) :=
          match r with
          | d :: r' => if Ascii.eqb d "-" then (true, r')
                       else if Ascii.eqb d "+" then (false, r') else (false, r)
          | [] => (false, r)
          end in
        let '(ds, r) := span is_digit r in
        match ds with
        | [] => None
        | _ => Some ((if neg then - digits_value ds else digits_value ds), r)
        end
      else Some (0, s)
  | [] => Some (0, s)
  end.

Definition parse_num (s : list ascii) : option (json * list ascii) :=
  let '(neg, s) :=
    match s with
    | c :: r => if Ascii.eqb c "-" then (true, r) else (false, s)
    | [] => (false, s)
    end in
  let '(ds, s) := span is_digit s in
  if negb (int_digits ds) then None
  else
    let frac :=
      match s with
      | c :: r =>
          if Ascii.eqb c "." then
            let '(fs, r) := span is_digit r in
            match fs with [] => None | _ => Some (fs, r) end
          else Some ([], s)
      | [] => Some ([], s)
      end in
    match frac with
    | None => None
    | Some (fs, s) =>
        match parse_exp s with
        | None => None
        | Some (e, s) =>
            let m := digits_value (ds ++ fs) in
            Some (make_num (if neg then - m else m) (e - Z.of_nat (length fs)), s)
        end
    end.

Fixpoint parse_value (n : nat) (s : list ascii) : option (json * list ascii) :=
  match n with
  | O => None
  | S n' =>
      match skip_ws s with
      | [] => None
      | c :: r =>
          if Ascii.eqb c dquote then
            match parse_chars r with
            | Some (t, r') => Some (JStr (of_chars t), r')
            | None => None
            end
          else if Ascii.eqb c "[" then
            match skip_ws r with
            | d :: r' => if Ascii.eqb d "]" then Some (JArr [], r') else parse_elems n' r []
            | [] => None
            end
          else if Ascii.eqb c "{" then
            match skip_ws r with
            | d :: r' => if Ascii.eqb d "}" then Some (JObj [], r') else parse_members n' r []
            | [] => None
            end
          else if Ascii.eqb c "n" then
            match strip_prefix (chars "ull") r with Some r' => Some (JNull, r') | None => None end
          else if Ascii.eqb c "t" then
            match strip_prefix (chars "rue") r with Some r' => Some (JBool true, r') | None => None end
          else if Ascii.eqb c "f" then
            match strip_prefix (chars "alse") r with Some r' => Some (JBool false, r') | None => None end
          else parse_num (c :: r)
      end
  end
with parse_elems (n : nat) (s : list ascii) (acc : list json) : option (json * list ascii) :=
  match n with
  | O => None
  | S n' =>
      match parse_value n' s with
      | None => None
      | Some (v, r) =>
          match skip_ws r with
          | d :: r' =>
              if Ascii.eqb d "," then parse_elems n' r' (acc ++ [v])
              else if Ascii.eqb d "]" then Some (JArr (acc ++ [v]), r')
              else None
          | [] => None
          end
      end
  end
with parse_members (n : nat) (s : list ascii) (acc : list (string * json)) : option (json * list ascii) :=
  match n with
  | O => None
  | S n' =>
      match skip_ws s with
      | q :: r =>
          if Ascii.eqb q dquote then
            match parse_chars r with
            | None => None
            | Some (k, r) =>
                match skip_ws r with
                | col :: r =>
                    if Ascii.eqb col ":" then
                      match parse_value n' r with
                      | None => None
                      | Some (v, r) =>
                          match skip_ws r with
                          | d :: r' =>
                              if Ascii.eqb d "," then
                                parse_members n' r' (fields_set (of_chars k) v acc)
                              else if Ascii.eqb d "}" then
                                Some (JObj (fields_set (of_chars k) v acc), r')
                              else None
                          | [] => None
                          end
                      end
                    else None
                | [] => None
                end
            end
          else None
      | [] => None
      end
  end.

(** [JSON.parse]; [None] is the [SyntaxError].  Every recursive call consumes a
    character, so one unit of fuel per character is enough. *)
Definition json_parse (s : string) : option json :=
  match parse_value (S (String.length s)) (chars s) with
  | Some (v, r) => match skip_ws r with [] => Some v | _ => None end
  | None => None
  end.

(** ** Round trip

    Values whose numbers are in lowest terms and whose objects have no repeated
    key. *)
Fixpoint json_wf (v : json) : Prop :=
  match v with
  | JNum m e => e = 0 ∨ (e < 0 ∧ m mod 10 ≠ 0)
  | JArr l => (fix go l := match l with [] => True | x :: l' => json_wf x ∧ go l' end) l
  | JObj fs =>
      NoDup fs.*1 ∧
      (fix go fs := match fs with [] => True | kv :: fs' => json_wf kv.2 ∧ go fs' end) fs
  | _ => True
  end.

Lemma json_wf_arr l : json_wf (JArr l) ↔ Forall json_wf l.
Proof.
  induction l as [|x l IH]; simpl in *; [by split|]. rewrite Forall_cons, IH. done.
Qed.
Lemma json_wf_obj fs : json_wf (JObj fs) ↔ NoDup fs.*1 ∧ Forall (λ kv, json_wf kv.2) fs.
Proof.
  simpl. apply and_iff_compat_l. induction fs as [|x l IH]; [by split|].
  rewrite Forall_cons, IH. done.
Qed.

(** *** Strings *)
Lemma chars_of_chars l : chars (of_chars l) = l.
Proof. apply String.list_ascii_of_string_of_list_ascii. Qed.
Lemma of_chars_chars s : of_chars (chars s) = s.
Proof. apply String.string_of_list_ascii_of_string. Qed.

Lemma parse_chars_escape c s :
  parse_chars (escape_char c ++ s) = cons_chars [c] (parse_chars s).
Proof. destruct c as [[] [] [] [] [] [] [] []]; reflexivity. Qed.

Lemma parse_chars_print l r :
  parse_chars (concat (escape_char <$> l) ++ dquote :: r) = Some (l, r).
Proof.
  induction l as [|c l IH]; [done|]. rewrite fmap_cons. cbn [concat].
  rewrite <-app_assoc, parse_chars_escape, IH. done.
Qed.

(** *** Numbers *)
Lemma digit_char_nat d : 0 ≤ d < 10 → nat_of_ascii (digit_char d) = (48 + Z.to_nat d)%nat.
Proof. intros. unfold digit_char. apply nat_ascii_embedding. lia. Qed.

Lemma digit_char_is_digit d : 0 ≤ d < 10 → is_digit (digit_char d) = true.
Proof.
  intros. unfold is_digit. rewrite digit_char_nat by done.
  apply andb_true_intro. rewrite !Nat.leb_le. lia.
Qed.

Lemma digit_char_zero d : 0 ≤ d < 10 → Ascii.eqb (digit_char d) "0" = (d =? 0).
Proof.
  intros Hd. apply eq_true_iff_eq. rewrite Ascii.eqb_eq, Z.eqb_eq. split; [|by intros ->].
  intros H%(f_equal nat_of_ascii). rewrite digit_char_nat in H by done.
  change (nat_of_ascii "0") with 48%nat in H. lia.
Qed.

Definition digits_from (a : Z) (ds : list ascii) : Z :=
  foldl (λ acc c, 10 * acc + Z.of_nat (nat_of_ascii c - 48)) a ds.

(** The printed digits of [z] in front of [acc]. *)
Lemma print_digits_spec n z acc :
  (0 < n)%nat → 0 ≤ z < 10 ^ Z.of_nat n →
  ∃ d ds, print_digits n z acc = (digit_char d :: ds) ++ acc ∧ 0 ≤ d < 10 ∧
    Forall (λ c, is_digit c = true) ds ∧ (∀ a, digits_from a (digit_char d :: ds) =
      a * 10 ^ Z.of_nat (S (length ds)) + z) ∧ (d = 0 → ds = []).
Proof.
  revert z acc. induction n as [|n IH]; intros z acc Hn Hz; [lia|]. cbn [print_digits].
  assert (0 ≤ z mod 10 < 10) as Hm by (apply Z.mod_pos_bound; lia).
  destruct (Z.ltb_spec z 10) as [Hlt|Hge].
  - exists z, []. rewrite Z.mod_small by lia. split_and!; [done|lia|lia|constructor| |done].
    intros a. unfold digits_from. cbn [foldl]. rewrite digit_char_nat by lia.
    change (Z.of_nat (S (length []))) with 1. lia.
  - destruct n as [|n]; [simpl in Hz; lia|].
    destruct (IH (z / 10) (digit_char (z mod 10) :: acc)) as (d & ds & Heq & Hd & Hds & Hval & H0).
    + lia.
    + split; [apply Z.div_pos; lia|]. apply Z.div_lt_upper_bound; [lia|].
      rewrite <-Z.pow_succ_r by lia. rewrite <-Nat2Z.inj_succ. apply Hz.
    + exists d, (ds ++ [digit_char (z mod 10)]). split_and!; [|lia|lia| | |].
      * rewrite Heq. simpl. by rewrite <-app_assoc.
      * apply Forall_app. split; [done|]. apply Forall_singleton. by apply digit_char_is_digit.
      * intros a. change (digit_char d :: ds ++ [digit_char (z mod 10)])
          with ((digit_char d :: ds) ++ [digit_char (z mod 10)]).
        unfold digits_from in *. rewrite foldl_app, Hval. cbn [foldl].
        rewrite digit_char_nat by done. rewrite length_app.
        replace (Z.of_nat (S (length ds + length [digit_char (z mod 10)])))
          with (Z.succ (Z.of_nat (S (length ds)))) by (simpl; lia).
        rewrite Z.pow_succ_r by lia. pose proof (Z.div_mod z 10). lia.
      * intros ->. exfalso. specialize (H0 eq_refl). subst ds.
        specialize (Hval 0). unfold digits_from in Hval. simpl foldl in Hval.
        change (Z.of_nat (nat_of_ascii (digit_char 0) - 48)) with 0 in Hval.
        assert (1 ≤ z / 10) by (apply Z.div_le_lower_bound; lia). lia.
Qed.

Lemma print_nonneg_spec z : 0 ≤ z →
  ∃ d ds, print_nonneg z = digit_char d :: ds ∧ 0 ≤ d < 10 ∧
    Forall (λ c, is_digit c = true) (digit_char d :: ds) ∧
    digits_value (digit_char d :: ds) = z ∧ int_digits (digit_char d :: ds) = true.
Proof.
  intros Hz. unfold print_nonneg.
  destruct (print_digits_spec (S (Z.to_nat (Z.log2 z))) z []) as (d & ds & Heq & Hd & Hds & Hv & H0).
  - lia.
  - split; [done|]. destruct (decide (z = 0)) as [->|]; [done|].
    assert (z < 2 ^ Z.succ (Z.log2 z)) by (apply Z.log2_spec; lia).
    pose proof (Z.log2_nonneg z).
    replace (Z.of_nat (S (Z.to_nat (Z.log2 z)))) with (Z.succ (Z.log2 z)) by lia.
    assert (2 ^ Z.succ (Z.log2 z) ≤ 10 ^ Z.succ (Z.log2 z)) by (apply Z.pow_le_mono_l; lia). lia.
  - exists d, ds. rewrite Heq, app_nil_r. split_and!; [done|lia|lia| | |].
    + constructor; [by apply digit_char_is_digit|done].
    + unfold digits_value. specialize (Hv 0). unfold digits_from in Hv. rewrite Hv. lia.
    + unfold int_digits. destruct ds as [|c ds]; [done|]. rewrite digit_char_zero by done.
      destruct (Z.eqb_spec d 0) as [->|]; [|done]. by specialize (H0 eq_refl).
Qed.

Definition number_end (r : list ascii) : Prop :=
  match r with
  | [] => True
  | c :: _ => is_digit c = false ∧ Ascii.eqb c "." = false ∧ Ascii.eqb c "e" = false ∧
              Ascii.eqb c "E" = false
  end.

Lemma span_digits ds r :
  Forall (λ c, is_digit c = true) ds →
  match r with [] => True | c :: _ => is_digit c = false end →
  span is_digit (ds ++ r) = (ds, r).
Proof.
  intros Hds Hr. induction Hds as [|c ds Hc _ IH]; simpl.
  - destruct r as [|c r]; [done|]. simpl. by rewrite Hr.
  - by rewrite Hc, IH.
Qed.

Lemma digit_char_not c d :
  0 ≤ d < 10 → is_digit c = false → Ascii.eqb (digit_char d) c = false.
Proof.
  intros Hd Hc. apply Ascii.eqb_neq. intros <-. by rewrite digit_char_is_digit in Hc.
Qed.

Lemma parse_exp_print e r : e < 0 → number_end r →
  parse_exp ("e"%char :: print_Z e ++ r) = Some (e, r).
Proof.
  intros He Hr. unfold print_Z. assert (e <? 0 = true) as -> by lia.
  destruct (print_nonneg_spec (- e)) as (d & ds & Heq & Hd & Hds & Hv & _); [lia|].
  rewrite Heq, <-app_comm_cons. unfold parse_exp.
  change (Ascii.eqb "e" "e" || Ascii.eqb "e" "E") with true.
  change (Ascii.eqb "-" "-") with true. cbv iota beta zeta.
  rewrite span_digits; [|done|destruct r; [done|apply Hr]].
  rewrite Hv. f_equal. f_equal. lia.
Qed.

Lemma strip_zeros_done n m e : m mod 10 ≠ 0 → strip_zeros n m e = JNum m e.
Proof.
  intros Hm. destruct n; [done|]. simpl. apply Z.eqb_neq in Hm as ->. by rewrite andb_false_r.
Qed.

Lemma parse_exp_none r : number_end r → parse_exp r = Some (0, r).
Proof.
  destruct r as [|c r]; [done|]. intros (_ & _ & He & HE). unfold parse_exp. by rewrite He, HE.
Qed.

(** The sign and digits of an integer in front of a text that is not a digit
    or a fraction. *)
Lemma parse_num_int z r :
  match r with [] => True | c :: _ => is_digit c = false ∧ Ascii.eqb c "." = false end →
  parse_num (print_Z z ++ r) =
    match parse_exp r with Some (e, r') => Some (make_num z e, r') | None => None end.
Proof.
  intros Hr. unfold print_Z.
  destruct (print_nonneg_spec (Z.abs z)) as (d & ds & Heq & Hd & Hds & Hv & Hi); [lia|].
  assert (parse_num ((if z <? 0 then "-"%char :: print_nonneg (- z) else print_nonneg z) ++ r) =
    let '(ds', s) := span is_digit ((digit_char d :: ds) ++ r) in
    if negb (int_digits ds') then None else
    match parse_exp r with
    | Some (e, r') => Some (make_num (if z <? 0 then - digits_value ds' else digits_value ds') e, r')
    | None => None
    end) as ->.
  { rewrite span_digits; [|done|destruct r; [done|apply Hr]].
    rewrite Hi. destruct (Z.ltb_spec z 0) as [Hz|Hz].
    - replace (- z) with (Z.abs z) by lia. rewrite Heq, <-app_comm_cons. unfold parse_num.
      change (Ascii.eqb "-" "-") with true. cbv iota beta.
      rewrite span_digits; [|done|destruct r; [done|apply Hr]]. rewrite Hi. cbv iota beta zeta.
      change (negb true) with false. cbv iota.
      destruct r as [|c r]; [|destruct Hr as [_ ->]]; rewrite app_nil_r;
        destruct (parse_exp _) as [[e r']|]; rewrite ?Z.sub_0_r; done.
    - replace z with (Z.abs z) at 1 by lia. rewrite Heq, <-app_comm_cons. unfold parse_num. cbv iota beta.
      rewrite digit_char_not by done.
      change (digit_char d :: ds ++ r) with ((digit_char d :: ds) ++ r).
      rewrite span_digits; [|done|destruct r; [done|apply Hr]]. rewrite Hi. cbv iota beta zeta.
      change (negb true) with false. cbv iota.
      destruct r as [|c r]; [|destruct Hr as [_ ->]]; rewrite app_nil_r;
        destruct (parse_exp _) as [[e r']|]; rewrite ?Z.sub_0_r; done. }
  rewrite span_digits; [|done|destruct r; [done|apply Hr]]. rewrite Hi. simpl negb. cbv iota.
  rewrite Hv. destruct (parse_exp r) as [[e r']|]; [|done].
  destruct (Z.ltb_spec z 0); do 3 f_equal; lia.
Qed.

(** The digits in front of the point and behind it, with an exponent or none. *)
Lemma parse_num_decimal (neg : bool) ds fs s ex r :
  Forall (λ c, is_digit c = true) ds → int_digits ds = true → Forall (λ c, is_digit c = true) fs → fs ≠ [] →
  match s with [] => True | c :: _ => is_digit c = false end → parse_exp s = Some (ex, r) →
  parse_num ((if neg then ["-"%char] else []) ++ ds ++ "."%char :: fs ++ s) =
    Some (make_num (if neg then - digits_value (ds ++ fs) else digits_value (ds ++ fs)) (ex - Z.of_nat (length fs)), r).
Proof.
  intros Hds Hi Hfs Hne Hs Hex. destruct ds as [|c ds]; [done|].
  assert (Ascii.eqb c "-" = false) as Hc.
  { apply Forall_cons in Hds as [Hc _]. apply Ascii.eqb_neq. by intros ->. }
  assert (parse_num ((if neg then ["-"%char] else []) ++ (c :: ds) ++ "."%char :: fs ++ s) =
    let '(ds', s') := span is_digit ((c :: ds) ++ "."%char :: fs ++ s) in
    if negb (int_digits ds') then None else
    match (match s' with
           | c :: r => if Ascii.eqb c "." then let '(fs, r) := span is_digit r in match fs with [] => None | _ => Some (fs, r) end
                       else Some ([], s')
           | [] => Some ([], s') end) with
    | None => None
    | Some (fs, s) => match parse_exp s with
                      | None => None
                      | Some (e, s) => let m := digits_value (ds' ++ fs) in
                                       Some (make_num (if neg then - m else m) (e - Z.of_nat (length fs)), s)
                      end
    end) as ->.
  { destruct neg; [done|]. cbn [app]. unfold parse_num. rewrite Hc. done. }
  rewrite span_digits by done. rewrite Hi. change (Ascii.eqb "." ".") with true. cbv iota beta. cbn [negb].
  rewrite span_digits by done. destruct fs as [|f fs]; [done|]. by rewrite Hex.
Qed.
Lemma digits_value_zeros n ds : digits_value (repeat "0"%char n ++ ds) = digits_value ds.
Proof. induction n as [|n IH]; [done|]. exact IH. Qed.
Lemma number_end_digit r : number_end r → match r with [] => True | c :: _ => is_digit c = false end.
Proof. destruct r; [done|]. by intros [? _]. Qed.

Lemma parse_num_print m e r :
  e = 0 ∨ (e < 0 ∧ m mod 10 ≠ 0) → number_end r →
  parse_num (print_num m e ++ r) = Some (JNum m e, r).
Proof.
  intros He Hr. unfold print_num. destruct (Z.eqb_spec e 0) as [->|Hne].
  { rewrite parse_num_int by (destruct r; [done|split; apply Hr]).
    rewrite parse_exp_none by done. unfold make_num. do 3 f_equal. simpl. lia. }
  assert (e < 0 ∧ m mod 10 ≠ 0) as [Hlt Hm] by (by destruct He). clear He.
  destruct (print_nonneg_spec (Z.abs m)) as (d & ds & Heq & Hd & Hds & Hv & Hi); [lia|].
  set (D := digit_char d :: ds) in *.
  assert ((if m <? 0 then "-"%char :: print_decimal (print_nonneg (- m)) e else print_decimal (print_nonneg m) e) ++ r =
    (if m <? 0 then ["-"%char] else []) ++ print_decimal D e ++ r) as ->.
  { destruct (Z.ltb_spec m 0); [replace (- m) with (Z.abs m) by lia|replace (print_nonneg m) with (print_nonneg (Z.abs m)) by (f_equal; lia)];
      by rewrite Heq. }
  assert ((if m <? 0 then - Z.abs m else Z.abs m) = m) as Habs by (destruct (Z.ltb_spec m 0); lia).
  assert (∀ ex, ex = e → make_num m ex = JNum m e) as Hmake.
  { intros ex ->. unfold make_num. assert (0 <=? e = false) as -> by lia. by apply strip_zeros_done. }
  unfold print_decimal. destruct (Z.ltb_spec 0 (Z.of_nat (length D) + e)) as [Hn|Hn].
  - set (n := Z.to_nat _). assert (0 < n < length D)%nat as Hnl by lia.
    rewrite <-app_assoc, <-app_comm_cons, (parse_num_decimal _ _ _ r 0 r).
    + rewrite take_drop, Hv, Habs, length_drop. by rewrite Hmake by (subst n; lia).
    + by apply Forall_take.
    + unfold D in *. destruct n as [|[|n]]; [lia|done|]. destruct ds as [|c ds]; [simpl in Hnl; lia|]. exact Hi.
    + by apply Forall_drop.
    + intros H%(f_equal length). rewrite length_drop in H. change (length (@nil ascii)) with 0%nat in H. lia.
    + by apply number_end_digit.
    + by apply parse_exp_none.
  - destruct (Z.ltb_spec (-6) (Z.of_nat (length D) + e)) as [Hn6|Hn6].
    + set (n := Z.to_nat _).
      change (("0"%char :: "."%char :: repeat "0"%char n ++ D) ++ r) with (["0"%char] ++ "."%char :: (repeat "0"%char n ++ D) ++ r).
      rewrite (parse_num_decimal _ _ _ r 0 r); [|by repeat constructor|done| |by destruct n|by apply number_end_digit|by apply parse_exp_none].
      * change ("0"%char :: repeat "0"%char n ++ D) with (repeat "0"%char (S n) ++ D).
        change (["0"%char] ++ repeat "0"%char n ++ D) with (repeat "0"%char (S n) ++ D).
        rewrite digits_value_zeros, Hv, Habs, length_app, repeat_length. by rewrite Hmake by (subst n; lia).
      * apply Forall_app. split; [|done]. clear. induction n; by constructor.
    + destruct ds as [|c ds].
      * change (length D) with 1%nat in *.
        assert (print_Z m ++ "e"%char :: print_Z (Z.of_nat 1 + e - 1) ++ r =
          (if m <? 0 then ["-"%char] else []) ++ (D ++ "e"%char :: print_Z (Z.of_nat 1 + e - 1)) ++ r) as Hp.
        { unfold print_Z at 1. destruct (Z.ltb_spec m 0); [replace (- m) with (Z.abs m) by lia|replace (print_nonneg m) with (print_nonneg (Z.abs m)) by (f_equal; lia)];
            by rewrite Heq. }
        unfold D at 1. cbn [app] in Hp |- *. rewrite <-Hp. rewrite parse_num_int by done.
        rewrite parse_exp_print by (done || lia). by rewrite Hmake by lia.
      * set (n := Z.of_nat (length D) + e) in *.
        lazymatch goal with |- parse_num (_ ++ ?X ++ r) = _ =>
          replace (X ++ r) with ([digit_char d] ++ "."%char :: (c :: ds) ++ "e"%char :: print_Z (n - 1) ++ r)
            by (unfold D; simpl; by rewrite <-app_assoc) end.
        apply Forall_cons in Hds as [Hd0 Hds0].
        rewrite (parse_num_decimal _ _ _ ("e"%char :: print_Z (n - 1) ++ r) (n - 1) r);
          [|by apply Forall_singleton|done|done|done|done|apply parse_exp_print; [lia|done]].
        change ([digit_char d] ++ c :: ds) with D. rewrite Hv, Habs, Hmake; [done|]. subst n. unfold D. simpl. lia.
Qed.

(** *** Values *)
Definition parses (v : json) : Prop :=
  ∀ n r, (length (print_json v) < n)%nat → number_end r → parse_value n (print_json v ++ r) = Some (v, r).

Lemma print_num_start m e : ∃ c r, print_num m e = c :: r ∧ (c = "-"%char ∨ ∃ d, 0 ≤ d < 10 ∧ c = digit_char d).
Proof.
  assert (∀ z, ∃ c r, print_Z z = c :: r ∧ (c = "-"%char ∨ ∃ d, 0 ≤ d < 10 ∧ c = digit_char d)) as HZ.
  { intros z. unfold print_Z. destruct (Z.ltb_spec z 0); [by eexists _, _; auto|].
    destruct (print_nonneg_spec z) as (d & ds & -> & Hd & _); [done|]. eexists _, _. eauto. }
  unfold print_num. destruct (e =? 0); [apply HZ|].
  assert (∀ z, 0 ≤ z → ∃ c r, print_decimal (print_nonneg z) e = c :: r ∧ (c = "-"%char ∨ ∃ d, 0 ≤ d < 10 ∧ c = digit_char d)) as HD.
  { intros z Hz. destruct (print_nonneg_spec z) as (d & ds & -> & Hd & _); [done|]. unfold print_decimal.
    destruct (Z.ltb_spec 0 (Z.of_nat (length (digit_char d :: ds)) + e)).
    - destruct (Z.to_nat _) as [|n] eqn:E; [lia|]. eexists _, _. split; [done|]. right. by exists d.
    - destruct (_ <? _); [eexists _, _; split; [done|]; right; by exists 0|].
      destruct ds; eexists _, _; (split; [done|]); right; by exists d. }
  destruct (Z.ltb_spec m 0); [eexists _, _; by auto|]. by apply HD.
Qed.

(** The first character of a printed value decides nothing but the value. *)
Lemma print_json_start v : ∃ c r, print_json v = c :: r ∧ is_ws c = false ∧ Ascii.eqb c "]" = false.
Proof.
  destruct v as [|[]|m e|s|l|fs]; try by eexists _, _.
  destruct (print_num_start m e) as (c & r & Heq & Hc). exists c, r. split; [exact Heq|].
  destruct Hc as [-> |(d & Hd & ->)]; [done|]. split; [|by apply digit_char_not].
  unfold is_ws. rewrite digit_char_nat by done.
  by repeat (match goal with |- context [Nat.eqb ?a ?b] =>
    assert (Nat.eqb a b = false) as -> by (apply Nat.eqb_neq; lia) end).
Qed.

Lemma skip_ws_start c r : is_ws c = false → skip_ws (c :: r) = c :: r.
Proof. intros H. simpl. by rewrite H. Qed.

Lemma parses_num m e : json_wf (JNum m e) → parses (JNum m e).
Proof.
  intros Hwf n r Hn Hr. destruct n as [|n]; [lia|].
  rewrite <-(parse_num_print m e r Hwf Hr).
  destruct (print_json_start (JNum m e)) as (c & s & Heq & Hws & _).
  destruct (print_num_start m e) as (c' & s' & Heq' & Hc). simpl in Heq. rewrite Heq in Heq'.
  injection Heq' as -> ->. cbn [print_json]. rewrite Heq, <-app_comm_cons. cbn [parse_value].
  rewrite skip_ws_start by done.
  destruct Hc as [-> |(d & Hd & ->)]; [done|]. by rewrite !digit_char_not by done.
Qed.

Lemma parses_str s : parses (JStr s).
Proof.
  intros n r Hn Hr. destruct n as [|n]; [lia|]. cbn [print_json parse_value]. unfold print_str.
  rewrite <-app_comm_cons, <-app_assoc. simpl skip_ws. change (Ascii.eqb dquote dquote) with true.
  cbv iota. simpl app at 2. rewrite parse_chars_print. by rewrite of_chars_chars.
Qed.

Lemma sep_by_cons sep x y ls : sep_by sep (x :: y :: ls) = x ++ sep ++ sep_by sep (y :: ls).
Proof. done. Qed.

Lemma parse_elems_print l n acc r :
  l ≠ [] → Forall parses l → (length (sep_by [","%char] (print_json <$> l)) + 1 < n)%nat →
  parse_elems n (sep_by [","%char] (print_json <$> l) ++ "]"%char :: r) acc = Some (JArr (acc ++ l), r).
Proof.
  revert n acc. induction l as [|x l IH]; intros n acc Hne Hall Hn; [done|].
  apply Forall_cons in Hall as [Hx Hall]. destruct n as [|n]; [lia|]. cbn [parse_elems].
  destruct l as [|y l].
  - cbn [fmap list_fmap sep_by] in *. rewrite Hx by (done || lia). done.
  - rewrite !fmap_cons, sep_by_cons in *. rewrite !length_app in Hn. simpl length in Hn at 2.
    rewrite <-!app_assoc. rewrite Hx by (done || lia). simpl skip_ws. cbv iota.
    change (Ascii.eqb "," ",") with true. cbv iota. simpl app at 1.
    rewrite IH; [by rewrite <-app_assoc|done|done|lia].
Qed.

Definition print_member (kv : string * json) : list ascii :=
  print_str kv.1 ++ ":"%char :: print_json kv.2.

Lemma parse_member_step n k v acc r :
  parses v → (length (print_json v) < n)%nat → number_end r →
  parse_members (S n) (print_member (k, v) ++ r) acc =
    match skip_ws r with
    | d :: r' =>
        if Ascii.eqb d "," then parse_members n r' (fields_set k v acc)
        else if Ascii.eqb d "}" then Some (JObj (fields_set k v acc), r') else None
    | [] => None
    end.
Proof.
  intros Hv Hn Hr. unfold print_member, print_str. simpl.
  replace (((concat (escape_char <$> chars k) ++ [dquote]) ++ ":"%char :: print_json v) ++ r)
    with (concat (escape_char <$> chars k) ++ dquote :: ":"%char :: (print_json v ++ r))
    by (by rewrite <-!app_assoc).
  rewrite parse_chars_print, of_chars_chars. simpl. by rewrite Hv.
Qed.

Lemma parse_members_print fs n acc r :
  fs ≠ [] → Forall (λ kv, parses kv.2) fs → NoDup fs.*1 → (∀ k, k ∈ fs.*1 → k ∉ acc.*1) →
  (length (sep_by [","%char] (print_member <$> fs)) + 1 < n)%nat →
  parse_members n (sep_by [","%char] (print_member <$> fs) ++ "}"%char :: r) acc =
    Some (JObj (acc ++ fs), r).
Proof.
  revert n acc. induction fs as [|[k v] fs IH]; intros n acc Hne Hall Hnd Hac Hn; [done|].
  apply Forall_cons in Hall as [Hv Hall]. rewrite fmap_cons in Hnd, Hac.
  apply NoDup_cons in Hnd as [Hk Hnd]. simpl in Hv, Hk.
  assert (fields_set k v acc = acc ++ [(k, v)]) as Hset by (apply fields_set_fresh, Hac; set_solver).
  assert (length (print_json v) + 1 ≤ length (print_member (k, v)))%nat as Hlen.
  { unfold print_member. rewrite length_app. simpl. lia. }
  destruct n as [|n]; [lia|]. destruct fs as [|kv' fs].
  - rewrite list_fmap_singleton in *. cbn [sep_by] in *.
    rewrite parse_member_step by (done || lia). simpl skip_ws. cbv iota.
    by rewrite Hset.
  - rewrite !fmap_cons, sep_by_cons in *. rewrite !length_app in Hn. simpl length in Hn at 2.
    rewrite <-!app_assoc. rewrite parse_member_step by (done || lia).
    simpl skip_ws. cbv iota. change (Ascii.eqb "," ",") with true. cbv iota. rewrite Hset.
    rewrite IH; [by rewrite <-app_assoc|done|done|done| |lia].
    intros k' Hk'. rewrite fmap_app. simpl. set_solver.
Qed.

Lemma parse_value_arr n d s :
  is_ws d = false → Ascii.eqb d "]" = false →
  parse_value (S n) ("["%char :: d :: s) = parse_elems n (d :: s) [].
Proof. destruct d as [[] [] [] [] [] [] [] []]; (discriminate || reflexivity). Qed.

Lemma parse_value_obj n s :
  parse_value (S n) ("{"%char :: dquote :: s) = parse_members n (dquote :: s) [].
Proof. reflexivity. Qed.

Lemma print_members_start x fs r :
  ∃ s, sep_by [","%char] (print_member <$> x :: fs) ++ "}"%char :: r = dquote :: s.
Proof. rewrite fmap_cons. destruct fs; simpl; eauto. Qed.

Lemma print_elems_start x l r : ∃ c s,
  sep_by [","%char] (print_json <$> x :: l) ++ "]"%char :: r = c :: s ∧
  is_ws c = false ∧ Ascii.eqb c "]" = false.
Proof.
  destruct (print_json_start x) as (c & s & Hx & Hws & Hc). exists c.
  rewrite fmap_cons, Hx. destruct l; simpl; eauto.
Qed.

Lemma parses_arr l : Forall parses l → parses (JArr l).
Proof.
  intros Hall [|n] r Hn Hr; [lia|]. cbn [print_json] in *. destruct l as [|x l]; [done|].
  rewrite <-app_comm_cons, <-app_assoc. cbn [length] in Hn. rewrite length_app in Hn. cbn [length] in Hn.
  pose proof (parse_elems_print (x :: l) n [] r ltac:(done) Hall) as He.
  destruct (print_elems_start x l r) as (c & s & Hs & Hws & Hc).
  change (["]"%char] ++ r) with ("]"%char :: r). rewrite Hs in He |- *.
  rewrite parse_value_arr by done. apply He. lia.
Qed.

Lemma parses_obj fs : NoDup fs.*1 → Forall (λ kv, parses kv.2) fs → parses (JObj fs).
Proof.
  intros Hnd Hall [|n] r Hn Hr; [lia|]. cbn [print_json] in *. fold print_member in *.
  destruct fs as [|x fs]; [done|].
  rewrite <-app_comm_cons, <-app_assoc. cbn [length] in Hn. rewrite length_app in Hn. cbn [length] in Hn.
  pose proof (parse_members_print (x :: fs) n [] r ltac:(done) Hall Hnd ltac:(set_solver)) as He.
  destruct (print_members_start x fs r) as [s Hs].
  change (["}"%char] ++ r) with ("}"%char :: r). rewrite Hs in He |- *.
  rewrite parse_value_obj. apply He. lia.
Qed.

Lemma json_parses v : json_wf v → parses v.
Proof.
  induction v as [|b|m e|s|l IH|fs IH] using json_nested_ind; intros Hwf.
  - intros [|n] r Hn Hr; [lia|]. done.
  - intros [|n] r Hn Hr; [lia|]. by destruct b.
  - by apply parses_num.
  - apply parses_str.
  - apply json_wf_arr in Hwf. apply parses_arr. rewrite Forall_forall in *. auto.
  - apply json_wf_obj in Hwf as [Hnd Hwf]. apply parses_obj; [done|].
    rewrite Forall_forall in *. auto.
Qed.

Lemma print_json_length v : (length (print_json v) < S (String.length (json_stringify v)))%nat.
Proof.
  unfold json_stringify, of_chars. generalize (print_json v). intros l.
  induction l; simpl in *; lia.
Qed.

(** [JSON.parse(JSON.stringify(v))] is [v]. *)
Lemma json_roundtrip v : json_wf v → json_parse (json_stringify v) = Some v.
Proof.
  intros Hwf. unfold json_parse. rewrite <-(app_nil_r (chars (json_stringify v))).
  unfold json_stringify at 2. rewrite chars_of_chars.
  rewrite json_parses; [done|done|apply print_json_length|done].
Qed.

(** An object [JSON.parse] returns has no repeated key. *)
Lemma fields_set_nodup {V} k (v : V) fs :
  NoDup fs.*1 → NoDup (fields_set k v fs).*1 ∧ ∀ x, x ∈ (fields_set k v fs).*1 ↔ x = k ∨ x ∈ fs.*1.
Proof.
  induction fs as [|[k0 v0] fs IH]; simpl.
  { intros _. split; [apply NoDup_singleton|]. intros x. rewrite list_elem_of_singleton.
    split; [by left|]. by intros [?|?%not_elem_of_nil]. }
  intros [Hk0 Hnd]%NoDup_cons. destruct (IH Hnd) as [H1 H2].
  destruct (seqb k0 k) eqn:E; simpl.
  - apply seqb_true in E as ->. split; [by constructor|]. intros x. rewrite elem_of_cons. tauto.
  - apply seqb_false in E. split.
    + constructor; [|done]. rewrite H2. by intros [?|?].
    + intros x. rewrite !elem_of_cons, H2. tauto.
Qed.

Lemma parse_members_nodup n s acc fs r :
  NoDup acc.*1 → parse_members n s acc = Some (JObj fs, r) → NoDup fs.*1.
Proof.
  revert s acc. induction n as [|n IH]; intros s acc Hnd; [done|]. cbn [parse_members].
  destruct (skip_ws s) as [|q s1]; [done|]. destruct (Ascii.eqb q dquote); [|done].
  destruct (parse_chars s1) as [[k s2]|]; [|done]. destruct (skip_ws s2) as [|c s3]; [done|].
  destruct (Ascii.eqb c ":"); [|done]. destruct (parse_value n s3) as [[v s4]|]; [|done].
  pose proof (proj1 (fields_set_nodup (of_chars k) v acc Hnd)) as Hnd'.
  destruct (skip_ws s4) as [|d s5]; [done|]. destruct (Ascii.eqb d ","); [by apply IH|].
  destruct (Ascii.eqb d "}"); [|done]. by intros [= <- _].
Qed.

Lemma parse_elems_arr n s acc v r : parse_elems n s acc = Some (v, r) → ∃ l, v = JArr l.
Proof.
  revert s acc. induction n as [|n IH]; intros s acc; [done|]. cbn [parse_elems].
  destruct (parse_value n s) as [[x s1]|]; [|done]. destruct (skip_ws s1) as [|d s2]; [done|].
  destruct (Ascii.eqb d ","); [by apply IH|]. destruct (Ascii.eqb d "]"); [|done].
  intros [= <- _]. by eexists.
Qed.

Lemma strip_zeros_num n m e : ∃ m' e', strip_zeros n m e = JNum m' e'.
Proof. revert m e. induction n as [|n IH]; intros m e; simpl; [eauto|]. destruct (_ && _); eauto. Qed.

Lemma parse_num_not_obj s fs r : parse_num s ≠ Some (JObj fs, r).
Proof.
  unfold parse_num.
  destruct (match s with [] => _ | c :: r => _ end) as [neg s0]. destruct (span is_digit s0) as [ds s1].
  destruct (negb (int_digits ds)); [done|].
  destruct (match s1 with [] => _ | c :: r => _ end) as [[fr s2]|]; [|done].
  destruct (parse_exp s2) as [[e s3]|]; [|done]. unfold make_num.
  destruct (0 <=? _); [done|]. intros [= Hs _].
  match type of Hs with strip_zeros ?n ?m ?e = _ => destruct (strip_zeros_num n m e) as (? & ? & He) end.
  congruence.
Qed.

Lemma parse_value_nodup n s fs r : parse_value n s = Some (JObj fs, r) → NoDup fs.*1.
Proof.
  destruct n as [|n]; [done|]. cbn [parse_value]. destruct (skip_ws s) as [|c s1]; [done|].
  destruct (Ascii.eqb c dquote); [by destruct (parse_chars s1) as [[??]|]|].
  destruct (Ascii.eqb c "[").
  { destruct (skip_ws s1) as [|d s2]; [done|]. destruct (Ascii.eqb d "]"); [done|].
    intros [l ?]%parse_elems_arr. done. }
  destruct (Ascii.eqb c "{").
  { destruct (skip_ws s1) as [|d s2]; [done|]. destruct (Ascii.eqb d "}"); [intros [= <- _]; constructor|].
    apply parse_members_nodup. constructor. }
  destruct (Ascii.eqb c "n"); [by destruct (strip_prefix _ s1)|].
  destruct (Ascii.eqb c "t"); [by destruct (strip_prefix _ s1)|].
  destruct (Ascii.eqb c "f"); [by destruct (strip_prefix _ s1)|].
  intros H. by apply parse_num_not_obj in H.
Qed.

Lemma json_parse_nodup s fs : json_parse s = Some (JObj fs) → NoDup fs.*1.
Proof.
  unfold json_parse. destruct (parse_value _ _) as [[v r]|] eqn:E; [|done].
  destruct (skip_ws r); [|done]. intros [= ->]. by eapply parse_value_nodup.
Qed.

(** Numbers as the language prints them. *)
Example decimals_in_place :
  json_stringify (JArr [JNum 15 (-1); JNum (-2) (-2); JNum 123 (-5); JNum 15 (-8); JNum 1 (-7); JInt 10])
  = "[1.5,-0.02,0.00123,1.5e-7,1e-7,10]".
Proof. vm_compute. reflexivity. Qed.
