(* ===== verification/Frames.v ===== *)
(** * WebSocket frames (packages/sync/src/ws-frames.ts)

    The frame codec of the sync protocol: one type byte, a 24-byte nonce and the
    encrypted JSON payload, with the structural validation of each message.
    A byte string is a [string].  The cipher (XChaCha20-Poly1305, a library) and
    the random nonce are parameters; the laws assumed of the cipher are those of
    the library: decryption inverts encryption and the tag takes 16 bytes. *)
From Stdlib Require Import Ascii.
From S2P Require Import Prelude Json.

Inductive WsMessageType : Type :=
| CHANGELOG_PUSH | CHANGELOG_ACK | RELAY_SEND | RELAY_DELIVER | RELAY_ACK
| DRAIN_REQUEST | DRAIN_COMPLETE
| SNAPSHOT_BEGIN | SNAPSHOT_CHUNK | SNAPSHOT_END | SNAPSHOT_ACK | RESEED_REQUEST
| CONSISTENCY_REQUEST | CONSISTENCY_RESPONSE
| ROW_PULL_REQUEST | ROW_PULL_RESPONSE | ROW_PULL_ACK
| SPOOL_TRANSFER | SPOOL_TRANSFER_ACK | ERROR.

#[export] Instance WsMessageType_eq : EqDecision WsMessageType.
Proof. solve_decision. Defined.

Definition type_code (t : WsMessageType) : nat :=
  match t with
  | CHANGELOG_PUSH => 1 | CHANGELOG_ACK => 2 | RELAY_SEND => 3 | RELAY_DELIVER => 4 | RELAY_ACK => 5
  | DRAIN_REQUEST => 6 | DRAIN_COMPLETE => 7
  | SNAPSHOT_BEGIN => 16 | SNAPSHOT_CHUNK => 17 | SNAPSHOT_END => 18 | SNAPSHOT_ACK => 19 | RESEED_REQUEST => 20
  | CONSISTENCY_REQUEST => 32 | CONSISTENCY_RESPONSE => 33
  | ROW_PULL_REQUEST => 48 | ROW_PULL_RESPONSE => 49 | ROW_PULL_ACK => 50
  | SPOOL_TRANSFER => 64 | SPOOL_TRANSFER_ACK => 65 | ERROR => 255
  end%nat.

Definition message_types : list WsMessageType :=
  [CHANGELOG_PUSH; CHANGELOG_ACK; RELAY_SEND; RELAY_DELIVER; RELAY_ACK; DRAIN_REQUEST; DRAIN_COMPLETE;
   SNAPSHOT_BEGIN; SNAPSHOT_CHUNK; SNAPSHOT_END; SNAPSHOT_ACK; RESEED_REQUEST; CONSISTENCY_REQUEST;
   CONSISTENCY_RESPONSE; ROW_PULL_REQUEST; ROW_PULL_RESPONSE; ROW_PULL_ACK; SPOOL_TRANSFER;
   SPOOL_TRANSFER_ACK; ERROR].

(** The type a byte stands for. *)
Definition type_of_code (b : ascii) : option WsMessageType :=
  List.find (λ t, (type_code t =? nat_of_ascii b)%nat) message_types.

Definition isSpoolFrameByte (byte : option ascii) : bool :=
  match byte with
  | Some b => let n := nat_of_ascii b in (n =? type_code SPOOL_TRANSFER)%nat || (n =? type_code SPOOL_TRANSFER_ACK)%nat
  | None => false
  end.

(** ** Validation *)
Definition is_string (v : option json) : bool := match v with Some (JStr _) => true | _ => false end.
Definition is_number (v : option json) : bool := match v with Some (JNum _ _) => true | _ => false end.
Definition is_boolean (v : option json) : bool := match v with Some (JBool _) => true | _ => false end.
Definition is_array (v : option json) : bool := match v with Some (JArr _) => true | _ => false end.

Definition isW3CTraceCarrier (v : json) : bool :=
  match v with
  | JObj fs =>
      is_string (fields_get "traceparent" fs) &&
      match fields_get "tracestate" fs with None => true | v => is_string v end
  | _ => false
  end.

Definition isValidPayloadForType (type : WsMessageType) (p : json) : bool :=
  match p with
  | JObj _ | JArr _ =>
      let f k := json_get k p in
      match type with
      | CHANGELOG_PUSH | RELAY_SEND | RELAY_DELIVER | SPOOL_TRANSFER | SPOOL_TRANSFER_ACK => is_array (f "entries")
      | CHANGELOG_ACK => is_string (f "cursor")
      | RELAY_ACK => is_array (f "ids")
      | SNAPSHOT_BEGIN => is_string (f "snapshot_hlc") && is_array (f "tables")
      | SNAPSHOT_CHUNK => is_string (f "table_name") && is_number (f "offset") && is_array (f "rows")
      | SNAPSHOT_END => is_number (f "table_count") && is_number (f "row_count")
      | SNAPSHOT_ACK => is_string (f "snapshot_hlc")
      | RESEED_REQUEST => is_string (f "reason")
      | CONSISTENCY_REQUEST =>
          is_array (f "tables") &&
          match f "trace_context" with
          | None => true
          | Some tc =>
              isW3CTraceCarrier tc &&
              match tc with
              | JObj fs => forallb (λ kv, seqb kv.1 "traceparent" || seqb kv.1 "tracestate") fs
              | _ => false
              end
          end
      | CONSISTENCY_RESPONSE =>
          is_string (f "table") && is_array (f "pks") && is_number (f "count") && is_boolean (f "all_done")
      | ROW_PULL_REQUEST => is_string (f "request_id") && is_array (f "tables")
      | ROW_PULL_RESPONSE =>
          is_string (f "request_id") && is_string (f "table_name") && is_array (f "rows") && is_boolean (f "last")
      | ROW_PULL_ACK => is_string (f "request_id")
      | DRAIN_REQUEST | DRAIN_COMPLETE | ERROR => true
      end
  | _ => false
  end.

(** ** The codec *)
Inductive WsFrameError : Type := frame_too_short | unknown_type | decryption_failed | invalid_payload.

Section Codec.
Context (encrypt : string → string → string → string) (decrypt : string → string → string → option string).

Definition encodeFrame (nonce : string) (type : WsMessageType) (payload : json) (symmetricKey : string) : string :=
  String (ascii_of_nat (type_code type)) (nonce +:+ encrypt symmetricKey nonce (json_stringify payload)).

Definition decodeFrame (frame : string) (symmetricKey : string) : WsFrameError + (WsMessageType * json) :=
  if (String.length frame <? 41)%nat then inl frame_too_short
  else
    match frame with
    | EmptyString => inl frame_too_short
    | String typeByte _ =>
        match type_of_code typeByte with
        | None => inl unknown_type
        | Some type =>
            let nonce := String.substring 1 24 frame in
            let ciphertext := String.substring 25 (String.length frame - 25) frame in
            match decrypt symmetricKey nonce ciphertext with
            | None => inl decryption_failed
            | Some plaintext =>
                match json_parse plaintext with
                | None => inl invalid_payload
                | Some payload =>
                    if isValidPayloadForType type payload then inr (type, payload) else inl invalid_payload
                end
            end
        end
    end.

(** ** Facts *)
Lemma substring_prefix a b : String.substring 0 (String.length a) (a +:+ b) = a.
Proof.
  induction a as [|c a IH]; [by destruct b|].
  change (String c a +:+ b) with (String c (a +:+ b)). simpl. by rewrite IH.
Qed.
Lemma substring_whole b : String.substring 0 (String.length b) b = b.
Proof. induction b as [|c b IH]; [done|]. simpl. by rewrite IH. Qed.
Lemma substring_suffix a b : String.substring (String.length a) (String.length b) (a +:+ b) = b.
Proof.
  induction a as [|c a IH]; [apply substring_whole|].
  change (String c a +:+ b) with (String c (a +:+ b)). simpl. exact IH.
Qed.

Lemma type_of_code_of t : type_of_code (ascii_of_nat (type_code t)) = Some t.
Proof. by destruct t. Qed.

(** The laws of the cipher for one key and nonce. *)
Definition cipher_ok (key nonce : string) : Prop :=
  String.length nonce = 24%nat ∧
  ∀ m, decrypt key nonce (encrypt key nonce m) = Some m ∧
       String.length (encrypt key nonce m) = (String.length m + 16)%nat.

Lemma encodeFrame_length nonce t p key :
  cipher_ok key nonce → String.length (encodeFrame nonce t p key) = (41 + String.length (json_stringify p))%nat.
Proof.
  intros [Hn Hc]. unfold encodeFrame. cbn [String.length]. rewrite slength_app, Hn, (proj2 (Hc _)). lia.
Qed.

(** what one side encodes the other decodes: a frame of a well-formed
    payload decodes to its type and payload when the payload has the structure
    of its type, and is refused as [invalid_payload] otherwise. *)
Theorem frame_roundtrip nonce t p key :
  cipher_ok key nonce → json_wf p →
  decodeFrame (encodeFrame nonce t p key) key =
    if isValidPayloadForType t p then inr (t, p) else inl invalid_payload.
Proof.
  intros Hc Hp. unfold decodeFrame. rewrite encodeFrame_length by done.
  destruct (Nat.ltb_spec (41 + String.length (json_stringify p)) 41); [lia|].
  unfold encodeFrame. rewrite type_of_code_of. destruct Hc as [Hn Hc]. cbn [String.substring].
  destruct (Hc (json_stringify p)) as [Hd Hl]. set (ct := encrypt key nonce (json_stringify p)) in *.
  replace (String.substring 0 24 (nonce +:+ ct)) with nonce by (rewrite <-Hn; by rewrite substring_prefix).
  replace (41 + String.length (json_stringify p) - 25)%nat with (String.length ct) by lia.
  replace (String.substring 24 (String.length ct) (nonce +:+ ct)) with ct
    by (rewrite <-Hn; by rewrite substring_suffix).
  rewrite Hd, json_roundtrip by done. done.
Qed.

(** A frame that decodes was long enough, of a known type, authentic and valid. *)
Lemma decodeFrame_ok frame key t p :
  decodeFrame frame key = inr (t, p) →
  (41 ≤ String.length frame)%nat ∧ isValidPayloadForType t p = true ∧
  ∃ m, decrypt key (String.substring 1 24 frame) (String.substring 25 (String.length frame - 25) frame) = Some m ∧
       json_parse m = Some p.
Proof.
  unfold decodeFrame. destruct (Nat.ltb_spec (String.length frame) 41) as [|Hlen]; [done|].
  destruct frame as [|b rest]; [done|]. destruct (type_of_code b); [|done].
  destruct (decrypt _ _ _) as [m|]; [|done]. destruct (json_parse m) as [p0|] eqn:Em; [|done].
  destruct (isValidPayloadForType _ _) eqn:Ev; [|done]. intros [= -> ->].
  split_and!; [done|done|]. by exists m.
Qed.
End Codec.

(** A toy cipher that appends a tag, for the witnesses. *)
Definition tag16 : string := "0123456789abcdef".
Definition toy_encrypt (key nonce m : string) : string := m +:+ tag16.
Definition toy_decrypt (key nonce c : string) : option string :=
  let n := (String.length c - 16)%nat in
  if seqb (String.substring n 16 c) tag16 then Some (String.substring 0 n c) else None.
Definition toy_nonce : string := "abcdefghijklmnopqrstuvwx".

Lemma toy_cipher_ok key : cipher_ok toy_encrypt toy_decrypt key toy_nonce.
Proof.
  split; [done|]. intros m. unfold toy_encrypt, toy_decrypt. rewrite slength_app.
  change (String.length tag16) with 16%nat. split; [|done]. cbv zeta.
  replace (String.length m + 16 - 16)%nat with (String.length m) by lia.
  pose proof (substring_suffix m tag16) as H. change (String.length tag16) with 16%nat in H.
  rewrite H, seqb_refl. by rewrite substring_prefix.
Qed.

Lemma frame_roundtrip_witness :
  decodeFrame toy_decrypt (encodeFrame toy_encrypt toy_nonce CHANGELOG_ACK (JObj [("cursor", JStr "h1")]) "k") "k" =
    inr (CHANGELOG_ACK, JObj [("cursor", JStr "h1")]).
Proof.
  exact (frame_roundtrip toy_encrypt toy_decrypt toy_nonce CHANGELOG_ACK (JObj [("cursor", JStr "h1")]) "k"
    (toy_cipher_ok "k") (conj (NoDup_singleton _) (conj I I))).
Defined.
