(* ===== verification/Hlc.v ===== *)
(** * Hybrid logical clocks (packages/shared/src/hlc.ts)

    [parseHlc], [generateHlc] and [mergeHlc] on the strings the code handles,
    with [Number.parseInt], [toString(16)] and [padStart] written out ([NaN]
    included; counters are below 2^53, where doubles are exact).  The theorems
    say that the clock is strictly increasing in string order as long as the
    16-bit counter does not overflow, and what happens when it does. *)
From Stdlib Require Import Ascii.
From S2P Require Import Prelude.

Definition HLC_ZERO : string := "0000-00-00T00:00:00.000Z_0000_0000".

(** [s.lastIndexOf("_")] with the two substrings around it: [substring(0, i)]
    and [substring(i + 1)]; for [i = -1] these are the empty string and [s]. *)
Fixpoint split_last_us (s : string) : option (string * string) :=
  match s with
  | EmptyString => None
  | String c s' =>
      match split_last_us s' with
      | Some (a, b) => Some (String c a, b)
      | None => if Ascii.eqb c "_" then Some ("", s') else None
      end
  end.
Definition before_after_us (s : string) : string * string :=
  match split_last_us s with Some ab => ab | None => ("", s) end.

Definition parseHlc (hlc : string) : string * string * string :=
  let '(rest, siteId) := before_after_us hlc in
  let '(timestamp, counter) := before_after_us rest in
  (timestamp, counter, siteId).

(** ** Number.parseInt(s, 16): [None] is [NaN] *)
Definition hex_value (c : ascii) : option Z :=
  let n := Z.of_nat (nat_of_ascii c) in
  if (48 <=? n) && (n <=? 57) then Some (n - 48)
  else if (97 <=? n) && (n <=? 102) then Some (n - 87)
  else if (65 <=? n) && (n <=? 70) then Some (n - 55)
  else None.

Fixpoint hex_digits (acc : Z) (s : string) : Z :=
  match s with
  | String c s' => match hex_value c with Some d => hex_digits (16 * acc + d) s' | None => acc end
  | EmptyString => acc
  end.

Definition is_space (c : ascii) : bool :=
  let n := nat_of_ascii c in (n =? 32)%nat || ((9 <=? n)%nat && (n <=? 13)%nat).
Fixpoint trim_start (s : string) : string :=
  match s with
  | String c s' => if is_space c then trim_start s' else s
  | EmptyString => EmptyString
  end.

Definition parseInt16 (s : string) : option Z :=
  let s := trim_start s in
  let '(sign, s) :=
    match s with
    | String c s' => if Ascii.eqb c "-" then (-1, s') else if Ascii.eqb c "+" then (1, s') else (1, s)
    | EmptyString => (1, s)
    end in
  let s := match s with
           | String c (String d s') =>
               if Ascii.eqb c "0" && (Ascii.eqb d "x" || Ascii.eqb d "X") then s' else s
           | _ => s
           end in
  match s with
  | String c _ => match hex_value c with Some _ => Some (sign * hex_digits 0 s) | None => None end
  | EmptyString => None
  end.

(** ** n.toString(16).padStart(4, "0") *)
Definition hex_char (d : Z) : ascii :=
  ascii_of_nat (Z.to_nat (if d <? 10 then 48 + d else 87 + d)).
Fixpoint hex_loop (fuel : nat) (z : Z) (acc : string) : string :=
  match fuel with
  | O => acc
  | S fuel' =>
      let acc := String (hex_char (z mod 16)) acc in
      if z <? 16 then acc else hex_loop fuel' (z / 16) acc
  end.
Definition hex_nonneg (z : Z) : string := hex_loop (S (Z.to_nat (Z.log2 z))) z "".
(** [None] prints as [NaN]. *)
Definition toString16 (n : option Z) : string :=
  match n with
  | None => "NaN"
  | Some z => if z <? 0 then "-" +:+ hex_nonneg (- z) else hex_nonneg z
  end.
Definition padStart4 (s : string) : string :=
  match String.length s with
  | 0%nat => "0000" | 1%nat => "000" +:+ s | 2%nat => "00" +:+ s | 3%nat => "0" +:+ s
  | _ => s
  end.

(** [(n + 1).toString(16).padStart(4, "0")]. *)
Definition next_counter (n : option Z) : string :=
  padStart4 (toString16 ((λ z, z + 1) <$> n)).

Definition format_hlc (ts counter siteId : string) : string :=
  ts +:+ "_" +:+ counter +:+ "_" +:+ siteId.

Definition generateHlc (wallClock : string) (lastHlc : option string) (siteId : string) : string :=
  match lastHlc with
  | None | Some EmptyString => format_hlc wallClock "0000" siteId
  | Some last =>
      let '(lastTs, lastCounter, _) := parseHlc last in
      if sltb lastTs wallClock then format_hlc wallClock "0000" siteId
      else format_hlc lastTs (next_counter (parseInt16 lastCounter)) siteId
  end.

(** [[a, b].sort().pop()] and [Math.max], which is [NaN] when an argument is. *)
Definition smax (s t : string) : string := if sleb s t then t else s.
Definition math_max (a b : option Z) : option Z :=
  match a, b with Some x, Some y => Some (Z.max x y) | _, _ => None end.

Definition mergeHlc (now localHlc remoteHlc siteId : string) : string :=
  let '(localTs, localCounter, _) := parseHlc localHlc in
  let '(remoteTs, remoteCounter, _) := parseHlc remoteHlc in
  let maxTs := smax (smax now localTs) remoteTs in
  if seqb maxTs now && sltb localTs now && sltb remoteTs now then format_hlc now "0000" siteId
  else
    let maxCounter := math_max (parseInt16 localCounter) (parseInt16 remoteCounter) in
    format_hlc maxTs (next_counter maxCounter) siteId.

(** ** Well-formed clock values

    A timestamp is what [toISOString] returns for the years 0 to 9999: 24
    characters.  [hlc_value ts c site] is the string of a clock whose counter
    fits the four hex digits of the format. *)
Definition timestamp_ok (ts : string) : Prop := String.length ts = 24%nat.
Fixpoint no_us (s : string) : bool :=
  match s with
  | EmptyString => true
  | String c s' => negb (Ascii.eqb c "_") && no_us s'
  end.
Definition hlc_value (ts : string) (c : Z) (site : string) : string :=
  format_hlc ts (padStart4 (toString16 (Some c))) site.
Definition hlc_wf (h : string) : Prop :=
  ∃ ts c site, h = hlc_value ts c site ∧ timestamp_ok ts ∧ 0 ≤ c ≤ 65535 ∧ no_us site = true.

(** *** Splitting *)
Lemma split_last_us_none s : no_us s = true → split_last_us s = None.
Proof.
  induction s as [|c s IH]; [done|]. simpl. intros H. bool_props. by rewrite IH, H.
Qed.

Lemma split_last_us_app a s :
  no_us s = true → split_last_us (a +:+ "_" +:+ s) = Some (a, s).
Proof.
  intros Hs. induction a as [|c a IH].
  - change ("" +:+ "_" +:+ s) with (String "_" s). simpl. by rewrite split_last_us_none.
  - change (String c a +:+ "_" +:+ s) with (String c (a +:+ "_" +:+ s)). simpl. by rewrite IH.
Qed.

Lemma parseHlc_format ts c site :
  no_us c = true → no_us site = true → parseHlc (format_hlc ts c site) = (ts, c, site).
Proof.
  intros Hc Hs. unfold parseHlc, before_after_us, format_hlc.
  replace (ts +:+ "_" +:+ c +:+ "_" +:+ site) with ((ts +:+ "_" +:+ c) +:+ "_" +:+ site)
    by (by rewrite !sapp_assoc).
  by rewrite split_last_us_app, split_last_us_app.
Qed.

(** *** The four hex digits of a 16-bit counter *)
Definition hex4 (c : Z) : string :=
  String (hex_char (c / 4096)) (String (hex_char (c / 256 mod 16))
    (String (hex_char (c / 16 mod 16)) (String (hex_char (c mod 16)) ""))).

Lemma digit_cases (P : Z → Prop) d :
  P 0 → P 1 → P 2 → P 3 → P 4 → P 5 → P 6 → P 7 → P 8 → P 9 → P 10 → P 11 → P 12 →
  P 13 → P 14 → P 15 → 0 ≤ d < 16 → P d.
Proof.
  intros. assert (d = 0 ∨ d = 1 ∨ d = 2 ∨ d = 3 ∨ d = 4 ∨ d = 5 ∨ d = 6 ∨ d = 7 ∨ d = 8 ∨
    d = 9 ∨ d = 10 ∨ d = 11 ∨ d = 12 ∨ d = 13 ∨ d = 14 ∨ d = 15) as Hd by lia.
  repeat destruct Hd as [->|Hd]; try done. by subst.
Qed.

Lemma hex_char_value d : 0 ≤ d < 16 → hex_value (hex_char d) = Some d.
Proof. intros Hd. pattern d. by apply digit_cases. Qed.

Lemma hex_char_plain d : 0 ≤ d < 16 →
  Ascii.eqb (hex_char d) "_" = false ∧ is_space (hex_char d) = false ∧
  Ascii.eqb (hex_char d) "-" = false ∧ Ascii.eqb (hex_char d) "+" = false ∧
  Ascii.eqb (hex_char d) "x" = false ∧ Ascii.eqb (hex_char d) "X" = false.
Proof. intros Hd. pattern d. by apply digit_cases. Qed.

Lemma hex_char_lt d e : 0 ≤ d → d < e → e < 16 → Ascii.compare (hex_char d) (hex_char e) = Lt.
Proof.
  intros H0 H1 H2. unfold Ascii.compare, hex_char. rewrite N.compare_lt_iff.
  unfold ascii_of_nat. rewrite !N_ascii_embedding by (destruct (_ <? 10); lia).
  destruct (Z.ltb_spec d 10), (Z.ltb_spec e 10); lia.
Qed.

Lemma hex_loop_small fuel z acc :
  0 ≤ z < 16 → hex_loop (S fuel) z acc = String (hex_char z) acc.
Proof.
  intros Hz. simpl. rewrite Z.mod_small by lia.
  assert (z <? 16 = true) as -> by lia. done.
Qed.

Lemma hex_loop_big fuel z acc :
  16 ≤ z → hex_loop (S fuel) z acc = hex_loop fuel (z / 16) (String (hex_char (z mod 16)) acc).
Proof. intros Hz. simpl. by assert (z <? 16 = false) as -> by lia. Qed.

Lemma padStart4_hex c : 0 ≤ c ≤ 65535 → padStart4 (toString16 (Some c)) = hex4 c.
Proof.
  intros Hc. unfold toString16, hex_nonneg, hex4. assert (c <? 0 = false) as -> by lia.
  assert (c < 16 ∨ 16 ≤ c < 256 ∨ 256 ≤ c < 4096 ∨ 4096 ≤ c) as [H|[H|[H|H]]] by lia.
  - rewrite hex_loop_small by lia.
    replace (c / 4096) with 0 by (symmetry; apply Z.div_small; lia).
    replace (c / 256) with 0 by (symmetry; apply Z.div_small; lia).
    replace (c / 16) with 0 by (symmetry; apply Z.div_small; lia).
    by replace (c mod 16) with c by (symmetry; apply Z.mod_small; lia).
  - assert (4 ≤ Z.log2 c) by (apply Z.log2_le_pow2; lia).
    destruct (Z.to_nat (Z.log2 c)) as [|n] eqn:E; [lia|].
    assert (1 ≤ c / 16 < 16) by (split; [apply Z.div_le_lower_bound|apply Z.div_lt_upper_bound]; lia).
    rewrite hex_loop_big, hex_loop_small by lia.
    replace (c / 4096) with 0 by (symmetry; apply Z.div_small; lia).
    replace (c / 256) with 0 by (symmetry; apply Z.div_small; lia).
    by rewrite (Z.mod_small (c / 16)) by lia.
  - assert (8 ≤ Z.log2 c) by (apply Z.log2_le_pow2; lia).
    destruct (Z.to_nat (Z.log2 c)) as [|[|n]] eqn:E; [lia..|].
    assert (16 ≤ c / 16 < 256) by (split; [apply Z.div_le_lower_bound|apply Z.div_lt_upper_bound]; lia).
    assert (c / 16 / 16 = c / 256) as Hd by (by rewrite Z.div_div).
    assert (1 ≤ c / 256 < 16) by (split; [apply Z.div_le_lower_bound|apply Z.div_lt_upper_bound]; lia).
    rewrite !hex_loop_big by lia. rewrite Hd, hex_loop_small by lia.
    replace (c / 4096) with 0 by (symmetry; apply Z.div_small; lia).
    by rewrite (Z.mod_small (c / 256)) by lia.
  - assert (12 ≤ Z.log2 c) by (apply Z.log2_le_pow2; lia).
    destruct (Z.to_nat (Z.log2 c)) as [|[|[|n]]] eqn:E; [lia..|].
    assert (256 ≤ c / 16 < 4096) by (split; [apply Z.div_le_lower_bound|apply Z.div_lt_upper_bound]; lia).
    assert (c / 16 / 16 = c / 256) as Hd by (by rewrite Z.div_div).
    assert (c / 256 / 16 = c / 4096) as Hd' by (by rewrite Z.div_div).
    assert (16 ≤ c / 256 < 256) by (split; [apply Z.div_le_lower_bound|apply Z.div_lt_upper_bound]; lia).
    assert (1 ≤ c / 4096 < 16) by (split; [apply Z.div_le_lower_bound|apply Z.div_lt_upper_bound]; lia).
    rewrite hex_loop_big by lia. rewrite hex_loop_big by lia. rewrite Hd.
    rewrite hex_loop_big by lia. rewrite Hd', hex_loop_small by lia. done.
Qed.

(** The digits of a 16-bit counter. *)
Lemma hex4_digits c : 0 ≤ c ≤ 65535 →
  0 ≤ c / 4096 < 16 ∧ 0 ≤ c / 256 mod 16 < 16 ∧ 0 ≤ c / 16 mod 16 < 16 ∧ 0 ≤ c mod 16 < 16 ∧
  c = 4096 * (c / 4096) + 256 * (c / 256 mod 16) + 16 * (c / 16 mod 16) + c mod 16.
Proof. intros. Z.div_mod_to_equations. lia. Qed.

Lemma parseInt16_hex4 c : 0 ≤ c ≤ 65535 → parseInt16 (hex4 c) = Some c.
Proof.
  intros Hc. destruct (hex4_digits c Hc) as (H3 & H2 & H1 & H0 & Heq). unfold hex4.
  revert Heq. generalize dependent (c / 4096). generalize dependent (c / 256 mod 16).
  generalize dependent (c / 16 mod 16). generalize dependent (c mod 16).
  intros d0 H0 d1 H1 d2 H2 d3 H3 Heq.
  destruct (hex_char_plain d3 H3) as (_ & Hsp & Hm & Hp & _ & _).
  destruct (hex_char_plain d2 H2) as (_ & _ & _ & _ & Hx & HX).
  unfold parseInt16. cbn [trim_start]. rewrite Hsp, Hm, Hp, Hx, HX.
  rewrite orb_false_r, andb_false_r. rewrite hex_char_value by done.
  cbn [hex_digits]. rewrite !hex_char_value by done. f_equal. lia.
Qed.

Lemma no_us_hex4 c : 0 ≤ c ≤ 65535 → no_us (hex4 c) = true.
Proof.
  intros Hc. destruct (hex4_digits c Hc) as (H3 & H2 & H1 & H0 & _). unfold hex4, no_us.
  by rewrite (proj1 (hex_char_plain _ H3)), (proj1 (hex_char_plain _ H2)),
    (proj1 (hex_char_plain _ H1)), (proj1 (hex_char_plain _ H0)).
Qed.

Lemma hex4_lt c d : 0 ≤ c → c < d → d ≤ 65535 → (hex4 c) <s (hex4 d).
Proof.
  intros H Hlt H'. destruct (hex4_digits c) as (C3 & C2 & C1 & C0 & Hc); [lia|].
  destruct (hex4_digits d) as (D3 & D2 & D1 & D0 & Hd); [lia|].
  unfold hex4. apply sltb_compare. cbn [String.compare].
  revert Hc Hd. generalize dependent (c / 4096). generalize dependent (c / 256 mod 16).
  generalize dependent (c / 16 mod 16). generalize dependent (c mod 16).
  generalize dependent (d / 4096). generalize dependent (d / 256 mod 16).
  generalize dependent (d / 16 mod 16). generalize dependent (d mod 16).
  intros e0 ? e1 ? e2 ? e3 ? f0 ? f1 ? f2 ? f3 ? Hc Hd.
  assert (Hr : ∀ x, Ascii.compare (hex_char x) (hex_char x) = Eq)
    by (intros; unfold Ascii.compare; apply N.compare_refl).
  destruct (decide (f3 = e3)) as [->|]; [rewrite Hr|by rewrite hex_char_lt by lia].
  destruct (decide (f2 = e2)) as [->|]; [rewrite Hr|by rewrite hex_char_lt by lia].
  destruct (decide (f1 = e1)) as [->|]; [rewrite Hr|by rewrite hex_char_lt by lia].
  by rewrite hex_char_lt by lia.
Qed.

Lemma hlc_value_hex4 ts c site :
  0 ≤ c ≤ 65535 → hlc_value ts c site = format_hlc ts (hex4 c) site.
Proof. intros Hc. unfold hlc_value. by rewrite padStart4_hex. Qed.

Lemma parseHlc_value ts c site :
  0 ≤ c ≤ 65535 → no_us site = true → parseHlc (hlc_value ts c site) = (ts, hex4 c, site).
Proof.
  intros Hc Hs. rewrite hlc_value_hex4 by done. apply parseHlc_format; [by apply no_us_hex4|done].
Qed.

(** Clock values compare by timestamp, then by counter. *)
Lemma hlc_lt_ts ts ts' c c' site site' :
  String.length ts = String.length ts' → ts <s ts' → (format_hlc ts c site) <s (format_hlc ts' c' site').
Proof. intros. unfold format_hlc. by apply sltb_app_same_length. Qed.

Lemma hlc_lt_counter ts c c' site site' :
  0 ≤ c → c < c' → c' ≤ 65535 → (hlc_value ts c site) <s (hlc_value ts c' site').
Proof.
  intros. rewrite !hlc_value_hex4 by lia. unfold format_hlc. rewrite !sltb_app_prefix.
  apply sltb_app_same_length; [done|]. by apply hex4_lt.
Qed.

Lemma next_counter_hex4 c : 0 ≤ c < 65535 →
  next_counter (parseInt16 (hex4 c)) = padStart4 (toString16 (Some (c + 1))).
Proof. intros. by rewrite parseInt16_hex4 by lia. Qed.

Lemma format_hlc_zero ts site : format_hlc ts "0000" site = hlc_value ts 0 site.
Proof. done. Qed.

Lemma format_hlc_nonempty ts c site : ∃ a s, format_hlc ts c site = String a s.
Proof. destruct ts; by eexists _, _. Qed.
Lemma hlc_value_nonempty ts c site : ∃ a s, hlc_value ts c site = String a s.
Proof. apply format_hlc_nonempty. Qed.

(** What [generateHlc] returns on a clock value: the wall clock when it moved
    past the last timestamp, the successor of the last value otherwise. *)
Lemma generateHlc_value wall ts c site0 site :
  0 ≤ c < 65535 → no_us site0 = true →
  generateHlc wall (Some (hlc_value ts c site0)) site =
    if sltb ts wall then hlc_value wall 0 site else hlc_value ts (c + 1) site.
Proof.
  intros Hc Hs. destruct (hlc_value_nonempty ts c site0) as (a & s & E).
  unfold generateHlc. rewrite E, <-E.
  rewrite parseHlc_value by (lia || done).
  destruct (sltb ts wall); [done|]. by rewrite next_counter_hex4.
Qed.

(** ** Theorems *)

(** a new clock value is strictly greater, in string order, than the last
    one and is again a well-formed clock value, whatever the wall clock says,
    as long as the last counter is below [ffff]. *)
Theorem generateHlc_increasing wall ts c site0 site :
  timestamp_ok wall → timestamp_ok ts → 0 ≤ c < 65535 → no_us site0 = true → no_us site = true →
  let new := generateHlc wall (Some (hlc_value ts c site0)) site in
  (hlc_value ts c site0) <s new ∧ hlc_wf new.
Proof.
  intros Hw Ht Hc Hs0 Hs new. subst new. rewrite generateHlc_value by done.
  destruct (sltb ts wall) eqn:E; split.
  - apply hlc_lt_ts; [by rewrite Hw, Ht|done].
  - exists wall, 0, site. by repeat split; try lia.
  - by apply hlc_lt_counter; lia.
  - exists ts, (c + 1), site. by repeat split; try lia.
Qed.

Lemma generateHlc_increasing_witness :
  let last := hlc_value "2026-01-01T00:00:00.000Z" 4095 "a" in
  last <s (generateHlc "2025-01-01T00:00:00.000Z" (Some last) "b").
Proof.
  apply (generateHlc_increasing "2025-01-01T00:00:00.000Z" "2026-01-01T00:00:00.000Z" 4095 "a" "b");
    (reflexivity || lia).
Defined.

Lemma smax_spec s t : (s ≤s (smax s t)) ∧ (t ≤s (smax s t)) ∧ (smax s t = s ∨ smax s t = t).
Proof.
  unfold smax. destruct (sleb s t) eqn:E; [auto using sleb_refl|].
  rewrite sleb_sltb in E. bool_props. auto using sleb_refl, sltb_sleb_weak.
Qed.

Lemma hlc_le_bump ts c site ts' c' site' :
  timestamp_ok ts → timestamp_ok ts' → ts ≤s ts' → 0 ≤ c → c < c' → c' ≤ 65535 →
  (hlc_value ts c site) <s (hlc_value ts' c' site').
Proof.
  intros H1 H2 Hle ???. destruct (decide (ts = ts')) as [->|Hne]; [by apply hlc_lt_counter|].
  apply hlc_lt_ts; [by rewrite H1, H2|].
  destruct (sltb_total _ _ Hne) as [|Hlt]; [done|].
  by rewrite sltb_sleb, Hle in Hlt.
Qed.

(** What [mergeHlc] returns on two clock values: a clock value above both whose
    counter is at most one above theirs. *)
Lemma mergeHlc_value now ts1 c1 s1 ts2 c2 s2 site :
  timestamp_ok now → timestamp_ok ts1 → timestamp_ok ts2 →
  0 ≤ c1 < 65535 → 0 ≤ c2 < 65535 → no_us s1 = true → no_us s2 = true →
  let merged := mergeHlc now (hlc_value ts1 c1 s1) (hlc_value ts2 c2 s2) site in
  (hlc_value ts1 c1 s1) <s merged ∧ (hlc_value ts2 c2 s2) <s merged ∧
  ∃ ts c, merged = hlc_value ts c site ∧ timestamp_ok ts ∧ 0 ≤ c ≤ Z.max c1 c2 + 1.
Proof.
  intros Hn H1 H2 Hc1 Hc2 Hs1 Hs2 merged. subst merged. unfold mergeHlc.
  rewrite !parseHlc_value by (lia || done).
  destruct (seqb _ now && sltb ts1 now && sltb ts2 now) eqn:E.
  - bool_props. rewrite !format_hlc_zero. split_and!.
    + apply hlc_lt_ts; [by rewrite Hn, H1|done].
    + apply hlc_lt_ts; [by rewrite Hn, H2|done].
    + exists now, 0. split_and!; (done || lia).
  - rewrite !parseInt16_hex4 by lia.
    destruct (smax_spec now ts1) as (A1 & A2 & A3).
    destruct (smax_spec (smax now ts1) ts2) as (B1 & B2 & B3).
    assert (timestamp_ok (smax (smax now ts1) ts2)) as Hok.
    { destruct B3 as [->| ->]; [|done]. by destruct A3 as [->| ->]. }
    split_and!.
    + apply hlc_le_bump; try done; try lia. by apply (sleb_trans _ (smax now ts1)).
    + apply hlc_le_bump; try done; lia.
    + exists (smax (smax now ts1) ts2), (Z.max c1 c2 + 1). split_and!; (done || lia).
Qed.

(** merging a local and a remote clock value gives a value strictly greater
    than both, for every wall clock (ties included), while both counters are
    below [ffff]. *)
Theorem mergeHlc_greater now ts1 c1 s1 ts2 c2 s2 site :
  timestamp_ok now → timestamp_ok ts1 → timestamp_ok ts2 →
  0 ≤ c1 < 65535 → 0 ≤ c2 < 65535 → no_us s1 = true → no_us s2 = true →
  let merged := mergeHlc now (hlc_value ts1 c1 s1) (hlc_value ts2 c2 s2) site in
  (hlc_value ts1 c1 s1) <s merged ∧ (hlc_value ts2 c2 s2) <s merged.
Proof.
  intros Hn H1 H2 Hc1 Hc2 Hs1 Hs2 merged.
  destruct (mergeHlc_value now ts1 c1 s1 ts2 c2 s2 site) as (A & B & _); done.
Qed.

Lemma mergeHlc_greater_witness :
  let l := hlc_value "2026-01-01T00:00:00.000Z" 7 "a" in
  let r := hlc_value "2026-01-01T00:00:00.001Z" 2 "b" in
  let m := mergeHlc "2026-01-01T00:00:00.001Z" l r "a" in
  (l <s m) ∧ (r <s m).
Proof.
  apply (mergeHlc_greater "2026-01-01T00:00:00.001Z" "2026-01-01T00:00:00.000Z" 7 "a"
           "2026-01-01T00:00:00.001Z" 2 "b" "a"); (reflexivity || lia).
Defined.

(** at counter [ffff] with a wall clock that has not moved the counter
    needs a fifth hex digit and the new value sorts strictly BELOW the last
    one, for every timestamp and site. *)
Theorem generateHlc_overflow wall ts site0 site :
  wall ≤s ts → no_us site0 = true →
  let last := hlc_value ts 65535 site0 in
  generateHlc wall (Some last) site = format_hlc ts "10000" site ∧
  (generateHlc wall (Some last) site) <s last.
Proof.
  intros Hle Hs last. subst last.
  assert (generateHlc wall (Some (hlc_value ts 65535 site0)) site = format_hlc ts "10000" site) as ->.
  { destruct (hlc_value_nonempty ts 65535 site0) as (a & s & E).
    unfold generateHlc. rewrite E, <-E. rewrite parseHlc_value by (lia || done).
    rewrite sltb_sleb, Hle. done. }
  split; [done|]. rewrite hlc_value_hex4 by lia. unfold format_hlc.
  rewrite !sltb_app_prefix. done.
Qed.

Lemma generateHlc_overflow_witness :
  let last := hlc_value "2026-01-01T00:00:00.000Z" 65535 "a" in
  (generateHlc "2026-01-01T00:00:00.000Z" (Some last) "a") <s last.
Proof.
  apply (generateHlc_overflow "2026-01-01T00:00:00.000Z" "2026-01-01T00:00:00.000Z" "a" "a");
    reflexivity.
Defined.
