(* ===== verification/Text.v ===== *)
(** * Texts

    A JavaScript string as the sequence of its UTF-16 code units, for the code
    that measures, slices or hashes characters: [length], [slice], [trim],
    [split] on a character, [join], [indexOf], [startsWith] and the regular
    expressions over digits.  [utf16] decodes the UTF-8 strings the other files
    use; [lit] is a string literal of the source. *)
From Stdlib Require Import Ascii.
From S2P Require Import Prelude Json Hlc.

Definition text := list Z.

Definition byte (c : ascii) : Z := Z.of_nat (nat_of_ascii c).

(** A code point as code units. *)
Definition encode16 (cp : Z) : text :=
  if cp <? 65536 then [cp]
  else [55296 + (cp - 65536) / 1024; 56320 + (cp - 65536) mod 1024].

(** Well-formed UTF-8 decodes by the length its lead byte announces; other
    bytes stand for themselves. *)
Fixpoint utf16_of (s : list ascii) : text :=
  match s with
  | [] => []
  | a :: s1 =>
      if byte a <? 192 then byte a :: utf16_of s1
      else if byte a <? 224 then
        match s1 with
        | b :: s2 => (byte a - 192) * 64 + (byte b - 128) :: utf16_of s2
        | [] => [byte a]
        end
      else if byte a <? 240 then
        match s1 with
        | b :: c :: s3 => (byte a - 224) * 4096 + (byte b - 128) * 64 + (byte c - 128) :: utf16_of s3
        | _ => [byte a]
        end
      else
        match s1 with
        | b :: c :: d :: s4 =>
            encode16 ((byte a - 240) * 262144 + (byte b - 128) * 4096 + (byte c - 128) * 64 + (byte d - 128))
              ++ utf16_of s4
        | _ => [byte a]
        end
  end.
Definition utf16 (s : string) : text := utf16_of (chars s).
Definition lit (s : string) : text := utf16 s.

(** Digits and other ASCII characters. *)
Definition ascii_text (s : list ascii) : text := byte <$> s.
(** [`${z}`] for an integer. *)
Definition dec (z : Z) : text := ascii_text (print_Z z).

Definition teqb (s t : text) : bool := bool_decide (s = t).
Definition is_empty_text (s : text) : bool := match s with [] => true | _ => false end.

Fixpoint starts_with_text (p s : text) : bool :=
  match p, s with
  | [], _ => true
  | _, [] => false
  | x :: p', y :: s' => (x =? y) && starts_with_text p' s'
  end.
Definition ends_with_text (p s : text) : bool := starts_with_text (reverse p) (reverse s).

(** [s.includes(p)]. *)
Fixpoint includes_text (p s : text) : bool :=
  starts_with_text p s || match s with [] => false | _ :: s' => includes_text p s' end.

(** White space and line terminators of the language: what [trim] removes and
    [\s] matches. *)
Definition text_ws (c : Z) : bool :=
  (9 <=? c) && (c <=? 13) || (c =? 32) || (c =? 160) || (c =? 5760) ||
  (8192 <=? c) && (c <=? 8202) || (c =? 8232) || (c =? 8233) || (c =? 8239) || (c =? 8287) ||
  (c =? 12288) || (c =? 65279).
Fixpoint drop_ws (s : text) : text :=
  match s with
  | c :: s' => if text_ws c then drop_ws s' else s
  | [] => []
  end.
Definition trim_text (s : text) : text := reverse (drop_ws (reverse (drop_ws s))).

Definition NL : Z := 10.
(** [s.split(c)] for a one-character separator. *)
Fixpoint split_char (c : Z) (s : text) : list text :=
  match s with
  | [] => [[]]
  | x :: s' =>
      if x =? c then [] :: split_char c s'
      else match split_char c s' with
           | p :: ps => (x :: p) :: ps
           | [] => [[x]]
           end
  end.
(** [ls.join(c)]. *)
Fixpoint join_char (c : Z) (ls : list text) : text :=
  match ls with
  | [] => []
  | [l] => l
  | l :: ls' => l ++ c :: join_char c ls'
  end.
(** The parts of [s] before and after the first [c]. *)
Fixpoint break_char (c : Z) (s : text) : option (text * text) :=
  match s with
  | [] => None
  | x :: s' =>
      if x =? c then Some ([], s')
      else match break_char c s' with Some (a, b) => Some (x :: a, b) | None => None end
  end.

Definition digit_unit (c : Z) : bool := (48 <=? c) && (c <=? 57).
(** [/^\d+$/]. *)
Definition all_digits (s : text) : bool := negb (is_empty_text s) && forallb digit_unit s.
(** [Number.parseInt(s, 10)] of a run of digits. *)
Definition digits_num (s : text) : Z := foldl (λ acc c, 10 * acc + (c - 48)) 0 s.

(** [s.padStart(n, "0")]. *)
Definition pad_zero (n : nat) (s : text) : text := replicate (n - length s) 48 ++ s.

(** ** Laws *)
Lemma split_char_ne c s : split_char c s ≠ [].
Proof. destruct s as [|x s]; [discriminate|]. simpl. destruct (x =? c); [discriminate|]. destruct (split_char c s); discriminate. Qed.

Lemma join_split c s : join_char c (split_char c s) = s.
Proof.
  induction s as [|x s IH]; [done|]. simpl. destruct (Z.eqb_spec x c) as [->|Hne].
  - pose proof (split_char_ne c s). destruct (split_char c s) as [|p ps]; [done|]. simpl. by rewrite <-IH.
  - destruct (split_char c s) as [|p ps] eqn:E; [by destruct (split_char_ne c s)|].
    rewrite <-IH. by destruct ps.
Qed.

Lemma split_char_parts c s p : p ∈ split_char c s → c ∉ p.
Proof.
  revert p. induction s as [|x s IH]; intros p; simpl.
  - intros ->%list_elem_of_singleton. apply not_elem_of_nil.
  - destruct (Z.eqb_spec x c) as [->|Hne].
    + intros [->|H]%elem_of_cons; [apply not_elem_of_nil|by apply IH].
    + destruct (split_char c s) as [|q qs].
      * intros ->%list_elem_of_singleton. rewrite list_elem_of_singleton. congruence.
      * intros [->|H]%elem_of_cons; [|apply IH; by right].
        intros [?|H]%elem_of_cons; [congruence|]. revert H. apply IH. by left.
Qed.

Lemma split_char_none c s : c ∉ s → split_char c s = [s].
Proof.
  induction s as [|x s IH]; intros H; [done|]. simpl.
  destruct (Z.eqb_spec x c) as [->|Hne]; [set_solver|]. rewrite IH; [done|set_solver].
Qed.

Lemma split_char_app c a b : c ∉ a → split_char c (a ++ c :: b) = a :: split_char c b.
Proof.
  induction a as [|x a IH]; intros H; simpl; [by rewrite Z.eqb_refl|].
  destruct (Z.eqb_spec x c) as [->|Hne]; [set_solver|]. rewrite IH; [done|set_solver].
Qed.

Lemma split_join c ls : ls ≠ [] → (∀ l, l ∈ ls → c ∉ l) → split_char c (join_char c ls) = ls.
Proof.
  induction ls as [|l ls IH]; intros Hne H; [done|]. destruct ls as [|k ls].
  - simpl. apply split_char_none. apply H. set_solver.
  - change (join_char c (l :: k :: ls)) with (l ++ c :: join_char c (k :: ls)).
    rewrite split_char_app by (apply H; set_solver). rewrite IH; [done|done|set_solver].
Qed.

Lemma break_char_app c a b : c ∉ a → break_char c (a ++ c :: b) = Some (a, b).
Proof.
  induction a as [|x a IH]; intros H; simpl; [by rewrite Z.eqb_refl|].
  destruct (Z.eqb_spec x c) as [->|Hne]; [set_solver|]. rewrite IH; [done|set_solver].
Qed.

Lemma byte_digit c : is_digit c = digit_unit (byte c).
Proof.
  unfold is_digit, digit_unit, byte. apply eq_true_iff_eq.
  rewrite !andb_true_iff, !Nat.leb_le, !Z.leb_le. lia.
Qed.


Lemma foldl_digits ds a : Forall (λ c, is_digit c = true) ds →
  foldl (λ acc c, 10 * acc + (c - 48)) a (ascii_text ds) = digits_from a ds.
Proof.
  revert a. induction ds as [|c ds IH]; intros a H; [done|]. inversion H as [|? ? Hc Hds]; subst.
  unfold digits_from in *. simpl. rewrite IH by done. f_equal.
  unfold is_digit in Hc. apply andb_prop in Hc as [Hc _]. apply Nat.leb_le in Hc. unfold byte. lia.
Qed.

(** A printed number reads back. *)
Lemma dec_digits z : 0 ≤ z → all_digits (dec z) = true ∧ digits_num (dec z) = z ∧ Forall (λ c, digit_unit c = true) (dec z).
Proof.
  intros Hz. unfold dec, print_Z. destruct (Z.ltb_spec z 0) as [?|_]; [lia|].
  destruct (print_nonneg_spec z Hz) as (d & ds & -> & _ & Hds & Hv & _).
  assert (Forall (λ c, digit_unit c = true) (ascii_text (digit_char d :: ds))) as Hall.
  { unfold ascii_text. rewrite Forall_fmap. eapply Forall_impl; [exact Hds|]. intros c Hc. simpl. by rewrite <-byte_digit. }
  split_and!; [|by unfold digits_num; rewrite foldl_digits|done].
  unfold all_digits. apply andb_true_intro. split; [reflexivity|]. apply forallb_forall. intros x Hx. rewrite Forall_forall in Hall.
  apply Hall. by apply list_elem_of_In.
Qed.

Lemma length_pad_zero n s : (n ≤ length (pad_zero n s))%nat.
Proof. unfold pad_zero. rewrite length_app, length_replicate. lia. Qed.
Lemma dec_no c z : digit_unit c = false → 0 ≤ z → c ∉ dec z.
Proof.
  intros Hc Hz Hin. destruct (dec_digits z Hz) as (_ & _ & H). rewrite Forall_forall in H.
  apply H in Hin. by rewrite Hin in Hc.
Qed.
