(* ===== verification/Hashline.v ===== *)
(** * Hash-anchored edits (packages/shared/src/hashline.ts)

    Every line of a file is read as [LINE:HASH|content], and an edit names the
    range it replaces by such anchors: the 32-bit line hash, the rendering, the
    parsing and resolution of anchors and the atomic application of a batch.
    A file's content is a text, so the hash reads the code units the code
    reads; [Math.imul], [^=] and [>>>] keep their 32 bits. *)
From Stdlib Require Import Ascii.
From S2P Require Import Prelude Json Hlc Text.

Record HashlineAnchor := MkAnchor { an_line : option Z; an_hash : text }.
Record HashlineEdit := MkEdit { ed_start : text; ed_end : text; ed_content : text }.
Record HashlineEditRegion := MkRegion { rg_startLine : Z; rg_lineCount : Z }.
Inductive HashlineApplyResult :=
| Applied (content : text) (regions : list HashlineEditRegion)
| Rejected (error : text).
Inductive AnchorResolution := Resolved (index : nat) | Unresolved (error : text).

Definition EMPTY_LINE_HASH : text := lit "0000".

(** ** Hashes *)
Definition to_int32 (z : Z) : Z := (z + 2147483648) mod 4294967296 - 2147483648.
Definition to_uint32 (z : Z) : Z := z mod 4294967296.
Definition imul (a b : Z) : Z := to_int32 (to_int32 a * to_int32 b).

Definition fnv_step (h c : Z) : Z := imul (Z.lxor (to_int32 h) c) 16777619.
Definition fnv (s : text) : Z := foldl fnv_step 2166136261 s.

Definition hex_text (z : Z) : text := ascii_text (chars (hex_nonneg z)).

Definition computeLineHash (line : text) : text :=
  let stripped := trim_text line in
  if is_empty_text stripped then EMPTY_LINE_HASH
  else take 4 (pad_zero 8 (hex_text (to_uint32 (fnv stripped)))).

Definition hex_unit (c : Z) : bool := digit_unit c || (97 <=? c) && (c <=? 102).
Definition isValidHash (hash : text) : bool :=
  teqb hash EMPTY_LINE_HASH || (length hash =? 4)%nat && forallb hex_unit hash.

(** ** Lines *)
Definition has_trailing_newline (content : text) : bool := ends_with_text [NL] content.
Definition splitLines (content : text) : list text :=
  if is_empty_text content then []
  else split_char NL (if has_trailing_newline content then take (length content - 1) content else content).

Definition COLON : Z := 58.
Definition PIPE : Z := 124.
(** [LINE:HASH] of line [i] (from 0). *)
Definition anchor_text (i : nat) (line : text) : text :=
  dec (Z.of_nat i + 1) ++ COLON :: computeLineHash line.
Definition hash_line (i : nat) (line : text) : text := anchor_text i line ++ PIPE :: line.

Definition formatWithHashes (content : text) (offset : Z) (limit : option Z) : text :=
  let lines := splitLines content in
  let start := Z.max 0 (offset - 1) in
  let end_ := match limit with
              | None => Z.of_nat (length lines)
              | Some n => Z.min (Z.of_nat (length lines)) (start + n)
              end in
  join_char NL (imap (λ k l, hash_line (Z.to_nat start + k) l)
    (take (Z.to_nat (end_ - start)) (drop (Z.to_nat start) lines))).

(** ** Anchors *)
Definition parseAnchor (anchor : text) : option HashlineAnchor :=
  if is_empty_text anchor then None
  else match break_char COLON anchor with
       | None => if isValidHash anchor then Some (MkAnchor None anchor) else None
       | Some (linePart, hashPart) =>
           if negb (all_digits linePart) then None
           else if negb (isValidHash hashPart) then None
           else let line := digits_num linePart in
                if line <? 1 then None else Some (MkAnchor (Some line) hashPart)
       end.

Definition hash_matches (lines : list text) (hash : text) : list nat :=
  List.filter (λ i, match lines !! i with Some l => teqb (computeLineHash l) hash | None => false end)
    (seq 0 (length lines)).
Definition distance (targetIdx : Z) (m : nat) : Z := Z.abs (Z.of_nat m - targetIdx).
Definition nearest (targetIdx : Z) (first : nat) (matches : list nat) : nat :=
  foldl (λ best m, if distance targetIdx m <? distance targetIdx best then m else best) first matches.

Definition not_found (hash : text) : text :=
  lit "hash " ++ [34] ++ hash ++ [34] ++
  lit " not found — the file may have changed; re-read to get fresh anchors".

Definition resolveAnchor (lines : list text) (anchor : HashlineAnchor) : AnchorResolution :=
  let matches := hash_matches lines (an_hash anchor) in
  match matches with
  | [] => Unresolved (not_found (an_hash anchor))
  | [m] => Resolved m
  | m :: _ =>
      match an_line anchor with
      | None => Resolved m
      | Some line => Resolved (nearest (line - 1) m matches)
      end
  end.

(** ** Applying a batch *)
Record ResolvedEdit := MkResolved { rs_editIdx : Z; rs_start : nat; rs_end : nat; rs_content : text }.

Definition at_edit (ei : Z) : text := lit "edit " ++ dec ei ++ lit ": ".
Definition malformed (ei : Z) (which : string) (anchor : text) : text :=
  at_edit ei ++ lit "malformed " ++ lit which ++ lit " anchor " ++ [34] ++ anchor ++ [34] ++
  lit " (expected LINE:HASH)".
Definition anchor_error (ei : Z) (which : string) (anchor error : text) : text :=
  at_edit ei ++ lit which ++ lit " anchor " ++ [34] ++ anchor ++ [34] ++ lit ": " ++ error.
Definition inverted (ei : Z) (s e : nat) : text :=
  at_edit ei ++ lit "end anchor (line " ++ dec (Z.of_nat e + 1) ++
  lit ") resolves before start anchor (line " ++ dec (Z.of_nat s + 1) ++ lit ")".

(** Phase 1 on one edit. *)
Definition resolve_edit (lines : list text) (ei : Z) (edit : HashlineEdit) : text + ResolvedEdit :=
  match parseAnchor (ed_start edit) with
  | None => inl (malformed ei "start" (ed_start edit))
  | Some startAnchor =>
  match parseAnchor (ed_end edit) with
  | None => inl (malformed ei "end" (ed_end edit))
  | Some endAnchor =>
  match resolveAnchor lines startAnchor with
  | Unresolved e => inl (anchor_error ei "start" (ed_start edit) e)
  | Resolved s =>
  match resolveAnchor lines endAnchor with
  | Unresolved e => inl (anchor_error ei "end" (ed_end edit) e)
  | Resolved e =>
      if (e <? s)%nat then inl (inverted ei s e) else inr (MkResolved ei s e (ed_content edit))
  end end end end.
Fixpoint resolve_edits (lines : list text) (ei : Z) (edits : list HashlineEdit) : text + list ResolvedEdit :=
  match edits with
  | [] => inr []
  | edit :: edits' =>
      match resolve_edit lines ei edit with
      | inl e => inl e
      | inr r => match resolve_edits lines (ei + 1) edits' with inl e => inl e | inr rs => inr (r :: rs) end
      end
  end.

(** [[...resolved].sort((a, b) => a.startIdx - b.startIdx)], a stable sort. *)
Fixpoint insert_by_start (r : ResolvedEdit) (l : list ResolvedEdit) : list ResolvedEdit :=
  match l with
  | [] => [r]
  | x :: l' => if (rs_start r <? rs_start x)%nat then r :: l else x :: insert_by_start r l'
  end.
Definition sort_by_start (l : list ResolvedEdit) : list ResolvedEdit :=
  foldl (λ acc r, insert_by_start r acc) [] l.

(** Phase 2: the first overlapping pair of neighbours. *)
Fixpoint overlap (prev : ResolvedEdit) (l : list ResolvedEdit) : option text :=
  match l with
  | [] => None
  | curr :: l' =>
      if (rs_start curr <=? rs_end prev)%nat
      then Some (lit "edits " ++ dec (rs_editIdx prev) ++ lit " and " ++ dec (rs_editIdx curr) ++
                 lit " overlap in the target line ranges")
      else overlap curr l'
  end.
Definition check_overlap (byStart : list ResolvedEdit) : option text :=
  match byStart with [] => None | r :: l => overlap r l end.

Definition replacement_lines (content : text) : list text :=
  if is_empty_text content then [] else split_char NL content.

(** Phase 3: [splice] from the last range to the first. *)
Definition splice (r : ResolvedEdit) (out : list text) : list text :=
  take (rs_start r) out ++ replacement_lines (rs_content r) ++ drop (S (rs_end r)) out.
Definition splice_all (byStart : list ResolvedEdit) (lines : list text) : list text :=
  foldr splice lines byStart.

Definition line_count (r : ResolvedEdit) : Z := Z.of_nat (length (replacement_lines (rs_content r))).
Fixpoint post_regions (delta : Z) (byStart : list ResolvedEdit) : list HashlineEditRegion :=
  match byStart with
  | [] => []
  | r :: l =>
      MkRegion (Z.of_nat (rs_start r) + 1 + delta) (line_count r)
      :: post_regions (delta + line_count r - (Z.of_nat (rs_end r) - Z.of_nat (rs_start r) + 1)) l
  end.

Definition applyHashlineEdits (content : text) (edits : list HashlineEdit) : HashlineApplyResult :=
  let lines := splitLines content in
  match resolve_edits lines 1 edits with
  | inl error => Rejected error
  | inr resolved =>
      let byStart := sort_by_start resolved in
      match check_overlap byStart with
      | Some error => Rejected error
      | None =>
          let joined := join_char NL (splice_all byStart lines) in
          Applied (if has_trailing_newline content then joined ++ [NL] else joined) (post_regions 0 byStart)
      end
  end.

(** FNV-1a of a one-letter line: [0xe40c292c] for [a]. *)
Example hash_a : computeLineHash (lit "  a ") = lit "e40c".
Proof. vm_compute. reflexivity. Qed.
Example edit_two : applyHashlineEdits (lit "a
b
c
") [MkEdit (lit "3:") (lit "3") (lit ""); MkEdit [] [] []] = Rejected (malformed 1 "start" (lit "3:")).
Proof. vm_compute. reflexivity. Qed.

(** * Properties *)

(** ** Hashes are valid anchors *)
Lemma hex_char_unit d : 0 ≤ d < 16 → hex_unit (byte (hex_char d)) = true.
Proof.
  intros Hd. unfold hex_char, byte, hex_unit, digit_unit.
  rewrite nat_ascii_embedding by (destruct (Z.ltb_spec d 10); lia).
  destruct (Z.ltb_spec d 10); apply orb_true_iff; [left|right]; apply andb_true_iff; rewrite !Z.leb_le; lia.
Qed.

Lemma hex_loop_units fuel z acc : 0 ≤ z →
  Forall (λ c, hex_unit (byte c) = true) (chars acc) →
  Forall (λ c, hex_unit (byte c) = true) (chars (hex_loop fuel z acc)).
Proof.
  revert z acc. induction fuel as [|fuel IH]; intros z acc Hz Hacc; [done|]. simpl.
  assert (Forall (λ c, hex_unit (byte c) = true) (chars (String (hex_char (z mod 16)) acc))) as Hc.
  { constructor; [|done]. apply hex_char_unit. apply Z.mod_pos_bound. lia. }
  destruct (z <? 16); [done|]. apply IH; [apply Z.div_pos; lia|done].
Qed.

Lemma hash_units line : length (computeLineHash line) = 4%nat ∧ Forall (λ c, hex_unit c = true) (computeLineHash line).
Proof.
  unfold computeLineHash. destruct (is_empty_text (trim_text line)); [split; [done|by repeat constructor]|].
  set (h := to_uint32 _). pose proof (length_pad_zero 8 (hex_text h)) as Hl. split.
  - rewrite length_take. lia.
  - apply Forall_take. unfold pad_zero. apply Forall_app. split; [apply Forall_replicate; reflexivity|].
    unfold hex_text, ascii_text. rewrite Forall_fmap. apply hex_loop_units; [|constructor].
    apply Z.mod_pos_bound. lia.
Qed.

Lemma hash_valid line : isValidHash (computeLineHash line) = true.
Proof.
  destruct (hash_units line) as [Hl Hu]. unfold isValidHash. apply orb_true_intro. right.
  rewrite Hl. simpl. apply forallb_forall. intros x Hx. rewrite Forall_forall in Hu. apply Hu.
  by apply list_elem_of_In.
Qed.

Lemma parse_anchor_text i line :
  parseAnchor (anchor_text i line) = Some (MkAnchor (Some (Z.of_nat i + 1)) (computeLineHash line)).
Proof.
  unfold parseAnchor, anchor_text. destruct (dec_digits (Z.of_nat i + 1)) as (Hd & Hv & Hu); [lia|].
  set (d := dec (Z.of_nat i + 1)) in *.
  assert (is_empty_text (d ++ COLON :: computeLineHash line) = false) as -> by (by destruct d).
  rewrite break_char_app by (apply dec_no; [reflexivity|lia]).
  rewrite Hd, hash_valid, Hv. cbn [negb]. by destruct (Z.ltb_spec (Z.of_nat i + 1) 1); [lia|].
Qed.

(** ** Resolution *)
Lemma hash_matches_spec lines h i :
  i ∈ hash_matches lines h ↔ ∃ l, lines !! i = Some l ∧ computeLineHash l = h.
Proof.
  unfold hash_matches. rewrite filter_In_iff, list_elem_of_In, in_seq. unfold teqb. split.
  - intros [_ H]. destruct (lines !! i) as [l|]; [|done]. apply bool_decide_eq_true_1 in H. eauto.
  - intros (l & Hl & H). rewrite Hl. apply lookup_lt_Some in Hl. split; [lia|]. by apply bool_decide_eq_true_2.
Qed.

Lemma nearest_spec t a ms : let b := nearest t a ms in
  b ∈ a :: ms ∧ ∀ m, m ∈ a :: ms → distance t b ≤ distance t m.
Proof.
  revert a. induction ms as [|x ms IH]; intros a; simpl.
  - split; [by left|]. intros m ->%list_elem_of_singleton. lia.
  - destruct (Z.ltb_spec (distance t x) (distance t a)) as [H|H].
    + destruct (IH x) as [Hin Hmin]. split; [by right|]. intros m [->|Hm]%elem_of_cons; [|by apply Hmin].
      specialize (Hmin x (list_elem_of_here _ _)). lia.
    + destruct (IH a) as [Hin Hmin]. split.
      * apply elem_of_cons in Hin as [Hin|Hin]; [rewrite Hin; by left|by right; right].
      * pose proof (Hmin a (list_elem_of_here _ _)). intros m [->|[->|Hm]%elem_of_cons]%elem_of_cons; [done|lia|].
        apply Hmin. by right.
Qed.

(** An anchor resolves to a line exactly when some line of the file has its
    hash; the line it resolves to has that hash, it is the nearest such line to
    the anchor's line number, and the first one when the anchor has none. *)
Theorem resolve_nearest lines a :
  match resolveAnchor lines a with
  | Resolved i =>
      (∃ l, lines !! i = Some l ∧ computeLineHash l = an_hash a) ∧
      ∀ j l, lines !! j = Some l → computeLineHash l = an_hash a →
        match an_line a with Some n => distance (n - 1) i ≤ distance (n - 1) j | None => (i ≤ j)%nat end
  | Unresolved e => e = not_found (an_hash a) ∧ ∀ j l, lines !! j = Some l → computeLineHash l ≠ an_hash a
  end.
Proof.
  unfold resolveAnchor. pose proof (hash_matches_spec lines (an_hash a)) as Hm.
  assert (StronglySorted lt (hash_matches lines (an_hash a))) as Hs.
  { eapply sublist_StronglySorted; [apply filter_sublist|]. apply seq_StronglySorted. }
  destruct (hash_matches lines (an_hash a)) as [|m ms] eqn:E.
  - split; [done|]. intros j l Hj Hl. assert (j ∈ ([] : list nat)) as H by (apply Hm; eauto). by apply elem_of_nil in H.
  - assert (∀ j l, lines !! j = Some l → computeLineHash l = an_hash a → j ∈ m :: ms) as Hin by (intros; apply Hm; eauto).
    assert (∀ j, j ∈ m :: ms → (m ≤ j)%nat) as Hfirst.
    { inversion Hs as [|? ? _ Hall]; subst. rewrite Forall_forall in Hall. intros j [->|Hj]%elem_of_cons; [done|]. apply Nat.lt_le_incl. by apply Hall. }
    assert (∃ l, lines !! m = Some l ∧ computeLineHash l = an_hash a) as Hm0 by (apply Hm; by left).
    destruct ms as [|m' ms].
    + split; [done|]. intros j l Hj Hl. pose proof (Hin _ _ Hj Hl) as ->%list_elem_of_singleton. destruct (an_line a); lia.
    + destruct (an_line a) as [n|]; [|by eauto].
      destruct (nearest_spec (n - 1) m (m :: m' :: ms)) as [Hb Hmin]. split.
      * apply Hm. apply elem_of_cons in Hb as [->|Hb]; [by left|done].
      * intros j l Hj Hl. apply Hmin. right. eauto.
Qed.

Lemma resolve_fresh lines i l : lines !! i = Some l →
  resolveAnchor lines (MkAnchor (Some (Z.of_nat i + 1)) (computeLineHash l)) = Resolved i.
Proof.
  intros Hl. unfold resolveAnchor. cbn [an_hash an_line].
  assert (i ∈ hash_matches lines (computeLineHash l)) as Hi by (apply hash_matches_spec; eauto).
  destruct (hash_matches _ _) as [|m [|m' ms]]; [by apply elem_of_nil in Hi|by apply list_elem_of_singleton in Hi as ->|].
  destruct (nearest_spec (Z.of_nat i + 1 - 1) m (m :: m' :: ms)) as [_ Hmin].
  specialize (Hmin i). f_equal. unfold distance in Hmin.
  assert (i ∈ m :: m :: m' :: ms) as Hin by (by right). specialize (Hmin Hin). lia.
Qed.

(** ** Applying edits: the reference

    Line by line: the first line of a range becomes the replacement, the other
    lines of a range go, and every other line stays. *)
Definition piece (rs : list ResolvedEdit) (i : nat) (line : text) : list text :=
  match List.find (λ r, (rs_start r =? i)%nat) rs with
  | Some r => replacement_lines (rs_content r)
  | None => if existsb (λ r, (rs_start r <? i)%nat && (i <=? rs_end r)%nat) rs then [] else [line]
  end.
Fixpoint rewrite_from (i : nat) (rs : list ResolvedEdit) (lines : list text) : list text :=
  match lines with
  | [] => []
  | l :: ls => piece rs i l ++ rewrite_from (S i) rs ls
  end.
Definition rewritten (rs : list ResolvedEdit) (lines : list text) : list text := rewrite_from 0 rs lines.

Definition precedes (r s : ResolvedEdit) : Prop := (rs_end r < rs_start s)%nat.
Definition disjoint_ranges (r s : ResolvedEdit) : Prop := precedes r s ∨ precedes s r.
Definition range_ok (n : nat) (r : ResolvedEdit) : Prop := (rs_start r ≤ rs_end r < n)%nat.

Lemma rewrite_from_app i rs x y :
  rewrite_from i rs (x ++ y) = rewrite_from i rs x ++ rewrite_from (i + length x) rs y.
Proof.
  revert i. induction x as [|l x IH]; intros i; simpl; [by rewrite Nat.add_0_r|].
  rewrite IH, app_assoc. do 2 f_equal. lia.
Qed.

Lemma rewrite_from_ext i rs rs' x :
  (∀ j l, (i ≤ j < i + length x)%nat → piece rs j l = piece rs' j l) → rewrite_from i rs x = rewrite_from i rs' x.
Proof.
  revert i. induction x as [|l x IH]; intros i H; [done|]. simpl in *.
  rewrite H by lia. f_equal. apply IH. intros. apply H. lia.
Qed.

Lemma rewrite_from_keep i rs x : (∀ j l, (i ≤ j < i + length x)%nat → piece rs j l = [l]) → rewrite_from i rs x = x.
Proof.
  revert i. induction x as [|l x IH]; intros i H; [done|]. simpl in *.
  rewrite H by lia. simpl. f_equal. apply IH. intros. apply H. lia.
Qed.

Lemma rewrite_from_drop i rs x : (∀ j l, (i ≤ j < i + length x)%nat → piece rs j l = []) → rewrite_from i rs x = [].
Proof.
  revert i. induction x as [|l x IH]; intros i H; [done|]. simpl in *.
  rewrite H by lia. apply IH. intros. apply H. lia.
Qed.

(** A line before every range stays. *)
Lemma piece_before rs j l : (∀ r, r ∈ rs → (j < rs_start r)%nat) → piece rs j l = [l].
Proof.
  intros H. unfold piece. rewrite find_none_all.
  - destruct (existsb _ rs) eqn:E; [|done]. apply existsb_exists in E as (r & Hr & Hb).
    apply list_elem_of_In, H in Hr. apply andb_prop in Hb as [Hb _]. apply Nat.ltb_lt in Hb. lia.
  - intros r Hr. apply H in Hr. apply Nat.eqb_neq. lia.
Qed.

(** Behind the first range only the others count. *)
Lemma piece_behind r rs j l : (rs_end r < j)%nat → (rs_start r ≤ rs_end r)%nat → piece (r :: rs) j l = piece rs j l.
Proof.
  intros Hj Hr. unfold piece. simpl. assert (rs_start r =? j = false)%nat as -> by (apply Nat.eqb_neq; lia).
  assert (j <=? rs_end r = false)%nat as -> by (apply Nat.leb_gt; lia). by rewrite andb_false_r.
Qed.

Lemma piece_inside r rs j l : (rs_start r < j ≤ rs_end r)%nat → (∀ s, s ∈ rs → (rs_end r < rs_start s)%nat) →
  piece (r :: rs) j l = [].
Proof.
  intros Hj Hrs. unfold piece. rewrite find_none_all.
  - simpl. assert (rs_start r <? j = true)%nat as -> by (apply Nat.ltb_lt; lia).
    by assert (j <=? rs_end r = true)%nat as -> by (apply Nat.leb_le; lia).
  - intros s [->|Hs]%elem_of_cons; apply Nat.eqb_neq; [lia|]. apply Hrs in Hs. lia.
Qed.

Lemma splice_all_rewritten rs lines :
  StronglySorted precedes rs → Forall (range_ok (length lines)) rs → splice_all rs lines = rewritten rs lines.
Proof.
  unfold rewritten. intros Hs. induction Hs as [|r rs Hs IH Hr]; intros Hok.
  - simpl. symmetry. apply rewrite_from_keep. intros. apply piece_before. set_solver.
  - apply Forall_cons in Hok as [[Hse Hel] Hok]. specialize (IH Hok). simpl. rewrite IH. clear IH.
    rewrite Forall_forall in Hr. unfold splice.
    set (s := rs_start r) in *. set (e := rs_end r) in *.
    assert (∀ b, (b ≤ S e)%nat → rewrite_from 0 rs lines = take b lines ++ rewrite_from b rs (drop b lines)) as Hsplit.
    { intros b Hb. rewrite <-(take_drop b lines) at 1. rewrite rewrite_from_app.
      rewrite length_take, Nat.min_l by lia. f_equal. apply rewrite_from_keep. intros j l Hj.
      rewrite length_take in Hj. apply piece_before. intros x Hx. apply Hr in Hx. unfold precedes in Hx. lia. }
    assert (take s (rewrite_from 0 rs lines) = take s lines) as ->.
    { rewrite (Hsplit s) by lia. apply take_app_length'. rewrite length_take. lia. }
    assert (drop (S e) (rewrite_from 0 rs lines) = rewrite_from (S e) rs (drop (S e) lines)) as ->.
    { rewrite (Hsplit (S e)) by lia. apply drop_app_length'. rewrite length_take. lia. }
    rewrite <-(take_drop s lines) at 3. rewrite rewrite_from_app, length_take, Nat.min_l by lia.
    rewrite (rewrite_from_keep 0) by (intros j l Hj; rewrite length_take in Hj; apply piece_before;
      intros x [->|Hx]%elem_of_cons; [unfold s in *; lia|apply Hr in Hx; unfold precedes in Hx; lia]).
    f_equal. destruct (drop s lines) as [|x rest] eqn:E.
    { apply (f_equal length) in E. rewrite length_drop in E. simpl in E. lia. }
    simpl. assert (piece (r :: rs) s x = replacement_lines (rs_content r)) as ->.
    { unfold piece. simpl. fold s. by rewrite Nat.eqb_refl. }
    f_equal. assert (drop (S e) lines = drop (e - s) rest) as ->.
    { assert (S e = (s + S (e - s))%nat) as -> by lia. rewrite <-drop_drop, E. done. }
    rewrite <-(take_drop (e - s) rest) at 2. rewrite rewrite_from_app.
    assert (length rest = length lines - S s)%nat as Hlen.
    { apply (f_equal length) in E. rewrite length_drop in E. simpl in E. lia. }
    assert (rewrite_from (S s) (r :: rs) (take (e - s) rest) = []) as ->.
    { apply rewrite_from_drop. intros j l Hj. rewrite length_take in Hj. apply piece_inside; [unfold s, e in *; lia|exact Hr]. }
    rewrite length_take, Nat.min_l by lia. rewrite app_nil_l. replace (S s + (e - s))%nat with (S e) by lia. apply rewrite_from_ext.
    intros j l Hj. symmetry. apply piece_behind; [unfold e in *; lia|lia].
Qed.

(** ** The order of a batch does not matter *)
Lemma insert_by_start_perm r l : insert_by_start r l ≡ₚ r :: l.
Proof.
  induction l as [|x l IH]; [done|]. simpl. destruct (rs_start r <? rs_start x)%nat; [done|].
  rewrite IH. apply Permutation_swap.
Qed.
Definition start_le (r s : ResolvedEdit) : Prop := (rs_start r ≤ rs_start s)%nat.
Lemma insert_by_start_sorted r l : StronglySorted start_le l → StronglySorted start_le (insert_by_start r l).
Proof.
  induction 1 as [|x l Hl IH Hx]; [by repeat constructor|]. simpl. rewrite Forall_forall in Hx.
  destruct (Nat.ltb_spec (rs_start r) (rs_start x)) as [Hlt|Hge].
  - constructor; [constructor; [done|by apply Forall_forall]|]. apply Forall_forall.
    intros y [->|Hy]%elem_of_cons; unfold start_le in *; [lia|]. specialize (Hx _ Hy). lia.
  - constructor; [done|]. apply Forall_forall. intros y. rewrite insert_by_start_perm.
    intros [->|Hy]%elem_of_cons; [done|by apply Hx].
Qed.
Lemma sort_by_start_spec l : sort_by_start l ≡ₚ l ∧ StronglySorted start_le (sort_by_start l).
Proof.
  unfold sort_by_start. cut (∀ acc, StronglySorted start_le acc →
    foldl (λ a r, insert_by_start r a) acc l ≡ₚ l ++ acc ∧
    StronglySorted start_le (foldl (λ a r, insert_by_start r a) acc l)).
  { intros H. destruct (H []) as [H1 H2]; [constructor|]. rewrite app_nil_r in H1. done. }
  induction l as [|r l IH]; intros acc Hacc; [done|]. simpl.
  destruct (IH (insert_by_start r acc)) as [H1 H2]; [by apply insert_by_start_sorted|]. split; [|done].
  rewrite H1, insert_by_start_perm. symmetry. apply Permutation_middle.
Qed.

Lemma overlap_spec n p l : Forall (range_ok n) (p :: l) → StronglySorted start_le (p :: l) →
  match overlap p l with
  | Some _ => ¬ ForallOrdPairs disjoint_ranges (p :: l)
  | None => StronglySorted precedes (p :: l)
  end.
Proof.
  revert p. induction l as [|c l IH]; intros p Hok Hs; simpl; [by repeat constructor|].
  inversion Hok as [|? ? [Hp _] Hok']; subst. apply StronglySorted_inv in Hs as [Hs Hps].
  inversion Hps as [|? ? Hpc Hpl]; subst.
  destruct (Nat.leb_spec (rs_start c) (rs_end p)) as [Hle|Hgt].
  - intros Hd. inversion Hd as [|? ? Hd' _]; subst. inversion Hd' as [|? ? [H|H] _]; subst;
      unfold precedes, start_le in *; inversion Hok' as [|? ? [? _] _]; subst; lia.
  - specialize (IH c Hok' Hs). destruct (overlap c l).
    + intros Hd. apply IH. by inversion Hd.
    + constructor; [done|]. constructor; [exact Hgt|]. apply StronglySorted_inv in IH as [_ IH].
      eapply Forall_impl; [exact IH|]. intros x Hx. inversion Hok' as [|? ? [? _] _]; subst. unfold precedes in *. lia.
Qed.

Lemma FOP_perm {A} (R : relation A) l k : Symmetric R → l ≡ₚ k → ForallOrdPairs R l → ForallOrdPairs R k.
Proof.
  intros Hsym. induction 1 as [|x l k Hlk IH|x y l|l k m _ IH1 _ IH2]; intros H.
  - done.
  - inversion H as [|? ? Hx Hl]; subst. constructor; [by rewrite <-Hlk|by apply IH].
  - inversion H as [|? ? Hy Hl]; subst. inversion Hl as [|? ? Hx Hl']; subst. inversion Hy as [|? ? Hyx Hy']; subst.
    constructor; [constructor; [by symmetry|done]|by constructor].
  - auto.
Qed.
#[export] Instance disjoint_ranges_sym : Symmetric disjoint_ranges.
Proof. intros r s [H|H]; [by right|by left]. Qed.

Lemma precedes_disjoint l : StronglySorted precedes l → ForallOrdPairs disjoint_ranges l.
Proof. induction 1 as [|r l _ IH Hr]; constructor; [|done]. eapply Forall_impl; [exact Hr|]. by left. Qed.

Lemma FOP_unique {A} (R : relation A) l x y : Symmetric R → ForallOrdPairs R l → x ∈ l → y ∈ l → x = y ∨ R x y.
Proof.
  intros Hs H. rewrite !list_elem_of_In. intros Hx Hy. destruct (ForallOrdPairs_In H x y Hx Hy) as [?|[?|?]]; auto.
Qed.

Lemma piece_perm n rs rs' j l : rs ≡ₚ rs' → Forall (range_ok n) rs → ForallOrdPairs disjoint_ranges rs →
  piece rs j l = piece rs' j l.
Proof.
  intros Hp Hok Hd. unfold piece.
  assert (List.find (λ r, (rs_start r =? j)%nat) rs = List.find (λ r, (rs_start r =? j)%nat) rs') as ->.
  { destruct (List.find _ rs) as [r|] eqn:E.
    - apply find_elem in E as [Hr Hj]. rewrite Hp in Hr. destruct (List.find _ rs') as [r'|] eqn:E'.
      + apply find_elem in E' as [Hr' Hj']. rewrite <-Hp in Hr, Hr'.
        destruct (FOP_unique _ _ r r' disjoint_ranges_sym Hd Hr Hr') as [->|H]; [done|].
        rewrite Forall_forall in Hok. apply Hok in Hr as [? _], Hr' as [? _]. apply Nat.eqb_eq in Hj, Hj'.
        destruct H; unfold precedes in *; lia.
      + apply List.find_none with (x := r) in E'; [|by apply list_elem_of_In]. simpl in E'. by rewrite Hj in E'.
    - symmetry. apply find_none_all. intros x Hx. rewrite <-Hp in Hx.
      by apply List.find_none with (x := x) in E; [|apply list_elem_of_In]. }
  assert (∀ f : ResolvedEdit → bool, existsb f rs = existsb f rs') as ->; [|done].
  intros f. apply eq_true_iff_eq. rewrite !existsb_exists. split; intros (x & Hx & Hf); exists x;
    rewrite <-list_elem_of_In in *; (split; [|done]); [by rewrite <-Hp|by rewrite Hp].
Qed.

Lemma rewritten_perm n rs rs' lines : rs ≡ₚ rs' → Forall (range_ok n) rs → ForallOrdPairs disjoint_ranges rs →
  rewritten rs lines = rewritten rs' lines.
Proof. intros. apply rewrite_from_ext. intros. by eapply piece_perm. Qed.

(** ** Phase 1 *)
Lemma resolve_index lines a i : resolveAnchor lines a = Resolved i → (i < length lines)%nat.
Proof.
  unfold resolveAnchor. intros H. cut (i ∈ hash_matches lines (an_hash a)).
  { intros (l & Hl & _)%hash_matches_spec. by eapply lookup_lt_Some. }
  destruct (hash_matches lines (an_hash a)) as [|m [|m' ms]]; [done|injection H as <-; by left|].
  destruct (an_line a) as [n|]; [|injection H as <-; by left].
  assert (i = nearest (n - 1) m (m :: m' :: ms)) as -> by congruence.
  destruct (nearest_spec (n - 1) m (m :: m' :: ms)) as [Hb _]. apply elem_of_cons in Hb as [->|Hb]; [by left|done].
Qed.

Lemma resolve_edits_ok lines ei edits rs : resolve_edits lines ei edits = inr rs → Forall (range_ok (length lines)) rs.
Proof.
  revert ei rs. induction edits as [|ed edits IH]; intros ei rs H; simpl in H; [by simplify_eq|].
  destruct (resolve_edit lines ei ed) as [?|r] eqn:Er; [done|].
  destruct (resolve_edits lines (ei + 1) edits) as [?|rs'] eqn:Ers; [done|]. injection H as <-.
  constructor; [|by eapply IH]. unfold resolve_edit in Er.
  destruct (parseAnchor (ed_start ed)) as [sa|]; [|done]. destruct (parseAnchor (ed_end ed)) as [ea|]; [|done].
  destruct (resolveAnchor lines sa) as [s|?]; [|done]. destruct (resolveAnchor lines ea) as [e|?] eqn:Ee; [|done].
  apply resolve_index in Ee. destruct (Nat.ltb_spec e s); [done|]. injection Er as <-. split; simpl; lia.
Qed.

(** ** The whole batch *)
Definition with_newline (content body : text) : text := if has_trailing_newline content then body ++ [NL] else body.

Lemma apply_spec content edits rs : resolve_edits (splitLines content) 1 edits = inr rs →
  match check_overlap (sort_by_start rs) with
  | Some e => ¬ ForallOrdPairs disjoint_ranges rs ∧ applyHashlineEdits content edits = Rejected e
  | None =>
      ForallOrdPairs disjoint_ranges rs ∧ StronglySorted precedes (sort_by_start rs) ∧
      splice_all (sort_by_start rs) (splitLines content) = rewritten rs (splitLines content) ∧
      applyHashlineEdits content edits =
        Applied (with_newline content (join_char NL (rewritten rs (splitLines content))))
                (post_regions 0 (sort_by_start rs))
  end.
Proof.
  intros Hr. pose proof (resolve_edits_ok _ _ _ _ Hr) as Hok. destruct (sort_by_start_spec rs) as [Hp Hs].
  assert (Forall (range_ok (length (splitLines content))) (sort_by_start rs)) as Hok' by (by rewrite Hp).
  assert (match check_overlap (sort_by_start rs) with
          | Some _ => ¬ ForallOrdPairs disjoint_ranges (sort_by_start rs)
          | None => StronglySorted precedes (sort_by_start rs) end) as Hov.
  { destruct (sort_by_start rs) as [|r l]; [constructor|]. by eapply overlap_spec. }
  unfold applyHashlineEdits. rewrite Hr. destruct (check_overlap (sort_by_start rs)) as [e|].
  - split; [|done]. intros Hd. apply Hov. by eapply FOP_perm; [apply _|symmetry; exact Hp|].
  - assert (splice_all (sort_by_start rs) (splitLines content) = rewritten rs (splitLines content)) as Hsp.
    { rewrite splice_all_rewritten by done. eapply rewritten_perm; [exact Hp|done|by apply precedes_disjoint]. }
    split_and!; [eapply FOP_perm; [apply _|exact Hp|by apply precedes_disjoint]|done|done|].
    unfold with_newline. rewrite Hsp. done.
Qed.

(** An edit of the lines [i..j] by the anchors a read shows for them. *)
Definition fresh_anchor (lines : list text) (i : nat) : text := anchor_text i (match lines !! i with Some l => l | None => [] end).
Definition fresh_edit (lines : list text) (e : nat * nat * text) : HashlineEdit :=
  MkEdit (fresh_anchor lines e.1.1) (fresh_anchor lines e.1.2) e.2.
Definition range_of (e : nat * nat * text) : ResolvedEdit := MkResolved 0 e.1.1 e.1.2 e.2.

Lemma resolve_fresh_edits lines ei es :
  Forall (λ e, range_ok (length lines) (range_of e)) es →
  ∃ rs, resolve_edits lines ei (fresh_edit lines <$> es) = inr rs ∧
    Forall2 (λ r e, rs_start r = e.1.1 ∧ rs_end r = e.1.2 ∧ rs_content r = e.2) rs es.
Proof.
  revert ei. induction es as [|[[i j] c] es IH]; intros ei H; csimpl; [by exists []|].
  inversion H as [|? ? [Hij Hj] Hes]; subst. simpl in Hij, Hj.
  destruct (lookup_lt_is_Some_2 lines i) as [li Hli]; [lia|]. destruct (lookup_lt_is_Some_2 lines j) as [lj Hlj]; [lia|].
  destruct (IH (ei + 1) Hes) as (rs & Hrs & H2). 
  assert (fresh_edit lines (i, j, c) = MkEdit (anchor_text i li) (anchor_text j lj) c) as ->.
  { unfold fresh_edit, fresh_anchor. cbn [fst snd]. by rewrite Hli, Hlj. }
  cbn [resolve_edits]. unfold resolve_edit. cbn [ed_start ed_end ed_content].
  rewrite !parse_anchor_text, (resolve_fresh _ _ _ Hli), (resolve_fresh _ _ _ Hlj).
  destruct (Nat.ltb_spec j i); [lia|]. rewrite Hrs. eexists. split; [reflexivity|]. by constructor.
Qed.

Lemma rewritten_same rs rs' lines :
  Forall2 (λ r r', rs_start r = rs_start r' ∧ rs_end r = rs_end r' ∧ rs_content r = rs_content r') rs rs' →
  rewritten rs lines = rewritten rs' lines.
Proof.
  intros H. apply rewrite_from_ext. intros j l _. unfold piece.
  assert (List.find (λ r, (rs_start r =? j)%nat) rs = None ∧ List.find (λ r, (rs_start r =? j)%nat) rs' = None ∨
          ∃ r r', List.find (λ r, (rs_start r =? j)%nat) rs = Some r ∧
            List.find (λ r, (rs_start r =? j)%nat) rs' = Some r' ∧ rs_content r = rs_content r') as Hf.
  { induction H as [|r r' rs rs' (Hs & _ & Hc) _ IH]; [by left|]. simpl. rewrite <-Hs.
    destruct (rs_start r =? j)%nat; [right; eauto|done]. }
  assert (existsb (λ r, (rs_start r <? j)%nat && (j <=? rs_end r)%nat) rs =
          existsb (λ r, (rs_start r <? j)%nat && (j <=? rs_end r)%nat) rs') as ->.
  { clear Hf. induction H as [|r r' rs rs' (Hs & He & _) _ IH]; [done|]. simpl. by rewrite Hs, He, IH. }
  destruct Hf as [[-> ->]|(r & r' & -> & -> & ->)]; done.
Qed.

(** ** Regions *)
Definition region_lines (out : list text) (rg : HashlineEditRegion) : list text :=
  take (Z.to_nat (rg_lineCount rg)) (drop (Z.to_nat (rg_startLine rg - 1)) out).
Definition shift_region (d : Z) (rg : HashlineEditRegion) : HashlineEditRegion :=
  MkRegion (rg_startLine rg + d) (rg_lineCount rg).

Lemma post_regions_shift d d' l : post_regions (d + d') l = shift_region d' <$> post_regions d l.
Proof.
  revert d. induction l as [|r l IH]; intros d; [done|]. cbn [post_regions]. csimpl.
  unfold shift_region at 1. cbn [rg_startLine rg_lineCount]. f_equal; [f_equal; lia|].
  rewrite <-IH. f_equal. lia.
Qed.

Lemma post_regions_after b l : StronglySorted precedes l → Forall (λ r, b ≤ rs_start r ≤ rs_end r)%nat l →
  Forall (λ rg, Z.of_nat b + 1 ≤ rg_startLine rg) (post_regions 0 l).
Proof.
  intros Hs. revert b. induction Hs as [|r l Hs IH Hr]; intros b Hb; [constructor|].
  apply Forall_cons in Hb as [Hbr Hb]. cbn [post_regions]. constructor; [simpl; lia|].
  set (d := 0 + line_count r - _). replace d with (0 + d) by lia. rewrite post_regions_shift, Forall_fmap.
  eapply Forall_impl; [apply (IH (S (rs_end r)))|].
  - rewrite Forall_forall in *. intros x Hx. pose proof (Hr x Hx) as H1. pose proof (Hb x Hx). unfold precedes in H1. lia.
  - intros rg Hrg. cbv beta in Hrg. unfold compose. cbn [shift_region rg_startLine]. unfold d, line_count. lia.
Qed.

Lemma regions_located lines l : StronglySorted precedes l → Forall (range_ok (length lines)) l →
  Forall2 (λ rg r, region_lines (splice_all l lines) rg = replacement_lines (rs_content r)) (post_regions 0 l) l.
Proof.
  induction 1 as [|r l Hs IH Hr]; intros Hok; [constructor|].
  apply Forall_cons in Hok as [[Hse Hel] Hok]. specialize (IH Hok). cbn [post_regions]. simpl splice_all.
  set (out := splice_all l lines) in *.
  assert (rs_start r ≤ length out)%nat as Hout.
  { unfold out. rewrite splice_all_rewritten by done. rewrite <-(take_drop (rs_start r) lines).
    unfold rewritten. rewrite rewrite_from_app, rewrite_from_keep, length_app, length_take; [lia|].
    intros j x Hj. apply piece_before. intros s Hin. rewrite length_take in Hj.
    rewrite Forall_forall in Hr. apply Hr in Hin. unfold precedes in Hin. lia. }
  constructor.
  - unfold region_lines, splice. cbn [rg_startLine rg_lineCount].
    replace (Z.to_nat (Z.of_nat (rs_start r) + 1 + 0 - 1)) with (rs_start r) by lia.
    rewrite drop_app_length' by (rewrite length_take; lia).
    rewrite take_app_length' by (unfold line_count; lia). done.
  - set (d := 0 + line_count r - _). replace d with (0 + d) by lia. rewrite post_regions_shift, Forall2_fmap_l.
    assert (Forall (λ rg, Z.of_nat (S (rs_end r)) + 1 ≤ rg_startLine rg) (post_regions 0 l)) as Hafter.
    { apply post_regions_after; [done|]. rewrite Forall_forall in *. intros x Hx.
      pose proof (Hr x Hx) as H1. pose proof (Hok x Hx) as [H2 _]. unfold precedes in H1. lia. }
    clearbody out. clear -IH Hafter Hout Hse. induction IH as [|rg x rgs xs Hrg _ IHf]; [constructor|].
    apply Forall_cons in Hafter as [Ha Hafter]. constructor; [|by apply IHf]. simpl. rewrite <-Hrg.
    unfold region_lines. cbn [shift_region rg_startLine rg_lineCount]. f_equal. unfold splice.
    unfold line_count in d. set (new := replacement_lines (rs_content r)) in *.
    rewrite drop_app.
    rewrite (drop_ge (take _ _)) by (rewrite length_take; lia). rewrite app_nil_l, length_take, Nat.min_l by lia.
    rewrite drop_app. rewrite (drop_ge new) by lia. rewrite app_nil_l, drop_drop. f_equal. lia.
Qed.

(** A batch of edits written with the anchors of a read of this very file,
    over ranges that do not overlap, applies, in whatever order the edits come:
    the new content is the old one rewritten line by line, each range replaced
    by its text, with the trailing newline the file had. *)
Theorem fresh_batch content es :
  let lines := splitLines content in
  Forall (λ e, range_ok (length lines) (range_of e)) es →
  ForallOrdPairs disjoint_ranges (range_of <$> es) →
  ∃ regions, applyHashlineEdits content (fresh_edit lines <$> es) =
    Applied (with_newline content (join_char NL (rewritten (range_of <$> es) lines))) regions.
Proof.
  intros lines Hok Hd. destruct (resolve_fresh_edits lines 1 es Hok) as (rs & Hrs & H2).
  assert (Forall2 (λ r r', rs_start r = rs_start r' ∧ rs_end r = rs_end r' ∧ rs_content r = rs_content r')
    rs (range_of <$> es)) as Hsame by (by rewrite Forall2_fmap_r).
  pose proof (apply_spec content _ _ Hrs) as Hspec. fold lines in Hspec.
  rewrite (rewritten_same _ _ _ Hsame) in Hspec.
  destruct (check_overlap (sort_by_start rs)) as [e|]; [|destruct Hspec as (_ & _ & _ & H); eauto].
  destruct Hspec as [Hn _]. destruct Hn. clear -Hsame Hd. revert Hsame. generalize (range_of <$> es) as k, Hd.
  intros k Hk Hsame. clear Hd. induction Hsame as [|r r' rs k (Hs & He & _) Hrest IH]; [constructor|].
  inversion Hk as [|? ? Hr Hk']; subst. constructor; [|by apply IH]. clear -Hs He Hr Hrest.
  induction Hrest as [|x x' xs k' (Hsx & Hex & _) _ IH]; [constructor|]. inversion Hr as [|? ? H Hr']; subst.
  constructor; [|by apply IH]. unfold disjoint_ranges, precedes in *. lia.
Qed.

(** C26: A batch applies exactly when each of its edits resolves and no two
    ranges overlap; then the new content is the old one rewritten line by line,
    and the reported regions show, in the new lines, the replacement of each
    edit.  Otherwise nothing is written. *)
Theorem apply_reference content edits :
  let lines := splitLines content in
  match applyHashlineEdits content edits with
  | Applied c regions =>
      ∃ rs ord, resolve_edits lines 1 edits = inr rs ∧ ForallOrdPairs disjoint_ranges rs ∧ ord ≡ₚ rs ∧
        c = with_newline content (join_char NL (rewritten rs lines)) ∧
        Forall2 (λ rg r, region_lines (rewritten rs lines) rg = replacement_lines (rs_content r)) regions ord
  | Rejected e =>
      resolve_edits lines 1 edits = inl e ∨
      ∃ rs, resolve_edits lines 1 edits = inr rs ∧ ¬ ForallOrdPairs disjoint_ranges rs
  end.
Proof.
  intros lines. destruct (resolve_edits lines 1 edits) as [e|rs] eqn:Hr.
  { unfold applyHashlineEdits. fold lines. rewrite Hr. by left. }
  pose proof (apply_spec content edits rs Hr) as H. destruct (check_overlap (sort_by_start rs)) as [e|].
  - destruct H as [Hd ->]. right. eauto.
  - destruct H as (Hd & Hs & Hsp & ->). exists rs, (sort_by_start rs). destruct (sort_by_start_spec rs) as [Hp _].
    split_and!; [done|done|done|done|]. fold lines in Hsp |- *. rewrite <-Hsp. apply regions_located; [done|].
    rewrite Hp. by eapply resolve_edits_ok.
Qed.

(** ** Reads *)
Lemma trailing_newline content : has_trailing_newline content = true → ∃ body, content = body ++ [NL].
Proof.
  unfold has_trailing_newline, ends_with_text. intros H. destruct (reverse content) as [|c r] eqn:E; [done|].
  cbn [reverse rev_append starts_with_text] in H. change (reverse [NL]) with [NL] in H.
  cbn [starts_with_text] in H. rewrite andb_true_r in H. apply Z.eqb_eq in H as <-. exists (reverse r).
  rewrite <-(reverse_involutive content), E. apply reverse_cons.
Qed.

Lemma split_lines_join content : with_newline content (join_char NL (splitLines content)) = content.
Proof.
  unfold with_newline, splitLines. destruct content as [|c0 ct] eqn:E0; [done|]. rewrite <-E0.
  assert (is_empty_text content = false) as -> by by subst.
  destruct (has_trailing_newline content) eqn:E; rewrite join_split; [|done].
  apply trailing_newline in E as [body ->]. rewrite length_app. simpl.
  by rewrite Nat.add_sub, take_app_length.
Qed.

Lemma split_lines_nonl content l : l ∈ splitLines content → NL ∉ l.
Proof.
  unfold splitLines. destruct (is_empty_text content); [by intros ?%elem_of_nil|]. apply split_char_parts.
Qed.

Lemma hash_line_parts i l : break_char PIPE (hash_line i l) = Some (anchor_text i l, l).
Proof.
  unfold hash_line. apply break_char_app. unfold anchor_text. rewrite elem_of_app, elem_of_cons.
  destruct (hash_units l) as [_ Hu]. rewrite Forall_forall in Hu.
  intros [H|[H|H]]; [by apply dec_no in H; [|reflexivity|lia]|done|apply Hu in H; done].
Qed.

Lemma hash_line_nonl i l : NL ∉ l → NL ∉ hash_line i l.
Proof.
  intros Hl. unfold hash_line, anchor_text. rewrite !elem_of_app, !elem_of_cons.
  destruct (hash_units l) as [_ Hu]. rewrite Forall_forall in Hu.
  intros [[H|[H|H]]|[H|H]]; [by apply dec_no in H; [|reflexivity|lia]|done|apply Hu in H; done|done|done].
Qed.

(** A read of a whole file shows every line behind its anchor: splitting
    the output at newlines and each line at its first bar gives back the
    anchors and the lines, and the lines joined give back the file. *)
Theorem format_roundtrip content : content ≠ [] →
  (break_char PIPE <$> split_char NL (formatWithHashes content 1 None) =
     imap (λ i l, Some (anchor_text i l, l)) (splitLines content)) ∧
  with_newline content (join_char NL (splitLines content)) = content.
Proof.
  intros Hne. split; [|apply split_lines_join]. unfold formatWithHashes.
  change (Z.max 0 (1 - 1)) with 0. rewrite Z.sub_0_r, Nat2Z.id. simpl drop. rewrite firstn_all.
  rewrite split_join.
  - rewrite fmap_imap. apply imap_ext. intros i l _. apply hash_line_parts.
  - unfold splitLines. destruct content; [done|]. cbn [is_empty_text].
    destruct (split_char NL _) eqn:E; [by apply split_char_ne in E|]. done.
  - intros l (i & x & -> & Hx)%elem_of_lookup_imap. apply hash_line_nonl.
    eapply split_lines_nonl, list_elem_of_lookup_2, Hx.
Qed.

(** ** Concrete runs *)
Definition sample_file : text := lit "alpha
beta
gamma
beta
".

Lemma fresh_batch_witness :
  ∃ regions, applyHashlineEdits sample_file (fresh_edit (splitLines sample_file) <$> [(3, 3, lit "delta"); (0, 1, [])]%nat) =
    Applied (lit "gamma
delta
") regions.
Proof.
  apply (fresh_batch sample_file [(3, 3, lit "delta"); (0, 1, [])]%nat).
  - repeat constructor; simpl; lia.
  - constructor; [|by repeat constructor]. constructor; [|constructor]. right. unfold precedes. simpl. lia.
Defined.

Lemma format_roundtrip_witness :
  (break_char PIPE <$> split_char NL (formatWithHashes sample_file 1 None) =
     imap (λ i l, Some (anchor_text i l, l)) (splitLines sample_file)) ∧
  with_newline sample_file (join_char NL (splitLines sample_file)) = sample_file.
Proof. apply (format_roundtrip sample_file). vm_compute. discriminate. Defined.

(** Three lines inserted above: the stale anchor of [gamma] follows its line,
    and the stale anchor of the second [beta] now means the first one. *)
Definition shifted_file : text := lit "x
x
x
" ++ sample_file.
Example stale_anchor_follows :
  resolveAnchor (splitLines shifted_file) (MkAnchor (Some 3) (computeLineHash (lit "gamma"))) = Resolved 5.
Proof. vm_compute. reflexivity. Qed.
Example stale_anchor_of_duplicate :
  splitLines shifted_file !! 6%nat = Some (lit "beta") ∧
  resolveAnchor (splitLines shifted_file) (MkAnchor (Some 4) (computeLineHash (lit "beta"))) = Resolved 4.
Proof. vm_compute. done. Qed.

(** Deleting every line of a file leaves an empty line, not an empty file. *)
Example delete_all_leaves_newline :
  applyHashlineEdits sample_file (fresh_edit (splitLines sample_file) <$> [(0, 3, [])]%nat) =
    Applied [NL] [MkRegion 1 0].
Proof. vm_compute. reflexivity. Qed.
