(* ===== verification/TokenCount.v ===== *)
(** * Token counting (packages/shared/src/tokens.ts)

    The two memo tables in front of the tokenizer: counts by content, bounded
    by the total length of the cached texts, and counts by message identity,
    bounded by their number; both evict the least recently used entry.  A
    JavaScript [Map] is the list of its entries in insertion order.  The
    tokenizer (js-tiktoken) is an argument and may throw.  Also the message
    type of packages/llm/src/types.ts that contexts are made of. *)
From Stdlib Require Import Ascii.
From S2P Require Import Prelude Json Text.

(** ** Messages *)
Inductive llm_role := RUser | RAssistant | RSystem | RToolCall | RToolResult | RDeveloper | RCache.
Inductive llm_content :=
| CText (s : string)
| CBlocks (blocks : list json).
Record LLMMessage := MkLlm { lm_role : llm_role; lm_content : llm_content }.
#[export] Instance llm_role_eq_dec : EqDecision llm_role.
Proof. solve_decision. Defined.
Definition is_role (r : llm_role) (m : LLMMessage) : bool := bool_decide (lm_role m = r).

(** ** The memo tables *)
Definition TOKEN_CACHE_MAX_BYTES : Z := 64 * 1024 * 1024.
Definition TOKEN_ID_CACHE_MAX : Z := 500000.
Definition IMAGE_BLOCK_TOKEN_ESTIMATE : Z := 1600.

Definition memo := list (text * Z).
Fixpoint memo_get (k : text) (m : memo) : option Z :=
  match m with
  | [] => None
  | (k', v) :: m' => if teqb k k' then Some v else memo_get k m'
  end.
Definition memo_delete (k : text) (m : memo) : memo := List.filter (λ e, negb (teqb k e.1)) m.
(** [map.set(k, v)] of a key that is not in the map. *)
Definition memo_add (k : text) (v : Z) (m : memo) : memo := m ++ [(k, v)].
(** [map.delete(k); map.set(k, v)]. *)
Definition refresh (k : text) (v : Z) (m : memo) : memo := memo_add k v (memo_delete k m).

Record token_state := MkTokens {
  tokenCache : memo; tokenCacheBytes : Z; tokenCacheHits : Z; tokenCacheMisses : Z; encodedTexts : list text;
  tokenIdCache : memo; tokenIdCacheHits : Z; tokenIdCacheMisses : Z }.
Definition no_tokens : token_state := MkTokens [] 0 0 0 [] [] 0 0.

Definition text_len (t : text) : Z := Z.of_nat (length t).

Section counting.
Variable encode : text → result Z.

(** Evict the oldest entries until the bytes fit; one entry always stays. *)
Fixpoint evict (m : memo) (bytes : Z) : memo * Z :=
  match m with
  | [] => (m, bytes)
  | (oldest, _) :: rest =>
      if (TOKEN_CACHE_MAX_BYTES <? bytes) && negb (bool_decide (rest = []))
      then evict rest (bytes - text_len oldest) else (m, bytes)
  end.

Definition memoizedEncodeLength (t : text) (s : token_state) : token_state * result Z :=
  match s with
  | MkTokens cache bytes hits misses encoded ids idh idm =>
      match memo_get t cache with
      | Some cached => (MkTokens (refresh t cached cache) bytes (hits + 1) misses encoded ids idh idm, Ok cached)
      | None =>
          match encode t with
          | Throw e => (MkTokens cache bytes hits misses (encoded ++ [t]) ids idh idm, Throw e)
          | Ok count =>
              let '(cache', bytes') := evict (memo_add t count cache) (bytes + text_len t) in
              (MkTokens cache' bytes' hits (misses + 1) (encoded ++ [t]) ids idh idm, Ok count)
          end
      end
  end.

Definition countTokens (t : text) (s : token_state) : token_state * result Z :=
  if is_empty_text t then (s, Ok 0) else memoizedEncodeLength t s.

(** What a block costs besides its flat estimate, and the text it is counted by. *)
Definition block_type (b : json) : option string := as_string (json_get "type" b).
Definition without (ks : list string) (b : json) : json :=
  match b with
  | JObj fs => JObj (List.filter (λ kv, negb (existsb (seqb kv.1) ks)) fs)
  | _ => b
  end.
Definition block_text (b : json) : Z * text :=
  match block_type b, as_string (json_get "text" b) with
  | Some "text", Some t => (0, utf16 t)
  | Some ("image" | "document"), _ =>
      (IMAGE_BLOCK_TOKEN_ESTIMATE, utf16 (json_stringify (without ["source"; "data"] b)))
  | _, _ => (0, utf16 (json_stringify b))
  end.

Fixpoint count_blocks (sum : Z) (blocks : list json) (s : token_state) : token_state * result Z :=
  match blocks with
  | [] => (s, Ok sum)
  | b :: bs =>
      let '(flat, t) := block_text b in
      match countTokens t s with
      | (s', Ok n) => count_blocks (sum + flat + n) bs s'
      | (s', Throw e) => (s', Throw e)
      end
  end.
Definition countContentTokens (content : llm_content) (s : token_state) : token_state * result Z :=
  match content with
  | CText t => countTokens (utf16 t) s
  | CBlocks bs => count_blocks 0 bs s
  end.

Definition id_key (id modifiedAt : string) : text := utf16 id ++ 32 :: utf16 modifiedAt.
Definition countContentTokensById (id modifiedAt : string) (content : llm_content) (s : token_state)
  : token_state * result Z :=
  let key := id_key id modifiedAt in
  match memo_get key (tokenIdCache s) with
  | Some cached =>
      (MkTokens (tokenCache s) (tokenCacheBytes s) (tokenCacheHits s) (tokenCacheMisses s) (encodedTexts s)
         (refresh key cached (tokenIdCache s)) (tokenIdCacheHits s + 1) (tokenIdCacheMisses s), Ok cached)
  | None =>
      match countContentTokens content s with
      | (s', Throw e) => (s', Throw e)
      | (s', Ok count) =>
          let ids := memo_add key count (tokenIdCache s') in
          (MkTokens (tokenCache s') (tokenCacheBytes s') (tokenCacheHits s') (tokenCacheMisses s') (encodedTexts s')
             (if TOKEN_ID_CACHE_MAX <? Z.of_nat (length ids) then tail ids else ids)
             (tokenIdCacheHits s') (tokenIdCacheMisses s' + 1), Ok count)
      end
  end.

(** ** The counts without memo tables *)
Definition pure_tokens (t : text) : result Z := if is_empty_text t then Ok 0 else encode t.
Fixpoint pure_blocks (sum : Z) (blocks : list json) : result Z :=
  match blocks with
  | [] => Ok sum
  | b :: bs =>
      match pure_tokens (block_text b).2 with
      | Ok n => pure_blocks (sum + (block_text b).1 + n) bs
      | Throw e => Throw e
      end
  end.
Definition pure_content (content : llm_content) : result Z :=
  match content with
  | CText t => pure_tokens (utf16 t)
  | CBlocks bs => pure_blocks 0 bs
  end.
End counting.

(** A call of the module's interface. *)
Inductive token_call :=
| CountText (t : text)
| CountContent (c : llm_content)
| CountById (id modifiedAt : string) (c : llm_content).
Definition token_step (encode : text → result Z) (call : token_call) (s : token_state) : token_state * result Z :=
  match call with
  | CountText t => countTokens encode t s
  | CountContent c => countContentTokens encode c s
  | CountById i m c => countContentTokensById encode i m c s
  end.
Fixpoint token_run (encode : text → result Z) (calls : list token_call) (s : token_state)
  : token_state * list (result Z) :=
  match calls with
  | [] => (s, [])
  | c :: cs =>
      let '(s1, r) := token_step encode c s in
      let '(s2, rs) := token_run encode cs s1 in (s2, r :: rs)
  end.
Definition pure_call (encode : text → result Z) (call : token_call) : result Z :=
  match call with
  | CountText t => pure_tokens encode t
  | CountContent c | CountById _ _ c => pure_content encode c
  end.

(** * Properties *)
Section laws.
Variable encode : text → result Z.

Definition memo_bytes (m : memo) : Z := sum_list_Z (text_len <$> m.*1).
#[local] Arguments memo_bytes : simpl never.
Definition memo_true (f : text → Z → Prop) (m : memo) : Prop := Forall (λ e, f e.1 e.2) m.
Definition bytes_ok (m : memo) (bytes : Z) : Prop :=
  bytes = memo_bytes m ∧ (bytes ≤ TOKEN_CACHE_MAX_BYTES ∨ (length m ≤ 1)%nat).
(** [f] says which counts the identity table may hold. *)
Record tokens_ok (f : text → Z → Prop) (s : token_state) : Prop := {
  ok_cache : memo_true (λ k c, encode k = Ok c) (tokenCache s);
  ok_keys : NoDup (tokenCache s).*1;
  ok_bytes : bytes_ok (tokenCache s) (tokenCacheBytes s);
  ok_ids : memo_true f (tokenIdCache s);
  ok_idkeys : NoDup (tokenIdCache s).*1;
  ok_idsize : Z.of_nat (length (tokenIdCache s)) ≤ TOKEN_ID_CACHE_MAX;
  ok_subset : ∀ k, k ∈ (tokenCache s).*1 → k ∈ encodedTexts s }.

Lemma memo_get_in k v m : memo_get k m = Some v → (k, v) ∈ m.
Proof.
  induction m as [|[k' v'] m IH]; simpl; [done|]. unfold teqb. case_bool_decide; [|by right; auto].
  intros [= ->]. subst. by left.
Qed.
Lemma memo_get_none k m : memo_get k m = None → k ∉ m.*1.
Proof.
  induction m as [|[k' v'] m IH]; simpl; [intros _ H; by apply elem_of_nil in H|]. unfold teqb.
  case_bool_decide; [done|]. intros Hn [?|Hin]%elem_of_cons; [done|]. by apply IH.
Qed.

Lemma delete_perm k v m : NoDup m.*1 → (k, v) ∈ m → m ≡ₚ (k, v) :: memo_delete k m.
Proof.
  induction m as [|[k' v'] m IH]; intros Hnd Hin; [by apply elem_of_nil in Hin|]. csimpl in Hnd.
  apply NoDup_cons in Hnd as [Hk Hnd]. unfold memo_delete. simpl. unfold teqb. apply elem_of_cons in Hin as [[= <- <-]|Hin].
  - rewrite bool_decide_true by done. simpl. rewrite filter_bool_all; [done|].
    intros [k2 v2] Hin. simpl. apply negb_true_iff, bool_decide_eq_false_2. intros ->.
    apply Hk. apply list_elem_of_fmap. by exists (k2, v2).
  - rewrite bool_decide_false. 2: { intros ->. apply Hk, list_elem_of_fmap. by exists (k', v). }
    simpl. rewrite Permutation_swap. constructor. by apply IH.
Qed.
Lemma refresh_perm k v m : NoDup m.*1 → (k, v) ∈ m → refresh k v m ≡ₚ m.
Proof.
  intros Hnd Hin. unfold refresh, memo_add. rewrite (delete_perm k v m Hnd Hin) at 2.
  rewrite Permutation_app_comm. done.
Qed.

Lemma evict_suffix m b m' b' : evict m b = (m', b') → ∃ d, m = d ++ m'.
Proof.
  revert b. induction m as [|[k c] m IH]; intros b H; simpl in H; [exists []; by simplify_eq|].
  destruct (_ && _); [|exists []; by simplify_eq]. apply IH in H as [d ->]. by exists ((k, c) :: d).
Qed.
Lemma evict_bytes m b m' b' : evict m b = (m', b') → b = memo_bytes m → bytes_ok m' b'.
Proof.
  revert b. induction m as [|[k c] m IH]; intros b H Hb; simpl in H.
  - simplify_eq. split; [done|right; simpl; lia].
  - destruct (_ && _) eqn:E.
    + eapply IH; [exact H|]. subst. unfold memo_bytes. csimpl. lia.
    + simplify_eq. split; [done|]. apply andb_false_iff in E as [E|E]; [left; bool_props; lia|right].
      apply negb_false_iff, bool_decide_eq_true_1 in E as ->. simpl. lia.
Qed.
Lemma evict_size m b m' b' : evict m b = (m', b') → (length m' ≤ length m)%nat.
Proof. intros [d ->]%evict_suffix. rewrite length_app. lia. Qed.

Lemma memo_bytes_perm m m' : m ≡ₚ m' → memo_bytes m = memo_bytes m'.
Proof.
  unfold memo_bytes. intros H. induction H as [|x l k _ IH|x y l|l k j _ IH1 _ IH2]; csimpl; lia.
Qed.

(** What every call keeps: the tables stay well formed and no text the
    tokenizer saw is forgotten. *)
Definition keeps (f : text → Z → Prop) (s s' : token_state) : Prop :=
  tokens_ok f s' ∧ encodedTexts s `prefix_of` encodedTexts s'.

Lemma tokens_ok_hit f cache bytes h m enc ids ih im t c :
  tokens_ok f (MkTokens cache bytes h m enc ids ih im) → memo_get t cache = Some c →
  tokens_ok f (MkTokens (refresh t c cache) bytes (h + 1) m enc ids ih im).
Proof.
  intros [Hc Hk [Hb Hl] Hi Hik His Hs] Hg%memo_get_in. cbn in *.
  pose proof (refresh_perm t c cache Hk Hg) as Hp. constructor; cbn; unfold memo_true, bytes_ok; try done.
  - by rewrite Hp.
  - by rewrite Hp.
  - rewrite (memo_bytes_perm _ _ Hp). split; [done|]. rewrite (Permutation_length Hp). done.
  - intros k Hin. apply Hs. revert Hin. rewrite Hp. done.
Qed.

Lemma tokens_ok_miss f cache bytes h m enc ids ih im t c cache' bytes' :
  tokens_ok f (MkTokens cache bytes h m enc ids ih im) → memo_get t cache = None → encode t = Ok c →
  evict (memo_add t c cache) (bytes + text_len t) = (cache', bytes') →
  tokens_ok f (MkTokens cache' bytes' h (m + 1) (enc ++ [t]) ids ih im).
Proof.
  intros [Hc Hk [Hb Hl] Hi Hik His Hs] Hg%memo_get_none He Hev. cbn in *.
  assert (bytes_ok cache' bytes') as Hb'.
  { eapply evict_bytes; [exact Hev|]. rewrite Hb. unfold memo_bytes, memo_add. rewrite !fmap_app, sum_list_Z_app. simpl. lia. }
  apply evict_suffix in Hev as [d Hd].
  assert (memo_true (λ k c, encode k = Ok c) (d ++ cache')) as Hall.
  { rewrite <-Hd. unfold memo_true, memo_add. apply Forall_app. split; [done|by apply Forall_singleton]. }
  assert (NoDup (d ++ cache').*1) as Hnd.
  { rewrite <-Hd. unfold memo_add. rewrite fmap_app. simpl. apply NoDup_app. split_and!; [done| |apply NoDup_singleton].
    intros x Hx ->%list_elem_of_singleton. done. }
  rewrite fmap_app in Hnd. apply NoDup_app in Hnd as (_ & _ & Hnd). apply Forall_app in Hall as [_ Hall].
  constructor; cbn; try done. intros k Hin. rewrite elem_of_app.
  assert (k ∈ (d ++ cache').*1) as Hin' by (rewrite fmap_app, elem_of_app; by right).
  rewrite <-Hd in Hin'. unfold memo_add in Hin'. rewrite fmap_app, elem_of_app in Hin'.
  destruct Hin' as [Hin'|Hin']; [left; by apply Hs|by right].
Qed.

Lemma countTokens_spec f t s : tokens_ok f s →
  let '(s', r) := countTokens encode t s in
  r = pure_tokens encode t ∧ keeps f s s' ∧ tokenIdCache s' = tokenIdCache s.
Proof.
  intros Hok. unfold countTokens, pure_tokens. destruct (is_empty_text t); [done|].
  destruct s as [cache bytes h m enc ids ih im]. cbn [memoizedEncodeLength].
  destruct (memo_get t cache) as [c|] eqn:Hg.
  - split_and!; [|split; [by apply tokens_ok_hit|done]|done].
    symmetry. apply memo_get_in in Hg. destruct Hok as [Hc _ _ _ _ _ _]. cbn in Hc.
    unfold memo_true in Hc. rewrite Forall_forall in Hc. exact (Hc _ Hg).
  - destruct (encode t) as [c|e] eqn:He.
    + destruct (evict _ _) as [cache' bytes'] eqn:Hev.
      split_and!; [done|split; [by eapply tokens_ok_miss|]|done]. cbn. by exists [t].
    + split_and!; [done|split|done]; [|cbn; by exists [t]]. destruct Hok as [? ? ? ? ? ? Hs].
      constructor; cbn in *; try done. intros k Hk. rewrite elem_of_app. left. by apply Hs.
Qed.

Lemma keeps_trans f s1 s2 s3 : keeps f s1 s2 → keeps f s2 s3 → keeps f s1 s3.
Proof. intros [? ?] [? ?]. split; [done|]. by etrans. Qed.

Lemma count_blocks_spec f sum bs s : tokens_ok f s →
  let '(s', r) := count_blocks encode sum bs s in
  r = pure_blocks encode sum bs ∧ keeps f s s' ∧ tokenIdCache s' = tokenIdCache s.
Proof.
  revert sum s. induction bs as [|b bs IH]; intros sum s Hok; [done|]. cbn [count_blocks pure_blocks].
  destruct (block_text b) as [flat t]. simpl. pose proof (countTokens_spec f t s Hok) as H.
  destruct (countTokens encode t s) as [s1 [n|e]]; destruct H as (<- & [Hok1 Hp1] & Hid1); [|done].
  specialize (IH (sum + flat + n) s1 Hok1). destruct (count_blocks encode _ bs s1) as [s2 r].
  destruct IH as (-> & Hk2 & Hid2). split_and!; [done|by eapply keeps_trans; [split|]|congruence].
Qed.

Lemma countContentTokens_spec f c s : tokens_ok f s →
  let '(s', r) := countContentTokens encode c s in
  r = pure_content encode c ∧ keeps f s s' ∧ tokenIdCache s' = tokenIdCache s.
Proof. intros Hok. destruct c; [by apply countTokens_spec|by apply count_blocks_spec]. Qed.

Lemma tokens_ok_ids f s ids : tokens_ok f s → memo_true f ids → NoDup ids.*1 →
  Z.of_nat (length ids) ≤ TOKEN_ID_CACHE_MAX → ∀ h m,
  keeps f s (MkTokens (tokenCache s) (tokenCacheBytes s) (tokenCacheHits s) (tokenCacheMisses s) (encodedTexts s) ids h m).
Proof. intros [] ? ? ? h m. by split. Qed.

Lemma countById_spec f i m c s : tokens_ok f s →
  (∀ n, f (id_key i m) n ↔ pure_content encode c = Ok n) →
  let '(s', r) := countContentTokensById encode i m c s in r = pure_content encode c ∧ keeps f s s'.
Proof.
  intros Hok Hf. unfold countContentTokensById. set (key := id_key i m) in *.
  destruct (memo_get key (tokenIdCache s)) as [n|] eqn:Hg.
  - apply memo_get_in in Hg. pose proof (refresh_perm key n _ (ok_idkeys _ _ Hok) Hg) as Hp. split.
    + symmetry. apply Hf. pose proof (ok_ids _ _ Hok) as Hi. unfold memo_true in Hi. rewrite Forall_forall in Hi. exact (Hi _ Hg).
    + apply tokens_ok_ids; [done| | |].
      * unfold memo_true. rewrite Hp. apply Hok.
      * rewrite Hp. apply Hok.
      * rewrite (Permutation_length Hp). apply Hok.
  - apply memo_get_none in Hg. pose proof (countContentTokens_spec f c s Hok) as H.
    destruct (countContentTokens encode c s) as [s' [n|e]]; destruct H as (Hr & Hk & Hid); [|done].
    split; [done|]. eapply keeps_trans; [exact Hk|]. destruct Hk as [Hok' _].
    assert (memo_true f (memo_add key n (tokenIdCache s'))) as Ht.
    { unfold memo_true, memo_add. apply Forall_app. split; [apply Hok'|]. apply Forall_singleton. by apply Hf. }
    assert (NoDup (memo_add key n (tokenIdCache s')).*1) as Hnd.
    { unfold memo_add. rewrite fmap_app. simpl. apply NoDup_app. split_and!; [apply Hok'| |apply NoDup_singleton].
      rewrite Hid. intros x Hx ->%list_elem_of_singleton. done. }
    pose proof (ok_idsize _ _ Hok') as Hsz.
    assert (length (memo_add key n (tokenIdCache s')) = S (length (tokenIdCache s'))) as Hl by
      (unfold memo_add; rewrite length_app; simpl; lia).
    destruct (Z.ltb_spec TOKEN_ID_CACHE_MAX (Z.of_nat (length (memo_add key n (tokenIdCache s'))))).
    + destruct (memo_add key n (tokenIdCache s')) as [|e es]; [done|]. simpl.
      apply tokens_ok_ids; [done|by apply Forall_cons in Ht as [_ ?]|by apply NoDup_cons in Hnd as [_ ?]|simpl in Hl; lia].
    + apply tokens_ok_ids; [done|done|done|lia].
Qed.
End laws.

(** The counts the identity table may hold, when [content_of] gives the content
    of a message by its key. *)
Definition count_of (encode : text → result Z) (content_of : text → llm_content) (k : text) (n : Z) : Prop :=
  pure_content encode (content_of k) = Ok n.
Definition call_known (content_of : text → llm_content) (call : token_call) : Prop :=
  match call with CountById i m c => content_of (id_key i m) = c | _ => True end.

Lemma token_step_spec encode content_of call s : tokens_ok encode (count_of encode content_of) s → call_known content_of call →
  let '(s', r) := token_step encode call s in r = pure_call encode call ∧ keeps encode (count_of encode content_of) s s'.
Proof.
  intros Hok Hc. destruct call as [t|c|i m c]; cbn [token_step pure_call].
  - pose proof (countTokens_spec encode _ t s Hok) as H. destruct (countTokens encode t s). naive_solver.
  - pose proof (countContentTokens_spec encode _ c s Hok) as H. destruct (countContentTokens encode c s). naive_solver.
  - apply countById_spec; [done|]. simpl in Hc. intros n. unfold count_of. by rewrite Hc.
Qed.

Lemma token_run_spec encode content_of calls s : tokens_ok encode (count_of encode content_of) s →
  Forall (call_known content_of) calls →
  let '(s', rs) := token_run encode calls s in
  rs = pure_call encode <$> calls ∧ keeps encode (count_of encode content_of) s s'.
Proof.
  intros Hok Hall. revert s Hok. induction Hall as [|c cs Hc _ IH]; intros s Hok; [by split; [|split]|].
  cbn [token_run]. pose proof (token_step_spec encode content_of c s Hok Hc) as H.
  destruct (token_step encode c s) as [s1 r]. destruct H as [-> Hk]. specialize (IH s1 (proj1 Hk)).
  destruct (token_run encode cs s1) as [s2 rs]. destruct IH as [-> Hk2]. split; [done|]. by eapply keeps_trans.
Qed.

Lemma no_tokens_ok encode f : tokens_ok encode f no_tokens.
Proof.
  constructor; cbn; try constructor; try done; [left|..]; unfold TOKEN_CACHE_MAX_BYTES, TOKEN_ID_CACHE_MAX; try lia.
Qed.

(** Memoization loses nothing and stays bounded: after any sequence of calls
    in which a message's id and modification time determine its content, every
    answer is the count the tokenizer gives, the content table holds at most
    64 MiB of text unless it holds a single entry, and the identity table at
    most 500000 entries. *)
Theorem token_counts_lossless encode content_of calls :
  Forall (call_known content_of) calls →
  let '(s, rs) := token_run encode calls no_tokens in
  rs = pure_call encode <$> calls ∧
  (memo_bytes (tokenCache s) ≤ TOKEN_CACHE_MAX_BYTES ∨ (length (tokenCache s) ≤ 1)%nat) ∧
  tokenCacheBytes s = memo_bytes (tokenCache s) ∧
  Z.of_nat (length (tokenIdCache s)) ≤ TOKEN_ID_CACHE_MAX.
Proof.
  intros Hall. pose proof (token_run_spec encode content_of calls no_tokens (no_tokens_ok _ _) Hall) as H.
  destruct (token_run encode calls no_tokens) as [s rs]. destruct H as [-> [[_ _ [Hb Hl] _ _ Hs _] _]].
  rewrite Hb in Hl. done.
Qed.

Lemma run_encodes encode ts s : tokens_ok encode (count_of encode (λ _, CText "")) s → NoDup ts →
  (∀ t, t ∈ ts → t ≠ [] ∧ is_Some (match encode t with Ok n => Some n | Throw _ => None end) ∧ t ∉ encodedTexts s) →
  encodedTexts (token_run encode (CountText <$> ts) s).1 = encodedTexts s ++ ts.
Proof.
  intros Hok Hnd. revert s Hok. induction Hnd as [|t ts Ht Hnd IH]; intros s Hok Hts; [by rewrite app_nil_r|].
  csimpl. cbn [token_run token_step]. destruct (Hts t (list_elem_of_here _ _)) as (Hne & Hen & Hfresh).
  pose proof (countTokens_spec encode _ t s Hok) as Hspec.
  assert (encodedTexts (countTokens encode t s).1 = encodedTexts s ++ [t]) as Henc.
  { unfold countTokens. destruct t as [|x t']; [done|]. cbn [is_empty_text]. set (t := x :: t') in *.
    destruct s as [cache bytes h m enc ids ih im]. cbn [memoizedEncodeLength].
    destruct (memo_get t cache) as [c|] eqn:Hg.
    { apply memo_get_in in Hg. destruct Hfresh. apply (ok_subset _ _ _ Hok). cbn. apply list_elem_of_fmap. by exists (t, c). }
    destruct (encode t); [|by destruct Hen]. by destruct (evict _ _). }
  destruct (countTokens encode t s) as [s1 r]. destruct Hspec as (_ & [Hok1 _] & _). simpl in Henc.
  specialize (IH s1 Hok1). destruct (token_run encode (CountText <$> ts) s1) as [s2 rs]. simpl in *.
  rewrite IH, Henc; [by rewrite <-app_assoc|]. intros u Hu. destruct (Hts u) as (? & ? & Hfu); [by right|].
  split_and!; [done|done|]. rewrite Henc, elem_of_app. intros [?|Hin]; [done|].
  apply list_elem_of_singleton in Hin as ->. done.
Qed.

(** The list of encoded texts kept for the tests' statistics is never
    trimmed: every text that was ever counted stays reachable from it, also
    those the bounded table has evicted. *)
Theorem encoded_texts_retained encode ts :
  NoDup ts → (∀ t, t ∈ ts → t ≠ [] ∧ is_Some (match encode t with Ok n => Some n | Throw _ => None end)) →
  encodedTexts (token_run encode (CountText <$> ts) no_tokens).1 = ts.
Proof.
  intros Hnd Hts. rewrite run_encodes; [done|apply no_tokens_ok|done|].
  intros t Ht. destruct (Hts t Ht). split_and!; [done|done|]. cbn. apply not_elem_of_nil.
Qed.

(** ** Concrete runs: a tokenizer that takes four units for a token *)
Definition sample_encode (t : text) : result Z := Ok ((text_len t + 3) / 4).
Definition sample_content (k : text) : llm_content := CBlocks [JObj [("type", JStr "text"); ("text", JStr "some text")]].

Lemma token_counts_lossless_witness :
  let '(s, rs) := token_run sample_encode
    [CountById "m1" "t" (sample_content []); CountText (lit "some text"); CountById "m1" "t" (sample_content [])] no_tokens in
  rs = [Ok 3; Ok 3; Ok 3] ∧
  (memo_bytes (tokenCache s) ≤ TOKEN_CACHE_MAX_BYTES ∨ (length (tokenCache s) ≤ 1)%nat) ∧
  tokenCacheBytes s = memo_bytes (tokenCache s) ∧
  Z.of_nat (length (tokenIdCache s)) ≤ TOKEN_ID_CACHE_MAX.
Proof.
  apply (token_counts_lossless sample_encode sample_content
    [CountById "m1" "t" (sample_content []); CountText (lit "some text"); CountById "m1" "t" (sample_content [])]).
  repeat constructor.
Defined.

Lemma encoded_texts_retained_witness :
  encodedTexts (token_run sample_encode (CountText <$> [lit "a"; lit "b"]) no_tokens).1 = [lit "a"; lit "b"].
Proof.
  apply encoded_texts_retained.
  - apply (bool_decide_unpack _). vm_compute. exact I.
  - intros t Ht. split; [|by eexists]. apply elem_of_cons in Ht as [->|Ht]; [discriminate|].
    apply list_elem_of_singleton in Ht as ->. discriminate.
Defined.

(** Images are counted flat, without their bytes. *)
Example image_flat :
  pure_content sample_encode (CBlocks [JObj [("type", JStr "image"); ("source", JObj [("data", JStr "AAAAAAAAAAAAAAAAAAAAAAAAAAAA")])]])
  = Ok (1600 + 4).
Proof. vm_compute. reflexivity. Qed.
