(* ===== verification/HistoryFold.v ===== *)
(** * Folding tool cycles (packages/agent/src/progressive-fidelity/tool-cycle-fold.ts)

    The compressor of the middle history tier: a range of messages becomes one
    short line per message or tool result, with the extraction of tool names,
    input hints, read ranges and result summaries it is made of.  Lines are
    UTF-16 texts, since their lengths are measured and cut; the regular
    expressions are written out.  A tool name that is not a string, which the
    types rule out, reads as [unknown]; a number that is not an integer prints
    as Json.v prints it; a key of an input object is not an integer index. *)
From Stdlib Require Import Ascii.
From S2P Require Import Prelude Json Text TokenCount.

Definition MAX_FOLDED_LINE_CHARS : nat := 300.
Definition ASSISTANT_PREVIEW_CHARS : nat := 200.

Record FoldedLine := MkLine { fl_text : text; fl_tokens : Z; fl_sourceCount : Z }.

Definition ELLIPSIS : text := lit "...".
Definition ARROW : text := lit " → ".
(** [s.length > max ? s.slice(0, cut) + "..." : s]. *)
Definition shorten (max cut : nat) (s : text) : text :=
  if (max <? length s)%nat then take cut s ++ ELLIPSIS else s.
Definition clamp (t : text) : text :=
  if (length t <=? MAX_FOLDED_LINE_CHARS)%nat then t else take (MAX_FOLDED_LINE_CHARS - 3) t ++ ELLIPSIS.
Definition estimateTokens (t : text) : Z := (text_len t + 3) / 4.

(** ** Regular expressions *)
Definition lower (c : Z) : Z := if (65 <=? c) && (c <=? 90) then c + 32 else c.
(** A lower-case literal, matched without case; what follows it. *)
Fixpoint strip_ci (p s : text) : option text :=
  match p, s with
  | [], _ => Some s
  | _, [] => None
  | x :: p', y :: s' => if lower y =? x then strip_ci p' s' else None
  end.
Fixpoint span_text (p : Z → bool) (s : text) : text * text :=
  match s with
  | c :: s' => if p c then let '(a, b) := span_text p s' in (c :: a, b) else ([], s)
  | [] => ([], [])
  end.
(** The first position where [f] matches. *)
Fixpoint search {A} (f : text → option A) (s : text) : option A :=
  match f s with
  | Some a => Some a
  | None => match s with [] => None | _ :: s' => search f s' end
  end.

(** [exit[_ ]code] without case. *)
Definition exit_code_word (s : text) : option text :=
  match strip_ci (lit "exit") s with
  | Some (c :: s') => if (c =? 95) || (c =? 32) then strip_ci (lit "code") s' else None
  | _ => None
  end.
(** [/exit[_ ]code:?\s*(\d+)/i]: the digits. *)
Definition exit_code_at (s : text) : option text :=
  match exit_code_word s with
  | Some s1 =>
      let s2 := match s1 with c :: s1' => if c =? 58 then s1' else s1 | [] => [] end in
      match (span_text digit_unit (drop_ws s2)).1 with
      | [] => None
      | ds => Some ds
      end
  | None => None
  end.
Definition exit_match (s : text) : option text := search exit_code_at s.
(** [/^(stdout|stderr):?$/i]. *)
Definition stream_marker (s : text) : bool :=
  match (match strip_ci (lit "stdout") s with Some r => Some r | None => strip_ci (lit "stderr") s end) with
  | Some r => teqb r [] || teqb r [58]
  | None => false
  end.
Definition word_unit (c : Z) : bool :=
  digit_unit c || (65 <=? c) && (c <=? 90) || (97 <=? c) && (c <=? 122) || (c =? 95).
(** [p\b] at the start, without case, for a [p] that ends in a letter. *)
Definition opens_word (p s : text) : bool :=
  match strip_ci p s with
  | Some [] => true
  | Some (c :: _) => negb (word_unit c)
  | None => false
  end.
Definition opens (p s : text) : bool := match strip_ci p s with Some _ => true | None => false end.
(** [/^(error\b|enoent\b|eacces\b|eisdir\b|failed\b|no such file|not found)/i]. *)
Definition error_opener (s : text) : bool :=
  opens_word (lit "error") s || opens_word (lit "enoent") s || opens_word (lit "eacces") s ||
  opens_word (lit "eisdir") s || opens_word (lit "failed") s || opens (lit "no such file") s || opens (lit "not found") s.
(** [/^\d+\t/] or [/^\s*\d+[:\t]/]; the second covers the first. *)
Definition numbered_line (s : text) : bool :=
  match span_text digit_unit (drop_ws s) with
  | (_ :: _, c :: _) => (c =? 58) || (c =? 9)
  | _ => false
  end.
(** [/tool_use[^a-z]*([a-z_]+)/i]: the group.  Behind a run of other characters
    comes a name, or the run is cut back to its last underscore. *)
Definition letter_unit (c : Z) : bool := (97 <=? lower c) && (lower c <=? 122).
Definition name_unit (c : Z) : bool := letter_unit c || (c =? 95).
Definition tool_use_at (s : text) : option text :=
  match strip_ci (lit "tool_use") s with
  | Some s1 =>
      let '(other, s2) := span_text (λ c, negb (letter_unit c)) s1 in
      match s2 with
      | _ :: _ => Some (span_text name_unit s2).1
      | [] => if bool_decide (95 ∈ other) then Some [95] else None
      end
  | None => None
  end.
(** [/(?:error|Error|FAILED)[^\n]{0,60}/]. *)
Definition error_at (s : text) : option text :=
  let rest (p : text) := if starts_with_text p s
                         then Some (p ++ take 60 (span_text (λ c, negb (c =? NL)) (drop (length p) s)).1) else None in
  match rest (lit "error"), rest (lit "Error"), rest (lit "FAILED") with
  | Some r, _, _ | None, Some r, _ | None, None, Some r => Some r
  | None, None, None => None
  end.

(** ** Text of a content *)
Definition has_type (ty : string) (b : json) : bool :=
  match block_type b with Some t => seqb t ty | None => false end.
Definition text_blocks (blocks : list json) : list text :=
  omap (λ b, if has_type "text" b then utf16 <$> as_string (json_get "text" b) else None) blocks.
Definition collectBlockText (blocks : list json) : text :=
  match text_blocks blocks with
  | [] => lit "[non-text content]"
  | ts => join_char NL ts
  end.
Definition opens_bracket (s : string) : bool := starts_with "[" s.
Definition extractTextContent (content : llm_content) : text :=
  match content with
  | CText s =>
      if opens_bracket s
      then match json_parse s with Some (JArr blocks) => collectBlockText blocks | _ => utf16 s end
      else utf16 s
  | CBlocks blocks => collectBlockText blocks
  end.

(** ** Tool uses *)
Record ToolUseInfo := MkUse { tu_name : text; tu_hint : text; tu_input : option json }.

(** [Object.entries]. *)
Definition object_entries (v : json) : list (text * json) :=
  match v with
  | JObj fs => (λ kv, (utf16 kv.1, kv.2)) <$> fs
  | JArr l => imap (λ i x, (dec (Z.of_nat i), x)) l
  | _ => []
  end.
Definition is_object (v : json) : bool := match v with JObj _ | JArr _ => true | _ => false end.
Definition UNSURE : text := lit "…".
Definition extractInputHint (input : option json) : text :=
  match input with
  | Some v =>
      match object_entries v with
      | [] => UNSURE
      | (key, value) :: rest =>
          let valueStr := match value with JStr s => utf16 s | _ => utf16 (json_stringify value) end in
          let hint := shorten 60 57 valueStr in
          match rest with [] => hint | _ => key ++ 61 :: hint end
      end
  | None => UNSURE
  end.
Definition isToolUseBlock (b : json) : bool := has_type "tool_use" b.
Definition use_of_block (b : json) : ToolUseInfo :=
  let input := json_get "input" b in
  MkUse (match as_string (json_get "name" b) with Some n => utf16 n | None => lit "unknown" end)
    (extractInputHint input)
    (match input with Some v => if is_object v then Some v else None | None => None end).
Definition uses_of_blocks (blocks : list json) : list ToolUseInfo := use_of_block <$> List.filter isToolUseBlock blocks.
Definition extractToolUsesFromString (content : string) : list ToolUseInfo :=
  match (if opens_bracket content then json_parse content else None) with
  | Some (JArr blocks) => uses_of_blocks blocks
  | _ =>
      match search tool_use_at (utf16 content) with
      | Some name => [MkUse name UNSURE None]
      | None => [MkUse (lit "unknown") UNSURE None]
      end
  end.
Definition extractToolUses (content : llm_content) : list ToolUseInfo :=
  match content with
  | CText s => extractToolUsesFromString s
  | CBlocks blocks => uses_of_blocks blocks
  end.

(** ** Results *)
Definition isReadClassTool (name : text) : bool := teqb name (lit "read") || ends_with_text (lit "_read") name.

Definition num_of (v : option json) : option (Z * Z) := match v with Some (JNum m e) => Some (m, e) | _ => None end.
Definition num_text (n : Z * Z) : text := ascii_text (print_num n.1 n.2).
(** [a + b - 1]. *)
Definition range_last (a b : Z * Z) : Z * Z :=
  let e := Z.min a.2 b.2 in
  match make_num (a.1 * 10 ^ (a.2 - e) + b.1 * 10 ^ (b.2 - e) - 10 ^ (- e)) e with
  | JNum m e' => (m, e')
  | _ => (0, 0)
  end.
Definition input_string (k : string) (input : option json) : option text :=
  match input with Some v => utf16 <$> as_string (json_get k v) | None => None end.
Definition input_num (k : string) (input : option json) : option (Z * Z) :=
  match input with Some v => num_of (json_get k v) | None => None end.

Definition buildReadActionLine (input : option json) (errorDetail : option text) : text :=
  let path := match input_string "file_path" input with
              | Some p => p
              | None => match input_string "path" input with Some p => p | None => lit "(unknown path)" end
              end in
  let range :=
    match input_num "offset" input, input_num "limit" input with
    | Some offset, Some limit =>
        lit " lines " ++ num_text offset ++ lit "-" ++ num_text (range_last offset limit) ++
        lit " (" ++ num_text limit ++ lit " lines)"
    | None, Some limit => lit " (" ++ num_text limit ++ lit " lines)"
    | Some offset, None => lit " from line " ++ num_text offset
    | None, None => []
    end in
  let errSuffix := match errorDetail with
                   | Some e => if is_empty_text e then [] else lit " -> " ++ e
                   | None => []
                   end in
  clamp (lit "[read] " ++ path ++ range ++ errSuffix).

Fixpoint first_error_line (lines : list text) : option text :=
  match lines with
  | [] => None
  | raw :: rest =>
      let line := trim_text raw in
      if is_empty_text line then first_error_line rest
      else if starts_with_text (lit "[boundless]") line || stream_marker line then first_error_line rest
      else if numbered_line raw then None
      else if error_opener line then Some (shorten 60 57 line)
      else None
  end.
Definition detectResultError (content : llm_content) : option text :=
  let t := extractTextContent content in
  match exit_match t with
  | Some code => if teqb code (lit "0") then None else Some (lit "exit " ++ code)
  | None => first_error_line (split_char NL t)
  end.

Definition stub_header : text := lit "[Tool result truncated for inline display".
Definition substantive (l : text) : bool :=
  negb (is_empty_text l) && match search exit_code_word l with Some _ => false | None => true end &&
  negb (starts_with_text (lit "[") l) && negb (stream_marker l).
Definition result_summary (t : text) : text :=
  if starts_with_text stub_header t then
    match break_char NL t with
    | Some (_, c :: rest) => shorten 80 77 (trim_text (c :: rest))
    | _ => lit "truncated"
    end
  else match exit_match t with
  | Some exitCode =>
      match List.find substantive (trim_text <$> split_char NL t) with
      | Some summaryLine => lit "exit " ++ exitCode ++ lit ", " ++ shorten 80 77 summaryLine
      | None => lit "exit " ++ exitCode
      end
  | None =>
      if includes_text (lit "success") t || includes_text (lit "Success") t ||
         includes_text (lit "Edited ") t || includes_text (lit "Wrote ") t then lit "success"
      else if includes_text (lit "error") t || includes_text (lit "Error") t || includes_text (lit "FAILED") t then
        match search error_at t with Some e => trim_text e | None => lit "error" end
      else
        let firstLine := match List.find (λ l, negb (is_empty_text (trim_text l))) (split_char NL t) with
                         | Some l => l
                         | None => t
                         end in
        shorten 80 77 (trim_text firstLine)
  end.
Definition extractResultSummary (content : llm_content) : text := result_summary (extractTextContent content).

(** ** Folding *)
Definition fold_line (t : text) (sourceCount : Z) : FoldedLine := MkLine t (estimateTokens t) sourceCount.
(** The line of a tool use with its result's text and error, or without one. *)
Definition use_line (tu : ToolUseInfo) (result : option llm_content) : text :=
  if isReadClassTool (tu_name tu) then
    buildReadActionLine (tu_input tu)
      (match result with Some c => detectResultError c | None => Some (lit "(no result)") end)
  else
    clamp (lit "[tool] " ++ tu_name tu ++ lit "(" ++ tu_hint tu ++ lit ")" ++ ARROW ++
           match result with Some c => extractResultSummary c | None => lit "(no result)" end).
Definition extra_result_line (c : llm_content) : text :=
  clamp (lit "[tool] ?(…)" ++ ARROW ++ extractResultSummary c).

(** Uses and results paired in order, then the uses and the results left over. *)
Fixpoint group_texts (uses : list ToolUseInfo) (results : list LLMMessage) : list text :=
  match uses, results with
  | tu :: us, r :: rs => use_line tu (Some (lm_content r)) :: group_texts us rs
  | us, [] => (λ tu, use_line tu None) <$> us
  | [], rs => (λ r, extra_result_line (lm_content r)) <$> rs
  end.
(** The first line of a group counts for its messages. *)
Definition attribute (n : Z) (ls : list text) : list FoldedLine :=
  match ls with
  | [] => []
  | l :: ls' => fold_line l n :: ((λ t, fold_line t 0) <$> ls')
  end.
Definition fold_group (call : LLMMessage) (results : list LLMMessage) : list FoldedLine :=
  let n := 1 + Z.of_nat (length results) in
  match extractToolUses (lm_content call) with
  | [] => [fold_line (clamp (lit "[tool] (unparseable tool call)")) n]
  | uses => attribute n (group_texts uses results)
  end.
(** The line of a message that opens no group; empty for the silent roles. *)
Definition fold_single (m : LLMMessage) : FoldedLine :=
  match lm_role m with
  | RUser => fold_line (clamp (lit "[user] " ++ extractTextContent (lm_content m))) 1
  | RAssistant =>
      fold_line (clamp (lit "[assistant] " ++
        shorten ASSISTANT_PREVIEW_CHARS ASSISTANT_PREVIEW_CHARS (extractTextContent (lm_content m)))) 1
  | RToolResult => fold_line (clamp (lit "[tool result] " ++ extractResultSummary (lm_content m))) 1
  | _ => MkLine [] 0 1
  end.

(** The leading tool results of a range, and what follows them. *)
Fixpoint span_results (ms : list LLMMessage) : list LLMMessage * list LLMMessage :=
  match ms with
  | m :: ms' => if is_role RToolResult m then let '(a, b) := span_results ms' in (m :: a, b) else ([], ms)
  | [] => ([], [])
  end.
(** [fuel] bounds the number of groups; the number of messages is enough. *)
Fixpoint fold_loop (fuel : nat) (ms : list LLMMessage) : list FoldedLine :=
  match fuel, ms with
  | S fuel', m :: ms' =>
      if is_role RToolCall m then
        let '(results, rest) := span_results ms' in fold_group m results ++ fold_loop fuel' rest
      else fold_single m :: fold_loop fuel' ms'
  | _, _ => []
  end.
Definition visible (l : FoldedLine) : bool := negb (is_empty_text (fl_text l)).
Definition foldMessages (messages : list LLMMessage) (startIndex endIndex : nat) : list FoldedLine :=
  let range := take (endIndex - startIndex) (drop startIndex messages) in
  List.filter visible (fold_loop (length range) range).

(** ** Runs of identical lines *)
Definition TIMES : text := lit " ×".
Fixpoint same_run (t : text) (ls : list FoldedLine) : list FoldedLine * list FoldedLine :=
  match ls with
  | l :: ls' => if teqb (fl_text l) t then let '(a, b) := same_run t ls' in (l :: a, b) else ([], ls)
  | [] => ([], [])
  end.
Definition run_line (l : FoldedLine) (run : list FoldedLine) : FoldedLine :=
  let summed := sum_list_Z (fl_sourceCount <$> l :: run) in
  match run with
  | [] => MkLine (fl_text l) (fl_tokens l) summed
  | _ => let t := clamp (fl_text l ++ TIMES ++ dec (Z.of_nat (S (length run)))) in MkLine t (estimateTokens t) summed
  end.
Fixpoint dedupe_loop (fuel : nat) (ls : list FoldedLine) : list FoldedLine :=
  match fuel, ls with
  | S fuel', l :: ls' => let '(run, rest) := same_run (fl_text l) ls' in run_line l run :: dedupe_loop fuel' rest
  | _, _ => []
  end.
Definition dedupeFoldedLines (ls : list FoldedLine) : list FoldedLine := dedupe_loop (length ls) ls.

(** ** Samples *)
Example summary_exit : extractResultSummary (CText "Exit code: 1
stdout:
[boundless] host=a
  no such test") = lit "exit 1, no such test".
Proof. vm_compute. reflexivity. Qed.
Example summary_error : extractResultSummary (CText "it Failed with an Error: x
y") = lit "Error: x".
Proof. vm_compute. reflexivity. Qed.
Example read_range : buildReadActionLine (Some (JObj [("file_path", JStr "a.ts"); ("offset", JInt 10); ("limit", JInt 5)])) None
  = lit "[read] a.ts lines 10-14 (5 lines)".
Proof. vm_compute. reflexivity. Qed.
Example body_is_no_error : detectResultError (CText "  95	error handling") = None.
Proof. vm_compute. reflexivity. Qed.

(** * Properties *)

(** The roles that leave a line. *)
Definition speaks (m : LLMMessage) : bool :=
  match lm_role m with RUser | RAssistant | RToolCall | RToolResult => true | _ => false end.
Definition source_sum (ls : list FoldedLine) : Z := sum_list_Z (fl_sourceCount <$> ls).
Definition spoken (ms : list LLMMessage) : Z := Z.of_nat (length (List.filter speaks ms)).

Lemma source_sum_app a b : source_sum (a ++ b) = source_sum a + source_sum b.
Proof. unfold source_sum. by rewrite fmap_app, sum_list_Z_app. Qed.
Lemma spoken_app a b : spoken (a ++ b) = spoken a + spoken b.
Proof. unfold spoken. rewrite List.filter_app, length_app. lia. Qed.
Lemma spoken_cons m ms : spoken (m :: ms) = (if speaks m then 1 else 0) + spoken ms.
Proof. unfold spoken. simpl. destruct (speaks m); simpl length; lia. Qed.

Lemma span_results_spec ms : let '(a, b) := span_results ms in
  ms = a ++ b ∧ Forall (λ m, lm_role m = RToolResult) a ∧ (length b ≤ length ms)%nat.
Proof.
  induction ms as [|m ms IH]; simpl; [by repeat split|]. unfold is_role. case_bool_decide; simpl.
  - destruct (span_results ms) as [a b]. destruct IH as (-> & Ha & Hl). split_and!; [done|by constructor|lia].
  - split_and!; [done|constructor|lia].
Qed.

Lemma spoken_results ms : Forall (λ m, lm_role m = RToolResult) ms → spoken ms = Z.of_nat (length ms).
Proof. induction 1 as [|m ms H _ IH]; [done|]. rewrite spoken_cons, IH. unfold speaks. rewrite H. simpl length. lia. Qed.

Lemma attribute_sum n ls : ls ≠ [] → source_sum (attribute n ls) = n.
Proof.
  destruct ls as [|l ls]; [done|]. intros _.
  change (source_sum (attribute n (l :: ls))) with (n + source_sum ((λ t, fold_line t 0) <$> ls)).
  cut (source_sum ((λ t, fold_line t 0) <$> ls) = 0); [lia|].
  induction ls as [|x ls IH]; [done|]. csimpl. exact IH.
Qed.
Lemma group_texts_nonempty us rs : us ≠ [] → group_texts us rs ≠ [].
Proof. destruct us, rs; done. Qed.
Lemma fold_group_sum call results : source_sum (fold_group call results) = 1 + Z.of_nat (length results).
Proof.
  unfold fold_group. destruct (extractToolUses (lm_content call)) as [|u us].
  - unfold source_sum. simpl. lia.
  - rewrite attribute_sum; [done|]. by apply group_texts_nonempty.
Qed.

(** ** No line is longer than the bound *)
Lemma length_clamp t : (length (clamp t) ≤ MAX_FOLDED_LINE_CHARS)%nat.
Proof.
  unfold clamp. destruct (Nat.leb_spec (length t) MAX_FOLDED_LINE_CHARS); [done|].
  rewrite length_app, length_take. change (length ELLIPSIS) with 3%nat. unfold MAX_FOLDED_LINE_CHARS in *. lia.
Qed.
Lemma clamp_nonempty t : t ≠ [] → clamp t ≠ [].
Proof.
  unfold clamp. intros Ht. destruct (_ <=? _)%nat; [done|]. intros H%(f_equal length).
  rewrite length_app in H. change (length ELLIPSIS) with 3%nat in H. simpl in H. lia.
Qed.
Definition line_ok (t : text) : Prop := t ≠ [] ∧ (length t ≤ MAX_FOLDED_LINE_CHARS)%nat.
Lemma line_ok_clamp c t u : line_ok (clamp ((c :: t) ++ u)).
Proof. split; [by apply clamp_nonempty|apply length_clamp]. Qed.
Lemma use_line_ok tu r : line_ok (use_line tu r).
Proof. unfold use_line, buildReadActionLine. destruct (isReadClassTool _); apply line_ok_clamp. Qed.
Lemma extra_line_ok c : line_ok (extra_result_line c).
Proof. apply line_ok_clamp. Qed.
Lemma group_texts_ok us rs : Forall line_ok (group_texts us rs).
Proof.
  revert rs. induction us as [|u us IH]; intros [|r rs]; cbn [group_texts].
  - constructor.
  - apply (Forall_fmap _ _ (_ :: _)). apply Forall_forall. intros. apply extra_line_ok.
  - apply (Forall_fmap _ _ (_ :: _)). apply Forall_forall. intros. apply use_line_ok.
  - constructor; [apply use_line_ok|apply IH].
Qed.
Definition folded_ok (l : FoldedLine) : Prop := line_ok (fl_text l) ∧ fl_tokens l = estimateTokens (fl_text l).
Lemma fold_group_ok call results : Forall folded_ok (fold_group call results).
Proof.
  unfold fold_group. destruct (extractToolUses (lm_content call)) as [|u us].
  - constructor; [|done]. split; [|done]. split; [vm_compute; discriminate|apply length_clamp].
  - pose proof (group_texts_ok (u :: us) results) as H. destruct (group_texts (u :: us) results) as [|l ls]; [done|].
    apply Forall_cons in H as [Hl Hls]. constructor; [done|]. apply Forall_fmap.
    eapply Forall_impl; [exact Hls|]. by intros x Hx.
Qed.
Lemma fold_single_ok m : lm_role m ≠ RToolCall → if speaks m then folded_ok (fold_single m) ∧ fl_sourceCount (fold_single m) = 1
                         else visible (fold_single m) = false.
Proof.
  intros Hr. unfold speaks, fold_single, fold_line, folded_ok, line_ok. destruct (lm_role m); cbn [fl_text fl_tokens fl_sourceCount].
  - split_and!; [apply clamp_nonempty; discriminate|apply length_clamp|reflexivity|reflexivity].
  - split_and!; [apply clamp_nonempty; discriminate|apply length_clamp|reflexivity|reflexivity].
  - reflexivity.
  - by destruct Hr.
  - split_and!; [apply clamp_nonempty; discriminate|apply length_clamp|reflexivity|reflexivity].
  - reflexivity.
  - reflexivity.
Qed.

Lemma folded_visible l : folded_ok l → visible l = true.
Proof. intros [[H _] _]. unfold visible. by destruct (fl_text l). Qed.

Lemma fold_loop_spec fuel ms : (length ms ≤ fuel)%nat →
  let ls := List.filter visible (fold_loop fuel ms) in source_sum ls = spoken ms ∧ Forall folded_ok ls.
Proof.
  revert ms. induction fuel as [|fuel IH]; intros [|m ms] Hf; cbn [fold_loop]; [by split|simpl in Hf; lia|by split|].
  simpl in Hf. unfold is_role. case_bool_decide as Hr.
  - pose proof (span_results_spec ms) as Hsp. destruct (span_results ms) as [a b]. destruct Hsp as (-> & Ha & Hl).
    destruct (IH b) as [IH1 IH2]; [lia|]. cbv zeta. rewrite List.filter_app.
    rewrite (filter_bool_all visible (fold_group m a)).
    2: { intros l Hl'. apply folded_visible. pose proof (fold_group_ok m a) as H. rewrite Forall_forall in H. by apply H. }
    rewrite source_sum_app, fold_group_sum, IH1, spoken_cons, spoken_app, (spoken_results _ Ha).
    unfold speaks. rewrite Hr. split; [lia|]. apply Forall_app. split; [apply fold_group_ok|done].
  - destruct (IH ms) as [IH1 IH2]; [lia|]. cbv zeta. cbn [List.filter]. rewrite spoken_cons.
    pose proof (fold_single_ok m Hr) as Hs. destruct (speaks m) eqn:E.
    + destruct Hs as [Hok Hc]. rewrite (folded_visible _ Hok). split; [|by constructor].
      change (source_sum (fold_single m :: List.filter visible (fold_loop fuel ms)))
        with (fl_sourceCount (fold_single m) + source_sum (List.filter visible (fold_loop fuel ms))). lia.
    + rewrite Hs. split; [lia|done].
Qed.

(** Folding a range accounts for exactly its user, assistant and tool
    messages: the source counts add up to their number, so the developer,
    system and cache messages of the range are counted by no line.  Every line
    is non-empty and at most 300 units long, and its cost is that of its text. *)
Theorem fold_coverage messages s e :
  let ls := foldMessages messages s e in
  source_sum ls = spoken (take (e - s) (drop s messages)) ∧ Forall folded_ok ls.
Proof. apply fold_loop_spec. done. Qed.

(** ** Runs *)
Lemma same_run_spec t ls : let '(a, b) := same_run t ls in
  ls = a ++ b ∧ Forall (λ l, fl_text l = t) a ∧ match b with l :: _ => fl_text l ≠ t | [] => True end.
Proof.
  induction ls as [|l ls IH]; simpl; [by repeat split|]. unfold teqb. case_bool_decide; simpl.
  - destruct (same_run t ls) as [a b]. destruct IH as (-> & Ha & Hb). split_and!; [done|by constructor|done].
  - split_and!; [done|constructor|done].
Qed.

(** The runs of equal lines of a digest, and the line of each. *)
Inductive run_split : list FoldedLine → list (FoldedLine * list FoldedLine) → Prop :=
| run_nil : run_split [] []
| run_cons l run rest rs :
    Forall (λ x, fl_text x = fl_text l) run →
    match rest with x :: _ => fl_text x ≠ fl_text l | [] => True end →
    run_split rest rs → run_split (l :: run ++ rest) ((l, run) :: rs).

Lemma dedupe_loop_spec fuel ls : (length ls ≤ fuel)%nat →
  ∃ rs, run_split ls rs ∧ dedupe_loop fuel ls = (λ r, run_line r.1 r.2) <$> rs.
Proof.
  revert ls. induction fuel as [|fuel IH]; intros [|l ls] Hf; cbn [dedupe_loop];
    [by exists []; split; [constructor|]|simpl in Hf; lia|by exists []; split; [constructor|]|].
  pose proof (same_run_spec (fl_text l) ls) as H. destruct (same_run (fl_text l) ls) as [run rest].
  destruct H as (-> & Hrun & Hrest). destruct (IH rest) as (rs & Hrs & ->).
  { simpl in Hf. rewrite length_app in Hf. lia. }
  exists ((l, run) :: rs). split; [by constructor|done].
Qed.

Lemma run_split_sum ls rs : run_split ls rs → source_sum ((λ r, run_line r.1 r.2) <$> rs) = source_sum ls.
Proof.
  induction 1 as [|l run rest rs _ _ _ IH]; [done|].
  change (source_sum ((λ r, run_line r.1 r.2) <$> (l, run) :: rs))
    with (fl_sourceCount (run_line l run) + source_sum ((λ r, run_line r.1 r.2) <$> rs)).
  rewrite IH. change (l :: run ++ rest) with ((l :: run) ++ rest). rewrite source_sum_app. f_equal. by destruct run.
Qed.

(** Deduplication splits the lines into maximal runs of equal text and keeps
    one line for each: a single line as it is, a longer run with its length;
    the source counts of the digest are unchanged. *)
Theorem dedupe_runs ls :
  ∃ rs, run_split ls rs ∧ dedupeFoldedLines ls = (λ r, run_line r.1 r.2) <$> rs ∧
    source_sum (dedupeFoldedLines ls) = source_sum ls.
Proof.
  destruct (dedupe_loop_spec (length ls) ls) as (rs & Hrs & Heq); [done|]. exists rs. unfold dedupeFoldedLines.
  rewrite Heq. split_and!; [done|done|by apply run_split_sum].
Qed.
