(* ===== verification/HistoryTiers.v ===== *)
(** * Tiered history (packages/agent/src/progressive-fidelity/tier-allocation.ts,
      packages/agent/src/history-boundary.ts)

    The allocation of a thread's history to three tiers: recent messages at full
    resolution, a folded digest of the messages before them and a marker for the
    rest.  Token counts are the caller's, or those of the tokenizer argument
    [count].  Budgets are integers; [Math.floor(b * 0.65)] and [b * 0.3] are
    exact for integers below 2^50.  The two developer messages are kept as their
    contents. *)
From Stdlib Require Import Ascii.
From S2P Require Import Prelude Json Text TokenCount HistoryFold.

(** ** The boundary of the recent slice *)
(** How many of the counts, from the end, fit the budget. *)
Fixpoint fill (rev_counts : list Z) (accumulated budget : Z) : nat :=
  match rev_counts with
  | c :: cs => if budget <? accumulated + c then 0 else S (fill cs (accumulated + c) budget)
  | [] => 0
  end.
(** [while (i < n && p(messages[i])) i++]. *)
Fixpoint leading (p : LLMMessage → bool) (ms : list LLMMessage) : nat :=
  match ms with m :: ms' => if p m then S (leading p ms') else 0 | [] => 0 end.
Definition advance_while (p : LLMMessage → bool) (ms : list LLMMessage) (i : nat) : nat := (i + leading p (drop i ms))%nat.
(** [while (i > 0 && p(i)) i--]. *)
Fixpoint retreat_while (p : nat → bool) (i : nat) : nat :=
  match i with
  | O => O
  | S i' => if p i then retreat_while p i' else i
  end.
Definition last_user (ms : list LLMMessage) : option nat :=
  List.find (λ i, match ms !! i with Some m => is_role RUser m | None => false end) (rev (seq 0 (length ms))).

Definition findHistoryBoundary (ms : list LLMMessage) (counts : list Z) (budget : Z) : nat :=
  let n := length ms in
  let sliceStart := Nat.min (n - fill (reverse counts) 0 budget) (n - 2) in
  let advanced := advance_while (λ m, negb (is_role RUser m)) ms sliceStart in
  if (advanced <? n)%nat then advanced
  else match last_user ms with
       | Some i => i
       | None => advance_while (is_role RToolResult) ms sliceStart
       end.

Definition isWireLegalHistoryOpener (ms : list LLMMessage) (sliceStart : nat) : bool :=
  match ms !! sliceStart with
  | None => true
  | Some m => match lm_role m with RUser | RDeveloper | RSystem | RAssistant | RToolCall => true | _ => false end
  end.

(** ** The texts of the markers *)
Definition QUERY : text := [34] ++ lit "SELECT role, substr(content, 1, 200), created_at FROM messages WHERE thread_id = '".
Definition buildMiddleHeader (messageCount : nat) (threadId : string) : text :=
  lit "[Compressed history: " ++ dec (Z.of_nat messageCount) ++
  lit " messages folded into action summaries. [read] lines are a map of prior reads, not file contents — re-read a region with read(<path>, offset, limit). For other full content: query " ++
  QUERY ++ utf16 threadId ++ lit "' ORDER BY created_at" ++ [34] ++ lit "]".
Definition buildMiddleDigest (foldedLines : list FoldedLine) (messageCount : nat) (threadId : string) : text :=
  buildMiddleHeader messageCount threadId ++ [NL; NL] ++
  join_char NL (fl_text <$> dedupeFoldedLines (List.filter visible foldedLines)).
Definition buildAncientMarker (droppedCount : nat) (threadId : string) (threadSummary : option string) : text :=
  let summarySection := match threadSummary with
                        | Some s => if nonempty s then [NL; NL] ++ lit "Summary of earlier conversation:" ++ [NL] ++ utf16 s else []
                        | None => []
                        end in
  (if (droppedCount =? 0)%nat
   then lit "[Context note: Earlier messages in this conversation were compressed to fit the context window. A folded summary of recent actions follows below. For full content, use: query "
   else lit "[Context note: " ++ dec (Z.of_nat droppedCount) ++
        lit " earlier messages in this conversation were truncated to fit the context window. A folded summary of more recent actions follows below. For full content, use: query ") ++
  QUERY ++ utf16 threadId ++ lit "' ORDER BY created_at DESC LIMIT 50" ++ [34] ++ lit "]" ++ summarySection.

(** ** The tiers *)
Record TieredHistoryParams := MkParams {
  tp_messages : list LLMMessage; tp_counts : option (list Z); tp_budget : Z; tp_threadId : string;
  tp_summary : option string; tp_ceiling : option Z }.
Record TieredHistoryResult := MkTiered {
  tr_ancientMarker : option text; tr_middleDigestMsg : option text; tr_recentMessages : list LLMMessage;
  tr_ancientDropped : nat; tr_middleFolded : nat; tr_recentKept : nat;
  tr_ancientTokens : Z; tr_middleTokens : Z; tr_recentTokens : Z; tr_wireLegalOpener : bool }.

Definition recent_share (b : Z) : Z := b * 65 / 100.
Definition middle_share (b : Z) : Z := b * 30 / 100.
Definition MIN_MIDDLE_LINES : nat := 3.
Definition suffix_tokens (counts : list Z) (i : nat) : Z := sum_list_Z (drop i counts).

Definition is_result_at (ms : list LLMMessage) (i : nat) : bool :=
  match ms !! i with Some m => is_role RToolResult m | None => false end.

(** The two-message floor. *)
Definition floor_start (ms : list LLMMessage) (start : nat) : nat :=
  let floorStart := (length ms - Nat.min 2 (length ms))%nat in
  if (floorStart <? start)%nat then retreat_while (is_result_at ms) floorStart else start.

(** [while (i < maxStart && suffixTokens[i] > target) i++]; [fuel] is the
    distance to [maxStart]. *)
Fixpoint step_forward (counts : list Z) (target : Z) (fuel i : nat) : nat :=
  match fuel with
  | O => i
  | S fuel' => if target <? suffix_tokens counts i then step_forward counts target fuel' (S i) else i
  end.
(** The physical-window clamp. *)
Definition clamp_start (ms : list LLMMessage) (counts : list Z) (recentBudget : Z) (ceiling : option Z) (start : nat) : nat :=
  match ceiling with
  | Some c =>
      if 0 <? c then
        let maxStart := (length ms - Nat.min 2 (length ms))%nat in
        if c <? suffix_tokens counts start then
          let stepped := step_forward counts (Z.min recentBudget c) (maxStart - start) start in
          retreat_while (λ i, is_result_at ms i && (suffix_tokens counts (i - 1) <=? c)) stepped
        else start
      else start
  | None => start
  end.
Definition recent_start (ms : list LLMMessage) (counts : list Z) (budget : Z) (ceiling : option Z) : nat :=
  let recentBudget := recent_share budget in
  clamp_start ms counts recentBudget ceiling (floor_start ms (findHistoryBoundary ms counts recentBudget)).

(** The lines kept, from the end, and their cost with the header's. *)
Fixpoint keep_lines (rev_lines : list FoldedLine) (accumulated budget : Z) : nat * Z :=
  match rev_lines with
  | l :: ls =>
      if budget <? accumulated + fl_tokens l then (0%nat, accumulated)
      else let '(k, a) := keep_lines ls (accumulated + fl_tokens l) budget in (S k, a)
  | [] => (0%nat, accumulated)
  end.
Definition middle_budget (budget recentTokens : Z) : Z := Z.min (middle_share budget) (Z.max 0 (budget - recentTokens)).
(** [middleSliceStart] and [middleTokens] when enough lines are kept. *)
Definition allocate_middle (ms : list LLMMessage) (zoneEnd : nat) (threadId : string) (budget : Z) : option (nat * Z) :=
  if (0 <? zoneEnd)%nat && (0 <? budget) then
    let allFolded := foldMessages ms 0 zoneEnd in
    if (MIN_MIDDLE_LINES <=? length allFolded)%nat then
      let headerTokens := estimateTokens (buildMiddleHeader zoneEnd threadId) in
      let '(kept, accumulated) := keep_lines (reverse allFolded) headerTokens budget in
      if (MIN_MIDDLE_LINES <=? kept)%nat
      then Some (Z.to_nat (source_sum (take (length allFolded - kept) allFolded)), accumulated)
      else None
    else None
  else None.

Section tiers.
(** [countContentTokens] of a text. *)
Variable count : text → Z.
(** [countContentTokens] of a content. *)
Variable count_content : llm_content → Z.

Definition counts_of (p : TieredHistoryParams) : list Z :=
  let live := (λ m, count_content (lm_content m)) <$> tp_messages p in
  match tp_counts p with
  | Some cs => if (length cs =? length (tp_messages p))%nat then cs else live
  | None => live
  end.

Definition tieredHistoryTruncation (p : TieredHistoryParams) : TieredHistoryResult :=
  let ms := tp_messages p in
  if (length ms =? 0)%nat then MkTiered None None [] 0 0 0 0 0 0 true
  else
    let counts := counts_of p in
    let start := recent_start ms counts (tp_budget p) (tp_ceiling p) in
    let recentMessages := drop start ms in
    let recentTokens := suffix_tokens counts start in
    let '(middleSliceStart, middleFolded, middleTokens) :=
      match allocate_middle ms start (tp_threadId p) (middle_budget (tp_budget p) recentTokens) with
      | Some (s, t) => (s, (start - s)%nat, t)
      | None => (0%nat, 0%nat, 0)
      end in
    let ancientDropped := if (0 <? middleFolded)%nat then middleSliceStart else start in
    let ancientMarker :=
      if (0 <? ancientDropped)%nat || (0 <? middleFolded)%nat
      then Some (buildAncientMarker ancientDropped (tp_threadId p) (tp_summary p)) else None in
    let middleDigestMsg :=
      if (0 <? middleFolded)%nat
      then Some (buildMiddleDigest (foldMessages ms middleSliceStart start) middleFolded (tp_threadId p)) else None in
    MkTiered ancientMarker middleDigestMsg recentMessages ancientDropped middleFolded (length recentMessages)
      (match ancientMarker with Some c => count c | None => 0 end)
      (match middleDigestMsg with Some c => count c | None => middleTokens end)
      recentTokens (isWireLegalHistoryOpener ms start).
End tiers.

(** * Properties *)
Lemma retreat_le p i : (retreat_while p i ≤ i)%nat.
Proof. induction i as [|i IH]; simpl; [lia|]. destruct (p (S i)); lia. Qed.
(** The retreat stops at the first index that fails the test, or at zero. *)
Lemma retreat_stop p i : retreat_while p i = 0%nat ∨ p (retreat_while p i) = false.
Proof. induction i as [|i IH]; simpl; [by left|]. destruct (p (S i)) eqn:E; [done|by right]. Qed.
(** Between the stop and the start every index passes. *)
Lemma retreat_pass p i j : (retreat_while p i < j ≤ i)%nat → p j = true.
Proof.
  induction i as [|i IH]; simpl; [lia|]. destruct (p (S i)) eqn:E; [|lia]. intros Hj.
  destruct (decide (j = S i)) as [->|]; [done|]. apply IH. lia.
Qed.
Lemma retreat_mono p i j : (i ≤ j)%nat → (retreat_while p i ≤ retreat_while p j)%nat.
Proof.
  intros Hij. destruct (decide (i ≤ retreat_while p j)%nat) as [|Hgt]; [pose proof (retreat_le p i); lia|].
  assert (retreat_while p i ≤ retreat_while p j)%nat; [|done].
  assert (∀ k, (retreat_while p j ≤ k ≤ i)%nat → retreat_while p k = retreat_while p j) as H.
  { intros k. induction k as [|k IH]; intros Hk; [simpl; lia|].
    destruct (decide (retreat_while p j = S k)) as [Heq|Hne].
    - simpl. destruct (retreat_stop p j) as [Hs|Hs]; [lia|]. rewrite Heq in Hs. by rewrite Hs, Heq.
    - simpl. rewrite (retreat_pass p j (S k)) by lia. apply IH. lia. }
  rewrite H; lia.
Qed.

(** Where the two-message floor is. *)
Definition floor_index (ms : list LLMMessage) : nat := (length ms - Nat.min 2 (length ms))%nat.

Lemma suffix_antitone counts i j : Forall (λ c, 0 ≤ c) counts → (i ≤ j)%nat → suffix_tokens counts j ≤ suffix_tokens counts i.
Proof.
  intros counts_nonneg Hij. unfold suffix_tokens. assert (drop j counts = drop (j - i) (drop i counts)) as ->.
  { rewrite drop_drop. f_equal. lia. }
  rewrite <-(take_drop (j - i) (drop i counts)) at 2. rewrite sum_list_Z_app.
  assert (0 ≤ sum_list_Z (take (j - i) (drop i counts))); [|lia].
  apply sum_list_Z_nonneg. by apply Forall_take, Forall_drop.
Qed.

Lemma floor_start_le ms s : (floor_start ms s ≤ floor_index ms)%nat.
Proof. unfold floor_start. fold (floor_index ms). destruct (Nat.ltb_spec (floor_index ms) s); [apply retreat_le|lia]. Qed.

(** ** The forward step *)
Lemma step_forward_spec counts target fuel i : let j := step_forward counts target fuel i in
  (i ≤ j ≤ i + fuel)%nat ∧ (suffix_tokens counts j ≤ target ∨ j = (i + fuel)%nat) ∧
  (∀ k, (i ≤ k < j)%nat → target < suffix_tokens counts k).
Proof.
  revert i. induction fuel as [|fuel IH]; intros i; simpl; [repeat split; try lia|].
  destruct (Z.ltb_spec target (suffix_tokens counts i)) as [Hlt|Hge].
  - destruct (IH (S i)) as (H1 & H2 & H3). split_and!; [lia|lia|destruct H2; [by left|right; lia]|].
    intros k Hk. destruct (decide (k = i)) as [->|]; [done|]. apply H3. lia.
  - repeat split; try lia.
Qed.

Lemma clamp_start_le ms counts budget c s : (s ≤ floor_index ms)%nat → (clamp_start ms counts budget c s ≤ floor_index ms)%nat.
Proof.
  intros Hs. unfold clamp_start. destruct c as [c|]; [|done]. destruct (0 <? c); [|done].
  destruct (c <? suffix_tokens counts s); [|done]. fold (floor_index ms). etrans; [apply retreat_le|].
  destruct (step_forward_spec counts (Z.min budget c) (floor_index ms - s) s) as [H _]. lia.
Qed.
Lemma recent_start_le ms counts budget c : (recent_start ms counts budget c ≤ floor_index ms)%nat.
Proof. apply clamp_start_le, floor_start_le. Qed.

(** A slice over the physical ceiling is at the two-message floor. *)
Lemma clamp_ceiling ms counts budget c s : 0 < c → (s ≤ floor_index ms)%nat →
  let i := clamp_start ms counts budget (Some c) s in suffix_tokens counts i ≤ c ∨ i = floor_index ms.
Proof.
  intros Hc Hs. unfold clamp_start. assert (0 <? c = true) as -> by lia. fold (floor_index ms).
  destruct (Z.ltb_spec c (suffix_tokens counts s)) as [Hlt|Hge]; [|by left].
  destruct (step_forward_spec counts (Z.min budget c) (floor_index ms - s) s) as (H1 & H2 & _).
  set (j := step_forward counts (Z.min budget c) (floor_index ms - s) s) in *.
  set (p := λ i, is_result_at ms i && (suffix_tokens counts (i - 1) <=? c)).
  destruct (decide (retreat_while p j = j)) as [->|Hne]; [destruct H2; [left; lia|right; lia]|left].
  pose proof (retreat_le p j). assert (p (S (retreat_while p j)) = true) as Hp by (apply (retreat_pass p j); lia).
  set (r := retreat_while p j) in *. unfold p in Hp. apply andb_prop in Hp as [_ Hp]. apply Z.leb_le in Hp.
  by rewrite Nat.sub_succ, Nat.sub_0_r in Hp.
Qed.

(** C34: Nothing is lost and nothing is kept twice: the dropped, folded and kept
    counts add up to the number of messages, the kept messages are the last
    ones of the history, and at least two of them (or all) are kept. *)
Theorem tiers_partition count count_content p :
  let r := tieredHistoryTruncation count count_content p in
  let ms := tp_messages p in
  (tr_ancientDropped r + tr_middleFolded r + tr_recentKept r = length ms)%nat ∧
  tr_recentMessages r = drop (length ms - tr_recentKept r) ms ∧ length (tr_recentMessages r) = tr_recentKept r ∧
  (Nat.min 2 (length ms) ≤ tr_recentKept r)%nat.
Proof.
  unfold tieredHistoryTruncation. destruct (Nat.eqb_spec (length (tp_messages p)) 0) as [H0|Hn].
  { apply nil_length_inv in H0. rewrite H0. simpl. repeat split; lia. }
  set (start := recent_start _ _ _ _).
  pose proof (recent_start_le (tp_messages p) (counts_of count_content p) (tp_budget p) (tp_ceiling p)) as Hs.
  fold start in Hs. unfold floor_index in Hs. cbv zeta.
  destruct (match allocate_middle _ _ _ _ with Some _ => _ | None => _ end) as [[s f] t] eqn:E.
  cbn [tr_ancientDropped tr_middleFolded tr_recentKept tr_recentMessages]. rewrite length_drop.
  split_and!; [|f_equal; lia|done|lia].
  assert (f = 0%nat ∨ f = (start - s)%nat) as Hf.
  { destruct (allocate_middle _ _ _ _) as [[? ?]|]; injection E as <- <- <-; auto. }
  destruct (Nat.ltb_spec 0 f); lia.
Qed.

(** With a positive physical ceiling the kept messages never cost more than
    the ceiling, unless only the two-message floor is left. *)
Theorem recent_ceiling count count_content p c :
  tp_ceiling p = Some c → 0 < c →
  let r := tieredHistoryTruncation count count_content p in
  tr_recentTokens r ≤ c ∨ tr_recentKept r = Nat.min 2 (length (tp_messages p)).
Proof.
  intros Hc Hpos. unfold tieredHistoryTruncation. destruct (Nat.eqb_spec (length (tp_messages p)) 0) as [H0|Hn].
  { right. rewrite H0. done. }
  set (start := recent_start _ _ _ _). cbv zeta.
  destruct (match allocate_middle _ _ _ _ with Some _ => _ | None => _ end) as [[s f] t].
  cbn [tr_recentTokens tr_recentKept]. rewrite length_drop. unfold start, recent_start. rewrite Hc.
  destruct (clamp_ceiling (tp_messages p) (counts_of count_content p) (recent_share (tp_budget p)) c
    (floor_start (tp_messages p) (findHistoryBoundary (tp_messages p) (counts_of count_content p) (recent_share (tp_budget p)))) Hpos)
    as [H|H]; [apply floor_start_le|by left|right; rewrite H; unfold floor_index; lia].
Qed.

(** ** A larger budget keeps more *)
Lemma fill_mono cs acc b b' : b ≤ b' → (fill cs acc b ≤ fill cs acc b')%nat.
Proof.
  intros Hb. revert acc. induction cs as [|c cs IH]; intros acc; simpl; [lia|].
  destruct (Z.ltb_spec b (acc + c)), (Z.ltb_spec b' (acc + c)); try lia. specialize (IH (acc + c)). lia.
Qed.
Lemma fill_spec cs acc b : (fill cs acc b ≤ length cs)%nat ∧
  (fill cs acc b = 0%nat ∨ acc + sum_list_Z (take (fill cs acc b) cs) ≤ b).
Proof.
  revert acc. induction cs as [|c cs IH]; intros acc; simpl; [by split; [|left]|].
  destruct (Z.ltb_spec b (acc + c)); simpl; [split; [lia|by left]|].
  destruct (IH (acc + c)) as [Hl [H0|Hs]]; (split; [lia|right]); [rewrite H0; simpl; lia|].
  unfold sum_list_Z in *. simpl. lia.
Qed.
Lemma sum_list_Z_reverse l : sum_list_Z (reverse l) = sum_list_Z l.
Proof. induction l as [|x l IH]; [done|]. rewrite reverse_cons, sum_list_Z_app, IH. simpl. lia. Qed.
Lemma fill_suffix counts b : let k := fill (reverse counts) 0 b in
  k = 0%nat ∨ suffix_tokens counts (length counts - k) ≤ b.
Proof.
  destruct (fill_spec (reverse counts) 0 b) as [Hl [H0|Hs]]; [by left|right]. rewrite length_reverse in Hl.
  unfold suffix_tokens.
  set (k := fill (reverse counts) 0 b) in *.
  assert (take k (reverse counts) = reverse (drop (length counts - k) counts)) as Heq.
  { rewrite <-(take_drop (length counts - k) counts) at 1. rewrite reverse_app. apply take_app_length'.
    rewrite length_reverse, length_drop. lia. }
  rewrite Heq, sum_list_Z_reverse in Hs. lia.
Qed.

Lemma leading_spec p ms : (leading p ms ≤ length ms)%nat ∧
  (∀ k m, (k < leading p ms)%nat → ms !! k = Some m → p m = true) ∧
  (∀ m, ms !! leading p ms = Some m → p m = false).
Proof.
  induction ms as [|m ms IH]; simpl; [split_and!; [lia|intros; lia|done]|]. destruct IH as (H1 & H2 & H3).
  destruct (p m) eqn:E; (split_and!; [lia| |]).
  - intros [|k] m' Hk Hm; [by simplify_eq/=|]. apply (H2 k); [lia|done].
  - exact H3.
  - intros; lia.
  - intros m' Hm. by simplify_eq/=.
Qed.
Lemma advance_spec p ms i : let j := advance_while p ms i in
  (i ≤ j ≤ Nat.max i (length ms))%nat ∧
  (∀ k m, (i ≤ k < j)%nat → ms !! k = Some m → p m = true) ∧ (∀ m, ms !! j = Some m → p m = false).
Proof.
  unfold advance_while. destruct (leading_spec p (drop i ms)) as (H1 & H2 & H3). rewrite length_drop in H1.
  split_and!; [lia|lia| |].
  - intros k m Hk Hm. apply (H2 (k - i)%nat); [lia|]. rewrite lookup_drop. by replace (i + (k - i))%nat with k by lia.
  - intros m Hm. apply H3. by rewrite lookup_drop.
Qed.
Lemma advance_mono p ms i j : (i ≤ j)%nat → (advance_while p ms i ≤ advance_while p ms j)%nat.
Proof.
  intros Hij. destruct (advance_spec p ms i) as (Hi & Hip & _), (advance_spec p ms j) as (Hj & _ & Hjn).
  destruct (decide (advance_while p ms i ≤ advance_while p ms j)%nat) as [|Hgt]; [done|exfalso].
  destruct (lookup_lt_is_Some_2 ms (advance_while p ms j)) as [m Hm]; [lia|].
  pose proof (Hjn m Hm). pose proof (Hip (advance_while p ms j) m ltac:(lia) Hm). congruence.
Qed.

Lemma last_user_spec ms :
  match last_user ms with
  | Some i => (∃ m, ms !! i = Some m ∧ is_role RUser m = true) ∧
              ∀ k m, ms !! k = Some m → is_role RUser m = true → (k ≤ i)%nat
  | None => ∀ k m, ms !! k = Some m → is_role RUser m = false
  end.
Proof.
  unfold last_user. set (f := λ i, match ms !! i with Some m => is_role RUser m | None => false end).
  assert (∀ n, match List.find f (rev (seq 0 n)) with
               | Some i => f i = true ∧ ∀ k, (k < n)%nat → f k = true → (k ≤ i)%nat
               | None => ∀ k, (k < n)%nat → f k = false end) as H.
  { intros n. induction n as [|n IH]; [simpl; lia|]. rewrite seq_S, rev_app_distr. simpl.
    destruct (f n) eqn:E; [split; [done|lia]|]. destruct (List.find f _) as [i|].
    - destruct IH as [Hi IH]. split; [done|]. intros k Hk Hfk. destruct (decide (k = n)) as [->|]; [congruence|]. apply IH; [lia|done].
    - intros k Hk. destruct (decide (k = n)) as [->|]; [done|]. apply IH. lia. }
  specialize (H (length ms)). destruct (List.find f _) as [i|].
  - destruct H as [Hi H]. unfold f in Hi. split; [destruct (ms !! i) as [m|] eqn:E; [by eauto|done]|].
    intros k m Hk Hu. apply H; [by eapply lookup_lt_Some|]. unfold f. by rewrite Hk.
  - intros k m Hk. specialize (H k (lookup_lt_Some _ _ _ Hk)). unfold f in H. by rewrite Hk in H.
Qed.

(** The boundary of a budget is at most that of a smaller one, is no tool
    result, and is the same or fits the budget. *)
Lemma boundary_mono ms counts b b' : Forall (λ c, 0 ≤ c) counts → length counts = length ms → b ≤ b' →
  let f := findHistoryBoundary ms counts b in let f' := findHistoryBoundary ms counts b' in
  (f' ≤ f)%nat ∧ (f' = f ∨ suffix_tokens counts f' ≤ b') ∧ is_result_at ms f' = false.
Proof.
  intros Hc Hlen Hb. unfold findHistoryBoundary. set (n := length ms).
  set (nu := λ m, negb (is_role RUser m)). set (s := Nat.min (n - fill (reverse counts) 0 b) (n - 2)).
  set (s' := Nat.min (n - fill (reverse counts) 0 b') (n - 2)).
  pose proof (fill_mono (reverse counts) 0 b b' Hb) as Hfill.
  assert (s' ≤ s)%nat as Hs by lia.
  assert (s' = s ∨ ∀ k, (s' ≤ k)%nat → suffix_tokens counts k ≤ b') as Hfit.
  { destruct (decide (s' = s)) as [|Hne]; [by left|right]. intros k Hk.
    destruct (fill_suffix counts b') as [H0|H]; [unfold s', s in *; lia|].
    etrans; [apply (suffix_antitone counts s' k Hc Hk)|]. rewrite Hlen in H.
    assert (s' = length ms - fill (reverse counts) 0 b')%nat as -> by (unfold s', s, n in *; lia). exact H. }
  pose proof (advance_mono nu ms s' s Hs) as Hadv. destruct (advance_spec nu ms s') as (Hge' & _ & Hn').
  pose proof (last_user_spec ms) as Hlast.
  set (a := advance_while nu ms s) in *. set (a' := advance_while nu ms s') in *.
  assert (a' < n → is_result_at ms a' = false ∧ ∃ m, ms !! a' = Some m ∧ is_role RUser m = true)%nat as Huser.
  { intros Ha. destruct (lookup_lt_is_Some_2 ms a' Ha) as [m Hm]. pose proof (Hn' m Hm) as Hnu. unfold nu in Hnu. apply negb_false_iff in Hnu. split; [|eauto].
    unfold is_result_at. rewrite Hm. unfold is_role in *. apply bool_decide_eq_true_1 in Hnu. by rewrite Hnu. }
  destruct (Nat.ltb_spec a n) as [Ha|Ha]; destruct (Nat.ltb_spec a' n) as [Ha'|Ha']; [|lia| |].
  - split_and!; [done| |by apply Huser]. destruct Hfit as [He|Hfit]; [left; unfold a, a'; by rewrite He|right; apply Hfit; lia].
  - destruct (Huser Ha') as (Hr & m & Hm & Hu). destruct (last_user ms) as [L|].
    + destruct Hlast as [_ Hlast]. split_and!; [by eapply Hlast| |done].
      right. destruct Hfit as [He|Hfit]; [unfold a, a' in *; rewrite He in *; lia|apply Hfit; lia].
    + by rewrite (Hlast _ _ Hm) in Hu.
  - destruct (last_user ms) as [L|].
    + split_and!; [done|by left|]. destruct Hlast as [(m & Hm & Hu) _]. unfold is_result_at. rewrite Hm.
      unfold is_role in *. apply bool_decide_eq_true_1 in Hu. by rewrite Hu.
    + pose proof (advance_mono (is_role RToolResult) ms s' s Hs). destruct (advance_spec (is_role RToolResult) ms s') as (Hle & _ & Hn).
      split_and!; [done| |].
      * destruct Hfit as [He|Hfit]; [left; by rewrite He|right; apply Hfit; lia].
      * unfold is_result_at. set (k := advance_while (is_role RToolResult) ms s') in *.
        destruct (ms !! k) as [m|] eqn:Hm; [by apply Hn|done].
Qed.

Lemma recent_start_mono ms counts b b' ceiling : Forall (λ c, 0 ≤ c) counts → length counts = length ms → b ≤ b' →
  (recent_start ms counts b' ceiling ≤ recent_start ms counts b ceiling)%nat.
Proof.
  intros Hc Hlen Hb. unfold recent_start.
  assert (recent_share b ≤ recent_share b') as HB by (apply Z.div_le_mono; lia).
  destruct (boundary_mono ms counts _ _ Hc Hlen HB) as (Hf & Hfit & Hr).
  set (B := recent_share b) in *. set (B' := recent_share b') in *.
  set (f := findHistoryBoundary ms counts B) in *. set (f' := findHistoryBoundary ms counts B') in *.
  assert ((floor_start ms f' ≤ floor_start ms f)%nat ∧
          (floor_start ms f' = floor_start ms f ∨ suffix_tokens counts (floor_start ms f') ≤ B')) as [Hg Hgfit].
  { unfold floor_start. fold (floor_index ms). set (F := floor_index ms).
    destruct (Nat.ltb_spec F f) as [H1|H1]; destruct (Nat.ltb_spec F f') as [H2|H2]; [by split; [|left]| |lia|].
    - split; [|destruct Hfit; [lia|by right]]. destruct (decide (f' ≤ retreat_while (is_result_at ms) F)%nat) as [|Hgt]; [done|].
      rewrite (retreat_pass (is_result_at ms) F f') in Hr by lia. done.
    - split; [done|exact Hfit]. }
  pose proof (floor_start_le ms f) as HF. pose proof (floor_start_le ms f') as HF'.
  set (g := floor_start ms f) in *. set (g' := floor_start ms f') in *. clearbody g g'. clear Hf Hfit Hr f f'.
  unfold clamp_start. destruct ceiling as [c|]; [|done]. destruct (0 <? c); [|done]. fold (floor_index ms).
  pose proof (suffix_antitone counts g' g Hc Hg) as Hsuf.
  destruct (Z.ltb_spec c (suffix_tokens counts g')) as [Ht'|Ht']; [|by destruct (Z.ltb_spec c (suffix_tokens counts g)); [lia|]].
  destruct (step_forward_spec counts (Z.min B' c) (floor_index ms - g') g') as (H1' & _ & H3').
  set (j' := step_forward counts (Z.min B' c) (floor_index ms - g') g') in *.
  destruct (Z.ltb_spec c (suffix_tokens counts g)) as [Ht|Ht].
  - apply retreat_mono. destruct (step_forward_spec counts (Z.min B c) (floor_index ms - g) g) as (H1 & H2 & _).
    set (j := step_forward counts (Z.min B c) (floor_index ms - g) g) in *.
    destruct (decide (j' ≤ j)%nat) as [|Hgt]; [done|]. pose proof (H3' j ltac:(lia)). destruct H2; lia.
  - etrans; [apply retreat_le|]. destruct (decide (j' ≤ g)%nat) as [|Hgt]; [done|].
    pose proof (H3' g ltac:(lia)). destruct Hgfit as [->|?]; lia.
Qed.

Lemma recent_shape count count_content p : tp_messages p ≠ [] →
  let r := tieredHistoryTruncation count count_content p in
  let start := recent_start (tp_messages p) (counts_of count_content p) (tp_budget p) (tp_ceiling p) in
  tr_recentMessages r = drop start (tp_messages p) ∧ tr_recentKept r = (length (tp_messages p) - start)%nat ∧
  (start < length (tp_messages p))%nat.
Proof.
  intros Hne. unfold tieredHistoryTruncation. destruct (Nat.eqb_spec (length (tp_messages p)) 0) as [H0|H0].
  { by apply nil_length_inv in H0. }
  cbv zeta. destruct (match allocate_middle _ _ _ _ with Some _ => _ | None => _ end) as [[s f] t].
  cbn [tr_recentKept tr_recentMessages]. rewrite length_drop. split_and!; [done|done|].
  pose proof (recent_start_le (tp_messages p) (counts_of count_content p) (tp_budget p) (tp_ceiling p)) as Hs.
  unfold floor_index in Hs. lia.
Qed.

Definition with_budget (b : Z) (p : TieredHistoryParams) : TieredHistoryParams :=
  MkParams (tp_messages p) (tp_counts p) b (tp_threadId p) (tp_summary p) (tp_ceiling p).
Lemma counts_length count_content p : length (counts_of count_content p) = length (tp_messages p).
Proof.
  unfold counts_of. destruct (tp_counts p) as [cs|]; [|by rewrite length_fmap].
  destruct (Nat.eqb_spec (length cs) (length (tp_messages p))); [done|by rewrite length_fmap].
Qed.
(** A larger history budget never keeps fewer messages at full resolution,
    whatever the ceiling. *)
Theorem recent_monotone count count_content p b :
  Forall (λ c, 0 ≤ c) (counts_of count_content p) → tp_budget p ≤ b →
  (tr_recentKept (tieredHistoryTruncation count count_content p) ≤
   tr_recentKept (tieredHistoryTruncation count count_content (with_budget b p)))%nat.
Proof.
  intros Hc Hb. destruct (nil_or_length_pos (tp_messages p)) as [He|Hne].
  { unfold tieredHistoryTruncation. simpl. rewrite He. done. }
  assert (tp_messages p ≠ []) as Hne' by (by intros H; rewrite H in Hne).
  destruct (recent_shape count count_content p Hne') as (_ & -> & _).
  destruct (recent_shape count count_content (with_budget b p) Hne') as (_ & -> & _).
  simpl. change (counts_of count_content (with_budget b p)) with (counts_of count_content p).
  pose proof (recent_start_mono (tp_messages p) _ _ _ (tp_ceiling p) Hc (counts_length count_content p) Hb). lia.
Qed.

(** ** The opener *)
Lemma recent_start_opener ms counts b ceiling : Forall (λ c, 0 ≤ c) counts → length counts = length ms →
  let i := recent_start ms counts b ceiling in
  is_result_at ms i = true →
  i = 0%nat ∨ ∃ c, ceiling = Some c ∧ 0 < c ∧ c < suffix_tokens counts (i - 1).
Proof.
  intros Hc Hlen. unfold recent_start. set (B := recent_share b).
  destruct (boundary_mono ms counts B B Hc Hlen (Z.le_refl _)) as (_ & _ & Hr).
  set (f := findHistoryBoundary ms counts B) in *.
  assert (floor_start ms f = 0%nat ∨ is_result_at ms (floor_start ms f) = false) as Hg.
  { unfold floor_start. destruct (_ <? f)%nat; [apply retreat_stop|by right]. }
  set (g := floor_start ms f) in *. clearbody g.
  assert (is_result_at ms g = true → g = 0%nat) as Hg' by (destruct Hg; [done|congruence]).
  unfold clamp_start. destruct ceiling as [c|]; [|auto]. destruct (Z.ltb_spec 0 c); [|auto].
  destruct (c <? suffix_tokens counts g); [|auto]. cbv zeta. set (j := step_forward _ _ _ _). intros Hi.
  destruct (retreat_stop (λ i, is_result_at ms i && (suffix_tokens counts (i - 1) <=? c)) j) as [H0|Hp]; [by left|right].
  rewrite Hi in Hp. simpl in Hp. bool_props. eauto.
Qed.

(** The kept messages open with a tool result only when they are the whole
    history, or when one more message would breach the physical ceiling. *)
Theorem opener_legal count count_content p m :
  let r := tieredHistoryTruncation count count_content p in
  Forall (λ c, 0 ≤ c) (counts_of count_content p) →
  head (tr_recentMessages r) = Some m → lm_role m = RToolResult →
  tr_recentKept r = length (tp_messages p) ∨
  ∃ c, tp_ceiling p = Some c ∧ 0 < c ∧
    c < suffix_tokens (counts_of count_content p) (length (tp_messages p) - tr_recentKept r - 1).
Proof.
  cbv zeta. intros Hc Hm Hrole.
  assert (tp_messages p ≠ []) as Hne.
  { intros He. unfold tieredHistoryTruncation in Hm. by rewrite He in Hm. }
  destruct (recent_shape count count_content p Hne) as (Hrec & Hkept & Hlt). rewrite Hkept.
  set (i := recent_start _ _ _ _) in *. rewrite Hrec in Hm.
  assert (is_result_at (tp_messages p) i = true) as Hi.
  { unfold is_result_at. rewrite head_lookup, lookup_drop, Nat.add_0_r in Hm. rewrite Hm. unfold is_role. by rewrite Hrole. }
  destruct (recent_start_opener _ _ _ _ Hc (counts_length count_content p) Hi) as [H0|(c & Hce & Hpos & Hlt')].
  - left. fold i in H0. lia.
  - right. exists c. split_and!; [done|done|].
    replace (length (tp_messages p) - (length (tp_messages p) - i) - 1)%nat with (i - 1)%nat by lia. exact Hlt'.
Qed.

(** ** The digest *)
Lemma span_results_le ms : (length (span_results ms).2 ≤ length ms)%nat.
Proof. pose proof (span_results_spec ms) as H. destruct (span_results ms). simpl. lia. Qed.
Lemma fold_loop_fuel k k' ms : (length ms ≤ k)%nat → (length ms ≤ k')%nat → fold_loop k ms = fold_loop k' ms.
Proof.
  revert k' ms. induction k as [|k IH]; intros [|k'] [|m ms] Hk Hk'; simpl in Hk, Hk'; try done; [lia|lia|]. cbn [fold_loop].
  pose proof (span_results_le ms) as Hl. destruct (span_results ms) as [a b]. simpl in Hl.
  destruct (is_role RToolCall m); f_equal; apply IH; lia.
Qed.

(** The lines of a group: the first carries the count of its messages. *)
Lemma fold_group_shape call results : ∃ l ls, fold_group call results = l :: ls ∧
  fl_sourceCount l = 1 + Z.of_nat (length results) ∧ Forall (λ x, fl_sourceCount x = 0) ls.
Proof.
  unfold fold_group. destruct (extractToolUses (lm_content call)) as [|u us]; [by repeat eexists|].
  pose proof (group_texts_nonempty (u :: us) results) as Hne.
  destruct (group_texts (u :: us) results) as [|t ts]; [by destruct Hne|].
  exists (fold_line t (1 + Z.of_nat (length results))), ((λ t, fold_line t 0) <$> ts). split_and!; [done|done|].
  apply Forall_fmap, Forall_forall. done.
Qed.
Lemma source_sum_zero ls : Forall (λ x, fl_sourceCount x = 0) ls → source_sum ls = 0.
Proof. induction 1 as [|l ls Hl _ IH]; [done|]. unfold source_sum in *. csimpl. lia. Qed.

Lemma fold_single_count m : fl_sourceCount (fold_single m) = 1.
Proof. unfold fold_single. by destruct (lm_role m). Qed.
Lemma fold_loop_nonneg fuel ms : Forall (λ l, 0 ≤ fl_sourceCount l) (fold_loop fuel ms).
Proof.
  revert ms. induction fuel as [|fuel IH]; intros [|m ms]; cbn [fold_loop]; [constructor..|].
  destruct (is_role RToolCall m); [|constructor; [rewrite fold_single_count; lia|apply IH]].
  destruct (span_results ms) as [a b]. apply Forall_app. split; [|apply IH].
  destruct (fold_group_shape m a) as (l & ls & -> & Hl & Hls). constructor; [lia|].
  eapply Forall_impl; [exact Hls|]. simpl. lia.
Qed.
Lemma source_sum_nonneg ls : Forall (λ l, 0 ≤ fl_sourceCount l) ls → 0 ≤ source_sum ls.
Proof. intros H. apply sum_list_Z_nonneg. by apply Forall_fmap. Qed.

(** Skipping the messages of the first [k] lines
    leaves a suffix of the other lines. *)
Lemma refold_suffix fuel ms k : (length ms ≤ fuel)%nat →
  fold_loop fuel (drop (Z.to_nat (source_sum (take k (fold_loop fuel ms)))) ms) `suffix_of` drop k (fold_loop fuel ms).
Proof.
  revert ms k. induction fuel as [|fuel IH]; intros [|m ms] k Hf; cbn [fold_loop];
    [rewrite ?drop_nil; done|simpl in Hf; lia|rewrite ?take_nil, ?drop_nil; done|]. simpl in Hf.
  destruct k as [|k]; [done|].
  assert (∀ N G ks rest, N = S fuel → (length rest ≤ fuel)%nat → (∃ l ls, G = l :: ls ∧ fl_sourceCount l = 1 + Z.of_nat (length ks) ∧
            Forall (λ x, fl_sourceCount x = 0) ls) → ms = ks ++ rest →
          fold_loop N (drop (Z.to_nat (source_sum (take (S k) (G ++ fold_loop fuel rest)))) (m :: ms))
            `suffix_of` drop (S k) (G ++ fold_loop fuel rest)) as Hstep.
  { intros N G ks rest HN Hlr (l & ls & -> & Hl & Hls) Heq.
    rewrite <-app_comm_cons, firstn_cons, skipn_cons.
    change (source_sum (l :: take k (ls ++ fold_loop fuel rest)))
      with (fl_sourceCount l + source_sum (take k (ls ++ fold_loop fuel rest))).
    rewrite take_app, source_sum_app, (source_sum_zero (take k ls)) by (by apply Forall_take).
    set (s := source_sum (take (k - length ls) (fold_loop fuel rest))).
    assert (0 ≤ s) as Hs by (apply source_sum_nonneg, Forall_take, fold_loop_nonneg).
    replace (Z.to_nat (fl_sourceCount l + (0 + s))) with (S (length ks + Z.to_nat s)) by lia.
    rewrite Heq, skipn_cons. rewrite <-drop_drop, drop_app_length.
    rewrite (fold_loop_fuel N fuel) by (rewrite length_drop; lia).
    rewrite drop_app. etrans; [apply (IH rest (k - length ls)%nat Hlr)|]. by exists (drop k ls). }
  destruct (is_role RToolCall m) eqn:Er.
  - pose proof (span_results_spec ms) as Hsp. destruct (span_results ms) as [a b] eqn:Esp. destruct Hsp as (Heq & _ & Hl).
    specialize (Hstep (S fuel) (fold_group m a) a b eq_refl ltac:(lia) (fold_group_shape m a) Heq).
    exact Hstep.
  - specialize (Hstep (S fuel) [fold_single m] [] ms eq_refl ltac:(lia)).
    apply Hstep; [|done]. exists (fold_single m), []. split_and!; [done|by rewrite fold_single_count|constructor].
Qed.

Definition token_sum (ls : list FoldedLine) : Z := sum_list_Z (fl_tokens <$> ls).
Lemma keep_lines_spec rl acc b : let '(k, a) := keep_lines rl acc b in
  (k ≤ length rl)%nat ∧ a = acc + token_sum (take k rl) ∧ (k = 0%nat ∨ a ≤ b).
Proof.
  revert acc. induction rl as [|l rl IH]; intros acc; simpl; [split_and!; [lia|unfold token_sum; simpl; lia|by left]|].
  destruct (Z.ltb_spec b (acc + fl_tokens l)); [split_and!; [lia|unfold token_sum; simpl; lia|by left]|].
  specialize (IH (acc + fl_tokens l)). destruct (keep_lines rl _ b) as [k a]. destruct IH as (Hk & -> & Ha).
  unfold token_sum in *. csimpl. split_and!; [lia|unfold sum_list_Z; simpl; lia|right].
  destruct Ha as [->|Ha]; [simpl; lia|exact Ha].
Qed.
Lemma take_reverse_drop {A} k (l : list A) : (k ≤ length l)%nat → take k (reverse l) = reverse (drop (length l - k) l).
Proof.
  intros Hk. rewrite <-(take_drop (length l - k) l) at 1. rewrite reverse_app. apply take_app_length'.
  rewrite length_reverse, length_drop. lia.
Qed.
Lemma token_sum_suffix a b : Forall folded_ok b → a `suffix_of` b → token_sum a ≤ token_sum b.
Proof.
  intros Hb [pre ->]. unfold token_sum. rewrite fmap_app, sum_list_Z_app. apply Forall_app in Hb as [Hpre _].
  assert (0 ≤ sum_list_Z (fl_tokens <$> pre)); [|lia]. apply sum_list_Z_nonneg, Forall_fmap.
  eapply Forall_impl; [exact Hpre|]. intros l [_ Hl]. unfold compose. rewrite Hl. unfold estimateTokens, text_len.
  apply Z.div_pos; lia.
Qed.
Lemma fold_all_speak fuel ms : (length ms ≤ fuel)%nat → Forall (λ m, speaks m = true) ms →
  List.filter visible (fold_loop fuel ms) = fold_loop fuel ms ∧ Forall folded_ok (fold_loop fuel ms).
Proof.
  revert ms. induction fuel as [|fuel IH]; intros [|m ms] Hf Hs; cbn [fold_loop]; [by split|by split|by split|].
  simpl in Hf. apply Forall_cons in Hs as [Hm Hs].
  assert (∀ G rest, Forall folded_ok G → (length rest ≤ fuel)%nat → Forall (λ m, speaks m = true) rest →
    List.filter visible (G ++ fold_loop fuel rest) = G ++ fold_loop fuel rest ∧ Forall folded_ok (G ++ fold_loop fuel rest)) as Hstep.
  { intros G rest HG Hl Hr. destruct (IH rest Hl Hr) as [IH1 IH2]. rewrite List.filter_app, IH1. split; [f_equal|by apply Forall_app].
    apply filter_bool_all. intros l Hl'. apply folded_visible. rewrite Forall_forall in HG. by apply HG. }
  destruct (is_role RToolCall m) eqn:Er.
  - pose proof (span_results_spec ms) as Hsp. destruct (span_results ms) as [a b]. destruct Hsp as (-> & _ & Hl).
    apply Forall_app in Hs as [_ Hs]. apply Hstep; [apply fold_group_ok|lia|done].
  - unfold is_role in Er. apply bool_decide_eq_false_1 in Er. pose proof (fold_single_ok m Er) as Hok. rewrite Hm in Hok.
    apply (Hstep [fold_single m] ms); [|lia|done]. constructor; [apply Hok|constructor].
Qed.

(** When every message before the recent tier speaks, the lines of the
    digest are the last ones of the folded history and, with the header, fit
    the budget of the middle tier. *)
Theorem digest_affordable ms zoneEnd threadId budget s t :
  Forall (λ m, speaks m = true) (take zoneEnd ms) →
  allocate_middle ms zoneEnd threadId budget = Some (s, t) →
  foldMessages ms s zoneEnd `suffix_of` foldMessages ms 0 zoneEnd ∧
  estimateTokens (buildMiddleHeader zoneEnd threadId) + token_sum (foldMessages ms s zoneEnd) ≤ budget.
Proof.
  intros Hsp. unfold allocate_middle, foldMessages. destruct (_ && _); [|done]. rewrite drop_0, Nat.sub_0_r.
  set (range := take zoneEnd ms) in *. set (fuel := length range).
  destruct (fold_all_speak fuel range (Nat.le_refl _) Hsp) as [Hvis Hok]. rewrite Hvis. set (all := fold_loop fuel range) in *.
  destruct (_ <=? length all)%nat; [|done]. set (header := estimateTokens _).
  pose proof (keep_lines_spec (reverse all) header budget) as Hk. destruct (keep_lines (reverse all) header budget) as [k a].
  destruct Hk as (Hk & Ha & Hb). rewrite length_reverse in Hk.
  destruct (Nat.leb_spec MIN_MIDDLE_LINES k) as [H3|]; [|done]. intros [= <- <-].
  set (s := Z.to_nat (source_sum (take (length all - k) all))).
  assert (take (zoneEnd - s) (drop s ms) = drop s range) as -> by (unfold range; by rewrite skipn_firstn_comm).
  assert (Forall (λ m, speaks m = true) (drop s range)) as Hsp' by by apply Forall_drop.
  destruct (fold_all_speak (length (drop s range)) (drop s range) (Nat.le_refl _) Hsp') as [-> _].
  rewrite (fold_loop_fuel _ fuel) by (rewrite ?length_drop; unfold fuel; lia).
  pose proof (refold_suffix fuel range (length all - k) (Nat.le_refl _)) as Hsuf. fold all s in Hsuf.
  split; [etrans; [exact Hsuf|]; exists (take (length all - k) all); by rewrite take_drop|].
  pose proof (token_sum_suffix _ _ (Forall_drop _ (length all - k) _ Hok) Hsuf) as Hle.
  rewrite take_reverse_drop in Ha by done. unfold token_sum in Ha, Hle |- *.
  rewrite fmap_reverse, sum_list_Z_reverse in Ha. unfold MIN_MIDDLE_LINES in H3. destruct Hb; lia.
Qed.

(** ** Concrete histories: a message costs a quarter of its text *)
Definition sample_count (t : text) : Z := estimateTokens t.
Definition sample_cost (c : llm_content) : Z := match c with CText s => estimateTokens (utf16 s) | CBlocks _ => 10 end.
Definition say (r : llm_role) (s : string) : LLMMessage := MkLlm r (CText s).
Fixpoint chatter (n : nat) : list LLMMessage :=
  match n with
  | O => []
  | S n' => say RUser "please look at the next file of the list now" :: say RAssistant "I looked at that file and found nothing wrong" :: chatter n'
  end.
Definition sample_params (ms : list LLMMessage) (budget ceiling : Z) : TieredHistoryParams :=
  MkParams ms None budget "t1" None (Some ceiling).
Definition sizes (r : TieredHistoryResult) : nat * nat * nat :=
  (tr_ancientDropped r, tr_middleFolded r, tr_recentKept r).

Definition sample_run (p : TieredHistoryParams) : TieredHistoryResult := tieredHistoryTruncation sample_count sample_cost p.

Example three_tiers : sizes (sample_run (sample_params (chatter 90) 800 5000)) = (125, 11, 44)%nat.
Proof. vm_compute. reflexivity. Qed.

(** Silent messages before the recent tier are counted by no line, so the digest
    starts too early: it costs 780 where its budget is 240, and with the recent
    tier it exceeds the history budget of 800. *)
Definition noted : list LLMMessage := chatter 20 ++ replicate 40 (say RDeveloper "compaction note") ++ chatter 60.
Example silent_overrun :
  let r := sample_run (sample_params noted 800 5000) in
  tr_middleTokens r = 780 ∧ middle_budget 800 (tr_recentTokens r) = 240 ∧ tr_recentTokens r = 506.
Proof. vm_compute. done. Qed.

(** A cut inside a group of results counts the whole group as dropped: here the
    digest is lost although its lines were affordable, and its cost is reported. *)
Definition burst : list LLMMessage :=
  MkLlm RToolCall (CBlocks (replicate 40 (JObj [("type", JStr "tool_use"); ("name", JStr "bash"); ("input", JObj [("command", JStr "ls")])])))
  :: replicate 40 (say RToolResult "success") ++ chatter 22.
Example group_cut_loses_digest :
  let r := sample_run (sample_params burst 800 5000) in
  tr_middleDigestMsg r = None ∧ tr_middleTokens r = 239 ∧ sizes r = (41, 0, 44)%nat.
Proof. vm_compute. done. Qed.

Lemma recent_ceiling_witness :
  let r := sample_run (sample_params (say RUser "go" :: replicate 50 (say RToolResult "a result of some length")) 100 200) in
  tr_recentTokens r ≤ 200 ∨ tr_recentKept r = 2%nat.
Proof.
  apply (recent_ceiling sample_count sample_cost
    (sample_params (say RUser "go" :: replicate 50 (say RToolResult "a result of some length")) 100 200) 200); [reflexivity|lia].
Defined.

Lemma recent_monotone_witness :
  (tr_recentKept (sample_run (sample_params (chatter 30) 100 300)) ≤
   tr_recentKept (sample_run (with_budget 250 (sample_params (chatter 30) 100 300))))%nat.
Proof.
  apply (recent_monotone sample_count sample_cost (sample_params (chatter 30) 100 300) 250); [|simpl; lia].
  repeat constructor; vm_compute; discriminate.
Defined.

Definition results_only : list LLMMessage := replicate 9 (say RToolResult "a result of some length").
Lemma opener_legal_witness :
  let p := sample_params results_only 10 20 in
  tr_recentKept (sample_run p) = length (tp_messages p) ∨
  ∃ c, tp_ceiling p = Some c ∧ 0 < c ∧
    c < suffix_tokens (counts_of sample_cost p) (length (tp_messages p) - tr_recentKept (sample_run p) - 1).
Proof.
  apply (opener_legal sample_count sample_cost (sample_params results_only 10 20) (say RToolResult "a result of some length")).
  - repeat constructor; vm_compute; discriminate.
  - vm_compute. reflexivity.
  - reflexivity.
Defined.

Lemma digest_affordable_witness :
  foldMessages (chatter 60) 105 120 `suffix_of` foldMessages (chatter 60) 0 120 ∧
  estimateTokens (buildMiddleHeader 120 "t1") + token_sum (foldMessages (chatter 60) 105 120) ≤ 300.
Proof.
  apply (digest_affordable (chatter 60) 120 "t1" 300 105 289).
  - repeat constructor.
  - vm_compute. reflexivity.
Defined.
