(* ===== verification/CacheMarkers.v ===== *)
(** * Cache markers (packages/agent/src/cache-marker.ts)

    Where a prompt-cache breakpoint goes in the messages of a request: the
    position that allows for trailing developer messages, the anchor at the
    latest user message, the trailing pair of rolling markers kept through the
    inner loop, the markers reported to the debugger and the strip for backends
    that cannot cache.  A marker is a message of role [RCache]; the code splices
    it into the array it was given, here the new list is returned.  The token
    estimator is an argument, as it is in the code. *)
From S2P Require Import Prelude Json Text TokenCount.

Inductive CacheMarkerKind := Fixed | Rolling.
Inductive skip_reason := CapabilityDisabled | TooShort | NoEligibleAnchor.
(** [prompt_caching] of the backend, when anything is known of it. *)
Definition CacheMarkerCaps := option (option bool).
Definition caching_disabled (caps : CacheMarkerCaps) : bool :=
  match caps with Some (Some false) => true | _ => false end.

Record CacheMarkerPlacement := MkPlacement {
  cp_placed : bool; cp_variant : CacheMarkerKind; cp_index : Z; cp_positionTokens : option Z; cp_reason : option skip_reason }.
Definition skipped (k : CacheMarkerKind) (r : skip_reason) : CacheMarkerPlacement := MkPlacement false k (-1) None (Some r).

Definition cache_message : LLMMessage := MkLlm RCache (CText "").
(** [messages.splice(i, 0, { role: "cache", content: "" })]. *)
Definition splice_marker (i : nat) (ms : list LLMMessage) : list LLMMessage := take i ms ++ cache_message :: drop i ms.

(** The length of the list without its trailing developer messages. *)
Fixpoint before_developers (rev_ms : list LLMMessage) : nat :=
  match rev_ms with
  | m :: rest => if is_role RDeveloper m then before_developers rest else length rev_ms
  | [] => 0
  end.
Definition computeCacheMarkerIndex (ms : list LLMMessage) : nat :=
  match last ms with
  | Some m =>
      if negb (is_role RDeveloper m) then (length ms - 1)%nat
      else
        (* [i + 1]: the messages up to the last one that is no developer message *)
        let k := before_developers (reverse ms) in
        match k with
        | O => O
        | S i => match ms !! i with Some u => if is_role RUser u then i else k | None => k end
        end
  | None => O
  end.

Definition maybePlaceCacheMarker (ms : list LLMMessage) (kind : CacheMarkerKind) (caps : CacheMarkerCaps)
  : list LLMMessage * CacheMarkerPlacement :=
  if caching_disabled caps then (ms, skipped kind CapabilityDisabled)
  else if (length ms <? 2)%nat then (ms, skipped kind TooShort)
  else
    let insertAt := computeCacheMarkerIndex ms in
    if (insertAt =? 0)%nat then (ms, skipped kind TooShort)
    else (splice_marker insertAt ms, MkPlacement true kind (Z.of_nat insertAt) None None).

(** ** The anchor at the latest user message *)
Record StableCacheMarkerPlacement := MkStable {
  sp_placed : bool; sp_index : Z; sp_positionTokens : Z; sp_targetTokens : Z; sp_reason : option skip_reason }.
Definition not_placed (r : skip_reason) : StableCacheMarkerPlacement := MkStable false (-1) 0 0 (Some r).

Fixpoint latest_user (rev_ms : list LLMMessage) : option nat :=
  match rev_ms with
  | m :: rest => if is_role RUser m then Some (length rest) else latest_user rest
  | [] => None
  end.
Definition counted (m : LLMMessage) : bool := negb (is_role RCache m || is_role RDeveloper m).

Section stable.
Variable estimateTokens : LLMMessage → Z.

(** The tokens and the number of the counted messages before [end_]. *)
Definition computePositionTokens (ms : list LLMMessage) (end_ : nat) : Z * nat :=
  let preceding := List.filter counted (take end_ ms) in
  (sum_list_Z (estimateTokens <$> preceding), length preceding).

Definition computeStableCacheMarkerPlacement (ms : list LLMMessage) (caps : CacheMarkerCaps) : StableCacheMarkerPlacement :=
  if caching_disabled caps then not_placed CapabilityDisabled
  else if (length ms <? 2)%nat then not_placed NoEligibleAnchor
  else
    let insertAt := match latest_user (reverse ms) with
                    | Some (S i) => S i
                    | _ => computeCacheMarkerIndex ms
                    end in
    if (insertAt =? 0)%nat then not_placed NoEligibleAnchor
    else
      let '(positionTokens, nonDevPrecedingCount) := computePositionTokens ms insertAt in
      if (nonDevPrecedingCount =? 0)%nat then
        let advanced := S insertAt in
        if (length ms <=? advanced)%nat then not_placed NoEligibleAnchor
        else
          let '(advancedTokens, count) := computePositionTokens ms advanced in
          if (count =? 0)%nat then not_placed NoEligibleAnchor
          else MkStable true (Z.of_nat advanced) advancedTokens advancedTokens None
      else MkStable true (Z.of_nat insertAt) positionTokens positionTokens None.

Definition placeStableCacheMarker (ms : list LLMMessage) (caps : CacheMarkerCaps)
  : list LLMMessage * StableCacheMarkerPlacement :=
  let placement := computeStableCacheMarkerPlacement ms caps in
  (if sp_placed placement then splice_marker (Z.to_nat (sp_index placement)) ms else ms, placement).

Definition coldPathPlaceCacheMarker (ms : list LLMMessage) (caps : CacheMarkerCaps)
  : list LLMMessage * CacheMarkerPlacement :=
  let '(ms', placement) := placeStableCacheMarker ms caps in
  (ms',
   if sp_placed placement then MkPlacement true Fixed (sp_index placement) (Some (sp_positionTokens placement)) None
   else skipped Fixed (match sp_reason placement with Some CapabilityDisabled => CapabilityDisabled | _ => TooShort end)).
End stable.

(** ** The markers of the debugger *)
Record ContextSection := MkSection { cs_name : string; cs_tokens : Z }.
Inductive marker_kind := SystemMarker | MessageMarker.
Record CacheMarker := MkMarker {
  cm_kind : marker_kind; cm_positionTokens : Z; cm_variant : CacheMarkerKind; cm_ttl : string; cm_capabilityEnabled : bool }.
Definition is_disabled (r : option skip_reason) : bool := match r with Some CapabilityDisabled => true | _ => false end.
Definition tokensFor (sections : list ContextSection) (name : string) : Z :=
  match List.find (λ s, seqb (cs_name s) name) sections with Some s => cs_tokens s | None => 0 end.
Definition buildCacheMarkers (sections : list ContextSection) (messagePlacement : CacheMarkerPlacement) (ttl : string)
  : list CacheMarker :=
  if negb (cp_placed messagePlacement) && is_disabled (cp_reason messagePlacement) then []
  else
    let stablePrefixTokens :=
      tokensFor sections "system" + tokensFor sections "skill-context" +
      tokensFor sections "volatile-prefix" + tokensFor sections "tools" in
    let messageBoundaryTokens :=
      match cp_placed messagePlacement, cp_positionTokens messagePlacement with
      | true, Some t => stablePrefixTokens + t
      | _, _ => stablePrefixTokens + tokensFor sections "history"
      end in
    let capabilityEnabled := cp_placed messagePlacement || negb (is_disabled (cp_reason messagePlacement)) in
    [MkMarker SystemMarker stablePrefixTokens Fixed ttl capabilityEnabled;
     MkMarker MessageMarker messageBoundaryTokens (cp_variant messagePlacement) ttl capabilityEnabled].

(** ** The trailing pair of rolling markers *)
Definition rolling_idxs (ms : list LLMMessage) (fixedCacheIdx : Z) : list nat :=
  List.filter (λ i, match ms !! i with
                    | Some m => is_role RCache m && negb (Z.of_nat i =? fixedCacheIdx)
                    | None => false
                    end) (seq 0 (length ms)).
(** [messages.splice(idxs[i], 1)] for [i] from the last to the first. *)
Fixpoint evict_all (idxs : list nat) (ms : list LLMMessage) : list LLMMessage :=
  match idxs with
  | [] => ms
  | i :: rest => let ms' := evict_all rest ms in take i ms' ++ drop (S i) ms'
  end.
Definition refreshInnerLoopRollingMarker (ms : list LLMMessage) (fixedCacheIdx : Z) (caps : CacheMarkerCaps)
  : list LLMMessage * CacheMarkerPlacement :=
  let idxs := rolling_idxs ms fixedCacheIdx in
  if caching_disabled caps then (evict_all idxs ms, skipped Rolling CapabilityDisabled)
  else maybePlaceCacheMarker (evict_all (removelast idxs) ms) Rolling caps.

Definition stripCacheMarkersIfUnsupported (ms : list LLMMessage) (caps : CacheMarkerCaps) : list LLMMessage :=
  if negb (caching_disabled caps) then ms
  else if negb (existsb (is_role RCache) ms) then ms
  else List.filter (λ m, negb (is_role RCache m)) ms.

(** * Properties *)
Definition markers (ms : list LLMMessage) : nat := length (List.filter (is_role RCache) ms).
Definition unmarked (ms : list LLMMessage) : list LLMMessage := List.filter (λ m, negb (is_role RCache m)) ms.

Lemma splice_unmarked i ms : unmarked (splice_marker i ms) = unmarked ms.
Proof.
  unfold splice_marker, unmarked. rewrite List.filter_app. simpl. rewrite <-List.filter_app. by rewrite take_drop.
Qed.
Lemma splice_markers i ms : markers (splice_marker i ms) = S (markers ms).
Proof.
  unfold splice_marker, markers. rewrite List.filter_app, length_app. simpl.
  rewrite Nat.add_succ_r, <-length_app, <-List.filter_app. by rewrite take_drop.
Qed.

Lemma before_developers_spec rev_ms : let k := before_developers rev_ms in
  (k ≤ length rev_ms)%nat ∧ ∀ j m, (j < length rev_ms - k)%nat → rev_ms !! j = Some m → is_role RDeveloper m = true.
Proof.
  induction rev_ms as [|m rest [IH1 IH2]]; simpl; [split; [lia|intros; lia]|].
  destruct (is_role RDeveloper m) eqn:E; [|split; [simpl; lia|intros j m' Hj; simpl in Hj; lia]].
  split; [lia|]. intros [|j] m' Hj Hm; simplify_eq/=; [done|]. apply (IH2 j); [lia|done].
Qed.
Lemma index_lt ms : ms ≠ [] → (computeCacheMarkerIndex ms < length ms)%nat.
Proof.
  intros Hne. unfold computeCacheMarkerIndex. destruct (last ms) as [m|] eqn:El; [|by apply last_None in El].
  apply last_Some in El as [l ->]. rewrite length_app. simpl. destruct (is_role RDeveloper m) eqn:Ed; simpl; [|lia].
  rewrite reverse_snoc. simpl. rewrite Ed. destruct (before_developers_spec (reverse l)) as [Hk _]. rewrite length_reverse in Hk.
  destruct (before_developers (reverse l)) as [|i]; [lia|]. destruct (_ !! i) as [u|]; [|lia]. destruct (is_role RUser u); lia.
Qed.

(** Placing a marker adds exactly one message, a marker, behind the first
    message of the request; every other message keeps its place in the order.
    Without a placement the request is untouched. *)
Theorem placement_adds_one ms kind caps :
  let '(ms', p) := maybePlaceCacheMarker ms kind caps in
  unmarked ms' = unmarked ms ∧
  if cp_placed p then markers ms' = S (markers ms) ∧ 0 < cp_index p < Z.of_nat (length ms) ∧
                      ms' !! Z.to_nat (cp_index p) = Some cache_message
  else ms' = ms.
Proof.
  unfold maybePlaceCacheMarker. destruct (caching_disabled caps); [done|]. destruct (Nat.ltb_spec (length ms) 2) as [|Hl]; [done|].
  destruct (Nat.eqb_spec (computeCacheMarkerIndex ms) 0) as [|Hi]; [done|]. cbn.
  assert (ms ≠ []) as Hne by (intros ->; simpl in Hl; lia). pose proof (index_lt ms Hne) as Hlt.
  rewrite splice_unmarked, splice_markers, Nat2Z.id. split_and!; [done|done|lia|lia|].
  unfold splice_marker. rewrite lookup_app_r by (rewrite length_take; lia). rewrite length_take, Nat.min_l by lia.
  by rewrite Nat.sub_diag.
Qed.

(** ** Evicting markers *)
Lemma evict_prefix b idxs ms : Forall (λ i, b ≤ i)%nat idxs → take b (evict_all idxs ms) = take b ms.
Proof.
  induction 1 as [|i rest Hi _ IH]; [done|]. cbn [evict_all]. rewrite <-IH.
  destruct (decide (i ≤ length (evict_all rest ms))%nat).
  - rewrite take_app_le by (rewrite length_take; lia). rewrite take_take. f_equal. lia.
  - rewrite (drop_ge _ (S i)) by lia. rewrite app_nil_r, take_take. f_equal. lia.
Qed.
Lemma evict_lookup i rest ms : Forall (λ j, i < j)%nat rest → evict_all rest ms !! i = ms !! i.
Proof.
  intros H. assert (take (S i) (evict_all rest ms) = take (S i) ms) as Ht.
  { apply evict_prefix. eapply Forall_impl; [exact H|]. simpl. lia. }
  rewrite <-(lookup_take_lt (evict_all rest ms) (S i) i), Ht by lia. by rewrite lookup_take_lt by lia.
Qed.
Lemma unmarked_app a b : unmarked (a ++ b) = unmarked a ++ unmarked b.
Proof. apply List.filter_app. Qed.
Lemma markers_app a b : markers (a ++ b) = (markers a + markers b)%nat.
Proof. unfold markers. by rewrite List.filter_app, length_app. Qed.

Lemma remove_marker i m ms : ms !! i = Some m → is_role RCache m = true →
  unmarked (take i ms ++ drop (S i) ms) = unmarked ms ∧ S (markers (take i ms ++ drop (S i) ms)) = markers ms.
Proof.
  intros Hm Hr. rewrite <-(take_drop_middle ms i m Hm) at 3 6. rewrite !unmarked_app, !markers_app.
  unfold unmarked, markers. simpl. rewrite Hr. simpl. split; [done|lia].
Qed.

Lemma evict_all_spec idxs ms : StronglySorted lt idxs →
  Forall (λ i, ∃ m, ms !! i = Some m ∧ is_role RCache m = true) idxs →
  unmarked (evict_all idxs ms) = unmarked ms ∧ (markers (evict_all idxs ms) + length idxs)%nat = markers ms.
Proof.
  induction 1 as [|i rest Hs IH Hi]; intros Hm; [simpl; split; [done|lia]|]. apply Forall_cons in Hm as [(m & Hm & Hr) Hms].
  destruct (IH Hms) as [Hu Hc]. cbn [evict_all].
  destruct (remove_marker i m (evict_all rest ms)) as [Hu' Hc']; [by rewrite evict_lookup|done|].
  rewrite Hu'. split; [done|]. simpl length. lia.
Qed.

(** ** The rolling markers *)
Definition fixed_count (ms : list LLMMessage) (f : Z) : nat :=
  if existsb (λ i, match ms !! i with Some m => is_role RCache m && (Z.of_nat i =? f) | None => false end) (seq 0 (length ms))
  then 1 else 0.
Lemma rolling_idxs_spec ms f :
  StronglySorted lt (rolling_idxs ms f) ∧
  Forall (λ i, ∃ m, ms !! i = Some m ∧ is_role RCache m = true) (rolling_idxs ms f).
Proof.
  split; [eapply sublist_StronglySorted; [apply filter_sublist|apply seq_StronglySorted]|].
  apply Forall_forall. intros i [_ Hi]%filter_In_iff. destruct (ms !! i) as [m|]; [|done].
  apply andb_prop in Hi as [Hi _]. eauto.
Qed.

Lemma markers_seq ms : markers ms = length (List.filter (λ i, match ms !! i with Some m => is_role RCache m | None => false end) (seq 0 (length ms))).
Proof.
  induction ms as [|m ms IH] using rev_ind; [done|]. rewrite length_app. simpl length. rewrite Nat.add_1_r, seq_S.
  rewrite markers_app, List.filter_app, length_app, IH. f_equal.
  - f_equal. apply filter_ext_in. intros i Hi%in_seq. by rewrite lookup_app_l by lia.
  - simpl. rewrite lookup_app_r by lia. rewrite Nat.sub_diag. unfold markers. simpl. by destruct (is_role RCache m).
Qed.
Lemma filter_split {A} (p q : A → bool) l :
  length (List.filter p l) = (length (List.filter (λ x, p x && q x) l) + length (List.filter (λ x, p x && negb (q x)) l))%nat.
Proof. induction l as [|x l IH]; [done|]. simpl. destruct (p x), (q x); simpl; lia. Qed.
Lemma rolling_count ms f : (length (rolling_idxs ms f) + fixed_count ms f)%nat = markers ms.
Proof.
  rewrite markers_seq. rewrite (filter_split _ (λ i, Z.of_nat i =? f)). rewrite Nat.add_comm. f_equal.
  - unfold fixed_count. set (p := λ i, match ms !! i with Some m => is_role RCache m | None => false end).
    assert (∀ l, NoDup l → (if existsb (λ i, match ms !! i with Some m => is_role RCache m && (Z.of_nat i =? f) | None => false end) l
                          then 1%nat else 0%nat) = length (List.filter (λ i, p i && (Z.of_nat i =? f)) l)) as H.
    { induction 1 as [|i l Hi Hl IH]; [done|]. simpl.
      assert (match ms !! i with Some m => is_role RCache m && (Z.of_nat i =? f) | None => false end = p i && (Z.of_nat i =? f)) as ->.
      { unfold p. by destruct (ms !! i). }
      destruct (p i && (Z.of_nat i =? f)) eqn:E; [|exact IH]. simpl. rewrite filter_bool_none; [done|].
      intros j Hj. apply andb_prop in E as [_ E]. apply Z.eqb_eq in E. apply andb_false_iff. right. apply Z.eqb_neq.
      intros Hjf. apply Hi. assert (i = j) as -> by lia. done. }
    apply H. apply NoDup_seq.
  - unfold rolling_idxs. f_equal. apply List.filter_ext. intros i. by destruct (ms !! i).
Qed.

Lemma sublist_removelast {A} (l : list A) : sublist (removelast l) l.
Proof.
  induction l as [|x l IH]; [constructor|]. cbn [removelast]. destruct l; [by constructor|]. by constructor.
Qed.
Lemma length_removelast {A} (l : list A) : length (removelast l) = (length l - 1)%nat.
Proof. induction l as [|x [|y l] IH]; [done..|]. cbn [removelast length] in *. lia. Qed.

(** Refreshing the inner-loop marker leaves every message of the request and
    at most three markers: the fixed one, the latest earlier rolling marker and
    the new one.  On a backend that cannot cache only the fixed marker is left. *)
Theorem refresh_bounded ms f caps :
  let '(ms', p) := refreshInnerLoopRollingMarker ms f caps in
  unmarked ms' = unmarked ms ∧
  markers ms' = (fixed_count ms f +
    if caching_disabled caps then 0
    else Nat.min 1 (length (rolling_idxs ms f)) + if cp_placed p then 1 else 0)%nat.
Proof.
  unfold refreshInnerLoopRollingMarker. destruct (rolling_idxs_spec ms f) as [Hs Hm]. pose proof (rolling_count ms f) as Hc.
  destruct (caching_disabled caps) eqn:Ed.
  - destruct (evict_all_spec _ _ Hs Hm) as [Hu He]. split; [done|lia].
  - set (idxs := rolling_idxs ms f) in *. pose proof (sublist_removelast idxs) as Hsub.
    destruct (evict_all_spec (removelast idxs) ms) as [Hu He].
    { by eapply sublist_StronglySorted. } { by eapply sublist_Forall. }
    rewrite length_removelast in He. set (ms1 := evict_all (removelast idxs) ms) in *.
    unfold maybePlaceCacheMarker. rewrite Ed. destruct (length ms1 <? 2)%nat; [|destruct (_ =? 0)%nat];
      cbn [skipped cp_placed]; rewrite ?splice_unmarked, ?splice_markers; (split; [done|lia]).
Qed.

(** ** The fixed marker *)
Lemma index_above ms f : (∃ m, ms !! f = Some m ∧ is_role RCache m = true) →
  (∃ j m, (f < j)%nat ∧ ms !! j = Some m ∧ is_role RCache m = false) → (f < computeCacheMarkerIndex ms)%nat.
Proof.
  intros (m & Hm & Hc) (j & mj & Hj & Hmj & Hcj). unfold computeCacheMarkerIndex. pose proof (lookup_lt_Some _ _ _ Hmj) as Hlt.
  destruct (last ms) as [l|] eqn:El; [|apply last_None in El as ->; done].
  destruct (is_role RDeveloper l) eqn:Ed; simpl; [|lia].
  destruct (before_developers_spec (reverse ms)) as [Hk Hdev]. rewrite length_reverse in Hk, Hdev.
  set (k := before_developers (reverse ms)) in *.
  assert (∀ i x, (k ≤ i)%nat → ms !! i = Some x → is_role RDeveloper x = true) as Htail.
  { intros i x Hi Hx. pose proof (lookup_lt_Some _ _ _ Hx). apply (Hdev (length ms - 1 - i)%nat); [lia|].
    rewrite reverse_lookup by lia. by replace (length ms - S (length ms - 1 - i))%nat with i by lia. }
  assert (f < k)%nat as Hf.
  { destruct (decide (f < k)%nat) as [|Hn]; [done|]. specialize (Htail f m ltac:(lia) Hm). unfold is_role in *.
    apply bool_decide_eq_true_1 in Htail, Hc. congruence. }
  destruct k as [|i]; [lia|]. destruct (ms !! i) as [u|] eqn:Eu; [|lia]. destruct (is_role RUser u) eqn:Er; [|lia].
  destruct (decide (f = i)) as [->|]; [|lia]. simplify_eq. unfold is_role in *.
  apply bool_decide_eq_true_1 in Hc, Er. congruence.
Qed.

Lemma evict_keeps_after b idxs ms : StronglySorted lt idxs → Forall (λ i, b ≤ i)%nat idxs →
  Forall (λ i, ∃ m, ms !! i = Some m ∧ is_role RCache m = true) idxs →
  (∃ j m, (b ≤ j)%nat ∧ ms !! j = Some m ∧ is_role RCache m = false) →
  ∃ j m, (b ≤ j)%nat ∧ evict_all idxs ms !! j = Some m ∧ is_role RCache m = false.
Proof.
  intros Hs Hb Hm (j & m & Hj & Hmj & Hr).
  assert (unmarked (drop b ms) = unmarked (drop b (evict_all idxs ms))) as Hu.
  { destruct (evict_all_spec idxs ms Hs Hm) as [Hu _]. rewrite <-(take_drop b ms) in Hu at 2.
    rewrite <-(take_drop b (evict_all idxs ms)) in Hu at 1. rewrite !unmarked_app, (evict_prefix b idxs ms Hb) in Hu.
    by apply app_inv_head in Hu. }
  assert (m ∈ unmarked (drop b ms)) as Hin.
  { apply filter_In_iff. rewrite Hr. split; [|done]. apply list_elem_of_lookup. exists (j - b)%nat. rewrite lookup_drop.
    by replace (b + (j - b))%nat with j by lia. }
  rewrite Hu in Hin. apply filter_In_iff in Hin as [Hin Hn]. apply list_elem_of_lookup in Hin as [i Hi].
  rewrite lookup_drop in Hi. exists (b + i)%nat, m. split_and!; [lia|done|by apply negb_true_iff in Hn].
Qed.

(** The fixed marker keeps its index, so that the index cached for the turn
    stays right, as long as the earlier rolling markers lie behind it and it is
    not the end of the request. *)
Theorem fixed_stays ms f caps m :
  ms !! f = Some m → is_role RCache m = true →
  Forall (λ i, f < i)%nat (rolling_idxs ms (Z.of_nat f)) →
  (∃ j x, (f < j)%nat ∧ ms !! j = Some x ∧ is_role RCache x = false) →
  (refreshInnerLoopRollingMarker ms (Z.of_nat f) caps).1 !! f = Some m.
Proof.
  intros Hm Hc Hb Hafter. unfold refreshInnerLoopRollingMarker.
  destruct (rolling_idxs_spec ms (Z.of_nat f)) as [Hs Hall]. set (idxs := rolling_idxs ms (Z.of_nat f)) in *.
  destruct (caching_disabled caps) eqn:Ed; [simpl; by rewrite evict_lookup|].
  pose proof (sublist_removelast idxs) as Hsub. pose proof (sublist_Forall _ _ _ Hsub Hb) as Hb'.
  set (ms1 := evict_all (removelast idxs) ms).
  assert (ms1 !! f = Some m) as Hm1 by (unfold ms1; by rewrite evict_lookup).
  unfold maybePlaceCacheMarker. rewrite Ed. destruct (length ms1 <? 2)%nat; [done|]. destruct (_ =? 0)%nat; [done|]. simpl.
  assert (f < computeCacheMarkerIndex ms1)%nat as Hlt.
  { apply index_above; [by eauto|]. destruct Hafter as (j & x & Hj & Hx & Hr).
    destruct (evict_keeps_after (S f) (removelast idxs) ms) as (j' & x' & Hj' & Hx' & Hr').
    - by eapply sublist_StronglySorted.
    - eapply Forall_impl; [exact Hb'|]. simpl. lia.
    - by eapply sublist_Forall.
    - exists j, x. split_and!; [lia|done|done].
    - exists j', x'. split_and!; [lia|done|done]. }
  unfold splice_marker. rewrite lookup_app_l.
  - by rewrite lookup_take_lt.
  - rewrite length_take. pose proof (lookup_lt_Some _ _ _ Hm1). lia.
Qed.

(** ** The semantic anchor *)
Lemma latest_user_app a b : Forall (λ m, is_role RUser m = false) b → latest_user (b ++ a) = latest_user a.
Proof. induction 1 as [|m b Hm _ IH]; [done|]. simpl. by rewrite Hm. Qed.
Lemma latest_user_lt l i : latest_user l = Some i → (i < length l)%nat.
Proof. induction l as [|m l IH]; simpl; [done|]. destruct (is_role RUser m); [intros [= <-]; lia|]. intros H%IH. lia. Qed.

Lemma position_app est ms s k : (k ≤ length ms)%nat → computePositionTokens est (ms ++ s) k = computePositionTokens est ms k.
Proof. intros Hk. unfold computePositionTokens. by rewrite take_app_le. Qed.

(** Within a user turn the anchor stands still: a marker placed at the latest
    user message keeps its index and its token position whatever tool calls and
    results are appended to the request. *)
Theorem anchor_stable est ms s caps i :
  latest_user (reverse ms) = Some (S i) →
  sp_placed (computeStableCacheMarkerPlacement est ms caps) = true →
  Forall (λ m, is_role RUser m = false) s →
  computeStableCacheMarkerPlacement est (ms ++ s) caps = computeStableCacheMarkerPlacement est ms caps.
Proof.
  intros Hu Hp Hs. pose proof (latest_user_lt _ _ Hu) as Hlt. rewrite length_reverse in Hlt.
  unfold computeStableCacheMarkerPlacement in *. destruct (caching_disabled caps); [done|].
  rewrite reverse_app, latest_user_app, Hu by (by apply Forall_reverse). rewrite Hu in Hp.
  rewrite length_app. destruct (Nat.ltb_spec (length ms) 2) as [|H2]; [done|].
  destruct (Nat.ltb_spec (length ms + length s) 2); [lia|]. cbn [Nat.eqb] in *.
  rewrite position_app by lia. destruct (computePositionTokens est ms (S i)) as [t n]. destruct (n =? 0)%nat; [|done].
  destruct (Nat.leb_spec (length ms) (S (S i))); [done|]. destruct (Nat.leb_spec (length ms + length s) (S (S i))); [lia|].
  rewrite position_app by lia. done.
Qed.

(** A placed anchor has a message in front of it that the request format
    keeps (neither a marker nor a developer message), and its position is the
    cost of those messages. *)
Theorem anchor_rides_content est ms caps :
  let p := computeStableCacheMarkerPlacement est ms caps in
  if sp_placed p then
    let before := List.filter counted (take (Z.to_nat (sp_index p)) ms) in
    before ≠ [] ∧ sp_positionTokens p = sum_list_Z (est <$> before) ∧ sp_targetTokens p = sp_positionTokens p ∧
    0 < sp_index p ≤ Z.of_nat (length ms) ∧ sp_reason p = None
  else sp_index p = -1 ∧ sp_reason p ≠ None.
Proof.
  unfold computeStableCacheMarkerPlacement. destruct (caching_disabled caps); [done|].
  destruct (Nat.ltb_spec (length ms) 2) as [|H2]; [done|].
  set (at_ := match latest_user (reverse ms) with Some (S i) => S i | _ => computeCacheMarkerIndex ms end).
  assert (at_ < length ms)%nat as Hat.
  { assert (computeCacheMarkerIndex ms < length ms)%nat by (apply index_lt; intros ->; simpl in H2; lia).
    unfold at_. destruct (latest_user (reverse ms)) as [[|i]|] eqn:E; [done| |done].
    apply latest_user_lt in E. by rewrite length_reverse in E. }
  destruct (Nat.eqb_spec at_ 0) as [|Hz]; [done|]. unfold computePositionTokens.
  destruct (Nat.eqb_spec (length (List.filter counted (take at_ ms))) 0) as [H0|H0].
  - destruct (Nat.leb_spec (length ms) (S at_)); [done|].
    destruct (Nat.eqb_spec (length (List.filter counted (take (S at_) ms))) 0) as [H1|H1]; [done|].
    cbn [sp_placed sp_index sp_positionTokens sp_targetTokens sp_reason]. rewrite Nat2Z.id. split_and!; [by intros He; rewrite He in H1|done|done|lia|lia|done].
  - cbn [sp_placed sp_index sp_positionTokens sp_targetTokens sp_reason]. rewrite Nat2Z.id.
    split_and!; [by intros He; rewrite He in H0|done|done|lia|lia|done].
Qed.

(** The receiver's strip leaves no marker for a backend that cannot cache
    and loses no other message; for any other backend the request is unchanged. *)
Theorem strip_exact ms caps :
  stripCacheMarkersIfUnsupported ms caps = if caching_disabled caps then unmarked ms else ms.
Proof.
  unfold stripCacheMarkersIfUnsupported. destruct (caching_disabled caps); [|done]. simpl.
  destruct (existsb (is_role RCache) ms) eqn:E; [done|]. simpl. unfold unmarked. symmetry. apply filter_bool_all.
  intros m Hm. apply negb_true_iff. destruct (is_role RCache m) eqn:Em; [|done].
  assert (existsb (is_role RCache) ms = true); [|congruence]. apply existsb_exists. exists m. by rewrite <-list_elem_of_In.
Qed.

(** ** Concrete requests *)
Definition msg (r : llm_role) : LLMMessage := MkLlm r (CText "x").
Definition turn : list LLMMessage := msg <$> [RUser; RAssistant; RCache; RUser; RToolCall; RToolResult; RCache; RToolResult].
Definition flat_cost (_ : LLMMessage) : Z := 5.

Lemma fixed_stays_witness : (refreshInnerLoopRollingMarker turn 2 None).1 !! 2%nat = Some (msg RCache).
Proof.
  apply (fixed_stays turn 2 None (msg RCache)); [reflexivity|reflexivity| |].
  - vm_compute. repeat constructor.
  - exists 3%nat, (msg RUser). split_and!; [lia|reflexivity|reflexivity].
Defined.

Lemma anchor_stable_witness :
  let ms := msg <$> [RUser; RAssistant; RUser; RDeveloper] in
  computeStableCacheMarkerPlacement flat_cost (ms ++ (msg <$> [RToolCall; RToolResult])) None =
  computeStableCacheMarkerPlacement flat_cost ms None.
Proof.
  apply (anchor_stable flat_cost (msg <$> [RUser; RAssistant; RUser; RDeveloper]) (msg <$> [RToolCall; RToolResult]) None 1).
  - reflexivity.
  - reflexivity.
  - repeat constructor.
Defined.

(** The rolling placer looks only at the index: behind a developer message alone
    it places a marker the stable placer declines. *)
Example rolling_after_developers :
  let ms := msg <$> [RDeveloper; RUser; RDeveloper] in
  cp_placed (maybePlaceCacheMarker ms Rolling None).2 = true ∧
  cp_index (maybePlaceCacheMarker ms Rolling None).2 = 1 ∧
  sp_index (computeStableCacheMarkerPlacement flat_cost ms None) = 2.
Proof. vm_compute. done. Qed.
