(* ===== verification/ModelRouter.v ===== *)
(** * The model router (packages/llm/src/model-router.ts, capability and
      configuration types of packages/llm/src/types.ts)

    [Pool]: several backends under one id, with their cool-downs; a backend is
    the oracle that says what an attempt streams, how it ends and when.
    [ModelRouter]: the registry of backends with its rate limits, readiness
    gate, per-backend settings, and its construction from a configuration.
    The drivers are reduced to what the router asks of them, their provider,
    mode and context window, which determine their capabilities and readiness;
    the token file of the ChatGPT driver is an argument.  A JavaScript [Map]
    whose order is visible is a list of pairs, the other maps are [gmap]s.
    Prices are rationals, clocks are read once per synchronous step. *)
From Stdlib Require Import QArith.
From S2P Require Import Prelude Json.
Local Open Scope bound_scope.
Local Open Scope Z_scope.

(** ** Capabilities *)
Record BackendCapabilities := MkCaps {
  bc_streaming : bool; bc_tool_use : bool; bc_system_prompt : bool; bc_prompt_caching : bool; bc_vision : bool;
  bc_extended_thinking : bool; bc_max_context : option Z }.
Record CapabilityRequirements := MkReq {
  rq_vision : option bool; rq_tool_use : option bool; rq_system_prompt : option bool; rq_prompt_caching : option bool }.
Definition wants (o : option bool) : bool := match o with Some b => b | None => false end.
(** The four [if (requirements.x && !caps.x) continue]. *)
Definition satisfies (r : CapabilityRequirements) (c : BackendCapabilities) : bool :=
  implb (wants (rq_vision r)) (bc_vision c) && implb (wants (rq_tool_use r)) (bc_tool_use c) &&
  implb (wants (rq_system_prompt r)) (bc_system_prompt c) && implb (wants (rq_prompt_caching r)) (bc_prompt_caching c).
Definition meets (o : option CapabilityRequirements) (c : BackendCapabilities) : bool :=
  match o with Some r => satisfies r c | None => true end.

(** * Pools *)
Module Pool.
Definition BACKOFF_BASE_MS : Z := 30000.
Definition BACKOFF_MAX_MS : Z := 4 * 3600000.
Definition BACKOFF_MULTIPLIER : Z := 2.
Definition BACKOFF_RESET_MS : Z := 10 * 60000.

Record PoolEntry := MkEntry { pe_caps : BackendCapabilities; pe_tier : Z; pe_price : Q }.
Record PooledBackend := MkPool {
  entries : list PoolEntry; rateLimited : gmap nat Z; consecutiveFailures : gmap nat Z; lastSuccess : gmap nat Z;
  mergedCaps : BackendCapabilities }.

(** [a.tier - b.tier || a.pricePerMInput - b.pricePerMInput], negative. *)
Definition entry_lt (a b : PoolEntry) : bool :=
  (pe_tier a <? pe_tier b) || ((pe_tier a =? pe_tier b) && negb (Qle_bool (pe_price b) (pe_price a))).

Definition max_contexts (l : list BackendCapabilities) : option Z :=
  match omap bc_max_context l with
  | [] => None
  | x :: l' => Some (foldl Z.max x l')
  end.
Definition mergeCaps (es : list PoolEntry) : BackendCapabilities :=
  let caps := pe_caps <$> es in
  MkCaps (existsb bc_streaming caps) (existsb bc_tool_use caps) (existsb bc_system_prompt caps)
    (existsb bc_prompt_caching caps) (existsb bc_vision caps) (existsb bc_extended_thinking caps) (max_contexts caps).

Definition new_pool (es : list PoolEntry) : result PooledBackend :=
  match es with
  | [] => Throw "PooledBackend requires at least one backend"
  | _ => let sorted := stable_sort entry_lt es in Ok (MkPool sorted ∅ ∅ ∅ (mergeCaps sorted))
  end.

Definition failures (s : PooledBackend) (idx : nat) : Z := match consecutiveFailures s !! idx with Some n => n | None => 0 end.
Definition backoff (n : Z) : Z := Z.min (BACKOFF_BASE_MS * BACKOFF_MULTIPLIER ^ n) BACKOFF_MAX_MS.
Definition computeBackoff (s : PooledBackend) (idx : nat) : Z := backoff (failures s idx).

Definition drop_expired (now : Z) (s : PooledBackend) : PooledBackend :=
  MkPool (entries s) (filter (λ p, now < p.2) (rateLimited s)) (consecutiveFailures s) (lastSuccess s) (mergedCaps s).
(** The available entries, by their index in [entries]. *)
Definition getAvailable (now : Z) (s : PooledBackend) : PooledBackend * list nat :=
  let s' := drop_expired now s in
  (s', List.filter (λ i, match rateLimited s' !! i with Some _ => false | None => true end) (seq 0 (length (entries s')))).

(** ** Attempts *)
Inductive attempt_end :=
| Finished
| LlmFailure (statusCode retryAfterMs : option Z)
| OtherFailure.
(** What one attempt streams, how it ends and when. *)
Record attempt {chunk : Type} := MkAttempt { at_chunks : list chunk; at_end : attempt_end; at_time : Z }.
Arguments attempt : clear implicits.
Arguments MkAttempt {chunk}.

Definition cools_down (status : option Z) : bool :=
  match status with
  | Some c => (c =? 429) || (c =? 402) || (500 <=? c) || (c =? 400)
  | None => false
  end.

Definition record_success (now : Z) (idx : nat) (s : PooledBackend) : PooledBackend :=
  let lastOk := match lastSuccess s !! idx with Some t => t | None => 0 end in
  MkPool (entries s) (rateLimited s)
    (if BACKOFF_RESET_MS <=? now - lastOk then delete idx (consecutiveFailures s) else consecutiveFailures s)
    (<[idx := now]> (lastSuccess s)) (mergedCaps s).
Definition with_failures (idx : nat) (n : Z) (s : PooledBackend) : PooledBackend :=
  MkPool (entries s) (rateLimited s) (<[idx := n]> (consecutiveFailures s)) (lastSuccess s) (mergedCaps s).
Definition with_limit (idx : nat) (t : Z) (s : PooledBackend) : PooledBackend :=
  MkPool (entries s) (<[idx := t]> (rateLimited s)) (consecutiveFailures s) (lastSuccess s) (mergedCaps s).
Definition record_failure (now : Z) (idx : nat) (retryAfterMs : option Z) (s : PooledBackend) : PooledBackend :=
  let s' := with_failures idx (failures s idx + 1) s in
  let cooldown := match retryAfterMs with Some r => if r =? 0 then computeBackoff s' idx else r | None => computeBackoff s' idx end in
  with_limit idx (now + cooldown) s'.

Section chat.
Context {chunk : Type} (call : nat → attempt chunk).

(** The loop over the candidates: the new state, what the caller has streamed
    and the error thrown, if any. *)
Fixpoint try_candidates (cands : list nat) (lastError : attempt_end) (s : PooledBackend)
  : PooledBackend * list chunk * option attempt_end :=
  match cands with
  | [] => (s, [], Some lastError)
  | idx :: rest =>
      let a := call idx in
      match at_end a with
      | Finished => (record_success (at_time a) idx s, at_chunks a, None)
      | LlmFailure status retryAfterMs =>
          if cools_down status then
            let '(s', out, e) := try_candidates rest (at_end a) (record_failure (at_time a) idx retryAfterMs s) in
            (s', at_chunks a ++ out, e)
          else (s, at_chunks a, Some (at_end a))
      | OtherFailure =>
          if negb (bool_decide (rest = [])) then
            let '(s', out, e) := try_candidates rest (at_end a) s in (s', at_chunks a ++ out, e)
          else (s, at_chunks a, Some (at_end a))
      end
  end.
Definition candidates (now : Z) (s : PooledBackend) : list nat :=
  let '(s', available) := getAvailable now s in
  if (0 <? length available)%nat then available else seq 0 (length (entries s')).
(** The initial [lastError] is undefined; a pool is never empty. *)
Definition chat (now : Z) (s : PooledBackend) : PooledBackend * list chunk * option attempt_end :=
  try_candidates (candidates now s) OtherFailure (getAvailable now s).1.
End chat.
End Pool.

(** * The router *)

(** ** Configuration *)
Definition quoted (s : string) : string := String dquote (s +:+ String dquote EmptyString).
Record caps_override := MkOverride {
  co_streaming : option bool; co_tool_use : option bool; co_system_prompt : option bool; co_prompt_caching : option bool;
  co_vision : option bool; co_extended_thinking : option bool; co_max_context : option Z }.
Definition or_else {A} (o : option A) (a : A) : A := match o with Some b => b | None => a end.
(** [{ ...baseline, ...capOverride }]. *)
Definition override_caps (b : BackendCapabilities) (o : caps_override) : BackendCapabilities :=
  MkCaps (or_else (co_streaming o) (bc_streaming b)) (or_else (co_tool_use o) (bc_tool_use b))
    (or_else (co_system_prompt o) (bc_system_prompt b)) (or_else (co_prompt_caching o) (bc_prompt_caching b))
    (or_else (co_vision o) (bc_vision b)) (or_else (co_extended_thinking o) (bc_extended_thinking b))
    (match co_max_context o with Some m => Some m | None => bc_max_context b end).
Definition no_override : caps_override := MkOverride None None None None None None None.

(** [config.thinking]: absent, [true], or an object with its three fields. *)
Inductive thinking_type := TEnabled | TAdaptive | TTool.
Inductive thinking_setting :=
| ThinkAbsent
| ThinkTrue
| ThinkObject (type : option thinking_type) (budget_tokens : option Z) (display : option string).
Inductive thinking_config :=
| Disabled
| Adaptive (display : string)
| Enabled (budget_tokens : Z).

Record BackendConfig := MkConfig {
  cf_id : string; cf_provider : string; cf_model : string; cf_providerMode : option string; cf_region : option string;
  cf_apiKey : option string; cf_tokenStorePath : option string; cf_contextWindow : option Z;
  cf_capabilities : option caps_override; cf_tier : option Z; cf_price : option Q; cf_thinking : thinking_setting;
  cf_effort : option string; cf_maxOutputTokens : option Z; cf_systemPromptSuffix : option string;
  cf_cacheTtl : option string; cf_cacheWarming : option (bool * Z) }.
Record ModelBackendsConfig := MkBackends { mb_backends : list BackendConfig; mb_default : string }.

(** ** Drivers *)
Record driver := MkDriver { dr_provider : string; dr_mode : option string; dr_window : option Z }.
Definition driver_capabilities (d : driver) : BackendCapabilities :=
  match dr_provider d with
  | "bedrock" | "anthropic" => MkCaps true true true true true true (dr_window d)
  | "bedrock-mantle" =>
      MkCaps true true true true true (match dr_mode d with Some m => seqb m "anthropic" | None => false end) (dr_window d)
  | "chatgpt-oauth" => MkCaps true true true true true false (dr_window d)
  | "opencode-go" => MkCaps true true true false false false (dr_window d)
  | "umans" => MkCaps true true true true false false None
  | _ => MkCaps true true true false true false (dr_window d)
  end.

Section create.
(** Whether the ChatGPT token file at a path holds tokens. *)
Variable tokens_at : string → bool.

Definition need (field : option string) (error : string) (d : driver) : result driver :=
  if truthy field then Ok d else Throw error.
Definition createBackendFromConfig (c : BackendConfig) : result driver :=
  let provider := toLowerCase (cf_provider c) in
  let window := λ w, Some (or_else (cf_contextWindow c) w) in
  match provider with
  | "bedrock" => need (cf_region c) "Bedrock driver requires region in config" (MkDriver provider None (window 200000))
  | "anthropic" => need (cf_apiKey c) "Anthropic driver requires apiKey in config" (MkDriver provider None (window 200000))
  | "openai-compatible" =>
      need (cf_apiKey c) "OpenAI-compatible driver requires apiKey in config" (MkDriver provider None (window 8192))
  | "cerebras" => need (cf_apiKey c) "Cerebras driver requires apiKey in config" (MkDriver provider None (window 128000))
  | "zai" => need (cf_apiKey c) "z.AI driver requires apiKey in config" (MkDriver provider None (window 128000))
  | "chatgpt-oauth" =>
      if tokens_at (or_else (cf_tokenStorePath c) "config/chatgpt-auth.json")
      then Ok (MkDriver provider None (window 128000))
      else Throw "ChatGPT OAuth is not logged in — run `bound login --chatgpt`"
  | "opencode-go" => need (cf_apiKey c) "OpenCode Go driver requires apiKey in config" (MkDriver provider None (window 128000))
  | "umans" => need (cf_apiKey c) "umans driver requires apiKey in config" (MkDriver provider None None)
  | "bedrock-mantle" =>
      if truthy (cf_region c)
      then need (cf_providerMode c) "Bedrock Mantle driver requires providerMode in config"
             (MkDriver provider (cf_providerMode c) (window 272000))
      else Throw "Bedrock Mantle driver requires region in config"
  | _ => Throw ("Provider not supported: " +:+ cf_provider c)
  end.

(** ** The registry *)
(** A registered backend: its own capabilities, and [isReady()] of its readiness
    handle if it has one. *)
Record LLMBackend := MkBackend { lb_caps : BackendCapabilities; lb_ready : option bool }.
Definition driver_backend (d : driver) : LLMBackend :=
  MkBackend (driver_capabilities d) (if seqb (dr_provider d) "umans" then Some false else None).

Record ModelRouter := MkRouter {
  backends : list (string * LLMBackend); defaultId : string; effectiveCaps : gmap string BackendCapabilities;
  rateLimits : gmap string Z; tiers : gmap string Z; backendConfigs : gmap string BackendConfig; notReady : gset string }.

Definition unready (bs : list (string * LLMBackend)) : gset string :=
  list_to_set (List.filter (λ e, match lb_ready e.2 with Some r => negb r | None => false end) bs).*1.

Record RouterState := MkState {
  st_backends : list (string * LLMBackend); st_defaultId : string; st_caps : gmap string BackendCapabilities;
  st_tiers : gmap string Z; st_configs : gmap string BackendConfig }.

(** The groups of a configuration: backends that share an id, in the order of
    their first appearance. *)
Record group := MkGroup { gr_entries : list (driver * Pool.PoolEntry); gr_caps : list BackendCapabilities }.
Definition config_entry (c : BackendConfig) (d : driver) : driver * Pool.PoolEntry :=
  (d, Pool.MkEntry (driver_capabilities d) (or_else (cf_tier c) 3) (or_else (cf_price c) 0%Q)).
Definition config_caps (c : BackendConfig) (d : driver) : BackendCapabilities :=
  override_caps (driver_capabilities d) (or_else (cf_capabilities c) no_override).
Fixpoint collect (cs : list BackendConfig) (groups : list (string * group)) : result (list (string * group)) :=
  match cs with
  | [] => Ok groups
  | c :: cs' =>
      let! d := createBackendFromConfig c in
      let g := match fields_get (cf_id c) groups with
               | Some g => MkGroup (gr_entries g ++ [config_entry c d]) (gr_caps g ++ [config_caps c d])
               | None => MkGroup [config_entry c d] [config_caps c d]
               end in
      collect cs' (fields_set (cf_id c) g groups)
  end.

Definition min_tier (l : list Z) : Z := match l with [] => 0 | t :: l' => foldl Z.min t l' end.
(** The backend of a group and its effective capabilities. *)
Definition group_backend (g : group) : LLMBackend * BackendCapabilities :=
  match gr_entries g, gr_caps g with
  | [(d, _)], c :: _ => (driver_backend d, c)
  | es, _ =>
      let caps := Pool.mergeCaps (stable_sort Pool.entry_lt es.*2) in (MkBackend caps None, caps)
  end.
Definition add_group (config : ModelBackendsConfig) (st : RouterState) (e : string * group) : RouterState :=
  let '(id, g) := e in
  let '(b, caps) := group_backend g in
  MkState (fields_set id b (st_backends st)) (st_defaultId st) (<[id := caps]> (st_caps st))
    (<[id := min_tier (Pool.pe_tier <$> (gr_entries g).*2)]> (st_tiers st))
    (match List.find (λ c, seqb (cf_id c) id) (mb_backends config) with
     | Some c => <[id := c]> (st_configs st)
     | None => st_configs st
     end).
Definition buildRouterState (config : ModelBackendsConfig) : result RouterState :=
  let! groups := collect (mb_backends config) [] in
  let st := foldl (add_group config) (MkState [] "" ∅ ∅ ∅) groups in
  match mb_backends config with
  | [] => Ok st
  | _ =>
      match fields_get (mb_default config) (st_backends st) with
      | Some _ => Ok (MkState (st_backends st) (mb_default config) (st_caps st) (st_tiers st) (st_configs st))
      | None => Throw ("Default backend " +:+ quoted (mb_default config) +:+ " not found in backends")
      end
  end.
Definition new_router (st : RouterState) : ModelRouter :=
  MkRouter (st_backends st) (st_defaultId st) (st_caps st) ∅ (st_tiers st) (st_configs st) (unready (st_backends st)).
Definition createModelRouter (config : ModelBackendsConfig) : result ModelRouter :=
  let! st := buildRouterState config in Ok (new_router st).
(** An invalid configuration leaves the router as it was. *)
Definition reload (config : ModelBackendsConfig) (r : ModelRouter) : ModelRouter * result unit :=
  match buildRouterState config with
  | Ok st => (new_router st, Ok ())
  | Throw e => (r, Throw e)
  end.
End create.

(** ** Operations *)
Definition tryGetBackend (modelId : string) (r : ModelRouter) : option LLMBackend := fields_get modelId (backends r).
Definition getBackend (modelId : option string) (r : ModelRouter) : result LLMBackend :=
  let id := or_else modelId (defaultId r) in
  match fields_get id (backends r) with
  | Some b => Ok b
  | None => Throw ("Unknown backend ID: " +:+ id +:+ ". Available backends: " +:+ String.concat ", " (backends r).*1)
  end.
Definition getDefault (r : ModelRouter) : result LLMBackend :=
  match fields_get (defaultId r) (backends r) with
  | Some b => Ok b
  | None => Throw ("Default backend not found: " +:+ defaultId r)
  end.
Definition isNotReady (id : string) (r : ModelRouter) : bool := bool_decide (id ∈ notReady r).
Definition getEffectiveCapabilities (id : string) (r : ModelRouter) : option BackendCapabilities := effectiveCaps r !! id.
Definition BackendInfo := (string * BackendCapabilities)%type.
Definition listBackends (r : ModelRouter) : list BackendInfo :=
  (λ e, (e.1, or_else (effectiveCaps r !! e.1) (lb_caps e.2))) <$>
  List.filter (λ e, negb (isNotReady e.1 r)) (backends r).

Definition with_limits (l : gmap string Z) (r : ModelRouter) : ModelRouter :=
  MkRouter (backends r) (defaultId r) (effectiveCaps r) l (tiers r) (backendConfigs r) (notReady r).
Definition markRateLimited (now : Z) (id : string) (retryAfterMs : Z) (r : ModelRouter) : ModelRouter :=
  with_limits (<[id := now + retryAfterMs]> (rateLimits r)) r.
(** Deletes an expired entry. *)
Definition isRateLimited (now : Z) (id : string) (r : ModelRouter) : ModelRouter * bool :=
  match rateLimits r !! id with
  | None => (r, false)
  | Some expiry => if expiry <=? now then (with_limits (delete id (rateLimits r)) r, false) else (r, true)
  end.

Fixpoint eligible_loop (now : Z) (requirements : option CapabilityRequirements) (ids : list string) (r : ModelRouter)
  : ModelRouter * list BackendInfo :=
  match ids with
  | [] => (r, [])
  | id :: ids' =>
      let '(r1, limited) := isRateLimited now id r in
      let '(r2, l) := eligible_loop now requirements ids' r1 in
      (r2, if limited || isNotReady id r1 then l
           else match effectiveCaps r1 !! id with
                | Some caps => if meets requirements caps then (id, caps) :: l else l
                | None => l
                end)
  end.
Definition listEligible (now : Z) (requirements : option CapabilityRequirements) (r : ModelRouter)
  : ModelRouter * list BackendInfo := eligible_loop now requirements (backends r).*1 r.
Definition listEligibleByTier (now : Z) (tier : Z) (requirements : option CapabilityRequirements) (r : ModelRouter)
  : ModelRouter * list BackendInfo :=
  let '(r', l) := listEligible now requirements r in
  (r', List.filter (λ b, bool_decide (tiers r' !! b.1 = Some tier)) l).

Definition addDynamicBackend (id : string) (backend : LLMBackend) (caps : BackendCapabilities) (tier maxOutputTokens : option Z)
  (r : ModelRouter) : ModelRouter :=
  MkRouter (fields_set id backend (backends r)) (defaultId r) (<[id := caps]> (effectiveCaps r)) (rateLimits r)
    (match tier with Some t => <[id := t]> (tiers r) | None => tiers r end)
    (match maxOutputTokens with
     | Some m =>
         let existing := or_else (backendConfigs r !! id)
           (MkConfig id "" id None None None None None None None None ThinkAbsent None None None None None) in
         <[id := MkConfig (cf_id existing) (cf_provider existing) (cf_model existing) (cf_providerMode existing)
                   (cf_region existing) (cf_apiKey existing) (cf_tokenStorePath existing) (cf_contextWindow existing)
                   (cf_capabilities existing) (cf_tier existing) (cf_price existing) (cf_thinking existing)
                   (cf_effort existing) (Some m) (cf_systemPromptSuffix existing) (cf_cacheTtl existing)
                   (cf_cacheWarming existing)]> (backendConfigs r)
     | None => backendConfigs r
     end)
    (notReady r ∖ {[id]}).
Definition removeBackend (id : string) (r : ModelRouter) : ModelRouter :=
  MkRouter (fields_remove id (backends r)) (defaultId r) (delete id (effectiveCaps r)) (delete id (rateLimits r))
    (delete id (tiers r)) (backendConfigs r) (notReady r ∖ {[id]}).
Definition clearNotReady (id : string) (r : ModelRouter) : ModelRouter :=
  MkRouter (backends r) (defaultId r) (effectiveCaps r) (rateLimits r) (tiers r) (backendConfigs r) (notReady r ∖ {[id]}).
Definition redirectDefault (fromId toId : string) (r : ModelRouter) : ModelRouter :=
  MkRouter (backends r) (if seqb (defaultId r) fromId then toId else defaultId r) (effectiveCaps r) (rateLimits r)
    (tiers r) (backendConfigs r) (notReady r).
Definition getReadinessBackends (r : ModelRouter) : list (string * LLMBackend) :=
  List.filter (λ e, match lb_ready e.2 with Some _ => true | None => false end) (backends r).

(** The loop over the rate limits: the least expiry of a capable backend. *)
Definition getEarliestCapableRecovery (requirements : option CapabilityRequirements) (r : ModelRouter) : option Z :=
  map_fold (λ id expiry earliest,
      match effectiveCaps r !! id with
      | Some caps =>
          if meets requirements caps
          then match earliest with Some e => Some (Z.min e expiry) | None => Some expiry end
          else earliest
      | None => earliest
      end) None (rateLimits r).
Definition getBackendTier (id : string) (r : ModelRouter) : option Z := tiers r !! id.

Definition getThinkingConfig (id : string) (r : ModelRouter) : option thinking_config :=
  match backendConfigs r !! id with
  | None => None
  | Some config =>
      match cf_thinking config with
      | ThinkAbsent => None
      | ThinkTrue => Some (Enabled 10000)
      | ThinkObject (Some TTool) _ _ => Some Disabled
      | ThinkObject (Some TAdaptive) _ display => Some (Adaptive (or_else display "summarized"))
      | ThinkObject _ budget _ => Some (Enabled (or_else budget 10000))
      end
  end.
Definition usesThinkingTool (id : string) (r : ModelRouter) : bool :=
  match backendConfigs r !! id with
  | Some config => match cf_thinking config with ThinkObject (Some TTool) _ _ => true | _ => false end
  | None => false
  end.
Definition getEffort (id : string) (r : ModelRouter) : option string :=
  if usesThinkingTool id r then None else backendConfigs r !! id ≫= cf_effort.
Definition getMaxOutputTokens (id : string) (r : ModelRouter) : option Z := backendConfigs r !! id ≫= cf_maxOutputTokens.
Definition getSystemPromptSuffix (id : string) (r : ModelRouter) : option string := backendConfigs r !! id ≫= cf_systemPromptSuffix.
Definition getCacheTtl (id : string) (r : ModelRouter) : option string :=
  match backendConfigs r !! id ≫= cf_cacheTtl with
  | Some ttl => Some ttl
  | None => match effectiveCaps r !! id with
            | Some caps => if bc_prompt_caching caps then Some "5m" else None
            | None => None
            end
  end.
Definition getCacheWarmConfig (id : string) (r : ModelRouter) : option (bool * Z) := backendConfigs r !! id ≫= cf_cacheWarming.

(** * Properties of a pool *)
Module PoolProps.
Import Pool.

(** An entry that is cooling down at [now]. *)
Definition cooling (now : Z) (s : PooledBackend) (i : nat) : bool :=
  match rateLimited s !! i with Some expiry => now <? expiry | None => false end.

Lemma cooling_expired now s i :
  match rateLimited (drop_expired now s) !! i with Some _ => false | None => true end = negb (cooling now s i).
Proof.
  unfold cooling, drop_expired. simpl. rewrite map_lookup_filter.
  destruct (rateLimited s !! i) as [e|]; simpl; [|done]. case_guard; simpl; destruct (Z.ltb_spec now e); try done; lia.
Qed.
Lemma available_spec now s :
  (getAvailable now s).2 = List.filter (λ i, negb (cooling now s i)) (seq 0 (length (entries s))).
Proof. unfold getAvailable. apply List.filter_ext. intros i. apply cooling_expired. Qed.
Lemma pool_candidates_spec now s :
  candidates now s =
    let up := List.filter (λ i, negb (cooling now s i)) (seq 0 (length (entries s))) in
    if bool_decide (up = []) then seq 0 (length (entries s)) else up.
Proof.
  unfold candidates. rewrite (surjective_pairing (getAvailable now s)), available_spec.
  change (entries (getAvailable now s).1) with (entries s). cbv zeta. by destruct (List.filter _ _).
Qed.
Lemma candidates_nonempty now s : entries s ≠ [] → candidates now s ≠ [].
Proof.
  intros Hne. rewrite pool_candidates_spec. cbv zeta. case_bool_decide; [|done]. destruct (entries s); [done|]. by simpl.
Qed.
Lemma candidates_nodup now s : NoDup (candidates now s).
Proof.
  rewrite pool_candidates_spec. cbv zeta. case_bool_decide; [apply NoDup_seq|]. eapply sublist_NoDup; [apply NoDup_seq|apply filter_sublist].
Qed.
(** A backend that is cooling down is not tried as long as another one is up;
    when all of them are cooling down all are tried, in order of preference. *)
Theorem pool_rests now s i :
  i ∈ candidates now s → cooling now s i = true →
  candidates now s = seq 0 (length (entries s)) ∧ ∀ j, (j < length (entries s))%nat → cooling now s j = true.
Proof.
  rewrite pool_candidates_spec. cbv zeta. case_bool_decide as Hup.
  - intros _ _. split; [done|]. intros j Hj. destruct (cooling now s j) eqn:E; [done|].
    assert (j ∈ []) as Hin; [|by apply not_elem_of_nil in Hin].
    rewrite <-Hup. apply filter_In_iff. rewrite E. split; [apply elem_of_seq; lia|done].
  - intros [_ Hi]%filter_In_iff Hc. by rewrite Hc in Hi.
Qed.

(** The attempts after which the loop goes on. *)
Definition passes (e : attempt_end) : bool :=
  match e with Finished => false | LlmFailure status _ => cools_down status | OtherFailure => true end.
Definition thrown (e : attempt_end) : option attempt_end := match e with Finished => None | _ => Some e end.

Section serve.
Context {chunk : Type} (call : nat → attempt chunk).
Definition streamed (l : list nat) : list chunk := concat ((λ i, at_chunks (call i)) <$> l).
Lemma streamed_app a b : streamed (a ++ b) = streamed a ++ streamed b.
Proof using. unfold streamed. by rewrite fmap_app, concat_app. Qed.

(** The failures that cool a backend down, in the order of the attempts. *)
Definition after_attempt (s : PooledBackend) (i : nat) : PooledBackend :=
  match at_end (call i) with
  | Finished => record_success (at_time (call i)) i s
  | LlmFailure status r => if cools_down status then record_failure (at_time (call i)) i r s else s
  | OtherFailure => s
  end.
Lemma try_spec cands e0 s : cands ≠ [] →
  ∃ pre i post, cands = pre ++ i :: post ∧ Forall (λ j, passes (at_end (call j)) = true) pre ∧
    (post = [] ∨ passes (at_end (call i)) = false) ∧
    try_candidates call cands e0 s =
      (foldl after_attempt s (pre ++ [i]), streamed pre ++ at_chunks (call i), thrown (at_end (call i))).
Proof using.
  revert e0 s. induction cands as [|i cands IH]; intros e0 s Hne; [done|]. cbn [try_candidates].
  assert (∀ s', passes (at_end (call i)) = true → cands ≠ [] → s' = after_attempt s i →
    ∃ pre k post, i :: cands = pre ++ k :: post ∧ Forall (λ j, passes (at_end (call j)) = true) pre ∧
    (post = [] ∨ passes (at_end (call k)) = false) ∧
    (let '(s1, out, e) := try_candidates call cands (at_end (call i)) s' in (s1, at_chunks (call i) ++ out, e)) =
      (foldl after_attempt s (pre ++ [k]), streamed pre ++ at_chunks (call k), thrown (at_end (call k)))) as Hstep.
  { intros s' Hp Hc ->. destruct (IH (at_end (call i)) (after_attempt s i) Hc) as (pre & k & post & -> & Hpre & Hpost & ->).
    exists (i :: pre), k, post. split_and!; [done|by constructor|done|].
    change (streamed (i :: pre)) with (at_chunks (call i) ++ streamed pre). by rewrite <-(assoc_L (++)). }
  assert (try_candidates call [] (at_end (call i)) = λ s', (s', [], Some (at_end (call i)))) as Hnil by done.
  unfold passes, after_attempt in Hstep. destruct (at_end (call i)) as [|status r|] eqn:E.
  - exists [], i, cands. split_and!; [done|done|right; by rewrite E|]. simpl. unfold after_attempt. by rewrite E.
  - destruct (cools_down status) eqn:Ec.
    + destruct cands as [|j cands']; [|by apply Hstep].
      exists [], i, []. split_and!; [done|done|by left|]. simpl. unfold after_attempt. rewrite E, Ec. by rewrite app_nil_r.
    + exists [], i, cands. split_and!; [done|done|right; by rewrite E|]. simpl. unfold after_attempt. by rewrite E, Ec.
  - case_bool_decide as Hc; simpl; [|by apply Hstep].
    exists [], i, cands. split_and!; [done|done|by left|]. simpl. unfold after_attempt. by rewrite E.
Qed.
End serve.

(** A request to a pool is served by the first candidate that does not fail
    over: the candidates before it failed with an error that falls through, the
    caller sees what they had streamed before failing followed by its stream, and
    an error is thrown only when it is the last candidate or its error is final. *)
Theorem pool_serves {chunk} (call : nat → attempt chunk) now s :
  entries s ≠ [] →
  ∃ pre i post, candidates now s = pre ++ i :: post ∧
    Forall (λ j, passes (at_end (call j)) = true) pre ∧ (post = [] ∨ passes (at_end (call i)) = false) ∧
    let '(s', out, err) := chat call now s in
    out = streamed call pre ++ at_chunks (call i) ∧ err = thrown (at_end (call i)) ∧ entries s' = entries s.
Proof.
  intros Hne. unfold chat. destruct (try_spec call (candidates now s) OtherFailure (getAvailable now s).1) as
    (pre & i & post & Hc & Hpre & Hpost & ->); [by apply candidates_nonempty|].
  exists pre, i, post. split_and!; [done|done|done|done|done|].
  assert (entries s = entries (getAvailable now s).1) as -> by done. generalize (getAvailable now s).1.
  induction (pre ++ [i]) as [|k l IH]; intros s0; [done|]. simpl. rewrite IH. unfold after_attempt.
  destruct (at_end (call k)) as [|st r|]; [done| |done]. by destruct (cools_down st).
Qed.

(** ** Cool-downs *)
Definition cooldown (retryAfterMs : option Z) (n : Z) : Z :=
  match retryAfterMs with Some r => if r =? 0 then backoff n else r | None => backoff n end.
Lemma record_failure_spec now i r s :
  rateLimited (record_failure now i r s) = <[i := now + cooldown r (failures s i + 1)]> (rateLimited s) ∧
  (∀ j, failures (record_failure now i r s) j = if (j =? i)%nat then failures s i + 1 else failures s j).
Proof.
  unfold record_failure, with_limit, with_failures, failures, cooldown, computeBackoff. simpl. split.
  - unfold failures. simpl. by rewrite lookup_insert_eq.
  - intros j. destruct (Nat.eqb_spec j i) as [->|Hne]; [by rewrite lookup_insert_eq|by rewrite lookup_insert_ne by done].
Qed.
Lemma backoff_bounds n : 1 ≤ n → 2 * BACKOFF_BASE_MS ≤ backoff n ≤ BACKOFF_MAX_MS.
Proof.
  intros Hn. unfold backoff, BACKOFF_BASE_MS, BACKOFF_MULTIPLIER, BACKOFF_MAX_MS.
  assert (2 ^ 1 ≤ 2 ^ n) by (apply Z.pow_le_mono_r; lia). rewrite Z.pow_1_r in *. lia.
Qed.
Lemma backoff_mono m n : 0 ≤ m ≤ n → backoff m ≤ backoff n.
Proof.
  intros H. unfold backoff, BACKOFF_BASE_MS, BACKOFF_MULTIPLIER.
  assert (2 ^ m ≤ 2 ^ n) by (apply Z.pow_le_mono_r; lia). lia.
Qed.
(** A backend's failures without [Retry-After], at the given times. *)
Definition fail_times (i : nat) (ts : list Z) (s : PooledBackend) : PooledBackend :=
  foldl (λ s t, record_failure t i None s) s ts.
Lemma fail_times_spec i ts s : failures (fail_times i ts s) i = failures s i + Z.of_nat (length ts).
Proof.
  revert s. induction ts as [|t ts IH]; intros s; [simpl; lia|].
  change (fail_times i (t :: ts) s) with (fail_times i ts (record_failure t i None s)). rewrite IH.
  destruct (record_failure_spec t i None s) as [_ ->]. rewrite Nat.eqb_refl. simpl length. lia.
Qed.
(** The cool-down doubles with every failure in a row: after [k] of them it is
    the base of 30 s times 2^k, at most four hours, so that even the first
    failure rests the backend for a full minute. *)
Theorem pool_backoff i ts t s :
  failures s i = 0 →
  let s' := fail_times i (ts ++ [t]) s in
  let k := Z.of_nat (length ts) + 1 in
  rateLimited s' !! i = Some (t + Z.min (BACKOFF_BASE_MS * 2 ^ k) BACKOFF_MAX_MS) ∧
  2 * BACKOFF_BASE_MS ≤ Z.min (BACKOFF_BASE_MS * 2 ^ k) BACKOFF_MAX_MS ≤ BACKOFF_MAX_MS.
Proof.
  intros H0. cbv zeta. unfold fail_times. rewrite foldl_app. cbn [foldl].
  pose proof (fail_times_spec i ts s) as Hf. unfold fail_times in Hf. set (s1 := foldl _ s ts) in *.
  destruct (record_failure_spec t i None s1) as [-> _]. rewrite lookup_insert_eq, Hf, H0. split; [done|].
  apply (backoff_bounds (Z.of_nat (length ts) + 1)). lia.
Qed.

(** ** Successes *)
Fixpoint steady (t0 : Z) (ts : list Z) : Prop :=
  match ts with
  | [] => True
  | t :: ts' => t - t0 < BACKOFF_RESET_MS ∧ steady t ts'
  end.
(** A backend in steady use never forgets its failures: as long as its
    successes follow each other in less than ten minutes, however many and for
    however long, its failure count stays what it was. *)
Theorem steady_use_never_resets i t0 ts s :
  lastSuccess s !! i = Some t0 → steady t0 ts →
  consecutiveFailures (foldl (λ s t, record_success t i s) s ts) = consecutiveFailures s.
Proof.
  revert t0 s. induction ts as [|t ts IH]; intros t0 s Hl Hs; [done|]. destruct Hs as [Ht Hs]. simpl.
  rewrite (IH t); [|by simpl; rewrite lookup_insert_eq|done]. unfold record_success. rewrite Hl. simpl.
  destruct (Z.leb_spec BACKOFF_RESET_MS (t - t0)); [lia|done].
Qed.

(** ** Concrete pools *)
Definition plain_caps : BackendCapabilities := MkCaps true true true false false false (Some 8192).
Definition two_entries : PooledBackend :=
  MkPool [MkEntry plain_caps 1 (1#2)%Q; MkEntry plain_caps 2 0%Q] ∅ ∅ ∅ plain_caps.
Definition flaky (i : nat) : attempt string :=
  if (i =? 0)%nat then MkAttempt ["Hel"] (LlmFailure (Some 503) None) 1000 else MkAttempt ["Hello"] Finished 2000.

(** The caller sees the part of the answer streamed before the failure. *)
Example partial_stream_repeated :
  let '(s, out, err) := chat flaky 0 two_entries in
  out = ["Hel"; "Hello"] ∧ err = None ∧ rateLimited s !! 0%nat = Some 61000.
Proof. vm_compute. done. Qed.

Lemma pool_serves_witness :
  ∃ pre i post, candidates 0 two_entries = pre ++ i :: post ∧
    Forall (λ j, passes (at_end (flaky j)) = true) pre ∧ (post = [] ∨ passes (at_end (flaky i)) = false) ∧
    let '(s', out, err) := chat flaky 0 two_entries in
    out = streamed flaky pre ++ at_chunks (flaky i) ∧ err = thrown (at_end (flaky i)) ∧ entries s' = entries two_entries.
Proof. apply (pool_serves flaky 0 two_entries). discriminate. Defined.
Lemma pool_rests_witness :
  let s := with_limit 0 60000 (with_limit 1 90000 two_entries) in
  candidates 10000 s = seq 0 2 ∧ ∀ j, (j < 2)%nat → cooling 10000 s j = true.
Proof. apply (pool_rests 10000 (with_limit 0 60000 (with_limit 1 90000 two_entries)) 0); vm_compute; [left|reflexivity]. Defined.
Lemma pool_backoff_witness :
  let s' := fail_times 0 [0; 70000; 300000] two_entries in
  rateLimited s' !! 0%nat = Some (300000 + Z.min (BACKOFF_BASE_MS * 2 ^ 3) BACKOFF_MAX_MS) ∧
  2 * BACKOFF_BASE_MS ≤ Z.min (BACKOFF_BASE_MS * 2 ^ 3) BACKOFF_MAX_MS ≤ BACKOFF_MAX_MS.
Proof. apply (pool_backoff 0 [0; 70000] 300000 two_entries). reflexivity. Defined.
Lemma steady_use_never_resets_witness :
  let s := fail_times 0 [1100000; 1200000] (record_success 1000000 0 two_entries) in
  consecutiveFailures (foldl (λ s t, record_success t 0 s) s [1500000; 2000000; 2500000]) = consecutiveFailures s.
Proof.
  apply (steady_use_never_resets 0 1000000 [1500000; 2000000; 2500000] (fail_times 0 [1100000; 1200000] (record_success 1000000 0 two_entries)));
    [reflexivity|by vm_compute].
Defined.
End PoolProps.

(** * Properties of the router *)
Module RouterProps.

(** ** Association lists in insertion order *)
Section fields_laws.
Context {V : Type}.
Implicit Types l : list (string * V).
Lemma fields_get_none k l : fields_get k l = None ↔ k ∉ l.*1.
Proof using.
  induction l as [|[k' v] l IH]; csimpl; [by split; [intros _; apply not_elem_of_nil|]|].
  destruct (seqb k' k) eqn:E.
  - apply seqb_true in E as ->. split; [done|]. intros []. by left.
  - apply seqb_false in E. rewrite IH, not_elem_of_cons. naive_solver.
Qed.
Lemma fields_set_keys k v l : (fields_set k v l).*1 = if bool_decide (k ∈ l.*1) then l.*1 else l.*1 ++ [k].
Proof using.
  induction l as [|[k' v'] l IH]; [done|]. simpl. destruct (seqb k' k) eqn:E.
  - apply seqb_true in E as ->. csimpl. by rewrite bool_decide_true by left.
  - apply seqb_false in E. csimpl. rewrite IH. rewrite (bool_decide_ext (k ∈ k' :: l.*1) (k ∈ l.*1)); [by case_bool_decide|].
    rewrite elem_of_cons. naive_solver.
Qed.
Lemma keys_after_remove k j l : j ∈ (fields_remove k l).*1 ↔ j ≠ k ∧ j ∈ l.*1.
Proof using.
  unfold fields_remove. rewrite !list_elem_of_fmap. split.
  - intros (e & -> & [Hin Hn]%filter_In_iff). apply negb_true_iff, seqb_false in Hn. eauto.
  - intros [Hne (e & -> & Hin)]. exists e. split; [done|]. apply filter_In_iff. split; [done|]. by apply negb_true_iff, seqb_false.
Qed.
End fields_laws.

(** ** Eligibility *)
Definition limited (now : Z) (id : string) (r : ModelRouter) : bool :=
  match rateLimits r !! id with Some expiry => now <? expiry | None => false end.
Definition eligible_at (now : Z) (req : option CapabilityRequirements) (r : ModelRouter) (id : string) : option BackendInfo :=
  if limited now id r || isNotReady id r then None
  else match effectiveCaps r !! id with
       | Some caps => if meets req caps then Some (id, caps) else None
       | None => None
       end.
(** [r'] is [r] without some expired limits. *)
Definition same_but_expired (now : Z) (r r' : ModelRouter) : Prop :=
  r' = with_limits (rateLimits r') r ∧ ∀ id t, now ≤ t → limited t id r' = limited t id r.

Lemma isRateLimited_spec now id r :
  let '(r', b) := isRateLimited now id r in b = limited now id r ∧ same_but_expired now r r'.
Proof.
  unfold isRateLimited, same_but_expired, limited. destruct (rateLimits r !! id) as [e|] eqn:E; [|by destruct r].
  destruct (Z.leb_spec e now) as [Hle|Hgt].
  - split; [symmetry; apply Z.ltb_ge; lia|]. split; [done|]. intros j t Ht. simpl.
    destruct (decide (j = id)) as [->|Hne]; [|by rewrite lookup_delete_ne]. rewrite lookup_delete_eq, E. symmetry. apply Z.ltb_ge. lia.
  - split; [symmetry; by apply Z.ltb_lt|]. by destruct r.
Qed.
Lemma eligible_loop_spec now req ids r :
  let '(r', l) := eligible_loop now req ids r in l = omap (eligible_at now req r) ids ∧ same_but_expired now r r'.
Proof.
  revert r. induction ids as [|id ids IH]; intros r; [by destruct r|]. cbn [eligible_loop omap].
  pose proof (isRateLimited_spec now id r) as H1. destruct (isRateLimited now id r) as [r1 b]. destruct H1 as [-> [Hr1 Hl1]].
  specialize (IH r1). destruct (eligible_loop now req ids r1) as [r2 l]. destruct IH as [-> [Hr2 Hl2]].
  assert (∀ j, eligible_at now req r1 j = eligible_at now req r j) as He.
  { intros j. unfold eligible_at. rewrite Hl1 by lia. rewrite Hr1. by destruct r. }
  split.
  - rewrite (omap_ext_elem (eligible_at now req r1) (eligible_at now req r)) by (intros; apply He).
    trans (match eligible_at now req r1 id with Some e => e :: omap (eligible_at now req r) ids | None => omap (eligible_at now req r) ids end);
      [|by rewrite He].
    set (tl := omap (eligible_at now req r) ids). unfold eligible_at. rewrite Hl1 by lia.
    destruct (limited now id r || _); [done|]. destruct (effectiveCaps r1 !! id) as [caps|]; [|done]. by destruct (meets req caps).
  - split; [rewrite Hr2 at 1; rewrite Hr1; done|]. intros j t Ht. by rewrite Hl2, Hl1.
Qed.
Lemma listEligible_spec now req r :
  let '(r', l) := listEligible now req r in
  l = omap (eligible_at now req r) (backends r).*1 ∧ same_but_expired now r r'.
Proof. apply eligible_loop_spec. Qed.

(** A backend marked as rate-limited is offered again exactly from the end of
    its window on, and then only if it is registered, ready and capable. *)
Theorem rate_limit_window now t id d req r :
  id ∈ (listEligible now req (markRateLimited t id d r)).2.*1 ↔
  t + d ≤ now ∧ id ∈ (backends r).*1 ∧ isNotReady id r = false ∧
  ∃ caps, effectiveCaps r !! id = Some caps ∧ meets req caps = true.
Proof.
  pose proof (listEligible_spec now req (markRateLimited t id d r)) as H. destruct (listEligible _ _ _) as [r' l].
  destruct H as [-> _]. simpl. rewrite list_elem_of_fmap. unfold eligible_at, limited. split.
  - intros (e & He & (j & Hj & Hel)%list_elem_of_omap). simpl in Hel, Hj.
    assert (j = id) as ->.
    { destruct (_ || _); [done|]. destruct (effectiveCaps r !! j); [|done]. destruct (meets _ _); [|done]. injection Hel as <-. by subst. }
    rewrite lookup_insert_eq in Hel. destruct (Z.ltb_spec now (t + d)); simpl in Hel; [done|].
    change (isNotReady id (markRateLimited t id d r)) with (isNotReady id r) in Hel. destruct (isNotReady id r); [done|].
    destruct (effectiveCaps r !! id) as [caps|]; [|done]. destruct (meets req caps) eqn:E; [|done]. eauto 10.
  - intros (Ht & Hid & Hr & caps & Hc & Hm). exists (id, caps). split; [done|]. apply list_elem_of_omap. exists id. split; [done|].
    simpl. rewrite lookup_insert_eq. change (isNotReady id (markRateLimited t id d r)) with (isNotReady id r). rewrite Hr, Hc, Hm.
    destruct (Z.ltb_spec now (t + d)); [lia|done].
Qed.

(** A backend whose recovery is worth waiting for. *)
Definition recovers (req : option CapabilityRequirements) (r : ModelRouter) (id : string) : bool :=
  match effectiveCaps r !! id with Some caps => meets req caps | None => false end.
Definition least_expiry (req : option CapabilityRequirements) (r : ModelRouter) (acc : option Z) (m : gmap string Z) : Prop :=
  match acc with
  | Some t => (∃ id, m !! id = Some t ∧ recovers req r id = true) ∧
              ∀ id e, m !! id = Some e → recovers req r id = true → t ≤ e
  | None => ∀ id e, m !! id = Some e → recovers req r id = false
  end.
Lemma least_expiry_skip req r acc m id x : m !! id = None → recovers req r id = false →
  least_expiry req r acc m → least_expiry req r acc (<[id := x]> m).
Proof.
  intros Hid Hr. destruct acc as [t|]; simpl.
  - intros [(j & Hj & Hcj) Hmin]. split.
    + exists j. split; [|done]. rewrite lookup_insert_ne; [done|]. intros <-. congruence.
    + intros k e. rewrite lookup_insert_Some. intros [[<- <-]|[_ Hk]] Hc; [congruence|eauto].
  - intros IH k e. rewrite lookup_insert_Some. intros [[<- <-]|[_ Hk]]; eauto.
Qed.
Lemma least_expiry_take req r acc m id x : m !! id = None → recovers req r id = true → least_expiry req r acc m →
  least_expiry req r (match acc with Some e => Some (Z.min e x) | None => Some x end) (<[id := x]> m).
Proof.
  intros Hid Hr. destruct acc as [t|]; simpl.
  - intros [(j & Hj & Hcj) Hmin]. split.
    + destruct (Z.min_spec t x) as [[_ ->]|[_ ->]]; [|exists id; by rewrite lookup_insert_eq].
      exists j. split; [|done]. rewrite lookup_insert_ne; [done|]. intros <-. congruence.
    + intros k e. rewrite lookup_insert_Some. intros [[<- <-]|[_ Hk]] Hc; [lia|]. specialize (Hmin k e Hk Hc). lia.
  - intros IH. split; [exists id; by rewrite lookup_insert_eq|]. intros k e. rewrite lookup_insert_Some.
    intros [[<- <-]|[_ Hk]] Hc; [lia|]. rewrite (IH k e Hk) in Hc. done.
Qed.

(** The earliest recovery is the least expiry among the limits of the capable
    backends, and absent when no capable backend is limited. *)
Theorem earliest_recovery req r :
  match getEarliestCapableRecovery req r with
  | Some t => (∃ id, rateLimits r !! id = Some t ∧ recovers req r id = true) ∧
              ∀ id e, rateLimits r !! id = Some e → recovers req r id = true → t ≤ e
  | None => ∀ id e, rateLimits r !! id = Some e → recovers req r id = false
  end.
Proof.
  unfold getEarliestCapableRecovery. apply (map_fold_weak_ind (λ acc m, least_expiry req r acc m)); [done|].
  intros id x m acc Hid IH.
  pose proof (least_expiry_take req r acc m id x Hid) as Ht. pose proof (least_expiry_skip req r acc m id x Hid) as Hs.
  unfold recovers in Ht at 1, Hs at 1. destruct (effectiveCaps r !! id) as [caps|]; [|by apply Hs].
  destruct (meets req caps); [by apply Ht|by apply Hs].
Qed.

(** ** Construction *)
(** The ids of a configuration in the order of their first appearance. *)
Definition add_id (ids : list string) (id : string) : list string := if bool_decide (id ∈ ids) then ids else ids ++ [id].
Definition ids_of (cs : list BackendConfig) : list string := foldl add_id [] (cf_id <$> cs).
Lemma add_ids_elem l acc id : id ∈ foldl add_id acc l ↔ id ∈ acc ∨ id ∈ l.
Proof.
  revert acc. induction l as [|x l IH]; intros acc; simpl; [rewrite elem_of_nil; tauto|]. rewrite IH. unfold add_id.
  rewrite elem_of_cons. case_bool_decide; [|rewrite elem_of_app, list_elem_of_singleton]; naive_solver.
Qed.
Lemma add_ids_nodup l acc : NoDup acc → NoDup (foldl add_id acc l).
Proof.
  revert acc. induction l as [|x l IH]; intros acc Hacc; [done|]. simpl. apply IH. unfold add_id. case_bool_decide; [done|].
  apply NoDup_app. split_and!; [done| |apply NoDup_singleton]. by intros y Hy ->%list_elem_of_singleton.
Qed.

(** What an id that is registered has. *)
Definition registered (st : RouterState) : Prop :=
  NoDup (st_backends st).*1 ∧ ∀ id, id ∈ (st_backends st).*1 ↔ is_Some (st_caps st !! id).
Lemma add_group_spec config st e : registered st →
  (∀ id, is_Some (st_tiers st !! id) → id ∈ (st_backends st).*1) →
  let st' := add_group config st e in
  registered st' ∧ (∀ id, is_Some (st_tiers st' !! id) → id ∈ (st_backends st').*1) ∧
  (st_backends st').*1 = add_id (st_backends st).*1 e.1.
Proof.
  intros [Hnd Hcaps] Ht. destruct e as [id g]. unfold add_group. destruct (group_backend g) as [b caps].
  cbn [st_backends st_caps st_tiers fst]. unfold registered. cbn [st_backends st_caps].
  assert (∀ j, j ∈ (fields_set id b (st_backends st)).*1 ↔ j = id ∨ j ∈ (st_backends st).*1) as Hk.
  { intros j. rewrite fields_set_keys. case_bool_decide; [|rewrite elem_of_app, list_elem_of_singleton]; naive_solver. }
  split_and!.
  - by apply fields_set_nodup.
  - intros j. rewrite Hk. destruct (decide (j = id)) as [->|Hne].
    + rewrite lookup_insert_eq. naive_solver.
    + rewrite lookup_insert_ne by done. rewrite <-Hcaps. naive_solver.
  - intros j. rewrite Hk. destruct (decide (j = id)) as [->|Hne]; [by left|]. rewrite lookup_insert_ne by done. auto.
  - by rewrite fields_set_keys.
Qed.
Lemma add_groups_spec config gs st : registered st →
  (∀ id, is_Some (st_tiers st !! id) → id ∈ (st_backends st).*1) →
  let st' := foldl (add_group config) st gs in
  registered st' ∧ (∀ id, is_Some (st_tiers st' !! id) → id ∈ (st_backends st').*1) ∧
  (st_backends st').*1 = foldl add_id (st_backends st).*1 gs.*1.
Proof.
  revert st. induction gs as [|e gs IH]; intros st H1 H2; [by split_and!|]. csimpl.
  destruct (add_group_spec config st e H1 H2) as (H1' & H2' & Hk). destruct (IH _ H1' H2') as (H3 & H4 & H5).
  split_and!; [done|done|]. rewrite H5. by rewrite Hk.
Qed.
Lemma add_ids_idem l acc : NoDup l → (∀ x, x ∈ l → x ∉ acc) → foldl add_id acc l = acc ++ l.
Proof.
  intros Hnd. revert acc. induction Hnd as [|x l Hx Hnd IH]; intros acc Hacc; [by rewrite app_nil_r|]. simpl.
  unfold add_id at 2. rewrite bool_decide_false by (apply Hacc; left). rewrite IH; [by rewrite <-(assoc_L (++))|].
  intros y Hy. rewrite elem_of_app, list_elem_of_singleton. intros [H| ->]; [|done]. apply (Hacc y); [by right|done].
Qed.

(** The invariant of the registry. *)
Record router_ok (r : ModelRouter) : Prop := {
  ok_nodup : NoDup (backends r).*1;
  ok_caps : ∀ id, id ∈ (backends r).*1 ↔ is_Some (effectiveCaps r !! id);
  ok_tiers : ∀ id, is_Some (tiers r !! id) → id ∈ (backends r).*1;
  ok_ready : ∀ id, id ∈ notReady r → id ∈ (backends r).*1 }.
Lemma unready_keys bs id : id ∈ unready bs → id ∈ bs.*1.
Proof.
  unfold unready. rewrite elem_of_list_to_set. intros (e & -> & [Hin _]%filter_In_iff)%list_elem_of_fmap.
  apply list_elem_of_fmap. eauto.
Qed.
Section built.
Variable tokens_at : string → bool.
Definition valid (c : BackendConfig) : Prop := is_Ok (createBackendFromConfig tokens_at c).
Lemma collect_spec cs gs :
  match collect tokens_at cs gs with
  | Ok gs' => Forall valid cs ∧ gs'.*1 = foldl add_id gs.*1 (cf_id <$> cs)
  | Throw _ => ¬ Forall valid cs
  end.
Proof using.
  revert gs. induction cs as [|c cs IH]; intros gs; [by split|]. csimpl. cbn [collect result_bind].
  destruct (createBackendFromConfig tokens_at c) as [d|e] eqn:Ed; cbn [result_bind].
  - set (g := match fields_get (cf_id c) gs with Some _ => _ | None => _ end).
    specialize (IH (fields_set (cf_id c) g gs)). destruct (collect tokens_at cs _).
    + destruct IH as [Hv ->]. split; [constructor; [by exists d|done]|]. by rewrite fields_set_keys.
    + intros H. apply IH. by inversion H.
  - intros H. inversion H as [|? ? [? Hd] _]. congruence.
Qed.

Lemma build_spec config :
  match buildRouterState tokens_at config with
  | Ok st =>
      router_ok (new_router st) ∧ Forall valid (mb_backends config) ∧
      (st_backends st).*1 = ids_of (mb_backends config) ∧
      if bool_decide (mb_backends config = []) then st_defaultId st = ""
      else st_defaultId st = mb_default config ∧ mb_default config ∈ ids_of (mb_backends config)
  | Throw _ => ¬ Forall valid (mb_backends config) ∨
               (mb_backends config ≠ [] ∧ mb_default config ∉ ids_of (mb_backends config))
  end.
Proof using.
  unfold buildRouterState. pose proof (collect_spec (mb_backends config) []) as Hc.
  destruct (collect tokens_at (mb_backends config) []) as [gs|e]; cbn [result_bind]; [|by left].
  destruct Hc as [Hv Hgs].
  destruct (add_groups_spec config gs (MkState [] "" ∅ ∅ ∅)) as (Hr & Ht & Hk).
  { split; [constructor|]. intros id. cbn. rewrite lookup_empty. split; [intros []%elem_of_nil|by intros []]. }
  { intros id. cbn. rewrite lookup_empty. by intros []. }
  set (st := foldl (add_group config) _ gs) in *. cbn [st_backends fmap list_fmap] in Hk.
  rewrite add_ids_idem in Hk; [|rewrite Hgs; apply add_ids_nodup; constructor|intros ? _; apply not_elem_of_nil].
  simpl in Hk. fold (ids_of (mb_backends config)) in Hgs. rewrite Hgs in Hk.
  assert (router_ok (new_router st)) as Hok.
  { destruct Hr as [H1 H2]. split; [done|done|done|]. intros id. apply unready_keys. }
  assert (∀ m, fields_get m (st_backends st) = None ↔ m ∉ ids_of (mb_backends config)) as Hm.
  { intros m. by rewrite fields_get_none, Hk. }
  destruct (mb_backends config) as [|c cs] eqn:Ecs.
  - split_and!; [done|done|done|]. rewrite bool_decide_true by done. clear -Hgs. destruct gs; [done|discriminate].
  - destruct (fields_get (mb_default config) (st_backends st)) eqn:Ea.
    + split_and!; [by destruct Hok|done|done|]. rewrite bool_decide_false by done. split; [done|].
      destruct (decide (mb_default config ∈ ids_of (c :: cs))) as [|Hn]; [done|]. apply Hm in Hn. congruence.
    + right. split; [done|]. by apply Hm.
Qed.

(** A router is built exactly from a configuration whose backends are all
    valid and whose default is one of them; it then holds each id once, in the
    order of first appearance, with capabilities for exactly these ids, and the
    default is one of them.  The empty configuration gives an empty router with
    the empty default. *)
Theorem router_built config :
  match createModelRouter tokens_at config with
  | Ok r => router_ok r ∧ Forall valid (mb_backends config) ∧ (backends r).*1 = ids_of (mb_backends config) ∧
            rateLimits r = ∅ ∧
            if bool_decide (mb_backends config = []) then defaultId r = "" else defaultId r = mb_default config ∧ is_Ok (getDefault r)
  | Throw _ => ¬ Forall valid (mb_backends config) ∨
               (mb_backends config ≠ [] ∧ mb_default config ∉ ids_of (mb_backends config))
  end.
Proof using.
  unfold createModelRouter. pose proof (build_spec config) as H.
  destruct (buildRouterState tokens_at config) as [st|e]; cbn [result_bind]; [|done].
  destruct H as (Hok & Hv & Hk & Hd). split_and!; [done|done|done|done|]. cbn [new_router defaultId].
  case_bool_decide; [done|]. destruct Hd as [He Hd]. split; [done|]. unfold getDefault. cbn [new_router backends defaultId].
  destruct (fields_get _ _) as [b|] eqn:Ea; [by exists b|]. apply fields_get_none in Ea. rewrite Hk, He in Ea. by apply Ea in Hd.
Qed.

(** ** Reachable routers *)
Inductive router_op :=
| OpReload (config : ModelBackendsConfig)
| OpMark (now : Z) (id : string) (retryAfterMs : Z)
| OpEligible (now : Z) (req : option CapabilityRequirements)
| OpAdd (id : string) (b : LLMBackend) (caps : BackendCapabilities) (tier maxOutputTokens : option Z)
| OpRemove (id : string)
| OpReady (id : string)
| OpRedirect (fromId toId : string).
Definition router_step (r : ModelRouter) (op : router_op) : ModelRouter :=
  match op with
  | OpReload config => (reload tokens_at config r).1
  | OpMark now id d => markRateLimited now id d r
  | OpEligible now req => (listEligible now req r).1
  | OpAdd id b caps tier m => addDynamicBackend id b caps tier m r
  | OpRemove id => removeBackend id r
  | OpReady id => clearNotReady id r
  | OpRedirect a b => redirectDefault a b r
  end.
Lemma router_step_ok r op : router_ok r → router_ok (router_step r op).
Proof using.
  intros [Hnd Hc Ht Hr]. destruct op as [config|now id d|now req|id b caps tier m|id|id|a b]; simpl.
  - unfold reload. pose proof (build_spec config) as H. destruct (buildRouterState tokens_at config); [apply H|done].
  - done.
  - pose proof (listEligible_spec now req r) as H. destruct (listEligible now req r) as [r' l]. destruct H as [_ [-> _]]. done.
  - assert (∀ j, j ∈ (fields_set id b (backends r)).*1 ↔ j = id ∨ j ∈ (backends r).*1) as Hk.
    { intros j. rewrite fields_set_keys. case_bool_decide; [|rewrite elem_of_app, list_elem_of_singleton]; naive_solver. }
    split; unfold addDynamicBackend; cbn [backends effectiveCaps tiers notReady].
    + by apply fields_set_nodup.
    + intros j. rewrite Hk. destruct (decide (j = id)) as [->|Hne]; [rewrite lookup_insert_eq; naive_solver|].
      rewrite lookup_insert_ne by done. rewrite <-Hc. naive_solver.
    + intros j. rewrite Hk. destruct tier as [t|]; [|auto]. destruct (decide (j = id)) as [->|Hne]; [auto|].
      rewrite lookup_insert_ne by done. auto.
    + intros j. rewrite Hk. set_solver.
  - split; unfold removeBackend; cbn [backends effectiveCaps tiers notReady].
    + unfold fields_remove. by apply NoDup_fmap_filter.
    + intros j. rewrite keys_after_remove. destruct (decide (j = id)) as [->|Hne].
      * rewrite lookup_delete_eq. split; [naive_solver|by intros []].
      * rewrite lookup_delete_ne by done. rewrite <-Hc. naive_solver.
    + intros j. rewrite keys_after_remove. destruct (decide (j = id)) as [->|Hne]; [rewrite lookup_delete_eq; by intros []|].
      rewrite lookup_delete_ne by done. auto.
    + intros j. rewrite keys_after_remove. set_solver.
  - split; [done|done|done|]. cbn. set_solver.
  - done.
Qed.
(** Whatever is done to a router after its construction, it holds each id
    once, has effective capabilities for exactly the registered ids, and tiers
    and readiness flags only for registered ids, so that every listed backend
    is listed with its effective capabilities. *)
Theorem router_reachable_ok config r ops :
  createModelRouter tokens_at config = Ok r →
  let r' := foldl router_step r ops in
  router_ok r' ∧ ∀ id caps, (id, caps) ∈ listBackends r' → effectiveCaps r' !! id = Some caps ∧ isNotReady id r' = false.
Proof using.
  intros Hr. assert (router_ok r) as Hok.
  { unfold createModelRouter in Hr. pose proof (build_spec config) as H.
    destruct (buildRouterState tokens_at config); [|done]. injection Hr as <-. apply H. }
  cbv zeta. assert (router_ok (foldl router_step r ops)) as Hok'.
  { clear Hr. revert r Hok. induction ops as [|op ops IH]; intros r Hok; [done|]. simpl. apply IH. by apply router_step_ok. }
  split; [done|]. intros id caps. unfold listBackends. rewrite list_elem_of_fmap.
  intros (e & [= -> ->] & [Hin Hn]%filter_In_iff). apply negb_true_iff in Hn. split; [|done].
  assert (e.1 ∈ (backends (foldl router_step r ops)).*1) as Hk by (apply list_elem_of_fmap; eauto).
  apply (ok_caps _ Hok') in Hk as [c ->]. done.
Qed.
End built.

(** ** Concrete configurations *)
Definition zai (id : string) (tier : Z) (o : caps_override) : BackendConfig :=
  MkConfig id "zai" "glm" None None (Some "key") None None (Some o) (Some tier) None ThinkAbsent None None None None None.
Definition no_vision : caps_override := MkOverride None None None None (Some false) None None.
Definition pooled_config : ModelBackendsConfig := MkBackends [zai "glm" 2 no_vision; zai "glm" 1 no_vision; zai "lone" 3 no_vision] "glm".
Definition built (config : ModelBackendsConfig) : ModelRouter :=
  match createModelRouter (λ _, false) config with Ok r => r | Throw _ => MkRouter [] "" ∅ ∅ ∅ ∅ ∅ end.

(** The overrides of the configuration are lost as soon as two backends share an
    id: both say they have no vision, and the pool says it has. *)
Example pooled_override_lost :
  (bc_vision <$> getEffectiveCapabilities "glm" (built pooled_config)) = Some true ∧
  (bc_vision <$> getEffectiveCapabilities "lone" (built pooled_config)) = Some false ∧
  getBackendTier "glm" (built pooled_config) = Some 1.
Proof. vm_compute. done. Qed.

(** The output cap of a removed backend outlives it. *)
Example removed_cap_survives :
  let b := MkBackend PoolProps.plain_caps None in
  let r := removeBackend "m" (addDynamicBackend "m" b PoolProps.plain_caps None (Some 4096) (built pooled_config)) in
  tryGetBackend "m" r = None ∧ getMaxOutputTokens "m" (addDynamicBackend "m" b PoolProps.plain_caps None None r) = Some 4096.
Proof. vm_compute. done. Qed.

Lemma router_reachable_ok_witness :
  let r' := foldl (router_step (λ _, false)) (built pooled_config) [OpMark 0 "glm" 60000; OpEligible 5 None; OpRemove "lone"] in
  router_ok r' ∧ ∀ id caps, (id, caps) ∈ listBackends r' → effectiveCaps r' !! id = Some caps ∧ isNotReady id r' = false.
Proof.
  apply (router_reachable_ok (λ _, false) pooled_config (built pooled_config)). vm_compute. reflexivity.
Defined.
End RouterProps.
