(* ===== verification/DurableWork.v ===== *)
(** * Durable work rows (packages/core/src/durable-work.ts)

    The [durable_work] table and every operation on it: insert behind the
    [(kind, idempotency_key)] fence, the token-fenced claim / release / consume
    of the local consumer, the begin / rollback / acknowledge / sweep of the
    spool transfer, dead-lettering, redrive, reclassification, pruning and
    purge.  [dw_exec] collects the operations into one transition function;
    [dw_wf] is the invariant they keep and [row_step] the per-row life cycle
    they implement.  ISO timestamps are instants in milliseconds: the strings
    [toISOString] returns compare as the instants do.  [randomUUID()] and
    [new Date()] are arguments. *)
From S2P Require Import Prelude Sql Json.

(** ** Data *)
Definition LOCAL_WORK_TARGET : string := "local".

Inductive DurableWorkClaimState : Type :=
| Pending | Processing | Transferring | Consumed | DeadLetter.

#[export] Instance claim_state_eq_dec : EqDecision DurableWorkClaimState.
Proof. solve_decision. Defined.

Definition cs_eqb (a b : DurableWorkClaimState) : bool := bool_decide (a = b).

Record DurableWorkRow : Type := MkDurableWork {
  dw_id : string;
  dw_target_site_id : string;
  dw_kind : string;
  dw_payload : string;
  dw_idempotency_key : string;
  dw_claim_state : DurableWorkClaimState;
  dw_claim_token : option string;
  dw_claimed_at : option Z;
  dw_attempt_count : Z;
  dw_last_error : option string;
  dw_created_at : Z;
  dw_expires_at : option Z;
  dw_dead_lettered_at : option Z;
  dw_consumed_at : option Z;
  dw_ref_id : option string;
  dw_source_site : option string;
  dw_received_at : option Z;
  dw_stream_id : option string;
  dw_trace_context : option string;
  dw_reclassify_count : Z
}.

Record NewDurableWork : Type := MkNewWork {
  nw_id : string;
  nw_target_site_id : string;
  nw_kind : string;
  nw_payload : string;
  nw_idempotency_key : string;
  nw_expires_at : option Z;
  nw_ref_id : option string;
  nw_source_site : option string;
  nw_received_at : option Z;
  nw_stream_id : option string;
  nw_trace_context : option string
}.

Definition dw_table : Type := list DurableWorkRow.

(** ** Column assignments of the UPDATE statements *)
Definition set_claim (s : DurableWorkClaimState) (tok : option string) (at_ : option Z)
    (r : DurableWorkRow) : DurableWorkRow :=
  MkDurableWork (dw_id r) (dw_target_site_id r) (dw_kind r) (dw_payload r) (dw_idempotency_key r)
    s tok at_ (dw_attempt_count r) (dw_last_error r) (dw_created_at r) (dw_expires_at r)
    (dw_dead_lettered_at r) (dw_consumed_at r) (dw_ref_id r) (dw_source_site r)
    (dw_received_at r) (dw_stream_id r) (dw_trace_context r) (dw_reclassify_count r).

Definition set_attempts (n : Z) (r : DurableWorkRow) : DurableWorkRow :=
  MkDurableWork (dw_id r) (dw_target_site_id r) (dw_kind r) (dw_payload r) (dw_idempotency_key r)
    (dw_claim_state r) (dw_claim_token r) (dw_claimed_at r) n (dw_last_error r) (dw_created_at r)
    (dw_expires_at r) (dw_dead_lettered_at r) (dw_consumed_at r) (dw_ref_id r) (dw_source_site r)
    (dw_received_at r) (dw_stream_id r) (dw_trace_context r) (dw_reclassify_count r).

Definition set_failure (err : option string) (dead : option Z) (r : DurableWorkRow) : DurableWorkRow :=
  MkDurableWork (dw_id r) (dw_target_site_id r) (dw_kind r) (dw_payload r) (dw_idempotency_key r)
    (dw_claim_state r) (dw_claim_token r) (dw_claimed_at r) (dw_attempt_count r) err
    (dw_created_at r) (dw_expires_at r) dead (dw_consumed_at r) (dw_ref_id r) (dw_source_site r)
    (dw_received_at r) (dw_stream_id r) (dw_trace_context r) (dw_reclassify_count r).

Definition set_expires (e : option Z) (r : DurableWorkRow) : DurableWorkRow :=
  MkDurableWork (dw_id r) (dw_target_site_id r) (dw_kind r) (dw_payload r) (dw_idempotency_key r)
    (dw_claim_state r) (dw_claim_token r) (dw_claimed_at r) (dw_attempt_count r) (dw_last_error r)
    (dw_created_at r) e (dw_dead_lettered_at r) (dw_consumed_at r) (dw_ref_id r)
    (dw_source_site r) (dw_received_at r) (dw_stream_id r) (dw_trace_context r)
    (dw_reclassify_count r).

Definition set_consumed (at_ : option Z) (r : DurableWorkRow) : DurableWorkRow :=
  MkDurableWork (dw_id r) (dw_target_site_id r) (dw_kind r) (dw_payload r) (dw_idempotency_key r)
    (dw_claim_state r) (dw_claim_token r) (dw_claimed_at r) (dw_attempt_count r) (dw_last_error r)
    (dw_created_at r) (dw_expires_at r) (dw_dead_lettered_at r) at_ (dw_ref_id r)
    (dw_source_site r) (dw_received_at r) (dw_stream_id r) (dw_trace_context r)
    (dw_reclassify_count r).

Definition set_reclassified (n : Z) (r : DurableWorkRow) : DurableWorkRow :=
  MkDurableWork (dw_id r) (dw_target_site_id r) (dw_kind r) (dw_payload r) (dw_idempotency_key r)
    (dw_claim_state r) (dw_claim_token r) (dw_claimed_at r) (dw_attempt_count r) (dw_last_error r)
    (dw_created_at r) (dw_expires_at r) (dw_dead_lettered_at r) (dw_consumed_at r) (dw_ref_id r)
    (dw_source_site r) (dw_received_at r) (dw_stream_id r) (dw_trace_context r) n.

(** ** Predicates of the WHERE clauses *)
Definition in_state (s : DurableWorkClaimState) (r : DurableWorkRow) : bool :=
  cs_eqb (dw_claim_state r) s.
Definition has_id (i : string) (r : DurableWorkRow) : bool := seqb (dw_id r) i.
Definition targets (site : string) (r : DurableWorkRow) : bool := seqb (dw_target_site_id r) site.
Definition of_kind (k : string) (r : DurableWorkRow) : bool := seqb (dw_kind r) k.
(** [claim_token = ?]: a NULL token compares as NULL, which is not true. *)
Definition holds_token (tok : string) (r : DurableWorkRow) : bool :=
  match dw_claim_token r with Some t => seqb t tok | None => false end.
Definition opt_le (o : option Z) (t : Z) : bool := match o with Some v => v <=? t | None => false end.
Definition null_or_gt (o : option Z) (t : Z) : bool := match o with Some v => t <? v | None => true end.

(** ** validateDurableWork, insertDurableWork *)
Definition validateDurableWork (w : NewDurableWork) : result unit :=
  if negb (nonempty (nw_id w)) || negb (nonempty (nw_target_site_id w)) ||
     negb (nonempty (nw_kind w)) || negb (nonempty (nw_idempotency_key w))
  then Throw "durable work requires id, target_site_id, kind, and idempotency_key"
  else if negb (nonempty (nw_payload w))
  then Throw "durable work payload must be a non-empty JSON string"
  else match json_parse (nw_payload w) with
       | None => Throw "durable work payload must be valid JSON"
       | Some _ => Ok tt
       end.

(** The inserted row: the columns the statement names, the others at their
    schema defaults. *)
Definition new_row (now : Z) (w : NewDurableWork) : DurableWorkRow :=
  MkDurableWork (nw_id w) (nw_target_site_id w) (nw_kind w) (nw_payload w) (nw_idempotency_key w)
    Pending None None 0 None now (nw_expires_at w) None None (nw_ref_id w) (nw_source_site w)
    (nw_received_at w) (nw_stream_id w) (nw_trace_context w) 0.

(** The UNIQUE constraints: the primary key and [(kind, idempotency_key)]. *)
Definition dw_clash (old new : DurableWorkRow) : bool :=
  seqb (dw_id old) (dw_id new) ||
  (seqb (dw_kind old) (dw_kind new) && seqb (dw_idempotency_key old) (dw_idempotency_key new)).

Record written_event : Type := Written { ev_id : string; ev_target : string }.

(** The result is the table, [inserted], and the events put on the bus. *)
Definition insertDurableWork (bus inTransaction : bool) (now : Z) (w : NewDurableWork)
    (t : dw_table) : result (dw_table * bool * list written_event) :=
  let! _ := validateDurableWork w in
  let '(t', changes) := insert_or_ignore dw_clash (new_row now w) t in
  let inserted := (changes =? 1)%nat in
  Ok (t', inserted,
      if inserted && negb inTransaction && bus
      then [Written (nw_id w) (nw_target_site_id w)] else []).

Definition emitDurableWorkWritten (bus : bool) (rows : list (string * string)) : list written_event :=
  if negb bus || (length rows =? 0)%nat then []
  else (λ r, Written r.1 r.2) <$> rows.

(** ** Claims *)
Definition claim_set (token : string) (now : Z) (r : DurableWorkRow) : DurableWorkRow :=
  set_attempts (dw_attempt_count r + 1) (set_claim Processing (Some token) (Some now) r).

(** [UPDATE ... WHERE id = ? AND claim_state = 'pending']. *)
Definition claim_row (token : string) (now : Z) (i : string) (t : dw_table) : dw_table :=
  sql_update (λ r, has_id i r && in_state Pending r) (claim_set token now) t.

Definition claimLocalDurableWork (token : string) (now : Z) (targetSiteId : string)
    (kind : option string) (t : dw_table) : dw_table * option DurableWorkRow :=
  let candidates :=
    if truthy kind
    then sql_select (λ r, targets targetSiteId r && of_kind (default "" kind) r && in_state Pending r) t
    else sql_select (λ r, targets targetSiteId r && in_state Pending r) t in
  match head (order_by dw_created_at candidates) with
  | None => (t, None)
  | Some row => (claim_row token now (dw_id row) t, Some (claim_set token now row))
  end.

(** The loop over the selected rows; [uuid k] is the k-th call of [randomUUID]. *)
Fixpoint claim_each (uuid : nat → string) (now : Z) (rows : list DurableWorkRow) (t : dw_table)
    : dw_table * list DurableWorkRow :=
  match rows with
  | [] => (t, [])
  | row :: rows' =>
      let '(t', claimed) := claim_each (λ n, uuid (S n)) now rows' (claim_row (uuid 0%nat) now (dw_id row) t) in
      (t', claim_set (uuid 0%nat) now row :: claimed)
  end.

Definition id_in (ids : list string) (r : DurableWorkRow) : bool := existsb (seqb (dw_id r)) ids.

Definition claimDurableWorkByIds (uuid : nat → string) (now : Z) (ids : list string)
    (targetSiteId : string) (t : dw_table) : dw_table * list DurableWorkRow :=
  if (length ids =? 0)%nat then (t, [])
  else
    let pending := sql_select (λ r, targets targetSiteId r && in_state Pending r && id_in ids r) t in
    claim_each uuid now pending t.

(** ** Consumption *)
Definition consume_set (now : Z) (r : DurableWorkRow) : DurableWorkRow :=
  set_consumed (Some now) (set_claim Consumed None None r).
Definition owned_by (st : DurableWorkClaimState) (i tok : string) (r : DurableWorkRow) : bool :=
  has_id i r && (in_state st r && holds_token tok r).

Definition acknowledgeDurableWork (now : Z) (i claimToken : string) (t : dw_table) : dw_table * bool :=
  let '(t', changes) := run_update (owned_by Processing i claimToken) (consume_set now) t in
  (t', (changes =? 1)%nat).

Definition release_set (r : DurableWorkRow) : DurableWorkRow :=
  set_attempts (Z.max (dw_attempt_count r - 1) 0) (set_claim Pending None None r).
Definition releaseDurableWorkClaim (i claimToken : string) (t : dw_table) : dw_table * bool :=
  let '(t', changes) := run_update (owned_by Processing i claimToken) release_set t in
  (t', (changes =? 1)%nat).

(** The claim phase of [claimAndConsumeDurableWorkByIds]. *)
Fixpoint claim_tokens (uuid : nat → string) (now : Z) (rows : list DurableWorkRow)
    (t : dw_table) (tokenById : gmap string string) : dw_table * gmap string string :=
  match rows with
  | [] => (t, tokenById)
  | row :: rows' =>
      claim_tokens (λ n, uuid (S n)) now rows' (claim_row (uuid 0%nat) now (dw_id row) t)
        (<[dw_id row := uuid 0%nat]> tokenById)
  end.

(** The consume phase: [None] is [allConsumed = false], which breaks the loop. *)
Fixpoint consume_all (now : Z) (ids : list string) (tokenById : gmap string string) (t : dw_table)
    : option dw_table :=
  match ids with
  | [] => Some t
  | i :: ids' =>
      match tokenById !! i with
      | Some token =>
          if nonempty token then
            let '(t', acked) := acknowledgeDurableWork now i token t in
            if acked then consume_all now ids' tokenById t' else None
          else None
      | None => None
      end
  end.

Definition claimAndConsumeDurableWorkByIds (uuid : nat → string) (now consumedAt : Z)
    (allIds : list string) (targetSiteId : string) (preClaimed : gmap string string)
    (t : dw_table) : dw_table * bool :=
  if (length allIds =? 0)%nat then (t, false)
  else
    let pendingIds := List.filter (λ i, negb (bool_decide (is_Some (preClaimed !! i)))) allIds in
    let '(t', tokenById) :=
      if (0 <? length pendingIds)%nat then
        let pending :=
          sql_select (λ r, targets targetSiteId r && in_state Pending r && id_in pendingIds r) t in
        claim_tokens uuid now pending t preClaimed
      else (t, preClaimed) in
    match consume_all consumedAt allIds tokenById t' with
    | Some t'' => (t'', true)     (* COMMIT *)
    | None => (t, false)          (* ROLLBACK *)
    end.

(** ** Spool transfer, sender side *)
Definition DURABLE_WORK_TRANSFER_STALE_MS : Z := 30000.
Definition DURABLE_WORK_MAX_ATTEMPTS : Z := 3.
Definition TRANSFER_EXHAUSTED_LAST_ERROR : string :=
  "transfer retries exhausted (no SPOOL_TRANSFER_ACK)".
Definition TRANSFER_EXHAUSTED_RECLASSIFY_BUDGET : Z := 3.
Definition DEAD_LETTER_RETENTION_MS : Z := 7 * 24 * 60 * 60 * 1000.
Definition PURGE_UNCLAIMED_FLOOR_MS : Z := 60 * 60 * 1000.

Definition repend_set (r : DurableWorkRow) : DurableWorkRow := set_claim Pending None None r.
Definition repend_charged (r : DurableWorkRow) : DurableWorkRow :=
  set_attempts (dw_attempt_count r + 1) (repend_set r).

Definition beginDurableWorkTransfer (token : string) (now : Z) (i : string) (t : dw_table)
    : dw_table * option string :=
  let '(t', changes) :=
    run_update (λ r, has_id i r && in_state Pending r)
      (set_claim Transferring (Some token) (Some now)) t in
  (t', if (changes =? 1)%nat then Some token else None).

Definition rollbackUnsentDurableWorkTransfer (i token : string) (t : dw_table) : dw_table * bool :=
  let '(t', changes) := run_update (owned_by Transferring i token) repend_set t in
  (t', (changes =? 1)%nat).

Definition acknowledgeDurableWorkTransfer (i transferToken : string) (t : dw_table) : dw_table * bool :=
  let '(t', changes) := run_delete (owned_by Transferring i transferToken) t in
  (t', (changes =? 1)%nat).

Definition resetProcessingDurableWork (targetSiteId : string) (t : dw_table) : dw_table * nat :=
  run_update (λ r, targets targetSiteId r && in_state Processing r) repend_set t.

Definition resetTransferringLocalDurableWork (t : dw_table) : dw_table * nat :=
  run_update (λ r, targets LOCAL_WORK_TARGET r && in_state Transferring r) repend_set t.

(** ** Dead letters *)
Definition dead_set (now : Z) (lastError : option string) (preserveExistingError : bool)
    (r : DurableWorkRow) : DurableWorkRow :=
  let err := if preserveExistingError
             then Some (default "expired" (dw_last_error r)) else lastError in
  set_expires (Some (now + DEAD_LETTER_RETENTION_MS))
    (set_failure err (Some now) (set_claim DeadLetter None None r)).

Definition deadLetterDurableWorkRows (now : Z) (lastError : option string)
    (where_ : DurableWorkRow → bool) (preserveExistingError : bool) (t : dw_table) : dw_table * nat :=
  run_update where_ (dead_set now lastError preserveExistingError) t.

Definition transfer_stale (staleBefore now : Z) (r : DurableWorkRow) : bool :=
  in_state Transferring r && opt_le (dw_claimed_at r) staleBefore && null_or_gt (dw_expires_at r) now.

Definition sweepStaleTransferringDurableWork (maxAttempts now : Z) (t : dw_table) : dw_table * nat :=
  let staleBefore := now - DURABLE_WORK_TRANSFER_STALE_MS in
  let '(t1, deadLettered) :=
    deadLetterDurableWorkRows now (Some TRANSFER_EXHAUSTED_LAST_ERROR)
      (λ r, transfer_stale staleBefore now r && (maxAttempts <=? dw_attempt_count r)) false t in
  let '(t2, rePended) :=
    run_update (λ r, transfer_stale staleBefore now r && (dw_attempt_count r <? maxAttempts))
      repend_charged t1 in
  (t2, (deadLettered + rePended)%nat).

Definition deadLetterExpiredDurableWork (now : Z) (t : dw_table) : dw_table * nat :=
  deadLetterDurableWorkRows now None
    (λ r, negb (in_state DeadLetter r) && opt_le (dw_expires_at r) now) true t.

Definition deadLetterDurableWork (i error : string) (now : Z) (t : dw_table) : dw_table * bool :=
  let '(t', changes) := deadLetterDurableWorkRows now (Some error)
    (λ r, has_id i r && negb (in_state DeadLetter r)) false t in
  (t', (changes =? 1)%nat).

Definition deadLetterClaimedDurableWork (i claimToken error : string) (now : Z) (t : dw_table)
    : dw_table * bool :=
  let '(t', changes) :=
    deadLetterDurableWorkRows now (Some error) (owned_by Processing i claimToken) false t in
  (t', (changes =? 1)%nat).

Definition deadLetterPendingDurableWork (i error : string) (now : Z) (t : dw_table) : dw_table * bool :=
  let '(t', changes) := deadLetterDurableWorkRows now (Some error)
    (λ r, has_id i r && in_state Pending r) false t in
  (t', (changes =? 1)%nat).

Definition redriveTransferringDurableWork (i : string) (maxAttempts now : Z) (t : dw_table)
    : dw_table * bool :=
  let '(t1, dead) := deadLetterDurableWorkRows now (Some TRANSFER_EXHAUSTED_LAST_ERROR)
    (λ r, has_id i r && (in_state Transferring r && (maxAttempts <=? dw_attempt_count r))) false t in
  if (dead =? 1)%nat then (t1, true)
  else
    let '(t2, changes) :=
      run_update (λ r, has_id i r && (in_state Transferring r && (dw_attempt_count r <? maxAttempts)))
        repend_charged t1 in
    (t2, (changes =? 1)%nat).

Definition reclassify_set (r : DurableWorkRow) : DurableWorkRow :=
  set_reclassified (dw_reclassify_count r + 1)
    (set_attempts 0 (set_failure None None (repend_set r))).

Definition reclassifiable (peerSiteId : string) (horizon : Z) (r : DurableWorkRow) : bool :=
  in_state DeadLetter r &&
  match dw_last_error r with Some e => seqb e TRANSFER_EXHAUSTED_LAST_ERROR | None => false end &&
  targets peerSiteId r &&
  match dw_dead_lettered_at r with Some d => horizon <=? d | None => false end &&
  (dw_reclassify_count r <? TRANSFER_EXHAUSTED_RECLASSIFY_BUDGET).

Definition reclassifyTransferExhaustedDeadLetters (peerSiteId : string) (recentWindowMs now : Z)
    (t : dw_table) : dw_table * nat :=
  run_update (reclassifiable peerSiteId (now - recentWindowMs)) reclassify_set t.

Definition redriveDeadLetterDurableWork (i : string) (expiresAt : option Z) (t : dw_table)
    : dw_table * bool :=
  let '(t', changes) :=
    run_update (λ r, has_id i r && in_state DeadLetter r)
      (λ r, set_expires expiresAt (set_failure (dw_last_error r) None (repend_set r))) t in
  (t', (changes =? 1)%nat).

(** ** Retirement *)
Definition opt_lt (o : option Z) (t : Z) : bool := match o with Some v => v <? t | None => false end.

Definition pruneConsumedDurableWork (cutoff : Z) (t : dw_table) : dw_table * nat :=
  run_delete (λ r, in_state Consumed r && opt_lt (dw_consumed_at r) cutoff) t.

Definition consumePendingDispatchByIdempotencyKey (idempotencyKey : string) (now : Z) (t : dw_table)
    : dw_table * nat :=
  run_update (λ r, targets LOCAL_WORK_TARGET r && of_kind "dispatch_message" r &&
                   seqb (dw_idempotency_key r) idempotencyKey && in_state Pending r)
    (consume_set now) t.

Definition pruneExpiredDeadLetters (now : Z) (t : dw_table) : dw_table * nat :=
  run_delete (λ r, in_state DeadLetter r && opt_le (dw_expires_at r) now) t.

Inductive PurgeSelector : Type :=
| PurgeDeadLettered (kind : option string) (olderThanMs : option Z)
| PurgeAllUnclaimed (kind : option string) (olderThanMs : option Z) (force : bool).

(** [kind = ?] when one is given, and [created_at <= now - ms] when an age is. *)
Definition kind_clause (kind : option string) (r : DurableWorkRow) : bool :=
  if truthy kind then of_kind (default "" kind) r else true.
Definition age_clause (ms : option Z) (now : Z) (r : DurableWorkRow) : bool :=
  match ms with Some m => dw_created_at r <=? now - m | None => true end.

Definition pendingFloorMs (olderThanMs : option Z) (force : bool) : option Z :=
  if force then olderThanMs
  else Some (Z.max (default PURGE_UNCLAIMED_FLOOR_MS olderThanMs) PURGE_UNCLAIMED_FLOOR_MS).

Definition purge_where (selector : PurgeSelector) (now : Z) (r : DurableWorkRow) : bool :=
  match selector with
  | PurgeDeadLettered kind older =>
      kind_clause kind r && (in_state DeadLetter r && age_clause older now r)
  | PurgeAllUnclaimed kind older force =>
      let pendingBranch :=
        in_state Pending r && ((force || targets LOCAL_WORK_TARGET r) &&
          age_clause (pendingFloorMs older force) now r) in
      let deadLetterBranch := in_state DeadLetter r && age_clause older now r in
      kind_clause kind r && (pendingBranch || deadLetterBranch)
  end.

Definition purgeDurableWork (selector : PurgeSelector) (now : Z) (t : dw_table) : dw_table * nat :=
  run_delete (purge_where selector now) t.

(** ** Selectors of the spool drain *)
Definition readPendingPeerTargetedDurableWork (ownSiteId : string) (targetSiteId : option string)
    (t : dw_table) : list DurableWorkRow :=
  let peer r := negb (targets ownSiteId r) && negb (targets LOCAL_WORK_TARGET r) in
  order_by dw_created_at
    (if truthy targetSiteId
     then sql_select (λ r, in_state Pending r && targets (default "" targetSiteId) r && peer r) t
     else sql_select (λ r, in_state Pending r && peer r) t).

Definition readTransferringDurableWork (targetSiteId : option string) (t : dw_table)
    : list DurableWorkRow :=
  order_by dw_created_at
    (if truthy targetSiteId
     then sql_select (λ r, in_state Transferring r && targets (default "" targetSiteId) r &&
                           negb (targets LOCAL_WORK_TARGET r)) t
     else sql_select (λ r, in_state Transferring r && negb (targets LOCAL_WORK_TARGET r)) t).

(** ** All operations as one transition function *)
Inductive dw_op : Type :=
| OpInsert (bus inTransaction : bool) (now : Z) (w : NewDurableWork)
| OpClaimLocal (token : string) (now : Z) (target : string) (kind : option string)
| OpClaimByIds (uuid : nat → string) (now : Z) (ids : list string) (target : string)
| OpClaimAndConsume (uuid : nat → string) (now consumedAt : Z) (ids : list string) (target : string)
    (preClaimed : gmap string string)
| OpAcknowledge (now : Z) (i token : string)
| OpRelease (i token : string)
| OpBeginTransfer (token : string) (now : Z) (i : string)
| OpRollbackUnsent (i token : string)
| OpAckTransfer (i token : string)
| OpResetProcessing (target : string)
| OpResetTransferringLocal
| OpSweepStale (maxAttempts now : Z)
| OpDeadLetterExpired (now : Z)
| OpDeadLetter (i error : string) (now : Z)
| OpDeadLetterClaimed (i token error : string) (now : Z)
| OpDeadLetterPending (i error : string) (now : Z)
| OpRedriveTransferring (i : string) (maxAttempts now : Z)
| OpReclassify (peer : string) (recentWindowMs now : Z)
| OpPruneConsumed (cutoff : Z)
| OpConsumePendingDispatch (key : string) (now : Z)
| OpPruneDeadLetters (now : Z)
| OpPurge (selector : PurgeSelector) (now : Z)
| OpRedriveDeadLetter (i : string) (expiresAt : option Z).

Definition dw_exec (op : dw_op) (t : dw_table) : dw_table :=
  match op with
  | OpInsert bus tx now w =>
      match insertDurableWork bus tx now w t with Ok (t', _, _) => t' | Throw _ => t end
  | OpClaimLocal token now target kind => (claimLocalDurableWork token now target kind t).1
  | OpClaimByIds uuid now ids target => (claimDurableWorkByIds uuid now ids target t).1
  | OpClaimAndConsume uuid now cat ids target pre =>
      (claimAndConsumeDurableWorkByIds uuid now cat ids target pre t).1
  | OpAcknowledge now i token => (acknowledgeDurableWork now i token t).1
  | OpRelease i token => (releaseDurableWorkClaim i token t).1
  | OpBeginTransfer token now i => (beginDurableWorkTransfer token now i t).1
  | OpRollbackUnsent i token => (rollbackUnsentDurableWorkTransfer i token t).1
  | OpAckTransfer i token => (acknowledgeDurableWorkTransfer i token t).1
  | OpResetProcessing target => (resetProcessingDurableWork target t).1
  | OpResetTransferringLocal => (resetTransferringLocalDurableWork t).1
  | OpSweepStale m now => (sweepStaleTransferringDurableWork m now t).1
  | OpDeadLetterExpired now => (deadLetterExpiredDurableWork now t).1
  | OpDeadLetter i e now => (deadLetterDurableWork i e now t).1
  | OpDeadLetterClaimed i tok e now => (deadLetterClaimedDurableWork i tok e now t).1
  | OpDeadLetterPending i e now => (deadLetterPendingDurableWork i e now t).1
  | OpRedriveTransferring i m now => (redriveTransferringDurableWork i m now t).1
  | OpReclassify peer w now => (reclassifyTransferExhaustedDeadLetters peer w now t).1
  | OpPruneConsumed cutoff => (pruneConsumedDurableWork cutoff t).1
  | OpConsumePendingDispatch key now => (consumePendingDispatchByIdempotencyKey key now t).1
  | OpPruneDeadLetters now => (pruneExpiredDeadLetters now t).1
  | OpPurge sel now => (purgeDurableWork sel now t).1
  | OpRedriveDeadLetter i e => (redriveDeadLetterDurableWork i e t).1
  end.

Definition dw_run (ops : list dw_op) (t : dw_table) : dw_table := foldl (λ t op, dw_exec op t) t ops.

(** ** The life cycle of a row

    The contract the operations implement, stated on the columns alone: which
    claim states follow which, who holds a token, what an attempt and a
    reclassification are charged, and which rows may be physically removed. *)
Definition same_work (r r' : DurableWorkRow) : Prop :=
  dw_id r' = dw_id r ∧ dw_target_site_id r' = dw_target_site_id r ∧ dw_kind r' = dw_kind r ∧
  dw_payload r' = dw_payload r ∧ dw_idempotency_key r' = dw_idempotency_key r ∧
  dw_created_at r' = dw_created_at r ∧ dw_ref_id r' = dw_ref_id r ∧ dw_source_site r' = dw_source_site r ∧
  dw_stream_id r' = dw_stream_id r ∧ dw_received_at r' = dw_received_at r ∧ dw_trace_context r' = dw_trace_context r.

(** The outcome columns. *)
Definition outcome (r : DurableWorkRow) :=
  (dw_last_error r, dw_dead_lettered_at r, dw_consumed_at r, dw_expires_at r, dw_reclassify_count r).
Definition unowned (r : DurableWorkRow) : Prop := dw_claim_token r = None ∧ dw_claimed_at r = None.
Definition owned (r : DurableWorkRow) : Prop := is_Some (dw_claim_token r) ∧ is_Some (dw_claimed_at r).

Inductive life (r r' : DurableWorkRow) : Prop :=
| L_claim :
    dw_claim_state r = Pending → dw_claim_state r' = Processing → owned r' →
    dw_attempt_count r' = dw_attempt_count r + 1 → outcome r' = outcome r → life r r'
| L_begin :
    dw_claim_state r = Pending → dw_claim_state r' = Transferring → owned r' →
    dw_attempt_count r' = dw_attempt_count r → outcome r' = outcome r → life r r'
| L_consume at_ :
    dw_claim_state r = Pending ∨ dw_claim_state r = Processing →
    dw_claim_state r' = Consumed → unowned r' → dw_attempt_count r' = dw_attempt_count r →
    outcome r' = (dw_last_error r, dw_dead_lettered_at r, Some at_, dw_expires_at r,
                  dw_reclassify_count r) → life r r'
| L_release :
    dw_claim_state r = Processing → dw_claim_state r' = Pending → unowned r' →
    (dw_attempt_count r' = dw_attempt_count r ∨
     dw_attempt_count r' = Z.max (dw_attempt_count r - 1) 0) → outcome r' = outcome r → life r r'
| L_resend :
    dw_claim_state r = Transferring → dw_claim_state r' = Pending → unowned r' →
    (dw_attempt_count r' = dw_attempt_count r ∨ dw_attempt_count r' = dw_attempt_count r + 1) →
    outcome r' = outcome r → life r r'
| L_die err now :
    dw_claim_state r ≠ DeadLetter → dw_claim_state r' = DeadLetter → unowned r' →
    dw_attempt_count r' = dw_attempt_count r →
    outcome r' = (Some err, Some now, dw_consumed_at r, Some (now + DEAD_LETTER_RETENTION_MS),
                  dw_reclassify_count r) → life r r'
| L_redrive exp :
    dw_claim_state r = DeadLetter → dw_claim_state r' = Pending → unowned r' →
    dw_attempt_count r' = dw_attempt_count r →
    outcome r' = (dw_last_error r, None, dw_consumed_at r, exp, dw_reclassify_count r) → life r r'
| L_reclassify :
    dw_claim_state r = DeadLetter → dw_last_error r = Some TRANSFER_EXHAUSTED_LAST_ERROR →
    dw_reclassify_count r < TRANSFER_EXHAUSTED_RECLASSIFY_BUDGET →
    dw_claim_state r' = Pending → unowned r' → dw_attempt_count r' = 0 →
    outcome r' = (None, None, dw_consumed_at r, dw_expires_at r, dw_reclassify_count r + 1) →
    life r r'.

Definition edge (r r' : DurableWorkRow) : Prop := same_work r r' ∧ life r r'.

Definition fresh_row (r : DurableWorkRow) : Prop :=
  dw_claim_state r = Pending ∧ unowned r ∧ dw_attempt_count r = 0 ∧
  dw_last_error r = None ∧ dw_dead_lettered_at r = None ∧ dw_consumed_at r = None ∧
  dw_reclassify_count r = 0 ∧
  nonempty (dw_id r) = true ∧ nonempty (dw_target_site_id r) = true ∧
  nonempty (dw_kind r) = true ∧ nonempty (dw_idempotency_key r) = true ∧
  is_Some (json_parse (dw_payload r)).

Definition at_least (age : option Z) (now : Z) (r : DurableWorkRow) : Prop :=
  ∀ m, age = Some m → dw_created_at r + m ≤ now.
Definition selected_kind (kind : option string) (r : DurableWorkRow) : Prop :=
  ∀ k, kind = Some k → k ≠ EmptyString → dw_kind r = k.

(** What an operator's purge covers: dead letters of the selected kind and age;
    with [all_unclaimed] also pending rows, unless forced only those of the
    local target and never one younger than an hour. *)
Definition purgeable (sel : PurgeSelector) (now : Z) (r : DurableWorkRow) : Prop :=
  match sel with
  | PurgeDeadLettered kind older =>
      dw_claim_state r = DeadLetter ∧ selected_kind kind r ∧ at_least older now r
  | PurgeAllUnclaimed kind older force =>
      selected_kind kind r ∧ at_least older now r ∧
      (dw_claim_state r = DeadLetter ∨
       dw_claim_state r = Pending ∧
       (force = false →
          dw_target_site_id r = LOCAL_WORK_TARGET ∧ dw_created_at r + PURGE_UNCLAIMED_FLOOR_MS ≤ now))
  end.

(** The rows each operation removes; every other operation removes none. *)
Definition removed_by (op : dw_op) (r : DurableWorkRow) : Prop :=
  match op with
  | OpAckTransfer i tok =>
      dw_id r = i ∧ dw_claim_state r = Transferring ∧ dw_claim_token r = Some tok
  | OpPruneConsumed cutoff =>
      dw_claim_state r = Consumed ∧ ∃ c, dw_consumed_at r = Some c ∧ c < cutoff
  | OpPruneDeadLetters now =>
      dw_claim_state r = DeadLetter ∧ ∃ e, dw_expires_at r = Some e ∧ e ≤ now
  | OpPurge sel now => purgeable sel now r
  | _ => False
  end.

(** A row in transit whose acknowledgement is overdue and whose work has not
    expired. *)
Definition overdue (now : Z) (r : DurableWorkRow) : Prop :=
  dw_claim_state r = Transferring ∧
  (∃ c, dw_claimed_at r = Some c ∧ c + DURABLE_WORK_TRANSFER_STALE_MS ≤ now) ∧
  ∀ e, dw_expires_at r = Some e → now < e.

(** The row is the one named, in that state, under that token. *)
Definition held_as (s : DurableWorkClaimState) (i tok : string) (r : DurableWorkRow) : Prop :=
  dw_id r = i ∧ dw_claim_state r = s ∧ dw_claim_token r = Some tok.

(** The claim state an operation may take a row to, and from which rows. *)
Definition licensed (op : dw_op) (r : DurableWorkRow) (s : DurableWorkClaimState) : Prop :=
  match op with
  | OpClaimLocal _ _ target kind =>
      s = Processing ∧ dw_claim_state r = Pending ∧ dw_target_site_id r = target ∧ selected_kind kind r
  | OpClaimByIds _ _ ids target =>
      s = Processing ∧ dw_claim_state r = Pending ∧ dw_target_site_id r = target ∧ dw_id r ∈ ids
  | OpClaimAndConsume _ _ _ ids target pre =>
      s = Consumed ∧ dw_id r ∈ ids ∧
      match pre !! dw_id r with
      | Some tok => dw_claim_state r = Processing ∧ dw_claim_token r = Some tok
      | None => dw_claim_state r = Pending ∧ dw_target_site_id r = target
      end
  | OpAcknowledge _ i tok => s = Consumed ∧ held_as Processing i tok r
  | OpRelease i tok => s = Pending ∧ held_as Processing i tok r
  | OpBeginTransfer _ _ i => s = Transferring ∧ dw_claim_state r = Pending ∧ dw_id r = i
  | OpRollbackUnsent i tok => s = Pending ∧ held_as Transferring i tok r
  | OpResetProcessing target =>
      s = Pending ∧ dw_claim_state r = Processing ∧ dw_target_site_id r = target
  | OpResetTransferringLocal =>
      s = Pending ∧ dw_claim_state r = Transferring ∧ dw_target_site_id r = LOCAL_WORK_TARGET
  | OpSweepStale m now =>
      overdue now r ∧ s = (if m <=? dw_attempt_count r then DeadLetter else Pending)
  | OpDeadLetterExpired now =>
      s = DeadLetter ∧ dw_claim_state r ≠ DeadLetter ∧ ∃ e, dw_expires_at r = Some e ∧ e ≤ now
  | OpDeadLetter i _ _ => s = DeadLetter ∧ dw_claim_state r ≠ DeadLetter ∧ dw_id r = i
  | OpDeadLetterClaimed i tok _ _ => s = DeadLetter ∧ held_as Processing i tok r
  | OpDeadLetterPending i _ _ => s = DeadLetter ∧ dw_claim_state r = Pending ∧ dw_id r = i
  | OpRedriveTransferring i m _ =>
      dw_id r = i ∧ dw_claim_state r = Transferring ∧
      s = (if m <=? dw_attempt_count r then DeadLetter else Pending)
  | OpReclassify peer w now =>
      s = Pending ∧ dw_claim_state r = DeadLetter ∧ dw_target_site_id r = peer ∧
      dw_last_error r = Some TRANSFER_EXHAUSTED_LAST_ERROR ∧
      (∃ d, dw_dead_lettered_at r = Some d ∧ now - w ≤ d) ∧
      dw_reclassify_count r < TRANSFER_EXHAUSTED_RECLASSIFY_BUDGET
  | OpConsumePendingDispatch key _ =>
      s = Consumed ∧ dw_claim_state r = Pending ∧ dw_target_site_id r = LOCAL_WORK_TARGET ∧
      dw_kind r = "dispatch_message" ∧ dw_idempotency_key r = key
  | OpRedriveDeadLetter i _ => s = Pending ∧ dw_claim_state r = DeadLetter ∧ dw_id r = i
  | OpInsert _ _ _ _ | OpAckTransfer _ _ | OpPruneConsumed _ | OpPruneDeadLetters _
  | OpPurge _ _ => False
  end.

(** The three claims choose among the rows they may take; every other
    operation takes all of them. *)
Definition takes_all (op : dw_op) : Prop :=
  match op with
  | OpClaimLocal _ _ _ _ | OpClaimByIds _ _ _ _ | OpClaimAndConsume _ _ _ _ _ _ => False
  | _ => True
  end.

(** What one operation does to the row with id [i] of the table [t]. *)
Definition row_path (op : dw_op) (i : string) (t : dw_table)
    (before after : option DurableWorkRow) : Prop :=
  match before, after with
  | None, None =>
      ∀ bus tx now w, op = OpInsert bus tx now w → nw_id w = i →
        ¬ fresh_row (new_row now w) ∨
        ∃ old, old ∈ t ∧ dw_kind old = nw_kind w ∧ dw_idempotency_key old = nw_idempotency_key w
  | None, Some r =>
      ∃ bus tx now w, op = OpInsert bus tx now w ∧ nw_id w = i ∧ r = new_row now w ∧ fresh_row r ∧
        ∀ old, old ∈ t → dw_kind old = nw_kind w → dw_idempotency_key old ≠ nw_idempotency_key w
  | Some r, None => removed_by op r
  | Some r, Some r' =>
      ¬ removed_by op r ∧
      (r' = r ∧ (takes_all op → ∀ s, ¬ licensed op r s) ∨
       licensed op r (dw_claim_state r') ∧ rtc edge r r')
  end.

(** The table-level steps the statements are built from: UPDATEs along edges,
    one DELETE, one INSERT behind the fences. *)
Inductive upd (t : dw_table) : dw_table → Prop :=
| upd_intro p f : (∀ r, p r = true → edge r (f r)) → (∀ r, same_work r (f r)) →
    upd t (sql_update p f t).
Inductive dw_shape (t : dw_table) : dw_table → Prop :=
| shape_updates t' : rtc upd t t' → dw_shape t t'
| shape_delete p : dw_shape t (sql_delete p t)
| shape_insert r : fresh_row r → (∀ old, old ∈ t → dw_clash old r = false) → dw_shape t (t ++ [r]).

(** ** The invariant *)
Definition dw_row_wf (r : DurableWorkRow) : Prop :=
  (dw_claim_state r = Processing ∨ dw_claim_state r = Transferring → owned r) ∧
  (dw_claim_state r ≠ Processing → dw_claim_state r ≠ Transferring → unowned r) ∧
  (dw_claim_state r = DeadLetter ↔ is_Some (dw_dead_lettered_at r)) ∧
  (dw_claim_state r = DeadLetter → is_Some (dw_last_error r) ∧ is_Some (dw_expires_at r)) ∧
  (dw_claim_state r = Consumed → is_Some (dw_consumed_at r)) ∧
  0 ≤ dw_attempt_count r ∧
  0 ≤ dw_reclassify_count r ≤ TRANSFER_EXHAUSTED_RECLASSIFY_BUDGET ∧
  is_Some (json_parse (dw_payload r)).

Definition fence (r : DurableWorkRow) : string * string := (dw_kind r, dw_idempotency_key r).

Definition dw_wf (t : dw_table) : Prop :=
  keys_unique dw_id t ∧ NoDup (fence <$> t) ∧ Forall dw_row_wf t.

(** ** Basic facts *)
Lemma in_state_true s r : in_state s r = true ↔ dw_claim_state r = s.
Proof. unfold in_state, cs_eqb. by rewrite bool_decide_eq_true. Qed.
Lemma in_state_false s r : in_state s r = false ↔ dw_claim_state r ≠ s.
Proof. unfold in_state, cs_eqb. by rewrite bool_decide_eq_false. Qed.
Lemma has_id_true i r : has_id i r = true ↔ dw_id r = i.
Proof. apply seqb_true. Qed.
Lemma holds_token_true tok r : holds_token tok r = true ↔ dw_claim_token r = Some tok.
Proof.
  unfold holds_token. destruct (dw_claim_token r); [|done].
  rewrite seqb_true. split; [by intros ->|by intros [= ->]].
Qed.

Ltac dw_props :=
  bool_props;
  repeat match goal with
  | H : in_state _ _ = true |- _ => apply in_state_true in H
  | H : in_state _ _ = false |- _ => apply in_state_false in H
  | H : has_id _ _ = true |- _ => apply has_id_true in H
  | H : holds_token _ _ = true |- _ => apply holds_token_true in H
  | H : owned_by _ _ _ _ = true |- _ => unfold owned_by in H; bool_props
  end.

Lemma same_work_refl r : same_work r r.
Proof. by repeat split. Qed.
Lemma same_work_trans r1 r2 r3 : same_work r1 r2 → same_work r2 r3 → same_work r1 r3.
Proof. unfold same_work. intuition congruence. Qed.

Lemma edge_wf r r' : edge r r' → dw_row_wf r → dw_row_wf r'.
Proof.
  intros [(_ & _ & _ & Hp & _ & _) Hl] (H1 & H2 & H3 & H4 & H5 & H6 & H7 & H8).
  unfold dw_row_wf in *. rewrite Hp.
  assert (dw_claim_state r ≠ DeadLetter → dw_dead_lettered_at r = None) as Hnd.
  { intros Hs. apply eq_None_not_Some. tauto. }
  destruct Hl; unfold outcome, TRANSFER_EXHAUSTED_RECLASSIFY_BUDGET in *; simplify_eq;
    repeat match goal with H : _ r' = _ |- _ => rewrite H; clear H end;
    split_and!; try done; try lia; try tauto; intuition congruence.
Qed.

Lemma fresh_row_wf r : fresh_row r → dw_row_wf r.
Proof.
  intros (H1 & H2 & H3 & H4 & H5 & H6 & H7 & _ & _ & _ & _ & H12).
  unfold dw_row_wf, TRANSFER_EXHAUSTED_RECLASSIFY_BUDGET. rewrite H1, H3, H4, H5, H6, H7.
  split_and!; try done; try lia; try (intuition congruence).
Qed.

Lemma update_wf_projection {B} (π : DurableWorkRow → B) p f t :
  (∀ r r', same_work r r' → π r' = π r) → (∀ r, same_work r (f r)) →
  π <$> sql_update p f t = π <$> t.
Proof. intros Hπ Hf. apply update_fmap. auto. Qed.

Lemma upd_wf t t' : upd t t' → dw_wf t → dw_wf t'.
Proof.
  intros [p f Hf Hw] (Hk & Hfe & Hrow). split_and!.
  - unfold keys_unique. rewrite (update_wf_projection dw_id); [done| |done]. by intros ?? (? & _).
  - rewrite (update_wf_projection fence); [done| |done].
    unfold fence. by intros ?? (_ & _ & -> & _ & -> & _).
  - apply update_Forall; [done|]. intros r Hr Hp. eapply edge_wf; [by apply Hf|done].
Qed.

Lemma upds_wf t t' : rtc upd t t' → dw_wf t → dw_wf t'.
Proof. induction 1; eauto using upd_wf. Qed.

(** The two UNIQUE indexes admit a row that clashes with no other. *)
Lemma NoDup_insert_fresh {B} (π : DurableWorkRow → B) (t : dw_table) r :
  NoDup (π <$> t) → (∀ old, old ∈ t → π old ≠ π r) → NoDup (π <$> t ++ [r]).
Proof.
  intros Hnd Hf. rewrite fmap_app. apply NoDup_app. split_and!; [done| |by apply NoDup_singleton].
  intros x (old & -> & Hold)%list_elem_of_fmap Hx%list_elem_of_singleton. by apply (Hf old).
Qed.

Lemma insert_wf t r :
  fresh_row r → (∀ old, old ∈ t → dw_clash old r = false) → dw_wf t → dw_wf (t ++ [r]).
Proof.
  intros Hr Hc (Hk & Hfe & Hrow). unfold dw_clash in Hc. split_and!.
  - apply NoDup_insert_fresh; [done|]. intros old Hold%Hc. bool_props. by apply seqb_false in H.
  - apply NoDup_insert_fresh; [done|]. intros old Hold%Hc [= H1 H2]. bool_props.
    by rewrite H1, H2, !seqb_refl in H0.
  - apply Forall_app. split; [done|]. apply Forall_singleton. by apply fresh_row_wf.
Qed.

Lemma shape_wf t t' : dw_shape t t' → dw_wf t → dw_wf t'.
Proof.
  intros [t1 H|p|r Hr Hc] Hwf; [by eapply upds_wf| |by apply insert_wf].
  destruct Hwf as (? & ? & ?). split_and!; [by apply delete_NoDup..|by apply delete_Forall].
Qed.

Lemma upd_row i t t' :
  upd t t' → match row_at dw_id i t with
             | Some r => ∃ r', row_at dw_id i t' = Some r' ∧ rtc edge r r'
             | None => row_at dw_id i t' = None
             end.
Proof.
  intros [p f Hf Hw]. rewrite row_at_update by (intros r; apply (Hw r)).
  destruct (row_at dw_id i t) as [r|] eqn:E; [|done]. simpl.
  destruct (p r) eqn:Hpr; [|by exists r]. exists (f r). split; [done|]. by apply rtc_once, Hf.
Qed.

Lemma upds_row i t t' :
  rtc upd t t' → match row_at dw_id i t with
                 | Some r => ∃ r', row_at dw_id i t' = Some r' ∧ rtc edge r r'
                 | None => row_at dw_id i t' = None
                 end.
Proof.
  induction 1 as [t|t1 t2 t3 Hs _ IH]; [destruct (row_at dw_id i t); eauto using rtc_refl|].
  apply (upd_row i) in Hs. destruct (row_at dw_id i t1) as [r|]; [|by rewrite Hs in IH].
  destruct Hs as (r' & Hr' & He). rewrite Hr' in IH. destruct IH as (r'' & ? & ?).
  exists r''. split; [done|]. by etrans.
Qed.

Lemma shape_row i t t' r r' :
  dw_shape t t' → dw_wf t → row_at dw_id i t = Some r → row_at dw_id i t' = Some r' → rtc edge r r'.
Proof.
  intros [t1 H|p|r0 Hr0 Hc] (Hk & _ & _) Hr.
  - apply (upds_row i) in H. rewrite Hr in H. destruct H as (r1 & -> & ?). by intros [= <-].
  - rewrite row_at_delete, Hr by done. destruct (p r); [done|]. by intros [= <-].
  - rewrite row_at_app, Hr. by intros [= <-].
Qed.

(** *** Every column assignment is an edge of the life cycle *)
Ltac same_work_tac := by repeat split.

Lemma edge_claim tok now r : dw_claim_state r = Pending → edge r (claim_set tok now r).
Proof. intros. split; [same_work_tac|]. by apply L_claim. Qed.
Lemma edge_begin tok now r :
  dw_claim_state r = Pending → edge r (set_claim Transferring (Some tok) (Some now) r).
Proof. intros. split; [same_work_tac|]. by apply L_begin. Qed.
Lemma edge_consume now r :
  dw_claim_state r = Pending ∨ dw_claim_state r = Processing → edge r (consume_set now r).
Proof. intros. split; [same_work_tac|]. by eapply L_consume. Qed.
Lemma edge_release r : dw_claim_state r = Processing → edge r (release_set r).
Proof. intros. split; [same_work_tac|]. apply L_release; auto. done. Qed.
Lemma edge_repend r :
  dw_claim_state r = Processing ∨ dw_claim_state r = Transferring → edge r (repend_set r).
Proof.
  intros [|]; (split; [same_work_tac|]); [apply L_release|apply L_resend]; auto; done.
Qed.
Lemma edge_repend_charged r : dw_claim_state r = Transferring → edge r (repend_charged r).
Proof. intros. split; [same_work_tac|]. apply L_resend; auto. done. Qed.
Lemma edge_dead now err (keep : bool) r :
  dw_claim_state r ≠ DeadLetter → is_Some err ∨ keep = true → edge r (dead_set now err keep r).
Proof.
  intros Hs He. split; [same_work_tac|]. unfold dead_set.
  destruct keep; [by eapply L_die|].
  destruct He as [[e ->]|]; [by eapply L_die|done].
Qed.
Lemma edge_redrive exp r :
  dw_claim_state r = DeadLetter →
  edge r (set_expires exp (set_failure (dw_last_error r) None (repend_set r))).
Proof. intros. split; [same_work_tac|]. by eapply L_redrive. Qed.
Lemma edge_reclassify peer h r : reclassifiable peer h r = true → edge r (reclassify_set r).
Proof.
  intros H. unfold reclassifiable in H. dw_props. split; [same_work_tac|].
  apply L_reclassify; try done.
  destruct (dw_last_error r) as [e|]; [|done]. f_equal. by apply seqb_true.
Qed.

Lemma rtc_update p f t :
  (∀ r, p r = true → edge r (f r)) → (∀ r, same_work r (f r)) → rtc upd t (sql_update p f t).
Proof. intros. apply rtc_once. by constructor. Qed.

Lemma claim_row_upds tok now i t : rtc upd t (claim_row tok now i t).
Proof. apply rtc_update; [|same_work_tac]. intros. dw_props. by apply edge_claim. Qed.

Lemma claim_each_upds uuid now rows t : rtc upd t (claim_each uuid now rows t).1.
Proof.
  revert uuid t. induction rows as [|row rows IH]; intros uuid t; [done|]. simpl.
  pose proof (IH (λ n, uuid (S n)) (claim_row (uuid 0%nat) now (dw_id row) t)) as H.
  destruct (claim_each _ now rows _) as [t' claimed]. simpl in *.
  etrans; [apply claim_row_upds|done].
Qed.

Lemma claim_tokens_upds uuid now rows t m : rtc upd t (claim_tokens uuid now rows t m).1.
Proof.
  revert uuid t m. induction rows as [|row rows IH]; intros uuid t m; [done|]. simpl.
  etrans; [apply claim_row_upds|apply IH].
Qed.

Lemma acknowledge_upds now i tok t : rtc upd t (acknowledgeDurableWork now i tok t).1.
Proof. apply rtc_update; [|same_work_tac]. intros. dw_props. apply edge_consume. auto. Qed.

Lemma consume_all_upds now ids m t t' : consume_all now ids m t = Some t' → rtc upd t t'.
Proof.
  revert t. induction ids as [|i ids IH]; intros t; cbn [consume_all]; [by intros [= ->]|].
  destruct (m !! i) as [tok|]; [|done]. destruct (nonempty tok); [|done].
  pose proof (acknowledge_upds now i tok t) as H.
  destruct (acknowledgeDurableWork now i tok t) as [t1 [|]]; simpl in H; [|done].
  intros Hc. etrans; [exact H|by apply IH].
Qed.

Lemma claimAndConsume_upds uuid now cat ids target pre t :
  rtc upd t (claimAndConsumeDurableWorkByIds uuid now cat ids target pre t).1.
Proof.
  unfold claimAndConsumeDurableWorkByIds. destruct (length ids =? 0)%nat; [done|].
  set (pids := List.filter _ ids). set (sel := sql_select _ t).
  destruct (0 <? length pids)%nat.
  - pose proof (claim_tokens_upds uuid now sel t pre) as H.
    destruct (claim_tokens uuid now sel t pre) as [t1 m]. simpl in H.
    destruct (consume_all cat ids m t1) as [t2|] eqn:E; [|done].
    etrans; [exact H|]. by eapply consume_all_upds.
  - destruct (consume_all cat ids pre t) as [t2|] eqn:E; [|done]. by eapply consume_all_upds.
Qed.

Lemma insert_shape bus tx now w t t' b evs :
  insertDurableWork bus tx now w t = Ok (t', b, evs) → dw_shape t t'.
Proof.
  unfold insertDurableWork, validateDurableWork.
  destruct (negb (nonempty (nw_id w)) || _ || _ || _) eqn:E1; [done|].
  destruct (negb (nonempty (nw_payload w))); [done|].
  destruct (json_parse (nw_payload w)) eqn:E2; [|done]. simpl.
  destruct (insert_or_ignore_cases dw_clash (new_row now w) t) as [[-> _]|[-> Hc]];
    simpl; intros [= <- <- <-]; [by apply shape_updates|].
  apply shape_insert; [|done]. bool_props. unfold fresh_row, unowned. simpl. by rewrite E2.
Qed.

Lemma dead_rows_upds now err keep p t :
  (∀ r, p r = true → dw_claim_state r ≠ DeadLetter) → is_Some err ∨ keep = true →
  rtc upd t (deadLetterDurableWorkRows now err p keep t).1.
Proof.
  intros Hp He. apply rtc_update; [|same_work_tac]. intros r Hr. apply edge_dead; auto.
Qed.

Lemma sweep_eq m now t :
  (sweepStaleTransferringDurableWork m now t).1 =
    let stale := transfer_stale (now - DURABLE_WORK_TRANSFER_STALE_MS) now in
    sql_update (λ r, stale r && (dw_attempt_count r <? m)) repend_charged
      (sql_update (λ r, stale r && (m <=? dw_attempt_count r))
         (dead_set now (Some TRANSFER_EXHAUSTED_LAST_ERROR) false) t).
Proof. done. Qed.

Lemma redriveTransferring_upds i m now t : rtc upd t (redriveTransferringDurableWork i m now t).1.
Proof.
  unfold redriveTransferringDurableWork. unfold deadLetterDurableWorkRows. simpl.
  set (t1 := sql_update _ _ t). assert (rtc upd t t1) as H1.
  { apply rtc_update; [|same_work_tac]. intros. dw_props. apply edge_dead; [congruence|eauto]. }
  destruct (_ =? 1)%nat; [done|]. simpl. etrans; [exact H1|].
  apply rtc_update; [|same_work_tac]. intros. dw_props. by apply edge_repend_charged.
Qed.

(** Every operation has one of the three shapes; all but an insertion and the
    four that delete only update rows. *)
Definition updates_only (op : dw_op) : bool :=
  match op with
  | OpInsert _ _ _ _ | OpAckTransfer _ _ | OpPruneConsumed _ | OpPruneDeadLetters _ | OpPurge _ _ => false
  | _ => true
  end.
Lemma exec_upds op t : updates_only op = true → rtc upd t (dw_exec op t).
Proof.
  destruct op; intros Hop; try discriminate Hop; clear Hop; cbn [dw_exec].
  - unfold claimLocalDurableWork. destruct (head _); [apply claim_row_upds|done].
  - unfold claimDurableWorkByIds. destruct (_ =? 0)%nat; [done|apply claim_each_upds].
  - apply claimAndConsume_upds.
  - apply acknowledge_upds.
  - apply rtc_update; [|same_work_tac]. intros. dw_props. by apply edge_release.
  - apply rtc_update; [|same_work_tac]. intros. dw_props. by apply edge_begin.
  - apply rtc_update; [|same_work_tac]. intros. dw_props. apply edge_repend. auto.
  - apply rtc_update; [|same_work_tac]. intros. dw_props. apply edge_repend. auto.
  - apply rtc_update; [|same_work_tac]. intros. dw_props. apply edge_repend. auto.
  - rewrite sweep_eq. cbv zeta. set (t1 := sql_update _ (dead_set _ _ _) t).
    assert (rtc upd t t1) as H1.
    { apply rtc_update; [|same_work_tac]. intros. unfold transfer_stale in *. dw_props.
      apply edge_dead; [congruence|eauto]. }
    etrans; [exact H1|]. apply rtc_update; [|same_work_tac]. intros.
    unfold transfer_stale in *. dw_props. by apply edge_repend_charged.
  - apply dead_rows_upds; [|auto]. intros. by dw_props.
  - apply dead_rows_upds; [|eauto]. intros. by dw_props.
  - apply dead_rows_upds; [|eauto]. intros. dw_props. congruence.
  - apply dead_rows_upds; [|eauto]. intros. dw_props. congruence.
  - apply redriveTransferring_upds.
  - apply rtc_update; [|same_work_tac]. intros. by eapply edge_reclassify.
  - apply rtc_update; [|same_work_tac]. intros. dw_props. apply edge_consume. auto.
  - apply rtc_update; [|same_work_tac]. intros. dw_props. by apply edge_redrive.
Qed.
Lemma exec_shape op t : dw_shape t (dw_exec op t).
Proof.
  destruct (updates_only op) eqn:Hop; [by apply shape_updates, exec_upds|].
  destruct op; try discriminate Hop; cbn [dw_exec].
  - destruct (insertDurableWork _ _ _ _ _) as [[[t' b] evs]|] eqn:E; [|by apply shape_updates].
    by eapply insert_shape.
  - apply shape_delete.
  - apply shape_delete.
  - apply shape_delete.
  - apply shape_delete.
Qed.

(** ** Statements about one row *)
Lemma row_update_hit p f t i r :
  (∀ r, dw_id (f r) = dw_id r) → row_at dw_id i t = Some r → p r = true →
  row_at dw_id i (sql_update p f t) = Some (f r).
Proof. intros Hf Hr Hp. rewrite row_at_update by done. rewrite Hr. simpl. by rewrite Hp. Qed.

Lemma row_update_miss p f t i r :
  (∀ r, dw_id (f r) = dw_id r) → row_at dw_id i t = Some r → p r = false →
  row_at dw_id i (sql_update p f t) = Some r.
Proof. intros Hf Hr Hp. rewrite row_at_update by done. rewrite Hr. simpl. by rewrite Hp. Qed.

Lemma row_delete_miss p t i r :
  dw_wf t → row_at dw_id i t = Some r → p r = false → row_at dw_id i (sql_delete p t) = Some r.
Proof. intros (Hk & _) Hr Hp. rewrite row_at_delete by done. by rewrite Hr, Hp. Qed.

(** [WHERE id = i AND q]: whether it changed a row, and what it left. *)
Lemma update_id_spec q f i t :
  keys_unique dw_id t → (∀ r, dw_id (f r) = dw_id r) →
  ((sql_count (λ r, has_id i r && q r) t =? 1)%nat = true ↔
     ∃ r, row_at dw_id i t = Some r ∧ q r = true) ∧
  (∀ j, row_at dw_id j (sql_update (λ r, has_id i r && q r) f t) =
     (λ r, if seqb j i && q r then f r else r) <$> row_at dw_id j t).
Proof.
  intros Hk Hf. split; [by apply changes_key|]. intros j. rewrite row_at_update by done.
  destruct (row_at dw_id j t) as [r|] eqn:E; [|done]. simpl.
  apply row_at_Some in E as [_ <-]. done.
Qed.

Lemma acknowledge_spec now i tok t t' b :
  keys_unique dw_id t → acknowledgeDurableWork now i tok t = (t', b) →
  (b = true ↔ ∃ r, row_at dw_id i t = Some r ∧ dw_claim_state r = Processing ∧
                   dw_claim_token r = Some tok) ∧
  (b = true → row_at dw_id i t' = consume_set now <$> row_at dw_id i t) ∧
  (∀ j, j ≠ i → row_at dw_id j t' = row_at dw_id j t) ∧ keys_unique dw_id t'.
Proof.
  intros Hk. unfold acknowledgeDurableWork, run_update, owned_by. intros [= <- <-].
  destruct (update_id_spec (λ r, in_state Processing r && holds_token tok r) (consume_set now) i t)
    as [Hc Hr]; [done..|].
  split_and!.
  - rewrite Hc. split; intros (r & ? & ?); exists r; dw_props; [done|].
    split; [done|]. apply andb_true_intro. by rewrite in_state_true, holds_token_true.
  - rewrite Hc. intros (r & Hi & Hq). rewrite Hr, Hi. simpl. by rewrite seqb_refl, Hq.
  - intros j Hj. rewrite Hr. destruct (row_at dw_id j t); [|done]. simpl.
    by apply seqb_false in Hj as ->.
  - unfold keys_unique. by rewrite update_fmap.
Qed.

Lemma claim_row_row tok now i j t :
  row_at dw_id j (claim_row tok now i t) =
    (λ r, if seqb j i && in_state Pending r then claim_set tok now r else r) <$> row_at dw_id j t.
Proof.
  unfold claim_row. rewrite row_at_update by done.
  destruct (row_at dw_id j t) as [r|] eqn:E; [|done]. simpl.
  apply row_at_Some in E as [_ <-]. done.
Qed.

Lemma claim_row_keys tok now i t : keys_unique dw_id t → keys_unique dw_id (claim_row tok now i t).
Proof. unfold keys_unique, claim_row. by rewrite update_fmap. Qed.

(** The claim phase of a multi-row consume: the selected rows are claimed, each
    under the token recorded for it; nothing else changes. *)
Lemma claim_tokens_spec uuid now rows t m :
  NoDup (dw_id <$> rows) →
  (∀ r, r ∈ rows → row_at dw_id (dw_id r) t = Some r ∧ dw_claim_state r = Pending) →
  keys_unique dw_id t →
  let '(t', m') := claim_tokens uuid now rows t m in
  keys_unique dw_id t' ∧
  (∀ r, r ∈ rows → ∃ tok, (∃ n, tok = uuid n) ∧ m' !! dw_id r = Some tok ∧
      row_at dw_id (dw_id r) t' = Some (claim_set tok now r)) ∧
  (∀ j, j ∉ (dw_id <$> rows) → m' !! j = m !! j ∧ row_at dw_id j t' = row_at dw_id j t).
Proof.
  revert uuid t m. induction rows as [|row rows IH]; intros uuid t m Hnd Hin Hk; simpl.
  { split_and!; [done|set_solver|done]. }
  rewrite fmap_cons in Hnd. apply NoDup_cons in Hnd as [Hrow Hnd].
  assert (∀ r, r ∈ rows → dw_id r ≠ dw_id row) as Hne.
  { intros r Hr Hid. apply Hrow. rewrite <-Hid. by apply list_elem_of_fmap_2. }
  set (t1 := claim_row (uuid 0%nat) now (dw_id row) t).
  specialize (IH (λ n, uuid (S n)) t1 (<[dw_id row:=uuid 0%nat]> m)).
  destruct (claim_tokens _ now rows t1 _) as [t' m']. destruct IH as (Hk' & Hsel & Hoth).
  - done.
  - intros r Hr. destruct (Hin r) as [Hat Hp]; [set_solver|]. split; [|done].
    unfold t1. rewrite claim_row_row, Hat. simpl. by apply Hne, seqb_false in Hr as ->.
  - by apply claim_row_keys.
  - split_and!; [done| |].
    + intros r [->|Hr]%elem_of_cons; [|by destruct (Hsel r Hr) as (tok & [n Hn] & ?); eauto].
      destruct (Hin row) as [Hat Hp]; [set_solver|].
      destruct (Hoth (dw_id row) Hrow) as [Hm Hr']. exists (uuid 0%nat). split_and!; [eauto| |].
      * rewrite Hm. by rewrite lookup_insert_eq.
      * rewrite Hr'. unfold t1. rewrite claim_row_row, Hat. simpl.
        rewrite seqb_refl. by apply in_state_true in Hp as ->.
    + intros j [Hj1 Hj2]%not_elem_of_cons. destruct (Hoth j Hj2) as [-> ->]. split.
      * by rewrite lookup_insert_ne.
      * unfold t1. rewrite claim_row_row. destruct (row_at dw_id j t); [|done]. simpl.
        by apply seqb_false in Hj1 as ->.
Qed.

(** A row the consume phase can retire. *)
Definition retirable (m : gmap string string) (t : dw_table) (i : string) : Prop :=
  ∃ tok r, m !! i = Some tok ∧ nonempty tok = true ∧ row_at dw_id i t = Some r ∧
           dw_claim_state r = Processing ∧ dw_claim_token r = Some tok.

Lemma consume_all_spec now ids m t :
  keys_unique dw_id t →
  match consume_all now ids m t with
  | Some t' =>
      NoDup ids ∧ Forall (retirable m t) ids ∧
      (∀ j, j ∈ ids → row_at dw_id j t' = consume_set now <$> row_at dw_id j t) ∧
      (∀ j, j ∉ ids → row_at dw_id j t' = row_at dw_id j t)
  | None => ¬ (NoDup ids ∧ Forall (retirable m t) ids)
  end.
Proof.
  revert t. induction ids as [|i ids IH]; intros t Hk; cbn [consume_all].
  { split_and!; [constructor|constructor|set_solver|done]. }
  destruct (m !! i) as [tok|] eqn:Hm.
  2: { intros [_ [(tok & r & ? & _) _]%Forall_cons_1]. congruence. }
  destruct (nonempty tok) eqn:Htok.
  2: { intros [_ [(tok' & r & ? & ? & _) _]%Forall_cons_1]. congruence. }
  destruct (acknowledgeDurableWork now i tok t) as [t1 b] eqn:Hack.
  apply acknowledge_spec in Hack as (Hb & Hcons & Hoth & Hk1); [|done].
  destruct b.
  2: { intros [_ [(tok' & r & ? & ? & ? & ? & ?) _]%Forall_cons_1].
       assert (false = true) by (apply Hb; exists r; split_and!; congruence). done. }
  destruct (proj1 Hb eq_refl) as (r & Hr & Hs & Ht). specialize (Hcons eq_refl).
  assert (∀ j, j ≠ i → retirable m t1 j ↔ retirable m t j) as Hret.
  { intros j Hj. unfold retirable. by rewrite Hoth. }
  assert (¬ retirable m t1 i) as Hdone.
  { intros (tok' & r' & _ & _ & Hr' & Hs' & _). rewrite Hcons, Hr in Hr'. by simplify_eq/=. }
  specialize (IH t1 Hk1). destruct (consume_all now ids m t1) as [t'|].
  - destruct IH as (Hnd & Hall & Hin & Hout). rewrite Forall_forall in Hall.
    assert (i ∉ ids) as Hi by (intros Hi%Hall; done).
    split_and!; [by constructor| | |].
    + constructor; [by exists tok, r|]. rewrite Forall_forall. intros j Hj.
      apply Hret; [by intros ->|by apply Hall].
    + intros j [->|Hj]%elem_of_cons; [by rewrite Hout|].
      rewrite Hin by done. rewrite Hoth; [done|]. by intros ->.
    + intros j [Hj1 Hj2]%not_elem_of_cons. by rewrite Hout, Hoth.
  - intros [[Hi Hnd]%NoDup_cons [_ Hall]%Forall_cons_1]. apply IH. split; [done|].
    rewrite Forall_forall in *. intros j Hj. apply Hret; [by intros ->|by apply Hall].
Qed.

Lemma claimAndConsume_eq uuid now cat ids target pre t :
  ids ≠ [] → 
  let pids := List.filter (λ i, negb (bool_decide (is_Some (pre !! i)))) ids in
  let sel := sql_select (λ r, targets target r && in_state Pending r && id_in pids r) t in
  claimAndConsumeDurableWorkByIds uuid now cat ids target pre t =
    let '(t', m) := claim_tokens uuid now sel t pre in
    match consume_all cat ids m t' with Some t'' => (t'', true) | None => (t, false) end.
Proof.
  intros Hne pids sel. unfold claimAndConsumeDurableWorkByIds. destruct ids as [|i0 ids0]; [done|].
  change (length (i0 :: ids0) =? 0)%nat with false. cbv iota zeta. fold pids.
  destruct (0 <? length pids)%nat eqn:Hlen; [done|].
  assert (pids = []) as Hp by (apply Nat.ltb_ge in Hlen; by apply length_zero_iff_nil; lia).
  assert (sel = []) as ->; [|done]. unfold sel. rewrite Hp.
  apply filter_bool_none. intros r _. by rewrite andb_false_r.
Qed.

(** What [claimAndConsumeDurableWorkByIds] needs of each id: a live token the
    caller holds, or a pending row of the right target. *)
Definition consumable (target : string) (pre : gmap string string) (t : dw_table) (i : string) : Prop :=
  ∃ r, row_at dw_id i t = Some r ∧
  match pre !! i with
  | Some tok => nonempty tok = true ∧ dw_claim_state r = Processing ∧ dw_claim_token r = Some tok
  | None => dw_claim_state r = Pending ∧ dw_target_site_id r = target
  end.

(** The rows the claim phase selects. *)
Lemma selected_spec pids target t r :
  r ∈ sql_select (λ r, targets target r && in_state Pending r && id_in pids r) t ↔
  r ∈ t ∧ dw_target_site_id r = target ∧ dw_claim_state r = Pending ∧ dw_id r ∈ pids.
Proof.
  rewrite elem_of_select, !andb_true_iff, in_state_true. unfold targets, id_in.
  rewrite seqb_true, existsb_exists. split.
  - intros (? & (? & ?) & i & Hi%list_elem_of_In & Hs%seqb_true). subst. naive_solver.
  - intros (? & ? & ? & ?). split_and!; try done.
    exists (dw_id r). rewrite <-list_elem_of_In, seqb_refl. done.
Qed.

(** After the claim phase an id can be retired exactly when it was consumable,
    and the rows outside the set are untouched. *)
Lemma claim_phase_spec uuid now target pre t ids m t' :
  keys_unique dw_id t →
  let pids := List.filter (λ i, negb (bool_decide (is_Some (pre !! i)))) ids in
  let sel := sql_select (λ r, targets target r && in_state Pending r && id_in pids r) t in
  claim_tokens uuid now sel t pre = (t', m) →
  keys_unique dw_id t' ∧
  (∀ i, i ∈ ids → retirable m t' i → consumable target pre t i) ∧
  ((∀ n, nonempty (uuid n) = true) → ∀ i, i ∈ ids → consumable target pre t i → retirable m t' i) ∧
  (∀ j, j ∉ ids → row_at dw_id j t' = row_at dw_id j t).
Proof.
  intros Hk pids sel Hct.
  assert (∀ r, r ∈ sel → row_at dw_id (dw_id r) t = Some r ∧ dw_claim_state r = Pending) as Hsel.
  { intros r (Hr & _ & ? & _)%selected_spec. split; [|done]. by apply row_at_elem. }
  pose proof (claim_tokens_spec uuid now sel t pre (NoDup_fmap_filter _ _ _ Hk) Hsel Hk) as H.
  rewrite Hct in H. destruct H as (Hk' & Hin & Hout).
  assert (∀ i, i ∈ ids → i ∉ dw_id <$> sel → retirable m t' i ↔ consumable target pre t i) as Hunsel.
  { intros i Hi Hn. destruct (Hout i Hn) as [Hm Hat]. unfold retirable, consumable. rewrite Hm, Hat.
    destruct (pre !! i) as [tok|] eqn:Hpre.
    { split; [intros (? & r & [= <-] & ? & ? & ? & ?); by exists r|].
      intros (r & ? & ? & ? & ?). by exists tok, r. }
    split; [by intros (? & ? & ? & _)|]. intros (r & Hr & Hs & Ht). exfalso. apply Hn.
    pose proof (row_at_Some _ _ _ _ Hr) as [Hrt <-]. apply list_elem_of_fmap_2, selected_spec.
    split_and!; try done. apply filter_In_iff. by rewrite Hpre. }
  assert (∀ r, r ∈ sel → consumable target pre t (dw_id r)) as Hc.
  { intros r Hr. destruct (Hsel r Hr) as [Hat0 Hp].
    apply selected_spec in Hr as (_ & Htgt & _ & Hpid). apply filter_In_iff in Hpid as [_ Hpre].
    bool_props. apply eq_None_not_Some in Hpre. unfold consumable. rewrite Hpre. by exists r. }
  split_and!; [done| | |].
  - intros i Hi Hr. destruct (decide (i ∈ dw_id <$> sel)) as [(r & -> & Hrs)%list_elem_of_fmap|Hn];
      [by apply Hc|by apply Hunsel].
  - intros Hu i Hi Hco.
    destruct (decide (i ∈ dw_id <$> sel)) as [(r & -> & Hr)%list_elem_of_fmap|Hn];
      [|by apply Hunsel].
    destruct (Hin r Hr) as (tok & [n ->] & Hm & Hat). by exists (uuid n), (claim_set (uuid n) now r).
  - intros j Hj. apply Hout. intros (r & -> & Hr)%list_elem_of_fmap. apply Hj.
    apply selected_spec in Hr as (_ & _ & _ & Hpid). by apply filter_In_iff in Hpid as [? _].
Qed.

(** claiming and consuming a set of rows is all or nothing: it reports
    success exactly when the ids are distinct, not empty, and each is either
    held by the caller under a live token or pending for the target; then every
    row of the set is consumed at that instant and no other row changes, and
    otherwise the table is left as it was. *)
Theorem claimAndConsume_atomic uuid now cat ids target pre t :
  dw_wf t → (∀ n, nonempty (uuid n) = true) →
  let '(t', ok) := claimAndConsumeDurableWorkByIds uuid now cat ids target pre t in
  (ok = true ↔ ids ≠ [] ∧ NoDup ids ∧ Forall (consumable target pre t) ids) ∧
  (ok = false → t' = t) ∧
  (ok = true →
     (∀ i, i ∈ ids → ∃ r, row_at dw_id i t' = Some r ∧ dw_claim_state r = Consumed ∧
                          dw_consumed_at r = Some cat) ∧
     (∀ i, i ∉ ids → row_at dw_id i t' = row_at dw_id i t)).
Proof.
  intros Hwf Hu. destruct (decide (ids = [])) as [->|Hne]; [by split_and!; [naive_solver| |]|].
  rewrite claimAndConsume_eq by done. cbv zeta.
  destruct (claim_tokens uuid now _ t pre) as [t1 m] eqn:Hct.
  apply claim_phase_spec in Hct as (Hk1 & Hret & Hret' & Hoth); [|apply Hwf].
  assert (Forall (retirable m t1) ids ↔ Forall (consumable target pre t) ids) as Hall.
  { rewrite !Forall_forall. split; intros H i Hi; [by apply (Hret i Hi), H|by apply (Hret' Hu i Hi), H]. }
  pose proof (consume_all_spec cat ids m t1 Hk1) as Hc.
  destruct (consume_all cat ids m t1) as [t2|].
  - destruct Hc as (Hnd & Hr & Hin & Hout). split_and!; [|done|].
    + split; [|done]. intros _. by rewrite <-Hall.
    + intros _. split; [|intros i Hi; by rewrite Hout, Hoth].
      intros i Hi. rewrite Forall_forall in Hr. destruct (Hr i Hi) as (tok & r & _ & _ & Hat & _).
      exists (consume_set cat r). by rewrite Hin, Hat.
  - split_and!; [|done|done]. split; [done|]. intros (_ & H). by rewrite <-Hall in H.
Qed.

(** A concrete table for the witnesses. *)
Definition sample_work (i key target : string) : NewDurableWork :=
  MkNewWork i target "intake" "{}" key None None None None None None.
Definition sample_ops : list dw_op :=
  [OpInsert true false 100 (sample_work "a" "k1" "local");
   OpInsert true false 200 (sample_work "b" "k2" "local");
   OpInsert true false 300 (sample_work "c" "k3" "peer");
   OpClaimLocal "t1" 400 "local" None].
Definition sample_table : dw_table := dw_run sample_ops [].

Lemma dw_wf_nil : dw_wf [].
Proof. split_and!; constructor. Qed.

Lemma dw_exec_wf_step op t : dw_wf t → dw_wf (dw_exec op t).
Proof. apply shape_wf, exec_shape. Qed.

Lemma dw_run_app ops ops' t : dw_run (ops ++ ops') t = dw_run ops' (dw_run ops t).
Proof. apply foldl_app. Qed.

Lemma run_wf ops t : dw_wf t → dw_wf (dw_run ops t).
Proof.
  unfold dw_run. revert t. induction ops as [|op ops IH]; intros t H; [done|].
  by apply IH, dw_exec_wf_step.
Qed.

Lemma sample_table_wf : dw_wf sample_table.
Proof. apply run_wf, dw_wf_nil. Qed.

(** C2: every operation keeps the table well formed, whatever its arguments:
    ids and [(kind, idempotency_key)] pairs stay unique, a row carries a token
    and a claim time exactly while it is processing or transferring, a dead
    letter has its error, time and retention, a consumed row its time, and the
    reclassification budget is never exceeded. *)
Theorem dw_run_wf ops t : dw_wf t → dw_wf (dw_run ops t).
Proof. apply run_wf. Qed.

Lemma dw_run_wf_witness : dw_wf (dw_run sample_ops []).
Proof. apply dw_run_wf. exact dw_wf_nil. Defined.

Lemma claimAndConsume_atomic_witness :
  let pre := {["a" := "t1"]} : gmap string string in
  let uuid := λ n : nat, "u" in
  let '(t', ok) := claimAndConsumeDurableWorkByIds uuid 500 600 ["a"; "b"] "local" pre sample_table in
  (ok = true ↔ ["a"; "b"] ≠ [] ∧ NoDup ["a"; "b"] ∧
     Forall (consumable "local" pre sample_table) ["a"; "b"]) ∧
  (ok = false → t' = sample_table) ∧
  (ok = true →
     (∀ i, i ∈ ["a"; "b"] → ∃ r, row_at dw_id i t' = Some r ∧ dw_claim_state r = Consumed ∧
                                 dw_consumed_at r = Some 600) ∧
     (∀ i, i ∉ ["a"; "b"] → row_at dw_id i t' = row_at dw_id i sample_table)).
Proof.
  apply (claimAndConsume_atomic (λ n : nat, "u") 500 600 ["a"; "b"] "local" {["a" := "t1"]}
           sample_table sample_table_wf). reflexivity.
Defined.

(** *** The life cycle, operation by operation *)

(** The columns of a WHERE clause as propositions. *)
Lemma targets_true x r : targets x r = true ↔ dw_target_site_id r = x.
Proof. apply seqb_true. Qed.
Lemma of_kind_true k r : of_kind k r = true ↔ dw_kind r = k.
Proof. apply seqb_true. Qed.
Lemma opt_le_true o n : opt_le o n = true ↔ ∃ v, o = Some v ∧ v ≤ n.
Proof.
  destruct o as [v|]; simpl; [rewrite Z.leb_le|]; split; [eauto| |done|by intros (? & ? & _)].
  by intros (? & [= <-] & ?).
Qed.
Lemma opt_lt_true o n : opt_lt o n = true ↔ ∃ v, o = Some v ∧ v < n.
Proof.
  destruct o as [v|]; simpl; [rewrite Z.ltb_lt|]; split; [eauto| |done|by intros (? & ? & _)].
  by intros (? & [= <-] & ?).
Qed.
Lemma kind_clause_true kind r : kind_clause kind r = true ↔ selected_kind kind r.
Proof.
  unfold kind_clause, selected_kind, of_kind. destruct kind as [k|]; simpl; [|by split].
  unfold nonempty. destruct (seqb k EmptyString) eqn:E; simpl.
  - apply seqb_true in E. subst. split; [intros _ k [= <-]|]; done.
  - apply seqb_false in E. rewrite seqb_true. split; [by intros H k' [= <-]|]. intros H. by apply H.
Qed.
Lemma age_clause_true age now r : age_clause age now r = true ↔ at_least age now r.
Proof.
  unfold age_clause, at_least. destruct age as [m|]; [|by split].
  rewrite Z.leb_le. split; [intros H m' [= <-]; lia|]. intros H. specialize (H m eq_refl). lia.
Qed.

Lemma head_order_by_elem {A} (k : A → Z) t r : head (order_by k t) = Some r → r ∈ t.
Proof.
  intros H. apply (elem_of_order_by k). destruct (order_by k t); [done|]. simplify_eq/=. by left.
Qed.

Lemma purge_where_true sel now r : purge_where sel now r = true ↔ purgeable sel now r.
Proof.
  destruct sel as [kind older|kind older force]; simpl;
    rewrite ?andb_true_iff, ?orb_true_iff, ?andb_true_iff, ?in_state_true, kind_clause_true,
      ?age_clause_true; [naive_solver|].
  assert (dw_claim_state r = Pending → dw_claim_state r ≠ DeadLetter) as Hex by congruence.
  unfold targets. rewrite ?orb_true_iff, seqb_true. unfold at_least, PURGE_UNCLAIMED_FLOOR_MS.
  destruct force; simpl; [naive_solver|]. split.
  - intros (? & [(Hp & [?|?] & Ha)|?]); [done| |naive_solver].
    specialize (Ha _ eq_refl). unfold PURGE_UNCLAIMED_FLOOR_MS in Ha. split_and!; [done| |right; split_and!; [done|intros _; split; [done|]]].
    + intros m ->. simpl in Ha. lia.
    + lia.
  - intros (? & Ha & [?|[? Hf]]); [naive_solver|]. split; [done|]. left. split_and!; [done|naive_solver|].
    intros m [= <-]. destruct older as [o|]; simpl; [specialize (Ha o eq_refl)|];
      destruct (Hf eq_refl); unfold PURGE_UNCLAIMED_FLOOR_MS; lia.
Qed.

(** An operation that is one UPDATE, or one DELETE. *)
Lemma licensed_update op p f t i r r' :
  dw_exec op t = sql_update p f t → (∀ r, dw_id (f r) = dw_id r) →
  (∀ s, licensed op r s ↔ p r = true ∧ s = dw_claim_state (f r)) →
  row_at dw_id i t = Some r → row_at dw_id i (dw_exec op t) = Some r' →
  r' = r ∧ (takes_all op → ∀ s, ¬ licensed op r s) ∨ licensed op r (dw_claim_state r').
Proof.
  intros -> Hf Hl Hr. rewrite row_at_update, Hr by done. simpl. destruct (p r) eqn:Hp; intros [= <-].
  - right. by apply Hl.
  - left. split; [done|]. intros _ s [? _]%Hl. done.
Qed.

Ltac where_props :=
  unfold owned_by, held_as;
  rewrite ?andb_true_iff, ?negb_true_iff, ?in_state_true, ?in_state_false, ?has_id_true,
    ?holds_token_true, ?targets_true, ?of_kind_true, ?opt_le_true, ?Z.ltb_lt, ?Z.leb_le, ?seqb_true.
Ltac one_update :=
  eapply licensed_update; [reflexivity|done| |eassumption|eassumption];
  intros s; cbn [licensed]; where_props; simpl; naive_solver.

Lemma claimLocal_licensed tok now target kind t i r r' :
  dw_wf t → row_at dw_id i t = Some r →
  row_at dw_id i (dw_exec (OpClaimLocal tok now target kind) t) = Some r' →
  r' = r ∨ licensed (OpClaimLocal tok now target kind) r (dw_claim_state r').
Proof.
  intros (Hk & _) Hr. cbn [dw_exec]. unfold claimLocalDurableWork.
  destruct (head _) as [row|] eqn:E; simpl; [|rewrite Hr; intros [= <-]; by left].
  apply head_order_by_elem in E. rewrite claim_row_row, Hr. simpl.
  destruct (seqb i (dw_id row)) eqn:Hi; simpl; [|intros [= <-]; by left].
  destruct (in_state Pending r) eqn:Hp; intros [= <-]; [right|by left]. apply seqb_true in Hi.
  assert (row = r) as ->.
  { assert (row ∈ t) as Hrow by (by destruct (truthy kind); apply elem_of_select in E as [? _]).
    apply (row_at_elem dw_id i t row Hk) in Hrow; [|done]. rewrite Hr in Hrow. by simplify_eq. }
  apply in_state_true in Hp. split; [done|]. split; [done|]. split.
  - destruct (truthy kind); apply elem_of_select in E as [_ E]; dw_props; by apply targets_true.
  - apply kind_clause_true. unfold kind_clause.
    destruct (truthy kind); [|done]. apply elem_of_select in E as [_ E]. by dw_props.
Qed.

Lemma claim_each_row uuid now rows i t r r' :
  row_at dw_id i t = Some r → row_at dw_id i (claim_each uuid now rows t).1 = Some r' →
  r' = r ∨ dw_claim_state r = Pending ∧ dw_claim_state r' = Processing ∧ i ∈ dw_id <$> rows.
Proof.
  revert uuid t r. induction rows as [|row rows IH]; intros uuid t r Hr; simpl.
  { rewrite Hr. intros [= <-]. by left. }
  set (t1 := claim_row (uuid 0%nat) now (dw_id row) t).
  pose proof (claim_row_row (uuid 0%nat) now (dw_id row) i t) as H1. fold t1 in H1.
  rewrite Hr in H1. simpl in H1.
  specialize (IH (λ n, uuid (S n)) t1). destruct (claim_each _ now rows t1) as [t' c]. simpl in *.
  intros Hr'. destruct (seqb i (dw_id row) && in_state Pending r) eqn:E.
  - bool_props. apply seqb_true in H. apply in_state_true in H0. subst.
    destruct (IH _ H1 Hr') as [->|(Hp & _)]; [|done]. right. split_and!; [done..|by left].
  - destruct (IH _ H1 Hr') as [->|(? & ? & ?)]; [by left|]. right. split_and!; [done..|by right].
Qed.

Lemma claimByIds_licensed uuid now ids target t i r r' :
  dw_wf t → row_at dw_id i t = Some r →
  row_at dw_id i (dw_exec (OpClaimByIds uuid now ids target) t) = Some r' →
  r' = r ∨ licensed (OpClaimByIds uuid now ids target) r (dw_claim_state r').
Proof.
  intros (Hk & _) Hr. cbn [dw_exec]. unfold claimDurableWorkByIds.
  destruct (_ =? 0)%nat; [simpl; rewrite Hr; intros [= <-]; by left|].
  intros Hr'. destruct (claim_each_row _ _ _ _ _ _ _ Hr Hr') as [->|(Hp & Hs & Hi)]; [by left|right].
  apply list_elem_of_fmap in Hi as (row & -> & (Hrow & Ht & _ & Hids)%selected_spec).
  assert (row = r) as ->; [|done].
  apply (row_at_elem dw_id (dw_id row)) in Hrow; [|done..]. rewrite Hr in Hrow. by simplify_eq.
Qed.

Lemma claimAndConsume_licensed uuid now cat ids target pre t i r r' :
  dw_wf t → row_at dw_id i t = Some r →
  row_at dw_id i (dw_exec (OpClaimAndConsume uuid now cat ids target pre) t) = Some r' →
  r' = r ∨ licensed (OpClaimAndConsume uuid now cat ids target pre) r (dw_claim_state r').
Proof.
  intros (Hk & _) Hr. cbn [dw_exec]. destruct (decide (ids = [])) as [->|Hne].
  { simpl. rewrite Hr. intros [= <-]. by left. }
  rewrite claimAndConsume_eq by done. cbv zeta.
  destruct (claim_tokens uuid now _ t pre) as [t1 m] eqn:Hct.
  apply claim_phase_spec in Hct as (Hk1 & Hret & _ & Hoth); [|done].
  pose proof (consume_all_spec cat ids m t1 Hk1) as Hc.
  destruct (consume_all cat ids m t1) as [t2|]; simpl; [|rewrite Hr; intros [= <-]; by left].
  destruct Hc as (_ & Hall & Hin & Hout). rewrite Forall_forall in Hall.
  destruct (decide (i ∈ ids)) as [Hi|Hi]; [|rewrite Hout, Hoth, Hr by done; intros [= <-]; by left].
  rewrite Hin by done. pose proof (Hall i Hi) as Hri. pose proof Hri as (tok & r1 & _ & _ & -> & _).
  intros [= <-]. right. apply Hret in Hri as (r0 & Hr0 & Hco); [|done]. rewrite Hr in Hr0.
  simplify_eq. apply row_at_Some in Hr as [_ Hid]. cbn [licensed]. rewrite Hid.
  split_and!; [done..|]. destruct (pre !! i); naive_solver.
Qed.

Lemma transfer_stale_true now r :
  transfer_stale (now - DURABLE_WORK_TRANSFER_STALE_MS) now r = true ↔ overdue now r.
Proof.
  unfold transfer_stale, overdue, null_or_gt, DURABLE_WORK_TRANSFER_STALE_MS. where_props.
  assert (match dw_expires_at r with Some v => now <? v | None => true end = true ↔
          ∀ e, dw_expires_at r = Some e → now < e) as ->.
  { destruct (dw_expires_at r) as [e|]; [|by split]. rewrite Z.ltb_lt. naive_solver. }
  split; [intros [[? (c & ? & ?)] ?]|intros (? & (c & ? & ?) & ?)]; split_and!; eauto with lia.
Qed.

(** Two UPDATEs, the second of which skips what the first changed. *)
Lemma row_at_update2 p f q g i t r :
  (∀ r, dw_id (f r) = dw_id r) → (∀ r, dw_id (g r) = dw_id r) → (∀ r, q (f r) = false) →
  row_at dw_id i t = Some r →
  row_at dw_id i (sql_update q g (sql_update p f t)) =
    Some (if p r then f r else if q r then g r else r).
Proof.
  intros Hf Hg Hq Hr. rewrite !row_at_update, Hr by done. simpl.
  destruct (p r); [by rewrite Hq|by destruct (q r)].
Qed.

Lemma sweep_licensed m now t i r r' :
  row_at dw_id i t = Some r → row_at dw_id i (dw_exec (OpSweepStale m now) t) = Some r' →
  r' = r ∧ (∀ s, ¬ licensed (OpSweepStale m now) r s) ∨
  licensed (OpSweepStale m now) r (dw_claim_state r').
Proof.
  intros Hr. cbn [dw_exec]. rewrite sweep_eq. cbv zeta. erewrite row_at_update2 by done.
  cbn [licensed]. pose proof (transfer_stale_true now r) as Ho.
  destruct (transfer_stale _ now r) eqn:Hs; simpl.
  - destruct (m <=? dw_attempt_count r) eqn:Hm; simpl.
    + intros [= <-]. right. simpl. split; [by apply Ho|done].
    + assert (dw_attempt_count r <? m = true) as -> by lia. intros [= <-]. right.
      split; [by apply Ho|done].
  - intros [= <-]. left. split; [done|]. intros s [?%Ho _]. done.
Qed.

Lemma redriveTransferring_licensed i m now t j r r' :
  dw_wf t → row_at dw_id j t = Some r →
  row_at dw_id j (dw_exec (OpRedriveTransferring i m now) t) = Some r' →
  r' = r ∧ (∀ s, ¬ licensed (OpRedriveTransferring i m now) r s) ∨
  licensed (OpRedriveTransferring i m now) r (dw_claim_state r').
Proof.
  intros (Hk & _) Hr. cbn [dw_exec]. unfold redriveTransferringDurableWork, deadLetterDurableWorkRows.
  set (dies := λ r, in_state Transferring r && (m <=? dw_attempt_count r)).
  set (kill := dead_set now (Some TRANSFER_EXHAUSTED_LAST_ERROR) false).
  assert (∀ s, licensed (OpRedriveTransferring i m now) r s ↔
    has_id i r && in_state Transferring r = true ∧
    s = if m <=? dw_attempt_count r then DeadLetter else Pending) as Hl.
  { intros s. cbn [licensed]. where_props. naive_solver. }
  destruct (update_id_spec dies kill i t Hk (λ _, eq_refl)) as [Hcount Hrow].
  assert (dw_id r = j) as Hj by (by apply row_at_Some in Hr as [_ ?]).
  unfold run_update. destruct (_ =? 1)%nat eqn:Hdead; simpl.
  - rewrite Hrow, Hr. simpl. destruct (proj1 Hcount eq_refl) as (r0 & Hr0 & Hd). unfold dies in *.
    destruct (seqb j i) eqn:Hji; simpl.
    + apply seqb_true in Hji. rewrite Hji, Hr0 in Hr. simplify_eq. rewrite Hd. intros [= <-]. right.
      apply andb_prop in Hd as [E1 E2]. apply Hl. rewrite E1, E2, andb_true_r.
      split; [|done]. apply has_id_true. by apply row_at_Some in Hr0 as [_ ?].
    + intros [= <-]. left. split; [done|]. intros s [[Hs _]%andb_prop _]%Hl.
      apply has_id_true in Hs. apply seqb_false in Hji. congruence.
  - rewrite (row_at_update2 _ _ _ _ _ _ r); [|done..| |done].
    2: { intros r0. apply andb_false_r. }
    unfold dies. destruct (has_id i r && in_state Transferring r) eqn:E.
    + apply andb_true_iff in E as [E1 E2]. rewrite E1, E2. cbn [andb].
      destruct (m <=? dw_attempt_count r) eqn:Hm; cbn [andb]; [|assert (dw_attempt_count r <? m = true) as -> by lia];
        intros [= <-]; right; (split_and!; [by apply has_id_true|by apply in_state_true|done]).
    + rewrite !andb_assoc, E. cbn [andb]. intros [= <-]. left. split; [done|]. by intros s [? _]%Hl.
Qed.

(** Every operation takes a row only where it is licensed to, and all but the
    three claims take every such row. *)
Lemma exec_licensed op t i r r' :
  dw_wf t → updates_only op = true →
  row_at dw_id i t = Some r → row_at dw_id i (dw_exec op t) = Some r' →
  r' = r ∧ (takes_all op → ∀ s, ¬ licensed op r s) ∨ licensed op r (dw_claim_state r').
Proof.
  intros Hwf Hop Hr Hr'. destruct op; try discriminate Hop; clear Hop.
  - destruct (claimLocal_licensed _ _ _ _ _ _ _ _ Hwf Hr Hr'); [by left|by right].
  - destruct (claimByIds_licensed _ _ _ _ _ _ _ _ Hwf Hr Hr'); [by left|by right].
  - destruct (claimAndConsume_licensed _ _ _ _ _ _ _ _ _ _ Hwf Hr Hr'); [by left|by right].
  - one_update.
  - one_update.
  - one_update.
  - one_update.
  - one_update.
  - one_update.
  - destruct (sweep_licensed _ _ _ _ _ _ Hr Hr') as [[]|]; auto.
  - one_update.
  - one_update.
  - one_update.
  - one_update.
  - destruct (redriveTransferring_licensed _ _ _ _ _ _ _ Hwf Hr Hr') as [[]|]; auto.
  - eapply licensed_update; [reflexivity|done| |eassumption|eassumption].
    intros s. cbn [licensed]. unfold reclassifiable. where_props. simpl.
    destruct (dw_last_error r) as [e|]; [|naive_solver]. rewrite seqb_true.
    destruct (dw_dead_lettered_at r) as [d|]; [|naive_solver]. rewrite Z.leb_le. naive_solver.
  - one_update.
  - one_update.
Qed.

Lemma exec_edges op t i r r' :
  dw_wf t → row_at dw_id i t = Some r → row_at dw_id i (dw_exec op t) = Some r' → rtc edge r r'.
Proof.
  intros Hwf. apply shape_row; [apply exec_shape|done].
Qed.

(** The four operations that delete: nothing is licensed, and exactly the rows
    of the DELETE's WHERE clause leave. *)
Lemma delete_path op p t i :
  dw_wf t → dw_exec op t = sql_delete p t → (∀ r, p r = true ↔ removed_by op r) →
  (∀ r s, ¬ licensed op r s) → (∀ bus tx now w, op ≠ OpInsert bus tx now w) →
  row_path op i t (row_at dw_id i t) (row_at dw_id i (dw_exec op t)).
Proof.
  intros (Hk & _) -> Hp Hl Hi. rewrite row_at_delete by done.
  destruct (row_at dw_id i t) as [r|]; [|by intros ???? ?%Hi]. specialize (Hp r).
  destruct (p r); [by apply Hp|]. split; [by intros ?%Hp|]. left. split; [done|]. by intros _ s.
Qed.

Lemma validate_fresh now w : validateDurableWork w = Ok tt ↔ fresh_row (new_row now w).
Proof.
  unfold validateDurableWork, fresh_row, unowned. simpl.
  destruct (nonempty (nw_id w)), (nonempty (nw_target_site_id w)), (nonempty (nw_kind w)),
    (nonempty (nw_idempotency_key w)); simpl; try (split; [done|intuition congruence]).
  destruct (nonempty (nw_payload w)) eqn:Hp; simpl.
  - destruct (json_parse (nw_payload w)); split; [by intuition eauto|done|done|].
    intros (_ & _ & _ & _ & _ & _ & _ & _ & _ & _ & _ & [v Hv]). done.
  - split; [done|]. intros (_ & _ & _ & _ & _ & _ & _ & _ & _ & _ & _ & [v Hv]).
    by destruct (nw_payload w).
Qed.

Lemma unchanged_path op i t :
  (∀ r, row_at dw_id i t = Some r → ¬ removed_by op r ∧ (takes_all op → ∀ s, ¬ licensed op r s)) →
  (row_at dw_id i t = None → row_path op i t None None) →
  row_path op i t (row_at dw_id i t) (row_at dw_id i t).
Proof.
  intros Hs Hn. destruct (row_at dw_id i t) as [r|]; [|by apply Hn].
  destruct (Hs r eq_refl). split; [done|]. by left.
Qed.

Lemma insert_path bus tx now w t i :
  row_path (OpInsert bus tx now w) i t (row_at dw_id i t)
    (row_at dw_id i (dw_exec (OpInsert bus tx now w) t)).
Proof.
  cbn [dw_exec]. unfold insertDurableWork. pose proof (validate_fresh now w) as Hv.
  destruct (validateDurableWork w) as [[]|e]; simpl.
  2: { apply unchanged_path; [intros r _; split; [intros []|intros _ s []]|]. intros _ bus' tx' now' w' [= <- <- <- <-] _. left.
       by rewrite <-Hv. }
  assert (fresh_row (new_row now w)) as Hf by (by apply Hv).
  destruct (insert_or_ignore_cases dw_clash (new_row now w) t) as [[-> (old & Hold & Hc)]|[-> Hc]]; simpl.
  - apply unchanged_path; [intros r _; split; [intros []|intros _ s []]|]. intros Hn bus' tx' now' w' [= <- <- <- <-] Hid. right.
    exists old. apply orb_prop in Hc as [Hc|Hc].
    + exfalso. apply seqb_true in Hc. simpl in Hc.
      by apply (proj1 (row_at_None dw_id i t) Hn old); [|congruence].
    + apply andb_prop in Hc as [?%seqb_true ?%seqb_true]. done.
  - rewrite row_at_app. destruct (row_at dw_id i t) as [r|] eqn:Hr.
    { split; [intros []|]. left. split; [done|]. by intros _ s []. }
    rewrite row_at_cons. simpl. destruct (seqb (nw_id w) i) eqn:Hi.
    + apply seqb_true in Hi. exists bus, tx, now, w. split_and!; [done..|].
      intros old Hold%Hc Hk Hik. apply orb_false_iff in Hold as [_ Hx].
      apply andb_false_iff in Hx as [?%seqb_false|?%seqb_false]; done.
    + apply seqb_false in Hi. by intros bus' tx' now' w' [= <- <- <- <-].
Qed.

(** C1: what every operation does to every row.  A row enters the table only as
    the fresh pending row of an insertion that is valid and behind no existing
    [(kind, idempotency_key)] pair, and such an insertion is never dropped.  A
    row leaves it exactly when the operation is an acknowledgement presenting
    its transfer token, a pruning whose cutoff it is past, or a purge whose
    kind, age and (unforced) local-target and one-hour conditions it meets.  A
    row that stays is unchanged, or the operation takes it from the states,
    targets, ids, tokens and deadlines it is licensed for to the state it is
    licensed to give, along edges of the life cycle; and every operation but
    the three claims takes each row it is licensed to take. *)
Theorem dw_exec_life op t i :
  dw_wf t → row_path op i t (row_at dw_id i t) (row_at dw_id i (dw_exec op t)).
Proof.
  intros Hwf. destruct (updates_only op) eqn:Hop.
  - pose proof (upds_row i _ _ (exec_upds op t Hop)) as Hu.
    destruct (row_at dw_id i t) as [r|] eqn:Hr.
    + destruct Hu as (r' & Hr' & He). rewrite Hr'. split; [destruct op; try discriminate Hop; by intros []|].
      destruct (exec_licensed op t i r r' Hwf Hop Hr Hr') as [|]; [by left|by right].
    + rewrite Hu. intros bus tx now w ->. done.
  - destruct op; try discriminate Hop; [apply insert_path| | | |];
      (eapply delete_path; [done|reflexivity| |by intros r s []|done]); intros r; cbn [removed_by].
    + where_props. unfold held_as. naive_solver.
    + by rewrite andb_true_iff, in_state_true, opt_lt_true.
    + by where_props.
    + apply purge_where_true.
Qed.

Lemma dw_exec_life_witness :
  row_path (OpAcknowledge 500 "a" "t1") "a" sample_table (row_at dw_id "a" sample_table)
    (row_at dw_id "a" (dw_exec (OpAcknowledge 500 "a" "t1") sample_table)).
Proof. apply dw_exec_life. exact sample_table_wf. Defined.

(** *** Token fencing *)

(** The operations that take rows from their holder without its token: boot
    recovery, the expiry and staleness sweeps, and the operator commands. *)
Definition administrative (op : dw_op) : bool :=
  match op with
  | OpResetProcessing _ | OpResetTransferringLocal | OpSweepStale _ _ | OpDeadLetterExpired _
  | OpDeadLetter _ _ _ | OpRedriveTransferring _ _ _ => true
  | _ => false
  end.

(** The operation is made by whoever holds [tok] on row [i]. *)
Definition presents (i tok : string) (op : dw_op) : bool :=
  match op with
  | OpAcknowledge _ i' tok' | OpRelease i' tok' | OpRollbackUnsent i' tok' | OpAckTransfer i' tok'
  | OpDeadLetterClaimed i' tok' _ _ => seqb i i' && seqb tok tok'
  | OpClaimAndConsume _ _ _ ids _ pre =>
      match pre !! i with Some tok' => seqb tok tok' | None => false end
  | _ => false
  end.

Lemma owned_by_other st i tok i' tok' r :
  dw_id r = i → dw_claim_token r = Some tok → seqb i i' && seqb tok tok' = false →
  owned_by st i' tok' r = false.
Proof.
  intros <- Ht H. unfold owned_by, has_id, holds_token. rewrite Ht.
  destruct (seqb (dw_id r) i'); [|done]. simpl in *. rewrite H. by rewrite andb_false_r.
Qed.

Lemma claim_row_held tok now i j t r :
  row_at dw_id j t = Some r → dw_claim_state r ≠ Pending →
  row_at dw_id j (claim_row tok now i t) = Some r.
Proof.
  intros Hr Hs. rewrite claim_row_row, Hr. simpl. apply in_state_false in Hs as ->.
  by rewrite andb_false_r.
Qed.

Lemma claim_each_held uuid now rows j t r :
  row_at dw_id j t = Some r → dw_claim_state r ≠ Pending →
  row_at dw_id j (claim_each uuid now rows t).1 = Some r.
Proof.
  revert uuid t. induction rows as [|row rows IH]; intros uuid t Hr Hs; [done|]. cbn [claim_each].
  specialize (IH (λ n, uuid (S n)) _ (claim_row_held (uuid 0%nat) now (dw_id row) j t r Hr Hs) Hs).
  by destruct (claim_each _ now rows _).
Qed.

Lemma insert_at bus tx now w t i r t' b evs :
  insertDurableWork bus tx now w t = Ok (t', b, evs) → row_at dw_id i t = Some r →
  row_at dw_id i t' = Some r.
Proof.
  unfold insertDurableWork. destruct (validateDurableWork w) as [[]|]; [|done]. cbn [result_bind].
  destruct (insert_or_ignore_cases dw_clash (new_row now w) t) as [[-> _]|[-> Hc]];
    intros [= <- <- <-] Hr; [done|]. by rewrite row_at_app, Hr.
Qed.

Lemma claimAndConsume_held uuid now cat ids target pre t i r tok :
  dw_wf t → (∀ n, nonempty (uuid n) = true) → row_at dw_id i t = Some r →
  dw_claim_state r ≠ Pending → dw_claim_token r = Some tok → pre !! i ≠ Some tok →
  row_at dw_id i (claimAndConsumeDurableWorkByIds uuid now cat ids target pre t).1 = Some r.
Proof.
  intros Hwf Hu Hr Hs Ht Hpre. destruct (decide (ids = [])) as [->|Hne]; [done|].
  rewrite claimAndConsume_eq by done. cbv zeta.
  destruct (claim_tokens uuid now _ t pre) as [t1 m] eqn:Hct.
  apply claim_phase_spec in Hct as (Hk1 & Hret & Hret' & Hoth); [|apply Hwf].
  pose proof (consume_all_spec cat ids m t1 Hk1) as Hc.
  destruct (consume_all cat ids m t1) as [t2|]; [|done]. destruct Hc as (_ & Hall & _ & Hout).
  simpl. destruct (decide (i ∈ ids)) as [Hi|Hi]; [|by rewrite Hout, Hoth].
  exfalso. rewrite Forall_forall in Hall. specialize (Hall i Hi).
  apply (Hret i Hi) in Hall as (r' & Hr' & Hcond). rewrite Hr in Hr'. injection Hr' as <-.
  destruct (pre !! i) as [tok'|]; [|by destruct Hcond]. destruct Hcond as (_ & _ & ?). congruence.
Qed.

Definition uuids_ok (op : dw_op) : Prop :=
  match op with OpClaimAndConsume uuid _ _ _ _ _ => ∀ n, nonempty (uuid n) = true | _ => True end.

(** C3: while a row is held under a token, no operation changes it other than
    one presenting that very token, or an administrative one: concurrent
    claims, stale acknowledgements and releases, prunes and purges leave it
    exactly as it is. *)
Theorem token_fencing op t i r tok :
  dw_wf t → row_at dw_id i t = Some r → dw_claim_token r = Some tok → uuids_ok op →
  administrative op = false → presents i tok op = false →
  row_at dw_id i (dw_exec op t) = Some r.
Proof.
  intros Hwf Hr Ht Hu Ha Hp. pose proof (row_at_Some _ _ _ _ Hr) as [Hin Hid].
  assert (dw_claim_state r = Processing ∨ dw_claim_state r = Transferring) as Hs.
  { destruct Hwf as (_ & _ & Hrow). rewrite Forall_forall in Hrow.
    destruct (Hrow r Hin) as (_ & Hun & _). unfold unowned in Hun.
    destruct (dw_claim_state r); auto; destruct Hun; congruence. }
  assert (in_state Pending r = false ∧ in_state Consumed r = false ∧ in_state DeadLetter r = false)
    as (H1 & H2 & H3) by (rewrite !in_state_false; destruct Hs as [-> | ->]; done).
  assert (dw_claim_state r ≠ Pending) as Hnp by (by apply in_state_false).
  destruct op; cbn [dw_exec administrative presents] in *; try done.
  - destruct (insertDurableWork _ _ _ _ _) as [[[t' b] evs]|] eqn:E; [|done].
    by eapply insert_at.
  - unfold claimLocalDurableWork. destruct (head _); [by apply claim_row_held|done].
  - unfold claimDurableWorkByIds. destruct (_ =? 0)%nat; [done|by apply claim_each_held].
  - eapply claimAndConsume_held; [done..|]. intros Hpre. by rewrite Hpre, seqb_refl in Hp.
  - apply row_update_miss; [done..|]. by eapply owned_by_other.
  - apply row_update_miss; [done..|]. by eapply owned_by_other.
  - apply row_update_miss; [done..|]. by rewrite H1, andb_false_r.
  - apply row_update_miss; [done..|]. by eapply owned_by_other.
  - apply row_delete_miss; [done..|]. by eapply owned_by_other.
  - apply row_update_miss; [done..|]. by eapply owned_by_other.
  - apply row_update_miss; [done..|]. by rewrite H1, andb_false_r.
  - apply row_update_miss; [done..|]. unfold reclassifiable. by rewrite H3.
  - apply row_delete_miss; [done..|]. by rewrite H2.
  - apply row_update_miss; [done..|]. by rewrite H1, !andb_false_r.
  - apply row_delete_miss; [done..|]. by rewrite H3.
  - apply row_delete_miss; [done..|]. destruct selector; simpl; by rewrite ?H1, H3, andb_false_r.
  - apply row_update_miss; [done..|]. by rewrite H3, andb_false_r.
Qed.

Lemma token_fencing_witness :
  match row_at dw_id "a" sample_table with
  | Some r => row_at dw_id "a" (dw_exec (OpAcknowledge 500 "a" "stale") sample_table) = Some r
  | None => False
  end.
Proof.
  apply (token_fencing (OpAcknowledge 500 "a" "stale") sample_table "a" _ "t1" sample_table_wf);
    reflexivity.
Defined.

(** *** Rows that stay in the table *)

(** Row [i] is present after every prefix of the operations. *)
Fixpoint survives (i : string) (ops : list dw_op) (t : dw_table) : Prop :=
  is_Some (row_at dw_id i t) ∧
  match ops with [] => True | op :: ops' => survives i ops' (dw_exec op t) end.

Lemma edges_same_work r r' : rtc edge r r' → same_work r r'.
Proof.
  induction 1 as [|r1 r2 r3 [Hw _] _ IH]; [apply same_work_refl|]. by eapply same_work_trans.
Qed.

Lemma edge_reclassify_le r r' : edge r r' → dw_reclassify_count r ≤ dw_reclassify_count r'.
Proof. intros [_ H]. destruct H; unfold outcome in *; simplify_eq; lia. Qed.

Lemma edges_reclassify_le r r' : rtc edge r r' → dw_reclassify_count r ≤ dw_reclassify_count r'.
Proof. induction 1 as [|??? H%edge_reclassify_le _ IH]; lia. Qed.

Lemma survives_run i ops t :
  dw_wf t → survives i ops t → ∃ r r', row_at dw_id i t = Some r ∧
    row_at dw_id i (dw_run ops t) = Some r' ∧ rtc edge r r'.
Proof.
  revert t. induction ops as [|op ops IH]; intros t Hwf [[r Hr] H]; [by exists r, r|].
  destruct (IH (dw_exec op t)) as (r1 & r' & Hr1 & Hr' & He); [by apply dw_exec_wf_step|done|].
  exists r, r'. split_and!; [done..|]. etrans; [by eapply exec_edges|done].
Qed.

Fixpoint survivesb (i : string) (ops : list dw_op) (t : dw_table) : bool :=
  (match row_at dw_id i t with Some _ => true | None => false end) &&
  match ops with [] => true | op :: ops' => survivesb i ops' (dw_exec op t) end.

Lemma survivesb_true i ops t : survivesb i ops t = true → survives i ops t.
Proof.
  revert t. induction ops as [|op ops IH]; intros t H; simpl in *; bool_props.
  - split; [|done]. by destruct (row_at dw_id i t).
  - split; [by destruct (row_at dw_id i t)|by apply IH].
Qed.

(** the insert fence makes redelivery idempotent: once a row was inserted,
    and as long as it stays in the table through whatever operations follow
    (claims, consumption, transfers, dead-lettering), inserting work with the
    same kind and idempotency key changes nothing, reports [false] and puts no
    event on the bus. *)
Theorem insert_fence bus tx now w t t' evs ops bus' tx' now' w' :
  dw_wf t → insertDurableWork bus tx now w t = Ok (t', true, evs) → survives (nw_id w) ops t' →
  validateDurableWork w' = Ok tt → nw_kind w' = nw_kind w →
  nw_idempotency_key w' = nw_idempotency_key w →
  insertDurableWork bus' tx' now' w' (dw_run ops t') = Ok (dw_run ops t', false, []).
Proof.
  intros Hwf Hins Hsv Hv Hkind Hkey. pose proof (shape_wf _ _ (insert_shape _ _ _ _ _ _ _ _ Hins) Hwf) as Hwf'.
  destruct (survives_run _ _ _ Hwf' Hsv) as (r & r' & Hr & Hr' & (_ & _ & Hk & _ & Hi & _)%edges_same_work).
  assert (row_at dw_id (nw_id w) t' = Some (new_row now w)) as Hnew.
  { unfold insertDurableWork in Hins. destruct (validateDurableWork w) as [[]|]; [|done].
    cbn [result_bind] in Hins.
    destruct (insert_or_ignore_cases dw_clash (new_row now w) t) as [[Heq _]|[Heq Hc]];
      rewrite Heq in Hins; [done|]. injection Hins as <- _.
    assert (row_at dw_id (nw_id w) t = None) as Hnone.
    { apply row_at_None. intros old Hold%Hc Hid. unfold dw_clash in Hold. simpl in Hold.
      by rewrite Hid, seqb_refl in Hold. }
    rewrite row_at_app, Hnone, row_at_cons. simpl. by rewrite seqb_refl. }
  rewrite Hr in Hnew. injection Hnew as ->. simpl in Hk, Hi. apply row_at_Some in Hr' as [Hin _].
  unfold insertDurableWork. rewrite Hv. cbn [result_bind].
  destruct (insert_or_ignore_cases dw_clash (new_row now' w') (dw_run ops t')) as [[-> _]|[_ Hc]];
    [done|].
  specialize (Hc r' Hin). unfold dw_clash in Hc. simpl in Hc.
  by rewrite Hk, Hi, Hkind, Hkey, !seqb_refl, orb_true_r in Hc.
Qed.

Lemma insert_fence_witness :
  match insertDurableWork true false 100 (sample_work "a" "k1" "local") [] with
  | Ok (t', true, evs) =>
      let t'' := dw_run [OpClaimLocal "t1" 400 "local" None; OpAcknowledge 500 "a" "t1"] t' in
      insertDurableWork true false 600 (sample_work "a2" "k1" "local") t'' = Ok (t'', false, [])
  | _ => False
  end.
Proof.
  apply (insert_fence true false 100 (sample_work "a" "k1" "local") [] _
    [Written "a" "local"]); try reflexivity; [exact dw_wf_nil|].
  apply survivesb_true. vm_compute. reflexivity.
Defined.

(** *** The reclassification budget *)
Definition is_reclassify (op : dw_op) : bool :=
  match op with OpReclassify _ _ _ => true | _ => false end.

(** How many reconnect reclassifications of the run changed row [i]. *)
Fixpoint reclassify_hits (i : string) (ops : list dw_op) (t : dw_table) : Z :=
  match ops with
  | [] => 0
  | op :: ops' =>
      (match row_at dw_id i t, op with
       | Some r, OpReclassify peer w now => if reclassifiable peer (now - w) r then 1 else 0
       | _, _ => 0
       end) + reclassify_hits i ops' (dw_exec op t)
  end.

Lemma reclassify_hits_bound i ops t r :
  dw_wf t → survives i ops t → row_at dw_id i t = Some r →
  ∃ r', row_at dw_id i (dw_run ops t) = Some r' ∧
        dw_reclassify_count r + reclassify_hits i ops t ≤ dw_reclassify_count r'.
Proof.
  revert t r. induction ops as [|op ops IH]; intros t r Hwf [_ Hsv] Hr.
  { exists r. simpl. split; [done|lia]. }
  assert (is_Some (row_at dw_id i (dw_exec op t))) as [r1 Hr1] by (destruct ops; apply Hsv).
  destruct (IH _ r1 (dw_exec_wf_step op t Hwf) Hsv Hr1) as (r' & Hr' & Hle).
  exists r'. split; [done|]. cbn [reclassify_hits]. rewrite Hr.
  pose proof (edges_reclassify_le _ _ (exec_edges _ _ _ _ _ Hwf Hr Hr1)) as Hle1.
  destruct op; try lia. destruct (reclassifiable _ _ r) eqn:E; [|lia].
  cbn [dw_exec] in Hr1. unfold reclassifyTransferExhaustedDeadLetters in Hr1. simpl in Hr1.
  rewrite (row_update_hit _ _ _ _ r) in Hr1 by done. injection Hr1 as <-. simpl in *. lia.
Qed.

(** whatever happens between reconnects, a row that stays in the table is
    returned from dead letter to pending by reconnect reclassification at most
    [TRANSFER_EXHAUSTED_RECLASSIFY_BUDGET] times over its whole life. *)
Theorem reclassify_budget i ops t :
  dw_wf t → survives i ops t → reclassify_hits i ops t ≤ TRANSFER_EXHAUSTED_RECLASSIFY_BUDGET.
Proof.
  intros Hwf Hsv. assert (is_Some (row_at dw_id i t)) as [r Hr] by (destruct ops; apply Hsv).
  destruct (reclassify_hits_bound i ops t r Hwf Hsv Hr) as (r' & Hr' & Hle).
  assert (∀ t0 r0, dw_wf t0 → row_at dw_id i t0 = Some r0 →
    0 ≤ dw_reclassify_count r0 ≤ TRANSFER_EXHAUSTED_RECLASSIFY_BUDGET) as Hb.
  { intros t0 r0 (_ & _ & H) [Hin _]%row_at_Some. rewrite Forall_forall in H. apply (H r0 Hin). }
  pose proof (Hb _ _ Hwf Hr). pose proof (Hb _ _ (run_wf ops t Hwf) Hr'). lia.
Qed.

(** One reconnect after an exhausted transfer. *)
Definition exhaust_and_reclassify : list dw_op :=
  [OpBeginTransfer "x" 1000 "c"; OpSweepStale 0 99000; OpReclassify "peer" 1000 99500].

Lemma reclassify_budget_witness :
  reclassify_hits "c" (exhaust_and_reclassify ++ exhaust_and_reclassify) sample_table ≤
    TRANSFER_EXHAUSTED_RECLASSIFY_BUDGET.
Proof.
  apply reclassify_budget; [exact sample_table_wf|].
  apply survivesb_true. vm_compute. reflexivity.
Defined.

(** *** Lost acknowledgements *)

(** One transfer whose acknowledgement never arrives: begin, then the sweep
    after the staleness window. *)
Definition lost_ack (uuid : string) (now : Z) (i : string) (t : dw_table) : dw_table :=
  dw_exec (OpSweepStale DURABLE_WORK_MAX_ATTEMPTS (now + DURABLE_WORK_TRANSFER_STALE_MS))
    (dw_exec (OpBeginTransfer uuid now i) t).

Fixpoint lost_acks (n : nat) (uuid : nat → string) (now : nat → Z) (i : string) (t : dw_table)
    : dw_table :=
  match n with
  | O => t
  | S n' => lost_ack (uuid n') (now n') i (lost_acks n' uuid now i t)
  end.

Lemma lost_ack_row uuid now i t r :
  row_at dw_id i t = Some r → dw_claim_state r = Pending → dw_expires_at r = None →
  row_at dw_id i (lost_ack uuid now i t) =
    Some (if dw_attempt_count r <? DURABLE_WORK_MAX_ATTEMPTS
          then repend_charged (set_claim Transferring (Some uuid) (Some now) r)
          else dead_set (now + DURABLE_WORK_TRANSFER_STALE_MS) (Some TRANSFER_EXHAUSTED_LAST_ERROR)
                 false (set_claim Transferring (Some uuid) (Some now) r)).
Proof.
  intros Hr Hs He. pose proof (row_at_Some _ _ _ _ Hr) as [_ Hid].
  unfold lost_ack. set (T := DURABLE_WORK_MAX_ATTEMPTS). set (N := now + _).
  set (r1 := set_claim Transferring (Some uuid) (Some now) r).
  set (t1 := dw_exec (OpBeginTransfer uuid now i) t).
  assert (row_at dw_id i t1 = Some r1) as H1.
  { apply (row_update_hit (λ r, has_id i r && in_state Pending r)); [done..|].
    unfold has_id. rewrite Hid, seqb_refl. simpl. by apply in_state_true. }
  clearbody t1. cbn [dw_exec]. rewrite sweep_eq. cbv zeta.
  assert (transfer_stale (N - DURABLE_WORK_TRANSFER_STALE_MS) N r1 = true) as Hst.
  { unfold transfer_stale. rewrite !andb_true_iff, in_state_true. unfold r1, N. simpl.
    rewrite He. split_and!; [done|lia|done]. }
  rewrite !row_at_update by done. rewrite H1. cbn [option_fmap option_map fmap].
  assert (dw_attempt_count r1 = dw_attempt_count r) as Ha by done.
  destruct (Z.ltb_spec (dw_attempt_count r) T).
  - assert (T <=? dw_attempt_count r1 = false) as Hf by lia.
    rewrite Hst, Hf. cbn [andb]. rewrite Hst.
    by assert (dw_attempt_count r1 <? T = true) as -> by lia.
  - assert (T <=? dw_attempt_count r1 = true) as Hf by lia. rewrite Hst, Hf. done.
Qed.

(** a peer row whose transfer acknowledgements are all lost is resent at
    most [DURABLE_WORK_MAX_ATTEMPTS] times: after [k] lost acknowledgements it
    is pending with [k] attempts charged while its budget lasts, and the next
    one moves it to dead letter with the transfer-exhausted error. *)
Theorem lost_acks_bounded uuid now i t r (k : nat) :
  row_at dw_id i t = Some r → dw_claim_state r = Pending → dw_expires_at r = None →
  dw_attempt_count r + Z.of_nat k ≤ DURABLE_WORK_MAX_ATTEMPTS →
  (∃ r', row_at dw_id i (lost_acks k uuid now i t) = Some r' ∧ dw_claim_state r' = Pending ∧
     dw_attempt_count r' = dw_attempt_count r + Z.of_nat k) ∧
  (dw_attempt_count r + Z.of_nat k = DURABLE_WORK_MAX_ATTEMPTS →
     ∃ r', row_at dw_id i (lost_acks (S k) uuid now i t) = Some r' ∧
     dw_claim_state r' = DeadLetter ∧ dw_last_error r' = Some TRANSFER_EXHAUSTED_LAST_ERROR).
Proof.
  intros Hr Hs He Hk.
  assert (∃ r', row_at dw_id i (lost_acks k uuid now i t) = Some r' ∧ dw_claim_state r' = Pending ∧
    dw_attempt_count r' = dw_attempt_count r + Z.of_nat k ∧ dw_expires_at r' = None)
    as (r1 & Hr1 & Hs1 & Ha1 & He1).
  { induction k as [|k IH]; [exists r; split_and!; (done || lia)|].
    destruct IH as (r1 & Hr1 & Hs1 & Ha1 & He1); [lia|]. cbn [lost_acks].
    rewrite (lost_ack_row _ _ _ _ r1) by done.
    assert (dw_attempt_count r1 <? DURABLE_WORK_MAX_ATTEMPTS = true) as -> by lia.
    eexists. split; [done|]. simpl. split_and!; [done|lia|done]. }
  split; [by exists r1|]. intros Heq. cbn [lost_acks]. rewrite (lost_ack_row _ _ _ _ r1) by done.
  assert (dw_attempt_count r1 <? DURABLE_WORK_MAX_ATTEMPTS = false) as -> by lia. by eexists.
Qed.

Lemma lost_acks_bounded_witness :
  match row_at dw_id "c" sample_table with
  | Some r =>
      ∃ r', row_at dw_id "c" (lost_acks 4 (λ _, "x") (λ n, Z.of_nat n * 60000) "c" sample_table)
              = Some r' ∧
        dw_claim_state r' = DeadLetter ∧ dw_last_error r' = Some TRANSFER_EXHAUSTED_LAST_ERROR
  | None => False
  end.
Proof.
  refine (proj2 (lost_acks_bounded (λ _, "x") (λ n, Z.of_nat n * 60000) "c" sample_table _ 3
    eq_refl eq_refl eq_refl _) eq_refl). vm_compute. discriminate.
Defined.

(** *** Claiming *)
Definition claimable (target : string) (kind : option string) (r : DurableWorkRow) : Prop :=
  dw_claim_state r = Pending ∧ dw_target_site_id r = target ∧
  (truthy kind = true → Some (dw_kind r) = kind).

Lemma candidates_spec target kind t r :
  r ∈ (if truthy kind
       then sql_select (λ r, targets target r && of_kind (default "" kind) r && in_state Pending r) t
       else sql_select (λ r, targets target r && in_state Pending r) t) ↔
  r ∈ t ∧ claimable target kind r.
Proof.
  unfold claimable, targets, of_kind. destruct kind as [k|]; simpl.
  - destruct (nonempty k) eqn:E; rewrite elem_of_select, !andb_true_iff, in_state_true, !seqb_true;
      [|intuition congruence].
    split; intros; [naive_solver|]. destruct H as (? & ? & ? & Hk). by injection (Hk eq_refl).
  - rewrite elem_of_select, !andb_true_iff, in_state_true, seqb_true. naive_solver.
Qed.

(** claiming takes the oldest claimable row: [None] means there is none
    and the table is unchanged; otherwise the returned row is what the table
    now holds for its id, it was pending for that target and kind, no claimable
    row is older, its attempt is charged, its token is the fresh one, and no
    other row changed. *)
Theorem claimLocal_spec token now target kind t :
  dw_wf t →
  match claimLocalDurableWork token now target kind t with
  | (t', None) => t' = t ∧ ∀ r, r ∈ t → ¬ claimable target kind r
  | (t', Some c) =>
      ∃ r, row_at dw_id (dw_id c) t = Some r ∧ claimable target kind r ∧
        (∀ r', r' ∈ t → claimable target kind r' → dw_created_at r ≤ dw_created_at r') ∧
        row_at dw_id (dw_id c) t' = Some c ∧ dw_claim_state c = Processing ∧
        dw_claim_token c = Some token ∧ dw_attempt_count c = dw_attempt_count r + 1 ∧
        (∀ j, j ≠ dw_id c → row_at dw_id j t' = row_at dw_id j t)
  end.
Proof.
  intros (Hk & _ & _). unfold claimLocalDurableWork.
  set (cand := if truthy kind then _ else _).
  assert (∀ r, r ∈ cand ↔ r ∈ t ∧ claimable target kind r) as Hc by apply candidates_spec.
  clearbody cand. pose proof (order_by_sorted dw_created_at cand) as Hs.
  assert (∀ r, r ∈ order_by dw_created_at cand ↔ r ∈ t ∧ claimable target kind r) as Ho.
  { intros r. by rewrite elem_of_order_by. }
  destruct (order_by dw_created_at cand) as [|row rest]; simpl.
  { split; [done|]. intros r Hr Hcl. assert (r ∈ []) as []%not_elem_of_nil; by apply Ho. }
  destruct (proj1 (Ho row)) as [Hin Hcl]; [set_solver|].
  exists row. pose proof (row_at_elem dw_id (dw_id row) t row Hk Hin eq_refl) as Hrow.
  split_and!; [done|done| | |done|done|done|].
  - intros r' Hr' Hcl'. inversion Hs as [|?? _ Hall]; subst.
    assert (r' ∈ row :: rest) as [->|Hrest]%elem_of_cons by (by apply Ho); [lia|].
    rewrite Forall_forall in Hall. by apply Hall.
  - rewrite claim_row_row, Hrow. simpl. rewrite seqb_refl.
    by rewrite (proj2 (in_state_true Pending row)) by apply Hcl.
  - intros j Hj. rewrite claim_row_row. destruct (row_at dw_id j t); [|done]. simpl.
    by apply seqb_false in Hj as ->.
Qed.

Lemma claimLocal_spec_witness :
  match claimLocalDurableWork "t2" 500 "local" (Some "intake") sample_table with
  | (t', Some c) => dw_id c = "b" ∧ row_at dw_id (dw_id c) t' = Some c
  | (_, None) => False
  end.
Proof.
  pose proof (claimLocal_spec "t2" 500 "local" (Some "intake") sample_table sample_table_wf) as H.
  revert H. vm_compute. intros (r & _ & _ & _ & Hc & _). split; [reflexivity|exact Hc].
Defined.

(** *** Purging and the consumed fence *)

(** a purge deletes a row exactly when its selector covers it: never one
    that is processing, transferring or consumed; a pending row only when it
    has the requested kind, is older than the floor of one hour and local, or
    [force] lifts both; a dead letter only of the requested kind and age.  The
    reported count is the number of rows that went. *)
Theorem purge_exact selector now t :
  dw_wf t →
  let '(t', changes) := purgeDurableWork selector now t in
  (length t' + changes = length t)%nat ∧
  ∀ i, row_at dw_id i t' =
    match row_at dw_id i t with
    | Some r =>
        if match selector with
           | PurgeDeadLettered kind older =>
               kind_clause kind r && in_state DeadLetter r && age_clause older now r
           | PurgeAllUnclaimed kind older force =>
               kind_clause kind r &&
               match dw_claim_state r with
               | Pending =>
                   if force then age_clause older now r
                   else targets LOCAL_WORK_TARGET r && age_clause older now r &&
                        (dw_created_at r <=? now - PURGE_UNCLAIMED_FLOOR_MS)
               | DeadLetter => age_clause older now r
               | _ => false
               end
           end
        then None else Some r
    | None => None
    end.
Proof.
  intros (Hk & _). unfold purgeDurableWork, run_delete. split.
  - unfold sql_delete, sql_count. clear Hk. induction t as [|x t IH]; [done|]. simpl.
    destruct (purge_where selector now x); simpl; lia.
  - intros i. rewrite row_at_delete by done. destruct (row_at dw_id i t) as [r|]; [|done].
    match goal with |- (if ?a then _ else _) = (if ?b then _ else _) => assert (a = b) as ->; [|done] end.
    destruct selector as [kind older|kind older force]; unfold purge_where; [by rewrite andb_assoc|].
    f_equal. unfold in_state, cs_eqb.
    destruct (dw_claim_state r); simpl; rewrite ?orb_false_r; try done.
    destruct force; [done|]. rewrite <-andb_assoc. f_equal.
    unfold pendingFloorMs, age_clause. destruct older as [m|]; simpl; [|by rewrite Z.max_id].
    apply eq_true_iff_eq. rewrite andb_true_iff, !Z.leb_le. lia.
Qed.

Lemma purge_exact_witness :
  row_at dw_id "b" (purgeDurableWork (PurgeAllUnclaimed None None false) 3700000 sample_table).1 = None ∧
  row_at dw_id "a" (purgeDurableWork (PurgeAllUnclaimed None None true) 3700000 sample_table).1 =
    row_at dw_id "a" sample_table.
Proof.
  split.
  - etransitivity; [exact (proj2 (purge_exact (PurgeAllUnclaimed None None false) 3700000
      sample_table sample_table_wf) "b")|reflexivity].
  - etransitivity; [exact (proj2 (purge_exact (PurgeAllUnclaimed None None true) 3700000
      sample_table sample_table_wf) "a")|reflexivity].
Defined.

(** the expiry sweep does not spare consumed rows: a row that was consumed
    and whose expiry has passed becomes a dead letter, and redriving that dead
    letter makes the already consumed work pending, hence claimable, again. *)
Theorem consumed_row_redriven i t r e now exp :
  row_at dw_id i t = Some r → dw_claim_state r = Consumed → dw_expires_at r = Some e → e ≤ now →
  ∃ r', row_at dw_id i (dw_run [OpDeadLetterExpired now; OpRedriveDeadLetter i exp] t) = Some r' ∧
    dw_claim_state r' = Pending ∧ dw_payload r' = dw_payload r ∧ dw_consumed_at r' = dw_consumed_at r.
Proof.
  intros Hr Hs He Hle. pose proof (row_at_Some _ _ _ _ Hr) as [_ Hid].
  eexists. split.
  - apply (row_update_hit (λ r, has_id i r && in_state DeadLetter r)); [done| |].
    + apply (row_update_hit (λ r, negb (in_state DeadLetter r) && opt_le (dw_expires_at r) now));
        [done|exact Hr|].
      rewrite andb_true_iff, negb_true_iff, in_state_false, Hs, He. split; [done|]. simpl. lia.
    + unfold has_id. simpl. by rewrite Hid, seqb_refl.
  - done.
Qed.

Definition expiring_work : NewDurableWork :=
  MkNewWork "e" "local" "rpc" "{}" "ke" (Some 1000) None None None None None.
Definition consumed_table : dw_table :=
  dw_run [OpInsert true false 100 expiring_work; OpClaimLocal "t" 200 "local" None;
          OpAcknowledge 300 "e" "t"] [].

Lemma consumed_row_redriven_witness :
  match row_at dw_id "e" consumed_table with
  | Some r => dw_claim_state r = Consumed ∧
      ∃ r', row_at dw_id "e" (dw_run [OpDeadLetterExpired 2000; OpRedriveDeadLetter "e" None]
                                consumed_table) = Some r' ∧
        dw_claim_state r' = Pending ∧ dw_payload r' = dw_payload r ∧
        dw_consumed_at r' = dw_consumed_at r
  | None => False
  end.
Proof.
  split; [reflexivity|].
  apply (consumed_row_redriven "e" consumed_table _ 1000 2000 None eq_refl eq_refl eq_refl).
  vm_compute. discriminate.
Defined.
