(* ===== verification/RelayRouter.v ===== *)
(** * Relay routing (packages/agent/src/relay-router.ts, delegation.ts,
      topology.ts, durable-work-registry.ts; finders of
      packages/core/src/repositories/hosts.ts)

    Which host of the cluster serves a tool, a model or a thread's client
    session, and the durable rows that carry a relay request or response.  A
    query answers its rows in table order.  [models] and [mcp_tools] are the
    stored JSON texts; their elements are read at the types of [HostModelEntry],
    an element or a field of another type counts as absent.  Tiers and limits
    are integers, instants are milliseconds, [now] is one clock reading per
    call. *)
From Stdlib Require Import Ascii.
From S2P Require Import Prelude Sql Json DurableWork ModelRouter.
Local Open Scope bound_scope.
Local Open Scope Z_scope.

(** ** Hosts *)
Record ClusterHost := MkHost {
  ho_site_id : string; ho_host_name : string; ho_sync_url : option string; ho_models : option string;
  ho_mcp_tools : option string; ho_online_at : option Z; ho_modified_at : option Z; ho_work_spool_capable : bool;
  ho_deleted : bool }.
(** [row.modified_at ?? row.online_at]. *)
Definition last_sign (h : ClusterHost) : option Z :=
  match ho_modified_at h with Some t => Some t | None => ho_online_at h end.
Definition STALE_THRESHOLD_MS : Z := 5 * 60 * 1000.
Definition hostAge (now : Z) (h : ClusterHost) : option Z := (λ t, now - t) <$> last_sign h.
Definition isHostStale (now : Z) (h : ClusterHost) : bool :=
  match last_sign h with None => true | Some t => STALE_THRESHOLD_MS <? now - t end.
(** [if (age === null || age > STALE_THRESHOLD_MS) continue]. *)
Definition fresh (now : Z) (h : ClusterHost) : bool :=
  match hostAge now h with None => false | Some age => negb (STALE_THRESHOLD_MS <? age) end.
(** [WHERE deleted = 0 AND site_id != ?]. *)
Definition remote_hosts (localSiteId : string) (db : list ClusterHost) : list ClusterHost :=
  sql_select (λ h, negb (ho_deleted h) && negb (seqb (ho_site_id h) localSiteId)) db.

(** ** Advertised models *)
Record host_caps := MkHostCaps {
  hc_streaming : option bool; hc_tool_use : option bool; hc_system_prompt : option bool; hc_prompt_caching : option bool;
  hc_vision : option bool; hc_max_context : option Z }.
Record HostModelEntry := MkModelEntry {
  me_id : string; me_tier : option Z; me_max_output_tokens : option Z; me_thinking_tool : bool;
  me_capabilities : option host_caps }.
Inductive model_entry := LegacyModel (id : string) | AdvertisedModel (e : HostModelEntry).

Definition as_bool (v : option json) : option bool := match v with Some (JBool b) => Some b | _ => None end.
Definition as_int (v : option json) : option Z := match v with Some (JNum m 0) => Some m | _ => None end.
Definition read_caps (v : json) : host_caps :=
  MkHostCaps (as_bool (json_get "streaming" v)) (as_bool (json_get "tool_use" v)) (as_bool (json_get "system_prompt" v))
    (as_bool (json_get "prompt_caching" v)) (as_bool (json_get "vision" v)) (as_int (json_get "max_context" v)).
Definition read_entry (v : json) : option model_entry :=
  match v with
  | JStr id => Some (LegacyModel id)
  | JObj _ =>
      match as_string (json_get "id" v) with
      | Some id =>
          Some (AdvertisedModel (MkModelEntry id (as_int (json_get "tier" v)) (as_int (json_get "max_output_tokens" v))
            (match as_string (json_get "thinking_mode" v) with Some m => seqb m "tool" | None => false end)
            (match json_get "capabilities" v with Some (JObj fs) => Some (read_caps (JObj fs)) | _ => None end)))
      | None => None
      end
  | _ => None
  end.
(** [JSON.parse] guarded by [if (!row.models)], the [try] and [Array.isArray]. *)
Definition read_array (field : option string) : list json :=
  match field with
  | Some s => if nonempty s then match json_parse s with Some (JArr l) => l | _ => [] end else []
  | None => []
  end.
Definition models_of (h : ClusterHost) : list model_entry := omap read_entry (read_array (ho_models h)).
Definition entry_id (e : model_entry) : string := match e with LegacyModel id => id | AdvertisedModel e => me_id e end.

Definition host_satisfies (r : CapabilityRequirements) (c : host_caps) : bool :=
  implb (wants (rq_vision r)) (wants (hc_vision c)) && implb (wants (rq_tool_use r)) (wants (hc_tool_use c)) &&
  implb (wants (rq_system_prompt r)) (wants (hc_system_prompt c)) &&
  implb (wants (rq_prompt_caching r)) (wants (hc_prompt_caching c)).

(** ** Eligible hosts *)
(** The host, the entry's metadata, and whether it is unverified; [eh_model] is
    the model's id where the code carries it along. *)
Record EligibleHost := MkEligible {
  eh_site_id : string; eh_host_name : string; eh_sync_url : option string; eh_online_at : option Z;
  eh_modified_at : option Z; eh_capabilities : option host_caps; eh_maxOutputTokens : option Z; eh_tier : option Z;
  eh_thinking_tool : bool; eh_unverified : bool; eh_model : string }.
Definition eligible_legacy (id : string) (h : ClusterHost) : EligibleHost :=
  MkEligible (ho_site_id h) (ho_host_name h) (ho_sync_url h) (ho_online_at h) (ho_modified_at h) None None None false true id.
Definition eligible_entry (unverified : bool) (e : HostModelEntry) (h : ClusterHost) : EligibleHost :=
  MkEligible (ho_site_id h) (ho_host_name h) (ho_sync_url h) (ho_online_at h) (ho_modified_at h) (me_capabilities e)
    (me_max_output_tokens e) (me_tier e) (me_thinking_tool e) unverified (me_id e).
Definition eligible_tool (h : ClusterHost) : EligibleHost :=
  MkEligible (ho_site_id h) (ho_host_name h) (ho_sync_url h) (ho_online_at h) (ho_modified_at h) None None None false false "".

Definition eh_sign (h : EligibleHost) : option Z :=
  match eh_modified_at h with Some t => Some t | None => eh_online_at h end.
(** The comparators, negative: most recent first, hosts without a sign last. *)
Definition fresher (a b : option Z) : bool :=
  match a, b with
  | Some x, Some y => y <? x
  | Some _, None => true
  | None, _ => false
  end.
Definition tier_or (o : option Z) : Z := match o with Some t => t | None => 99 end.
Definition tier_lt (a b : EligibleHost) : bool :=
  (tier_or (eh_tier a) <? tier_or (eh_tier b)) ||
  ((tier_or (eh_tier a) =? tier_or (eh_tier b)) && fresher (eh_sign a) (eh_sign b)).
Definition eligible_lt (a b : EligibleHost) : bool :=
  match eh_unverified a, eh_unverified b with
  | false, true => true
  | true, false => false
  | _, _ => tier_lt a b
  end.
Definition fresh_lt (a b : EligibleHost) : bool := fresher (eh_sign a) (eh_sign b).

Definition findEligibleHosts (db : list ClusterHost) (toolCommandName localSiteId : string) : result (list EligibleHost) :=
  let eligible := eligible_tool <$> List.filter (λ h, existsb (λ v, match v with JStr s => seqb s toolCommandName | _ => false end)
                                                  (read_array (ho_mcp_tools h))) (remote_hosts localSiteId db) in
  match eligible with
  | [] => Throw ("Tool " +:+ quoted toolCommandName +:+ " not available on any remote host")
  | _ => Ok (stable_sort fresh_lt eligible)
  end.

(** What one entry of a fresh host contributes: [inl] verified, [inr]
    unverified. *)
Definition match_entry (modelId : string) (req : option CapabilityRequirements) (h : ClusterHost) (e : model_entry)
  : option (EligibleHost + EligibleHost) :=
  match e with
  | LegacyModel id => if seqb id modelId then Some (inr (eligible_legacy id h)) else None
  | AdvertisedModel e =>
      if negb (seqb (me_id e) modelId) then None
      else match req with
           | None => Some (inl (eligible_entry false e h))
           | Some r =>
               match me_capabilities e with
               | None => Some (inr (eligible_entry true e h))
               | Some caps => if host_satisfies r caps then Some (inl (eligible_entry false e h)) else None
               end
           end
  end.
Definition matches (now : Z) (modelId : string) (req : option CapabilityRequirements) (hosts : list ClusterHost)
  : list (EligibleHost + EligibleHost) :=
  mjoin ((λ h, omap (match_entry modelId req h) (models_of h)) <$> List.filter (fresh now) hosts).
Definition verified_of (l : list (EligibleHost + EligibleHost)) : list EligibleHost :=
  omap (λ x, match x with inl h => Some h | inr _ => None end) l.
Definition unverified_of (l : list (EligibleHost + EligibleHost)) : list EligibleHost :=
  omap (λ x, match x with inl _ => None | inr h => Some h end) l.
Definition findEligibleHostsByModel (now : Z) (db : list ClusterHost) (modelId localSiteId : string)
    (req : option CapabilityRequirements) : result (list EligibleHost) :=
  let found := matches now modelId req (remote_hosts localSiteId db) in
  let verified := verified_of found in
  let unverified := unverified_of found in
  let eligible := match req with
                  | Some _ => match verified with [] => unverified | _ => verified end
                  | None => verified ++ unverified
                  end in
  match eligible with
  | [] => Throw ("Model " +:+ quoted modelId +:+ " not available on any remote host")
  | _ => Ok (stable_sort eligible_lt eligible)
  end.

Definition any_candidate (h : ClusterHost) (e : model_entry) : option EligibleHost :=
  match e with
  | LegacyModel id => if nonempty id then Some (MkEligible (ho_site_id h) (ho_host_name h) (ho_sync_url h)
      (ho_online_at h) (ho_modified_at h) None None (Some 99) false false id) else None
  | AdvertisedModel e =>
      if nonempty (me_id e)
      then Some (MkEligible (ho_site_id h) (ho_host_name h) (ho_sync_url h) (ho_online_at h) (ho_modified_at h)
             (me_capabilities e) (me_max_output_tokens e) (Some (tier_or (me_tier e))) (me_thinking_tool e) false (me_id e))
      else None
  end.
(** The single best host and its model. *)
Definition findAnyRemoteModel (now : Z) (db : list ClusterHost) (localSiteId : string) : result (EligibleHost * string) :=
  let candidates := mjoin ((λ h, omap (any_candidate h) (models_of h)) <$> List.filter (fresh now) (remote_hosts localSiteId db)) in
  match stable_sort tier_lt candidates with
  | [] => Throw "No remote inference backends available in cluster"
  | best :: _ => Ok (best, eh_model best)
  end.

(** ** Client sessions (delegation.ts) *)
Record ClientSession := MkSession { cs_thread_id : string; cs_site_id : string; cs_deleted : bool }.
Definition sessions_of (threadId : string) (l : list ClientSession) : list string :=
  cs_site_id <$> sql_select (λ c, seqb (cs_thread_id c) threadId && negb (cs_deleted c)) l.
Definition live_host (siteId : string) (db : list ClusterHost) : option ClusterHost :=
  List.find (λ h, seqb (ho_site_id h) siteId && negb (ho_deleted h)) db.
Definition within (cutoff : Z) (h : ClusterHost) : bool :=
  match last_sign h with Some t => cutoff <=? t | None => false end.
Fixpoint any_live (cutoff : Z) (db : list ClusterHost) (seen sites : list string) : bool :=
  match sites with
  | [] => false
  | s :: rest =>
      if existsb (seqb s) seen then any_live cutoff db seen rest
      else match live_host s db with
           | Some h => if within cutoff h then true else any_live cutoff db (s :: seen) rest
           | None => any_live cutoff db (s :: seen) rest
           end
  end.
Definition isClientSessionLive (now staleMs : Z) (db : list ClusterHost) (sessions : list ClientSession) (threadId : string) : bool :=
  any_live (now - staleMs) db [] (sessions_of threadId sessions).
(** The loop of [resolveClientSessionHost]: the freshest remote host so far with
    its last sign. *)
Fixpoint session_loop (cutoff : Z) (db : list ClusterHost) (localSiteId : string) (seen sites : list string)
    (best : option (ClusterHost * Z)) : option (ClusterHost * Z) :=
  match sites with
  | [] => best
  | s :: rest =>
      if seqb s localSiteId || existsb (seqb s) seen then session_loop cutoff db localSiteId seen rest best
      else
        let best' :=
          match live_host s db with
          | Some h =>
              match last_sign h with
              | Some ts =>
                  if ts <? cutoff then best
                  else match best with
                       | Some (_, bestTs) => if bestTs <? ts then Some (h, ts) else best
                       | None => Some (h, ts)
                       end
              | None => best
              end
          | None => best
          end in
        session_loop cutoff db localSiteId (s :: seen) rest best'
  end.
Definition resolveClientSessionHost (now staleMs : Z) (db : list ClusterHost) (sessions : list ClientSession)
    (threadId localSiteId : string) : option EligibleHost :=
  (λ p, eligible_tool p.1) <$> session_loop (now - staleMs) db localSiteId [] (sessions_of threadId sessions) None.

(** ** Topology *)
Inductive TopologyRole := Hub | Spoke.
(** [sync_state] is the list of peers in table order. *)
Definition resolveHubSiteId (sync_state : list string) (role : option TopologyRole) (localSiteId : string) : option string :=
  match role with
  | None => None
  | Some Hub => Some localSiteId
  | Some Spoke => head sync_state
  end.
(** [sync] of the configuration: the result of loading it, with its [hub]. *)
Definition resolveTopologyRole (sync : option (result (option string))) : option TopologyRole :=
  match sync with
  | Some (Ok hub) => Some (if truthy hub then Spoke else Hub)
  | _ => None
  end.

(** ** The registry of kinds *)
Inductive dispatch_mode := DSync | DAsync | DResponse | DPassive.
Definition RELAY_KIND_REGISTRY : list (string * dispatch_mode) :=
  [("tool_call", DSync); ("resource_read", DSync); ("prompt_invoke", DSync); ("cache_warm", DSync);
   ("platform_request", DSync); ("client_tool", DAsync); ("cancel", DAsync); ("inference", DAsync);
   ("inference_part", DAsync); ("intake", DAsync); ("notify_wakeup", DAsync); ("mcp_auth_handoff", DAsync);
   ("mcp_app_proxy", DAsync); ("webhook_intake", DPassive); ("connector_intake", DPassive); ("rss_intake", DPassive);
   ("result", DResponse); ("error", DResponse); ("client_result", DResponse); ("stream_chunk", DResponse);
   ("stream_end", DResponse); ("status_forward", DResponse); ("trace_data", DResponse)].
Definition RPC_REQUEST_TTL_MS : Z := 5 * 60 * 1000.
Definition relay_ttl (kind : string) : Z :=
  if seqb kind "stream_chunk" || seqb kind "stream_end" then 5 * 60 * 1000
  else if seqb kind "webhook_intake" || seqb kind "rss_intake" || seqb kind "connector_intake" then 7 * 24 * 60 * 60 * 1000
  else RPC_REQUEST_TTL_MS.
(** The kinds with their [ttlMs]; the last two have none. *)
Definition DURABLE_WORK_REGISTRY : list (string * option Z) :=
  ((λ k, (k.1, Some (relay_ttl k.1))) <$> RELAY_KIND_REGISTRY) ++ [("dispatch_message", None); ("task_fire", None)].
Definition REGISTRY_TTL_MS_BY_KIND : list (string * Z) :=
  omap (λ r, match r.2 with Some ttl => Some (r.1, ttl) | None => None end) DURABLE_WORK_REGISTRY.
Definition floor_ms (kind : string) : Z := match fields_get kind REGISTRY_TTL_MS_BY_KIND with Some t => t | None => 0 end.
Definition durableExpiresAt (kind : string) (now timeoutMs : Z) : Z := now + Z.max timeoutMs (floor_ms kind).

(** ** Durable requests and responses *)
Definition advertises (db : list ClusterHost) (siteId : string) : bool :=
  match live_host siteId db with Some h => ho_work_spool_capable h | None => false end.
Definition shouldRouteRelayDurable (db : list ClusterHost) (sync_state : list string) (targetSiteId localSiteId : string)
    (role : option TopologyRole) : bool :=
  advertises db targetSiteId &&
  match role with
  | Some Spoke =>
      match resolveHubSiteId sync_state role localSiteId with
      | Some hub => negb (nonempty hub && negb (seqb targetSiteId hub) && negb (advertises db hub))
      | None => true
      end
  | _ => true
  end.

Record RouteParams := MkRoute {
  rp_target : string; rp_source : string; rp_kind : string; rp_payload : string; rp_timeoutMs : Z;
  rp_refId : option string; rp_idempotencyKey : option string; rp_streamId : option string;
  rp_traceContext : option string; rp_role : option TopologyRole }.
Inductive route_path := PathDurable | PathLocal.
Inductive RouteResult :=
| Routed (path : route_path) (id : string) (inserted : bool)
| Unroutable (targetSiteId reason : string).
Definition route_row (id : string) (now : Z) (p : RouteParams) : NewDurableWork :=
  MkNewWork id (if seqb (rp_target p) (rp_source p) then LOCAL_WORK_TARGET else rp_target p) (rp_kind p) (rp_payload p)
    (match rp_idempotencyKey p with Some k => k | None => id end)
    (Some (durableExpiresAt (rp_kind p) now (rp_timeoutMs p))) (rp_refId p) (Some (rp_source p)) None (rp_streamId p)
    (rp_traceContext p).
(** The common body of [routeRelayRequest] and [routeRelayResponse], which
    differ in the text of the reason; [uuid] is the new row's id. *)
Definition route (what uuid : string) (bus inTransaction : bool) (now : Z) (db : list ClusterHost) (sync_state : list string)
    (p : RouteParams) (t : dw_table) : result (dw_table * RouteResult * list written_event) :=
  let selfTargeted := seqb (rp_target p) (rp_source p) in
  if negb selfTargeted && negb (shouldRouteRelayDurable db sync_state (rp_target p) (rp_source p) (rp_role p))
  then Ok (t, Unroutable (rp_target p)
             (what +:+ " target " +:+ rp_target p +:+
              " does not advertise work_spool_capable; no legacy fallback after release N+1 (stale hosts snapshot or version-skewed peer)"), [])
  else
    let! (t', inserted, evs) := insertDurableWork bus inTransaction now (route_row uuid now p) t in
    Ok (t', Routed (if selfTargeted then PathLocal else PathDurable) uuid inserted, evs).
Definition routeRelayRequest := route "relay".
Definition routeRelayResponse := route "relay response".

(** ** Trace carriers and idempotency keys *)
Definition hex_char (c : ascii) : bool :=
  let n := nat_of_ascii c in
  ((48 <=? n)%nat && (n <=? 57)%nat) || ((97 <=? n)%nat && (n <=? 102)%nat) || ((65 <=? n)%nat && (n <=? 70)%nat).
Definition zeros (l : list ascii) : bool := forallb (λ c, Ascii.eqb c "0"%char) l.
(** The three tests of [traceparent] on its four fields. *)
Definition valid_traceparent (s : string) : bool :=
  let l := chars s in
  let field a n := take n (drop a l) in
  let dash a := match l !! a with Some c => Ascii.eqb c "-"%char | None => false end in
  (length l =? 55)%nat && forallb is_digit (field 0%nat 2%nat) && dash 2%nat && forallb hex_char (field 3%nat 32%nat) &&
  dash 35%nat && forallb hex_char (field 36%nat 16%nat) && dash 52%nat && forallb hex_char (field 53%nat 2%nat) &&
  negb (zeros (field 3%nat 32%nat)) && negb (zeros (field 36%nat 16%nat)).
(** The carrier is its [traceparent] and [tracestate]; the latter is ASCII. *)
Definition serializeRelayTraceCarrier (carrier : option (option string * option string)) : option string :=
  match carrier with
  | Some (Some traceparent, tracestate) =>
      if nonempty traceparent && valid_traceparent traceparent
      then Some (json_stringify (JObj (("traceparent", JStr traceparent) ::
        match tracestate with
        | Some ts => if nonempty ts then [("tracestate", JStr (of_chars (take 512 (chars ts))))] else []
        | None => []
        end)))
      else None
  | _ => None
  end.
(** [sha256] is the lower-case hexadecimal digest. *)
Definition buildIdempotencyKey (sha256 : string → string) (now : Z) (kind toolName : string) (args : json) : string :=
  let roundedTimestamp := now / 60000 * 60000 in
  of_chars (take 32 (chars (sha256 (json_stringify
    (JObj [("kind", JStr kind); ("toolName", JStr toolName); ("args", args); ("ts", JInt roundedTimestamp)]))))).

(** * Properties *)

(** ** The comparators are total preorders *)
Lemma fresher_asym a b : fresher a b = true → fresher b a = false.
Proof. destruct a, b; simpl; try done. rewrite Z.ltb_lt, Z.ltb_ge. lia. Qed.
Lemma fresher_trans a b c : fresher b a = false → fresher c b = false → fresher c a = false.
Proof. destruct a, b, c; simpl; try done. rewrite !Z.ltb_ge. lia. Qed.
Lemma tier_lt_asym a b : tier_lt a b = true → tier_lt b a = false.
Proof.
  unfold tier_lt. destruct (Z.ltb_spec (tier_or (eh_tier a)) (tier_or (eh_tier b))), (Z.ltb_spec (tier_or (eh_tier b)) (tier_or (eh_tier a))),
    (Z.eqb_spec (tier_or (eh_tier a)) (tier_or (eh_tier b))), (Z.eqb_spec (tier_or (eh_tier b)) (tier_or (eh_tier a)));
    simpl; try done; try lia. apply fresher_asym.
Qed.
Lemma tier_lt_trans a b c : tier_lt b a = false → tier_lt c b = false → tier_lt c a = false.
Proof.
  unfold tier_lt. rewrite !orb_false_iff, !andb_false_iff, !Z.ltb_ge, !Z.eqb_neq. intros [H1 H2] [H3 H4].
  split; [lia|]. destruct (decide (tier_or (eh_tier c) = tier_or (eh_tier a))); [right|by left].
  destruct H2 as [?|H2]; [lia|]. destruct H4 as [?|H4]; [lia|]. by eapply fresher_trans.
Qed.
Lemma eligible_lt_asym a b : eligible_lt a b = true → eligible_lt b a = false.
Proof. unfold eligible_lt. destruct (eh_unverified a), (eh_unverified b); try done; apply tier_lt_asym. Qed.
Lemma eligible_lt_trans a b c : eligible_lt b a = false → eligible_lt c b = false → eligible_lt c a = false.
Proof. unfold eligible_lt. destruct (eh_unverified a), (eh_unverified b), (eh_unverified c); try done; apply tier_lt_trans. Qed.

(** ** Models *)
(** A host that a query for remote hosts answers. *)
Definition is_remote (localSiteId : string) (db : list ClusterHost) (h : ClusterHost) : Prop :=
  h ∈ db ∧ ho_deleted h = false ∧ ho_site_id h ≠ localSiteId.
Lemma remote_hosts_spec l db h : h ∈ remote_hosts l db ↔ is_remote l db h.
Proof.
  unfold remote_hosts, sql_select, is_remote. rewrite filter_In_iff, andb_true_iff, !negb_true_iff, seqb_false. tauto.
Qed.
Lemma matches_spec now m req hosts x :
  x ∈ matches now m req hosts ↔
  ∃ h e, h ∈ hosts ∧ fresh now h = true ∧ e ∈ models_of h ∧ match_entry m req h e = Some x.
Proof.
  unfold matches. rewrite list_elem_of_join. setoid_rewrite list_elem_of_fmap. split.
  - intros (l & Hx & h & -> & [Hh Hf]%filter_In_iff). apply list_elem_of_omap in Hx as (e & He & Hm). eauto 10.
  - intros (h & e & Hh & Hf & He & Hm). exists (omap (match_entry m req h) (models_of h)).
    split; [apply list_elem_of_omap; eauto|]. exists h. split; [done|]. by apply filter_In_iff.
Qed.
Lemma verified_spec x l : x ∈ verified_of l ↔ inl x ∈ l.
Proof.
  unfold verified_of. rewrite list_elem_of_omap. split; [intros ([y|y] & Hy & [= ->]); done|]. intros H. by exists (inl x).
Qed.
Lemma unverified_spec x l : x ∈ unverified_of l ↔ inr x ∈ l.
Proof.
  unfold unverified_of. rewrite list_elem_of_omap. split; [intros ([y|y] & Hy & [= ->]); done|]. intros H. by exists (inr x).
Qed.

(** A host serves a model, verified for the requirements or not. *)
Definition serves (now : Z) (m : string) (req : option CapabilityRequirements) (db : list ClusterHost) (l : string)
    (x : EligibleHost + EligibleHost) : Prop :=
  ∃ h e, is_remote l db h ∧ fresh now h = true ∧ e ∈ models_of h ∧ match_entry m req h e = Some x.
Lemma serves_spec now m req db l x : x ∈ matches now m req (remote_hosts l db) ↔ serves now m req db l x.
Proof. rewrite matches_spec. unfold serves. setoid_rewrite remote_hosts_spec. done. Qed.

(** The hosts among which a search chooses, before they are sorted. *)
Definition eligible_hosts (now : Z) (db : list ClusterHost) (m l : string) (req : option CapabilityRequirements) (x : EligibleHost) : Prop :=
  serves now m req db l (inl x) ∨
  (serves now m req db l (inr x) ∧ (req = None ∨ ∀ y, ¬ serves now m req db l (inl y))).
Lemma search_spec now db m l req :
  match findEligibleHostsByModel now db m l req with
  | Ok hosts => ∃ unsorted, hosts = stable_sort eligible_lt unsorted ∧ unsorted ≠ [] ∧
                  ∀ x, x ∈ unsorted ↔ eligible_hosts now db m l req x
  | Throw _ => ∀ x, ¬ serves now m req db l x
  end.
Proof.
  unfold findEligibleHostsByModel. set (found := matches _ _ _ _). cbv zeta.
  assert (∀ x, x ∈ verified_of found ↔ serves now m req db l (inl x)) as Hv by (intros x; unfold found; by rewrite verified_spec, serves_spec).
  assert (∀ x, x ∈ unverified_of found ↔ serves now m req db l (inr x)) as Hu by (intros x; unfold found; by rewrite unverified_spec, serves_spec).
  set (eligible := match req with Some _ => _ | None => _ end).
  assert (∀ x, x ∈ eligible ↔ eligible_hosts now db m l req x) as He.
  { intros x. unfold eligible_hosts. rewrite <-Hu. setoid_rewrite <-Hv. unfold eligible.
    destruct req as [r|]; [|rewrite elem_of_app; naive_solver].
    destruct (verified_of found) as [|v vs] eqn:E.
    - split; [intros H; right; split; [done|right; intros y; apply not_elem_of_nil]|]. intros [[]%elem_of_nil|[H _]]; done.
    - split; [by left|]. intros [H|[_ [?|H]]]; [done|done|]. destruct (H v). left. }
  clearbody eligible. destruct eligible as [|x0 xs] eqn:Ee; [|by exists (x0 :: xs)].
  intros [x|x] Hx; [apply (not_elem_of_nil x), He; by left|]. destruct (decide (verified_of found = [])) as [Hn|Hn].
  - apply (not_elem_of_nil x), He. right. split; [done|right]. intros y. rewrite <-Hv, Hn. apply not_elem_of_nil.
  - destruct (verified_of found) as [|v vs]; [done|]. apply (not_elem_of_nil v), He. left. apply Hv. left.
Qed.

(** The hosts found for a model are exactly those that serve it, are not this
    host, and gave a sign of life within five minutes; with requirements, hosts
    known to meet them, or hosts that advertise nothing about themselves when
    none is known to.  They come in the order of preference: the first is
    beaten by no other.  The search fails only when there is no such host. *)
Theorem eligible_by_model_exact now db m l req :
  match findEligibleHostsByModel now db m l req with
  | Ok hosts =>
      (∀ x, x ∈ hosts ↔ eligible_hosts now db m l req x) ∧
      ∃ best rest, hosts = best :: rest ∧ ∀ y, y ∈ hosts → eligible_lt y best = false
  | Throw _ => ∀ x, ¬ serves now m req db l x
  end.
Proof.
  pose proof (search_spec now db m l req) as H. destruct (findEligibleHostsByModel now db m l req) as [hosts|]; [|done].
  destruct H as (unsorted & -> & Hne & Hu). split; [intros x; by rewrite elem_of_stable_sort|].
  destruct (stable_sort eligible_lt unsorted) as [|best rest] eqn:Es.
  { apply (f_equal length) in Es. rewrite length_stable_sort in Es. by destruct unsorted. }
  exists best, rest. split; [done|]. intros y. rewrite <-Es, elem_of_stable_sort.
  by apply (stable_sort_head eligible_lt eligible_lt_trans eligible_lt_asym best unsorted rest Es).
Qed.

(** ** Client sessions *)
(** A host other than [l] that holds a session of the thread and was heard of
    since [cutoff]. *)
Definition session_host (cutoff : Z) (db : list ClusterHost) (l : string) (sites : list string) (h : ClusterHost) (ts : Z) : Prop :=
  ∃ s, s ∈ sites ∧ s ≠ l ∧ live_host s db = Some h ∧ last_sign h = Some ts ∧ cutoff ≤ ts.
Definition freshest (cutoff : Z) (db : list ClusterHost) (l : string) (sites : list string) (best : option (ClusterHost * Z)) : Prop :=
  match best with
  | Some (h, ts) => session_host cutoff db l sites h ts ∧ ∀ h' ts', session_host cutoff db l sites h' ts' → ts' ≤ ts
  | None => ∀ h ts, ¬ session_host cutoff db l sites h ts
  end.
Lemma session_host_snoc cutoff db l sites s h ts :
  session_host cutoff db l (sites ++ [s]) h ts ↔
  session_host cutoff db l sites h ts ∨
  (s ≠ l ∧ live_host s db = Some h ∧ last_sign h = Some ts ∧ cutoff ≤ ts).
Proof.
  unfold session_host. split.
  - intros (x & Hx & Hr). apply elem_of_app in Hx as [Hx|Hx%list_elem_of_singleton]; [left; by exists x|subst x; by right].
  - intros [(x & Hx & Hr)|Hr]; [exists x|exists s]; rewrite elem_of_app, ?list_elem_of_singleton; auto.
Qed.
(** A site that adds no candidate. *)
Lemma freshest_same cutoff db l sites s best :
  (∀ h ts, s ≠ l → live_host s db = Some h → last_sign h = Some ts → cutoff ≤ ts → session_host cutoff db l sites h ts) →
  freshest cutoff db l sites best → freshest cutoff db l (sites ++ [s]) best.
Proof.
  intros Hs. assert (∀ h ts, session_host cutoff db l (sites ++ [s]) h ts ↔ session_host cutoff db l sites h ts) as Heq.
  { intros h ts. rewrite session_host_snoc. split; [intros [?|(? & ? & ? & ?)]; auto|by left]. }
  destruct best as [[h ts]|]; simpl; setoid_rewrite Heq; done.
Qed.
(** [seen] are the remote sites already looked at. *)
Lemma session_loop_spec cutoff db l seen done_ sites best :
  (∀ s, s ∈ seen → s ∈ done_) → (∀ s, s ∈ done_ → s ≠ l → s ∈ seen) →
  freshest cutoff db l done_ best → freshest cutoff db l (done_ ++ sites) (session_loop cutoff db l seen sites best).
Proof.
  revert seen done_ best. induction sites as [|s sites IH]; intros seen done_ best H1 H2 Hb; [by rewrite app_nil_r|].
  cbn [session_loop]. rewrite (cons_middle s), (assoc_L (++)).
  destruct (seqb s l || existsb (seqb s) seen) eqn:Esk.
  - apply IH; [intros x Hx; apply elem_of_app; auto| |].
    + intros x [Hx|Hx%list_elem_of_singleton]%elem_of_app Hne; [auto|subst x].
      apply orb_true_iff in Esk as [Es%seqb_true|Es]; [done|]. apply existsb_exists in Es as (y & Hy & Hsy%seqb_true). subst y.
      by apply list_elem_of_In.
    + apply freshest_same; [|done]. intros h ts Hne Hl Hs Hc. exists s. split_and!; try done.
      apply orb_true_iff in Esk as [Es%seqb_true|Es]; [done|]. apply existsb_exists in Es as (y & Hy & Hsy%seqb_true). subst y.
      apply H1. by apply list_elem_of_In.
  - apply orb_false_elim in Esk as [Hne%seqb_false _]. apply IH.
    + intros x [->|Hx]%elem_of_cons; apply elem_of_app; [right; by apply list_elem_of_singleton|left; auto].
    + intros x [Hx| ->%list_elem_of_singleton]%elem_of_app Hx'; [right; auto|left].
    + assert (∀ b, (∀ h ts, live_host s db = Some h → last_sign h = Some ts → ¬ cutoff ≤ ts) →
        freshest cutoff db l done_ b → freshest cutoff db l (done_ ++ [s]) b) as Hno.
      { intros b Hn. apply freshest_same. intros h ts _ Hl Hs Hc. by destruct (Hn h ts). }
      destruct (live_host s db) as [h|] eqn:El; [|apply Hno; [intros ? ? [=]|done]].
      destruct (last_sign h) as [ts|] eqn:Els; [|apply Hno; [intros ? ? [= <-]; congruence|done]].
      destruct (Z.ltb_spec ts cutoff) as [Hc|Hc]; [apply Hno; [intros ? ? [= <-]; rewrite Els; intros [= <-]; lia|done]|].
      assert (session_host cutoff db l (done_ ++ [s]) h ts) as Hin by (apply session_host_snoc; right; auto).
      assert (∀ h' ts', s ≠ l ∧ Some h = Some h' ∧ last_sign h' = Some ts' ∧ cutoff ≤ ts' → ts' = ts) as Hone.
      { intros h' ts' (_ & [= <-] & H & _). congruence. }
      destruct best as [[bh bts]|]; simpl in Hb |- *.
      * destruct Hb as [Hbh Hmax]. destruct (Z.ltb_spec bts ts); simpl; (split; [|intros h' ts'; rewrite session_host_snoc, El;
          intros [Hh|Hh%Hone]; [specialize (Hmax h' ts' Hh); lia|lia]]); [done|]. apply session_host_snoc. by left.
      * split; [done|]. intros h' ts'. rewrite session_host_snoc, El. intros [Hh|Hh%Hone]; [by destruct (Hb h' ts')|lia].
Qed.
Lemma any_live_spec cutoff db seen sites :
  (∀ s h, s ∈ seen → live_host s db = Some h → within cutoff h = false) →
  any_live cutoff db seen sites = true ↔ ∃ s h, s ∈ sites ∧ live_host s db = Some h ∧ within cutoff h = true.
Proof.
  revert seen. induction sites as [|s sites IH]; intros seen Hseen; cbn [any_live].
  { split; [done|]. by intros (? & ? & []%elem_of_nil & _). }
  setoid_rewrite elem_of_cons. destruct (existsb (seqb s) seen) eqn:Es.
  - rewrite IH by done. apply existsb_exists in Es as (y & Hy & Hsy%seqb_true). subst y. apply list_elem_of_In in Hy.
    split; [naive_solver|]. intros (x & h & [->|Hx] & Hl & Hw); [|eauto]. rewrite (Hseen s h Hy Hl) in Hw. done.
  - destruct (live_host s db) as [h|] eqn:El; [destruct (within cutoff h) eqn:Ew|].
    + split; [|done]. intros _. exists s, h. auto.
    + rewrite IH by (intros x h' [->|Hx]%elem_of_cons; [rewrite El; by intros [= <-]|eauto]).
      split; [naive_solver|]. intros (x & h' & [->|Hx] & Hl & Hw); [congruence|eauto].
    + rewrite IH by (intros x h' [->|Hx]%elem_of_cons; [by rewrite El|eauto]).
      split; [naive_solver|]. intros (x & h' & [->|Hx] & Hl & Hw); [congruence|eauto].
Qed.

(** A client tool is relayed to the freshest live host, other than this one,
    that holds a session of the thread, and to none only when there is none; the
    thread's client tools are reported runnable exactly when such a host exists
    or this host itself holds a session with a fresh sign of life. *)
Theorem session_host_exact now stale db sessions thread l :
  let sites := sessions_of thread sessions in
  match resolveClientSessionHost now stale db sessions thread l with
  | Some x => ∃ h ts, x = eligible_tool h ∧ session_host (now - stale) db l sites h ts ∧
                ∀ h' ts', session_host (now - stale) db l sites h' ts' → ts' ≤ ts
  | None => ∀ h ts, ¬ session_host (now - stale) db l sites h ts
  end ∧
  (isClientSessionLive now stale db sessions thread = true ↔
   (∃ h ts, session_host (now - stale) db l sites h ts) ∨
   (l ∈ sites ∧ ∃ h, live_host l db = Some h ∧ within (now - stale) h = true)).
Proof.
  cbv zeta. unfold resolveClientSessionHost, isClientSessionLive. set (sites := sessions_of thread sessions). split.
  - assert (freshest (now - stale) db l [] None) as H0 by (intros h ts (s & []%elem_of_nil & _)).
    pose proof (session_loop_spec (now - stale) db l [] [] sites None (λ _ H, H) (λ _ H _, H) H0) as H. simpl in H.
    destruct (session_loop _ _ _ _ _ _) as [[h ts]|]; simpl; [|done]. destruct H as [H1 H2]. eauto.
  - rewrite any_live_spec by (intros ? ? []%elem_of_nil). unfold within, session_host. split.
    + intros (s & h & Hs & Hl & Hw). destruct (last_sign h) as [ts|] eqn:Els; [|done]. apply Z.leb_le in Hw.
      destruct (decide (s = l)) as [->|Hne]; [right; split; [done|]; exists h; rewrite Els; split; [done|by apply Z.leb_le]|left; eauto 10].
    + intros [(h & ts & s & Hs & Hne & Hl & Hls & Hc)|(Hs & h & Hl & Hw)]; [|eauto].
      exists s, h. rewrite Hls. split_and!; [done|done|by apply Z.leb_le].
Qed.

(** ** Routing *)
(** Every hop on the way to a peer can hold a durable row. *)
Definition hops_capable (db : list ClusterHost) (sync_state : list string) (target : string) (role : option TopologyRole) : Prop :=
  advertises db target = true ∧
  (role = Some Spoke → ∀ hub, head sync_state = Some hub → hub ≠ "" → hub ≠ target → advertises db hub = true).
Lemma shouldRoute_spec db ss target l role :
  shouldRouteRelayDurable db ss target l role = true ↔ hops_capable db ss target role.
Proof.
  unfold shouldRouteRelayDurable, hops_capable. rewrite andb_true_iff. apply and_iff_compat_l.
  destruct role as [[]|]; [by split|cbn [resolveHubSiteId]|by split].
  destruct (head ss) as [hub|]; [|by split]. rewrite negb_true_iff, !andb_false_iff, !negb_false_iff, seqb_true. unfold nonempty.
  rewrite negb_false_iff, seqb_true. split.
  - intros H _ h [= <-] Hne Hnt. destruct H as [[?|?]|?]; [done|congruence|done].
  - intros H. destruct (decide (hub = "")); [auto|]. destruct (decide (target = hub)); [auto|]. right.
    apply (H eq_refl hub); congruence.
Qed.

(** A relay message is routed unless a hop on its way cannot hold durable
    rows; then nothing is written.  Routed, it is a pending row for its target,
    or for the local loopback when it is addressed to this host, which carries
    its correlation and lives at least as long as the caller asked and as the
    registry says for its kind; a message whose kind and key the table already
    has leaves the table alone. *)
Theorem route_outcome what uuid bus tx now db ss p t t' r evs :
  route what uuid bus tx now db ss p t = Ok (t', r, evs) →
  let self := seqb (rp_target p) (rp_source p) in
  match r with
  | Unroutable target _ => target = rp_target p ∧ t' = t ∧ self = false ∧ ¬ hops_capable db ss (rp_target p) (rp_role p)
  | Routed path id inserted =>
      (self = true ∨ hops_capable db ss (rp_target p) (rp_role p)) ∧ id = uuid ∧
      path = (if self then PathLocal else PathDurable) ∧
      if inserted
      then ∃ row, t' = t ++ [row] ∧ dw_id row = uuid ∧ dw_claim_state row = Pending ∧ dw_kind row = rp_kind p ∧
             dw_target_site_id row = (if self then LOCAL_WORK_TARGET else rp_target p) ∧ dw_ref_id row = rp_refId p ∧
             dw_source_site row = Some (rp_source p) ∧
             ∃ e, dw_expires_at row = Some e ∧ now + rp_timeoutMs p ≤ e ∧ now + floor_ms (rp_kind p) ≤ e
      else t' = t ∧ ∃ old, old ∈ t ∧ dw_clash old (new_row now (route_row uuid now p)) = true
  end.
Proof.
  unfold route. cbv zeta. pose proof (shouldRoute_spec db ss (rp_target p) (rp_source p) (rp_role p)) as Hhop.
  destruct (negb (seqb (rp_target p) (rp_source p)) && negb _) eqn:E.
  - intros [= <- <- <-]. apply andb_prop in E as [E1%negb_true_iff E2%negb_true_iff]. split_and!; [done|done|done|].
    rewrite <-Hhop. congruence.
  - assert (seqb (rp_target p) (rp_source p) = true ∨ hops_capable db ss (rp_target p) (rp_role p)) as Hok.
    { rewrite <-Hhop. destruct (seqb _ _); [by left|right]. simpl in E. by apply negb_false_iff in E. }
    unfold insertDurableWork. destruct (validateDurableWork _) as [[]|]; [|done]. cbn [result_bind].
    destruct (insert_or_ignore_cases dw_clash (new_row now (route_row uuid now p)) t) as [[-> (old & Hold & Hc)]|[-> Hc]]; cbn;
      intros [= <- <- <-]; (split; [done|split; [done|split; [done|]]]).
    + split; [done|]. eauto.
    + exists (new_row now (route_row uuid now p)). split_and!; try done.
      exists (durableExpiresAt (rp_kind p) now (rp_timeoutMs p)). split_and!; [done|unfold durableExpiresAt; lia..].
Qed.

(** Whatever timeout the caller passes, a row of any relay kind outlives the
    five minutes of a remote procedure call. *)
Theorem relay_rows_outlive_retries kind now timeoutMs :
  kind ∈ RELAY_KIND_REGISTRY.*1 → now + RPC_REQUEST_TTL_MS ≤ durableExpiresAt kind now timeoutMs.
Proof.
  intros Hk. unfold durableExpiresAt. assert (RPC_REQUEST_TTL_MS ≤ floor_ms kind) as H; [|lia].
  revert kind Hk. apply Forall_forall. apply (bool_decide_unpack _). vm_compute. done.
Qed.

(** ** Concrete clusters *)
Definition host (site : string) (models : string) (sign : Z) : ClusterHost :=
  MkHost site site None (Some models) None None (Some sign) true false.
Definition BQ : string := String dquote EmptyString.
(** [[{"id":"opus","tier":1,"capabilities":{"vision":true,"max_context":200000}},"glm"]]. *)
Definition opus_and_glm : string :=
  json_stringify (JArr [JObj [("id", JStr "opus"); ("tier", JInt 1);
    ("capabilities", JObj [("vision", JBool true); ("max_context", JInt 200000)])]; JStr "glm"]).
Definition cluster : list ClusterHost :=
  [host "here" opus_and_glm 900000; host "old" opus_and_glm 100000; host "b" opus_and_glm 800000; host "c" opus_and_glm 850000].
Definition wants_vision : option CapabilityRequirements := Some (MkReq (Some true) None None None).

Example freshest_first :
  (match findEligibleHostsByModel 900000 cluster "opus" "here" wants_vision with
   | Ok hosts => eh_site_id <$> hosts | Throw _ => [] end) = ["c"; "b"].
Proof. vm_compute. reflexivity. Qed.
(** A legacy entry is a fallback whatever the requirements. *)
Example unverified_fallback :
  (match findEligibleHostsByModel 900000 cluster "glm" "here" wants_vision with
   | Ok hosts => eh_unverified <$> hosts | Throw _ => [] end) = [true; true].
Proof. vm_compute. reflexivity. Qed.

(** A live session on this host does not keep the call from being relayed to
    another host that holds a session too. *)
Example local_session_ignored :
  let sessions := [MkSession "t" "here" false; MkSession "t" "b" false] in
  (eh_site_id <$> resolveClientSessionHost 900000 300000 cluster sessions "t" "here") = Some "b".
Proof. vm_compute. reflexivity. Qed.

Definition sample_route : RouteParams :=
  MkRoute "c" "here" "tool_call" "{}" 15000 None None None None (Some Spoke).
Definition sample_routed : dw_table * RouteResult * list written_event :=
  match routeRelayRequest "u1" false false 0 cluster ["b"] sample_route [] with Ok x => x | Throw _ => ([], Unroutable "" "", []) end.
Lemma route_outcome_witness :
  (false = true ∨ hops_capable cluster ["b"] "c" (Some Spoke)) ∧ "u1" = "u1" ∧ PathDurable = PathDurable ∧
  ∃ row, sample_routed.1.1 = [] ++ [row] ∧ dw_id row = "u1" ∧ dw_claim_state row = Pending ∧ dw_kind row = "tool_call" ∧
    dw_target_site_id row = "c" ∧ dw_ref_id row = None ∧ dw_source_site row = Some "here" ∧
    ∃ e, dw_expires_at row = Some e ∧ 0 + 15000 ≤ e ∧ 0 + floor_ms "tool_call" ≤ e.
Proof.
  exact (route_outcome "relay" "u1" false false 0 cluster ["b"] sample_route [] sample_routed.1.1 sample_routed.1.2
    sample_routed.2 eq_refl).
Defined.
Lemma relay_rows_outlive_retries_witness : 0 + RPC_REQUEST_TTL_MS ≤ durableExpiresAt "platform_request" 0 15000.
Proof. apply (relay_rows_outlive_retries "platform_request" 0 15000). apply (bool_decide_unpack _). vm_compute. done. Defined.
