(* ===== verification/ModelResolution.v ===== *)
(** * Model resolution (packages/agent/src/model-resolution.ts)

    From a model id to a local backend, a list of remote hosts or an error with
    its reason: the readiness gate, identification, qualification by the
    request's capabilities, the fallback to a model of the same tier, and the
    wait for a model that is away.  A listing of eligible backends drops expired
    rate limits, so the router is threaded through; a local resolution keeps the
    backend's id for the backend.  [now] is one clock reading per call.  The
    wait is a loop over its polls, with the resolution and the abort signal as
    functions of the time. *)
From S2P Require Import Prelude Sql Json ModelRouter DurableWork RelayRouter.
Local Open Scope bound_scope.
Local Open Scope Z_scope.

Inductive error_reason := CapabilityMismatch | TransientUnavailable | UnknownModel.
#[export] Instance error_reason_eq_dec : EqDecision error_reason.
Proof. solve_decision. Defined.
Record LocalResolution := MkLocal {
  lr_modelId : string; lr_reResolved : bool; lr_thinkingConfig : option thinking_config; lr_thinkingTool : bool;
  lr_effort : option string; lr_maxOutputTokens : option Z; lr_systemPromptSuffix : option string;
  lr_cacheTtl : option string; lr_max_context : Z }.
Record RemoteResolution := MkRemote {
  rr_hosts : list EligibleHost; rr_modelId : string; rr_reResolved : bool; rr_thinkingTool : option bool;
  rr_thinkingConfig : option thinking_config; rr_maxOutputTokens : option Z; rr_max_context : Z }.
Record ErrorResolution := MkError {
  er_error : string; er_reason : option error_reason; er_unmet : option (list string);
  er_alternatives : option (list string); er_earliestRecovery : option Z }.
Inductive resolution :=
| RLocal (l : LocalResolution)
| RRemote (r : RemoteResolution)
| RError (e : ErrorResolution).

(** ** Capabilities of the target *)
Definition resolveTargetCapabilities (res : resolution) (r : ModelRouter) : option BackendCapabilities :=
  match res with
  | RLocal l => getEffectiveCapabilities (lr_modelId l) r
  | RRemote rr =>
      match head (rr_hosts rr) with
      | Some h =>
          match eh_capabilities h with
          | Some c => Some (MkCaps (wants (hc_streaming c)) (wants (hc_tool_use c)) (wants (hc_system_prompt c))
                              (wants (hc_prompt_caching c)) (wants (hc_vision c)) false (hc_max_context c))
          | None => None
          end
      | None => None
      end
  | RError _ => None
  end.
Definition getUnmetCapabilities (caps : BackendCapabilities) (r : CapabilityRequirements) : list string :=
  (if wants (rq_vision r) && negb (bc_vision caps) then ["vision"] else []) ++
  (if wants (rq_tool_use r) && negb (bc_tool_use caps) then ["tool_use"] else []) ++
  (if wants (rq_system_prompt r) && negb (bc_system_prompt caps) then ["system_prompt"] else []) ++
  (if wants (rq_prompt_caching r) && negb (bc_prompt_caching caps) then ["prompt_caching"] else []).
(** [Object.keys(requirements)], in the order of the type. *)
Definition requirement_keys (r : CapabilityRequirements) : list string :=
  (match rq_vision r with Some _ => ["vision"] | None => [] end) ++
  (match rq_tool_use r with Some _ => ["tool_use"] | None => [] end) ++
  (match rq_system_prompt r with Some _ => ["system_prompt"] | None => [] end) ++
  (match rq_prompt_caching r with Some _ => ["prompt_caching"] | None => [] end).

(** ** Tiers *)
Definition least (acc : option Z) (t : Z) : option Z :=
  match acc with None => Some t | Some b => if t <? b then Some t else acc end.
Definition resolveModelTier (modelId : string) (r : ModelRouter) (db : list ClusterHost) (localSiteId : string) : option Z :=
  match getBackendTier modelId r with
  | Some t => Some t
  | None =>
      foldl (λ acc e, match e with
                      | AdvertisedModel e => if seqb (me_id e) modelId
                                             then match me_tier e with Some t => least acc t | None => acc end else acc
                      | LegacyModel _ => acc
                      end) None (mjoin (models_of <$> remote_hosts localSiteId db))
  end.

Definition buildLocalResolution (r : ModelRouter) (modelId : string) (reResolved : bool) : option LocalResolution :=
  match getEffectiveCapabilities modelId r ≫= bc_max_context with
  | None => None
  | Some window =>
      Some (MkLocal modelId reResolved (getThinkingConfig modelId r) (usesThinkingTool modelId r) (getEffort modelId r)
              (getMaxOutputTokens modelId r) (getSystemPromptSuffix modelId r) (getCacheTtl modelId r) window)
  end.

(** What an entry of a fresh host contributes to the fallback. *)
Definition fallback_entry (failedModelId : string) (tier : Z) (req : option CapabilityRequirements) (h : ClusterHost)
    (e : model_entry) : option EligibleHost :=
  match e with
  | LegacyModel _ => None
  | AdvertisedModel e =>
      if negb (nonempty (me_id e)) || seqb (me_id e) failedModelId then None
      else if negb (bool_decide (me_tier e = Some tier)) then None
      else if match req, me_capabilities e with Some q, Some c => negb (host_satisfies q c) | _, _ => false end then None
      else match me_capabilities e ≫= hc_max_context with
           | None => None
           | Some _ => Some (MkEligible (ho_site_id h) (ho_host_name h) (ho_sync_url h) (ho_online_at h) (ho_modified_at h)
                               (me_capabilities e) (me_max_output_tokens e) (me_tier e) false false (me_id e))
           end
  end.
Definition fallback_hosts (now : Z) (db : list ClusterHost) (localSiteId failedModelId : string) (tier : Z)
    (req : option CapabilityRequirements) : list EligibleHost :=
  stable_sort fresh_lt
    (mjoin ((λ h, omap (fallback_entry failedModelId tier req h) (models_of h)) <$>
       List.filter (fresh now) (remote_hosts localSiteId db))).
Definition resolveSameTierFallback (now : Z) (failedModelId : string) (r : ModelRouter) (db : list ClusterHost)
    (localSiteId : string) (tier : Z) (req : option CapabilityRequirements) : ModelRouter * option resolution :=
  let '(r', localCandidates) := listEligibleByTier now tier req r in
  let localResolution :=
    match List.find (λ b, negb (seqb b.1 failedModelId)) localCandidates with
    | Some alt =>
        match tryGetBackend alt.1 r' with
        | Some _ => buildLocalResolution r' alt.1 true
        | None => None
        end
    | None => None
    end in
  match localResolution with
  | Some l => (r', Some (RLocal l))
  | None =>
      match fallback_hosts now db localSiteId failedModelId tier req with
      | [] => (r', None)
      | best :: rest =>
          match eh_capabilities best ≫= hc_max_context with
          | None => (r', None)
          | Some window =>
              (r', Some (RRemote (MkRemote (best :: rest) (eh_model best) true None None (eh_maxOutputTokens best) window)))
          end
      end
  end.

(** ** Registration anywhere *)
Definition isModelRegisteredInCluster (modelId : string) (r : ModelRouter) (db : list ClusterHost) : bool :=
  existsb (λ b, seqb b.1 modelId) (listBackends r) ||
  existsb (λ h, existsb (λ e, seqb (entry_id e) modelId) (models_of h)) (sql_select (λ h, negb (ho_deleted h)) db).

(** ** Resolution *)
Definition transient (error : string) (recovery : option Z) : resolution :=
  RError (MkError error (Some TransientUnavailable) None None recovery).
Definition remote_resolution (hosts : list EligibleHost) (modelId : string) (window : Z) : resolution :=
  let tool := match head hosts with Some h => eh_thinking_tool h | None => false end in
  RRemote (MkRemote hosts modelId false (Some tool) (if tool then Some Disabled else None)
    (head hosts ≫= eh_maxOutputTokens) window).

(** Phase 2 for a local backend that lacks a capability. *)
Definition requalify (now : Z) (unmet : list string) (req : CapabilityRequirements) (r : ModelRouter) : ModelRouter * resolution :=
  let '(r', eligible) := listEligible now (Some req) r in
  let alternative :=
    match eligible with
    | alt :: _ => match tryGetBackend alt.1 r' with Some _ => buildLocalResolution r' alt.1 true | None => None end
    | [] => None
    end in
  match alternative with
  | Some l => (r', RLocal l)
  | None =>
      (r', match getEarliestCapableRecovery (Some req) r' with
           | Some t => RError (MkError "No backends available — all capable backends are rate-limited"
                                 (Some TransientUnavailable) (Some unmet) None (Some t))
           | None => RError (MkError ("No backends support required capabilities: " +:+ String.concat ", " unmet)
                               (Some CapabilityMismatch) (Some unmet) (Some []) None)
           end)
  end.
Definition unmet_of (id : string) (req : CapabilityRequirements) (r : ModelRouter) : list string :=
  match getEffectiveCapabilities id r with
  | Some caps => getUnmetCapabilities caps req
  | None => requirement_keys req
  end.
Definition resolveLocal (now : Z) (id : string) (req : option CapabilityRequirements) (r : ModelRouter) : ModelRouter * resolution :=
  let dispatch :=
    match buildLocalResolution r id false with
    | Some l => RLocal l
    | None => transient ("Model " +:+ quoted id +:+ " resolved to a local backend that advertises no context window") None
    end in
  match req with
  | Some q => match unmet_of id q r with
              | [] => (r, dispatch)
              | unmet => requalify now unmet q r
              end
  | None => (r, dispatch)
  end.
Definition resolveAnyRemote (now : Z) (db : list ClusterHost) (localSiteId : string) : resolution :=
  match findAnyRemoteModel now db localSiteId with
  | Ok (h, modelId) =>
      match eh_capabilities h ≫= hc_max_context with
      | Some window => remote_resolution [h] modelId window
      | None => transient ("Remote model " +:+ quoted modelId +:+ " resolved but the host advertises no context window") None
      end
  | Throw error => RError (MkError ("Hub-only mode: no remote inference backends available. " +:+ error) None None None None)
  end.
Definition resolveRemote (now : Z) (id : string) (req : option CapabilityRequirements) (db : list ClusterHost)
    (localSiteId : string) (r : ModelRouter) : resolution :=
  match findEligibleHostsByModel now db id localSiteId req with
  | Ok hosts =>
      match (head hosts ≫= eh_capabilities) ≫= hc_max_context with
      | Some window => remote_resolution hosts id window
      | None => transient ("Model " +:+ quoted id +:+ " resolved to a remote host that advertises no context window") None
      end
  | Throw error =>
      RError (MkError ("Unknown model " +:+ quoted id +:+ ". Local backends: [" +:+
                       String.concat ", " (listBackends r).*1 +:+ "]. " +:+ error)
        (Some (if isModelRegisteredInCluster id r db then TransientUnavailable else UnknownModel)) None None None)
  end.
(** The id a request means. *)
Definition effective_id (modelId : option string) (r : ModelRouter) : string :=
  match modelId with
  | Some m => if negb (nonempty m) || seqb m "default" then defaultId r else m
  | None => defaultId r
  end.
Definition resolveModel (now : Z) (modelId : option string) (r : ModelRouter) (db : list ClusterHost) (localSiteId : string)
    (req : option CapabilityRequirements) : ModelRouter * resolution :=
  let id := effective_id modelId r in
  if nonempty id && isNotReady id r
  then (r, transient ("Model " +:+ quoted id +:+ " is not ready yet (self-configuring backend warming up)")
             (getEarliestCapableRecovery req r))
  else match tryGetBackend id r with
       | Some _ => resolveLocal now id req r
       | None => (r, if nonempty id then resolveRemote now id req db localSiteId r else resolveAnyRemote now db localSiteId)
       end.

(** ** Waiting *)
Definition MODEL_RECONNECT_POLL_INTERVAL_MS : Z := 1000.
Definition MAX_MODEL_RECONNECT_WAIT_MS : Z := 120000.
Definition is_transient (res : resolution) : bool :=
  match res with RError e => bool_decide (er_reason e = Some TransientUnavailable) | _ => false end.
(** The loop: sleep until the next poll or the deadline, stop on the abort
    signal, resolve again.  [fuel] bounds the polls. *)
Fixpoint wait_loop (fuel : nat) (pollIntervalMs deadline : Z) (aborted : Z → bool) (resolve : Z → resolution) (now : Z)
    (latest : resolution) : option (Z * resolution) :=
  if (now <? deadline) && negb (aborted now) then
    match fuel with
    | O => None
    | S fuel' =>
        let woken := now + Z.min pollIntervalMs (deadline - now) in
        if aborted woken then Some (woken, latest)
        else if is_transient (resolve woken)
             then wait_loop fuel' pollIntervalMs deadline aborted resolve woken (resolve woken)
             else Some (woken, resolve woken)
    end
  else Some (now, latest).
Definition waitForModelResolution (fuel : nat) (timeoutMs pollIntervalMs : Z) (aborted : Z → bool) (resolve : Z → resolution)
    (now : Z) (initial : resolution) : option (Z * resolution) :=
  if negb (is_transient initial) || (timeoutMs <=? 0) then Some (now, initial)
  else wait_loop fuel pollIntervalMs (now + timeoutMs) aborted resolve now initial.

(** * Properties *)
Import RouterProps.

Lemma unmet_none caps q : getUnmetCapabilities caps q = [] ↔ satisfies q caps = true.
Proof.
  unfold getUnmetCapabilities, satisfies. destruct (wants (rq_vision q)), (bc_vision caps), (wants (rq_tool_use q)), (bc_tool_use caps),
    (wants (rq_system_prompt q)), (bc_system_prompt caps), (wants (rq_prompt_caching q)), (bc_prompt_caching caps); simpl; done.
Qed.
Lemma unready_none r id : router_ok r → id ∉ (backends r).*1 → isNotReady id r = false.
Proof. intros [_ _ _ Hr] Hn. apply bool_decide_eq_false_2. auto. Qed.
Lemma tryGet_in r id : (∃ b, tryGetBackend id r = Some b) ↔ id ∈ (backends r).*1.
Proof.
  unfold tryGetBackend. destruct (fields_get id (backends r)) as [b|] eqn:E.
  - split; [intros _|by exists b]. destruct (decide (id ∈ (backends r).*1)) as [|Hn]; [done|]. apply fields_get_none in Hn. congruence.
  - split; [by intros []|]. intros Hin. by apply fields_get_none in E.
Qed.
(** A local resolution of the backend [id]. *)
Definition local_ok (req : option CapabilityRequirements) (r : ModelRouter) (l : LocalResolution) : Prop :=
  lr_modelId l ∈ (backends r).*1 ∧ isNotReady (lr_modelId l) r = false ∧
  ∃ caps, effectiveCaps r !! lr_modelId l = Some caps ∧ meets req caps = true ∧ bc_max_context caps = Some (lr_max_context l).
Lemma build_local_spec r r' id b now l : same_but_expired now r r' → buildLocalResolution r' id b = Some l →
  lr_modelId l = id ∧ lr_reResolved l = b ∧ ∃ caps, effectiveCaps r !! id = Some caps ∧ bc_max_context caps = Some (lr_max_context l).
Proof.
  intros [Hr _]. unfold buildLocalResolution, getEffectiveCapabilities. rewrite Hr. cbn [effectiveCaps with_limits].
  destruct (effectiveCaps r !! id) as [caps|]; [simpl|done]. destruct (bc_max_context caps) as [w|] eqn:E; [|done].
  intros [= <-]. split_and!; [done|done|]. by exists caps.
Qed.
Lemma eligible_entry_spec now req r r' l id caps :
  listEligible now req r = (r', l) → (id, caps) ∈ l →
  id ∈ (backends r).*1 ∧ isNotReady id r = false ∧ effectiveCaps r !! id = Some caps ∧ meets req caps = true.
Proof.
  intros Hl Hin. pose proof (listEligible_spec now req r) as H. rewrite Hl in H. destruct H as [-> _].
  apply list_elem_of_omap in Hin as (j & Hj & He). unfold eligible_at in He. destruct (limited now j r || isNotReady j r) eqn:E; [done|].
  apply orb_false_elim in E as [_ E]. destruct (effectiveCaps r !! j) as [c|] eqn:Ec; [|done]. destruct (meets req c) eqn:Em; [|done].
  injection He as -> ->. done.
Qed.
Lemma eligible_same now req r : same_but_expired now r (listEligible now req r).1.
Proof. pose proof (listEligible_spec now req r) as H. destruct (listEligible now req r). apply H. Qed.
Lemma same_refl now r : same_but_expired now r r.
Proof. split; [by destruct r|done]. Qed.
(** The first eligible backend as a resolution. *)
Lemma alternative_ok now req r r' id caps b l : same_but_expired now r r' →
  id ∈ (backends r).*1 → isNotReady id r = false → effectiveCaps r !! id = Some caps → meets req caps = true →
  buildLocalResolution r' id b = Some l → local_ok req r l ∧ lr_modelId l = id ∧ lr_reResolved l = b.
Proof.
  intros Hs Hk Hr Hc Hm (Hid & Hb & c & Hc' & Hw)%(build_local_spec _ _ _ _ _ _ Hs). split; [|done]. unfold local_ok. rewrite Hid.
  split_and!; [done|done|]. exists c. split_and!; [done| |done]. congruence.
Qed.

(** A remote resolution: fresh hosts of other sites that advertise the model. *)
Definition advertiser (now : Z) (db : list ClusterHost) (l m : string) (x : EligibleHost) : Prop :=
  ∃ h e, is_remote l db h ∧ fresh now h = true ∧ e ∈ models_of h ∧ entry_id e = m ∧ ho_site_id h = eh_site_id x.
Definition remote_ok (now : Z) (db : list ClusterHost) (l : string) (rr : RemoteResolution) : Prop :=
  (∀ x, x ∈ rr_hosts rr → advertiser now db l (rr_modelId rr) x) ∧
  ∃ best caps, head (rr_hosts rr) = Some best ∧ eh_capabilities best = Some caps ∧ hc_max_context caps = Some (rr_max_context rr).
Lemma serves_advertiser now m req db l x : serves now m req db l x →
  advertiser now db l m (match x with inl y => y | inr y => y end).
Proof.
  intros (h & e & Hr & Hf & He & Hm). exists h, e. split_and!; [done|done|done|..].
  all: destruct e as [id|e]; simpl in Hm; [destruct (seqb id m) eqn:E; [|done]; injection Hm as <-; by apply seqb_true in E|].
  all: destruct (seqb (me_id e) m) eqn:E; [|done]; apply seqb_true in E; simpl in Hm.
  all: destruct req as [q|]; [destruct (me_capabilities e); [destruct (host_satisfies q _)|]|]; simplify_eq; done.
Qed.
Lemma resolveRemote_ok now id req db l r rr : resolveRemote now id req db l r = RRemote rr → remote_ok now db l rr ∧ rr_modelId rr = id.
Proof.
  unfold resolveRemote. pose proof (search_spec now db id l req) as H. destruct (findEligibleHostsByModel now db id l req) as [hosts|]; [|done].
  destruct H as (uns & -> & _ & Hu). set (hosts := stable_sort eligible_lt uns). destruct (head hosts) as [best|] eqn:Eh; [|done]. simpl.
  destruct (eh_capabilities best) as [c|] eqn:Ec; [|done]. simpl. destruct (hc_max_context c) as [w|] eqn:Ew; [|done].
  intros [= <-]. split; [|done]. split; [|by exists best, c]. simpl. intros x Hx. unfold hosts in Hx. rewrite elem_of_stable_sort in Hx.
  apply Hu in Hx as [Hx|[Hx _]]; apply serves_advertiser in Hx; done.
Qed.
Lemma resolveAny_ok now db l rr : resolveAnyRemote now db l = RRemote rr → remote_ok now db l rr.
Proof.
  unfold resolveAnyRemote, findAnyRemoteModel. destruct (stable_sort tier_lt _) as [|best rest] eqn:Es; [done|].
  destruct (eh_capabilities best ≫= hc_max_context) as [w|] eqn:Ew; [|done]. intros [= <-].
  destruct (eh_capabilities best) as [c|] eqn:Ec; [|done]. simpl in Ew. split; simpl; [|by exists best, c].
  intros x ->%list_elem_of_singleton. assert (best ∈ best :: rest) as Hin by left. rewrite <-Es, elem_of_stable_sort in Hin.
  apply list_elem_of_join in Hin as (l' & Hin & (h & -> & [Hh Hf]%filter_In_iff)%list_elem_of_fmap).
  apply list_elem_of_omap in Hin as (e & He & Hm). exists h, e. apply remote_hosts_spec in Hh.
  destruct e as [id|e]; simpl in Hm; [destruct (nonempty id)|destruct (nonempty (me_id e))]; simplify_eq; done.
Qed.

Lemma requalify_ok now unmet q r :
  let '(r', res) := requalify now unmet q r in
  same_but_expired now r r' ∧
  match res with
  | RLocal l => local_ok (Some q) r l ∧ lr_reResolved l = true
  | RRemote _ => False
  | RError e => er_reason e = Some (match getEarliestCapableRecovery (Some q) r' with Some _ => TransientUnavailable | None => CapabilityMismatch end)
  end.
Proof.
  unfold requalify. pose proof (eligible_same now (Some q) r) as Hs. destruct (listEligible now (Some q) r) as [r' el] eqn:El. simpl in Hs.
  assert (∀ alt, head el = Some alt → alt.1 ∈ (backends r).*1 ∧ isNotReady alt.1 r = false ∧ effectiveCaps r !! alt.1 = Some alt.2 ∧
    meets (Some q) alt.2 = true) as Halt.
  { intros [id caps] Hh. apply (eligible_entry_spec _ _ _ _ _ _ _ El). destruct el; [done|]. injection Hh as ->. left. }
  destruct el as [|alt el]; [split; [done|by destruct (getEarliestCapableRecovery _ _)]|].
  destruct (Halt alt eq_refl) as (Hk & Hr & Hc & Hm).
  destruct (tryGetBackend alt.1 r') as [bk|]; [|split; [done|by destruct (getEarliestCapableRecovery _ _)]].
  destruct (buildLocalResolution r' alt.1 true) as [l|] eqn:Eb; [|split; [done|by destruct (getEarliestCapableRecovery _ _)]].
  split; [done|]. by destruct (alternative_ok _ _ _ _ _ _ _ _ Hs Hk Hr Hc Hm Eb) as (? & _ & ?).
Qed.
Lemma resolveLocal_ok now id req r : router_ok r → id ∈ (backends r).*1 → isNotReady id r = false →
  let '(r', res) := resolveLocal now id req r in
  same_but_expired now r r' ∧
  match res with
  | RLocal l => local_ok req r l ∧ (lr_reResolved l = false → lr_modelId l = id)
  | RRemote _ => False
  | RError e => er_reason e ≠ Some UnknownModel
  end.
Proof.
  intros Hok Hk Hr. unfold resolveLocal. apply (ok_caps _ Hok) in Hk as Hc. destruct Hc as [caps Hc].
  set (dispatch := match buildLocalResolution r id false with Some l => RLocal l | None => _ end).
  assert (meets req caps = true → match dispatch with
    | RLocal l => local_ok req r l ∧ (lr_reResolved l = false → lr_modelId l = id)
    | RRemote _ => False
    | RError e => er_reason e ≠ Some UnknownModel end) as Hd.
  { intros Hm. unfold dispatch. destruct (buildLocalResolution r id false) as [l|] eqn:Eb; [|done].
    by destruct (alternative_ok now req r r id caps false l (same_refl now r) Hk Hr Hc Hm Eb) as (? & ? & _). }
  destruct req as [q|]; [|split; [apply same_refl|by apply Hd]].
  destruct (unmet_of id q r) as [|u us] eqn:Eu.
  - split; [apply same_refl|]. apply Hd. simpl. apply unmet_none. unfold unmet_of, getEffectiveCapabilities in Eu. by rewrite Hc in Eu.
  - pose proof (requalify_ok now (u :: us) q r) as H. destruct (requalify now (u :: us) q r) as [r' res]. destruct H as [Hs H].
    split; [done|]. destruct res as [l|rr|e]; [|done|].
    + destruct H as [H1 H2]. split; [done|]. by rewrite H2.
    + rewrite H. by destruct (getEarliestCapableRecovery _ _).
Qed.

(** A resolution keeps what it promises.  A local one names a registered,
    ready backend that meets the request's capabilities and has a known context
    window, and it is the requested one unless marked as re-resolved.  A remote
    one lists hosts other than this one, heard of within five minutes, that all
    advertise the model; the first has a known window.  The router changes only
    by forgetting expired rate limits. *)
Theorem resolution_sound now m r db l req :
  router_ok r → "" ∉ (backends r).*1 →
  let '(r', res) := resolveModel now m r db l req in
  same_but_expired now r r' ∧
  match res with
  | RLocal lr => local_ok req r lr ∧ (lr_reResolved lr = false → lr_modelId lr = effective_id m r)
  | RRemote rr => remote_ok now db l rr ∧ (effective_id m r ≠ "" → rr_modelId rr = effective_id m r)
  | RError _ => True
  end.
Proof.
  intros Hok Hempty. unfold resolveModel. set (id := effective_id m r).
  destruct (nonempty id && isNotReady id r) eqn:En; [split; [apply same_refl|done]|].
  destruct (tryGetBackend id r) as [b|] eqn:Eb.
  - assert (id ∈ (backends r).*1) as Hk by (apply tryGet_in; eauto).
    assert (isNotReady id r = false) as Hr.
    { unfold nonempty in En. destruct (seqb id "") eqn:E; [apply seqb_true in E; congruence|done]. }
    pose proof (resolveLocal_ok now id req r Hok Hk Hr) as H. destruct (resolveLocal now id req r) as [r' res]. destruct H as [Hs H].
    split; [done|]. by destruct res.
  - split; [apply same_refl|]. unfold nonempty. destruct (seqb id "") eqn:E; simpl.
    + apply seqb_true in E. destruct (resolveAnyRemote now db l) as [lr|rr|e] eqn:Ea; [|by apply resolveAny_ok in Ea|done].
      unfold resolveAnyRemote in Ea. destruct (findAnyRemoteModel now db l) as [[h mm]|]; [|done]. by destruct (_ ≫= _).
    + destruct (resolveRemote now id req db l r) as [lr|rr|e] eqn:Ea; [|by apply resolveRemote_ok in Ea as [? ?]|done].
      unfold resolveRemote in Ea. destruct (findEligibleHostsByModel _ _ _ _ _) as [hs|]; [|done]. by destruct (_ ≫= _).
Qed.

(** ** Permanent failures *)
Lemma registered_spec id r db : router_ok r → id ∉ (backends r).*1 →
  isModelRegisteredInCluster id r db = true ↔ ∃ h e, h ∈ db ∧ ho_deleted h = false ∧ e ∈ models_of h ∧ entry_id e = id.
Proof.
  intros _ Hn. unfold isModelRegisteredInCluster. rewrite orb_true_iff. split.
  - intros [H|H].
    + apply existsb_exists in H as ([j c] & Hin%list_elem_of_In & Hj%seqb_true). simpl in Hj. subst j. destruct Hn.
      unfold listBackends in Hin. apply list_elem_of_fmap in Hin as (b & [= -> _] & [Hb _]%filter_In_iff). apply list_elem_of_fmap. eauto.
    + apply existsb_exists in H as (h & Hh%list_elem_of_In & H). unfold sql_select in Hh. apply filter_In_iff in Hh as [Hh Hd%negb_true_iff].
      apply existsb_exists in H as (e & He%list_elem_of_In & Hid%seqb_true). eauto 10.
  - intros (h & e & Hh & Hd & He & Hid). right. apply existsb_exists. exists h. rewrite <-list_elem_of_In. split.
    + unfold sql_select. apply filter_In_iff. by rewrite Hd.
    + apply existsb_exists. exists e. rewrite <-list_elem_of_In. split; [done|]. by apply seqb_true.
Qed.

(** A model is reported unknown, so that its task is parked for good, exactly
    when it is named, no local backend has it, and no host of the cluster
    advertises it, not even one that has been away for long. *)
Theorem unknown_model_iff now m r db l req :
  router_ok r → "" ∉ (backends r).*1 →
  (match (resolveModel now m r db l req).2 with RError e => er_reason e = Some UnknownModel | _ => False end) ↔
  effective_id m r ≠ "" ∧ effective_id m r ∉ (backends r).*1 ∧
  ∀ h e, h ∈ db → ho_deleted h = false → e ∈ models_of h → entry_id e ≠ effective_id m r.
Proof.
  intros Hok Hempty. unfold resolveModel. set (id := effective_id m r).
  destruct (nonempty id && isNotReady id r) eqn:En.
  { apply andb_prop in En as [_ Er]. simpl. split; [done|]. intros (_ & Hn & _). rewrite (unready_none r id Hok Hn) in Er. done. }
  destruct (tryGetBackend id r) as [b|] eqn:Eb.
  - assert (id ∈ (backends r).*1) as Hk by (apply tryGet_in; eauto). split; [|naive_solver].
    assert (isNotReady id r = false) as Hr.
    { unfold nonempty in En. destruct (seqb id "") eqn:E; [apply seqb_true in E; congruence|done]. }
    pose proof (resolveLocal_ok now id req r Hok Hk Hr) as H. destruct (resolveLocal now id req r) as [r' res]. destruct H as [_ H]. simpl.
    by destruct res.
  - assert (id ∉ (backends r).*1) as Hn by (rewrite <-tryGet_in; intros [? ?]; congruence).
    unfold nonempty. destruct (seqb id "") eqn:E; simpl.
    + apply seqb_true in E. split; [|naive_solver]. unfold resolveAnyRemote. destruct (findAnyRemoteModel now db l) as [[h mm]|]; [|done].
      by destruct (_ ≫= _).
    + apply seqb_false in E. unfold resolveRemote. pose proof (search_spec now db id l req) as Hs. pose proof (registered_spec id r db Hok Hn) as Hreg.
      destruct (findEligibleHostsByModel now db id l req) as [hosts|err].
      * split; [by destruct (_ ≫= _)|]. intros (_ & _ & Hno). exfalso. destruct Hs as (uns & _ & Hne & Hu).
        destruct uns as [|x uns]; [done|]. assert (∃ y, serves now id req db l y) as [y Hy].
        { destruct (proj1 (Hu x)) as [H|[H _]]; [left|eauto..]. }
        apply serves_advertiser in Hy as (h & e & (Hh & Hd & _) & _ & He & Hid & _). by apply (Hno h e).
      * destruct (isModelRegisteredInCluster id r db) eqn:Ereg; simpl.
        -- split; [done|]. intros (_ & _ & Hno). destruct (proj1 Hreg eq_refl) as (h & e & ? & ? & ? & ?). by destruct (Hno h e).
        -- split; [|done]. intros _. split_and!; [done|done|]. intros h e Hh Hd He Hid. assert (false = true); [|done].
           apply Hreg. eauto 10.
Qed.

(** ** The fallback *)
Lemma fallback_hosts_spec now db l failed tier req x : x ∈ fallback_hosts now db l failed tier req →
  advertiser now db l (eh_model x) x ∧ eh_model x ≠ failed ∧ eh_tier x = Some tier ∧
  ∃ caps w, eh_capabilities x = Some caps ∧ hc_max_context caps = Some w ∧
    match req with Some q => host_satisfies q caps = true | None => True end.
Proof.
  unfold fallback_hosts. rewrite elem_of_stable_sort, list_elem_of_join. setoid_rewrite list_elem_of_fmap.
  intros (k & Hx & h & -> & [Hh Hf]%filter_In_iff). apply list_elem_of_omap in Hx as (e & He & Hm). apply remote_hosts_spec in Hh.
  destruct e as [id|e]; simpl in Hm; [done|]. destruct (negb (nonempty (me_id e)) || seqb (me_id e) failed) eqn:E; [done|].
  apply orb_false_elim in E as [_ E%seqb_false]. case_bool_decide as Et; simpl in Hm; [|done].
  destruct (match req with Some q => _ | None => _ end) eqn:Eq; [done|].
  destruct (me_capabilities e) as [c|] eqn:Ec; simpl in Hm; [|done]. destruct (hc_max_context c) as [w|] eqn:Ew; [|done].
  injection Hm as <-. simpl. split_and!; [|done|done|].
  - exists h, (AdvertisedModel e). split_and!; done.
  - exists c, w. split_and!; [done|done|]. destruct req as [q|]; [by apply negb_false_iff in Eq|done].
Qed.

(** A fallback is never the model that failed and costs the same: a local one
    is registered, ready and capable with the tier asked for, and for a remote
    one the first host advertises the model named, with the tier asked for and a
    known context window. *)
Theorem fallback_same_tier now failed r db l tier req :
  let '(r', res) := resolveSameTierFallback now failed r db l tier req in
  same_but_expired now r r' ∧
  match res with
  | Some (RLocal lr) => local_ok req r lr ∧ lr_modelId lr ≠ failed ∧ tiers r !! lr_modelId lr = Some tier ∧ lr_reResolved lr = true
  | Some (RRemote rr) =>
      rr_modelId rr ≠ failed ∧ rr_reResolved rr = true ∧
      ∃ best caps, head (rr_hosts rr) = Some best ∧ advertiser now db l (rr_modelId rr) best ∧ eh_tier best = Some tier ∧
        eh_capabilities best = Some caps ∧ hc_max_context caps = Some (rr_max_context rr) ∧
        match req with Some q => host_satisfies q caps = true | None => True end
  | Some (RError _) => False
  | None => True
  end.
Proof.
  unfold resolveSameTierFallback, listEligibleByTier. pose proof (eligible_same now req r) as Hs.
  destruct (listEligible now req r) as [r' el] eqn:El. simpl in Hs. cbv zeta.
  set (localRes := match List.find _ _ with Some _ => _ | None => None end).
  assert (∀ lr, localRes = Some lr → local_ok req r lr ∧ lr_modelId lr ≠ failed ∧ tiers r !! lr_modelId lr = Some tier ∧ lr_reResolved lr = true) as Hlocal.
  { unfold localRes. intros lr. destruct (List.find _ _) as [[id caps]|] eqn:Ef; [|done].
    apply find_elem in Ef as [[Hin Ht]%filter_In_iff Hne]. apply negb_true_iff, seqb_false in Hne. simpl in *.
    apply bool_decide_eq_true_1 in Ht. destruct (eligible_entry_spec _ _ _ _ _ _ _ El Hin) as (Hk & Hr & Hc & Hm).
    destruct (tryGetBackend id r') as [bk|]; [|done]. intros Hb.
    destruct (alternative_ok _ _ _ _ _ _ _ _ Hs Hk Hr Hc Hm Hb) as (Hok & Hid & Hre). rewrite Hid. split_and!; [done|done| |done].
    destruct Hs as [Hs _]. by rewrite Hs in Ht. }
  destruct localRes as [lr|]; [split; [done|by apply Hlocal]|].
  pose proof (fallback_hosts_spec now db l failed tier req) as Hf.
  destruct (fallback_hosts now db l failed tier req) as [|best rest]; [done|].
  destruct (Hf best) as (Ha & Hne & Ht & caps & w & Hc & Hw & Hq); [left|]. rewrite Hc. simpl. rewrite Hw. split; [done|]. simpl.
  split_and!; [done|done|]. by exists best, caps.
Qed.

(** ** The wait *)
Lemma wait_loop_spec poll deadline aborted resolve fuel now latest :
  0 < poll → is_transient latest = true → now ≤ deadline → deadline - now ≤ Z.of_nat fuel * poll →
  ∃ t res, wait_loop fuel poll deadline aborted resolve now latest = Some (t, res) ∧ now ≤ t ≤ deadline ∧
    (res = latest ∨ ∃ t', now < t' ≤ t ∧ res = resolve t') ∧
    (is_transient res = true → aborted t = true ∨ t = deadline).
Proof.
  intros Hp. revert now latest. induction fuel as [|fuel IH]; intros now latest Hl Hn Hf; cbn [wait_loop].
  - destruct (Z.ltb_spec now deadline); [simpl in Hf; lia|]. simpl. exists now, latest.
    split_and!; [done|lia|lia|by left|right; lia].
  - destruct (Z.ltb_spec now deadline) as [Hlt|Hge]; simpl; [|exists now, latest; split_and!; [done|lia|lia|by left|right; lia]].
    destruct (aborted now) eqn:Ea; simpl; [exists now, latest; split_and!; [done|lia|lia|by left|by left]|].
    set (woken := now + Z.min poll (deadline - now)).
    assert (now < woken ≤ deadline) as Hw by (unfold woken; lia).
    destruct (aborted woken) eqn:Ew; [exists woken, latest; split_and!; [done|lia|lia|by left|by left]|].
    destruct (is_transient (resolve woken)) eqn:Et.
    + destruct (IH woken (resolve woken) Et) as (t & res & -> & Ht & Hr & Hd); [lia| |].
      { destruct (Z.le_gt_cases poll (deadline - now)); unfold woken; [rewrite Z.min_l by lia; lia|rewrite Z.min_r by lia].
        assert (0 ≤ Z.of_nat fuel * poll) by lia. lia. }
      exists t, res. split_and!; [done|lia|lia| |done]. right. destruct Hr as [->|(t' & Ht' & ->)]; [exists woken|exists t']; split; [lia|done|lia|done].
    + exists woken, (resolve woken). split_and!; [done|lia|lia|right; exists woken; split; [lia|done]|congruence].
Qed.

(** The wait for a model that is away ends: after at most as many polls as
    intervals fit the timeout, and never later than the deadline, it returns the
    first resolution or one made meanwhile, and a resolution that is still
    transient only after an abort or at the deadline. *)
Theorem wait_terminates fuel timeoutMs poll aborted resolve now initial :
  0 < poll → timeoutMs ≤ Z.of_nat fuel * poll →
  ∃ t res, waitForModelResolution fuel timeoutMs poll aborted resolve now initial = Some (t, res) ∧
    now ≤ t ≤ now + Z.max 0 timeoutMs ∧ (res = initial ∨ ∃ t', now < t' ≤ t ∧ res = resolve t') ∧
    (is_transient res = true → aborted t = true ∨ t = now + Z.max 0 timeoutMs).
Proof.
  intros Hp Hf. unfold waitForModelResolution. destruct (is_transient initial) eqn:Ei; simpl.
  - destruct (Z.leb_spec timeoutMs 0) as [Hle|Hgt].
    + exists now, initial. split_and!; [done|lia|lia|by left|right; lia].
    + destruct (wait_loop_spec poll (now + timeoutMs) aborted resolve fuel now initial Hp Ei) as (t & res & -> & Ht & Hr & Hd); [lia|lia|].
      rewrite Z.max_r by lia. exists t, res. by split_and!; [..|lia|lia| |].
  - exists now, initial. split_and!; [done|lia|lia|by left|congruence].
Qed.

(** ** Concrete resolutions *)
Definition blind : ModelRouter :=
  built (MkBackends [zai "glm-local" 2 no_vision] "glm-local").
Definition no_window (res : resolution) : option (option error_reason) :=
  match res with RError e => Some (er_reason e) | _ => None end.

(** The message and a comment speak of the whole cluster; a remote model that has
    the capability is not considered once the id names a local backend. *)
Example mismatch_ignores_cluster :
  no_window (resolveModel 900000 (Some "glm-local") blind cluster "here" wants_vision).2 = Some (Some CapabilityMismatch) ∧
  match (resolveModel 900000 (Some "opus") blind cluster "here" wants_vision).2 with RRemote rr => eh_site_id <$> rr_hosts rr | _ => [] end = ["c"; "b"].
Proof. vm_compute. done. Qed.

(** The fallback lists hosts of several models under the name of the freshest
    one's: the second host here does not advertise it. *)
Definition tier_two (id : string) : string :=
  json_stringify (JArr [JObj [("id", JStr id); ("tier", JInt 2); ("capabilities", JObj [("max_context", JInt 1000)])]]).
Definition mixed : list ClusterHost := [host "p" (tier_two "alpha") 890000; host "q" (tier_two "beta") 880000].
Example fallback_mixes_models :
  match (resolveSameTierFallback 900000 "gone" blind mixed "here" 2 wants_vision).2 with
  | Some (RRemote rr) => (rr_modelId rr, eh_site_id <$> rr_hosts rr)
  | _ => ("", [])
  end = ("", []) ∧
  match (resolveSameTierFallback 900000 "glm-local" blind mixed "here" 2 None).2 with
  | Some (RRemote rr) => (rr_modelId rr, eh_site_id <$> rr_hosts rr)
  | _ => ("", [])
  end = ("alpha", ["p"; "q"]) ∧
  forallb (λ e, negb (seqb (entry_id e) "alpha")) (models_of (host "q" (tier_two "beta") 880000)) = true.
Proof. vm_compute. done. Qed.

Lemma blind_ok : router_ok blind.
Proof.
  split.
  - apply (bool_decide_unpack _). vm_compute. done.
  - intros id. vm_compute backends. change (effectiveCaps blind) with ({[ "glm-local" := MkCaps true true true false false false (Some 128000) ]} : gmap string BackendCapabilities).
    rewrite lookup_singleton_is_Some. simpl. rewrite list_elem_of_singleton. naive_solver.
  - intros id. change (tiers blind) with ({[ "glm-local" := 2 ]} : gmap string Z). rewrite lookup_singleton_is_Some.
    intros <-. vm_compute. left.
  - intros id. change (notReady blind) with (∅ : gset string). set_solver.
Qed.
Lemma resolution_sound_witness :
  let '(r', res) := resolveModel 900000 (Some "opus") blind cluster "here" wants_vision in
  same_but_expired 900000 blind r' ∧
  match res with
  | RLocal lr => local_ok wants_vision blind lr ∧ (lr_reResolved lr = false → lr_modelId lr = effective_id (Some "opus") blind)
  | RRemote rr => remote_ok 900000 cluster "here" rr ∧ (effective_id (Some "opus") blind ≠ "" → rr_modelId rr = effective_id (Some "opus") blind)
  | RError _ => True
  end.
Proof.
  apply (resolution_sound 900000 (Some "opus") blind cluster "here" wants_vision); [apply blind_ok|].
  apply (bool_decide_unpack _). vm_compute. done.
Defined.
Lemma unknown_model_iff_witness :
  (match (resolveModel 900000 (Some "retired") blind cluster "here" None).2 with RError e => er_reason e = Some UnknownModel | _ => False end) ↔
  effective_id (Some "retired") blind ≠ "" ∧ effective_id (Some "retired") blind ∉ (backends blind).*1 ∧
  ∀ h e, h ∈ cluster → ho_deleted h = false → e ∈ models_of h → entry_id e ≠ effective_id (Some "retired") blind.
Proof.
  apply (unknown_model_iff 900000 (Some "retired") blind cluster "here" None); [apply blind_ok|].
  apply (bool_decide_unpack _). vm_compute. done.
Defined.
Lemma wait_terminates_witness :
  ∃ t res, waitForModelResolution 120 120000 1000 (λ _, false) (λ t, if t <? 5000 then transient "away" None else RLocal (MkLocal "m" false None false None None None None 8192))
      0 (transient "away" None) = Some (t, res) ∧
    0 ≤ t ≤ 0 + Z.max 0 120000 ∧
    (res = transient "away" None ∨ ∃ t', 0 < t' ≤ t ∧ res = (if t' <? 5000 then transient "away" None else RLocal (MkLocal "m" false None false None None None None 8192))) ∧
    (is_transient res = true → false = true ∨ t = 0 + Z.max 0 120000).
Proof.
  apply (wait_terminates 120 120000 1000 (λ _, false)
    (λ t, if t <? 5000 then transient "away" None else RLocal (MkLocal "m" false None false None None None None 8192)) 0 (transient "away" None)); lia.
Defined.
