(* ===== verification/RequestParts.v ===== *)
(** * Multipart inference requests (packages/agent/src/inference-request-parts.ts)

    A serialized request too large for one relay payload is cut into base64
    parts that are put together again by the receiver, in whatever order and
    however often they arrive.  A string is its UTF-8 bytes, so that the text
    encoder is the identity; [Buffer]'s base64 and the fatal text decoder are
    arguments. *)
From Stdlib Require Import Ascii.
From S2P Require Import Prelude Json.
Local Open Scope bound_scope.
Local Open Scope Z_scope.

Record InferenceRequestPart := MkPart {
  ip_version : Z; ip_request_id : string; ip_index : Z; ip_count : Z; ip_data : string }.
#[export] Instance part_eq_dec : EqDecision InferenceRequestPart.
Proof. solve_decision. Defined.
Definition part_json (p : InferenceRequestPart) : json :=
  JObj [("version", JInt (ip_version p)); ("request_id", JStr (ip_request_id p)); ("index", JInt (ip_index p));
        ("count", JInt (ip_count p)); ("data", JStr (ip_data p))].
Definition byte_len (l : list ascii) : Z := Z.of_nat (length l).
Definition serializedBytes (p : InferenceRequestPart) : Z := byte_len (chars (json_stringify (part_json p))).

Record Assembly := MkAssembly { as_count : Z; as_parts : gmap Z string; as_completed : bool }.
(** [InferenceRequestPartAssembler]: the assemblies by request id. *)
Notation assembler := (gmap string Assembly).

Section parts.
(** [Buffer.from(bytes).toString("base64")], [Buffer.from(value, "base64")], and
    [TextDecoder("utf-8", { fatal: true }).decode]. *)
Variables (to_base64 : list ascii → string) (from_base64 : string → list ascii) (decode : list ascii → result string).

Definition makePart (requestId : string) (index count : Z) (bytes : list ascii) : InferenceRequestPart :=
  MkPart 1 requestId index count (to_base64 bytes).

Fixpoint make_parts (fuel : nat) (requestId : string) (index count rawCapacity maxPayloadBytes : Z) (bytes : list ascii)
  : result (list InferenceRequestPart) :=
  match fuel with
  | O => Ok []
  | S fuel' =>
      let part := makePart requestId index count (take (Z.to_nat rawCapacity) bytes) in
      if maxPayloadBytes <? serializedBytes part then Throw "Multipart inference part exceeded relay payload limit"
      else
        let! rest := make_parts fuel' requestId (index + 1) count rawCapacity maxPayloadBytes (drop (Z.to_nat rawCapacity) bytes) in
        Ok (part :: rest)
  end.
Definition show_int (z : Z) : string := of_chars (print_Z z).
(** [Math.ceil(a / b)] for a positive [b]. *)
Definition ceil_div (a b : Z) : Z := (a + b - 1) / b.
(** The raw bytes that fit a part of this payload. *)
Definition raw_capacity (payload requestId : string) (maxPayloadBytes : Z) : Z :=
  let upperCount := Z.max 1 (byte_len (chars payload)) in
  let emptyEnvelope := serializedBytes (makePart requestId (upperCount - 1) upperCount []) in
  (maxPayloadBytes - emptyEnvelope) / 4 * 3.
Definition splitInferenceRequest (payload requestId : string) (maxPayloadBytes : Z) : result (list InferenceRequestPart) :=
  if maxPayloadBytes <=? 0 then Throw "maxPayloadBytes must be a positive integer"
  else
    let payloadBytes := chars payload in
    let rawCapacity := raw_capacity payload requestId maxPayloadBytes in
    if rawCapacity <? 1
    then Throw ("Relay payload limit " +:+ show_int maxPayloadBytes +:+ " is too small for multipart envelope")
    else
      let count := Z.max 1 (ceil_div (byte_len payloadBytes) rawCapacity) in
      make_parts (Z.to_nat count) requestId 0 count rawCapacity maxPayloadBytes payloadBytes.

(** ** The assembler *)

(** The data of the parts [index] to [index + n - 1]; [None] when one is missing. *)
Fixpoint join_parts (n : nat) (index : Z) (parts : gmap Z string) : option (list ascii) :=
  match n with
  | O => Some []
  | S n' =>
      match parts !! index with
      | None => None
      | Some data => match join_parts n' (index + 1) parts with Some rest => Some (from_base64 data ++ rest) | None => None end
      end
  end.
Definition add_part (part : InferenceRequestPart) (s : assembler) : assembler * result (option string) :=
  if negb (ip_version part =? 1) || negb (nonempty (ip_request_id part)) || (ip_count part <? 1) || (ip_index part <? 0) ||
     (ip_count part <=? ip_index part)
  then (s, Throw "Invalid multipart inference request metadata")
  else
    let assembly := match s !! ip_request_id part with Some a => a | None => MkAssembly (ip_count part) ∅ false end in
    let s1 := <[ip_request_id part := assembly]> s in
    if negb (as_count assembly =? ip_count part) then (s1, Throw "Conflicting multipart part count")
    else if match as_parts assembly !! ip_index part with Some existing => negb (seqb existing (ip_data part)) | None => false end
    then (s1, Throw "Conflicting multipart inference request part")
    else if as_completed assembly then (s1, Ok None)
    else
      let parts := <[ip_index part := ip_data part]> (as_parts assembly) in
      let store b := <[ip_request_id part := MkAssembly (as_count assembly) parts b]> s in
      if negb (Z.of_nat (size parts) =? as_count assembly) then (store false, Ok None)
      else match join_parts (Z.to_nat (as_count assembly)) 0 parts with
           | None => (store false, Ok None)
           | Some joined => (store true, match decode joined with Ok text => Ok (Some text) | Throw e => Throw e end)
           end.
Fixpoint add_parts (ps : list InferenceRequestPart) (s : assembler) : assembler * list (result (option string)) :=
  match ps with
  | [] => (s, [])
  | p :: ps' => let '(s1, r) := add_part p s in let '(s2, rs) := add_parts ps' s1 in (s2, r :: rs)
  end.
End parts.

(** * Properties *)

(** ** Sizes *)
(** The number of digits does not decrease. *)
Lemma print_digits_length n z acc : length (print_digits n z acc) = (length (print_digits n z []) + length acc)%nat.
Proof.
  revert z acc. induction n as [|n IH]; intros z acc; [done|]. cbn [print_digits]. destruct (z <? 10); [simpl; lia|].
  rewrite IH, (IH _ [_]). simpl. lia.
Qed.
Lemma print_digits_mono n m a b : 0 ≤ a ≤ b → b < 2 ^ Z.of_nat n → b < 2 ^ Z.of_nat m → a < 2 ^ Z.of_nat n →
  (0 < n)%nat → (0 < m)%nat →
  (length (print_digits n a []) ≤ length (print_digits m b []))%nat.
Proof.
  revert m a b. induction n as [|n IH]; intros m a b Hab Hn Hm Ha Hn0 Hm0; [lia|]. destruct m as [|m]; [lia|]. cbn [print_digits].
  destruct (Z.ltb_spec a 10), (Z.ltb_spec b 10); try lia; [simpl; lia|rewrite print_digits_length; simpl; lia|].
  rewrite (print_digits_length n _ [_]), (print_digits_length m _ [_]). cbn [length].
  assert (∀ k z, 10 ≤ z → z < 2 ^ Z.of_nat (S k) → z / 10 < 2 ^ Z.of_nat k) as Hhalf.
    { intros k z Hz Hk. rewrite Nat2Z.inj_succ, Z.pow_succ_r in Hk by lia. apply Z.div_lt_upper_bound; lia. }
    assert (a / 10 ≤ b / 10) by (apply Z.div_le_mono; lia). assert (0 < b / 10) by (apply Z.div_str_pos; lia).
    assert (0 < n)%nat by (destruct n; [change (2 ^ Z.of_nat 1) with 2 in Ha; lia|lia]).
    assert (0 < m)%nat by (destruct m; [change (2 ^ Z.of_nat 1) with 2 in Hm; lia|lia]).
    specialize (IH m (a / 10) (b / 10)). assert (0 ≤ a / 10) by (apply Z.div_pos; lia).
    pose proof (Hhalf n b). pose proof (Hhalf m b). pose proof (Hhalf n a).
    assert (length (print_digits n (a / 10) []) ≤ length (print_digits m (b / 10) []))%nat by (apply IH; lia). lia.
Qed.
Lemma print_Z_mono a b : 0 ≤ a ≤ b → byte_len (print_Z a) ≤ byte_len (print_Z b).
Proof.
  intros H. unfold byte_len, print_Z. destruct (Z.ltb_spec a 0), (Z.ltb_spec b 0); try lia. unfold print_nonneg.
  assert (∀ z k, 0 ≤ z → Z.log2 z < Z.of_nat k → z < 2 ^ Z.of_nat k) as Hlog.
  { intros z k Hz Hk. destruct (decide (z = 0)) as [->|]; [apply Z.pow_pos_nonneg; lia|]. apply Z.log2_lt_pow2; lia. }
  assert (Z.log2 a ≤ Z.log2 b) by (apply Z.log2_le_mono; lia). pose proof (Z.log2_nonneg a). pose proof (Z.log2_nonneg b).
  (* enough fuel for both *)
  assert (∀ k, (S (Z.to_nat (Z.log2 a)) ≤ k)%nat → print_digits (S (Z.to_nat (Z.log2 a))) a [] = print_digits k a []) as Hfuel.
  { intros k Hk. assert (∀ n m z acc, 0 ≤ z → z < 2 ^ Z.of_nat n → (0 < n)%nat → (n ≤ m)%nat → print_digits n z acc = print_digits m z acc) as Hgen.
    { clear. induction n as [|n IH]; intros m z acc Hz Hzn Hn Hm; [lia|]. destruct m as [|m]; [lia|]. cbn [print_digits].
      destruct (Z.ltb_spec z 10); [done|]. assert (0 < n)%nat by (destruct n; [change (2 ^ Z.of_nat 1) with 2 in Hzn; lia|lia]).
      apply IH; [apply Z.div_pos; lia| |done|lia]. rewrite Nat2Z.inj_succ, Z.pow_succ_r in Hzn by lia. apply Z.div_lt_upper_bound; lia. }
    apply Hgen; [lia|apply Hlog; lia|lia|done]. }
  rewrite (Hfuel (S (Z.to_nat (Z.log2 b)))) by lia. apply inj_le, print_digits_mono; try lia; apply Hlog; lia.
Qed.

(** What an envelope costs besides its numbers and its data. *)
Definition envelope_fixed (requestId : string) : Z := byte_len (print_str requestId) + 53.
Lemma serialized_length p : ip_version p = 1 →
  serializedBytes p = envelope_fixed (ip_request_id p) + byte_len (print_Z (ip_index p)) + byte_len (print_Z (ip_count p)) +
                      byte_len (print_str (ip_data p)).
Proof.
  intros Hv. unfold serializedBytes, json_stringify. rewrite chars_of_chars. unfold part_json. rewrite Hv. unfold JInt.
  cbn [print_json fmap list_fmap sep_by fst snd]. unfold print_num. cbn [Z.eqb]. unfold envelope_fixed, byte_len.
  repeat (rewrite ?length_app; cbn [length app]).
  change (print_Z 1) with ["1"%char]. change (length (print_str "version")) with 9%nat. change (length (print_str "request_id")) with 12%nat.
  change (length (print_str "index")) with 7%nat. change (length (print_str "count")) with 7%nat. change (length (print_str "data")) with 6%nat.
  cbn [length]. lia.
Qed.

Section codec.
Variables (to_base64 : list ascii → string) (from_base64 : string → list ascii) (decode : list ascii → result string).
Hypothesis base64_inverse : ∀ l, from_base64 (to_base64 l) = l.
Hypothesis base64_length : ∀ l, byte_len (chars (to_base64 l)) = (byte_len l + 2) / 3 * 4.
Hypothesis base64_plain : ∀ l c, c ∈ chars (to_base64 l) → escape_char c = [c].

Lemma data_length l : byte_len (print_str (to_base64 l)) = 2 + (byte_len l + 2) / 3 * 4.
Proof using base64_length base64_plain.
  rewrite <-base64_length. unfold print_str, byte_len. cbn [length]. rewrite length_app. cbn [length].
  assert (concat (escape_char <$> chars (to_base64 l)) = chars (to_base64 l)) as ->; [|lia].
  pose proof (base64_plain l) as Hp. revert Hp. generalize (chars (to_base64 l)). intros cs. induction cs as [|c cs IH]; intros Hp; [done|].
  csimpl. rewrite Hp by left. simpl. rewrite IH; [done|]. intros d Hd. apply Hp. by right.
Qed.
Lemma part_fits payload requestId maxBytes index count bytes :
  let cap := raw_capacity to_base64 payload requestId maxBytes in
  1 ≤ cap → 0 ≤ index < count → count ≤ Z.max 1 (byte_len (chars payload)) → byte_len bytes ≤ cap →
  serializedBytes (makePart to_base64 requestId index count bytes) ≤ maxBytes.
Proof using base64_length base64_plain.
  cbv zeta. unfold raw_capacity. cbv zeta. set (upper := Z.max 1 (byte_len (chars payload))).
  intros Hcap Hi Hc Hb. rewrite serialized_length in * by done. cbn [makePart ip_request_id ip_index ip_count ip_data] in *.
  rewrite data_length in *. change (byte_len []) with 0 in Hcap, Hb. change ((0 + 2) / 3 * 4) with 0 in Hcap, Hb.
  assert (byte_len (print_Z index) ≤ byte_len (print_Z (upper - 1))) by (apply print_Z_mono; lia).
  assert (byte_len (print_Z count) ≤ byte_len (print_Z upper)) by (apply print_Z_mono; lia).
  set (e := envelope_fixed requestId + byte_len (print_Z (upper - 1)) + byte_len (print_Z upper) + (2 + 0)) in *.
  assert ((byte_len bytes + 2) / 3 ≤ (maxBytes - e) / 4).
  { transitivity (((maxBytes - e) / 4 * 3 + 2) / 3); [apply Z.div_le_mono; lia|].
    replace ((maxBytes - e) / 4 * 3 + 2) with (2 + (maxBytes - e) / 4 * 3) by lia. rewrite Z.div_add by lia. change (2 / 3) with 0. lia. }
  pose proof (Z.mul_div_le (maxBytes - e) 4). lia.
Qed.

(** The parts of a payload: numbered from [index] on, at most [cap] bytes each. *)
Lemma make_parts_spec payload requestId maxBytes fuel index count bytes :
  let cap := raw_capacity to_base64 payload requestId maxBytes in
  1 ≤ cap → 0 ≤ index → index + Z.of_nat fuel ≤ count → count ≤ Z.max 1 (byte_len (chars payload)) →
  byte_len bytes ≤ Z.of_nat fuel * cap →
  ∃ ps, make_parts to_base64 fuel requestId index count cap maxBytes bytes = Ok ps ∧
    length ps = fuel ∧ Forall (λ p, serializedBytes p ≤ maxBytes ∧ ip_version p = 1 ∧ ip_request_id p = requestId ∧ ip_count p = count) ps ∧
    (∀ i p, ps !! i = Some p → ip_index p = index + Z.of_nat i) ∧
    concat ((λ p, from_base64 (ip_data p)) <$> ps) = bytes.
Proof using base64_inverse base64_length base64_plain.
  cbv zeta. set (cap := raw_capacity to_base64 payload requestId maxBytes). intros Hcap. revert index bytes.
  induction fuel as [|fuel IH]; intros index bytes Hi Hic Hc Hb; cbn [make_parts].
  - exists []. split_and!; [done|done|constructor|done|]. unfold byte_len in Hb. destruct bytes; [done|simpl in Hb; lia].
  - set (part := makePart _ _ _ _ _). assert (serializedBytes part ≤ maxBytes) as Hfit.
    { apply (part_fits payload); [done|lia|lia|]. unfold byte_len. rewrite length_take. lia. }
    destruct (Z.ltb_spec maxBytes (serializedBytes part)); [lia|].
    destruct (IH (index + 1) (drop (Z.to_nat cap) bytes)) as (ps & -> & Hlen & Hall & Hidx & Hcat); [lia|lia|lia| |].
    { unfold byte_len in *. rewrite length_drop. lia. }
    cbn [result_bind]. exists (part :: ps). split_and!; [done|simpl; lia|by constructor| |].
    + intros [|i] p; simpl; [intros [= <-]; simpl; lia|]. intros Hp%Hidx. lia.
    + csimpl. rewrite Hcat. simpl. by rewrite base64_inverse, take_drop.
Qed.

Lemma split_parts payload requestId maxBytes :
  let cap := raw_capacity to_base64 payload requestId maxBytes in
  let count := Z.max 1 (ceil_div (byte_len (chars payload)) cap) in
  1 ≤ cap →
  ∃ ps, make_parts to_base64 (Z.to_nat count) requestId 0 count cap maxBytes (chars payload) = Ok ps ∧
    Z.of_nat (length ps) = count ∧
    Forall (λ p, serializedBytes p ≤ maxBytes ∧ ip_version p = 1 ∧ ip_request_id p = requestId ∧ ip_count p = count) ps ∧
    (∀ i p, ps !! i = Some p → ip_index p = Z.of_nat i) ∧ concat ((λ p, from_base64 (ip_data p)) <$> ps) = chars payload.
Proof using base64_inverse base64_length base64_plain.
  cbv zeta. set (cap := raw_capacity _ _ _ _). intros Hcap. set (count := Z.max 1 (ceil_div (byte_len (chars payload)) cap)).
  assert (0 ≤ byte_len (chars payload)) by (unfold byte_len; lia).
  assert (byte_len (chars payload) ≤ ceil_div (byte_len (chars payload)) cap * cap) as Hcover.
  { unfold ceil_div. pose proof (Z.div_mod (byte_len (chars payload) + cap - 1) cap).
    pose proof (Z.mod_pos_bound (byte_len (chars payload) + cap - 1) cap). lia. }
  assert (ceil_div (byte_len (chars payload)) cap ≤ Z.max 1 (byte_len (chars payload))) as Hcount.
  { unfold ceil_div. apply Z.lt_succ_r, Z.div_lt_upper_bound; nia. }
  destruct (make_parts_spec payload requestId maxBytes (Z.to_nat count) 0 count (chars payload)) as (ps & Heq & Hlen & Hall & Hidx & Hcat);
    [done|lia|lia|lia|rewrite Z2Nat.id by lia; nia|].
  exists ps. split_and!; [done|lia|done|intros i p Hp%Hidx; lia|done].
Qed.

(** A request is cut into parts exactly when the limit leaves room for at
    least three bytes in an envelope; then every part fits the limit, they are
    numbered in order with their common count, and their data is the payload.
    The check of a part's size never fails. *)
Theorem split_fits payload requestId maxBytes :
  match splitInferenceRequest to_base64 payload requestId maxBytes with
  | Ok parts =>
      Forall (λ p, serializedBytes p ≤ maxBytes ∧ ip_count p = Z.of_nat (length parts)) parts ∧
      (∀ i p, parts !! i = Some p → ip_index p = Z.of_nat i) ∧
      concat ((λ p, from_base64 (ip_data p)) <$> parts) = chars payload
  | Throw _ => maxBytes ≤ 0 ∨ raw_capacity to_base64 payload requestId maxBytes < 1
  end.
Proof using base64_inverse base64_length base64_plain.
  unfold splitInferenceRequest. destruct (Z.leb_spec maxBytes 0); [by left|]. cbv zeta. set (cap := raw_capacity _ _ _ _).
  destruct (Z.ltb_spec cap 1); [by right|].
  destruct (split_parts payload requestId maxBytes) as (ps & Heq & Hlen & Hall & Hidx & Hcat); [done|].
  fold cap in Heq. rewrite Heq. split_and!; [|done|done]. eapply Forall_impl; [exact Hall|]. intros p (? & _ & _ & ->). by rewrite Hlen.
Qed.

(** ** Reassembly *)
Definition part_map (ps : list InferenceRequestPart) : gmap Z string := list_to_map ((λ p, (ip_index p, ip_data p)) <$> ps).
(** The parts a cut of [payload] gives. *)
Record cut (payload requestId : string) (ps : list InferenceRequestPart) : Prop := {
  cut_nonempty : ps ≠ [];
  cut_meta : ∀ p, p ∈ ps → ip_version p = 1 ∧ ip_request_id p = requestId ∧ ip_count p = Z.of_nat (length ps);
  cut_index : ∀ i p, ps !! i = Some p → ip_index p = Z.of_nat i;
  cut_data : concat ((λ p, from_base64 (ip_data p)) <$> ps) = chars payload }.
Lemma split_cut payload requestId maxBytes ps :
  splitInferenceRequest to_base64 payload requestId maxBytes = Ok ps → cut payload requestId ps.
Proof using base64_inverse base64_length base64_plain.
  unfold splitInferenceRequest. destruct (Z.leb_spec maxBytes 0); [done|]. cbv zeta. set (cap := raw_capacity _ _ _ _).
  destruct (Z.ltb_spec cap 1); [done|]. intros Hs.
  destruct (split_parts payload requestId maxBytes) as (ps' & Heq & Hlen & Hall & Hidx & Hcat); [done|].
  fold cap in Heq. rewrite Heq in Hs. injection Hs as <-. split; [intros ->; simpl in Hlen; lia| |done|done].
  intros p Hp. rewrite Forall_forall in Hall. destruct (Hall p Hp) as (_ & ? & ? & ->). split_and!; [done|done|]. lia.
Qed.

Section assemble.
Variables (payload requestId : string) (ps : list InferenceRequestPart).
Hypothesis Hcut : cut payload requestId ps.
Hypothesis Hid : requestId ≠ "".
Hypothesis Hdecode : decode (chars payload) = Ok payload.

Lemma part_map_lookup i d : part_map ps !! i = Some d ↔ ∃ p, p ∈ ps ∧ ip_index p = i ∧ ip_data p = d.
Proof using Hcut.
  assert (NoDup (((λ p, (ip_index p, ip_data p)) <$> ps).*1)) as Hnd.
  { rewrite <-list_fmap_compose. apply NoDup_alt. intros i1 i2 x. rewrite !list_lookup_fmap_Some.
    intros (p1 & H1 & Hp1) (p2 & H2 & Hp2). apply (cut_index _ _ _ Hcut) in Hp1, Hp2. simpl in *. lia. }
  unfold part_map. rewrite <-elem_of_list_to_map by done. rewrite list_elem_of_fmap. split.
  - intros (p & [= -> ->] & Hp). by exists p.
  - intros (p & Hp & <- & <-). by exists p.
Qed.
Lemma part_map_size : Z.of_nat (size (part_map ps)) = Z.of_nat (length ps).
Proof using Hcut.
  assert (NoDup (((λ p, (ip_index p, ip_data p)) <$> ps).*1)) as Hnd.
  { rewrite <-list_fmap_compose. apply NoDup_alt. intros i1 i2 x. rewrite !list_lookup_fmap_Some.
    intros (p1 & H1 & Hp1) (p2 & H2 & Hp2). apply (cut_index _ _ _ Hcut) in Hp1, Hp2. simpl in *. lia. }
  unfold part_map. rewrite <-length_map_to_list, map_to_list_to_map by done. by rewrite length_fmap.
Qed.
Lemma join_from (m : gmap Z string) l i : (∀ j p, l !! j = Some p → m !! (i + Z.of_nat j) = Some (ip_data p)) →
  join_parts from_base64 (length l) i m = Some (concat ((λ p, from_base64 (ip_data p)) <$> l)).
Proof using.
  revert i. induction l as [|p l IH]; intros i H; [done|]. cbn [length join_parts]. pose proof (H 0%nat p eq_refl) as H0. rewrite Z.add_0_r in H0.
  rewrite H0, (IH (i + 1)); [done|]. intros j q Hj. replace (i + 1 + Z.of_nat j) with (i + Z.of_nat (S j)) by lia. by apply H.
Qed.
Lemma join_all : join_parts from_base64 (length ps) 0 (part_map ps) = Some (chars payload).
Proof using Hcut.
  rewrite (join_from _ ps 0), (cut_data _ _ _ Hcut); [done|]. intros j p Hj. apply part_map_lookup. exists p.
  split_and!; [by eapply list_elem_of_lookup_2| |done]. rewrite (cut_index _ _ _ Hcut j p Hj). lia.
Qed.

(** What the assembler has of the request. *)
Definition holds (s : assembler) (m : gmap Z string) : Prop :=
  match s !! requestId with
  | Some a => as_count a = Z.of_nat (length ps) ∧ as_parts a = m ∧ as_completed a = bool_decide (m = part_map ps)
  | None => m = ∅
  end.
Lemma add_one s m p : holds s m → m ⊆ part_map ps → p ∈ ps →
  let m' := <[ip_index p := ip_data p]> m in
  let '(s', r) := add_part from_base64 decode p s in
  holds s' m' ∧ m' ⊆ part_map ps ∧
  r = Ok (if bool_decide (m ≠ part_map ps ∧ m' = part_map ps) then Some payload else None).
Proof using Hcut Hid Hdecode.
  intros Hh Hm Hp. cbv zeta. destruct (cut_meta _ _ _ Hcut p Hp) as (Hv & Hr & Hc). unfold add_part. rewrite Hv, Hr, Hc.
  apply list_elem_of_lookup in Hp as Hj. destruct Hj as [j Hj]. pose proof (cut_index _ _ _ Hcut j p Hj) as Hi. apply lookup_lt_Some in Hj.
  assert (part_map ps !! ip_index p = Some (ip_data p)) as Hfull by (apply part_map_lookup; eauto).
  unfold nonempty. rewrite (proj2 (seqb_false _ _) Hid). rewrite Z.eqb_refl. simpl.
  destruct (Z.ltb_spec (Z.of_nat (length ps)) 1); [lia|]. destruct (Z.ltb_spec (ip_index p) 0); [lia|].
  destruct (Z.leb_spec (Z.of_nat (length ps)) (ip_index p)); [lia|]. simpl.
  set (a := match s !! requestId with Some a => a | None => _ end).
  assert (0 < size (part_map ps))%nat as Hpos by (pose proof part_map_size; lia).
  assert (as_count a = Z.of_nat (length ps) ∧ as_parts a = m ∧ as_completed a = bool_decide (m = part_map ps)) as (Ha & Hb & Hd).
  { unfold a. unfold holds in Hh. destruct (s !! requestId) as [a'|]; [done|]. subst m. split_and!; [done|done|]. simpl.
    symmetry. apply bool_decide_eq_false_2. intros Heq. rewrite <-Heq, map_size_empty in Hpos. lia. }
  rewrite Ha, Hb, Hd, Z.eqb_refl. simpl. set (m' := <[ip_index p := ip_data p]> m).
  assert (m' ⊆ part_map ps) as Hm' by (by apply insert_subseteq_l).
  assert ((match m !! ip_index p with Some existing => negb (seqb existing (ip_data p)) | None => false end) = false) as ->.
  { destruct (m !! ip_index p) as [d|] eqn:Em; [|done]. apply (lookup_weaken _ _ _ _ Em) in Hm. rewrite Hfull in Hm. injection Hm as ->.
    by rewrite seqb_refl. }
  case_bool_decide as Hfin.
  - assert (m' = part_map ps) as Heq by (unfold m'; rewrite Hfin; by apply insert_id).
    rewrite (bool_decide_eq_false_2 (m ≠ part_map ps ∧ _)) by (intros [? _]; done). split_and!; [|done|done].
    unfold holds. rewrite lookup_insert_eq. rewrite Ha, Hb, Hd, Heq. split_and!; [done|done|]. by rewrite !bool_decide_eq_true_2.
  - assert (Z.of_nat (size m') = Z.of_nat (length ps) ↔ m' = part_map ps) as Hsize.
    { rewrite <-part_map_size. split; [|by intros ->]. intros Hs. apply map_subseteq_size_eq; [done|lia]. }
    destruct (Z.eqb_spec (Z.of_nat (size m')) (Z.of_nat (length ps))) as [Hs|Hs]; simpl.
    + apply Hsize in Hs. rewrite Hs, Nat2Z.id, join_all, Hdecode. rewrite bool_decide_eq_true_2 by done. split_and!; [|done|done].
      unfold holds. rewrite lookup_insert_eq. simpl. split_and!; [done|done|]. by rewrite bool_decide_eq_true_2.
    + rewrite bool_decide_eq_false_2 by (intros [_ ?]; tauto). split_and!; [|done|done].
      unfold holds. rewrite lookup_insert_eq. simpl. split_and!; [done|done|]. symmetry. apply bool_decide_eq_false_2. tauto.
Qed.

Lemma add_complete arrivals s : holds s (part_map ps) → Forall (λ p, p ∈ ps) arrivals →
  (add_parts from_base64 decode arrivals s).2 = replicate (length arrivals) (Ok None).
Proof using Hcut Hid Hdecode.
  intros Hh Hall. revert s Hh. induction Hall as [|p arrivals Hp Hall IH]; intros s Hh; [done|]. cbn [add_parts].
  pose proof (add_one s (part_map ps) p Hh (reflexivity _) Hp) as H. destruct (add_part from_base64 decode p s) as [s1 r].
  assert (<[ip_index p := ip_data p]> (part_map ps) = part_map ps) as Hi by (apply insert_id, part_map_lookup; eauto).
  rewrite Hi in H. destruct H as (Hh1 & _ & ->). rewrite bool_decide_eq_false_2 by (intros [? _]; done).
  specialize (IH s1 Hh1). destruct (add_parts from_base64 decode arrivals s1) as [s2 rs]. simpl in *. by rewrite IH.
Qed.
Lemma add_incomplete arrivals m s : holds s m → m ⊆ part_map ps → m ≠ part_map ps → Forall (λ p, p ∈ ps) arrivals →
  (∀ p, p ∈ ps → m !! ip_index p = Some (ip_data p) ∨ p ∈ arrivals) →
  ∃ before after, (add_parts from_base64 decode arrivals s).2 = replicate before (Ok None) ++ Ok (Some payload) :: replicate after (Ok None).
Proof using Hcut Hid Hdecode.
  intros Hh Hm Hne Hall. revert m s Hh Hm Hne. induction Hall as [|p arrivals Hp Hall IH]; intros m s Hh Hm Hne Hcov.
  { exfalso. apply Hne, (anti_symm (⊆)); [done|]. apply map_subseteq_spec. intros i d (q & Hq & <- & <-)%part_map_lookup.
    destruct (Hcov q Hq) as [?|[]%elem_of_nil]. done. }
  cbn [add_parts]. pose proof (add_one s m p Hh Hm Hp) as H. set (m' := <[ip_index p := ip_data p]> m) in *.
  destruct (add_part from_base64 decode p s) as [s1 r]. destruct H as (Hh1 & Hm1 & ->). case_bool_decide as Hdone.
  - destruct Hdone as [_ Hd]. rewrite Hd in Hh1. pose proof (add_complete arrivals s1 Hh1 Hall) as Hrest.
    destruct (add_parts from_base64 decode arrivals s1) as [s2 rs]. simpl in Hrest |- *. exists 0%nat, (length arrivals). by rewrite Hrest.
  - destruct (IH m' s1 Hh1 Hm1) as (b & a & Hrest).
    + intros Heq. by apply Hdone.
    + intros q Hq. destruct (decide (q = p)) as [->|Hqp]; [left; unfold m'; by rewrite lookup_insert_eq|].
      destruct (Hcov q Hq) as [Hl|[->|?]%elem_of_cons]; [left|done|by right]. unfold m'.
      apply lookup_weaken with (m1 := m); [done|]. destruct (decide (ip_index q = ip_index p)) as [Hi|Hi].
      * assert (part_map ps !! ip_index p = Some (ip_data p)) as Hf by (apply part_map_lookup; eauto).
        rewrite Hi in Hl. pose proof (lookup_weaken _ _ _ _ Hl Hm) as Hl'. rewrite Hf in Hl'. injection Hl' as Hd. rewrite Hd. by rewrite insert_id.
      * apply map_subseteq_spec. intros k d Hk. destruct (decide (k = ip_index p)) as [->|]; [|by rewrite lookup_insert_ne].
        rewrite lookup_insert_eq. pose proof (lookup_weaken _ _ _ _ Hk Hm) as Hl'. symmetry.
        rewrite <-Hl'. apply part_map_lookup. eauto.
    + destruct (add_parts from_base64 decode arrivals s1) as [s2 rs]. simpl in Hrest |- *. exists (S b), a. by rewrite Hrest.
Qed.
Lemma add_missing arrivals m s q : holds s m → m ⊆ part_map ps → q ∈ ps → m !! ip_index q = None → Forall (λ p, p ∈ ps) arrivals → q ∉ arrivals →
  (add_parts from_base64 decode arrivals s).2 = replicate (length arrivals) (Ok None).
Proof using Hcut Hid Hdecode.
  intros Hh Hm Hq Hn Hall. revert m s Hh Hm Hn. induction Hall as [|p arrivals Hp Hall IH]; intros m s Hh Hm Hn Hni; [done|]. cbn [add_parts].
  pose proof (add_one s m p Hh Hm Hp) as H. destruct (add_part from_base64 decode p s) as [s1 r]. destruct H as (Hh1 & Hm1 & ->).
  apply not_elem_of_cons in Hni as [Hqp Hni].
  assert (ip_index p ≠ ip_index q) as Hne.
  { intros Heq. apply Hqp. apply list_elem_of_lookup in Hp as [i Hi], Hq as [j Hj]. pose proof (cut_index _ _ _ Hcut i p Hi).
    pose proof (cut_index _ _ _ Hcut j q Hj). assert (i = j) as -> by lia. congruence. }
  assert (<[ip_index p := ip_data p]> m !! ip_index q = None) as Hn1 by (by rewrite lookup_insert_ne).
  assert (part_map ps !! ip_index q = Some (ip_data q)) as Hfull by (apply part_map_lookup; eauto).
  rewrite bool_decide_eq_false_2 by (intros [_ Heq]; rewrite Heq in Hn1; congruence).
  specialize (IH _ s1 Hh1 Hm1 Hn1 Hni). destruct (add_parts from_base64 decode arrivals s1) as [s2 rs]. simpl in *. by rewrite IH.
Qed.
End assemble.

(** C25: Whatever the order in which the parts of a request arrive, and however
    often each of them does, the assembler hands out the request exactly once,
    when the last missing part is in, and nothing before and after. *)
Theorem parts_roundtrip payload requestId maxBytes parts arrivals s :
  requestId ≠ "" → decode (chars payload) = Ok payload →
  splitInferenceRequest to_base64 payload requestId maxBytes = Ok parts →
  s !! requestId = None → Forall (λ p, p ∈ parts) arrivals → (∀ p, p ∈ parts → p ∈ arrivals) →
  ∃ before after, (add_parts from_base64 decode arrivals s).2 =
    replicate before (Ok None) ++ Ok (Some payload) :: replicate after (Ok None).
Proof using base64_inverse base64_length base64_plain.
  intros Hid Hdec Hs Hfresh Hall Hcov. apply split_cut in Hs as Hcut.
  apply (add_incomplete payload requestId parts Hcut Hid Hdec arrivals ∅ s).
  - unfold holds. by rewrite Hfresh.
  - apply map_empty_subseteq.
  - intros Heq. pose proof (part_map_size payload requestId parts Hcut) as Hsz. rewrite <-Heq, map_size_empty in Hsz.
    pose proof (cut_nonempty _ _ _ Hcut). by destruct parts.
  - done.
  - intros p Hp. right. auto.
Qed.
End codec.

(** ** A base64 codec to check the assumptions with *)
Module Base64.
Definition alphabet : list ascii := chars "ABCDEFGHIJKLMNOPQRSTUVWXYZabcdefghijklmnopqrstuvwxyz0123456789+/".
Definition pad : ascii := "="%char.
Definition sextet (n : Z) : ascii := List.nth (Z.to_nat n) alphabet pad.
Fixpoint index_of (c : ascii) (l : list ascii) : Z :=
  match l with [] => 0 | d :: l' => if Ascii.eqb c d then 0 else 1 + index_of c l' end.
Definition value (c : ascii) : Z := index_of c alphabet.
Definition byte (c : ascii) : Z := Z.of_N (N_of_ascii c).
Definition of_byte (n : Z) : ascii := ascii_of_N (Z.to_N n).
Fixpoint encode (l : list ascii) : list ascii :=
  match l with
  | a :: b :: c :: r =>
      sextet (byte a / 4) :: sextet (byte a mod 4 * 16 + byte b / 16) :: sextet (byte b mod 16 * 4 + byte c / 64)
      :: sextet (byte c mod 64) :: encode r
  | [a; b] => [sextet (byte a / 4); sextet (byte a mod 4 * 16 + byte b / 16); sextet (byte b mod 16 * 4); pad]
  | [a] => [sextet (byte a / 4); sextet (byte a mod 4 * 16); pad; pad]
  | [] => []
  end.
Definition group (s t u v : ascii) : list ascii :=
  of_byte (value s * 4 + value t / 16) ::
  (if Ascii.eqb u pad then [] else of_byte (value t mod 16 * 16 + value u / 4) ::
  (if Ascii.eqb v pad then [] else [of_byte (value u mod 4 * 64 + value v)])).
Fixpoint decode (l : list ascii) : list ascii :=
  match l with s :: t :: u :: v :: r => group s t u v ++ decode r | _ => [] end.

Lemma sextet_ok n : 0 ≤ n < 64 → value (sextet n) = n ∧ Ascii.eqb (sextet n) pad = false ∧ escape_char (sextet n) = [sextet n].
Proof.
  intros Hn. assert (Forall (λ n, value (sextet n) = n ∧ Ascii.eqb (sextet n) pad = false ∧ escape_char (sextet n) = [sextet n])
    (Z.of_nat <$> seq 0 64)) as H by (repeat constructor).
  rewrite Forall_forall in H. apply H. apply list_elem_of_fmap. exists (Z.to_nat n). split; [lia|]. apply elem_of_seq. lia.
Qed.
Lemma byte_bound c : 0 ≤ byte c < 256.
Proof. unfold byte. pose proof (N_ascii_bounded c). lia. Qed.
Lemma of_byte_byte c : of_byte (byte c) = c.
Proof. unfold of_byte, byte. rewrite N2Z.id. apply ascii_N_embedding. Qed.
Lemma list_ind3 (P : list ascii → Prop) :
  P [] → (∀ a, P [a]) → (∀ a b, P [a; b]) → (∀ a b c r, P r → P (a :: b :: c :: r)) → ∀ l, P l.
Proof.
  intros H0 H1 H2 H3. fix IH 1. intros [|a [|b [|c r]]]; [done|apply H1|apply H2|]. apply H3, IH.
Qed.
Lemma decode_encode l : decode (encode l) = l.
Proof.
  induction l as [|a|a b|a b c r IH] using list_ind3; [done|..]; cbn [encode decode]; unfold group.
  - pose proof (byte_bound a). destruct (sextet_ok (byte a / 4)) as (-> & _); [Z.to_euclidean_division_equations; lia|].
    destruct (sextet_ok (byte a mod 4 * 16)) as (-> & _); [Z.to_euclidean_division_equations; lia|].
    replace (byte a / 4 * 4 + byte a mod 4 * 16 / 16) with (byte a) by (rewrite Z.div_mul by lia; Z.to_euclidean_division_equations; lia).
    by rewrite of_byte_byte.
  - pose proof (byte_bound a). pose proof (byte_bound b).
    destruct (sextet_ok (byte a / 4)) as (-> & _); [Z.to_euclidean_division_equations; lia|].
    destruct (sextet_ok (byte a mod 4 * 16 + byte b / 16)) as (-> & _); [Z.to_euclidean_division_equations; lia|].
    destruct (sextet_ok (byte b mod 16 * 4)) as (-> & -> & _); [Z.to_euclidean_division_equations; lia|].
    change (Ascii.eqb pad pad) with true. cbn [app].
    replace (byte a / 4 * 4 + (byte a mod 4 * 16 + byte b / 16) / 16) with (byte a) by (Z.to_euclidean_division_equations; lia).
    replace ((byte a mod 4 * 16 + byte b / 16) mod 16 * 16 + byte b mod 16 * 4 / 4) with (byte b) by (Z.to_euclidean_division_equations; lia).
    by rewrite !of_byte_byte.
  - pose proof (byte_bound a). pose proof (byte_bound b). pose proof (byte_bound c).
    destruct (sextet_ok (byte a / 4)) as (-> & _); [Z.to_euclidean_division_equations; lia|].
    destruct (sextet_ok (byte a mod 4 * 16 + byte b / 16)) as (-> & _); [Z.to_euclidean_division_equations; lia|].
    destruct (sextet_ok (byte b mod 16 * 4 + byte c / 64)) as (-> & -> & _); [Z.to_euclidean_division_equations; lia|].
    destruct (sextet_ok (byte c mod 64)) as (-> & -> & _); [Z.to_euclidean_division_equations; lia|]. cbn [app]. rewrite IH.
    replace (byte a / 4 * 4 + (byte a mod 4 * 16 + byte b / 16) / 16) with (byte a) by (Z.to_euclidean_division_equations; lia).
    replace ((byte a mod 4 * 16 + byte b / 16) mod 16 * 16 + (byte b mod 16 * 4 + byte c / 64) / 4) with (byte b) by (Z.to_euclidean_division_equations; lia).
    replace ((byte b mod 16 * 4 + byte c / 64) mod 4 * 64 + byte c mod 64) with (byte c) by (Z.to_euclidean_division_equations; lia).
    by rewrite !of_byte_byte.
Qed.
Lemma encode_length l : byte_len (encode l) = (byte_len l + 2) / 3 * 4.
Proof.
  induction l as [|a|a b|a b c r IH] using list_ind3; [done..|]. cbn [encode]. unfold byte_len in *. cbn [length].
  rewrite !Nat2Z.inj_succ, IH. replace (Z.succ (Z.succ (Z.succ (Z.of_nat (length r)))) + 2) with (Z.of_nat (length r) + 2 + 1 * 3) by lia.
  rewrite Z.div_add by lia. lia.
Qed.
Lemma encode_plain l c : c ∈ encode l → escape_char c = [c].
Proof.
  assert (escape_char pad = [pad]) as Hpad by done.
  induction l as [|x|x y|x y z r IH] using list_ind3; cbn [encode]; [by intros []%elem_of_nil|..];
    [pose proof (byte_bound x)|pose proof (byte_bound x); pose proof (byte_bound y)|pose proof (byte_bound x); pose proof (byte_bound y); pose proof (byte_bound z)];
    repeat (intros [->|Hc]%elem_of_cons; [first [done|apply sextet_ok; Z.to_euclidean_division_equations; lia]|revert Hc]);
    [by intros []%elem_of_nil..|exact IH].
Qed.
End Base64.

Definition sample_to (l : list ascii) : string := of_chars (Base64.encode l).
Definition sample_from (s : string) : list ascii := Base64.decode (chars s).
Definition sample_decode (l : list ascii) : result string := Ok (of_chars l).
Lemma sample_inverse l : sample_from (sample_to l) = l.
Proof. unfold sample_from, sample_to. by rewrite chars_of_chars, Base64.decode_encode. Qed.
Lemma sample_length l : byte_len (chars (sample_to l)) = (byte_len l + 2) / 3 * 4.
Proof. unfold sample_to. by rewrite chars_of_chars, Base64.encode_length. Qed.
Lemma sample_plain l c : c ∈ chars (sample_to l) → escape_char c = [c].
Proof. unfold sample_to. rewrite chars_of_chars. apply Base64.encode_plain. Qed.

Definition sample_payload : string := "the payload of a request that takes several parts".
Definition sample_parts : list InferenceRequestPart :=
  match splitInferenceRequest sample_to sample_payload "r1" 88 with Ok ps => ps | Throw _ => [] end.
Example sample_count : length sample_parts = 3%nat.
Proof. vm_compute. reflexivity. Qed.

Lemma split_fits_witness :
  match splitInferenceRequest sample_to sample_payload "r1" 88 with
  | Ok parts =>
      Forall (λ p, serializedBytes p ≤ 88 ∧ ip_count p = Z.of_nat (length parts)) parts ∧
      (∀ i p, parts !! i = Some p → ip_index p = Z.of_nat i) ∧
      concat ((λ p, sample_from (ip_data p)) <$> parts) = chars sample_payload
  | Throw _ => 88 ≤ 0 ∨ raw_capacity sample_to sample_payload "r1" 88 < 1
  end.
Proof. apply (split_fits sample_to sample_from sample_inverse sample_length sample_plain sample_payload "r1" 88). Defined.
Lemma parts_roundtrip_witness :
  ∃ before after, (add_parts sample_from sample_decode (reverse sample_parts ++ sample_parts) ∅).2 =
    replicate before (Ok None) ++ Ok (Some sample_payload) :: replicate after (Ok None).
Proof.
  apply (parts_roundtrip sample_to sample_from sample_decode sample_inverse sample_length sample_plain sample_payload "r1" 88 sample_parts
    (reverse sample_parts ++ sample_parts) ∅).
  - discriminate.
  - reflexivity.
  - vm_compute. reflexivity.
  - reflexivity.
  - apply Forall_app. split; [apply Forall_reverse|]; by apply Forall_forall.
  - intros p Hp. apply elem_of_app. by right.
Defined.
