(* ===== verification/RelayStream.v ===== *)
(** * Responses to relayed requests (packages/agent/src/relay-stream$.ts,
    relay-await-helpers.ts, formatResponseText of relay-wait$.ts)

    The reducer of a relayed inference stream: each tick claims the pending
    response rows of the stream, buffers their chunks by sequence number, emits
    the ones that are next in order, skips a gap that lasts too long, and lists
    the rows to acknowledge once the chunks are delivered.  The scalar
    counterpart reads, claims and acknowledges one response.  A sequence number
    is read at its declared type, an integer that a double holds exactly; the
    re-export of trace spans and the log lines are left out. *)
From S2P Require Import Prelude Sql Json DurableWork RelayRouter.
Local Open Scope bound_scope.
Local Open Scope Z_scope.

(** ** Response rows *)
Definition RELAY_RESPONSE_KINDS : list string :=
  (List.filter (λ k, match k.2 with DResponse => true | _ => false end) RELAY_KIND_REGISTRY).*1.
Definition is_response (r : DurableWorkRow) : bool := existsb (seqb (dw_kind r)) RELAY_RESPONSE_KINDS.
(** [column = ?] for a nullable column. *)
Definition col_is (o : option string) (v : string) : bool := match o with Some s => seqb s v | None => false end.
Definition awaited_here (ownSiteId : string) (r : DurableWorkRow) : bool :=
  (targets ownSiteId r || targets LOCAL_WORK_TARGET r) && (in_state Pending r && is_response r).
Definition readDurableResponseByRefId (refId ownSiteId : string) (t : dw_table) : option DurableWorkRow :=
  head (order_by dw_created_at (sql_select (λ r, col_is (dw_ref_id r) refId && awaited_here ownSiteId r) t)).
Definition readDurableResponsesByStreamId (streamId ownSiteId : string) (t : dw_table) : list DurableWorkRow :=
  order_by dw_created_at (sql_select (λ r, col_is (dw_stream_id r) streamId && awaited_here ownSiteId r) t).

(** A claimed response; [settle] acknowledges the row under the token. *)
Record UnionEntry := MkUnion { ue_id : string; ue_kind : string; ue_payload : string; ue_token : string }.
Definition settle : Type := string * string.
Definition entry_settle (e : UnionEntry) : settle := (ue_id e, ue_token e).
Definition claimed_entry (rows : list DurableWorkRow) : option UnionEntry :=
  match rows with
  | row :: _ => match dw_claim_token row with
                | Some tok => if nonempty tok then Some (MkUnion (dw_id row) (dw_kind row) (dw_payload row) tok) else None
                | None => None
                end
  | [] => None
  end.
Definition run_settles (now : Z) (l : list settle) (t : dw_table) : dw_table :=
  foldl (λ t s, (acknowledgeDurableWork now s.1 s.2 t).1) t l.

(** ** One response *)
Definition readUnionResponseEntry (uuid : nat → string) (now : Z) (refId ownSiteId : string) (t : dw_table)
  : dw_table * option UnionEntry :=
  match readDurableResponseByRefId refId ownSiteId t with
  | None => (t, None)
  | Some durable =>
      let '(t', claimed) := claimDurableWorkByIds uuid now [dw_id durable] ownSiteId t in
      (t', claimed_entry claimed)
  end.

(** The payload schemas. *)
Record ErrorPayload := MkErrorPayload { ep_error : string; ep_retriable : bool; ep_definitely_not_executed : option bool }.
Definition parse_error (s : string) : option ErrorPayload :=
  v ← json_parse s;
  match json_get "error" v, json_get "retriable" v, json_get "definitely_not_executed" v with
  | Some (JStr e), Some (JBool r), None => Some (MkErrorPayload e r None)
  | Some (JStr e), Some (JBool r), Some (JBool d) => Some (MkErrorPayload e r (Some d))
  | _, _, _ => None
  end.
Record ResultPayload := MkResultPayload { rp_stdout : string; rp_stderr : string; rp_exit_code : Z }.
Definition parse_result (s : string) : option ResultPayload :=
  v ← json_parse s;
  match json_get "stdout" v, json_get "stderr" v, json_get "exit_code" v, json_get "execution_ms" v with
  | Some (JStr o), Some (JStr e), Some (JNum c 0), Some (JNum _ _) => Some (MkResultPayload o e c)
  | _, _, _, _ => None
  end.

Definition newline : string := String (Ascii.ascii_of_nat 10) EmptyString.
Definition buildCommandOutput (stdout stderr : option string) (exitCode : option Z) : string :=
  let parts := (if truthy stdout then [default "" stdout] else []) ++ (if truthy stderr then [default "" stderr] else []) in
  String.concat newline
    match parts with
    | [] => [if default 0 exitCode =? 0 then "Command completed successfully"
             else "Exit code: " +:+ of_chars (print_Z (default 1 exitCode))]
    | _ => parts
    end.
Record RelayWaitResult := MkWait { rw_content : string; rw_retriable : bool; rw_definitely_not_executed : option bool }.
Definition formatResponseText (kind payload : string) : RelayWaitResult :=
  if seqb kind "error" then
    match parse_error payload with
    | None => MkWait ("Remote error: " +:+ payload) false None
    | Some e => MkWait ("Remote error: " +:+ (if nonempty (ep_error e) then ep_error e else payload))
                  (ep_retriable e) (ep_definitely_not_executed e)
    end
  else if seqb kind "result" then
    match parse_result payload with
    | None => MkWait ("Remote result: " +:+ payload) false None
    | Some r => MkWait (buildCommandOutput (Some (rp_stdout r)) (Some (rp_stderr r)) (Some (rp_exit_code r))) false None
    end
  else MkWait ("Unknown response kind: " +:+ kind) false None.

(** ** The reducer of a stream *)
Definition MAX_GAP_CYCLES : Z := 6.
Record BufferedChunk := MkChunk { bc_chunks : list json; bc_settle : settle }.
Record ScanOutput := MkScan {
  buffer : gmap Z BufferedChunk; nextExpectedSeq : Z; gapCyclesWaited : Z; streamEndSeq : option Z;
  streamEndConsumed : bool;
  firstChunk : option Z;   (* firstChunkReceived, with the latency that is recorded then *)
  chunksToEmit : list json; settlesToRun : list settle; activity : bool; done : bool; error : option string }.
Definition initialState : ScanOutput := MkScan ∅ 0 0 None false None [] [] false false None.

Section updates.
Variable st : ScanOutput.
Definition with_buffer (b : gmap Z BufferedChunk) : ScanOutput :=
  MkScan b (nextExpectedSeq st) (gapCyclesWaited st) (streamEndSeq st) (streamEndConsumed st) (firstChunk st)
    (chunksToEmit st) (settlesToRun st) (activity st) (done st) (error st).
Definition with_settle (s : settle) : ScanOutput :=
  MkScan (buffer st) (nextExpectedSeq st) (gapCyclesWaited st) (streamEndSeq st) (streamEndConsumed st) (firstChunk st)
    (chunksToEmit st) (settlesToRun st ++ [s]) (activity st) (done st) (error st).
Definition with_end (e : Z) : ScanOutput :=
  MkScan (buffer st) (nextExpectedSeq st) (gapCyclesWaited st) (Some e) (streamEndConsumed st) (firstChunk st)
    (chunksToEmit st) (settlesToRun st) (activity st) (done st) (error st).
Definition with_activity (latency : Z) : ScanOutput :=
  MkScan (buffer st) (nextExpectedSeq st) (gapCyclesWaited st) (streamEndSeq st) (streamEndConsumed st)
    (match firstChunk st with Some l => Some l | None => Some latency end)
    (chunksToEmit st) (settlesToRun st) true (done st) (error st).
Definition with_gap (next gap : Z) : ScanOutput :=
  MkScan (buffer st) next gap (streamEndSeq st) (streamEndConsumed st) (firstChunk st)
    (chunksToEmit st) (settlesToRun st) (activity st) (done st) (error st).
Definition with_error (e : string) : ScanOutput :=
  MkScan (buffer st) (nextExpectedSeq st) (gapCyclesWaited st) (streamEndSeq st) (streamEndConsumed st) (firstChunk st)
    (chunksToEmit st) (settlesToRun st) (activity st) (done st) (Some e).
Definition with_done : ScanOutput :=
  MkScan (buffer st) (nextExpectedSeq st) (gapCyclesWaited st) (streamEndSeq st) (streamEndConsumed st) (firstChunk st)
    (chunksToEmit st) (settlesToRun st) (activity st) true (error st).
(** The copy a tick starts from. *)
Definition next_tick : ScanOutput :=
  MkScan (buffer st) (nextExpectedSeq st) (gapCyclesWaited st) (streamEndSeq st) (streamEndConsumed st) (firstChunk st)
    [] [] false (done st) (error st).
(** The chunks of the expected number join the output. *)
Definition emit_one (b : BufferedChunk) : ScanOutput :=
  let next := nextExpectedSeq st + 1 in
  MkScan (delete (nextExpectedSeq st) (buffer st)) next 0 (streamEndSeq st)
    (streamEndConsumed st || match streamEndSeq st with Some e => e <? next | None => false end) (firstChunk st)
    (chunksToEmit st ++ bc_chunks b) (settlesToRun st ++ [bc_settle b]) (activity st) (done st) (error st).
End updates.

(** [JSON.parse] of a payload and the two type tests; reading a property of
    [null] throws. *)
Definition read_chunk (payload : string) : result (option (Z * list json)) :=
  match json_parse payload with
  | None => Ok None
  | Some JNull => Throw "null is not an object"
  | Some v => Ok (match json_get "seq" v, json_get "chunks" v with
                  | Some (JNum seq 0), Some (JArr chunks) => Some (seq, chunks)
                  | _, _ => None
                  end)
  end.
Definition absorb (latency : Z) (st : ScanOutput) (e : UnionEntry) : result ScanOutput :=
  let! p := read_chunk (ue_payload e) in
  Ok (match p with
      | None => with_settle st (entry_settle e)
      | Some (seq, chunks) =>
          let st1 := with_activity st latency in
          let st2 := match buffer st1 !! seq with
                     | Some _ => with_settle st1 (entry_settle e)
                     | None => with_buffer st1 (<[seq := MkChunk chunks (entry_settle e)]> (buffer st1))
                     end in
          if seqb (ue_kind e) "stream_end" then with_end st2 seq else st2
      end).
Fixpoint absorb_all (latency : Z) (es : list UnionEntry) (st : ScanOutput) : result ScanOutput :=
  match es with
  | [] => Ok st
  | e :: es' => let! st' := absorb latency st e in absorb_all latency es' st'
  end.
Fixpoint emit_ready (fuel : nat) (st : ScanOutput) : ScanOutput :=
  match fuel with
  | O => st
  | S fuel' => match buffer st !! nextExpectedSeq st with
               | Some b => emit_ready fuel' (emit_one st b)
               | None => st
               end
  end.
Definition sorted_seqs (b : gmap Z BufferedChunk) : list Z := stable_sort Z.ltb (map_to_list b).*1.
Definition drop_behind (st : ScanOutput) (seq : Z) : ScanOutput :=
  match buffer st !! seq with
  | Some b => if seq <? nextExpectedSeq st then with_buffer (with_settle st (bc_settle b)) (delete seq (buffer st)) else st
  | None => st
  end.
Definition skip_gap (st : ScanOutput) : ScanOutput :=
  match sorted_seqs (buffer st) with
  | lowest :: _ =>
      if lowest <? nextExpectedSeq st
      then let st' := foldl drop_behind st (sorted_seqs (buffer st)) in with_gap st' (nextExpectedSeq st') 0
      else with_gap st lowest 0
  | [] => st
  end.
Definition conclude (st : ScanOutput) : ScanOutput :=
  if streamEndConsumed st && (size (buffer st) =? 0)%nat then with_done st
  else if (0 <? size (buffer st))%nat then
    let st' := with_gap st (nextExpectedSeq st) (gapCyclesWaited st + 1) in
    if MAX_GAP_CYCLES <=? gapCyclesWaited st' then skip_gap st' else st'
  else st.

Definition of_ue_kind (k : string) (e : UnionEntry) : bool := seqb (ue_kind e) k.
(** The chunks, then the first end marker. *)
Definition folded (es : list UnionEntry) : list UnionEntry :=
  List.filter (of_ue_kind "stream_chunk") es ++ option_list (List.find (of_ue_kind "stream_end") es).
Definition reduce (hostStartTime now : Z) (es : list UnionEntry) (st : ScanOutput) : result ScanOutput :=
  if done st || truthy (error st) then Ok st
  else
    let next := next_tick st in
    match List.find (of_ue_kind "error") es with
    | Some e =>
        Ok (with_error (with_settle next (entry_settle e))
              match parse_error (ue_payload e) with
              | None => "Remote inference error: " +:+ ue_payload e
              | Some p => ep_error p
              end)
    | None =>
        let next := match List.find (of_ue_kind "trace_data") es with
                    | Some e => with_settle next (entry_settle e)
                    | None => next
                    end in
        let! st' := absorb_all (now - hostStartTime) (folded es) next in
        Ok (conclude (emit_ready (S (size (buffer st'))) st'))
    end.

(** The rows of a tick, each claimed on its own. *)
Fixpoint claim_entries (uuid : nat → string) (now : Z) (siteId : string) (rows : list DurableWorkRow) (t : dw_table)
  : dw_table * list UnionEntry :=
  match rows with
  | [] => (t, [])
  | row :: rows' =>
      let '(t1, claimed) := claimDurableWorkByIds uuid now [dw_id row] siteId t in
      let '(t2, es) := claim_entries (λ k, uuid (S k)) now siteId rows' t1 in
      (t2, option_list (claimed_entry claimed) ++ es)
  end.

(** One tick as the pipeline runs it: an error is thrown downstream and ends the
    stream before the trailing acknowledgements are subscribed to; otherwise the
    chunks are emitted and then the rows acknowledged. *)
Inductive stream_status := Streaming | Completed | Failed (message : string).
Definition delivered (r : result ScanOutput) : list json * list settle * stream_status :=
  match r with
  | Throw e => ([], [], Failed e)
  | Ok st =>
      if truthy (error st) then ([], [], Failed (default "" (error st)))
      else (chunksToEmit st, settlesToRun st, if done st then Completed else Streaming)
  end.
Definition stream_tick (uuid : nat → string) (hostStartTime now : Z) (streamId siteId : string) (st : ScanOutput) (t : dw_table)
  : dw_table * result ScanOutput * list json * stream_status :=
  let '(t1, es) := claim_entries uuid now siteId (readDurableResponsesByStreamId streamId siteId t) t in
  let r := reduce hostStartTime now es st in
  let '(out, settles, status) := delivered r in
  (run_settles now settles t1, r, out, status).
(** The ticks of one host, each with its time and the entries it claimed, until
    the stream completes or fails. *)
Fixpoint stream_run (hostStartTime : Z) (ticks : list (Z * list UnionEntry)) (st : ScanOutput)
  : list json * list settle * stream_status :=
  match ticks with
  | [] => ([], [], Streaming)
  | (now, es) :: ticks' =>
      let r := reduce hostStartTime now es st in
      match delivered r, r with
      | (out, settles, Streaming), Ok st' =>
          let '(out', settles', status) := stream_run hostStartTime ticks' st' in (out ++ out', settles ++ settles', status)
      | res, _ => res
      end
  end.

(** ** Emission *)
Definition payload_of (e : UnionEntry) : option (Z * list json) :=
  match read_chunk (ue_payload e) with Ok p => p | Throw _ => None end.
Definition seq_of (e : UnionEntry) : Z := match payload_of e with Some p => p.1 | None => -1 end.
Definition chunks_of (e : UnionEntry) : list json := match payload_of e with Some p => p.2 | None => [] end.

Lemma emit_ready_spec fuel st : (size (buffer st) < fuel)%nat →
  ∃ bs, let n := Z.of_nat (length bs) in let st' := emit_ready fuel st in
    (∀ i b, bs !! i = Some b → buffer st !! (nextExpectedSeq st + Z.of_nat i) = Some b) ∧
    nextExpectedSeq st' = nextExpectedSeq st + n ∧
    (∀ s, buffer st' !! s = if bool_decide (nextExpectedSeq st ≤ s < nextExpectedSeq st + n) then None else buffer st !! s) ∧
    buffer st' !! nextExpectedSeq st' = None ∧
    chunksToEmit st' = chunksToEmit st ++ concat (bc_chunks <$> bs) ∧
    settlesToRun st' = settlesToRun st ++ (bc_settle <$> bs) ∧
    gapCyclesWaited st' = (if n =? 0 then gapCyclesWaited st else 0) ∧
    streamEndSeq st' = streamEndSeq st ∧
    streamEndConsumed st' =
      (streamEndConsumed st ||
       (0 <? n) && match streamEndSeq st with Some e => e <? nextExpectedSeq st + n | None => false end) ∧
    done st' = done st ∧ error st' = error st.
Proof.
  revert st; induction fuel as [|fuel IH]; intros st Hf; [lia|]; simpl.
  destruct (buffer st !! nextExpectedSeq st) as [b|] eqn:Hb.
  2: { exists []; simpl; rewrite ?Z.add_0_r, ?app_nil_r, ?orb_false_r; split_and!; try done.
       intros s; case_bool_decide; [lia|done]. }
  destruct (IH (emit_one st b)) as (bs & H1 & H2 & H3 & H4 & H5 & H6 & H7 & H8 & H9 & H10 & H11).
  { simpl; rewrite map_size_delete, Hb; simpl; enough (size (buffer st) ≠ 0)%nat by lia.
    apply map_size_ne_0_lookup_2 with (nextExpectedSeq st); eauto. }
  simpl in *; exists (b :: bs); cbn [length fmap list_fmap concat].
  split_and!; try done.
  - intros [|i] b' Hi; simpl in Hi.
    + injection Hi as <-; by rewrite Z.add_0_r.
    + apply H1, lookup_delete_Some in Hi as [_ Hi].
      by replace (nextExpectedSeq st + Z.of_nat (S i)) with (nextExpectedSeq st + 1 + Z.of_nat i) by lia.
  - lia.
  - intros s; rewrite H3; repeat case_bool_decide; try lia; try done.
    + assert (s = nextExpectedSeq st) as -> by lia; by rewrite lookup_delete_eq.
    + by rewrite lookup_delete_ne by lia.
  - by rewrite H5, <- app_assoc.
  - by rewrite H6, <- app_assoc.
  - rewrite H7, (proj2 (Z.eqb_neq (Z.of_nat (S (length bs))) 0)) by lia; by destruct (_ =? 0).
  - rewrite H9; destruct (streamEndSeq st) as [e|]; [|by rewrite !andb_false_r, !orb_false_r].
    destruct (streamEndConsumed st); [done|]; simpl orb.
    replace (nextExpectedSeq st + 1 + Z.of_nat (length bs)) with (nextExpectedSeq st + Z.of_nat (S (length bs))) by lia.
    destruct (Z.ltb_spec e (nextExpectedSeq st + 1)), (Z.ltb_spec e (nextExpectedSeq st + Z.of_nat (S (length bs)))),
      (Z.ltb_spec 0 (Z.of_nat (length bs))); simpl; try done; lia.
Qed.

(** What absorbing entries does to the fields the output depends on. *)
Definition same_output (st st' : ScanOutput) : Prop :=
  nextExpectedSeq st' = nextExpectedSeq st ∧ chunksToEmit st' = chunksToEmit st ∧ done st' = done st ∧ error st' = error st ∧
  streamEndConsumed st' = streamEndConsumed st ∧ gapCyclesWaited st' = gapCyclesWaited st.
Lemma absorb_frame lat st e st' : absorb lat st e = Ok st' →
  same_output st st' ∧
  ∀ s b, buffer st' !! s = Some b → buffer st !! s = Some b ∨ payload_of e = Some (s, bc_chunks b).
Proof.
  unfold absorb, payload_of; destruct (read_chunk (ue_payload e)) as [p|]; simpl; [|done].
  intros [= <-]; destruct p as [[s c]|]; [|split; [done|auto]].
  destruct (buffer st !! s) eqn:Hs, (seqb (ue_kind e) "stream_end"); split; try done; intros s' k; simpl; auto;
    intros [[<- <-]|[_ H]]%lookup_insert_Some; auto.
Qed.
Lemma absorb_all_frame lat es st st' : absorb_all lat es st = Ok st' →
  same_output st st' ∧
  ∀ s b, buffer st' !! s = Some b → buffer st !! s = Some b ∨ ∃ e, e ∈ es ∧ payload_of e = Some (s, bc_chunks b).
Proof.
  revert st; induction es as [|e es IH]; intros st; simpl.
  { intros [= <-]; split; [done|auto]. }
  destruct (absorb lat st e) as [st1|] eqn:H1; simpl; [|done]; intros H2.
  apply absorb_frame in H1 as [(a & b & c & d & f & g) Hb]; apply IH in H2 as [(a' & b' & c' & d' & f' & g') Hb'].
  split; [split_and!; congruence|].
  intros s k [Hk|(x & Hx & Hp)]%Hb'.
  - apply Hb in Hk as [?|?]; [auto|right; exists e; split; [left|done]].
  - right; exists x; split; [by right|done].
Qed.
Lemma elem_of_folded es e : e ∈ folded es → e ∈ es.
Proof.
  unfold folded; rewrite elem_of_app; intros [H|H].
  - by eapply sublist_elem, H; apply filter_sublist.
  - destruct (List.find _ es) eqn:Hf; [|by apply elem_of_nil in H].
    apply list_elem_of_singleton in H as ->; by apply find_elem in Hf as [? _].
Qed.

(** Concluding a tick only forgets buffered chunks and moves forward. *)
Lemma drop_behind_frame l st :
  let st' := foldl drop_behind st l in
  nextExpectedSeq st' = nextExpectedSeq st ∧ chunksToEmit st' = chunksToEmit st ∧
  ∀ s b, buffer st' !! s = Some b → buffer st !! s = Some b.
Proof.
  revert st; induction l as [|s l IH]; intros st; simpl; [done|].
  destruct (IH (drop_behind st s)) as (H1 & H2 & H3); rewrite H1, H2.
  unfold drop_behind in *; destruct (buffer st !! s) as [b|]; [|done]; case_match; [|done].
  split_and!; try done; intros s' b' H'%H3; simpl in H'; by apply lookup_delete_Some in H' as [_ ?].
Qed.
Lemma conclude_frame st :
  let st' := conclude st in
  nextExpectedSeq st ≤ nextExpectedSeq st' ∧ chunksToEmit st' = chunksToEmit st ∧
  ∀ s b, buffer st' !! s = Some b → buffer st !! s = Some b.
Proof.
  unfold conclude; case_match; [done|]; case_match; [|done]; case_match; [|done].
  unfold skip_gap; simpl; destruct (sorted_seqs (buffer st)) as [|lowest l] eqn:Hl; [done|].
  case_match.
  - destruct (drop_behind_frame (lowest :: l) (with_gap st (nextExpectedSeq st) (gapCyclesWaited st + 1))) as (H1' & H2' & H3').
    simpl in *; rewrite H1', H2'; split_and!; try done; lia.
  - simpl; split_and!; try done; lia.
Qed.

(** One tick emits payloads in increasing order, from the expected number on. *)
Definition sourced (P : Z * list json → Prop) (b : gmap Z BufferedChunk) : Prop :=
  ∀ s c, b !! s = Some c → P (s, bc_chunks c).
Lemma seqs_sorted a (n : nat) : StronglySorted Z.lt ((λ i : nat, a + Z.of_nat i) <$> seq 0 n).
Proof.
  generalize 0%nat as k; induction n as [|n IH]; intros k; simpl; constructor; [done|].
  apply Forall_fmap, Forall_forall; intros i [H _]%elem_of_seq; simpl; lia.
Qed.
Lemma reduce_emits P h now es st st' :
  reduce h now es st = Ok st' → done st || truthy (error st) = false → sourced P (buffer st) →
  (∀ e p, e ∈ es → payload_of e = Some p → P p) →
  sourced P (buffer st') ∧ ∃ ps, chunksToEmit st' = concat ps.*2 ∧ StronglySorted Z.lt ps.*1 ∧ Forall P ps ∧
    Forall (λ p, nextExpectedSeq st ≤ p.1 < nextExpectedSeq st') ps ∧ nextExpectedSeq st ≤ nextExpectedSeq st'.
Proof.
  unfold reduce; intros Hr Hlive HP Hes; rewrite Hlive in Hr.
  destruct (List.find (of_ue_kind "error") es).
  { injection Hr as <-; split; [done|]; exists []; split_and!; try done; simpl; try constructor; lia. }
  set (st1 := match List.find _ es with Some _ => _ | None => _ end) in Hr.
  assert (buffer st1 = buffer st ∧ nextExpectedSeq st1 = nextExpectedSeq st ∧ chunksToEmit st1 = []) as (Hb1 & Hn1 & Hc1)
    by (subst st1; by case_match).
  destruct (absorb_all _ _ st1) as [st2|] eqn:H2; cbn [result_bind] in Hr; [|done]; assert (st' = conclude (emit_ready (S (size (buffer st2))) st2)) as -> by congruence; clear Hr.
  apply absorb_all_frame in H2 as [(Hn2 & Hc2 & _) Hb2].
  assert (sourced P (buffer st2)) as HP2.
  { intros s c [H|(e & He & Hp)]%Hb2; [apply HP; by rewrite <- Hb1|].
    eapply Hes; [by apply elem_of_folded|done]. }
  destruct (emit_ready_spec (S (size (buffer st2))) st2 ltac:(lia)) as (bs & H1 & H3 & H4 & _ & H5 & _).
  set (st3 := emit_ready _ st2) in *.
  destruct (conclude_frame st3) as (Hle & Hc & Hb); rewrite Hc.
  split.
  { intros s c Hs%Hb; rewrite H4 in Hs; case_bool_decide; [done|by apply HP2]. }
  exists (zip ((λ i : nat, nextExpectedSeq st2 + Z.of_nat i) <$> seq 0 (length bs)) (bc_chunks <$> bs)).
  rewrite snd_zip, fst_zip by (rewrite ?length_fmap, length_seq; done).
  rewrite H5, Hc2, Hc1; split_and!; [done|apply seqs_sorted| | |lia].
  - apply Forall_forall; intros [s c] (i & Hi)%list_elem_of_lookup.
    apply lookup_zip_Some in Hi as [Hi Hc']; rewrite !list_lookup_fmap in *.
    destruct (bs !! i) as [b|] eqn:Hbi; [|done]; injection Hc' as <-.
    rewrite (lookup_seq_lt 0 _ i) in Hi by (by eapply lookup_lt_Some); injection Hi as <-.
    apply HP2, H1; done.
  - apply Forall_forall; intros [s c] (i & Hi)%list_elem_of_lookup.
    apply lookup_zip_Some in Hi as [Hi _]; rewrite list_lookup_fmap in Hi.
    destruct (seq 0 (length bs) !! i) as [j|] eqn:Hj; [|done]; injection Hi as <-.
    apply lookup_seq in Hj as [-> Hj]; simpl; lia.
Qed.
Lemma StronglySorted_app_lt (l k : list Z) (m : Z) :
  StronglySorted Z.lt l → StronglySorted Z.lt k → Forall (λ z, z < m) l → Forall (λ z, m ≤ z) k → StronglySorted Z.lt (l ++ k).
Proof.
  intros Hl Hk Hlm Hkm; induction Hl as [|a l Hl IH Ha]; [done|]; apply Forall_cons in Hlm as [Ham Hlm].
  simpl; constructor; [auto|]; apply Forall_app; split; [done|].
  eapply Forall_impl; [done|]; simpl; lia.
Qed.
Lemma stream_run_emits P h ticks st :
  done st || truthy (error st) = false → sourced P (buffer st) →
  (∀ t e p, t ∈ ticks → e ∈ t.2 → payload_of e = Some p → P p) →
  ∃ ps, (stream_run h ticks st).1.1 = concat ps.*2 ∧ StronglySorted Z.lt ps.*1 ∧
    Forall (λ p, nextExpectedSeq st ≤ p.1 ∧ P p) ps.
Proof.
  revert st; induction ticks as [|[now es] ticks IH]; intros st Hlive HP Hes.
  { by exists []; repeat split; constructor. }
  cbn [stream_run]; destruct (reduce h now es st) as [st'|] eqn:Hr; [|by exists []; repeat split; constructor].
  destruct (reduce_emits P h now es st st' Hr Hlive HP) as (HP' & ps & Hps & Hsort & HPs & Hrange & Hle).
  { intros e p He; apply (Hes (now, es)); [by left|done]. }
  unfold delivered; destruct (truthy (error st')) eqn:Herr; [by exists []; repeat split; constructor|].
  assert (Forall (λ p, nextExpectedSeq st ≤ p.1 ∧ P p) ps) as Hall.
  { apply Forall_forall; intros p Hp; rewrite Forall_forall in Hrange, HPs; split; [|auto].
    by apply Hrange in Hp as [? _]. }
  destruct (done st') eqn:Hd; [by exists ps|].
  destruct (IH st') as (ps' & Hps' & Hsort' & Hall'); [by rewrite Hd, Herr|done| |].
  { intros t e p Ht; apply Hes; by right. }
  destruct (stream_run h ticks st') as [[out ss] status]; simpl in *.
  exists (ps ++ ps'); rewrite !fmap_app, concat_app, Hps, Hps'; split_and!; [done| |].
  - apply (StronglySorted_app_lt _ _ (nextExpectedSeq st')); [done|done| |]; apply Forall_fmap.
    + eapply Forall_impl; [exact Hrange|]; simpl; lia.
    + eapply Forall_impl; [exact Hall'|]; simpl; tauto.
  - apply Forall_app; split; [done|]; eapply Forall_impl; [exact Hall'|]; simpl; intros p [? ?]; split; [lia|done].
Qed.

(** whatever response rows the ticks of a stream find, in whatever order and
    however often, what is emitted is the chunks of received payloads in strictly
    increasing sequence order: nothing is repeated, reordered or made up. *)
Theorem stream_ordered h ticks :
  ∃ ps, (stream_run h ticks initialState).1.1 = concat ps.*2 ∧ StronglySorted Z.lt ps.*1 ∧
    Forall (λ p, 0 ≤ p.1 ∧ ∃ t e, t ∈ ticks ∧ e ∈ t.2 ∧ payload_of e = Some p) ps.
Proof.
  apply (stream_run_emits (λ p, ∃ t e, t ∈ ticks ∧ e ∈ t.2 ∧ payload_of e = Some p)); [done| |eauto].
  by intros s c Hs; simpl in Hs; rewrite lookup_empty in Hs.
Qed.

(** ** Lossless delivery *)
Section lossless.
(** The stream as its source wrote it: entry [i] carries sequence number [i],
    and the last one is the end marker. *)
Variable sorted : list UnionEntry.
Definition well_numbered : Prop :=
  sorted ≠ [] ∧
  ∀ i e, sorted !! i = Some e →
    (∃ c, payload_of e = Some (Z.of_nat i, c)) ∧
    ue_kind e = (if bool_decide (S i = length sorted) then "stream_end" else "stream_chunk").
(** Every entry is claimed by at most [MAX_GAP_CYCLES - 1] ticks after any
    later one. *)
Definition prompt (ticks : list (Z * list UnionEntry)) : Prop :=
  ∀ i t e e', ticks !! i = Some t → e ∈ t.2 → e' ∈ sorted → seq_of e' < seq_of e →
    ∃ j t', (j ≤ i + 5)%nat ∧ ticks !! j = Some t' ∧ e' ∈ t'.2.

Context (Hw : well_numbered).
Lemma sorted_seq i e : sorted !! i = Some e → payload_of e = Some (Z.of_nat i, chunks_of e) ∧ seq_of e = Z.of_nat i.
Proof using Hw.
  destruct Hw as [_ H]; intros [[c Hc] _]%H; unfold seq_of, chunks_of; by rewrite Hc.
Qed.
Lemma sorted_inj i j e : sorted !! i = Some e → sorted !! j = Some e → i = j.
Proof using Hw. intros [_ Hi]%sorted_seq [_ Hj]%sorted_seq; lia. Qed.
Lemma sorted_NoDup : NoDup sorted.
Proof using Hw. apply NoDup_alt; intros i j e; apply sorted_inj. Qed.

Definition buffered (A : UnionEntry → Prop) (n : nat) (b : gmap Z BufferedChunk) : Prop :=
  ∀ s k, b !! s = Some k ↔ ∃ i e, s = Z.of_nat i ∧ (n ≤ i)%nat ∧ sorted !! i = Some e ∧ A e ∧ k = MkChunk (chunks_of e) (entry_settle e).
Definition ended (A : UnionEntry → Prop) (o : option Z) : Prop :=
  (o = None ∨ o = Some (Z.of_nat (length sorted) - 1)) ∧
  ∀ e, last sorted = Some e → A e → o = Some (Z.of_nat (length sorted) - 1).

Lemma absorb_sorted lat A n st i e :
  buffered A n (buffer st) → ended A (streamEndSeq st) → sorted !! i = Some e → (n ≤ i)%nat → ¬ A e →
  ∃ st', absorb lat st e = Ok st' ∧ same_output st st' ∧ settlesToRun st' = settlesToRun st ∧
    buffered (λ x, A x ∨ x = e) n (buffer st') ∧ ended (λ x, A x ∨ x = e) (streamEndSeq st').
Proof using Hw.
  intros Hb He Hi Hn HA; destruct (sorted_seq i e Hi) as [Hp _].
  assert (read_chunk (ue_payload e) = Ok (Some (Z.of_nat i, chunks_of e))) as Hr.
  { unfold payload_of in Hp; destruct (read_chunk (ue_payload e)); congruence. }
  assert (buffer st !! Z.of_nat i = None) as Hfree.
  { destruct (buffer st !! Z.of_nat i) as [k|] eqn:Hk; [|done].
    apply Hb in Hk as (j & x & Hj & _ & Hx & HAx & _); apply Nat2Z.inj in Hj as <-; congruence. }
  unfold absorb; rewrite Hr; cbn [result_bind]; eexists; split; [reflexivity|]; simpl; rewrite Hfree.
  assert (buffered (λ x, A x ∨ x = e) n (<[Z.of_nat i := MkChunk (chunks_of e) (entry_settle e)]> (buffer st))) as Hb'.
  { intros s k; rewrite lookup_insert_Some, (Hb s k); split.
    - intros [[<- <-]|[_ (j & x & ? & ? & ? & ? & ?)]]; [exists i, e|exists j, x]; naive_solver.
    - intros (j & x & -> & Hj & Hx & [HAx| ->] & ->).
      + right; split; [|by exists j, x]. intros <-%Nat2Z.inj; congruence.
      + left; by rewrite (sorted_inj _ _ _ Hi Hx). }
  destruct Hw as [Hne Hk]; destruct (Hk i e Hi) as [_ Hkind]; rewrite Hkind.
  case_bool_decide as Hlast; simpl; (split_and!; [repeat split|done|exact Hb'|]).
  - replace (Z.of_nat i) with (Z.of_nat (length sorted) - 1) by lia; split; auto.
  - destruct He as [Ho He]; split; [done|]; intros x Hx [HAx| ->]; [by apply (He x)|].
    rewrite last_lookup in Hx; pose proof (sorted_inj _ _ _ Hi Hx); apply lookup_lt_Some in Hi; lia.
Qed.
Lemma absorb_all_sorted lat A n es st :
  buffered A n (buffer st) → ended A (streamEndSeq st) → NoDup es →
  (∀ e, e ∈ es → ¬ A e ∧ ∃ i, sorted !! i = Some e ∧ (n ≤ i)%nat) →
  ∃ st', absorb_all lat es st = Ok st' ∧ same_output st st' ∧ settlesToRun st' = settlesToRun st ∧
    buffered (λ x, A x ∨ x ∈ es) n (buffer st') ∧ ended (λ x, A x ∨ x ∈ es) (streamEndSeq st').
Proof using Hw.
  revert A st; induction es as [|e es IH]; intros A st Hb He Hnd Hes; simpl.
  { exists st; split_and!; try done.
    - intros s k; rewrite (Hb s k); split; intros (i & x & H); exists i, x; set_solver.
    - destruct He as [Ho He]; split; [done|]; intros x Hx [?|?%elem_of_nil]; [by apply (He x)|done]. }
  apply NoDup_cons in Hnd as [Hx Hnd]; destruct (Hes e ltac:(left)) as (HA & i & Hi & Hn).
  destruct (absorb_sorted lat A n st i e Hb He Hi Hn HA) as (st1 & -> & Hs1 & Hset1 & Hb1 & He1); cbn [result_bind].
  destruct (IH _ st1 Hb1 He1 Hnd) as (st2 & -> & Hs2 & Hset2 & Hb2 & He2).
  { intros y Hy; destruct (Hes y ltac:(by right)) as [HAy ?]; split; [|done]; intros [?| ->]; done. }
  exists st2; split_and!; try done.
  - unfold same_output in *; intuition congruence.
  - congruence.
  - intros s k; rewrite (Hb2 s k); split; intros (j & y & H); exists j, y; set_solver.
  - destruct He2 as [Ho He2]; split; [done|]; intros y Hy HA'; apply (He2 y Hy); set_solver.
Qed.

Definition arrived (pre : list (Z * list UnionEntry)) (e : UnionEntry) : Prop := ∃ t, t ∈ pre ∧ e ∈ t.2.
Lemma arrived_snoc pre now es e : arrived (pre ++ [(now, es)]) e ↔ arrived pre e ∨ e ∈ es.
Proof using.
  unfold arrived; split.
  - intros (t & [Ht| ->%list_elem_of_singleton]%elem_of_app & He); eauto.
  - intros [(t & Ht & He)|He]; [exists t|exists (now, es)]; rewrite elem_of_app; split; auto.
    right; by apply list_elem_of_singleton.
Qed.
(** Between two ticks: the entries below the expected number have all arrived,
    the expected one has not, the buffer holds the later ones, and while the gap
    counter runs some later entry has been waiting that long. *)
Record waiting (pre : list (Z * list UnionEntry)) (n : nat) (st : ScanOutput) : Prop := {
  w_next : nextExpectedSeq st = Z.of_nat n;
  w_open : (n < length sorted)%nat;
  w_buffer : buffered (arrived pre) n (buffer st);
  w_end : ended (arrived pre) (streamEndSeq st);
  w_below : ∀ i e, (i < n)%nat → sorted !! i = Some e → arrived pre e;
  w_missing : ∀ e, sorted !! n = Some e → ¬ arrived pre e;
  w_live : streamEndConsumed st = false ∧ done st = false ∧ error st = None;
  w_gap : 0 ≤ gapCyclesWaited st ≤ 5;
  w_since : 0 < gapCyclesWaited st →
    ∃ i e k t, (n < i)%nat ∧ sorted !! i = Some e ∧ pre !! k = Some t ∧ e ∈ t.2 ∧
      Z.of_nat k + gapCyclesWaited st ≤ Z.of_nat (length pre)
}.

Lemma buffered_ext A A' n b : (∀ e, e ∈ sorted → A e ↔ A' e) → buffered A n b → buffered A' n b.
Proof using.
  intros HA Hb s k; rewrite (Hb s k); split; intros (i & e & H1 & H2 & H3 & H4 & H5); exists i, e; split_and!; try done;
    apply (HA e); try done; by eapply list_elem_of_lookup_2.
Qed.
Lemma ended_ext A A' o : (∀ e, e ∈ sorted → A e ↔ A' e) → ended A o → ended A' o.
Proof using.
  intros HA [Ho He]; split; [done|]; intros e Hl HAe; apply (He e Hl), HA; [|done].
  rewrite last_lookup in Hl; by eapply list_elem_of_lookup_2.
Qed.
Lemma folded_all es : (∀ e, e ∈ es → e ∈ sorted) → NoDup es → NoDup (folded es) ∧ ∀ e, e ∈ folded es ↔ e ∈ es.
Proof using Hw.
  intros Hes Hnd; destruct Hw as [_ Hk]; unfold folded.
  assert (∀ e, e ∈ es → of_ue_kind "stream_chunk" e = negb (of_ue_kind "stream_end" e)) as Hkind.
  { intros e He; apply Hes in He; apply list_elem_of_lookup in He as [i Hi].
    destruct (Hk i e Hi) as [_ Hki]; unfold of_ue_kind; rewrite Hki; by case_bool_decide. }
  split.
  - apply NoDup_app; split_and!; [by eapply sublist_NoDup, filter_sublist| |destruct (List.find _ es); simpl; repeat constructor; set_solver].
    intros e [He Hc]%filter_In_iff He'; destruct (List.find _ es) eqn:Hf; [|set_solver].
    apply find_elem in Hf as [_ Hf]; assert (e = u) as -> by set_solver.
    rewrite Hkind, Hf in Hc by done; done.
  - intros e; split; [apply elem_of_folded|]; intros He; rewrite elem_of_app.
    destruct (of_ue_kind "stream_end" e) eqn:Hend.
    + right; destruct (List.find _ es) as [x|] eqn:Hf.
      * apply find_elem in Hf as [Hx Hxe]; apply list_elem_of_singleton; simpl.
        apply Hes in He, Hx; apply list_elem_of_lookup in He as [i Hi], Hx as [j Hj].
        destruct (Hk i e Hi) as [_ Hki], (Hk j x Hj) as [_ Hkj]; unfold of_ue_kind in *.
        rewrite Hki in Hend; rewrite Hkj in Hxe; repeat case_bool_decide; try done.
        assert (i = j) as <- by lia; congruence.
      * exfalso; pose proof (List.find_none _ _ Hf e) as Hn; rewrite Hn in Hend; [done|by apply list_elem_of_In].
    + left; apply filter_In_iff; split; [done|]; by rewrite Hkind, Hend.
Qed.

(** The entries emitted from a buffer are consecutive entries of the stream. *)
Lemma emitted_sorted A n b bs : buffered A n b →
  (∀ i k, bs !! i = Some k → b !! (Z.of_nat n + Z.of_nat i) = Some k) →
  bs = (λ e, MkChunk (chunks_of e) (entry_settle e)) <$> take (length bs) (drop n sorted) ∧
  (∀ i e, (n ≤ i < n + length bs)%nat → sorted !! i = Some e → A e) ∧ (bs ≠ [] → n + length bs ≤ length sorted)%nat.
Proof using.
  intros Hb Hbs.
  assert (∀ i k, bs !! i = Some k → ∃ e, sorted !! (n + i)%nat = Some e ∧ A e ∧ k = MkChunk (chunks_of e) (entry_settle e)) as H.
  { intros i k Hi; apply Hbs in Hi; apply Hb in Hi as (j & e & Hj & _ & He & HA & ->).
    assert (j = (n + i)%nat) as -> by lia; eauto. }
  split_and!.
  - apply list_eq; intros i; rewrite list_lookup_fmap; destruct (decide (i < length bs)%nat) as [Hi|Hi].
    + destruct (lookup_lt_is_Some_2 bs i Hi) as [k Hk]; destruct (H i k Hk) as (e & He & _ & ->).
      by rewrite lookup_take_lt, lookup_drop, He, Hk by done.
    + rewrite lookup_ge_None_2, lookup_take_ge by lia; done.
  - intros i e Hi He; destruct (lookup_lt_is_Some_2 bs (i - n) ltac:(lia)) as [k Hk].
    destruct (H _ k Hk) as (x & Hx & HA & _); replace (n + (i - n))%nat with i in Hx by lia; congruence.
  - intros Hne; destruct (lookup_lt_is_Some_2 bs (pred (length bs)) ltac:(destruct bs; simpl; [done|lia])) as [k Hk].
    destruct (H _ k Hk) as (x & Hx%lookup_lt_Some & _); destruct bs; simpl in *; [done|lia].
Qed.
Lemma buffered_below A n m b b' : buffered A n b → (n ≤ m)%nat →
  (∀ s, b' !! s = if bool_decide (Z.of_nat n ≤ s < Z.of_nat m) then None else b !! s) → buffered A m b'.
Proof using.
  intros Hb Hm Hb' s k; rewrite Hb'; case_bool_decide as Hs.
  - split; [done|]; intros (i & e & -> & ? & _); lia.
  - rewrite (Hb s k); split; intros (i & e & -> & Hi & H); exists i, e; (split_and!; [done| |apply H..]); lia.
Qed.

(** What a tick absorbs. *)
Lemma absorb_tick lat pre now es post n st :
  concat (pre ++ (now, es) :: post).*2 ≡ₚ sorted → waiting pre n st →
  List.find (of_ue_kind "error") es = None ∧ List.find (of_ue_kind "trace_data") es = None ∧
  ∃ st2, absorb_all lat (folded es) (next_tick st) = Ok st2 ∧ same_output (next_tick st) st2 ∧ settlesToRun st2 = [] ∧
    buffered (arrived (pre ++ [(now, es)])) n (buffer st2) ∧ ended (arrived (pre ++ [(now, es)])) (streamEndSeq st2).
Proof using Hw.
  intros Hperm [Hn Hopen Hb He Hbelow Hmiss (Hcons & Hdone & Herr) Hgap Hsince].
  rewrite fmap_app, fmap_cons, concat_app in Hperm; simpl in Hperm.
  assert (∀ e, e ∈ es → e ∈ sorted) as Hin by (intros e Hx; rewrite <- Hperm; set_solver).
  pose proof sorted_NoDup as HN; rewrite <- Hperm in HN; apply NoDup_app in HN as (_ & Hdis & [Hnd _]%NoDup_app).
  assert (∀ e, e ∈ es → ¬ arrived pre e) as Hfresh.
  { intros e Hx (t & Ht & Hxt); apply (Hdis e); [|set_solver].
    apply list_elem_of_In, List.in_concat; exists t.2; split; apply list_elem_of_In; [by apply list_elem_of_fmap_2|done]. }
  destruct (folded_all es Hin Hnd) as [Hfnd Hfold].
  assert (∀ k, k = "error" ∨ k = "trace_data" → List.find (of_ue_kind k) es = None) as Hnone.
  { intros k Hk; apply find_none_all; intros e Hx; apply Hin, list_elem_of_lookup in Hx as [i Hi].
    destruct Hw as [_ Hkd]; destruct (Hkd i e Hi) as [_ Hki]; unfold of_ue_kind; rewrite Hki.
    case_bool_decide; destruct Hk as [->| ->]; done. }
  split_and!; [auto..|].
  destruct (absorb_all_sorted lat (arrived pre) n (folded es) (next_tick st)) as (st2 & -> & Hs2 & Hset2 & Hb2 & He2); [done..| |].
  { intros e Hx%Hfold; split; [by apply Hfresh|]; destruct (list_elem_of_lookup_1 _ _ (Hin e Hx)) as [i Hi].
    exists i; split; [done|]; destruct (decide (n ≤ i)%nat); [done|].
    destruct (Hfresh e Hx); apply (Hbelow i); [lia|done]. }
  exists st2; split_and!; try done.
  - eapply buffered_ext; [|exact Hb2]; intros e _; by rewrite arrived_snoc, Hfold.
  - eapply ended_ext; [|exact He2]; intros e _; by rewrite arrived_snoc, Hfold.
Qed.

(** How the concluded tick stands, from what was emitted. *)
Lemma conclude_done st : streamEndConsumed st = true → buffer st = ∅ → conclude st = with_done st.
Proof using. unfold conclude; by intros -> ->. Qed.
Lemma conclude_wait st : streamEndConsumed st = false → gapCyclesWaited st < 5 ∨ buffer st = ∅ →
  conclude st = if decide (buffer st = ∅) then st else with_gap st (nextExpectedSeq st) (gapCyclesWaited st + 1).
Proof using.
  unfold conclude; intros -> Hg; simpl; destruct (decide (buffer st = ∅)) as [He|He]; [by rewrite He|].
  assert (0 < size (buffer st))%nat as Hs by (apply map_size_non_empty_iff in He; lia).
  rewrite (proj2 (Nat.ltb_lt _ _) Hs), (proj2 (Z.leb_gt MAX_GAP_CYCLES _)); [done|].
  unfold MAX_GAP_CYCLES; destruct Hg; [simpl; lia|done].
Qed.

(** The gap counter never runs out: what it would skip has arrived. *)
Lemma gap_bounded pre now es post n st e :
  prompt (pre ++ (now, es) :: post) → waiting pre n st → sorted !! n = Some e → ¬ arrived (pre ++ [(now, es)]) e →
  gapCyclesWaited st < 5.
Proof using Hw.
  intros Hprompt Hwait He Hmiss; destruct Hwait as [_ _ _ _ _ _ _ Hgap Hsince].
  destruct (decide (gapCyclesWaited st = 5)) as [H5|]; [|lia]; exfalso; apply Hmiss.
  destruct Hsince as (i & x & k & t & Hi & Hx & Hk & Hxt & Hle); [lia|].
  destruct (Hprompt k t x e) as (j & t' & Hj & Ht' & He').
  - by apply lookup_app_l_Some.
  - done.
  - by eapply list_elem_of_lookup_2.
  - destruct (sorted_seq _ _ Hx) as [_ ->], (sorted_seq _ _ He) as [_ ->]; lia.
  - exists t'; split; [|done]; apply list_elem_of_lookup_2 with j.
    replace (pre ++ (now, es) :: post) with ((pre ++ [(now, es)]) ++ post) in Ht' by (by rewrite <- app_assoc).
    rewrite lookup_app_l in Ht' by (rewrite length_app; simpl; lia); done.
Qed.
(** The end is consumed when the last entry is emitted. *)
Lemma end_consumed A o n k : ended A o → (n < length sorted)%nat → (n + k ≤ length sorted)%nat →
  (∀ i e, (i < n + k)%nat → sorted !! i = Some e → A e) →
  (0 <? Z.of_nat k) && match o with Some e => e <? Z.of_nat n + Z.of_nat k | None => false end =
  bool_decide (n + k = length sorted)%nat.
Proof using.
  intros [Ho He] Hn Hle HA; case_bool_decide as Hk.
  - destruct (last sorted) as [x|] eqn:Hx; [|apply last_None in Hx; rewrite Hx in Hn; simpl in Hn; lia].
    rewrite (He x eq_refl); [|rewrite last_lookup in Hx; apply (HA (pred (length sorted))); [lia|done]].
    rewrite (proj2 (Z.ltb_lt 0 (Z.of_nat k))) by lia; apply Z.ltb_lt; lia.
  - destruct Ho as [->| ->]; [by rewrite andb_false_r|].
    rewrite (proj2 (Z.ltb_ge (Z.of_nat (length sorted) - 1) _)) by lia; by rewrite andb_false_r.
Qed.
Lemma buffered_full A b : buffered A (length sorted) b → b = ∅.
Proof using.
  intros Hb; apply map_empty; intros s; destruct (b !! s) as [k|] eqn:Hk; [|done].
  apply Hb in Hk as (i & e & _ & Hi & He & _); apply lookup_lt_Some in He; lia.
Qed.

(** What a tick emits, before it is concluded. *)
Record emitted (A : UnionEntry → Prop) (n m : nat) (st st3 : ScanOutput) : Prop := {
  e_range : (n ≤ m ≤ length sorted)%nat;
  e_next : nextExpectedSeq st3 = Z.of_nat m;
  e_buffer : buffered A m (buffer st3);
  e_end : ended A (streamEndSeq st3);
  e_below : ∀ i e, (i < m)%nat → sorted !! i = Some e → A e;
  e_missing : ∀ e, sorted !! m = Some e → ¬ A e;
  e_chunks : chunksToEmit st3 = concat (chunks_of <$> take (m - n) (drop n sorted));
  e_settles : settlesToRun st3 = entry_settle <$> take (m - n) (drop n sorted);
  e_live : streamEndConsumed st3 = bool_decide (m = length sorted) ∧ done st3 = false ∧ error st3 = None;
  e_gap : gapCyclesWaited st3 = if bool_decide (n = m) then gapCyclesWaited st else 0
}.
Lemma tick_emits h pre now es post n st :
  concat (pre ++ (now, es) :: post).*2 ≡ₚ sorted → waiting pre n st →
  ∃ st3 m, reduce h now es st = Ok (conclude st3) ∧ emitted (arrived (pre ++ [(now, es)])) n m st st3.
Proof using Hw.
  intros Hperm Hwait.
  destruct (absorb_tick (now - h) pre now es post n st Hperm Hwait) as (He0 & Ht0 & st2 & Habs & Hs2 & Hset2 & Hb2 & He2).
  destruct Hwait as [Hn Hopen _ _ Hbelow _ (Hcons & Hdone & Herr) _ _].
  destruct Hs2 as (Hn2 & Hc2 & Hd2 & Her2 & Hco2 & Hg2); simpl in *.
  unfold reduce; rewrite Hdone, Herr, He0, Ht0, Habs; cbn [truthy orb result_bind].
  destruct (emit_ready_spec (S (size (buffer st2))) st2 ltac:(lia)) as (bs & H1 & H3 & H4 & H5 & H6 & H7 & H8 & H9 & H10 & H11 & H12).
  set (st3 := emit_ready _ st2) in *; set (A := arrived (pre ++ [(now, es)])) in *.
  rewrite Hn2, Hn in *.
  destruct (emitted_sorted A n (buffer st2) bs Hb2 H1) as (Hbs & HA & Hlen).
  assert (n + length bs ≤ length sorted)%nat as Hm by (destruct bs; [simpl in *; lia|apply Hlen; done]).
  rewrite <- Nat2Z.inj_add in H3, H4.
  assert (buffered A (n + length bs) (buffer st3)) as Hb3 by (apply (buffered_below A n _ (buffer st2)); [done|lia|done]).
  assert (∀ i e, (i < n + length bs)%nat → sorted !! i = Some e → A e) as Hbelow'.
  { intros i e Hi He; destruct (decide (i < n)%nat); [|apply (HA i); [lia|done]].
    apply arrived_snoc; left; by apply (Hbelow i). }
  assert (bc_chunks <$> bs = chunks_of <$> take (length bs) (drop n sorted)) as Hbc
    by (rewrite Hbs at 1; by rewrite <- list_fmap_compose).
  assert (bc_settle <$> bs = entry_settle <$> take (length bs) (drop n sorted)) as Hbt
    by (rewrite Hbs at 1; by rewrite <- list_fmap_compose).
  exists st3, (n + length bs)%nat; split; [done|]; split; try done; try lia.
  - by rewrite H9.
  - intros e He HAe; rewrite H3 in H5.
    assert (buffer st3 !! Z.of_nat (n + length bs) = Some (MkChunk (chunks_of e) (entry_settle e))); [|congruence].
    apply Hb3; exists (n + length bs)%nat, e; auto.
  - rewrite H6, Hc2, Hbc; by replace (n + length bs - n)%nat with (length bs) by lia.
  - rewrite H7, Hset2, Hbt; by replace (n + length bs - n)%nat with (length bs) by lia.
  - rewrite H10, Hco2, Hcons, (end_consumed A _ n (length bs) He2 Hopen Hm Hbelow'); split_and!; [done|congruence..].
  - rewrite H8, Hg2; destruct (Z.eqb_spec (Z.of_nat (length bs)) 0); case_bool_decide; try done; lia.
Qed.

(** While the gap counter runs, a later entry is waiting. *)
Lemma gap_since pre now es n m st st3 :
  waiting pre n st → emitted (arrived (pre ++ [(now, es)])) n m st st3 → buffer st3 ≠ ∅ →
  ∃ i e k t, (m < i)%nat ∧ sorted !! i = Some e ∧ (pre ++ [(now, es)]) !! k = Some t ∧ e ∈ t.2 ∧
    Z.of_nat k + (gapCyclesWaited st3 + 1) ≤ Z.of_nat (length (pre ++ [(now, es)])).
Proof using.
  intros Hwait Hem Hne; rewrite length_app; simpl; rewrite (e_gap _ _ _ _ _ Hem).
  destruct (decide (n = m ∧ 0 < gapCyclesWaited st)) as [[Hnm Hpos]|Hg].
  - rewrite bool_decide_true by done; subst m.
    destruct (w_since _ _ _ Hwait Hpos) as (i & x & k & t & Hi & Hx & Hk & Hxt & Hle).
    exists i, x, k, t; split_and!; try done; [by apply lookup_app_l_Some|lia].
  - apply map_choose in Hne as (s & c & Hs); apply (e_buffer _ _ _ _ _ Hem) in Hs as (i & x & _ & Hi & Hx & HA & _).
    destruct (decide (i = m)) as [->|Him]; [by destruct (e_missing _ _ _ _ _ Hem x Hx)|].
    destruct HA as (t & [k Hk]%list_elem_of_lookup & Hxt); exists i, x, k, t; split_and!; try done; [lia|].
    apply lookup_lt_Some in Hk; rewrite length_app in Hk; simpl in Hk; pose proof (w_gap _ _ _ Hwait).
    case_bool_decide; [assert (gapCyclesWaited st = 0) by lia|]; lia.
Qed.

Lemma reduce_sorted h pre now es post n st :
  concat (pre ++ (now, es) :: post).*2 ≡ₚ sorted → prompt (pre ++ (now, es) :: post) → waiting pre n st →
  ∃ st' m, reduce h now es st = Ok st' ∧ error st' = None ∧ (n ≤ m ≤ length sorted)%nat ∧
    chunksToEmit st' = concat (chunks_of <$> take (m - n) (drop n sorted)) ∧
    settlesToRun st' = entry_settle <$> take (m - n) (drop n sorted) ∧
    (if bool_decide (m = length sorted) then done st' = true
     else done st' = false ∧ waiting (pre ++ [(now, es)]) m st').
Proof using Hw.
  intros Hperm Hprompt Hwait; destruct (tick_emits h pre now es post n st Hperm Hwait) as (st3 & m & -> & Hem).
  pose proof Hem as [Hrange Hn Hb He Hbelow Hmiss Hch Hse (Hcons & Hdone & Herr) Hgap].
  exists (conclude st3), m; split; [done|]; destruct (decide (m = length sorted)) as [Hm|Hm].
  { rewrite (conclude_done st3); simpl.
    - rewrite bool_decide_true by done; split_and!; try done; lia.
    - by rewrite Hcons, bool_decide_true.
    - subst m; by apply buffered_full in Hb. }
  destruct (lookup_lt_is_Some_2 sorted m ltac:(lia)) as [e Hnext].
  assert (gapCyclesWaited st3 < 5) as Hg.
  { rewrite Hgap; case_bool_decide; [|lia]; subst m; apply (gap_bounded pre now es post n st e); auto. }
  rewrite bool_decide_false by done; rewrite conclude_wait by (rewrite ?Hcons, ?bool_decide_false; auto).
  pose proof (w_gap _ _ _ Hwait) as Hgap0.
  destruct (decide (buffer st3 = ∅)) as [Hempty|Hempty]; simpl; (split_and!; try done; try lia).
  - split; try done; [lia|by rewrite Hcons, bool_decide_false|rewrite Hgap; case_bool_decide; lia|].
    rewrite Hgap; case_bool_decide; [|lia]; intros Hpos; subst m.
    destruct (w_since _ _ _ Hwait Hpos) as (i & x & k & t & Hi & Hx & Hk & Hxt & Hle).
    exists i, x, k, t; rewrite length_app; simpl; split_and!; try done; [by apply lookup_app_l_Some|lia].
  - split; simpl; try done; [lia|by rewrite Hcons, bool_decide_false|rewrite Hgap in *; case_bool_decide; lia|].
    intros _; by apply (gap_since pre now es n m st).
Qed.

Lemma stream_run_sorted h pre post n st :
  concat (pre ++ post).*2 ≡ₚ sorted → prompt (pre ++ post) → waiting pre n st →
  stream_run h post st = (concat (chunks_of <$> drop n sorted), entry_settle <$> drop n sorted, Completed).
Proof using Hw.
  revert pre n st; induction post as [|[now es] post IH]; intros pre n st Hperm Hprompt Hwait.
  { destruct (lookup_lt_is_Some_2 sorted n (w_open _ _ _ Hwait)) as [e He]; destruct (w_missing _ _ _ Hwait e He).
    rewrite app_nil_r in Hperm; pose proof (list_elem_of_lookup_2 _ _ _ He) as Hin; rewrite <- Hperm in Hin.
    apply list_elem_of_In, List.in_concat in Hin as (l & [t [-> Ht]]%list_elem_of_In%list_elem_of_fmap & Hl).
    exists t; split; [done|]; by apply list_elem_of_In. }
  destruct (reduce_sorted h pre now es post n st Hperm Hprompt Hwait) as (st' & m & Hr & Herr & Hm & Hch & Hse & Hfin).
  cbn [stream_run]; rewrite Hr; unfold delivered; rewrite Herr; cbn [truthy].
  destruct (decide (m = length sorted)) as [->|Hne].
  - rewrite bool_decide_true in Hfin by done; rewrite Hfin, Hch, Hse, take_ge; [done|by rewrite length_drop].
  - rewrite bool_decide_false in Hfin by done; destruct Hfin as [-> Hwait'].
    replace (pre ++ (now, es) :: post) with ((pre ++ [(now, es)]) ++ post) in * by (by rewrite <- app_assoc).
    rewrite (IH (pre ++ [(now, es)]) m st' Hperm Hprompt Hwait'), Hch, Hse, <- concat_app, <- !fmap_app.
    replace m with (n + (m - n))%nat at 2 4 by lia; by rewrite <- drop_drop, take_drop.
Qed.
Lemma waiting_initial : waiting [] 0 initialState.
Proof using Hw.
  destruct Hw as [Hne _]; split; simpl; try done.
  - destruct sorted; [done|simpl; lia].
  - intros s k; rewrite lookup_empty; split; [done|]; intros (i & e & _ & _ & _ & (t & Ht & _) & _); by apply elem_of_nil in Ht.
  - split; [by left|]; intros e _ (t & Ht & _); by apply elem_of_nil in Ht.
  - intros; lia.
  - intros e _ (t & Ht & _); by apply elem_of_nil in Ht.
Qed.
End lossless.

(** when every row of a stream is claimed within five ticks of any later one,
    in whatever order, the stream completes having emitted every chunk in
    sequence order and listed every row for acknowledgement exactly once. *)
Theorem stream_lossless sorted h ticks :
  well_numbered sorted → concat ticks.*2 ≡ₚ sorted → prompt sorted ticks →
  stream_run h ticks initialState = (concat (chunks_of <$> sorted), entry_settle <$> sorted, Completed).
Proof.
  intros Hw Hperm Hprompt; pose proof (stream_run_sorted sorted Hw h [] ticks 0 initialState) as H; rewrite drop_0 in H.
  apply H; [done..|by apply waiting_initial].
Qed.

(** ** An example *)
Definition chunk_row (kind : string) (seq : Z) (texts : list string) : UnionEntry :=
  MkUnion ("row" +:+ of_chars (print_Z seq)) kind
    (json_stringify (JObj [("chunks", JArr (JStr <$> texts)); ("seq", JInt seq)])) ("token" +:+ of_chars (print_Z seq)).
Definition three_rows : list UnionEntry :=
  [chunk_row "stream_chunk" 0 ["a"; "b"]; chunk_row "stream_chunk" 1 []; chunk_row "stream_end" 2 ["c"]].
Definition shuffled : list (Z * list UnionEntry) :=
  [(100, [chunk_row "stream_end" 2 ["c"]]); (200, []); (300, [chunk_row "stream_chunk" 1 []; chunk_row "stream_chunk" 0 ["a"; "b"]])].
Lemma three_rows_numbered : well_numbered three_rows.
Proof.
  split; [done|]; intros [|[|[|i]]] e He; try done; injection He as <-; (split; [eexists; vm_compute; reflexivity|done]).
Qed.
Lemma shuffled_prompt : prompt three_rows shuffled.
Proof.
  intros i t e e' _ _ He' _; unfold three_rows in He'; rewrite !elem_of_cons, elem_of_nil in He'.
  destruct He' as [-> |[-> |[-> |[]]]]; [exists 2%nat|exists 2%nat|exists 0%nat]; eexists; (split_and!; [lia|reflexivity|]); simpl;
    rewrite !elem_of_cons; auto.
Qed.
Lemma stream_lossless_witness :
  stream_run 0 shuffled initialState =
    ([JStr "a"; JStr "b"; JStr "c"], [("row0", "token0"); ("row1", "token1"); ("row2", "token2")], Completed).
Proof.
  change [JStr "a"; JStr "b"; JStr "c"] with (concat [[JStr "a"; JStr "b"]; []; [JStr "c"]]).
  exact (stream_lossless three_rows 0 shuffled three_rows_numbered ltac:(vm_compute; solve_Permutation) shuffled_prompt).
Defined.

(** ** Claims and acknowledgements *)
Lemma claim_one uuid now site r t : keys_unique dw_id t → r ∈ t → dw_claim_state r = Pending →
  claimDurableWorkByIds uuid now [dw_id r] site t =
  if targets site r then (claim_row (uuid 0%nat) now (dw_id r) t, [claim_set (uuid 0%nat) now r]) else (t, []).
Proof.
  intros Hk Hr Hp; unfold claimDurableWorkByIds, sql_select; cbn [length Nat.eqb].
  assert (List.filter (λ x, targets site x && in_state Pending x && id_in [dw_id r] x) t =
          if targets site r then [r] else []) as ->.
  { transitivity (List.filter (λ x, (targets site x && in_state Pending x) && seqb (dw_id x) (dw_id r)) t).
    - apply List.filter_ext; intros x; unfold id_in; simpl; by rewrite orb_false_r.
    - rewrite (filter_one dw_id (λ x, targets site x && in_state Pending x)) by done.
      by rewrite (proj2 (in_state_true _ _) Hp), andb_true_r. }
  by destruct (targets site r).
Qed.
Lemma claimed_entry_set tok now r : nonempty tok = true →
  claimed_entry [claim_set tok now r] = Some (MkUnion (dw_id r) (dw_kind r) (dw_payload r) tok).
Proof. intros H; unfold claimed_entry; simpl; by rewrite H. Qed.

(** C24: an awaited response that targets the reading site is claimed under a fresh
    token, and acknowledging the entry consumes exactly that row; one that targets
    the local sentinel is found but never claimed, so its awaiter never gets it. *)
Theorem response_delivery uuid now later ref own t :
  keys_unique dw_id t → nonempty (uuid 0%nat) = true →
  match readDurableResponseByRefId ref own t with
  | None => readUnionResponseEntry uuid now ref own t = (t, None)
  | Some r =>
      if targets own r then
        ∃ t' e, readUnionResponseEntry uuid now ref own t = (t', Some e) ∧
          e = MkUnion (dw_id r) (dw_kind r) (dw_payload r) (uuid 0%nat) ∧
          row_at dw_id (dw_id r) (run_settles later [entry_settle e] t') =
            Some (consume_set later (claim_set (uuid 0%nat) now r)) ∧
          ∀ j, j ≠ dw_id r → row_at dw_id j (run_settles later [entry_settle e] t') = row_at dw_id j t
      else readUnionResponseEntry uuid now ref own t = (t, None)
  end.
Proof.
  intros Hk Hu; unfold readUnionResponseEntry.
  destruct (readDurableResponseByRefId ref own t) as [r|] eqn:Hread; [|done].
  assert (r ∈ t ∧ dw_claim_state r = Pending) as [Hr Hp].
  { unfold readDurableResponseByRefId in Hread; apply head_Some_elem_of in Hread.
    apply elem_of_order_by, elem_of_select in Hread as [Hr Hq]; split; [done|].
    unfold awaited_here in Hq; apply in_state_true; by repeat (apply andb_true_iff in Hq as [? Hq] || apply andb_true_iff in Hq as [Hq ?]). }
  rewrite claim_one by done; destruct (targets own r); [|done].
  rewrite claimed_entry_set by done; eexists _, _; split_and!; [done..| |].
  all: unfold run_settles, entry_settle; cbn [foldl fst snd ue_id ue_token];
    destruct (acknowledgeDurableWork later (dw_id r) (uuid 0%nat) (claim_row (uuid 0%nat) now (dw_id r) t)) as [t2 b] eqn:Hack;
    apply acknowledge_spec in Hack as (Hb & Hhit & Hmiss & _); [|by apply claim_row_keys].
  - assert (row_at dw_id (dw_id r) (claim_row (uuid 0%nat) now (dw_id r) t) = Some (claim_set (uuid 0%nat) now r)) as Hrow.
    { rewrite claim_row_row, (row_at_elem _ _ _ r) by done; simpl; by rewrite seqb_refl, (proj2 (in_state_true _ _) Hp). }
    cbn [fst]; rewrite Hhit; [by rewrite Hrow|]; apply Hb; rewrite Hrow; by eexists.
  - intros j Hj; cbn [fst]; rewrite Hmiss, claim_row_row by done; destruct (row_at dw_id j t); simpl; [|done].
    by rewrite (proj2 (seqb_false _ _) Hj).
Qed.

(** A response to a request of the hub to itself, and one that came from a peer. *)
Definition response_to (source target : string) (t : dw_table) : dw_table :=
  match routeRelayResponse ("response-to-" +:+ target) true false 1000 [] []
          (MkRoute target source "result" (json_stringify (JObj [("stdout", JStr "done")])) 30000 (Some "request-1") None None None None) t with
  | Ok (t', _, _) => t'
  | Throw _ => t
  end.
Definition loopback : dw_table := response_to "hub" "hub" [].
Definition answered : dw_table :=
  (dw_exec (OpInsert true false 1000 (MkNewWork "w1" "hub" "result" (json_stringify (JObj [("stdout", JStr "done")])) "k1" None (Some "request-1") (Some "spoke") None None None)) []).
Lemma response_delivery_witness :
  readUnionResponseEntry (λ _, "tok") 2000 "request-1" "hub" loopback = (loopback, None) ∧
  ∃ t' e, readUnionResponseEntry (λ _, "tok") 2000 "request-1" "hub" answered = (t', Some e) ∧ ue_id e = "w1".
Proof.
  split.
  - exact (response_delivery (λ _, "tok") 2000 3000 "request-1" "hub" loopback
             ltac:(vm_compute; repeat constructor; set_solver) eq_refl).
  - destruct (response_delivery (λ _, "tok") 2000 3000 "request-1" "hub" answered
                ltac:(vm_compute; repeat constructor; set_solver) eq_refl) as (t' & e & H & -> & _).
    by exists t', (MkUnion "w1" "result" (json_stringify (JObj [("stdout", JStr "done")])) "tok").
Defined.
Example loopback_found : option_map dw_id (readDurableResponseByRefId "request-1" "hub" loopback) = Some "response-to-hub".
Proof. vm_compute. reflexivity. Qed.

(** A tick is counted for every inbox event as well as for every poll: six quick
    events while chunk 0 is on its way give it up, and its text is lost. *)
Definition row (seq : Z) (text : string) : UnionEntry := chunk_row "stream_chunk" seq [text].
Example burst_skips_chunk :
  (stream_run 0 [(0, [row 1 "b"]); (1, [row 2 "c"]); (2, [row 3 "d"]); (3, [row 4 "e"]); (4, [row 5 "f"]); (5, [row 6 "g"]);
                 (6, [row 0 "a"]); (7, [chunk_row "stream_end" 7 []])] initialState).1.1
  = JStr <$> ["b"; "c"; "d"; "e"; "f"; "g"].
Proof. vm_compute. reflexivity. Qed.
(** An error without a text does not end the stream. *)
Example empty_error_swallowed :
  (stream_run 0 [(0, [MkUnion "e" "error" (json_stringify (JObj [("error", JStr ""); ("retriable", JBool false)])) "t"])] initialState)
  = ([], [("e", "t")], Streaming).
Proof. vm_compute. reflexivity. Qed.
(** A copy of an emitted chunk is buffered again and holds the stream open. *)
Example replay_holds_stream :
  (stream_run 0 [(0, [row 0 "a"]); (1, [row 0 "a"; chunk_row "stream_end" 1 []]); (2, []); (3, [])] initialState)
  = ([JStr "a"], [("row0", "token0"); ("row1", "token1")], Streaming).
Proof. vm_compute. reflexivity. Qed.
(** Of two end markers claimed in one tick only the first is acknowledged. *)
Example second_end_left_claimed :
  (stream_run 0 [(0, [chunk_row "stream_end" 0 []; MkUnion "extra" "stream_end" (ue_payload (chunk_row "stream_end" 1 [])) "t"])] initialState)
  = ([], [("row0", "token0")], Completed).
Proof. vm_compute. reflexivity. Qed.
