(* ===== verification/Spool.v ===== *)
(** * The work spool between hosts (packages/sync/src/ws-transport.ts:860-1347)

    How durable work reaches the host it is meant for: the push of a freshly
    written row, the drain of a connection, the receipt of a transfer and of its
    acknowledgement, and the periodic sweep.  A handler runs to its end without
    interleaving, on the table of its own host; what it sends is the list
    [sp_out].  Whether the socket accepts the k-th frame, the k-th
    [randomUUID()] and the clock are arguments.  Frames are kept with their
    content (their encoding is in Frames).  Logs and the wake-up event of the
    local consumer are left out. *)
From S2P Require Import Prelude Sql Json DurableWork RelayRouter.
Local Open Scope bound_scope.
Local Open Scope Z_scope.

(** ** Frames *)
Record SpoolEntry := MkSpool {
  se_id : string; se_target_site_id : string; se_source_site : option string; se_kind : string;
  se_payload : option json;   (* [None]: undefined *)
  se_idempotency_key : string; se_ref_id : option string; se_stream_id : option string;
  se_expires_at : option Z; se_received_at : option Z; se_trace_context : option string; se_token : string }.
Inductive spool_frame :=
| SpoolTransfer (entries : list SpoolEntry)
| SpoolAck (entries : list (string * string)).

Record spool := MkState {
  sp_db : dw_table; sp_uuids : nat; sp_tries : nat; sp_out : list (string * spool_frame) }.
Definition with_table (t : dw_table) (s : spool) : spool := MkState t (sp_uuids s) (sp_tries s) (sp_out s).
Inductive drain_reason := Reconnect | Sweep.
Definition DEAD_SOCKET_REDRIVE_WINDOW_MS : Z := 15 * 60 * 1000.
Definition SPOOL_BATCH : nat := 100.

Section host.
Variables (siteId : string) (isHub : bool).
(** [peerConnections] in insertion order, and the hosts table. *)
Variables (peers : list string) (hosts : list ClusterHost).
Variables (now : Z) (uuid : nat → string) (accepts : nat → bool).

Definition resolveSpoolNextHop (targetSiteId : string) : option string :=
  if isHub then if existsb (seqb targetSiteId) peers then Some targetSiteId else None
  else List.find (λ p, negb (seqb p siteId)) peers.
Definition send_frame (peer : string) (f : spool_frame) (s : spool) : spool * bool :=
  let ok := accepts (sp_tries s) in
  (MkState (sp_db s) (sp_uuids s) (S (sp_tries s)) (if ok then sp_out s ++ [(peer, f)] else sp_out s), ok).
Definition spool_entry (r : DurableWorkRow) : result SpoolEntry :=
  match json_parse (dw_payload r) with
  | None => Throw "JSON Parse error"
  | Some v =>
      Ok (MkSpool (dw_id r) (dw_target_site_id r) (dw_source_site r) (dw_kind r) (Some v) (dw_idempotency_key r)
            (dw_ref_id r) (dw_stream_id r) (dw_expires_at r) (dw_received_at r) (dw_trace_context r)
            (default "" (dw_claim_token r)))
  end.
Fixpoint spool_entries (rows : list DurableWorkRow) : result (list SpoolEntry) :=
  match rows with
  | [] => Ok []
  | r :: rows' => let! e := spool_entry r in let! es := spool_entries rows' in Ok (e :: es)
  end.
Definition sendSpoolTransfer (peerSiteId : string) (rows : list DurableWorkRow) (s : spool) : spool * result bool :=
  if existsb (seqb peerSiteId) peers then
    match spool_entries rows with
    | Throw e => (s, Throw e)
    | Ok es => let '(s', ok) := send_frame peerSiteId (SpoolTransfer es) s in (s', Ok ok)
    end
  else (s, Ok false).
Definition begin_transfer (i : string) (s : spool) : spool * option string :=
  let '(t, token) := beginDurableWorkTransfer (uuid (sp_uuids s)) now i (sp_db s) in
  (MkState t (S (sp_uuids s)) (sp_tries s) (sp_out s), token).
Definition begun_row (token : string) (r : DurableWorkRow) : DurableWorkRow :=
  set_claim Transferring (Some token) (dw_claimed_at r) r.
Definition rollback (i token : string) (s : spool) : spool :=
  with_table (rollbackUnsentDurableWorkTransfer i token (sp_db s)).1 s.

Definition sendDurableWorkToPeer (targetSiteId i : string) (s : spool) : spool * result unit :=
  if seqb targetSiteId LOCAL_WORK_TARGET then (s, Ok ())
  else
    match resolveSpoolNextHop targetSiteId with
    | None => (s, Ok ())
    | Some nextHop =>
        if advertises hosts nextHop then
          match sql_select (λ r, has_id i r && (in_state Pending r && targets targetSiteId r)) (sp_db s) with
          | [] => (s, Ok ())
          | row :: _ =>
              let '(s1, token) := begin_transfer (dw_id row) s in
              match token with
              | Some tok =>
                  if nonempty tok then
                    match sendSpoolTransfer nextHop [begun_row tok row] s1 with
                    | (s2, Ok true) => (s2, Ok ())
                    | (s2, Ok false) => (rollback (dw_id row) tok s2, Ok ())
                    | (s2, Throw e) => (s2, Throw e)
                    end
                  else (s1, Ok ())
              | None => (s1, Ok ())
              end
          end
        else (s, Ok ())
    end.
Definition durableWorkWrittenListener (ev : written_event) (s : spool) : spool * result unit :=
  if seqb (ev_target ev) siteId || seqb (ev_target ev) LOCAL_WORK_TARGET then (s, Ok ())
  else sendDurableWorkToPeer (ev_target ev) (ev_id ev) s.
Fixpoint run_listeners (evs : list written_event) (s : spool) : spool * result unit :=
  match evs with
  | [] => (s, Ok ())
  | ev :: evs' =>
      match durableWorkWrittenListener ev s with
      | (s', Ok _) => run_listeners evs' s'
      | (s', Throw e) => (s', Throw e)
      end
  end.
(** [insertDurableWork] with the listeners of its event. *)
Definition produce (w : NewDurableWork) (s : spool) : spool * result unit :=
  match insertDurableWork true false now w (sp_db s) with
  | Throw e => (s, Throw e)
  | Ok (t, _, evs) => run_listeners evs (with_table t s)
  end.

(** ** The drain *)
Fixpoint begin_all (rows : list DurableWorkRow) (s : spool) : spool * list DurableWorkRow :=
  match rows with
  | [] => (s, [])
  | row :: rows' =>
      let '(s1, token) := begin_transfer (dw_id row) s in
      let '(s2, begun) := begin_all rows' s1 in
      (s2, match token with
           | Some tok => if nonempty tok then begun_row tok row :: begun else begun
           | None => begun
           end)
  end.
Definition rollback_batch (begun batch : list DurableWorkRow) (s : spool) : spool :=
  foldl (λ s r, match dw_claim_token r with
                | Some tok => if existsb (λ b, seqb (dw_id b) (dw_id r)) begun && nonempty tok then rollback (dw_id r) tok s else s
                | None => s
                end) s batch.
Fixpoint send_batches (fuel : nat) (peerSiteId : string) (begun all : list DurableWorkRow) (s : spool) : spool * result unit :=
  match fuel, all with
  | S fuel', _ :: _ =>
      let batch := take SPOOL_BATCH all in
      match sendSpoolTransfer peerSiteId batch s with
      | (s', Ok true) => send_batches fuel' peerSiteId begun (drop SPOOL_BATCH all) s'
      | (s', Ok false) => (rollback_batch begun batch s', Ok ())
      | (s', Throw e) => (s', Throw e)
      end
  | _, _ => (s, Ok ())
  end.
Definition hops_to (peerSiteId : string) (r : DurableWorkRow) : bool :=
  match resolveSpoolNextHop (dw_target_site_id r) with Some p => seqb p peerSiteId | None => false end.
Definition drainDurableWorkSpool (peerSiteId : string) (reason : drain_reason) (s : spool) : spool * result unit :=
  if existsb (seqb peerSiteId) peers && advertises hosts peerSiteId then
    let s0 := match reason with
              | Reconnect => with_table (reclassifyTransferExhaustedDeadLetters peerSiteId DEAD_SOCKET_REDRIVE_WINDOW_MS now (sp_db s)).1 s
              | Sweep => s
              end in
    let transferring := List.filter (hops_to peerSiteId) (readTransferringDurableWork None (sp_db s0)) in
    let pending := List.filter (hops_to peerSiteId) (readPendingPeerTargetedDurableWork siteId None (sp_db s0)) in
    let '(s1, begun) := begin_all pending s0 in
    let all := transferring ++ begun in
    send_batches (length all) peerSiteId begun all s1
  else (s, Ok ()).
Fixpoint drain_peers (ps : list string) (s : spool) : spool * result unit :=
  match ps with
  | [] => (s, Ok ())
  | p :: ps' =>
      if seqb p siteId then drain_peers ps' s
      else match drainDurableWorkSpool p Sweep s with
           | (s', Ok _) => drain_peers ps' s'
           | (s', Throw e) => (s', Throw e)
           end
  end.
Definition sweepAndRedriveStaleDurableWork (s : spool) : spool * result unit :=
  let t1 := (deadLetterExpiredDurableWork now (sp_db s)).1 in
  let '(t2, reclaimed) := sweepStaleTransferringDurableWork DURABLE_WORK_MAX_ATTEMPTS now t1 in
  let s' := with_table t2 s in
  if (reclaimed =? 0)%nat then (s', Ok ()) else drain_peers peers s'.

(** ** Receipt *)
Definition received_work (sourceSiteId : string) (senderIsOriginator : bool) (e : SpoolEntry) : NewDurableWork :=
  MkNewWork (se_id e) (se_target_site_id e) (se_kind e)
    (match se_payload e with Some v => json_stringify v | None => "" end) (se_idempotency_key e) (se_expires_at e) (se_ref_id e)
    (if senderIsOriginator && negb (truthy (se_source_site e)) then Some sourceSiteId else se_source_site e)
    (se_received_at e) (se_stream_id e) (se_trace_context e).
(** Malformed entries are skipped; any other failure escapes. *)
Fixpoint receive_entries (sourceSiteId : string) (senderIsOriginator : bool) (es : list SpoolEntry) (acked : list (string * string))
    (s : spool) : spool * result (list (string * string)) :=
  match es with
  | [] => (s, Ok acked)
  | e :: es' =>
      match insertDurableWork true false now (received_work sourceSiteId senderIsOriginator e) (sp_db s) with
      | Throw _ => receive_entries sourceSiteId senderIsOriginator es' acked s
      | Ok (t, _, evs) =>
          match run_listeners evs (with_table t s) with
          | (s', Ok _) => receive_entries sourceSiteId senderIsOriginator es' (acked ++ [(se_id e, se_token e)]) s'
          | (s', Throw err) => (s', Throw err)
          end
      end
  end.
Definition sendSpoolTransferAck (peerSiteId : string) (entries : list (string * string)) (s : spool) : spool :=
  if existsb (seqb peerSiteId) peers && (0 <? length entries)%nat
  then (send_frame peerSiteId (SpoolAck entries) s).1 else s.
Definition handleSpoolTransfer (sourceSiteId : string) (entries : list SpoolEntry) (senderIsOriginator : bool) (s : spool)
  : spool * result unit :=
  if (length entries =? 0)%nat then (s, Ok ())
  else match receive_entries sourceSiteId senderIsOriginator entries [] s with
       | (s', Ok acked) => (sendSpoolTransferAck sourceSiteId acked s', Ok ())
       | (s', Throw e) => (s', Throw e)
       end.
Definition retire (s : spool) (e : string * string) : spool :=
  if nonempty e.2 then with_table (acknowledgeDurableWorkTransfer e.1 e.2 (sp_db s)).1 s else s.
Definition handleSpoolTransferAck (entries : list (string * string)) (s : spool) : spool := foldl retire s entries.
End host.

(** ** The cluster
    One table per host, and every frame ever accepted by a socket: a frame may
    be delivered never, once or often, and in any order. *)
Record host_env := MkEnv {
  en_peers : list string; en_hosts : list ClusterHost; en_now : Z; en_uuid : nat → string; en_accepts : nat → bool }.
Inductive action :=
| AProduce (h : string) (e : host_env) (w : NewDurableWork)
| ADrain (h : string) (e : host_env) (peer : string) (reason : drain_reason)
| ASweep (h : string) (e : host_env)
| ADeliver (k : nat) (h : string) (e : host_env)   (* the k-th frame sent, if it is for h *)
| ALocal (h : string) (op : dw_op).
Record cluster := MkCluster { cl_db : gmap string dw_table; cl_net : list (string * string * spool_frame) }.
Definition table (h : string) (c : cluster) : dw_table := default [] (cl_db c !! h).
Definition run_handler (h : string) (f : spool → spool) (c : cluster) : cluster :=
  let s := f (MkState (table h c) 0 0 []) in
  MkCluster (<[h := sp_db s]> (cl_db c)) (cl_net c ++ ((λ o, (h, o.1, o.2)) <$> sp_out s)).

Section cluster.
Variable hub : string.
Definition is_hub (h : string) : bool := seqb h hub.
Definition act (a : action) (c : cluster) : cluster :=
  match a with
  | AProduce h e w =>
      run_handler h (λ s, (produce h (is_hub h) (en_peers e) (en_hosts e) (en_now e) (en_uuid e) (en_accepts e) w s).1) c
  | ADrain h e peer reason =>
      run_handler h (λ s, (drainDurableWorkSpool h (is_hub h) (en_peers e) (en_hosts e) (en_now e) (en_uuid e) (en_accepts e)
                             peer reason s).1) c
  | ASweep h e =>
      run_handler h (λ s, (sweepAndRedriveStaleDurableWork h (is_hub h) (en_peers e) (en_hosts e) (en_now e) (en_uuid e)
                             (en_accepts e) s).1) c
  | ADeliver k h e =>
      match cl_net c !! k with
      | Some (from, to, f) =>
          if seqb to h then
            run_handler h
              match f with
              | SpoolTransfer es => λ s, (handleSpoolTransfer h (is_hub h) (en_peers e) (en_hosts e) (en_now e) (en_uuid e)
                                            (en_accepts e) from es (is_hub h) s).1
              | SpoolAck l => handleSpoolTransferAck l
              end c
          else c
      | None => c
      end
  | ALocal h op => run_handler h (λ s, with_table (dw_exec op (sp_db s)) s) c
  end.
Definition run (acts : list action) (c : cluster) : cluster := foldl (λ c a, act a c) c acts.

(** A work's id names its fence and the fence its destination; a spoke connects
    to the hub alone; and the operations that discard rows on purpose (the
    retention sweeps and the operator's purge) are not among the actions. *)
Variables (names : string → string * string) (home : string * string → string).
Definition named (w : NewDurableWork) : Prop :=
  names (nw_id w) = (nw_kind w, nw_idempotency_key w) ∧ home (nw_kind w, nw_idempotency_key w) = nw_target_site_id w.
Definition env_ok (h : string) (e : host_env) : Prop := h = hub ∨ ∀ p, p ∈ en_peers e → p = hub ∨ p = h.
Definition local_op (op : dw_op) : Prop :=
  match op with
  | OpInsert _ _ _ w => named w
  | OpBeginTransfer _ _ _ | OpAckTransfer _ _ | OpPruneConsumed _ | OpPruneDeadLetters _ | OpPurge _ _ => False
  | _ => True
  end.
Definition allowed (a : action) : Prop :=
  match a with
  | AProduce h e w => env_ok h e ∧ named w
  | ADrain h e _ _ | ASweep h e | ADeliver _ h e => env_ok h e
  | ALocal _ op => local_op op
  end.

(** ** Well-formed tables and frames *)
Definition held (f : string * string) (t : dw_table) : Prop := ∃ r, r ∈ t ∧ fence r = f.
Definition row_ok (h : string) (r : DurableWorkRow) : Prop :=
  names (dw_id r) = fence r ∧ home (fence r) = dw_target_site_id r ∧
  (dw_claim_state r = Transferring → dw_target_site_id r ≠ h).
Definition table_ok (h : string) (t : dw_table) : Prop := dw_wf t ∧ ∀ r, r ∈ t → row_ok h r.
Definition entry_ok (from to : string) (e : SpoolEntry) : Prop :=
  names (se_id e) = (se_kind e, se_idempotency_key e) ∧ home (se_kind e, se_idempotency_key e) = se_target_site_id e ∧
  se_target_site_id e ≠ from ∧ from ≠ to ∧ (if is_hub from then to = se_target_site_id e else to = hub).
Definition ack_ok (from to : string) (a : string * string) : Prop :=
  from ≠ to ∧ home (names a.1) ≠ to ∧ (from = hub ∨ from = home (names a.1)).
Definition out_ok (h : string) (t : dw_table) (o : string * spool_frame) : Prop :=
  match o.2 with
  | SpoolTransfer es => Forall (entry_ok h o.1) es
  | SpoolAck l => Forall (λ a, ack_ok h o.1 a ∧ held (names a.1) t) l
  end.

Lemma held_row r t : r ∈ t → held (fence r) t.
Proof. by exists r. Qed.
Lemma table_ok_nil h : table_ok h [].
Proof. split; [apply dw_wf_nil|]; intros r Hr; by apply elem_of_nil in Hr. Qed.

(** What a handler other than the receipt of an acknowledgement does: it keeps
    the table well formed, forgets no work, and sends well-formed frames. *)
Definition effect (h : string) (s s' : spool) : Prop :=
  table_ok h (sp_db s) →
  table_ok h (sp_db s') ∧ (∀ f, held f (sp_db s) → held f (sp_db s')) ∧
  ∃ new, sp_out s' = sp_out s ++ new ∧ Forall (out_ok h (sp_db s')) new.
Lemma effect_refl h s : effect h s s.
Proof. intros Ht; split_and!; [done|done|]; exists []; by rewrite app_nil_r. Qed.
Lemma out_ok_mono h t t' o : (∀ f, held f t → held f t') → out_ok h t o → out_ok h t' o.
Proof.
  unfold out_ok; intros Hm; destruct (o.2); [done|]; intros Hl; eapply Forall_impl; [exact Hl|]; intros a [? ?]; split; [done|auto].
Qed.
Lemma effect_trans h s1 s2 s3 : effect h s1 s2 → effect h s2 s3 → effect h s1 s3.
Proof.
  intros H1 H2 Ht; destruct (H1 Ht) as (Ht2 & Hm1 & new1 & Ho1 & Hf1); destruct (H2 Ht2) as (Ht3 & Hm2 & new2 & Ho2 & Hf2).
  split_and!; [done|auto|]; exists (new1 ++ new2); rewrite Ho2, Ho1, <- app_assoc; split; [done|].
  apply Forall_app; split; [|done]; eapply Forall_impl; [done|]; intros o; by apply out_ok_mono.
Qed.
(** A handler that only changes the table. *)
Lemma effect_table h s t uu tt : 
  (table_ok h (sp_db s) → table_ok h t ∧ ∀ f, held f (sp_db s) → held f t) → effect h s (MkState t uu tt (sp_out s)).
Proof. intros H Ht; destruct (H Ht) as [Ht' Hm]; split_and!; [done|done|]; exists []; simpl; by rewrite app_nil_r. Qed.

(** ** Updates *)
Definition arrives (f : DurableWorkRow → DurableWorkRow) : Prop := ∀ r, dw_claim_state (f r) ≠ Transferring.
Definition no_new_transfer (t t' : dw_table) : Prop := ∀ r, r ∈ t' → dw_claim_state r = Transferring → r ∈ t.
Lemma no_new_trans t1 t2 t3 : no_new_transfer t1 t2 → no_new_transfer t2 t3 → no_new_transfer t1 t3.
Proof. intros H1 H2 r Hr Hs; apply H1; [|done]; by apply H2. Qed.
Lemma update_no_new p f t : arrives f → no_new_transfer t (sql_update p f t).
Proof.
  intros Hf r Hr Hs; apply elem_of_update in Hr as (r0 & Hr0 & ->); destruct (p r0); [by destruct (Hf r0)|done].
Qed.
Lemma claim_each_no_new u n rows t : no_new_transfer t (claim_each u n rows t).1.
Proof.
  revert u t; induction rows as [|row rows IH]; intros u t; [by intros r|]; simpl.
  specialize (IH (λ n, u (S n)) (claim_row (u 0%nat) n (dw_id row) t)).
  destruct (claim_each _ n rows _) as [t' c]; simpl in *; eapply no_new_trans; [|done]; by apply update_no_new.
Qed.
Lemma claim_tokens_no_new u n rows t m : no_new_transfer t (claim_tokens u n rows t m).1.
Proof.
  revert u t m; induction rows as [|row rows IH]; intros u t m; [by intros r|]; simpl.
  eapply no_new_trans; [|apply IH]; by apply update_no_new.
Qed.
Lemma consume_all_no_new n ids m t t' : consume_all n ids m t = Some t' → no_new_transfer t t'.
Proof.
  revert t; induction ids as [|i ids IH]; intros t; cbn [consume_all]; [by intros [= ->] r|].
  destruct (m !! i) as [tok|]; [|done]; destruct (nonempty tok); [|done].
  destruct (acknowledgeDurableWork n i tok t) as [t1 [|]] eqn:E; [|done]; intros Hc%IH.
  eapply no_new_trans; [|done]; unfold acknowledgeDurableWork, run_update in E; injection E as <- _; by apply update_no_new.
Qed.
Lemma exec_no_new op t : updates_only op = true → (∀ tok n i, op ≠ OpBeginTransfer tok n i) → no_new_transfer t (dw_exec op t).
Proof.
  intros Hop Hb; destruct op; try discriminate Hop; clear Hop; cbn [dw_exec]; try (by apply update_no_new).
  - unfold claimLocalDurableWork; destruct (head _); [by apply update_no_new|by intros r].
  - unfold claimDurableWorkByIds; destruct (_ =? 0)%nat; [by intros r|apply claim_each_no_new].
  - unfold claimAndConsumeDurableWorkByIds; destruct (_ =? 0)%nat; [by intros r|].
    destruct (0 <? _)%nat; [pose proof (claim_tokens_no_new uuid now (sql_select (λ r, targets target r && in_state Pending r &&
      id_in (List.filter (λ i, negb (bool_decide (is_Some (preClaimed !! i)))) ids) r) t) t preClaimed) as Hc;
      destruct (claim_tokens _ _ _ t _) as [t1 m]|].
    + destruct (consume_all _ _ m t1) eqn:E; [|by intros r]; apply consume_all_no_new in E; by eapply no_new_trans.
    + destruct (consume_all _ _ _ t) eqn:E; [|by intros r]; by apply consume_all_no_new in E.
  - by destruct (Hb token now i).
  - rewrite sweep_eq; cbv zeta; eapply no_new_trans; by apply update_no_new.
  - unfold redriveTransferringDurableWork, deadLetterDurableWorkRows; simpl; destruct (_ =? 1)%nat; simpl;
      [by apply update_no_new|]; eapply no_new_trans; by apply update_no_new.
Qed.

Lemma upds_ok h t t' : rtc upd t t' → no_new_transfer t t' ∨ (∀ r, r ∈ t' → dw_claim_state r = Transferring → dw_target_site_id r ≠ h) →
  table_ok h t → table_ok h t' ∧ ∀ f, held f t → held f t'.
Proof.
  intros Hu Hn [Hwf Hrows]; pose proof (upds_wf _ _ Hu Hwf) as Hwf'; destruct Hwf as (Hk & _ & _); pose proof Hwf' as (Hk' & _ & _).
  split.
  - split; [done|]; intros r' Hr'; pose proof (upds_row (dw_id r') _ _ Hu) as Hrow.
    rewrite (row_at_elem _ _ _ r' Hk' Hr' eq_refl) in Hrow.
    destruct (row_at dw_id (dw_id r') t) as [r|] eqn:Er; [|done]; apply row_at_Some in Er as [Hr _].
    destruct Hrow as (r'' & [= <-] & He); apply edges_same_work in He as (Hid & Htg & Hkd & _ & Hky & _).
    destruct (Hrows r Hr) as (H1 & H2 & H3); unfold row_ok, fence in *; rewrite Hid, Htg, Hkd, Hky; split_and!; [done..|].
    intros Hs; destruct Hn as [Hn|Hn]; [|by rewrite <- Htg; apply Hn].
    specialize (Hn r' Hr' Hs); rewrite <- Htg; by apply (Hrows r').
  - intros f (r & Hr & <-); pose proof (upds_row (dw_id r) _ _ Hu) as Hrow.
    rewrite (row_at_elem _ _ _ r Hk Hr eq_refl) in Hrow; destruct Hrow as (r' & Hr' & He).
    apply row_at_Some in Hr' as [Hr' _]; apply edges_same_work in He as (_ & _ & Hkd & _ & Hky & _).
    exists r'; split; [done|]; unfold fence; congruence.
Qed.

(** An insertion makes the work held, whether the row is new or the fence had it. *)
Lemma insert_ok h bus tx n w t t' b evs : named w → insertDurableWork bus tx n w t = Ok (t', b, evs) → table_ok h t →
  table_ok h t' ∧ (∀ f, held f t → held f t') ∧ held (names (nw_id w)) t' ∧
  ∀ ev, ev ∈ evs → ev_id ev = nw_id w ∧ ev_target ev = nw_target_site_id w.
Proof.
  intros [Hn Hh] Hi [Hwf Hrows]; pose proof (insert_shape _ _ _ _ _ _ _ _ Hi) as Hshape; apply shape_wf in Hshape; [|done].
  unfold insertDurableWork in Hi; destruct (validateDurableWork w) as [[]|]; [|done]; cbn [result_bind] in Hi.
  unfold insert_or_ignore in Hi; destruct (existsb (λ old, dw_clash old (new_row n w)) t) eqn:Hc; injection Hi as <- <- <-.
  - split_and!; [done|done| |by intros ev ?%elem_of_nil].
    apply existsb_exists in Hc as (old & Hin%list_elem_of_In & Hc); exists old; split; [done|]; rewrite Hn.
    unfold dw_clash in Hc; simpl in Hc; apply orb_true_iff in Hc as [Hid%seqb_true|[Hk%seqb_true Hy%seqb_true]%andb_true_iff].
    + destruct (Hrows old Hin) as [Hold _]; rewrite <- Hold, Hid; done.
    + unfold fence; congruence.
  - split_and!.
    + split; [done|]; intros r [Hr| ->%list_elem_of_singleton]%elem_of_app; [by apply Hrows|]; by split_and!.
    + intros f (r & Hr & Hf); exists r; split; [|done]; apply elem_of_app; by left.
    + exists (new_row n w); split; [apply elem_of_app; right; by left|]; by rewrite Hn.
    + intros ev Hev; simpl in Hev; destruct (negb tx && bus); [|by apply elem_of_nil in Hev].
      by apply list_elem_of_singleton in Hev as ->.
Qed.

(** ** The handlers *)
Section handlers.
Variables (h : string) (peers : list string) (hosts : list ClusterHost) (n : Z) (uuid : nat → string) (accepts : nat → bool).
Context (Henv : h = hub ∨ ∀ p, p ∈ peers → p = hub ∨ p = h).
Notation hop := (resolveSpoolNextHop h (is_hub h) peers).

Lemma hop_spec T p : hop T = Some p → T ≠ h → h ≠ p ∧ (if is_hub h then p = T else p = hub).
Proof using Henv.
  unfold resolveSpoolNextHop, is_hub; destruct (seqb h hub) eqn:Hh.
  - destruct (existsb (seqb T) peers); [|done]; by intros [= <-] ?.
  - intros [Hin Hne]%find_elem HT; apply negb_true_iff, seqb_false in Hne; split; [done|].
    apply seqb_false in Hh; destruct Henv as [?|Hp]; [done|]; by destruct (Hp p Hin).
Qed.
(** The rows of a transfer to [p]. *)
Definition sendable (p : string) (r : DurableWorkRow) : Prop :=
  names (dw_id r) = fence r ∧ home (fence r) = dw_target_site_id r ∧ dw_target_site_id r ≠ h ∧ hop (dw_target_site_id r) = Some p.
Lemma entries_ok p rows es : Forall (sendable p) rows → spool_entries rows = Ok es → Forall (entry_ok h p) es.
Proof using Henv.
  intros Hr; revert es; induction Hr as [|r rows (Hn & Hh & Hne & Hp) _ IH]; intros es; simpl; [by intros [= <-]|].
  unfold spool_entry; destruct (json_parse (dw_payload r)); [|done]; cbn [result_bind].
  destruct (spool_entries rows) as [es'|]; [|done]; cbn [result_bind]; intros [= <-]; constructor; [|by apply IH].
  destruct (hop_spec _ _ Hp Hne) as [Hhp Hto]; unfold entry_ok; simpl; unfold fence in *; by split_and!.
Qed.
Lemma send_effect p rows s s' r : Forall (sendable p) rows → sendSpoolTransfer peers accepts p rows s = (s', r) → effect h s s'.
Proof using Henv.
  intros Hr; unfold sendSpoolTransfer; destruct (existsb (seqb p) peers); [|intros [= <- _]; apply effect_refl].
  destruct (spool_entries rows) as [es|] eqn:Hes; [|intros [= <- _]; apply effect_refl].
  unfold send_frame; intros [= <- _] Ht; split_and!; [done|done|].
  destruct (accepts (sp_tries s)); [|exists []; by rewrite app_nil_r].
  exists [(p, SpoolTransfer es)]; split; [done|]; constructor; [|done]; by eapply entries_ok.
Qed.
Lemma send_table p rows s s' r : sendSpoolTransfer peers accepts p rows s = (s', r) → sp_db s' = sp_db s.
Proof.
  unfold sendSpoolTransfer, send_frame; destruct (existsb (seqb p) peers); [|by intros [= <- _]].
  by destruct (spool_entries rows); intros [= <- _].
Qed.
Lemma begin_effect i s s' tok : begin_transfer n uuid i s = (s', tok) →
  home (names i) ≠ h → effect h s s'.
Proof using.
  intros Hb Hi; unfold begin_transfer, beginDurableWorkTransfer, run_update in Hb; injection Hb as <- _.
  apply effect_table; intros Hok; apply upds_ok; [|right|done].
  - apply (exec_upds (OpBeginTransfer (uuid (sp_uuids s)) n i)); done.
  - intros r Hr Hs; apply elem_of_update in Hr as (r0 & Hr0 & ->).
    destruct (has_id i r0 && in_state Pending r0) eqn:E; [|by apply Hok].
    apply andb_true_iff in E as [Hid%has_id_true _]; simpl.
    destruct Hok as [_ Hrows]; destruct (Hrows r0 Hr0) as (H1 & H2 & _); congruence.
Qed.
Lemma rollback_effect i tok s : effect h s (rollback i tok s).
Proof using.
  apply effect_table; intros Hok; apply upds_ok; [|left|done].
  - apply (exec_upds (OpRollbackUnsent i tok)); done.
  - apply (exec_no_new (OpRollbackUnsent i tok)); done.
Qed.

Lemma push_effect T i s s' r : T ≠ h → sendDurableWorkToPeer h (is_hub h) peers hosts n uuid accepts T i s = (s', r) → effect h s s'.
Proof using Henv.
  intros HT; unfold sendDurableWorkToPeer; destruct (seqb T LOCAL_WORK_TARGET); [intros [= <- _]; apply effect_refl|].
  destruct (hop T) as [p|] eqn:Hp; [|intros [= <- _]; apply effect_refl].
  destruct (advertises hosts p); [|intros [= <- _]; apply effect_refl].
  destruct (sql_select _ (sp_db s)) as [|row rows] eqn:Hsel; [intros [= <- _]; apply effect_refl|].
  assert (row ∈ sql_select (λ r, has_id i r && (in_state Pending r && targets T r)) (sp_db s)) as Hrow by (rewrite Hsel; left).
  apply elem_of_select in Hrow as [Hrow Hq]; apply andb_true_iff in Hq as [_ [_ Ht%seqb_true]%andb_true_iff].
  destruct (begin_transfer n uuid (dw_id row) s) as [s1 tok] eqn:Hb; intros Hres Hok.
  assert (effect h s s1) as He1.
  { eapply begin_effect; [done|]; destruct Hok as [_ Hrows]; destruct (Hrows row Hrow) as (H1 & H2 & _); congruence. }
  assert (sendable p (begun_row (default "" tok) row)) as Hsend.
  { destruct Hok as [_ Hrows]; destruct (Hrows row Hrow) as (H1 & H2 & _).
    split_and!; [exact H1|exact H2|simpl; congruence|simpl; congruence]. }
  revert Hok; change (effect h s s'); destruct tok as [tok|]; [|injection Hres as <- _; done].
  destruct (nonempty tok); [|injection Hres as <- _; done].
  destruct (sendSpoolTransfer peers accepts p [begun_row tok row] s1) as [s2 r2] eqn:Hs2.
  assert (effect h s s2) as He2 by (eapply effect_trans; [done|]; eapply send_effect; [|done]; by constructor).
  destruct r2 as [[|]|]; injection Hres as <- _; try done.
  eapply effect_trans; [done|apply rollback_effect].
Qed.
Lemma listeners_effect evs s s' r :
  run_listeners h (is_hub h) peers hosts n uuid accepts evs s = (s', r) → effect h s s'.
Proof using Henv.
  revert s; induction evs as [|ev evs IH]; intros s; simpl; [intros [= <- _]; apply effect_refl|].
  unfold durableWorkWrittenListener; destruct (seqb (ev_target ev) h) eqn:E; simpl; [apply IH|].
  destruct (seqb (ev_target ev) LOCAL_WORK_TARGET); [apply IH|]; apply seqb_false in E.
  destruct (sendDurableWorkToPeer _ _ _ _ _ _ _ _ _ s) as [s1 [[]|]] eqn:Hs; apply push_effect in Hs; try done.
  - intros H%IH; by eapply effect_trans.
  - by intros [= <- _].
Qed.
Lemma produce_effect w s s' r : named w → produce h (is_hub h) peers hosts n uuid accepts w s = (s', r) → effect h s s'.
Proof using Henv.
  unfold produce; intros Hw; destruct (insertDurableWork _ _ _ _ _) as [[[t b] evs]|] eqn:Hi; [|intros [= <- _]; apply effect_refl].
  intros H%listeners_effect; eapply effect_trans; [|done]; apply effect_table; intros Hok.
  by destruct (insert_ok _ _ _ _ _ _ _ _ _ Hw Hi Hok) as (? & ? & _).
Qed.
Lemma begin_all_effect rows s s' begun : Forall (λ r, home (names (dw_id r)) ≠ h) rows →
  begin_all n uuid rows s = (s', begun) → effect h s s' ∧ ∀ b, b ∈ begun → ∃ r tok, r ∈ rows ∧ b = begun_row tok r.
Proof using.
  intros Hr; revert s s' begun; induction Hr as [|r rows Hr _ IH]; intros s s' begun; cbn [begin_all].
  { intros [= <- <-]; split; [apply effect_refl|]; by intros b ?%elem_of_nil. }
  destruct (begin_transfer n uuid (dw_id r) s) as [s1 tok] eqn:Hb; apply begin_effect in Hb; [|done].
  destruct (begin_all n uuid rows s1) as [s2 bs] eqn:Hbs; apply IH in Hbs as [He Hin]; intros [= <- <-].
  split; [by eapply effect_trans|]; intros b Hb'.
  assert (b ∈ bs ∨ ∃ t, b = begun_row t r) as [?|[t ->]].
  { destruct tok as [t|]; [destruct (nonempty t)|]; [apply elem_of_cons in Hb' as [->|?]; eauto|auto|auto]. }
  - destruct (Hin b) as (r' & t & ? & ->); [done|]; exists r', t; split; [by right|done].
  - exists r, t; split; [by left|done].
Qed.
Lemma rollback_batch_effect begun batch s : effect h s (rollback_batch begun batch s).
Proof using.
  unfold rollback_batch; revert s; induction batch as [|r batch IH]; intros s; simpl; [apply effect_refl|].
  eapply effect_trans; [|apply IH]; destruct (dw_claim_token r); [|apply effect_refl].
  destruct (existsb _ begun && _); [apply rollback_effect|apply effect_refl].
Qed.
Lemma batches_effect fuel p begun all s s' r : Forall (sendable p) all →
  send_batches peers accepts fuel p begun all s = (s', r) → effect h s s'.
Proof using Henv.
  revert all s; induction fuel as [|fuel IH]; intros all s Hall; cbn [send_batches]; [intros [= <- _]; apply effect_refl|].
  destruct all as [|x all]; [intros [= <- _]; apply effect_refl|]; set (l := x :: all) in *; clearbody l; clear x all.
  destruct (sendSpoolTransfer peers accepts p (take SPOOL_BATCH l) s) as [s1 [[|]|]] eqn:Hs;
    apply send_effect in Hs; try (by apply Forall_take).
  - intros H%IH; [by eapply effect_trans|by apply Forall_drop].
  - intros [= <- _]; eapply effect_trans; [done|apply rollback_batch_effect].
  - by intros [= <- _].
Qed.
Lemma drain_effect p reason s s' r :
  drainDurableWorkSpool h (is_hub h) peers hosts n uuid accepts p reason s = (s', r) → effect h s s'.
Proof using Henv.
  unfold drainDurableWorkSpool; destruct (_ && _); [|intros [= <- _]; apply effect_refl].
  set (s0 := match reason with Reconnect => _ | Sweep => _ end).
  assert (effect h s s0) as He0.
  { subst s0; destruct reason; [|apply effect_refl]; apply effect_table; intros Hok; apply upds_ok; [|left|done].
    - by apply (exec_upds (OpReclassify p DEAD_SOCKET_REDRIVE_WINDOW_MS n)).
    - by apply (exec_no_new (OpReclassify p DEAD_SOCKET_REDRIVE_WINDOW_MS n)). }
  destruct (begin_all n uuid _ s0) as [s1 begun] eqn:Hb; intros Hs Hok; destruct (He0 Hok) as ([_ Hrows] & _).
  assert (∀ r, r ∈ sp_db s0 → dw_target_site_id r ≠ h → hops_to h (is_hub h) peers p r = true →
    sendable p r ∧ home (names (dw_id r)) ≠ h) as Hsend.
  { intros r0 Hr0 Hne Hhop; destruct (Hrows r0 Hr0) as (H1 & H2 & _); split; [|congruence]; split_and!; try done.
    unfold hops_to in Hhop; destruct (hop (dw_target_site_id r0)); [|done]; by apply seqb_true in Hhop as ->. }
  revert Hok; change (effect h s s'); apply begin_all_effect in Hb as [He1 Hin].
  - eapply effect_trans; [done|]; eapply effect_trans; [done|]; eapply batches_effect; [|done].
    apply Forall_app; split; apply Forall_forall.
    + intros r0 [Hr0 Hhop]%filter_In_iff; unfold readTransferringDurableWork in Hr0; simpl in Hr0.
      apply elem_of_order_by, elem_of_select in Hr0 as [Hr0 [Hst%in_state_true _]%andb_true_iff].
      apply Hsend; [done| |done]; by apply (Hrows r0).
    + intros b (r0 & tok & [Hr0 Hhop]%filter_In_iff & ->)%Hin; unfold readPendingPeerTargetedDurableWork in Hr0; simpl in Hr0.
      apply elem_of_order_by, elem_of_select in Hr0 as [Hr0 [_ [Ho%negb_true_iff _]%andb_true_iff]%andb_true_iff].
      apply seqb_false in Ho; by destruct (Hsend r0 Hr0 Ho Hhop).
  - apply Forall_forall; intros r0 [Hr0 Hhop]%filter_In_iff; unfold readPendingPeerTargetedDurableWork in Hr0; simpl in Hr0.
    apply elem_of_order_by, elem_of_select in Hr0 as [Hr0 [_ [Ho%negb_true_iff _]%andb_true_iff]%andb_true_iff].
    apply seqb_false in Ho; by destruct (Hsend r0 Hr0 Ho Hhop).
Qed.
Lemma drain_peers_effect ps s s' r :
  drain_peers h (is_hub h) peers hosts n uuid accepts ps s = (s', r) → effect h s s'.
Proof using Henv.
  revert s; induction ps as [|p ps IH]; intros s; simpl; [intros [= <- _]; apply effect_refl|].
  destruct (seqb p h); [apply IH|].
  destruct (drainDurableWorkSpool _ _ _ _ _ _ _ p Sweep s) as [s1 [[]|]] eqn:Hd; apply drain_effect in Hd.
  - intros H%IH; by eapply effect_trans.
  - by intros [= <- _].
Qed.
Lemma sweep_effect s s' r :
  sweepAndRedriveStaleDurableWork h (is_hub h) peers hosts n uuid accepts s = (s', r) → effect h s s'.
Proof using Henv.
  unfold sweepAndRedriveStaleDurableWork.
  destruct (sweepStaleTransferringDurableWork _ n _) as [t2 k] eqn:Hsw.
  assert (effect h s (with_table t2 s)) as He.
  { assert (t2 = dw_exec (OpSweepStale DURABLE_WORK_MAX_ATTEMPTS n) (dw_exec (OpDeadLetterExpired n) (sp_db s))) as ->
      by (cbn [dw_exec]; by rewrite Hsw).
    apply effect_table; intros Hok; destruct (upds_ok h (sp_db s) (dw_exec (OpDeadLetterExpired n) (sp_db s))) as [Hok1 Hm1];
      [by apply exec_upds|left; by apply exec_no_new|done|].
    destruct (upds_ok h _ (dw_exec (OpSweepStale DURABLE_WORK_MAX_ATTEMPTS n) (dw_exec (OpDeadLetterExpired n) (sp_db s)))
      (exec_upds (OpSweepStale DURABLE_WORK_MAX_ATTEMPTS n) _ eq_refl)) as [Hok2 Hm2]; [left; by apply exec_no_new|done|].
    split; [done|]; intros f Hf; by apply Hm2, Hm1. }
  destruct (k =? 0)%nat; [by intros [= <- _]|]; intros H%drain_peers_effect; by eapply effect_trans.
Qed.

Lemma received_named from originator e : entry_ok from h e → named (received_work from originator e).
Proof using. intros (H1 & H2 & _); split; simpl; [done|]; by rewrite H2. Qed.
Lemma receive_effect from originator es acked s s' r : Forall (entry_ok from h) es →
  receive_entries h (is_hub h) peers hosts n uuid accepts from originator es acked s = (s', r) →
  effect h s s' ∧ ∀ l, r = Ok l → ∃ new, l = acked ++ new ∧
    (table_ok h (sp_db s) → Forall (λ a, ack_ok h from a ∧ held (names a.1) (sp_db s')) new).
Proof using Henv.
  intros Hes; revert acked s; induction Hes as [|e es He _ IH]; intros acked s; cbn [receive_entries].
  { intros [= <- <-]; split; [apply effect_refl|]; intros l [= <-]; exists []; by rewrite app_nil_r. }
  destruct (insertDurableWork _ _ _ _ _) as [[[t b] evs]|] eqn:Hi; [|apply IH].
  destruct (run_listeners _ _ _ _ _ _ _ evs (with_table t s)) as [s1 r1] eqn:Hl; apply listeners_effect in Hl.
  pose proof (received_named from originator e He) as Hnamed.
  assert (effect h s (with_table t s)) as He0.
  { apply effect_table; intros Hok; by destruct (insert_ok _ _ _ _ _ _ _ _ _ Hnamed Hi Hok) as (? & ? & _). }
  assert (effect h s s1) as He1 by (by eapply effect_trans).
  destruct r1 as [[]|]; [|intros [= <- <-]; split; [done|by intros l]].
  intros Hrec; apply IH in Hrec as [He2 Hnew]; split; [by eapply effect_trans|].
  intros l Hr; destruct (Hnew l Hr) as (new & -> & Hnewok); exists ((se_id e, se_token e) :: new); rewrite <- app_assoc; split; [done|].
  intros Hok; destruct (He1 Hok) as (Hok1 & _); destruct (He2 Hok1) as (_ & Hm2 & _); constructor; [|by apply Hnewok].
  destruct (He0 Hok) as (Hok0 & _); destruct (Hl Hok0) as (_ & Hm1 & _).
  destruct (insert_ok _ _ _ _ _ _ _ _ _ Hnamed Hi Hok) as (_ & _ & Hheld & _); split; [|by apply Hm2, Hm1].
  destruct He as (H1 & H2 & H3 & H4 & H5); unfold ack_ok; simpl; rewrite H1, H2; split_and!; [done..|].
  destruct (is_hub from); [by right|by left].
Qed.
Lemma handle_effect from originator es s s' r : Forall (entry_ok from h) es →
  handleSpoolTransfer h (is_hub h) peers hosts n uuid accepts from es originator s = (s', r) → effect h s s'.
Proof using Henv.
  intros Hes; unfold handleSpoolTransfer; destruct (length es =? 0)%nat; [intros [= <- _]; apply effect_refl|].
  destruct (receive_entries _ _ _ _ _ _ _ from originator es [] s) as [s1 [l|]] eqn:Hrec; apply receive_effect in Hrec as [He Hl]; try done.
  2: by intros [= <- _].
  intros [= <- _] Hok; destruct (Hl l eq_refl) as (new & -> & Hnew); destruct (He Hok) as (Hok1 & Hm & out & Hout & Hgood).
  unfold sendSpoolTransferAck, send_frame; destruct (_ && _); [|by split_and!; eauto].
  simpl; split_and!; [done|done|]; destruct (accepts (sp_tries s1)); [|eauto].
  exists (out ++ [(from, SpoolAck new)]); rewrite Hout, <- app_assoc; split; [done|].
  apply Forall_app; split; [done|]; constructor; [by apply Hnew|done].
Qed.
End handlers.

(** Receiving an acknowledgement forgets at most the work it names, and only on
    a host that is not its destination. *)
Lemma retire_spec h a s : table_ok h (sp_db s) →
  table_ok h (sp_db (retire s a)) ∧ sp_out (retire s a) = sp_out s ∧
  ∀ f, held f (sp_db s) → held f (sp_db (retire s a)) ∨ (names a.1 = f ∧ home f ≠ h).
Proof.
  unfold retire; intros [Hwf Hrows]; destruct (nonempty a.2); [|by split_and!; auto].
  pose proof (dw_exec_wf_step (OpAckTransfer a.1 a.2) _ Hwf) as Hwf'; cbn [dw_exec] in Hwf'; simpl in *; split_and!; [|done|].
  - split; [done|]; intros r [Hr _]%elem_of_delete; by apply Hrows.
  - intros f (r & Hr & <-); destruct (owned_by Transferring a.1 a.2 r) eqn:Ho.
    + right; unfold owned_by in Ho; apply andb_true_iff in Ho as [Hid%has_id_true [Hs%in_state_true _]%andb_true_iff].
      destruct (Hrows r Hr) as (H1 & H2 & H3); rewrite <- Hid, H1, H2; auto.
    + left; exists r; split; [|done]; by apply elem_of_delete.
Qed.
Lemma retire_all_spec h l s : table_ok h (sp_db s) →
  let s' := handleSpoolTransferAck l s in
  table_ok h (sp_db s') ∧ sp_out s' = sp_out s ∧
  ∀ f, held f (sp_db s) → held f (sp_db s') ∨ ∃ a, a ∈ l ∧ names a.1 = f ∧ home f ≠ h.
Proof.
  unfold handleSpoolTransferAck; revert s; induction l as [|a l IH]; intros s Hok; simpl; [by split_and!; auto|].
  destruct (retire_spec h a s Hok) as (Hok1 & Ho1 & Hm1); destruct (IH _ Hok1) as (Hok2 & Ho2 & Hm2).
  split_and!; [done|congruence|]; intros f [Hf|[Hn Hh]]%Hm1; [|right; exists a; split; [left|done]].
  destruct (Hm2 f Hf) as [?|(b & Hb & ?)]; [by left|right; exists b; split; [by right|done]].
Qed.

(** ** The cluster *)
Definition frame_ok (c : cluster) (f : string * string * spool_frame) : Prop :=
  let '(from, to, fr) := f in
  match fr with
  | SpoolTransfer es => Forall (entry_ok from to) es
  | SpoolAck l => Forall (λ a, ack_ok from to a ∧ (held (names a.1) (table from c) ∨ held (names a.1) (table (home (names a.1)) c))) l
  end.
Definition cluster_ok (c : cluster) : Prop :=
  (∀ h, table_ok h (table h c)) ∧ ∀ f, f ∈ cl_net c → frame_ok c f.
Lemma table_run h f c h' :
  table h' (run_handler h f c) = if seqb h' h then sp_db (f (MkState (table h c) 0 0 [])) else table h' c.
Proof.
  unfold table, run_handler; simpl; destruct (seqb h' h) eqn:E.
  - apply seqb_true in E as ->; by rewrite lookup_insert_eq.
  - apply seqb_false in E; by rewrite lookup_insert_ne.
Qed.
Lemma effect_step h f c : cluster_ok c → (∀ s, effect h s (f s)) →
  cluster_ok (run_handler h f c) ∧ ∀ h' g, held g (table h' c) → held g (table h' (run_handler h f c)).
Proof.
  intros [Ht Hf] He; destruct (He (MkState (table h c) 0 0 []) (Ht h)) as (Hok & Hm & new & Hout & Hnew); simpl in *.
  assert (∀ h' g, held g (table h' c) → held g (table h' (run_handler h f c))) as Hmono.
  { intros h' g Hg; rewrite table_run; destruct (seqb h' h) eqn:E; [|done]; apply seqb_true in E as ->; by apply Hm. }
  split; [|done]; split.
  - intros h'; rewrite table_run; destruct (seqb h' h) eqn:E; [by apply seqb_true in E as ->|apply Ht].
  - intros fr [Hfr|Hfr]%elem_of_app.
    + apply Hf in Hfr; destruct fr as [[from to] [es|l]]; [done|]; simpl in *.
      eapply Forall_impl; [exact Hfr|]; intros a [Ha [?|?]]; split; auto.
    + rewrite Hout in Hfr; apply list_elem_of_fmap in Hfr as ([p fr'] & -> & Hin); simpl.
      rewrite Forall_forall in Hnew; specialize (Hnew _ Hin); unfold out_ok in Hnew; simpl in Hnew; destruct fr' as [es|l]; [done|].
      eapply Forall_impl; [exact Hnew|]; intros a [Ha Hh]; split; [done|]; left; by rewrite table_run, seqb_refl.
Qed.
(** The receipt of an acknowledgement: whatever is forgotten is held by the
    acknowledging host or by the destination. *)
Lemma retire_step c from h l : cluster_ok c → (from, h, SpoolAck l) ∈ cl_net c →
  cluster_ok (run_handler h (handleSpoolTransferAck l) c) ∧
  ∀ h' g, held g (table h' c) → ∃ h'', held g (table h'' (run_handler h (handleSpoolTransferAck l) c)).
Proof.
  intros [Ht Hf] Hin; destruct (retire_all_spec h l (MkState (table h c) 0 0 []) (Ht h)) as (Hok & Hout & Hm); simpl in *.
  set (c' := run_handler h (handleSpoolTransferAck l) c).
  assert (∀ h' g, h' ≠ h → held g (table h' c) → held g (table h' c')) as Hother.
  { intros h' g Hne Hg; subst c'; rewrite table_run; by rewrite (proj2 (seqb_false _ _) Hne). }
  assert (∀ g, held g (table h c) → held g (table h c') ∨ home g ≠ h ∧ (from = hub ∨ from = home g) ∧ from ≠ h ∧
    (held g (table from c') ∨ held g (table (home g) c'))) as Hlost.
  { intros g [Hg|(a & Ha & <- & Hh)]%Hm; [left; subst c'; by rewrite table_run, seqb_refl|right].
    pose proof (Hf _ Hin) as Hl; simpl in Hl; rewrite Forall_forall in Hl; destruct (Hl a Ha) as [(H1 & H2 & H3) H4].
    split_and!; [done..|]; destruct H4; [left|right]; by apply Hother. }
  split; [split|].
  - intros h'; subst c'; rewrite table_run; destruct (seqb h' h) eqn:E; [by apply seqb_true in E as ->|apply Ht].
  - intros fr Hfr; subst c'; simpl in Hfr; rewrite Hout, app_nil_r in Hfr; pose proof (Hf _ Hfr) as Hok'.
    destruct fr as [[from' to'] [es|l']]; [done|]; simpl in *; eapply Forall_impl; [exact Hok'|]; clear Hok'.
    intros a [(H1 & H2 & H3) H4]; split; [done|]; destruct (decide (home (names a.1) = h)) as [Hh|Hh].
    + destruct H4 as [H4|H4].
      * destruct (decide (from' = h)) as [->|]; [|left; by apply Hother].
        destruct (Hlost _ H4) as [?|(? & _)]; [by left|done].
      * rewrite Hh in *; destruct (Hlost _ H4) as [?|(? & _)]; [by right|done].
    + destruct H4 as [H4|H4]; [|right; by apply Hother].
      destruct (decide (from' = h)) as [->|]; [|left; by apply Hother].
      destruct (Hlost _ H4) as [?|(_ & Hfr' & Hne & [Hd|Hd])]; [by left| |by right].
      destruct H3 as [->|?]; [|done]; destruct Hfr' as [?|Hhome]; [done|]; right; by rewrite <- Hhome.
  - intros h' g Hg; destruct (decide (h' = h)) as [->|]; [|exists h'; by apply Hother].
    destruct (Hlost g Hg) as [?|(_ & _ & _ & [?|?])]; eauto.
Qed.

Lemma local_effect h op s : local_op op → effect h s (with_table (dw_exec op (sp_db s)) s).
Proof.
  intros Hop; apply effect_table; intros Hok; destruct (updates_only op) eqn:Hu.
  - apply upds_ok; [by apply exec_upds|left; apply exec_no_new; [done|by intros ? ? ? ->]|done].
  - destruct op; try done; simpl in Hop; cbn [dw_exec].
    destruct (insertDurableWork bus inTransaction now w (sp_db s)) as [[[t b] evs]|] eqn:Hi; [|done].
    by destruct (insert_ok _ _ _ _ _ _ _ _ _ Hop Hi Hok) as (? & ? & _).
Qed.
Lemma act_step a c : cluster_ok c → allowed a →
  cluster_ok (act a c) ∧ ∀ h g, held g (table h c) → ∃ h', held g (table h' (act a c)).
Proof.
  intros Hc Ha.
  assert (∀ h f, (∀ s, effect h s (f s)) → cluster_ok (run_handler h f c) ∧
    ∀ h' g, held g (table h' c) → ∃ h'', held g (table h'' (run_handler h f c))) as Heff.
  { intros h f Hf; destruct (effect_step h f c Hc Hf) as [? Hm]; split; [done|]; intros h' g Hg; exists h'; by apply Hm. }
  destruct a as [h e w|h e p reason|h e|k h e|h op]; simpl in *.
  - destruct Ha as [Henv Hw]; apply Heff; intros s; eapply produce_effect; [done|done|apply surjective_pairing].
  - apply Heff; intros s; eapply drain_effect; [done|apply surjective_pairing].
  - apply Heff; intros s; eapply sweep_effect; [done|apply surjective_pairing].
  - destruct (cl_net c !! k) as [[[from to] fr]|] eqn:Hk; [|by split; eauto].
    destruct (seqb to h) eqn:Hto; [|by split; eauto]; apply seqb_true in Hto as ->.
    apply list_elem_of_lookup_2 in Hk; destruct fr as [es|l]; [|by eapply retire_step].
    pose proof (proj2 Hc _ Hk) as Hes; apply Heff; intros s; eapply handle_effect; [done|exact Hes|apply surjective_pairing].
  - apply Heff; intros s; by apply local_effect.
Qed.
Lemma run_app acts more c : run (acts ++ more) c = run more (run acts c).
Proof. apply foldl_app. Qed.
Lemma run_step acts c : cluster_ok c → Forall allowed acts →
  cluster_ok (run acts c) ∧ ∀ h g, held g (table h c) → ∃ h', held g (table h' (run acts c)).
Proof.
  unfold run; intros Hc Hacts; revert c Hc; induction Hacts as [|a acts Ha _ IH]; intros c Hc; simpl; [by eauto|].
  destruct (act_step a c Hc Ha) as [Hc' Hm]; destruct (IH _ Hc') as [Hc2 Hm2]; split; [done|].
  intros h g (h' & Hg)%Hm; by apply Hm2 in Hg.
Qed.
Lemma empty_ok : cluster_ok (MkCluster ∅ []).
Proof. split; [intros h; unfold table; simpl; rewrite lookup_empty; apply table_ok_nil|]; intros f Hf; by apply elem_of_nil in Hf. Qed.
End cluster.

(** C4: no piece of work is ever lost between hosts.  In whatever order hosts
    produce, push, drain, sweep and consume, and however frames and
    acknowledgements are lost, repeated, delayed or reordered, work that some host
    holds is held by some host ever after, under its fence and for its
    destination, and no host holds it twice. *)
Theorem work_never_lost hub names home acts more h r :
  let before := run hub acts (MkCluster ∅ []) in
  let after := run hub (acts ++ more) (MkCluster ∅ []) in
  Forall (allowed hub names home) (acts ++ more) → r ∈ table h before →
  (∃ h' r', r' ∈ table h' after ∧ fence r' = fence r ∧ dw_target_site_id r' = dw_target_site_id r) ∧
  ∀ h', NoDup (fence <$> table h' after).
Proof.
  intros before after [Hall1 Hall2]%Forall_app Hr.
  destruct (run_step hub names home acts _ (empty_ok hub names home) Hall1) as [Hok _].
  destruct (run_step hub names home more _ Hok Hall2) as [Hok' Hm]; subst before after; rewrite run_app in *; split.
  - destruct (Hm h (fence r) (held_row _ _ Hr)) as (h' & r' & Hr' & Hf); exists h', r'; split_and!; [done|done|].
    destruct (proj1 Hok h) as [_ H1], (proj1 Hok' h') as [_ H2].
    destruct (H1 r Hr) as (_ & <- & _), (H2 r' Hr') as (_ & <- & _); by rewrite Hf.
  - intros h'; by destruct (proj1 Hok' h') as [(_ & ? & _) _].
Qed.

(** ** An example: a spoke, the hub, and the spoke the work is for *)
Definition spool_hosts : list ClusterHost := (λ s, host s "[]" 1000) <$> ["hub"; "a"; "b"].
Definition env_of (peers : list string) : host_env := MkEnv peers spool_hosts 2000 (λ _, "token") (λ _, true).
Definition work_for_b : NewDurableWork :=
  MkNewWork "w1" "b" "tool_call" "{}" "k1" None None (Some "a") None None None.
Definition first_hops : list action :=
  [AProduce "a" (env_of ["hub"]) work_for_b; ADeliver 0 "hub" (env_of ["a"; "b"])].
(** The hub has forwarded the work; then every acknowledgement arrives, and the
    first transfer a second time. *)
Definition last_hops : list action :=
  [ADeliver 1 "b" (env_of ["hub"]); ADeliver 2 "a" (env_of ["hub"]); ADeliver 3 "hub" (env_of ["a"; "b"]);
   ADeliver 0 "hub" (env_of ["a"; "b"])].
Definition name_of (i : string) : string * string := ("tool_call", "k1").
Definition home_of (f : string * string) : string := "b".
Lemma hops_allowed : Forall (allowed "hub" name_of home_of) (first_hops ++ last_hops).
Proof.
  assert (∀ s, env_ok "hub" s (env_of ["hub"])) as Hspoke by (intros s; right; intros p ->%list_elem_of_singleton; by left).
  assert (env_ok "hub" "hub" (env_of ["a"; "b"])) as Hhub by (by left).
  apply Forall_forall; intros x Hx; simpl in Hx; repeat (apply elem_of_cons in Hx as [-> |Hx]); simpl; auto; [|by apply elem_of_nil in Hx].
  by split.
Qed.
Lemma work_never_lost_witness :
  ∃ h' r', r' ∈ table h' (run "hub" (first_hops ++ last_hops) (MkCluster ∅ [])) ∧ fence r' = ("tool_call", "k1") ∧ dw_target_site_id r' = "b".
Proof.
  destruct (work_never_lost "hub" name_of home_of first_hops last_hops "hub"
    (set_claim Transferring (Some "token") (Some 2000) (new_row 2000 work_for_b)) hops_allowed) as [H _].
  - vm_compute; left.
  - exact H.
Defined.
Example delivered_once :
  (λ h, length (table h (run "hub" (first_hops ++ last_hops) (MkCluster ∅ [])))) <$> ["a"; "hub"; "b"] = [0; 1; 1]%nat.
Proof. vm_compute. reflexivity. Qed.

(** ** One hop *)
Section hop.
Variables (a b : string) (isHub_a isHub_b : bool) (peers_a peers_b : list string) (hosts_a hosts_b : list ClusterHost).
Variables (now_a now_b : Z) (uuid_a uuid_b : nat → string) (accepts : nat → bool).
Context (Ha : existsb (seqb b) peers_a = true) (Hhop : resolveSpoolNextHop a isHub_a peers_a b = Some b)
  (Hcap : advertises hosts_a b = true) (Hb : existsb (seqb a) peers_b = true)
  (Hacc : ∀ k, accepts k = true) (Htok : nonempty (uuid_a 0%nat) = true) (Hlocal : b ≠ LOCAL_WORK_TARGET).

(** What crosses the wire of a row, and the sender's table meanwhile. *)
Definition hop_entry (r : DurableWorkRow) (v : json) : SpoolEntry :=
  MkSpool (dw_id r) b (dw_source_site r) (dw_kind r) (Some v) (dw_idempotency_key r) (dw_ref_id r) (dw_stream_id r)
    (dw_expires_at r) (dw_received_at r) (dw_trace_context r) (uuid_a 0%nat).
Definition started (r : DurableWorkRow) (t : dw_table) : dw_table :=
  (beginDurableWorkTransfer (uuid_a 0%nat) now_a (dw_id r) t).1.

Lemma begin_one t r : keys_unique dw_id t → r ∈ t → dw_claim_state r = Pending →
  begin_transfer now_a uuid_a (dw_id r) (MkState t 0 0 []) = (MkState (started r t) 1 0 [], Some (uuid_a 0%nat)).
Proof.
  intros Hk Hr Hp; unfold begin_transfer, started, beginDurableWorkTransfer, run_update; simpl.
  enough (sql_count (λ x, has_id (dw_id r) x && in_state Pending x) t = 1%nat) as -> by done.
  apply Nat.eqb_eq, (changes_key dw_id); [done|]; exists r; split; [by apply row_at_elem|by apply in_state_true].
Qed.
Lemma push_one t r v : keys_unique dw_id t → r ∈ t → dw_claim_state r = Pending → dw_target_site_id r = b →
  json_parse (dw_payload r) = Some v →
  sendDurableWorkToPeer a isHub_a peers_a hosts_a now_a uuid_a accepts b (dw_id r) (MkState t 0 0 []) =
    (MkState (started r t) 1 1 [(b, SpoolTransfer [hop_entry r v])], Ok ()).
Proof using Ha Hhop Hcap Hacc Htok Hlocal.
  intros Hk Hr Hp Ht Hv; unfold sendDurableWorkToPeer; rewrite (proj2 (seqb_false _ _) Hlocal), Hhop, Hcap.
  assert (sql_select (λ x, has_id (dw_id r) x && (in_state Pending x && targets b x)) (sp_db (MkState t 0 0 [])) = [r]) as ->.
  { unfold sql_select; simpl; transitivity (List.filter (λ x, (in_state Pending x && targets b x) && seqb (dw_id x) (dw_id r)) t).
    - apply List.filter_ext; intros x; unfold has_id; by rewrite andb_comm.
    - rewrite (filter_one dw_id (λ x, in_state Pending x && targets b x)) by done.
      rewrite (proj2 (in_state_true _ _) Hp); unfold targets; by rewrite Ht, seqb_refl. }
  rewrite begin_one by done; rewrite Htok; unfold sendSpoolTransfer; rewrite Ha; simpl; unfold spool_entry; simpl; rewrite Hv; simpl.
  unfold send_frame; simpl; rewrite Hacc; unfold hop_entry; by rewrite Ht.
Qed.

Notation receive originator es tb :=
  (handleSpoolTransfer b isHub_b peers_b hosts_b now_b uuid_b accepts a es originator (MkState tb 0 0 [])).
Lemma receive_one originator r v tb : 
  nonempty (dw_id r) && nonempty b && nonempty (dw_kind r) && nonempty (dw_idempotency_key r) = true → json_wf v →
  receive originator [hop_entry r v] tb =
    (MkState (insert_or_ignore dw_clash (new_row now_b (received_work a originator (hop_entry r v))) tb).1 0 1
       [(a, SpoolAck [(dw_id r, uuid_a 0%nat)])], Ok ()).
Proof using Hb Hacc.
  rewrite !andb_true_iff; intros [[[H1 H2] H3] H4] Hv; unfold handleSpoolTransfer; cbn [length Nat.eqb receive_entries].
  unfold insertDurableWork, validateDurableWork; simpl; rewrite H1, H2, H3, H4, (json_roundtrip v Hv); simpl.
  assert (nonempty (json_stringify v) = true) as ->.
  { destruct (print_json_start v) as (c & l & Hc & _); unfold json_stringify; by rewrite Hc. }
  simpl; unfold insert_or_ignore; destruct (existsb _ tb); simpl; unfold durableWorkWrittenListener; simpl; rewrite ?seqb_refl; simpl;
    unfold sendSpoolTransferAck, send_frame; by rewrite Hb; simpl; rewrite Hacc.
Qed.

(** C15: one hop of the spool.  Pushing a pending row puts it on the wire under a
    fresh generation; the receiver stores it pending with the same identity and
    payload; receiving it again changes nothing and acknowledges again; and the
    acknowledgement removes the sender's copy and nothing else. *)
Theorem hop_delivers originator t tb r v :
  keys_unique dw_id t → r ∈ t → dw_claim_state r = Pending → dw_target_site_id r = b →
  json_parse (dw_payload r) = Some v → json_wf v →
  nonempty (dw_id r) && nonempty b && nonempty (dw_kind r) && nonempty (dw_idempotency_key r) = true →
  let row := new_row now_b (received_work a originator (hop_entry r v)) in
  existsb (λ old, dw_clash old row) tb = false →
  let acks := [(dw_id r, uuid_a 0%nat)] in
  sendDurableWorkToPeer a isHub_a peers_a hosts_a now_a uuid_a accepts b (dw_id r) (MkState t 0 0 []) =
    (MkState (started r t) 1 1 [(b, SpoolTransfer [hop_entry r v])], Ok ()) ∧
  receive originator [hop_entry r v] tb = (MkState (tb ++ [row]) 0 1 [(a, SpoolAck acks)], Ok ()) ∧
  receive originator [hop_entry r v] (tb ++ [row]) = (MkState (tb ++ [row]) 0 1 [(a, SpoolAck acks)], Ok ()) ∧
  dw_claim_state row = Pending ∧ dw_id row = dw_id r ∧ fence row = fence r ∧ json_parse (dw_payload row) = Some v ∧
  (let t' := sp_db (handleSpoolTransferAck acks (MkState (started r t) 1 1 [])) in
   row_at dw_id (dw_id r) t' = None ∧ ∀ j, j ≠ dw_id r → row_at dw_id j t' = row_at dw_id j t).
Proof using Ha Hhop Hcap Hb Hacc Htok Hlocal.
  intros Hk Hr Hp Ht Hv Hwf Hne row Hclash acks; rewrite !receive_one by done.
  unfold insert_or_ignore; fold row; rewrite Hclash.
  assert (existsb (λ old, dw_clash old row) (tb ++ [row]) = true) as ->.
  { rewrite existsb_app; simpl; unfold dw_clash; by rewrite seqb_refl, orb_true_r. }
  split_and!; try done; [by apply push_one|by apply json_roundtrip|..].
  all: unfold handleSpoolTransferAck, retire, acks; cbn [foldl fst snd]; rewrite Htok; simpl.
  all: unfold started, beginDurableWorkTransfer, run_update; simpl.
  all: try intros j Hj; rewrite row_at_delete, row_at_update; try done; try (unfold keys_unique; by rewrite update_fmap).
  - rewrite (row_at_elem _ _ _ r) by done; simpl; unfold has_id; rewrite seqb_refl, (proj2 (in_state_true _ _) Hp); simpl.
    unfold owned_by, has_id, holds_token; simpl; by rewrite !seqb_refl.
  - destruct (row_at dw_id j t) as [x|] eqn:E; simpl; [|done]; apply row_at_Some in E as [_ Hx].
    assert (has_id (dw_id r) x = false) as Hf by (unfold has_id; rewrite Hx; by apply seqb_false).
    rewrite Hf; simpl; unfold owned_by; by rewrite Hf.
Qed.
End hop.

Lemma hop_delivers_witness :
  let r := new_row 500 work_for_b in
  row_at dw_id "w1" (sp_db (handleSpoolTransferAck [("w1", "token")] (MkState (started 600 (λ _, "token") r [r]) 1 1 []))) = None.
Proof.
  destruct (hop_delivers "hub" "b" true false ["a"; "b"] ["hub"] spool_hosts spool_hosts 600 700 (λ _, "token") (λ _, "u") (λ _, true)
    eq_refl eq_refl eq_refl eq_refl (λ _, eq_refl) eq_refl ltac:(done) false [new_row 500 work_for_b] [] (new_row 500 work_for_b) (JObj [])
    ltac:(vm_compute; repeat constructor; set_solver) ltac:(left) eq_refl eq_refl eq_refl ltac:(by split; [constructor|]) eq_refl eq_refl)
    as (_ & _ & _ & _ & _ & _ & _ & H & _).
  exact H.
Defined.

(** When the socket refuses the second of three batches, the drain gives back
    that batch but not the third: its rows stay in transfer although no frame
    ever carried them. *)
Definition many_works : dw_table :=
  (λ k : nat, let i := of_chars (print_Z (Z.of_nat k)) in
     new_row (Z.of_nat k) (MkNewWork i "b" "tool_call" "{}" i None None (Some "hub") None None None)) <$> seq 0 201.
Definition refused_drain : spool :=
  (drainDurableWorkSpool "hub" true ["b"] spool_hosts 2000 (λ k, of_chars (print_Z (Z.of_nat k))) (λ k, (k =? 0)%nat) "b" Sweep
     (MkState many_works 0 0 [])).1.
Definition shipped : list string :=
  concat ((λ o, match o.2 with SpoolTransfer es => se_id <$> es | SpoolAck _ => [] end) <$> sp_out refused_drain).
Example drain_strands_later_batches :
  length shipped = 100%nat ∧
  length (sql_select (in_state Pending) (sp_db refused_drain)) = 100%nat ∧
  dw_id <$> sql_select (λ r, in_state Transferring r && negb (existsb (seqb (dw_id r)) shipped)) (sp_db refused_drain) = ["200"].
Proof. vm_compute. done. Qed.
