(* ===== verification/InferenceStream.v ===== *)
(** * A relayed inference on the host that runs it
    (packages/agent/src/relay-processor.ts: writeResponse, writeStreamChunk,
    executeInference)

    The rows a host writes while it serves a relayed inference: the chunks of
    the model's stream, collected until 200 ms have passed or 4096 bytes are
    together, empty chunks in between as signs of life, the end marker, and the
    error and trace responses.  The backend is the list of what happens while
    its stream is read: a chunk it yields, as it leaves the host (the cost is
    already stamped on the last one), or a firing of the heartbeat timer.  The
    id of the n-th row is [uuid n]; metrics, log lines and spans are left out. *)
From S2P Require Import Prelude Sql Json DurableWork RelayRouter RequestParts RelayStream.
Local Open Scope Z_scope.

(** ** The request being served *)
Record RelayInboxEntry := MkInbox {
  re_id : string; re_source_site_id : string; re_kind : string; re_ref_id : option string;
  re_idempotency_key : option string; re_stream_id : option string; re_payload : string; re_expires_at : Z;
  re_received_at : Z; re_trace_context : option string }.
(** What the host knows: itself, the [hosts] and [sync_state] tables, its role. *)
Record responder := MkResponder {
  rs_site : string; rs_hosts : list ClusterHost; rs_sync_state : list string; rs_role : option TopologyRole }.

(** What a handler throws. *)
Inductive relay_error :=
| PayloadParseError
| RelayResponseRoutingError (targetSiteId reason : string)
| OtherError (text : string).
Definition routing_message (targetSiteId reason : string) : string :=
  "relay routing failed for target " +:+ targetSiteId +:+ ": " +:+ reason.
(** [String(error)]; another error is carried as its text. *)
Definition error_text (e : relay_error) : string :=
  match e with
  | PayloadParseError => "PayloadParseError: Payload parse error (already handled)"
  | RelayResponseRoutingError target reason => "RelayResponseRoutingError: " +:+ routing_message target reason
  | OtherError text => text
  end.
Definition outcome A : Type := A + relay_error.

(** The string members of the carrier, of which [traceparent] and [tracestate]
    are read. *)
Definition parseTraceCarrier (raw : option string) : option (option string * option string) :=
  if truthy raw then
    match json_parse (default "" raw) with
    | Some (JObj fs) =>
        if existsb (λ kv, match kv.2 with JStr _ => true | _ => false end) fs
        then Some (as_string (fields_get "traceparent" fs), as_string (fields_get "tracestate" fs))
        else None
    | _ => None
    end
  else None.

Definition response_params (h : responder) (e : RelayInboxEntry) (kind key payload : string) (timeoutMs : Z) (streamId : option string) : RouteParams :=
  MkRoute (re_source_site_id e) (rs_site h) kind payload timeoutMs (Some (re_id e)) (Some key) streamId
    (serializeRelayTraceCarrier (parseTraceCarrier (re_trace_context e))) (rs_role h).
Definition route_response (h : responder) (uuid : string) (now : Z) (p : RouteParams) (t : dw_table) : outcome dw_table :=
  match routeRelayResponse uuid false false now (rs_hosts h) (rs_sync_state h) p t with
  | Throw m => inr (OtherError ("InvalidDurableWorkRowError: " +:+ m))
  | Ok (_, Unroutable target reason, _) => inr (RelayResponseRoutingError target reason)
  | Ok (t', Routed _ _ _, _) => inl t'
  end.
Definition writeResponse (h : responder) (uuid : string) (now : Z) (e : RelayInboxEntry) (kind payload : string) (t : dw_table)
  : outcome dw_table :=
  if nonempty (re_source_site_id e)
  then route_response h uuid now (response_params h e kind ("response:" +:+ re_id e) payload (5 * 60 * 1000) (re_stream_id e)) t
  else inr (OtherError "Error: Request entry has no source_site_id").

Definition chunk_payload (seq : Z) (chunks : list json) : string :=
  json_stringify (JObj [("chunks", JArr chunks); ("seq", JInt seq)]).
Definition stream_key (streamId : string) (seq : Z) : string := "stream:" +:+ streamId +:+ ":" +:+ show_int seq.
Definition writeStreamChunk (h : responder) (uuid : string) (now : Z) (e : RelayInboxEntry) (kind streamId : string) (seq : Z)
    (chunks : list json) (t : dw_table) : outcome dw_table :=
  if nonempty (re_source_site_id e)
  then route_response h uuid now
         (response_params h e kind (stream_key streamId seq) (chunk_payload seq chunks) (10 * 60 * 1000) (Some streamId)) t
  else inl t.

(** ** The stream *)
Definition FLUSH_INTERVAL_MS : Z := 200.
Definition FLUSH_BUFFER_BYTES : Z := 4096.
Record stream_state := MkStream {
  ss_seq : Z; ss_chunkBuffer : list json; ss_bufferBytes : Z; ss_lastFlushTime : Z; ss_table : dw_table }.
(** A chunk and the time it is looked at; a heartbeat and its time. *)
Inductive stream_event := Chunk (c : json) (now : Z) | Heartbeat (now : Z).
(** How reading the backend's stream ends. *)
Inductive stream_ending := Exhausted | Aborted | BackendThrew (text : string).
Definition chunk_bytes (c : json) : Z := byte_len (print_json c).
Definition error_payload (text : string) (retriable : bool) : string :=
  json_stringify (JObj [("error", JStr text); ("retriable", JBool retriable)]).

Section stream.
Variables (h : responder) (e : RelayInboxEntry) (streamId : string) (uuid : nat → string).
Definition next_uuid (st : stream_state) : string := uuid (Z.to_nat (ss_seq st)).

Definition flush (isFinal : bool) (now : Z) (st : stream_state) : stream_state * option relay_error :=
  if (length (ss_chunkBuffer st) =? 0)%nat && negb isFinal then (st, None)
  else
    match writeStreamChunk h (next_uuid st) now e (if isFinal then "stream_end" else "stream_chunk") streamId (ss_seq st)
            (ss_chunkBuffer st) (ss_table st) with
    | inr err => (st, Some err)
    | inl t' => (MkStream (ss_seq st + 1) [] 0 now t', None)
    end.
(** A heartbeat that cannot be written takes its number all the same; the error
    leaves the timer's callback. *)
Definition heartbeat (now : Z) (st : stream_state) : stream_state :=
  MkStream (ss_seq st + 1) (ss_chunkBuffer st) (ss_bufferBytes st) (ss_lastFlushTime st)
    (match writeStreamChunk h (next_uuid st) now e "stream_chunk" streamId (ss_seq st) [] (ss_table st) with
     | inl t' => t'
     | inr _ => ss_table st
     end).
Definition on_chunk (c : json) (now : Z) (st : stream_state) : stream_state * option relay_error :=
  let bytes := ss_bufferBytes st + chunk_bytes c in
  let st1 := MkStream (ss_seq st) (ss_chunkBuffer st ++ [c]) bytes (ss_lastFlushTime st) (ss_table st) in
  if (FLUSH_INTERVAL_MS <=? now - ss_lastFlushTime st) || (FLUSH_BUFFER_BYTES <=? bytes) then flush false now st1 else (st1, None).
Fixpoint run_events (evs : list stream_event) (st : stream_state) : stream_state * option relay_error :=
  match evs with
  | [] => (st, None)
  | Heartbeat now :: evs' => run_events evs' (heartbeat now st)
  | Chunk c now :: evs' =>
      match on_chunk c now st with
      | (st', None) => run_events evs' st'
      | (st', Some err) => (st', Some err)
      end
  end.
(** [runInferenceWithTracing]. *)
Definition run_inference (evs : list stream_event) (ending : stream_ending) (endedAt : Z) (st : stream_state)
  : stream_state * option relay_error :=
  match run_events evs st with
  | (st', Some err) => (st', Some err)
  | (st', None) =>
      match ending with
      | BackendThrew text => (st', Some (OtherError text))
      | Exhausted => flush true endedAt st'
      | Aborted =>
          match writeResponse h (next_uuid st') endedAt e "error" (error_payload "cancelled by requester" false) (ss_table st') with
          | inl t' => (MkStream (ss_seq st') (ss_chunkBuffer st') (ss_bufferBytes st') (ss_lastFlushTime st') t', None)
          | inr err => (st', Some err)
          end
      end
  end.
(** The [catch] and the [finally]: [spans] are the collected spans, [lastly] the
    id of the row they are sent in.  A response that cannot be written in the
    [catch] rejects the promise, which is only logged. *)
Definition finish_inference (spans : option string) (endedAt : Z) (lastly : string) (r : stream_state * option relay_error) : dw_table :=
  match r with
  | (st, Some err) =>
      match writeResponse h (next_uuid st) endedAt e "error" (error_payload (error_text err) true) (ss_table st) with
      | inl t' => t'
      | inr _ => ss_table st
      end
  | (st, None) =>
      match spans with
      | Some payload =>
          if nonempty (re_source_site_id e) then
            match route_response h lastly endedAt
                    (response_params h e "trace_data" ("response:" +:+ re_id e) payload (5 * 60 * 1000) (re_stream_id e)) (ss_table st) with
            | inl t' => t'
            | inr _ => ss_table st
            end
          else ss_table st
      | None => ss_table st
      end
  end.
End stream.

(** The checks before the stream is opened: the router, the model, the segments
    of the context. *)
Inductive preparation := NoModelRouter | NoBackend (model : string) | BadSegments (message : string) | Prepared.
Definition refusal (p : preparation) : option string :=
  match p with
  | NoModelRouter => Some (error_payload "No model router configured on this host" false)
  | NoBackend model => Some (error_payload ("Model not available on this host: " +:+ model) false)
  | BadSegments message => Some (error_payload ("Failed to resolve context segments: " +:+ message) true)
  | Prepared => None
  end.
(** The part of [executeInference] that runs before it first waits: the stream
    to read, or the refusal that is written. *)
Definition begin_inference (h : responder) (uuid : string) (now : Z) (e : RelayInboxEntry) (p : preparation) (t : dw_table)
  : outcome dw_table * option string :=
  if truthy (re_stream_id e) then
    match refusal p with
    | Some payload => (writeResponse h uuid now e "error" payload t, None)
    | None => (inl t, re_stream_id e)
    end
  else (writeResponse h uuid now e "error" (error_payload "Missing stream_id on inference request" false) t, None).
Definition executeInference (h : responder) (e : RelayInboxEntry) (uuid : nat → string) (startedAt : Z) (p : preparation)
    (evs : list stream_event) (ending : stream_ending) (endedAt : Z) (spans : option string) (lastly : string) (t : dw_table) : dw_table :=
  match begin_inference h (uuid 0%nat) startedAt e p t with
  | (inl t', Some streamId) =>
      finish_inference h e uuid spans endedAt lastly
        (run_inference h e streamId uuid evs ending endedAt (MkStream 0 [] 0 startedAt t'))
  | (inl t', None) => t'
  | (inr _, _) => t
  end.

(** * Properties *)

(** ** What a response writes *)
Definition response_row (uuid : string) (now : Z) (p : RouteParams) : DurableWorkRow := new_row now (route_row uuid now p).
Lemma route_response_adds h uuid now p t t' : route_response h uuid now p t = inl t' →
  t' = t ∨ t' = t ++ [response_row uuid now p].
Proof.
  unfold route_response, routeRelayResponse, route. destruct (negb _ && _); [done|]; simpl.
  unfold insertDurableWork. destruct (validateDurableWork (route_row uuid now p)); simpl; [|done].
  destruct (insert_or_ignore_cases dw_clash (new_row now (route_row uuid now p)) t) as [[-> _]|[-> _]]; simpl; intros [= <-]; auto.
Qed.
Lemma route_response_ok h uuid now p t :
  rp_source p = rs_site h →
  seqb (rp_target p) (rs_site h) || shouldRouteRelayDurable (rs_hosts h) (rs_sync_state h) (rp_target p) (rs_site h) (rp_role p) = true →
  is_Ok (validateDurableWork (route_row uuid now p)) →
  (∀ r, r ∈ t → dw_clash r (response_row uuid now p) = false) →
  route_response h uuid now p t = inl (t ++ [response_row uuid now p]).
Proof.
  intros Hs Hr [[] Hv] Hc. unfold route_response, routeRelayResponse, route. rewrite Hs.
  destruct (seqb (rp_target p) (rs_site h)) eqn:Et; simpl in *; [|rewrite Hr; simpl];
    unfold insertDurableWork; rewrite Hv; simpl;
    (destruct (insert_or_ignore_cases dw_clash (new_row now (route_row uuid now p)) t) as [[_ (old & Hin & Hold)]|[-> _]];
     [unfold response_row in Hc; by rewrite Hc in Hold|done]).
Qed.

(** ** Sequence numbers *)
Lemma show_int_inj a b : show_int a = show_int b → a = b.
Proof.
  intros H. assert (∀ z, json_parse (show_int z) = Some (JInt z)) as Hp.
  { intros z. pose proof (json_roundtrip (JInt z) (or_introl eq_refl)) as Hr. exact Hr. }
  pose proof (Hp a) as Ha. rewrite H, Hp in Ha. by injection Ha as ->.
Qed.
Lemma sapp_inj_l p s t : p +:+ s = p +:+ t → s = t.
Proof. induction p as [|c p IH]; simpl; [done|]. intros [= H]. auto. Qed.
Lemma stream_key_inj id a b : stream_key id a = stream_key id b → a = b.
Proof. unfold stream_key. intros H%sapp_inj_l%sapp_inj_l%sapp_inj_l. by apply show_int_inj. Qed.
Lemma chunk_payload_parse seq chunks : Forall json_wf chunks →
  json_parse (chunk_payload seq chunks) = Some (JObj [("chunks", JArr chunks); ("seq", JInt seq)]).
Proof.
  intros H. apply json_roundtrip, json_wf_obj. split; [vm_compute; repeat constructor; set_solver|].
  repeat apply Forall_cons_2; [by apply json_wf_arr|by left|by apply Forall_nil].
Qed.

(** ** Sizes *)
Definition sizes (l : list json) : Z := sum_list_Z (chunk_bytes <$> l).
Lemma sizes_app l k : sizes (l ++ k) = sizes l + sizes k.
Proof. unfold sizes. by rewrite fmap_app, sum_list_Z_app. Qed.
Lemma sizes_single c : sizes [c] = chunk_bytes c.
Proof. unfold sizes. simpl. lia. Qed.
(** All but the last chunk stay below the limit. *)
Definition small (chunks : list json) : Prop := sizes (removelast chunks) < FLUSH_BUFFER_BYTES.
Definition resting (st : stream_state) : Prop :=
  ss_bufferBytes st = sizes (ss_chunkBuffer st) ∧ sizes (ss_chunkBuffer st) < FLUSH_BUFFER_BYTES.
Lemma small_nil : small [].
Proof. unfold small, sizes, FLUSH_BUFFER_BYTES. simpl. lia. Qed.
Lemma small_snoc l c : sizes l < FLUSH_BUFFER_BYTES → small (l ++ [c]).
Proof. intros H. unfold small. by rewrite removelast_last. Qed.
Lemma chunk_bytes_nonneg c : 0 ≤ chunk_bytes c.
Proof. unfold chunk_bytes, byte_len. lia. Qed.
Lemma sizes_nonneg l : 0 ≤ sizes l.
Proof. apply sum_list_Z_nonneg, Forall_fmap, Forall_forall. intros c _. apply chunk_bytes_nonneg. Qed.
Lemma small_resting l : sizes l < FLUSH_BUFFER_BYTES → small l.
Proof.
  intros H. destruct (decide (l = [])) as [->|Hn]; [apply small_nil|].
  destruct (exists_last Hn) as (l' & c & ->). apply small_snoc. rewrite sizes_app, sizes_single in H.
  pose proof (chunk_bytes_nonneg c). lia.
Qed.

(** Rows the stream may add. *)
Definition stream_row (r : DurableWorkRow) : Prop :=
  dw_kind r = "error" ∨ dw_kind r = "trace_data" ∨
  ∃ seq chunks, dw_payload r = chunk_payload seq chunks ∧ small chunks.
Definition adds (t t' : dw_table) : Prop := ∀ r, r ∈ t' → r ∈ t ∨ stream_row r.
Lemma adds_refl t : adds t t.
Proof. intros r. auto. Qed.
Lemma adds_trans t1 t2 t3 : adds t1 t2 → adds t2 t3 → adds t1 t3.
Proof. intros H1 H2 r [Hr|?]%H2; auto. Qed.
Lemma adds_route h uuid now p t t' : route_response h uuid now p t = inl t' → stream_row (response_row uuid now p) → adds t t'.
Proof.
  intros [-> | ->]%route_response_adds Hr; [apply adds_refl|]. intros r [H|H%list_elem_of_singleton]%elem_of_app; [by left|subst; by right].
Qed.
Lemma writeStreamChunk_adds h uuid now e kind id seq chunks t t' :
  small chunks → writeStreamChunk h uuid now e kind id seq chunks t = inl t' → adds t t'.
Proof.
  unfold writeStreamChunk. case_match; [|intros _ [= <-]; apply adds_refl]. intros Hs H1. eapply adds_route; [done|].
  right; right. by exists seq, chunks.
Qed.
Lemma writeResponse_adds h uuid now e payload t t' : writeResponse h uuid now e "error" payload t = inl t' → adds t t'.
Proof. unfold writeResponse. case_match; [|done]. intros H1. eapply adds_route; [done|]. by left. Qed.

Section bounds.
Variables (h : responder) (e : RelayInboxEntry) (streamId : string) (uuid : nat → string).
Lemma flush_adds fin now st st' o : small (ss_chunkBuffer st) → ss_chunkBuffer st ≠ [] ∨ fin = true →
  flush h e streamId uuid fin now st = (st', o) → adds (ss_table st) (ss_table st') ∧ (o = None → resting st').
Proof.
  intros Hs Hne. unfold flush.
  replace ((length (ss_chunkBuffer st) =? 0)%nat && negb fin) with false
    by (destruct Hne as [Hn | ->]; [by destruct (ss_chunkBuffer st)|by rewrite andb_false_r]).
  case_match eqn:Hw; intros [= <- <-]; (split; [|intros Ho]); simpl; [by eapply writeStreamChunk_adds| |apply adds_refl|done].
  split; [done|]. unfold sizes, FLUSH_BUFFER_BYTES. simpl. lia.
Qed.
Lemma heartbeat_adds now st : resting st →
  adds (ss_table st) (ss_table (heartbeat h e streamId uuid now st)) ∧ resting (heartbeat h e streamId uuid now st).
Proof.
  intros Hr. split; [|done]. simpl. case_match eqn:Hw; [|apply adds_refl]. by eapply writeStreamChunk_adds, Hw; apply small_nil.
Qed.
Lemma on_chunk_adds c now st st' o : resting st → on_chunk h e streamId uuid c now st = (st', o) →
  adds (ss_table st) (ss_table st') ∧ (o = None → resting st').
Proof.
  intros [Hb Hr]. unfold on_chunk. destruct (_ || _) eqn:E.
  - intros Hf. apply flush_adds in Hf; [done|simpl; by apply small_snoc|]. left. simpl. by destruct (ss_chunkBuffer st).
  - intros [= <- <-]. split; [apply adds_refl|]. intros _. bool_props. split; simpl; rewrite sizes_app, sizes_single; lia.
Qed.
Lemma run_events_adds evs st st' o : resting st → run_events h e streamId uuid evs st = (st', o) →
  adds (ss_table st) (ss_table st') ∧ (o = None → resting st').
Proof.
  revert st. induction evs as [|[c now|now] evs IH]; intros st Hr; cbn [run_events].
  - intros [= <- <-]. split; [apply adds_refl|done].
  - destruct (on_chunk _ _ _ _ c now st) as [st1 [err|]] eqn:E; apply on_chunk_adds in E as [Ha Hr1]; try done.
    + intros [= <- <-]. by split.
    + intros [Ha' Hr']%IH; [|auto]. split; [by eapply adds_trans|done].
  - apply (heartbeat_adds now) in Hr as [Ha Hr]. intros [Ha' Hr']%IH; [|done]. split; [by eapply adds_trans|done].
Qed.
Lemma run_inference_adds evs ending endedAt st st' o : resting st →
  run_inference h e streamId uuid evs ending endedAt st = (st', o) → adds (ss_table st) (ss_table st').
Proof.
  intros Hr. unfold run_inference. destruct (run_events _ _ _ _ evs st) as [st1 [err|]] eqn:E; apply run_events_adds in E as [Ha Hr1]; try done.
  { by intros [= <- <-]. }
  specialize (Hr1 eq_refl) as [Hb Hs]. destruct ending; [| |by intros [= <- <-]].
  - intros Hf. apply flush_adds in Hf as [Ha' _]; [by eapply adds_trans|by apply small_resting|by right].
  - case_match eqn:Hw; intros [= <- <-]; [|done]. eapply adds_trans; [done|]. by eapply writeResponse_adds.
Qed.
Lemma finish_inference_adds spans endedAt lastly r : adds (ss_table r.1) (finish_inference h e uuid spans endedAt lastly r).
Proof.
  destruct r as [st [err|]]; simpl.
  - case_match eqn:Hw; [by eapply writeResponse_adds|apply adds_refl].
  - repeat case_match; try apply adds_refl. eapply adds_route; [done|]. right. by left.
Qed.
End bounds.

(** C39: Whatever the backend yields and however the stream ends, every chunk row
    the host writes holds less than [FLUSH_BUFFER_BYTES] bytes of chunks before
    its last one: a row exceeds the limit by at most one chunk.  The other rows
    are the error and trace responses. *)
Theorem flush_bounded h e uuid startedAt prep evs ending endedAt spans lastly t r :
  r ∈ executeInference h e uuid startedAt prep evs ending endedAt spans lastly t →
  r ∈ t ∨ dw_kind r = "error" ∨ dw_kind r = "trace_data" ∨
  ∃ seq chunks, dw_payload r = chunk_payload seq chunks ∧ sizes (removelast chunks) < FLUSH_BUFFER_BYTES.
Proof.
  enough (adds t (executeInference h e uuid startedAt prep evs ending endedAt spans lastly t)) as H by (intros Hr; by apply H).
  unfold executeInference, begin_inference. destruct (truthy (re_stream_id e)); [destruct (refusal prep)|].
  1,3: case_match eqn:Hw; [by eapply writeResponse_adds|apply adds_refl].
  destruct (re_stream_id e) as [streamId|]; [|apply adds_refl].
  destruct (run_inference h e streamId uuid evs ending endedAt _) as [st' o] eqn:E.
  apply run_inference_adds in E; [|split; [done|unfold sizes, FLUSH_BUFFER_BYTES; simpl; lia]].
  eapply adds_trans; [exact E|]. apply (finish_inference_adds h e uuid spans endedAt lastly (st', o)).
Qed.

(** ** The rows of a stream that can be delivered *)
Definition emitted (evs : list stream_event) : list json :=
  omap (λ ev, match ev with Chunk c _ => Some c | Heartbeat _ => None end) evs.

Section deliverable.
Variables (h : responder) (e : RelayInboxEntry) (streamId : string) (uuid : nat → string).
(** The requester is this host, or every hop to it takes spooled work. *)
Definition deliverable : Prop :=
  seqb (re_source_site_id e) (rs_site h) ||
  shouldRouteRelayDurable (rs_hosts h) (rs_sync_state h) (re_source_site_id e) (rs_site h) (rs_role h) = true.
(** [randomUUID] returns no id twice, and no other row has one of the stream's
    keys. *)
Definition fresh_ids (t : dw_table) : Prop :=
  (∀ n, uuid n ≠ "") ∧ (∀ n m, uuid n = uuid m → n = m) ∧
  ∀ r, r ∈ t → (∀ n, dw_id r ≠ uuid n) ∧ ∀ seq, dw_idempotency_key r ≠ stream_key streamId seq.
Hypothesis Hdel : deliverable.
Hypothesis Hsource : re_source_site_id e ≠ "".

Definition nth_row (n : nat) (kind : string) (chunks : list json) (now : Z) : DurableWorkRow :=
  response_row (uuid n) now
    (response_params h e kind (stream_key streamId (Z.of_nat n)) (chunk_payload (Z.of_nat n) chunks) (10 * 60 * 1000) (Some streamId)).
Definition chunk_rows (segs : list (list json * Z)) : list DurableWorkRow :=
  imap (λ n seg, nth_row n "stream_chunk" seg.1 seg.2) segs.

Lemma chunk_rows_snoc segs chunks now :
  chunk_rows (segs ++ [(chunks, now)]) = chunk_rows segs ++ [nth_row (length segs) "stream_chunk" chunks now].
Proof. unfold chunk_rows. rewrite imap_app. simpl. by rewrite Nat.add_0_r. Qed.
Lemma elem_of_chunk_rows r segs : r ∈ chunk_rows segs → ∃ m chunks now, (m < length segs)%nat ∧ r = nth_row m "stream_chunk" chunks now.
Proof.
  intros (i & Hi)%list_elem_of_lookup. unfold chunk_rows in Hi. rewrite list_lookup_imap in Hi.
  destruct (segs !! i) as [[c now]|] eqn:E; [|done]. injection Hi as <-. exists i, c, now. split; [by eapply lookup_lt_Some|done].
Qed.
Lemma write_next t segs kind chunks now : fresh_ids t → nonempty kind = true → Forall json_wf chunks →
  writeStreamChunk h (uuid (length segs)) now e kind streamId (Z.of_nat (length segs)) chunks (t ++ chunk_rows segs) =
  inl ((t ++ chunk_rows segs) ++ [nth_row (length segs) kind chunks now]).
Proof using Hdel Hsource.
  intros (Hne & Hinj & Hfresh) Hk Hwf. unfold writeStreamChunk, nonempty. rewrite (proj2 (seqb_false _ _) Hsource). cbn [negb].
  apply route_response_ok; [done|exact Hdel| |].
  - exists tt. pose proof (chunk_payload_parse (Z.of_nat (length segs)) chunks Hwf) as Hp.
    assert (seqb (chunk_payload (Z.of_nat (length segs)) chunks) "" = false) as Hpay
      by (apply seqb_false; intros E; rewrite E in Hp; by vm_compute in Hp).
    unfold validateDurableWork, route_row, response_params, nonempty in *. cbn [nw_id nw_target_site_id nw_kind nw_idempotency_key nw_payload
      rp_target rp_source rp_kind rp_payload rp_idempotencyKey]. rewrite Hk, (proj2 (seqb_false _ _) (Hne _)), Hpay, Hp.
    by destruct (seqb (re_source_site_id e) (rs_site h)); simpl; rewrite ?(proj2 (seqb_false _ _) Hsource).
  - intros r Hr. unfold dw_clash. cbn [response_row new_row route_row nw_id dw_id dw_kind dw_idempotency_key nw_kind nw_idempotency_key
      response_params rp_idempotencyKey rp_kind]. apply orb_false_iff.
    rewrite elem_of_app in Hr. destruct Hr as [[Hid Hkey]%Hfresh|(m & c & n' & Hm & ->)%elem_of_chunk_rows].
    + split; [by apply seqb_false|]. by rewrite (proj2 (seqb_false _ _) (Hkey _)), andb_false_r.
    + split; [apply seqb_false; intros H%Hinj; lia|]. apply andb_false_iff. right. apply seqb_false. intros H%stream_key_inj. lia.
Qed.

(** What the stream has written so far. *)
Definition progress (t : dw_table) (done : list json) (st : stream_state) : Prop :=
  ∃ segs, ss_seq st = Z.of_nat (length segs) ∧ ss_table st = t ++ chunk_rows segs ∧
    concat segs.*1 ++ ss_chunkBuffer st = done ∧ Forall (λ seg, Forall json_wf seg.1) segs.
Lemma progress_write t done st chunks now kind :
  fresh_ids t → progress t done st → Forall json_wf chunks → nonempty kind = true →
  ∃ segs, ss_seq st = Z.of_nat (length segs) ∧ concat segs.*1 ++ ss_chunkBuffer st = done ∧ Forall (λ seg, Forall json_wf seg.1) segs ∧
    writeStreamChunk h (next_uuid uuid st) now e kind streamId (ss_seq st) chunks (ss_table st) =
    inl (t ++ chunk_rows segs ++ [nth_row (length segs) kind chunks now]).
Proof using Hdel Hsource.
  intros Hf (segs & Hseq & Ht & Hd & Hw) Hwf Hk. exists segs. split_and!; try done.
  unfold next_uuid. rewrite Hseq, Nat2Z.id, Ht, write_next by done. by rewrite <-app_assoc.
Qed.
Lemma progress_event t done st ev :
  fresh_ids t → Forall json_wf done → Forall json_wf (emitted [ev]) → progress t done st →
  ∃ st', (∀ evs, run_events h e streamId uuid (ev :: evs) st = run_events h e streamId uuid evs st') ∧ progress t (done ++ emitted [ev]) st'.
Proof using Hdel Hsource.
  intros Hf Hd He Hp. destruct ev as [c now|now].
  - cbn [run_events]. set (st1 := MkStream (ss_seq st) (ss_chunkBuffer st ++ [c]) (ss_bufferBytes st + chunk_bytes c) (ss_lastFlushTime st) (ss_table st)).
    assert (progress t (done ++ [c]) st1) as Hp1.
    { destruct Hp as (segs & H1 & H2 & <- & H4). exists segs. split_and!; try done. simpl. by rewrite app_assoc. }
    assert (Forall json_wf (ss_chunkBuffer st1)) as Hb.
    { destruct Hp1 as (segs & _ & _ & H & _). assert (Forall json_wf (done ++ [c])) as Hall by (apply Forall_app; done).
      rewrite <-H in Hall. by apply Forall_app in Hall as [_ ?]. }
    unfold on_chunk. fold st1. destruct (_ || _); [|by exists st1].
    destruct (progress_write t _ st1 (ss_chunkBuffer st1) now "stream_chunk" Hf Hp1 Hb eq_refl) as (segs & Hs & Hc & Hw & Hwr).
    unfold flush. replace ((length (ss_chunkBuffer st1) =? 0)%nat) with false by (simpl; by destruct (ss_chunkBuffer st)). cbn [andb]. rewrite Hwr.
    eexists. split; [intros; reflexivity|]. exists (segs ++ [(ss_chunkBuffer st1, now)]). simpl ss_seq. split_and!.
    + rewrite length_app. simpl in *. lia.
    + by rewrite chunk_rows_snoc.
    + rewrite fmap_app, concat_app. cbn [fmap list_fmap concat fst ss_chunkBuffer]. by rewrite !app_nil_r, Hc.
    + by apply Forall_app_2; [|apply Forall_singleton].
  - cbn [run_events]. eexists. split; [intros; reflexivity|]. cbn [emitted omap list_omap]. rewrite app_nil_r.
    destruct (progress_write t done st [] now "stream_chunk" Hf Hp (Forall_nil_2 _) eq_refl) as (segs & Hs & Hc & Hw & Hwr).
    exists (segs ++ [([], now)]). unfold heartbeat. rewrite Hwr. simpl. split_and!.
    + rewrite length_app. simpl. lia.
    + by rewrite chunk_rows_snoc.
    + rewrite fmap_app, concat_app. cbn. by rewrite !app_nil_r.
    + by apply Forall_app_2; [|apply Forall_singleton; apply Forall_nil].
Qed.
Lemma progress_events t done st evs :
  fresh_ids t → Forall json_wf done → Forall json_wf (emitted evs) → progress t done st →
  ∃ st', run_events h e streamId uuid evs st = (st', None) ∧ progress t (done ++ emitted evs) st'.
Proof using Hdel Hsource.
  revert done st. induction evs as [|ev evs IH]; intros done st Hf Hd He Hp; [exists st; by rewrite app_nil_r|].
  change (ev :: evs) with ([ev] ++ evs) in He |- *. unfold emitted in He |- *. rewrite omap_app in He |- *. apply Forall_app in He as [He1 He2].
  destruct (progress_event t done st ev Hf Hd He1 Hp) as (st1 & Hr & Hp1). cbn [app]. rewrite Hr, app_assoc.
  apply IH; try done. by apply Forall_app.
Qed.

Lemma stream_written t evs startedAt endedAt lastly :
  fresh_ids t → Forall json_wf (emitted evs) →
  ∃ segs chunks, concat segs.*1 ++ chunks = emitted evs ∧ Forall (λ seg, Forall json_wf seg.1) segs ∧ Forall json_wf chunks ∧
    finish_inference h e uuid None endedAt lastly
      (run_inference h e streamId uuid evs Exhausted endedAt (MkStream 0 [] 0 startedAt t)) =
    t ++ chunk_rows segs ++ [nth_row (length segs) "stream_end" chunks endedAt].
Proof using Hdel Hsource.
  intros Hf Hwf. assert (progress t [] (MkStream 0 [] 0 startedAt t)) as Hp by (exists []; split_and!; simpl; rewrite ?app_nil_r; done).
  destruct (progress_events t [] _ evs Hf (Forall_nil_2 _) Hwf Hp) as (st & Hr & Hp'). unfold run_inference. rewrite Hr. cbn [app] in Hp'.
  assert (Forall json_wf (ss_chunkBuffer st)) as Hb.
  { destruct Hp' as (segs & _ & _ & H & _). rewrite <-H in Hwf. by apply Forall_app in Hwf as [_ ?]. }
  destruct (progress_write t _ st (ss_chunkBuffer st) endedAt "stream_end" Hf Hp' Hb eq_refl) as (segs & Hs & Hc & Hw & Hwr).
  exists segs, (ss_chunkBuffer st). split_and!; try done. unfold flush. rewrite andb_false_r, Hwr. done.
Qed.
End deliverable.

(** ** From the host that runs the model to the one that asked *)
(** The claimed entry of a row that was handed over as it is. *)
Definition carried (r : DurableWorkRow) (en : UnionEntry) : Prop :=
  ue_id en = dw_id r ∧ ue_kind en = dw_kind r ∧ ue_payload en = dw_payload r.
Lemma carried_payload h e streamId uuid n kind chunks now en : Forall json_wf chunks →
  carried (nth_row h e streamId uuid n kind chunks now) en → payload_of en = Some (Z.of_nat n, chunks) ∧ ue_kind en = kind.
Proof.
  intros Hwf (_ & Hk & Hp). split; [|done]. unfold payload_of, read_chunk. rewrite Hp. cbn [dw_payload nth_row response_row new_row nw_payload
    route_row response_params rp_payload]. by rewrite chunk_payload_parse.
Qed.
(** The rows in the order they were written, and the entries they become. *)
Lemma carried_numbered h e streamId uuid segs chunks endedAt sorted :
  Forall (λ seg : list json * Z, Forall json_wf seg.1) segs → Forall json_wf chunks →
  Forall2 carried (chunk_rows h e streamId uuid segs ++ [nth_row h e streamId uuid (length segs) "stream_end" chunks endedAt]) sorted →
  well_numbered sorted ∧ concat (chunks_of <$> sorted) = concat segs.*1 ++ chunks.
Proof.
  intros Hs Hc H. apply Forall2_app_inv_l in H as (l & k & Hl & Hk & ->). apply Forall2_cons_inv_l in Hk as (en & k' & Hen & Hk & ->).
  apply Forall2_nil_inv_l in Hk as ->. apply carried_payload in Hen as [Hp Hkind]; [|done].
  assert (length l = length segs) as Hlen by (apply Forall2_length in Hl; unfold chunk_rows in Hl; by rewrite length_imap in Hl).
  assert (∀ i seg, segs !! i = Some seg → ∃ x, l !! i = Some x ∧ payload_of x = Some (Z.of_nat i, seg.1) ∧ ue_kind x = "stream_chunk") as Hrows.
  { intros i [c now] Hi. eapply (Forall2_lookup_l _ _ _ i) in Hl as (x & Hx & Hcar); [|unfold chunk_rows; by rewrite list_lookup_imap, Hi].
    exists x. split; [done|]. eapply carried_payload; [|exact Hcar]. by apply (Forall_lookup_1 _ _ _ _ Hs Hi). }
  split.
  - split; [by destruct l|]. rewrite length_app, Hlen. cbn [length]. intros i x Hi. destruct (decide (i < length segs)%nat) as [Hlt|Hge].
    + destruct (segs !! i) as [seg|] eqn:Es; [|apply lookup_ge_None in Es; lia]. destruct (Hrows i seg Es) as (y & Hy & Hpy & Hky).
      rewrite lookup_app_l in Hi by lia. rewrite Hy in Hi. injection Hi as <-. rewrite bool_decide_false by lia. eauto.
    + rewrite lookup_app_r in Hi by lia. apply list_lookup_singleton_Some in Hi as [Hz <-].
      rewrite bool_decide_true by lia. split; [|done]. exists chunks. rewrite Hp. do 3 f_equal. lia.
  - rewrite fmap_app, concat_app. f_equal.
    + f_equal. apply list_eq. intros i. rewrite !list_lookup_fmap. destruct (segs !! i) as [seg|] eqn:Es.
      * destruct (Hrows i seg Es) as (y & -> & Hpy & _). simpl. unfold chunks_of. by rewrite Hpy.
      * apply lookup_ge_None in Es. rewrite (lookup_ge_None_2 l) by lia. done.
    + cbn. unfold chunks_of. by rewrite Hp, app_nil_r.
Qed.

(** C5: The two ends of a relayed inference together, for a model stream that is
    read to its end.  When the requester can be reached, no other row has the
    stream's ids and keys, and the requester's ticks are prompt (none claims a row
    more than five ticks after a later one, which is when the reader gives a
    missing number up, as in Example burst_skips_chunk of RelayStream.v), the rows
    the host writes while it reads the stream, heartbeats included, however they
    are cut into rows and in whatever order they are claimed, yield exactly the
    chunks the model produced, in their order, and the stream completes with every
    row settled.  An error or an abort ends the stream otherwise and is not
    covered here. *)
Theorem relayed_inference h e streamId uuid startedAt evs endedAt lastly t sorted start ticks :
  re_stream_id e = Some streamId → streamId ≠ "" → re_source_site_id e ≠ "" → deliverable h e →
  fresh_ids streamId uuid t → Forall json_wf (emitted evs) →
  Forall2 carried (drop (length t) (executeInference h e uuid startedAt Prepared evs Exhausted endedAt None lastly t)) sorted →
  concat ticks.*2 ≡ₚ sorted → prompt sorted ticks →
  stream_run start ticks initialState = (emitted evs, entry_settle <$> sorted, Completed).
Proof.
  intros Hid Hne Hsrc Hdel Hf Hwf Hcar Hperm Hprompt. unfold executeInference, begin_inference in Hcar. rewrite Hid in Hcar.
  cbn [truthy] in Hcar. unfold nonempty in Hcar. rewrite (proj2 (seqb_false _ _) Hne) in Hcar. cbn [negb refusal] in Hcar.
  destruct (stream_written h e streamId uuid Hdel Hsrc t evs startedAt endedAt lastly Hf Hwf) as (segs & chunks & Hall & Hs & Hc & Heq).
  rewrite Heq, drop_app_length in Hcar. apply carried_numbered in Hcar as [Hnum Hch]; [|done..]. rewrite <-Hall, <-Hch.
  pose proof (stream_run_sorted sorted Hnum start [] ticks 0 initialState) as H. rewrite drop_0 in H.
  apply H; [done..|by apply waiting_initial].
Qed.

(** ** An example *)
Definition spoke_host : ClusterHost := MkHost "spoke" "Spoke" None None None (Some 0) (Some 0) true false.
Definition hub : responder := MkResponder "hub" [spoke_host] ["spoke"] (Some Hub).
Definition request : RelayInboxEntry :=
  MkInbox "req" "spoke" "inference" None (Some "inference-stream:s1") (Some "s1") "{}" 300000 0 None.
Definition row_ids (n : nat) : string := "row" +:+ show_int (Z.of_nat n).
Definition sample_events : list stream_event :=
  [Chunk (JStr "a") 100; Heartbeat 150; Chunk (JStr "b") 400; Chunk (JStr "c") 450].
Definition sample_rows : list DurableWorkRow :=
  executeInference hub request row_ids 0 Prepared sample_events Exhausted 500 None "last" [].
Definition claimed_as (r : DurableWorkRow) : UnionEntry := MkUnion (dw_id r) (dw_kind r) (dw_payload r) ("token-" +:+ dw_id r).
Definition sample_entries : list UnionEntry := claimed_as <$> sample_rows.
(** The end marker is claimed first. *)
Definition sample_ticks : list (Z * list UnionEntry) := [(600, drop 2 sample_entries); (700, []); (800, reverse (take 2 sample_entries))].
Example sample_shape : (λ r, (dw_kind r, dw_payload r)) <$> sample_rows =
  [("stream_chunk", chunk_payload 0 []); ("stream_chunk", chunk_payload 1 [JStr "a"; JStr "b"]); ("stream_end", chunk_payload 2 [JStr "c"])].
Proof. vm_compute. reflexivity. Qed.
Lemma row_ids_fresh : fresh_ids "s1" row_ids [].
Proof.
  split_and!; [done| |by intros r []%elem_of_nil]. unfold row_ids. intros n m H%sapp_inj_l%show_int_inj. lia.
Qed.
Lemma sample_prompt : prompt sample_entries sample_ticks.
Proof.
  intros i t en en' _ _ He' _. assert (en' ∈ drop 2 sample_entries ∨ en' ∈ take 2 sample_entries) as [H|H].
  { rewrite <-(take_drop 2 sample_entries) in He'. apply elem_of_app in He'. tauto. }
  - exists 0%nat, (600, drop 2 sample_entries). split_and!; [lia|done|done].
  - exists 2%nat, (800, reverse (take 2 sample_entries)). split_and!; [lia|done|]. by apply elem_of_reverse.
Qed.
Lemma relayed_inference_witness :
  stream_run 0 sample_ticks initialState = ([JStr "a"; JStr "b"; JStr "c"], entry_settle <$> sample_entries, Completed).
Proof.
  apply (relayed_inference hub request "s1" row_ids 0 sample_events 500 "last" [] sample_entries 0 sample_ticks).
  - reflexivity.
  - discriminate.
  - discriminate.
  - vm_compute. reflexivity.
  - exact row_ids_fresh.
  - repeat constructor.
  - unfold sample_entries, sample_rows. cbn [length drop]. apply Forall2_fmap_r, Forall_Forall2_diag, Forall_true. by intros r.
  - vm_compute. solve_Permutation.
  - exact sample_prompt.
Defined.
Definition sample_row : DurableWorkRow := nth_row hub request "s1" row_ids 1 "stream_chunk" [JStr "a"; JStr "b"] 400.
Lemma flush_bounded_witness :
  sample_row ∈ [] ∨ dw_kind sample_row = "error" ∨ dw_kind sample_row = "trace_data" ∨
  ∃ seq chunks, dw_payload sample_row = chunk_payload seq chunks ∧ sizes (removelast chunks) < FLUSH_BUFFER_BYTES.
Proof.
  apply (flush_bounded hub request row_ids 0 Prepared sample_events Exhausted 500 None "last" []).
  apply list_elem_of_lookup_2 with 1%nat. vm_compute. reflexivity.
Defined.
