(* ===== verification/RelayLane.v ===== *)
(** * The consumer lane of the relay (packages/agent/src/relay-processor.ts:
    processPendingDurableWork, dispatchActiveEntry, handleParsedPayload,
    handleInference, handleInferencePart, handleIntake, selectIntakeHost)

    One tick claims at most one row of every kind, dispatches it to its handler
    and settles it: consumed, released, dead-lettered, or left claimed.  The
    state is the table, the in-memory maps of the processor, and what it has set
    going: streams opened, streams aborted, local loops.  [now] is the clock
    while an entry is dispatched, [later] after its handler has been waited for;
    [uuid] gives the results of [randomUUID] in order.  The tools, resources and
    prompts behind a request, the handlers that talk to clients and the schemas'
    error texts are arguments. *)
From Stdlib Require Import Ascii.
From S2P Require Import Prelude Sql Json DurableWork RelayRouter RequestParts RelayStream InferenceStream.
Local Open Scope bound_scope.
Local Open Scope Z_scope.

Definition IDEMPOTENCY_TTL_MS : Z := 5 * 60 * 1000.
Definition DURABLE_RELAY_MAX_ATTEMPTS : Z := DURABLE_WORK_MAX_ATTEMPTS.

(** ** State *)
Record IdempotencyCacheEntry := MkCached { ce_response : string; ce_expiresAt : Z }.
Record processor := MkProcessor {
  pr_table : dw_table;
  idempotencyCache : gmap string IdempotencyCacheEntry;
  pendingCancels : gset string;
  activeInferenceStreams : gset string;
  completedInferenceParts : gset string;
  inflightPartClaimTokens : gmap string string;
  releasedPartIds : gset string;
  pr_opened : list RelayInboxEntry;        (* requests whose stream was opened *)
  pr_aborted : list string;                (* streams told to stop *)
  pr_loops : list (string * string);       (* local loops: thread and message *)
  pr_uuids : nat }.
Definition boot (t : dw_table) (uuids : nat) : processor := MkProcessor t ∅ ∅ ∅ ∅ ∅ ∅ [] [] [] uuids.

Section updates.
Variable p : processor.
Definition on_table (f : dw_table → dw_table) : processor :=
  MkProcessor (f (pr_table p)) (idempotencyCache p) (pendingCancels p) (activeInferenceStreams p) (completedInferenceParts p)
    (inflightPartClaimTokens p) (releasedPartIds p) (pr_opened p) (pr_aborted p) (pr_loops p) (pr_uuids p).
Definition on_cache (f : gmap string IdempotencyCacheEntry → gmap string IdempotencyCacheEntry) : processor :=
  MkProcessor (pr_table p) (f (idempotencyCache p)) (pendingCancels p) (activeInferenceStreams p) (completedInferenceParts p)
    (inflightPartClaimTokens p) (releasedPartIds p) (pr_opened p) (pr_aborted p) (pr_loops p) (pr_uuids p).
Definition on_cancels (f : gset string → gset string) : processor :=
  MkProcessor (pr_table p) (idempotencyCache p) (f (pendingCancels p)) (activeInferenceStreams p) (completedInferenceParts p)
    (inflightPartClaimTokens p) (releasedPartIds p) (pr_opened p) (pr_aborted p) (pr_loops p) (pr_uuids p).
Definition on_inflight (f : gmap string string → gmap string string) : processor :=
  MkProcessor (pr_table p) (idempotencyCache p) (pendingCancels p) (activeInferenceStreams p) (completedInferenceParts p)
    (f (inflightPartClaimTokens p)) (releasedPartIds p) (pr_opened p) (pr_aborted p) (pr_loops p) (pr_uuids p).
Definition on_released (f : gset string → gset string) : processor :=
  MkProcessor (pr_table p) (idempotencyCache p) (pendingCancels p) (activeInferenceStreams p) (completedInferenceParts p)
    (inflightPartClaimTokens p) (f (releasedPartIds p)) (pr_opened p) (pr_aborted p) (pr_loops p) (pr_uuids p).
Definition completed_part (requestId : string) : processor :=
  MkProcessor (pr_table p) (idempotencyCache p) (pendingCancels p) (activeInferenceStreams p) ({[requestId]} ∪ completedInferenceParts p)
    (inflightPartClaimTokens p) (releasedPartIds p) (pr_opened p) (pr_aborted p) (pr_loops p) (pr_uuids p).
Definition open_stream (e : RelayInboxEntry) : processor :=
  MkProcessor (pr_table p) (idempotencyCache p) (pendingCancels p) ({[re_id e]} ∪ activeInferenceStreams p) (completedInferenceParts p)
    (inflightPartClaimTokens p) (releasedPartIds p) (pr_opened p ++ [e]) (pr_aborted p) (pr_loops p) (pr_uuids p).
Definition abort_stream (id : string) : processor :=
  if bool_decide (id ∈ activeInferenceStreams p)
  then MkProcessor (pr_table p) (idempotencyCache p) (pendingCancels p) (activeInferenceStreams p) (completedInferenceParts p)
    (inflightPartClaimTokens p) (releasedPartIds p) (pr_opened p) (pr_aborted p ++ [id]) (pr_loops p) (pr_uuids p)
  else p.
Definition start_loop (thread message : string) : processor :=
  MkProcessor (pr_table p) (idempotencyCache p) (pendingCancels p) (activeInferenceStreams p) (completedInferenceParts p)
    (inflightPartClaimTokens p) (releasedPartIds p) (pr_opened p) (pr_aborted p) (pr_loops p ++ [(thread, message)]) (pr_uuids p).
Definition drew (n : nat) : processor :=
  MkProcessor (pr_table p) (idempotencyCache p) (pendingCancels p) (activeInferenceStreams p) (completedInferenceParts p)
    (inflightPartClaimTokens p) (releasedPartIds p) (pr_opened p) (pr_aborted p) (pr_loops p) (n + pr_uuids p).
End updates.

(** Code that changes the state and returns or throws. *)
Definition lane A : Type := processor → processor * outcome A.
Definition lane_ret {A} (a : A) : lane A := λ p, (p, inl a).
Definition lane_throw {A} (err : relay_error) : lane A := λ p, (p, inr err).
Definition lane_bind {A B} (m : lane A) (k : A → lane B) : lane B := λ p,
  match m p with
  | (p', inl a) => k a p'
  | (p', inr err) => (p', inr err)
  end.
Notation "'let*' x := m 'in' k" := (lane_bind m (fun x => k))
  (at level 10, x pattern, m at level 100, k at level 200, format "'[v' 'let*'  x  :=  m  'in' '/' k ']'") : bound_scope.
Definition lane_catch {A} (m : lane A) (handler : relay_error → lane A) : lane A := λ p,
  match m p with
  | (p', inl a) => (p', inl a)
  | (p', inr err) => handler err p'
  end.
Definition lane_get {A} (f : processor → A) : lane A := λ p, (p, inl (f p)).
Definition lane_do (f : processor → processor) : lane unit := λ p, (f p, inl ()).

(** ** Where an intake goes *)
(** What the selection reads besides the hosts: the [platforms] column, the
    affinity map, the threads' model hints, and the names of the tools (at most
    fifty) whose results a thread holds. *)
Record intake_tables := MkIntakeTables {
  it_platforms : string → option string; it_affinity : gmap string string; it_model_hint : string → option string;
  it_tools : string → list string }.
Definition json_str (v : json) : option string := match v with JStr s => Some s | _ => None end.
(** [z.array(z.string())]. *)
Definition string_array (v : json) : option (list string) := match v with JArr l => mapM json_str l | _ => None end.
Definition opt_field (k : string) (test : json → bool) (v : json) : bool :=
  match json_get k v with None => true | Some x => test x end.
Definition is_bool (v : json) : bool := match v with JBool _ => true | _ => false end.
Definition is_int (v : json) : bool := match v with JNum _ 0 => true | _ => false end.
Definition is_positive (v : json) : bool := match v with JNum m 0 => 0 <? m | _ => false end.
Definition caps_ok (v : json) : bool :=
  match v with
  | JObj _ => opt_field "streaming" is_bool v && opt_field "tool_use" is_bool v && opt_field "system_prompt" is_bool v &&
      opt_field "prompt_caching" is_bool v && opt_field "vision" is_bool v && opt_field "max_context" is_positive v
  | _ => false
  end.
Definition entry_model (v : json) : option string :=
  match v with
  | JObj _ => match json_get "id" v with
              | Some (JStr id) => if nonempty id && opt_field "tier" is_int v && opt_field "capabilities" caps_ok v then Some id else None
              | _ => None
              end
  | _ => None
  end.
(** [hostModelsSchema], as the ids it lets through. *)
Definition host_models (v : json) : option (list string) :=
  match string_array v with
  | Some ids => Some ids
  | None => match v with JArr l => mapM entry_model l | _ => None end
  end.
Definition listed (ids : option (list string)) (id : string) : bool :=
  match ids with Some l => existsb (seqb id) l | None => false end.
Definition live_hosts (hosts : list ClusterHost) : list ClusterHost := sql_select (λ h, negb (ho_deleted h)) hosts.
Definition findPlatformHost (hosts : list ClusterHost) (platforms : string → option string) (platform : string) : option string :=
  ho_site_id <$> List.find (λ h, match platforms (ho_site_id h) with
                                 | Some s => match json_parse s with
                                             | Some (JArr l) => existsb (λ v, match v with JStr p => seqb p platform | _ => false end) l
                                             | _ => false
                                             end
                                 | None => false
                                 end) (live_hosts hosts).
Definition serves_model (hint : string) (h : ClusterHost) : bool :=
  match ho_models h with
  | Some s => match json_parse s with Some v => listed (host_models v) hint | None => false end
  | None => false
  end.
Definition tool_score (tools : list string) (h : ClusterHost) : nat :=
  match ho_mcp_tools h with
  | Some s => if nonempty s then
      match json_parse s with
      | Some v => match string_array v with
                  | Some names => length (List.filter (λ t, existsb (seqb t) names) tools)
                  | None => 0
                  end
      | None => 0
      end else 0
  | None => 0
  end.
Fixpoint best_tools (tools : list string) (hosts : list ClusterHost) (best : option string) (bestScore : nat) : option string :=
  match hosts with
  | [] => best
  | h :: hosts' => if (bestScore <? tool_score tools h)%nat then best_tools tools hosts' (Some (ho_site_id h)) (tool_score tools h)
                   else best_tools tools hosts' best bestScore
  end.
Definition first_host (hosts : list ClusterHost) : option string :=
  head (stable_sort sltb (ho_site_id <$> live_hosts hosts)).
Definition selectIntakeHost (hosts : list ClusterHost) (it : intake_tables) (threadId platform : string) : option string :=
  let tier0 := if nonempty platform then findPlatformHost hosts (it_platforms it) platform else None in
  let tier1 := match it_affinity it !! threadId with
               | Some site => if nonempty site then ho_site_id <$> live_host site hosts else None
               | None => None
               end in
  let tier2 := if truthy (it_model_hint it threadId)
               then ho_site_id <$> List.find (serves_model (default "" (it_model_hint it threadId))) (live_hosts hosts) else None in
  let tier3 := match it_tools it threadId with [] => None | tools => best_tools tools (live_hosts hosts) None 0 end in
  if truthy tier0 then tier0
  else match tier1 with
       | Some site => Some site
       | None => match tier2 with
                 | Some site => Some site
                 | None => if truthy tier3 then tier3 else first_host hosts
                 end
       end.

(** ** Payloads *)
Record IntakePayload := MkIntake { in_platform : string; in_event_id : string; in_thread_id : string; in_message_id : string }.
Definition attachment_ok (v : json) : bool :=
  match v with
  | JObj _ =>
      match json_get "filename" v, json_get "content_type" v, json_get "size" v, json_get "url" v with
      | Some (JStr _), Some (JStr _), Some (JNum _ _), Some (JStr _) => opt_field "description" (λ d, match d with JStr _ => true | _ => false end) v
      | _, _, _, _ => false
      end
  | _ => false
  end.
Definition parse_intake (s : string) : option IntakePayload :=
  v ← json_parse s;
  match json_get "platform" v, json_get "platform_event_id" v, json_get "thread_id" v, json_get "message_id" v, json_get "content" v with
  | Some (JStr platform), Some (JStr event), Some (JStr thread), Some (JStr message), Some (JStr _) =>
      if nonempty platform && nonempty thread && nonempty message &&
         opt_field "attachments" (λ a, match a with JArr l => forallb attachment_ok l | _ => false end) v
      then Some (MkIntake platform event thread message) else None
  | _, _, _, _, _ => None
  end.
Definition parse_part (s : string) : option InferenceRequestPart :=
  v ← json_parse s;
  match json_get "version" v, json_get "request_id" v, json_get "index" v, json_get "count" v, json_get "data" v with
  | Some (JNum 1 0), Some (JStr id), Some (JNum index 0), Some (JNum count 0), Some (JStr data) =>
      if nonempty id && (0 <=? index) && (0 <? count) then Some (MkPart 1 id index count data) else None
  | _, _, _, _, _ => None
  end.
Definition readDurablePartsByStreamId (streamId ownSiteId kind : string) (t : dw_table) : list DurableWorkRow :=
  order_by dw_created_at
    (sql_select (λ r, col_is (dw_stream_id r) streamId && (targets ownSiteId r || targets LOCAL_WORK_TARGET r) &&
                      ((in_state Pending r || in_state Processing r) && of_kind kind r)) t).

(** ** Handlers *)
Definition part_error (text : string) : relay_error := OtherError ("Error: " +:+ text).
Definition handled_kinds : list string :=
  List.filter (λ k, negb (seqb k "cancel"))
    (List.filter (λ k, match k.2 with DSync | DAsync => true | _ => false end) RELAY_KIND_REGISTRY).*1.
Definition dispatch_of (kind : string) : option dispatch_mode := fields_get kind RELAY_KIND_REGISTRY.
Definition cache_warm_result : string :=
  json_stringify (JObj [("stdout", JStr "cache_warm acknowledged"); ("stderr", JStr ""); ("exit_code", JInt 0); ("execution_ms", JInt 0)]).

Section lane.
Variables (h : responder) (it : intake_tables) (uuid : nat → string).
(** [Buffer.from(value, "base64")] and the fatal decoder of the assembler. *)
Variables (from_base64 : string → list ascii) (decode : list ascii → result string).
(** The text of a payload's error; the model of an inference request that
    passes its schema, or the error; the state of this host for the request. *)
Variables (payload_error : string → string → string) (parse_inference : string → string + string) (prepare : string → preparation).
(** The tools, resources, prompts and platforms behind a parsed request, waited
    for while the table may change; the handlers of the other kinds. *)
Variables (execute : RelayInboxEntry → json → dw_table → dw_table * outcome string)
  (other_handler : RelayInboxEntry → lane (option string)).

Definition send_response (now : Z) (e : RelayInboxEntry) (kind payload : string) : lane unit := λ p,
  match writeResponse h (uuid (pr_uuids p)) now e kind payload (pr_table p) with
  | inl t' => (on_table (drew p 1) (λ _, t'), inl ())
  | inr err => (p, inr err)
  end.
Definition invalid_payload {A} (now : Z) (e : RelayInboxEntry) (text : string) : lane A :=
  let* _ := send_response now e "error" (error_payload ("Invalid payload: " +:+ text) false) in
  lane_throw PayloadParseError.
(** [handleParsedPayload] with [parseJsonUntyped]. *)
Definition handleParsedPayload (now : Z) (e : RelayInboxEntry) : lane (option string) :=
  match json_parse (re_payload e) with
  | None => invalid_payload now e (payload_error (re_kind e) (re_payload e))
  | Some v => λ p,
      let '(t', res) := execute e v (pr_table p) in
      (on_table p (λ _, t'), match res with inl s => inl (Some s) | inr err => inr err end)
  end.

Definition handleInference (now : Z) (e : RelayInboxEntry) : lane (option string) :=
  match parse_inference (re_payload e) with
  | inr text => invalid_payload now e text
  | inl model =>
      let target := re_source_site_id e in
      if nonempty target && negb (seqb target (rs_site h)) &&
         negb (shouldRouteRelayDurable (rs_hosts h) (rs_sync_state h) target (rs_site h) (rs_role h))
      then lane_throw (RelayResponseRoutingError target
             ("inference response target " +:+ target +:+
              " does not advertise work_spool_capable; no legacy fallback after release N+1 (stale hosts snapshot or version-skewed peer)"))
      else λ p,
        match begin_inference h (uuid (pr_uuids p)) now e (prepare (re_payload e)) (pr_table p) with
        | (inl t', Some _) => (open_stream (on_table p (λ _, t')) e, inl None)
        | (inl t', None) => (on_table (drew p 1) (λ _, t'), inl None)
        | (inr _, _) => (p, inl None)      (* the promise is rejected and logged *)
        end
  end.

(** The envelope test and the assembly over the rows of a request. *)
Definition envelope_ok (e : RelayInboxEntry) (r : DurableWorkRow) : bool :=
  seqb (default (re_source_site_id e) (dw_source_site r)) (re_source_site_id e) &&
  bool_decide (dw_stream_id r = re_stream_id e) && (default (re_expires_at e) (dw_expires_at r) =? re_expires_at e).
Fixpoint assemble_rows (e : RelayInboxEntry) (rows : list DurableWorkRow) (s : assembler) (serialized : option string) : outcome (option string) :=
  match rows with
  | [] => inl serialized
  | r :: rows' =>
      if negb (envelope_ok e r) then inr (part_error "Conflicting multipart inference request envelope")
      else match parse_part (dw_payload r) with
           | None => inr (part_error ("Invalid multipart inference payload: " +:+ payload_error (dw_kind r) (dw_payload r)))
           | Some part =>
               match add_part from_base64 decode part s with
               | (_, Throw m) => inr (part_error m)
               | (s', Ok completed) => assemble_rows e rows' s' (match completed with Some x => Some x | None => serialized end)
               end
           end
  end.
(** [consumeInferenceParts]. *)
Definition consumeInferenceParts (now : Z) (allIds : list string) : lane bool := λ p,
  if (length allIds =? 0)%nat then (p, inl false)
  else
    let preClaimed := filter (λ kv : string * string, kv.1 ∈ allIds) (inflightPartClaimTokens p) in
    let '(t', consumed) := claimAndConsumeDurableWorkByIds (λ n, uuid (pr_uuids p + n)%nat) now now allIds (rs_site h) preClaimed (pr_table p) in
    (on_table (drew p (length allIds)) (λ _, t'), inl consumed).
Definition release_part (id : string) (p : processor) : processor :=
  match inflightPartClaimTokens p !! id with
  | Some token => if nonempty token
                  then on_released (on_table p (λ t, (releaseDurableWorkClaim id token t).1)) (λ s, {[id]} ∪ s)
                  else p
  | None => p
  end.
Definition synthetic (e : RelayInboxEntry) (requestId serialized : string) : RelayInboxEntry :=
  MkInbox requestId (re_source_site_id e) "inference" None None (re_stream_id e) serialized (re_expires_at e) (re_received_at e)
    (re_trace_context e).
Definition handleInferencePart (now : Z) (e : RelayInboxEntry) : lane (option string) :=
  match parse_part (re_payload e) with
  | None => lane_throw (part_error ("Invalid multipart inference payload: " +:+ payload_error (re_kind e) (re_payload e)))
  | Some part =>
      if negb (truthy (re_ref_id e)) then lane_throw (part_error "Invalid multipart inference payload: missing ref_id")
      else if negb (col_is (re_ref_id e) (ip_request_id part)) then lane_throw (part_error "Multipart request_id/ref_id mismatch")
      else
        let* completed := lane_get (λ p, bool_decide (ip_request_id part ∈ completedInferenceParts p)) in
        if completed then lane_ret None
        else if negb (truthy (re_stream_id e)) then lane_throw (part_error "Multipart inference part missing stream_id")
        else
          let* rows := lane_get (λ p, readDurablePartsByStreamId (default "" (re_stream_id e)) (rs_site h) "inference_part" (pr_table p)) in
          match assemble_rows e rows ∅ None with
          | inr err => lane_throw err
          | inl None => lane_ret None
          | inl (Some serialized) =>
              let* cancelled := lane_get (λ p, bool_decide (ip_request_id part ∈ pendingCancels p)) in
              if cancelled then let* _ := lane_do (λ p, on_cancels p (λ s, s ∖ {[ip_request_id part]})) in lane_ret None
              else
                let* consumed := consumeInferenceParts now (dw_id <$> rows) in
                if consumed then
                  let* _ := lane_do (λ p, completed_part p (ip_request_id part)) in
                  let* _ := handleInference now (synthetic e (ip_request_id part) serialized) in
                  lane_ret None
                else let* _ := lane_do (release_part (re_id e)) in lane_ret None
          end
  end.

Definition intake_key (i : IntakePayload) : string := "intake:" +:+ in_platform i +:+ ":" +:+ in_event_id i.
Definition forward_params (e : RelayInboxEntry) (target key : string) : RouteParams :=
  MkRoute target (re_source_site_id e) "intake" (re_payload e) (5 * 60 * 1000) (Some (re_id e)) (Some key) None None (rs_role h).
Definition cache_hit (now : Z) (key : string) (p : processor) : option IdempotencyCacheEntry :=
  match idempotencyCache p !! key with
  | Some c => if now <? ce_expiresAt c then Some c else None
  | None => None
  end.
(** The carrier of an active span is left out of the forwarded row. *)
Definition handleIntake (now : Z) (e : RelayInboxEntry) : lane (option string) :=
  match parse_intake (re_payload e) with
  | None => lane_throw PayloadParseError
  | Some i =>
      let key := intake_key i in
      let* cached := lane_get (cache_hit now key) in
      match cached with
      | Some _ => lane_ret None
      | None =>
          let* _ := lane_do (λ p, on_cache p (<[key := MkCached "" (now + IDEMPOTENCY_TTL_MS)]>)) in
          match selectIntakeHost (rs_hosts h) it (in_thread_id i) (in_platform i) with
          | None => lane_ret None
          | Some target =>
              if negb (nonempty target) then lane_ret None
              else if seqb target (rs_site h)
              then let* _ := lane_do (λ p, start_loop p (in_thread_id i) (in_message_id i)) in lane_ret None
              else λ p,
                match routeRelayRequest (uuid (pr_uuids p)) false false now (rs_hosts h) (rs_sync_state h) (forward_params e target key) (pr_table p) with
                | Throw m => (drew p 1, inr (OtherError ("InvalidDurableWorkRowError: " +:+ m)))
                | Ok (_, Unroutable site reason, _) => (p, inr (RelayResponseRoutingError site reason))
                | Ok (t', Routed _ _ _, _) => (on_table (drew p 1) (λ _, t'), inl None)
                end
          end
      end
  end.

(** [handlerMap]. *)
Definition handlerMap (kind : string) : option (Z → RelayInboxEntry → lane (option string)) :=
  if negb (existsb (seqb kind) handled_kinds) then None
  else if seqb kind "inference" then Some handleInference
  else if seqb kind "inference_part" then Some handleInferencePart
  else if seqb kind "intake" then Some handleIntake
  else if seqb kind "cache_warm" then Some (λ _ _, lane_ret (Some cache_warm_result))
  else match dispatch_of kind with
       | Some DSync => Some handleParsedPayload
       | _ => Some (λ _, other_handler)
       end.

(** ** Dispatch *)
Definition dispatchActiveEntry (now later : Z) (e : RelayInboxEntry) : lane unit :=
  if re_expires_at e <? now then lane_ret ()
  else
    let* cancelled := lane_get (λ p, bool_decide (re_id e ∈ pendingCancels p)) in
    if cancelled then lane_do (λ p, on_cancels p (λ s, s ∖ {[re_id e]}))
    else
      let key := if truthy (re_idempotency_key e) then re_idempotency_key e else None in
      let* cached := lane_get (λ p, k ← key; cache_hit now k p) in
      match cached with
      | Some c => send_response now e "result" (ce_response c)
      | None =>
          let* _ := lane_do (λ p, match key with Some k => on_cache p (delete k) | None => p end) in
          match handlerMap (re_kind e) with
          | None => lane_ret ()
          | Some handler =>
              let* handled := lane_catch (let* r := handler now e in lane_ret (Some r))
                (λ err, match err with
                        | PayloadParseError => lane_ret None
                        | _ => let* _ := send_response later e "error" (error_payload (error_text err) true) in lane_ret None
                        end) in
              match handled with
              | Some (Some response) =>
                  let* _ := send_response later e "result" response in
                  match key with
                  | Some k => lane_do (λ p, on_cache p (<[k := MkCached response (later + IDEMPOTENCY_TTL_MS)]>))
                  | None => lane_ret ()
                  end
              | _ => lane_ret ()
              end
          end
      end.

(** ** The lane *)
Definition acknowledge (later : Z) (r : DurableWorkRow) (p : processor) : processor :=
  match dw_claim_token r with
  | Some token => if nonempty token then on_table p (λ t, (acknowledgeDurableWork later (dw_id r) token t).1) else p
  | None => p
  end.
Definition bury (later : Z) (r : DurableWorkRow) (why : string) (p : processor) : processor :=
  on_table p (λ t, (deadLetterClaimedDurableWork (dw_id r) (default "" (dw_claim_token r)) why later t).1).
Definition bury_spent (later : Z) (r : DurableWorkRow) (why : string) (p : processor) : processor :=
  if DURABLE_RELAY_MAX_ATTEMPTS <=? dw_attempt_count r then bury later r why p else p.
Definition inbox_entry (now : Z) (r : DurableWorkRow) : RelayInboxEntry :=
  MkInbox (dw_id r) (default "" (dw_source_site r)) (dw_kind r) (dw_ref_id r) (Some (dw_idempotency_key r)) (dw_stream_id r) (dw_payload r)
    (default (now + 5 * 60 * 1000) (dw_expires_at r)) (default (dw_created_at r) (dw_received_at r)) (dw_trace_context r).
(** What becomes of a claimed row once its dispatch has ended. *)
Definition settle_claim (later : Z) (r : DurableWorkRow) (res : processor * outcome unit) : processor :=
  match res with
  | (p, inl _) =>
      if bool_decide (dw_id r ∈ releasedPartIds p) then on_released p (λ s, s ∖ {[dw_id r]}) else acknowledge later r p
  | (p, inr (RelayResponseRoutingError target reason)) => bury later r (routing_message target reason) p
  | (p, inr err) => bury_spent later r (error_text err) p
  end.
Definition process_claimed (now later : Z) (r : DurableWorkRow) (p : processor) : processor :=
  if seqb (dw_kind r) "cancel" then
    acknowledge now r
      (if truthy (dw_ref_id r)
       then let id := default "" (dw_ref_id r) in abort_stream (on_cancels p (λ s, {[id]} ∪ s)) id
       else p)
  else
    match handlerMap (dw_kind r) with
    | None => bury_spent now r ("No active relay handler for durable kind " +:+ dw_kind r) p
    | Some _ =>
        if match dispatch_of (dw_kind r) with Some DSync => true | _ => false end && negb (truthy (dw_source_site r))
        then bury now r ("durable " +:+ dw_kind r +:+ " row missing source_site; response cannot be addressed") p
        else
          let p1 := if seqb (dw_kind r) "inference_part" && truthy (dw_claim_token r)
                    then on_inflight p (<[dw_id r := default "" (dw_claim_token r)]>) else p in
          let '(p2, res) := dispatchActiveEntry now later (inbox_entry now r) p1 in
          settle_claim later r (on_inflight p2 (delete (dw_id r)), res)
    end.
(** The kinds the lane takes, in registry order. *)
Definition lane_kinds : list string :=
  List.filter (λ k, match dispatch_of k with Some DSync | Some DAsync => true | _ => false end) (DURABLE_WORK_REGISTRY.*1).
(** The own site first, then the local sentinel. *)
Definition claim_kind (token : string) (now : Z) (kind : string) (t : dw_table) : dw_table * option DurableWorkRow :=
  match claimLocalDurableWork token now (rs_site h) (Some kind) t with
  | (t', Some r) => (t', Some r)
  | (_, None) =>
      if seqb (rs_site h) LOCAL_WORK_TARGET then (t, None)
      else claimLocalDurableWork token now LOCAL_WORK_TARGET (Some kind) t
  end.
Definition process_kind (now later : Z) (kind : string) (p : processor) : processor :=
  match claim_kind (uuid (pr_uuids p)) now kind (pr_table p) with
  | (_, None) => p
  | (t', Some r) => process_claimed now later r (on_table (drew p 1) (λ _, t'))
  end.
(** One tick; [clock] gives the times of a kind's turn. *)
Definition processPendingDurableWork (clock : string → Z * Z) (p : processor) : processor :=
  foldl (λ p kind, process_kind (clock kind).1 (clock kind).2 kind p) p lane_kinds.
Definition pruneIdempotencyCache (now : Z) (p : processor) : processor :=
  on_cache p (filter (λ kv : string * IdempotencyCacheEntry, now < ce_expiresAt kv.2)).
End lane.

(** What a restart does to the table (packages/cli/src/commands/start/bootstrap.ts). *)
Definition boot_recovery (t : dw_table) : dw_table :=
  (resetTransferringLocalDurableWork (resetProcessingDurableWork LOCAL_WORK_TARGET t).1).1.

(** * Properties *)

(** ** What a written response leaves in the table *)
Definition answered (id : string) (t : dw_table) : Prop :=
  ∃ a, a ∈ t ∧ dw_idempotency_key a = "response:" +:+ id ∧ (dw_kind a = "result" ∨ dw_kind a = "error").
Lemma route_response_cases h uuid now p t t' : route_response h uuid now p t = inl t' →
  (t' = t ∧ ∃ old, old ∈ t ∧ dw_clash old (response_row uuid now p) = true) ∨ t' = t ++ [response_row uuid now p].
Proof.
  unfold route_response, routeRelayResponse, route. destruct (negb _ && _); [done|]; simpl.
  unfold insertDurableWork. destruct (validateDurableWork (route_row uuid now p)); simpl; [|done].
  destruct (insert_or_ignore_cases dw_clash (new_row now (route_row uuid now p)) t) as [[-> Hold]|[-> _]]; simpl; intros [= <-]; auto.
Qed.
Lemma writeResponse_cases h uuid now e kind payload t t' : writeResponse h uuid now e kind payload t = inl t' →
  ∃ row, dw_id row = uuid ∧ dw_kind row = kind ∧ dw_idempotency_key row = "response:" +:+ re_id e ∧
    ((t' = t ∧ ∃ old, old ∈ t ∧ dw_clash old row = true) ∨ t' = t ++ [row]).
Proof. unfold writeResponse. case_match; [|done]. intros H1%route_response_cases. eexists. split_and!; [| | |exact H1]; done. Qed.

Section settled.
Variables (h : responder) (it : intake_tables) (uuid : nat → string).
Variables (from_base64 : string → list ascii) (decode : list ascii → result string).
Variables (payload_error : string → string → string) (parse_inference : string → string + string) (prepare : string → preparation).
Variables (execute : RelayInboxEntry → json → dw_table → dw_table * outcome string) (other_handler : RelayInboxEntry → lane (option string)).
Hypothesis uuid_inj : ∀ n m, uuid n = uuid m → n = m.
(** No row has an id that [randomUUID] has yet to return. *)
Definition unused (p : processor) : Prop := ∀ r n, r ∈ pr_table p → (pr_uuids p ≤ n)%nat → dw_id r ≠ uuid n.
(** While a request is executed others may write the table, but the request's
    own row is left alone, and new ids are new. *)
Definition minds_its_row : Prop := ∀ e v t, keys_unique dw_id t →
  keys_unique dw_id (execute e v t).1 ∧ row_at dw_id (re_id e) (execute e v t).1 = row_at dw_id (re_id e) t ∧
  (execute e v t).2 ≠ inr PayloadParseError ∧ (answered (re_id e) t → answered (re_id e) (execute e v t).1) ∧
  ∀ r, r ∈ (execute e v t).1 → (∃ r', r' ∈ t ∧ dw_id r' = dw_id r) ∨ ∀ n, dw_id r ≠ uuid n.
Hypothesis Hexec : minds_its_row.

(** The row of the request is where it was and can be settled. *)
Definition holds_row (id : string) (p p' : processor) : Prop :=
  row_at dw_id id (pr_table p') = row_at dw_id id (pr_table p) ∧ keys_unique dw_id (pr_table p') ∧ unused p' ∧
  releasedPartIds p' = releasedPartIds p ∧ (answered id (pr_table p) → answered id (pr_table p')).
Definition ready (id : string) (p : processor) : Prop :=
  keys_unique dw_id (pr_table p) ∧ unused p ∧ is_Some (row_at dw_id id (pr_table p)).
Lemma holds_refl id p : ready id p → holds_row id p p.
Proof. intros (? & ? & _). by split_and!. Qed.
Lemma send_response_spec now e kind payload p : ready (re_id e) p → kind = "result" ∨ kind = "error" →
  let '(p', res) := send_response h uuid now e kind payload p in
  holds_row (re_id e) p p' ∧ (res = inl () → answered (re_id e) (pr_table p')).
Proof using uuid_inj.
  intros (Hk & Hu & r & Hr) Hkind. unfold send_response.
  destruct (writeResponse h (uuid (pr_uuids p)) now e kind payload (pr_table p)) as [t'|err] eqn:E; [|split; [by apply holds_refl|done]].
  apply writeResponse_cases in E as (row & Hid & Hrk & Hkey & [[-> (old & Hold & Hc)]| ->]).
  - assert (answered (re_id e) (pr_table p)) as Ha.
    { exists old. unfold dw_clash in Hc. apply orb_prop in Hc as [Hc|Hc].
      - apply seqb_true in Hc. by destruct (Hu old (pr_uuids p) Hold ltac:(lia)); rewrite Hc.
      - apply andb_prop in Hc as [H1%seqb_true H2%seqb_true]. rewrite H1, H2, Hrk. done. }
    split; [|done]. split_and!; try done. intros r' n Hr' Hn. apply Hu; [done|]. simpl in Hn. lia.
  - assert (answered (re_id e) (pr_table p ++ [row])) as Ha by (exists row; split_and!; [apply elem_of_app; right; by left|done|by rewrite Hrk]).
    split; [|done]. unfold holds_row. cbn [on_table pr_table pr_uuids drew releasedPartIds]. split_and!; try done.
    + by rewrite row_at_app, Hr.
    + unfold keys_unique. apply NoDup_insert_fresh; [done|]. intros old Hold. rewrite Hid. by apply Hu.
    + intros r' n Hr' Hn. change (r' ∈ pr_table p ++ [row]) in Hr'. rewrite elem_of_app, list_elem_of_singleton in Hr'.
      cbn [pr_uuids on_table drew] in Hn. destruct Hr' as [Hr'| ->].
      * apply Hu; [done|lia].
      * rewrite Hid. intros Heq%uuid_inj. lia.
Qed.

Lemma holds_trans id p1 p2 p3 : holds_row id p1 p2 → holds_row id p2 p3 → holds_row id p1 p3.
Proof. intros (H1 & H2 & H3 & H4 & H5) (H1' & H2' & H3' & H4' & H5'). split_and!; [congruence|done|done|congruence|auto]. Qed.
Lemma holds_ready id p p' : ready id p → holds_row id p p' → ready id p'.
Proof. intros (_ & _ & Hr) (H1 & H2 & H3 & _). split_and!; [done|done|by rewrite H1]. Qed.

Lemma invalid_payload_spec now e text p : ready (re_id e) p →
  let '(p', res) := invalid_payload (A:=option string) h uuid now e text p in
  holds_row (re_id e) p p' ∧ (∀ s, res ≠ inl s) ∧ (res = inr PayloadParseError → answered (re_id e) (pr_table p')).
Proof using uuid_inj.
  intros Hr. pose proof (send_response_spec now e "error" (error_payload ("Invalid payload: " +:+ text) false) p Hr (or_intror eq_refl)) as H.
  unfold invalid_payload, lane_bind. destruct (send_response _ _ _ _ _ _ p) as [p' [[]|err]] eqn:E; destruct H as [H1 H2]; (split; [done|split; [done|]]).
  - intros _. by apply H2.
  - intros [= ->]. unfold send_response, writeResponse, route_response, routeRelayResponse, route in E. repeat case_match; simplify_eq.
Qed.

Definition handler_settles (e : RelayInboxEntry) (p : processor) (res : processor * outcome (option string)) : Prop :=
  holds_row (re_id e) p res.1 ∧ match res.2 with
                               | inl s => is_Some s
                               | inr err => err = PayloadParseError → answered (re_id e) (pr_table res.1)
                               end.
Lemma handleParsedPayload_spec now e p : ready (re_id e) p →
  handler_settles e p (handleParsedPayload h uuid payload_error execute now e p).
Proof using uuid_inj Hexec.
  intros Hr. unfold handleParsedPayload. destruct (json_parse (re_payload e)) as [v|].
  - pose proof Hr as (Hk & Hu & Hrow). destruct (Hexec e v (pr_table p) Hk) as (Hk' & Hrow' & Hne & Ha & Hids).
    destruct (execute e v (pr_table p)) as [t' res]. simpl in *. split; [|destruct res as [s|err]; simpl; [by eexists|intros ->; done]].
    split_and!; try done. intros r n Hr' Hn. simpl in Hr', Hn. destruct (Hids r Hr') as [(r' & Hr'' & <-)|H]; [by apply Hu|apply H].
  - pose proof (invalid_payload_spec now e (payload_error (re_kind e) (re_payload e)) p Hr) as H.
    destruct (invalid_payload _ _ _ _ _ p) as [p' res]. destruct H as (H1 & H2 & H3). split; [done|]. simpl. destruct res as [s|err]; [by destruct (H2 s)|].
    intros ->. by apply H3.
Qed.

Notation handler_of kind := (handlerMap h it uuid from_base64 decode payload_error parse_inference prepare execute other_handler kind).
Lemma sync_kinds kind : dispatch_of kind = Some DSync →
  kind ∈ ["tool_call"; "resource_read"; "prompt_invoke"; "cache_warm"; "platform_request"].
Proof.
  unfold dispatch_of, RELAY_KIND_REGISTRY. cbn [fields_get].
  repeat match goal with
  | |- context [if seqb ?k kind then _ else _] =>
      destruct (seqb k kind) eqn:?; [match goal with H : _ = true |- _ => apply seqb_true in H; subst end; intros [=]; by repeat constructor|]
  end.
  discriminate.
Qed.
Lemma sync_handler_spec kind now e p : dispatch_of kind = Some DSync → ready (re_id e) p →
  ∃ handler, handler_of kind = Some handler ∧ handler_settles e p (handler now e p).
Proof using uuid_inj Hexec.
  intros Hk%sync_kinds Hr. rewrite !elem_of_cons, elem_of_nil in Hk.
  destruct Hk as [-> |[-> |[-> |[-> |[-> |[]]]]]]; (eexists; split;
      [unfold handlerMap; match goal with |- context [existsb ?f ?l] => replace (existsb f l) with true by (by vm_compute) end; reflexivity|]);
    [by apply handleParsedPayload_spec..| |by apply handleParsedPayload_spec].
  split; [by apply holds_refl|by eexists].
Qed.

(** Dispatching a synchronous request leaves its row to be settled, and unless
    it has expired or was cancelled it is answered when nothing is thrown. *)
Lemma dispatch_sync_spec now later e p : dispatch_of (re_kind e) = Some DSync → ready (re_id e) p →
  let '(p', res) := dispatchActiveEntry h it uuid from_base64 decode payload_error parse_inference prepare execute other_handler now later e p in
  holds_row (re_id e) p p' ∧ (res = inl () → re_expires_at e < now ∨ re_id e ∈ pendingCancels p ∨ answered (re_id e) (pr_table p')).
Proof using uuid_inj Hexec.
  intros Hk Hr. unfold dispatchActiveEntry. destruct (Z.ltb_spec (re_expires_at e) now) as [Hexp|_].
  { split; [by apply holds_refl|]. auto. }
  unfold lane_bind at 1, lane_get at 1. case_bool_decide as Hc.
  { split; [|auto]. by split_and!; try apply Hr. }
  set (key := if truthy (re_idempotency_key e) then _ else _). unfold lane_bind at 1, lane_get at 1.
  destruct (key ≫= _) as [c|].
  { pose proof (send_response_spec now e "result" (ce_response c) p Hr (or_introl eq_refl)) as H.
    destruct (send_response _ _ _ _ _ _ p) as [p' res]. destruct H as [H1 H2]. split; [done|]. auto. }
  unfold lane_bind at 1, lane_do at 1. set (p1 := match key with Some k => _ | None => p end).
  assert (holds_row (re_id e) p p1) as H1.
  { unfold p1. destruct key; [|by apply holds_refl]. by split_and!; try apply Hr. }
  assert (ready (re_id e) p1) as Hr1 by (by eapply holds_ready).
  destruct (sync_handler_spec (re_kind e) now e p1 Hk Hr1) as (handler & Hh & Hs). rewrite Hh. clearbody p1.
  unfold lane_bind at 1, lane_catch, lane_bind at 1. destruct (handler now e p1) as [p2 [s|err]]; destruct Hs as [H2 H3]; simpl in H2, H3.
  - destruct H3 as [response ->]. cbn [lane_ret].
    assert (ready (re_id e) p2) as Hr2 by (by eapply holds_ready).
    pose proof (send_response_spec later e "result" response p2 Hr2 (or_introl eq_refl)) as H. unfold lane_bind.
    destruct (send_response _ _ _ _ _ _ p2) as [p3 [[]|err]]; destruct H as [H4 H5].
    + assert (holds_row (re_id e) p p3) as H6 by (by eapply holds_trans, holds_trans).
      destruct key; cbn; (split; [|intros _; right; right; by apply H5]); [|done].
      by destruct H6 as (? & ? & ? & ? & ?); split_and!.
    + split; [by eapply holds_trans, holds_trans|done].
  - assert (ready (re_id e) p2) as Hr2 by (by eapply holds_ready).
    assert (holds_row (re_id e) p p2) as H4 by (by eapply holds_trans).
    pose proof (send_response_spec later e "error" (error_payload (error_text err) true) p2 Hr2 (or_intror eq_refl)) as H.
    destruct err; [cbn; split; [done|]; intros _; right; right; by apply H3|..];
      (unfold lane_bind; destruct (send_response _ _ _ _ _ _ p2) as [p3 [[]|err]]; destruct H as [H5 H6]; cbn;
       (split; [by eapply holds_trans|]); [intros _; right; right; by apply H6|done]).
Qed.

(** The two ways a claimed row is settled. *)
Definition held (id tok : string) (r : DurableWorkRow) (t : dw_table) : Prop :=
  keys_unique dw_id t ∧ row_at dw_id id t = Some r ∧ dw_claim_state r = Processing ∧ dw_claim_token r = Some tok ∧ nonempty tok = true.
Lemma update_held f id tok r t : held id tok r t → (∀ x, dw_id (f x) = dw_id x) →
  row_at dw_id id (sql_update (owned_by Processing id tok) f t) = Some (f r).
Proof.
  intros (Hk & Hr & Hs & Ht & _) Hf. unfold owned_by.
  destruct (update_id_spec (λ r, in_state Processing r && holds_token tok r) f id t Hk Hf) as [_ ->]. rewrite Hr. simpl.
  by rewrite seqb_refl, (proj2 (in_state_true _ _) Hs), (proj2 (holds_token_true _ _) Ht).
Qed.
Lemma acknowledge_held later id tok r p : held id tok r (pr_table p) → dw_id r = id →
  row_at dw_id id (pr_table (acknowledge later r p)) = Some (consume_set later r).
Proof.
  intros Hh Hid. destruct Hh as (? & ? & ? & Ht & Hn) eqn:E. unfold acknowledge. rewrite Ht, Hn. subst id. simpl. by apply update_held.
Qed.
Lemma bury_held later id tok r why p : held id tok r (pr_table p) → dw_id r = id →
  row_at dw_id id (pr_table (bury later r why p)) = Some (dead_set later (Some why) false r).
Proof. intros Hh Hid. destruct Hh as (? & ? & ? & Ht & Hn) eqn:E. unfold bury. rewrite Ht. subst id. simpl. by apply update_held. Qed.
Lemma answered_update id q f t : (∀ r, same_work r (f r)) → answered id t → answered id (sql_update q f t).
Proof.
  intros Hf (a & Ha & Hkey & Hkind). destruct (Hf a) as (_ & _ & Hk & _ & Hi & _). exists (if q a then f a else a). split_and!.
  - apply list_elem_of_fmap. eauto.
  - destruct (q a); [by rewrite Hi|done].
  - destruct (q a); [by rewrite Hk|done].
Qed.

(** C8: No synchronous request is consumed unanswered.  When its turn is over the
    claimed row is consumed, and then it had expired, was cancelled, or its
    result or error is written under its id; or it is a dead letter, because
    nobody can be answered, because the answer cannot be routed, or because the
    last attempt failed; or it is still claimed, after a failure that was not
    the last. *)
Theorem request_settled now later r p tok :
  dispatch_of (dw_kind r) = Some DSync → held (dw_id r) tok r (pr_table p) → unused p → dw_id r ∉ releasedPartIds p →
  let p' := process_claimed h it uuid from_base64 decode payload_error parse_inference prepare execute other_handler now later r p in
  ∃ r', row_at dw_id (dw_id r) (pr_table p') = Some r' ∧
    match dw_claim_state r' with
    | Consumed => re_expires_at (inbox_entry now r) < now ∨ dw_id r ∈ pendingCancels p ∨ answered (dw_id r) (pr_table p')
    | DeadLetter => truthy (dw_source_site r) = false ∨ DURABLE_RELAY_MAX_ATTEMPTS ≤ dw_attempt_count r ∨
                    ∃ target reason, dw_last_error r' = Some (routing_message target reason)
    | Processing => r' = r ∧ dw_attempt_count r < DURABLE_RELAY_MAX_ATTEMPTS
    | _ => False
    end.
Proof using uuid_inj Hexec.
  intros Hk Hheld Hu Hrel. cbv zeta. unfold process_claimed.
  assert (seqb (dw_kind r) "cancel" = false ∧ seqb (dw_kind r) "inference_part" = false) as [-> ->].
  { pose proof (sync_kinds _ Hk) as H. rewrite !elem_of_cons, elem_of_nil in H. by destruct H as [-> |[-> |[-> |[-> |[-> |[]]]]]]. }
  assert (ready (dw_id r) p) as Hr by (destruct Hheld as (? & ? & _); split_and!; [done|done|by eexists]).
  destruct (sync_handler_spec (dw_kind r) now (inbox_entry now r) p Hk Hr) as (handler & Hh & _). rewrite Hh, Hk. cbn [andb].
  destruct (truthy (dw_source_site r)) eqn:Es; cbn [negb].
  2: { eexists. split; [by eapply bury_held|]. simpl. by left. }
  pose proof (dispatch_sync_spec now later (inbox_entry now r) p Hk Hr) as H.
  destruct (dispatchActiveEntry _ _ _ _ _ _ _ _ _ _ _ _ _ p) as [p2 res]. destruct H as [(H1 & H2 & H3 & H4 & H5) H6]. cbn [re_id inbox_entry] in *.
  set (p3 := on_inflight p2 (delete (dw_id r))).
  assert (held (dw_id r) tok r (pr_table p3)) as Hheld3.
  { destruct Hheld as (? & ? & ? & ? & ?). split_and!; try done. simpl. by rewrite H1. }
  unfold settle_claim. destruct res as [[]|err].
  - rewrite bool_decide_false by (simpl; by rewrite H4). exists (consume_set later r). split; [by eapply acknowledge_held|]. simpl.
    destruct (H6 eq_refl) as [?|[?|Ha]]; [by left|right; by left|right; right].
    unfold acknowledge. destruct Hheld as (_ & _ & _ & -> & ->). simpl. by apply answered_update.
  - assert (∀ why, ∃ r', row_at dw_id (dw_id r) (pr_table (bury_spent later r why p3)) = Some r' ∧
      match dw_claim_state r' with
      | DeadLetter => DURABLE_RELAY_MAX_ATTEMPTS ≤ dw_attempt_count r
      | Processing => r' = r ∧ dw_attempt_count r < DURABLE_RELAY_MAX_ATTEMPTS
      | _ => False
      end) as Hspent.
    { intros why. unfold bury_spent. destruct (Z.leb_spec DURABLE_RELAY_MAX_ATTEMPTS (dw_attempt_count r)) as [Hl|Hl].
      - eexists. split; [by eapply bury_held|]. done.
      - exists r. destruct Hheld3 as (_ & ? & Hs & _). split; [done|]. by rewrite Hs. }
    assert (∀ why, ∃ r', row_at dw_id (dw_id r) (pr_table (bury_spent later r why p3)) = Some r' ∧
      match dw_claim_state r' with
      | Consumed => False
      | DeadLetter => true = false ∨ DURABLE_RELAY_MAX_ATTEMPTS ≤ dw_attempt_count r ∨
                      ∃ target reason, dw_last_error r' = Some (routing_message target reason)
      | Processing => r' = r ∧ dw_attempt_count r < DURABLE_RELAY_MAX_ATTEMPTS
      | _ => False
      end) as Hfail.
    { intros why. destruct (Hspent why) as (r' & ? & Hst). exists r'. split; [done|]. revert Hst. destruct (dw_claim_state r'); try done. intros Hst. right. by left. }
    destruct err as [|target reason|text].
    + destruct (Hfail (error_text PayloadParseError)) as (r' & ? & Hst). exists r'. split; [done|]. revert Hst. by destruct (dw_claim_state r').
    + eexists. split; [by eapply bury_held|]. right. right. by exists target, reason.
    + destruct (Hfail (error_text (OtherError text))) as (r' & ? & Hst). exists r'. split; [done|]. revert Hst. by destruct (dw_claim_state r').
Qed.
End settled.

(** ** Intakes *)
Definition is_live (hosts : list ClusterHost) (site : string) : Prop := ∃ h, h ∈ hosts ∧ ho_deleted h = false ∧ ho_site_id h = site.
Lemma elem_of_live_hosts hosts h : h ∈ live_hosts hosts ↔ h ∈ hosts ∧ ho_deleted h = false.
Proof. unfold live_hosts. by rewrite elem_of_select, negb_true_iff. Qed.
Lemma found_live (f : ClusterHost → bool) hosts site : ho_site_id <$> List.find f (live_hosts hosts) = Some site → is_live hosts site.
Proof.
  destruct (List.find f (live_hosts hosts)) as [h|] eqn:E; [|done]. intros [= <-].
  apply find_elem in E as [[? ?]%elem_of_live_hosts _]. by exists h.
Qed.
Lemma best_tools_live tools hosts best n site : best_tools tools hosts best n = Some site →
  best = Some site ∨ ∃ h, h ∈ hosts ∧ ho_site_id h = site.
Proof.
  revert best n. induction hosts as [|h hosts IH]; intros best n; cbn [best_tools]; [auto|]. case_match.
  - intros [[= <-]|(h' & ? & ?)]%IH; right; [by exists h; split; [left|]|exists h'; split; [by right|done]].
  - intros [?|(h' & ? & ?)]%IH; [by left|right; exists h'; split; [by right|done]].
Qed.
Lemma first_host_live hosts : match first_host hosts with Some site => is_live hosts site | None => live_hosts hosts = [] end.
Proof.
  unfold first_host. destruct (stable_sort sltb _) as [|s l] eqn:E.
  - pose proof (length_stable_sort sltb (ho_site_id <$> live_hosts hosts)) as H. rewrite E, length_fmap in H. by destruct (live_hosts hosts).
  - cbn [head]. assert (s ∈ stable_sort sltb (ho_site_id <$> live_hosts hosts)) as Hs by (rewrite E; left).
    apply elem_of_stable_sort, list_elem_of_fmap in Hs as (h & -> & [? ?]%elem_of_live_hosts). by exists h.
Qed.

(** An intake goes to a host that has not been deleted; to one that runs the
    platform if there is any; and nowhere only when there is no host at all. *)
Theorem intake_host hosts it threadId platform :
  (∀ h, h ∈ hosts → ho_site_id h ≠ "") →
  match selectIntakeHost hosts it threadId platform with
  | Some site => is_live hosts site ∧
      (platform ≠ "" → is_Some (findPlatformHost hosts (it_platforms it) platform) → findPlatformHost hosts (it_platforms it) platform = Some site)
  | None => ∀ h, h ∈ hosts → ho_deleted h = true
  end.
Proof.
  intros Hne. unfold selectIntakeHost. set (tier0 := if nonempty platform then _ else None). set (tier1 := match it_affinity it !! _ with Some _ => _ | None => _ end).
  set (tier2 := if truthy _ then _ else None). set (tier3 := match it_tools it threadId with [] => None | _ => _ end). cbv zeta.
  assert (∀ site, tier0 = Some site → is_live hosts site) as H0 by (intros site; unfold tier0; case_match; [apply found_live|done]).
  destruct (truthy tier0) eqn:E0.
  { destruct tier0 as [site|] eqn:E; [|done]. split; [by apply H0|]. intros Hp _. unfold tier0, nonempty in E. by rewrite (proj2 (seqb_false _ _) Hp) in E. }
  assert (platform ≠ "" → ¬ is_Some (findPlatformHost hosts (it_platforms it) platform)) as Hno.
  { intros Hp [s Hs]. unfold tier0, nonempty in E0, H0. rewrite (proj2 (seqb_false _ _) Hp) in E0, H0. cbn [negb] in E0, H0. rewrite Hs in E0, H0.
    destruct (H0 s eq_refl) as (h & Hh & _ & <-). simpl in E0. unfold nonempty in E0. apply negb_false_iff, seqb_true in E0. by apply (Hne h Hh). }
  assert (∀ o, match o with Some site => is_live hosts site | None => ∀ h, h ∈ hosts → ho_deleted h = true end →
    match o with
    | Some site => is_live hosts site ∧ (platform ≠ "" → is_Some (findPlatformHost hosts (it_platforms it) platform) →
                     findPlatformHost hosts (it_platforms it) platform = Some site)
    | None => ∀ h, h ∈ hosts → ho_deleted h = true end) as Hwrap.
  { intros [site|]; [|done]. intros Hl. split; [done|]. intros Hp Hs. by destruct (Hno Hp). }
  apply Hwrap. clear Hwrap Hno.
  destruct tier1 as [site|] eqn:E1.
  { unfold tier1 in E1. repeat case_match; try done. unfold live_host in E1. destruct (List.find _ hosts) as [h|] eqn:Eh; [|done].
    injection E1 as <-. apply find_elem in Eh as [? [_ ?%negb_true_iff]%andb_true_iff]. by exists h. }
  destruct tier2 as [site|] eqn:E2; [unfold tier2 in E2; case_match; [by eapply found_live|done]|].
  destruct (truthy tier3) eqn:E3.
  { destruct tier3 as [site|] eqn:E; [|done]. unfold tier3 in E. case_match; [done|].
    apply best_tools_live in E as [?|(h & [? ?]%elem_of_live_hosts & <-)]; [done|]. by exists h. }
  pose proof (first_host_live hosts) as H. destruct (first_host hosts); [done|]. intros h Hh. destruct (ho_deleted h) eqn:Ed; [done|].
  assert (h ∈ live_hosts hosts) as Hin by (by apply elem_of_live_hosts). rewrite H in Hin. by apply elem_of_nil in Hin.
Qed.

Lemma parse_intake_json s i : parse_intake s = Some i → nonempty s = true ∧ is_Some (json_parse s).
Proof.
  unfold parse_intake. destruct (json_parse s) as [v|] eqn:E; [|done]. intros _. split; [|by eexists].
  unfold nonempty. destruct (seqb s "") eqn:Es; [|done]. apply seqb_true in Es as ->. by vm_compute in E.
Qed.
Definition forward_row (h : responder) (uuid : string) (now : Z) (e : RelayInboxEntry) (target key : string) : DurableWorkRow :=
  response_row uuid now (forward_params h e target key).
(** Whether a forwarded row of this key is refused by the table. *)
Definition fenced (key : string) (t : dw_table) : bool := existsb (λ r, of_kind "intake" r && seqb (dw_idempotency_key r) key) t.

(** C23: Forwarding an intake to another host.  In every case the event is
    noted for exactly five minutes: a row of the same event taken up before they
    are over does nothing at all, whatever the hosts are then, and one taken up
    later is handled anew.  If the chosen host cannot be reached (and is not the
    source) nothing is written and the routing error is thrown.  Otherwise one
    row for that host is added, or, if the table holds an intake of the same
    event (which the row being forwarded is, when its producer gave it that
    key), nothing is added and no error is raised. *)
Theorem intake_forward h it uuid now e i target p :
  parse_intake (re_payload e) = Some i → cache_hit now (intake_key i) p = None →
  selectIntakeHost (rs_hosts h) it (in_thread_id i) (in_platform i) = Some target → target ≠ "" → target ≠ rs_site h →
  uuid (pr_uuids p) ≠ "" → (∀ r, r ∈ pr_table p → dw_id r ≠ uuid (pr_uuids p)) →
  let key := intake_key i in
  let '(p', res) := handleIntake h it uuid now e p in
  (∀ now2, cache_hit now2 key p' = if now2 <? now + 300000 then Some (MkCached "" (now + 300000)) else None) ∧
  (∀ h2 it2 uuid2 now2 e2 i2, parse_intake (re_payload e2) = Some i2 → intake_key i2 = key → now2 < now + 300000 →
     handleIntake h2 it2 uuid2 now2 e2 p' = (p', inl None)) ∧
  if negb (seqb target (re_source_site_id e)) && negb (shouldRouteRelayDurable (rs_hosts h) (rs_sync_state h) target (re_source_site_id e) (rs_role h))
  then (∃ reason, res = inr (RelayResponseRoutingError target reason)) ∧ pr_table p' = pr_table p
  else res = inl None ∧
       pr_table p' = if fenced key (pr_table p) then pr_table p else pr_table p ++ [forward_row h (uuid (pr_uuids p)) now e target key].
Proof.
  intros Hi Hc Ht Hne Hsite Hu Hid. cbv zeta.
  set (noted := λ q, ∀ now2, cache_hit now2 (intake_key i) q = if now2 <? now + 300000 then Some (MkCached "" (now + 300000)) else None).
  assert (∀ q, noted q → ∀ h2 it2 uuid2 now2 e2 i2, parse_intake (re_payload e2) = Some i2 → intake_key i2 = intake_key i →
    now2 < now + 300000 → handleIntake h2 it2 uuid2 now2 e2 q = (q, inl None)) as Hagain.
  { intros q Hq h2 it2 uuid2 now2 e2 i2 Hi2 Hk Hlt. unfold handleIntake, lane_bind, lane_get. rewrite Hi2, Hk, Hq.
    by rewrite (proj2 (Z.ltb_lt _ _) Hlt). }
  assert (∀ q t, noted (on_table (on_cache q (<[intake_key i:=MkCached "" (now + IDEMPOTENCY_TTL_MS)]>)) t)) as Hnoted.
  { intros q t now2. unfold cache_hit. simpl. rewrite lookup_insert_eq. simpl. by unfold IDEMPOTENCY_TTL_MS. }
  enough (let '(p', res) := handleIntake h it uuid now e p in noted p' ∧
    if negb (seqb target (re_source_site_id e)) && negb (shouldRouteRelayDurable (rs_hosts h) (rs_sync_state h) target (re_source_site_id e) (rs_role h))
    then (∃ reason, res = inr (RelayResponseRoutingError target reason)) ∧ pr_table p' = pr_table p
    else res = inl None ∧
         pr_table p' = if fenced (intake_key i) (pr_table p) then pr_table p else pr_table p ++ [forward_row h (uuid (pr_uuids p)) now e target (intake_key i)]) as H.
  { destruct (handleIntake h it uuid now e p) as [p' res]. destruct H as [H1 H2]. split_and!; [exact H1|exact (Hagain p' H1)|exact H2]. }
  unfold handleIntake. rewrite Hi. unfold lane_bind, lane_get, lane_do. rewrite Hc, Ht. unfold nonempty at 1. rewrite (proj2 (seqb_false _ _) Hne), (proj2 (seqb_false _ _) Hsite).
  cbn [negb pr_uuids on_cache pr_table]. unfold routeRelayRequest, route. cbn [rp_target rp_source rp_role forward_params].
  destruct (negb _ && negb _) eqn:E.
  { split; [apply (Hnoted p id)|]. split; [by eexists|done]. }
  apply parse_intake_json in Hi as [Hpay [v Hv]]. unfold insertDurableWork.
  assert (validateDurableWork (route_row (uuid (pr_uuids p)) now (forward_params h e target (intake_key i))) = Ok tt) as ->.
  { unfold validateDurableWork, route_row, forward_params, nonempty in *. cbn [nw_id nw_target_site_id nw_kind nw_idempotency_key nw_payload rp_target rp_source
      rp_kind rp_payload rp_idempotencyKey]. rewrite (proj2 (seqb_false _ _) Hu), Hpay, Hv.
    by destruct (seqb target (re_source_site_id e)); simpl; rewrite ?(proj2 (seqb_false _ _) Hne). }
  cbn [result_bind]. unfold insert_or_ignore.
  assert (existsb (λ old, dw_clash old (new_row now (route_row (uuid (pr_uuids p)) now (forward_params h e target (intake_key i)))))
    (pr_table p) = fenced (intake_key i) (pr_table p)) as Hx.
  { unfold fenced. clear -Hid. induction (pr_table p) as [|r t IH]; [done|]. simpl. rewrite IH by (intros r' Hr'; apply Hid; by right).
    unfold dw_clash at 1. simpl. by rewrite (proj2 (seqb_false _ _) (Hid r (list_elem_of_here _ _))). }
  rewrite Hx.
  destruct (fenced (intake_key i) (pr_table p)); cbn; (split; [apply (Hnoted (drew p 1) (λ _, _))|done]).
Qed.

(** ** Examples *)
Module Examples.
Definition worker_host (capable : bool) : ClusterHost := MkHost "worker" "Worker" None None None (Some 0) (Some 0) capable false.
Definition hub_of (capable : bool) : responder := MkResponder "hub" [worker_host capable; spoke_host] ["worker"; "spoke"] (Some Hub).
(** The worker runs the platform. *)
Definition tables : intake_tables :=
  MkIntakeTables (λ site, if seqb site "worker" then Some (json_stringify (JArr [JStr "chat"])) else None) ∅ (λ _, None) (λ _, []).
Definition event_text : string :=
  json_stringify (JObj [("platform", JStr "chat"); ("platform_event_id", JStr "e1"); ("thread_id", JStr "t1"); ("message_id", JStr "m1");
                        ("content", JStr "hello")]).
(** The row of an event from the host [source], under the given key. *)
Definition event_row (source key : string) : NewDurableWork :=
  MkNewWork "w1" "hub" "intake" event_text key (Some 300000) None (Some source) None None None.
Definition execute (e : RelayInboxEntry) (v : json) (t : dw_table) : dw_table * outcome string := (t, inl "{}").
Definition turn (h : responder) (now : Z) (kind : string) (p : processor) : processor :=
  process_kind h tables row_ids sample_from sample_decode (λ _ _, "bad") (λ _, inl "model") (λ _, Prepared) execute (λ _, lane_ret None) now now kind p.
Definition summary (p : processor) : list (string * string * DurableWorkClaimState) :=
  (λ r, (dw_target_site_id r, dw_kind r, dw_claim_state r)) <$> pr_table p.
Definition intake_at (h : responder) (source key : string) : processor := turn h 1000 "intake" (boot [new_row 500 (event_row source key)] 0).

(** An event that reaches the hub under another key is forwarded; under the key
    its producer writes (mcp-registry.ts) the forwarded row is fenced by the row
    it forwards, which is then consumed: nobody gets the event. *)
Example event_forwarded : summary (intake_at (hub_of true) "spoke" "k1") = [("hub", "intake", Consumed); ("worker", "intake", Pending)].
Proof. vm_compute. reflexivity. Qed.
Example event_fenced : summary (intake_at (hub_of true) "spoke" "intake:chat:e1") = [("hub", "intake", Consumed)].
Proof. vm_compute. reflexivity. Qed.
(** An event from the very host that should get it is taken for a request of
    this host to itself: it is written for the local lane, where the cached
    empty response is no valid payload and the row stays claimed. *)
Example event_sent_back : summary (intake_at (hub_of true) "worker" "k1") = [("hub", "intake", Consumed); ("local", "intake", Pending)] ∧
  summary (turn (hub_of true) 1500 "intake" (intake_at (hub_of true) "worker" "k1")) = [("hub", "intake", Consumed); ("local", "intake", Processing)].
Proof. split; vm_compute; reflexivity. Qed.
(** A worker that cannot be reached does not make the row a dead letter when its
    source can be: the source gets an error, and the event is consumed. *)
Example event_unroutable : summary (intake_at (hub_of false) "spoke" "k1") = [("hub", "intake", Consumed); ("spoke", "error", Pending)].
Proof. vm_compute. reflexivity. Qed.
(** When the source cannot be reached either the row is a dead letter; taken up
    again under its producer's key within five minutes, when both can be reached,
    the cached empty response is no valid payload and the row stays claimed. *)
Definition dead_event : processor :=
  intake_at (MkResponder "hub" [worker_host false] ["worker"; "spoke"] (Some Hub)) "spoke" "intake:chat:e1".
Definition redriven_event : processor :=
  turn (hub_of true) 3000 "intake" (on_table dead_event (λ t, (redriveDeadLetterDurableWork "w1" (Some 400000) t).1)).
Example event_redriven : summary dead_event = [("hub", "intake", DeadLetter)] ∧ summary redriven_event = [("hub", "intake", Processing)].
Proof. split; vm_compute; reflexivity. Qed.
(** A restart gives back the rows of the local sentinel, not those a peer sent. *)
Example restart_leaves_peer_rows : summary (on_table redriven_event boot_recovery) = [("hub", "intake", Processing)].
Proof. vm_compute. reflexivity. Qed.

(** A tool call from the spoke. *)
Definition tool_row : DurableWorkRow :=
  claim_set "tok" 900 (new_row 500 (MkNewWork "w2" "hub" "tool_call" "{}" "k2" (Some 300000) None (Some "spoke") None None None)).
Lemma tool_held : held "w2" "tok" tool_row [tool_row].
Proof. split_and!; [by apply NoDup_singleton|done..]. Qed.
Lemma execute_minds : minds_its_row row_ids execute.
Proof. intros e v t Hk. split_and!; simpl; try done. intros r Hr. left. by exists r. Qed.
Lemma row_ids_inj n m : row_ids n = row_ids m → n = m.
Proof. apply row_ids_fresh. Qed.
End Examples.

Lemma request_settled_witness :
  dw_dead_lettered_at Examples.tool_row = None ∧
  ∃ r', row_at dw_id "w2" (pr_table (process_claimed (Examples.hub_of true) Examples.tables row_ids sample_from sample_decode (λ _ _, "bad") (λ _, inl "model")
          (λ _, Prepared) Examples.execute (λ _, lane_ret None) 1000 2000 Examples.tool_row (boot [Examples.tool_row] 0))) = Some r' ∧
        dw_claim_state r' = Consumed ∧ answered "w2" (pr_table (process_claimed (Examples.hub_of true) Examples.tables row_ids sample_from sample_decode
          (λ _ _, "bad") (λ _, inl "model") (λ _, Prepared) Examples.execute (λ _, lane_ret None) 1000 2000 Examples.tool_row (boot [Examples.tool_row] 0))).
Proof.
  split; [done|].
  destruct (request_settled (Examples.hub_of true) Examples.tables row_ids sample_from sample_decode (λ _ _, "bad") (λ _, inl "model") (λ _, Prepared)
    Examples.execute (λ _, lane_ret None) Examples.row_ids_inj Examples.execute_minds 1000 2000 Examples.tool_row (boot [Examples.tool_row] 0) "tok")
    as (r' & Hr' & Hst).
  - reflexivity.
  - exact Examples.tool_held.
  - intros r n [->|[]%elem_of_nil]%elem_of_cons _. discriminate.
  - apply not_elem_of_empty.
  - exists r'. split; [exact Hr'|]. assert (dw_claim_state r' = Consumed) as Hc.
    { vm_compute in Hr'. injection Hr' as <-. reflexivity. }
    split; [exact Hc|]. rewrite Hc in Hst. destruct Hst as [Hx|[Hx|Hx]]; [vm_compute in Hx; discriminate|by apply not_elem_of_empty in Hx|exact Hx].
Defined.
Lemma intake_host_witness :
  is_live [Examples.worker_host true] "worker" ∧
  selectIntakeHost [Examples.worker_host true] Examples.tables "t1" "chat" = Some "worker".
Proof.
  split; [|vm_compute; reflexivity].
  refine (proj1 (_ : is_live _ "worker" ∧ _)).
  exact (intake_host [Examples.worker_host true] Examples.tables "t1" "chat" ltac:(intros h [->|[]%elem_of_nil]%elem_of_cons; discriminate)).
Defined.
Lemma intake_forward_witness :
  pr_table (handleIntake (Examples.hub_of true) Examples.tables row_ids 1000 (inbox_entry 1000 (new_row 500 (Examples.event_row "spoke" "intake:chat:e1")))
    (boot [new_row 500 (Examples.event_row "spoke" "intake:chat:e1")] 0)).1 = [new_row 500 (Examples.event_row "spoke" "intake:chat:e1")].
Proof.
  pose proof (intake_forward (Examples.hub_of true) Examples.tables row_ids 1000 (inbox_entry 1000 (new_row 500 (Examples.event_row "spoke" "intake:chat:e1")))
    (MkIntake "chat" "e1" "t1" "m1") "worker" (boot [new_row 500 (Examples.event_row "spoke" "intake:chat:e1")] 0)
    ltac:(vm_compute; reflexivity) ltac:(vm_compute; reflexivity) ltac:(vm_compute; reflexivity) ltac:(discriminate) ltac:(discriminate)
    ltac:(discriminate) ltac:(intros r [->|[]%elem_of_nil]%elem_of_cons; discriminate)) as H. cbv zeta in H.
  destruct (handleIntake _ _ _ _ _ _) as [p' res]. destruct H as (_ & _ & H). vm_compute in H. exact (proj2 H).
Defined.
