(* ===== verification/RelayParts.v ===== *)
(** * Multipart requests on the lane (packages/agent/src/relay-processor.ts:
    handleInferencePart, consumeInferenceParts)

    What the lane does with the rows of one request: when the last of them is
    there the request is put together and opened, and the rows are retired with
    it; and it is opened at most once, whatever else the lane does, rows arriving
    again and the process restarting included. *)
From Stdlib Require Import Ascii.
From S2P Require Import Prelude Sql Json DurableWork RelayRouter RequestParts RelayStream InferenceStream RelayLane.
Local Open Scope bound_scope.
Local Open Scope Z_scope.

(** ** Assembly *)
Definition part_ok (p : InferenceRequestPart) : Prop := ip_version p = 1 ∧ ip_request_id p ≠ "" ∧ 0 ≤ ip_index p ∧ 0 < ip_count p.
Lemma parse_part_json p : part_ok p → parse_part (json_stringify (part_json p)) = Some p.
Proof.
  intros (Hv & Hid & Hi & Hc). unfold parse_part. rewrite json_roundtrip.
  2: { apply json_wf_obj. split; [vm_compute; repeat constructor; set_solver|]. repeat apply Forall_cons_2; try done; by left. }
  cbn. rewrite Hv. unfold nonempty. rewrite (proj2 (seqb_false _ _) Hid), (proj2 (Z.leb_le _ _) Hi), (proj2 (Z.ltb_lt _ _) Hc). simpl.
  destruct p. simpl in *. by subst.
Qed.

Section request.
Variables (from_base64 : string → list ascii) (decode : list ascii → result string) (payload_error : string → string → string).
Variables (payload requestId : string) (ps : list InferenceRequestPart).
Hypothesis Hcut : cut from_base64 payload requestId ps.
Hypothesis Hid : requestId ≠ "".
Hypothesis Hdecode : decode (chars payload) = Ok payload.

(** The envelope of [e] on a row that carries a part. *)
Definition carries (e : RelayInboxEntry) (r : DurableWorkRow) (p : InferenceRequestPart) : Prop :=
  p ∈ ps ∧ envelope_ok e r = true ∧ parse_part (dw_payload r) = Some p.
Definition last_done (acc : option string) (rs : list (result (option string))) : option string :=
  foldl (λ acc r, match r with Ok (Some x) => Some x | _ => acc end) acc rs.
Lemma last_done_none acc n : last_done acc (replicate n (Ok None)) = acc.
Proof. induction n; done. Qed.
Lemma assemble_results e rows arr s acc : Forall2 (carries e) rows arr → Forall is_Ok (add_parts from_base64 decode arr s).2 →
  assemble_rows from_base64 decode payload_error e rows s acc = inl (last_done acc (add_parts from_base64 decode arr s).2).
Proof using.
  intros H. revert s acc. induction H as [|r p rows arr (Hp & He & Hparse) H IH]; intros s acc; [done|]. cbn [assemble_rows add_parts].
  rewrite He, Hparse. cbn [negb]. destruct (add_part from_base64 decode p s) as [s1 res] eqn:E.
  destruct (add_parts from_base64 decode arr s1) as [s2 rs] eqn:E2. cbn [snd]. intros [[o ->] Hok]%Forall_cons.
  specialize (IH s1 (match o with Some x => Some x | None => acc end)). rewrite E2 in IH. cbn [snd] in IH. rewrite IH by done. by destruct o.
Qed.
Lemma fresh_holds : RequestParts.holds requestId ps ∅ ∅.
Proof using. done. Qed.
(** The rows put the request together exactly when no part is missing. *)
Lemma assemble_all e rows arr : Forall2 (carries e) rows arr →
  assemble_rows from_base64 decode payload_error e rows ∅ None = inl (if bool_decide (Forall (λ p, p ∈ arr) ps) then Some payload else None).
Proof using Hcut Hid Hdecode.
  intros H. assert (Forall (λ p, p ∈ ps) arr) as Hin.
  { clear -H. induction H as [|r p rows arr (Hp & _)]; by constructor. }
  assert (0 < size (part_map ps))%nat as Hpos.
  { pose proof (part_map_size from_base64 payload requestId ps Hcut). pose proof (cut_nonempty _ _ _ _ Hcut). destruct ps; [done|]. simpl in *. lia. }
  case_bool_decide as Hall.
  - destruct (add_incomplete from_base64 decode payload requestId ps Hcut Hid Hdecode arr ∅ ∅ fresh_holds (map_empty_subseteq _)) as (b & a & Hrs).
    + intros Heq. rewrite <-Heq, map_size_empty in Hpos. lia.
    + done.
    + intros p Hp. right. rewrite Forall_forall in Hall. auto.
    + rewrite (assemble_results e rows arr); [|done|].
      2: { rewrite Hrs. apply Forall_app_2; [|apply Forall_cons_2]; try (apply Forall_replicate); by eexists. }
      rewrite Hrs. unfold last_done. rewrite foldl_app. cbn [foldl]. f_equal. apply last_done_none.
  - assert (∃ q, q ∈ ps ∧ q ∉ arr) as (q & Hq & Hqa).
    { apply not_Forall_Exists, Exists_exists in Hall; [done|apply _]. }
    pose proof (add_missing from_base64 decode payload requestId ps Hcut Hid Hdecode arr ∅ ∅ q fresh_holds (map_empty_subseteq _) Hq
      (lookup_empty _) Hin Hqa) as Hrs.
    rewrite (assemble_results e rows arr); [|done|rewrite Hrs; apply Forall_replicate; by eexists].
    rewrite Hrs. by rewrite last_done_none.
Qed.

(** ** Opening the request *)
Variables (h : responder) (uuid : nat → string) (parse_inference : string → string + string) (prepare : string → preparation).
Hypothesis uuid_nonempty : ∀ n, nonempty (uuid n) = true.
Notation handle_part := (handleInferencePart h uuid from_base64 decode payload_error parse_inference prepare).

(** The live rows of the stream that target this host. *)
Definition stream_rows (s : string) (p : processor) : list DurableWorkRow :=
  readDurablePartsByStreamId s (rs_site h) "inference_part" (pr_table p).
(** A row this lane holds, or one that nobody does. *)
Definition free_or_held (p : processor) (r : DurableWorkRow) : Prop :=
  match inflightPartClaimTokens p !! dw_id r with
  | Some tok => nonempty tok = true ∧ dw_claim_state r = Processing ∧ dw_claim_token r = Some tok
  | None => dw_claim_state r = Pending ∧ dw_target_site_id r = rs_site h
  end.
Definition can_answer (e : RelayInboxEntry) : Prop :=
  nonempty (re_source_site_id e) && negb (seqb (re_source_site_id e) (rs_site h)) &&
  negb (shouldRouteRelayDurable (rs_hosts h) (rs_sync_state h) (re_source_site_id e) (rs_site h) (rs_role h)) = false.
(** The entry of a part of this request. *)
Record part_entry (s : string) (e : RelayInboxEntry) : Prop := {
  pe_part : ∃ part, part ∈ ps ∧ parse_part (re_payload e) = Some part;
  pe_ref : re_ref_id e = Some requestId;
  pe_stream : re_stream_id e = Some s;
  pe_named : s ≠ "" }.

Lemma elem_of_stream_rows s p r : r ∈ stream_rows s p →
  r ∈ pr_table p ∧ dw_stream_id r = Some s ∧ dw_kind r = "inference_part" ∧ (dw_claim_state r = Pending ∨ dw_claim_state r = Processing).
Proof using.
  unfold stream_rows, readDurablePartsByStreamId. rewrite elem_of_order_by, elem_of_select, !andb_true_iff, !orb_true_iff, !in_state_true.
  unfold col_is, of_kind. rewrite seqb_true. intros (? & (Hs & _) & ? & ?). split_and!; try done. destruct (dw_stream_id r); [|done].
  by apply seqb_true in Hs as ->.
Qed.
Lemma stream_rows_NoDup s p : keys_unique dw_id (pr_table p) → NoDup (dw_id <$> stream_rows s p).
Proof using.
  intros Hk. unfold stream_rows, readDurablePartsByStreamId. rewrite (Permutation_map dw_id (order_by_perm _ _)).
  by apply NoDup_fmap_filter.
Qed.
Lemma consume_rows p now rows : dw_wf (pr_table p) → rows ≠ [] → NoDup (dw_id <$> rows) →
  Forall (λ r, r ∈ pr_table p ∧ free_or_held p r) rows →
  ∃ p', consumeInferenceParts h uuid now (dw_id <$> rows) p = (p', inl true) ∧
    (∀ r, r ∈ rows → ∃ r', row_at dw_id (dw_id r) (pr_table p') = Some r' ∧ dw_claim_state r' = Consumed) ∧
    (∃ t n, p' = on_table (drew p n) (λ _, t)).
Proof using uuid_nonempty.
  intros Hwf Hne Hnd Hall. unfold consumeInferenceParts. rewrite length_fmap. destruct rows as [|r0 rows0] eqn:Er; [done|]. rewrite <-Er in *.
  replace ((length rows =? 0)%nat) with false by (by rewrite Er). set (pre := filter _ _).
  assert (dw_id <$> rows ≠ []) as Hne' by (by rewrite Er).
  rewrite (claimAndConsume_eq _ _ _ _ _ _ _ Hne'). cbv zeta.
  destruct (claim_tokens _ now _ (pr_table p) pre) as [t1 m] eqn:Hct.
  apply claim_phase_spec in Hct as (Hk1 & _ & Hret & Hoth); [|apply Hwf].
  assert (Forall (retirable m t1) (dw_id <$> rows)) as Hr.
  { apply Forall_forall. intros i Hi. apply Hret; [auto|done|]. apply list_elem_of_fmap in Hi as (r & -> & Hr). rewrite Forall_forall in Hall.
    destruct (Hall r Hr) as [Hin Hf]. exists r. split; [destruct Hwf as (Hk & _); by apply row_at_elem|].
    unfold free_or_held in Hf. unfold pre. rewrite map_lookup_filter.
    destruct (inflightPartClaimTokens p !! dw_id r) as [tok|]; [|done]. simpl. rewrite option_guard_True; [done|]. by apply list_elem_of_fmap_2. }
  pose proof (consume_all_spec now (dw_id <$> rows) m t1 Hk1) as Hc. destruct (consume_all now _ m t1) as [t2|]; [|by destruct Hc].
  destruct Hc as (_ & _ & Hin & _). eexists. split; [reflexivity|]. split; [|by eexists _, _].
  intros r Hrow. simpl. assert (dw_id r ∈ dw_id <$> rows) as Hi by (by apply list_elem_of_fmap_2). rewrite Forall_forall in Hr.
  destruct (Hr _ Hi) as (tok & x & _ & _ & Hx & _). exists (consume_set now x). by rewrite Hin, Hx.
Qed.

(** One row that another holder has, and none is consumed. *)
Lemma consume_rows_refused p now rows : dw_wf (pr_table p) → (∀ r, r ∈ rows → r ∈ pr_table p) →
  Exists (λ r, ¬ free_or_held p r) rows →
  consumeInferenceParts h uuid now (dw_id <$> rows) p = (drew p (length (dw_id <$> rows)), inl false).
Proof using.
  intros Hwf Hin (r & Hr & Hnot)%Exists_exists. unfold consumeInferenceParts.
  assert (dw_id r ∈ dw_id <$> rows) as Hi by (by apply list_elem_of_fmap_2).
  assert (dw_id <$> rows ≠ []) as Hne by (intros Hn; rewrite Hn in Hi; by apply elem_of_nil in Hi).
  replace (length (dw_id <$> rows) =? 0)%nat with false by (by destruct (dw_id <$> rows)).
  set (pre := filter _ _). rewrite (claimAndConsume_eq _ _ _ _ _ _ _ Hne). cbv zeta.
  destruct (claim_tokens _ now _ (pr_table p) pre) as [t1 m] eqn:Hct.
  apply claim_phase_spec in Hct as (Hk1 & Hret & _ & _); [|apply Hwf].
  pose proof (consume_all_spec now (dw_id <$> rows) m t1 Hk1) as Hc. destruct (consume_all now _ m t1) as [t2|]; [|done].
  destruct Hc as (_ & Hall & _). rewrite Forall_forall in Hall. exfalso. apply Hnot.
  destruct (Hret _ Hi (Hall _ Hi)) as (x & Hx & Hown).
  rewrite (row_at_elem dw_id (dw_id r) _ r (proj1 Hwf) (Hin r Hr) eq_refl) in Hx. injection Hx as <-.
  unfold free_or_held. unfold pre in Hown. rewrite map_lookup_filter in Hown.
  destruct (inflightPartClaimTokens p !! dw_id r) as [tok|]; [|done]. simpl in Hown. rewrite option_guard_True in Hown by done. done.
Qed.
(** A row under another envelope stops the assembly. *)
Lemma assemble_conflict e rows st serialized :
  Exists (λ r, envelope_ok e r = false) rows → ∃ err, assemble_rows from_base64 decode payload_error e rows st serialized = inr err.
Proof using.
  intros Hex. revert st serialized. induction Hex as [r rows Hr|r rows Hex IH]; intros st serialized; cbn [assemble_rows].
  - rewrite Hr. by eexists.
  - destruct (negb (envelope_ok e r)); [by eexists|]. destruct (parse_part _); [|by eexists].
    destruct (add_part _ _ _ _) as [s' [completed|m]]; [apply IH|by eexists].
Qed.

(** What the handler does with a part, before it consumes anything. *)
Lemma handle_part_eq now s e p rows arr : part_entry s e → requestId ∉ completedInferenceParts p → stream_rows s p = rows →
  Forall2 (carries e) rows arr →
  handle_part now e p =
    if bool_decide (Forall (λ q, q ∈ arr) ps) then
      if bool_decide (requestId ∈ pendingCancels p) then (on_cancels p (λ c, c ∖ {[requestId]}), inl None)
      else
        match consumeInferenceParts h uuid now (dw_id <$> rows) p with
        | (p1, inl true) =>
            match handleInference h uuid parse_inference prepare now (synthetic e requestId payload) (completed_part p1 requestId) with
            | (p2, inl _) => (p2, inl None)
            | (p2, inr err) => (p2, inr err)
            end
        | (p1, inl false) => (release_part (re_id e) p1, inl None)
        | (p1, inr err) => (p1, inr err)
        end
    else (p, inl None).
Proof using Hcut Hid Hdecode.
  intros [(part & Hp & Hparse) Href Hs Hne] Hc Hrows Harr. destruct (cut_meta _ _ _ _ Hcut part Hp) as (_ & Hr & _).
  unfold handleInferencePart. rewrite Hparse, Href, Hs. cbn [truthy col_is default]. unfold nonempty. rewrite Hr, seqb_refl,
    (proj2 (seqb_false _ _) Hid), (proj2 (seqb_false _ _) Hne). cbn [negb].
  unfold lane_bind at 1, lane_get at 1. rewrite bool_decide_false by done. unfold lane_bind at 1, lane_get at 1.
  change (readDurablePartsByStreamId _ _ _ _) with (stream_rows s p). rewrite Hrows.
  rewrite (assemble_all e rows arr Harr). destruct (bool_decide (Forall _ ps)); [|done].
  unfold lane_bind at 1, lane_get at 1. destruct (bool_decide (requestId ∈ pendingCancels p)); [done|].
  unfold lane_bind at 1. destruct (consumeInferenceParts _ _ _ _ p) as [p1 [[]|err]]; [|done..].
  unfold lane_bind at 1, lane_do. cbn [fst]. unfold lane_bind. by destruct (handleInference _ _ _ _ _ _ _) as [p2 [[]|err]].
Qed.

Lemma handle_part_conflict now s e p : part_entry s e → requestId ∉ completedInferenceParts p →
  Exists (λ r, envelope_ok e r = false) (stream_rows s p) → ∃ err, handle_part now e p = (p, inr err).
Proof using Hcut Hid.
  intros [(part & Hp & Hparse) Href Hs Hne] Hc Hbad. destruct (cut_meta _ _ _ _ Hcut part Hp) as (_ & Hr & _).
  destruct (assemble_conflict e (stream_rows s p) ∅ None Hbad) as [err Herr]. exists err.
  unfold handleInferencePart. rewrite Hparse, Href, Hs. cbn [truthy col_is default]. unfold nonempty. rewrite Hr, seqb_refl,
    (proj2 (seqb_false _ _) Hid), (proj2 (seqb_false _ _) Hne). cbn [negb].
  unfold lane_bind at 1, lane_get at 1. rewrite bool_decide_false by done. unfold lane_bind at 1, lane_get at 1.
  change (readDurablePartsByStreamId _ _ _ _) with (stream_rows s p). by rewrite Herr.
Qed.
Lemma open_synthetic now s e p model : re_stream_id e = Some s → s ≠ "" → can_answer e → parse_inference payload = inl model →
  prepare payload = Prepared →
  handleInference h uuid parse_inference prepare now (synthetic e requestId payload) p =
    (open_stream (on_table p (λ _, pr_table p)) (synthetic e requestId payload), inl None).
Proof using.
  intros Hs Hne Hans Hparse Hprep. unfold handleInference. cbn [re_payload synthetic re_source_site_id]. rewrite Hparse.
  unfold can_answer in Hans. rewrite Hans. unfold begin_inference. cbn [re_stream_id synthetic]. rewrite Hs, Hprep. cbn [truthy].
  unfold nonempty. by rewrite (proj2 (seqb_false _ _) Hne).
Qed.

(** C7: A part of a request that is neither cancelled nor opened yet, whose sender
    can be answered.  When all live rows of the stream are under one envelope:
    if they hold every part, in whatever order and however often, and nobody else
    holds one of them, the request is put together as its sender cut it, its
    stream is opened, and all these rows are consumed; if somebody else holds
    one, nothing is consumed and the handler only gives its own claim back; if a
    part is missing the handler does nothing, and the lane consumes the part it
    was given.  When a live row is under another envelope the handler throws and
    changes nothing. *)
Theorem parts_opened now s e p model :
  part_entry s e → dw_wf (pr_table p) → requestId ∉ completedInferenceParts p → requestId ∉ pendingCancels p →
  can_answer e → parse_inference payload = inl model → prepare payload = Prepared →
  (∀ arr, Forall2 (carries e) (stream_rows s p) arr →
     if bool_decide (Forall (λ q, q ∈ arr) ps) then
       (Forall (free_or_held p) (stream_rows s p) →
        ∃ p', handle_part now e p = (p', inl None) ∧ pr_opened p' = pr_opened p ++ [synthetic e requestId payload] ∧
          requestId ∈ completedInferenceParts p' ∧
          ∀ r, r ∈ stream_rows s p → ∃ r', row_at dw_id (dw_id r) (pr_table p') = Some r' ∧ dw_claim_state r' = Consumed) ∧
       (Exists (λ r, ¬ free_or_held p r) (stream_rows s p) →
        ∃ n, handle_part now e p = (release_part (re_id e) (drew p n), inl None))
     else handle_part now e p = (p, inl None)) ∧
  (Exists (λ r, envelope_ok e r = false) (stream_rows s p) → ∃ err, handle_part now e p = (p, inr err)).
Proof using Hcut Hid Hdecode uuid_nonempty.
  intros He Hwf Hc Hcan Hans Hparse Hprep. split.
  - intros arr Harr. rewrite (handle_part_eq now s e p (stream_rows s p) arr He Hc eq_refl Harr).
    case_bool_decide as Hall; [|done]. rewrite bool_decide_false by done. split.
    + intros Hfree. destruct (consume_rows p now (stream_rows s p) Hwf) as (p1 & -> & Hcons & t & n & ->).
      * intros Hnil. rewrite Hnil in Harr. apply Forall2_nil_inv_l in Harr as ->. pose proof (cut_nonempty _ _ _ _ Hcut).
        destruct ps; [done|]. apply Forall_cons in Hall as [[]%elem_of_nil _].
      * apply stream_rows_NoDup, Hwf.
      * apply Forall_forall. intros r Hr. split; [by apply elem_of_stream_rows in Hr as [? _]|]. rewrite Forall_forall in Hfree. auto.
      * destruct He as [_ _ Hs Hne]. rewrite (open_synthetic now s e _ model Hs Hne Hans Hparse Hprep). eexists. split; [reflexivity|].
        split_and!; [done| |exact Hcons]. cbn. set_solver.
    + intros Hheld. rewrite consume_rows_refused; [by eexists|done|by intros r [? _]%elem_of_stream_rows|done].
  - intros Hbad. by apply (handle_part_conflict now s).
Qed.
End request.

(** ** Whatever else the lane does *)
Definition gone (r : DurableWorkRow) : Prop := dw_claim_state r = Consumed ∨ dw_claim_state r = DeadLetter.
(** A row that can make a stream be opened. *)
Definition request_row (s : string) (r : DurableWorkRow) : Prop :=
  dw_stream_id r = Some s ∧ (dw_kind r = "inference" ∨ dw_kind r = "inference_part").
(** No such row comes up, comes back or gets lost. *)
Definition kept (s : string) (t t' : dw_table) : Prop :=
  (keys_unique dw_id t → keys_unique dw_id t') ∧
  (∀ r', r' ∈ t' → request_row s r' → ∃ r, r ∈ t ∧ same_work r r' ∧ (gone r → gone r') ∧
     (dw_claim_state r' = Transferring → dw_claim_state r = Transferring)) ∧
  (∀ r, r ∈ t → request_row s r → ∃ r', r' ∈ t' ∧ same_work r r').
Lemma kept_refl s t : kept s t t.
Proof. split_and!; [done|..]; intros r Hr _; exists r; split_and!; auto using same_work_refl. Qed.
Lemma same_work_request s r r' : same_work r r' → request_row s r ↔ request_row s r'.
Proof. intros (_ & _ & Hk & _ & _ & _ & _ & _ & Hs & _). unfold request_row. by rewrite Hk, Hs. Qed.
Lemma kept_trans s t1 t2 t3 : kept s t1 t2 → kept s t2 t3 → kept s t1 t3.
Proof.
  intros (K1 & B1 & F1) (K2 & B2 & F2). split_and!; [auto|..].
  - intros r3 H3 Hq. destruct (B2 r3 H3 Hq) as (r2 & H2 & Hw2 & Hg2 & Ht2). destruct (B1 r2 H2) as (r1 & H1 & Hw1 & Hg1 & Ht1).
    { by apply (same_work_request s r2 r3). }
    exists r1. split_and!; [done|by eapply same_work_trans|auto|auto].
  - intros r1 H1 Hq. destruct (F1 r1 H1 Hq) as (r2 & H2 & Hw). destruct (F2 r2 H2) as (r3 & H3 & Hw'); [by apply (same_work_request s r1 r2)|].
    exists r3. split; [done|by eapply same_work_trans].
Qed.
Lemma kept_update s q f t : (∀ r, same_work r (f r)) →
  (∀ r, q r = true → (gone r → gone (f r)) ∧ (dw_claim_state (f r) = Transferring → dw_claim_state r = Transferring)) →
  kept s t (sql_update q f t).
Proof.
  intros Hw Hq. split_and!.
  - intros Hk. unfold keys_unique. rewrite update_fmap; [done|]. intros r. apply (Hw r).
  - intros r' (r & -> & Hr)%list_elem_of_fmap _. exists r. destruct (q r) eqn:E; [destruct (Hq r E); split_and!; auto|].
    split_and!; auto using same_work_refl.
  - intros r Hr _. exists (if q r then f r else r). split; [apply list_elem_of_fmap; eauto|]. destruct (q r); [done|apply same_work_refl].
Qed.
Lemma kept_insert s bus tx now w t t' b evs : insertDurableWork bus tx now w t = Ok (t', b, evs) → ¬ request_row s (new_row now w) → kept s t t'.
Proof.
  unfold insertDurableWork. destruct (validateDurableWork w); cbn [result_bind]; [|done].
  destruct (insert_or_ignore_cases dw_clash (new_row now w) t) as [[-> _]|[-> Hc]]; intros [= <- _ _] Hr; [apply kept_refl|]. split_and!.
  - intros Hk. apply NoDup_insert_fresh; [done|]. intros old Hold Heq. apply Hc in Hold. unfold dw_clash in Hold. by rewrite Heq, seqb_refl in Hold.
  - intros r' [Hr'|Heq%list_elem_of_singleton]%elem_of_app Hq; [|by rewrite Heq in Hq]. exists r'. split_and!; auto using same_work_refl.
  - intros r Hin _. exists r. split; [apply elem_of_app; by left|apply same_work_refl].
Qed.
(** The updates of the lane. *)
Lemma kept_claim s tok now i t : kept s t (claim_row tok now i t).
Proof.
  apply kept_update; [same_work_tac|]. intros r [_ Hp%in_state_true]%andb_true_iff. split; [|done].
  intros [H|H]; rewrite Hp in H; discriminate.
Qed.
Lemma owned_processing st i tok r : owned_by st i tok r = true → dw_claim_state r = st.
Proof. unfold owned_by. rewrite !andb_true_iff. intros (_ & H & _). by apply in_state_true. Qed.
Lemma kept_ack s now i tok t : kept s t (acknowledgeDurableWork now i tok t).1.
Proof. apply kept_update; [same_work_tac|]. intros r _. split; [by left|done]. Qed.
Lemma kept_bury s i tok why now t : kept s t (deadLetterClaimedDurableWork i tok why now t).1.
Proof. apply kept_update; [same_work_tac|]. intros r _. split; [by right|done]. Qed.
Lemma kept_release s i tok t : kept s t (releaseDurableWorkClaim i tok t).1.
Proof.
  apply kept_update; [same_work_tac|]. intros r H%owned_processing. split; [|done]. intros [Hg|Hg]; rewrite H in Hg; discriminate.
Qed.
Lemma kept_boot s t : kept s t (boot_recovery t).
Proof.
  unfold boot_recovery. eapply kept_trans; apply kept_update; try same_work_tac; intros r [_ H%in_state_true]%andb_true_iff;
    (split; [|done]); intros [Hg|Hg]; rewrite H in Hg; discriminate.
Qed.
Lemma kept_claim_tokens s uuid now rows t m : kept s t (claim_tokens uuid now rows t m).1.
Proof.
  revert uuid t m. induction rows as [|r rows IH]; intros uuid t m; [apply kept_refl|]. cbn [claim_tokens]. eapply kept_trans; [apply kept_claim|apply IH].
Qed.
Lemma kept_consume_all s now ids m t t' : consume_all now ids m t = Some t' → kept s t t'.
Proof.
  revert t. induction ids as [|i ids IH]; intros t; cbn [consume_all]; [intros [= ->]; apply kept_refl|].
  destruct (m !! i) as [tok|]; [|done]. destruct (nonempty tok); [|done]. pose proof (kept_ack s now i tok t) as Ha.
  destruct (acknowledgeDurableWork now i tok t) as [t1 []]; [|done]. intros H. eapply kept_trans; [exact Ha|by apply IH].
Qed.
Lemma kept_claimAndConsume s uuid now cat ids target pre t : kept s t (claimAndConsumeDurableWorkByIds uuid now cat ids target pre t).1.
Proof.
  destruct (decide (ids = [])) as [->|Hne]; [apply kept_refl|]. rewrite claimAndConsume_eq by done. cbv zeta.
  match goal with |- context [claim_tokens uuid now ?sel t pre] => pose proof (kept_claim_tokens s uuid now sel t pre) as H; destruct (claim_tokens uuid now sel t pre) as [t1 m] end.
  destruct (consume_all cat ids m t1) as [t2|] eqn:E; [|apply kept_refl]. eapply kept_trans; [exact H|by eapply kept_consume_all].
Qed.
Lemma kept_claimLocal s tok now site kind t : kept s t (claimLocalDurableWork tok now site kind t).1.
Proof. unfold claimLocalDurableWork. destruct (head _); [apply kept_claim|apply kept_refl]. Qed.

(** What can happen to the host: a row arrives, a kind has its turn, the process
    restarts (the record of the opened streams is the observer's). *)
Inductive lane_action := Deliver (w : NewDurableWork) (now : Z) | Turn (now later : Z) (kind : string) | Restart.
Definition restart (p : processor) : processor :=
  MkProcessor (boot_recovery (pr_table p)) ∅ ∅ ∅ ∅ ∅ ∅ (pr_opened p) (pr_aborted p) (pr_loops p) (pr_uuids p).
Definition deliver (w : NewDurableWork) (now : Z) (t : dw_table) : dw_table :=
  match insertDurableWork false false now w t with Ok (t', _, _) => t' | Throw _ => t end.

Section once.
Variables (h : responder) (it : intake_tables) (uuid : nat → string).
Variables (from_base64 : string → list ascii) (decode : list ascii → result string).
Variables (payload_error : string → string → string) (parse_inference : string → string + string) (prepare : string → preparation).
Variables (execute : RelayInboxEntry → json → dw_table → dw_table * outcome string) (other_handler : RelayInboxEntry → lane (option string)).
Definition lane_act (a : lane_action) (p : processor) : processor :=
  match a with
  | Deliver w now => on_table p (deliver w now)
  | Turn now later kind =>
      process_kind h it uuid from_base64 decode payload_error parse_inference prepare execute other_handler now later kind p
  | Restart => restart p
  end.
Definition lane_run (l : list lane_action) (p : processor) : processor := foldl (λ p a, lane_act a p) p l.

(** A request cut into parts, sent on the stream [s]; the keys tell its parts
    apart. *)
Variables (payload requestId s : string) (ps : list InferenceRequestPart) (key : InferenceRequestPart → string).
Hypothesis Hcut : cut from_base64 payload requestId ps.
Hypothesis Hid : requestId ≠ "".
Hypothesis Hdecode : decode (chars payload) = Ok payload.
Hypothesis uuid_nonempty : ∀ n, nonempty (uuid n) = true.
(** Nothing behind the requests writes rows of this stream. *)
Hypothesis Hexecute : ∀ e v t, kept s t (execute e v t).1.
Hypothesis Hother : ∀ e p, kept s (pr_table p) (pr_table (other_handler e p).1) ∧ pr_opened (other_handler e p).1 = pr_opened p.

(** The rows that arrive on the stream are the parts, under their keys. *)
Definition fair (a : lane_action) : Prop :=
  match a with
  | Deliver w now =>
      request_row s (new_row now w) →
      ∃ q, q ∈ ps ∧ nw_kind w = "inference_part" ∧ nw_payload w = json_stringify (part_json q) ∧ nw_idempotency_key w = key q ∧
           nw_target_site_id w = rs_site h
  | _ => True
  end.
Definition openings (p : processor) : list RelayInboxEntry := List.filter (λ e, bool_decide (re_stream_id e = Some s)) (pr_opened p).
Definition row_of (r : DurableWorkRow) (q : InferenceRequestPart) : Prop :=
  q ∈ ps ∧ dw_kind r = "inference_part" ∧ parse_part (dw_payload r) = Some q ∧ dw_idempotency_key r = key q ∧ dw_target_site_id r = rs_site h.
Record once (p : processor) : Prop := {
  on_keys : keys_unique dw_id (pr_table p);
  on_rows : ∀ r, r ∈ pr_table p → request_row s r → dw_claim_state r ≠ Transferring ∧ ∃ q, row_of r q;
  on_count : openings p = [] ∨
    length (openings p) = 1%nat ∧ (∀ r, r ∈ pr_table p → request_row s r → gone r) ∧
    ∀ q, q ∈ ps → ∃ r, r ∈ pr_table p ∧ request_row s r ∧ dw_idempotency_key r = key q }.

Lemma part_is_ok q : q ∈ ps → part_ok q.
Proof using Hcut Hid.
  intros Hq. destruct (cut_meta _ _ _ _ Hcut q Hq) as (Hv & Hr & Hc). apply list_elem_of_lookup in Hq as [i Hi].
  pose proof (cut_index _ _ _ _ Hcut i q Hi). apply lookup_lt_Some in Hi. unfold part_ok. rewrite Hr. split_and!; [done|done|lia|lia].
Qed.
Lemma same_row_of r r' q : same_work r r' → row_of r q → row_of r' q.
Proof. intros (_ & Ht & Hk & Hp & Hkey & _) (? & ? & ? & ? & ?). unfold row_of. by rewrite Ht, Hk, Hp, Hkey. Qed.
Lemma once_kept p p' : kept s (pr_table p) (pr_table p') → openings p' = openings p → once p → once p'.
Proof using.
  intros (K & B & F) Ho [H1 H2 H3]. split; [auto|..].
  - intros r' Hr' Hq. destruct (B r' Hr' Hq) as (r & Hr & Hw & _ & Ht). destruct (H2 r Hr) as [Hn (q & Hrow)]; [by apply (same_work_request s r r')|].
    split; [auto|]. exists q. by eapply same_row_of.
  - rewrite Ho. destruct H3 as [?|(H3 & H4 & H5)]; [by left|right]. split_and!; [done|..].
    + intros r' Hr' Hq. destruct (B r' Hr' Hq) as (r & Hr & Hw & Hg & _). apply Hg, H4; [done|]. by apply (same_work_request s r r').
    + intros q Hq. destruct (H5 q Hq) as (r & Hr & Hreq & Hkey). destruct (F r Hr Hreq) as (r' & Hr' & Hw). exists r'.
      split_and!; [done|by apply (same_work_request s r r')|]. destruct Hw as (_ & _ & _ & _ & Hk & _). congruence.
Qed.

(** Code that keeps the property, in every state. *)
Definition keeps {A} (m : lane A) : Prop := ∀ p, once p → once (m p).1.
Lemma keeps_quiet {A} (m : lane A) : (∀ p, kept s (pr_table p) (pr_table (m p).1) ∧ pr_opened (m p).1 = pr_opened p) → keeps m.
Proof using. intros H p. destruct (H p) as [Hk Ho]. apply once_kept; [done|]. unfold openings. by rewrite Ho. Qed.
Lemma keeps_still {A} (m : lane A) : (∀ p, pr_table (m p).1 = pr_table p ∧ pr_opened (m p).1 = pr_opened p) → keeps m.
Proof using. intros H. apply keeps_quiet. intros p. destruct (H p) as [-> ->]. split; [apply kept_refl|done]. Qed.
Lemma keeps_ret {A} (a : A) : keeps (lane_ret a).
Proof using. by apply keeps_still. Qed.
Lemma keeps_throw {A} err : keeps (lane_throw (A:=A) err).
Proof using. by apply keeps_still. Qed.
Lemma keeps_get {A} (f : processor → A) : keeps (lane_get f).
Proof using. by apply keeps_still. Qed.
Lemma keeps_do f : (∀ p, pr_table (f p) = pr_table p ∧ pr_opened (f p) = pr_opened p) → keeps (lane_do f).
Proof using. intros H. by apply keeps_still. Qed.
Lemma keeps_bind {A B} (m : lane A) (k : A → lane B) : keeps m → (∀ a, keeps (k a)) → keeps (lane_bind m k).
Proof using. intros Hm Hk p Hp. unfold lane_bind. specialize (Hm p Hp). destruct (m p) as [p' [a|err]]; [by apply Hk|done]. Qed.
Lemma keeps_catch {A} (m : lane A) (k : relay_error → lane A) : keeps m → (∀ err, keeps (k err)) → keeps (lane_catch m k).
Proof using. intros Hm Hk p Hp. unfold lane_catch. specialize (Hm p Hp). destruct (m p) as [p' [a|err]]; [done|by apply Hk]. Qed.

Lemma kept_route uuid' now p t t' : route_response h uuid' now p t = inl t' → rp_kind p ≠ "inference" ∧ rp_kind p ≠ "inference_part" → kept s t t'.
Proof using.
  unfold route_response, routeRelayResponse, route. destruct (negb _ && _); [done|].
  destruct (insertDurableWork _ _ now (route_row uuid' now p) t) as [[[t1 b] evs]|] eqn:E; cbn [result_bind]; [|done]. intros [= <-] [H1 H2].
  eapply kept_insert; [exact E|]. by intros [_ [Heq|Heq]].
Qed.
Lemma kept_response uuid' now e kind text t t' : writeResponse h uuid' now e kind text t = inl t' → kind = "result" ∨ kind = "error" → kept s t t'.
Proof using.
  unfold writeResponse. destruct (nonempty _); [|done]. intros H Hk. eapply kept_route; [exact H|]. cbn [rp_kind response_params].
  by destruct Hk as [-> | ->].
Qed.
Lemma keeps_send now e kind text : kind = "result" ∨ kind = "error" → keeps (send_response h uuid now e kind text).
Proof using.
  intros Hk. apply keeps_quiet. intros p. unfold send_response. destruct (writeResponse _ _ _ _ _ _ _) as [t'|err] eqn:E.
  - split; [|done]. cbn. by eapply kept_response.
  - split; [apply kept_refl|done].
Qed.
Lemma keeps_invalid {A} now e text : keeps (invalid_payload (A:=A) h uuid now e text).
Proof using. apply keeps_bind; [apply keeps_send; by right|intros _; apply keeps_throw]. Qed.
Lemma keeps_parsed now e : keeps (handleParsedPayload h uuid payload_error execute now e).
Proof using Hexecute.
  unfold handleParsedPayload. destruct (json_parse _) as [v|]; [|apply keeps_invalid]. apply keeps_quiet. intros p.
  pose proof (Hexecute e v (pr_table p)) as H. by destruct (execute e v (pr_table p)) as [t' res].
Qed.
(** Opening a request, or refusing it. *)
Lemma handleInference_effect now e p :
  let p' := (handleInference h uuid parse_inference prepare now e p).1 in
  kept s (pr_table p) (pr_table p') ∧ (pr_opened p' = pr_opened p ∨ pr_opened p' = pr_opened p ++ [e]).
Proof using.
  unfold handleInference. destruct (parse_inference _) as [model|text].
  - destruct (_ && _ && _); [split; [apply kept_refl|by left]|]. unfold begin_inference.
    destruct (truthy (re_stream_id e)); [destruct (refusal _)|].
    1,3: destruct (writeResponse _ _ _ _ _ _ _) eqn:E; (split; [|by left]); [eapply kept_response; [exact E|by right]|apply kept_refl].
    destruct (re_stream_id e); [|split; [apply kept_refl|by left]]. split; [apply kept_refl|by right].
  - unfold invalid_payload, lane_bind, send_response. destruct (writeResponse _ _ _ _ _ _ _) eqn:E; (split; [|by left]);
      [eapply kept_response; [exact E|by right]|apply kept_refl].
Qed.
Lemma keeps_inference now e : re_stream_id e ≠ Some s → keeps (handleInference h uuid parse_inference prepare now e).
Proof using.
  intros Hs p. destruct (handleInference_effect now e p) as [Hk Ho]. apply once_kept; [exact Hk|]. unfold openings.
  destruct Ho as [-> | ->]; [done|]. rewrite List.filter_app. cbn [List.filter]. rewrite bool_decide_false by done. apply app_nil_r.
Qed.
Lemma keeps_intake now e : keeps (handleIntake h it uuid now e).
Proof using.
  unfold handleIntake. destruct (parse_intake _) as [i|]; [|apply keeps_throw]. apply keeps_bind; [apply keeps_get|]. intros [c|]; [apply keeps_ret|].
  apply keeps_bind; [by apply keeps_do|]. intros _. destruct (selectIntakeHost _ _ _ _) as [target|]; [|apply keeps_ret].
  destruct (negb _); [apply keeps_ret|]. destruct (seqb target _); [apply keeps_bind; [by apply keeps_do|intros _; apply keeps_ret]|].
  apply keeps_quiet. intros p. unfold routeRelayRequest, route. destruct (negb _ && _); [split; [apply kept_refl|done]|].
  destruct (insertDurableWork _ _ now _ (pr_table p)) as [[[t1 b] evs]|] eqn:E; cbn [result_bind]; (split; [|done]); [|apply kept_refl].
  eapply kept_insert; [exact E|]. by intros [_ [H|H]].
Qed.

(** *** A part *)
Definition entry_ok (e : RelayInboxEntry) : Prop :=
  re_stream_id e = Some s → re_kind e ≠ "inference" ∧ (re_kind e = "inference_part" → ∃ q, q ∈ ps ∧ parse_part (re_payload e) = Some q).
Lemma assemble_carries e rows a acc out : Forall (λ r, ∃ q, q ∈ ps ∧ parse_part (dw_payload r) = Some q) rows →
  assemble_rows from_base64 decode payload_error e rows a acc = inl out → ∃ arr, Forall2 (carries ps e) rows arr.
Proof using.
  intros H. revert a acc. induction H as [|r rows (q & Hq & Hparse) H IH]; intros a acc; [by exists []|]. cbn [assemble_rows].
  destruct (envelope_ok e r) eqn:He; [|done]. cbn [negb]. rewrite Hparse.
  destruct (add_part from_base64 decode q a) as [a1 [o|]]; [|done]. intros (arr & Harr)%IH. exists (q :: arr). by constructor.
Qed.
Lemma keeps_release id : keeps (lane_do (release_part id)).
Proof using.
  apply keeps_quiet. intros p. unfold lane_do, release_part. cbn [fst]. destruct (_ !! id) as [tok|]; [|split; [apply kept_refl|done]].
  destruct (nonempty tok); [|split; [apply kept_refl|done]]. split; [apply kept_release|done].
Qed.
Lemma consume_effect now ids p : ids ≠ [] → keys_unique dw_id (pr_table p) →
  let '(p', res) := consumeInferenceParts h uuid now ids p in
  kept s (pr_table p) (pr_table p') ∧ pr_opened p' = pr_opened p ∧
  (res = inl true → (∀ i, i ∈ ids → ∃ r, row_at dw_id i (pr_table p') = Some r ∧ dw_claim_state r = Consumed) ∧
                    ∀ i, i ∉ ids → row_at dw_id i (pr_table p') = row_at dw_id i (pr_table p)).
Proof using uuid_nonempty.
  intros Hne Hk. unfold consumeInferenceParts. destruct (length ids =? 0)%nat; [split; [apply kept_refl|by split]|].
  match goal with |- context [claimAndConsumeDurableWorkByIds ?u _ _ _ _ ?pre _] =>
    pose proof (kept_claimAndConsume s u now now ids (rs_site h) pre (pr_table p)) as Hkept; rewrite claimAndConsume_eq in Hkept |- * by done end.
  cbv zeta in *. destruct (claim_tokens _ now _ (pr_table p) _) as [t1 m] eqn:Hct.
  apply claim_phase_spec in Hct as (Hk1 & Hret & _ & Hoth); [|done].
  pose proof (consume_all_spec now ids m t1 Hk1) as Hc. destruct (consume_all now ids m t1) as [t2|]; [|by split_and!].
  destruct Hc as (_ & Hall & Hin & Hout). split_and!; [done|done|]. intros _. split; intros i Hi.
  - rewrite Forall_forall in Hall. destruct (Hall i Hi) as (tok & r & _ & _ & Hr & _). exists (consume_set now r). simpl. by rewrite Hin, Hr.
  - simpl. by rewrite Hout, Hoth.
Qed.
Lemma live_in_stream p r : once p → r ∈ pr_table p → request_row s r → ¬ gone r → r ∈ stream_rows h s p.
Proof using.
  intros [_ Hrows _] Hr Hq Hlive. destruct (Hrows r Hr Hq) as [Hnt (q & _ & Hk & _ & _ & Ht)].
  unfold stream_rows, readDurablePartsByStreamId. rewrite elem_of_order_by, elem_of_select. split; [done|]. destruct Hq as [Hs _].
  unfold col_is, of_kind, targets. rewrite Hs, Hk, Ht, !seqb_refl. cbn [andb orb]. rewrite andb_true_r, orb_true_iff, !in_state_true.
  revert Hnt Hlive. unfold gone. destruct (dw_claim_state r); intros Hnt Hlive; [by left|by right|done|by destruct Hlive; left|by destruct Hlive; right].
Qed.
(** The last step: the rows are consumed and the request is opened. *)
Lemma once_opened now e p p1 rows arr : once p → stream_rows h s p = rows → Forall2 (carries ps e) rows arr → Forall (λ q, q ∈ arr) ps →
  re_stream_id e = Some s → consumeInferenceParts h uuid now (dw_id <$> rows) p = (p1, inl true) →
  once (handleInference h uuid parse_inference prepare now (synthetic e requestId payload) (completed_part p1 requestId)).1.
Proof using Hcut uuid_nonempty.
  intros Hp Hrows Harr Hall Hs Hcons. pose proof Hp as [Hk Hok Hcount].
  assert (∀ q, q ∈ ps → ∃ r, r ∈ rows ∧ parse_part (dw_payload r) = Some q) as Hcover.
  { intros q Hq. rewrite Forall_forall in Hall. apply Hall, list_elem_of_lookup in Hq as [i Hi].
    destruct (Forall2_lookup_r _ _ _ _ _ Harr Hi) as (r & Hr & _ & _ & Hparse). exists r. split; [by eapply list_elem_of_lookup_2|done]. }
  assert (rows ≠ []) as Hne.
  { intros ->. destruct ps as [|q l]; [by pose proof (cut_nonempty _ _ _ _ Hcut)|]. destruct (Hcover q) as (r & []%elem_of_nil & _). left. }
  assert (Forall (λ r, r ∈ pr_table p ∧ request_row s r ∧ ¬ gone r) rows) as Hlive.
  { apply Forall_forall. intros r Hr. rewrite <-Hrows in Hr. apply elem_of_stream_rows in Hr as (? & ? & ? & Hst). split_and!; [done|by split; [|right]|].
    unfold gone. by destruct Hst as [-> | ->]; intros [|]. }
  assert (openings p = []) as Hnone.
  { destruct Hcount as [?|(_ & Hgone & _)]; [done|]. destruct rows as [|r l]; [done|]. apply Forall_cons in Hlive as [(? & ? & Hl) _]. destruct Hl. auto. }
  pose proof (consume_effect now (dw_id <$> rows) p) as Heff. rewrite Hcons in Heff.
  destruct Heff as (Hkept & Hop & Hdone); [by destruct rows|done|]. destruct (Hdone eq_refl) as [Hin Hout].
  set (p2 := completed_part p1 requestId).
  assert (once p2) as [Hk2 Hok2 _] by (apply (once_kept p); [exact Hkept|unfold openings; simpl; by rewrite Hop|done]).
  assert (∀ r, r ∈ pr_table p2 → request_row s r → gone r) as Hgone2.
  { intros r Hr Hq. change (pr_table p2) with (pr_table p1) in *. destruct Hkept as (_ & B & _). destruct (B r Hr Hq) as (r0 & Hr0 & Hw & Hg & _).
    pose proof (row_at_elem dw_id (dw_id r) (pr_table p1) r Hk2 Hr eq_refl) as Hat. destruct (decide (dw_id r ∈ dw_id <$> rows)) as [Hi|Hi].
    - destruct (Hin _ Hi) as (r' & Hr' & Hc). rewrite Hat in Hr'. injection Hr' as <-. by left.
    - destruct (decide (gone r0)) as [|Hl]; [auto|]. destruct Hi. destruct Hw as (Hid' & Hw). rewrite Hid'. apply list_elem_of_fmap_2. rewrite <-Hrows.
      apply live_in_stream; try done. by apply (same_work_request s r0 r). }
  assert (∀ q, q ∈ ps → ∃ r, r ∈ pr_table p2 ∧ request_row s r ∧ dw_idempotency_key r = key q) as Hkeys2.
  { intros q Hq. destruct (Hcover q Hq) as (r & Hr & Hparse). rewrite Forall_forall in Hlive. destruct (Hlive r Hr) as (Hin' & Hreq & _).
    destruct (Hok r Hin' Hreq) as [_ (q' & _ & _ & Hparse' & Hkey & _)]. rewrite Hparse in Hparse'. injection Hparse' as <-.
    destruct Hkept as (_ & _ & F). destruct (F r Hin' Hreq) as (r' & Hr' & Hw). exists r'. split_and!; [done|by apply (same_work_request s r r')|].
    destruct Hw as (_ & _ & _ & _ & -> & _). done. }
  destruct (handleInference_effect now (synthetic e requestId payload) p2) as [Hkept2 Ho].
  set (p3 := (handleInference _ _ _ _ _ _ p2).1) in *.
  assert (openings p2 = []) as Hnone2 by (unfold openings; simpl; by rewrite Hop).
  destruct Ho as [Ho|Ho]; [by apply (once_kept p2); [|unfold openings; rewrite Ho|split; auto]|].
  assert (once (MkProcessor (pr_table p3) ∅ ∅ ∅ ∅ ∅ ∅ (pr_opened p2) [] [] 0)) as [Hk3 Hok3 _] by (apply (once_kept p2); [done|done|split; auto]).
  split; [done|done|]. right. split_and!.
  - unfold openings in *. rewrite Ho, List.filter_app, Hnone2. cbn [List.filter re_stream_id synthetic]. by rewrite bool_decide_true.
  - intros r Hr Hq. destruct Hkept2 as (_ & B & _). destruct (B r Hr Hq) as (r0 & Hr0 & Hw & Hg & _). apply Hg, Hgone2; [done|].
    by apply (same_work_request s r0 r).
  - intros q Hq. destruct (Hkeys2 q Hq) as (r & Hr & Hreq & Hkey). destruct Hkept2 as (_ & _ & F). destruct (F r Hr Hreq) as (r' & Hr' & Hw).
    exists r'. split_and!; [done|by apply (same_work_request s r r')|]. destruct Hw as (_ & _ & _ & _ & -> & _). done.
Qed.
Lemma keeps_consume now ids : keeps (consumeInferenceParts h uuid now ids).
Proof using.
  apply keeps_quiet. intros p. unfold consumeInferenceParts. destruct (length ids =? 0)%nat; [split; [apply kept_refl|done]|].
  match goal with |- context [claimAndConsumeDurableWorkByIds ?u ?a ?b ?c ?d ?e ?f] =>
    pose proof (kept_claimAndConsume s u a b c d e f) as H; destruct (claimAndConsumeDurableWorkByIds u a b c d e f) end.
  by split.
Qed.
(** The end of the handler, from the rows on, when they make up a request. *)
Lemma keeps_finish now e p rows arr part : once p → re_stream_id e = Some s → stream_rows h s p = rows → Forall2 (carries ps e) rows arr →
  Forall (λ q, q ∈ arr) ps → ip_request_id part = requestId →
  once ((let* consumed := consumeInferenceParts h uuid now (dw_id <$> rows) in
         if consumed then
           let* _ := lane_do (λ p, completed_part p (ip_request_id part)) in
           let* _ := handleInference h uuid parse_inference prepare now (synthetic e (ip_request_id part) payload) in lane_ret (A:=option string) None
         else let* _ := lane_do (release_part (re_id e)) in lane_ret None) p).1.
Proof using Hcut uuid_nonempty.
  intros Hp Hs Hrows Harr Hall Hreq. unfold lane_bind at 1. pose proof (keeps_consume now (dw_id <$> rows) p Hp) as Hkeep.
  destruct (consumeInferenceParts _ _ _ _ p) as [p1 [[]|err]] eqn:E; [|by apply (keeps_bind _ _ (keeps_release (re_id e)) (λ _, keeps_ret None))|done].
  pose proof (once_opened now e p p1 rows arr Hp Hrows Harr Hall Hs E) as H. rewrite Hreq.
  unfold lane_bind at 1, lane_do. unfold lane_bind. destruct (handleInference _ _ _ _ _ _ (completed_part p1 requestId)) as [p2 [o|err]]; exact H.
Qed.
Lemma keeps_part now e : re_kind e = "inference_part" → entry_ok e →
  keeps (handleInferencePart h uuid from_base64 decode payload_error parse_inference prepare now e).
Proof using Hcut Hid Hdecode uuid_nonempty.
  intros Hk Hok. unfold handleInferencePart. destruct (parse_part (re_payload e)) as [part|] eqn:Hparse; [|apply keeps_throw].
  destruct (negb (truthy (re_ref_id e))); [apply keeps_throw|]. destruct (negb (col_is _ _)); [apply keeps_throw|].
  apply keeps_bind; [apply keeps_get|]. intros [|]; [apply keeps_ret|]. destruct (negb (truthy (re_stream_id e))) eqn:Htr; [apply keeps_throw|].
  intros p Hp. unfold lane_bind at 1, lane_get at 1. destruct (assemble_rows _ _ _ _ _ _ _) as [[serialized|]|err] eqn:Hasm; [|by apply keeps_ret|by apply keeps_throw].
  unfold lane_bind at 1, lane_get at 1. destruct (bool_decide _); [by apply keeps_bind; [apply keeps_do|intros _; apply keeps_ret|]|].
  destruct (decide (re_stream_id e = Some s)) as [Hs|Hs].
  - destruct (Hok Hs) as [_ Hpart]. destruct (Hpart Hk) as (q & Hq & Hparse'). rewrite Hparse in Hparse'. injection Hparse' as <-.
    destruct (cut_meta _ _ _ _ Hcut part Hq) as (_ & Hreq & _). rewrite Hs in *. cbn [from_option id] in *.
    change (readDurablePartsByStreamId _ _ _ _) with (stream_rows h s p) in *.
    assert (Forall (λ r, ∃ q, q ∈ ps ∧ parse_part (dw_payload r) = Some q) (stream_rows h s p)) as Hrows.
    { apply Forall_forall. intros r Hr. apply elem_of_stream_rows in Hr as (Hr & Hst & Hkind & _).
      destruct (on_rows p Hp r Hr ltac:(split; [done|by right])) as [_ (q & Hin & _ & Hpq & _)]. by exists q. }
    destruct (assemble_carries e _ ∅ None _ Hrows Hasm) as [arr Harr].
    rewrite (assemble_all from_base64 decode payload_error payload requestId ps Hcut Hid Hdecode e _ arr Harr) in Hasm.
    case_bool_decide as Hall; [|done]. injection Hasm as <-. by eapply keeps_finish.
  - apply keeps_bind; [apply keeps_consume| |done]. intros [|]; [|apply keeps_bind; [apply keeps_release|intros _; apply keeps_ret]].
    apply keeps_bind; [by apply keeps_do|]. intros _. apply keeps_bind; [by apply keeps_inference|intros _; apply keeps_ret].
Qed.

(** *** The lane *)
Notation handler_of kind := (handlerMap h it uuid from_base64 decode payload_error parse_inference prepare execute other_handler kind).
Lemma keeps_handler now e handler : entry_ok e → handler_of (re_kind e) = Some handler → keeps (handler now e).
Proof using Hcut Hid Hdecode uuid_nonempty Hexecute Hother.
  intros Hok. unfold handlerMap. destruct (negb _); [done|].
  destruct (seqb (re_kind e) "inference") eqn:E1.
  { intros [= <-]. apply keeps_inference. intros Hs. destruct (Hok Hs) as [Hne _]. by apply seqb_true in E1. }
  destruct (seqb (re_kind e) "inference_part") eqn:E2; [intros [= <-]; apply keeps_part; [by apply seqb_true|done]|].
  destruct (seqb (re_kind e) "intake"); [intros [= <-]; apply keeps_intake|].
  destruct (seqb (re_kind e) "cache_warm"); [intros [= <-]; apply keeps_ret|].
  assert (keeps (other_handler e)) as Ho by (apply keeps_quiet, Hother).
  destruct (dispatch_of _) as [[]|]; intros [= <-]; try exact Ho. apply keeps_parsed.
Qed.
Lemma keeps_dispatch now later e : entry_ok e →
  keeps (dispatchActiveEntry h it uuid from_base64 decode payload_error parse_inference prepare execute other_handler now later e).
Proof using Hcut Hid Hdecode uuid_nonempty Hexecute Hother.
  intros Hok. unfold dispatchActiveEntry. destruct (_ <? _); [apply keeps_ret|]. apply keeps_bind; [apply keeps_get|].
  intros [|]; [by apply keeps_do|]. apply keeps_bind; [apply keeps_get|]. intros [c|]; [apply keeps_send; by left|].
  apply keeps_bind; [apply keeps_do; intros p; by destruct (if truthy _ then _ else _)|]. intros _.
  destruct (handler_of (re_kind e)) as [handler|] eqn:Hh; [|apply keeps_ret]. apply keeps_bind.
  - apply keeps_catch; [apply keeps_bind; [by apply keeps_handler|intros r; apply keeps_ret]|].
    intros [|target reason|text]; [apply keeps_ret|apply keeps_bind; [apply keeps_send; by right|intros _; apply keeps_ret]..].
  - intros [[response|]|]; [|apply keeps_ret..]. apply keeps_bind; [apply keeps_send; by left|]. intros _.
    destruct (if truthy _ then _ else _); [by apply keeps_do|apply keeps_ret].
Qed.
Lemma once_table f p : kept s (pr_table p) (f (pr_table p)) → once p → once (on_table p f).
Proof using. intros H. by apply once_kept. Qed.
Lemma once_acknowledge later r p : once p → once (acknowledge later r p).
Proof using.
  intros Hp. unfold acknowledge. destruct (dw_claim_token r) as [tok|]; [|done]. destruct (nonempty tok); [|done]. apply once_table; [apply kept_ack|done].
Qed.
Lemma once_bury later r why p : once p → once (bury later r why p).
Proof using. apply once_table, kept_bury. Qed.
Lemma once_spent later r why p : once p → once (bury_spent later r why p).
Proof using. unfold bury_spent. destruct (_ <=? _); [apply once_bury|done]. Qed.
Lemma once_same p p' : pr_table p' = pr_table p → pr_opened p' = pr_opened p → once p → once p'.
Proof using. intros Ht Ho. apply once_kept; [rewrite Ht; apply kept_refl|unfold openings; by rewrite Ho]. Qed.
Lemma once_claimed now later r p : once p → (request_row s r → ∃ q, row_of r q) →
  once (process_claimed h it uuid from_base64 decode payload_error parse_inference prepare execute other_handler now later r p).
Proof using Hcut Hid Hdecode uuid_nonempty Hexecute Hother.
  intros Hp Hr. unfold process_claimed. destruct (seqb (dw_kind r) "cancel").
  { apply once_acknowledge. destruct (truthy _); [|done]. unfold abort_stream. by destruct (bool_decide _); apply (once_same p). }
  destruct (handler_of (dw_kind r)); [|by apply once_spent]. destruct (_ && _); [by apply once_bury|].
  set (p1 := if _ && _ then _ else p). assert (once p1) as Hp1 by (unfold p1; destruct (_ && _); [by apply (once_same p)|done]).
  assert (entry_ok (inbox_entry now r)) as Hok.
  { intros Hs. cbn [re_kind re_payload inbox_entry] in *. destruct (decide (dw_kind r = "inference")) as [Hk|Hk].
    - destruct (Hr ltac:(split; [done|by left])) as (q & _ & Hk' & _). congruence.
    - split; [done|]. intros Hk'. destruct (Hr ltac:(split; [done|by right])) as (q & Hq & _ & Hparse & _). by exists q. }
  pose proof (keeps_dispatch now later (inbox_entry now r) Hok p1 Hp1) as H.
  destruct (dispatchActiveEntry _ _ _ _ _ _ _ _ _ _ _ _ _ p1) as [p2 res]. cbn [fst] in H.
  set (p3 := on_inflight p2 (delete (dw_id r))). assert (once p3) as Hp3 by (by apply (once_same p2)). clearbody p3.
  unfold settle_claim. destruct res as [[]|[|target reason|text]]; [|by apply once_spent|by apply once_bury|by apply once_spent].
  destruct (bool_decide _); [by apply (once_same p3)|by apply once_acknowledge].
Qed.
Lemma claim_kind_spec token now kind t t' o : claim_kind h token now kind t = (t', o) →
  kept s t t' ∧ (∀ r, o = Some r → ∃ r0, r0 ∈ t ∧ same_work r0 r).
Proof using.
  intros H. assert (∀ site t1 o1, claimLocalDurableWork token now site (Some kind) t = (t1, o1) →
    kept s t t1 ∧ (∀ r, o1 = Some r → ∃ r0, r0 ∈ t ∧ same_work r0 r)) as Hl.
  { intros site t1 o1 E. pose proof (kept_claimLocal s token now site (Some kind) t) as Hk. rewrite E in Hk. split; [exact Hk|].
    unfold claimLocalDurableWork in E. destruct (head _) as [row|] eqn:Eh; injection E as <- <-; intros r; [intros [= <-]|done]. exists row.
    split; [|same_work_tac]. apply head_Some_elem_of, elem_of_order_by in Eh. by destruct (truthy _) in Eh; apply elem_of_select in Eh as [? _]. }
  unfold claim_kind in H. destruct (claimLocalDurableWork token now (rs_site h) (Some kind) t) as [t1 [r|]] eqn:E; [injection H as <- <-; by eapply Hl|].
  destruct (seqb _ _); [injection H as <- <-; split; [apply kept_refl|done]|]. by eapply Hl.
Qed.
Lemma once_turn now later kind p : once p → once (lane_act (Turn now later kind) p).
Proof using Hcut Hid Hdecode uuid_nonempty Hexecute Hother.
  intros Hp. unfold lane_act, process_kind. destruct (claim_kind h _ now kind (pr_table p)) as [t' o] eqn:E.
  apply claim_kind_spec in E as [Hk Hr]. destruct o as [r|]; [|done]. apply once_claimed.
  - apply once_kept with p; [exact Hk|done|done].
  - destruct (Hr r eq_refl) as (r0 & Hr0 & Hw). intros Hq. destruct (on_rows p Hp r0 Hr0) as [_ (q & Hrow)]; [by apply (same_work_request s r0 r)|].
    exists q. by eapply same_row_of.
Qed.
Lemma once_deliver w now p : fair (Deliver w now) → once p → once (lane_act (Deliver w now) p).
Proof using Hcut Hid.
  intros Hfair Hp. cbn [lane_act fair] in *. unfold deliver. destruct (insertDurableWork false false now w (pr_table p)) as [[[t' b] evs]|] eqn:E.
  2: { apply once_kept with p; [|done|done]. simpl. unfold deliver. rewrite E. apply kept_refl. }
  destruct (decide (nw_stream_id w = Some s ∧ (nw_kind w = "inference" ∨ nw_kind w = "inference_part"))) as [Hq|Hq].
  2: { apply once_kept with p; [|done|done]. simpl. unfold deliver. rewrite E. by eapply kept_insert. }
  destruct (Hfair Hq) as (q & Hin & Hkind & Hpay & Hkey & Ht). unfold on_table, deliver. rewrite E. revert E.
  unfold insertDurableWork. destruct (validateDurableWork w); cbn [result_bind]; [|done]. destruct Hp as [H1 H2 H3].
  destruct (insert_or_ignore_cases dw_clash (new_row now w) (pr_table p)) as [[-> _]|[-> Hc]]; intros [= <- _ _].
  { split; [done|done|]. exact H3. }
  split; cbn [pr_table].
  - apply NoDup_insert_fresh; [done|]. intros old Hold Heq. apply Hc in Hold. unfold dw_clash in Hold. by rewrite Heq, seqb_refl in Hold.
  - intros r [Hr|Heq%list_elem_of_singleton]%elem_of_app Hreq; [by apply H2|]. subst r. split; [done|]. exists q. unfold row_of. simpl.
    rewrite Hkind, Hpay, Hkey, Ht. split_and!; try done. apply parse_part_json. by apply part_is_ok.
  - destruct H3 as [H3|(_ & _ & H4)]; [by left|]. destruct (H4 q Hin) as (r & Hr & Hreq & Hk). exfalso.
    destruct (H2 r Hr Hreq) as [_ (q' & _ & Hk' & _)]. apply Hc in Hr. unfold dw_clash in Hr. apply orb_false_iff in Hr as [_ Hr].
    cbn [new_row dw_kind dw_idempotency_key] in Hr. by rewrite Hkind, Hkey, Hk, Hk', !seqb_refl in Hr.
Qed.

(** C6: A request that arrives in parts is opened at most once: whatever order the
    rows arrive in and however often, whichever kinds have their turns between
    them, and however often the process restarts, the host starts one stream for
    it at most. *)
Theorem parts_open_once actions uuids :
  Forall fair actions → (length (openings (lane_run actions (boot [] uuids))) ≤ 1)%nat.
Proof using Hcut Hid Hdecode uuid_nonempty Hexecute Hother.
  intros Hfair. assert (once (lane_run actions (boot [] uuids))) as [_ _ [-> |[-> _]]]; [|simpl; lia..].
  assert (once (boot [] uuids)) as Hp.
  { split; [constructor|by intros r []%elem_of_nil|by left]. }
  revert Hp. generalize (boot [] uuids) as p. induction Hfair as [|a actions Ha Hfair IH]; intros p Hp; [done|]. apply IH.
  destruct a as [w now|now later kind|]; [by apply once_deliver|by apply once_turn|].
  apply once_kept with p; [apply kept_boot|done|done].
Qed.
End once.

(** ** Examples *)
Module PartExamples.
Import Examples.
Definition part_key (q : InferenceRequestPart) : string := "inference-part:r1:" +:+ show_int (ip_index q).
(** A part as the requester routes it, with the expiry of its row. *)
Definition part_work (expires : Z) (q : InferenceRequestPart) : NewDurableWork :=
  MkNewWork ("part" +:+ show_int (ip_index q)) "hub" "inference_part" (json_stringify (part_json q)) (part_key q) (Some expires)
    (Some "r1") (Some "spoke") None (Some "s1") None.
Definition arrive (expires : Z) (q : InferenceRequestPart) : lane_action := Deliver (part_work expires q) 500.
Definition part_turn : lane_action := Turn 1000 1000 "inference_part".
Definition run (l : list lane_action) : processor :=
  lane_run (hub_of true) tables row_ids sample_from sample_decode (λ _ _, "bad") (λ _, inl "model") (λ _, Prepared) execute (λ _, lane_ret None) l (boot [] 0).
Definition requests (p : processor) : list (string * string) := (λ e, (re_id e, re_payload e)) <$> pr_opened p.
Definition states (p : processor) : list (string * DurableWorkClaimState) := (λ r, (dw_kind r, dw_claim_state r)) <$> pr_table p.

(** All parts are there when one of them has its turn. *)
Definition in_time : list lane_action := (arrive 300000 <$> reverse sample_parts) ++ [part_turn].
Example request_opened : requests (run in_time) = [("r1", sample_payload)] ∧
  states (run in_time) = [("inference_part", Consumed); ("inference_part", Consumed); ("inference_part", Consumed)].
Proof. split; vm_compute; reflexivity. Qed.
(** A part has its turn before the last one is there: it is consumed, and the
    request is never put together. *)
Definition too_early : list lane_action :=
  (arrive 300000 <$> take 2 sample_parts) ++ [part_turn] ++ (arrive 300000 <$> drop 2 sample_parts) ++ [part_turn; part_turn; part_turn].
Example request_lost : requests (run too_early) = [] ∧
  states (run too_early) = [("inference_part", Consumed); ("inference_part", Consumed); ("inference_part", Consumed)].
Proof. split; vm_compute; reflexivity. Qed.
(** The requester gives every part the expiry of its own millisecond; parts that
    do not share one are taken for a conflict. *)
Definition clock_ticks : list lane_action :=
  imap (λ i q, arrive (300000 + Z.of_nat i) q) sample_parts ++ [part_turn].
Example request_refused : requests (run clock_ticks) = [] ∧
  states (run clock_ticks) = [("inference_part", Consumed); ("inference_part", Pending); ("inference_part", Pending); ("error", Pending)].
Proof. split; vm_compute; reflexivity. Qed.

Lemma sample_cut : cut sample_from sample_payload "r1" sample_parts.
Proof.
  apply (split_cut sample_to sample_from sample_inverse sample_length sample_plain sample_payload "r1" 88). vm_compute. reflexivity.
Qed.
Definition many_times : list lane_action := in_time ++ [Restart] ++ (arrive 300000 <$> sample_parts) ++ [part_turn; Restart; part_turn].
Lemma many_fair : Forall (fair (hub_of true) "s1" sample_parts part_key) many_times.
Proof.
  apply Forall_forall. intros a Ha. unfold many_times, in_time in Ha. rewrite !elem_of_app in Ha.
  assert (∀ q, q ∈ sample_parts → fair (hub_of true) "s1" sample_parts part_key (arrive 300000 q)) as Harr by (intros q Hq _; by exists q).
  destruct Ha as [[(q & -> & Hq%elem_of_reverse)%list_elem_of_fmap| ->%list_elem_of_singleton]|[->%list_elem_of_singleton|[(q & -> & Hq)%list_elem_of_fmap|Ha]]];
    [by apply Harr|done|done|by apply Harr|].
  rewrite !elem_of_cons, elem_of_nil in Ha. by destruct Ha as [-> |[-> |[-> |[]]]].
Qed.
(** The lane has just claimed the second part. *)
Definition claimed_state : processor :=
  let t := (lane_run (hub_of true) tables row_ids sample_from sample_decode (λ _ _, "bad") (λ _, inl "model") (λ _, Prepared) execute
              (λ _, lane_ret None) (arrive 300000 <$> sample_parts) (boot [] 0)) in
  on_inflight (on_table t (claim_row "tok" 900 "part1")) (<["part1" := "tok"]>).
Lemma claimed_wf : dw_wf (pr_table claimed_state).
Proof.
  assert (dw_wf (foldl (λ t q, deliver (part_work 300000 q) 500 t) [] sample_parts)) as H.
  { generalize sample_parts as l. generalize dw_wf_nil. generalize ([] : dw_table) as t. intros t Ht l. revert t Ht.
    induction l as [|q l IH]; intros t Ht; [done|]. apply IH. unfold deliver.
    destruct (insertDurableWork _ _ _ _ t) as [[[t' b] evs]|] eqn:E; [|done]. eapply shape_wf; [by eapply insert_shape|done]. }
  assert (pr_table claimed_state = claim_row "tok" 900 "part1" (foldl (λ t q, deliver (part_work 300000 q) 500 t) [] sample_parts)) as ->
    by (vm_compute; reflexivity).
  eapply upds_wf; [apply claim_row_upds|done].
Qed.
Definition claimed_entry : RelayInboxEntry :=
  inbox_entry 900 (new_row 500 (part_work 300000 (List.nth 1 sample_parts (MkPart 1 "" 0 0 "")))).
End PartExamples.

Lemma parts_open_once_witness :
  (length (openings "s1" (PartExamples.run PartExamples.many_times)) ≤ 1)%nat.
Proof.
  apply (parts_open_once (Examples.hub_of true) Examples.tables row_ids sample_from sample_decode (λ _ _, "bad") (λ _, inl "model") (λ _, Prepared)
    Examples.execute (λ _, lane_ret None) sample_payload "r1" "s1" sample_parts PartExamples.part_key).
  - exact PartExamples.sample_cut.
  - discriminate.
  - reflexivity.
  - intros n. reflexivity.
  - intros e v t. apply kept_refl.
  - intros e p. split; [apply kept_refl|reflexivity].
  - exact PartExamples.many_fair.
Defined.
Lemma parts_opened_witness :
  ∃ p', handleInferencePart (Examples.hub_of true) row_ids sample_from sample_decode (λ _ _, "bad") (λ _, inl "model") (λ _, Prepared) 1000
          PartExamples.claimed_entry PartExamples.claimed_state = (p', inl None) ∧
        pr_opened p' = [synthetic PartExamples.claimed_entry "r1" sample_payload].
Proof.
  pose proof (parts_opened sample_from sample_decode (λ _ _, "bad") sample_payload "r1" sample_parts PartExamples.sample_cut ltac:(discriminate) eq_refl
    (Examples.hub_of true) row_ids (λ _, inl "model") (λ _, Prepared) (λ _, eq_refl) 1000 "s1" PartExamples.claimed_entry PartExamples.claimed_state
    "model") as H.
  destruct H as [H _].
  - split; [|done..]. exists (List.nth 1 sample_parts (MkPart 1 "" 0 0 "")). split; [vm_compute; by right; left|vm_compute; reflexivity].
  - exact PartExamples.claimed_wf.
  - apply not_elem_of_empty.
  - apply not_elem_of_empty.
  - reflexivity.
  - reflexivity.
  - reflexivity.
  - specialize (H sample_parts). rewrite bool_decide_eq_true_2 in H by (apply Forall_forall; intros q Hq; exact Hq).
    destruct H as [H _]; [unfold carries; apply (bool_decide_unpack _); vm_compute; exact I|].
    destruct H as (p' & H1 & H2 & _); [|exists p'; by split].
    set (l := stream_rows _ _ _). let v := eval vm_compute in l in replace l with v by (vm_compute; reflexivity).
    repeat apply Forall_cons_2; [..|apply Forall_nil_2]; vm_compute; repeat split.
Defined.
