(* ===== verification/Dispatch.v ===== *)
(** * Message dispatch (packages/core/src/dispatch.ts)

    The legacy [dispatch_queue] table beside the durable work table: enqueueing
    of messages, notifications, client tool calls and tool results, the claim
    that drains both stores behind the durable fence, acknowledgement, recovery
    and the expiry of client tool calls.  [randomUUID()], [new Date()] and the
    DURABLE_DISPATCH_ENQUEUE_ENABLED switch are arguments.  Not modelled:
    [resolveDeferredToolResult], which belongs with the message repository. *)
From Stdlib Require Import Ascii.
From S2P Require Import Prelude Sql Json DurableWork.

(** ** Data *)
Inductive QueueStatus : Type := QPending | QProcessing | QAcknowledged | QExpired.

#[export] Instance queue_status_eq_dec : EqDecision QueueStatus.
Proof. solve_decision. Defined.

Record QueueRow : Type := MkQueueRow {
  q_message_id : string;
  q_thread_id : string;
  q_status : QueueStatus;
  q_claimed_by : option string;
  q_event_type : string;
  q_event_payload : option string;
  q_created_at : Z;
  q_modified_at : Z
}.

#[export] Instance queue_row_eq_dec : EqDecision QueueRow.
Proof. solve_decision. Defined.

(** The entries [claimPending] hands out.  The first four fields of a durable
    entry are read from its payload and are [undefined] when it lacks them. *)
Record DispatchEntry : Type := MkEntry {
  e_message_id : option string;
  e_thread_id : option string;
  e_status : QueueStatus;
  e_event_type : option string;
  e_event_payload : option string;
  e_claimed_by : option string;
  e_created_at : Z;
  e_modified_at : Z;
  e_durable_work_id : option string;
  e_durable_claim_token : option string
}.

(** The two tables, the bus the durable writer emits on and whether a
    transaction is open. *)
Record Db : Type := MkDb {
  durable : dw_table;
  queue : list QueueRow;
  bus_set : bool;
  in_transaction : bool;
  emitted : list written_event
}.

Definition with_durable (t : dw_table) (db : Db) : Db :=
  MkDb t (queue db) (bus_set db) (in_transaction db) (emitted db).
Definition with_queue (q : list QueueRow) (db : Db) : Db :=
  MkDb (durable db) q (bus_set db) (in_transaction db) (emitted db).

Definition CLIENT_TOOL_CALL : string := "client_tool_call".
Definition TOOL_RESULT : string := "tool_result".

(** ** Column assignments and clauses on dispatch_queue *)
Definition set_status (s : QueueStatus) (now : Z) (r : QueueRow) : QueueRow :=
  MkQueueRow (q_message_id r) (q_thread_id r) s (q_claimed_by r) (q_event_type r)
    (q_event_payload r) (q_created_at r) now.
Definition set_claimed_by (c : option string) (r : QueueRow) : QueueRow :=
  MkQueueRow (q_message_id r) (q_thread_id r) (q_status r) c (q_event_type r)
    (q_event_payload r) (q_created_at r) (q_modified_at r).

Definition status_is (s : QueueStatus) (r : QueueRow) : bool := bool_decide (q_status r = s).
Definition in_flight (r : QueueRow) : bool := status_is QPending r || status_is QProcessing r.
Definition event_is (e : string) (r : QueueRow) : bool := seqb (q_event_type r) e.
Definition on_thread (t : string) (r : QueueRow) : bool := seqb (q_thread_id r) t.
Definition payload_is (p : string) (r : QueueRow) : bool :=
  match q_event_payload r with Some q => seqb q p | None => false end.
Definition claimed_by_is (c : string) (r : QueueRow) : bool :=
  match q_claimed_by r with Some d => seqb d c | None => false end.
Definition message_in (ids : list string) (r : QueueRow) : bool := existsb (seqb (q_message_id r)) ids.

Definition queue_clash (old new : QueueRow) : bool := seqb (q_message_id old) (q_message_id new).

(** ** Payloads *)
Definition opt_str (o : option string) : json := match o with Some s => JStr s | None => JNull end.

Definition dispatch_payload (messageId threadId eventType : string) (eventPayload : option string)
    : json :=
  JObj [("message_id", JStr messageId); ("thread_id", JStr threadId);
        ("event_type", JStr eventType); ("event_payload", opt_str eventPayload)].

(** [json_extract(payload, '$.k')] and the property of the parsed payload. *)
Definition payload_field (k payload : string) : option string :=
  match json_parse payload with Some v => as_string (json_get k v) | None => None end.

(** A value in a template literal; [None] is [undefined]. *)
Fixpoint js_string (v : json) : string :=
  match v with
  | JNull => "null"
  | JBool b => if b then "true" else "false"
  | JNum m e => of_chars (print_num m e)
  | JStr s => s
  | JArr l =>
      of_chars (sep_by [","%char]
        ((λ x, match x with JNull => [] | _ => chars (js_string x) end) <$> l))
  | JObj _ => "[object Object]"
  end.
Definition template (o : option json) : string :=
  match o with Some v => js_string v | None => "undefined" end.

(** [`tool-result:${threadId}:${callId}`]. *)
Definition tool_result_key (threadId callId : string) : string :=
  "tool-result:" +:+ threadId +:+ ":" +:+ callId.

(** The identity an entry is fenced by: its message id, or the thread and call
    of a tool result.  [JSON.parse] throws on a malformed event payload, and so
    does reading [call_id] of [null]. *)
Definition entry_identity (eventType threadId messageId eventPayload : option string)
    : result (option string) :=
  match eventType with
  | Some t =>
      if seqb t TOOL_RESULT then
        match json_parse (default "{}" eventPayload) with
        | None => Throw "JSON Parse error"
        | Some JNull => Throw "null is not an object"
        | Some v => Ok (Some (tool_result_key (default "undefined" threadId)
                                (template (json_get "call_id" v))))
        end
      else Ok messageId
  | None => Ok messageId
  end.

Definition row_identity (r : QueueRow) : result (option string) :=
  entry_identity (Some (q_event_type r)) (Some (q_thread_id r)) (Some (q_message_id r))
    (q_event_payload r).
Definition payload_identity (payload : string) : result (option string) :=
  entry_identity (payload_field "event_type" payload) (payload_field "thread_id" payload)
    (payload_field "message_id" payload) (payload_field "event_payload" payload).

(** ** Enqueue *)
Definition enqueueDurableDispatch (uuid : string) (now : Z)
    (threadId messageId eventType : string) (eventPayload : option string)
    (idempotencyKey : string) (db : Db) : result Db :=
  let! (t, _, evs) :=
    insertDurableWork (bus_set db) (in_transaction db) now
      (MkNewWork uuid LOCAL_WORK_TARGET "dispatch_message"
         (json_stringify (dispatch_payload messageId threadId eventType eventPayload))
         idempotencyKey None None None None None None) (durable db) in
  Ok (MkDb t (queue db) (bus_set db) (in_transaction db) (emitted db ++ evs)).

Definition insert_queue_or_ignore (r : QueueRow) (db : Db) : Db :=
  with_queue (insert_or_ignore queue_clash r (queue db)).1 db.

(** A plain INSERT: a primary-key clash is an SQL error. *)
Definition insert_queue (r : QueueRow) (db : Db) : result Db :=
  if existsb (λ old, queue_clash old r) (queue db)
  then Throw "UNIQUE constraint failed: dispatch_queue.message_id"
  else Ok (with_queue (queue db ++ [r]) db).

Definition enqueueMessage (enabled : bool) (uuid : string) (now : Z) (messageId threadId : string)
    (db : Db) : result Db :=
  if enabled
  then enqueueDurableDispatch uuid now threadId messageId "user_message" None messageId db
  else Ok (insert_queue_or_ignore
             (MkQueueRow messageId threadId QPending None "user_message" None now now) db).

(** [uuid1] names the entry when no key is given, [uuid2] the durable row. *)
Definition enqueueNotification (enabled : bool) (uuid1 uuid2 : string) (now : Z)
    (threadId : string) (payload : json) (idempotencyKey : option string) (db : Db)
    : result (Db * string) :=
  let entryId := default uuid1 idempotencyKey in
  if enabled then
    let! db' := enqueueDurableDispatch uuid2 now threadId entryId "notification"
                  (Some (json_stringify payload))
                  (default ("notify:" +:+ entryId) idempotencyKey) db in
    Ok (db', entryId)
  else
    Ok (insert_queue_or_ignore
          (MkQueueRow entryId threadId QPending None "notification"
             (Some (json_stringify payload)) now now) db, entryId).

Definition enqueueClientToolCall (uuid : string) (now : Z) (threadId : string) (payload : json)
    (connectionId : string) (db : Db) : result (Db * string) :=
  let! db' := insert_queue (MkQueueRow uuid threadId QPending (Some connectionId) CLIENT_TOOL_CALL
                (Some (json_stringify payload)) now now) db in
  Ok (db', uuid).

Definition call_payload (callId : string) : string := json_stringify (JObj [("call_id", JStr callId)]).

Definition enqueueToolResult (enabled : bool) (uuid1 uuid2 : string) (now : Z)
    (threadId callId : string) (db : Db) : result (Db * string) :=
  let payload := call_payload callId in
  let key := tool_result_key threadId callId in
  if enabled then
    let messageId := uuid1 in
    let! db' := enqueueDurableDispatch uuid2 now threadId messageId TOOL_RESULT (Some payload) key db in
    match head (sql_select (λ r, of_kind "dispatch_message" r && seqb (dw_idempotency_key r) key)
                  (durable db')) with
    | Some r => Ok (db', default "undefined" (payload_field "message_id" (dw_payload r)))
    | None => Ok (db', messageId)
    end
  else
    match head (sql_select (λ r, on_thread threadId r && event_is TOOL_RESULT r &&
                                 payload_is payload r && in_flight r) (queue db)) with
    | Some r => Ok (db, q_message_id r)
    | None =>
        let! db' := insert_queue (MkQueueRow uuid1 threadId QPending None TOOL_RESULT (Some payload)
                      now now) db in
        Ok (db', uuid1)
    end.

(** ** Claim *)

(** The durable rows of a thread: pending ones, and all of them for the fence. *)
Definition dispatch_row (threadId : string) (r : DurableWorkRow) : bool :=
  targets LOCAL_WORK_TARGET r && of_kind "dispatch_message" r &&
  match payload_field "thread_id" (dw_payload r) with Some t => seqb t threadId | None => false end.

Definition durable_entry (token claimedBy : string) (now : Z) (r : DurableWorkRow) : DispatchEntry :=
  MkEntry (payload_field "message_id" (dw_payload r)) (payload_field "thread_id" (dw_payload r))
    QProcessing (payload_field "event_type" (dw_payload r)) (payload_field "event_payload" (dw_payload r))
    (Some claimedBy) (dw_created_at r) now (Some (dw_id r)) (Some token).

Fixpoint claim_durable (uuid : nat → string) (now : Z) (claimedBy : string)
    (rows : list DurableWorkRow) (t : dw_table) : result (dw_table * list DispatchEntry) :=
  match rows with
  | [] => Ok (t, [])
  | row :: rows' =>
      let t1 := claim_row (uuid 0%nat) now (dw_id row) t in
      match json_parse (dw_payload row) with
      | None => Throw "JSON Parse error"
      | Some _ =>
          let! (t2, entries) := claim_durable (λ n, uuid (S n)) now claimedBy rows' t1 in
          Ok (t2, durable_entry (uuid 0%nat) claimedBy now row :: entries)
      end
  end.

Definition legacy_entry (r : QueueRow) : DispatchEntry :=
  MkEntry (Some (q_message_id r)) (Some (q_thread_id r)) (q_status r) (Some (q_event_type r)) (q_event_payload r)
    (q_claimed_by r) (q_created_at r) (q_modified_at r) None None.

Fixpoint map_result {A B} (f : A → result B) (l : list A) : result (list B) :=
  match l with
  | [] => Ok []
  | x :: l' => let! y := f x in let! ys := map_result f l' in Ok (y :: ys)
  end.

Definition str_opt_eqb (a b : option string) : bool := bool_decide (a = b).

Definition claimPending (uuid : nat → string) (now : Z) (threadId claimedBy : string) (db : Db)
    : result (Db * list DispatchEntry) :=
  let pendingDurable :=
    order_by dw_created_at (sql_select (λ r, dispatch_row threadId r && in_state Pending r) (durable db)) in
  let! (t1, entries) := claim_durable uuid now claimedBy pendingDurable (durable db) in
  let pending :=
    order_by q_created_at
      (sql_select (λ r, on_thread threadId r && status_is QPending r && negb (event_is CLIENT_TOOL_CALL r))
         (queue db)) in
  let! fenced := map_result (λ r, payload_identity (dw_payload r)) (sql_select (dispatch_row threadId) t1) in
  let! identities := map_result row_identity pending in
  let is_fenced (ri : QueueRow * option string) := existsb (str_opt_eqb ri.2) fenced in
  let tagged := zip pending identities in
  let legacy := fst <$> List.filter (λ ri, negb (is_fenced ri)) tagged in
  let suppressed := fst <$> List.filter is_fenced tagged in
  let q1 := if (0 <? length suppressed)%nat
            then sql_update (message_in (q_message_id <$> suppressed)) (set_status QAcknowledged now) (queue db)
            else queue db in
  let q2 := if (0 <? length legacy)%nat
            then sql_update (message_in (q_message_id <$> legacy))
                   (λ r, set_status QProcessing now (set_claimed_by (Some claimedBy) r)) q1
            else q1 in
  Ok (with_queue q2 (with_durable t1 db), entries ++ (legacy_entry <$> legacy)).

(** ** Acknowledge, recover, query *)
Definition acknowledgeBatchIds (now : Z) (ids : list string) (db : Db) : Db :=
  with_queue (sql_update (message_in ids) (set_status QAcknowledged now) (queue db)) db.

Definition acknowledgeBatch (now : Z) (entries : list DispatchEntry) (db : Db) : Db :=
  let legacyIds :=
    omap e_message_id (List.filter (λ e, negb (truthy (e_durable_work_id e))) entries) in
  let db1 := if (0 <? length legacyIds)%nat then acknowledgeBatchIds now legacyIds db else db in
  foldl (λ db e,
    match e_durable_work_id e, e_durable_claim_token e with
    | Some i, Some tok =>
        if nonempty i && nonempty tok
        then with_durable (acknowledgeDurableWork now i tok (durable db)).1 db else db
    | _, _ => db
    end) db1 entries.

Definition acknowledgeClientToolCall (now : Z) (entryId : string) (db : Db) : Db :=
  with_queue (sql_update (λ r, seqb (q_message_id r) entryId) (set_status QAcknowledged now) (queue db)) db.

Definition reset_row (now : Z) (r : QueueRow) : QueueRow := set_status QPending now (set_claimed_by None r).

Definition resetProcessing (now : Z) (db : Db) : Db * nat :=
  let '(q, c) := run_update (λ r, status_is QProcessing r && negb (event_is CLIENT_TOOL_CALL r))
                   (reset_row now) (queue db) in
  (with_queue q db, c).

Definition resetProcessingForThread (now : Z) (threadId : string) (db : Db) : Db * nat :=
  let '(q, c) := run_update (λ r, status_is QProcessing r && on_thread threadId r &&
                                  negb (event_is CLIENT_TOOL_CALL r)) (reset_row now) (queue db) in
  (with_queue q db, c).

Definition resetProcessingDurableDispatchForThread (threadId : string) (db : Db) : Db * nat :=
  let '(t, c) := run_update (λ r, dispatch_row threadId r && in_state Processing r) repend_set (durable db) in
  (with_durable t db, c).

Definition hasPending (threadId : string) (db : Db) : bool :=
  (0 <? sql_count (λ r, on_thread threadId r && status_is QPending r && negb (event_is CLIENT_TOOL_CALL r))
          (queue db) +
        sql_count (λ r, dispatch_row threadId r && in_state Pending r) (durable db))%nat.

Definition client_call_in_flight (r : QueueRow) : bool := event_is CLIENT_TOOL_CALL r && in_flight r.

Definition hasPendingClientToolCalls (threadId : string) (db : Db) : bool :=
  (0 <? sql_count (λ r, on_thread threadId r && client_call_in_flight r) (queue db))%nat.

Definition hasInFlightClientToolCallsForConnection (connectionId : string) (db : Db) : bool :=
  (0 <? sql_count (λ r, claimed_by_is connectionId r && client_call_in_flight r) (queue db))%nat.

Definition getPendingClientToolCalls (threadId : string) (db : Db) : list QueueRow :=
  order_by q_created_at (sql_select (λ r, on_thread threadId r && client_call_in_flight r) (queue db)).

(** ** Expiry of client tool calls *)
Definition expire_where (cutoff : Z) (threadId : option string) (excludeThreadIds : list string)
    (r : QueueRow) : bool :=
  client_call_in_flight r && (q_created_at r <? cutoff) &&
  (if truthy threadId then on_thread (default "" threadId) r else true) &&
  negb (existsb (seqb (q_thread_id r)) (List.filter nonempty excludeThreadIds)).

Definition expire_rows (p : QueueRow → bool) (now : Z) (db : Db) : Db * list QueueRow :=
  let expired := sql_select p (queue db) in
  ((if (0 <? length expired)%nat
    then with_queue (sql_update p (set_status QExpired now) (queue db)) db else db), expired).

Definition expireClientToolCalls (now ttlMs : Z) (threadId : option string)
    (excludeThreadIds : list string) (db : Db) : Db * list QueueRow :=
  expire_rows (expire_where (now - ttlMs) threadId excludeThreadIds) now db.

Definition expireClientToolCallsForConnection (now : Z) (connectionId : string) (db : Db)
    : Db * list QueueRow :=
  expire_rows (λ r, client_call_in_flight r && claimed_by_is connectionId r) now db.

Definition cancelClientToolCalls (now : Z) (threadId : string) (db : Db) : Db * nat :=
  let '(q, c) := run_update (λ r, on_thread threadId r && client_call_in_flight r)
                   (set_status QExpired now) (queue db) in
  (with_queue q db, c).

Definition updateClaimedBy (now : Z) (entryId connectionId : string) (db : Db) : Db :=
  with_queue (sql_update (λ r, seqb (q_message_id r) entryId)
    (λ r, set_status QProcessing now (set_claimed_by (Some connectionId) r)) (queue db)) db.

Definition pruneAcknowledged (cutoff : Z) (db : Db) : Db * nat :=
  let '(q, c) := run_delete (λ r, status_is QAcknowledged r && (q_modified_at r <? cutoff)) (queue db) in
  (with_queue q db, c).

Definition acknowledgeToolResultForCall (enabled : bool) (now : Z) (threadId callId : string) (db : Db)
    : Db :=
  let q := sql_update (λ r, on_thread threadId r && event_is TOOL_RESULT r &&
                            payload_is (call_payload callId) r && in_flight r)
             (set_status QAcknowledged now) (queue db) in
  let db1 := with_queue q db in
  if enabled
  then with_durable (consumePendingDispatchByIdempotencyKey (tool_result_key threadId callId) now
                       (durable db1)).1 db1
  else db1.

(** ** Payload facts *)
Lemma dispatch_payload_field m th ev p :
  let s := json_stringify (dispatch_payload m th ev p) in
  is_Some (json_parse s) ∧
  payload_field "message_id" s = Some m ∧ payload_field "thread_id" s = Some th ∧
  payload_field "event_type" s = Some ev ∧ payload_field "event_payload" s = p.
Proof.
  intros s. assert (json_parse s = Some (dispatch_payload m th ev p)) as Hp.
  { apply json_roundtrip. split; [|by destruct p]. simpl.
    repeat (apply NoDup_cons; split; [set_solver|]). apply NoDup_nil_2. }
  unfold payload_field. rewrite Hp. split_and!; [by eexists|done..|]. by destruct p.
Qed.

Lemma call_payload_parse callId :
  json_parse (call_payload callId) = Some (JObj [("call_id", JStr callId)]).
Proof. apply json_roundtrip. split; [|done]. apply NoDup_singleton. Qed.

(** ** The state the operations keep *)
Definition identifiable (res : result (option string)) : Prop := ∃ i, res = Ok i.

Definition db_ok (db : Db) : Prop :=
  dw_wf (durable db) ∧ keys_unique q_message_id (queue db) ∧
  Forall (λ r, dw_kind r = "dispatch_message" → identifiable (payload_identity (dw_payload r)))
    (durable db) ∧
  Forall (λ r, identifiable (row_identity r)) (queue db).

Lemma map_result_ok {A B} (f : A → result B) l ys :
  map_result f l = Ok ys → Forall2 (λ x y, f x = Ok y) l ys.
Proof.
  revert ys. induction l as [|x l IH]; intros ys; simpl; [by intros [= <-]|].
  destruct (f x) eqn:E; [|done]. destruct (map_result f l); [|done].
  intros [= <-]. constructor; auto.
Qed.

Lemma map_result_total {A B} (f : A → result B) l :
  Forall (λ x, ∃ y, f x = Ok y) l → ∃ ys, map_result f l = Ok ys.
Proof.
  induction 1 as [|x l [y Hy] _ [ys IH]]; simpl; [by eexists|]. rewrite Hy, IH. by eexists.
Qed.

Lemma dispatch_row_spec threadId r :
  dispatch_row threadId r = true ↔
    dw_target_site_id r = LOCAL_WORK_TARGET ∧ dw_kind r = "dispatch_message" ∧
    payload_field "thread_id" (dw_payload r) = Some threadId.
Proof.
  unfold dispatch_row, targets, of_kind. rewrite !andb_true_iff, !seqb_true.
  destruct (payload_field "thread_id" (dw_payload r)); [rewrite seqb_true|]; naive_solver.
Qed.

(** ** The claim of the durable rows *)
Definition claimed_entries (uuid : nat → string) (now : Z) (c : string) (rows : list DurableWorkRow) :
    list DispatchEntry := imap (λ k d, durable_entry (uuid k) c now d) rows.

Lemma claim_durable_spec uuid now c rows t :
  NoDup (dw_id <$> rows) → keys_unique dw_id t →
  (∀ r, r ∈ rows → row_at dw_id (dw_id r) t = Some r ∧ dw_claim_state r = Pending ∧
                   is_Some (json_parse (dw_payload r))) →
  ∃ t', claim_durable uuid now c rows t = Ok (t', claimed_entries uuid now c rows) ∧ keys_unique dw_id t' ∧
    (∀ k r, rows !! k = Some r → row_at dw_id (dw_id r) t' = Some (claim_set (uuid k) now r)) ∧
    (∀ j, j ∉ (dw_id <$> rows) → row_at dw_id j t' = row_at dw_id j t).
Proof.
  revert uuid t. induction rows as [|row rows IH]; intros uuid t Hnd Hk Hin; cbn [claim_durable].
  { exists t. split_and!; done. }
  rewrite fmap_cons in Hnd. apply NoDup_cons in Hnd as [Hrow Hnd].
  destruct (Hin row) as (Hat & Hp & [v Hv]); [set_solver|]. rewrite Hv.
  set (t1 := claim_row (uuid 0%nat) now (dw_id row) t).
  assert (∀ j, j ≠ dw_id row → row_at dw_id j t1 = row_at dw_id j t) as Hoth1.
  { intros j Hj. unfold t1. rewrite claim_row_row. destruct (row_at dw_id j t); [|done]. simpl.
    by apply seqb_false in Hj as ->. }
  destruct (IH (λ n, uuid (S n)) t1) as (t2 & Heq & Hk2 & Hall & Hoth).
  - done.
  - by apply claim_row_keys.
  - intros r Hr. rewrite Hoth1; [apply Hin; set_solver|].
    intros Heq. apply Hrow. rewrite <-Heq. by apply list_elem_of_fmap_2.
  - rewrite Heq. cbn [result_bind]. eexists. split; [done|]. split_and!; [done| |].
    + intros [|k] r Hr; [|by apply (Hall k)]. injection Hr as <-. rewrite Hoth by done.
      unfold t1. rewrite claim_row_row, Hat. simpl. rewrite seqb_refl.
      by apply in_state_true in Hp as ->.
    + intros j [Hj1 Hj2]%not_elem_of_cons. by rewrite Hoth, Hoth1.
Qed.

(** What the durable phase of [claimPending] leaves. *)
Lemma claim_durable_phase uuid now threadId c t :
  dw_wf t →
  let rows := order_by dw_created_at (sql_select (λ r, dispatch_row threadId r && in_state Pending r) t) in
  (∀ r, r ∈ rows ↔ r ∈ t ∧ dispatch_row threadId r = true ∧ dw_claim_state r = Pending) ∧
  NoDup (dw_id <$> rows) ∧
  ∃ t', claim_durable uuid now c rows t = Ok (t', claimed_entries uuid now c rows) ∧
    (∀ k d, rows !! k = Some d → row_at dw_id (dw_id d) t' = Some (claim_set (uuid k) now d)) ∧
    (∀ d, d ∈ t → d ∉ rows → row_at dw_id (dw_id d) t' = Some d) ∧
    sql_count (λ r, dispatch_row threadId r && in_state Pending r) t' = 0%nat ∧
    (∀ d, d ∈ t → ∃ d', d' ∈ t' ∧ dw_payload d' = dw_payload d ∧
       dispatch_row threadId d' = dispatch_row threadId d) ∧
    (∀ d', d' ∈ t' → ∃ d, d ∈ t ∧ dw_payload d' = dw_payload d ∧ dw_kind d' = dw_kind d ∧
       dispatch_row threadId d' = dispatch_row threadId d).
Proof.
  intros Hwf rows. pose proof Hwf as (Hk & _ & Hrw).
  assert (∀ r, r ∈ rows ↔ r ∈ t ∧ dispatch_row threadId r = true ∧ dw_claim_state r = Pending) as Hrows.
  { intros r. unfold rows. by rewrite elem_of_order_by, elem_of_select, andb_true_iff, in_state_true. }
  assert (NoDup (dw_id <$> rows)) as Hnd by (unfold rows; rewrite order_by_perm; by apply NoDup_fmap_filter).
  split; [exact Hrows|]. split; [exact Hnd|].
  destruct (claim_durable_spec uuid now c rows t Hnd Hk) as (t' & Heq & Hk' & Hall & Hoth).
  - intros r (Hr & _ & Hp)%Hrows. split; [by apply row_at_elem|]. split; [done|].
    rewrite Forall_forall in Hrw. apply (Hrw r Hr).
  - assert (∀ d, d ∈ rows → ∃ tok, row_at dw_id (dw_id d) t' = Some (claim_set tok now d)) as Hsel.
    { intros d [i Hi]%list_elem_of_lookup. eauto. }
    exists t'. split_and!; [done|done| | | |].
    + intros d Hd Hn. pose proof (row_at_elem dw_id _ t d Hk Hd eq_refl) as Hat.
      rewrite Hoth; [done|]. intros (d' & Hid & Hdin)%list_elem_of_fmap.
      apply Hrows in Hdin as Hd'. destruct Hd' as (Hd' & _).
      pose proof (row_at_elem dw_id _ t d' Hk Hd' eq_refl) as Hat'. rewrite <-Hid, Hat in Hat'.
      by simplify_eq.
    + apply sql_count_zero. intros r Hr. apply not_true_iff_false.
      rewrite andb_true_iff, in_state_true. intros [Hd Hp].
      pose proof (row_at_elem dw_id _ t' r Hk' Hr eq_refl) as Hat.
      destruct (decide (dw_id r ∈ dw_id <$> rows)) as [(d & Hid & Hdin)%list_elem_of_fmap|Hn].
      * destruct (Hsel d Hdin) as (tok & Hat'). rewrite Hid, Hat' in Hat.
        injection Hat as <-. done.
      * rewrite Hoth in Hat by done. apply row_at_Some in Hat as [Hat _].
        apply Hn, list_elem_of_fmap_2, Hrows. done.
    + intros d Hd. pose proof (row_at_elem dw_id _ t d Hk Hd eq_refl) as Hat.
      destruct (decide (dw_id d ∈ dw_id <$> rows)) as [(d' & Hid & Hdin)%list_elem_of_fmap|Hn].
      * destruct (Hsel d' Hdin) as (tok & Hat'). exists (claim_set tok now d').
        apply Hrows in Hdin as (Hd' & _ & _).
        pose proof (row_at_elem dw_id _ t d' Hk Hd' eq_refl) as Hatd'.
        rewrite <-Hid, Hat in Hatd'. injection Hatd' as <-.
        by apply row_at_Some in Hat' as [? _].
      * rewrite <-Hoth in Hat by done. apply row_at_Some in Hat as [? _]. by exists d.
    + intros d Hd. pose proof (row_at_elem dw_id _ t' d Hk' Hd eq_refl) as Hat.
      destruct (decide (dw_id d ∈ dw_id <$> rows)) as [(d' & Hid & Hdin)%list_elem_of_fmap|Hn].
      * destruct (Hsel d' Hdin) as (tok & Hat'). rewrite Hid, Hat' in Hat. injection Hat as <-.
        exists d'. by apply Hrows in Hdin as (? & _).
      * rewrite Hoth in Hat by done. apply row_at_Some in Hat as [? _]. by exists d.
Qed.

(** ** The legacy rows *)
Lemma status_is_true s r : status_is s r = true ↔ q_status r = s.
Proof. unfold status_is. by rewrite bool_decide_eq_true. Qed.

Definition legacy_pending (threadId : string) (r : QueueRow) : bool :=
  on_thread threadId r && status_is QPending r && negb (event_is CLIENT_TOOL_CALL r).

Lemma message_in_spec rs r : message_in (q_message_id <$> rs) r = true ↔ ∃ r', r' ∈ rs ∧ q_message_id r' = q_message_id r.
Proof.
  unfold message_in. rewrite existsb_exists. split.
  - intros (i & (r' & -> & Hr')%list_elem_of_In%list_elem_of_fmap & Hs%seqb_true). by exists r'.
  - intros (r' & Hr' & Hid). exists (q_message_id r'). rewrite <-list_elem_of_In, seqb_true.
    split; [by apply list_elem_of_fmap_2|done].
Qed.

Lemma queue_row_unique q r r' :
  keys_unique q_message_id q → r ∈ q → r' ∈ q → q_message_id r' = q_message_id r → r' = r.
Proof.
  intros Hk Hr Hr' Hid. pose proof (row_at_elem q_message_id _ q r Hk Hr eq_refl) as H1.
  pose proof (row_at_elem q_message_id _ q r' Hk Hr' Hid) as H2. congruence.
Qed.

(** The two updates of the legacy phase: every pending row of the thread that
    is not a client tool call leaves the pending state, nothing enters it, and
    the client tool calls are untouched. *)
Lemma legacy_updates threadId q legacy suppressed now c :
  keys_unique q_message_id q →
  (∀ r, r ∈ legacy ∨ r ∈ suppressed ↔ r ∈ q ∧ legacy_pending threadId r = true) →
  let q1 := if (0 <? length suppressed)%nat
            then sql_update (message_in (q_message_id <$> suppressed)) (set_status QAcknowledged now) q
            else q in
  let q2 := if (0 <? length legacy)%nat
            then sql_update (message_in (q_message_id <$> legacy))
                   (λ r, set_status QProcessing now (set_claimed_by (Some c) r)) q1
            else q1 in
  sql_count (legacy_pending threadId) q2 = 0%nat ∧
  (∀ r, r ∈ q → event_is CLIENT_TOOL_CALL r = true → r ∈ q2) ∧
  (∀ r, r ∈ q → row_at q_message_id (q_message_id r) q2 =
     Some (if bool_decide (r ∈ legacy) then set_status QProcessing now (set_claimed_by (Some c) r)
           else if bool_decide (r ∈ suppressed) then set_status QAcknowledged now r else r)).
Proof.
  intros Hk Hmem q1 q2.
  assert (∀ (l : list QueueRow) f t, (if (0 <? length l)%nat then sql_update (message_in (q_message_id <$> l)) f t else t)
    = sql_update (message_in (q_message_id <$> l)) f t) as Hupd.
  { intros [|x l] f t; [|done]. simpl. symmetry. by apply sql_update_none. }
  assert (∀ l r, (∀ r', r' ∈ l → r' ∈ q) → r ∈ q →
    message_in (q_message_id <$> l) r = bool_decide (r ∈ l)) as Hin_l.
  { intros l r Hl Hr. apply eq_iff_eq_true. rewrite message_in_spec, bool_decide_eq_true.
    split; [|by exists r]. intros (r' & Hr' & Hid).
    by assert (r' = r) as <- by (eapply queue_row_unique; eauto). }
  subst q2 q1. rewrite !Hupd. split_and!.
  - apply sql_count_zero. intros r (r1 & (r0 & Hr0 & ->)%elem_of_update & ->)%elem_of_update.
    apply not_true_iff_false. intros Hp.
    destruct (message_in (q_message_id <$> suppressed) r0) eqn:Es;
      destruct (message_in (q_message_id <$> legacy) _) eqn:El;
      unfold legacy_pending in Hp; bool_props; apply status_is_true in H1; simpl in H1; try done.
    assert (r0 ∈ legacy ∨ r0 ∈ suppressed) as [Hin|Hin].
    { apply Hmem. split; [done|]. unfold legacy_pending.
      rewrite !andb_true_iff, negb_true_iff, status_is_true. done. }
    + assert (message_in (q_message_id <$> legacy) r0 = true) by (apply message_in_spec; eauto). congruence.
    + assert (message_in (q_message_id <$> suppressed) r0 = true) by (apply message_in_spec; eauto). congruence.
  - intros r Hr Hc.
    assert (∀ l : list QueueRow, (∀ r, r ∈ l → r ∈ q ∧ legacy_pending threadId r = true) →
      message_in (q_message_id <$> l) r = false) as Hnot.
    { intros l Hl. apply not_true_iff_false. intros (r' & Hr' & Hid)%message_in_spec.
      destruct (Hl r' Hr') as [Hq Hp]. assert (r' = r) as -> by (by eapply queue_row_unique).
      unfold legacy_pending in Hp. rewrite Hc, andb_false_r in Hp. done. }
    apply elem_of_update. exists r. split.
    + apply elem_of_update. exists r. rewrite Hnot by (intros; apply Hmem; auto). done.
    + rewrite Hnot by (intros; apply Hmem; auto). done.
  - intros r Hr. pose proof (row_at_elem q_message_id _ q r Hk Hr eq_refl) as Hat.
    rewrite row_at_update by done. rewrite row_at_update by done. rewrite Hat. simpl.
    rewrite (Hin_l suppressed r) by (try done; intros; apply Hmem; auto).
    assert (message_in (q_message_id <$> legacy)
      (if bool_decide (r ∈ suppressed) then set_status QAcknowledged now r else r) =
      bool_decide (r ∈ legacy)) as ->.
    { rewrite <-(Hin_l legacy r) by (try done; intros; apply Hmem; auto).
      by destruct (bool_decide (r ∈ suppressed)). }
    by destruct (bool_decide (r ∈ legacy)), (bool_decide (r ∈ suppressed)).
Qed.

(** Splitting the pending rows by the fence. *)
Lemma split_fenced (rows : list QueueRow) (ids : list (option string)) (p : option string → bool) :
  Forall2 (λ r i, row_identity r = Ok i) rows ids →
  let legacy := fst <$> List.filter (λ ri, negb (p ri.2)) (zip rows ids) in
  let suppressed := fst <$> List.filter (λ ri, p ri.2) (zip rows ids) in
  (∀ r, r ∈ legacy ∨ r ∈ suppressed ↔ r ∈ rows) ∧
  (∀ r, r ∈ legacy ↔ r ∈ rows ∧ ∃ i, row_identity r = Ok i ∧ p i = false) ∧
  sublist legacy rows.
Proof.
  intros Hall. cbv zeta.
  assert ((∀ r, r ∈ fst <$> List.filter (λ ri, negb (p ri.2)) (zip rows ids) ↔
      r ∈ rows ∧ ∃ i, row_identity r = Ok i ∧ p i = false)) as Hleg.
  { induction Hall as [|r i rows ids Hi Hall IH]; [set_solver|].
    cbn [zip zip_with List.filter]. simpl. intros r'.
    destruct (p i) eqn:E; simpl; rewrite !elem_of_cons, IH; [|naive_solver].
    split; [naive_solver|]. intros [[->|?] (i' & ? & ?)]; [congruence|eauto]. }
  split_and!; [|exact Hleg|].
  - clear Hleg. induction Hall as [|r i rows ids Hi Hall IH]; [set_solver|].
    cbn [zip zip_with List.filter]. simpl. intros r'.
    destruct (p i); simpl; rewrite !elem_of_cons, <-IH; set_solver.
  - clear Hleg. induction Hall as [|r i rows ids Hi Hall IH]; [done|].
    cbn [zip zip_with List.filter]. simpl. by destruct (p i); simpl; constructor.
Qed.

(** The fence: some durable row of the thread, in any state, has this identity. *)
Definition fenced_by (db : Db) (threadId : string) (r : QueueRow) : Prop :=
  ∃ d, d ∈ durable db ∧ dispatch_row threadId d = true ∧ payload_identity (dw_payload d) = row_identity r.

Lemma legacy_entry_inj r r' : legacy_entry r = legacy_entry r' → r = r'.
Proof. destruct r, r'. unfold legacy_entry. simpl. congruence. Qed.

(** What [claimPending] returns and leaves: [rows] and [legacy] are the rows it
    hands out. *)
Record handed_out (uuid : nat → string) (now : Z) (threadId c : string) (db db' : Db)
    (es : list DispatchEntry) (rows : list DurableWorkRow) (legacy : list QueueRow) : Prop := {
  ho_entries : es = claimed_entries uuid now c rows ++ (legacy_entry <$> legacy);
  ho_rows : ∀ d, d ∈ rows ↔ d ∈ durable db ∧ dispatch_row threadId d = true ∧ dw_claim_state d = Pending;
  ho_rows_once : NoDup (dw_id <$> rows);
  ho_rows_order : StronglySorted (λ d d', dw_created_at d ≤ dw_created_at d') rows;
  ho_rows_claimed : ∀ k d, rows !! k = Some d →
    row_at dw_id (dw_id d) (durable db') = Some (claim_set (uuid k) now d);
  ho_durable_rest : ∀ d, d ∈ durable db → d ∉ rows → row_at dw_id (dw_id d) (durable db') = Some d;
  ho_legacy : ∀ r, r ∈ legacy ↔ r ∈ queue db ∧ legacy_pending threadId r = true ∧ ¬ fenced_by db threadId r;
  ho_legacy_once : NoDup (q_message_id <$> legacy);
  ho_legacy_order : StronglySorted (λ r r', q_created_at r ≤ q_created_at r') legacy;
  ho_legacy_claimed : ∀ r, r ∈ legacy → row_at q_message_id (q_message_id r) (queue db') =
    Some (set_status QProcessing now (set_claimed_by (Some c) r));
  ho_fenced : ∀ r, r ∈ queue db → legacy_pending threadId r = true → fenced_by db threadId r →
    row_at q_message_id (q_message_id r) (queue db') = Some (set_status QAcknowledged now r);
  ho_legacy_rest : ∀ r, r ∈ queue db → legacy_pending threadId r = false →
    row_at q_message_id (q_message_id r) (queue db') = Some r
}.

Lemma claimPending_spec uuid now threadId c db :
  db_ok db →
  ∃ db' es rows legacy, claimPending uuid now threadId c db = Ok (db', es) ∧
    hasPending threadId db' = false ∧ handed_out uuid now threadId c db db' es rows legacy ∧
    (∀ r, r ∈ queue db → event_is CLIENT_TOOL_CALL r = true → r ∈ queue db').
Proof.
  intros (Hwf & Hk & Hpay & Hq). rewrite Forall_forall in Hpay. rewrite Forall_forall in Hq.
  unfold claimPending.
  destruct (claim_durable_phase uuid now threadId c (durable db) Hwf)
    as (Hrows & Hnd & t1 & Heq & Hdel & Hrest & Hcnt & Hfwd & Hbwd).
  set (rows := order_by dw_created_at _) in *.
  rewrite Heq. cbn [result_bind].
  set (pending := order_by q_created_at _).
  assert (∀ r, r ∈ pending ↔ r ∈ queue db ∧ legacy_pending threadId r = true) as Hpend.
  { intros r. unfold pending. by rewrite elem_of_order_by, elem_of_select. }
  destruct (map_result_total (λ r, payload_identity (dw_payload r)) (sql_select (dispatch_row threadId) t1))
    as [fenced Hfenced].
  { rewrite Forall_forall. intros d [Hd Hdr]%elem_of_select.
    destruct (Hbwd d Hd) as (d0 & Hd0 & Hp & Hkd & _). rewrite Hp. apply Hpay; [done|].
    rewrite <-Hkd. by apply dispatch_row_spec in Hdr as (_ & ? & _). }
  destruct (map_result_total row_identity pending) as [ids Hids].
  { rewrite Forall_forall. intros r [Hr _]%Hpend. by apply Hq. }
  rewrite Hfenced. cbn [result_bind]. rewrite Hids. cbn [result_bind].
  apply map_result_ok in Hfenced, Hids.
  assert (∀ r i, r ∈ queue db → legacy_pending threadId r = true → row_identity r = Ok i →
    existsb (str_opt_eqb i) fenced = true ↔ fenced_by db threadId r) as Hfence.
  { intros r i Hr Hp Hi. split.
    - intros (i' & Hin%list_elem_of_In & Hi'%bool_decide_eq_true)%existsb_exists.
      subst i'. apply list_elem_of_lookup in Hin as [k Hk'].
      destruct (Forall2_lookup_r _ _ _ _ _ Hfenced Hk') as (d' & Hd' & Hpi).
      apply list_elem_of_lookup_2, elem_of_select in Hd' as [Hd' Hdr'].
      destruct (Hbwd d' Hd') as (d & Hd & Hpd & _ & Hdrd). exists d.
      rewrite <-Hdrd, <-Hpd. split_and!; [done..|]. by rewrite Hi.
    - intros (d & Hd & Hdr & Heqi). destruct (Hfwd d Hd) as (d' & Hd' & Hp' & Hdr').
      rewrite Hdr in Hdr'. assert (d' ∈ sql_select (dispatch_row threadId) t1) as [k Hk']%list_elem_of_lookup
        by (by apply elem_of_select).
      destruct (Forall2_lookup_l _ _ _ _ _ Hfenced Hk') as (i' & Hi' & Hpi). simpl in Hpi.
      rewrite Hp', Heqi, Hi in Hpi. injection Hpi as <-.
      apply existsb_exists. exists i. split; [by apply list_elem_of_In; eapply list_elem_of_lookup_2|].
      by apply bool_decide_eq_true. }
  destruct (split_fenced pending ids (λ i, existsb (str_opt_eqb i) fenced) Hids) as (Hor & Hleg & Hsub).
  set (legacy := fst <$> List.filter (λ ri, negb (existsb (str_opt_eqb ri.2) fenced)) (zip pending ids)) in *.
  set (suppressed := fst <$> List.filter (λ ri, existsb (str_opt_eqb ri.2) fenced) (zip pending ids)) in *.
  assert (∀ r, r ∈ legacy ∨ r ∈ suppressed ↔ r ∈ queue db ∧ legacy_pending threadId r = true) as Hmem.
  { intros r. by rewrite Hor, Hpend. }
  assert (∀ r, r ∈ legacy ↔ r ∈ queue db ∧ legacy_pending threadId r = true ∧ ¬ fenced_by db threadId r)
    as Hlegacy.
  { intros r. rewrite Hleg, Hpend. split.
    - intros ([Hr Hp] & i & Hi & Hf). split_and!; [done..|]. intros Hb%(Hfence r i Hr Hp Hi). congruence.
    - intros (Hr & Hp & Hnf). split; [done|]. destruct (Hq r Hr) as [i Hi]. exists i. split; [done|].
      apply not_true_iff_false. by intros Hb%(Hfence r i Hr Hp Hi). }
  destruct (legacy_updates threadId (queue db) legacy suppressed now c Hk Hmem) as (Hnone & Hclient & Hrow).
  eexists _, _, rows, legacy. split; [done|]. split; [|split; [|exact Hclient]].
  - transitivity ((0 <? 0 + 0)%nat); [|done]. unfold hasPending.
    apply (f_equal2 (λ a b, (0 <? a + b)%nat)); [exact Hnone|exact Hcnt].
  - split; try done.
    + apply order_by_sorted.
    + eapply sublist_NoDup; [|by apply (fmap_sublist q_message_id), Hsub].
      unfold pending. rewrite order_by_perm. by apply NoDup_fmap_filter.
    + eapply sublist_StronglySorted; [exact Hsub|apply order_by_sorted].
    + intros r Hr. etrans; [apply (Hrow r); by apply Hlegacy in Hr as [? _]|].
      by rewrite bool_decide_eq_true_2.
    + intros r Hr Hp Hf. etrans; [exact (Hrow r Hr)|]. rewrite bool_decide_eq_false_2 by (by intros (_ & _ & ?)%Hlegacy).
      rewrite bool_decide_eq_true_2; [done|]. destruct (proj2 (Hmem r)) as [Hl|]; [done| |done].
      by apply Hlegacy in Hl as (_ & _ & ?).
    + intros r Hr Hp. etrans; [exact (Hrow r Hr)|]. rewrite !bool_decide_eq_false_2; [done|..];
        intros Hin; destruct (proj1 (Hmem r)); auto; congruence.
Qed.

(** Nothing pending, nothing handed out. *)
Lemma claimPending_none uuid now threadId c db db' es :
  hasPending threadId db = false → claimPending uuid now threadId c db = Ok (db', es) → es = [].
Proof.
  intros Hp. unfold claimPending. apply Nat.ltb_ge in Hp. unfold sql_count in Hp.
  set (q := sql_select _ (queue db)). set (d := sql_select _ (durable db)).
  assert (q = []) as -> by (apply length_zero_iff_nil; unfold q, sql_select; lia).
  assert (d = []) as -> by (apply length_zero_iff_nil; unfold d, sql_select; lia).
  cbn [order_by foldr claim_durable result_bind map_result].
  destruct (map_result _ _); [|done]. cbn [result_bind zip zip_with List.filter fmap list_fmap].
  by intros [= _ <-].
Qed.

(** ** Properties *)

(** A database with one durable and three legacy rows for the witnesses. *)
Definition sample_db : Db :=
  match enqueueMessage true "w1" 100 "m1" "th" (MkDb [] [] true false []) with
  | Ok db =>
      match enqueueMessage false "" 110 "m1" "th" db with
      | Ok db =>
          match enqueueMessage false "" 120 "m2" "th" db with
          | Ok db =>
              match enqueueClientToolCall "m3" 130 "th" (JObj []) "conn" db with
              | Ok (db, _) => db
              | Throw _ => db
              end
          | Throw _ => db
          end
      | Throw _ => db
      end
  | Throw _ => MkDb [] [] true false []
  end.

Lemma dispatch_identifiable m th p : ∀ ev, ev ≠ TOOL_RESULT →
  payload_identity (json_stringify (dispatch_payload m th ev p)) = Ok (Some m).
Proof.
  intros ev Hev. destruct (dispatch_payload_field m th ev p) as (_ & Hm & Ht & He & Hp).
  unfold payload_identity. rewrite Hm, Ht, He, Hp. unfold entry_identity.
  by apply seqb_false in Hev as ->.
Qed.

Lemma tool_result_identifiable m th call :
  payload_identity (json_stringify (dispatch_payload m th TOOL_RESULT (Some (call_payload call)))) =
    Ok (Some (tool_result_key th call)).
Proof.
  destruct (dispatch_payload_field m th TOOL_RESULT (Some (call_payload call)))
    as (_ & Hm & Ht & He & Hp).
  unfold payload_identity. rewrite Hm, Ht, He, Hp. unfold entry_identity.
  rewrite seqb_refl.
  change (default "{}" (Some (call_payload call))) with (call_payload call).
  by rewrite call_payload_parse.
Qed.

(** Enqueueing a durable dispatch row: it is inserted unless its id or its fence
    is taken. *)
Lemma enqueueDurable_spec uuid now th m ev p key db :
  nonempty uuid = true → nonempty key = true →
  (∀ r, r ∈ durable db → dw_id r ≠ uuid) →
  let row := new_row now (MkNewWork uuid LOCAL_WORK_TARGET "dispatch_message"
               (json_stringify (dispatch_payload m th ev p)) key None None None None None None) in
  (∃ r, r ∈ durable db ∧ dw_kind r = "dispatch_message" ∧ dw_idempotency_key r = key ∧
     enqueueDurableDispatch uuid now th m ev p key db = Ok db) ∨
  ((∀ r, r ∈ durable db → dw_clash r row = false) ∧ fresh_row row ∧
   ∃ evs, enqueueDurableDispatch uuid now th m ev p key db =
     Ok (MkDb (durable db ++ [row]) (queue db) (bus_set db) (in_transaction db) (emitted db ++ evs))).
Proof.
  intros Hu Hkey Hid row. unfold enqueueDurableDispatch, insertDurableWork, validateDurableWork.
  destruct (dispatch_payload_field m th ev p) as ([v Hv] & _).
  set (s := json_stringify (dispatch_payload m th ev p)) in *.
  assert (nonempty s = true) as Hs.
  { unfold nonempty. destruct (seqb s "") eqn:E; [|done]. apply seqb_true in E.
    rewrite E in Hv. done. }
  cbn [nw_id nw_target_site_id nw_kind nw_idempotency_key nw_payload]. rewrite Hu, Hkey, Hs, Hv.
  simpl. fold row.
  destruct (insert_or_ignore_cases dw_clash row (durable db)) as [[-> (old & Hold & Hc)]|[-> Hc]];
    simpl.
  - left. exists old. split; [done|]. unfold dw_clash in Hc. simpl in Hc.
    apply orb_prop in Hc as [Hc|Hc]; bool_props.
    { apply seqb_true in Hc. by destruct (Hid old Hold). }
    apply seqb_true in H, H0. split_and!; [done..|]. rewrite app_nil_r. by destruct db.
  - right. split; [done|]. split; [|by eexists].
    unfold fresh_row, unowned. simpl. by split_and!.
Qed.

Lemma db_ok_append_durable db row evs :
  db_ok db → fresh_row row → (∀ r, r ∈ durable db → dw_clash r row = false) →
  identifiable (payload_identity (dw_payload row)) →
  db_ok (MkDb (durable db ++ [row]) (queue db) (bus_set db) (in_transaction db) (emitted db ++ evs)).
Proof.
  intros (Hwf & Hk & Hp & Hq) Hf Hc Hi. split_and!; [by apply insert_wf|done| |done].
  apply Forall_app. split; [done|]. by apply Forall_singleton.
Qed.

Lemma sample_db_ok : db_ok sample_db.
Proof.
  assert (sample_db = MkDb (durable sample_db) (queue sample_db) true false (emitted sample_db)) as ->
    by reflexivity.
  split_and!.
  - change (durable sample_db) with
      (dw_run [OpInsert true false 100 (MkNewWork "w1" LOCAL_WORK_TARGET "dispatch_message"
         (json_stringify (dispatch_payload "m1" "th" "user_message" None)) "m1"
         None None None None None None)] []).
    apply run_wf, dw_wf_nil.
  - unfold keys_unique. apply (bool_decide_unpack _). vm_compute. done.
  - repeat constructor. intros _. eexists. vm_compute. reflexivity.
  - repeat constructor; eexists; reflexivity.
Qed.

(** draining a thread never throws and leaves nothing pending for the
    executor: after [claimPending] on a well-formed database [hasPending] is
    false, and the client tool calls, which wait for their client, are all
    still there unchanged. *)
Theorem claimPending_drains uuid now threadId c db :
  db_ok db →
  ∃ db' es, claimPending uuid now threadId c db = Ok (db', es) ∧ hasPending threadId db' = false ∧
    ∀ r, r ∈ queue db → q_event_type r = CLIENT_TOOL_CALL → r ∈ queue db'.
Proof.
  intros Hok. destruct (claimPending_spec uuid now threadId c db Hok) as (db' & es & _ & _ & H1 & H2 & _ & H5).
  exists db', es. split_and!; [done..|]. intros r Hr He. apply H5; [done|]. by apply seqb_true.
Qed.

Lemma claimPending_drains_witness :
  hasPending "th" sample_db = true ∧
  ∃ db' es, claimPending (λ _, "t") 200 "th" "host" sample_db = Ok (db', es) ∧
    hasPending "th" db' = false ∧
    ∀ r, r ∈ queue sample_db → q_event_type r = CLIENT_TOOL_CALL → r ∈ queue db'.
Proof.
  split; [vm_compute; reflexivity|]. apply claimPending_drains. exact sample_db_ok.
Defined.

(** C13: across the two stores a wakeup is handed out once.  The entries are
    one per pending durable row of the thread, oldest first, under the tokens of
    the claim, and then one per pending legacy row that no durable row of the
    thread, in whatever state, shares its identity with; no row of either store
    is handed out twice.  The durable rows are left processing under those
    tokens, the legacy ones processing for the claimer, the fenced ones
    acknowledged, and every other row of both stores as it was; a second claim
    of the thread hands out nothing. *)
Theorem claimPending_fence uuid now threadId c db db' es :
  db_ok db → claimPending uuid now threadId c db = Ok (db', es) →
  (∃ rows legacy, handed_out uuid now threadId c db db' es rows legacy) ∧
  ∀ uuid2 now2 c2 db2 es2, claimPending uuid2 now2 threadId c2 db' = Ok (db2, es2) → es2 = [].
Proof.
  intros Hok Hc. destruct (claimPending_spec uuid now threadId c db Hok)
    as (db1 & es1 & rows & legacy & H1 & H2 & H3 & _). rewrite Hc in H1. injection H1 as <- <-.
  split; [by exists rows, legacy|]. intros. by eapply claimPending_none.
Qed.

Lemma claimPending_fence_witness :
  match claimPending (λ _, "t") 200 "th" "host" sample_db with
  | Ok (db', es) => length es = 2%nat ∧
      ∃ rows legacy, handed_out (λ _, "t") 200 "th" "host" sample_db db' es rows legacy
  | Throw _ => False
  end.
Proof.
  destruct (claimPending (λ _, "t") 200 "th" "host" sample_db) as [[db' es]|msg] eqn:E.
  - split; [|exact (proj1 (claimPending_fence _ _ _ _ _ _ _ sample_db_ok E))].
    vm_compute in E. injection E as <- <-. reflexivity.
  - vm_compute in E. discriminate.
Defined.

(** a message enqueued on the durable route is delivered by the next claim
    of its thread, with its message id, thread and event type as written
    (through [JSON.stringify] and [JSON.parse]). *)
Theorem message_delivered uuid now m th db uuid' now' c :
  db_ok db → nonempty uuid = true → nonempty m = true →
  (∀ r, r ∈ durable db → dw_id r ≠ uuid) →
  (∀ r, r ∈ durable db → dw_kind r = "dispatch_message" → dw_idempotency_key r ≠ m) →
  ∃ db1 db2 es e, enqueueMessage true uuid now m th db = Ok db1 ∧
    claimPending uuid' now' th c db1 = Ok (db2, es) ∧ e ∈ es ∧
    e_message_id e = Some m ∧ e_thread_id e = Some th ∧ e_event_type e = Some "user_message" ∧
    e_durable_work_id e = Some uuid.
Proof.
  intros Hok Hu Hm Hid Hkey. unfold enqueueMessage.
  destruct (enqueueDurable_spec uuid now th m "user_message" None m db Hu Hm Hid)
    as [(r & Hr & Hk & Hi & _)|(Hc & Hf & evs & Heq)]; [by destruct (Hkey r Hr)|].
  rewrite Heq. set (row := new_row now _) in *. set (db1 := MkDb _ _ _ _ _).
  assert (db_ok db1) as Hok1.
  { apply db_ok_append_durable; [done..|]. eexists. by apply dispatch_identifiable. }
  destruct (claimPending_spec uuid' now' th c db1 Hok1) as (db2 & es & rows & legacy & Hcl & _ & Hho & _).
  destruct (dispatch_payload_field m th "user_message" None) as (_ & Fm & Ft & Fe & _).
  assert (row ∈ rows) as [k Hk']%list_elem_of_lookup.
  { apply (ho_rows _ _ _ _ _ _ _ _ _ Hho). split_and!; [|by apply dispatch_row_spec|done].
    apply elem_of_app. right. by apply list_elem_of_singleton. }
  exists db1, db2, es, (durable_entry (uuid' k) c now' row). split_and!; try done.
  rewrite (ho_entries _ _ _ _ _ _ _ _ _ Hho). apply elem_of_app. left.
  apply list_elem_of_lookup. exists k. unfold claimed_entries. by rewrite list_lookup_imap, Hk'.
Qed.

Lemma message_delivered_witness :
  ∃ db1 db2 es e, enqueueMessage true "w9" 150 "m9" "th" sample_db = Ok db1 ∧
    claimPending (λ _, "t") 200 "th" "host" db1 = Ok (db2, es) ∧ e ∈ es ∧
    e_message_id e = Some "m9" ∧ e_thread_id e = Some "th" ∧
    e_event_type e = Some "user_message" ∧ e_durable_work_id e = Some "w9".
Proof.
  apply (message_delivered "w9" 150 "m9" "th" sample_db (λ _, "t") 200 "host" sample_db_ok);
    try reflexivity; vm_compute; intros r Hr; inversion Hr; subst; try discriminate;
    match goal with H : _ ∈ [] |- _ => inversion H end.
Defined.

(** re-driving a tool result while the first wakeup is still in the store
    is a no-op that returns the same entry id, on both routes. *)
Theorem enqueueToolResult_idempotent enabled u1 u2 now th call db db1 i v1 v2 now' :
  nonempty u2 = true → nonempty v2 = true →
  (∀ r, r ∈ durable db → dw_id r ≠ u2) → (∀ r, r ∈ durable db1 → dw_id r ≠ v2) →
  enqueueToolResult enabled u1 u2 now th call db = Ok (db1, i) →
  enqueueToolResult enabled v1 v2 now' th call db1 = Ok (db1, i).
Proof.
  intros Hu Hv Hid Hid1. unfold enqueueToolResult. set (key := tool_result_key th call).
  assert (nonempty key = true) as Hkey by done. destruct enabled.
  - set (sel := sql_select (λ r, of_kind "dispatch_message" r && seqb (dw_idempotency_key r) key)).
    assert (∀ t r, r ∈ sel t ↔ r ∈ t ∧ dw_kind r = "dispatch_message" ∧ dw_idempotency_key r = key) as Hsel.
    { intros t r. unfold sel. rewrite elem_of_select, andb_true_iff. unfold of_kind. by rewrite !seqb_true. }
    intros H. assert (∃ dbx r, enqueueDurableDispatch u2 now th u1 TOOL_RESULT (Some (call_payload call)) key db = Ok dbx ∧
      r ∈ sel (durable dbx)) as (dbx & r & Hx & Hr).
    { destruct (enqueueDurable_spec u2 now th u1 TOOL_RESULT (Some (call_payload call)) key db Hu Hkey Hid)
        as [(r & Hr & Hk & Hi & Heq)|(_ & _ & evs & Heq)].
      - exists db, r. split; [done|]. by apply Hsel.
      - eexists _, _. split; [exact Heq|]. apply Hsel. split.
        + apply elem_of_app. right. by apply list_elem_of_singleton.
        + split; reflexivity. }
    rewrite Hx in H. cbn [result_bind] in H.
    destruct (head (sel (durable dbx))) as [hd|] eqn:Ehd.
    2: { by destruct (sel (durable dbx)); [apply not_elem_of_nil in Hr|]. }
    injection H as <- <-.
    destruct (enqueueDurable_spec v2 now' th v1 TOOL_RESULT (Some (call_payload call)) key dbx Hv Hkey Hid1)
      as [(r' & _ & _ & _ & Heq)|(Hc & _)].
    + rewrite Heq. cbn [result_bind]. by rewrite Ehd.
    + apply Hsel in Hr as (Hr & Hk & Hi). specialize (Hc r Hr). unfold dw_clash in Hc. simpl in Hc.
      by rewrite Hk, Hi, !seqb_refl, orb_true_r in Hc.
  - set (p := λ r, on_thread th r && event_is TOOL_RESULT r && payload_is (call_payload call) r && in_flight r).
    intros H. destruct (head (sql_select p (queue db))) as [r|] eqn:Ehd.
    + injection H as <- <-. by rewrite Ehd.
    + unfold insert_queue in H. destruct (existsb _ (queue db)); [done|]. injection H as <- <-.
      cbn [queue with_queue]. unfold sql_select in *. rewrite List.filter_app.
      destruct (List.filter p (queue db)); [|done]. simpl.
      assert (p (MkQueueRow u1 th QPending None TOOL_RESULT (Some (call_payload call)) now now) = true) as ->.
      { unfold p, on_thread, event_is, payload_is. simpl. by rewrite !seqb_refl. }
      done.
Qed.

Lemma enqueueToolResult_idempotent_witness :
  match enqueueToolResult true "e1" "w5" 150 "th" "call_1" sample_db with
  | Ok (db1, i) => enqueueToolResult true "e2" "w6" 160 "th" "call_1" db1 = Ok (db1, i)
  | Throw _ => False
  end.
Proof.
  destruct (enqueueToolResult true "e1" "w5" 150 "th" "call_1" sample_db) as [[db1 i]|msg] eqn:E.
  - apply (enqueueToolResult_idempotent true "e1" "w5" 150 "th" "call_1" sample_db db1 i);
      try reflexivity; [| |exact E]; vm_compute in E; injection E as <- <-;
      intros r Hr; apply list_elem_of_In in Hr; vm_compute in Hr;
      repeat destruct Hr as [<- |Hr]; try discriminate; destruct Hr.
  - vm_compute in E. discriminate.
Defined.

(** on the durable route the fence outlives the wakeup: once the row of an
    earlier re-drive is consumed (or dead-lettered), a new tool result that
    reuses the call id on that thread is dropped; no row is written, in
    neither store, and the id of the old entry is returned.  The legacy route
    in the same situation queues a fresh pending row. *)
Theorem reused_call_id_dropped uuid u1 now th call db r :
  nonempty uuid = true → (∀ r', r' ∈ durable db → dw_id r' ≠ uuid) →
  r ∈ durable db → dw_kind r = "dispatch_message" → dw_idempotency_key r = tool_result_key th call →
  (∃ i, enqueueToolResult true u1 uuid now th call db = Ok (db, i)) ∧
  (Forall (λ q, q_message_id q ≠ u1 ∧ in_flight q = false) (queue db) →
   ∃ db1, enqueueToolResult false u1 uuid now th call db = Ok (db1, u1) ∧ hasPending th db1 = true).
Proof.
  intros Hu Hid Hr Hk Hi. split.
  - unfold enqueueToolResult.
    destruct (enqueueDurable_spec uuid now th u1 TOOL_RESULT (Some (call_payload call))
      (tool_result_key th call) db Hu eq_refl Hid) as [(r' & _ & _ & _ & ->)|(Hc & _)].
    + cbn [result_bind]. destruct (head _); by eexists.
    + specialize (Hc r Hr). unfold dw_clash in Hc. simpl in Hc.
      by rewrite Hk, Hi, !seqb_refl, orb_true_r in Hc.
  - intros Hq. rewrite Forall_forall in Hq. unfold enqueueToolResult, insert_queue.
    assert (sql_select (λ r, on_thread th r && event_is TOOL_RESULT r &&
      payload_is (call_payload call) r && in_flight r) (queue db) = []) as ->.
    { apply filter_bool_none. intros q Hin. destruct (Hq q Hin) as [_ ->]. by rewrite andb_false_r. }
    cbn [head]. assert (existsb (λ old, queue_clash old (MkQueueRow u1 th QPending None TOOL_RESULT
      (Some (call_payload call)) now now)) (queue db) = false) as ->.
    { apply not_true_iff_false. intros (q & Hin%list_elem_of_In & Hc%seqb_true)%existsb_exists.
      by destruct (Hq q Hin) as [? _]. }
    cbn [result_bind]. eexists. split; [done|]. unfold hasPending, sql_count. cbn [queue with_queue].
    rewrite List.filter_app, length_app. simpl. unfold on_thread. simpl. rewrite seqb_refl. simpl.
    apply Nat.ltb_lt. lia.
Qed.

(** The first turn's tool result, delivered and acknowledged. *)
Definition after_first_turn : Db :=
  match enqueueToolResult true "e1" "w1" 100 "th" "call_1" (MkDb [] [] true false []) with
  | Ok (db, _) =>
      match claimPending (λ _, "t1") 200 "th" "host" db with
      | Ok (db, es) => acknowledgeBatch 300 es db
      | Throw _ => db
      end
  | Throw _ => MkDb [] [] true false []
  end.

Lemma reused_call_id_dropped_witness :
  (∃ i, enqueueToolResult true "e2" "w2" 400 "th" "call_1" after_first_turn = Ok (after_first_turn, i)) ∧
  hasPending "th" after_first_turn = false.
Proof.
  destruct (durable after_first_turn) as [|r t] eqn:E; [vm_compute in E; discriminate|].
  split; [|vm_compute; reflexivity].
  apply (reused_call_id_dropped "w2" "e2" 400 "th" "call_1" after_first_turn r).
  - reflexivity.
  - rewrite E. vm_compute in E. injection E as <- <-. intros r' Hr'. apply list_elem_of_In in Hr'.
    destruct Hr' as [<-|[]]. discriminate.
  - rewrite E. left.
  - vm_compute in E. injection E as <- <-. reflexivity.
  - vm_compute in E. injection E as <- <-. reflexivity.
Defined.
