(* ===== verification/ThreadExecutor.v ===== *)
(** * The thread executor (packages/core/src/thread-executor.ts)

    [ThreadExecutor.execute] as an event-driven machine: the JavaScript event
    loop runs the code between two [await]s without interruption, so a call of
    [execute] is one event, and so is the settlement of an awaited [runFn] (with
    the [onComplete] that follows it).  Other code may change the database while
    an event is awaited; the events carry the database they find.  The run
    callback is outside this file: an event says how it ended. *)
From S2P Require Import Prelude Sql DurableWork Dispatch.

Definition DEFAULT_RUN_TIMEOUT_MS : Z := 30 * 60 * 1000.

(** How [runFn] settled, and after how many milliseconds. *)
Inductive run_outcome : Type :=
| RunResult (yielded : bool)
| RunError (msg : string).

(** [withTimeout]: the first of the promise and the timer wins. *)
Definition withTimeout (runTimeoutMs elapsedMs : Z) (threadId : string) (o : run_outcome) : run_outcome :=
  if runTimeoutMs <=? 0 then o
  else if elapsedMs <? runTimeoutMs then o
  else RunError ("runFn timeout for thread " +:+ threadId).

(** [drains] lists the drain loops in progress, one entry per call of
    [execute] that passed the lock test; the lock set is [activeLocks]. *)
Record exec_state : Type := MkExec {
  ex_db : Db;
  activeLocks : gset string;
  drains : list string
}.

Inductive exec_event : Type :=
| EvExecute (threadId : string)                       (* execute(threadId, ...) is called *)
| EvDatabase (db : Db)                                (* other code commits *)
| EvRunSettled (threadId : string) (now : Z) (elapsedMs : Z) (o : run_outcome)
    (completed : option (Db * bool)).                 (* onComplete: the database it leaves, and whether it threw *)

(** What an event makes the pending call return, if anything. *)
Inductive exec_output : Type :=
| NoOutput
| Returns (threadId : string) (pendingRemain : bool).

Definition isActive (threadId : string) (s : exec_state) : bool := bool_decide (threadId ∈ activeLocks s).

Definition release_claims (now : Z) (threadId : string) (db : Db) : Db :=
  (resetProcessingDurableDispatchForThread threadId (resetProcessingForThread now threadId db).1).1.

Fixpoint remove_one (t : string) (l : list string) : list string :=
  match l with
  | [] => []
  | x :: l' => if seqb x t then l' else x :: remove_one t l'
  end.

(** Leaving the loop: [finally] deletes the lock, then pending work is reported. *)
Definition leave (threadId : string) (db : Db) (s : exec_state) : exec_state * exec_output :=
  (MkExec db (activeLocks s ∖ {[threadId]}) (remove_one threadId (drains s)),
   Returns threadId (hasPending threadId db)).

Definition settle (runTimeoutMs : Z) (threadId : string) (now elapsedMs : Z) (o : run_outcome)
    (completed : option (Db * bool)) (s : exec_state) : exec_state * exec_output :=
  match withTimeout runTimeoutMs elapsedMs threadId o with
  | RunError _ => leave threadId (release_claims now threadId (ex_db s)) s
  | RunResult true =>
      (MkExec (release_claims now threadId (ex_db s)) (activeLocks s) (drains s), NoOutput)
  | RunResult false =>
      let '(db, threw) := default (ex_db s, false) completed in
      if threw then leave threadId (release_claims now threadId db) s
      else if hasPending threadId db then (MkExec db (activeLocks s) (drains s), NoOutput)
      else leave threadId db s
  end.

Definition exec_step (runTimeoutMs : Z) (e : exec_event) (s : exec_state) : exec_state * exec_output :=
  match e with
  | EvExecute t =>
      if isActive t s then (s, Returns t false)
      else (MkExec (ex_db s) (activeLocks s ∪ {[t]}) (t :: drains s), NoOutput)
  | EvDatabase db => (MkExec db (activeLocks s) (drains s), NoOutput)
  | EvRunSettled t now ms o completed =>
      (* only an executing loop awaits a run *)
      if bool_decide (t ∈ drains s) then settle runTimeoutMs t now ms o completed s else (s, NoOutput)
  end.

Definition exec_run (runTimeoutMs : Z) (es : list exec_event) (s : exec_state) : exec_state :=
  foldl (λ s e, (exec_step runTimeoutMs e s).1) s es.

(** ** Mutual exclusion *)
Definition exec_inv (s : exec_state) : Prop :=
  NoDup (drains s) ∧ ∀ t, t ∈ activeLocks s ↔ t ∈ drains s.

Lemma remove_one_nodup t l : NoDup l → NoDup (remove_one t l) ∧ ∀ x, x ∈ remove_one t l ↔ x ∈ l ∧ x ≠ t.
Proof.
  induction 1 as [|x l Hx Hnd [IH1 IH2]]; simpl; [split; [constructor|set_solver]|].
  destruct (seqb x t) eqn:E.
  - apply seqb_true in E as ->. split; [done|]. set_solver.
  - apply seqb_false in E. split; [constructor; [rewrite IH2; set_solver|done]|set_solver].
Qed.

Lemma leave_inv t db s : exec_inv s → exec_inv (leave t db s).1.
Proof.
  intros [Hnd Heq]. destruct (remove_one_nodup t (drains s) Hnd) as [H1 H2].
  split; simpl; [done|]. intros x. rewrite H2, <-Heq. set_solver.
Qed.

Lemma exec_step_inv lim e s : exec_inv s → exec_inv (exec_step lim e s).1.
Proof.
  intros Hinv. pose proof Hinv as [Hnd Heq]. destruct e as [t|db|t now ms o completed]; simpl.
  - destruct (isActive t s) eqn:E; [done|]. apply bool_decide_eq_false in E.
    split; simpl; [constructor; [by rewrite <-Heq|done]|set_solver].
  - done.
  - destruct (bool_decide _); [|done]. unfold settle.
    destruct (withTimeout _ _ _ o) as [[|]|]; [done| |by apply leave_inv].
    destruct (default _ completed) as [db threw]. destruct threw; [by apply leave_inv|].
    destruct (hasPending t db); [done|by apply leave_inv].
Qed.

Lemma exec_run_inv lim es s : exec_inv s → exec_inv (exec_run lim es s).
Proof.
  unfold exec_run. revert s. induction es as [|e es IH]; intros s H; [done|].
  by apply IH, exec_step_inv.
Qed.

(** however calls of [execute], settlements of runs and foreign database
    changes interleave, at most one drain loop runs per thread, and a thread's
    lock is held exactly while its loop runs. *)
Theorem executor_exclusive lim es db t :
  let s := exec_run lim es (MkExec db ∅ []) in
  NoDup (drains s) ∧ (isActive t s = true ↔ t ∈ drains s).
Proof.
  intros s. destruct (exec_run_inv lim es (MkExec db ∅ [])) as [H1 H2].
  { split; simpl; [constructor|set_solver]. }
  split; [done|]. unfold isActive. rewrite bool_decide_eq_true. apply H2.
Qed.

(** Releasing the claims of a thread leaves none of its rows processing. *)
Definition processing_row (t : string) (r : QueueRow) : bool :=
  on_thread t r && status_is QProcessing r && negb (event_is CLIENT_TOOL_CALL r).

Lemma sql_count_updated {R} (p q : R → bool) (f : R → R) t :
  (∀ r, p r = true → q (f r) = false) → (∀ r, p r = false → q r = false) →
  sql_count q (sql_update p f t) = 0%nat.
Proof.
  intros H1 H2. apply sql_count_zero. intros r (r0 & _ & ->)%elem_of_update.
  destruct (p r0) eqn:E; auto.
Qed.

Lemma release_claims_none now t db :
  sql_count (processing_row t) (queue (release_claims now t db)) = 0%nat ∧
  sql_count (λ r, dispatch_row t r && in_state Processing r) (durable (release_claims now t db)) = 0%nat.
Proof.
  split; simpl.
  - apply sql_count_updated; intros r Hr; unfold processing_row.
    + bool_props. unfold status_is at 1. simpl. by rewrite andb_false_r.
    + destruct (on_thread t r); [|done]. by rewrite andb_true_r in Hr.
  - apply sql_count_updated; [|done]. intros r Hr. unfold in_state. simpl. by rewrite andb_false_r.
Qed.

Lemma isActive_leave t db s : isActive t (leave t db s).1 = false.
Proof. apply bool_decide_eq_false. simpl. set_solver. Qed.

(** no wakeup is lost: when a drain loop of a thread ends, its lock is
    free again, nothing of the thread was left claimed by a run that failed,
    and the value returned to the caller says whether work is pending at that
    moment; after a run that succeeded the loop ends only when none is. *)
Theorem executor_no_lost_wakeup lim t now ms o completed s s' b :
  exec_step lim (EvRunSettled t now ms o completed) s = (s', Returns t b) →
  isActive t s' = false ∧ b = hasPending t (ex_db s') ∧
  (withTimeout lim ms t o = RunResult false → option_map snd completed ≠ Some true → b = false) ∧
  ((∃ msg, withTimeout lim ms t o = RunError msg) ∨ option_map snd completed = Some true →
     sql_count (processing_row t) (queue (ex_db s')) = 0%nat ∧
     sql_count (λ r, dispatch_row t r && in_state Processing r) (durable (ex_db s')) = 0%nat).
Proof.
  cbn [exec_step]. destruct (bool_decide _); [|done]. unfold settle.
  destruct (withTimeout lim ms t o) as [[|]|msg] eqn:Ew; [done| |].
  - destruct completed as [[db [|]]|]; simpl.
    + intros [= <- <-]. split_and!; [apply isActive_leave|done|by intros _ []|].
      intros _. apply release_claims_none.
    + destruct (hasPending t db) eqn:Eh; [done|]. intros [= <- <-].
      split_and!; [apply (isActive_leave t db s)|done|by rewrite Eh|by intros [[? ?]|?]].
    + destruct (hasPending t (ex_db s)) eqn:Eh; [done|]. intros [= <- <-].
      split_and!; [apply (isActive_leave t (ex_db s) s)|done|by rewrite Eh|by intros [[? ?]|?]].
  - intros [= <- <-]. split_and!; [apply (isActive_leave t (release_claims now t (ex_db s)) s)|done|done|].
    intros _. apply release_claims_none.
Qed.

Definition running_state : exec_state :=
  (exec_step DEFAULT_RUN_TIMEOUT_MS (EvExecute "th") (MkExec sample_db ∅ [])).1.

Lemma executor_no_lost_wakeup_witness :
  match exec_step DEFAULT_RUN_TIMEOUT_MS (EvRunSettled "th" 5 10 (RunError "boom") None) running_state with
  | (s', Returns _ b) => isActive "th" s' = false ∧ b = true ∧ b = hasPending "th" (ex_db s')
  | _ => False
  end.
Proof.
  destruct (exec_step DEFAULT_RUN_TIMEOUT_MS (EvRunSettled "th" 5 10 (RunError "boom") None) running_state)
    as [s' [|t b]] eqn:E; [vm_compute in E; discriminate|].
  assert (t = "th") as -> by (vm_compute in E; injection E as _ <- _; reflexivity).
  destruct (executor_no_lost_wakeup _ _ _ _ _ _ _ _ _ E) as (H1 & H2 & _).
  split; [exact H1|]. split; [|exact H2]. vm_compute in E. injection E as _ <-. reflexivity.
Defined.
