(* ===== verification/Store.v ===== *)
(** * The synced tables

    SQLite tables addressed by primary key, as the change log and the sync
    reducers use them: INSERT with its conflict clauses, UPDATE by primary key,
    SELECT of a whole row, and rollback.  The schema of a table (its columns,
    defaults, STRICT column types, NOT NULL, CHECK and trigger constraints)
    belongs to the database, so it is a parameter: [ts_store] says what a column
    makes of a bound value, [ts_check] is the row constraint, [ts_unique] lists
    the columns of the secondary UNIQUE indexes, which are all partial, over the
    rows with [deleted = 0] (core/src/schema.ts; [unique_indexes] is its list of
    them).  Column values are JSON scalars. *)
From S2P Require Import Prelude Json.

Abbreviation row := (gmap string json).
Abbreviation table := (gmap string (gmap string json)).

Record table_schema : Type := MkSchema {
  ts_columns : list string;
  ts_default : string → json;
  ts_store : string → json → option json;
  ts_check : row → bool;
  ts_unique : list (list string)
}.

(** The secondary UNIQUE indexes of the synced tables, all [WHERE deleted = 0]. *)
Definition UNIQUE_INDEXES : list (string * list string) :=
  [("semantic_memory", ["agent_id"; "key"]); ("files", ["path"]); ("skills", ["name"]);
   ("memory_edges", ["source_key"; "target_key"; "relation"; "agent_id"]); ("webhooks", ["name"]);
   ("rss_feeds", ["name"])].
Definition unique_indexes (tbl : string) : list (list string) :=
  snd <$> List.filter (λ i, seqb i.1 tbl) UNIQUE_INDEXES.

(** Binding a JavaScript value: arrays and objects are refused, booleans are
    stored as 0 and 1. *)
Definition bind_value (v : json) : option json :=
  match v with
  | JArr _ | JObj _ => None
  | JBool b => Some (JInt (if b then 1 else 0))
  | _ => Some v
  end.

Definition column_value (c : string) (r : row) : json := default JNull (r !! c).

(** [col = ?] in SQL: NULL equals nothing. *)
Definition sql_eq (a b : json) : bool :=
  match a, b with
  | JStr s, JStr t => seqb s t
  | JNum m e, JNum n f => (m =? n) && (e =? f)
  | _, _ => false
  end.

(** Storing the given columns over [base]: an unknown column, a value that
    cannot be bound or stored, or a failed row constraint is an error. *)
Fixpoint store_columns (ts : table_schema) (sets : list (string * json)) (base : row) : result row :=
  match sets with
  | [] => Ok base
  | (c, v) :: sets' =>
      if negb (existsb (seqb c) (ts_columns ts)) then Throw ("no such column: " +:+ c)
      else match bind_value v with
           | None => Throw "Binding expected string, TypedArray, boolean, number, bigint or null"
           | Some b =>
               match ts_store ts c b with
               | None => Throw ("constraint failed: " +:+ c)
               | Some s => store_columns ts sets' (<[c := s]> base)
               end
           end
  end.

Definition check_row (ts : table_schema) (r : row) : result row :=
  if ts_check ts r then Ok r else Throw "constraint failed".

(** The row an INSERT builds: the given columns, every other column at its
    default (which must itself be storable: NOT NULL). *)
Definition missing_columns (ts : table_schema) (given : list (string * json)) : list (string * json) :=
  (λ c, (c, ts_default ts c)) <$>
    List.filter (λ c, negb (existsb (seqb c) given.*1)) (ts_columns ts).

Definition build_row (ts : table_schema) (cols : list (string * json)) : result row :=
  let! r := store_columns ts (cols ++ missing_columns ts cols) ∅ in check_row ts r.

Definition row_key (pk : string) (r : row) : result string :=
  match r !! pk with Some (JStr k) => Ok k | _ => Throw "datatype mismatch" end.

(** Two rows share the value of a UNIQUE index when both are live and no column
    of it is NULL or different. *)
Definition live (r : row) : bool := sql_eq (column_value "deleted" r) (JInt 0).
Definition index_conflict (cols : list string) (r r' : row) : bool :=
  live r && live r' && forallb (λ c, sql_eq (column_value c r) (column_value c r')) cols.
Definition unique_conflict (ts : table_schema) (r r' : row) : bool :=
  existsb (λ cols, index_conflict cols r r') (ts_unique ts).
(** Writing [r] under the key [k] would give it an index value of another row. *)
Definition unique_clash (ts : table_schema) (k : string) (r : row) (t : table) : bool :=
  existsb (λ kr, negb (seqb kr.1 k) && unique_conflict ts r kr.2) (map_to_list t).
Definition put_row (ts : table_schema) (k : string) (r : row) (t : table) : result table :=
  if unique_clash ts k r t then Throw "UNIQUE constraint failed" else Ok (<[k := r]> t).

(** [INSERT]: a conflict with the primary key or a UNIQUE index is an error. *)
Definition insert_abort (ts : table_schema) (pk : string) (cols : list (string * json)) (t : table)
    : result table :=
  let! r := build_row ts cols in
  let! k := row_key pk r in
  match t !! k with Some _ => Throw "UNIQUE constraint failed" | None => put_row ts k r t end.

(** [INSERT ... ON CONFLICT(pk) DO NOTHING] with its [changes()]; the clause does
    not cover the UNIQUE indexes. *)
Definition insert_ignore_pk (ts : table_schema) (pk : string) (cols : list (string * json)) (t : table)
    : result (table * nat) :=
  let! r := build_row ts cols in
  let! k := row_key pk r in
  match t !! k with Some _ => Ok (t, 0%nat) | None => let! t' := put_row ts k r t in Ok (t', 1%nat) end.

(** An unknown column fails when the statement is prepared and an unbindable
    value when it is bound, whether or not a row matches. *)
Definition check_sets (ts : table_schema) (sets : list (string * json)) : result unit :=
  if negb (forallb (λ kv, existsb (seqb kv.1) (ts_columns ts)) sets) then Throw "no such column"
  else if negb (forallb (λ kv, match bind_value kv.2 with Some _ => true | None => false end) sets)
  then Throw "Binding expected string, TypedArray, boolean, number, bigint or null"
  else Ok tt.

(** [UPDATE ... SET sets WHERE pk = k]; moving the key onto another row fails,
    and so does taking an index value of another row. *)
Definition update_pk (ts : table_schema) (pk : string) (sets : list (string * json)) (k : string)
    (t : table) : result (table * nat) :=
  let! _ := check_sets ts sets in
  match t !! k with
  | None => Ok (t, 0%nat)
  | Some old =>
      let! r := store_columns ts sets old in
      let! r := check_row ts r in
      let! k' := row_key pk r in
      if seqb k' k then let! t' := put_row ts k r t in Ok (t', 1%nat)
      else match t !! k' with
           | Some _ => Throw "UNIQUE constraint failed"
           | None => let! t' := put_row ts k' r (delete k t) in Ok (t', 1%nat)
           end
  end.

(** [INSERT ... ON CONFLICT(pk) DO UPDATE SET sets WHERE newer]. *)
Definition upsert_pk (ts : table_schema) (pk : string) (cols sets : list (string * json))
    (newer : row → row → bool) (t : table) : result table :=
  let! r := build_row ts cols in
  let! k := row_key pk r in
  match t !! k with
  | None => put_row ts k r t
  | Some old =>
      if newer r old then let! (t', _) := update_pk ts pk sets k t in Ok t' else Ok t
  end.

(** [SELECT *]: the object with the columns in table order. *)
Definition row_object (ts : table_schema) (r : row) : list (string * json) :=
  (λ c, (c, column_value c r)) <$> ts_columns ts.

(** ** Facts *)
Lemma store_columns_spec ts sets base r :
  store_columns ts sets base = Ok r →
  (∀ c, c ∉ sets.*1 → r !! c = base !! c) ∧
  (∀ c, c ∈ sets.*1 → is_Some (r !! c)).
Proof.
  revert base. induction sets as [|[c v] sets IH]; intros base; simpl.
  { intros [= <-]. split; [done|set_solver]. }
  destruct (negb _); [done|]. destruct (bind_value v) as [b|]; [|done].
  destruct (ts_store ts c b) as [s|]; [|done]. intros H. destruct (IH _ H) as [H1 H2]. split.
  - intros c' Hc'. rewrite H1 by set_solver. apply lookup_insert_ne. set_solver.
  - intros c' Hc'. destruct (decide (c' ∈ sets.*1)); [auto|].
    assert (c' = c) as -> by set_solver. rewrite H1 by done. rewrite lookup_insert_eq. by eexists.
Qed.

Lemma unique_clash_spec ts k r t :
  unique_clash ts k r t = true ↔ ∃ k' r', t !! k' = Some r' ∧ k' ≠ k ∧ unique_conflict ts r r' = true.
Proof.
  unfold unique_clash. rewrite existsb_exists. split.
  - intros ([k' r'] & Hin & H). apply list_elem_of_In, elem_of_map_to_list in Hin. bool_props.
    apply seqb_false in H. by exists k', r'.
  - intros (k' & r' & Hr & Hk & Hc). exists (k', r'). split; [by apply list_elem_of_In, elem_of_map_to_list|].
    simpl. by rewrite (proj2 (seqb_false _ _) Hk), Hc.
Qed.
Lemma unique_clash_none ts k r t :
  (∀ k' r', t !! k' = Some r' → k' ≠ k → unique_conflict ts r r' = false) → unique_clash ts k r t = false.
Proof.
  intros H. apply not_true_iff_false. intros (k' & r' & Hr & Hk & Hc)%unique_clash_spec.
  rewrite (H k' r') in Hc by done. done.
Qed.
Lemma unique_clash_no_index ts k r t : ts_unique ts = [] → unique_clash ts k r t = false.
Proof. intros H. apply unique_clash_none. intros. unfold unique_conflict. by rewrite H. Qed.
(** What stands under the key itself does not matter, nor do columns outside
    the indexes. *)
Lemma unique_clash_insert ts k r x t : unique_clash ts k r (<[k := x]> t) = unique_clash ts k r t.
Proof.
  apply eq_iff_eq_true. rewrite !unique_clash_spec. split; intros (k' & r' & Hr & Hk & Hc); exists k', r'.
  - by rewrite lookup_insert_ne in Hr.
  - by rewrite lookup_insert_ne.
Qed.
Lemma unique_conflict_unindexed ts c v r r' :
  c ≠ "deleted" → (∀ cols, cols ∈ ts_unique ts → c ∉ cols) →
  unique_conflict ts (<[c := v]> r) r' = unique_conflict ts r r'.
Proof.
  intros Hd Hi. unfold unique_conflict. apply eq_iff_eq_true. rewrite !existsb_exists.
  apply exist_proper. intros cols. split; intros [Hin H]; (split; [done|]); rewrite <-H;
    apply list_elem_of_In, Hi in Hin; unfold index_conflict, live, column_value; rewrite lookup_insert_ne by done;
    f_equal; clear H; induction cols as [|x cols IH]; try done; simpl;
    (rewrite lookup_insert_ne by set_solver); (rewrite IH by set_solver); done.
Qed.
Lemma unique_clash_unindexed ts c v k r t :
  c ≠ "deleted" → (∀ cols, cols ∈ ts_unique ts → c ∉ cols) →
  unique_clash ts k (<[c := v]> r) t = unique_clash ts k r t.
Proof.
  intros Hd Hi. apply eq_iff_eq_true. rewrite !unique_clash_spec.
  by setoid_rewrite (unique_conflict_unindexed ts c v r _ Hd Hi).
Qed.
Lemma sql_eq_sym a b : sql_eq a b = sql_eq b a.
Proof.
  destruct a as [| |m e|s| |], b as [| |n f|u| |]; simpl; try done.
  - by rewrite (Z.eqb_sym m), (Z.eqb_sym e).
  - apply eq_iff_eq_true. rewrite !seqb_true. naive_solver.
Qed.
Lemma index_conflict_sym cols r r' : index_conflict cols r r' = index_conflict cols r' r.
Proof.
  unfold index_conflict. rewrite (andb_comm (live r)). f_equal.
  induction cols as [|c cols IH]; [done|]. simpl. by rewrite IH, sql_eq_sym.
Qed.
Lemma unique_conflict_sym ts r r' : unique_conflict ts r r' = unique_conflict ts r' r.
Proof.
  unfold unique_conflict. induction (ts_unique ts) as [|c cs IH]; [done|]. simpl. by rewrite IH, index_conflict_sym.
Qed.
Lemma put_row_ok ts k r t t' : put_row ts k r t = Ok t' ↔ unique_clash ts k r t = false ∧ t' = <[k := r]> t.
Proof. unfold put_row. destruct (unique_clash ts k r t); naive_solver. Qed.

Lemma update_pk_spec ts pk sets k t t' n :
  update_pk ts pk sets k t = Ok (t', n) →
  (n = 0%nat ∧ t' = t ∧ t !! k = None) ∨
  (∃ old r k', n = 1%nat ∧ t !! k = Some old ∧ store_columns ts sets old = Ok r ∧
     ts_check ts r = true ∧ row_key pk r = Ok k' ∧
     ((k' = k ∧ t' = <[k := r]> t) ∨ (k' ≠ k ∧ t !! k' = None ∧ t' = <[k' := r]> (delete k t)))).
Proof.
  unfold update_pk, check_row. destruct (check_sets ts sets) as [[]|]; [|done]. cbn [result_bind].
  destruct (t !! k) as [old|] eqn:Hk.
  2: { intros [= <- <-]. by left. }
  destruct (store_columns ts sets old) as [r|] eqn:Hs; [|done]. simpl.
  destruct (ts_check ts r) eqn:Hc; [|done]. simpl.
  destruct (row_key pk r) as [k'|] eqn:Hkey; [|done]. simpl.
  destruct (seqb k' k) eqn:E.
  - apply seqb_true in E as ->. destruct (put_row ts k r t) as [t1|] eqn:Hput; [|done].
    apply put_row_ok in Hput as [_ ->]. intros [= <- <-]. right. exists old, r, k. naive_solver.
  - apply seqb_false in E. destruct (t !! k') eqn:Hk'; [done|].
    destruct (put_row ts k' r (delete k t)) as [t1|] eqn:Hput; [|done].
    apply put_row_ok in Hput as [_ ->]. intros [= <- <-].
    right. exists old, r, k'. split_and!; try done. by right.
Qed.

(** An UPDATE that does not set the key column leaves the key alone. *)
Lemma update_pk_fixed ts pk sets k t t' n old :
  update_pk ts pk sets k t = Ok (t', n) → t !! k = Some old → old !! pk = Some (JStr k) →
  pk ∉ sets.*1 →
  ∃ r, n = 1%nat ∧ store_columns ts sets old = Ok r ∧ ts_check ts r = true ∧ t' = <[k := r]> t ∧
       r !! pk = Some (JStr k).
Proof.
  intros H Hk Hpk Hn. apply update_pk_spec in H as [(_ & _ & ?)|(o & r & k' & -> & Ho & Hs & Hc & Hkey & Ht)];
    [congruence|]. rewrite Hk in Ho. injection Ho as <-.
  destruct (store_columns_spec _ _ _ _ Hs) as [Hsame _].
  assert (r !! pk = Some (JStr k)) as Hr by (by rewrite Hsame).
  unfold row_key in Hkey. rewrite Hr in Hkey. injection Hkey as <-.
  exists r. split_and!; try done. by destruct Ht as [[_ ?]|[? _]].
Qed.
