(* ===== verification/ChangeLog.v ===== *)
(** * The change-log outbox (packages/core/src/change-log.ts)

    Every write of a synced table commits together with one [change_log] entry
    whose HLC exceeds all earlier ones; notifications are buffered by [withTx]
    and delivered after the outermost commit.  The database and the scope stack
    are a [world] threaded through a small state-and-exception monad;
    [db.transaction] restores the database when its body throws.  The table
    schemas and the event bus are parameters: the bus is [None] when none is
    set, else it says whether a listener throws.  Writes a listener makes while
    events drain are not modelled. *)
From Stdlib Require Import Ascii.
From S2P Require Import Prelude Json Hlc Store.

Definition SYNCED_TABLE_NAMES : list string :=
  ["users"; "threads"; "messages"; "semantic_memory"; "tasks"; "files"; "hosts"; "cluster_config";
   "advisories"; "skills"; "agents"; "memory_edges"; "connector_handles"; "webhooks"; "rss_feeds";
   "client_sessions"; "turns"].

(** [TABLE_PK_COLUMN[table] ?? "id"]. *)
Definition getPkColumn (tbl : string) : string :=
  if seqb tbl "hosts" then "site_id" else if seqb tbl "cluster_config" then "key" else "id".

(** [/^[a-z_]+$/]. *)
Definition column_char (c : ascii) : bool :=
  let n := nat_of_ascii c in ((97 <=? n)%nat && (n <=? 122)%nat) || (n =? 95)%nat.
Definition valid_column_name (s : string) : bool :=
  nonempty s && forallb column_char (String.list_ascii_of_string s).

Record ChangeLogEntry : Type := MkChange {
  cl_hlc : string;
  cl_table_name : string;
  cl_row_id : string;
  cl_site_id : string;
  cl_timestamp : string;
  cl_row_data : string
}.

Record sdb : Type := MkSdb { tables : gmap string (gmap string (gmap string json)); change_log : list ChangeLogEntry }.

Definition table_of (tbl : string) (db : sdb) : table := default ∅ (tables db !! tbl).
Definition with_table (tbl : string) (t : table) (db : sdb) : sdb :=
  MkSdb (<[tbl := t]> (tables db)) (change_log db).

Record ChangeLogEvent : Type := MkEvent { ce_hlc : string; ce_table : string; ce_site : string }.

(** The database, the open event scopes (innermost first) and what the bus was
    given so far. *)
Record world : Type := MkWorld {
  w_db : sdb;
  w_scopes : list (list ChangeLogEvent);
  w_delivered : list ChangeLogEvent
}.

(** ** The monad *)
Definition M (A : Type) : Type := world → world * result A.
Definition ret {A} (a : A) : M A := λ w, (w, Ok a).
Definition throw {A} (msg : string) : M A := λ w, (w, Throw msg).
Definition bind {A B} (m : M A) (k : A → M B) : M B :=
  λ w, match m w with (w', Ok a) => k a w' | (w', Throw e) => (w', Throw e) end.
Definition lift {A} (r : result A) : M A := λ w, (w, r).
Definition get_db : M sdb := λ w, (w, Ok (w_db w)).
Definition set_db (db : sdb) (w : world) : world := MkWorld db (w_scopes w) (w_delivered w).
Definition put_db (db : sdb) : M unit := λ w, (set_db db w, Ok tt).

Notation "'do!' x := m 'in' k" := (bind m (fun x => k))
  (at level 10, x pattern, m at level 100, k at level 200) : bound_scope.

(** [db.transaction(fn)()]: roll the database back when [fn] throws. *)
Definition transaction {A} (m : M A) : M A :=
  λ w, match m w with
       | (w', Ok a) => (w', Ok a)
       | (w', Throw e) => (set_db (w_db w) w', Throw e)
       end.

(** ** createChangeLogEntry *)
Definition last_hlc (log : list ChangeLogEntry) : option string :=
  foldr (λ e acc, match acc with None => Some (cl_hlc e) | Some h => Some (smax (cl_hlc e) h) end)
    None log.

(** The plain INSERT fails when the HLC, the primary key, is taken. *)
Definition createChangeLogEntry (now : string) (tableName rowId siteId : string)
    (rowData : list (string * json)) (remoteHlc : option string) : M string :=
  do! db := get_db in
  let lastRow := last_hlc (change_log db) in
  let hlc :=
    if truthy remoteHlc
    then mergeHlc now (default HLC_ZERO lastRow) (default "" remoteHlc) siteId
    else generateHlc now lastRow siteId in
  if existsb (λ e, seqb (cl_hlc e) hlc) (change_log db)
  then throw "UNIQUE constraint failed: change_log.hlc"
  else
    do! _ := put_db (MkSdb (tables db)
      (change_log db ++ [MkChange hlc tableName rowId siteId now (json_stringify (JObj rowData))])) in
    ret hlc.

Definition validateColumnName (name : string) : M unit :=
  if valid_column_name name then ret tt else throw ("Invalid column name: " +:+ name).

Fixpoint for_each {A} (f : A → M unit) (l : list A) : M unit :=
  match l with [] => ret tt | x :: l' => do! _ := f x in for_each f l' end.

Section Outbox.
Context (sch : string → table_schema) (bus : option (ChangeLogEvent → option string)).

(** ** Events *)
Definition bus_emit (e : ChangeLogEvent) : M unit :=
  match bus with
  | None => ret tt
  | Some listener =>
      λ w, (MkWorld (w_db w) (w_scopes w) (w_delivered w ++ [e]),
            match listener e with None => Ok tt | Some msg => Throw msg end)
  end.

Definition emitChangeLogEvent (e : ChangeLogEvent) : M unit :=
  λ w, match w_scopes w with
       | scope :: rest => (MkWorld (w_db w) ((scope ++ [e]) :: rest) (w_delivered w), Ok tt)
       | [] => bus_emit e w
       end.

Definition emitWrittenChangeLogEvent (tableName siteId : string) (hlc : option string) : M unit :=
  match hlc with Some h => emitChangeLogEvent (MkEvent h tableName siteId) | None => ret tt end.

(** Every event is given to the bus; the first listener failure is rethrown
    when all were. *)
Fixpoint drain_events (events : list ChangeLogEvent) (firstError : option string) : M unit :=
  match events with
  | [] => match firstError with Some e => throw e | None => ret tt end
  | e :: events' =>
      λ w, match bus_emit e w with
           | (w', Ok _) => drain_events events' firstError w'
           | (w', Throw msg) =>
               drain_events events' (match firstError with None => Some msg | Some _ => firstError end) w'
           end
  end.

(** ** The write paths *)
Definition insertRow (now tbl : string) (rowData : list (string * json)) (siteId : string) : M unit :=
  if seqb tbl "messages" && match fields_get "role" rowData with Some (JStr r) => seqb r "system" | _ => false end
  then throw "Invariant: role='system' is not permitted in the messages table."
  else
    let pkColumn := getPkColumn tbl in
    let rowId := match fields_get pkColumn rowData with Some (JStr s) => s | _ => "" end in
    do! _ := for_each validateColumnName rowData.*1 in
    do! hlc := transaction (
      do! db := get_db in
      do! t := lift (insert_abort (sch tbl) pkColumn rowData (table_of tbl db)) in
      do! _ := put_db (with_table tbl t db) in
      createChangeLogEntry now tbl rowId siteId rowData None) in
    emitWrittenChangeLogEvent tbl siteId (Some hlc).

(** The SELECT after an UPDATE and the snapshot it logs. *)
Definition log_snapshot (now tbl id siteId missing : string) : M string :=
  do! db := get_db in
  match table_of tbl db !! id with
  | None => throw missing
  | Some r => createChangeLogEntry now tbl id siteId (row_object (sch tbl) r) None
  end.

Definition with_modified_at (now : string) (updates : list (string * json)) : list (string * json) :=
  fields_set "modified_at" (JStr now) updates.

Definition updateRow (now tbl id : string) (updates : list (string * json)) (siteId : string) : M unit :=
  do! hlc := transaction (
    let sets := with_modified_at now updates in
    do! _ := for_each validateColumnName sets.*1 in
    do! db := get_db in
    do! (t, _) := lift (update_pk (sch tbl) (getPkColumn tbl) sets id (table_of tbl db)) in
    do! _ := put_db (with_table tbl t db) in
    log_snapshot now tbl id siteId ("updateRow: Row " +:+ id +:+ " disappeared")) in
  emitWrittenChangeLogEvent tbl siteId (Some hlc).

(** [AND k = ?] for every column of [where]; naming a column the table lacks is
    an SQL error. *)
Definition where_columns (ts : table_schema) (w : list (string * json)) : result unit :=
  if forallb (λ kv, existsb (seqb kv.1) (ts_columns ts)) w then Ok tt else Throw "no such column".
Definition where_matches (w : list (string * json)) (r : row) : bool :=
  forallb (λ kv, match bind_value kv.2 with Some v => sql_eq (column_value kv.1 r) v | None => false end) w.

Definition updateRowIf (now tbl id : string) (where_ updates : list (string * json)) (siteId : string)
    : M bool :=
  do! hlc := transaction (
    let sets := with_modified_at now updates in
    do! _ := for_each validateColumnName sets.*1 in
    do! _ := for_each validateColumnName where_.*1 in
    do! db := get_db in
    do! _ := lift (where_columns (sch tbl) where_) in
    let matched := match table_of tbl db !! id with Some r => where_matches where_ r | None => false end in
    if negb matched then ret None
    else
      do! (t, _) := lift (update_pk (sch tbl) (getPkColumn tbl) sets id (table_of tbl db)) in
      do! _ := put_db (with_table tbl t db) in
      do! h := log_snapshot now tbl id siteId ("updateRowIf: Row " +:+ id +:+ " disappeared") in
      ret (Some h)) in
  do! _ := emitWrittenChangeLogEvent tbl siteId hlc in
  ret (match hlc with Some _ => true | None => false end).

Definition softDelete (now tbl id siteId : string) : M unit :=
  do! hlc := transaction (
    do! db := get_db in
    do! (t, _) := lift (update_pk (sch tbl) (getPkColumn tbl)
      [("deleted", JInt 1); ("modified_at", JStr now)] id (table_of tbl db)) in
    do! _ := put_db (with_table tbl t db) in
    log_snapshot now tbl id siteId ("softDelete: Row " +:+ id +:+ " disappeared")) in
  emitWrittenChangeLogEvent tbl siteId (Some hlc).

(** [fn] names the table, the row, its data and a result. *)
Definition withChangeLog {A} (now siteId : string)
    (fn : M (string * string * list (string * json) * A)) : M A :=
  do! (result, hlc, tbl) := transaction (
    do! (tbl, rowId, rowData, result) := fn in
    do! hlc := createChangeLogEntry now tbl rowId siteId rowData None in
    ret (result, hlc, tbl)) in
  do! _ := match bus with
           | Some _ => emitChangeLogEvent (MkEvent hlc tbl siteId)
           | None => ret tt
           end in
  ret result.

(** ** withTx *)
Definition push_scope (w : world) : world := MkWorld (w_db w) ([] :: w_scopes w) (w_delivered w).
Definition pop_scope (w : world) : world := MkWorld (w_db w) (tail (w_scopes w)) (w_delivered w).

Definition withTx {A} (fn : M A) : M A :=
  λ w, match transaction fn (push_scope w) with
       | (w1, Throw e) => (pop_scope w1, Throw e)
       | (w1, Ok a) =>
           match w_scopes w1 with
           | events :: outer :: rest =>
               (MkWorld (w_db w1) ((outer ++ events) :: rest) (w_delivered w1), Ok a)
           | [events] =>
               let '(w2, r) := drain_events events None w1 in
               (pop_scope w2, match r with Ok _ => Ok a | Throw e => Throw e end)
           | [] => (w1, Ok a)
           end
       end.

(** ** Messages and metadata *)
Definition dangerouslyExecuteRawWrite (raw : sdb → result sdb) (reason : string) : M unit :=
  if (String.length (trim_start reason) =? 0)%nat
  then throw "dangerouslyExecuteRawWrite: a non-empty `reason` is required"
  else do! db := get_db in do! db' := lift (raw db) in put_db db'.

Definition insertMessage (uuid now threadId role content : string) (modelId toolName : option string)
    (hostOrigin siteId : string) : M string :=
  do! _ := insertRow now "messages"
    [("id", JStr uuid); ("thread_id", JStr threadId); ("role", JStr role); ("content", JStr content);
     ("model_id", match modelId with Some m => JStr m | None => JNull end);
     ("tool_name", match toolName with Some m => JStr m | None => JNull end);
     ("created_at", JStr now); ("modified_at", JStr now); ("host_origin", JStr hostOrigin);
     ("deleted", JInt 0); ("exit_code", JNull); ("metadata", JNull)] siteId in
  ret uuid.

Definition readMessageMetadata (messageId : string) : M (option json) :=
  do! db := get_db in
  ret (match table_of "messages" db !! messageId with
       | Some r => match column_value "metadata" r with JStr s => json_parse s | _ => None end
       | None => None
       end).

(** [{ ...existing, ...entries }]. *)
Definition merge_fields (existing entries : list (string * json)) : list (string * json) :=
  foldl (λ acc kv, fields_set kv.1 kv.2 acc) existing entries.

Definition writeMessageMetadata (now messageId : string) (entries : list (string * json)) (siteId : string)
    : M unit :=
  do! existing := readMessageMetadata messageId in
  let base := match existing with Some (JObj fs) => fs | _ => [] end in
  updateRow now "messages" messageId
    [("metadata", JStr (json_stringify (JObj (merge_fields base entries))))] siteId.
End Outbox.

(** ** Programs of writes

    What callers build from the write paths: single writes, [withTx] blocks,
    sequences, and [try]/[catch] around any of them. *)
Inductive write_op : Type :=
| WInsert (now tbl : string) (rowData : list (string * json)) (siteId : string)
| WUpdate (now tbl id : string) (updates : list (string * json)) (siteId : string)
| WUpdateIf (now tbl id : string) (where_ updates : list (string * json)) (siteId : string)
| WSoftDelete (now tbl id siteId : string).

Inductive program : Type :=
| PWrite (op : write_op)
| PSeq (p q : program)
| PTx (p : program)
| PCatch (p : program).

Definition catch (m : M unit) : M unit := λ w, ((m w).1, Ok tt).

Definition run_write (sch : string → table_schema) (bus : option (ChangeLogEvent → option string))
    (op : write_op) : M unit :=
  match op with
  | WInsert now tbl d s => insertRow sch bus now tbl d s
  | WUpdate now tbl i u s => updateRow sch bus now tbl i u s
  | WUpdateIf now tbl i c u s => do! _ := updateRowIf sch bus now tbl i c u s in ret tt
  | WSoftDelete now tbl i s => softDelete sch bus now tbl i s
  end.

Fixpoint run_program (sch : string → table_schema) (bus : option (ChangeLogEvent → option string))
    (p : program) : M unit :=
  match p with
  | PWrite op => run_write sch bus op
  | PSeq p q => do! _ := run_program sch bus p in run_program sch bus q
  | PTx p => withTx bus (run_program sch bus p)
  | PCatch p => catch (run_program sch bus p)
  end.

(** ** createChangeLogEntry *)

(** The log holds clock values with counters below [n]. *)
Definition log_below (n : Z) (log : list ChangeLogEntry) : Prop :=
  Forall (λ e, ∃ ts c site, cl_hlc e = hlc_value ts c site ∧ timestamp_ok ts ∧ 0 ≤ c < n ∧
                            no_us site = true) log.

Lemma last_hlc_spec log :
  match last_hlc log with
  | None => log = []
  | Some h => (∃ e, e ∈ log ∧ cl_hlc e = h) ∧ ∀ e, e ∈ log → (cl_hlc e) ≤s h
  end.
Proof.
  induction log as [|e log IH]; [done|]. cbn [last_hlc foldr]. fold (last_hlc log).
  destruct (last_hlc log) as [h|].
  - destruct IH as ((e' & He' & Heq) & Hmax).
    destruct (smax_spec (cl_hlc e) h) as (H1 & H2 & H3). split.
    + destruct H3 as [-> | ->]; [exists e; set_solver|exists e'; set_solver].
    + intros x [->|Hx]%elem_of_cons; [done|]. eapply sleb_trans; [by apply Hmax|done].
  - subst. split; [exists e; set_solver|]. intros x ->%list_elem_of_singleton. apply sleb_refl.
Qed.

(** The next local clock value is above every entry of the log, and the log
    extended with it keeps its clock values well formed. *)
Lemma next_hlc_spec n now site log tbl rid data :
  log_below n log → 0 ≤ n ≤ 65535 → timestamp_ok now → no_us site = true →
  let h := generateHlc now (last_hlc log) site in
  (∀ e, e ∈ log → (cl_hlc e) <s h) ∧ log_below (n + 1) (log ++ [MkChange h tbl rid site now data]).
Proof.
  intros Hlog Hn Hnow Hsite h. unfold log_below in *. rewrite Forall_forall in Hlog.
  pose proof (last_hlc_spec log) as Hlast.
  assert ((∀ e, e ∈ log → (cl_hlc e) <s h) ∧
    ∃ ts c, h = hlc_value ts c site ∧ timestamp_ok ts ∧ 0 ≤ c < n + 1) as (Hgt & ts & c & Hh & Hts & Hc).
  { unfold h. destruct (last_hlc log) as [l|].
    - destruct Hlast as ((e & He & <-) & Hmax).
      destruct (Hlog e He) as (ts & c & s0 & Heq & Hts & Hc & Hs0).
      rewrite Heq in Hmax |- *. rewrite generateHlc_value by (lia || done).
      assert (∀ x, (hlc_value ts c s0) <s x → ∀ e, e ∈ log → (cl_hlc e) <s x) as Hlt.
      { intros x Hx e' He'. eapply sleb_sltb_trans; [by apply Hmax|done]. }
      destruct (sltb ts now) eqn:E; (split; [apply Hlt|]).
      + apply hlc_lt_ts; [by rewrite Hts, Hnow|done].
      + exists now, 0. split_and!; (done || lia).
      + apply hlc_lt_counter; lia.
      + exists ts, (c + 1). split_and!; (done || lia).
    - subst log. split; [set_solver|]. exists now, 0. rewrite <-format_hlc_zero.
      split_and!; (done || lia). }
  split; [done|]. apply Forall_app. split.
  - rewrite Forall_forall. intros e He. destruct (Hlog e He) as (ts' & c' & s' & ? & ? & ? & ?).
    exists ts', c', s'. split_and!; (done || lia).
  - apply Forall_singleton. exists ts, c, site. split_and!; (done || lia).
Qed.

(** ** What one write does *)

(** A write commits one log entry for its table and site and notifies with the
    entry's HLC, or leaves the database as it was and notifies nobody. *)
Definition op_now (op : write_op) : string :=
  match op with WInsert n _ _ _ | WUpdate n _ _ _ _ | WUpdateIf n _ _ _ _ _ | WSoftDelete n _ _ _ => n end.
Definition op_site (op : write_op) : string :=
  match op with WInsert _ _ _ s | WUpdate _ _ _ _ s | WUpdateIf _ _ _ _ _ s | WSoftDelete _ _ _ s => s end.
Definition op_table (op : write_op) : string :=
  match op with WInsert _ t _ _ | WUpdate _ t _ _ _ | WUpdateIf _ t _ _ _ _ | WSoftDelete _ t _ _ => t end.

(** Notifying [e] in [w]: into the innermost scope, or to the bus. *)
Definition notified (bus : option (ChangeLogEvent → option string)) (e : ChangeLogEvent) (w w' : world) : Prop :=
  w_db w' = w_db w ∧
  match w_scopes w with
  | scope :: rest => w_scopes w' = (scope ++ [e]) :: rest ∧ w_delivered w' = w_delivered w
  | [] => w_scopes w' = [] ∧
          w_delivered w' = w_delivered w ++ match bus with Some _ => [e] | None => [] end
  end.

Lemma emit_notified bus e w : notified bus e w (emitChangeLogEvent bus e w).1.
Proof.
  unfold notified, emitChangeLogEvent, bus_emit. destruct (w_scopes w) as [|scope rest] eqn:E; [|done].
  destruct bus; simpl; [by rewrite E|]. unfold ret. simpl. by rewrite app_nil_r.
Qed.

Lemma create_shape now tbl rid site data w :
  match createChangeLogEntry now tbl rid site data None w with
  | (w', Ok h) => w' = set_db (MkSdb (tables (w_db w)) (change_log (w_db w) ++
       [MkChange h tbl rid site now (json_stringify (JObj data))])) w ∧
       h = generateHlc now (last_hlc (change_log (w_db w))) site
  | (w', Throw _) => w' = w
  end.
Proof.
  unfold createChangeLogEntry, bind, get_db, put_db, ret, throw.
  change (truthy None) with false. cbv iota zeta.
  destruct (existsb _ (change_log (w_db w))); done.
Qed.

Lemma for_each_validate names w :
  (for_each validateColumnName names w).1 = w.
Proof.
  revert w. induction names as [|x names IH]; intros w; [done|]. simpl. unfold bind, validateColumnName.
  destruct (valid_column_name x); [apply IH|done].
Qed.

(** What the entry records: the inserted data, or the row as it is stored after
    the update. *)
Definition logged (sch : string → table_schema) (op : write_op) (t : table) (rid : string)
    (data : list (string * json)) : Prop :=
  match op with
  | WInsert _ tbl d _ => data = d ∧ ∃ r k, t !! k = Some r ∧ build_row (sch tbl) d = Ok r
  | WUpdate _ tbl i _ _ | WUpdateIf _ tbl i _ _ _ | WSoftDelete _ tbl i _ =>
      rid = i ∧ ∃ r, t !! i = Some r ∧ data = row_object (sch tbl) r
  end.

(** The transaction of a write: it fails with the database restored, or changed
    one table and appended one entry. *)
Definition committed (sch : string → table_schema) (op : write_op) (h : string) (w w' : world) : Prop :=
  ∃ t rid data, logged sch op t rid data ∧
    w' = set_db (MkSdb (<[op_table op := t]> (tables (w_db w))) (change_log (w_db w) ++
           [MkChange h (op_table op) rid (op_site op) (op_now op) (json_stringify (JObj data))])) w ∧
    h = generateHlc (op_now op) (last_hlc (change_log (w_db w))) (op_site op).

Lemma set_db_same w : set_db (w_db w) w = w.
Proof. by destruct w. Qed.
Lemma set_db_twice a b w : set_db a (set_db b w) = set_db a w.
Proof. done. Qed.

Lemma table_of_with tbl t db : table_of tbl (with_table tbl t db) = t.
Proof. unfold table_of, with_table. simpl. by rewrite lookup_insert_eq. Qed.

(** [op] is an update of row [id]. *)
Definition updates_row (op : write_op) (id : string) : Prop :=
  match op with
  | WInsert _ _ _ _ => False
  | WUpdate _ _ i _ _ | WUpdateIf _ _ i _ _ _ | WSoftDelete _ _ i _ => i = id
  end.

Lemma log_snapshot_shape sch op t id missing w :
  updates_row op id →
  match log_snapshot sch (op_now op) (op_table op) id (op_site op) missing
          (set_db (with_table (op_table op) t (w_db w)) w) with
  | (w', Ok h) => committed sch op h w w'
  | (w', Throw _) => set_db (w_db w) w' = w
  end.
Proof.
  intros Hop. unfold log_snapshot, bind at 1, get_db. cbn [w_db set_db]. rewrite table_of_with.
  destruct (t !! id) as [r|] eqn:Hr; [|by destruct w].
  pose proof (create_shape (op_now op) (op_table op) id (op_site op)
    (row_object (sch (op_table op)) r) (set_db (with_table (op_table op) t (w_db w)) w)) as H.
  destruct (createChangeLogEntry _ _ _ _ _ _ _) as [w' [h|msg]].
  - destruct H as [-> ->]. eexists t, id, _. split; [|done].
    destruct op; simpl in *; subst; [done|..]; split; eauto.
  - subst. by destruct w.
Qed.

(** The transaction around an UPDATE by primary key. *)
Lemma update_transaction sch op sets id missing w :
  updates_row op id →
  match transaction (
    do! db := get_db in
    do! (t, _) := lift (update_pk (sch (op_table op)) (getPkColumn (op_table op)) sets id
                          (table_of (op_table op) db)) in
    do! _ := put_db (with_table (op_table op) t db) in
    log_snapshot sch (op_now op) (op_table op) id (op_site op) missing) w with
  | (w', Ok h) => committed sch op h w w'
  | (w', Throw _) => w' = w
  end.
Proof.
  intros Hop. unfold transaction, bind, get_db, lift, put_db.
  destruct (update_pk _ _ sets id _) as [[t k]|msg]; [|by destruct w].
  pose proof (log_snapshot_shape sch op t id missing w Hop) as H.
  destruct (log_snapshot _ _ _ _ _ _ _) as [w' [h|msg]]; [done|]. by rewrite H.
Qed.

Lemma bind_for_each {A} names (m : M A) w :
  (do! _ := for_each validateColumnName names in m) w = m w ∨
  ∃ msg, (do! _ := for_each validateColumnName names in m) w = (w, Throw msg).
Proof.
  pose proof (for_each_validate names w) as H. unfold bind.
  destruct (for_each validateColumnName names w) as [w' [[]|msg]]; simpl in H; subst; eauto.
Qed.

Lemma transaction_for_each {A} names (m : M A) w :
  transaction (do! _ := for_each validateColumnName names in m) w = transaction m w ∨
  ∃ msg, transaction (do! _ := for_each validateColumnName names in m) w = (w, Throw msg).
Proof.
  unfold transaction. destruct (bind_for_each names m w) as [-> |[msg ->]]; [by left|].
  right. exists msg. by destruct w.
Qed.

(** The committed transaction of a write, or none. *)
Definition write_effect (sch : string → table_schema) (bus : option (ChangeLogEvent → option string)) (op : write_op) (w w' : world) : Prop :=
  w' = w ∨ ∃ h w1, committed sch op h w w1 ∧ notified bus (MkEvent h (op_table op) (op_site op)) w1 w'.

Lemma emit_effect sch bus op m w :
  match m w with (w1, Ok h) => committed sch op h w w1 | (w1, Throw _) => w1 = w end →
  write_effect sch bus op w
    ((do! h := m in emitWrittenChangeLogEvent bus (op_table op) (op_site op) (Some h)) w).1.
Proof.
  unfold bind. destruct (m w) as [w1 [h|msg]]; intros H; [|by left].
  right. exists h, w1. split; [done|]. apply emit_notified.
Qed.

Lemma insertRow_effect sch bus now tbl d site w :
  write_effect sch bus (WInsert now tbl d site) w (insertRow sch bus now tbl d site w).1.
Proof.
  unfold insertRow. destruct (_ && _); [by left|].
  match goal with |- write_effect _ _ _ _ ((do! _ := for_each _ ?n in ?m) w).1 =>
    destruct (bind_for_each n m w) as [-> |[msg ->]]; [|by left] end.
  apply (emit_effect sch bus (WInsert now tbl d site)). unfold transaction, bind, get_db, lift, put_db.
  destruct (insert_abort _ _ _ _) as [t|msg] eqn:Hins; [|by destruct w].
  match goal with |- context [createChangeLogEntry now tbl ?r site d None ?w0] =>
    pose proof (create_shape now tbl r site d w0) as H; destruct (createChangeLogEntry now tbl r site d None w0) as [w' [h|msg]] end.
  - destruct H as [-> ->]. eexists t, _, d. split; [|done]. split; [done|].
    unfold insert_abort in Hins. destruct (build_row _ d) as [r|] eqn:Hb; [|done]. simpl in Hins.
    destruct (row_key _ r) as [k|]; [|done]. simpl in Hins.
    destruct (table_of tbl (w_db w) !! k); [done|]. apply put_row_ok in Hins as [_ ->].
    exists r, k. split; [apply lookup_insert_eq|done].
  - subst. by destruct w.
Qed.

Lemma updateRow_effect sch bus now tbl i u site w :
  write_effect sch bus (WUpdate now tbl i u site) w (updateRow sch bus now tbl i u site w).1.
Proof.
  unfold updateRow. apply (emit_effect sch bus (WUpdate now tbl i u site)). cbv zeta.
  match goal with |- context [transaction (do! _ := for_each _ ?n in ?m) w] =>
    destruct (transaction_for_each n m w) as [-> |[msg ->]]; [|done] end.
  by apply (update_transaction sch (WUpdate now tbl i u site)).
Qed.

Lemma softDelete_effect sch bus now tbl i site w :
  write_effect sch bus (WSoftDelete now tbl i site) w (softDelete sch bus now tbl i site w).1.
Proof.
  unfold softDelete. apply (emit_effect sch bus (WSoftDelete now tbl i site)).
  by apply (update_transaction sch (WSoftDelete now tbl i site)).
Qed.

Lemma updateRowIf_effect sch bus now tbl i c u site w :
  write_effect sch bus (WUpdateIf now tbl i c u site) w
    (run_write sch bus (WUpdateIf now tbl i c u site) w).1.
Proof.
  set (op := WUpdateIf now tbl i c u site). unfold run_write, op. unfold updateRowIf.
  unfold bind at 1. unfold bind at 1.
  match goal with |- context [transaction ?m w] =>
    assert (match transaction m w with
            | (w1, Ok (Some h)) => committed sch op h w w1
            | (w1, _) => w1 = w end) as Ht end.
  { cbv zeta.
    match goal with |- context [transaction (do! _ := for_each _ ?n in ?m) w] =>
      destruct (transaction_for_each n m w) as [-> |[msg ->]]; [|done] end.
    match goal with |- context [transaction (do! _ := for_each _ ?n in ?m) w] =>
      destruct (transaction_for_each n m w) as [-> |[msg ->]]; [|done] end.
    unfold transaction, bind, get_db, lift, put_db, ret.
    destruct (where_columns _ c); [|by destruct w].
    destruct (match table_of tbl (w_db w) !! i with Some r => where_matches c r | None => false end);
      simpl; [|done].
    destruct (update_pk _ _ _ i _) as [[t k]|msg]; [|by destruct w].
    pose proof (log_snapshot_shape sch op t i ("updateRowIf: Row " +:+ i +:+ " disappeared") w eq_refl) as H.
    unfold op in H. simpl in H.
    destruct (log_snapshot _ _ _ _ _ _ _) as [w' [h|msg]]; [done|]. by rewrite H. }
  destruct (transaction _ w) as [w1 [[h|]|msg]]; [|by left|by left].
  right. exists h, w1. split; [exact Ht|].
  pose proof (emit_notified bus (MkEvent h tbl site) w1) as Hn.
  unfold bind. simpl. destruct (emitChangeLogEvent bus (MkEvent h tbl site) w1) as [w2 [[]|msg]]; exact Hn.
Qed.

Lemma run_write_effect sch bus op w : write_effect sch bus op w (run_write sch bus op w).1.
Proof.
  destruct op; simpl; [apply insertRow_effect|apply updateRow_effect|apply updateRowIf_effect|
                       apply softDelete_effect].
Qed.

(** ** Programs *)
Fixpoint writes (p : program) : Z :=
  match p with
  | PWrite _ => 1
  | PSeq p q => writes p + writes q
  | PTx p | PCatch p => writes p
  end.

(** Every write of the program has a full timestamp and a plain site id. *)
Fixpoint program_ok (p : program) : Prop :=
  match p with
  | PWrite op => timestamp_ok (op_now op) ∧ no_us (op_site op) = true
  | PSeq p q => program_ok p ∧ program_ok q
  | PTx p | PCatch p => program_ok p
  end.

Definition log_sorted (log : list ChangeLogEntry) : Prop :=
  StronglySorted (λ a b, (cl_hlc a) <s (cl_hlc b)) log.

Lemma log_sorted_app log e :
  log_sorted log → (∀ x, x ∈ log → (cl_hlc x) <s (cl_hlc e)) → log_sorted (log ++ [e]).
Proof.
  unfold log_sorted. induction 1 as [|x log Hs IH Hall]; intros Hlt; [by repeat constructor|].
  simpl. constructor; [apply IH; set_solver|]. apply Forall_app. split; [done|].
  apply Forall_singleton. apply Hlt. set_solver.
Qed.

Lemma log_below_mono n m log : n ≤ m → log_below n log → log_below m log.
Proof.
  intros Hle H. eapply Forall_impl; [exact H|]. intros e (ts & c & site & ? & ? & ? & ?).
  exists ts, c, site. split_and!; (done || lia).
Qed.

Lemma writes_nonneg p : 0 ≤ writes p.
Proof. induction p; simpl; lia. Qed.

Lemma notified_db bus e w w' : notified bus e w w' → w_db w' = w_db w.
Proof. by intros [? _]. Qed.

Lemma drain_world bus events fe w :
  (drain_events bus events fe w).1 =
    MkWorld (w_db w) (w_scopes w) (w_delivered w ++ match bus with Some _ => events | None => [] end).
Proof.
  revert fe w. induction events as [|e events IH]; intros fe w; cbn [drain_events].
  - destruct fe; destruct w; destruct bus; simpl; by rewrite app_nil_r.
  - unfold bus_emit. destruct bus as [listener|] eqn:Eb; simpl.
    + destruct (listener e); rewrite IH; simpl; by rewrite <-app_assoc.
    + by rewrite IH.
Qed.

(** The log a program leaves: still sorted, with counters bounded by the number
    of writes. *)
Lemma program_log sch bus p n w :
  program_ok p → log_sorted (change_log (w_db w)) → log_below n (change_log (w_db w)) →
  0 ≤ n → n + writes p ≤ 65536 →
  let w' := (run_program sch bus p w).1 in
  log_sorted (change_log (w_db w')) ∧ log_below (n + writes p) (change_log (w_db w')).
Proof.
  revert n w. induction p as [op|p IHp q IHq|p IH|p IH]; intros n w Hok Hs Hb Hn Hlen; simpl.
  - destruct Hok as [Hnow Hsite]. simpl in Hlen.
    destruct (run_write_effect sch bus op w) as [->|(h & w1 & (t & rid & data & _ & Hw1 & Hh) & Hnot)].
    + split; [done|]. eapply log_below_mono; [|done]. lia.
    + rewrite (notified_db _ _ _ _ Hnot), Hw1. simpl.
      destruct (next_hlc_spec n (op_now op) (op_site op) (change_log (w_db w)) (op_table op) rid
        (json_stringify (JObj data))) as [Hlt Hbelow]; [done|lia|done|done|].
      rewrite Hh. split; [by apply log_sorted_app|done].
  - destruct Hok as [Hp Hq]. simpl in Hlen. pose proof (writes_nonneg q).
    destruct (IHp n w Hp Hs Hb Hn) as [Hs1 Hb1]; [lia|]. unfold bind.
    pose proof (writes_nonneg p).
    destruct (run_program sch bus p w) as [w1 [[]|msg]]; simpl in *.
    + rewrite Z.add_assoc. apply IHq; (done || lia).
    + split; [done|]. eapply log_below_mono; [|done]. lia.
  - pose proof (writes_nonneg p). destruct (IH n (push_scope w) Hok Hs Hb Hn Hlen) as [Hs1 Hb1].
    unfold withTx, transaction. destruct (run_program sch bus p (push_scope w)) as [w1 [[]|msg]]; simpl in *.
    + destruct (w_scopes w1) as [|events [|outer rest]]; simpl; [done| |done].
      pose proof (drain_world bus events None w1) as Hd.
      destruct (drain_events bus events None w1) as [w2 r]. simpl in Hd. subst w2. done.
    + split; [done|]. eapply log_below_mono; [|done]. lia.
  - unfold catch. simpl. by apply IH.
Qed.

(** What a program notifies is what it logged. *)
Definition event_of (e : ChangeLogEntry) : ChangeLogEvent :=
  MkEvent (cl_hlc e) (cl_table_name e) (cl_site_id e).

Definition program_effect (bus : option (ChangeLogEvent → option string)) (w w' : world) : Prop :=
  ∃ entries, change_log (w_db w') = change_log (w_db w) ++ entries ∧
  match w_scopes w with
  | scope :: rest =>
      w_scopes w' = (scope ++ (event_of <$> entries)) :: rest ∧ w_delivered w' = w_delivered w
  | [] => w_scopes w' = [] ∧ w_delivered w' = w_delivered w ++
            match bus with Some _ => event_of <$> entries | None => [] end
  end.

Lemma program_effect_refl bus w : program_effect bus w w.
Proof.
  exists []. rewrite app_nil_r. split; [done|]. destruct (w_scopes w) as [|scope rest] eqn:E; simpl.
  - split; [done|]. destruct bus; by rewrite app_nil_r.
  - by rewrite app_nil_r.
Qed.

Lemma program_effect_trans bus w1 w2 w3 :
  program_effect bus w1 w2 → program_effect bus w2 w3 → program_effect bus w1 w3.
Proof.
  intros (es1 & Hl1 & H1) (es2 & Hl2 & H2). exists (es1 ++ es2).
  rewrite Hl2, Hl1, app_assoc. split; [done|]. destruct (w_scopes w1) as [|scope rest].
  - destruct H1 as [Hs1 Hd1]. rewrite Hs1 in H2. destruct H2 as [-> ->]. rewrite Hd1. split; [done|].
    rewrite <-app_assoc. destruct bus; [by rewrite fmap_app|done].
  - destruct H1 as [Hs1 Hd1]. rewrite Hs1 in H2. destruct H2 as [-> ->].
    rewrite fmap_app, app_assoc. done.
Qed.

Lemma program_runs sch bus p w : program_effect bus w (run_program sch bus p w).1.
Proof.
  revert w. induction p as [op|p IHp q IHq|p IH|p IH]; intros w; simpl.
  - destruct (run_write_effect sch bus op w) as [->|(h & w1 & (t & rid & data & _ & Hw1 & _) & Hdb & Hnot)];
      [apply program_effect_refl|].
    exists [MkChange h (op_table op) rid (op_site op) (op_now op) (json_stringify (JObj data))].
    rewrite Hdb. subst w1. simpl in *. split; [done|]. unfold event_of. simpl.
    by destruct (w_scopes w).
  - unfold bind. specialize (IHp w). destruct (run_program sch bus p w) as [w1 [[]|msg]]; simpl in *;
      [|done]. eapply program_effect_trans; [done|apply IHq].
  - unfold withTx, transaction. destruct (IH (push_scope w)) as (es & Hl & Hs).
    destruct (run_program sch bus p (push_scope w)) as [w1 [[]|msg]]; simpl in *; destruct Hs as [Hs Hd].
    + rewrite Hs. destruct (w_scopes w) as [|outer rest] eqn:Ew.
      * pose proof (drain_world bus (event_of <$> es) None w1) as Hdr.
        destruct (drain_events bus _ None w1) as [w2 r]. simpl in Hdr. subst w2. simpl.
        exists es. split; [done|]. rewrite Ew, Hs, Hd. done.
      * exists es. simpl. split; [done|]. by rewrite Ew.
    + exists []. rewrite app_nil_r. split; [done|]. simpl. rewrite Hs, Hd. simpl.
      destruct (w_scopes w); [|by rewrite app_nil_r]. split; [done|]. destruct bus; by rewrite app_nil_r.
  - unfold catch. simpl. apply IH.
Qed.

(** ** Theorems *)

(** A one-table schema for the witnesses. *)
Definition sample_schema (tbl : string) : table_schema :=
  MkSchema ["id"; "content"; "modified_at"; "deleted"] (λ _, JNull) (λ _ v, Some v) (λ _, true) (unique_indexes tbl).
Definition sample_listener (e : ChangeLogEvent) : option string := None.
Definition empty_world : world := MkWorld (MkSdb ∅ []) [] [].
Definition ts1 : string := "2026-01-01T00:00:00.000Z".
Definition sample_program : program :=
  PSeq (PWrite (WInsert ts1 "threads" [("id", JStr "a"); ("content", JStr "x")] "s1"))
    (PSeq (PCatch (PTx (PSeq (PWrite (WUpdate ts1 "threads" "a" [("content", JStr "y")] "s1"))
                             (PWrite (WUpdate ts1 "threads" "missing" [] "s1")))))
          (PTx (PSeq (PWrite (WUpdate ts1 "threads" "a" [("content", JStr "z")] "s1"))
                     (PWrite (WSoftDelete ts1 "threads" "a" "s1"))))).

(** C12: the transactional outbox: a single write either leaves the whole world
    as it was, or commits together the new contents of its one table and
    exactly one log entry, whose HLC exceeds every earlier one and whose data
    is the inserted row, or the stored row as it is after the update. *)
Theorem outbox_atomic sch bus op n w :
  log_below n (change_log (w_db w)) → 0 ≤ n ≤ 65535 →
  timestamp_ok (op_now op) → no_us (op_site op) = true →
  let w' := (run_write sch bus op w).1 in
  w' = w ∨
  ∃ t rid data h, logged sch op t rid data ∧
    w_db w' = MkSdb (<[op_table op := t]> (tables (w_db w))) (change_log (w_db w) ++
      [MkChange h (op_table op) rid (op_site op) (op_now op) (json_stringify (JObj data))]) ∧
    ∀ e, e ∈ change_log (w_db w) → (cl_hlc e) <s h.
Proof.
  intros Hb Hn Hnow Hsite w'. subst w'.
  destruct (run_write_effect sch bus op w) as [H|(h & w1 & (t & rid & data & Hlog & Hw1 & Hh) & Hnot)];
    [by left|]. right. exists t, rid, data, h. split; [done|].
  split; [by rewrite (notified_db _ _ _ _ Hnot), Hw1|]. rewrite Hh.
  eapply (next_hlc_spec n); done.
Qed.

Lemma outbox_atomic_witness :
  let op := WInsert ts1 "threads" [("id", JStr "a"); ("content", JStr "x")] "s1" in
  let w' := (run_write sample_schema (Some sample_listener) op empty_world).1 in
  w' = empty_world ∨
  ∃ t rid data h, logged sample_schema op t rid data ∧
    w_db w' = MkSdb (<["threads" := t]> ∅)
      [MkChange h "threads" rid "s1" ts1 (json_stringify (JObj data))] ∧
    ∀ e, e ∈ [] → (cl_hlc e) <s h.
Proof.
  apply (outbox_atomic sample_schema (Some sample_listener)
    (WInsert ts1 "threads" [("id", JStr "a"); ("content", JStr "x")] "s1") 0 empty_world);
    [constructor|lia|reflexivity|reflexivity].
Defined.

(** the log is totally ordered: after any program of writes, nested
    transactions and caught failures on an empty log, the entries are strictly
    increasing in HLC order, in the order they were written, while fewer than
    65,537 writes were made. *)
Theorem change_log_increasing sch bus p w :
  change_log (w_db w) = [] → program_ok p → writes p ≤ 65536 →
  log_sorted (change_log (w_db (run_program sch bus p w).1)).
Proof.
  intros Hw Hok Hlen. destruct (program_log sch bus p 0 w Hok) as [H _]; [| |lia|lia|done];
    rewrite Hw; constructor.
Qed.

Lemma change_log_increasing_witness :
  log_sorted (change_log (w_db (run_program sample_schema (Some sample_listener) sample_program empty_world).1)).
Proof.
  apply change_log_increasing; [reflexivity| |vm_compute; discriminate].
  repeat split.
Defined.

(** C11: listeners hear of exactly the committed writes, in log order: after any
    program run at top level, with nested [withTx] blocks, failures and
    rollbacks inside, the events the bus was given are those of the log entries
    that survived, one each, in order; nothing is announced for a write that
    was rolled back. *)
Theorem events_match_commits sch listener p db :
  let w' := (run_program sch (Some listener) p (MkWorld db [] [])).1 in
  ∃ entries, change_log (w_db w') = change_log db ++ entries ∧
    w_delivered w' = event_of <$> entries ∧ w_scopes w' = [].
Proof.
  intros w'. destruct (program_runs sch (Some listener) p (MkWorld db [] [])) as (es & Hl & Hs & Hd).
  by exists es.
Qed.

(** *** Compare and swap *)
Lemma store_columns_lookup ts sets base r c v :
  store_columns ts sets base = Ok r → NoDup sets.*1 → (c, v) ∈ sets →
  ∃ b s, bind_value v = Some b ∧ ts_store ts c b = Some s ∧ r !! c = Some s.
Proof.
  revert base. induction sets as [|[c0 v0] sets IH]; intros base; simpl; [set_solver|].
  destruct (negb _); [done|]. destruct (bind_value v0) as [b|] eqn:Hb; [|done].
  destruct (ts_store ts c0 b) as [s|] eqn:Hst; [|done]. intros H [Hc0 Hnd]%NoDup_cons Hin.
  apply elem_of_cons in Hin as [[= -> ->]|Hin]; [|by eapply IH].
  exists b, s. split_and!; [done..|]. destruct (store_columns_spec _ _ _ _ H) as [Hsame _].
  rewrite Hsame by done. apply lookup_insert_eq.
Qed.

Lemma fields_set_other {V} k (v : V) fs c x : (c, x) ∈ fs → c ≠ k → (c, x) ∈ fields_set k v fs.
Proof.
  induction fs as [|[k0 v0] fs IH]; simpl; [by intros ?%not_elem_of_nil|]. intros Hin Hne.
  destruct (seqb k0 k) eqn:E; apply elem_of_cons in Hin as [[= -> ->]|Hin].
  - by apply seqb_true in E.
  - apply elem_of_cons. by right.
  - apply elem_of_cons. by left.
  - apply elem_of_cons. right. auto.
Qed.

(** Every row of a table is stored under its key. *)
Definition keyed (pk : string) (t : table) : Prop := ∀ k r, t !! k = Some r → r !! pk = Some (JStr k).

Lemma log_snapshot_tables sch now tbl i site missing w :
  tables (w_db (log_snapshot sch now tbl i site missing w).1) = tables (w_db w).
Proof.
  unfold log_snapshot, bind at 1, get_db. destruct (table_of tbl (w_db w) !! i) as [r|]; [|done].
  pose proof (create_shape now tbl i site (row_object (sch tbl) r) w) as H.
  destruct (createChangeLogEntry _ _ _ _ _ _ w) as [w' [h|msg]]; [by destruct H as [-> _]|by subst].
Qed.

(** The two outcomes of [updateRowIf] that do not throw. *)
Lemma updateRowIf_outcome sch bus now tbl i wh u site w w' b :
  updateRowIf sch bus now tbl i wh u site w = (w', Ok b) →
  (b = false → w' = w ∧ (∀ r, table_of tbl (w_db w) !! i = Some r → where_matches wh r = false)) ∧
  (b = true → ∃ r0 t n, table_of tbl (w_db w) !! i = Some r0 ∧ where_matches wh r0 = true ∧
     update_pk (sch tbl) (getPkColumn tbl) (with_modified_at now u) i (table_of tbl (w_db w)) = Ok (t, n) ∧
     table_of tbl (w_db w') = t) ∧
  (for_each validateColumnName (with_modified_at now u).*1 w = (w, Ok tt)) ∧
  (for_each validateColumnName wh.*1 w = (w, Ok tt)) ∧ where_columns (sch tbl) wh = Ok tt.
Proof.
  unfold updateRowIf, transaction. cbv zeta. unfold bind, get_db, lift, put_db, ret.
  pose proof (for_each_validate (with_modified_at now u).*1 w) as Hv1.
  destruct (for_each validateColumnName (with_modified_at now u).*1 w) as [w1 [[]|]]; simpl in Hv1;
    subst w1; [|done].
  pose proof (for_each_validate wh.*1 w) as Hv2.
  destruct (for_each validateColumnName wh.*1 w) as [w2 [[]|]]; simpl in Hv2; subst w2; [|done].
  destruct (where_columns (sch tbl) wh) as [[]|]; [|done].
  destruct (table_of tbl (w_db w) !! i) as [r0|] eqn:Hr0; simpl.
  2: { intros [= <- <-]. split_and!; try done. }
  destruct (where_matches wh r0) eqn:Hm; simpl.
  2: { intros [= <- <-]. split_and!; try done. intros _. split; [done|]. by intros r [= <-]. }
  destruct (update_pk _ _ _ i _) as [[t n]|] eqn:Hup; [|done].
  pose proof (log_snapshot_tables sch now tbl i site ("updateRowIf: Row " +:+ i +:+ " disappeared")
    (set_db (with_table tbl t (w_db w)) w)) as Hlog.
  destruct (log_snapshot _ _ _ _ _ _ _) as [w3 [h|]]; [|done]. simpl in Hlog |- *.
  assert (table_of tbl (w_db w3) = t) as Ht.
  { unfold table_of. rewrite Hlog. by rewrite lookup_insert_eq. }
  pose proof (emit_notified bus (MkEvent h tbl site) w3) as [Hdb _].
  destruct (emitChangeLogEvent bus _ w3) as [w4 [[]|]]; [|done]. intros [= <- <-]. simpl in Hdb.
  split_and!; try done. intros _. exists r0, t, n. by rewrite Hdb.
Qed.

(** compare and swap: [updateRowIf] returning [true] means the row matched
    the precondition when it was taken; and when the update moves a
    precondition column off its expected value, a second racer with the same
    precondition is turned away: it returns [false] and changes nothing, not
    even the log. *)
Theorem cas_single_winner sch bus now tbl i wh u site w w' c v v' now2 u2 site2 w2 b2 :
  keyed (getPkColumn tbl) (table_of tbl (w_db w)) →
  updateRowIf sch bus now tbl i wh u site w = (w', Ok true) →
  NoDup u.*1 → getPkColumn tbl ∉ u.*1 → c ≠ "modified_at" → (c, v) ∈ wh → (c, v') ∈ u →
  (∀ b b' s, bind_value v = Some b → bind_value v' = Some b' → ts_store (sch tbl) c b' = Some s →
     sql_eq s b = false) →
  (∃ r, table_of tbl (w_db w) !! i = Some r ∧ where_matches wh r = true) ∧
  (updateRowIf sch bus now2 tbl i wh u2 site2 w' = (w2, Ok b2) → b2 = false ∧ w2 = w').
Proof.
  intros Hkey H1 Hnd Hpk Hc Hwh Hu Hne.
  destruct (updateRowIf_outcome _ _ _ _ _ _ _ _ _ _ _ H1) as (_ & Ht & _).
  destruct (Ht eq_refl) as (r0 & t & n & Hr0 & Hm & Hup & Htab). split; [by exists r0|].
  intros H2. destruct (updateRowIf_outcome _ _ _ _ _ _ _ _ _ _ _ H2) as (Hf & Ht2 & _).
  destruct b2; [|by destruct (Hf eq_refl) as [-> _]]. exfalso.
  destruct (Ht2 eq_refl) as (r1 & _ & _ & Hr1 & Hm1 & _).
  destruct (fields_set_nodup "modified_at" (JStr now) u Hnd) as [Hnd' Hkeys].
  assert (getPkColumn tbl ∉ (with_modified_at now u).*1) as Hpk'.
  { unfold with_modified_at. rewrite Hkeys. intros [Heq|?]; [|done].
    unfold getPkColumn in Heq. repeat case_match; done. }
  destruct (update_pk_fixed _ _ _ _ _ _ _ _ Hup Hr0 (Hkey _ _ Hr0) Hpk') as (r & _ & Hst & _ & Htt & _).
  rewrite Htab, Htt, lookup_insert_eq in Hr1. injection Hr1 as <-.
  destruct (store_columns_lookup _ _ _ _ c v' Hst Hnd') as (b' & s & Hb' & Hs & Hrc).
  { by apply fields_set_other. }
  unfold where_matches in Hm1. rewrite forallb_forall in Hm1.
  specialize (Hm1 (c, v)). rewrite <-list_elem_of_In in Hm1. specialize (Hm1 Hwh). simpl in Hm1.
  destruct (bind_value v) as [b|] eqn:Hb; [|done]. unfold column_value in Hm1. rewrite Hrc in Hm1.
  simpl in Hm1. by rewrite (Hne b b' s) in Hm1.
Qed.

(** A row whose content goes from x to y. *)
Definition cas_world : world :=
  (insertRow sample_schema None ts1 "threads" [("id", JStr "a"); ("content", JStr "x")] "s1" empty_world).1.

Lemma keyed_insert pk t k r : keyed pk t → r !! pk = Some (JStr k) → keyed pk (<[k := r]> t).
Proof. intros Ht Hr k' r' [[<- <-]|[_ ?]]%lookup_insert_Some; [done|by apply Ht]. Qed.
Lemma keyed_empty pk : keyed pk ∅.
Proof. intros k r H. by rewrite lookup_empty in H. Qed.

Lemma cas_world_keyed : keyed (getPkColumn "threads") (table_of "threads" (w_db cas_world)).
Proof.
  assert (table_of "threads" (w_db cas_world) =
    <["a" := match build_row (sample_schema "threads") [("id", JStr "a"); ("content", JStr "x")] with
             | Ok r => r | Throw _ => ∅ end]> ∅) as -> by (vm_compute; reflexivity).
  apply keyed_insert; [apply keyed_empty|reflexivity].
Qed.

Lemma cas_single_winner_witness :
  match updateRowIf sample_schema None ts1 "threads" "a" [("content", JStr "x")] [("content", JStr "y")]
          "s1" cas_world with
  | (w', Ok true) =>
      updateRowIf sample_schema None ts1 "threads" "a" [("content", JStr "x")] [("content", JStr "z")]
        "s2" w' = (w', Ok false)
  | _ => False
  end.
Proof.
  destruct (updateRowIf sample_schema None ts1 "threads" "a" [("content", JStr "x")]
    [("content", JStr "y")] "s1" cas_world) as [w' [[|]|]] eqn:E;
    [|vm_compute in E; discriminate|vm_compute in E; discriminate].
  destruct (updateRowIf sample_schema None ts1 "threads" "a" [("content", JStr "x")]
    [("content", JStr "z")] "s2" w') as [w2 [b2|]] eqn:E2.
  - destruct (cas_single_winner sample_schema None ts1 "threads" "a" [("content", JStr "x")]
      [("content", JStr "y")] "s1" cas_world w' "content" (JStr "x") (JStr "y") ts1
      [("content", JStr "z")] "s2" w2 b2) as [_ H]; [| | | | | | | |by destruct (H E2) as [-> ->]].
    + exact cas_world_keyed.
    + exact E.
    + apply (bool_decide_unpack _). vm_compute. exact I.
    + apply (bool_decide_unpack _). vm_compute. exact I.
    + discriminate.
    + left.
    + left.
    + intros b b' s [= <-] [= <-] [= <-]. reflexivity.
  - exfalso. vm_compute in E. injection E as <-. vm_compute in E2. discriminate.
Defined.
