(* ===== verification/Relations.v ===== *)
(** * Canonical memory-edge relations
      (packages/core/src/memory-relations.ts, normalize-edge-relations.ts)

    The healing of one (relation, context) pair and the startup pass over the
    [memory_edges] table, which goes through the change log.  The spelling
    table is an object literal, so a lookup also finds the inherited members of
    [Object.prototype]; such a value is not a string and is written [JObj []].
    Lower-casing is that of ASCII. *)
From Stdlib Require Import Ascii.
From S2P Require Import Prelude Json Store ChangeLog.

Definition CANONICAL_RELATIONS : list string :=
  ["related_to"; "informs"; "supports"; "extends"; "complements"; "contrasts-with";
   "competes-with"; "cites"; "summarizes"; "synthesizes"].

Definition isCanonicalRelation (rel : string) : bool := existsb (seqb rel) CANONICAL_RELATIONS.

Definition SPELLING_VARIANTS : list (string * string) :=
  [("related-to", "related_to"); ("relates_to", "related_to"); ("relates", "related_to");
   ("related", "related_to"); ("relates-to", "related_to"); ("relate", "related_to");
   ("inform", "informs"); ("informed_by", "informs"); ("informed-by", "informs");
   ("support", "supports"); ("supported_by", "supports"); ("supported-by", "supports");
   ("extend", "extends"); ("extended_by", "extends"); ("extended-by", "extends");
   ("complement", "complements"); ("complementary", "complements");
   ("complementary-to", "complements");
   ("contrasts", "contrasts-with"); ("contrasts_with", "contrasts-with");
   ("contrast", "contrasts-with");
   ("competes", "competes-with"); ("competes_with", "competes-with"); ("compete", "competes-with");
   ("cite", "cites"); ("cited_by", "cites"); ("cited-by", "cites"); ("references", "cites");
   ("reference", "cites");
   ("summarize", "summarizes"); ("summary_of", "summarizes"); ("summary-of", "summarizes");
   ("summarizes-to", "summarizes");
   ("synthesize", "synthesizes"); ("synthesis_of", "synthesizes"); ("synthesis-of", "synthesizes")].

(** The all-lower-case names every object inherits. *)
Definition inherited_names : list string := ["constructor"; "__proto__"].

(** [SPELLING_VARIANTS[key]]: [None] is [undefined]. *)
Definition variant_lookup (key : string) : option json :=
  match fields_get key SPELLING_VARIANTS with
  | Some v => Some (JStr v)
  | None => if existsb (seqb key) inherited_names then Some (JObj []) else None
  end.


Definition FALLBACK_RELATION : string := "related_to".

(** [parts.join(sep)]. *)
Definition join (sep : string) (parts : list string) : string := String.concat sep parts.

Record normalized : Type := MkNormalized { n_relation : json; n_context : option string; n_changed : bool }.

Definition normalizeRelationValue (relation : string) (context : option string) : normalized :=
  if isCanonicalRelation relation then MkNormalized (JStr relation) context false
  else
    match variant_lookup (toLowerCase relation) with
    | Some variant => MkNormalized variant context true
    | None =>
        let parts := relation :: (if truthy context then [default "" context] else []) in
        MkNormalized (JStr FALLBACK_RELATION) (Some (join " | " parts)) true
    end.

(** ** The startup pass *)
Record NormalizationSummary : Type := MkSummary {
  variants_mapped : Z;
  moved_to_context : Z;
  collisions_merged : Z;
  tombstones_normalized : Z;
  total_scanned : Z
}.

Definition text (c : string) (r : row) : string :=
  match column_value c r with JStr s => s | _ => "" end.
Definition nullable_text (c : string) (r : row) : option string :=
  match column_value c r with JStr s => Some s | _ => None end.
Definition opt_json (o : option string) : json := match o with Some s => JStr s | None => JNull end.
Definition is_one (v : json) : bool := match v with JNum 1 0 => true | _ => false end.
Definition is_zero (v : json) : bool := match v with JNum 0 0 => true | _ => false end.

(** [Math.max] on decimal numbers. *)
Definition num_leb (m e n f : Z) : bool :=
  let k := Z.min e f in m * 10 ^ (e - k) <=? n * 10 ^ (f - k).
Definition max_weight (a b : json) : json :=
  match a, b with JNum m e, JNum n f => if num_leb m e n f then b else a | _, _ => a end.

(** [[...new Set(parts)]]. *)
Fixpoint distinct (seen parts : list string) : list string :=
  match parts with
  | [] => []
  | p :: parts' => if existsb (seqb p) seen then distinct seen parts' else p :: distinct (seen ++ [p]) parts'
  end.

Definition bump (v m c t : Z) (s : NormalizationSummary) : NormalizationSummary :=
  MkSummary (variants_mapped s + v) (moved_to_context s + m) (collisions_merged s + c)
    (tombstones_normalized s + t) (total_scanned s).

Section Normalize.
Context (sch : string → table_schema) (bus : option (ChangeLogEvent → option string)).
(** The order in which SQLite scans the table. *)
Context (scan : table → list (string * row)).

Definition collides (src tgt : string) (relation : json) (id : string) (kr : string * row) : bool :=
  seqb (text "source_key" kr.2) src && seqb (text "target_key" kr.2) tgt &&
  match bind_value relation with Some v => sql_eq (column_value "relation" kr.2) v | None => false end &&
  is_zero (column_value "deleted" kr.2) && negb (seqb kr.1 id).

Definition json_eqb_str (a : json) (s : string) : bool := match a with JStr t => seqb t s | _ => false end.

Definition normalize_row (now siteId : string) (id : string) (r : row) (s : NormalizationSummary)
    : M NormalizationSummary :=
  let relation := text "relation" r in
  let context := nullable_text "context" r in
  let normalized := normalizeRelationValue relation context in
  let context_changed := negb (bool_decide (n_context normalized = context)) in
  let preserveInContext := negb (json_eqb_str (n_relation normalized) relation) && context_changed in
  if is_one (column_value "deleted" r) then
    let updates := ("relation", n_relation normalized) ::
      (if context_changed then [("context", opt_json (n_context normalized))] else []) in
    do! _ := updateRow sch bus now "memory_edges" id updates siteId in
    ret (bump 0 0 0 1 s)
  else
    do! db := get_db in
    (* an unbindable parameter makes the collision query throw *)
    match bind_value (n_relation normalized) with
    | None => throw "Binding expected string, TypedArray, boolean, number, bigint or null"
    | Some _ =>
    match List.find (collides (text "source_key" r) (text "target_key" r) (n_relation normalized) id)
            (scan (table_of "memory_edges" db)) with
    | Some (cid, cr) =>
        let mergedWeight := max_weight (column_value "weight" cr) (column_value "weight" r) in
        let ccontext := nullable_text "context" cr in
        let contextParts :=
          (if truthy ccontext then [default "" ccontext] else []) ++
          (if preserveInContext && nonempty relation then [relation] else []) ++
          (if truthy context then [default "" context] else []) in
        let distinctParts := distinct [] contextParts in
        let updates := ("weight", mergedWeight) ::
          (if (0 <? length distinctParts)%nat then [("context", JStr (join " | " distinctParts))] else []) in
        do! _ := updateRow sch bus now "memory_edges" cid updates siteId in
        do! _ := softDelete sch bus now "memory_edges" id siteId in
        ret (bump 0 0 1 0 s)
    | None =>
        let updates := ("relation", n_relation normalized) ::
          (if preserveInContext
           then [("context", JStr (join " | " (relation :: (if truthy context then [default "" context] else []))))]
           else []) in
        do! _ := updateRow sch bus now "memory_edges" id updates siteId in
        ret (if preserveInContext then bump 0 1 0 0 s else bump 1 0 0 0 s)
    end
    end.

Fixpoint normalize_rows (now siteId : string) (rows : list (string * row)) (s : NormalizationSummary)
    : M NormalizationSummary :=
  match rows with
  | [] => ret s
  | (id, r) :: rows' =>
      do! s' := normalize_row now siteId id r s in normalize_rows now siteId rows' s'
  end.

Definition non_canonical (kr : string * row) : bool :=
  match column_value "relation" kr.2 with JStr s => negb (isCanonicalRelation s) | JNull => false | _ => true end.

Definition normalizeEdgeRelations (now siteId : string) : M NormalizationSummary :=
  do! db := get_db in
  let rows := List.filter non_canonical (scan (table_of "memory_edges" db)) in
  normalize_rows now siteId rows (MkSummary 0 0 0 0 (Z.of_nat (length rows))).
End Normalize.

(** ** Properties *)
Lemma isCanonical_elem rel : isCanonicalRelation rel = true ↔ rel ∈ CANONICAL_RELATIONS.
Proof.
  unfold isCanonicalRelation. rewrite existsb_exists. split.
  - intros (x & Hx%list_elem_of_In & Heq%seqb_true). by subst.
  - intros Hx. exists rel. by rewrite <-list_elem_of_In, seqb_refl.
Qed.

Lemma fields_get_elem {V} k (v : V) fs : fields_get k fs = Some v → (k, v) ∈ fs.
Proof.
  induction fs as [|[k0 v0] fs IH]; simpl; [done|]. destruct (seqb k0 k) eqn:E; intros H.
  - apply seqb_true in E. simplify_eq. left.
  - right. auto.
Qed.

(** Every listed variant maps to a canonical relation. *)
Lemma variants_canonical : Forall (λ kv, isCanonicalRelation kv.2 = true) SPELLING_VARIANTS.
Proof. by repeat constructor. Qed.

(** healing lands in the canonical set and is idempotent: for a relation
    whose lower-case form is not the name of an inherited object member, the
    result is a canonical relation; healing it again changes nothing; and
    nothing is lost: the context is kept, or, when the phrasing was unknown,
    becomes the original phrasing followed by the old context. *)
Theorem normalize_canonical rel ctx :
  existsb (seqb (toLowerCase rel)) inherited_names = false →
  ∃ r, n_relation (normalizeRelationValue rel ctx) = JStr r ∧ isCanonicalRelation r = true ∧
    normalizeRelationValue r (n_context (normalizeRelationValue rel ctx)) =
      MkNormalized (JStr r) (n_context (normalizeRelationValue rel ctx)) false ∧
    (n_context (normalizeRelationValue rel ctx) = ctx ∨
     n_context (normalizeRelationValue rel ctx) =
       Some (if truthy ctx then rel +:+ " | " +:+ default "" ctx else rel)) ∧
    (n_changed (normalizeRelationValue rel ctx) = false ↔ isCanonicalRelation rel = true).
Proof.
  intros Hinh.
  assert (∀ r c, isCanonicalRelation r = true → normalizeRelationValue r c = MkNormalized (JStr r) c false)
    as Hcan by (intros r c Hr; unfold normalizeRelationValue; by rewrite Hr).
  destruct (isCanonicalRelation rel) eqn:Hc.
  { exists rel. rewrite !Hcan by done. simpl. split_and!; [done..| |done]. by left. }
  assert (∃ r c, isCanonicalRelation r = true ∧ normalizeRelationValue rel ctx = MkNormalized (JStr r) c true ∧
    (c = ctx ∨ c = Some (if truthy ctx then rel +:+ " | " +:+ default "" ctx else rel)))
    as (r & c & Hr & Heq & Hctx).
  { unfold normalizeRelationValue, variant_lookup. rewrite Hc.
    destruct (fields_get (toLowerCase rel) SPELLING_VARIANTS) as [v|] eqn:Hv.
    - apply fields_get_elem in Hv. pose proof variants_canonical as Hall. rewrite Forall_forall in Hall.
      exists v, ctx. split_and!; [exact (Hall _ Hv)|done|by left].
    - rewrite Hinh. eexists FALLBACK_RELATION, _. split_and!; [done|done|]. right.
      by destruct (truthy ctx). }
  exists r. rewrite !Heq. simpl. rewrite Hcan by done. split_and!; done.
Qed.

Lemma normalize_canonical_witness :
  ∃ r, n_relation (normalizeRelationValue "Inspired By" (Some "see notes")) = JStr r ∧
    isCanonicalRelation r = true.
Proof.
  destruct (normalize_canonical "Inspired By" (Some "see notes") eq_refl) as (r & H1 & H2 & _).
  exists r. split; [exact H1|exact H2].
Defined.

(** a relation spelled like an inherited object member ([constructor],
    [__proto__], in any case) heals to a value that is not a string at all and
    that SQLite cannot bind, so the startup pass throws on an active row
    with that relation and leaves the table as it is. *)
Theorem normalize_inherited_name sch bus scan now site id r s w rel :
  existsb (seqb (toLowerCase rel)) inherited_names = true → isCanonicalRelation rel = false →
  column_value "relation" r = JStr rel → is_one (column_value "deleted" r) = false →
  (∀ str, n_relation (normalizeRelationValue rel None) ≠ JStr str) ∧
  ∃ msg, normalize_row sch bus scan now site id r s w = (w, Throw msg).
Proof.
  intros Hinh Hc Hrel Hdel.
  assert (∀ ctx, normalizeRelationValue rel ctx = MkNormalized (JObj []) ctx true) as Hn.
  { intros ctx. unfold normalizeRelationValue, variant_lookup. rewrite Hc.
    apply existsb_exists in Hinh as (x & Hx & Heq%seqb_true). rewrite Heq.
    destruct Hx as [<- |[<- |[]]]; done. }
  split; [intros str; by rewrite Hn|].
  assert (text "relation" r = rel) as Ht by (unfold text; by rewrite Hrel).
  unfold normalize_row. rewrite Ht, Hn, Hdel. eexists. reflexivity.
Qed.

Lemma normalize_inherited_name_witness :
  ∃ msg, normalize_row sample_schema None map_to_list ts1 "s1" "e"
    {["relation" := JStr "Constructor"]} (MkSummary 0 0 0 0 1) empty_world = (empty_world, Throw msg).
Proof.
  apply (normalize_inherited_name sample_schema None map_to_list ts1 "s1" "e" _ _ _ "Constructor");
    reflexivity.
Defined.
