(* ===== verification/Reducers.v ===== *)
(** * Sync reducers (packages/sync/src/reducers.ts)

    Applying remote change-log events to the synced tables: the append-only and
    last-writer-wins reducers, the replay of a batch with its change-log
    entries, the snapshot upsert and the reassembly of chunked columns.  A
    reducer is a function from the database to a result that is a database and
    [applied], or the SQL error that escapes it.  The schema is a parameter;
    logging is left out. *)
From S2P Require Import Prelude Json Hlc Store ChangeLog Relations.

Inductive ReducerType : Type := AppendOnly | LWW.

Definition TABLE_REDUCER_MAP : list (string * ReducerType) :=
  [("users", LWW); ("threads", LWW); ("messages", AppendOnly); ("semantic_memory", LWW);
   ("tasks", LWW); ("files", LWW); ("hosts", LWW); ("cluster_config", LWW); ("advisories", LWW);
   ("skills", LWW); ("agents", LWW); ("memory_edges", LWW); ("connector_handles", LWW);
   ("webhooks", LWW); ("rss_feeds", LWW); ("client_sessions", LWW); ("mcp_auth_challenges", LWW);
   ("turns", AppendOnly)].

Abbreviation fields := (list (string * json)).

Definition validateTableName (tableName : string) : bool := existsb (seqb tableName) TABLE_REDUCER_MAP.*1.

(** ** JavaScript on column values *)
Definition js_truthy (v : json) : bool :=
  match v with
  | JNull => false
  | JBool b => b
  | JNum m _ => negb (m =? 0)
  | JStr s => nonempty s
  | _ => true
  end.

(** [a <= b]: strings compare as strings and numbers as numbers; a timestamp is
    not numeric, so a mixed comparison is one with [NaN]. *)
Definition js_le (a b : json) : bool :=
  match a, b with
  | JStr s, JStr t => sleb s t
  | JNum m e, JNum n f => num_leb m e n f
  | _, _ => false
  end.

(** The value of [WHERE pk = ?]; NULL matches no row. *)
Definition key_param (v : json) : result (option string) :=
  match v with
  | JStr s => Ok (Some s)
  | JNum m e => Ok (Some (of_chars (print_num m e)))
  | JBool b => Ok (Some (if b then "1" else "0"))
  | JNull => Ok None
  | _ => Throw "Binding expected string, TypedArray, boolean, number, bigint or null"
  end.

Definition present (v : option json) : bool :=
  match v with Some JNull | None => false | Some _ => true end.

(** ** Parsing and guarding an event *)
Definition parseReducerRowData (event : ChangeLogEntry) : option fields :=
  if negb (validateTableName (cl_table_name event)) then None
  else match json_parse (cl_row_data event) with
       | Some (JObj fs) => Some fs
       | _ => None
       end.

Definition violatesMessageRoleInvariant (tableName : string) (rowData : fields) : bool :=
  seqb tableName "messages" &&
  match fields_get "role" rowData with Some (JStr r) => seqb r "system" | _ => false end.

(** Heal-on-receive of a [memory_edges] row. *)
Definition heal (tableName : string) (rowData : fields) : fields :=
  if seqb tableName "memory_edges" then
    match fields_get "relation" rowData with
    | Some (JStr relation) =>
        let healed := normalizeRelationValue relation (as_string (fields_get "context" rowData)) in
        if n_changed healed
        then fields_set "context" (opt_json (n_context healed))
               (fields_set "relation" (n_relation healed) rowData)
        else rowData
    | _ => rowData
    end
  else rowData.

Section Reducers.
Context (sch : string → table_schema).

(** An INSERT of no column is a syntax error. *)
Definition nonempty_insert (cols : fields) : result unit :=
  match cols with [] => Throw "syntax error" | _ => Ok tt end.

Definition insert_or_nothing (tbl : string) (cols : fields) (db : sdb) : result (sdb * bool) :=
  let! _ := nonempty_insert cols in
  let! (t, changes) := insert_ignore_pk (sch tbl) "id" cols (table_of tbl db) in
  Ok (with_table tbl t db, (0 <? changes)%nat).

Definition incoming_not_newer (rowData : fields) (existing : row) : bool :=
  let incoming := default JNull (fields_get "modified_at" rowData) in
  let existingModifiedAt := column_value "modified_at" existing in
  js_truthy existingModifiedAt && js_truthy incoming && js_le incoming existingModifiedAt.

Definition update_applied (tbl pk : string) (sets : fields) (k : string) (db : sdb) : result (sdb * bool) :=
  let! (t, changes) := update_pk (sch tbl) pk sets k (table_of tbl db) in
  Ok (with_table tbl t db, (0 <? changes)%nat).

Definition applyAppendOnlyReducer (event : ChangeLogEntry) (db : sdb) : result (sdb * bool) :=
  match parseReducerRowData event with
  | None => Ok (db, false)
  | Some rowData =>
      let tbl := cl_table_name event in
      if violatesMessageRoleInvariant tbl rowData then Ok (db, false)
      else if negb (forallb valid_column_name rowData.*1) then Ok (db, false)
      else if present (fields_get "modified_at" rowData) then
        let! k := key_param (default JNull (fields_get "id" rowData)) in
        match match k with Some k => (k,.) <$> (table_of tbl db !! k) | None => None end with
        | None => insert_or_nothing tbl rowData db
        | Some (k, existing) =>
            if incoming_not_newer rowData existing then Ok (db, false)
            else update_applied tbl "id" (fields_remove "id" rowData) k db
        end
      else insert_or_nothing tbl rowData db
  end.

(** The columns of the event the table has, with plain names. *)
Definition known_columns (tbl : string) (rowData : fields) : fields :=
  List.filter (λ kv, valid_column_name kv.1 && existsb (seqb kv.1) (ts_columns (sch tbl))) rowData.

Definition applyLWWReducer (event : ChangeLogEntry) (db : sdb) : result (sdb * bool) :=
  match parseReducerRowData event with
  | None => Ok (db, false)
  | Some parsed =>
      let tbl := cl_table_name event in
      let rowData := heal tbl parsed in
      if violatesMessageRoleInvariant tbl rowData then Ok (db, false)
      else
        let pk := getPkColumn tbl in
        let pkValue := match fields_get pk rowData with
                       | Some JNull | None => JStr (cl_row_id event)
                       | Some v => v
                       end in
        let! k := key_param pkValue in
        match match k with Some k => (k,.) <$> (table_of tbl db !! k) | None => None end with
        | None =>
            let cols := known_columns tbl rowData in
            match (let! _ := nonempty_insert cols in insert_abort (sch tbl) pk cols (table_of tbl db)) with
            | Ok t => Ok (with_table tbl t db, true)
            | Throw _ => Ok (db, false)
            end
        | Some (k, existing) =>
            if present (fields_get "modified_at" rowData) && incoming_not_newer rowData existing
            then Ok (db, false)
            else
              let sets := fields_remove pk (known_columns tbl rowData) in
              if (length sets =? 0)%nat then Ok (db, false)
              else update_applied tbl pk sets k db
        end
  end.

Definition applyEvent (event : ChangeLogEntry) (db : sdb) : result (sdb * bool) :=
  match fields_get (cl_table_name event) TABLE_REDUCER_MAP with
  | Some AppendOnly => applyAppendOnlyReducer event db
  | _ => applyLWWReducer event db
  end.

(** ** replayEvents *)
Record replay_state : Type := MkReplay {
  rp_db : sdb;
  rp_applied : nat;
  rp_skipped : nat;
  rp_hlcs : list ChangeLogEvent;                (* changelogHlcs *)
  rp_infos : list (ChangeLogEntry * fields)     (* appliedInfos *)
}.

Definition replay_one (now : string) (event : ChangeLogEntry) (s : replay_state) : result replay_state :=
  match parseReducerRowData event with
  | None => Ok (MkReplay (rp_db s) (rp_applied s) (S (rp_skipped s)) (rp_hlcs s) (rp_infos s))
  | Some rowData =>
      let! (db, applied) := applyEvent event (rp_db s) in
      if applied then
        match createChangeLogEntry now (cl_table_name event) (cl_row_id event) (cl_site_id event) rowData
                (Some (cl_hlc event)) (MkWorld db [] []) with
        | (w, Ok localHlc) =>
            Ok (MkReplay (w_db w) (S (rp_applied s)) (rp_skipped s)
                  (rp_hlcs s ++ [MkEvent localHlc (cl_table_name event) (cl_site_id event)])
                  (rp_infos s ++ [(event, rowData)]))
        | (_, Throw e) => Throw e
        end
      else Ok (MkReplay db (rp_applied s) (S (rp_skipped s)) (rp_hlcs s) (rp_infos s))
  end.

(** [now k] is the clock at the k-th event. *)
Fixpoint replay_loop (now : nat → string) (events : list ChangeLogEntry) (s : replay_state)
    : result replay_state :=
  match events with
  | [] => Ok s
  | e :: events' => let! s' := replay_one (now 0%nat) e s in replay_loop (λ n, now (S n)) events' s'
  end.

(** The database afterwards (as before when an error rolled the batch back) and
    the counts with what the listeners are told. *)
Definition replayEvents (now : nat → string) (events : list ChangeLogEntry) (db : sdb)
    : sdb * result replay_state :=
  match replay_loop now events (MkReplay db 0 0 [] []) with
  | Ok s => (rp_db s, Ok s)
  | Throw e => (db, Throw e)
  end.

(** ** Snapshots *)
Definition coerce_value (v : option json) : json :=
  match v with
  | None => JNull
  | Some (JArr l) => JStr (json_stringify (JArr l))
  | Some (JObj fs) => JStr (json_stringify (JObj fs))
  | Some v => v
  end.
Definition coerceRowValues (columns : list string) (r : fields) : fields :=
  (λ k, (k, coerce_value (fields_get k r))) <$> columns.

(** [a > b] in SQL: NULL compares as NULL; a number sorts below a text. *)
Definition sql_gt (a b : json) : bool :=
  match a, b with
  | JStr s, JStr t => sltb t s
  | JNum m e, JNum n f => negb (num_leb m e n f)
  | JStr _, JNum _ _ => true
  | _, _ => false
  end.

Definition excluded_newer (columns : list string) (excluded existing : row) : bool :=
  if existsb (seqb "modified_at") columns
  then sql_gt (column_value "modified_at" excluded) (column_value "modified_at" existing)
  else true.

(** [INSERT ... ON CONFLICT(pk) DO UPDATE SET col = excluded.col ... WHERE]. *)
Definition snapshot_upsert (tbl : string) (columns : list string) (r : fields) (t : table) : result table :=
  let pk := getPkColumn tbl in
  let cols := coerceRowValues columns r in
  let! _ := nonempty_insert cols in
  upsert_pk (sch tbl) pk cols (fields_remove pk cols)
    (λ excluded existing, negb (length (fields_remove pk cols) =? 0)%nat &&
                          excluded_newer columns excluded existing) t.

Fixpoint snapshot_batch (tbl : string) (columns : list string) (rows : list fields) (t : table) : result table :=
  match rows with
  | [] => Ok t
  | r :: rows' => let! t' := snapshot_upsert tbl columns r t in snapshot_batch tbl columns rows' t'
  end.

(** The per-row retry after a failed batch: failing rows are skipped. *)
Fixpoint snapshot_each (tbl : string) (columns : list string) (rows : list fields) (t : table) (applied : nat)
    : table * nat :=
  match rows with
  | [] => (t, applied)
  | r :: rows' =>
      match snapshot_upsert tbl columns r t with
      | Ok t' => snapshot_each tbl columns rows' t' (S applied)
      | Throw _ => snapshot_each tbl columns rows' t applied
      end
  end.

Definition is_system_row (r : fields) : bool :=
  match fields_get "role" r with Some (JStr s) => seqb s "system" | _ => false end.

Definition applySnapshotRows (tbl : string) (rows : list fields) (db : sdb) : sdb * nat :=
  if negb (validateTableName tbl) then (db, 0%nat)
  else
    let applicable :=
      if seqb tbl "messages" then List.filter (λ r, negb (is_system_row r)) rows else rows in
    match heal tbl <$> applicable with
    | [] => (db, 0%nat)
    | (firstRow :: _) as healed =>
        let columns := firstRow.*1 in
        if negb (forallb valid_column_name columns) then (db, 0%nat)
        else
          match snapshot_batch tbl columns healed (table_of tbl db) with
          | Ok t => (with_table tbl t db, length healed)
          | Throw _ =>
              let '(t, applied) := snapshot_each tbl columns healed (table_of tbl db) 0 in
              (with_table tbl t db, applied)
          end
    end.

(** ** Column chunks *)

(** [col || ?]: NULL stays NULL, a number is rendered. *)
Definition sql_concat (v : json) (s : string) : json :=
  match v with
  | JStr t => JStr (t +:+ s)
  | JNum m e => JStr (of_chars (print_num m e) +:+ s)
  | _ => JNull
  end.

Definition applyColumnChunk (tbl pkValue columnName : string) (chunkIndex : nat) (chunkData : string)
    (db : sdb) : result sdb :=
  if negb (validateTableName tbl) then Ok db
  else if negb (valid_column_name columnName) then Ok db
  else
    let v := match chunkIndex with
             | O => JStr chunkData
             | S _ => sql_concat (match table_of tbl db !! pkValue with
                                  | Some r => column_value columnName r
                                  | None => JNull end) chunkData
             end in
    let! (t, _) := update_pk (sch tbl) (getPkColumn tbl) [(columnName, v)] pkValue (table_of tbl db) in
    Ok (with_table tbl t db).

Fixpoint apply_chunks (tbl pkValue columnName : string) (index : nat) (chunks : list string) (db : sdb)
    : result sdb :=
  match chunks with
  | [] => Ok db
  | c :: chunks' =>
      let! db' := applyColumnChunk tbl pkValue columnName index c db in
      apply_chunks tbl pkValue columnName (S index) chunks' db'
  end.
End Reducers.

(** ** Convergence of the last-writer-wins reducer *)

(** Assigning columns one after the other. *)
Definition write_all (sets : fields) (base : row) : row := foldl (λ r cv, <[cv.1 := cv.2]> r) base sets.

Lemma write_all_other sets base c : c ∉ sets.*1 → write_all sets base !! c = base !! c.
Proof.
  unfold write_all. revert base. induction sets as [|[c0 v0] sets IH]; intros base; simpl; [done|].
  rewrite not_elem_of_cons. intros [H1 H2]. rewrite IH by done. by apply lookup_insert_ne.
Qed.

Lemma write_all_lookup sets base c v :
  NoDup sets.*1 → (c, v) ∈ sets → write_all sets base !! c = Some v.
Proof.
  unfold write_all. revert base. induction sets as [|[c0 v0] sets IH]; intros base; simpl.
  { by intros _ ?%not_elem_of_nil. }
  intros [H1 H2]%NoDup_cons [[= -> ->]|Hin]%elem_of_cons; [|by apply IH].
  etransitivity; [by apply (write_all_other sets)|apply lookup_insert_eq].
Qed.

(** Columns the schema stores as they are given. *)
Definition storable (ts : table_schema) (sets : fields) : Prop :=
  ∀ c v, (c, v) ∈ sets → c ∈ ts_columns ts ∧ bind_value v = Some v ∧ ts_store ts c v = Some v.

Lemma existsb_elem c l : existsb (seqb c) l = true ↔ c ∈ l.
Proof.
  rewrite existsb_exists. split.
  - intros (x & Hx%list_elem_of_In & Heq%seqb_true). by subst.
  - intros Hx. exists c. by rewrite <-list_elem_of_In, seqb_refl.
Qed.

Lemma store_columns_storable ts sets base :
  storable ts sets → store_columns ts sets base = Ok (write_all sets base).
Proof.
  revert base. induction sets as [|[c v] sets IH]; intros base Hst; [done|]. cbn [store_columns].
  destruct (Hst c v) as (Hc & Hb & Hs); [left|]. apply existsb_elem in Hc as ->. simpl. rewrite Hb, Hs.
  apply IH. intros c' v' Hin. apply Hst. by right.
Qed.

Lemma check_sets_storable ts sets : storable ts sets → check_sets ts sets = Ok tt.
Proof.
  intros Hst. unfold check_sets.
  assert (forallb (λ kv, existsb (seqb kv.1) (ts_columns ts)) sets = true) as ->.
  { apply forallb_forall. intros [c v] Hin%list_elem_of_In. by apply existsb_elem, (Hst c v). }
  assert (forallb (λ kv : string * json, match bind_value kv.2 with Some _ => true | None => false end) sets = true) as ->.
  { apply forallb_forall. intros [c v] Hin%list_elem_of_In. simpl. by destruct (Hst c v Hin) as (_ & -> & _). }
  done.
Qed.

(** The data of an event that carries a whole row the schema accepts. *)
Record full_row (ts : table_schema) (pk : string) (data : fields) (k m : string) : Prop := {
  full_nodup : NoDup data.*1;
  full_columns : ∀ c, c ∈ data.*1 ↔ c ∈ ts_columns ts;
  full_names : Forall (λ c, valid_column_name c = true) data.*1;
  full_storable : storable ts data;
  full_check : ts_check ts (write_all data ∅) = true;
  full_key : (pk, JStr k) ∈ data;
  full_modified : ("modified_at", JStr m) ∈ data;
  full_modified_nonempty : nonempty m = true;
  full_pk : pk ≠ "modified_at"
}.

Lemma fields_get_NoDup {V} k (v : V) fs : NoDup fs.*1 → (k, v) ∈ fs → fields_get k fs = Some v.
Proof.
  induction fs as [|[k0 v0] fs IH]; simpl; [by intros _ ?%not_elem_of_nil|].
  intros [H1 H2]%NoDup_cons [[= -> ->]|Hin]%elem_of_cons; [by rewrite seqb_refl|].
  destruct (seqb k0 k) eqn:E; [|auto]. apply seqb_true in E as ->. exfalso. apply H1.
  apply list_elem_of_fmap. by exists (k, v).
Qed.

Lemma elem_of_fields_remove k (c : string) (v : json) fs : (c, v) ∈ fields_remove k fs ↔ (c, v) ∈ fs ∧ c ≠ k.
Proof. unfold fields_remove. rewrite filter_In_iff, negb_true_iff. simpl. by rewrite seqb_false. Qed.

Lemma fields_remove_keys k (c : string) (fs : fields) : c ∈ (fields_remove k fs).*1 ↔ c ∈ fs.*1 ∧ c ≠ k.
Proof.
  rewrite !list_elem_of_fmap. split.
  - intros ([c' v] & -> & [? ?]%elem_of_fields_remove). split; [by exists (c', v)|done].
  - intros [([c' v] & -> & Hin) Hne]. exists (c', v). by rewrite elem_of_fields_remove.
Qed.

(** The rows of the table: keyed, and without columns the schema lacks. *)
Definition table_ok (ts : table_schema) (pk : string) (t : table) : Prop :=
  ∀ k r, t !! k = Some r → r !! pk = Some (JStr k) ∧ ∀ c, is_Some (r !! c) → c ∈ ts_columns ts.

Section FullRows.
Context (ts : table_schema) (pk : string).

Lemma write_full data k m base :
  full_row ts pk data k m → (∀ c, is_Some (base !! c) → c ∈ ts_columns ts) →
  write_all data base = write_all data ∅.
Proof.
  intros Hf Hdom. apply map_eq. intros c.
  destruct (decide (c ∈ data.*1)) as [Hin|Hn].
  - apply list_elem_of_fmap in Hin as ([c' v] & -> & Hin).
    by rewrite !(write_all_lookup _ _ _ v) by (apply Hf || done).
  - rewrite !write_all_other by done. rewrite lookup_empty.
    apply eq_None_not_Some. intros H%Hdom. by apply Hn, (full_columns _ _ _ _ _ Hf).
Qed.

(** Overwriting all columns but the key of a row with that key. *)
Lemma write_full_update data k m old :
  full_row ts pk data k m → old !! pk = Some (JStr k) → (∀ c, is_Some (old !! c) → c ∈ ts_columns ts) →
  write_all (fields_remove pk data) old = write_all data ∅.
Proof.
  intros Hf Hpk Hdom. apply map_eq. intros c.
  assert (NoDup (fields_remove pk data).*1) as Hnd by (by apply NoDup_fmap_filter, Hf).
  destruct (decide (c = pk)) as [->|Hne].
  { rewrite write_all_other by (rewrite fields_remove_keys; naive_solver).
    by rewrite (write_all_lookup _ _ _ (JStr k)) by apply Hf. }
  destruct (decide (c ∈ data.*1)) as [Hin|Hn].
  - apply list_elem_of_fmap in Hin as ([c' v] & -> & Hin).
    rewrite !(write_all_lookup _ _ _ v); try done; [apply Hf|by apply elem_of_fields_remove].
  - rewrite !write_all_other; [|done|rewrite fields_remove_keys; naive_solver]. rewrite lookup_empty.
    apply eq_None_not_Some. intros H%Hdom. by apply Hn, (full_columns _ _ _ _ _ Hf).
Qed.

Lemma full_row_key data k m : full_row ts pk data k m →
  write_all data ∅ !! pk = Some (JStr k) ∧ write_all data ∅ !! "modified_at" = Some (JStr m) ∧
  ∀ c, is_Some (write_all data ∅ !! c) → c ∈ ts_columns ts.
Proof.
  intros Hf. split_and!; [apply write_all_lookup; apply Hf|apply write_all_lookup; apply Hf|].
  intros c Hc. destruct (decide (c ∈ data.*1)) as [Hin|Hn]; [by apply (full_columns _ _ _ _ _ Hf)|].
  rewrite write_all_other, lookup_empty in Hc by done. by destruct Hc.
Qed.

Lemma build_full data k m : full_row ts pk data k m → build_row ts data = Ok (write_all data ∅).
Proof.
  intros Hf. unfold build_row.
  assert (missing_columns ts data = []) as ->.
  { unfold missing_columns. rewrite filter_bool_none; [done|]. intros c Hc.
    apply negb_false_iff, existsb_elem. by apply (full_columns _ _ _ _ _ Hf). }
  rewrite app_nil_r, store_columns_storable by apply Hf. simpl. unfold check_row.
  by rewrite (full_check _ _ _ _ _ Hf).
Qed.

Lemma insert_full data k m t :
  full_row ts pk data k m → t !! k = None → unique_clash ts k (write_all data ∅) t = false →
  insert_abort ts pk data t = Ok (<[k := write_all data ∅]> t).
Proof.
  intros Hf Hk Hu. unfold insert_abort. rewrite (build_full data k m Hf). simpl.
  unfold row_key. destruct (full_row_key data k m Hf) as [-> _]. simpl. rewrite Hk. by apply put_row_ok.
Qed.

Lemma update_full data k m t old :
  full_row ts pk data k m → table_ok ts pk t → t !! k = Some old →
  unique_clash ts k (write_all data ∅) t = false →
  update_pk ts pk (fields_remove pk data) k t = Ok (<[k := write_all data ∅]> t, 1%nat).
Proof.
  intros Hf Ht Hk Hu. destruct (Ht _ _ Hk) as [Hpk Hdom]. unfold update_pk.
  assert (storable ts (fields_remove pk data)) as Hst.
  { intros c v [Hin _]%elem_of_fields_remove. by apply (full_storable _ _ _ _ _ Hf). }
  rewrite check_sets_storable by done. cbn [result_bind]. rewrite Hk.
  rewrite store_columns_storable by done. cbn [result_bind].
  rewrite (write_full_update data k m old Hf Hpk Hdom). unfold check_row, row_key.
  rewrite (full_check _ _ _ _ _ Hf). cbn [result_bind].
  destruct (full_row_key data k m Hf) as [-> _]. cbn [result_bind]. rewrite seqb_refl.
  assert (put_row ts k (write_all data ∅) t = Ok (<[k:=write_all data ∅]> t)) as ->; [|done].
  by apply put_row_ok.
Qed.

Lemma table_ok_insert data k m t :
  full_row ts pk data k m → table_ok ts pk t → table_ok ts pk (<[k := write_all data ∅]> t).
Proof.
  intros Hf Ht k' r [[<- <-]|[_ Hr]]%lookup_insert_Some; [|by apply Ht].
  destruct (full_row_key data k m Hf) as (? & _ & ?). done.
Qed.
End FullRows.

(** The merge the reducer computes on whole rows. *)
Definition stale (m : string) (old : row) : bool :=
  js_truthy (column_value "modified_at" old) && js_le (JStr m) (column_value "modified_at" old).
Definition lww_merge (k m : string) (new : row) (t : table) : table :=
  match t !! k with
  | Some old => if stale m old then t else <[k := new]> t
  | None => <[k := new]> t
  end.

(** A change-log event carrying a whole row of its table. *)
Definition full_event (sch : string → table_schema) (tbl : string) (e : ChangeLogEntry) (k m : string) (r : row) : Prop :=
  cl_table_name e = tbl ∧ fields_get tbl TABLE_REDUCER_MAP = Some LWW ∧
  ∃ parsed, parseReducerRowData e = Some parsed ∧
    full_row (sch tbl) (getPkColumn tbl) (heal tbl parsed) k m ∧ r = write_all (heal tbl parsed) ∅.

Lemma known_columns_full sch tbl pk data k m :
  full_row (sch tbl) pk data k m → known_columns sch tbl data = data.
Proof.
  intros Hf. unfold known_columns. apply filter_bool_all. intros [c v] Hin. simpl.
  assert (c ∈ data.*1) as Hc by (apply list_elem_of_fmap; by exists (c, v)).
  pose proof (full_names _ _ _ _ _ Hf) as Hn. rewrite Forall_forall in Hn. rewrite (Hn c Hc).
  by apply existsb_elem, (full_columns _ _ _ _ _ Hf).
Qed.

Lemma lww_tables tbl : fields_get tbl TABLE_REDUCER_MAP = Some LWW → seqb tbl "messages" = false.
Proof. intros H. apply seqb_false. intros ->. done. Qed.

Lemma applyLWW_full sch tbl e k m r db :
  full_event sch tbl e k m r → table_ok (sch tbl) (getPkColumn tbl) (table_of tbl db) →
  unique_clash (sch tbl) k r (table_of tbl db) = false →
  ∃ db' b, applyEvent sch e db = Ok (db', b) ∧
    table_of tbl db' = lww_merge k m r (table_of tbl db) ∧
    table_ok (sch tbl) (getPkColumn tbl) (table_of tbl db') ∧
    b = match table_of tbl db !! k with Some old => negb (stale m old) | None => true end.
Proof.
  intros (Htbl & Hlww & parsed & Hparse & Hf & Hr) Hok Hu. rewrite Hr in Hu. unfold applyEvent. rewrite Htbl, Hlww.
  unfold applyLWWReducer. rewrite Hparse, Htbl. set (data := heal tbl parsed) in *.
  assert (violatesMessageRoleInvariant tbl data = false) as ->.
  { unfold violatesMessageRoleInvariant. by rewrite lww_tables. }
  pose proof (fields_get_NoDup _ _ _ (full_nodup _ _ _ _ _ Hf) (full_key _ _ _ _ _ Hf)) as Hpk.
  pose proof (fields_get_NoDup _ _ _ (full_nodup _ _ _ _ _ Hf) (full_modified _ _ _ _ _ Hf)) as Hm.
  rewrite Hpk. cbv zeta. unfold key_param. cbn [result_bind].
  rewrite (known_columns_full sch tbl _ data k m Hf). unfold lww_merge.
  destruct (table_of tbl db !! k) as [old|] eqn:Hold; cbn [fmap option_fmap option_map].
  - rewrite Hm. unfold incoming_not_newer. rewrite Hm. cbn [present default from_option id andb js_truthy].
    rewrite (full_modified_nonempty _ _ _ _ _ Hf), andb_true_r. fold (stale m old).
    destruct (stale m old).
    + exists db, false. split_and!; done.
    + assert (length (fields_remove (getPkColumn tbl) data) =? 0 = false)%nat as ->.
      { apply Nat.eqb_neq. intros Hlen%length_zero_iff_nil.
        assert (("modified_at", JStr m) ∈ fields_remove (getPkColumn tbl) data) as Hin.
        { apply elem_of_fields_remove. split; [apply Hf|]. intros Heq. by apply (full_pk _ _ _ _ _ Hf). }
        rewrite Hlen in Hin. by apply not_elem_of_nil in Hin. }
      unfold update_applied. rewrite (update_full _ _ data k m _ old Hf Hok Hold Hu). cbn [result_bind].
      eexists _, true. rewrite table_of_with, Hr. split_and!; [done|done| |done].
      by eapply table_ok_insert.
  - assert (nonempty_insert data = Ok tt) as ->.
    { destruct data; [|done]. by apply (full_key _ _ _ _ _), elem_of_nil in Hf. }
    cbn [result_bind]. rewrite (insert_full _ _ data k m _ Hf Hold Hu).
    eexists _, true. rewrite table_of_with, Hr. split_and!; [done|done| |done].
    by eapply table_ok_insert.
Qed.

(** *** Commutation of the merge *)
(** A row with its key and its non-empty modification time. *)
Definition stamped (k m : string) (r : row) : Prop :=
  r !! "modified_at" = Some (JStr m) ∧ nonempty m = true.

Lemma stale_stamped m' k m r : stamped k m r → stale m' r = sleb m' m.
Proof. intros [Hm Hne]. unfold stale, column_value. rewrite Hm. simpl. by rewrite Hne. Qed.

(** A stale write stays stale behind a newer one. *)
Lemma stale_trans m1 m2 old : m1 ≤s m2 → stale m2 old = true → stale m1 old = true.
Proof.
  unfold stale. intros Hle. destruct (column_value "modified_at" old); simpl; try done.
  rewrite !andb_true_iff. intros [? ?]. split; [done|]. by eapply sleb_trans.
Qed.

Lemma lww_merge_comm k1 m1 r1 k2 m2 r2 t :
  stamped k1 m1 r1 → stamped k2 m2 r2 → (k1 = k2 → m1 = m2 → r1 = r2) →
  lww_merge k1 m1 r1 (lww_merge k2 m2 r2 t) = lww_merge k2 m2 r2 (lww_merge k1 m1 r1 t).
Proof.
  intros H1 H2 Hsame. destruct (decide (k1 = k2)) as [<-|Hne].
  - unfold lww_merge at 2 4.
    assert (∀ m r m' r', stamped k1 m r → stamped k1 m' r' → lww_merge k1 m' r' (<[k1:=r]> t) =
      if sleb m' m then <[k1:=r]> t else <[k1:=r']> t) as Hins.
    { intros m r m' r' Hs Hs'. unfold lww_merge. rewrite lookup_insert_eq, (stale_stamped m' k1 m r Hs).
      destruct (sleb m' m); [done|]. by rewrite insert_insert_eq. }
    assert ((if sleb m1 m2 then <[k1:=r2]> t else <[k1:=r1]> t) =
            (if sleb m2 m1 then <[k1:=r1]> t else <[k1:=r2]> t)) as Hboth.
    { destruct (sleb m1 m2) eqn:E1, (sleb m2 m1) eqn:E2; [|done|done|].
      - by rewrite (Hsame eq_refl (sleb_antisym _ _ E1 E2)).
      - exfalso. assert (m2 ≤s m1); [|congruence].
        apply sltb_sleb_weak. by rewrite sltb_sleb, E1. }
    destruct (t !! k1) as [old|] eqn:Ht;
      [|by rewrite (Hins m2 r2 m1 r1), (Hins m1 r1 m2 r2) by done].
    destruct (stale m2 old) eqn:S2, (stale m1 old) eqn:S1.
    + unfold lww_merge. by rewrite Ht, S1, S2.
    + rewrite (Hins m1 r1 m2 r2) by done. unfold lww_merge. rewrite Ht, S1.
      destruct (sleb m2 m1) eqn:E; [done|]. exfalso.
      assert (m1 ≤s m2) as Hle by (apply sltb_sleb_weak; by rewrite sltb_sleb, E).
      by rewrite (stale_trans _ _ _ Hle S2) in S1.
    + rewrite (Hins m2 r2 m1 r1) by done. unfold lww_merge. rewrite Ht, S2.
      destruct (sleb m1 m2) eqn:E; [done|]. exfalso.
      assert (m2 ≤s m1) as Hle by (apply sltb_sleb_weak; by rewrite sltb_sleb, E).
      by rewrite (stale_trans _ _ _ Hle S1) in S2.
    + by rewrite (Hins m2 r2 m1 r1), (Hins m1 r1 m2 r2) by done.
  - unfold lww_merge.
    destruct (t !! k1) as [o1|] eqn:E1, (t !! k2) as [o2|] eqn:E2;
      repeat (match goal with |- context [stale ?m ?o] => destruct (stale m o) eqn:? end;
              rewrite ?lookup_insert_ne, ?E1, ?E2 by done);
      rewrite ?lookup_insert_ne, ?E1, ?E2 by done;
      repeat (match goal with H : stale ?m ?o = _ |- context [stale ?m ?o] => rewrite H end);
      try done; by rewrite insert_insert_ne.
Qed.

(** Replaying a list of events, without the log. *)
Fixpoint apply_events (sch : string → table_schema) (es : list ChangeLogEntry) (db : sdb) : result sdb :=
  match es with
  | [] => Ok db
  | e :: es' => let! (db', _) := applyEvent sch e db in apply_events sch es' db'
  end.

(** The whole rows a list of events carries. *)
Definition carries (sch : string → table_schema) (tbl : string)
    (e : ChangeLogEntry) (kmr : string * string * row) : Prop :=
  full_event sch tbl e kmr.1.1 kmr.1.2 kmr.2.

Definition merge_all (rows : list (string * string * row)) (t : table) : table :=
  foldl (λ t kmr, lww_merge kmr.1.1 kmr.1.2 kmr.2 t) t rows.

(** No two rows with different keys, among those of a table and those the
    events carry, hold the same value of a UNIQUE index. *)
Definition names_apart (ts : table_schema) (rows : list (string * string * row)) (t : table) : Prop :=
  let known k r := t !! k = Some r ∨ ∃ m, (k, m, r) ∈ rows in
  ∀ k r k' r', known k r → known k' r' → k ≠ k' → unique_conflict ts r r' = false.

Lemma lww_merge_known k m r t k' r' : lww_merge k m r t !! k' = Some r' → t !! k' = Some r' ∨ (k' = k ∧ r' = r).
Proof.
  unfold lww_merge. destruct (t !! k) as [old|]; [destruct (stale m old); [by left|]|];
    (intros [[<- <-]|[_ ?]]%lookup_insert_Some; [by right|by left]).
Qed.
Lemma names_apart_step ts k m r rows t :
  names_apart ts ((k, m, r) :: rows) t → unique_clash ts k r t = false ∧ names_apart ts rows (lww_merge k m r t).
Proof.
  intros H. split.
  - apply unique_clash_none. intros k' r' Hr' Hne. apply (H k r k' r'); [right; exists m; by left|by left|done].
  - intros k1 r1 k2 r2 H1 H2. apply H.
    + destruct H1 as [[?|[-> ->]]%lww_merge_known|[m1 ?]]; [by left|right; exists m; by left|right; exists m1; by right].
    + destruct H2 as [[?|[-> ->]]%lww_merge_known|[m2 ?]]; [by left|right; exists m; by left|right; exists m2; by right].
Qed.
Lemma names_apart_perm ts rows rows' t : rows ≡ₚ rows' → names_apart ts rows t → names_apart ts rows' t.
Proof.
  intros Hp H k r k' r' H1 H2. apply H.
  - destruct H1 as [?|[m ?]]; [by left|right; exists m; by rewrite Hp].
  - destruct H2 as [?|[m ?]]; [by left|right; exists m; by rewrite Hp].
Qed.

Lemma names_apart_app ts rows1 rows2 t :
  names_apart ts (rows1 ++ rows2) t → names_apart ts rows1 t ∧ names_apart ts rows2 (merge_all rows1 t).
Proof.
  intros H. split.
  - intros k1 r1 k2 r2 H1 H2. apply H;
      [destruct H1 as [?|[m ?]]|destruct H2 as [?|[m ?]]]; (by left) || (right; exists m; apply elem_of_app; by left).
  - revert t H. induction rows1 as [|[[k m] r] rows1 IH]; intros t H; [done|]. apply names_apart_step in H as [_ H].
    by apply IH.
Qed.

Lemma apply_events_merge sch tbl es rows db :
  Forall2 (carries sch tbl) es rows → table_ok (sch tbl) (getPkColumn tbl) (table_of tbl db) →
  names_apart (sch tbl) rows (table_of tbl db) →
  ∃ db', apply_events sch es db = Ok db' ∧ table_of tbl db' = merge_all rows (table_of tbl db).
Proof.
  intros H. revert db. induction H as [|e [[k m] r] es rows He Hes IH]; intros db Hok Hap; [by exists db|].
  cbn [apply_events]. apply names_apart_step in Hap as [Hu Hap].
  destruct (applyLWW_full sch tbl e k m r db He Hok Hu) as (db1 & b & -> & Ht & Hok1 & _).
  rewrite <-Ht in Hap. cbn [result_bind]. destruct (IH db1 Hok1 Hap) as (db2 & -> & Ht2). exists db2. split; [done|].
  by rewrite Ht2, Ht.
Qed.

Lemma full_event_stamped sch tbl e k m r : full_event sch tbl e k m r → stamped k m r.
Proof.
  intros (_ & _ & parsed & _ & Hf & ->). destruct (full_row_key _ _ _ _ _ Hf) as (_ & Hm & _).
  split; [done|]. apply (full_modified_nonempty _ _ _ _ _ Hf).
Qed.

(** Rows of one key and one modification time are the same row. *)
Definition tie_free (rows : list (string * string * row)) : Prop :=
  ∀ a b, a ∈ rows → b ∈ rows → a.1 = b.1 → a.2 = b.2.

Lemma merge_all_perm rows rows' t :
  rows ≡ₚ rows' → tie_free rows → Forall (λ a, stamped a.1.1 a.1.2 a.2) rows →
  merge_all rows t = merge_all rows' t.
Proof.
  intros Hp. revert t. induction Hp as [|a rows rows' Hp IH|[[k1 m1] r1] [[k2 m2] r2] rows|rows1 rows2 rows3 Hp1 IH1 Hp2 IH2];
    intros t Htf Hst; [done| | |].
  - apply Forall_cons in Hst as [_ Hst]. apply IH; [|done].
    intros x y Hx Hy. apply Htf; by right.
  - apply Forall_cons in Hst as [H2 [H1 _]%Forall_cons]. simpl in H1, H2.
    unfold merge_all. cbn [foldl]. simpl. f_equal. apply lww_merge_comm; [done..|].
    intros -> ->. apply (Htf (k2, m2, r1) (k2, m2, r2)); set_solver.
  - rewrite IH1 by done. apply IH2; [|by rewrite <-Hp1].
    intros x y Hx Hy. apply Htf; by rewrite Hp1.
Qed.

(** C10: last-writer-wins replication converges: two replicas that hold the same
    table and receive the same whole-row events in different orders end with
    the same table, provided no two events give one row different contents at
    the same modification time, and no two rows with different keys, of the
    table or of the events, hold the same value of a UNIQUE index (the name of a
    memory, file, skill, edge, webhook or feed).  No reordering makes an event
    fail.  Without the second proviso replicas diverge ([one_name_diverges]). *)
Theorem lww_converges sch tbl es es' rows rows' db1 db2 :
  Forall2 (carries sch tbl) es rows → Forall2 (carries sch tbl) es' rows' → rows ≡ₚ rows' →
  tie_free rows → table_of tbl db1 = table_of tbl db2 →
  table_ok (sch tbl) (getPkColumn tbl) (table_of tbl db1) →
  names_apart (sch tbl) rows (table_of tbl db1) →
  ∃ d1 d2, apply_events sch es db1 = Ok d1 ∧ apply_events sch es' db2 = Ok d2 ∧
    table_of tbl d1 = table_of tbl d2.
Proof.
  intros H1 H2 Hp Htf Heq Hok Hap.
  destruct (apply_events_merge sch tbl es rows db1 H1 Hok Hap) as (d1 & Hd1 & Ht1).
  apply (names_apart_perm _ _ _ _ Hp) in Hap. rewrite Heq in Hok, Hap.
  destruct (apply_events_merge sch tbl es' rows' db2 H2 Hok Hap) as (d2 & Hd2 & Ht2).
  exists d1, d2. split_and!; [done..|]. rewrite Ht1, Ht2, Heq.
  apply merge_all_perm; [done..|]. clear -H1.
  induction H1 as [|e [[k m] r] es rows He _ IH]; constructor; [|done].
  simpl. by eapply full_event_stamped.
Qed.

(** *** Witness events on a small schema *)
Definition thread_columns : list string := ["id"; "content"; "modified_at"].
Definition thread_schema (tbl : string) : table_schema :=
  MkSchema thread_columns (λ _, JNull) (λ _ v, Some v) (λ _, true) (unique_indexes tbl).
Definition thread_data (id content m : string) : fields :=
  [("id", JStr id); ("content", JStr content); ("modified_at", JStr m)].
Definition thread_event (id content m hlc : string) : ChangeLogEntry :=
  MkChange hlc "threads" id "s2" m (json_stringify (JObj (thread_data id content m))).
Definition thread_row (id content m : string) : row := write_all (thread_data id content m) ∅.

Lemma thread_full id content m :
  nonempty m = true → full_row (thread_schema "threads") "id" (thread_data id content m) id m.
Proof.
  intros Hm. split; try done.
  - simpl. repeat (apply NoDup_cons; split; [set_solver|]). by apply NoDup_nil_2.
  - by repeat constructor.
  - intros c v Hin. unfold thread_data in Hin. simpl. split_and!.
    + repeat (apply elem_of_cons in Hin as [[= -> ->]|Hin]); [set_solver..|by apply not_elem_of_nil in Hin].
    + repeat (apply elem_of_cons in Hin as [[= -> ->]|Hin]); [done..|by apply not_elem_of_nil in Hin].
    + done.
  - left.
  - right; right; left.
Qed.

Lemma thread_event_full id content m hlc :
  nonempty m = true → full_event thread_schema "threads" (thread_event id content m hlc) id m (thread_row id content m).
Proof.
  intros Hm. split; [done|]. split; [done|]. exists (thread_data id content m).
  split; [|split; [by apply thread_full|done]].
  unfold parseReducerRowData. simpl cl_table_name. change (validateTableName "threads") with true.
  unfold thread_event. simpl cl_row_data. rewrite json_roundtrip; [done|].
  split; [|done]. apply (full_nodup _ _ _ _ _ (thread_full id content m Hm)).
Qed.

Lemma lww_converges_witness :
  let e1 := thread_event "a" "old" "2026-01-01" "h1" in
  let e2 := thread_event "a" "new" "2026-01-02" "h2" in
  ∃ d1 d2, apply_events thread_schema [e1; e2] (MkSdb ∅ []) = Ok d1 ∧
    apply_events thread_schema [e2; e1] (MkSdb ∅ []) = Ok d2 ∧
    table_of "threads" d1 = table_of "threads" d2.
Proof.
  apply (lww_converges thread_schema "threads" _ _
    [("a", "2026-01-01", thread_row "a" "old" "2026-01-01"); ("a", "2026-01-02", thread_row "a" "new" "2026-01-02")]
    [("a", "2026-01-02", thread_row "a" "new" "2026-01-02"); ("a", "2026-01-01", thread_row "a" "old" "2026-01-01")]).
  - constructor; [exact (thread_event_full "a" "old" "2026-01-01" "h1" eq_refl)|].
    constructor; [exact (thread_event_full "a" "new" "2026-01-02" "h2" eq_refl)|constructor].
  - constructor; [exact (thread_event_full "a" "new" "2026-01-02" "h2" eq_refl)|].
    constructor; [exact (thread_event_full "a" "old" "2026-01-01" "h1" eq_refl)|constructor].
  - apply Permutation_swap.
  - intros a b Ha Hb. rewrite !elem_of_cons, elem_of_nil in Ha, Hb.
    destruct Ha as [-> |[-> |[]]], Hb as [-> |[-> |[]]]; simpl; congruence.
  - reflexivity.
  - intros k r Hk. change (table_of "threads" (MkSdb ∅ [])) with (∅ : table) in Hk.
    by rewrite lookup_empty in Hk.
  - intros k r k' r' _ _ _. reflexivity.
Defined.

(** Two live skills with one name and different ids, made on hosts that did not
    know of each other: whichever a replica receives first keeps the name, and
    the other is refused there for good. *)
Definition named_schema (tbl : string) : table_schema :=
  MkSchema ["id"; "name"; "modified_at"; "deleted"] (λ _, JNull) (λ _ v, Some v) (λ _, true) (unique_indexes tbl).
Definition skill_event (id name m hlc : string) : ChangeLogEntry :=
  MkChange hlc "skills" id "s2" m
    (json_stringify (JObj [("id", JStr id); ("name", JStr name); ("modified_at", JStr m); ("deleted", JInt 0)])).
Definition skill_ids (es : list ChangeLogEntry) : option (list (option string)) :=
  match apply_events named_schema es (MkSdb ∅ []) with
  | Ok d => Some ((λ kr, as_string (kr.2 !! "id")) <$> map_to_list (table_of "skills" d))
  | Throw _ => None
  end.
Example one_name_diverges :
  let e1 := skill_event "a" "deploy" "2026-01-01" "h1" in
  let e2 := skill_event "b" "deploy" "2026-01-02" "h2" in
  skill_ids [e1; e2; e1; e2] = Some [Some "a"] ∧ skill_ids [e2; e1; e2; e1] = Some [Some "b"].
Proof. split; vm_compute; reflexivity. Qed.
(** An event that renames a row onto a name in use throws out of the reducer, so
    the batch it came in is rolled back. *)
Example rename_onto_fails :
  skill_ids [skill_event "a" "deploy" "2026-01-01" "h1"; skill_event "b" "build" "2026-01-01" "h2";
             skill_event "b" "deploy" "2026-01-02" "h3"] = None.
Proof. vm_compute. reflexivity. Qed.
