(* ===== verification/Replication.v ===== *)
(** * Replication (packages/sync/src/reducers.ts)

    What the reducers of [Reducers] guarantee of a replica: the message-role
    invariant across every apply path, the bookkeeping of a replayed batch, ties
    of the last-writer-wins order, snapshots that never regress a row, and the
    reassembly of chunked columns. *)
From S2P Require Import Prelude Json Hlc Store ChangeLog Relations Reducers.

(** ** A column that never takes a value *)
Section Avoid.
Context (ts : table_schema) (c : string) (x : json).

(** No row of the table has [x] in column [c]. *)
Definition avoids (t : table) : Prop := ∀ k r, t !! k = Some r → r !! c ≠ Some x.

(** Storing anything but [x] does not make an [x]. *)
Definition faithful : Prop := ∀ v, ts_store ts c v = Some x → v = x.

(** The assignments of [c] bind something else than [x]. *)
Definition sets_avoid (sets : fields) : Prop := ∀ v, (c, v) ∈ sets → bind_value v ≠ Some x.

Lemma store_columns_avoid sets base r :
  faithful → sets_avoid sets → base !! c ≠ Some x → store_columns ts sets base = Ok r → r !! c ≠ Some x.
Proof.
  intros Hf. revert base. induction sets as [|[c0 v0] sets IH]; intros base Hs Hb; simpl; [by intros [= <-]|].
  destruct (negb _); [done|]. destruct (bind_value v0) as [b|] eqn:Eb; [|done].
  destruct (ts_store ts c0 b) as [s|] eqn:Es; [|done]. apply IH; [intros v Hv; apply Hs; by right|].
  destruct (decide (c0 = c)) as [->|Hne]; [|by rewrite lookup_insert_ne].
  rewrite lookup_insert_eq. intros [= ->]. apply Hf in Es as ->.
  apply (Hs v0); [by left|done].
Qed.

Lemma avoids_insert t k r : avoids t → r !! c ≠ Some x → avoids (<[k := r]> t).
Proof. intros Ht Hr k' r' [[_ <-]|[_ ?]]%lookup_insert_Some; [done|by apply (Ht k')]. Qed.
Lemma avoids_delete t k : avoids t → avoids (delete k t).
Proof. intros Ht k' r' [_ ?]%lookup_delete_Some. by apply (Ht k'). Qed.

Lemma build_row_avoid cols r :
  faithful → sets_avoid cols → bind_value (ts_default ts c) ≠ Some x → build_row ts cols = Ok r → r !! c ≠ Some x.
Proof.
  intros Hf Hs Hd. unfold build_row, check_row.
  destruct (store_columns ts _ ∅) as [r'|] eqn:E; [|done]. simpl.
  destruct (ts_check ts r'); [|done]. intros [= <-].
  eapply store_columns_avoid; [done| |by rewrite lookup_empty|exact E].
  intros v [Hin|Hin]%elem_of_app; [by apply Hs|].
  unfold missing_columns in Hin. apply list_elem_of_fmap in Hin as (c' & [= <- ->] & _). done.
Qed.

Lemma update_pk_avoid pk sets k t t' n :
  faithful → sets_avoid sets → avoids t → update_pk ts pk sets k t = Ok (t', n) → avoids t'.
Proof.
  intros Hf Hs Ht [(_ & -> & _)|(old & r & k' & _ & Hold & Hst & _ & _ & H)]%update_pk_spec; [done|].
  assert (r !! c ≠ Some x) as Hr by (eapply store_columns_avoid; [done..|by apply (Ht k)|exact Hst]).
  destruct H as [[_ ->]|(_ & _ & ->)]; apply avoids_insert; auto using avoids_delete.
Qed.

Lemma insert_ignore_avoid pk cols t t' n :
  faithful → sets_avoid cols → bind_value (ts_default ts c) ≠ Some x → avoids t →
  insert_ignore_pk ts pk cols t = Ok (t', n) → avoids t'.
Proof.
  intros Hf Hs Hd Ht. unfold insert_ignore_pk. destruct (build_row ts cols) as [r|] eqn:Er; [|done]. simpl.
  destruct (row_key pk r) as [k|]; [|done]. simpl. destruct (t !! k); [by intros [= <- _]|].
  destruct (put_row ts k r t) as [t1|] eqn:Ep; [|done]. apply put_row_ok in Ep as [_ ->]. intros [= <- _].
  apply avoids_insert; [done|]. by eapply build_row_avoid.
Qed.

Lemma insert_abort_avoid pk cols t t' :
  faithful → sets_avoid cols → bind_value (ts_default ts c) ≠ Some x → avoids t →
  insert_abort ts pk cols t = Ok t' → avoids t'.
Proof.
  intros Hf Hs Hd Ht. unfold insert_abort. destruct (build_row ts cols) as [r|] eqn:Er; [|done]. simpl.
  destruct (row_key pk r) as [k|]; [|done]. simpl. destruct (t !! k); [done|]. intros [_ ->]%put_row_ok.
  apply avoids_insert; [done|]. by eapply build_row_avoid.
Qed.

Lemma upsert_avoid pk cols sets newer t t' :
  faithful → sets_avoid cols → sets_avoid sets → bind_value (ts_default ts c) ≠ Some x → avoids t →
  upsert_pk ts pk cols sets newer t = Ok t' → avoids t'.
Proof.
  intros Hf Hc Hs Hd Ht. unfold upsert_pk. destruct (build_row ts cols) as [r|] eqn:Er; [|done]. simpl.
  destruct (row_key pk r) as [k|]; [|done]. simpl. destruct (t !! k) as [old|].
  - destruct (newer r old); [|by intros [= <-]].
    destruct (update_pk ts pk sets k t) as [[t1 n]|] eqn:Eu; [|done]. simpl. intros [= <-].
    exact (update_pk_avoid pk sets k t t1 n Hf Hs Ht Eu).
  - intros [_ ->]%put_row_ok. apply avoids_insert; [done|]. exact (build_row_avoid cols r Hf Hc Hd Er).
Qed.
End Avoid.

(** ** Messages never carry the role [system] *)
Definition system : json := JStr "system".

(** The messages table neither defaults to the role nor turns another value
    into it. *)
Definition role_schema (ts : table_schema) : Prop :=
  faithful ts "role" system ∧ bind_value (ts_default ts "role") ≠ Some system.

Definition no_system (db : sdb) : Prop := avoids "role" system (table_of "messages" db).

Lemma no_system_with tbl t db :
  no_system db → (tbl = "messages" → avoids "role" system t) → no_system (with_table tbl t db).
Proof.
  intros Hn Ht. unfold no_system, table_of, with_table. simpl.
  destruct (decide (tbl = "messages")) as [->|Hne].
  - rewrite lookup_insert_eq. by apply Ht.
  - by rewrite lookup_insert_ne.
Qed.

(** A row that passes the guard sets no such role. *)
Lemma guard_sets_avoid rowData cols :
  NoDup rowData.*1 → violatesMessageRoleInvariant "messages" rowData = false →
  (∀ cv, cv ∈ cols → cv ∈ rowData) → sets_avoid "role" system cols.
Proof.
  intros Hnd Hv Hsub v Hin Hb. apply Hsub in Hin. pose proof (fields_get_NoDup _ _ _ Hnd Hin) as Hg.
  unfold violatesMessageRoleInvariant in Hv. rewrite Hg in Hv.
  destruct v; simpl in Hb; try done. injection Hb as ->. done.
Qed.

Lemma parseReducerRowData_nodup e rowData : parseReducerRowData e = Some rowData → NoDup rowData.*1.
Proof.
  unfold parseReducerRowData. destruct (negb _); [done|].
  destruct (json_parse (cl_row_data e)) as [[]|] eqn:E; try done. intros [= ->].
  by eapply json_parse_nodup.
Qed.

Section MessageRoles.
Context (sch : string → table_schema) (Hsch : role_schema (sch "messages")).

Lemma appendOnly_no_system e db db' b :
  no_system db → applyAppendOnlyReducer sch e db = Ok (db', b) → no_system db'.
Proof using Hsch.
  destruct Hsch as [Hf Hd]. intros Hn. unfold applyAppendOnlyReducer.
  destruct (parseReducerRowData e) as [rowData|] eqn:Ep; [|by intros [= <- _]].
  pose proof (parseReducerRowData_nodup _ _ Ep) as Hnd.
  destruct (violatesMessageRoleInvariant _ _) eqn:Ev; [by intros [= <- _]|].
  destruct (negb _); [by intros [= <- _]|].
  assert (∀ r, insert_or_nothing sch (cl_table_name e) rowData db = Ok r → no_system r.1) as Hins.
  { intros [db1 b1]. unfold insert_or_nothing. destruct (nonempty_insert rowData); [|done]. cbn [result_bind].
    destruct (insert_ignore_pk _ _ _ _) as [[t n]|] eqn:Ei; [|done]. intros [= <- <-].
    apply no_system_with; [done|]. intros Heq. rewrite Heq in *.
    eapply insert_ignore_avoid; [exact Hf| |exact Hd|exact Hn|exact Ei]. by eapply guard_sets_avoid. }
  destruct (present _); [|intros H; exact (Hins _ H)].
  destruct (key_param _) as [k|]; [|done]. cbn [result_bind].
  destruct (match k with Some k => _ | None => None end) as [[k0 old]|]; [|intros H; exact (Hins _ H)].
  destruct (incoming_not_newer _ _); [by intros [= <- _]|]. unfold update_applied.
  destruct (update_pk _ _ _ _ _) as [[t n]|] eqn:Eu; [|done]. intros [= <- _].
  apply no_system_with; [done|]. intros Heq. rewrite Heq in *.
  eapply update_pk_avoid; [exact Hf| |exact Hn|exact Eu]. eapply guard_sets_avoid; [done..|].
  intros cv [? _]%filter_In_iff. done.
Qed.

Lemma lww_no_system e db db' b :
  no_system db → applyLWWReducer sch e db = Ok (db', b) → no_system db'.
Proof using Hsch.
  destruct Hsch as [Hf Hd]. intros Hn. unfold applyLWWReducer.
  destruct (parseReducerRowData e) as [parsed|] eqn:Ep; [|by intros [= <- _]].
  pose proof (parseReducerRowData_nodup _ _ Ep) as Hnd. cbv zeta.
  destruct (violatesMessageRoleInvariant _ _) eqn:Ev; [by intros [= <- _]|].
  assert (∀ cols, cl_table_name e = "messages" →
    (∀ cv, cv ∈ cols → cv ∈ known_columns sch (cl_table_name e) (heal (cl_table_name e) parsed)) →
    sets_avoid "role" system cols) as Hcols.
  { intros cols Heq Hsub. rewrite Heq in *. change (heal "messages" parsed) with parsed in *.
    eapply guard_sets_avoid; [done..|]. intros cv [? _]%Hsub%filter_In_iff. done. }
  destruct (key_param _) as [k|]; [|done]. cbn [result_bind].
  destruct (match k with Some k => _ | None => None end) as [[k0 old]|].
  - destruct (_ && _); [by intros [= <- _]|]. destruct (_ =? _)%nat; [by intros [= <- _]|].
    unfold update_applied. destruct (update_pk _ _ _ _ _) as [[t n]|] eqn:Eu; [|done]. intros [= <- _].
    apply no_system_with; [done|]. intros Heq. 
    assert (sch (cl_table_name e) = sch "messages") as Hs by by rewrite Heq.
    rewrite Hs in Eu. rewrite Heq in Eu at 2.
    eapply update_pk_avoid; [exact Hf| | |exact Eu].
    + apply Hcols; [done|]. intros cv [? _]%filter_In_iff. done.
    + rewrite Heq. exact Hn.
  - destruct (let! _ := _ in _) as [t|] eqn:Ei; intros [= <- _]; [|done].
    apply no_system_with; [done|]. intros Heq.
    destruct (nonempty_insert _); [|done]. cbn [result_bind] in Ei.
    assert (sch (cl_table_name e) = sch "messages") as Hs by by rewrite Heq.
    rewrite Hs in Ei.
    eapply insert_abort_avoid; [exact Hf| |exact Hd| |exact Ei].
    + by apply Hcols.
    + rewrite Heq. exact Hn.
Qed.

Lemma applyEvent_no_system e db db' b : no_system db → applyEvent sch e db = Ok (db', b) → no_system db'.
Proof using Hsch.
  unfold applyEvent. destruct (fields_get _ _) as [[]|]; eauto using appendOnly_no_system, lww_no_system.
Qed.

End MessageRoles.

Lemma create_tables now tbl rid site data remote w w' h :
  createChangeLogEntry now tbl rid site data remote w = (w', Ok h) →
  tables (w_db w') = tables (w_db w) ∧ change_log (w_db w') =
    change_log (w_db w) ++ [MkChange h tbl rid site now (json_stringify (JObj data))].
Proof.
  unfold createChangeLogEntry, bind, get_db, put_db, ret, throw. cbv zeta.
  destruct (existsb _ _); [done|]. by intros [= <- <-].
Qed.

Lemma replay_one_no_system sch now e s s' :
  role_schema (sch "messages") → no_system (rp_db s) → replay_one sch now e s = Ok s' → no_system (rp_db s').
Proof.
  intros Hsch Hn. unfold replay_one. destruct (parseReducerRowData e) as [rowData|]; [|by intros [= <-]].
  destruct (applyEvent sch e (rp_db s)) as [[db b]|] eqn:Ea; [|done]. cbn [result_bind].
  pose proof (applyEvent_no_system sch Hsch _ _ _ _ Hn Ea) as Hdb.
  destruct b; [|by intros [= <-]].
  destruct (createChangeLogEntry _ _ _ _ _ _ _) as [w [h|]] eqn:Ec; [|done]. intros [= <-]. simpl.
  apply create_tables in Ec as [Ht _]. unfold no_system, table_of in *. by rewrite Ht.
Qed.

Lemma replay_no_system sch now es s s' :
  role_schema (sch "messages") → no_system (rp_db s) → replay_loop sch now es s = Ok s' → no_system (rp_db s').
Proof.
  intros Hsch. revert now s. induction es as [|e es IH]; intros now s Hn; simpl; [by intros [= <-]|].
  destruct (replay_one sch (now 0%nat) e s) as [s1|] eqn:E1; [|done]. cbn [result_bind].
  apply IH. by eapply replay_one_no_system.
Qed.

(** A snapshot row binds what it carries. *)
Lemma snapshot_sets_avoid columns r :
  is_system_row r = false → sets_avoid "role" system (coerceRowValues columns r).
Proof.
  unfold is_system_row, coerceRowValues. intros Hr v Hin Hb.
  apply list_elem_of_fmap in Hin as (c & [= <- ->] & _).
  destruct (fields_get "role" r) as [[]|]; simpl in Hb; try done. injection Hb as ->. done.
Qed.

Lemma snapshot_upsert_no_system sch columns r t t' :
  role_schema (sch "messages") → is_system_row r = false → avoids "role" system t →
  snapshot_upsert sch "messages" columns r t = Ok t' → avoids "role" system t'.
Proof.
  intros [Hf Hd] Hr Ht. unfold snapshot_upsert. cbv zeta.
  destruct (nonempty_insert _); [|done]. cbn [result_bind]. intros Hu.
  pose proof (snapshot_sets_avoid columns r Hr) as Hs.
  eapply (upsert_avoid (sch "messages")); [exact Hf|exact Hs| |exact Hd|exact Ht|exact Hu].
  intros v [Hin _]%elem_of_fields_remove. by apply Hs.
Qed.

Lemma snapshot_batch_no_system sch columns rows t t' :
  role_schema (sch "messages") → Forall (λ r, is_system_row r = false) rows → avoids "role" system t →
  snapshot_batch sch "messages" columns rows t = Ok t' → avoids "role" system t'.
Proof.
  intros Hsch Hrows. revert t. induction Hrows as [|r rows Hr _ IH]; intros t Ht; simpl; [by intros [= <-]|].
  destruct (snapshot_upsert _ _ _ _ _) as [t1|] eqn:E; [|done]. cbn [result_bind].
  apply IH. by eapply snapshot_upsert_no_system.
Qed.

Lemma snapshot_each_no_system sch columns rows t n :
  role_schema (sch "messages") → Forall (λ r, is_system_row r = false) rows → avoids "role" system t →
  avoids "role" system (snapshot_each sch "messages" columns rows t n).1.
Proof.
  intros Hsch Hrows. revert t n. induction Hrows as [|r rows Hr _ IH]; intros t n Ht; simpl; [done|].
  destruct (snapshot_upsert _ _ _ _ _) as [t1|] eqn:E; apply IH; [|done].
  by eapply snapshot_upsert_no_system.
Qed.

Lemma heal_messages (rows : list fields) : heal "messages" <$> rows = rows.
Proof. apply list_fmap_id. Qed.

Lemma snapshot_no_system sch tbl rows db :
  role_schema (sch "messages") → no_system db → no_system (applySnapshotRows sch tbl rows db).1.
Proof.
  intros Hsch Hn. unfold applySnapshotRows. destruct (negb _); [done|]. cbv zeta.
  destruct (decide (tbl = "messages")) as [->|Hne].
  - rewrite seqb_refl, heal_messages.
    assert (Forall (λ r, is_system_row r = false) (List.filter (λ r, negb (is_system_row r)) rows)) as Hall.
    { apply Forall_forall. intros r [_ ?%negb_true_iff]%filter_In_iff. done. }
    destruct (List.filter _ rows) as [|r0 rows0] eqn:Erows; [done|].
    destruct (negb _); [done|].
    destruct (snapshot_batch sch "messages" r0.*1 (r0 :: rows0) (table_of "messages" db)) as [t|] eqn:Eb.
    + apply no_system_with; [done|]. intros _. eapply snapshot_batch_no_system; [exact Hsch|exact Hall|exact Hn|exact Eb].
    + pose proof (snapshot_each_no_system sch r0.*1 (r0 :: rows0) (table_of "messages" db) 0 Hsch Hall Hn) as He.
      destruct (snapshot_each _ _ _ _ _ _) as [t n]. apply no_system_with; done.
  - rewrite (proj2 (seqb_false tbl "messages")) by done.
    destruct (heal tbl <$> rows) as [|r0 rows0]; [done|]. destruct (negb _); [done|].
    assert (∀ t, no_system (with_table tbl t db)) as Hother by (intros t; apply no_system_with; [done|congruence]).
    destruct (snapshot_batch _ _ _ _ _); [apply Hother|]. destruct (snapshot_each _ _ _ _ _ _). apply Hother.
Qed.

(** the message-role invariant: a replica whose messages table holds no row
    of role [system] holds none after replaying any batch of remote events,
    malformed and failing ones included, nor after applying any snapshot chunk,
    on a schema that stores roles as they are given. *)
Theorem messages_never_system sch now es tbl rows db :
  role_schema (sch "messages") → no_system db →
  no_system (replayEvents sch now es db).1 ∧ no_system (applySnapshotRows sch tbl rows db).1.
Proof.
  intros Hsch Hn. split; [|by apply snapshot_no_system].
  unfold replayEvents. destruct (replay_loop sch now es _) as [s|] eqn:E; [|done].
  by eapply (replay_no_system sch now es (MkReplay db 0 0 [] [])).
Qed.

Definition message_schema (tbl : string) : table_schema :=
  MkSchema ["id"; "role"; "content"; "modified_at"] (λ _, JNull) (λ _ v, Some v) (λ _, true) (unique_indexes tbl).
Definition message_event (id role hlc : string) : ChangeLogEntry :=
  MkChange hlc "messages" id "s2" "t" (json_stringify (JObj [("id", JStr id); ("role", JStr role)])).
Definition message_clock (n : nat) : string := "2026-01-01T00:00:00.000Z".

Lemma messages_never_system_witness :
  no_system (replayEvents message_schema message_clock
    [message_event "a" "system" "2026-01-01T00:00:00.000Z_0000_s2";
     message_event "b" "user" "2026-01-01T00:00:00.000Z_0001_s2"] (MkSdb ∅ [])).1 ∧
  no_system (applySnapshotRows message_schema "messages" [[("id", JStr "c"); ("role", JStr "system")]] (MkSdb ∅ [])).1.
Proof.
  apply (messages_never_system message_schema message_clock).
  - split; [intros v [= ->]; reflexivity|discriminate].
  - intros k r H. change (table_of "messages" (MkSdb ∅ [])) with (∅ : table) in H.
    by rewrite lookup_empty in H.
Defined.

(** ** The bookkeeping of a replayed batch *)

(** A change-log entry for an applied event: its table, row and origin, the
    data the event carried, and a clock value past the event's own. *)
Definition logs_event (info : ChangeLogEntry * fields) (entry : ChangeLogEntry) : Prop :=
  cl_table_name entry = cl_table_name info.1 ∧ cl_row_id entry = cl_row_id info.1 ∧
  cl_site_id entry = cl_site_id info.1 ∧ cl_row_data entry = json_stringify (JObj info.2) ∧
  (cl_hlc info.1) <s (cl_hlc entry).

(** Events from well-behaved peers: clock values with counters below [n]. *)
Definition remote_ok (n : Z) (e : ChangeLogEntry) : Prop :=
  no_us (cl_site_id e) = true ∧
  ∃ ts c site, cl_hlc e = hlc_value ts c site ∧ timestamp_ok ts ∧ 0 ≤ c < n ∧ no_us site = true.

Lemma HLC_ZERO_value : HLC_ZERO = hlc_value "0000-00-00T00:00:00.000Z" 0 "0000".
Proof. reflexivity. Qed.

(** The clock value [createChangeLogEntry] gives a remote event. *)
Lemma merged_hlc_spec n now site log remote tbl rid data :
  log_below n log → 0 < n ≤ 65535 → timestamp_ok now → no_us site = true →
  (∃ ts c s, remote = hlc_value ts c s ∧ timestamp_ok ts ∧ 0 ≤ c < n ∧ no_us s = true) →
  let h := mergeHlc now (default HLC_ZERO (last_hlc log)) remote site in
  (∀ e, e ∈ log → (cl_hlc e) <s h) ∧ (remote <s h) ∧
  log_below (n + 1) (log ++ [MkChange h tbl rid site now data]).
Proof.
  intros Hlog Hn Hnow Hsite (ts2 & c2 & s2 & -> & Hts2 & Hc2 & Hs2) h.
  pose proof Hlog as Hall. unfold log_below in Hall. rewrite Forall_forall in Hall.
  pose proof (last_hlc_spec log) as Hlast.
  assert (∃ ts1 c1 s1, default HLC_ZERO (last_hlc log) = hlc_value ts1 c1 s1 ∧ timestamp_ok ts1 ∧
    0 ≤ c1 < n ∧ no_us s1 = true ∧ ∀ e, e ∈ log → (cl_hlc e) ≤s (hlc_value ts1 c1 s1))
    as (ts1 & c1 & s1 & Hl & Hts1 & Hc1 & Hs1 & Hmax).
  { destruct (last_hlc log) as [l|]; simpl.
    - destruct Hlast as ((e & He & <-) & Hmax). destruct (Hall e He) as (ts1 & c1 & s1 & Heq & ? & ? & ?).
      exists ts1, c1, s1. rewrite <-Heq. done.
    - subst log. exists "0000-00-00T00:00:00.000Z", 0, "0000". rewrite HLC_ZERO_value.
      split_and!; try done; [lia|]. by intros e ?%not_elem_of_nil. }
  subst h. rewrite Hl.
  destruct (mergeHlc_value now ts1 c1 s1 ts2 c2 s2 site) as (H1 & H2 & ts & c & Hh & Hts & Hc);
    try done; try lia.
  split_and!; [|done|].
  - intros e He. eapply sleb_sltb_trans; [by apply Hmax|done].
  - apply Forall_app. split; [by apply (log_below_mono n); [lia|]|].
    apply Forall_singleton. exists ts, c, site. simpl. split_and!; (done || lia).
Qed.

(** The reducers neither read nor write the log. *)
Definition relog (log : list ChangeLogEntry) (db : sdb) : sdb := MkSdb (tables db) log.
Definition relogged (log : list ChangeLogEntry) (r : result (sdb * bool)) : result (sdb * bool) :=
  let! (db, applied) := r in Ok (relog log db, applied).

Lemma insert_or_nothing_relog sch tbl cols log db :
  insert_or_nothing sch tbl cols (relog log db) = relogged log (insert_or_nothing sch tbl cols db).
Proof.
  unfold insert_or_nothing. destruct (nonempty_insert cols); [|done]. cbn [result_bind].
  change (table_of tbl (relog log db)) with (table_of tbl db).
  by destruct (insert_ignore_pk _ _ _ _) as [[t n]|].
Qed.
Lemma update_applied_relog sch tbl pk sets k log db :
  update_applied sch tbl pk sets k (relog log db) = relogged log (update_applied sch tbl pk sets k db).
Proof.
  unfold update_applied. change (table_of tbl (relog log db)) with (table_of tbl db).
  by destruct (update_pk _ _ _ _ _) as [[t n]|].
Qed.
Lemma lww_relog sch e log db : applyLWWReducer sch e (relog log db) = relogged log (applyLWWReducer sch e db).
Proof.
  unfold applyLWWReducer. destruct (parseReducerRowData e); [|done]. cbv zeta.
  destruct (violatesMessageRoleInvariant _ _); [done|].
  change (table_of (cl_table_name e) (relog log db)) with (table_of (cl_table_name e) db).
  destruct (key_param _) as [k|]; [|done]. cbn [result_bind].
  destruct (match k with Some k => _ | None => None end) as [[k0 old]|].
  - destruct (_ && _); [done|]. destruct (_ =? _)%nat; [done|]. apply update_applied_relog.
  - by destruct (let! _ := _ in _).
Qed.
Lemma applyEvent_relog sch e log db : applyEvent sch e (relog log db) = relogged log (applyEvent sch e db).
Proof.
  unfold applyEvent. destruct (fields_get _ _) as [[]|]; [|apply lww_relog..].
  unfold applyAppendOnlyReducer. destruct (parseReducerRowData e); [|done]. cbv zeta.
  destruct (violatesMessageRoleInvariant _ _); [done|]. destruct (negb _); [done|].
  destruct (present _); [|apply insert_or_nothing_relog].
  change (table_of (cl_table_name e) (relog log db)) with (table_of (cl_table_name e) db).
  destruct (key_param _) as [k|]; [|done]. cbn [result_bind].
  destruct (match k with Some k => _ | None => None end) as [[k0 old]|]; [|apply insert_or_nothing_relog].
  destruct (incoming_not_newer _ _); [done|apply update_applied_relog].
Qed.

(** The reducers alone, over a batch: the database they leave, and the events
    they report as applied, each with the data it carried.  An event that cannot
    be read is passed over; the first error ends the batch. *)
Fixpoint reduce_events (sch : string → table_schema) (es : list ChangeLogEntry) (db : sdb)
    : result (sdb * list (ChangeLogEntry * fields)) :=
  match es with
  | [] => Ok (db, [])
  | e :: es' =>
      match parseReducerRowData e with
      | None => reduce_events sch es' db
      | Some rowData =>
          let! (db1, applied) := applyEvent sch e db in
          let! (db2, rest) := reduce_events sch es' db1 in
          Ok (db2, if applied then (e, rowData) :: rest else rest)
      end
  end.

Lemma replay_one_spec sch n now e s log db :
  rp_db s = relog log db → log_sorted log → log_below n log → 0 < n ≤ 65535 → timestamp_ok now → remote_ok n e →
  match parseReducerRowData e with
  | None => replay_one sch now e s = Ok (MkReplay (relog log db) (rp_applied s) (S (rp_skipped s)) (rp_hlcs s) (rp_infos s))
  | Some rowData =>
      match applyEvent sch e db with
      | Throw msg => replay_one sch now e s = Throw msg
      | Ok (db1, false) =>
          replay_one sch now e s = Ok (MkReplay (relog log db1) (rp_applied s) (S (rp_skipped s)) (rp_hlcs s) (rp_infos s))
      | Ok (db1, true) => ∃ entry, logs_event (e, rowData) entry ∧
          log_sorted (log ++ [entry]) ∧ log_below (n + 1) (log ++ [entry]) ∧
          replay_one sch now e s = Ok (MkReplay (relog (log ++ [entry]) db1) (S (rp_applied s)) (rp_skipped s)
            (rp_hlcs s ++ [event_of entry]) (rp_infos s ++ [(e, rowData)]))
      end
  end.
Proof.
  intros Hdb Hs Hb Hn Hnow [Hsite Hremote]. unfold replay_one. rewrite Hdb, applyEvent_relog.
  destruct (parseReducerRowData e) as [rowData|]; [|done].
  destruct (applyEvent sch e db) as [[db1 b]|msg]; [|done]. cbn [relogged result_bind].
  destruct b; [|done].
  assert (truthy (Some (cl_hlc e)) = true) as Htr.
  { destruct Hremote as (ts & c & site & -> & _). by destruct (hlc_value_nonempty ts c site) as (a & r & ->). }
  destruct (merged_hlc_spec n now (cl_site_id e) log (cl_hlc e) (cl_table_name e)
    (cl_row_id e) (json_stringify (JObj rowData))) as (Hgt & Hrem & Hbelow); try done.
  set (h := mergeHlc now (default HLC_ZERO (last_hlc log)) (cl_hlc e) (cl_site_id e)) in *.
  exists (MkChange h (cl_table_name e) (cl_row_id e) (cl_site_id e) now (json_stringify (JObj rowData))).
  split; [by split_and!|]. split; [by apply log_sorted_app|]. split; [done|].
  unfold createChangeLogEntry, bind, get_db, put_db, ret, throw. cbn [w_db]. rewrite Htr. cbv zeta.
  change (change_log (relog log db1)) with log. change (default "" (Some (cl_hlc e))) with (cl_hlc e).
  fold h. assert (existsb (λ x, seqb (cl_hlc x) h) log = false) as ->; [|done].
  apply not_true_iff_false. intros (x & Hx%list_elem_of_In & He%seqb_true)%existsb_exists.
  specialize (Hgt x Hx). rewrite He in Hgt. by rewrite sltb_irrefl in Hgt.
Qed.

(** What a stretch of the replay adds to a state, given what the reducers make
    of it. *)
Definition replayed (n : Z) (es : list ChangeLogEntry) (accepted : list (ChangeLogEntry * fields))
    (log : list ChangeLogEntry) (db : sdb) (s s' : replay_state) : Prop :=
  ∃ entries, rp_db s' = relog (log ++ entries) db ∧ Forall2 logs_event accepted entries ∧
    rp_infos s' = rp_infos s ++ accepted ∧ rp_hlcs s' = rp_hlcs s ++ (event_of <$> entries) ∧
    rp_applied s' = (rp_applied s + length accepted)%nat ∧
    (rp_applied s' + rp_skipped s' = rp_applied s + rp_skipped s + length es)%nat ∧
    log_sorted (log ++ entries) ∧ log_below n (log ++ entries).

Lemma replay_loop_spec sch n now es s log db :
  rp_db s = relog log db → log_sorted log → log_below n log → 0 < n → n + Z.of_nat (length es) ≤ 65536 →
  (∀ k, timestamp_ok (now k)) → Forall (remote_ok n) es →
  match reduce_events sch es db with
  | Throw msg => replay_loop sch now es s = Throw msg
  | Ok (db', accepted) => ∃ s', replay_loop sch now es s = Ok s' ∧
      replayed (n + Z.of_nat (length es)) es accepted log db' s s'
  end.
Proof.
  revert n now s log db. induction es as [|e es IH]; intros n now s log db Hdb Hs Hb Hn Hlen Hnow Hes;
    cbn [replay_loop reduce_events].
  { exists s. split; [done|]. exists []. rewrite Z.add_0_r, !app_nil_r. simpl. split_and!; (done || lia). }
  apply Forall_cons in Hes as [He Hes]. cbn [length] in *.
  assert (Forall (remote_ok (n + 1)) es) as Hes'.
  { eapply Forall_impl; [exact Hes|]. intros x (Hx & ts & c & site & ? & ? & ? & ?). split; [done|].
    exists ts, c, site. split_and!; (done || lia). }
  assert (n + Z.of_nat (S (length es)) = n + 1 + Z.of_nat (length es)) as Hsum by lia. rewrite Hsum in *.
  assert (log_below (n + 1) log) as Hb1 by (apply (log_below_mono n); [lia|done]).
  pose proof (replay_one_spec sch n (now 0%nat) e s log db Hdb Hs Hb ltac:(lia) (Hnow _) He) as Hone.
  assert (∀ s1 log1 db1, rp_db s1 = relog log1 db1 → log_sorted log1 → log_below (n + 1) log1 →
    match reduce_events sch es db1 with
    | Throw msg => replay_loop sch (λ k, now (S k)) es s1 = Throw msg
    | Ok (db', accepted) => ∃ s', replay_loop sch (λ k, now (S k)) es s1 = Ok s' ∧
        replayed (n + 1 + Z.of_nat (length es)) es accepted log1 db' s1 s' end) as Hrest.
  { intros s1 log1 db1 H1 H2 H3. apply (IH (n + 1)); auto; lia. }
  clear IH. destruct (parseReducerRowData e) as [rowData|].
  2: { rewrite Hone. cbn [result_bind]. 
       specialize (Hrest (MkReplay (relog log db) (rp_applied s) (S (rp_skipped s)) (rp_hlcs s) (rp_infos s)) log db eq_refl Hs Hb1).
       destruct (reduce_events sch es db) as [[db' acc]|msg]; [|exact Hrest].
       destruct Hrest as (s' & -> & entries & ? & ? & ? & ? & ? & ? & ? & ?).
       exists s'. split; [done|]. exists entries. simpl in *. split_and!; (done || lia). }
  destruct (applyEvent sch e db) as [[db1 b]|msg]; [|by rewrite Hone]. cbn [result_bind]. destruct b.
  - destruct Hone as (entry & Hlog & Hs1 & Hb1' & ->). cbn [result_bind].
    specialize (Hrest (MkReplay (relog (log ++ [entry]) db1) (S (rp_applied s)) (rp_skipped s) (rp_hlcs s ++ [event_of entry])
      (rp_infos s ++ [(e, rowData)])) (log ++ [entry]) db1 eq_refl Hs1 Hb1').
    destruct (reduce_events sch es db1) as [[db' acc]|msg]; [|exact Hrest]. cbn [result_bind].
    destruct Hrest as (s' & -> & entries & H1 & H2 & H3 & H4 & H5 & H6 & H7 & H8).
    exists s'. split; [done|]. exists (entry :: entries). simpl in *. rewrite <-!app_assoc in *. simpl in *.
    split_and!; [done|by constructor|done|done|lia|lia|done|done].
  - rewrite Hone. cbn [result_bind].
    specialize (Hrest (MkReplay (relog log db1) (rp_applied s) (S (rp_skipped s)) (rp_hlcs s) (rp_infos s)) log db1 eq_refl Hs Hb1).
    destruct (reduce_events sch es db1) as [[db' acc]|msg]; [|exact Hrest]. cbn [result_bind].
    destruct Hrest as (s' & -> & entries & H1 & H2 & H3 & H4 & H5 & H6 & H7 & H8).
    exists s'. split; [done|]. exists entries. simpl in *. split_and!; (done || lia).
Qed.

(** C28: replaying a batch is running the reducers over it and logging what they
    applied.  If a reducer throws, the batch throws that error and changes
    nothing.  Otherwise the tables are as the reducers leave them, and the
    events whose reducer answered that it applied them, and no others, are
    counted as applied, told to the listeners with their data, and logged: one
    entry each, in batch order, with the event's table, row, origin site and
    data, under a clock value above the event's own and above every earlier
    entry.  All other events are counted as skipped. *)
Theorem replay_logs_applied sch n now es db :
  log_sorted (change_log db) → log_below n (change_log db) → 0 < n → n + Z.of_nat (length es) ≤ 65536 →
  (∀ k, timestamp_ok (now k)) → Forall (remote_ok n) es →
  match reduce_events sch es db with
  | Throw msg => replayEvents sch now es db = (db, Throw msg)
  | Ok (reduced, accepted) => ∃ s entries,
      replayEvents sch now es db = (MkSdb (tables reduced) (change_log db ++ entries), Ok s) ∧
      Forall2 logs_event accepted entries ∧ log_sorted (change_log db ++ entries) ∧
      rp_infos s = accepted ∧ rp_hlcs s = event_of <$> entries ∧
      rp_applied s = length accepted ∧ (rp_applied s + rp_skipped s)%nat = length es
  end.
Proof.
  intros Hs Hb Hn Hlen Hnow Hes. unfold replayEvents.
  pose proof (replay_loop_spec sch n now es (MkReplay db 0 0 [] []) (change_log db) db
    ltac:(by destruct db) Hs Hb Hn Hlen Hnow Hes) as H.
  destruct (reduce_events sch es db) as [[reduced accepted]|msg]; [|by rewrite H].
  destruct H as (s & -> & entries & H1 & H2 & H3 & H4 & H5 & H6 & H7 & _). simpl in *.
  exists s, entries. rewrite H1. by split_and!.
Qed.

Lemma replay_logs_applied_witness :
  let es := [message_event "a" "system" "2026-01-01T00:00:00.000Z_0000_s2";
             message_event "b" "user" "2026-01-01T00:00:00.000Z_0001_s2"] in
  match reduce_events message_schema es (MkSdb ∅ []) with
  | Ok (_, accepted) => (cl_row_id ∘ fst) <$> accepted = ["b"] ∧
      ∃ db' s, replayEvents message_schema message_clock es (MkSdb ∅ []) = (db', Ok s) ∧ rp_applied s = length accepted
  | Throw _ => False
  end.
Proof.
  intros es. pose proof (replay_logs_applied message_schema 2 message_clock es (MkSdb ∅ [])
    ltac:(constructor) ltac:(constructor) ltac:(lia) ltac:(simpl; lia) ltac:(reflexivity)) as H.
  assert (Forall (remote_ok 2) es) as Hes.
  { repeat constructor.
    + exists "2026-01-01T00:00:00.000Z", 0, "s2". repeat split; lia.
    + exists "2026-01-01T00:00:00.000Z", 1, "s2". repeat split; lia. }
  specialize (H Hes). destruct (reduce_events message_schema es (MkSdb ∅ [])) as [[reduced accepted]|msg] eqn:E.
  - split; [vm_compute in E; injection E as _ <-; reflexivity|].
    destruct H as (s & entries & H1 & _ & _ & _ & _ & H2 & _). eexists _, s. split; [exact H1|exact H2].
  - vm_compute in E. discriminate.
Defined.

(** ** Ties *)

Lemma full_event_row sch tbl e k m r r' : full_event sch tbl e k m r → full_event sch tbl e k m r' → r = r'.
Proof. intros (_ & _ & p & Hp & _ & ->) (_ & _ & p' & Hp' & _ & ->). congruence. Qed.

(** a tie of the last-writer-wins order is not broken: of two whole-row
    events with the same key and modification time the first to arrive stays,
    so two replicas that receive different contents in opposite orders end
    with different tables, and no redelivery of either event mends them. *)
Theorem lww_ties_diverge sch tbl e1 e2 k m r1 r2 db :
  full_event sch tbl e1 k m r1 → full_event sch tbl e2 k m r2 → r1 ≠ r2 →
  table_ok (sch tbl) (getPkColumn tbl) (table_of tbl db) → table_of tbl db !! k = None →
  unique_clash (sch tbl) k r1 (table_of tbl db) = false → unique_clash (sch tbl) k r2 (table_of tbl db) = false →
  ∃ d12 d21, apply_events sch [e1; e2] db = Ok d12 ∧ apply_events sch [e2; e1] db = Ok d21 ∧
    table_of tbl d12 = <[k := r1]> (table_of tbl db) ∧ table_of tbl d21 = <[k := r2]> (table_of tbl db) ∧
    table_of tbl d12 ≠ table_of tbl d21 ∧
    ∀ es, es ⊆ [e1; e2] → ∃ d12' d21', apply_events sch es d12 = Ok d12' ∧ apply_events sch es d21 = Ok d21' ∧
      table_of tbl d12' = table_of tbl d12 ∧ table_of tbl d21' = table_of tbl d21.
Proof.
  intros H1 H2 Hne Hok Hk U1 U2.
  assert (∀ e r, e ∈ [e1; e2] → full_event sch tbl e k m r → r = r1 ∨ r = r2) as Hev.
  { intros e r He Hf. rewrite !elem_of_cons, elem_of_nil in He.
    destruct He as [-> |[-> |[]]]; [left; by eapply full_event_row|right; by eapply full_event_row]. }
  assert (∀ r r', r = r1 ∨ r = r2 → unique_clash (sch tbl) k r (<[k:=r']> (table_of tbl db)) = false) as Hu.
  { intros r r' Hr. apply unique_clash_none. intros k' x Hx Hne'. rewrite lookup_insert_ne in Hx by done.
    apply not_true_iff_false. intros Hc. assert (unique_clash (sch tbl) k r (table_of tbl db) = true) as Ht
      by (apply unique_clash_spec; by exists k', x). destruct Hr as [-> | ->]; congruence. }
  assert (∀ r r', stamped k m r → lww_merge k m r' (<[k:=r]> (table_of tbl db)) = <[k:=r]> (table_of tbl db)) as Htie.
  { intros r r' Hr. unfold lww_merge. rewrite lookup_insert_eq, (stale_stamped m k m r Hr). by rewrite sleb_refl. }
  pose proof (full_event_stamped _ _ _ _ _ _ H1) as S1. pose proof (full_event_stamped _ _ _ _ _ _ H2) as S2.
  assert (∀ e e' r r', full_event sch tbl e k m r → full_event sch tbl e' k m r' → stamped k m r →
    r = r1 ∨ r = r2 → r' = r1 ∨ r' = r2 →
    ∃ d, apply_events sch [e; e'] db = Ok d ∧ table_of tbl d = <[k:=r]> (table_of tbl db) ∧
      table_ok (sch tbl) (getPkColumn tbl) (table_of tbl d)) as Hrun.
  { intros e e' r r' He He' Hs Hr Hr'. cbn [apply_events].
    destruct (applyLWW_full sch tbl e k m r db He Hok ltac:(by destruct Hr; subst r)) as (da & ba & -> & Ta & Oa & _). cbn [result_bind].
    assert (table_of tbl da = <[k:=r]> (table_of tbl db)) as Ta' by (rewrite Ta; unfold lww_merge; by rewrite Hk).
    destruct (applyLWW_full sch tbl e' k m r' da He' Oa ltac:(rewrite Ta'; by apply Hu)) as (d2 & b2 & -> & T2 & O2 & _). cbn [result_bind].
    exists d2. split_and!; [done| |done]. rewrite T2, Ta. unfold lww_merge at 2. rewrite Hk. by apply Htie. }
  assert (∀ es d r, es ⊆ [e1; e2] → stamped k m r → table_of tbl d = <[k:=r]> (table_of tbl db) →
    table_ok (sch tbl) (getPkColumn tbl) (table_of tbl d) →
    ∃ d', apply_events sch es d = Ok d' ∧ table_of tbl d' = table_of tbl d) as Hagain.
  { induction es as [|e es IH]; intros d r Hsub Hs Ht Ho; [by exists d|]. cbn [apply_events].
    assert (∃ r', full_event sch tbl e k m r') as [r' He].
    { assert (e ∈ [e1; e2]) as Hin by (apply Hsub; left).
      rewrite !elem_of_cons, elem_of_nil in Hin. destruct Hin as [-> |[-> |[]]]; eauto. }
    destruct (applyLWW_full sch tbl e k m r' d He Ho) as (d1 & b & -> & T1 & O1 & _).
    { rewrite Ht. apply Hu. apply (Hev e); [apply Hsub; left|done]. }
    cbn [result_bind]. rewrite Ht, Htie in T1 by done.
    destruct (IH d1 r) as (d' & Hd' & Td'); [intros x Hx; apply Hsub; by right|done..|].
    exists d'. split; [done|]. by rewrite Td', T1, Ht. }
  destruct (Hrun e1 e2 r1 r2 H1 H2 S1 ltac:(by left) ltac:(by right)) as (d12 & A1 & A2 & A3).
  destruct (Hrun e2 e1 r2 r1 H2 H1 S2 ltac:(by right) ltac:(by left)) as (d21 & B1 & B2 & B3).
  exists d12, d21. split_and!; try done.
  - rewrite A2, B2. intros Heq. apply Hne. apply (f_equal (.!! k)) in Heq.
    rewrite !lookup_insert_eq in Heq. by injection Heq.
  - intros es Hes. destruct (Hagain es d12 r1 Hes S1 A2 A3) as (d & ? & ?).
    destruct (Hagain es d21 r2 Hes S2 B2 B3) as (d' & ? & ?). by exists d, d'.
Qed.

Lemma lww_ties_diverge_witness :
  let e1 := thread_event "a" "x" "2026-01-01" "h1" in
  let e2 := thread_event "a" "y" "2026-01-01" "h2" in
  ∃ d12 d21, apply_events thread_schema [e1; e2] (MkSdb ∅ []) = Ok d12 ∧
    apply_events thread_schema [e2; e1] (MkSdb ∅ []) = Ok d21 ∧ table_of "threads" d12 ≠ table_of "threads" d21.
Proof.
  destruct (lww_ties_diverge thread_schema "threads" (thread_event "a" "x" "2026-01-01" "h1")
    (thread_event "a" "y" "2026-01-01" "h2") "a" "2026-01-01" (thread_row "a" "x" "2026-01-01")
    (thread_row "a" "y" "2026-01-01") (MkSdb ∅ [])) as (d12 & d21 & A & B & _ & _ & C & _).
  - exact (thread_event_full "a" "x" "2026-01-01" "h1" eq_refl).
  - exact (thread_event_full "a" "y" "2026-01-01" "h2" eq_refl).
  - intros H. apply (f_equal (.!! "content")) in H. vm_compute in H. discriminate.
  - intros k r Hk. change (table_of "threads" (MkSdb ∅ [])) with (∅ : table) in Hk.
    by rewrite lookup_empty in Hk.
  - reflexivity.
  - reflexivity.
  - reflexivity.
  - exists d12, d21. split; [exact A|split; [exact B|exact C]].
Defined.

(** ** Snapshots and the last-writer-wins order *)
Lemma num_leb_at k m e n f :
  k ≤ e → k ≤ f → num_leb m e n f = (m * 10 ^ (e - k) <=? n * 10 ^ (f - k)).
Proof.
  intros He Hf. unfold num_leb. set (k0 := Z.min e f).
  replace (e - k) with ((e - k0) + (k0 - k)) by lia. replace (f - k) with ((f - k0) + (k0 - k)) by lia.
  rewrite !Z.pow_add_r, !Z.mul_assoc by lia.
  assert (0 < 10 ^ (k0 - k)) by (apply Z.pow_pos_nonneg; lia).
  destruct (Z.leb_spec (m * 10 ^ (e - k0)) (n * 10 ^ (f - k0))); symmetry;
    [apply Z.leb_le|apply Z.leb_gt]; nia.
Qed.

Lemma sql_gt_trans a b c : sql_gt a b = true → sql_gt b c = true → sql_gt a c = true.
Proof.
  destruct a as [| |m e|s| |], b as [| |n f|t| |], c as [| |p g|u| |]; simpl; try done.
  - set (k := Z.min e (Z.min f g)).
    rewrite (num_leb_at k m e n f), (num_leb_at k n f p g), (num_leb_at k m e p g) by lia.
    rewrite !negb_true_iff, !Z.leb_gt. lia.
  - intros H1 H2. by eapply sltb_trans.
Qed.

Section SnapshotOrder.
Context (sch : string → table_schema) (tbl : string) (columns : list string).
Context (Hnd : NoDup columns) (Hm : "modified_at" ∈ columns) (Hpk : getPkColumn tbl ≠ "modified_at").

(** [new] is what snapshots may make of the row [old]. *)
Definition advances (old new : row) : Prop :=
  (new = old ∨ sql_gt (column_value "modified_at" new) (column_value "modified_at" old) = true) ∧
  new !! getPkColumn tbl = old !! getPkColumn tbl ∧ ∀ c, c ∉ columns → new !! c = old !! c.

Definition table_advances (t t' : table) : Prop :=
  keyed (getPkColumn tbl) t' ∧ ∀ k old, t !! k = Some old → ∃ new, t' !! k = Some new ∧ advances old new.

Lemma advances_trans r1 r2 r3 : advances r1 r2 → advances r2 r3 → advances r1 r3.
Proof.
  intros (A1 & A2 & A3) (B1 & B2 & B3). split_and!; [|congruence|].
  - destruct A1 as [->|A1]; [done|]. destruct B1 as [->|B1]; [by right|]. right. by eapply sql_gt_trans.
  - intros c Hc. by rewrite B3, A3.
Qed.

Lemma table_advances_trans t1 t2 t3 : table_advances t1 t2 → table_advances t2 t3 → table_advances t1 t3.
Proof.
  intros [_ HA] [HB1 HB]. split; [done|]. intros k old Hk.
  destruct (HA k old Hk) as (new & Hnew & ?). destruct (HB k new Hnew) as (new' & ? & ?).
  exists new'. split; [done|]. by eapply advances_trans.
Qed.

Lemma table_advances_refl t : keyed (getPkColumn tbl) t → table_advances t t.
Proof. intros Ht. split; [done|]. intros k old Hk. exists old. split; [done|]. split_and!; [by left|done..]. Qed.

Lemma coerceRowValues_keys r : (coerceRowValues columns r).*1 = columns.
Proof. unfold coerceRowValues. rewrite <-list_fmap_compose. apply list_fmap_id. Qed.

Lemma store_app ts a b base :
  store_columns ts (a ++ b) base = (let! r := store_columns ts a base in store_columns ts b r).
Proof.
  revert base. induction a as [|[c v] a IH]; intros base; simpl; [done|].
  destruct (negb _); [done|]. destruct (bind_value v); [|done]. destruct (ts_store ts c _); [|done]. apply IH.
Qed.

(** A row that was built, and an update from the same values, agree on them. *)
Lemma built_and_updated cols r old r' c v :
  build_row (sch tbl) cols = Ok r → NoDup cols.*1 → (c, v) ∈ cols →
  store_columns (sch tbl) (fields_remove (getPkColumn tbl) cols) old = Ok r' → c ≠ getPkColumn tbl →
  r' !! c = r !! c.
Proof.
  intros Hb Hndc Hin Hst Hne. unfold build_row, check_row in Hb. rewrite store_app in Hb.
  destruct (store_columns (sch tbl) cols ∅) as [r1|] eqn:E1; [|done]. cbn [result_bind] in Hb.
  destruct (store_columns (sch tbl) (missing_columns (sch tbl) cols) r1) as [r2|] eqn:E2; [|done].
  cbn [result_bind] in Hb. destruct (ts_check (sch tbl) r2); [|done]. injection Hb as <-.
  destruct (store_columns_lookup _ _ _ _ c v E1 Hndc Hin) as (b & s & Hb & Hs & Hr1).
  destruct (store_columns_lookup _ _ _ _ c v Hst) as (b' & s' & Hb' & Hs' & Hr').
  { by apply NoDup_fmap_filter. }
  { by apply elem_of_fields_remove. }
  destruct (store_columns_spec _ _ _ _ E2) as [Hsame _]. rewrite Hsame, Hr1, Hr'; [congruence|].
  unfold missing_columns. rewrite <-list_fmap_compose. intros Hc%list_elem_of_fmap.
  destruct Hc as (c' & -> & [_ Hc]%filter_In_iff). simpl in Hc, Hin.
  apply negb_true_iff in Hc. assert (existsb (seqb c') cols.*1 = true); [|congruence].
  apply existsb_elem, list_elem_of_fmap. by exists (c', v).
Qed.

Lemma upsert_advances r t t' :
  keyed (getPkColumn tbl) t → snapshot_upsert sch tbl columns r t = Ok t' → table_advances t t'.
Proof using Hnd Hm Hpk.
  intros Hkey. unfold snapshot_upsert. cbv zeta. set (cols := coerceRowValues columns r).
  assert (cols.*1 = columns) as Hcols by apply coerceRowValues_keys.
  destruct (nonempty_insert cols); [|done]. cbn [result_bind]. unfold upsert_pk.
  destruct (build_row (sch tbl) cols) as [nr|] eqn:Eb; [|done]. cbn [result_bind].
  unfold row_key. destruct (nr !! getPkColumn tbl) as [[| | |k| |]|] eqn:Ek; try done. cbn [result_bind].
  destruct (t !! k) as [old|] eqn:Et.
  - destruct (negb _ && _) eqn:Enew; [|intros [= <-]; by apply table_advances_refl].
    apply andb_prop in Enew as [_ Enew]. unfold excluded_newer in Enew.
    rewrite (proj2 (existsb_elem _ _) Hm) in Enew.
    destruct (update_pk (sch tbl) _ _ k t) as [[t1 n]|] eqn:Eu; [|done]. intros [= <-].
    destruct (update_pk_fixed _ _ _ _ _ _ _ _ Eu Et (Hkey _ _ Et)) as (nr' & _ & Hst & _ & -> & Hk).
    { rewrite fields_remove_keys. naive_solver. }
    split; [by apply keyed_insert|]. intros k' old' Hold.
    destruct (decide (k' = k)) as [->|Hne].
    2: { exists old'. rewrite lookup_insert_ne by done. split; [done|]. split_and!; [by left|done..]. }
    rewrite Et in Hold. injection Hold as <-. exists nr'. rewrite lookup_insert_eq. split; [done|].
    assert ("modified_at" ∈ cols.*1) as Hin by by rewrite Hcols.
    apply list_elem_of_fmap in Hin as ([c v] & Hc & Hin). simpl in Hc. subst c.
    split_and!.
    + right. unfold column_value in *.
      rewrite (built_and_updated _ _ _ _ "modified_at" v Eb ltac:(by rewrite Hcols) Hin Hst); congruence.
    + by rewrite Hk, (Hkey _ _ Et).
    + intros c Hc. destruct (store_columns_spec _ _ _ _ Hst) as [Hsame _]. apply Hsame.
      rewrite fields_remove_keys, Hcols. naive_solver.
  - intros [_ ->]%put_row_ok. split; [by apply keyed_insert|]. intros k' old' Hold. exists old'.
    rewrite lookup_insert_ne by (intros ->; congruence). split; [done|]. split_and!; [by left|done..].
Qed.

Lemma batch_advances rows t t' :
  keyed (getPkColumn tbl) t → snapshot_batch sch tbl columns rows t = Ok t' → table_advances t t'.
Proof using Hnd Hm Hpk.
  revert t. induction rows as [|r rows IH]; intros t Ht; simpl; [intros [= <-]; by apply table_advances_refl|].
  destruct (snapshot_upsert _ _ _ _ _) as [t1|] eqn:E; [|done]. cbn [result_bind]. intros H.
  pose proof (upsert_advances r t t1 Ht E) as H1. eapply table_advances_trans; [exact H1|].
  apply IH; [apply H1|done].
Qed.

Lemma each_advances rows t n :
  keyed (getPkColumn tbl) t → table_advances t (snapshot_each sch tbl columns rows t n).1.
Proof using Hnd Hm Hpk.
  revert t n. induction rows as [|r rows IH]; intros t n Ht; simpl; [by apply table_advances_refl|].
  destruct (snapshot_upsert _ _ _ _ _) as [t1|] eqn:E; [|by apply IH].
  pose proof (upsert_advances r t t1 Ht E) as H1. eapply table_advances_trans; [exact H1|].
  apply IH, H1.
Qed.
End SnapshotOrder.

(** The columns of a snapshot chunk: those of the first row that is kept. *)
Definition snapshot_columns (tbl : string) (rows : list fields) : list string :=
  match heal tbl <$> (if seqb tbl "messages" then List.filter (λ r, negb (is_system_row r)) rows else rows) with
  | [] => []
  | r :: _ => r.*1
  end.

Lemma pk_not_modified_at tbl : getPkColumn tbl ≠ "modified_at".
Proof. unfold getPkColumn. repeat case_match; done. Qed.

(** a snapshot never takes a row back: applying a chunk that carries
    [modified_at], whether as one batch or row by row after a failure, keeps
    every row of the table under its key, leaves it as it was unless the
    snapshot's modification time is strictly later, and never touches a column
    the chunk does not carry. *)
Theorem snapshot_never_regresses sch tbl rows db :
  keyed (getPkColumn tbl) (table_of tbl db) → NoDup (snapshot_columns tbl rows) →
  "modified_at" ∈ snapshot_columns tbl rows →
  let t' := table_of tbl (applySnapshotRows sch tbl rows db).1 in
  ∀ k old, table_of tbl db !! k = Some old →
  ∃ new, t' !! k = Some new ∧
    (new = old ∨ sql_gt (column_value "modified_at" new) (column_value "modified_at" old) = true) ∧
    ∀ c, c ∉ snapshot_columns tbl rows → new !! c = old !! c.
Proof.
  intros Hkey Hnd Hm t' k old Hk.
  assert (table_advances tbl (snapshot_columns tbl rows) (table_of tbl db) t') as [_ Hadv].
  2: { destruct (Hadv k old Hk) as (new & Hnew & ? & _ & ?). by exists new. }
  subst t'. unfold snapshot_columns, applySnapshotRows in *. cbv zeta in *.
  destruct (negb (validateTableName tbl)); [by apply table_advances_refl|].
  destruct (heal tbl <$> _) as [|r0 rows0]; [by apply table_advances_refl|].
  destruct (negb _); [by apply table_advances_refl|].
  pose proof (pk_not_modified_at tbl) as Hpk.
  destruct (snapshot_batch _ _ _ _ _) as [t|] eqn:Eb.
  - cbn [fst]. rewrite table_of_with. by eapply batch_advances.
  - pose proof (each_advances sch tbl r0.*1 Hnd Hm Hpk (r0 :: rows0) (table_of tbl db) 0 Hkey) as H.
    destruct (snapshot_each _ _ _ _ _ _) as [t n]. cbn [fst] in *. by rewrite table_of_with.
Qed.

Definition snapshot_db : sdb :=
  (applySnapshotRows thread_schema "threads" [thread_data "a" "mine" "2026-01-02"] (MkSdb ∅ [])).1.

Lemma snapshot_never_regresses_witness :
  let db' := (applySnapshotRows thread_schema "threads" [thread_data "a" "theirs" "2026-01-01"] snapshot_db).1 in
  ∃ new, table_of "threads" db' !! "a" = Some new ∧
    (new = thread_row "a" "mine" "2026-01-02" ∨
     sql_gt (column_value "modified_at" new) (JStr "2026-01-02") = true).
Proof.
  destruct (snapshot_never_regresses thread_schema "threads" [thread_data "a" "theirs" "2026-01-01"] snapshot_db)
    with (k := "a") (old := thread_row "a" "mine" "2026-01-02") as (new & H1 & H2 & _).
  - intros k r Hk. assert (table_of "threads" snapshot_db = <["a" := thread_row "a" "mine" "2026-01-02"]> ∅) as Ht
      by (vm_compute; reflexivity).
    rewrite Ht in Hk. apply lookup_insert_Some in Hk as [[<- <-]|[_ Hk]]; [reflexivity|by rewrite lookup_empty in Hk].
  - apply (bool_decide_unpack _). vm_compute. exact I.
  - apply (bool_decide_unpack _). vm_compute. exact I.
  - vm_compute. reflexivity.
  - exists new. split; [exact H1|exact H2].
Defined.

(** ** Chunked columns *)

(** A column that holds any text, whatever the rest of the row, and is part of
    no UNIQUE index. *)
Record text_column (ts : table_schema) (pk col : string) (r : row) : Prop := {
  text_known : col ∈ ts_columns ts;
  text_not_pk : col ≠ pk;
  text_store : ∀ s, ts_store ts col (JStr s) = Some (JStr s);
  text_check : ∀ s, ts_check ts (<[col := JStr s]> r) = true;
  text_not_deleted : col ≠ "deleted";
  text_not_indexed : ∀ cols, cols ∈ ts_unique ts → col ∉ cols
}.

Section Chunks.
Context (sch : string → table_schema) (tbl k col : string) (r : row).
Context (Htbl : validateTableName tbl = true) (Hcol : valid_column_name col = true).
Context (Htext : text_column (sch tbl) (getPkColumn tbl) col r) (Hpk : r !! getPkColumn tbl = Some (JStr k)).

(** Assigning the column of the stored row. *)
Lemma update_text t x s :
  t !! k = Some x → (x = r ∨ ∃ s0, x = <[col := JStr s0]> r) → unique_clash (sch tbl) k r t = false →
  update_pk (sch tbl) (getPkColumn tbl) [(col, JStr s)] k t = Ok (<[k := <[col := JStr s]> r]> t, 1%nat).
Proof using Htext Hpk.
  intros Hk Hx Hu. unfold update_pk, check_sets, check_row. cbn [forallb fst snd bind_value].
  rewrite (proj2 (existsb_elem col _) (text_known _ _ _ _ Htext)). cbn [andb negb result_bind].
  rewrite Hk. cbn [store_columns]. rewrite (proj2 (existsb_elem col _) (text_known _ _ _ _ Htext)).
  cbn [negb bind_value]. rewrite (text_store _ _ _ _ Htext). cbn [result_bind].
  assert (<[col := JStr s]> x = <[col := JStr s]> r) as ->.
  { destruct Hx as [->|[s0 ->]]; [done|]. by rewrite insert_insert_eq. }
  rewrite (text_check _ _ _ _ Htext). cbn [result_bind]. unfold row_key.
  rewrite lookup_insert_ne by (apply (text_not_pk _ _ _ _ Htext)). rewrite Hpk. cbn [result_bind].
  rewrite seqb_refl. unfold put_row.
  rewrite unique_clash_unindexed by (apply (text_not_deleted _ _ _ _ Htext) || apply (text_not_indexed _ _ _ _ Htext)).
  by rewrite Hu.
Qed.

Lemma chunks_append chunks i db s :
  table_of tbl db !! k = Some (<[col := JStr s]> r) → unique_clash (sch tbl) k r (table_of tbl db) = false →
  ∃ db', apply_chunks sch tbl k col (S i) chunks db = Ok db' ∧
    table_of tbl db' = <[k := <[col := JStr (s +:+ sconcat chunks)]> r]> (table_of tbl db).
Proof using Htext Hpk Htbl Hcol.
  revert i db s. induction chunks as [|c chunks IH]; intros i db s Hk Hu; cbn [apply_chunks sconcat foldr].
  { exists db. split; [done|]. rewrite sapp_nil_r. by rewrite insert_id. }
  unfold applyColumnChunk at 1. rewrite Htbl, Hcol. cbv iota zeta. cbn [negb]. rewrite Hk. unfold column_value.
  rewrite lookup_insert_eq. cbn [default from_option id sql_concat].
  rewrite (update_text _ _ (s +:+ c) Hk ltac:(right; by exists s) Hu). cbn [result_bind].
  destruct (IH (S i) (with_table tbl (<[k := <[col := JStr (s +:+ c)]> r]> (table_of tbl db)) db) (s +:+ c))
    as (db' & -> & Ht).
  { rewrite table_of_with. by rewrite lookup_insert_eq. }
  { by rewrite table_of_with, unique_clash_insert. }
  exists db'. split; [done|]. rewrite Ht, table_of_with, insert_insert_eq. by rewrite sapp_assoc.
Qed.

Lemma chunks_written c chunks db :
  table_of tbl db !! k = Some r → unique_clash (sch tbl) k r (table_of tbl db) = false →
  ∃ db', apply_chunks sch tbl k col 0 (c :: chunks) db = Ok db' ∧
    table_of tbl db' = <[k := <[col := JStr (c +:+ sconcat chunks)]> r]> (table_of tbl db).
Proof using Htext Hpk Htbl Hcol.
  intros Hk Hu. cbn [apply_chunks]. unfold applyColumnChunk at 1. rewrite Htbl, Hcol. cbv iota zeta. cbn [negb].
  rewrite (update_text _ _ c Hk ltac:(by left) Hu). cbn [result_bind].
  destruct (chunks_append chunks 0 (with_table tbl (<[k := <[col := JStr c]> r]> (table_of tbl db)) db) c)
    as (db' & -> & Ht).
  { rewrite table_of_with. by rewrite lookup_insert_eq. }
  { by rewrite table_of_with, unique_clash_insert. }
  exists db'. split; [done|]. by rewrite Ht, table_of_with, insert_insert_eq.
Qed.
End Chunks.

(** a column sent in chunks is reassembled: applied in order from index 0,
    the chunks leave the row with the concatenation of their data in that
    column and change nothing else. *)
Theorem chunks_reassemble sch tbl k col r c chunks db :
  validateTableName tbl = true → valid_column_name col = true →
  text_column (sch tbl) (getPkColumn tbl) col r → r !! getPkColumn tbl = Some (JStr k) →
  table_of tbl db !! k = Some r → unique_clash (sch tbl) k r (table_of tbl db) = false →
  ∃ db', apply_chunks sch tbl k col 0 (c :: chunks) db = Ok db' ∧
    table_of tbl db' = <[k := <[col := JStr (sconcat (c :: chunks))]> r]> (table_of tbl db).
Proof. intros Htbl Hcol Htext Hpk Hk Hu. by apply chunks_written. Qed.

Lemma chunks_reassemble_witness :
  ∃ db', apply_chunks thread_schema "threads" "a" "content" 0 ["ab"; "c"; "de"] snapshot_db = Ok db' ∧
    table_of "threads" db' = <["a" := <["content" := JStr "abcde"]> (thread_row "a" "mine" "2026-01-02")]>
      (table_of "threads" snapshot_db).
Proof.
  apply (chunks_reassemble thread_schema "threads" "a" "content" (thread_row "a" "mine" "2026-01-02") "ab" ["c"; "de"]).
  - reflexivity.
  - reflexivity.
  - split; [right; left|discriminate|reflexivity|reflexivity|discriminate|intros cols Hc; by apply not_elem_of_nil in Hc].
  - reflexivity.
  - vm_compute. reflexivity.
  - vm_compute. reflexivity.
Defined.

(** column chunks escape the last-writer-wins order: the skeleton of an
    older snapshot row leaves a newer local row alone, but the chunks that
    follow overwrite its column and keep its newer modification time, so the
    row ends with the older content under the newer time. *)
Theorem chunks_overwrite_newer sch tbl k col r c chunks cols skeleton db :
  validateTableName tbl = true → valid_column_name col = true →
  text_column (sch tbl) (getPkColumn tbl) col r → col ≠ "modified_at" → r !! getPkColumn tbl = Some (JStr k) →
  table_of tbl db !! k = Some r → unique_clash (sch tbl) k r (table_of tbl db) = false → "modified_at" ∈ cols →
  (∀ nr, build_row (sch tbl) (coerceRowValues cols skeleton) = Ok nr →
     sql_gt (column_value "modified_at" nr) (column_value "modified_at" r) = false ∧ row_key (getPkColumn tbl) nr = Ok k) →
  ∀ t, snapshot_upsert sch tbl cols skeleton (table_of tbl db) = Ok t →
  t = table_of tbl db ∧
  ∃ db' r', apply_chunks sch tbl k col 0 (c :: chunks) db = Ok db' ∧ table_of tbl db' !! k = Some r' ∧
    column_value col r' = JStr (sconcat (c :: chunks)) ∧
    column_value "modified_at" r' = column_value "modified_at" r.
Proof.
  intros Htbl Hcol Htext Hne Hpk Hk Hu Hm Hold t Ht. split.
  - revert Ht. unfold snapshot_upsert, upsert_pk. cbv zeta.
    destruct (nonempty_insert _); [|done]. cbn [result_bind].
    destruct (build_row _ _) as [nr|]; [|done]. cbn [result_bind].
    destruct (Hold nr eq_refl) as [Hgt ->]. cbn [result_bind]. rewrite Hk. unfold excluded_newer.
    rewrite (proj2 (existsb_elem _ _) Hm), Hgt, andb_false_r. by intros [= <-].
  - destruct (chunks_written sch tbl k col r Htbl Hcol Htext Hpk c chunks db Hk Hu) as (db' & Hdb' & Ht').
    exists db', (<[col := JStr (sconcat (c :: chunks))]> r). rewrite Ht', lookup_insert_eq.
    split_and!; try done; unfold column_value; [by rewrite lookup_insert_eq|by rewrite lookup_insert_ne].
Qed.

Lemma chunks_overwrite_newer_witness :
  ∃ db' r', apply_chunks thread_schema "threads" "a" "content" 0 ["old"; "er"] snapshot_db = Ok db' ∧
    table_of "threads" db' !! "a" = Some r' ∧ column_value "content" r' = JStr "older" ∧
    column_value "modified_at" r' = JStr "2026-01-02".
Proof.
  destruct (chunks_overwrite_newer thread_schema "threads" "a" "content" (thread_row "a" "mine" "2026-01-02")
    "old" ["er"] ["id"; "content"; "modified_at"] (thread_data "a" "" "2026-01-01") snapshot_db)
    with (t := table_of "threads" snapshot_db) as [_ H].
  - reflexivity.
  - reflexivity.
  - split; [right; left|discriminate|reflexivity|reflexivity|discriminate|intros cols Hc; by apply not_elem_of_nil in Hc].
  - discriminate.
  - reflexivity.
  - vm_compute. reflexivity.
  - vm_compute. reflexivity.
  - right; right; left.
  - intros nr H. vm_compute in H. injection H as <-. split; vm_compute; reflexivity.
  - vm_compute. reflexivity.
  - exact H.
Defined.
