(* ===== verification/Consistency.v ===== *)
(** * Comparing replicas (packages/core/src/consistency.ts, row-hash-cache.ts)

    What two hosts compare to find out where their synced tables differ: the
    hash of every row, kept in a cache table that triggers invalidate, and the
    merge that turns two sorted listings into what to push and what to pull.
    SHA-256 is the argument [sha].  Primary keys are ASCII, so that the order of
    SQLite and that of the language agree; a page of keys is looked up as a
    whole, its batches of 500 only bound the number of SQL parameters. *)
From Stdlib Require Import Ascii.
From S2P Require Import Prelude Json Hlc Store ChangeLog Reducers.

(** ** Which rows are compared *)

(** [role != 'system'], which NULL does not satisfy. *)
Definition syncableRowPredicate (tbl : string) (r : row) : bool :=
  if seqb tbl "messages"
  then match column_value "role" r with JStr s => negb (seqb s "system") | JNum _ _ => true | _ => false end
  else true.

(** [SELECT ... ORDER BY pk ASC]. *)
Definition key_lt {A} (a b : string * A) : bool := sltb a.1 b.1.
Definition rows_by_key (t : table) : list (string * row) := stable_sort key_lt (map_to_list t).
Definition backfillable (tbl : string) (db : sdb) : list (string * row) :=
  List.filter (λ kr, syncableRowPredicate tbl kr.2) (rows_by_key (table_of tbl db)).

Definition getLocalPksSorted (tbl : string) (db : sdb) : list string := (rows_by_key (table_of tbl db)).*1.
Definition getBackfillablePksSorted (tbl : string) (db : sdb) : list string := (backfillable tbl db).*1.

(** The rows of [messages] a hub would refuse, when there are any. *)
Definition countUnsyncableLocalOnly (db : sdb) (localOnlyPks : list string) : option nat :=
  match length (List.filter (λ pk, match table_of "messages" db !! pk with
                                   | Some r => match column_value "role" r with JStr s => seqb s "system" | _ => false end
                                   | None => false
                                   end) localOnlyPks) with
  | O => None
  | n => Some n
  end.

(** ** Comparing keys *)
Record pk_diff : Type := MkPkDiff { pd_localOnly : list string; pd_remoteOnly : list string; pd_matching : nat }.

Fixpoint mergeDiffPks (localPks remotePks : list string) {struct localPks} : pk_diff :=
  let fix go (remotePks : list string) : pk_diff :=
    match localPks, remotePks with
    | [], _ => MkPkDiff [] remotePks 0
    | _, [] => MkPkDiff localPks [] 0
    | l :: localPks', r :: remotePks' =>
        if sltb l r then
          let d := mergeDiffPks localPks' remotePks in MkPkDiff (l :: pd_localOnly d) (pd_remoteOnly d) (pd_matching d)
        else if sltb r l then
          let d := go remotePks' in MkPkDiff (pd_localOnly d) (r :: pd_remoteOnly d) (pd_matching d)
        else
          let d := mergeDiffPks localPks' remotePks' in MkPkDiff (pd_localOnly d) (pd_remoteOnly d) (S (pd_matching d))
    end in
  go remotePks.

Record TableDiff : Type := MkTableDiff {
  td_table : string; td_localCount : nat; td_remoteCount : nat;
  td_localOnly : list string; td_remoteOnly : list string; td_matching : nat
}.
Definition ALL_SYNCED_TABLES : list string :=
  ["users"; "threads"; "messages"; "semantic_memory"; "tasks"; "files"; "hosts"; "cluster_config"; "advisories";
   "skills"; "memory_edges"; "turns"].
Definition compare_table (db : sdb) (remoteTables : gmap string (nat * list string)) (tbl : string) : TableDiff :=
  let localPks := getLocalPksSorted tbl db in
  match remoteTables !! tbl with
  | None => MkTableDiff tbl (length localPks) 0 localPks [] 0
  | Some (count, pks) =>
      let d := mergeDiffPks localPks pks in
      MkTableDiff tbl (length localPks) count (pd_localOnly d) (pd_remoteOnly d) (pd_matching d)
  end.
Definition compareAllTables (db : sdb) (remoteTables : gmap string (nat * list string)) (tbls : option (list string))
    : list TableDiff :=
  compare_table db remoteTables <$> default ALL_SYNCED_TABLES tbls.

(** ** Row hashes *)

(** [Object.keys(row)] without [modified_at], sorted. *)
Definition canonical_fields (r : fields) : fields :=
  stable_sort key_lt (List.filter (λ kv, negb (seqb kv.1 "modified_at")) r).
Definition canonicalSerialize (r : fields) : string :=
  of_chars ("{"%char ::
    sep_by [","%char] ((λ kv, print_str kv.1 ++ ":"%char :: print_json kv.2) <$> canonical_fields r) ++ ["}"%char]).

(** [row_state_hashes]: by table and key. *)
Abbreviation hash_cache := (gmap (string * string) string).

Record CachedRowStateHashes : Type := MkCached {
  ch_hashes : gmap string string; ch_hits : nat; ch_misses : nat
}.

(** [[...new Set(pks)]]. *)
Definition unique_pks (pks : list string) : list string :=
  foldl (λ acc pk, if existsb (seqb pk) acc then acc else acc ++ [pk]) [] pks.
(** The least and the greatest key. *)
Definition utf8Range (pks : list string) : string * string :=
  match pks with
  | [] => ("", "")
  | p :: ps => foldl (λ fl pk, (if sltb pk fl.1 then pk else fl.1, if sltb fl.2 pk then pk else fl.2)) (p, p) ps
  end.

Section Hashes.
Context (sha : string → string) (sch : string → table_schema).

Definition computeRowStateHash (r : fields) : string := sha (canonicalSerialize r).
Definition row_hash (tbl : string) (r : row) : string := computeRowStateHash (row_object (sch tbl) r).

(** The hashes of the rows that exist among [pks]. *)
Definition uncached_hashes (tbl : string) (t : table) (pks : list string) : gmap string string :=
  foldl (λ m pk, match t !! pk with Some r => <[pk := row_hash tbl r]> m | None => m end) ∅ pks.
(** [SELECT pk, state_hash ... WHERE table_name = ? AND pk >= ? AND pk <= ?],
    kept for the keys asked for. *)
Definition cached_rows (tbl first last : string) (cache : hash_cache) : list (string * string) :=
  omap (λ e, if seqb e.1.1 tbl && sleb first e.1.2 && sleb e.1.2 last then Some (e.1.2, e.2) else None) (map_to_list cache).
(** A miss reads the row and stores its hash. *)
Definition populate (tbl : string) (t : table) (missing : list string) (st : gmap string string * hash_cache)
    : gmap string string * hash_cache :=
  foldl (λ st pk, match t !! pk with
                  | Some r => (<[pk := row_hash tbl r]> st.1, <[(tbl, pk) := row_hash tbl r]> st.2)
                  | None => st
                  end) st missing.

(** The cache is [None] when the cache table is absent. *)
Definition getCachedRowStateHashes (tbl : string) (pks : list string) (db : sdb) (cache : option hash_cache)
    : CachedRowStateHashes * option hash_cache :=
  match pks with
  | [] => (MkCached ∅ 0 0, cache)
  | _ =>
      let uniquePks := unique_pks pks in
      match cache with
      | None => (MkCached (uncached_hashes tbl (table_of tbl db) uniquePks) 0 (length uniquePks), None)
      | Some c =>
          let '(firstPk, lastPk) := utf8Range uniquePks in
          let hashes := list_to_map (List.filter (λ ph, existsb (seqb ph.1) uniquePks) (cached_rows tbl firstPk lastPk c)) in
          let missing := List.filter (λ pk, match hashes !! pk with Some _ => false | None => true end) uniquePks in
          let '(hashes', c') := populate tbl (table_of tbl db) missing (hashes, c) in
          (MkCached hashes' (length uniquePks - length missing) (length missing), Some c')
      end
  end.

(** ** Invalidation

    The triggers of [installRowHashInvalidationTriggers]: a write of a synced
    table drops the cached hash of the key it wrote; an update that moves a row
    drops that of its new key. *)
Inductive row_write : Type :=
| RowInserted (k : string) (r : row)
| RowUpdated (k k' : string) (r : row)
| RowDeleted (k : string).
Definition write_table (w : row_write) (t : table) : table :=
  match w with
  | RowInserted k r => <[k := r]> t
  | RowUpdated k k' r => <[k' := r]> (delete k t)
  | RowDeleted k => delete k t
  end.
Definition invalidated (w : row_write) : string :=
  match w with RowInserted k _ => k | RowUpdated _ k' _ => k' | RowDeleted k => k end.
Definition has_triggers (tbl : string) : bool := existsb (seqb tbl) SYNCED_TABLE_NAMES.
Definition trigger_write (tbl : string) (w : row_write) (st : sdb * option hash_cache) : sdb * option hash_cache :=
  (with_table tbl (write_table w (table_of tbl st.1)) st.1,
   if has_triggers tbl then delete (tbl, invalidated w) <$> st.2 else st.2).

(** ** Entries *)
Record ConsistencyEntry : Type := MkConsistency {
  en_pk : string; en_hash : string; en_modified_at : option string
}.

(** [rows.flatMap]: a row without a hash is left out. *)
Definition entry_of (hashes : gmap string string) (kr : string * row) : option ConsistencyEntry :=
  match hashes !! kr.1 with
  | Some h => if nonempty h
              then Some (MkConsistency kr.1 h (match column_value "modified_at" kr.2 with JStr s => Some s | _ => None end))
              else None
  | None => None
  end.
Definition getBackfillableEntriesSorted (tbl : string) (db : sdb) (cache : option hash_cache)
    : list ConsistencyEntry * option hash_cache :=
  let rows := backfillable tbl db in
  let '(cached, cache') := getCachedRowStateHashes tbl rows.*1 db cache in
  (omap (entry_of (ch_hashes cached)) rows, cache').
End Hashes.

(** ** Comparing entries *)
Record ConsistencyDiff : Type := MkDiff {
  df_localOnly : list string;
  df_remoteOnly : list string;
  df_localNewerMismatch : list string;
  df_remoteNewerMismatch : list string;
  df_matching : nat
}.
Definition no_diff : ConsistencyDiff := MkDiff [] [] [] [] 0.
Definition local_only (pk : string) (d : ConsistencyDiff) : ConsistencyDiff :=
  MkDiff (pk :: df_localOnly d) (df_remoteOnly d) (df_localNewerMismatch d) (df_remoteNewerMismatch d) (df_matching d).
Definition remote_only (pk : string) (d : ConsistencyDiff) : ConsistencyDiff :=
  MkDiff (df_localOnly d) (pk :: df_remoteOnly d) (df_localNewerMismatch d) (df_remoteNewerMismatch d) (df_matching d).
(** [localMa != null && remoteMa != null && localMa > remoteMa]. *)
Definition local_newer (l r : ConsistencyEntry) : bool :=
  match en_modified_at l, en_modified_at r with Some a, Some b => sltb b a | _, _ => false end.
Definition in_both (l r : ConsistencyEntry) (d : ConsistencyDiff) : ConsistencyDiff :=
  if seqb (en_hash l) (en_hash r) then
    MkDiff (df_localOnly d) (df_remoteOnly d) (df_localNewerMismatch d) (df_remoteNewerMismatch d) (S (df_matching d))
  else if local_newer l r then
    MkDiff (df_localOnly d) (df_remoteOnly d) (en_pk l :: df_localNewerMismatch d) (df_remoteNewerMismatch d) (df_matching d)
  else
    MkDiff (df_localOnly d) (df_remoteOnly d) (df_localNewerMismatch d) (en_pk l :: df_remoteNewerMismatch d) (df_matching d).

Fixpoint mergeDiffEntries (local remote : list ConsistencyEntry) {struct local} : ConsistencyDiff :=
  let fix go (remote : list ConsistencyEntry) : ConsistencyDiff :=
    match local, remote with
    | [], _ => foldr (λ r, remote_only (en_pk r)) no_diff remote
    | _, [] => foldr (λ l, local_only (en_pk l)) no_diff local
    | l :: local', r :: remote' =>
        if sltb (en_pk l) (en_pk r) then local_only (en_pk l) (mergeDiffEntries local' remote)
        else if sltb (en_pk r) (en_pk l) then remote_only (en_pk r) (go remote')
        else in_both l r (mergeDiffEntries local' remote')
    end in
  go remote.

(** ** Sorted listings *)
Definition key_before {A} (key : A → string) (a b : A) : Prop := key a <s key b.
Abbreviation sorted_by key l := (StronglySorted (key_before key) l).

Lemma sorted_not_in {A} (key : A → string) (x : A) (l : list A) :
  Forall (key_before key x) l → key x ∉ key <$> l.
Proof.
  intros Hall Hin. apply list_elem_of_fmap in Hin as (y & Hy & Hin). rewrite Forall_forall in Hall.
  apply Hall in Hin. unfold key_before in Hin. by rewrite Hy, sltb_irrefl in Hin.
Qed.
Lemma sorted_nodup {A} (key : A → string) (l : list A) : sorted_by key l → NoDup (key <$> l).
Proof. induction 1 as [|x l _ IH Hall]; [constructor|]. constructor; [by apply sorted_not_in|done]. Qed.
Lemma by_key_filter {A} (key : A → string) (p : A → bool) (l : list A) :
  sorted_by key l → sorted_by key (List.filter p l).
Proof. apply sublist_StronglySorted, filter_sublist. Qed.
Lemma sorted_fmap {A B} (key : B → string) (f : A → B) (l : list A) :
  sorted_by (λ a, key (f a)) l → sorted_by key (f <$> l).
Proof.
  induction 1 as [|x l _ IH Hall]; [constructor|]. constructor; [done|]. by apply Forall_fmap.
Qed.

(** A strictly sorted listing is determined by its members. *)
Lemma sorted_unique {A} (key : A → string) (l1 l2 : list A) :
  sorted_by key l1 → sorted_by key l2 → (∀ x, x ∈ l1 ↔ x ∈ l2) → l1 = l2.
Proof.
  intros H1 H2 Hin. assert (AntiSymm eq (key_before key)) as Hanti.
  { intros x y Hxy Hyx. unfold key_before in *. apply sltb_asym in Hxy. congruence. }
  apply (StronglySorted_unique (key_before key)); [done|done|].
  apply NoDup_Permutation; [by eapply NoDup_fmap_1, sorted_nodup..|done].
Qed.

Lemma by_key_le {A} (l : list (string * A)) :
  StronglySorted (cmp_le key_lt) (stable_sort key_lt l).
Proof.
  apply stable_sort_sorted; unfold key_lt; intros a b.
  - intros c H1 H2. rewrite sltb_sleb in H1, H2 |- *. apply negb_false_iff in H1, H2. apply negb_false_iff. by eapply sleb_trans.
  - intros H. by apply sltb_asym.
Qed.
(** A listing with distinct keys is strictly sorted. *)
Lemma by_key_sorted {A} (l : list (string * A)) : NoDup l.*1 → sorted_by fst (stable_sort key_lt l).
Proof.
  intros Hnd. assert (NoDup (stable_sort key_lt l).*1) as Hnd' by (by rewrite stable_sort_perm).
  revert Hnd'. induction (by_key_le l) as [|x s Hs IH Hall]; [constructor|]. intros [Hx Hnd']%NoDup_cons.
  constructor; [by apply IH|]. rewrite Forall_forall in Hall |- *. intros y Hy. pose proof (Hall y Hy) as Hle.
  unfold cmp_le, key_lt in Hle. destruct (sltb_total x.1 y.1) as [?|Hlt]; [|done|by rewrite Hlt in Hle].
  intros Heq. apply Hx. rewrite Heq. by apply list_elem_of_fmap_2.
Qed.

Lemma rows_by_key_sorted t : sorted_by fst (rows_by_key t).
Proof. apply by_key_sorted, NoDup_fst_map_to_list. Qed.
Lemma elem_of_rows_by_key t k r : (k, r) ∈ rows_by_key t ↔ t !! k = Some r.
Proof. unfold rows_by_key. rewrite elem_of_stable_sort. apply elem_of_map_to_list. Qed.
Lemma backfillable_sorted tbl db : sorted_by fst (backfillable tbl db).
Proof. apply by_key_filter, rows_by_key_sorted. Qed.
Lemma elem_of_backfillable tbl db k r :
  (k, r) ∈ backfillable tbl db ↔ table_of tbl db !! k = Some r ∧ syncableRowPredicate tbl r = true.
Proof. unfold backfillable. by rewrite filter_In_iff, elem_of_rows_by_key. Qed.

(** ** The merge against its reference *)
Definition find_pk (pk : string) (es : list ConsistencyEntry) : option ConsistencyEntry :=
  List.find (λ e, seqb (en_pk e) pk) es.
Arguments find_pk : simpl never.
Definition absent_from (es : list ConsistencyEntry) (e : ConsistencyEntry) : bool :=
  match find_pk (en_pk e) es with Some _ => false | None => true end.
(** The entries of both sides, by key. *)
Definition common (local remote : list ConsistencyEntry) : list (ConsistencyEntry * ConsistencyEntry) :=
  omap (λ l, (λ r, (l, r)) <$> find_pk (en_pk l) remote) local.
Definition same_hash (lr : ConsistencyEntry * ConsistencyEntry) : bool := seqb (en_hash lr.1) (en_hash lr.2).
Definition diff_reference (local remote : list ConsistencyEntry) : ConsistencyDiff :=
  let differing := List.filter (λ lr, negb (same_hash lr)) (common local remote) in
  MkDiff (en_pk <$> List.filter (absent_from remote) local)
         (en_pk <$> List.filter (absent_from local) remote)
         ((λ lr, en_pk lr.1) <$> List.filter (λ lr, local_newer lr.1 lr.2) differing)
         ((λ lr, en_pk lr.1) <$> List.filter (λ lr, negb (local_newer lr.1 lr.2)) differing)
         (length (List.filter same_hash (common local remote))).

Lemma find_pk_none pk es : find_pk pk es = None ↔ pk ∉ en_pk <$> es.
Proof.
  unfold find_pk. induction es as [|e es IH]; simpl; [set_solver|]. destruct (seqb (en_pk e) pk) eqn:E.
  - apply seqb_true in E. split; [done|]. rewrite E. intros H. exfalso. apply H. left.
  - apply seqb_false in E. rewrite IH, not_elem_of_cons. naive_solver.
Qed.
Lemma find_pk_skip pk e es : en_pk e ≠ pk → find_pk pk (e :: es) = find_pk pk es.
Proof. intros H. unfold find_pk. simpl. by rewrite (proj2 (seqb_false _ _) H). Qed.
Lemma find_pk_here e es : find_pk (en_pk e) (e :: es) = Some e.
Proof. unfold find_pk. simpl. by rewrite seqb_refl. Qed.
Lemma common_cons l local remote : common (l :: local) remote =
  match find_pk (en_pk l) remote with Some r => (l, r) :: common local remote | None => common local remote end.
Proof. unfold common. simpl. by destruct (find_pk (en_pk l) remote). Qed.
Lemma common_skip local r remote : en_pk r ∉ en_pk <$> local → common local (r :: remote) = common local remote.
Proof.
  induction local as [|l local IH]; [done|]. rewrite fmap_cons, not_elem_of_cons. intros [H1 H2].
  by rewrite !common_cons, find_pk_skip, IH.
Qed.
Lemma absent_skip r es local : en_pk r ∉ en_pk <$> local →
  List.filter (absent_from (r :: es)) local = List.filter (absent_from es) local.
Proof.
  induction local as [|l local IH]; simpl; [done|]. rewrite not_elem_of_cons. intros [H1 H2].
  rewrite IH by done. unfold absent_from. by rewrite find_pk_skip.
Qed.
Lemma absent_nil es : List.filter (absent_from []) es = es.
Proof. induction es as [|e es IH]; [done|]. simpl. by rewrite IH. Qed.
Lemma foldr_local es : foldr (λ l, local_only (en_pk l)) no_diff es = MkDiff (en_pk <$> es) [] [] [] 0.
Proof. induction es as [|e es IH]; [done|]. simpl. by rewrite IH. Qed.
Lemma foldr_remote es : foldr (λ r, remote_only (en_pk r)) no_diff es = MkDiff [] (en_pk <$> es) [] [] 0.
Proof. induction es as [|e es IH]; [done|]. simpl. by rewrite IH. Qed.
Lemma common_nil local : common local [] = [].
Proof. unfold common. by induction local. Qed.

Lemma reference_local l local remote : en_pk l ∉ en_pk <$> remote →
  diff_reference (l :: local) remote = local_only (en_pk l) (diff_reference local remote).
Proof.
  intros H. assert (find_pk (en_pk l) remote = None) as E by (by apply find_pk_none).
  unfold diff_reference, local_only. cbv zeta. rewrite common_cons, E. simpl.
  unfold absent_from at 1. rewrite E. simpl. by rewrite absent_skip.
Qed.
Lemma reference_remote r local remote : en_pk r ∉ en_pk <$> local →
  diff_reference local (r :: remote) = remote_only (en_pk r) (diff_reference local remote).
Proof.
  intros H. unfold diff_reference, remote_only. cbv zeta. rewrite common_skip, absent_skip by done. simpl.
  unfold absent_from at 2. by rewrite (proj2 (find_pk_none _ _) H).
Qed.
Lemma reference_both l r local remote :
  en_pk l = en_pk r → en_pk r ∉ en_pk <$> local → en_pk l ∉ en_pk <$> remote →
  diff_reference (l :: local) (r :: remote) = in_both l r (diff_reference local remote).
Proof.
  intros Heq Hl Hr. assert (common (l :: local) (r :: remote) = (l, r) :: common local remote) as Hc.
  { rewrite common_cons, Heq, find_pk_here. f_equal. by apply common_skip. }
  assert (absent_from (r :: remote) l = false) as Ha by (unfold absent_from; by rewrite Heq, find_pk_here).
  assert (absent_from (l :: local) r = false) as Hb by (unfold absent_from; by rewrite <-Heq, find_pk_here).
  unfold diff_reference. cbv zeta. rewrite Hc. simpl. rewrite Ha, Hb, absent_skip, (absent_skip l) by done.
  unfold in_both, same_hash. simpl. destruct (seqb (en_hash l) (en_hash r)); simpl; [done|].
  by destruct (local_newer l r).
Qed.

Lemma merge_reference local remote :
  sorted_by en_pk local → sorted_by en_pk remote → mergeDiffEntries local remote = diff_reference local remote.
Proof.
  intros Hl. revert remote. induction Hl as [|l local Hl IHl Hall]; intros remote Hr.
  { destruct remote as [|r remote]; [done|]. cbn [mergeDiffEntries]. rewrite foldr_remote. unfold diff_reference. simpl.
    by rewrite absent_nil. }
  induction Hr as [|r remote Hr IHr Hallr].
  { change (mergeDiffEntries (l :: local) []) with (foldr (λ l, local_only (en_pk l)) no_diff (l :: local)).
    rewrite foldr_local. unfold diff_reference. cbv zeta. by rewrite absent_nil, common_nil. }
  change (mergeDiffEntries (l :: local) (r :: remote)) with
    (if sltb (en_pk l) (en_pk r) then local_only (en_pk l) (mergeDiffEntries local (r :: remote))
     else if sltb (en_pk r) (en_pk l) then remote_only (en_pk r) (mergeDiffEntries (l :: local) remote)
     else in_both l r (mergeDiffEntries local remote)).
  destruct (sltb (en_pk l) (en_pk r)) eqn:E1; [|destruct (sltb (en_pk r) (en_pk l)) eqn:E2].
  - rewrite IHl by (by constructor). symmetry. apply reference_local, (sorted_not_in en_pk l (r :: remote)).
    constructor; [done|]. eapply Forall_impl; [exact Hallr|]. intros y. by apply sltb_trans.
  - rewrite IHr. symmetry. apply reference_remote, (sorted_not_in en_pk r (l :: local)).
    constructor; [done|]. eapply Forall_impl; [exact Hall|]. intros y. by apply sltb_trans.
  - assert (en_pk l = en_pk r) as Heq.
    { apply sleb_antisym; rewrite sleb_sltb; by apply negb_true_iff. }
    rewrite IHl by done. symmetry. apply reference_both; [done|rewrite <-Heq|rewrite Heq]; by apply sorted_not_in.
Qed.

(** ** Hashes identify rows *)
Lemma canonical_stringify r : canonicalSerialize r = json_stringify (JObj (canonical_fields r)).
Proof. done. Qed.
Lemma elem_of_canonical kv r : kv ∈ canonical_fields r ↔ kv ∈ r ∧ kv.1 ≠ "modified_at".
Proof.
  unfold canonical_fields. rewrite elem_of_stable_sort, filter_In_iff, negb_true_iff, seqb_false. done.
Qed.
Lemma canonical_wf r : NoDup r.*1 → Forall (λ kv, json_wf kv.2) r → json_wf (JObj (canonical_fields r)).
Proof.
  intros Hnd Hwf. apply json_wf_obj. split.
  - unfold canonical_fields. rewrite stable_sort_perm. by apply NoDup_fmap_filter.
  - rewrite Forall_forall in Hwf |- *. intros kv Hkv. apply Hwf. by apply elem_of_canonical in Hkv as [? _].
Qed.

(** The rows of a table as the schema has them. *)
Definition object_wf (ts : table_schema) (r : row) : Prop := ∀ c, c ∈ ts_columns ts → json_wf (column_value c r).
(** Equal but for the column that every write stamps. *)
Definition same_content (ts : table_schema) (r r' : row) : Prop :=
  ∀ c, c ∈ ts_columns ts → c ≠ "modified_at" → column_value c r = column_value c r'.

Lemma row_object_keys ts r : (row_object ts r).*1 = ts_columns ts.
Proof. unfold row_object. rewrite <-list_fmap_compose. apply list_fmap_id. Qed.
Lemma elem_of_row_object ts r c v : (c, v) ∈ row_object ts r ↔ c ∈ ts_columns ts ∧ v = column_value c r.
Proof. unfold row_object. rewrite list_elem_of_fmap. naive_solver. Qed.

Section HashFacts.
Context (sha : string → string) (sch : string → table_schema).

Lemma hash_same_content tbl r r' : same_content (sch tbl) r r' → row_hash sha sch tbl r = row_hash sha sch tbl r'.
Proof using.
  intros Hs. unfold row_hash, computeRowStateHash, canonicalSerialize, canonical_fields.
  enough (List.filter (λ kv, negb (seqb kv.1 "modified_at")) (row_object (sch tbl) r) =
          List.filter (λ kv, negb (seqb kv.1 "modified_at")) (row_object (sch tbl) r')) as -> by done.
  unfold same_content, row_object in *. induction (ts_columns (sch tbl)) as [|c cs IH]; [done|].
  rewrite !fmap_cons. cbn [List.filter fst]. rewrite IH by (intros c' Hc'; apply Hs; by right).
  destruct (seqb c "modified_at") eqn:E; [done|]. cbn [negb].
  rewrite (Hs c); [done|left|by apply seqb_false].
Qed.

Hypothesis sha_injective : ∀ s s', sha s = sha s' → s = s'.
Lemma hash_identifies tbl r r' :
  NoDup (ts_columns (sch tbl)) → object_wf (sch tbl) r → object_wf (sch tbl) r' →
  row_hash sha sch tbl r = row_hash sha sch tbl r' ↔ same_content (sch tbl) r r'.
Proof using sha_injective.
  intros Hnd Hr Hr'. split; [|apply hash_same_content]. intros Heq%sha_injective c Hc Hne.
  rewrite !canonical_stringify in Heq.
  assert (∀ x, object_wf (sch tbl) x → json_parse (json_stringify (JObj (canonical_fields (row_object (sch tbl) x)))) =
    Some (JObj (canonical_fields (row_object (sch tbl) x)))) as Hrt.
  { intros x Hx. apply json_roundtrip, canonical_wf; [by rewrite row_object_keys|]. apply Forall_forall.
    intros [c' v] [Hc' ->]%elem_of_row_object. by apply Hx. }
  assert (canonical_fields (row_object (sch tbl) r) = canonical_fields (row_object (sch tbl) r')) as Hf.
  { pose proof (Hrt r Hr) as H. rewrite Heq, (Hrt r' Hr') in H. congruence. }
  assert ((c, column_value c r) ∈ canonical_fields (row_object (sch tbl) r')) as Hin.
  { rewrite <-Hf. apply elem_of_canonical. split; [by apply elem_of_row_object|done]. }
  by apply elem_of_canonical in Hin as [[_ ?]%elem_of_row_object _].
Qed.
End HashFacts.

(** ** The cache *)
Lemma unique_pks_acc pks acc pk :
  pk ∈ foldl (λ acc pk, if existsb (seqb pk) acc then acc else acc ++ [pk]) acc pks ↔ pk ∈ acc ∨ pk ∈ pks.
Proof.
  revert acc. induction pks as [|p pks IH]; intros acc; simpl; [set_solver|]. rewrite IH.
  destruct (existsb (seqb p) acc) eqn:E; [apply existsb_elem in E|]; set_solver.
Qed.
Lemma elem_of_unique pk pks : pk ∈ unique_pks pks ↔ pk ∈ pks.
Proof. unfold unique_pks. rewrite unique_pks_acc. set_solver. Qed.

Lemma utf8Range_acc ps lo hi : lo ≤s hi →
  let '(first, last) := foldl (λ fl pk, (if sltb pk fl.1 then pk else fl.1, if sltb fl.2 pk then pk else fl.2)) (lo, hi) ps in
  first ≤s lo ∧ hi ≤s last ∧ ∀ pk, pk ∈ ps → first ≤s pk ∧ pk ≤s last.
Proof.
  revert lo hi. induction ps as [|p ps IH]; intros lo hi Hle; simpl; [split_and!; [apply sleb_refl..|set_solver]|].
  set (lo' := if sltb p lo then p else lo). set (hi' := if sltb hi p then p else hi).
  assert (lo' ≤s lo ∧ lo' ≤s p) as [Hlo Hlop].
  { subst lo'. destruct (sltb p lo) eqn:E; (split; [|]); try apply sleb_refl; [by apply sltb_sleb_weak|].
    rewrite sltb_sleb in E. by apply negb_false_iff in E. }
  assert (hi ≤s hi' ∧ p ≤s hi') as [Hhi Hhip].
  { subst hi'. destruct (sltb hi p) eqn:E; (split; [|]); try apply sleb_refl; [by apply sltb_sleb_weak|].
    rewrite sltb_sleb in E. by apply negb_false_iff in E. }
  pose proof (IH lo' hi') as H. destruct (foldl _ _ _) as [first last]. destruct H as (H1 & H2 & H3).
  { eapply sleb_trans; [exact Hlo|]. by eapply sleb_trans. }
  split_and!; [by eapply sleb_trans..|]. intros pk [->|Hpk]%elem_of_cons; [|by apply H3].
  split; by eapply sleb_trans.
Qed.
Lemma utf8Range_bounds pks pk : pk ∈ pks → (utf8Range pks).1 ≤s pk ∧ pk ≤s (utf8Range pks).2.
Proof.
  destruct pks as [|p ps]; [set_solver|]. intros Hpk. unfold utf8Range.
  pose proof (utf8Range_acc ps p p (sleb_refl p)) as H. destruct (foldl _ _ _) as [first last]. simpl.
  destruct H as (H1 & H2 & H3). by apply elem_of_cons in Hpk as [->|Hpk]; [|apply H3].
Qed.

Section CacheFacts.
Context (sha : string → string) (sch : string → table_schema).
Abbreviation hash_of := (row_hash sha sch).

(** A cached hash is that of the row, when there is one. *)
Definition cache_right (db : sdb) (c : hash_cache) : Prop :=
  ∀ tbl pk h r, c !! (tbl, pk) = Some h → table_of tbl db !! pk = Some r → h = hash_of tbl r.
(** Only tables whose writes are watched are cached. *)
Definition cache_watched (c : hash_cache) : Prop := ∀ tbl pk h, c !! (tbl, pk) = Some h → has_triggers tbl = true.
Definition cache_ok (db : sdb) (c : hash_cache) : Prop := cache_watched c ∧ cache_right db c.
(** What a lookup promises of the keys it was asked for. *)
Definition hashes_ok (tbl : string) (t : table) (pks : list string) (m : gmap string string) : Prop :=
  ∀ pk r, pk ∈ pks → t !! pk = Some r → m !! pk = Some (hash_of tbl r).

Lemma uncached_spec tbl t pks : hashes_ok tbl t pks (uncached_hashes sha sch tbl t pks).
Proof using.
  unfold hashes_ok, uncached_hashes.
  assert (∀ (m : gmap string string) pk r, t !! pk = Some r → (pk ∈ pks ∨ m !! pk = Some (hash_of tbl r)) →
    foldl (λ m pk, match t !! pk with Some r => <[pk := hash_of tbl r]> m | None => m end) m pks !! pk = Some (hash_of tbl r)) as H;
    [|intros pk r Hpk Hr; apply H; [done|by left]].
  induction pks as [|p pks IH]; intros m pk r Hr Hpk; simpl; [destruct Hpk as [?%not_elem_of_nil|]; done|].
  apply IH; [done|]. destruct (decide (pk = p)) as [->|Hne].
  - right. rewrite Hr. apply lookup_insert_eq.
  - destruct Hpk as [[?|Hpk]%elem_of_cons|Hpk]; [done|by left|right]. destruct (t !! p); [by rewrite lookup_insert_ne|done].
Qed.

Lemma populate_spec tbl db missing m c :
  cache_right db c →
  let '(m', c') := populate sha sch tbl (table_of tbl db) missing (m, c) in
  cache_right db c' ∧ (has_triggers tbl = true → cache_watched c → cache_watched c') ∧
  (∀ pk r, table_of tbl db !! pk = Some r → pk ∈ missing ∨ m !! pk = Some (hash_of tbl r) → m' !! pk = Some (hash_of tbl r)).
Proof using.
  unfold populate. revert m c. induction missing as [|p missing IH]; intros m c Hc; simpl.
  { split_and!; [done|done|]. by intros pk r _ [?%not_elem_of_nil|]. }
  destruct (table_of tbl db !! p) as [rp|] eqn:Ep.
  - pose proof (IH (<[p := hash_of tbl rp]> m) (<[(tbl, p) := hash_of tbl rp]> c)) as H.
    destruct (foldl _ _ _) as [m' c']. destruct H as (H1 & H2 & H3).
    { intros tbl' pk h r. destruct (decide ((tbl, p) = (tbl', pk))) as [[= <- <-]|Hne].
      + rewrite lookup_insert_eq, Ep. by intros [= <-] [= <-].
      + rewrite lookup_insert_ne by done. apply Hc. }
    split_and!; [done|..].
    + intros Htr Hw. apply H2; [done|]. intros tbl' pk h. destruct (decide ((tbl, p) = (tbl', pk))) as [[= <- <-]|Hne]; [done|].
      rewrite lookup_insert_ne by done. apply Hw.
    + intros pk r Hr Hpk. apply H3; [done|]. destruct (decide (pk = p)) as [->|Hne].
      * right. rewrite lookup_insert_eq. congruence.
      * destruct Hpk as [[?|?]%elem_of_cons|?]; [done|by left|right; by rewrite lookup_insert_ne].
  - pose proof (IH m c Hc) as H. destruct (foldl _ _ _) as [m' c']. destruct H as (H1 & H2 & H3). split_and!; [done..|].
    intros pk r Hr Hpk. apply H3; [done|]. destruct Hpk as [[->|?]%elem_of_cons|?]; [congruence|by left|by right].
Qed.

Lemma cached_rows_elem (tbl first last : string) (c : hash_cache) (pk h : string) :
  (pk, h) ∈ cached_rows tbl first last c ↔ c !! (tbl, pk) = Some h ∧ first ≤s pk ∧ pk ≤s last.
Proof using.
  unfold cached_rows. rewrite list_elem_of_omap. split.
  - intros ([[tbl' pk'] h'] & Hin & He). simpl in He. destruct (seqb tbl' tbl && sleb first pk' && sleb pk' last) eqn:E; [|done].
    injection He as -> ->. apply andb_true_iff in E as [[E1%seqb_true E2]%andb_true_iff E3]. subst.
    by apply elem_of_map_to_list in Hin.
  - intros (Hin & H1 & H2). exists ((tbl, pk), h). split; [by apply elem_of_map_to_list|]. simpl.
    by rewrite seqb_refl, H1, H2.
Qed.
Lemma cached_rows_nodup (tbl first last : string) (c : hash_cache) : NoDup (cached_rows tbl first last c).*1.
Proof using.
  unfold cached_rows. assert (NoDup (map_to_list c).*1) as Hnd by apply NoDup_fst_map_to_list.
  induction (map_to_list c) as [|[[tbl' pk] h] l IH]; [constructor|]. apply NoDup_cons in Hnd as [Hx Hnd]. simpl.
  destruct (seqb tbl' tbl && sleb first pk && sleb pk last) eqn:E; [|by apply IH]. simpl.
  apply NoDup_cons. split; [|by apply IH]. apply andb_true_iff in E as [[E1%seqb_true _]%andb_true_iff _]. subst.
  intros ([pk' h'] & -> & Hin)%list_elem_of_fmap. apply list_elem_of_omap in Hin as ([[tbl' pk''] h''] & Hin & He).
  simpl in He. destruct (seqb tbl' tbl && sleb first pk'' && sleb pk'' last) eqn:E'; [|done]. injection He as -> ->.
  apply andb_true_iff in E' as [[E1%seqb_true _]%andb_true_iff _]. subst. apply Hx. simpl.
  apply list_elem_of_fmap. by exists ((tbl, pk'), h').
Qed.

(** A lookup keeps the cache right and finds the hash of every row. *)
Lemma lookup_spec tbl pks db cache :
  (∀ c, cache = Some c → cache_right db c) →
  let '(ch, cache') := getCachedRowStateHashes sha sch tbl pks db cache in
  hashes_ok tbl (table_of tbl db) pks (ch_hashes ch) ∧ (∀ c, cache' = Some c → cache_right db c) ∧
  (has_triggers tbl = true → (∀ c, cache = Some c → cache_watched c) → ∀ c, cache' = Some c → cache_watched c).
Proof using.
  intros Hok. unfold getCachedRowStateHashes. destruct pks as [|p pks'] eqn:Epks; [split_and!; [intros ??; set_solver|done..]|].
  rewrite <-Epks. clear Epks p pks'. cbv zeta. destruct cache as [c|].
  2: { split; [|done]. intros pk r Hpk. apply uncached_spec. by apply elem_of_unique. }
  specialize (Hok c eq_refl). destruct (utf8Range (unique_pks pks)) as [first last] eqn:Er.
  set (m := list_to_map _). set (missing := List.filter _ _).
  pose proof (populate_spec tbl db missing m c Hok) as H. destruct (populate _ _ _ _ _ _) as [m' c'].
  destruct H as (H1 & H2 & H3). simpl. split_and!; [|by intros ? [= <-]|].
  - intros pk r Hpk Hr. apply H3; [done|]. destruct (m !! pk) as [h|] eqn:Em.
    + right. f_equal. apply elem_of_list_to_map_2 in Em. apply filter_In_iff in Em as [Em _]. apply cached_rows_elem in Em as (Em & _).
      by apply (Hok tbl pk h r).
    + left. subst missing. apply filter_In_iff. split; [by apply elem_of_unique|]. by rewrite Em.
  - intros Htr Hw ? [= <-]. by apply H2, Hw.
Qed.

Lemma trigger_write_table tbl w db cache tbl' :
  table_of tbl' (trigger_write tbl w (db, cache)).1 =
  if seqb tbl tbl' then write_table w (table_of tbl db) else table_of tbl' db.
Proof using.
  unfold table_of, trigger_write, with_table. simpl. destruct (seqb tbl tbl') eqn:E.
  - apply seqb_true in E as ->. by rewrite lookup_insert_eq.
  - apply seqb_false in E. by rewrite lookup_insert_ne.
Qed.
(** A watched write leaves no stale hash. *)
Lemma trigger_right tbl w db cache :
  has_triggers tbl = true → (∀ c, cache = Some c → cache_right db c) →
  ∀ c, (trigger_write tbl w (db, cache)).2 = Some c → cache_right (trigger_write tbl w (db, cache)).1 c.
Proof using.
  intros Htr Hok c Hc tbl' pk h r. rewrite trigger_write_table.
  unfold trigger_write in Hc. simpl in Hc. rewrite Htr in Hc. destruct cache as [c0|]; [|done]. injection Hc as <-.
  specialize (Hok c0 eq_refl). rewrite lookup_delete_Some. intros [Hne Hh].
  destruct (seqb tbl tbl') eqn:E; [|by apply Hok]. apply seqb_true in E as <-. intros Hr. apply (Hok tbl pk); [done|].
  destruct w; simpl in *; rewrite ?lookup_insert_ne, ?lookup_delete_Some in Hr by congruence; naive_solver.
Qed.
Lemma trigger_ok tbl w db cache :
  (∀ c, cache = Some c → cache_ok db c) →
  let '(db', cache') := trigger_write tbl w (db, cache) in ∀ c, cache' = Some c → cache_ok db' c.
Proof using.
  intros Hok. destruct (trigger_write tbl w (db, cache)) as [db' cache'] eqn:E. intros c Hc. split.
  - unfold trigger_write in E. injection E as _ <-. simpl in Hc. destruct cache as [c0|]; [|by destruct (has_triggers tbl)].
    intros tbl' pk h Hh. destruct (Hok c0 eq_refl) as [H1 _]. destruct (has_triggers tbl); injection Hc as <-; [|by eapply H1].
    apply lookup_delete_Some in Hh as [_ Hh]. by eapply H1.
  - destruct (has_triggers tbl) eqn:Htr.
    + pose proof (trigger_right tbl w db cache Htr (λ c0 Hc0, proj2 (Hok c0 Hc0)) c) as H. rewrite E in H. by apply H.
    + intros tbl' pk h r Hh. pose proof (trigger_write_table tbl w db cache tbl') as Ht. rewrite E in Ht. simpl in Ht. rewrite Ht.
      unfold trigger_write in E. simpl in E. rewrite Htr in E. injection E as _ <-. destruct (Hok c Hc) as [H1 H2].
      destruct (seqb tbl tbl') eqn:Es; [|by apply H2]. apply seqb_true in Es as <-. apply H1 in Hh. congruence.
Qed.
End CacheFacts.

(** ** A host's listing *)

(** What happens to a host's tables and cache: writes, and lookups for the
    comparison of a synced table. *)
Inductive cache_event : Type :=
| Wrote (tbl : string) (w : row_write)
| LookedUp (tbl : string) (pks : list string).
Definition compared (e : cache_event) : bool := match e with Wrote _ _ => true | LookedUp tbl _ => has_triggers tbl end.
Definition cache_step (sha : string → string) (sch : string → table_schema) (st : sdb * option hash_cache) (e : cache_event)
    : sdb * option hash_cache :=
  match e with
  | Wrote tbl w => trigger_write tbl w st
  | LookedUp tbl pks => (st.1, (getCachedRowStateHashes sha sch tbl pks st.1 st.2).2)
  end.
(** A host that starts with an empty cache, or without the cache table. *)
Definition cache_run (sha : string → string) (sch : string → table_schema) (db : sdb) (cached : bool) (es : list cache_event) : sdb * option hash_cache :=
  foldl (cache_step sha sch) (db, if cached then Some ∅ else None) es.

Definition stamp (r : row) : option string := match column_value "modified_at" r with JStr s => Some s | _ => None end.
Definition fresh_entry (sha : string → string) (sch : string → table_schema) (tbl : string) (kr : string * row)
    : ConsistencyEntry := MkConsistency kr.1 (row_hash sha sch tbl kr.2) (stamp kr.2).
(** The row of a host under a key, if it takes part in the comparison. *)
Definition holds (tbl : string) (db : sdb) (k : string) (r : row) : Prop :=
  table_of tbl db !! k = Some r ∧ syncableRowPredicate tbl r = true.
Definition lacks (tbl : string) (db : sdb) (k : string) : Prop := ∀ r, ¬ holds tbl db k r.
Definition later (r r' : row) : bool :=
  match stamp r, stamp r' with Some a, Some b => sltb b a | _, _ => false end.

Section Listing.
Context (sha : string → string) (sch : string → table_schema).
Hypothesis sha_nonempty : ∀ s, nonempty (sha s) = true.

Lemma cache_run_ok db cached es :
  forallb compared es = true →
  let '(db', cache) := cache_run sha sch db cached es in ∀ c, cache = Some c → cache_ok sha sch db' c.
Proof using.
  unfold cache_run.
  assert (∀ st, (∀ c, st.2 = Some c → cache_ok sha sch st.1 c) → forallb compared es = true →
    ∀ c, (foldl (cache_step sha sch) st es).2 = Some c → cache_ok sha sch (foldl (cache_step sha sch) st es).1 c) as H.
  { induction es as [|e es IH]; intros [db0 cache0] Hst; [by intros _|]. cbn [forallb foldl]. intros [He Hes]%andb_true_iff.
    apply IH; [|done]. clear IH Hes es. destruct e as [tbl w|tbl pks]; unfold cache_step.
    - pose proof (trigger_ok sha sch tbl w db0 cache0 Hst) as H. by destruct (trigger_write tbl w (db0, cache0)).
    - pose proof (lookup_spec sha sch tbl pks db0 cache0 (λ c Hc, proj2 (Hst c Hc))) as H. cbn [fst snd].
      destruct (getCachedRowStateHashes _ _ _ _ _ _) as [ch c']. destruct H as (_ & H1 & H2). cbn [snd]. intros c ->.
      split; [|by apply H1]. apply (H2 He); [|done]. intros c0 Hc0. by apply Hst. }
  intros Hes. specialize (H (db, if cached then Some ∅ else None)).
  destruct (foldl _ _ _) as [db' cache'] eqn:E. simpl in H. apply H; [|done].
  destruct cached; simpl; [intros c [= <-]|done]. split; [intros tbl pk h|intros tbl pk h r]; by rewrite lookup_empty.
Qed.

(** Entries made from hashes that were looked up. *)
Lemma entries_of_hashes tbl db hashes rows :
  hashes_ok sha sch tbl (table_of tbl db) rows.*1 hashes → (∀ kr, kr ∈ rows → kr ∈ backfillable tbl db) →
  omap (entry_of hashes) rows = fresh_entry sha sch tbl <$> rows.
Proof using sha_nonempty.
  intros H Hrows. assert (Forall (λ kr, entry_of hashes kr = Some (fresh_entry sha sch tbl kr)) rows) as Hall.
  { apply Forall_forall. intros [k r] Hin. unfold entry_of. cbn [fst snd].
    rewrite (H k r); [|by apply (list_elem_of_fmap_2 fst _ (k, r))|by apply Hrows in Hin; apply (elem_of_backfillable tbl db) in Hin as [? _]].
    unfold row_hash, computeRowStateHash. rewrite sha_nonempty. done. }
  clear H Hrows. induction Hall as [|kr l Hkr _ IH]; [done|]. cbn [omap list_omap]. by rewrite Hkr, IH.
Qed.
Lemma entries_fresh tbl db cache :
  (∀ c, cache = Some c → cache_right sha sch db c) →
  (getBackfillableEntriesSorted sha sch tbl db cache).1 = fresh_entry sha sch tbl <$> backfillable tbl db.
Proof using sha_nonempty.
  intros Hok. unfold getBackfillableEntriesSorted. cbv zeta.
  pose proof (lookup_spec sha sch tbl (backfillable tbl db).*1 db cache Hok) as H.
  destruct (getCachedRowStateHashes _ _ _ _ _ _) as [ch c']. destruct H as [H _]. by apply (entries_of_hashes tbl db).
Qed.

Lemma fresh_sorted tbl db : sorted_by en_pk (fresh_entry sha sch tbl <$> backfillable tbl db).
Proof using. apply sorted_fmap, backfillable_sorted. Qed.

Lemma find_fresh tbl db k :
  find_pk k (fresh_entry sha sch tbl <$> backfillable tbl db) =
  match table_of tbl db !! k with
  | Some r => if syncableRowPredicate tbl r then Some (fresh_entry sha sch tbl (k, r)) else None
  | None => None
  end.
Proof using.
  assert (∀ r, (k, r) ∈ backfillable tbl db → find_pk k (fresh_entry sha sch tbl <$> backfillable tbl db) = Some (fresh_entry sha sch tbl (k, r))) as Hin.
  { intros r. pose proof (sorted_nodup fst _ (backfillable_sorted tbl db)) as Hnd.
    induction (backfillable tbl db) as [|[k' r'] l IH]; [by intros ?%not_elem_of_nil|]. apply NoDup_cons in Hnd as [Hk Hnd].
    rewrite fmap_cons. unfold find_pk. simpl. intros [[= -> ->]|Hr]%elem_of_cons; [by rewrite seqb_refl|].
    destruct (seqb k' k) eqn:E; [|by apply IH]. apply seqb_true in E as ->. exfalso. apply Hk. by apply (list_elem_of_fmap_2 fst _ (k, r)). }
  destruct (find_pk k (fresh_entry sha sch tbl <$> backfillable tbl db)) as [e|] eqn:E.
  - assert (k ∈ en_pk <$> (fresh_entry sha sch tbl <$> backfillable tbl db)) as Hk.
    { destruct (decide (k ∈ en_pk <$> (fresh_entry sha sch tbl <$> backfillable tbl db))) as [?|Hn]; [done|].
      apply find_pk_none in Hn. congruence. }
    rewrite <-list_fmap_compose in Hk. apply list_elem_of_fmap in Hk as ([k' r] & Hk & Hb).
    cbn [compose fresh_entry en_pk fst] in Hk. subst k'. rewrite (Hin r Hb).
    by apply elem_of_backfillable in Hb as [-> ->].
  - destruct (table_of tbl db !! k) as [r|] eqn:Er; [|done]. destruct (syncableRowPredicate tbl r) eqn:Es; [|done].
    by apply Hin, elem_of_backfillable.
Qed.
End Listing.

(** ** What the comparison finds *)
Lemma find_pk_elem k es e : NoDup (en_pk <$> es) → find_pk k es = Some e ↔ e ∈ es ∧ en_pk e = k.
Proof.
  intros Hnd. induction es as [|x es IH].
  { split; [done|]. by intros [?%elem_of_nil _]. }
  rewrite fmap_cons in Hnd. apply NoDup_cons in Hnd as [Hx Hnd]. destruct (decide (en_pk x = k)) as [<-|Hne].
  - rewrite find_pk_here. split; [intros [= <-]; split; [left|done]|]. intros [[->|Hin]%elem_of_cons He]; [done|].
    exfalso. apply Hx. rewrite <-He. by apply list_elem_of_fmap_2.
  - rewrite find_pk_skip, IH, elem_of_cons by done. naive_solver.
Qed.
Lemma elem_of_common l r local remote :
  NoDup (en_pk <$> local) → (l, r) ∈ common local remote ↔ find_pk (en_pk l) local = Some l ∧ find_pk (en_pk l) remote = Some r.
Proof.
  intros Hnd. unfold common. rewrite list_elem_of_omap, find_pk_elem by done. split.
  - intros (x & Hx & Hf). destruct (find_pk (en_pk x) remote) as [y|] eqn:E; [|done]. by injection Hf as -> ->.
  - intros [[Hl _] Hr]. exists l. by rewrite Hr.
Qed.

Section Classes.
Context (local remote : list ConsistencyEntry) (k : string).
Hypothesis local_nodup : NoDup (en_pk <$> local).
Hypothesis remote_nodup : NoDup (en_pk <$> remote).
Abbreviation d := (diff_reference local remote).

Lemma only_class es es' : NoDup (en_pk <$> es) →
  k ∈ en_pk <$> List.filter (absent_from es') es ↔ (∃ e, find_pk k es = Some e) ∧ find_pk k es' = None.
Proof using.
  intros Hnd. rewrite list_elem_of_fmap. unfold absent_from. split.
  - intros (e & -> & [He Ha]%filter_In_iff). destruct (find_pk (en_pk e) es') eqn:E; [done|].
    split; [|done]. exists e. by apply find_pk_elem.
  - intros [(e & [He <-]%find_pk_elem) Hn]; [|done]. exists e. split; [done|]. apply filter_In_iff. by rewrite Hn.
Qed.
Lemma mismatch_class (p : ConsistencyEntry * ConsistencyEntry → bool) :
  k ∈ (λ lr, en_pk lr.1) <$> List.filter p (List.filter (λ lr, negb (same_hash lr)) (common local remote)) ↔
  ∃ l r, find_pk k local = Some l ∧ find_pk k remote = Some r ∧ en_hash l ≠ en_hash r ∧ p (l, r) = true.
Proof using local_nodup.
  rewrite list_elem_of_fmap. split.
  - intros ([l r] & -> & [[Hc Hs]%filter_In_iff Hp]%filter_In_iff). apply elem_of_common in Hc as [H1 H2]; [|done].
    exists l, r. split_and!; [done..|by apply seqb_false, negb_true_iff|done].
  - intros (l & r & Hl & Hr & Hne & Hp). pose proof Hl as [_ <-]%find_pk_elem; [|done]. exists (l, r). split; [done|].
    apply filter_In_iff. split; [|done]. apply filter_In_iff. split; [by apply elem_of_common|]. by apply negb_true_iff, seqb_false.
Qed.
End Classes.

Section Exact.
Context (sha : string → string) (sch : string → table_schema).

(** The classes of the comparison of two listings, in terms of the tables. *)
Lemma classes_exact tbl db db' k :
  (∀ s, nonempty (sha s) = true) → (∀ s s', sha s = sha s' → s = s') → NoDup (ts_columns (sch tbl)) →
  (∀ k r, holds tbl db k r ∨ holds tbl db' k r → object_wf (sch tbl) r) →
  let d := mergeDiffEntries (fresh_entry sha sch tbl <$> backfillable tbl db) (fresh_entry sha sch tbl <$> backfillable tbl db') in
  (k ∈ df_localOnly d ↔ (∃ r, holds tbl db k r) ∧ lacks tbl db' k) ∧
  (k ∈ df_remoteOnly d ↔ lacks tbl db k ∧ ∃ r, holds tbl db' k r) ∧
  (k ∈ df_localNewerMismatch d ↔ ∃ r r', holds tbl db k r ∧ holds tbl db' k r' ∧
     ¬ same_content (sch tbl) r r' ∧ later r r' = true) ∧
  (k ∈ df_remoteNewerMismatch d ↔ ∃ r r', holds tbl db k r ∧ holds tbl db' k r' ∧
     ¬ same_content (sch tbl) r r' ∧ later r r' = false).
Proof using.
  intros Hne Hinj Hcols Hwf. cbv zeta. rewrite merge_reference by apply fresh_sorted.
  pose proof (sorted_nodup en_pk _ (fresh_sorted sha sch tbl db)) as Hl.
  pose proof (sorted_nodup en_pk _ (fresh_sorted sha sch tbl db')) as Hr.
  assert (∀ db e, find_pk k (fresh_entry sha sch tbl <$> backfillable tbl db) = Some e ↔
            ∃ r, holds tbl db k r ∧ e = fresh_entry sha sch tbl (k, r)) as Hfind.
  { intros db0 e. rewrite find_fresh by done. unfold holds. destruct (table_of tbl db0 !! k) as [r|]; [|naive_solver].
    destruct (syncableRowPredicate tbl r) eqn:E; (split; [|intros (x & [[= <-] Hx] & ->); congruence]); [|done].
    intros [= <-]. by exists r. }
  assert (∀ db, find_pk k (fresh_entry sha sch tbl <$> backfillable tbl db) = None ↔ lacks tbl db k) as Hnone.
  { intros db0. rewrite find_fresh by done. unfold lacks, holds. destruct (table_of tbl db0 !! k) as [r|]; [|naive_solver].
    destruct (syncableRowPredicate tbl r) eqn:E.
    { split; [done|]. intros H. by destruct (H r). }
    split; [|done].
    intros _ x [[= <-] Hx]. congruence. }
  assert (∀ (b : bool), (∃ l r, (∃ x, holds tbl db k x ∧ l = fresh_entry sha sch tbl (k, x)) ∧
            (∃ x, holds tbl db' k x ∧ r = fresh_entry sha sch tbl (k, x)) ∧ en_hash l ≠ en_hash r ∧ local_newer l r = b) ↔
          ∃ r r', holds tbl db k r ∧ holds tbl db' k r' ∧ ¬ same_content (sch tbl) r r' ∧ later r r' = b) as Hmis.
  { intros b. split.
    - intros (l & r & (x & Hx & ->) & (y & Hy & ->) & Hh & Hb). exists x, y. split_and!; [done..| |done].
      intros Hs. apply Hh. by apply hash_same_content.
    - intros (x & y & Hx & Hy & Hs & Hb). exists (fresh_entry sha sch tbl (k, x)), (fresh_entry sha sch tbl (k, y)).
      split_and!; [by exists x|by exists y| |done]. intros Hh. apply Hs. eapply hash_identifies; eauto. }
  cbn [diff_reference df_localOnly df_remoteOnly df_localNewerMismatch df_remoteNewerMismatch].
  rewrite !only_class, !mismatch_class, !Hnone by done. setoid_rewrite negb_true_iff. setoid_rewrite Hfind. split_and!.
  - naive_solver.
  - naive_solver.
  - apply (Hmis true).
  - apply (Hmis false).
Qed.
End Exact.

(** C35: the comparison of two hosts finds exactly where they differ, whatever
    writes and lookups their hash caches went through: the rows one side lacks,
    and the rows with different contents, told apart by whether the local one
    was stamped strictly later. *)
Theorem comparison_exact sha sch tbl db0 cached es db0' cached' es' k :
  (∀ s, nonempty (sha s) = true) → (∀ s s', sha s = sha s' → s = s') → NoDup (ts_columns (sch tbl)) →
  forallb compared es = true → forallb compared es' = true →
  let '(db, cache) := cache_run sha sch db0 cached es in
  let '(db', cache') := cache_run sha sch db0' cached' es' in
  (∀ k r, holds tbl db k r ∨ holds tbl db' k r → object_wf (sch tbl) r) →
  let d := mergeDiffEntries (getBackfillableEntriesSorted sha sch tbl db cache).1
             (getBackfillableEntriesSorted sha sch tbl db' cache').1 in
  (k ∈ df_localOnly d ↔ (∃ r, holds tbl db k r) ∧ lacks tbl db' k) ∧
  (k ∈ df_remoteOnly d ↔ lacks tbl db k ∧ ∃ r, holds tbl db' k r) ∧
  (k ∈ df_localNewerMismatch d ↔ ∃ r r', holds tbl db k r ∧ holds tbl db' k r' ∧
     ¬ same_content (sch tbl) r r' ∧ later r r' = true) ∧
  (k ∈ df_remoteNewerMismatch d ↔ ∃ r r', holds tbl db k r ∧ holds tbl db' k r' ∧
     ¬ same_content (sch tbl) r r' ∧ later r r' = false).
Proof.
  intros Hne Hinj Hcols Hes Hes'.
  pose proof (cache_run_ok sha sch db0 cached es Hes) as H. pose proof (cache_run_ok sha sch db0' cached' es' Hes') as H'.
  destruct (cache_run sha sch db0 cached es) as [db cache], (cache_run sha sch db0' cached' es') as [db' cache'].
  intros Hwf. rewrite !entries_fresh; [by apply classes_exact|done|intros c Hc; by apply H'|done|intros c Hc; by apply H].
Qed.

(** The comparison by keys alone, for peers that send no hashes, is the one by
    entries that all carry the same hash. *)
Definition bare_entry (pk : string) : ConsistencyEntry := MkConsistency pk "" None.
Lemma bare_pks (pks : list string) : en_pk <$> (bare_entry <$> pks) = pks.
Proof. rewrite <-list_fmap_compose. apply list_fmap_id. Qed.
Lemma pks_as_entries localPks remotePks :
  let d := mergeDiffEntries (bare_entry <$> localPks) (bare_entry <$> remotePks) in
  mergeDiffPks localPks remotePks = MkPkDiff (df_localOnly d) (df_remoteOnly d) (df_matching d).
Proof.
  cbv zeta. revert remotePks. induction localPks as [|l localPks IHl]; intros remotePks.
  { destruct remotePks as [|r remotePks]; [done|].
    change (mergeDiffEntries (bare_entry <$> []) (bare_entry <$> r :: remotePks)) with
      (foldr (λ r, remote_only (en_pk r)) no_diff (bare_entry <$> r :: remotePks)).
    by rewrite foldr_remote, bare_pks. }
  induction remotePks as [|r remotePks IHr].
  { change (mergeDiffEntries (bare_entry <$> l :: localPks) (bare_entry <$> [])) with
      (foldr (λ l, local_only (en_pk l)) no_diff (bare_entry <$> l :: localPks)).
    by rewrite foldr_local, bare_pks. }
  change (mergeDiffEntries (bare_entry <$> l :: localPks) (bare_entry <$> r :: remotePks)) with
    (if sltb l r then local_only l (mergeDiffEntries (bare_entry <$> localPks) (bare_entry <$> r :: remotePks))
     else if sltb r l then remote_only r (mergeDiffEntries (bare_entry <$> l :: localPks) (bare_entry <$> remotePks))
     else in_both (bare_entry l) (bare_entry r) (mergeDiffEntries (bare_entry <$> localPks) (bare_entry <$> remotePks))).
  change (mergeDiffPks (l :: localPks) (r :: remotePks)) with
    (if sltb l r then let d := mergeDiffPks localPks (r :: remotePks) in MkPkDiff (l :: pd_localOnly d) (pd_remoteOnly d) (pd_matching d)
     else if sltb r l then let d := mergeDiffPks (l :: localPks) remotePks in MkPkDiff (pd_localOnly d) (r :: pd_remoteOnly d) (pd_matching d)
     else let d := mergeDiffPks localPks remotePks in MkPkDiff (pd_localOnly d) (pd_remoteOnly d) (S (pd_matching d))).
  destruct (sltb l r); [by rewrite IHl|]. destruct (sltb r l); [by rewrite IHr|]. by rewrite IHl.
Qed.

(** ** An example *)
Definition sample_sha (s : string) : string := "#" +:+ s.
Definition sample_writes (b : string) : list cache_event :=
  [Wrote "threads" (RowInserted "a" (thread_row "a" "old" "2026-01-01"));
   Wrote "threads" (RowInserted b (thread_row b "x" "2026-01-01")); LookedUp "threads" ["a"; b]].
Definition sample_remote (b : string) : list cache_event :=
  sample_writes b ++ [Wrote "threads" (RowUpdated "a" "a" (thread_row "a" "new" "2026-01-02"))].

(** A host holds only rows it was given. *)
Lemma rows_written (P : row → Prop) sha sch db cached es :
  (∀ tbl k r, table_of tbl db !! k = Some r → P r) →
  (∀ tbl w, Wrote tbl w ∈ es → match w with RowInserted _ r | RowUpdated _ _ r => P r | RowDeleted _ => True end) →
  ∀ tbl k r, table_of tbl (cache_run sha sch db cached es).1 !! k = Some r → P r.
Proof.
  unfold cache_run. generalize (if cached then Some (∅ : hash_cache) else None).
  revert db. induction es as [|e es IH]; intros db cache Hdb Hes; [done|]. simpl.
  destruct (cache_step sha sch (db, cache) e) as [db1 cache1] eqn:E. apply IH; [|intros tbl w Hw; apply (Hes tbl); by right].
  destruct e as [tbl w|tbl pks]; simpl in E; [|by injection E as <- _]. unfold trigger_write in E. injection E as <- _.
  specialize (Hes tbl w). simpl. intros tbl' k r. unfold table_of, with_table. simpl. destruct (decide (tbl = tbl')) as [<-|Hne].
  - rewrite lookup_insert_eq. simpl. intros Hr. assert (Wrote tbl w ∈ Wrote tbl w :: es) as Hin by left. specialize (Hes Hin).
    destruct w as [k' r'|k1 k' r'|k']; simpl in Hr.
    + apply lookup_insert_Some in Hr as [[_ <-]|[_ Hr]]; [done|by apply (Hdb tbl k)].
    + apply lookup_insert_Some in Hr as [[_ <-]|[_ Hr]]; [done|]. apply lookup_delete_Some in Hr as [_ Hr]. by apply (Hdb tbl k).
    + apply lookup_delete_Some in Hr as [_ Hr]. by apply (Hdb tbl k).
  - rewrite lookup_insert_ne by done. apply Hdb.
Qed.

Lemma thread_row_wf id c m : object_wf (thread_schema "threads") (thread_row id c m).
Proof. intros x Hx. repeat (apply elem_of_cons in Hx as [->|Hx]; [done|]). by apply not_elem_of_nil in Hx. Qed.
Lemma sample_rows_wf b : ∀ k r, table_of "threads" (cache_run sample_sha thread_schema (MkSdb ∅ []) true
    (sample_writes b ++ [Wrote "threads" (RowUpdated "a" "a" (thread_row "a" "new" "2026-01-02"))])).1 !! k = Some r →
  object_wf (thread_schema "threads") r.
Proof.
  intros k r. apply rows_written.
  - intros tbl k' r'. unfold table_of. simpl. rewrite lookup_empty. simpl. by rewrite lookup_empty.
  - intros tbl w Hw. repeat (apply elem_of_cons in Hw as [Hw|Hw]; [try discriminate Hw; injection Hw as -> ->; apply thread_row_wf|]).
    by apply not_elem_of_nil in Hw.
Qed.

Lemma comparison_exact_witness :
  let '(db, cache) := cache_run sample_sha thread_schema (MkSdb ∅ []) true (sample_remote "b") in
  let '(db', cache') := cache_run sample_sha thread_schema (MkSdb ∅ []) true (sample_remote "c") in
  let d := mergeDiffEntries (getBackfillableEntriesSorted sample_sha thread_schema "threads" db cache).1
             (getBackfillableEntriesSorted sample_sha thread_schema "threads" db' cache').1 in
  ("b" ∈ df_localOnly d ↔ (∃ r, holds "threads" db "b" r) ∧ lacks "threads" db' "b") ∧
  d = MkDiff ["b"] ["c"] [] [] 1.
Proof.
  pose proof (comparison_exact sample_sha thread_schema "threads" (MkSdb ∅ []) true (sample_remote "b") (MkSdb ∅ []) true
                (sample_remote "c") "b" (λ s, eq_refl)
                (λ s s' H, f_equal (λ x, match x with String _ y => y | _ => "" end) H)) as H.
  pose proof (sample_rows_wf "b") as Hb. pose proof (sample_rows_wf "c") as Hc.
  fold (sample_remote "b") in Hb. fold (sample_remote "c") in Hc.
  assert (Hd : (let '(db, cache) := cache_run sample_sha thread_schema (MkSdb ∅ []) true (sample_remote "b") in
    let '(db', cache') := cache_run sample_sha thread_schema (MkSdb ∅ []) true (sample_remote "c") in
    mergeDiffEntries (getBackfillableEntriesSorted sample_sha thread_schema "threads" db cache).1
      (getBackfillableEntriesSorted sample_sha thread_schema "threads" db' cache').1) = MkDiff ["b"] ["c"] [] [] 1)
    by (vm_compute; reflexivity).
  destruct (cache_run sample_sha thread_schema (MkSdb ∅ []) true (sample_remote "b")) as [db cache].
  destruct (cache_run sample_sha thread_schema (MkSdb ∅ []) true (sample_remote "c")) as [db' cache'].
  split; [|exact Hd]. apply H; [repeat (apply NoDup_cons; split; [set_solver|]); by apply NoDup_nil_2|reflexivity..|].
  intros k r [[Hr _]|[Hr _]]; [exact (Hb k r Hr)|exact (Hc k r Hr)].
Defined.
