(* ===== verification/Changeset.v ===== *)
(** * Cursors, changesets and pruning (packages/sync/src)

    The per-peer sync cursors (peer-cursor.ts, core repositories sync-state.ts),
    the outbound and inbound changesets with their chunking (changeset.ts), and
    the pruning of the change log (pruning.ts, core repositories change-log.ts).
    The change log is the list of [ChangeLog]; a SELECT ordered by HLC sorts it. *)
From Stdlib Require Import Ascii.
From S2P Require Import Prelude Json Hlc ChangeLog.

(** ** sync_state *)
Record SyncState : Type := MkSync {
  last_received : string;
  last_sent : string;
  last_confirmed : string;
  last_sync_at : option string;
  sync_errors : Z
}.
Abbreviation sync_state := (gmap string SyncState).

(** The keys of [Partial<Pick<SyncState, ...>>] that are present; a present key
    may hold [undefined]. *)
Record cursor_updates : Type := MkUpdates {
  up_received : option (option string);
  up_sent : option (option string);
  up_confirmed : option (option string);
  up_errors : option (option Z)
}.
Definition no_updates : cursor_updates := MkUpdates None None None None.

Definition getPeerCursor (db : sync_state) (peerSiteId : string) : option SyncState := db !! peerSiteId.

(** [updates.k ?? d], for the INSERT and for a SET clause that is present. *)
Definition or_default {A} (d : A) (v : option (option A)) : A :=
  match v with Some (Some x) => x | _ => d end.
Definition set_clause {A} (d old : A) (v : option (option A)) : A :=
  match v with None => old | Some v => default d v end.

Definition updatePeerCursor (now : string) (peerSiteId : string) (updates : cursor_updates) (db : sync_state)
    : sync_state :=
  let row :=
    match db !! peerSiteId with
    | None =>
        MkSync (or_default HLC_ZERO (up_received updates)) (or_default HLC_ZERO (up_sent updates))
          (or_default HLC_ZERO (up_confirmed updates)) (Some now) (or_default 0 (up_errors updates))
    | Some s =>
        MkSync (set_clause HLC_ZERO (last_received s) (up_received updates))
          (set_clause HLC_ZERO (last_sent s) (up_sent updates))
          (set_clause HLC_ZERO (last_confirmed s) (up_confirmed updates)) (Some now)
          (set_clause 0 (sync_errors s) (up_errors updates))
    end in
  <[peerSiteId := row]> db.

Definition resetSyncErrors (peerSiteId : string) (db : sync_state) : sync_state :=
  match db !! peerSiteId with
  | Some s => <[peerSiteId := MkSync (last_received s) (last_sent s) (last_confirmed s) (last_sync_at s) 0]> db
  | None => db
  end.

Definition incrementSyncErrors (peerSiteId : string) (db : sync_state) : sync_state :=
  match db !! peerSiteId with
  | Some s =>
      <[peerSiteId := MkSync (last_received s) (last_sent s) (last_confirmed s) (last_sync_at s)
                        (sync_errors s + 1)]> db
  | None => <[peerSiteId := MkSync HLC_ZERO HLC_ZERO HLC_ZERO None 1]> db
  end.

Definition getConfirmedSyncWatermark (db : sync_state) (peerSiteId : string) : string :=
  match getPeerCursor db peerSiteId with Some s => last_confirmed s | None => HLC_ZERO end.

Definition countSyncStatePeers (db : sync_state) : nat := size db.

(** [MIN(last_received)]. *)
Definition smin (s t : string) : string := if sleb s t then s else t.
Definition getMinSyncReceivedHlc (db : sync_state) : string :=
  match (λ ps, last_received ps.2) <$> map_to_list db with
  | [] => HLC_ZERO
  | h :: hs => foldr smin h hs
  end.
Definition getMinConfirmedHlc : sync_state → string := getMinSyncReceivedHlc.

(** ** Reading the log *)

(** [ORDER BY hlc ASC]. *)
Fixpoint insert_hlc (e : ChangeLogEntry) (l : list ChangeLogEntry) : list ChangeLogEntry :=
  match l with
  | [] => [e]
  | x :: l' => if sltb (cl_hlc x) (cl_hlc e) then x :: insert_hlc e l' else e :: l
  end.
Definition sort_hlc (log : list ChangeLogEntry) : list ChangeLogEntry := foldr insert_hlc [] log.

Definition countChangeLogEntries (log : list ChangeLogEntry) : nat := length log.

(** [ORDER BY hlc DESC LIMIT 1 OFFSET n]. *)
Definition getChangeLogHlcAtOffset (log : list ChangeLogEntry) (offset : nat) : option string :=
  cl_hlc <$> (reverse (sort_hlc log) !! offset).

(** ** Changesets *)
Record Changeset : Type := MkChangeset {
  events : list ChangeLogEntry;
  source_site_id : string;
  source_hlc_start : string;
  source_hlc_end : string
}.

Definition createChangeset (evs : list ChangeLogEntry) (fallbackHlc sourceSiteId : string) : Changeset :=
  MkChangeset evs sourceSiteId
    (match head evs with Some e => cl_hlc e | None => fallbackHlc end)
    (match last evs with Some e => cl_hlc e | None => fallbackHlc end).

Definition fetchOutboundChangeset (db : sync_state) (log : list ChangeLogEntry) (peerSiteId siteId : string)
    : Changeset :=
  let lastSent := match db !! peerSiteId with Some s => last_sent s | None => HLC_ZERO end in
  createChangeset (List.filter (λ e, sltb lastSent (cl_hlc e)) (sort_hlc log)) lastSent siteId.

Definition fetchInboundChangeset (log : list ChangeLogEntry) (requesterSiteId sinceHlc : string) : Changeset :=
  createChangeset
    (List.filter (λ e, sltb sinceHlc (cl_hlc e) && negb (seqb (cl_site_id e) requesterSiteId)) (sort_hlc log))
    sinceHlc "".

Definition event_json (e : ChangeLogEntry) : json :=
  JObj [("hlc", JStr (cl_hlc e)); ("table_name", JStr (cl_table_name e)); ("row_id", JStr (cl_row_id e));
        ("site_id", JStr (cl_site_id e)); ("timestamp", JStr (cl_timestamp e)); ("row_data", JStr (cl_row_data e))].
Definition changeset_json (c : Changeset) : json :=
  JObj [("events", JArr (event_json <$> events c)); ("source_site_id", JStr (source_site_id c));
        ("source_hlc_start", JStr (source_hlc_start c)); ("source_hlc_end", JStr (source_hlc_end c))].
Definition serializeChangeset (c : Changeset) : string := json_stringify (changeset_json c).

(** The parsed value is taken as a [Changeset] without a check: this reads the
    fields of one that is. *)
Definition deserializeChangeset (s : string) : option json := json_parse s.

Definition byte_length (s : string) : Z := Z.of_nat (String.length s).
Definition DEFAULT_MAX_CHUNK_BYTES : Z := 10 * 1024 * 1024.

(** A flushed chunk: a non-empty run of events with its own HLC range. *)
Definition flush_chunk (changeset : Changeset) (currentEvents : list ChangeLogEntry) : Changeset :=
  createChangeset currentEvents "" (source_site_id changeset).

Definition event_size (e : ChangeLogEntry) : Z := byte_length (json_stringify (event_json e)) + 1.

Fixpoint chunk_loop (changeset : Changeset) (budget : Z) (evs currentEvents : list ChangeLogEntry)
    (currentSize : Z) (chunks : list Changeset) : list Changeset :=
  match evs with
  | [] => match currentEvents with [] => chunks | _ => chunks ++ [flush_chunk changeset currentEvents] end
  | event :: evs' =>
      let eventSize := event_size event in
      if (0 <? length currentEvents)%nat && (budget <? currentSize + eventSize)
      then chunk_loop changeset budget evs' [event] eventSize (chunks ++ [flush_chunk changeset currentEvents])
      else chunk_loop changeset budget evs' (currentEvents ++ [event]) (currentSize + eventSize) chunks
  end.

Definition chunkChangeset (changeset : Changeset) (maxBytes : Z) : list Changeset :=
  if (length (events changeset) =? 0)%nat then [changeset]
  else if byte_length (serializeChangeset changeset) <=? maxBytes then [changeset]
  else chunk_loop changeset (maxBytes - 256) (events changeset) [] 0 [].

(** ** Pruning *)
Inductive pruning_mode : Type := MultiHost | SingleHost.

Definition determinePruningMode (db : sync_state) : pruning_mode :=
  if (countSyncStatePeers db =? 0)%nat then SingleHost else MultiHost.

Definition MAX_SINGLE_HOST_ENTRIES : Z := 100000.

(** [DELETE FROM change_log WHERE hlc <= ?] and its [changes()]. *)
Definition delete_through (hlc : string) (log : list ChangeLogEntry) : list ChangeLogEntry * nat :=
  let kept := List.filter (λ e, negb (sleb (cl_hlc e) hlc)) log in
  (kept, (length log - length kept)%nat).

Definition prune_single_host (cap : Z) (log : list ChangeLogEntry) : list ChangeLogEntry * nat :=
  if Z.of_nat (countChangeLogEntries log) <=? cap then (log, 0%nat)
  else match getChangeLogHlcAtOffset log (Z.to_nat cap) with
       | None | Some EmptyString => (log, 0%nat)
       | Some cutoffHlc => delete_through cutoffHlc log
       end.

Definition pruneChangeLog (db : sync_state) (mode : pruning_mode) (log : list ChangeLogEntry)
    : list ChangeLogEntry * nat :=
  match mode with
  | SingleHost => prune_single_host MAX_SINGLE_HOST_ENTRIES log
  | MultiHost =>
      let minHlc := getMinConfirmedHlc db in
      if seqb minHlc HLC_ZERO then (log, 0%nat) else delete_through minHlc log
  end.

(** ** Facts about the sorted log *)
Lemma insert_hlc_perm e l : insert_hlc e l ≡ₚ e :: l.
Proof.
  induction l as [|x l IH]; [done|]. simpl. destruct (sltb _ _); [|done].
  rewrite IH. apply Permutation_swap.
Qed.
Lemma sort_hlc_perm log : sort_hlc log ≡ₚ log.
Proof. induction log as [|e log IH]; [done|]. simpl. by rewrite insert_hlc_perm, IH. Qed.

(** A log in the order it was written is read back as it is. *)
Lemma sort_hlc_sorted log : log_sorted log → sort_hlc log = log.
Proof.
  induction 1 as [|e log _ IH Hall]; [done|]. simpl. rewrite IH.
  destruct log as [|x log]; [done|]. simpl. apply Forall_cons_1 in Hall as [Hlt _].
  by rewrite (sltb_asym _ _ Hlt).
Qed.

(** ** Sizes of serialized changesets *)
Lemma of_chars_length l : String.length (of_chars l) = length l.
Proof. induction l as [|c l IH]; [done|]. simpl. by rewrite IH. Qed.

Lemma sep_by_length c ls :
  ls ≠ [] → Z.of_nat (length (sep_by [c] ls)) = sum_list_Z ((λ x, Z.of_nat (length x) + 1) <$> ls) - 1.
Proof.
  destruct ls as [|l ls]; [done|]. intros _. revert l. induction ls as [|x ls IH]; intros l; [simpl; lia|].
  change (sep_by [c] (l :: x :: ls)) with (l ++ [c] ++ sep_by [c] (x :: ls)).
  rewrite !length_app, !Nat2Z.inj_add, IH. simpl. lia.
Qed.

(** Bytes of a string inside a JSON document. *)
Definition quoted_size (s : string) : Z := Z.of_nat (length (print_str s)).

Definition total_size (evs : list ChangeLogEntry) : Z := sum_list_Z (event_size <$> evs).

Lemma event_size_pos e : 0 < event_size e.
Proof. unfold event_size, byte_length. lia. Qed.

Lemma serialized_size c :
  events c ≠ [] →
  byte_length (serializeChangeset c) =
    68 + quoted_size (source_site_id c) + quoted_size (source_hlc_start c) + quoted_size (source_hlc_end c) +
    total_size (events c).
Proof.
  intros Hne. unfold serializeChangeset, json_stringify, byte_length, changeset_json.
  rewrite of_chars_length. cbn [print_json fmap list_fmap fst snd].
  rewrite !length_cons, !length_app, !Nat2Z.inj_succ, !Nat2Z.inj_add.
  rewrite sep_by_length by done. cbn [fmap list_fmap sum_list_Z foldr].
  rewrite !length_app, !length_cons, !length_app, !Nat2Z.inj_add, !Nat2Z.inj_succ, !Nat2Z.inj_add.
  rewrite sep_by_length by (by destruct (events c)).
  assert ((λ x, Z.of_nat (length x) + 1) <$> (print_json <$> (event_json <$> events c)) = event_size <$> events c) as ->.
  { rewrite <-!list_fmap_compose. apply list_fmap_ext. intros _ e _. unfold compose, event_size, byte_length, json_stringify.
    by rewrite of_chars_length. }
  unfold total_size, quoted_size. change (length (print_str "events")) with 8%nat.
  change (length (print_str "source_site_id")) with 16%nat.
  change (length (print_str "source_hlc_start")) with 18%nat.
  change (length (print_str "source_hlc_end")) with 16%nat. cbn [length]. lia.
Qed.

(** ** Chunking *)
Lemma last_total e evs : total_size (evs ++ [e]) = total_size evs + event_size e.
Proof. unfold total_size. rewrite fmap_app, sum_list_Z_app. simpl. lia. Qed.

(** What chunking promises of one chunk. *)
Definition good_chunk (c : Changeset) (maxBytes : Z) (ch : Changeset) : Prop :=
  source_site_id ch = source_site_id c ∧
  (∃ e, head (events ch) = Some e ∧ source_hlc_start ch = cl_hlc e) ∧
  (∃ e, last (events ch) = Some e ∧ source_hlc_end ch = cl_hlc e) ∧
  (byte_length (serializeChangeset ch) ≤ maxBytes ∨ length (events ch) = 1%nat).

Lemma flush_chunk_good c maxBytes evs B :
  evs ≠ [] → Forall (λ e, quoted_size (cl_hlc e) ≤ B) evs → quoted_size (source_site_id c) + 2 * B ≤ 188 →
  (total_size evs ≤ maxBytes - 256 ∨ length evs = 1%nat) → good_chunk c maxBytes (flush_chunk c evs).
Proof.
  intros Hne Hall Hb Hsize. unfold flush_chunk, createChangeset.
  destruct evs as [|e evs]; [done|].
  destruct (last (e :: evs)) as [e'|] eqn:El; [|by apply last_None in El].
  assert (e' ∈ e :: evs) as Hin'.
  { apply last_Some in El as [l ->]. apply elem_of_app. right. by apply list_elem_of_singleton. }
  rewrite Forall_forall in Hall. pose proof (Hall e ltac:(left)) as H1. pose proof (Hall e' Hin') as H2.
  split_and!; simpl; [done|by exists e|rewrite El; by exists e'|].
  destruct Hsize as [Hsize|?]; [left|by right].
  rewrite serialized_size by done. cbn [source_site_id source_hlc_start source_hlc_end events head]. lia.
Qed.

Lemma chunk_loop_spec c maxBytes evs cur size chunks B :
  Forall (λ e, quoted_size (cl_hlc e) ≤ B) (cur ++ evs) → quoted_size (source_site_id c) + 2 * B ≤ 188 →
  size = total_size cur → (total_size cur ≤ maxBytes - 256 ∨ (length cur ≤ 1)%nat) →
  Forall (good_chunk c maxBytes) chunks →
  let out := chunk_loop c (maxBytes - 256) evs cur size chunks in
  concat (events <$> out) = concat (events <$> chunks) ++ cur ++ evs ∧ Forall (good_chunk c maxBytes) out.
Proof.
  intros Hall Hb. revert cur size chunks Hall.
  induction evs as [|e evs IH]; intros cur size chunks Hall -> Hsize Hch; cbn [chunk_loop].
  - rewrite app_nil_r in *. destruct cur as [|e0 cur]; cbv zeta; [by rewrite app_nil_r|].
    rewrite fmap_app, concat_app. simpl. rewrite app_nil_r. split; [done|].
    apply Forall_app. split; [done|]. apply Forall_singleton. eapply flush_chunk_good; [done..|].
    destruct Hsize as [?|Hlen]; [by left|right]. simpl in *. lia.
  - cbv zeta. destruct (_ && _) eqn:E.
    + apply andb_prop in E as [Ecur%Nat.ltb_lt E%Z.ltb_lt].
      destruct (IH [e] (event_size e) (chunks ++ [flush_chunk c cur])) as [Hc Hg].
      * by apply Forall_app in Hall as [_ ?].
      * unfold total_size. simpl. lia.
      * right. simpl. lia.
      * apply Forall_app. split; [done|]. apply Forall_singleton.
        apply Forall_app in Hall as [Hcur _]. eapply flush_chunk_good; [intros ->; simpl in Ecur; lia|done..|].
        destruct Hsize as [?|Hlen]; [by left|right]. lia.
      * rewrite fmap_app, concat_app in Hc. simpl in Hc. rewrite app_nil_r in Hc.
        rewrite Hc. split; [by rewrite <-!app_assoc|done].
    + destruct (IH (cur ++ [e]) (total_size cur + event_size e) chunks) as [Hc Hg].
      * by rewrite <-app_assoc.
      * by rewrite last_total.
      * rewrite last_total. apply andb_false_iff in E as [E%Nat.ltb_ge|E%Z.ltb_ge]; [right|by left].
        rewrite length_app. simpl. lia.
      * done.
      * rewrite Hc. split; [by rewrite <-!app_assoc|done].
Qed.

(** chunking a changeset loses nothing, duplicates nothing and keeps the
    order: the chunks' events concatenate to the changeset's; every chunk of a
    non-empty changeset is non-empty with the HLC range of its own events, and
    serializes within [maxBytes] unless it is a single event.  The 256 bytes
    reserved for the envelope suffice while the site id and two HLCs take at
    most 188 bytes as JSON strings (a 36-byte id and 66-byte HLCs take 174). *)
Theorem chunkChangeset_spec c maxBytes B :
  Forall (λ e, quoted_size (cl_hlc e) ≤ B) (events c) → quoted_size (source_site_id c) + 2 * B ≤ 188 →
  c = createChangeset (events c) (source_hlc_start c) (source_site_id c) →
  concat (events <$> chunkChangeset c maxBytes) = events c ∧
  (events c ≠ [] → Forall (good_chunk c maxBytes) (chunkChangeset c maxBytes)).
Proof.
  intros Hall Hb Hc. unfold chunkChangeset. destruct (events c) as [|e0 evs] eqn:Ee.
  { simpl. rewrite Ee. by split. }
  change (length (e0 :: evs) =? 0)%nat with false. cbv iota.
  destruct (Z.leb_spec (byte_length (serializeChangeset c)) maxBytes) as [Hle|_].
  - simpl. rewrite Ee, app_nil_r. split; [done|]. intros _. apply Forall_singleton.
    destruct (last (e0 :: evs)) as [e'|] eqn:El; [|by apply last_None in El].
    split_and!; [done| | |by left].
    + exists e0. rewrite Ee. split; [done|]. by rewrite Hc.
    + exists e'. rewrite Ee. split; [done|]. rewrite Hc. unfold createChangeset. cbn [source_hlc_end]. by rewrite El.
  - destruct (chunk_loop_spec c maxBytes (e0 :: evs) [] 0 [] B) as [H1 H2]; try done.
    right. simpl. lia.
Qed.

Lemma chunkChangeset_spec_witness :
  let e n := MkChange (hlc_value "2026-01-01T00:00:00.000Z" n "s1") "threads" "r" "s1" "t" "{}" in
  let c := createChangeset [e 1; e 2; e 3] "" "s1" in
  concat (events <$> chunkChangeset c 400) = events c ∧ length (chunkChangeset c 400) = 3%nat.
Proof.
  split; [|vm_compute; reflexivity].
  apply (chunkChangeset_spec (createChangeset
    [MkChange (hlc_value "2026-01-01T00:00:00.000Z" 1 "s1") "threads" "r" "s1" "t" "{}";
     MkChange (hlc_value "2026-01-01T00:00:00.000Z" 2 "s1") "threads" "r" "s1" "t" "{}";
     MkChange (hlc_value "2026-01-01T00:00:00.000Z" 3 "s1") "threads" "r" "s1" "t" "{}"] "" "s1") 400 40).
  - repeat (apply List.Forall_cons; [vm_compute; discriminate|]). apply List.Forall_nil.
  - vm_compute. discriminate.
  - reflexivity.
Defined.

(** ** Pruning *)
Lemma log_sorted_app_inv l k :
  log_sorted (l ++ k) → log_sorted l ∧ log_sorted k ∧ ∀ a b, a ∈ l → b ∈ k → (cl_hlc a) <s (cl_hlc b).
Proof.
  induction l as [|x l IH]; intros H; simpl in *.
  { split; [constructor|]. split; [done|]. by intros a b ?%not_elem_of_nil. }
  apply StronglySorted_inv in H as [H Hx]. destruct (IH H) as (H1 & H2 & H3).
  rewrite Forall_forall in Hx. split_and!; [|done|].
  - constructor; [done|]. apply Forall_forall. intros y Hy. apply Hx. apply elem_of_app. by left.
  - intros a b [->|Ha]%elem_of_cons Hb; [|by apply H3]. apply Hx. apply elem_of_app. by right.
Qed.

(** Entries above the [i]-th of a sorted log are those after it. *)
Lemma filter_above log i x :
  log_sorted log → log !! i = Some x →
  List.filter (λ e, negb (sleb (cl_hlc e) (cl_hlc x))) log = drop (S i) log.
Proof.
  intros Hs Hi. pose proof (take_drop_middle log i x Hi) as Heq. rewrite <-Heq in Hs at 1.
  apply log_sorted_app_inv in Hs as (_ & Hs & Hlt).
  apply StronglySorted_inv in Hs as [_ Hgt]. rewrite Forall_forall in Hgt.
  rewrite <-Heq at 1. rewrite List.filter_app. simpl. rewrite sleb_refl. simpl.
  rewrite filter_bool_none, filter_bool_all; [done| |].
  - intros y Hy. rewrite <-sltb_sleb. by apply Hgt.
  - intros y Hy. apply negb_false_iff, sltb_sleb_weak, Hlt; [done|]. by left.
Qed.

(** pruning on a single host keeps exactly the newest entries up to the cap
    (100,000 in [pruneChangeLog]) and reports how many it deleted; a shorter
    log is left alone. *)
Theorem prune_single_host_keeps cap log :
  log_sorted log → Forall (λ e, nonempty (cl_hlc e) = true) log → 0 ≤ cap →
  prune_single_host cap log =
    (drop (length log - Z.to_nat cap) log, (length log - Z.to_nat cap)%nat).
Proof.
  intros Hs Hne Hcap. unfold prune_single_host, countChangeLogEntries.
  destruct (Z.leb_spec (Z.of_nat (length log)) cap) as [Hle|Hgt].
  { by replace (length log - Z.to_nat cap)%nat with 0%nat by lia. }
  unfold getChangeLogHlcAtOffset. rewrite sort_hlc_sorted by done.
  set (i := (length log - S (Z.to_nat cap))%nat).
  destruct (lookup_lt_is_Some_2 log i) as [x Hx]; [lia|].
  assert (reverse log !! Z.to_nat cap = Some x) as ->.
  { apply reverse_lookup_Some. split; [|lia]. by replace (length log - S (Z.to_nat cap))%nat with i by lia. }
  cbn [fmap option_fmap option_map]. rewrite Forall_forall in Hne.
  pose proof (Hne x (list_elem_of_lookup_2 _ _ _ Hx)) as Hx0.
  destruct (cl_hlc x) as [|a h] eqn:Eh; [done|]. rewrite <-Eh. unfold delete_through.
  rewrite (filter_above log i x Hs Hx), length_drop.
  replace (S i) with (length log - Z.to_nat cap)%nat by lia. f_equal. lia.
Qed.

Lemma prune_single_host_keeps_witness :
  let e n := MkChange (hlc_value "2026-01-01T00:00:00.000Z" n "s1") "threads" "r" "s1" "t" "{}" in
  prune_single_host 2 [e 1; e 2; e 3] = ([e 2; e 3], 1%nat).
Proof.
  apply (prune_single_host_keeps 2 [MkChange (hlc_value "2026-01-01T00:00:00.000Z" 1 "s1") "threads" "r" "s1" "t" "{}";
     MkChange (hlc_value "2026-01-01T00:00:00.000Z" 2 "s1") "threads" "r" "s1" "t" "{}";
     MkChange (hlc_value "2026-01-01T00:00:00.000Z" 3 "s1") "threads" "r" "s1" "t" "{}"]).
  - repeat (apply SSorted_cons || apply SSorted_nil || apply List.Forall_cons || apply List.Forall_nil); reflexivity.
  - repeat (apply List.Forall_cons; [reflexivity|]). apply List.Forall_nil.
  - lia.
Defined.
