(* ===== verification/Transport.v ===== *)
(** * Change-log transport (packages/sync/src/ws-transport.ts)

    How a node's change log reaches its peers: the microtask coalescer, the
    flush of freshly written entries, the drain of what a peer missed, the
    splitting of entries into frames, and the handling of pushes and
    acknowledgements.  A frame is kept with its content; [frame_bytes] is what
    crosses the wire.  Whether the socket accepts the k-th frame is an oracle,
    as are the cipher, the nonces and the key of each peer.  The clock is read
    once per call.  Logging, telemetry and UI notifications are left out. *)
From S2P Require Import Prelude Json Frames Hlc Store ChangeLog Reducers Changeset.

Record WireEntry : Type := MkWire {
  we_hlc : string;
  we_table_name : string;
  we_row_id : string;
  we_site_id : string;
  we_timestamp : string;
  we_row_data : json
}.

Inductive frame : Type :=
| ChangelogPush (entries : list WireEntry)
| ChangelogAck (cursor : string)
| DrainComplete (success : bool).

Definition wire_json (w : WireEntry) : json :=
  JObj [("hlc", JStr (we_hlc w)); ("table_name", JStr (we_table_name w)); ("row_id", JStr (we_row_id w));
        ("site_id", JStr (we_site_id w)); ("timestamp", JStr (we_timestamp w)); ("row_data", we_row_data w)].

Definition frame_type (f : frame) : WsMessageType :=
  match f with ChangelogPush _ => CHANGELOG_PUSH | ChangelogAck _ => CHANGELOG_ACK | DrainComplete _ => DRAIN_COMPLETE end.
Definition frame_payload (f : frame) : json :=
  match f with
  | ChangelogPush es => JObj [("entries", JArr (wire_json <$> es))]
  | ChangelogAck c => JObj [("cursor", JStr c)]
  | DrainComplete b => JObj [("success", JBool b)]
  end.

(** [JSON.parse] of the stored row data, which throws on malformed text. *)
Definition to_wire (entry : ChangeLogEntry) : result WireEntry :=
  match json_parse (cl_row_data entry) with
  | Some v => Ok (MkWire (cl_hlc entry) (cl_table_name entry) (cl_row_id entry) (cl_site_id entry)
                    (cl_timestamp entry) v)
  | None => Throw "JSON Parse error"
  end.
Fixpoint toChangelogWireEntries (entries : list ChangeLogEntry) : result (list WireEntry) :=
  match entries with
  | [] => Ok []
  | e :: es => let! w := to_wire e in let! ws := toChangelogWireEntries es in Ok (w :: ws)
  end.

(** The conversion back, in [handleChangelogPush]. *)
Definition of_wire (w : WireEntry) : ChangeLogEntry :=
  MkChange (we_hlc w) (we_table_name w) (we_row_id w) (we_site_id w) (we_timestamp w)
    (json_stringify (we_row_data w)).

Definition MAX_CHANGELOG_FRAME_BYTES : Z := 4 * 1024 * 1024.

(** ** The node *)
Record node : Type := MkNode {
  nd_db : sdb;
  nd_sync : sync_state;
  nd_peers : list (string * string);     (* peerConnections: site id and key *)
  nd_seeding : list string;              (* keys of snapshotStates *)
  nd_pending : list ChangeLogEntry;      (* the coalescer *)
  nd_sent : list (string * frame);
  nd_attempts : nat
}.

Definition with_sync (s : sync_state) (n : node) : node :=
  MkNode (nd_db n) s (nd_peers n) (nd_seeding n) (nd_pending n) (nd_sent n) (nd_attempts n).
Definition with_db (db : sdb) (n : node) : node :=
  MkNode db (nd_sync n) (nd_peers n) (nd_seeding n) (nd_pending n) (nd_sent n) (nd_attempts n).
Definition with_pending (p : list ChangeLogEntry) (n : node) : node :=
  MkNode (nd_db n) (nd_sync n) (nd_peers n) (nd_seeding n) p (nd_sent n) (nd_attempts n).

Definition last_sent_to (peer : string) (s : sync_state) : string :=
  match getPeerCursor s peer with Some c => last_sent c | None => HLC_ZERO end.
Definition set_last_sent (h : string) : cursor_updates := MkUpdates None (Some (Some h)) None None.

Section Transport.
Context (encrypt : string → string → string → string) (nonce : json → string).
Context (accepts : nat → bool) (now : string).

Definition frame_bytes (key : string) (f : frame) : string :=
  encodeFrame encrypt (nonce (frame_payload f)) (frame_type f) (frame_payload f) key.

(** ** Frames *)
Fixpoint encode_groups (fuel : nat) (key : string) (entries : list WireEntry) : list (list WireEntry) :=
  match fuel with
  | O => []
  | S fuel' =>
      if (length entries =? 0)%nat then []
      else if byte_length (frame_bytes key (ChangelogPush entries)) <=? MAX_CHANGELOG_FRAME_BYTES then [entries]
      else if (length entries =? 1)%nat then [entries]
      else
        let mid := (length entries / 2)%nat in
        encode_groups fuel' key (take mid entries) ++ encode_groups fuel' key (drop mid entries)
  end.
Definition encodeChangelogFrames (key : string) (entries : list WireEntry) : list frame :=
  ChangelogPush <$> encode_groups (S (length entries)) key entries.

Definition sendFrame (peer : string) (f : frame) (n : node) : node * bool :=
  if accepts (nd_attempts n)
  then (MkNode (nd_db n) (nd_sync n) (nd_peers n) (nd_seeding n) (nd_pending n)
          (nd_sent n ++ [(peer, f)]) (S (nd_attempts n)), true)
  else (MkNode (nd_db n) (nd_sync n) (nd_peers n) (nd_seeding n) (nd_pending n)
          (nd_sent n) (S (nd_attempts n)), false).

(** Send until a frame is refused. *)
Fixpoint send_frames (peer : string) (fs : list frame) (n : node) : node * bool :=
  match fs with
  | [] => (n, true)
  | f :: fs' => match sendFrame peer f n with (n', true) => send_frames peer fs' n' | r => r end
  end.

(** ** Flushing new entries *)
Definition flush_peer (entries : list ChangeLogEntry) (p : string * string) (n : node) : node * result unit :=
  let '(peerSiteId, key) := p in
  if existsb (seqb peerSiteId) (nd_seeding n) then (n, Ok tt)
  else
    let entriesToSend := List.filter (λ e, negb (seqb (cl_site_id e) peerSiteId)) entries in
    match last entriesToSend with
    | None => (n, Ok tt)
    | Some highest =>
        match toChangelogWireEntries entriesToSend with
        | Throw e => (n, Throw e)
        | Ok wireEntries =>
            match send_frames peerSiteId (encodeChangelogFrames key wireEntries) n with
            | (n', true) =>
                (with_sync (updatePeerCursor now peerSiteId (set_last_sent (cl_hlc highest)) (nd_sync n')) n', Ok tt)
            | (n', false) => (n', Ok tt)
            end
        end
    end.

Fixpoint flush_peers (entries : list ChangeLogEntry) (ps : list (string * string)) (n : node) : node * result unit :=
  match ps with
  | [] => (n, Ok tt)
  | p :: ps' => match flush_peer entries p n with (n', Ok _) => flush_peers entries ps' n' | r => r end
  end.
Definition flushChangelogEntries (entries : list ChangeLogEntry) (n : node) : node * result unit :=
  flush_peers entries (nd_peers n) n.

(** *** The coalescer and its listener *)
Definition findChangeLogEntryByHlc (log : list ChangeLogEntry) (hlc : string) : option ChangeLogEntry :=
  List.find (λ e, seqb (cl_hlc e) hlc) log.
Definition changelogWrittenListener (event : ChangeLogEvent) (n : node) : node :=
  match findChangeLogEntryByHlc (change_log (nd_db n)) (ce_hlc event) with
  | Some entry => with_pending (nd_pending n ++ [entry]) n
  | None => n
  end.
(** The queued microtask: it runs when something was added. *)
Definition coalescer_microtask (n : node) : node * result unit :=
  flushChangelogEntries (nd_pending n) (with_pending [] n).

(** ** Draining missed entries *)
Definition missed (peerSiteId lastSent : string) (log : list ChangeLogEntry) : list ChangeLogEntry :=
  List.filter (λ e, sltb lastSent (cl_hlc e) && negb (seqb (cl_site_id e) peerSiteId)) (sort_hlc log).

(** Batches of 100, stopping at the first refused frame. *)
Fixpoint drain_batches (fuel : nat) (p : string * string) (allEntries : list ChangeLogEntry) (n : node)
    : node * result bool :=
  match fuel with
  | O => (n, Ok true)
  | S fuel' =>
      let batch := take 100 allEntries in
      match last batch with
      | None => (n, Ok true)
      | Some highest =>
          match toChangelogWireEntries batch with
          | Throw e => (n, Throw e)
          | Ok wireEntries =>
              match send_frames p.1 (encodeChangelogFrames p.2 wireEntries) n with
              | (n', false) => (n', Ok false)
              | (n', true) =>
                  drain_batches fuel' p (drop 100 allEntries)
                    (with_sync (updatePeerCursor now p.1 (set_last_sent (cl_hlc highest)) (nd_sync n')) n')
              end
          end
      end
  end.

Definition drainChangelog (peerSiteId : string) (n : node) : node * result unit :=
  match fields_get peerSiteId (nd_peers n) with
  | None => (n, Ok tt)
  | Some key =>
      if existsb (seqb peerSiteId) (nd_seeding n) then (n, Ok tt)
      else
        let allEntries := missed peerSiteId (last_sent_to peerSiteId (nd_sync n)) (change_log (nd_db n)) in
        if (length allEntries =? 0)%nat then (n, Ok tt)
        else match drain_batches (length allEntries) (peerSiteId, key) allEntries n with
             | (n', Throw e) => (n', Throw e)
             | (n', Ok true) => ((sendFrame peerSiteId (DrainComplete true) n').1, Ok tt)
             | (n', Ok false) => (n', Ok tt)
             end
  end.

(** ** Receiving *)
Definition sendChangelogAck (peerSiteId cursor : string) (n : node) : node :=
  match fields_get peerSiteId (nd_peers n) with
  | None => n
  | Some _ => (sendFrame peerSiteId (ChangelogAck cursor) n).1
  end.

Definition handleChangelogPush (sch : string → table_schema) (clock : nat → string) (peerSiteId : string)
    (payload : list WireEntry) (n : node) : node * result unit :=
  let entries := of_wire <$> payload in
  match last entries with
  | None => (n, Ok tt)
  | Some highest =>
      match replayEvents sch clock entries (nd_db n) with
      | (db, Throw e) => (with_db db n, Throw e)
      | (db, Ok s) =>
          let n1 := foldl (λ n ev, changelogWrittenListener ev n) (with_db db n) (rp_hlcs s) in
          let n2 := with_sync (updatePeerCursor now peerSiteId
                      (MkUpdates (Some (Some (cl_hlc highest))) None None None) (nd_sync n1)) n1 in
          (sendChangelogAck peerSiteId (cl_hlc highest) n2, Ok tt)
      end
  end.

Definition handleChangelogAck (peerSiteId cursor : string) (n : node) : node :=
  with_sync (updatePeerCursor now peerSiteId
    (MkUpdates None (Some (Some cursor)) (Some (Some cursor)) None) (nd_sync n)) n.
End Transport.

(** ** Facts *)
Section Facts.
Context (encrypt : string → string → string → string) (nonce : json → string).
Context (accepts : nat → bool) (now : string).

(** A group that fits one frame, or a single entry that cannot be split. *)
Definition frame_fits (key : string) (g : list WireEntry) : Prop :=
  g ≠ [] ∧ (byte_length (frame_bytes encrypt nonce key (ChangelogPush g)) ≤ MAX_CHANGELOG_FRAME_BYTES ∨
            length g = 1%nat).

Lemma encode_groups_spec fuel key entries :
  (length entries < fuel)%nat →
  concat (encode_groups encrypt nonce fuel key entries) = entries ∧
  Forall (frame_fits key) (encode_groups encrypt nonce fuel key entries).
Proof.
  revert entries. induction fuel as [|fuel IH]; intros entries Hf; [lia|]. cbn [encode_groups].
  destruct (Nat.eqb_spec (length entries) 0) as [H0|H0].
  { by apply length_zero_iff_nil in H0 as ->. }
  assert (entries ≠ []) as Hne by (by intros ->).
  destruct (Z.leb_spec (byte_length (frame_bytes encrypt nonce key (ChangelogPush entries)))
    MAX_CHANGELOG_FRAME_BYTES) as [Hle|_].
  { simpl. rewrite app_nil_r. split; [done|]. apply Forall_singleton. split; [done|by left]. }
  destruct (Nat.eqb_spec (length entries) 1) as [H1|H1].
  { simpl. rewrite app_nil_r. split; [done|]. apply Forall_singleton. split; [done|by right]. }
  cbv zeta. set (mid := (length entries / 2)%nat).
  assert (0 < mid < length entries)%nat as Hmid.
  { split; [apply Nat.div_str_pos; lia|apply Nat.div_lt; lia]. }
  destruct (IH (take mid entries)) as [A1 A2]; [rewrite length_take; lia|].
  destruct (IH (drop mid entries)) as [B1 B2]; [rewrite length_drop; lia|].
  rewrite concat_app, A1, B1, take_drop. split; [done|]. by apply Forall_app.
Qed.

Definition entries_of (f : frame) : list WireEntry := match f with ChangelogPush es => es | _ => [] end.

Lemma encoded_entries key entries :
  concat (entries_of <$> encodeChangelogFrames encrypt nonce key entries) = entries.
Proof.
  unfold encodeChangelogFrames. rewrite <-list_fmap_compose.
  etransitivity; [apply (f_equal (@concat WireEntry)), list_fmap_id|]. apply encode_groups_spec. lia.
Qed.

(** What sending changes: the frames accepted before the first refusal. *)
Definition sends (peer : string) (fs : list frame) (n n' : node) : Prop :=
  nd_db n' = nd_db n ∧ nd_peers n' = nd_peers n ∧ nd_seeding n' = nd_seeding n ∧ nd_pending n' = nd_pending n ∧
  nd_sent n' = nd_sent n ++ ((peer,.) <$> fs).

Lemma send_frames_spec peer fs n :
  let '(n', ok) := send_frames accepts peer fs n in
  nd_sync n' = nd_sync n ∧ ∃ k, sends peer (take k fs) n n' ∧ (ok = true → k = length fs).
Proof.
  revert n. induction fs as [|f fs IH]; intros n; cbn [send_frames].
  { split; [done|]. exists 0%nat. split; [|done]. unfold sends. simpl. by rewrite app_nil_r. }
  unfold sendFrame. destruct (accepts (nd_attempts n)).
  - match goal with |- context [send_frames accepts peer fs ?m] => specialize (IH m) end.
    destruct (send_frames accepts peer fs _) as [n' ok]. destruct IH as (Hs & k & (A & B & C & D & E) & Hok).
    split; [done|]. exists (S k). split; [|intros ?; simpl; by rewrite Hok].
    simpl in *. unfold sends. rewrite E, <-app_assoc. done.
  - split; [done|]. exists 0%nat. split; [|done]. unfold sends. simpl. by rewrite app_nil_r.
Qed.

Lemma send_all_accepted peer fs n :
  (∀ k, accepts k = true) → (send_frames accepts peer fs n).2 = true.
Proof.
  intros Hacc. revert n. induction fs as [|f fs IH]; intros n; [done|]. cbn [send_frames].
  unfold sendFrame. rewrite Hacc. apply IH.
Qed.

(** *** Cursors *)
Lemma last_sent_update now' p h s : last_sent_to p (updatePeerCursor now' p (set_last_sent h) s) = h.
Proof.
  unfold last_sent_to, getPeerCursor, updatePeerCursor. rewrite lookup_insert_eq. by destruct (s !! p).
Qed.

(** *** The wire *)
Definition parses_data (e : ChangeLogEntry) : Prop :=
  ∃ v, json_wf v ∧ cl_row_data e = json_stringify v.

Lemma to_wire_ok e : parses_data e → ∃ w, to_wire e = Ok w ∧ of_wire w = e.
Proof.
  intros (v & Hv & He). unfold to_wire. rewrite He, json_roundtrip by done. eexists. split; [done|].
  unfold of_wire. simpl. rewrite <-He. by destruct e.
Qed.

(** Entries survive the conversion to the wire and back. *)
Lemma wire_roundtrip es :
  Forall parses_data es → ∃ ws, toChangelogWireEntries es = Ok ws ∧ of_wire <$> ws = es.
Proof.
  induction 1 as [|e es He _ (ws & Hws & Hes)]; [by exists []|].
  destruct (to_wire_ok e He) as (w & Hw & Hwe). exists (w :: ws). cbn [toChangelogWireEntries].
  rewrite Hw, Hws. cbn [result_bind]. split; [done|]. by rewrite fmap_cons, Hwe, Hes.
Qed.

(** *** What a peer missed *)
Lemma sorted_filter (P : ChangeLogEntry → bool) log : log_sorted log → log_sorted (List.filter P log).
Proof.
  induction 1 as [|e log _ IH Hall]; [constructor|]. simpl. destruct (P e); [|done].
  constructor; [done|]. by apply Forall_bool_filter.
Qed.

Lemma filter_filter {A} (P Q : A → bool) l :
  List.filter P (List.filter Q l) = List.filter (λ x, Q x && P x) l.
Proof.
  induction l as [|x l IH]; [done|]. simpl. destruct (Q x); simpl; [|done]. destruct (P x); by rewrite IH.
Qed.

Lemma missed_sorted p c log : log_sorted log → log_sorted (missed p c log).
Proof. intros H. unfold missed. rewrite sort_hlc_sorted by done. by apply sorted_filter. Qed.

(** Moving the cursor to an entry of the missed list leaves what follows it. *)
Lemma missed_advance p c log a x b :
  log_sorted log → missed p c log = (a ++ [x]) ++ b → missed p (cl_hlc x) log = b.
Proof.
  intros Hs Hm. pose proof (missed_sorted p c log Hs) as Hms. rewrite Hm in Hms.
  destruct (log_sorted_app_inv _ _ Hms) as (Ha & _ & Hlt).
  destruct (log_sorted_app_inv _ _ Ha) as (_ & _ & Hax).
  assert ((c) <s (cl_hlc x)) as Hc.
  { assert (x ∈ missed p c log) as Hx by (rewrite Hm; apply elem_of_app; left; apply elem_of_app; right; by apply list_elem_of_singleton).
    apply filter_In_iff in Hx as [_ Hx]. by apply andb_prop in Hx as [? _]. }
  transitivity (List.filter (λ e, sltb (cl_hlc x) (cl_hlc e)) (missed p c log)).
  - unfold missed. rewrite filter_filter. apply List.filter_ext. intros e.
    destruct (sltb (cl_hlc x) (cl_hlc e)) eqn:E; [|by rewrite andb_false_r].
    rewrite (sltb_trans _ _ _ Hc E). by rewrite andb_true_r.
  - rewrite Hm, List.filter_app, filter_bool_none, filter_bool_all; [done| |].
    + intros y Hy. apply Hlt; [|done]. apply elem_of_app. right. by apply list_elem_of_singleton.
    + intros y [Hy|Hy%list_elem_of_singleton]%elem_of_app; [|subst y; apply sltb_irrefl].
      apply sltb_asym, Hax; [done|]. by apply list_elem_of_singleton.
Qed.

Lemma last_take_app {A} (l : list A) x : last l = Some x → ∃ l', l = l' ++ [x].
Proof. apply last_Some. Qed.

(** The wire entries a peer was pushed. *)
Definition pushed (fs : list frame) : list WireEntry := concat (entries_of <$> fs).

Lemma pushed_app a b : pushed (a ++ b) = pushed a ++ pushed b.
Proof. unfold pushed. by rewrite fmap_app, concat_app. Qed.

Lemma pushed_take k fs : ∃ rest, pushed fs = pushed (take k fs) ++ rest.
Proof. exists (pushed (drop k fs)). by rewrite <-pushed_app, take_drop. Qed.

Lemma drain_batches_spec fuel p log n c :
  log_sorted log → Forall parses_data log →
  let all := missed p.1 c log in
  (length all ≤ fuel)%nat → last_sent_to p.1 (nd_sync n) = c →
  ∃ n' ok fs completed rest extra, drain_batches encrypt nonce accepts now fuel p all n = (n', Ok ok) ∧
    sends p.1 fs n n' ∧ all = completed ++ rest ∧ (of_wire <$> pushed fs) = completed ++ extra ∧
    missed p.1 (last_sent_to p.1 (nd_sync n')) log = rest ∧ extra `prefix_of` rest ∧
    (ok = true → rest = [] ∧ extra = []) ∧ ((∀ k, accepts k = true) → ok = true).
Proof.
  intros Hs Hp. revert n c. induction fuel as [|fuel IH]; intros n c all Hf Hc.
  { exists n, true, [], [], [], []. assert (all = []) as Ha by (apply length_zero_iff_nil; lia).
    split_and!; try done; [unfold sends; simpl; by rewrite app_nil_r|].
    rewrite Hc. exact Ha. }
  cbn [drain_batches]. destruct (last (take 100 all)) as [highest|] eqn:El.
  2: { apply last_None in El. assert (all = []) as Ha by (destruct all; [done|discriminate]).
       exists n, true, [], [], [], [].
       split_and!; try done; [unfold sends; simpl; by rewrite app_nil_r|]. rewrite Hc. exact Ha. }
  assert (Forall parses_data all) as Hpa.
  { unfold all, missed. rewrite sort_hlc_sorted by done. by apply Forall_bool_filter. }
  destruct (wire_roundtrip (take 100 all)) as (ws & Hws & Hes); [by apply Forall_take|].
  rewrite Hws.
  pose proof (send_frames_spec p.1 (encodeChangelogFrames encrypt nonce p.2 ws) n) as Hsend.
  pose proof (send_all_accepted p.1 (encodeChangelogFrames encrypt nonce p.2 ws) n) as Hacc.
  assert (pushed (encodeChangelogFrames encrypt nonce p.2 ws) = ws) as Hpush by apply encoded_entries.
  destruct (send_frames accepts p.1 _ n) as [n1 ok1]. destruct Hsend as (Hsync & k & Hk & Hok).
  destruct ok1.
  - rewrite (Hok eq_refl), firstn_all in Hk. destruct Hk as (A & B & C & D & E).
    apply last_Some in El as [a Ha].
    assert (all = (a ++ [highest]) ++ drop 100 all) as Hall by (by rewrite <-Ha, take_drop).
    pose proof (missed_advance p.1 c log a highest (drop 100 all) Hs Hall) as Hadv.
    set (n2 := with_sync (updatePeerCursor now p.1 (set_last_sent (cl_hlc highest)) (nd_sync n1)) n1).
    assert (last_sent_to p.1 (nd_sync n2) = cl_hlc highest) as Hls by apply last_sent_update.
    destruct (IH n2 (cl_hlc highest)) as (n' & ok & fs & completed & rest & extra & H1 & H2 & H3 & H4 & H5 & H6 & H7 & H8);
      [|done|].
    { rewrite Hadv, length_drop. destruct all; [|simpl in *; lia]. by destruct a. }
    rewrite Hadv in H1, H3. rewrite H1.
    exists n', ok, (encodeChangelogFrames encrypt nonce p.2 ws ++ fs), (take 100 all ++ completed), rest, extra.
    split_and!; try done.
    + destruct H2 as (A' & B' & C' & D' & E'). unfold sends. rewrite A', B', C', D', E'. simpl.
      rewrite E, fmap_app, app_assoc. done.
    + by rewrite <-app_assoc, <-H3, take_drop.
    + by rewrite pushed_app, Hpush, fmap_app, Hes, H4, app_assoc.
  - destruct (pushed_take k (encodeChangelogFrames encrypt nonce p.2 ws)) as (r & Hr).
    rewrite Hpush in Hr.
    exists n1, false, (take k (encodeChangelogFrames encrypt nonce p.2 ws)), [], all,
      (of_wire <$> pushed (take k (encodeChangelogFrames encrypt nonce p.2 ws))).
    split_and!; try done.
    + by rewrite Hsync, Hc.
    + exists ((of_wire <$> r) ++ drop 100 all). rewrite app_assoc, <-fmap_app, <-Hr, Hes. by rewrite take_drop.
Qed.
End Facts.

(** ** Theorems *)

(** C27: draining loses nothing: for every pattern of accepted and refused
    frames the drain sends a prefix of the entries the peer missed, in log
    order and without echoing the peer's own, and moves the cursor so that
    exactly the rest is still missed (some of it may have been sent already);
    when every frame is accepted nothing is left.  The pushed entries are those
    of the log, through the JSON of the wire. *)
Theorem drain_no_loss encrypt nonce accepts now n p key :
  fields_get p (nd_peers n) = Some key → p ∉ nd_seeding n →
  let log := change_log (nd_db n) in
  log_sorted log → Forall parses_data log →
  ∃ n' fs completed rest extra,
    drainChangelog encrypt nonce accepts now p n = (n', Ok tt) ∧
    nd_sent n' = nd_sent n ++ ((p,.) <$> fs) ∧ nd_db n' = nd_db n ∧
    missed p (last_sent_to p (nd_sync n)) log = completed ++ rest ∧
    of_wire <$> pushed fs = completed ++ extra ∧ extra `prefix_of` rest ∧
    missed p (last_sent_to p (nd_sync n')) log = rest ∧
    ((∀ k, accepts k = true) → rest = []).
Proof.
  intros Hkey Hseed log Hs Hp. unfold drainChangelog. rewrite Hkey.
  assert (existsb (seqb p) (nd_seeding n) = false) as ->.
  { apply not_true_is_false. by rewrite existsb_elem. }
  destruct (Nat.eqb_spec (length (missed p (last_sent_to p (nd_sync n)) (change_log (nd_db n)))) 0) as [H0|H0].
  { apply length_zero_iff_nil in H0. exists n, [], [], [], [].
    simpl. rewrite app_nil_r. split_and!; done. }
  destruct (drain_batches_spec encrypt nonce accepts now
    (length (missed p (last_sent_to p (nd_sync n)) log)) (p, key) log n _ Hs Hp (le_n _) eq_refl)
    as (n' & ok & fs & completed & rest & extra & H1 & (A & B & C & D & E) & H3 & H4 & H5 & H6 & H7 & H8).
  cbn [fst snd] in *. fold log. rewrite H1. destruct ok.
  - destruct (H7 eq_refl) as [-> ->]. unfold sendFrame. destruct (accepts (nd_attempts n')).
    + eexists _, (fs ++ [DrainComplete true]), completed, [], []. split; [reflexivity|]. simpl.
      rewrite E, pushed_app, !fmap_app. unfold pushed at 2. simpl. rewrite !app_nil_r, <-app_assoc.
      rewrite app_nil_r in H3, H4. split_and!; done.
    + eexists _, fs, completed, [], []. split; [reflexivity|]. simpl. split_and!; done.
  - exists n', fs, completed, rest, extra. split_and!; try done. intros Hacc. by apply H7, H8.
Qed.

(** Sample nodes. *)
Definition sample_entry (c : Z) : ChangeLogEntry :=
  MkChange (hlc_value "2026-01-01T00:00:00.000Z" c "s1") "threads" "a" "s1" "t" "{}".
Definition hub_node (log : list ChangeLogEntry) (sync : sync_state) : node :=
  MkNode (MkSdb ∅ log) sync [("p", "k")] [] [] [] 0.
Definition toy_nonces (p : json) : string := toy_nonce.

Lemma sample_parses c : parses_data (sample_entry c).
Proof. exists (JObj []). split; [split; [apply NoDup_nil_2|exact I]|reflexivity]. Qed.

Lemma drain_no_loss_witness :
  ∃ n' fs, drainChangelog toy_encrypt toy_nonces (λ _, true) "t" "p"
      (hub_node [sample_entry 1; sample_entry 2] ∅) = (n', Ok tt) ∧
    nd_sent n' = ((λ f, ("p", f)) <$> fs) ∧
    missed "p" (last_sent_to "p" (nd_sync n')) [sample_entry 1; sample_entry 2] = [].
Proof.
  destruct (drain_no_loss toy_encrypt toy_nonces (λ _, true) "t" (hub_node [sample_entry 1; sample_entry 2] ∅) "p" "k")
    as (n' & fs & completed & rest & extra & H1 & H2 & _ & _ & _ & _ & H7 & H8).
  - reflexivity.
  - apply not_elem_of_nil.
  - repeat (apply SSorted_cons || apply SSorted_nil || apply List.Forall_cons || apply List.Forall_nil); reflexivity.
  - repeat (apply List.Forall_cons; [apply sample_parses|]). apply List.Forall_nil.
  - exists n', fs. split; [exact H1|]. split; [exact H2|]. simpl in H7. rewrite H7. by apply H8.
Defined.

Lemma encode_one encrypt nonce key w :
  encodeChangelogFrames encrypt nonce key [w] = [ChangelogPush [w]].
Proof. unfold encodeChangelogFrames. simpl. by destruct (_ <=? _). Qed.

Lemma flush_one encrypt nonce accepts now n p key e w :
  nd_peers n = [(p, key)] → nd_seeding n = [] → cl_site_id e ≠ p → to_wire e = Ok w →
  flushChangelogEntries encrypt nonce accepts now [e] n =
    (if accepts (nd_attempts n)
     then MkNode (nd_db n) (updatePeerCursor now p (set_last_sent (cl_hlc e)) (nd_sync n)) (nd_peers n) (nd_seeding n)
            (nd_pending n) (nd_sent n ++ [(p, ChangelogPush [w])]) (S (nd_attempts n))
     else MkNode (nd_db n) (nd_sync n) (nd_peers n) (nd_seeding n) (nd_pending n) (nd_sent n) (S (nd_attempts n)), Ok tt).
Proof.
  intros Hps Hseed Hsite Hw. unfold flushChangelogEntries. rewrite Hps. cbn [flush_peers flush_peer].
  rewrite Hseed. cbn [existsb List.filter]. apply seqb_false in Hsite. rewrite Hsite. cbn [negb last toChangelogWireEntries].
  rewrite Hw. cbn [result_bind]. rewrite encode_one. cbn [send_frames]. unfold sendFrame.
  destruct (accepts (nd_attempts n)); cbn; by rewrite ?Hps, ?Hseed.
Qed.

(** backpressure opens a gap in live replication: when the frame of one
    entry is refused and the frame of the next is accepted, the cursor moves
    past the first entry, so that no later drain sends it; and the
    acknowledgement of the second moves the peer's confirmed watermark past an
    entry the peer never received. *)
Theorem flush_backpressure_gap encrypt nonce accepts now n p key e1 e2 log :
  nd_peers n = [(p, key)] → nd_seeding n = [] → change_log (nd_db n) = log ++ [e1; e2] →
  log_sorted (log ++ [e1; e2]) → parses_data e1 → parses_data e2 → cl_site_id e1 ≠ p → cl_site_id e2 ≠ p →
  (last_sent_to p (nd_sync n)) <s (cl_hlc e1) →
  accepts (nd_attempts n) = false → accepts (S (nd_attempts n)) = true →
  let n1 := (flushChangelogEntries encrypt nonce accepts now [e1] n).1 in
  let n2 := (flushChangelogEntries encrypt nonce accepts now [e2] n1).1 in
  let n3 := (drainChangelog encrypt nonce accepts now p n2).1 in
  let n4 := handleChangelogAck now p (cl_hlc e2) n3 in
  e1 ∈ missed p (last_sent_to p (nd_sync n)) (change_log (nd_db n)) ∧
  (∃ w2, nd_sent n4 = nd_sent n ++ [(p, ChangelogPush [w2])] ∧ of_wire w2 = e2) ∧
  missed p (last_sent_to p (nd_sync n4)) (change_log (nd_db n4)) = [] ∧
  getConfirmedSyncWatermark (nd_sync n4) p = cl_hlc e2 ∧ (cl_hlc e1) <s (cl_hlc e2).
Proof.
  intros Hps Hseed Hlog Hs Hp1 Hp2 Hs1 Hs2 Hc Ha1 Ha2 n1 n2 n3 n4.
  destruct (to_wire_ok e1 Hp1) as (w1 & Hw1 & _). destruct (to_wire_ok e2 Hp2) as (w2 & Hw2 & He2).
  assert (n1 = MkNode (nd_db n) (nd_sync n) (nd_peers n) (nd_seeding n) (nd_pending n) (nd_sent n) (S (nd_attempts n))) as Hn1.
  { unfold n1. rewrite (flush_one encrypt nonce accepts now n p key e1 w1) by done. by rewrite Ha1. }
  assert (n2 = MkNode (nd_db n) (updatePeerCursor now p (set_last_sent (cl_hlc e2)) (nd_sync n)) (nd_peers n)
    (nd_seeding n) (nd_pending n) (nd_sent n ++ [(p, ChangelogPush [w2])]) (S (S (nd_attempts n)))) as Hn2.
  { unfold n2. rewrite (flush_one encrypt nonce accepts now n1 p key e2 w2) by (rewrite ?Hn1; done).
    rewrite Hn1. simpl. by rewrite Ha2. }
  assert (missed p (cl_hlc e2) (log ++ [e1; e2]) = []) as Hnone.
  { unfold missed. rewrite sort_hlc_sorted by done. apply filter_bool_none. intros x Hx.
    assert ((cl_hlc x) ≤s (cl_hlc e2)) as Hle.
    { change [e1; e2] with ([e1] ++ [e2]) in Hs, Hx. rewrite app_assoc in Hs, Hx.
      destruct (log_sorted_app_inv _ _ Hs) as (_ & _ & Hlt).
      apply elem_of_app in Hx as [Hx| ->%list_elem_of_singleton]; [|apply sleb_refl].
      apply sltb_sleb_weak, Hlt; [done|]. by apply list_elem_of_singleton. }
    rewrite sleb_sltb in Hle. apply negb_true_iff in Hle. by rewrite Hle. }
  assert (n3 = n2) as Hn3.
  { unfold n3, drainChangelog. rewrite Hn2. cbn [nd_peers nd_seeding nd_sync nd_db]. rewrite Hps, Hseed.
    cbn [fields_get existsb]. rewrite seqb_refl, last_sent_update, Hlog, Hnone. done. }
  split_and!.
  - rewrite Hlog. unfold missed. rewrite sort_hlc_sorted by done. apply filter_In_iff. split.
    + apply elem_of_app. right. left.
    + apply seqb_false in Hs1. by rewrite Hc, Hs1.
  - exists w2. split; [|done]. unfold n4. rewrite Hn3, Hn2. done.
  - unfold n4, handleChangelogAck. rewrite Hn3, Hn2. cbn [nd_sync nd_db with_sync]. rewrite Hlog.
    unfold last_sent_to, getPeerCursor, updatePeerCursor. rewrite lookup_insert_eq.
    by destruct (_ !! p).
  - unfold n4, handleChangelogAck, getConfirmedSyncWatermark, getPeerCursor, updatePeerCursor.
    cbn [nd_sync with_sync]. rewrite lookup_insert_eq. by destruct (_ !! p).
  - destruct (log_sorted_app_inv _ _ Hs) as (_ & H2 & _). apply StronglySorted_inv in H2 as [_ H2].
    by apply Forall_cons_1 in H2 as [? _].
Qed.

Lemma flush_backpressure_gap_witness :
  let accepts k := negb (Nat.eqb k 0) in
  let n := hub_node [sample_entry 1; sample_entry 2] ∅ in
  let n1 := (flushChangelogEntries toy_encrypt toy_nonces accepts "t" [sample_entry 1] n).1 in
  let n2 := (flushChangelogEntries toy_encrypt toy_nonces accepts "t" [sample_entry 2] n1).1 in
  let n3 := (drainChangelog toy_encrypt toy_nonces accepts "t" "p" n2).1 in
  missed "p" (last_sent_to "p" (nd_sync (handleChangelogAck "t" "p" (cl_hlc (sample_entry 2)) n3)))
    [sample_entry 1; sample_entry 2] = [].
Proof.
  intros accepts n n1 n2 n3.
  destruct (flush_backpressure_gap toy_encrypt toy_nonces accepts "t" n "p" "k" (sample_entry 1) (sample_entry 2) [])
    as (_ & _ & H & _); [reflexivity|reflexivity|reflexivity| |apply sample_parses|apply sample_parses|
      discriminate|discriminate|reflexivity|reflexivity|reflexivity|exact H].
  repeat (apply SSorted_cons || apply SSorted_nil || apply List.Forall_cons || apply List.Forall_nil); reflexivity.
Defined.

(** *** Pruning against inbound progress *)
Lemma single_min p s : getMinConfirmedHlc {[p := s]} = last_received s.
Proof. unfold getMinConfirmedHlc, getMinSyncReceivedHlc. by rewrite map_to_list_singleton. Qed.

Lemma listener_sync evs n : nd_sync (foldl (λ n ev, changelogWrittenListener ev n) n evs) = nd_sync n.
Proof.
  revert n. induction evs as [|ev evs IH]; intros n; [done|]. simpl. rewrite IH.
  unfold changelogWrittenListener. by destruct (findChangeLogEntryByHlc _ _).
Qed.

Lemma ack_sync accepts p c n : nd_sync (sendChangelogAck accepts p c n) = nd_sync n.
Proof.
  unfold sendChangelogAck, sendFrame. destruct (fields_get p (nd_peers n)); [|done].
  by destruct (accepts (nd_attempts n)).
Qed.

(** pruning in multi-host mode follows what this node received, not what
    its peers confirmed: after a push from its only peer, whose highest HLC is
    [h], pruning deletes every entry up to [h], also those the peer was never
    sent and never confirmed; draining to that peer can no longer send them. *)
Theorem prune_drops_unsent sch clock accepts now p payload highest n n' s :
  handleChangelogPush accepts now sch clock p payload n = (n', Ok tt) →
  last (of_wire <$> payload) = Some highest → nd_sync n = {[p := s]} → cl_hlc highest ≠ HLC_ZERO →
  let kept := (pruneChangeLog (nd_sync n') (determinePruningMode (nd_sync n')) (change_log (nd_db n'))).1 in
  last_sent_to p (nd_sync n') = last_sent s ∧ getConfirmedSyncWatermark (nd_sync n') p = last_confirmed s ∧
  ∀ e, e ∈ change_log (nd_db n') →
    (e ∈ kept ↔ (cl_hlc highest) <s (cl_hlc e)) ∧
    ((cl_hlc e) ≤s (cl_hlc highest) → e ∉ missed p (last_sent_to p (nd_sync n')) kept).
Proof.
  intros Hpush Hlast Hsync Hne. unfold handleChangelogPush in Hpush. rewrite Hlast in Hpush.
  destruct (replayEvents _ _ _ _) as [db [rs|]]; [|done]. cbv zeta in Hpush.
  assert (nd_sync n' = {[p := MkSync (cl_hlc highest) (last_sent s) (last_confirmed s) (Some now) (sync_errors s)]}) as Hs'.
  { injection Hpush as <-. rewrite ack_sync. cbn [nd_sync with_sync]. rewrite listener_sync. cbn [nd_sync with_db].
    rewrite Hsync. unfold updatePeerCursor. rewrite lookup_singleton_eq. simpl. by rewrite insert_singleton_eq. }
  cbv zeta. rewrite Hs'.
  assert (determinePruningMode {[p := MkSync (cl_hlc highest) (last_sent s) (last_confirmed s) (Some now) (sync_errors s)]} = MultiHost) as ->.
  { unfold determinePruningMode, countSyncStatePeers. by rewrite map_size_singleton. }
  unfold pruneChangeLog. rewrite single_min. cbn [last_received].
  rewrite (proj2 (seqb_false _ _)) by done. unfold delete_through. cbn [fst].
  unfold last_sent_to, getConfirmedSyncWatermark, getPeerCursor. rewrite lookup_singleton_eq.
  split_and!; [done|done|]. intros e He. rewrite filter_In_iff, <-sltb_sleb. split; [naive_solver|].
  intros Hle [Hin _]%filter_In_iff. rewrite sort_hlc_perm in Hin. apply filter_In_iff in Hin as [_ Hin].
  by rewrite Hle in Hin.
Qed.

Definition push_entry : WireEntry :=
  MkWire (hlc_value "2026-01-01T00:00:00.000Z" 9 "p") "threads" "b" "p" "t" JNull.

Lemma prune_drops_unsent_witness :
  match handleChangelogPush (λ _, true) "t" sample_schema (λ _, ts1) "p" [push_entry]
    (hub_node [sample_entry 1] {[ "p" := MkSync HLC_ZERO HLC_ZERO HLC_ZERO None 0 ]}) with
  | (n', Ok _) => sample_entry 1 ∈ change_log (nd_db n') ∧
      sample_entry 1 ∉ missed "p" (last_sent_to "p" (nd_sync n'))
        (pruneChangeLog (nd_sync n') (determinePruningMode (nd_sync n')) (change_log (nd_db n'))).1
  | _ => False
  end.
Proof.
  destruct (handleChangelogPush (λ _, true) "t" sample_schema (λ _, ts1) "p" [push_entry]
    (hub_node [sample_entry 1] {[ "p" := MkSync HLC_ZERO HLC_ZERO HLC_ZERO None 0 ]})) as [n' [[]|e]] eqn:E;
    [|vm_compute in E; discriminate].
  assert (sample_entry 1 ∈ change_log (nd_db n')) as Hin.
  { vm_compute in E. injection E as <-. left. }
  split; [exact Hin|].
  destruct (prune_drops_unsent sample_schema (λ _, ts1) (λ _, true) "t" "p" [push_entry] (of_wire push_entry)
    (hub_node [sample_entry 1] {[ "p" := MkSync HLC_ZERO HLC_ZERO HLC_ZERO None 0 ]}) n'
    (MkSync HLC_ZERO HLC_ZERO HLC_ZERO None 0) E) as (_ & _ & H); [reflexivity|reflexivity|discriminate|].
  apply (H (sample_entry 1) Hin). reflexivity.
Defined.
