(* ===== verification/Exchange.v ===== *)
(** * The consistency exchange and the row pull (packages/sync/src/ws-transport.ts)

    How a spoke learns what its hub holds and fetches what it lacks.  The hub
    streams its listing of every synced table page by page, one page per timer
    tick, and later the rows it is asked for, a frame per tick; a frame the
    socket refuses waits for the drain event.  The spoke collects the pages,
    resumes after a timeout where the hub left off, and applies the rows.
    [hub_step] is one event at the hub: a request, a timer that fires, a drain,
    a disconnection, a write of one of its tables.  Whether the socket accepts the k-th frame is an argument,
    as is the page size, [CONSISTENCY_PAGE_SIZE] in the code.  Frames are kept
    with their content; spans and log lines are left out. *)
From Stdlib Require Import Relation_Operators Lexicographic_Product Wf_nat.
From S2P Require Import Prelude Json Frames Hlc Store ChangeLog Reducers Consistency Changeset Transport.

Definition CONSISTENCY_PAGE_SIZE : Z := 5000.
Definition ROW_PULL_BATCH_SIZE : nat := 100.
Definition SYNCED_TABLES : list string :=
  ["users"; "hosts"; "cluster_config"; "threads"; "messages"; "turns"; "semantic_memory"; "memory_edges"; "tasks";
   "files"; "advisories"; "skills"].

(** ** Frames *)
Record page : Type := MkPage {
  pg_table : string;
  pg_pks : list string;
  pg_entries : option (list ConsistencyEntry);   (* absent from a legacy hub *)
  pg_count : nat;
  pg_has_more : bool;
  pg_table_index : nat;
  pg_table_count : nat;
  pg_all_done : bool;
  pg_request_id : option string;
  pg_next : option (nat * nat)            (* next_table_index, next_offset *)
}.
Record row_response : Type := MkRows {
  rr_request_id : string; rr_table : string; rr_rows : list fields; rr_last : bool
}.
Inductive hub_frame : Type :=
| ConsistencyResponse (p : page)
| ConsistencyFailed (request_id : option string)
| RowPullResponse (r : row_response)
| InvalidTable.

Definition rows_payload (r : row_response) : json :=
  JObj [("request_id", JStr (rr_request_id r)); ("table_name", JStr (rr_table r));
        ("rows", JArr (JObj <$> rr_rows r)); ("last", JBool (rr_last r))].

(** ** The hub *)
Record stream_job : Type := MkJob {
  jb_peer : string;
  jb_tables : list string;
  jb_tableIndex : nat;
  jb_offset : nat;
  jb_cursor : option string;
  jb_requestId : option string;
  jb_counts : gmap nat nat
}.
(** A refused page, with what follows it unless it is the last. *)
Record pending_page : Type := MkPendingPage { pp_page : page; pp_next : option stream_job }.
Record pull_state : Type := MkPull {
  pl_requestId : string;
  pl_tables : list (string * list string);
  pl_tableIndex : nat;
  pl_pkOffset : nat;
  pl_pendingRows : list fields;
  pl_pendingRowCursor : nat;
  pl_pendingIsLast : bool;
  pl_pendingTable : string
}.
Inductive timer : Type :=
| StreamPages (j : stream_job)
| PullPages (peer requestId : string) (tbls : list (string * list string)) (tableIndex pkOffset : nat)
| PullChunk (peer : string).

Record hub : Type := MkHub {
  hb_isHub : bool;
  hb_peers : list (string * string);                 (* peerConnections: site id and key *)
  hb_db : sdb;
  hb_cache : option hash_cache;
  hb_pending : gmap string pending_page;             (* pendingConsistencyStream *)
  hb_pulls : gmap string pull_state;                 (* pendingRowPullState *)
  hb_timers : list timer;
  hb_sent : list (string * hub_frame);
  hb_attempts : nat
}.
Definition with_timers (ts : list timer) (h : hub) : hub :=
  MkHub (hb_isHub h) (hb_peers h) (hb_db h) (hb_cache h) (hb_pending h) (hb_pulls h) ts (hb_sent h) (hb_attempts h).
Definition after_timer (t : timer) (h : hub) : hub := with_timers (hb_timers h ++ [t]) h.
Definition with_pending_page (p : gmap string pending_page) (h : hub) : hub :=
  MkHub (hb_isHub h) (hb_peers h) (hb_db h) (hb_cache h) p (hb_pulls h) (hb_timers h) (hb_sent h) (hb_attempts h).
Definition with_pulls (p : gmap string pull_state) (h : hub) : hub :=
  MkHub (hb_isHub h) (hb_peers h) (hb_db h) (hb_cache h) (hb_pending h) p (hb_timers h) (hb_sent h) (hb_attempts h).
Definition with_cache (c : option hash_cache) (h : hub) : hub :=
  MkHub (hb_isHub h) (hb_peers h) (hb_db h) c (hb_pending h) (hb_pulls h) (hb_timers h) (hb_sent h) (hb_attempts h).
Definition with_db (db : sdb) (h : hub) : hub :=
  MkHub (hb_isHub h) (hb_peers h) db (hb_cache h) (hb_pending h) (hb_pulls h) (hb_timers h) (hb_sent h) (hb_attempts h).
Definition peer_key (peer : string) (h : hub) : option string := fields_get peer (hb_peers h).

Section Hub.
Context (sha : string → string) (sch : string → table_schema) (pageSize : nat).
Context (encrypt : string → string → string → string) (nonce : json → string).
Context (accepts : nat → bool).

(** [peer.sendFrame]. *)
Definition send_hub (peer : string) (f : hub_frame) (h : hub) : hub * bool :=
  let ok := accepts (hb_attempts h) in
  (MkHub (hb_isHub h) (hb_peers h) (hb_db h) (hb_cache h) (hb_pending h) (hb_pulls h) (hb_timers h)
     (if ok then hb_sent h ++ [(peer, f)] else hb_sent h) (S (hb_attempts h)), ok).

(** *** Pages *)
(** The rows from the job's position on. *)
Definition job_rows (db : sdb) (tbl : string) (j : stream_job) : list (string * row) :=
  match jb_cursor j with
  | None => drop (jb_offset j) (backfillable tbl db)
  | Some c => List.filter (λ kr, sltb c kr.1) (backfillable tbl db)
  end.
(** The page at the job's position, what follows it and the cache. *)
Definition make_page (db : sdb) (cache : option hash_cache) (tbl : string) (j : stream_job)
    : page * option stream_job * option hash_cache :=
  let count := default (length (backfillable tbl db)) (jb_counts j !! jb_tableIndex j) in
  let counts := <[jb_tableIndex j := count]> (jb_counts j) in
  let rows := take (S pageSize) (job_rows db tbl j) in
  let hasMore := (pageSize <? length rows)%nat in
  let pageRows := take pageSize rows in
  let '(cached, cache') := getCachedRowStateHashes sha sch tbl pageRows.*1 db cache in
  let isLastTable := (jb_tableIndex j =? length (jb_tables j) - 1)%nat in
  let allDone := isLastTable && negb hasMore in
  let nextTableIndex := if hasMore then jb_tableIndex j else S (jb_tableIndex j) in
  let nextOffset := if hasMore then (jb_offset j + pageSize)%nat else 0%nat in
  let nextCursor := if hasMore then fst <$> last pageRows else None in
  (MkPage tbl pageRows.*1 (Some (omap (entry_of (ch_hashes cached)) pageRows)) count hasMore (jb_tableIndex j) (length (jb_tables j))
     allDone (jb_requestId j) (if allDone then None else Some (nextTableIndex, nextOffset)),
   if allDone then None
   else Some (MkJob (jb_peer j) (jb_tables j) nextTableIndex nextOffset nextCursor (jb_requestId j) counts),
   cache').

(** An index past the tables reads an undefined name, and the query throws:
    the error is told to the peer, whether or not it gets it. *)
Definition streamConsistencyPages (j : stream_job) (h : hub) : hub :=
  match peer_key (jb_peer j) h with
  | None => h
  | Some _ =>
      match jb_tables j !! jb_tableIndex j with
      | None => (send_hub (jb_peer j) (ConsistencyFailed (jb_requestId j)) h).1
      | Some tbl =>
          let '(pg, next, cache') := make_page (hb_db h) (hb_cache h) tbl j in
          let '(h', sent) := send_hub (jb_peer j) (ConsistencyResponse pg) (with_cache cache' h) in
          if negb sent then with_pending_page (<[jb_peer j := MkPendingPage pg next]> (hb_pending h')) h'
          else match next with
               | None => with_pending_page (delete (jb_peer j) (hb_pending h')) h'
               | Some j' => after_timer (StreamPages j') h'
               end
      end
  end.

Record consistency_request : Type := MkRequest {
  cq_tables : list string; cq_request_id : option string; cq_resume_table_index : option nat; cq_resume_offset : option nat
}.
Definition requested_tables (requested : list string) : list string :=
  if (length requested =? 0)%nat then SYNCED_TABLES else List.filter (λ t, existsb (seqb t) requested) SYNCED_TABLES.
Definition handleConsistencyRequest (peer : string) (payload : consistency_request) (h : hub) : hub :=
  if negb (hb_isHub h) then h
  else
    let tbls := requested_tables (cq_tables payload) in
    if (length tbls =? 0)%nat then h
    else streamConsistencyPages (MkJob peer tbls (default 0%nat (cq_resume_table_index payload))
           (default 0%nat (cq_resume_offset payload)) None (cq_request_id payload) ∅) h.

Definition continueConsistencyStream (peer : string) (h : hub) : hub :=
  match hb_pending h !! peer with
  | None => h
  | Some st =>
      match peer_key peer h with
      | None => with_pending_page (delete peer (hb_pending h)) h
      | Some _ =>
          let '(h', sent) := send_hub peer (ConsistencyResponse (pp_page st)) h in
          if negb sent then h'
          else
            let h'' := with_pending_page (delete peer (hb_pending h')) h' in
            match pp_next st with None => h'' | Some j => after_timer (StreamPages j) h'' end
      end
  end.

(** *** Rows *)
Definition rows_frame_bytes (key : string) (r : row_response) : Z :=
  byte_length (encodeFrame encrypt (nonce (rows_payload r)) ROW_PULL_RESPONSE (rows_payload r) key).
(** The longest of the halved prefixes that fits; a single row is sent anyway. *)
Fixpoint fit_slice (fuel : nat) (key : string) (response : nat → row_response) (sliceEnd : nat) : option nat :=
  match fuel with
  | O => None
  | S fuel' =>
      match sliceEnd with
      | O => None
      | _ => if rows_frame_bytes key (response sliceEnd) <=? MAX_CHANGELOG_FRAME_BYTES then Some sliceEnd
             else if (sliceEnd =? 1)%nat then Some sliceEnd
             else fit_slice fuel' key response (Nat.max 1 (sliceEnd / 2))
      end
  end.
(** Where the stream goes on after the batch of [st]. *)
Definition pull_next (st : pull_state) : nat * nat :=
  let hasMoreInTable :=
    (pl_pkOffset st <? match pl_tables st !! pl_tableIndex st with Some (_, pks) => length pks | None => 0 end)%nat in
  if hasMoreInTable then (pl_tableIndex st, pl_pkOffset st) else (S (pl_tableIndex st), 0%nat).

Definition sendRowPullSubChunk (peer : string) (h : hub) : hub :=
  match peer_key peer h, hb_pulls h !! peer with
  | Some key, Some st =>
      let remaining := drop (pl_pendingRowCursor st) (pl_pendingRows st) in
      match remaining with
      | [] =>
          let h' := with_pulls (delete peer (hb_pulls h)) h in
          if pl_pendingIsLast st then h'
          else after_timer (PullPages peer (pl_requestId st) (pl_tables st) (pull_next st).1 (pull_next st).2) h'
      | _ =>
          let response n := MkRows (pl_requestId st) (pl_pendingTable st) (take n remaining)
                              (pl_pendingIsLast st && (n =? length remaining)%nat) in
          match fit_slice (S (length remaining)) key response (length remaining) with
          | None => h
          | Some n =>
              let '(h', sent) := send_hub peer (RowPullResponse (response n)) h in
              if negb sent then h'
              else after_timer (PullChunk peer)
                     (with_pulls (<[peer := MkPull (pl_requestId st) (pl_tables st) (pl_tableIndex st) (pl_pkOffset st)
                        (pl_pendingRows st) (pl_pendingRowCursor st + n) (pl_pendingIsLast st) (pl_pendingTable st)]>
                        (hb_pulls h')) h')
          end
      end
  | _, _ => h
  end.

(** [SELECT * ... WHERE pk IN (...)]. *)
Definition select_in (tbl : string) (db : sdb) (batch : list string) : list fields :=
  (λ kr, row_object (sch tbl) kr.2) <$> List.filter (λ kr, existsb (seqb kr.1) batch) (rows_by_key (table_of tbl db)).

Definition streamRowPullPages (peer requestId : string) (tbls : list (string * list string)) (tableIndex pkOffset : nat)
    (h : hub) : hub :=
  match peer_key peer h with
  | None => h
  | Some _ =>
      match tbls !! tableIndex with
      | None =>
          let '(h', _) := send_hub peer (RowPullResponse (MkRows requestId "" [] true)) h in
          with_pulls (delete peer (hb_pulls h')) h'
      | Some (tbl, pks) =>
          match take ROW_PULL_BATCH_SIZE (drop pkOffset pks) with
          | [] => after_timer (PullPages peer requestId tbls (S tableIndex) 0) h
          | batch =>
              let rows := select_in tbl (hb_db h) batch in
              let nextPkOffset := (pkOffset + ROW_PULL_BATCH_SIZE)%nat in
              let hasMoreInTable := (nextPkOffset <? length pks)%nat in
              let isLast := negb hasMoreInTable && (tableIndex =? length tbls - 1)%nat in
              match rows with
              | [] =>
                  if isLast then
                    let '(h', _) := send_hub peer (RowPullResponse (MkRows requestId tbl [] true)) h in
                    with_pulls (delete peer (hb_pulls h')) h'
                  else after_timer (PullPages peer requestId tbls (if hasMoreInTable then tableIndex else S tableIndex)
                                      (if hasMoreInTable then nextPkOffset else 0%nat)) h
              | _ => sendRowPullSubChunk peer
                       (with_pulls (<[peer := MkPull requestId tbls tableIndex nextPkOffset rows 0 isLast tbl]> (hb_pulls h)) h)
              end
          end
      end
  end.

Definition handleRowPullRequest (peer requestId : string) (tbls : list (string * list string)) (h : hub) : hub :=
  if negb (hb_isHub h) then h
  else match peer_key peer h with
       | None => h
       | Some _ =>
           if negb (forallb (λ tp, validateTableName tp.1) tbls) then (send_hub peer InvalidTable h).1
           else streamRowPullPages peer requestId tbls 0 0 h
       end.
Definition continueRowPull (peer : string) (h : hub) : hub :=
  match hb_pulls h !! peer with Some _ => sendRowPullSubChunk peer h | None => h end.

(** *** Events *)
Definition removePeer (peer : string) (h : hub) : hub :=
  MkHub (hb_isHub h) (fields_remove peer (hb_peers h)) (hb_db h) (hb_cache h) (delete peer (hb_pending h)) (hb_pulls h)
    (hb_timers h) (hb_sent h) (hb_attempts h).
Definition fire (t : timer) (h : hub) : hub :=
  match t with
  | StreamPages j => streamConsistencyPages j h
  | PullPages peer requestId tbls ti off => streamRowPullPages peer requestId tbls ti off h
  | PullChunk peer => sendRowPullSubChunk peer h
  end.
Inductive hub_event : Type :=
| Requested (peer : string) (payload : consistency_request)
| RowsRequested (peer requestId : string) (tbls : list (string * list string))
| TimerFires (n : nat)
| Drained (peer : string)
| PeerGone (peer : string)
| HubWrites (tbl : string) (w : row_write).
Definition hub_step (h : hub) (e : hub_event) : hub :=
  match e with
  | Requested peer payload => handleConsistencyRequest peer payload h
  | RowsRequested peer requestId tbls => handleRowPullRequest peer requestId tbls h
  | TimerFires n =>
      match hb_timers h !! n with
      | Some t => fire t (with_timers (take n (hb_timers h) ++ drop (S n) (hb_timers h)) h)
      | None => h
      end
  | Drained peer => continueConsistencyStream peer (continueRowPull peer h)
  | PeerGone peer => removePeer peer h
  | HubWrites tbl w =>
      let '(db', cache') := trigger_write tbl w (hb_db h, hb_cache h) in with_cache cache' (with_db db' h)
  end.
Definition hub_run (h : hub) (es : list hub_event) : hub := foldl hub_step h es.
End Hub.

(** ** The spoke

    What a request has collected is a JavaScript [Map], and a request that
    resumes goes on with the [Map] of the one that timed out: the maps are kept
    by address. *)
Record collected : Type := MkCollected {
  co_count : nat; co_pks : list string; co_entries : option (list ConsistencyEntry)
}.
Abbreviation tables_data := (gmap string collected).
Record pending_request : Type := MkPendingRequest { rq_data : nat; rq_cursor : nat * nat }.
Inductive settlement : Type :=
| Resolved (data : tables_data)
| Rejected (msg : string).
Record spoke : Type := MkSpoke {
  sp_maps : list tables_data;                            (* by address *)
  sp_resume : option ((nat * nat) * nat);                (* consistencyResumeState *)
  sp_requests : gmap string pending_request;             (* pendingConsistencyRequests *)
  sp_settled : list (string * settlement)                (* promises, in the order they settle *)
}.
Definition map_at (a : nat) (s : spoke) : tables_data := default ∅ (sp_maps s !! a).
Definition fresh_spoke : spoke := MkSpoke [] None ∅ [].

(** The request for [tables]; [sent] says whether the hub is connected and its
    socket takes the frame.  Also the frame. *)
Definition requestConsistency (requestId : string) (tbls : list string) (sent : bool) (s : spoke)
    : spoke * consistency_request :=
  let cursor := match sp_resume s with Some (c, _) => c | None => (0, 0)%nat end in
  let resuming := (0 <? cursor.1)%nat || (0 <? cursor.2)%nat in
  let frame := MkRequest tbls (Some requestId) (if resuming then Some cursor.1 else None) (if resuming then Some cursor.2 else None) in
  if negb sent
  then (MkSpoke (sp_maps s) (sp_resume s) (sp_requests s) (sp_settled s ++ [(requestId, Rejected "Failed to send consistency request")]), frame)
  else
    let '(maps, data) := match sp_resume s with
                         | Some (_, a) => (sp_maps s, a)
                         | None => (sp_maps s ++ [∅], length (sp_maps s))
                         end in
    (MkSpoke maps (sp_resume s) (<[requestId := MkPendingRequest data cursor]> (sp_requests s)) (sp_settled s), frame).

Definition add_page (pg : page) (data : tables_data) : tables_data :=
  match data !! pg_table pg with
  | Some c =>
      <[pg_table pg := MkCollected (pg_count pg) (co_pks c ++ pg_pks pg)
          (match pg_entries pg with Some es => Some (default [] (co_entries c) ++ es) | None => co_entries c end)]> data
  | None => <[pg_table pg := MkCollected (pg_count pg) (pg_pks pg) (pg_entries pg)]> data
  end.

Definition resolveConsistency (requestId : string) (s : spoke) : spoke :=
  match sp_requests s !! requestId with
  | None => s
  | Some req => MkSpoke (sp_maps s) None (delete requestId (sp_requests s))
                  (sp_settled s ++ [(requestId, Resolved (map_at (rq_data req) s))])
  end.
Definition handleConsistencyResponse (s : spoke) (pg : page) : spoke :=
  if negb (truthy (pg_request_id pg)) then s
  else
    let rid := default "" (pg_request_id pg) in
    match sp_requests s !! rid with
    | None => s
    | Some req =>
        let cursor := default (rq_cursor req) (pg_next pg) in
        let data := add_page pg (map_at (rq_data req) s) in
        let s' := MkSpoke (<[rq_data req := data]> (sp_maps s)) (sp_resume s)
                    (<[rid := MkPendingRequest (rq_data req) cursor]> (sp_requests s)) (sp_settled s) in
        if pg_all_done pg then resolveConsistency rid s'
        else if negb (pg_has_more pg) && (0 <? pg_table_count pg)%nat && (pg_table_count pg <=? size data)%nat
        then resolveConsistency rid s'
        else s'
    end.
Definition handleConsistencyError (requestId : string) (s : spoke) : spoke :=
  match sp_requests s !! requestId with
  | None => s
  | Some _ => MkSpoke (sp_maps s) (sp_resume s) (delete requestId (sp_requests s))
                (sp_settled s ++ [(requestId, Rejected "Consistency request failed")])
  end.
(** The five-minute timer of a request. *)
Definition consistency_timeout (requestId : string) (s : spoke) : spoke :=
  MkSpoke (sp_maps s)
    (match sp_requests s !! requestId with Some req => Some (rq_cursor req, rq_data req) | None => sp_resume s end)
    (delete requestId (sp_requests s)) (sp_settled s ++ [(requestId, Rejected "Consistency check timed out (5m)")]).

(** ** The listing in pages *)
Lemma filter_app_bool {A} (p : A → bool) l1 l2 : List.filter p (l1 ++ l2) = List.filter p l1 ++ List.filter p l2.
Proof. induction l1 as [|x l1 IH]; simpl; [done|]. rewrite IH. by destruct (p x). Qed.
Lemma sorted_app_between {A} (key : A → string) (l1 l2 : list A) a b :
  sorted_by key (l1 ++ l2) → a ∈ l1 → b ∈ l2 → key a <s key b.
Proof.
  induction l1 as [|x l1 IH]; simpl; [by intros _ ?%not_elem_of_nil|]. inversion 1 as [|? ? Hs Hall]; subst.
  intros [->|Ha]%elem_of_cons Hb; [|by apply IH]. rewrite Forall_forall in Hall. apply Hall. apply elem_of_app. by right.
Qed.
(** Past the last key of a prefix, a sorted list goes on with the rest. *)
Lemma filter_past {A} (l1 l2 : list (string * A)) x :
  sorted_by fst (l1 ++ x :: l2) → List.filter (λ kr, sltb x.1 kr.1) (l1 ++ x :: l2) = l2.
Proof.
  intros Hs. assert (sorted_by fst ((l1 ++ [x]) ++ l2)) as Hs' by (by rewrite <-app_assoc).
  change (x :: l2) with ([x] ++ l2). rewrite app_assoc, filter_app_bool.
  rewrite filter_bool_none, filter_bool_all; [done|..].
  - intros y Hy. apply (sorted_app_between fst _ _ x y Hs'); [apply elem_of_app; right; left|done].
  - intros y [Hy|Hy]%elem_of_app.
    + apply sltb_asym. apply (sorted_app_between fst _ _ y x Hs); [done|left].
    + apply list_elem_of_singleton in Hy as ->. apply sltb_irrefl.
Qed.

Lemma take_take_S {A} n (l : list A) : take n (take (S n) l) = take n l.
Proof. rewrite take_take. f_equal. lia. Qed.
Lemma elem_of_slice {A} n m (l : list A) x : x ∈ take n (drop m l) → x ∈ l.
Proof.
  intros Hx. rewrite <-(take_drop m l). apply elem_of_app. right. rewrite <-(take_drop n (drop m l)). apply elem_of_app. by left.
Qed.
Lemma more_take {A} n (l : list A) : (n <? length (take (S n) l))%nat = (n <? length l)%nat.
Proof. rewrite length_take. destruct (Nat.ltb_spec n (length l)), (Nat.ltb_spec n (S n `min` length l)%nat); lia || done. Qed.

Section Listing.
Context (sha : string → string) (sch : string → table_schema) (pageSize : nat) (db : sdb).
Context (tbls : list string) (peer : string) (rid : option string).
Hypothesis sha_nonempty : ∀ s, nonempty (sha s) = true.
Hypothesis page_positive : (0 < pageSize)%nat.
Hypothesis tables_nodup : NoDup tbls.

Abbreviation entries tbl := (fresh_entry sha sch tbl <$> backfillable tbl db).
(** What a table contributes up to a number of rows. *)
Definition listed (tbl : string) (n : nat) : collected :=
  MkCollected (length (backfillable tbl db)) (take n (backfillable tbl db).*1) (Some (take n (entries tbl))).
Definition whole (tbl : string) : collected := listed tbl (length (backfillable tbl db)).
(** Collected up to a cursor: the tables before it, and the rows of its own. *)
Definition collected_to (c : nat * nat) : tables_data :=
  match tbls !! c.1, c.2 with
  | Some tbl, S _ => <[tbl := listed tbl c.2]> (list_to_map ((λ t, (t, whole t)) <$> take c.1 tbls))
  | _, _ => list_to_map ((λ t, (t, whole t)) <$> take c.1 tbls)
  end.
Definition everything : tables_data := list_to_map ((λ t, (t, whole t)) <$> tbls).

(** A job at a position of the listing. *)
Record job_at (j : stream_job) : Prop := {
  ja_peer : jb_peer j = peer;
  ja_tables : jb_tables j = tbls;
  ja_request : jb_requestId j = rid;
  ja_index : (jb_tableIndex j < length tbls)%nat;
  ja_counts : ∀ i c tbl, jb_counts j !! i = Some c → tbls !! i = Some tbl → c = length (backfillable tbl db);
  ja_rows : ∀ tbl, tbls !! jb_tableIndex j = Some tbl → job_rows db tbl j = drop (jb_offset j) (backfillable tbl db)
}.
Definition position (j : stream_job) : nat * nat := (jb_tableIndex j, jb_offset j).
Definition page_at (tbl : string) (j : stream_job) : page :=
  let rest := drop (jb_offset j) (backfillable tbl db) in
  let hasMore := (pageSize <? length rest)%nat in
  let allDone := (jb_tableIndex j =? length tbls - 1)%nat && negb hasMore in
  MkPage tbl (take pageSize rest).*1 (Some (fresh_entry sha sch tbl <$> take pageSize rest)) (length (backfillable tbl db))
    hasMore (jb_tableIndex j) (length tbls) allDone rid
    (if allDone then None else Some (if hasMore then (jb_tableIndex j, (jb_offset j + pageSize)%nat) else (S (jb_tableIndex j), 0%nat))).

Lemma page_last tbl j : pg_all_done (page_at tbl j) = match pg_next (page_at tbl j) with Some _ => false | None => true end.
Proof using. unfold page_at. cbv zeta. cbn [pg_next pg_all_done]. by destruct (_ =? _)%nat, (_ <? _)%nat. Qed.

(** The page a job makes, and the position of the next. *)
Lemma make_page_spec tbl j cache :
  job_at j → tbls !! jb_tableIndex j = Some tbl → (∀ c, cache = Some c → cache_right sha sch db c) →
  let '(pg, next, cache') := make_page sha sch pageSize db cache tbl j in
  pg = page_at tbl j ∧ (∀ c, cache' = Some c → cache_right sha sch db c) ∧
  match next with
  | Some j' => job_at j' ∧ pg_next pg = Some (position j')
  | None => pg_all_done pg = true
  end.
Proof using sha_nonempty page_positive.
  intros [Hpeer Htbls Hreq Hidx Hcounts Hrows] Ht Hok. unfold make_page.
  rewrite more_take, take_take_S, (Hrows tbl Ht), Htbls, Hreq, Hpeer. set (rest := drop (jb_offset j) (backfillable tbl db)).
  assert (default (length (backfillable tbl db)) (jb_counts j !! jb_tableIndex j) = length (backfillable tbl db)) as ->.
  { destruct (jb_counts j !! jb_tableIndex j) as [c|] eqn:E; [|done]. simpl. by eapply Hcounts. }
  pose proof (lookup_spec sha sch tbl (take pageSize rest).*1 db cache Hok) as H.
  destruct (getCachedRowStateHashes _ _ _ _ _ _) as [ch cache']. destruct H as (Hh & Hc & _).
  rewrite (entries_of_hashes sha sch sha_nonempty tbl db); [|done|intros kr Hin; by eapply elem_of_slice].
  unfold page_at. cbv zeta. fold rest. destruct (pageSize <? length rest)%nat eqn:Emore; (split_and!; [done|done|]); simpl.
  - rewrite andb_false_r. split; [|done]. split; try done.
    + simpl. intros i c t. destruct (decide (i = jb_tableIndex j)) as [->|Hne].
      * rewrite lookup_insert_eq. intros [= <-]. rewrite Ht. by intros [= <-].
      * rewrite lookup_insert_ne by done. apply Hcounts.
    + simpl. intros t. rewrite Ht. intros [= <-]. apply Nat.ltb_lt in Emore. unfold job_rows. simpl.
      destruct (last (take pageSize rest)) as [[k r]|] eqn:El.
      2: { apply last_None in El. apply (f_equal length) in El. rewrite length_take in El. simpl in El. lia. }
      simpl. apply last_Some in El as [l' El].
      assert (backfillable tbl db = (take (jb_offset j) (backfillable tbl db) ++ l') ++ (k, r) :: drop pageSize rest) as Hall.
      { rewrite <-app_assoc. change ((k, r) :: drop pageSize rest) with ([(k, r)] ++ drop pageSize rest).
        rewrite (app_assoc l'), <-El. unfold rest. by rewrite !take_drop. }
      pose proof (backfillable_sorted tbl db) as Hs. rewrite Hall in Hs. rewrite Hall at 1.
      change k with (k, r).1. rewrite filter_past by done. unfold rest. by rewrite drop_drop.
  - rewrite andb_true_r. destruct (jb_tableIndex j =? length tbls - 1)%nat eqn:Elast; [done|]. split; [|done].
    apply Nat.eqb_neq in Elast. split; try done.
    + simpl. lia.
    + simpl. intros i c t. destruct (decide (i = jb_tableIndex j)) as [->|Hne].
      * rewrite lookup_insert_eq. intros [= <-]. rewrite Ht. by intros [= <-].
      * rewrite lookup_insert_ne by done. apply Hcounts.
Qed.

(** *** What the pages collect *)
Lemma wholes_keys l : ((λ t, (t, whole t)) <$> l).*1 = l.
Proof using. rewrite <-list_fmap_compose. apply list_fmap_id. Qed.
Lemma not_before ti tbl : tbls !! ti = Some tbl → tbl ∉ take ti tbls.
Proof using tables_nodup.
  intros Ht. pose proof tables_nodup as Hnd. rewrite <-(take_drop_middle _ _ _ Ht) in Hnd.
  apply NoDup_app in Hnd as (_ & Hd & _). intros Hin. apply (Hd tbl Hin). left.
Qed.
Lemma wholes_snoc ti tbl : tbls !! ti = Some tbl →
  (list_to_map ((λ t, (t, whole t)) <$> take (S ti) tbls) : tables_data) =
  <[tbl := whole tbl]> (list_to_map ((λ t, (t, whole t)) <$> take ti tbls)).
Proof using tables_nodup.
  intros Ht. rewrite (take_S_r _ _ _ Ht), fmap_app. apply list_to_map_snoc. rewrite wholes_keys. by apply not_before.
Qed.
Lemma collected_next ti : collected_to (ti, 0%nat) = list_to_map ((λ t, (t, whole t)) <$> take ti tbls).
Proof using. unfold collected_to. simpl. by destruct (tbls !! ti). Qed.
Lemma listed_all tbl n : (length (backfillable tbl db) <= n)%nat → listed tbl n = whole tbl.
Proof using page_positive. intros Hn. unfold whole, listed. rewrite !take_ge; [done|rewrite ?length_fmap; lia..]. Qed.

Lemma page_collected tbl j : job_at j → tbls !! jb_tableIndex j = Some tbl →
  add_page (page_at tbl j) (collected_to (position j)) =
  <[tbl := listed tbl (jb_offset j + pageSize)]> (list_to_map ((λ t, (t, whole t)) <$> take (jb_tableIndex j) tbls)).
Proof using tables_nodup.
  intros Hj Ht. set (before := list_to_map _). unfold position. destruct (jb_offset j) as [|off] eqn:Eoff.
  - rewrite collected_next. fold before. unfold add_page, page_at. rewrite Eoff. cbn [pg_table pg_pks pg_entries pg_count].
    assert (before !! tbl = None) as ->.
    { apply not_elem_of_list_to_map_1. rewrite wholes_keys. by apply not_before. }
    f_equal. unfold listed. by rewrite drop_0, !fmap_take.
  - unfold collected_to. cbn [fst snd]. rewrite Ht. fold before. unfold add_page, page_at. rewrite Eoff.
    cbn [pg_table pg_pks pg_entries pg_count]. rewrite lookup_insert_eq, insert_insert_eq.
    f_equal. unfold listed. cbn [co_pks co_entries from_option id]. by rewrite !fmap_take, !fmap_drop, !take_take_drop.
Qed.

(** A page takes what is collected up to its job's position to the next
    position, or completes it; before the last page some table is missing. *)
Lemma page_advances tbl j : job_at j → tbls !! jb_tableIndex j = Some tbl →
  let pg := page_at tbl j in let data := add_page pg (collected_to (position j)) in
  match pg_next pg with
  | Some c => data = collected_to c ∧ negb (pg_has_more pg) && (0 <? pg_table_count pg)%nat && (pg_table_count pg <=? size data)%nat = false
  | None => data = everything
  end.
Proof using page_positive tables_nodup.
  intros Hj Ht. cbv zeta. rewrite page_collected by done. set (before := list_to_map _).
  unfold page_at. cbv zeta. cbn [pg_next pg_has_more pg_table_count].
  destruct (pageSize <? length (drop (jb_offset j) (backfillable tbl db)))%nat eqn:Emore.
  - rewrite andb_false_r. split; [|done]. unfold collected_to. cbn [fst snd]. rewrite Ht.
    destruct (jb_offset j + pageSize)%nat eqn:E; [lia|done].
  - rewrite andb_true_r. apply Nat.ltb_ge in Emore. rewrite length_drop in Emore.
    rewrite (listed_all tbl) by lia. subst before. rewrite <-wholes_snoc by done.
    destruct (jb_tableIndex j =? length tbls - 1)%nat eqn:Elast.
    + apply Nat.eqb_eq in Elast. unfold everything. rewrite take_ge; [done|lia].
    + rewrite collected_next. split; [done|]. apply Nat.eqb_neq in Elast. destruct Hj as [_ _ _ Hidx _ _].
      rewrite map_size_list_to_map by (rewrite wholes_keys; by eapply sublist_NoDup, sublist_take).
      rewrite length_fmap, length_take. destruct (Nat.leb_spec (length tbls) (S (jb_tableIndex j) `min` length tbls)); [lia|].
      by rewrite andb_false_r.
Qed.
End Listing.

(** ** Streaming under interference *)
Definition pages_to (p : string) (h : hub) : list page :=
  omap (λ pf, match pf.2 with ConsistencyResponse pg => if seqb pf.1 p then Some pg else None | _ => None end) (hb_sent h).
Definition jobs_of (p : string) (ts : list timer) : list stream_job :=
  omap (λ t, match t with StreamPages j => if seqb (jb_peer j) p then Some j else None | _ => None end) ts.
(** A refused page is followed by a job of its own peer. *)
Definition pending_owned (h : hub) : Prop :=
  ∀ q st j, hb_pending h !! q = Some st → pp_next st = Some j → jb_peer j = q.
(** The stream to [p] is left alone. *)
Definition unaffected sha sch (p : string) (h h' : hub) : Prop :=
  peer_key p h' = peer_key p h ∧ hb_db h' = hb_db h ∧ (pending_owned h → pending_owned h') ∧
  ((∀ c, hb_cache h = Some c → cache_right sha sch (hb_db h) c) → ∀ c, hb_cache h' = Some c → cache_right sha sch (hb_db h) c) ∧
  hb_pending h' !! p = hb_pending h !! p ∧ jobs_of p (hb_timers h') = jobs_of p (hb_timers h) ∧ pages_to p h' = pages_to p h.
(** An event that is neither a request for the stream of [p], nor its end, nor a
    write of a table of the listing. *)
Definition foreign (p : string) (tbls : list string) (e : hub_event) : Prop :=
  match e with
  | Requested q _ | PeerGone q => q ≠ p
  | HubWrites tbl _ => has_triggers tbl = true ∧ tbl ∉ tbls
  | _ => True
  end.
(** The tables of the listing are those of [db]. *)
Definition same_listing (tbls : list string) (db d : sdb) : Prop := ∀ tbl, tbl ∈ tbls → table_of tbl d = table_of tbl db.

Lemma fields_get_removed {V} k k' (fs : list (string * V)) : k' ≠ k → fields_get k (fields_remove k' fs) = fields_get k fs.
Proof.
  intros Hne. unfold fields_remove. induction fs as [|[j v] fs IH]; [done|]. simpl. destruct (seqb j k') eqn:E.
  - apply seqb_true in E as ->. simpl. by rewrite (proj2 (seqb_false _ _) Hne).
  - simpl. by rewrite IH.
Qed.

(** A run that can always take a step towards its end gets there. *)
Lemma run_finishes {A} (R : A → A → Prop) (rank_of : hub → A) (step : hub → hub_event → hub) (good : hub_event → Prop)
    (Inv Done : hub → Prop) (accepts : nat → bool) (R_wf : well_founded R) (Done_dec : ∀ h, Decision (Done h)) :
  (∀ h e, Inv h → good e → Inv (step h e)) →
  (∀ h, Inv h → ~ Done h → (∀ n, (hb_attempts h ≤ n)%nat → accepts n = true) →
     ∃ e, good e ∧ R (rank_of (step h e)) (rank_of h) ∧ (hb_attempts h ≤ hb_attempts (step h e))%nat) →
  ∀ h, Inv h → (∀ n, (hb_attempts h ≤ n)%nat → accepts n = true) → ∃ es, Forall good es ∧ Done (foldl step h es).
Proof.
  intros Hpres Hprog h. remember (rank_of h) as r eqn:Er. revert h Er. induction (R_wf r) as [r _ IH]. intros h -> Hinv Hacc.
  destruct (decide (Done h)) as [Hd|Hd]; [by exists []|]. destruct (Hprog h Hinv Hd Hacc) as (e & He & Hr & Ha).
  destruct (IH _ Hr (step h e) eq_refl) as (es & Hes & Hdone); [by apply Hpres|intros n Hn; apply Hacc; lia|].
  exists (e :: es). split; [by constructor|exact Hdone].
Qed.

Section Streaming.
Context (sha : string → string) (sch : string → table_schema) (pageSize : nat).
Context (encrypt : string → string → string → string) (nonce : json → string) (accepts : nat → bool).
Context (p : string).
Abbreviation keeps := (unaffected sha sch p).
Abbreviation step := (hub_step sha sch pageSize encrypt nonce accepts).

Lemma keeps_refl h : keeps h h.
Proof using. by split_and!. Qed.
Lemma unaffected_trans h1 h2 h3 : keeps h1 h2 → keeps h2 h3 → keeps h1 h3.
Proof using.
  intros (A1 & A2 & A3 & A4 & A5 & A6 & A7) (B1 & B2 & B3 & B4 & B5 & B6 & B7). split_and!; try congruence; [auto|].
  intros H. rewrite <-A2. apply B4. rewrite A2. by apply A4.
Qed.
Lemma jobs_app ts1 ts2 : jobs_of p (ts1 ++ ts2) = jobs_of p ts1 ++ jobs_of p ts2.
Proof using. apply omap_app. Qed.
Lemma unaffected_send q f h : match f with ConsistencyResponse _ => q ≠ p | _ => True end → keeps h (send_hub accepts q f h).1.
Proof using.
  intros Hf. unfold send_hub. split_and!; try done. unfold pages_to. simpl. destruct (accepts _); [|done].
  rewrite omap_app. simpl. destruct f as [pg| | |]; rewrite ?app_nil_r; try done.
  by rewrite (proj2 (seqb_false _ _) Hf), app_nil_r.
Qed.
Lemma keeps_timer t h : jobs_of p [t] = [] → keeps h (after_timer t h).
Proof using. intros Ht. split_and!; try done. simpl. by rewrite jobs_app, Ht, app_nil_r. Qed.
Lemma keeps_pulls m h : keeps h (with_pulls m h).
Proof using. by split_and!. Qed.
Lemma keeps_pending m h : m !! p = hb_pending h !! p → (pending_owned h → pending_owned (with_pending_page m h)) →
  keeps h (with_pending_page m h).
Proof using. intros Hm Ho. by split_and!. Qed.
Lemma keeps_unpend q h : q ≠ p → keeps h (with_pending_page (delete q (hb_pending h)) h).
Proof using.
  intros Hq. apply keeps_pending; [by rewrite lookup_delete_ne|]. intros Ho q' st j. simpl. rewrite lookup_delete_Some.
  intros [_ ?]. by eapply Ho.
Qed.

Lemma keeps_chunk q h : keeps h (sendRowPullSubChunk encrypt nonce accepts q h).
Proof using.
  unfold sendRowPullSubChunk. destruct (peer_key q h) as [key|]; [|apply keeps_refl].
  destruct (hb_pulls h !! q) as [st|]; [|apply keeps_refl]. cbv zeta.
  destruct (drop _ _) as [|r rest].
  { destruct (pl_pendingIsLast st); [apply keeps_pulls|]. eapply unaffected_trans; [apply keeps_pulls|by apply keeps_timer]. }
  destruct (fit_slice _ _ _ _ _ _) as [n|]; [|apply keeps_refl].
  set (resp := MkRows _ _ _ _). pose proof (unaffected_send q (RowPullResponse resp) h I) as Hs.
  destruct (send_hub accepts q (RowPullResponse resp) h) as [h' sent].
  simpl in Hs. destruct sent; simpl; [|done]. eapply unaffected_trans; [exact Hs|]. eapply unaffected_trans; [apply keeps_pulls|by apply keeps_timer].
Qed.
Lemma keeps_pull q rq ts ti off h : keeps h (streamRowPullPages sch encrypt nonce accepts q rq ts ti off h).
Proof using.
  unfold streamRowPullPages. destruct (peer_key q h); [|apply keeps_refl].
  assert (∀ r, keeps h (let '(h', _) := send_hub accepts q (RowPullResponse r) h in with_pulls (delete q (hb_pulls h')) h')) as Hend.
  { intros r. pose proof (unaffected_send q (RowPullResponse r) h I) as Hs.
    destruct (send_hub _ _ _ _) as [h' b]. eapply unaffected_trans; [exact Hs|apply keeps_pulls]. }
  destruct (ts !! ti) as [[tbl pks]|]; [|apply Hend]. destruct (take _ _) as [|pk batch]; [by apply keeps_timer|]. cbv zeta.
  destruct (select_in _ _ _ _) as [|r rows]; [destruct (_ && _); [apply Hend|by apply keeps_timer]|].
  eapply unaffected_trans; [apply keeps_pulls|apply keeps_chunk].
Qed.
Lemma keeps_pages j h : jb_peer j ≠ p → keeps h (streamConsistencyPages sha sch pageSize accepts j h).
Proof using.
  intros Hj. unfold streamConsistencyPages. destruct (peer_key _ h); [|apply keeps_refl].
  destruct (jb_tables j !! jb_tableIndex j) as [tbl|]; [|by apply unaffected_send].
  assert (let '(pg, next, cache') := make_page sha sch pageSize (hb_db h) (hb_cache h) tbl j in
    keeps h (with_cache cache' h) ∧ match next with Some j' => jb_peer j' = jb_peer j | None => True end) as Hmk.
  { unfold make_page. pose proof (lookup_spec sha sch tbl (take pageSize (take (S pageSize) (job_rows (hb_db h) tbl j))).*1 (hb_db h) (hb_cache h)) as H.
    destruct (getCachedRowStateHashes _ _ _ _ _ _) as [ch cache']. split.
    - split_and!; try done. intros Hc. by apply H in Hc as (_ & ? & _).
    - by destruct (_ && _). }
  destruct (make_page _ _ _ _ _ _ _) as [[pg next] cache']. destruct Hmk as [Hc Hn].
  pose proof (unaffected_send (jb_peer j) (ConsistencyResponse pg) (with_cache cache' h) Hj) as Hs.
  destruct (send_hub _ _ _ _) as [h' sent]. simpl in Hs. assert (keeps h h') as Hh by (by eapply unaffected_trans).
  destruct sent; simpl.
  - destruct next as [j'|]; (eapply unaffected_trans; [exact Hh|]).
    + apply keeps_timer. simpl. by rewrite Hn, (proj2 (seqb_false _ _) Hj).
    + by apply keeps_unpend.
  - eapply unaffected_trans; [exact Hh|]. apply keeps_pending; [by rewrite lookup_insert_ne|]. intros Ho q st j0. simpl.
    rewrite lookup_insert_Some. intros [[<- <-]|[_ Hq]]; [|by eapply Ho]. simpl. intros ->. done.
Qed.
Lemma keeps_continue q h : q ≠ p → pending_owned h → keeps h (continueConsistencyStream accepts q h).
Proof using.
  intros Hq Ho. unfold continueConsistencyStream. destruct (hb_pending h !! q) as [st|] eqn:Est; [|apply keeps_refl].
  destruct (peer_key q h); [|by apply keeps_unpend].
  pose proof (unaffected_send q (ConsistencyResponse (pp_page st)) h Hq) as Hs. destruct (send_hub _ _ _ _) as [h' sent]. simpl in Hs.
  destruct sent; simpl; [|done]. assert (keeps h (with_pending_page (delete q (hb_pending h')) h')) as Hd.
  { eapply unaffected_trans; [exact Hs|by apply keeps_unpend]. }
  destruct (pp_next st) as [j|] eqn:Ej; [|done]. eapply unaffected_trans; [exact Hd|]. apply keeps_timer. simpl.
  by rewrite (Ho q st j Est Ej), (proj2 (seqb_false _ _) Hq).
Qed.

Context (db : sdb) (tbls : list string) (rid : option string).
Hypothesis sha_nonempty : ∀ s, nonempty (sha s) = true.
Hypothesis page_positive : (0 < pageSize)%nat.
Abbreviation job := (job_at db tbls p rid).
Abbreviation page_of := (page_at sha sch pageSize db tbls rid).

Abbreviation same := (same_listing tbls db).

Lemma same_backfillable d tbl : same d → tbl ∈ tbls → backfillable tbl d = backfillable tbl db.
Proof using. intros Hd Ht. unfold backfillable. by rewrite (Hd tbl Ht). Qed.
Lemma same_job d j : same d → job_at d tbls p rid j ↔ job j.
Proof using.
  intros Hd. assert (∀ i tbl, tbls !! i = Some tbl → backfillable tbl d = backfillable tbl db) as Hb.
  { intros i tbl Ht. apply same_backfillable; [done|]. by eapply list_elem_of_lookup_2. }
  split; intros [H1 H2 H3 H4 H5 H6]; split; try done.
  1, 3: intros i c tbl Hc Ht; rewrite (H5 i c tbl Hc Ht); by rewrite (Hb i tbl Ht).
  all: intros tbl Ht; pose proof (H6 tbl Ht) as H; unfold job_rows in *; rewrite (Hb _ _ Ht) in *; exact H.
Qed.
(** What follows the page of [j]. *)
Definition follows (tbl : string) (j : stream_job) (next : option stream_job) : Prop :=
  match next with
  | Some j' => job j' ∧ pg_next (page_of tbl j) = Some (position j')
  | None => pg_all_done (page_of tbl j) = true
  end.
Lemma make_page_listed d cache tbl j :
  same d → job j → tbls !! jb_tableIndex j = Some tbl → (∀ c, cache = Some c → cache_right sha sch d c) →
  let '(pg, next, cache') := make_page sha sch pageSize d cache tbl j in
  pg = page_of tbl j ∧ (∀ c, cache' = Some c → cache_right sha sch d c) ∧ follows tbl j next.
Proof using sha_nonempty page_positive.
  intros Hd Hj Ht Hc.
  pose proof (make_page_spec sha sch pageSize d tbls p rid sha_nonempty page_positive tbl j cache (proj2 (same_job d j Hd) Hj) Ht Hc) as H.
  destruct (make_page _ _ _ _ _ _ _) as [[pg next] cache'].
  assert (page_at sha sch pageSize d tbls rid tbl j = page_of tbl j) as Hpg.
  { unfold page_at. rewrite (same_backfillable d tbl Hd); [done|]. by eapply list_elem_of_lookup_2. }
  rewrite Hpg in H. destruct H as (-> & Hc' & Hn). split_and!; [done..|]. unfold follows. destruct next as [j'|]; [|done].
  split; [apply (proj1 (same_job d j' Hd)); apply Hn|apply Hn].
Qed.
(** The pages streamed from one job on, and the job that is next. *)
Inductive streamed (j0 : stream_job) : list page → option stream_job → Prop :=
| streamed_nil : streamed j0 [] (Some j0)
| streamed_snoc pgs j tbl next :
    streamed j0 pgs (Some j) → job j → tbls !! jb_tableIndex j = Some tbl → follows tbl j next →
    streamed j0 (pgs ++ [page_of tbl j]) next.

(** The stream to [p], with the pages it has been sent since [before]. *)
Definition streaming (before : list page) (j0 : stream_job) (h : hub) : Prop :=
  (∃ key, peer_key p h = Some key) ∧ same (hb_db h) ∧ pending_owned h ∧
  (∀ c, hb_cache h = Some c → cache_right sha sch (hb_db h) c) ∧
  ∃ pgs next, pages_to p h = before ++ pgs ∧ streamed j0 pgs next ∧
  match next with
  | None => jobs_of p (hb_timers h) = [] ∧ hb_pending h !! p = None
  | Some j => job j ∧
      ((jobs_of p (hb_timers h) = [j] ∧ hb_pending h !! p = None) ∨
       (jobs_of p (hb_timers h) = [] ∧ ∃ tbl next', tbls !! jb_tableIndex j = Some tbl ∧ follows tbl j next' ∧
          hb_pending h !! p = Some (MkPendingPage (page_of tbl j) next')))
  end.
(** [p] is connected and nothing is streamed to it. *)
Definition quiet (h : hub) : Prop :=
  (∃ key, peer_key p h = Some key) ∧ same (hb_db h) ∧ pending_owned h ∧
  (∀ c, hb_cache h = Some c → cache_right sha sch (hb_db h) c) ∧ jobs_of p (hb_timers h) = [] ∧ hb_pending h !! p = None.

Lemma streaming_keeps before j0 h h' : streaming before j0 h → keeps h h' → streaming before j0 h'.
Proof using.
  intros (Hk & Hdb & Ho & Hc & pgs & next & Hp & Hs & Hn) (A1 & A2 & A3 & A4 & A5 & A6 & A7).
  split_and!; [by rewrite A1|by rewrite A2|auto|rewrite A2; auto|]. exists pgs, next. by rewrite A5, A6, A7.
Qed.

(** Running the job of [p]: its page is sent and the next job scheduled, or it
    waits. *)
Lemma stream_job_runs before j0 pgs j h :
  quiet h → job j → pages_to p h = before ++ pgs → streamed j0 pgs (Some j) →
  streaming before j0 (streamConsistencyPages sha sch pageSize accepts j h).
Proof using sha_nonempty page_positive.
  intros ((key & Hk) & Hdb & Ho & Hc & Hjobs & Hpend) Hj Hp Hs. unfold streamConsistencyPages.
  pose proof Hj as [Hpeer Htbls _ Hidx _ _]. rewrite Hpeer, Hk, Htbls.
  destruct (lookup_lt_is_Some_2 _ _ Hidx) as [tbl Ht]. rewrite Ht.
  pose proof (make_page_listed (hb_db h) (hb_cache h) tbl j Hdb Hj Ht Hc) as Hmk.
  destruct (make_page _ _ _ _ _ _ _) as [[pg next] cache']. destruct Hmk as (-> & Hc' & Hnext).
  unfold send_hub. cbn [hb_attempts with_cache]. destruct (accepts (hb_attempts h)); simpl.
  - assert (pages_to p (with_cache cache' (MkHub (hb_isHub h) (hb_peers h) (hb_db h) (hb_cache h) (hb_pending h) (hb_pulls h) (hb_timers h)
              (hb_sent h ++ [(p, ConsistencyResponse (page_of tbl j))]) (S (hb_attempts h)))) = before ++ pgs ++ [page_of tbl j]) as Hp'.
    { unfold pages_to in *. simpl. rewrite omap_app, Hp. simpl. by rewrite seqb_refl, app_assoc. }
    destruct next as [j'|]; (split_and!; [by exists key|done| |done|]).
    + done.
    + exists (pgs ++ [page_of tbl j]), (Some j'). split_and!; [exact Hp'|by eapply streamed_snoc|apply Hnext|]. left. simpl.
      split; [|done]. rewrite jobs_app, Hjobs. simpl. destruct Hnext as [[-> _ _ _ _ _] _]. by rewrite seqb_refl.
    + intros q st j2. simpl. rewrite lookup_delete_Some. intros [_ ?]. by eapply Ho.
    + exists (pgs ++ [page_of tbl j]), None. split_and!; [exact Hp'|by eapply streamed_snoc|done|]. apply lookup_delete_eq.
  - split_and!; [by exists key|done| |done|].
    + intros q st j2. simpl. rewrite lookup_insert_Some. intros [[<- <-]|[_ Hq]]; [|by eapply Ho]. simpl. intros ->. by destruct Hnext as [[-> _ _ _ _ _] _].
    + exists pgs, (Some j). split_and!; [done|done|done|]. right. split; [done|]. exists tbl, next. split_and!; [done|done|].
      apply lookup_insert_eq.
Qed.
Lemma drained_resumes before j0 h : streaming before j0 h → streaming before j0 (continueConsistencyStream accepts p h).
Proof using.
  intros (Hk & Hdb & Ho & Hc & pgs & next & Hp & Hs & Hn). pose proof Hk as (key & Hkey).
  assert (streaming before j0 h) as Hh by (split_and!; [done..|by exists pgs, next]).
  unfold continueConsistencyStream. destruct (hb_pending h !! p) as [st|] eqn:Est; [|done].
  destruct next as [j|]; [|by destruct Hn]. destruct Hn as [Hj [[_ ?]|(Hjobs & tbl & next' & Ht & Hf & Heq)]]; [congruence|].
  injection Heq as ->. rewrite Hkey. unfold send_hub. destruct (accepts (hb_attempts h)); simpl.
  - assert (omap (λ pf, match pf.2 with ConsistencyResponse pg => if seqb pf.1 p then Some pg else None | _ => None end)
              (hb_sent h ++ [(p, ConsistencyResponse (page_of tbl j))]) = before ++ pgs ++ [page_of tbl j]) as Hp'.
    { unfold pages_to in Hp. rewrite omap_app, Hp. simpl. by rewrite seqb_refl, app_assoc. }
    destruct next' as [j'|]; (split_and!; [done|done| |done|]).
    + intros q st j2. simpl. rewrite lookup_delete_Some. intros [_ ?]. by eapply Ho.
    + exists (pgs ++ [page_of tbl j]), (Some j'). split_and!; [exact Hp'|by eapply streamed_snoc|apply Hf|]. left. simpl.
      rewrite jobs_app, Hjobs. simpl. destruct Hf as [[-> _ _ _ _ _] _]. rewrite seqb_refl. split; [done|apply lookup_delete_eq].
    + intros q st j2. simpl. rewrite lookup_delete_Some. intros [_ ?]. by eapply Ho.
    + exists (pgs ++ [page_of tbl j]), None. split_and!; [exact Hp'|by eapply streamed_snoc|done|]. apply lookup_delete_eq.
  - split_and!; [done..|]. exists pgs, (Some j). split_and!; [done|done|done|]. right. split; [done|]. by exists tbl, next'.
Qed.

Lemma remove_timer n ts t : ts !! n = Some t → jobs_of p ts = jobs_of p (take n ts) ++ jobs_of p [t] ++ jobs_of p (drop (S n) ts).
Proof using. intros Ht. rewrite <-!jobs_app. simpl. by rewrite take_drop_middle. Qed.

Lemma streaming_step before j0 h e : streaming before j0 h → foreign p tbls e → streaming before j0 (step h e).
Proof using sha_nonempty page_positive.
  intros Hst He. pose proof Hst as (Hk & Hdb & Ho & Hc & _). destruct e as [q payload|q rq ts|n|q|q|wt w]; cbn [hub_step foreign] in *.
  - unfold handleConsistencyRequest. destruct (negb _); [done|]. cbv zeta. destruct (_ =? 0)%nat; [done|].
    eapply streaming_keeps; [exact Hst|by apply keeps_pages].
  - unfold handleRowPullRequest. destruct (negb _); [done|]. destruct (peer_key q h); [|done].
    eapply streaming_keeps; [exact Hst|]. destruct (negb _); [by apply unaffected_send|apply keeps_pull].
  - destruct (hb_timers h !! n) as [t|] eqn:Et; [|done].
    set (h1 := with_timers (take n (hb_timers h) ++ drop (S n) (hb_timers h)) h).
    assert (jobs_of p [t] = [] → keeps h h1) as Hkeep.
    { intros Hj. split_and!; try done. simpl. by rewrite jobs_app, (remove_timer n _ t Et), Hj. }
    destruct t as [j|q rq ts ti off|q]; simpl.
    + destruct (seqb (jb_peer j) p) eqn:Ej.
      * apply seqb_true in Ej. destruct Hst as (_ & _ & _ & _ & pgs & next & Hp & Hs & Hn).
        assert (jobs_of p [StreamPages j] = [j]) as Hone by (simpl; by rewrite Ej, seqb_refl).
        pose proof (remove_timer n _ _ Et) as Hrem. rewrite Hone in Hrem.
        destruct next as [j'|]; [|destruct Hn as [Hn _]; rewrite Hn in Hrem; by apply app_cons_not_nil in Hrem].
        destruct Hn as [Hj [[Hjobs Hpend]|[Hjobs _]]]; [|rewrite Hjobs in Hrem; by apply app_cons_not_nil in Hrem].
        rewrite Hjobs in Hrem. destruct (jobs_of p (take n (hb_timers h))) as [|x l] eqn:E1; [|by destruct l].
        simpl in Hrem. injection Hrem as <- E2. apply (stream_job_runs before j0 pgs); [|done..].
        split_and!; try done. simpl. by rewrite jobs_app, E1, <-E2.
      * assert (keeps h h1) as H1 by (apply Hkeep; simpl; by rewrite Ej).
        eapply streaming_keeps; [exact Hst|]. eapply unaffected_trans; [exact H1|]. apply keeps_pages. by apply seqb_false.
    + eapply streaming_keeps; [exact Hst|]. eapply unaffected_trans; [by apply Hkeep|apply keeps_pull].
    + eapply streaming_keeps; [exact Hst|]. eapply unaffected_trans; [by apply Hkeep|apply keeps_chunk].
  - assert (keeps h (continueRowPull encrypt nonce accepts q h)) as H1.
    { unfold continueRowPull. destruct (hb_pulls h !! q); [apply keeps_chunk|apply keeps_refl]. }
    assert (streaming before j0 (continueRowPull encrypt nonce accepts q h)) as Hst1 by (by eapply streaming_keeps).
    destruct (decide (q = p)) as [->|Hq]; [by apply drained_resumes|].
    eapply streaming_keeps; [exact Hst1|]. apply keeps_continue; [done|]. apply Hst1.
  - eapply streaming_keeps; [exact Hst|]. unfold removePeer. split_and!; try done.
    + by apply fields_get_removed.
    + intros _ q' st j. simpl. rewrite lookup_delete_Some. intros [_ ?]. by eapply Ho.
    + simpl. by rewrite lookup_delete_ne.
  - destruct He as [Htr Hnot]. pose proof (trigger_write_table wt w (hb_db h) (hb_cache h)) as Htbl.
    pose proof (trigger_right sha sch wt w (hb_db h) (hb_cache h) Htr Hc) as Hr.
    destruct (trigger_write wt w (hb_db h, hb_cache h)) as [db' cache']. simpl in Htbl, Hr.
    split_and!; [done| |done|done|apply Hst]. intros tbl Hin. simpl. rewrite Htbl.
    destruct (seqb wt tbl) eqn:E; [apply seqb_true in E; congruence|by apply Hdb].
Qed.

Lemma streaming_run before j0 h es : streaming before j0 h → Forall (foreign p tbls) es →
  streaming before j0 (hub_run sha sch pageSize encrypt nonce accepts h es).
Proof using sha_nonempty page_positive.
  unfold hub_run. intros Hst Hes. revert h Hst. induction Hes as [|e es He _ IH]; intros h Hst; [done|].
  simpl. apply IH. by apply streaming_step.
Qed.

(** How many events are left to the end of the stream, at most. *)
Definition work (c : nat * nat) : nat :=
  match tbls !! c.1 with
  | Some tbl => S (length (backfillable tbl db) - c.2) + sum_list ((λ t, S (length (backfillable t db))) <$> drop (S c.1) tbls)
  | None => 0
  end.
Definition stream_left (h : hub) : nat :=
  match jobs_of p (hb_timers h) with
  | j :: _ => S (work (position j))
  | [] => match hb_pending h !! p with
          | Some st => match pp_next st with Some j => S (S (work (position j))) | None => 1 end
          | None => 0
          end
  end.
Definition streamed_out (h : hub) : Prop := jobs_of p (hb_timers h) = [] ∧ hb_pending h !! p = None.
Lemma work_table ti : work (ti, 0%nat) = sum_list ((λ t, S (length (backfillable t db))) <$> drop ti tbls).
Proof using.
  clear page_positive sha_nonempty. unfold work. cbn [fst snd]. destruct (tbls !! ti) as [tbl|] eqn:E.
  - rewrite (drop_S _ _ _ E). cbn [fmap list_fmap sum_list]. by rewrite Nat.sub_0_r.
  - apply lookup_ge_None in E. by rewrite drop_ge.
Qed.
Lemma work_lower tbl j j' : job j → tbls !! jb_tableIndex j = Some tbl → follows tbl j (Some j') →
  (work (position j') < work (position j))%nat.
Proof using page_positive.
  intros Hj Ht [_ Hnext]. unfold page_at in Hnext. cbv zeta in Hnext. cbn [pg_next] in Hnext.
  destruct (_ && _); [done|]. destruct (pageSize <? length (drop (jb_offset j) (backfillable tbl db)))%nat eqn:E; apply (inj Some) in Hnext; rewrite <-Hnext.
  - apply Nat.ltb_lt in E. rewrite length_drop in E. unfold work, position. cbn [fst snd]. rewrite Ht. lia.
  - rewrite work_table. unfold work, position. cbn [fst snd]. rewrite Ht. lia.
Qed.
Lemma chunk_attempts q h : (hb_attempts h ≤ hb_attempts (sendRowPullSubChunk encrypt nonce accepts q h))%nat.
Proof using.
  clear page_positive sha_nonempty. unfold sendRowPullSubChunk. destruct (peer_key q h) as [key|]; [|lia].
  destruct (hb_pulls h !! q) as [st|]; [|lia]. cbv zeta. destruct (drop _ _); [destruct (pl_pendingIsLast st); simpl; lia|].
  destruct (fit_slice _ _ _ _ _ _); [|lia]. unfold send_hub. destruct (accepts _); simpl; lia.
Qed.
(** A stream under way can take a step that lowers what is left of it. *)
Lemma stream_progress before j0 h : streaming before j0 h → ~ streamed_out h → (∀ n, (hb_attempts h ≤ n)%nat → accepts n = true) →
  ∃ e, foreign p tbls e ∧ (stream_left (step h e) < stream_left h)%nat ∧ (hb_attempts h ≤ hb_attempts (step h e))%nat.
Proof using sha_nonempty page_positive.
  intros Hst Hnot Hacc. pose proof Hst as ((key & Hk) & Hdb & Ho & Hc & pgs & next & Hp & Hs & Hn).
  destruct next as [j|]; [|by destruct Hnot]. destruct Hn as [Hj [[Hjobs Hpend]|(Hjobs & tbl & next' & Ht & Hf & Hpend)]].
  - assert (∃ n, hb_timers h !! n = Some (StreamPages j)) as [n Hn].
    { clear -Hjobs. assert (j ∈ jobs_of p (hb_timers h)) as Hin by (rewrite Hjobs; by left).
      apply list_elem_of_omap in Hin as (t & Hin & Ht). apply list_elem_of_lookup in Hin as [n Hn]. exists n. rewrite Hn.
      destruct t as [j'| |]; [|done..]. destruct (seqb _ _); [by injection Ht as ->|done]. }
    exists (TimerFires n). split; [done|]. cbn [hub_step]. rewrite Hn. cbn [fire].
    assert (jobs_of p [StreamPages j] = [j]) as Hone by (simpl; destruct Hj as [-> _ _ _ _ _]; by rewrite seqb_refl).
    pose proof (remove_timer n _ _ Hn) as Hrem. rewrite Hone, Hjobs in Hrem.
    destruct (jobs_of p (take n (hb_timers h))) as [|x l] eqn:E1; [|by destruct l]. cbn [app] in Hrem. injection Hrem as E2.
    assert (stream_left h = S (work (position j))) as -> by (unfold stream_left; by rewrite Hjobs).
    set (h1 := with_timers _ h). assert (jobs_of p (hb_timers h1) = []) as Hj1 by (subst h1; simpl; by rewrite jobs_app, E1, <-E2).
    unfold streamConsistencyPages. pose proof Hj as [Hpeer Htb _ Hidx _ _]. rewrite Hpeer, Htb. change (peer_key p h1) with (peer_key p h).
    rewrite Hk. destruct (lookup_lt_is_Some_2 _ _ Hidx) as [tbl Ht]. rewrite Ht.
    pose proof (make_page_listed (hb_db h1) (hb_cache h1) tbl j Hdb Hj Ht Hc) as Hmk.
    destruct (make_page _ _ _ _ _ _ _) as [[pg next] cache']. destruct Hmk as (-> & _ & Hnext).
    unfold send_hub. cbn [hb_attempts with_cache]. change (hb_attempts h1) with (hb_attempts h). rewrite Hacc by lia.
    cbn [negb]. destruct next as [j'|]; (split; [|simpl; lia]); unfold stream_left; cbn [hb_timers hb_pending after_timer with_timers with_pending_page with_cache].
    + rewrite jobs_app, Hj1. pose proof Hnext as [[Hp' _ _ _ _ _] _]. cbn [jobs_of omap list_omap app]. rewrite Hp', seqb_refl.
      pose proof (work_lower tbl j j' Hj Ht Hnext). lia.
    + rewrite Hj1, lookup_delete_eq. lia.
  - exists (Drained p). split; [done|]. cbn [hub_step]. set (h1 := continueRowPull encrypt nonce accepts p h).
    assert (keeps h h1) as (A1 & _ & _ & _ & A5 & A6 & _).
    { subst h1. unfold continueRowPull. destruct (hb_pulls h !! p); [apply keeps_chunk|apply keeps_refl]. }
    assert (hb_attempts h ≤ hb_attempts h1)%nat as Ha.
    { subst h1. unfold continueRowPull. destruct (hb_pulls h !! p); [apply chunk_attempts|lia]. }
    assert (stream_left h = match next' with Some j' => S (S (work (position j'))) | None => 1%nat end) as ->.
    { unfold stream_left. by rewrite Hjobs, Hpend. }
    unfold continueConsistencyStream. rewrite A5, Hpend, A1, Hk. unfold send_hub. rewrite Hacc by done. cbn [negb pp_next].
    destruct next' as [j'|]; (split; [|simpl; lia]); unfold stream_left; cbn [hb_timers hb_pending after_timer with_timers with_pending_page].
    + rewrite jobs_app, A6, Hjobs. destruct Hf as [[Hp' _ _ _ _ _] _]. cbn [jobs_of omap list_omap app]. rewrite Hp', seqb_refl. lia.
    + rewrite A6, Hjobs, lookup_delete_eq. lia.
Qed.
Lemma stream_finishes before j0 h : streaming before j0 h → (∀ n, (hb_attempts h ≤ n)%nat → accepts n = true) →
  ∃ es, Forall (foreign p tbls) es ∧ streamed_out (hub_run sha sch pageSize encrypt nonce accepts h es).
Proof using sha_nonempty page_positive.
  apply (run_finishes lt stream_left step (foreign p tbls) (streaming before j0) streamed_out accepts lt_wf);
    [intros h'; unfold streamed_out; apply _|intros h' e; apply streaming_step|intros h'; apply stream_progress].
Qed.

(** *** At the spoke *)
Hypothesis tables_nodup : NoDup tbls.
Abbreviation upto := (collected_to sha sch db tbls).
Abbreviation complete := (everything sha sch db tbls).

Lemma streamed_job j0 pgs j : job j0 → streamed j0 pgs (Some j) → job j.
Proof using.
  intros Hj0 Hs. remember (Some j) as next eqn:E. destruct Hs as [|pgs j1 tbl next _ _ _ Hf]; [by injection E as ->|].
  subst next. apply Hf.
Qed.
Lemma streamed_prefix j0 pgs next pre : streamed j0 pgs next → pre `prefix_of` pgs →
  ∃ next', streamed j0 pre next' ∧ (pre = pgs → next' = next).
Proof using.
  intros Hs. induction Hs as [|pgs j tbl next Hs IH Hj Ht Hf]; intros Hpre.
  - apply prefix_nil_inv in Hpre as ->. exists (Some j0). split; [constructor|done].
  - destruct Hpre as [k Heq]. destruct (decide (k = [])) as [->|Hk].
    + rewrite app_nil_r in Heq. subst pre. exists next. split; [by eapply streamed_snoc|done].
    + destruct (exists_last Hk) as (k' & x & ->). rewrite app_assoc in Heq. apply app_inj_tail in Heq as [-> ->].
      destruct IH as (next' & Hs' & _); [by exists k'|]. exists next'. split; [done|].
      intros H. apply (f_equal length) in H. rewrite !length_app in H. simpl in H. clear page_positive. lia.
Qed.

(** The request [rid] collects into its map, up to a cursor. *)
Definition receiving (c : nat * nat) (s : spoke) : Prop :=
  ∃ a, sp_requests s !! default "" rid = Some (MkPendingRequest a c) ∧ sp_maps s !! a = Some (upto c).
Definition received (s : spoke) : Prop :=
  sp_requests s !! default "" rid = None ∧ last (sp_settled s) = Some (default "" rid, Resolved complete) ∧ sp_resume s = None.

Lemma pages_received j0 pgs next s : truthy rid = true →
  streamed j0 pgs next → receiving (position j0) s →
  match next with
  | Some j => receiving (position j) (foldl handleConsistencyResponse s pgs)
  | None => received (foldl handleConsistencyResponse s pgs)
  end.
Proof using page_positive tables_nodup.
  intros Hrid Hs Hr. induction Hs as [|pgs j tbl next Hs IH Hj Ht Hf]; [done|].
  rewrite foldl_app. simpl. destruct IH as (a & Hreq & Hmap). set (s1 := foldl handleConsistencyResponse s pgs) in *.
  pose proof (page_advances sha sch pageSize db tbls p rid page_positive tables_nodup tbl j Hj Ht) as Hadv. cbv zeta in Hadv.
  unfold handleConsistencyResponse. change (pg_request_id (page_of tbl j)) with rid. rewrite Hrid. cbn [negb]. rewrite Hreq.
  unfold map_at. cbn [rq_data rq_cursor]. rewrite Hmap. cbn [default from_option id].
  assert (Ha : (a < length (sp_maps s1))%nat). { by eapply lookup_lt_Some. }
  destruct next as [j'|].
  - destruct Hf as [Hj' Hnext]. rewrite Hnext in Hadv |- *. destruct Hadv as [Hd Hsize].
    assert (pg_all_done (page_of tbl j) = false) as ->.
    { by rewrite page_last, Hnext. }
    rewrite Hsize. exists a. cbn [sp_requests sp_maps]. rewrite lookup_insert_eq. split; [done|].
    rewrite list_lookup_insert_eq by done. by rewrite Hd.
  - unfold follows in Hf. rewrite Hf.
    assert (pg_next (page_of tbl j) = None) as Hnone.
    { rewrite page_last in Hf. by destruct (pg_next (page_of tbl j)). }
    rewrite Hnone in Hadv. unfold resolveConsistency, map_at. cbn [sp_requests sp_maps sp_resume sp_settled].
    rewrite lookup_insert_eq. cbn [rq_data]. rewrite list_lookup_insert_eq by done. cbn [default from_option id]. rewrite Hadv.
    split_and!; [apply lookup_delete_eq|apply last_snoc|done].
Qed.

(** What a timed-out exchange leaves for the next. *)
Definition resume_ok (s : spoke) : Prop :=
  match sp_resume s with
  | None => True
  | Some (c, a) => (c.1 < length tbls)%nat ∧ sp_maps s !! a = Some (upto c)
  end.
Lemma timeout_resumes j s : job j → receiving (position j) s → resume_ok (consistency_timeout (default "" rid) s).
Proof using.
  intros [_ _ _ Hidx _ _] (a & Hreq & Hmap). unfold consistency_timeout, resume_ok. simpl. rewrite Hreq. simpl. done.
Qed.
End Streaming.

(** What a resumed request asks for. *)
Lemma request_position rid s :
  let frame := (requestConsistency rid [] true s).2 in
  (default 0%nat (cq_resume_table_index frame), default 0%nat (cq_resume_offset frame)) =
  match sp_resume s with Some (c, _) => c | None => (0, 0)%nat end.
Proof.
  unfold requestConsistency. destruct (sp_resume s) as [[[ti off] a]|]; [|done]. simpl. by destruct ti, off.
Qed.
Lemma request_shape rid tbls sent s :
  cq_tables (requestConsistency rid tbls sent s).2 = tbls ∧ cq_request_id (requestConsistency rid tbls sent s).2 = Some rid.
Proof. unfold requestConsistency. destruct sent; [|done]. by destruct (sp_resume s) as [[c a]|]. Qed.
Lemma request_collects sha sch db rid s :
  resume_ok sha sch db SYNCED_TABLES s →
  receiving sha sch db SYNCED_TABLES (Some rid) (match sp_resume s with Some (c, _) => c | None => (0, 0)%nat end)
    (requestConsistency rid [] true s).1.
Proof.
  unfold resume_ok, receiving, requestConsistency. simpl. destruct (sp_resume s) as [[c a]|]; simpl.
  - intros [_ Hmap]. exists a. by rewrite lookup_insert_eq.
  - intros _. exists (length (sp_maps s)). rewrite lookup_insert_eq. split; [done|]. by rewrite list_lookup_middle.
Qed.

Lemma synced_nodup : NoDup SYNCED_TABLES.
Proof. apply (bool_decide_unpack _). by vm_compute. Qed.
(** A request starts the stream where the spoke's listing ends. *)
Lemma request_streams sha sch pageSize accepts p db h s rid s1 request :
  (∀ x, nonempty (sha x) = true) → (0 < pageSize)%nat → hb_isHub h = true →
  quiet sha sch p db SYNCED_TABLES h → resume_ok sha sch db SYNCED_TABLES s → requestConsistency rid [] true s = (s1, request) →
  ∃ j0, job_at db SYNCED_TABLES p (Some rid) j0 ∧ streaming sha sch pageSize p db SYNCED_TABLES (Some rid) (pages_to p h) j0
    (handleConsistencyRequest sha sch pageSize accepts p request h) ∧
  receiving sha sch db SYNCED_TABLES (Some rid) (position j0) s1.
Proof.
  intros Hsha Hpos Hhub Hquiet Hresume Ereq.
  pose proof (request_position rid s) as Hcur. pose proof (request_collects sha sch db rid s Hresume) as Hrec.
  rewrite Ereq in Hcur, Hrec. cbv zeta in Hcur, Hrec. simpl in Hcur, Hrec.
  set (c := match sp_resume s with Some (c, _) => c | None => (0, 0)%nat end) in *.
  set (j0 := MkJob p SYNCED_TABLES c.1 c.2 None (Some rid) ∅).
  assert (job_at db SYNCED_TABLES p (Some rid) j0) as Hj0.
  { split; [done..| |intros i n t; simpl; by rewrite lookup_empty|done]. unfold resume_ok in Hresume. subst c j0. simpl.
    destruct (sp_resume s) as [[c0 a0]|]; simpl in *; [apply Hresume|lia]. }
  assert (handleConsistencyRequest sha sch pageSize accepts p request h = streamConsistencyPages sha sch pageSize accepts j0 h) as ->.
  { unfold handleConsistencyRequest. rewrite Hhub. cbn [negb].
    pose proof (request_shape rid [] true s) as [Ht Hr]. rewrite Ereq in Ht, Hr. simpl in Ht, Hr. rewrite Ht, Hr.
    subst j0. clearbody c. by rewrite <-Hcur. }
  exists j0. split_and!; [done| |by destruct c].
  apply (stream_job_runs sha sch pageSize accepts p db SYNCED_TABLES (Some rid) Hsha Hpos (pages_to p h) j0 []);
    [done|done|by rewrite app_nil_r|constructor].
Qed.

(** The request [rid] has been answered with [data]. *)
Definition resolved_with (rid : string) (data : tables_data) (s : spoke) : Prop :=
  sp_requests s !! rid = None ∧ last (sp_settled s) = Some (rid, Resolved data) ∧ sp_resume s = None.

(** C36: the exchange delivers the whole listing, however often it is cut short,
    as long as no table of the listing is written between its pages.  Whatever
    else the hub does meanwhile, with its timers, drains, other peers, row pulls
    and writes of other tables, and whichever frames the socket refuses, a spoke
    that receives any prefix of the pages has either resolved its request with
    every row of every table, or is left after the timeout with a state from
    which the next request, put to a hub with the same tables, collects the rest.
    Once the hub has nothing left for it the listing is complete, and while the
    socket accepts, the hub's own timers and drains lead there.  A write of a
    listed table breaks it, since a request resumes by OFFSET (Example
    insert_shifts_resume). *)
Theorem exchange_resumes sha sch pageSize encrypt nonce accepts p db h s rid es pgs received_pages :
  (∀ x, nonempty (sha x) = true) → (0 < pageSize)%nat → hb_isHub h = true → nonempty rid = true →
  quiet sha sch p db SYNCED_TABLES h → resume_ok sha sch db SYNCED_TABLES s → Forall (foreign p SYNCED_TABLES) es →
  let '(s1, request) := requestConsistency rid [] true s in
  let run := hub_run sha sch pageSize encrypt nonce accepts in
  let h1 := run (handleConsistencyRequest sha sch pageSize accepts p request h) es in
  let listing := everything sha sch db SYNCED_TABLES in
  pages_to p h1 = pages_to p h ++ pgs → received_pages `prefix_of` pgs →
  let s2 := foldl handleConsistencyResponse s1 received_pages in
  (resolved_with rid listing s2 ∨ resume_ok sha sch db SYNCED_TABLES (consistency_timeout rid s2)) ∧
  (received_pages = pgs → streamed_out p h1 → resolved_with rid listing s2) ∧
  ((∀ n, (hb_attempts h1 ≤ n)%nat → accepts n = true) →
   ∃ es' pgs', Forall (foreign p SYNCED_TABLES) es' ∧ pages_to p (run h1 es') = pages_to p h ++ pgs' ∧
     resolved_with rid listing (foldl handleConsistencyResponse s1 pgs')).
Proof.
  intros Hsha Hpos Hhub Hrid Hquiet Hresume Hes.
  destruct (requestConsistency rid [] true s) as [s1 request] eqn:Ereq. cbv zeta.
  destruct (request_streams sha sch pageSize accepts p db h s rid s1 request Hsha Hpos Hhub Hquiet Hresume Ereq) as (j0 & Hj0 & Hst & Hrec).
  pose proof (streaming_run sha sch pageSize encrypt nonce accepts p db SYNCED_TABLES (Some rid) Hsha Hpos _ _ _ es Hst Hes) as Hst1.
  set (h1 := hub_run _ _ _ _ _ _ _ es) in *. intros Hpgs Hpre.
  assert (∀ h', streaming sha sch pageSize p db SYNCED_TABLES (Some rid) (pages_to p h) j0 h' → streamed_out p h' →
    ∃ pgs', pages_to p h' = pages_to p h ++ pgs' ∧ resolved_with rid (everything sha sch db SYNCED_TABLES) (foldl handleConsistencyResponse s1 pgs')) as Hall.
  { intros h' (_ & _ & _ & _ & pgs' & next & Hp & Hs & Hn) [Hj Hpend]. exists pgs'. split; [done|].
    pose proof (pages_received sha sch pageSize p db SYNCED_TABLES (Some rid) Hpos synced_nodup j0 pgs' next s1 Hrid Hs Hrec) as Hgot.
    destruct next as [j|]; [|done]. destruct Hn as [_ [[Hj' _]|[_ (? & ? & _ & _ & Hq)]]]; congruence. }
  split_and!.
  - destruct Hst1 as (_ & _ & _ & _ & pgs' & next & Hp & Hs & _). rewrite Hpgs in Hp. apply app_inv_head in Hp as <-.
    destruct (streamed_prefix sha sch pageSize p db SYNCED_TABLES (Some rid) _ _ _ _ Hs Hpre) as (next' & Hs' & _).
    pose proof (pages_received sha sch pageSize p db SYNCED_TABLES (Some rid) Hpos synced_nodup j0 received_pages next' s1 Hrid Hs' Hrec) as Hgot.
    destruct next' as [j|]; [right|by left]. eapply (timeout_resumes sha sch p db SYNCED_TABLES (Some rid)); [|exact Hgot].
    by eapply (streamed_job sha sch pageSize p db SYNCED_TABLES (Some rid)).
  - intros -> Hout. destruct (Hall h1 Hst1 Hout) as (pgs' & Hp & Hres). rewrite Hpgs in Hp. by apply app_inv_head in Hp as <-.
  - intros Hacc. destruct (stream_finishes sha sch pageSize encrypt nonce accepts p db SYNCED_TABLES (Some rid) Hsha Hpos _ _ h1 Hst1 Hacc)
      as (es' & Hes' & Hout).
    destruct (Hall _ (streaming_run sha sch pageSize encrypt nonce accepts p db SYNCED_TABLES (Some rid) Hsha Hpos _ _ h1 es' Hst1 Hes') Hout)
      as (pgs' & Hp & Hres). by exists es', pgs'.
Qed.

(** *** A failed exchange spoils the next

    A request that resumed shares the map of the one that timed out; when it
    fails, what it collected stays in the map while the cursor does not move, and
    the request after it collects the same rows twice. *)
Definition sample_page (rid : string) (pk : string) (more : bool) (off : nat) : page :=
  MkPage "users" [pk] (Some [MkConsistency pk "h" None]) 3 more 0 12 false (Some rid)
    (Some (if more then (0, off) else (1, 0))%nat).
Definition spoiled : spoke :=
  let s := (requestConsistency "r1" [] true fresh_spoke).1 in
  let s := consistency_timeout "r1" (handleConsistencyResponse s (sample_page "r1" "a" true 1)) in
  let s := (requestConsistency "r2" [] true s).1 in
  let s := handleConsistencyError "r2" (handleConsistencyResponse s (sample_page "r2" "b" true 2)) in
  let '(s, request) := requestConsistency "r3" [] true s in
  handleConsistencyResponse s (sample_page "r3" "b" true 2).
Example error_collects_twice : co_pks <$> (map_at 0 spoiled !! "users") = Some ["a"; "b"; "b"].
Proof. vm_compute. reflexivity. Qed.

(** ** The row pull *)
Section FitSlice.
Context (encrypt : string → string → string → string) (nonce : json → string).
Lemma fit_slice_spec fuel key response n : (n < fuel)%nat → (0 < n)%nat →
  ∃ m, fit_slice encrypt nonce fuel key response n = Some m ∧ (0 < m ≤ n)%nat ∧
    (m = 1%nat ∨ rows_frame_bytes encrypt nonce key (response m) ≤ MAX_CHANGELOG_FRAME_BYTES).
Proof using.
  revert n. induction fuel as [|fuel IH]; intros n Hf Hn; [lia|]. cbn [fit_slice]. destruct n as [|n]; [lia|].
  destruct (rows_frame_bytes _ _ _ _ <=? _) eqn:E; [exists (S n); split_and!; [done|lia..|right; by apply Z.leb_le]|].
  destruct (S n =? 1)%nat eqn:E1; [apply Nat.eqb_eq in E1; exists (S n); split_and!; [done|lia..|by left]|].
  apply Nat.eqb_neq in E1. pose proof (Nat.div_lt (S n) 2 ltac:(lia) ltac:(lia)) as Hd.
  destruct (IH (Nat.max 1 (S n / 2))) as (m & Hm & Hle & Hfit); [lia..|]. exists m. split_and!; [done|lia..|done].
Qed.
End FitSlice.

(** The responses of the request [rq] to [p], and the rows they carry. *)
Definition responses_to (p rq : string) (h : hub) : list row_response :=
  omap (λ pf, match pf.2 with RowPullResponse r => if seqb pf.1 p && seqb (rr_request_id r) rq then Some r else None | _ => None end) (hb_sent h).
Definition rows_of (r : row_response) : list (string * fields) := (λ f, (rr_table r, f)) <$> rr_rows r.
Definition page_timers (p : string) (ts : list timer) : list (string * list (string * list string) * nat * nat) :=
  omap (λ t, match t with PullPages q rq tbls ti off => if seqb q p then Some (rq, tbls, ti, off) else None | _ => None end) ts.

(** The rows a pull still has to send, from a table and an offset on. *)
Fixpoint batch_rows (sch : string → table_schema) (db : sdb) (fuel : nat) (tbl : string) (pks : list string) : list (string * fields) :=
  match fuel with
  | O => []
  | S fuel' =>
      match pks with
      | [] => []
      | _ => ((λ f, (tbl, f)) <$> select_in sch tbl db (take ROW_PULL_BATCH_SIZE pks)) ++
             batch_rows sch db fuel' tbl (drop ROW_PULL_BATCH_SIZE pks)
      end
  end.
Definition pulled_rows (sch : string → table_schema) (db : sdb) (tp : string * list string) : list (string * fields) :=
  batch_rows sch db (length tp.2) tp.1 tp.2.
Definition rows_left (sch : string → table_schema) (db : sdb) (tbls : list (string * list string)) (c : nat * nat)
    : list (string * fields) :=
  match tbls !! c.1 with
  | Some (tbl, pks) => pulled_rows sch db (tbl, drop c.2 pks) ++ mjoin (pulled_rows sch db <$> drop (S c.1) tbls)
  | None => []
  end.

Lemma batch_rows_fuel sch db fuel fuel' tbl pks :
  (length pks ≤ fuel)%nat → (length pks ≤ fuel')%nat → batch_rows sch db fuel tbl pks = batch_rows sch db fuel' tbl pks.
Proof.
  revert fuel' pks. induction fuel as [|fuel IH]; intros [|fuel'] [|pk pks] H1 H2; try done; simpl in H1, H2; try lia.
  cbn [batch_rows]. f_equal. apply IH; rewrite length_drop; unfold ROW_PULL_BATCH_SIZE; simpl; lia.
Qed.
Lemma pulled_batch sch db tbl pks : pks ≠ [] →
  pulled_rows sch db (tbl, pks) = ((λ f, (tbl, f)) <$> select_in sch tbl db (take ROW_PULL_BATCH_SIZE pks)) ++
    pulled_rows sch db (tbl, drop ROW_PULL_BATCH_SIZE pks).
Proof.
  intros Hne. unfold pulled_rows. cbn [fst snd]. destruct pks as [|pk pks]; [done|]. cbn [length batch_rows]. f_equal.
  apply batch_rows_fuel; [rewrite length_drop; unfold ROW_PULL_BATCH_SIZE; simpl; lia|done].
Qed.
Lemma rows_left_table sch db tbls ti : rows_left sch db tbls (ti, 0%nat) = mjoin (pulled_rows sch db <$> drop ti tbls).
Proof.
  unfold rows_left. cbn [fst snd]. destruct (tbls !! ti) as [[tbl pks]|] eqn:E.
  - by rewrite (drop_S _ _ _ E), drop_0.
  - apply lookup_ge_None in E. by rewrite drop_ge.
Qed.
(** One batch on: the rest of the table, or the next one. *)
Lemma rows_left_next sch db tbls ti off tbl pks :
  tbls !! ti = Some (tbl, pks) → (off < length pks)%nat →
  rows_left sch db tbls (ti, off) =
    ((λ f, (tbl, f)) <$> select_in sch tbl db (take ROW_PULL_BATCH_SIZE (drop off pks))) ++
    rows_left sch db tbls (if (off + ROW_PULL_BATCH_SIZE <? length pks)%nat then (ti, (off + ROW_PULL_BATCH_SIZE)%nat) else (S ti, 0%nat)).
Proof.
  intros Ht Hoff. unfold rows_left at 1. cbn [fst snd]. rewrite Ht. rewrite pulled_batch.
  2: { intros H. apply (f_equal length) in H. rewrite length_drop in H. simpl in H. lia. }
  rewrite <-app_assoc. f_equal. rewrite drop_drop. destruct (Nat.ltb_spec (off + ROW_PULL_BATCH_SIZE) (length pks)) as [Hlt|Hge].
  - unfold rows_left. cbn [fst snd]. by rewrite Ht.
  - rewrite (drop_ge pks) by done. by rewrite rows_left_table.
Qed.
Lemma rows_left_skip sch db tbls ti off tbl pks :
  tbls !! ti = Some (tbl, pks) → drop off pks = [] → rows_left sch db tbls (ti, off) = rows_left sch db tbls (S ti, 0%nat).
Proof.
  intros Ht Hd. rewrite rows_left_table. unfold rows_left. cbn [fst snd]. by rewrite Ht, Hd.
Qed.
Lemma rows_left_done sch db tbls ti : (length tbls ≤ ti)%nat → rows_left sch db tbls (ti, 0%nat) = [].
Proof. intros H. rewrite rows_left_table. by rewrite drop_ge. Qed.

(** The pull of [p] is left alone. *)
Definition unaffected_pull (p rq : string) (h h' : hub) : Prop :=
  peer_key p h' = peer_key p h ∧ hb_db h' = hb_db h ∧ hb_pulls h' !! p = hb_pulls h !! p ∧
  page_timers p (hb_timers h') = page_timers p (hb_timers h) ∧ responses_to p rq h' = responses_to p rq h.
(** The keys a write touches. *)
Definition written (w : row_write) : list string :=
  match w with RowInserted k _ | RowDeleted k => [k] | RowUpdated k k' _ => [k; k'] end.
(** An event that is neither a row request of [p], nor its end, nor a write of a
    row the pull is to fetch. *)
Definition foreign_pull (p : string) (tbls : list (string * list string)) (e : hub_event) : Prop :=
  match e with
  | RowsRequested q _ _ | PeerGone q => q ≠ p
  | HubWrites tbl w => ∀ pks pk, (tbl, pks) ∈ tbls → pk ∈ pks → pk ∉ written w
  | _ => True
  end.
(** The rows to fetch are those of [db]. *)
Definition same_rows (tbls : list (string * list string)) (db d : sdb) : Prop :=
  ∀ tbl pks pk, (tbl, pks) ∈ tbls → pk ∈ pks → table_of tbl d !! pk = table_of tbl db !! pk.

Lemma select_in_same sch tbl d db batch :
  (∀ pk, pk ∈ batch → table_of tbl d !! pk = table_of tbl db !! pk) → select_in sch tbl d batch = select_in sch tbl db batch.
Proof.
  intros H. unfold select_in. f_equal. set (p := λ kr : string * row, existsb (seqb kr.1) batch).
  assert (∀ kr, p kr = true ↔ kr.1 ∈ batch) as Hp.
  { intros kr. unfold p. rewrite existsb_exists. split.
    - intros (k & Hk & ->%seqb_true). by apply list_elem_of_In.
    - intros Hk. exists kr.1. split; [by apply list_elem_of_In|apply seqb_refl]. }
  apply (sorted_unique fst); try apply by_key_filter, rows_by_key_sorted.
  intros [k r]. rewrite !filter_In_iff, !elem_of_rows_by_key, !Hp. simpl. split; intros [Hr Hk]; (split; [|done]).
  - by rewrite <-(H k Hk).
  - by rewrite (H k Hk).
Qed.
Lemma write_elsewhere w t pk : pk ∉ written w → write_table w t !! pk = t !! pk.
Proof.
  destruct w; simpl; intros Hpk; rewrite ?lookup_insert_ne, ?lookup_delete_ne by set_solver; done.
Qed.

Section Pulling.
Context (sha : string → string) (sch : string → table_schema) (pageSize : nat).
Context (encrypt : string → string → string → string) (nonce : json → string) (accepts : nat → bool).
Context (p rq : string) (db : sdb) (tbls : list (string * list string)).
Abbreviation keeps := (unaffected_pull p rq).
Abbreviation step := (hub_step sha sch pageSize encrypt nonce accepts).

Lemma pull_refl h : keeps h h.
Proof using. by split_and!. Qed.
Lemma pull_trans h1 h2 h3 : keeps h1 h2 → keeps h2 h3 → keeps h1 h3.
Proof using. intros (A1 & A2 & A3 & A4 & A5) (B1 & B2 & B3 & B4 & B5). split_and!; congruence. Qed.
Lemma page_timers_app ts1 ts2 : page_timers p (ts1 ++ ts2) = page_timers p ts1 ++ page_timers p ts2.
Proof using. apply omap_app. Qed.
Lemma pull_send q f h : match f with RowPullResponse _ => q ≠ p | _ => True end → keeps h (send_hub accepts q f h).1.
Proof using.
  intros Hf. unfold send_hub. split_and!; try done. unfold responses_to. simpl. destruct (accepts _); [|done].
  rewrite omap_app. simpl. destruct f as [pg| |r|]; rewrite ?app_nil_r; try done.
  by rewrite (proj2 (seqb_false _ _) Hf), app_nil_r.
Qed.
Lemma pull_timer t h : page_timers p [t] = [] → keeps h (after_timer t h).
Proof using. intros Ht. split_and!; try done. simpl. by rewrite page_timers_app, Ht, app_nil_r. Qed.
Lemma pull_others m h : m !! p = hb_pulls h !! p → keeps h (with_pulls m h).
Proof using. intros Hm. by split_and!. Qed.

Lemma pull_pages j h : keeps h (streamConsistencyPages sha sch pageSize accepts j h).
Proof using.
  unfold streamConsistencyPages. destruct (peer_key _ h); [|apply pull_refl].
  destruct (jb_tables j !! jb_tableIndex j) as [tbl|]; [|by apply pull_send].
  destruct (make_page _ _ _ _ _ _ _) as [[pg next] cache'].
  pose proof (pull_send (jb_peer j) (ConsistencyResponse pg) (with_cache cache' h) I) as Hs.
  destruct (send_hub _ _ _ _) as [h' sent]. simpl in Hs.
  destruct sent; simpl; [|exact Hs]. destruct next as [j'|]; [|exact Hs]. eapply pull_trans; [exact Hs|by apply pull_timer].
Qed.
Lemma pull_continue q h : keeps h (continueConsistencyStream accepts q h).
Proof using.
  unfold continueConsistencyStream. destruct (hb_pending h !! q) as [st|]; [|apply pull_refl].
  destruct (peer_key q h); [|by split_and!].
  pose proof (pull_send q (ConsistencyResponse (pp_page st)) h I) as Hs. destruct (send_hub _ _ _ _) as [h' sent]. simpl in Hs.
  destruct sent; simpl; [|done]. destruct (pp_next st) as [j|]; [|exact Hs].
  eapply pull_trans; [|by apply pull_timer]. exact Hs.
Qed.
(** Another peer's pull; its timers are its own. *)
Lemma pull_chunk q h : q ≠ p → keeps h (sendRowPullSubChunk encrypt nonce accepts q h).
Proof using.
  intros Hq. unfold sendRowPullSubChunk. destruct (peer_key q h) as [key|]; [|apply pull_refl].
  destruct (hb_pulls h !! q) as [st|]; [|apply pull_refl]. cbv zeta.
  assert (keeps h (with_pulls (delete q (hb_pulls h)) h)) as Hdel by (apply pull_others; by rewrite lookup_delete_ne).
  destruct (drop _ _) as [|r rest].
  { destruct (pl_pendingIsLast st); [done|]. eapply pull_trans; [exact Hdel|]. apply pull_timer. simpl.
    by rewrite (proj2 (seqb_false _ _) Hq). }
  destruct (fit_slice _ _ _ _ _ _) as [n|]; [|apply pull_refl]. set (resp := MkRows _ _ _ _).
  pose proof (pull_send q (RowPullResponse resp) h Hq) as Hs. destruct (send_hub accepts q (RowPullResponse resp) h) as [h' sent].
  simpl in Hs. destruct sent; simpl; [|done]. eapply pull_trans; [exact Hs|]. eapply pull_trans; [|by apply pull_timer].
  apply pull_others. by rewrite lookup_insert_ne.
Qed.
Lemma pull_stream q rq' ts ti off h : q ≠ p → keeps h (streamRowPullPages sch encrypt nonce accepts q rq' ts ti off h).
Proof using.
  intros Hq. unfold streamRowPullPages. destruct (peer_key q h); [|apply pull_refl].
  assert (∀ r, keeps h (let '(h', _) := send_hub accepts q (RowPullResponse r) h in with_pulls (delete q (hb_pulls h')) h')) as Hend.
  { intros r. pose proof (pull_send q (RowPullResponse r) h Hq) as Hs. destruct (send_hub _ _ _ _) as [h' b].
    eapply pull_trans; [exact Hs|]. apply pull_others. by rewrite lookup_delete_ne. }
  assert (∀ ti off, page_timers p [PullPages q rq' ts ti off] = []) as Ht by (intros; simpl; by rewrite (proj2 (seqb_false _ _) Hq)).
  destruct (ts !! ti) as [[tbl pks]|]; [|apply Hend]. destruct (take _ _) as [|pk batch]; [by apply pull_timer|]. cbv zeta.
  destruct (select_in _ _ _ _) as [|r rows]; [destruct (_ && _); [apply Hend|by apply pull_timer]|].
  eapply pull_trans; [|by apply pull_chunk]. apply pull_others. by rewrite lookup_insert_ne.
Qed.

(** What the pull of [p] has sent since [before] and what is left of it. *)
Definition tagged (tbl : string) (rows : list fields) : list (string * fields) := (λ f, (tbl, f)) <$> rows.
Definition all_rows : list (string * fields) := rows_left sch db tbls (0, 0)%nat.
(** A batch is selected from the rows of [db]. *)
Abbreviation same := (same_rows tbls db).
Lemma same_select d ti off tbl pks :
  same d → tbls !! ti = Some (tbl, pks) →
  ∀ batch, batch = take ROW_PULL_BATCH_SIZE (drop off pks) → select_in sch tbl d batch = select_in sch tbl db batch.
Proof using.
  intros Hd Ht batch ->. apply select_in_same. intros pk Hpk. eapply Hd; [by eapply list_elem_of_lookup_2|by eapply elem_of_slice].
Qed.
Definition pulling (before : list row_response) (h : hub) : Prop :=
  (∃ key, peer_key p h = Some key) ∧ same (hb_db h) ∧
  ∃ rs, responses_to p rq h = before ++ rs ∧
  let sent := mjoin (rows_of <$> rs) in
  (existsb rr_last rs = true → sent = all_rows) ∧
  match hb_pulls h !! p with
  | Some st =>
      page_timers p (hb_timers h) = [] ∧ pl_requestId st = rq ∧ pl_tables st = tbls ∧
      sent ++ tagged (pl_pendingTable st) (drop (pl_pendingRowCursor st) (pl_pendingRows st)) ++
        (if pl_pendingIsLast st then [] else rows_left sch db tbls (pull_next st)) = all_rows
  | None =>
      (∃ ti off, page_timers p (hb_timers h) = [(rq, tbls, ti, off)] ∧ sent ++ rows_left sch db tbls (ti, off) = all_rows) ∨
      (page_timers p (hb_timers h) = [] ∧ sent = all_rows)
  end.
Lemma pulling_keeps before h h' : pulling before h → keeps h h' → pulling before h'.
Proof using.
  intros (Hk & Hdb & rs & Hr & Hrest) (A1 & A2 & A3 & A4 & A5). split_and!; [by rewrite A1|by rewrite A2|].
  exists rs. rewrite A3, A4, A5. by split.
Qed.

Lemma tagged_app tbl l1 l2 : tagged tbl (l1 ++ l2) = tagged tbl l1 ++ tagged tbl l2.
Proof using. apply fmap_app. Qed.
Lemma tagged_rows r : rows_of r = tagged (rr_table r) (rr_rows r).
Proof using. done. Qed.
Lemma responses_sent h r : rr_request_id r = rq →
  responses_to p rq (send_hub accepts p (RowPullResponse r) h).1 =
  responses_to p rq h ++ (if accepts (hb_attempts h) then [r] else []).
Proof using.
  intros Hr. unfold send_hub, responses_to. simpl. destruct (accepts _); [|by rewrite app_nil_r].
  rewrite omap_app. simpl. by rewrite Hr, !seqb_refl.
Qed.
Lemma sent_snoc rs r : mjoin (rows_of <$> (rs ++ [r])) = mjoin (rows_of <$> rs) ++ rows_of r.
Proof using. rewrite fmap_app, join_app. simpl. by rewrite app_nil_r. Qed.

Lemma chunk_pulls before h : pulling before h → pulling before (sendRowPullSubChunk encrypt nonce accepts p h).
Proof using.
  intros Hpull. pose proof Hpull as ((key & Hkey) & Hdb & rs & Hr & Hflag & Hst). unfold sendRowPullSubChunk. rewrite Hkey.
  destruct (hb_pulls h !! p) as [st|] eqn:Est; [|done]. destruct Hst as (Ht & Hrq & Htb & Hall). cbv zeta.
  destruct (drop (pl_pendingRowCursor st) (pl_pendingRows st)) as [|f fs] eqn:Erem.
  - cbn [tagged fmap list_fmap app] in Hall. destruct (pl_pendingIsLast st) eqn:Elast.
    + split_and!; [by exists key|done|]. exists rs. split; [exact Hr|split; [exact Hflag|]]. simpl. rewrite lookup_delete_eq. right.
      by rewrite app_nil_r in Hall.
    + split_and!; [by exists key|done|]. exists rs. split; [exact Hr|split; [exact Hflag|]]. simpl. rewrite lookup_delete_eq. left.
      exists (pull_next st).1, (pull_next st).2. rewrite page_timers_app, Ht, Hrq, Htb. simpl. rewrite seqb_refl.
      split; [done|]. by destruct (pull_next st).
  - rewrite <-Erem in *. set (rem := drop (pl_pendingRowCursor st) (pl_pendingRows st)) in *.
    assert (0 < length rem)%nat as Hlen by (rewrite Erem; simpl; lia).
    destruct (fit_slice_spec encrypt nonce (S (length rem)) key
      (λ n, MkRows (pl_requestId st) (pl_pendingTable st) (take n rem) (pl_pendingIsLast st && (n =? length rem)%nat))
      (length rem)) as (n & -> & Hn & _); [lia|done|].
    set (resp := MkRows _ _ _ _). pose proof (responses_sent h resp Hrq) as Hresp.
    unfold send_hub in *. destruct (accepts (hb_attempts h)) eqn:Eacc; cbn [negb fst] in *.
    2: { split_and!; [by exists key|done|]. exists rs. split; [by rewrite Hresp, Hr, app_nil_r|split; [exact Hflag|]]. simpl. by rewrite Est. }
    split_and!; [by exists key|done|]. exists (rs ++ [resp]). cbv zeta. rewrite sent_snoc. unfold rows_of at 2 4. simpl.
    assert (tagged (pl_pendingTable st) rem = tagged (pl_pendingTable st) (take n rem) ++ tagged (pl_pendingTable st) (drop n rem)) as Hsplit.
    { by rewrite <-tagged_app, take_drop. }
    split_and!.
    + unfold responses_to in *. simpl in *. by rewrite Hresp, Hr, app_assoc.
    + rewrite existsb_app. simpl. rewrite orb_false_r. intros [Hf|Hf]%orb_true_iff.
      * specialize (Hflag Hf). rewrite Hflag in Hall. apply (f_equal length) in Hall. rewrite !length_app in Hall.
        unfold tagged in Hall. rewrite length_fmap in Hall. lia.
      * apply andb_true_iff in Hf as [Hl Hn'%Nat.eqb_eq]. rewrite Hl, app_nil_r in Hall. subst n. rewrite firstn_all. exact Hall.
    + rewrite lookup_insert_eq. cbn [pl_requestId pl_tables pl_pendingTable pl_pendingRowCursor pl_pendingRows pl_pendingIsLast].
      split_and!; [by rewrite page_timers_app, Ht|done|done|]. rewrite <-drop_drop. fold rem.
      rewrite <-Hall, Hsplit, <-!app_assoc. unfold pull_next. simpl. done.
Qed.

(** The state after the next batch is selected. *)
Definition last_batch (ti off : nat) (pks : list string) : bool :=
  negb (off + ROW_PULL_BATCH_SIZE <? length pks)%nat && (ti =? length tbls - 1)%nat.
Lemma last_batch_left ti off tbl pks : tbls !! ti = Some (tbl, pks) → last_batch ti off pks = true →
  rows_left sch db tbls (if (off + ROW_PULL_BATCH_SIZE <? length pks)%nat then (ti, (off + ROW_PULL_BATCH_SIZE)%nat) else (S ti, 0%nat)) = [].
Proof using.
  intros Ht [Hm Hl]%andb_true_iff. apply negb_true_iff in Hm. rewrite Hm. apply Nat.eqb_eq in Hl. apply rows_left_done.
  apply lookup_lt_Some in Ht. lia.
Qed.
Lemma batch_pulls before h rs ti off tbl pks :
  (∃ key, peer_key p h = Some key) → same (hb_db h) → page_timers p (hb_timers h) = [] →
  responses_to p rq h = before ++ rs → (existsb rr_last rs = true → mjoin (rows_of <$> rs) = all_rows) →
  mjoin (rows_of <$> rs) ++ rows_left sch db tbls (ti, off) = all_rows → tbls !! ti = Some (tbl, pks) → (off < length pks)%nat →
  pulling before (with_pulls (<[p := MkPull rq tbls ti (off + ROW_PULL_BATCH_SIZE)
    (select_in sch tbl db (take ROW_PULL_BATCH_SIZE (drop off pks))) 0 (last_batch ti off pks) tbl]> (hb_pulls h)) h).
Proof using.
  intros Hk Hdb Ht Hr Hflag Hall Etbl Hlt. split_and!; [done|done|]. exists rs. split; [exact Hr|split; [exact Hflag|]].
  simpl. rewrite lookup_insert_eq.
  cbn [pl_requestId pl_tables pl_pendingTable pl_pendingRowCursor pl_pendingRows pl_pendingIsLast]. rewrite drop_0.
  split_and!; [done|done|done|]. rewrite <-Hall, (rows_left_next sch db tbls ti off tbl pks Etbl Hlt). f_equal. f_equal.
  destruct (last_batch ti off pks) eqn:El; [by erewrite last_batch_left|]. unfold pull_next. simpl. by rewrite Etbl.
Qed.
(** The next batch of [p]. *)
Lemma stream_pulls before h rs ti off :
  (∃ key, peer_key p h = Some key) → same (hb_db h) → hb_pulls h !! p = None → page_timers p (hb_timers h) = [] →
  responses_to p rq h = before ++ rs → (existsb rr_last rs = true → mjoin (rows_of <$> rs) = all_rows) →
  mjoin (rows_of <$> rs) ++ rows_left sch db tbls (ti, off) = all_rows →
  pulling before (streamRowPullPages sch encrypt nonce accepts p rq tbls ti off h).
Proof using.
  intros (key & Hkey) Hdb Hpulls Ht Hr Hflag Hall. unfold streamRowPullPages. rewrite Hkey.
  assert (∀ t, rows_left sch db tbls (ti, off) = [] → pulling before
    (let '(h', _) := send_hub accepts p (RowPullResponse (MkRows rq t [] true)) h in with_pulls (delete p (hb_pulls h')) h')) as Hend.
  { intros t Hleft. rewrite Hleft, app_nil_r in Hall. pose proof (responses_sent h (MkRows rq t [] true) eq_refl) as Hresp.
    unfold send_hub in *. simpl in *. split_and!; [by exists key|done|].
    exists (rs ++ (if accepts (hb_attempts h) then [MkRows rq t [] true] else [])). cbv zeta.
    assert (mjoin (rows_of <$> (rs ++ (if accepts (hb_attempts h) then [MkRows rq t [] true] else []))) = all_rows) as Hj.
    { destruct (accepts _); [rewrite sent_snoc|]; by rewrite app_nil_r. }
    split_and!; [|by intros _|].
    - unfold responses_to in *. simpl in *. by rewrite Hresp, Hr, app_assoc.
    - simpl. rewrite lookup_delete_eq. by right. }
  assert (∀ ti' off', rows_left sch db tbls (ti, off) = rows_left sch db tbls (ti', off') →
    pulling before (after_timer (PullPages p rq tbls ti' off') h)) as Hnext.
  { intros ti' off' Heq. split_and!; [by exists key|done|]. exists rs. split; [exact Hr|split; [exact Hflag|]]. simpl. rewrite Hpulls. left.
    exists ti', off'. rewrite page_timers_app, Ht. simpl. rewrite seqb_refl. split; [done|]. by rewrite <-Heq. }
  destruct (tbls !! ti) as [[tbl pks]|] eqn:Etbl.
  2: { apply Hend. unfold rows_left. cbn [fst]. by rewrite Etbl. }
  destruct (take ROW_PULL_BATCH_SIZE (drop off pks)) as [|pk batch'] eqn:Ebatch.
  { apply Hnext. eapply rows_left_skip; [exact Etbl|]. by destruct (drop off pks). }
  assert (off < length pks)%nat as Hlt.
  { destruct (drop off pks) eqn:E; [done|]. apply (f_equal length) in E. rewrite length_drop in E. simpl in E. lia. }
  pose proof (rows_left_next sch db tbls ti off tbl pks Etbl Hlt) as Hleft. rewrite Ebatch in Hleft.
  pose proof (batch_pulls before h rs ti off tbl pks (ex_intro _ key Hkey) Hdb Ht Hr Hflag Hall Etbl Hlt) as Hbatch.
  pose proof (last_batch_left ti off tbl pks Etbl) as Hlast. rewrite Ebatch in Hbatch. cbv zeta. fold (last_batch ti off pks).
  rewrite (same_select (hb_db h) ti off tbl pks Hdb Etbl (pk :: batch') (eq_sym Ebatch)).
  destruct (select_in sch tbl db (pk :: batch')) as [|f fs] eqn:Erows; [|by apply chunk_pulls].
  simpl in Hleft. destruct (last_batch ti off pks); [apply Hend; by rewrite Hleft, Hlast|].
  apply Hnext. rewrite Hleft. by destruct (_ <? _)%nat.
Qed.

Lemma remove_page n ts t : ts !! n = Some t →
  page_timers p ts = page_timers p (take n ts) ++ page_timers p [t] ++ page_timers p (drop (S n) ts).
Proof using. intros Ht. rewrite <-!page_timers_app. simpl. by rewrite take_drop_middle. Qed.

Lemma pulling_step before h e : pulling before h → foreign_pull p tbls e → pulling before (step h e).
Proof using.
  intros Hst He. destruct e as [q payload|q rq' ts|n|q|q|wt w]; cbn [hub_step foreign_pull] in *.
  - unfold handleConsistencyRequest. destruct (negb _); [done|]. cbv zeta. destruct (_ =? 0)%nat; [done|].
    eapply pulling_keeps; [exact Hst|apply pull_pages].
  - unfold handleRowPullRequest. destruct (negb _); [done|]. destruct (peer_key q h); [|done].
    eapply pulling_keeps; [exact Hst|]. destruct (negb _); [by apply pull_send|by apply pull_stream].
  - destruct (hb_timers h !! n) as [t|] eqn:Et; [|done].
    set (h1 := with_timers (take n (hb_timers h) ++ drop (S n) (hb_timers h)) h).
    pose proof (remove_page n _ _ Et) as Hrem.
    assert (page_timers p [t] = [] → keeps h h1) as Hkeep.
    { intros Hj. split_and!; try done. simpl. by rewrite page_timers_app, Hrem, Hj. }
    destruct t as [j|q rq' ts ti off|q]; simpl.
    + eapply pulling_keeps; [exact Hst|]. eapply pull_trans; [by apply Hkeep|apply pull_pages].
    + destruct (decide (q = p)) as [->|Hq].
      2: { assert (page_timers p [PullPages q rq' ts ti off] = []) as Hone by (simpl; by rewrite (proj2 (seqb_false _ _) Hq)).
           eapply pulling_keeps; [exact Hst|]. eapply pull_trans; [by apply Hkeep|by apply pull_stream]. }
      cbn [page_timers omap list_omap] in Hrem. rewrite seqb_refl in Hrem. cbn [app] in Hrem.
      destruct Hst as (Hk & Hdb & rs & Hr & Hflag & Hst).
      destruct (hb_pulls h !! p) eqn:Ep; [destruct Hst as (Ht & _); rewrite Ht in Hrem; by apply app_cons_not_nil in Hrem|].
      destruct Hst as [(ti' & off' & Ht & Hall)|[Ht _]]; [|rewrite Ht in Hrem; by apply app_cons_not_nil in Hrem].
      rewrite Ht in Hrem. destruct (page_timers p (take n (hb_timers h))) as [|x l] eqn:E1; [|by destruct l].
      cbn [app] in Hrem. injection Hrem as <- <- <- <- E2.
      apply (stream_pulls before h1 rs); [done|done|done| |done|exact Hflag|exact Hall].
      subst h1. simpl. by rewrite page_timers_app, E1, <-E2.
    + destruct (decide (q = p)) as [->|Hq].
      * apply chunk_pulls. eapply pulling_keeps; [exact Hst|by apply Hkeep].
      * eapply pulling_keeps; [exact Hst|]. eapply pull_trans; [by apply Hkeep|by apply pull_chunk].
  - eapply pulling_keeps; [|apply pull_continue]. unfold continueRowPull. destruct (hb_pulls h !! q) eqn:Eq; [|done].
    destruct (decide (q = p)) as [->|Hq]; [by apply chunk_pulls|eapply pulling_keeps; [exact Hst|by apply pull_chunk]].
  - eapply pulling_keeps; [exact Hst|]. unfold removePeer. split_and!; try done. by apply fields_get_removed.
  - pose proof (trigger_write_table wt w (hb_db h) (hb_cache h)) as Htbl.
    destruct (trigger_write wt w (hb_db h, hb_cache h)) as [db' cache']. simpl in Htbl.
    destruct Hst as (Hk & Hdb & Hst). split_and!; [done| |exact Hst]. intros tbl pks pk Hin Hpk. simpl. rewrite Htbl.
    destruct (seqb wt tbl) eqn:E; [|by eapply Hdb]. apply seqb_true in E as ->.
    rewrite write_elsewhere by (by eapply He). by eapply Hdb.
Qed.
Lemma pulling_run before h es : pulling before h → Forall (foreign_pull p tbls) es →
  pulling before (hub_run sha sch pageSize encrypt nonce accepts h es).
Proof using.
  unfold hub_run. revert h. induction es as [|e es IH]; intros h Hst Hes; [done|]. inversion Hes; subst.
  simpl. apply IH; [by apply pulling_step|done].
Qed.

(** How much of the pull is left: every event of its own lowers it while the
    socket accepts. *)
Definition left_to (c : nat * nat) : nat :=
  match tbls !! c.1 with
  | Some (_, pks) => S (length pks - c.2) + sum_list ((λ tp, S (length tp.2)) <$> drop (S c.1) tbls)
  | None => 0
  end.
Definition rank (h : hub) : nat * nat :=
  match hb_pulls h !! p with
  | Some st => (if pl_pendingIsLast st then 0 else S (left_to (pull_next st)), S (length (pl_pendingRows st) - pl_pendingRowCursor st))%nat
  | None => match page_timers p (hb_timers h) with (_, _, ti, off) :: _ => (S (left_to (ti, off)), 0%nat) | [] => (0, 0)%nat end
  end.
Definition below : nat * nat → nat * nat → Prop := slexprod nat nat lt lt.
Lemma below_wf : well_founded below.
Proof using. apply wf_slexprod; apply lt_wf. Qed.
Lemma below_trans a b c : below a b → below b c → below a c.
Proof using. intros [????|???]; inversion 1; subst; constructor; lia. Qed.
Lemma left_table ti : left_to (ti, 0%nat) = sum_list ((λ tp, S (length tp.2)) <$> drop ti tbls).
Proof using.
  unfold left_to. cbn [fst snd]. destruct (tbls !! ti) as [[tbl pks]|] eqn:E.
  - rewrite (drop_S _ _ _ E). cbn [fmap list_fmap sum_list fst snd]. rewrite Nat.sub_0_r. done.
  - apply lookup_ge_None in E. by rewrite drop_ge.
Qed.
Lemma left_lower ti off tbl pks (b : bool) : tbls !! ti = Some (tbl, pks) → (b = true → off + 1 ≤ length pks)%nat →
  (left_to (if b then (ti, off + ROW_PULL_BATCH_SIZE) else (S ti, 0)) < left_to (ti, off))%nat.
Proof using.
  intros Et Hb. destruct b; [|rewrite left_table]; unfold left_to; cbn [fst snd]; rewrite Et; [|lia].
  specialize (Hb eq_refl). unfold ROW_PULL_BATCH_SIZE. lia.
Qed.

Lemma chunk_lower before h : pulling before h → accepts (hb_attempts h) = true → is_Some (hb_pulls h !! p) →
  below (rank (sendRowPullSubChunk encrypt nonce accepts p h)) (rank h) ∧
  (hb_attempts h ≤ hb_attempts (sendRowPullSubChunk encrypt nonce accepts p h))%nat.
Proof using.
  intros ((key & Hkey) & _ & rs & _ & _ & Hst) Hacc [st Est]. unfold sendRowPullSubChunk. rewrite Hkey, Est in *.
  destruct Hst as (Ht & _). cbv zeta. unfold rank at 2. rewrite Est.
  destruct (drop (pl_pendingRowCursor st) (pl_pendingRows st)) as [|f fs] eqn:Erem.
  - destruct (pl_pendingIsLast st) eqn:El; unfold rank; simpl; rewrite lookup_delete_eq.
    + rewrite Ht. split; [apply right_slex|]; lia.
    + rewrite page_timers_app, Ht. simpl. rewrite seqb_refl. split; [|lia]. rewrite <-surjective_pairing. apply right_slex. lia.
  - rewrite <-Erem. set (rem := drop (pl_pendingRowCursor st) (pl_pendingRows st)).
    assert (length rem = length (pl_pendingRows st) - pl_pendingRowCursor st)%nat as Hlr by apply length_drop.
    assert (0 < length rem)%nat as Hlen by (subst rem; rewrite Erem; simpl; lia).
    destruct (fit_slice_spec encrypt nonce (S (length rem)) key
      (λ n, MkRows (pl_requestId st) (pl_pendingTable st) (take n rem) (pl_pendingIsLast st && (n =? length rem)%nat))
      (length rem)) as (n & -> & Hn & _); [lia|done|].
    unfold send_hub. rewrite Hacc. unfold rank. simpl. rewrite lookup_insert_eq. cbn [pl_pendingIsLast pl_pendingRows pl_pendingRowCursor].
    split; [|lia]. unfold pull_next. cbn [pl_tables pl_tableIndex pl_pkOffset]. apply right_slex. lia.
Qed.
Lemma stream_lower before h rs ti off :
  (∃ key, peer_key p h = Some key) → same (hb_db h) → hb_pulls h !! p = None → page_timers p (hb_timers h) = [] →
  responses_to p rq h = before ++ rs → (existsb rr_last rs = true → mjoin (rows_of <$> rs) = all_rows) →
  mjoin (rows_of <$> rs) ++ rows_left sch db tbls (ti, off) = all_rows → accepts (hb_attempts h) = true →
  below (rank (streamRowPullPages sch encrypt nonce accepts p rq tbls ti off h)) (S (left_to (ti, off)), 0%nat) ∧
  (hb_attempts h ≤ hb_attempts (streamRowPullPages sch encrypt nonce accepts p rq tbls ti off h))%nat.
Proof using.
  intros (key & Hkey) Hdb Hpulls Ht Hr Hflag Hall Hacc. unfold streamRowPullPages. rewrite Hkey.
  assert (∀ r, below (rank (let '(h', _) := send_hub accepts p (RowPullResponse r) h in with_pulls (delete p (hb_pulls h')) h'))
      (S (left_to (ti, off)), 0%nat) ∧ (hb_attempts h ≤ hb_attempts (let '(h', _) := send_hub accepts p (RowPullResponse r) h in
      with_pulls (delete p (hb_pulls h')) h'))%nat) as Hend.
  { intros r. unfold send_hub, rank. simpl. rewrite lookup_delete_eq, Ht. split; [apply left_slex|]; lia. }
  assert (∀ ti' off', (left_to (ti', off') < left_to (ti, off))%nat →
    below (rank (after_timer (PullPages p rq tbls ti' off') h)) (S (left_to (ti, off)), 0%nat) ∧ (hb_attempts h ≤ hb_attempts h)%nat) as Hnext.
  { intros ti' off' Hlt. unfold rank. simpl. rewrite Hpulls, page_timers_app, Ht. simpl. rewrite seqb_refl. split; [apply left_slex|]; lia. }
  destruct (tbls !! ti) as [[tbl pks]|] eqn:Etbl; [|apply Hend].
  destruct (take ROW_PULL_BATCH_SIZE (drop off pks)) as [|pk batch'] eqn:Ebatch.
  { apply Hnext. apply (left_lower _ _ _ _ false Etbl). done. }
  assert (off < length pks)%nat as Hlt.
  { destruct (drop off pks) eqn:E; [done|]. apply (f_equal length) in E. rewrite length_drop in E. simpl in E. lia. }
  pose proof (batch_pulls before h rs ti off tbl pks (ex_intro _ key Hkey) Hdb Ht Hr Hflag Hall Etbl Hlt) as Hbatch.
  pose proof (left_lower ti off tbl pks (off + ROW_PULL_BATCH_SIZE <? length pks)%nat Etbl ltac:(lia)) as Hlow.
  rewrite Ebatch in Hbatch. cbv zeta. fold (last_batch ti off pks).
  rewrite (same_select (hb_db h) ti off tbl pks Hdb Etbl (pk :: batch') (eq_sym Ebatch)).
  destruct (select_in sch tbl db (pk :: batch')) as [|f fs] eqn:Erows.
  { destruct (last_batch _ _ _); [apply Hend|]. apply Hnext. by destruct (_ <? _)%nat. }
  set (h1 := with_pulls _ h) in *.
  assert (is_Some (hb_pulls h1 !! p)) as Hp by (subst h1; simpl; rewrite lookup_insert_eq; by eexists).
  destruct (chunk_lower before h1 Hbatch Hacc Hp) as [Hb Ha]. split; [|exact Ha]. eapply below_trans; [exact Hb|].
  unfold rank. subst h1. simpl. rewrite lookup_insert_eq. apply left_slex.
  unfold pull_next. cbn [pl_tables pl_tableIndex pl_pkOffset pl_pendingIsLast]. rewrite Etbl. destruct (last_batch _ _ _); lia.
Qed.

Lemma continue_attempts q h : (hb_attempts h ≤ hb_attempts (continueConsistencyStream accepts q h))%nat.
Proof using.
  unfold continueConsistencyStream. destruct (hb_pending h !! q) as [st|]; [|lia]. destruct (peer_key q h); [|simpl; lia].
  unfold send_hub. destruct (accepts (hb_attempts h)) eqn:Ea; simpl; rewrite ?Ea; simpl; [destruct (pp_next st)|]; simpl; lia.
Qed.
Lemma rank_keeps h h' : keeps h h' → rank h' = rank h.
Proof using. intros (_ & _ & Hp & Ht & _). unfold rank. by rewrite Hp, Ht. Qed.
Lemma page_timer_at ts x : head (page_timers p ts) = Some x → ∃ n, ts !! n = Some (PullPages p x.1.1.1 x.1.1.2 x.1.2 x.2).
Proof using.
  induction ts as [|t ts IH]; [done|]. simpl.
  destruct t as [j|q rq' tb ti off|q]; [|destruct (seqb q p) eqn:E|]; simpl;
    [|apply seqb_true in E as ->; intros [= <-]; by exists 0%nat|..]; intros Hx; destruct (IH Hx) as [n Hn]; by exists (S n).
Qed.
Definition delivered (h : hub) : Prop := hb_pulls h !! p = None ∧ page_timers p (hb_timers h) = [].
(** A pull under way can take a step that lowers what is left of it. *)
Lemma pull_progress before h : pulling before h → ~ delivered h → accepts (hb_attempts h) = true →
  ∃ e, foreign_pull p tbls e ∧ below (rank (step h e)) (rank h) ∧ (hb_attempts h ≤ hb_attempts (step h e))%nat.
Proof using.
  intros Hst Hnot Hacc. destruct (hb_pulls h !! p) as [st|] eqn:Ep.
  - exists (Drained p). split; [done|]. cbn [hub_step]. rewrite (rank_keeps _ _ (pull_continue p _)).
    unfold continueRowPull. rewrite Ep. destruct (chunk_lower before h Hst Hacc ltac:(by eexists)) as [Hb Ha].
    split; [exact Hb|]. etransitivity; [exact Ha|apply continue_attempts].
  - pose proof Hst as (Hk & Hdb & rs & Hr & Hflag & Hwork). rewrite Ep in Hwork.
    destruct Hwork as [(ti & off & Ht & Hall)|[Ht _]]; [|by destruct Hnot].
    destruct (page_timer_at (hb_timers h) (rq, tbls, ti, off)) as [n Hn]; [by rewrite Ht|]. simpl in Hn.
    exists (TimerFires n). split; [done|]. cbn [hub_step]. rewrite Hn. cbn [fire].
    set (h1 := with_timers _ h). pose proof (remove_page n _ _ Hn) as Hrem. rewrite Ht in Hrem.
    cbn [page_timers omap list_omap] in Hrem. rewrite seqb_refl in Hrem. cbn [app] in Hrem.
    destruct (page_timers p (take n (hb_timers h))) as [|x l] eqn:E1; [|by destruct l]. cbn [app] in Hrem. injection Hrem as E2.
    assert (rank h = (S (left_to (ti, off)), 0%nat)) as -> by (unfold rank; by rewrite Ep, Ht).
    apply (stream_lower before h1 rs); [done|done|done| |done|exact Hflag|exact Hall|done].
    subst h1. simpl. by rewrite page_timers_app, E1, <-E2.
Qed.
Lemma pull_finishes before h : pulling before h → (∀ n, (hb_attempts h ≤ n)%nat → accepts n = true) →
  ∃ es, Forall (foreign_pull p tbls) es ∧ delivered (hub_run sha sch pageSize encrypt nonce accepts h es).
Proof using.
  apply (run_finishes below rank step (foreign_pull p tbls) (pulling before) delivered accepts below_wf);
    [intros h'; unfold delivered; apply _|intros h' e; apply pulling_step|].
  intros h' Hst Hnot Hacc. apply (pull_progress before); [done|done|by apply Hacc].
Qed.
End Pulling.

(** What a table's keys select, batch by batch: the rows it has for them. *)
Lemma elem_of_select_in sch tbl db pks f : f ∈ select_in sch tbl db pks ↔
  ∃ pk r, pk ∈ pks ∧ table_of tbl db !! pk = Some r ∧ f = row_object (sch tbl) r.
Proof.
  unfold select_in. rewrite list_elem_of_fmap. split.
  - intros ([pk r] & -> & [Hin Hex]%filter_In_iff). apply elem_of_rows_by_key in Hin. exists pk, r. split_and!; [|done..].
    simpl in Hex. apply existsb_exists in Hex as (pk' & Hin' & Heq). apply seqb_true in Heq as ->. by apply list_elem_of_In.
  - intros (pk & r & Hpk & Hr & ->). exists (pk, r). split; [done|]. apply filter_In_iff. split; [by apply elem_of_rows_by_key|].
    simpl. apply existsb_exists. exists pk. split; [by apply list_elem_of_In|apply seqb_refl].
Qed.
Lemma elem_of_pulled sch db tp t f : (t, f) ∈ pulled_rows sch db tp ↔
  t = tp.1 ∧ ∃ pk r, pk ∈ tp.2 ∧ table_of t db !! pk = Some r ∧ f = row_object (sch t) r.
Proof.
  destruct tp as [tbl pks]. simpl. remember (length pks) as n eqn:Hn. revert pks Hn.
  induction n as [n IH] using lt_wf_ind. intros pks ->.
  destruct (decide (pks = [])) as [->|Hne].
  - unfold pulled_rows. simpl. split; [by intros ?%elem_of_nil|]. by intros (_ & pk & r & ?%elem_of_nil & _).
  - rewrite (pulled_batch _ _ _ _ Hne), elem_of_app.
    assert (length (drop ROW_PULL_BATCH_SIZE pks) < length pks)%nat as Hlt.
    { rewrite length_drop. destruct pks; [done|]. unfold ROW_PULL_BATCH_SIZE. simpl. lia. }
    rewrite (IH _ Hlt _ eq_refl), list_elem_of_fmap. setoid_rewrite elem_of_select_in. split.
    + intros [(f' & [= -> ->] & pk & r & Hpk & Hr & ->)|(-> & pk & r & Hpk & Hr & ->)]; split; [done| |done|]; exists pk, r;
        (split; [|done]); rewrite <-(take_drop ROW_PULL_BATCH_SIZE pks); apply elem_of_app; [by left|by right].
    + intros (-> & pk & r & Hpk & Hr & ->). rewrite <-(take_drop ROW_PULL_BATCH_SIZE pks) in Hpk.
      apply elem_of_app in Hpk as [Hpk|Hpk]; [left|right]; [eexists; split; [done|]|split; [done|]]; exists pk, r; by split_and!.
Qed.
Lemma elem_of_wanted sch db tbls t f : (t, f) ∈ rows_left sch db tbls (0, 0)%nat ↔
  ∃ pks pk r, (t, pks) ∈ tbls ∧ pk ∈ pks ∧ table_of t db !! pk = Some r ∧ f = row_object (sch t) r.
Proof.
  rewrite rows_left_table, drop_0, list_elem_of_join. setoid_rewrite list_elem_of_fmap. split.
  - intros (l & Hin & [t' pks] & -> & Htp). apply elem_of_pulled in Hin as (-> & pk & r & ?). exists pks, pk, r. naive_solver.
  - intros (pks & pk & r & Hin & Hrest). eexists. split; [|by exists (t, pks)]. apply elem_of_pulled. split; [done|]. by exists pk, r.
Qed.

(** C33: a row pull delivers exactly the rows asked for.  Whatever else the hub does
    meanwhile, writes of any other row included, and whichever frames the socket refuses, the rows of the frames a
    peer has got are the first of the rows it asked for, table by table and in
    batches of a hundred keys; a frame says [last] only when it was all of them;
    if nothing is left to send, everything was sent; and once the socket accepts,
    the timers and drains of this pull lead there.  The rows asked for are those
    the hub has under the requested keys, and no others. *)
Theorem row_pull_exact sha sch pageSize encrypt nonce accepts p rq tbls h es rs :
  hb_isHub h = true → is_Some (peer_key p h) → forallb (λ tp, validateTableName tp.1) tbls = true →
  delivered p h → Forall (foreign_pull p tbls) es →
  let run := hub_run sha sch pageSize encrypt nonce accepts in
  let h1 := run (handleRowPullRequest sch encrypt nonce accepts p rq tbls h) es in
  let wanted := rows_left sch (hb_db h) tbls (0, 0)%nat in
  responses_to p rq h1 = responses_to p rq h ++ rs →
  mjoin (rows_of <$> rs) `prefix_of` wanted ∧
  (existsb rr_last rs = true ∨ delivered p h1 → mjoin (rows_of <$> rs) = wanted) ∧
  ((∀ n, (hb_attempts h1 ≤ n)%nat → accepts n = true) →
   ∃ es' rs', Forall (foreign_pull p tbls) es' ∧ delivered p (run h1 es') ∧
     responses_to p rq (run h1 es') = responses_to p rq h ++ rs' ∧ mjoin (rows_of <$> rs') = wanted) ∧
  (∀ t f, (t, f) ∈ wanted ↔
     ∃ pks pk r, (t, pks) ∈ tbls ∧ pk ∈ pks ∧ table_of t (hb_db h) !! pk = Some r ∧ f = row_object (sch t) r).
Proof.
  intros Hhub [key Hkey] Hnames [Hpulls Ht] Hes run h1 wanted Hrs.
  assert (pulling sch p rq (hb_db h) tbls (responses_to p rq h) (handleRowPullRequest sch encrypt nonce accepts p rq tbls h)) as H0.
  { unfold handleRowPullRequest. rewrite Hhub, Hkey, Hnames. cbn [negb].
    apply (stream_pulls sch encrypt nonce accepts p rq (hb_db h) tbls _ h []); [by exists key|done..|by rewrite app_nil_r|done|done]. }
  pose proof (pulling_run sha sch pageSize encrypt nonce accepts p rq (hb_db h) tbls _ _ es H0 Hes) as H1. fold (run) in H1. fold h1 in H1.
  assert (∀ h', pulling sch p rq (hb_db h) tbls (responses_to p rq h) h' → delivered p h' →
    ∃ rs', responses_to p rq h' = responses_to p rq h ++ rs' ∧ mjoin (rows_of <$> rs') = wanted) as Hdone.
  { intros h' (_ & _ & rs' & Hr & _ & Hw) [Hp' Ht']. rewrite Hp', Ht' in Hw. exists rs'. split; [done|].
    by destruct Hw as [(? & ? & ? & _)|[_ Hw]]. }
  pose proof H1 as (_ & _ & rs0 & Hr0 & Hflag & Hw). rewrite Hrs in Hr0. apply app_inv_head in Hr0 as <-. split_and!.
  - destruct (hb_pulls h1 !! p); [destruct Hw as (_ & _ & _ & Hw); by eexists|].
    destruct Hw as [(ti & off & _ & Hw)|[_ Hw]]; [by eexists|exists []; by rewrite app_nil_r].
  - intros [Hl|Hd]; [by apply Hflag|]. destruct (Hdone _ H1 Hd) as (rs' & Hr' & Hall). rewrite Hrs in Hr'. by apply app_inv_head in Hr' as ->.
  - intros Hacc. destruct (pull_finishes sha sch pageSize encrypt nonce accepts p rq (hb_db h) tbls _ h1 H1 Hacc) as (es' & Hes' & Hd).
    destruct (Hdone _ (pulling_run sha sch pageSize encrypt nonce accepts p rq (hb_db h) tbls _ h1 es' H1 Hes') Hd) as (rs' & Hr' & Hall).
    by exists es', rs'.
  - apply elem_of_wanted.
Qed.

(** *** Examples *)
Definition sample_hub_db : sdb := MkSdb {["threads" := {["a" := thread_row "a" "old" "2026-01-01";
  "b" := thread_row "b" "x" "2026-01-01"; "c" := thread_row "c" "y" "2026-01-02"]}]} [].
Definition sample_hub : hub := MkHub true [("p", "k")] sample_hub_db (Some ∅) ∅ ∅ [] [] 0.
(** Every fifth frame is refused, up to the hundredth. *)
Definition sample_accepts (n : nat) : bool := negb (n mod 5 =? 2)%nat || (100 <=? n)%nat.
Fixpoint sample_events (n : nat) : list hub_event :=
  match n with O => [] | S n' => TimerFires 0 :: Drained "p" :: sample_events n' end.
Local Abbreviation sample_run := (hub_run sample_sha thread_schema 2 toy_encrypt toy_nonces sample_accepts).
Lemma sample_foreign n tbls tps : Forall (foreign "p" tbls) (sample_events n) ∧ Forall (foreign_pull "p" tps) (sample_events n).
Proof. induction n as [|n [IH1 IH2]]; [done|]. split; by repeat constructor. Qed.
Lemma sample_quiet : quiet sample_sha thread_schema "p" sample_hub_db SYNCED_TABLES sample_hub.
Proof.
  split_and!; [by exists "k"|done|intros q st j Hq; exact (False_ind _ (lookup_empty_Some _ _ Hq))| |done|done].
  intros c [= <-] tbl pk h r Hh. exact (False_ind _ (lookup_empty_Some _ _ Hh)).
Qed.

Lemma exchange_resumes_witness :
  let '(s1, request) := requestConsistency "r" [] true fresh_spoke in
  let h1 := sample_run (handleConsistencyRequest sample_sha thread_schema 2 sample_accepts "p" request sample_hub) (sample_events 30) in
  streamed_out "p" h1 ∧
  resolved_with "r" (everything sample_sha thread_schema sample_hub_db SYNCED_TABLES)
    (foldl handleConsistencyResponse s1 (pages_to "p" h1)) ∧
  resume_ok sample_sha thread_schema sample_hub_db SYNCED_TABLES
    (consistency_timeout "r" (foldl handleConsistencyResponse s1 (take 3 (pages_to "p" h1)))).
Proof.
  destruct (sample_foreign 30 SYNCED_TABLES []) as [Hes _].
  pose proof (exchange_resumes sample_sha thread_schema 2 toy_encrypt toy_nonces sample_accepts "p" sample_hub_db sample_hub
    fresh_spoke "r" (sample_events 30)) as H.
  specialize (H (pages_to "p" (sample_run (handleConsistencyRequest sample_sha thread_schema 2 sample_accepts "p"
    (requestConsistency "r" [] true fresh_spoke).2 sample_hub) (sample_events 30)))).
  pose proof (λ l, H l (λ x, eq_refl) ltac:(lia) eq_refl eq_refl sample_quiet I Hes) as H'. clear H.
  destruct (requestConsistency "r" [] true fresh_spoke) as [s1 request] eqn:E. injection E as <- <-. cbv zeta in H'.
  cbn [snd] in H'. set (h1 := sample_run (handleConsistencyRequest _ _ _ _ _ _ _) _) in *.
  assert (streamed_out "p" h1) as Hout by (subst h1; split; vm_compute; reflexivity).
  split; [exact Hout|]. split.
  - exact (proj1 (proj2 (H' (pages_to "p" h1) eq_refl (reflexivity _))) eq_refl Hout).
  - destruct (H' (take 3 (pages_to "p" h1)) eq_refl (prefix_take _ 3)) as ([(Hno & _)|Hyes] & _); [|exact Hyes].
    exfalso. revert Hno. subst h1. by vm_compute.
Defined.

(** Between two pages and the request that resumes after them a row is inserted
    before the cursor: the resumed OFFSET repeats a key and passes over the new
    one, and the listing the spoke resolves holds ["b"] twice and no ["aa"]. *)
Definition listing_after_insert : option (list string) :=
  let run := hub_run sample_sha thread_schema 2 toy_encrypt toy_nonces (λ _, true) in
  let ask q h := handleConsistencyRequest sample_sha thread_schema 2 (λ _, true) "p" q h in
  let '(s1, q1) := requestConsistency "r1" [] true fresh_spoke in
  let h1 := run (ask q1 sample_hub) (replicate 3 (TimerFires 0)) in
  let s2 := consistency_timeout "r1" (foldl handleConsistencyResponse s1 (pages_to "p" h1)) in
  let h2 := run h1 [HubWrites "threads" (RowInserted "aa" (thread_row "aa" "z" "2026-01-03"))] in
  let '(s3, q2) := requestConsistency "r2" [] true s2 in
  let h3 := run (ask q2 h2) (replicate 30 (TimerFires 0)) in
  let s4 := foldl handleConsistencyResponse s3 (drop (length (pages_to "p" h2)) (pages_to "p" h3)) in
  match last (sp_settled s4) with
  | Some ("r2", Resolved data) => co_pks <$> (data !! "threads")
  | _ => None
  end.
Example insert_shifts_resume : listing_after_insert = Some ["a"; "b"; "b"; "c"].
Proof. vm_compute. reflexivity. Qed.

Lemma row_pull_exact_witness :
  let h1 := sample_run (handleRowPullRequest thread_schema toy_encrypt toy_nonces sample_accepts "p" "q"
              [("threads", ["c"; "zz"; "a"]); ("users", ["u"])] sample_hub) (sample_events 10) in
  mjoin (rows_of <$> responses_to "p" "q" h1) =
    [("threads", row_object (thread_schema "threads") (thread_row "a" "old" "2026-01-01"));
     ("threads", row_object (thread_schema "threads") (thread_row "c" "y" "2026-01-02"))] ∧
  existsb rr_last (responses_to "p" "q" h1) = true ∧ delivered "p" h1.
Proof.
  destruct (sample_foreign 10 [] [("threads", ["c"; "zz"; "a"]); ("users", ["u"])]) as [_ Hes]. intros h1.
  assert (delivered "p" h1) as Hd by (subst h1; split; vm_compute; reflexivity).
  destruct (row_pull_exact sample_sha thread_schema 2 toy_encrypt toy_nonces sample_accepts "p" "q"
    [("threads", ["c"; "zz"; "a"]); ("users", ["u"])] sample_hub (sample_events 10) (responses_to "p" "q" h1)
    eq_refl ltac:(by eexists) eq_refl ltac:(done) Hes eq_refl) as (_ & Hall & _).
  split; [|split; [subst h1; by vm_compute|exact Hd]].
  rewrite (Hall (or_intror Hd)). by vm_compute.
Defined.
