(* ===== verification/Backfill.v ===== *)
(** * Reconciliation with the hub (packages/sync/src/ws-transport.ts)

    What a spoke does once it has the hub's listing: compare it table by table,
    write what the hub lacks to its own change log, ask for the rows it lacks
    itself, and apply the answers.  The comparison is that of Consistency.v, the
    listing and the frames of rows those of Exchange.v, the snapshot upsert and
    the change-log reducer those of Reducers.v.  A spoke awaits between batches;
    a round here runs without writes of others in between.  The hub's handlers
    for acknowledgements and reseeding move the peer's cursors and drain. *)
From S2P Require Import Prelude Json Frames Hlc Store ChangeLog Relations Reducers Consistency Changeset Transport Exchange.
Local Open Scope bound_scope.

Definition BACKFILL_BATCH_SIZE : nat := 1000.
Definition BACKFILL_COOLDOWN_MS : Z := 5 * 60 * 1000.

(** ** One round at a time *)
Record runner : Type := MkRunner { backfillRunning : bool; lastBackfillAt : Z }.
Inductive run_start : Type := SkipRunning | SkipCooldown (remainingMs : Z) | RunStarted.
Definition runBackfill (now : Z) (r : runner) : runner * run_start :=
  if backfillRunning r then (r, SkipRunning)
  else
    let elapsed := now - lastBackfillAt r in
    if (0 <? lastBackfillAt r) && (elapsed <? BACKFILL_COOLDOWN_MS) then (r, SkipCooldown (BACKFILL_COOLDOWN_MS - elapsed))
    else (MkRunner true (lastBackfillAt r), RunStarted).
(** The round ends, with a result or with an error. *)
Definition backfill_ended (now : Z) (ok : bool) (r : runner) : runner :=
  MkRunner false (if ok then now else lastBackfillAt r).

(** ** The round *)
Definition entry_before (a b : ConsistencyEntry) : bool := sltb (en_pk a) (en_pk b).
Record totals : Type := MkTotals { tt_backfilled : nat; tt_tablesWithDrift : nat; tt_remoteOnly : list (string * list string) }.

(** The database with its event bus, and the hash cache next to it. *)
Definition B (A : Type) : Type := world * option hash_cache → (world * option hash_cache) * result A.
Definition bret {A} (a : A) : B A := λ s, (s, Ok a).
Definition bbind {A C} (m : B A) (k : A → B C) : B C :=
  λ s, match m s with (s', Ok a) => k a s' | (s', Throw e) => (s', Throw e) end.
Definition lift_world {A} (m : M A) : B A := λ s, (((m s.1).1, s.2), (m s.1).2).
Notation "'round!' x := m 'in' k" := (bbind m (fun x => k))
  (at level 10, x pattern, m at level 100, k at level 200) : bound_scope.

Section Round.
Context (sha : string → string) (sch : string → table_schema).
Context (listener : ChangeLogEvent → option string) (now : nat → string) (siteId : string).

(** What to push and what to pull of a table the hub listed. *)
Definition plan_table (tbl : string) (remote : collected) (db : sdb) (cache : option hash_cache)
    : list string * list string * option hash_cache :=
  match co_entries remote with
  | Some entries =>
      let '(localEntries, cache') := getBackfillableEntriesSorted sha sch tbl db cache in
      let diff := mergeDiffEntries localEntries (stable_sort entry_before entries) in
      (df_localOnly diff ++ df_localNewerMismatch diff, df_remoteOnly diff ++ df_remoteNewerMismatch diff, cache')
  | None =>
      let diff := mergeDiffPks (getBackfillablePksSorted tbl db) (stable_sort sltb (co_pks remote)) in
      (pd_localOnly diff, pd_remoteOnly diff, cache)
  end.

(** A row is logged as it stands; one that is gone meanwhile is passed over. *)
Definition push_row (tbl pk : string) : M (list string) :=
  do! db := get_db in
  match table_of tbl db !! pk with
  | None => ret []
  | Some r =>
      do! hlc := createChangeLogEntry (now (length (change_log db))) tbl pk siteId (row_object (sch tbl) r) None in
      ret [hlc]
  end.
Fixpoint push_rows (tbl : string) (pks : list string) : M (list string) :=
  match pks with
  | [] => ret []
  | pk :: pks' => do! h := push_row tbl pk in do! hs := push_rows tbl pks' in ret (h ++ hs)
  end.
(** A batch commits before its events are emitted, on the bus itself. *)
Definition push_batch (tbl : string) (batch : list string) : M nat :=
  do! hlcs := transaction (push_rows tbl batch) in
  do! _ := for_each (λ hlc, bus_emit (Some listener) (MkEvent hlc tbl siteId)) hlcs in
  ret (length hlcs).
Fixpoint push_batches (fuel : nat) (tbl : string) (pks : list string) : M nat :=
  match fuel with
  | O => ret 0%nat
  | S fuel' =>
      match pks with
      | [] => ret 0%nat
      | _ =>
          do! n := push_batch tbl (take BACKFILL_BATCH_SIZE pks) in
          do! m := push_batches fuel' tbl (drop BACKFILL_BATCH_SIZE pks) in
          ret (n + m)%nat
      end
  end.

Definition planned (tbl : string) (pushPks pullPks : list string) (acc : totals) : totals :=
  MkTotals (tt_backfilled acc)
    (if (0 <? length pushPks)%nat || (0 <? length pullPks)%nat then S (tt_tablesWithDrift acc) else tt_tablesWithDrift acc)
    (if (0 <? length pullPks)%nat then tt_remoteOnly acc ++ [(tbl, pullPks)] else tt_remoteOnly acc).
Definition backfill_table (remote : tables_data) (tbl : string) (acc : totals) : B totals :=
  match remote !! tbl with
  | None => bret acc
  | Some listed =>
      λ s,
        let '(pushPks, pullPks, cache) := plan_table tbl listed (w_db s.1) s.2 in
        let acc' := planned tbl pushPks pullPks acc in
        (round! n := lift_world (push_batches (length pushPks) tbl pushPks) in
         bret (MkTotals (tt_backfilled acc' + n) (tt_tablesWithDrift acc') (tt_remoteOnly acc'))) (s.1, cache)
  end.
Fixpoint backfill_tables (remote : tables_data) (tbls : list string) (acc : totals) : B totals :=
  match tbls with
  | [] => bret acc
  | tbl :: tbls' => round! acc' := backfill_table remote tbl acc in backfill_tables remote tbls' acc'
  end.
(** From the listing to the row pull, which is asked for when anything is missing. *)
Definition executeBackfill (remote : tables_data) : B totals :=
  backfill_tables remote SYNCED_TABLES (MkTotals 0 0 []).
Definition pull_wanted (t : totals) : option (list (string * list string)) :=
  match tt_remoteOnly t with [] => None | tbls => Some tbls end.
Definition requested (t : totals) : nat := sum_list ((λ tp, length tp.2) <$> tt_remoteOnly t).
End Round.

(** ** The row pull at the spoke *)
Record pending_pull : Type := MkPendingPull { pp_rowsApplied : nat; pp_frames : nat }.
Record puller : Type := MkPuller { pu_requests : gmap string pending_pull; pu_settled : list (string * result nat) }.
Record row_chunk : Type := MkRowChunk { rc_row_id : string; rc_column : string; rc_index : option nat; rc_data : option string }.

Definition pull_timeout_ms (tbls : list (string * list string)) : Z :=
  let totalPks := sum_list ((λ tp, length tp.2) <$> tbls) in
  Z.max 300000 (Z.of_nat ((totalPks + 99) / 100) * 500).
(** [connected]: the hub is a peer; [sent]: its socket took the request. *)
Definition requestRowPull (requestId : string) (connected sent : bool) (p : puller) : puller :=
  if negb connected then MkPuller (pu_requests p) (pu_settled p ++ [(requestId, Throw "Not connected to hub")])
  else if negb sent then MkPuller (pu_requests p) (pu_settled p ++ [(requestId, Throw "Failed to send row pull request")])
  else MkPuller (<[requestId := MkPendingPull 0 0]> (pu_requests p)) (pu_settled p).
Definition row_pull_timeout (requestId : string) (p : puller) : puller :=
  MkPuller (delete requestId (pu_requests p)) (pu_settled p ++ [(requestId, Throw "Row pull request timed out")]).

Section Pull.
Context (sch : string → table_schema).
(** [rowsApplied] of the request the frame answers, if it is known. *)
Definition counted (requestId : string) (applied : nat) (p : puller) : puller :=
  match pu_requests p !! requestId with
  | Some req => MkPuller (<[requestId := MkPendingPull (pp_rowsApplied req + applied) (S (pp_frames req))]> (pu_requests p)) (pu_settled p)
  | None => p
  end.
Definition apply_chunk (tbl : string) (chunk : option row_chunk) (db : sdb) : result sdb :=
  match chunk with
  | Some c =>
      match rc_data c with
      | Some data => if nonempty (rc_row_id c) && nonempty (rc_column c)
                     then applyColumnChunk sch tbl (rc_row_id c) (rc_column c) (default 0%nat (rc_index c)) data db
                     else Ok db
      | None => Ok db
      end
  | None => Ok db
  end.
Definition handleRowPullResponse (payload : row_response) (chunk : option row_chunk) (st : sdb * puller)
    : (sdb * puller) * result nat :=
  let '(db, applied) := match rr_rows payload with [] => (st.1, 0%nat) | rows => applySnapshotRows sch (rr_table payload) rows st.1 end in
  let p := if nonempty (rr_request_id payload) then counted (rr_request_id payload) applied st.2 else st.2 in
  match apply_chunk (rr_table payload) chunk db with
  | Throw e => ((db, p), Throw e)
  | Ok db' =>
      let p' := if rr_last payload && nonempty (rr_request_id payload) then
                  match pu_requests p !! rr_request_id payload with
                  | Some req => MkPuller (delete (rr_request_id payload) (pu_requests p))
                                  (pu_settled p ++ [(rr_request_id payload, Ok (pp_rowsApplied req))])
                  | None => p
                  end
                else p in
      ((db', p'), Ok applied)
  end.
Definition handle_responses (rs : list row_response) (st : sdb * puller) : sdb * puller :=
  foldl (λ st r, (handleRowPullResponse r None st).1) st rs.

(** [DELETE FROM] every synced table. *)
Definition clearSyncedTables (db : sdb) : sdb := foldl (λ db tbl, with_table tbl ∅ db) db SYNCED_TABLES.
End Pull.

(** ** The hub's cursors *)
Section HubCursors.
Context (encrypt : string → string → string → string) (nonce : json → string) (accepts : nat → bool).

(** A spoke that has pulled everything: its cursors move to the present, and
    what was logged since is drained. *)
Definition handleRowPullAck (isHub : bool) (now hubSite peer : string) (n : node) : node * result unit :=
  if negb isHub then (n, Ok tt)
  else
    let pullHlc := generateHlc now None hubSite in
    drainChangelog encrypt nonce accepts now peer
      (with_sync (updatePeerCursor now peer (MkUpdates (Some (Some pullHlc)) (Some (Some pullHlc)) None None) (nd_sync n)) n).
Definition seedNewPeer (isHub : bool) (now peer : string) (n : node) : node :=
  if negb isHub then n else with_sync (updatePeerCursor now peer no_updates (nd_sync n)) n.
(** [snapshotHlc]: that of the snapshot state of the peer, if it has one. *)
Definition handleSnapshotAck (now peer : string) (snapshotHlc : option string) (n : node) : node * result unit :=
  let n1 := MkNode (nd_db n) (nd_sync n) (nd_peers n) (List.filter (λ p, negb (seqb p peer)) (nd_seeding n)) (nd_pending n)
              (nd_sent n) (nd_attempts n) in
  let n2 := match snapshotHlc with
            | Some h => if nonempty h then
                          with_sync (updatePeerCursor now peer (MkUpdates (Some (Some h)) (Some (Some h)) (Some (Some h)) None) (nd_sync n1)) n1
                        else n1
            | None => n1
            end in
  drainChangelog encrypt nonce accepts now peer n2.
Definition handleReseedRequest (isHub : bool) (now peer : string) (n : node) : node :=
  if negb isHub then n
  else if existsb (seqb peer) (nd_seeding n) then n
  else seedNewPeer isHub now peer
         (with_sync (updatePeerCursor now peer (MkUpdates (Some (Some HLC_ZERO)) (Some (Some HLC_ZERO)) None None) (nd_sync n)) n).
End HubCursors.

(** ** Whole rows *)
(** A row the tables of every host accept as it stands. *)
Record good_row (sch : string → table_schema) (tbl k m : string) (r : row) : Prop := {
  gr_full : full_row (sch tbl) (getPkColumn tbl) (row_object (sch tbl) r) k m;
  gr_dom : ∀ c, is_Some (r !! c) ↔ c ∈ ts_columns (sch tbl);
  gr_wf : object_wf (sch tbl) r;
  gr_healed : heal tbl (row_object (sch tbl) r) = row_object (sch tbl) r;
  gr_syncable : syncableRowPredicate tbl r = true
}.
Definition good_table (sch : string → table_schema) (tbl : string) (t : table) : Prop :=
  ∀ k r, t !! k = Some r → ∃ m, good_row sch tbl k m r.

Lemma with_table_other tbl tbl' t db : tbl' ≠ tbl → table_of tbl' (with_table tbl t db) = table_of tbl' db.
Proof. intros Hne. unfold table_of, with_table. simpl. by rewrite lookup_insert_ne. Qed.

Lemma synced_valid tbl : tbl ∈ SYNCED_TABLES → validateTableName tbl = true.
Proof.
  intros H. assert (Forall (λ t, validateTableName t = true) SYNCED_TABLES) as Hall by (by repeat constructor).
  rewrite Forall_forall in Hall. by apply Hall.
Qed.

Section Rows.
Context (sch : string → table_schema) (tbl : string).
Hypothesis synced : tbl ∈ SYNCED_TABLES.
Abbreviation good := (good_row sch tbl).
Abbreviation ts := (sch tbl).
Abbreviation pk := (getPkColumn tbl).

Lemma good_write k m r : good k m r → write_all (row_object ts r) ∅ = r.
Proof using.
  clear synced. intros Hg. pose proof (full_nodup _ _ _ _ _ (gr_full _ _ _ _ _ Hg)) as Hnd. apply map_eq. intros c.
  destruct (decide (c ∈ ts_columns ts)) as [Hc|Hc].
  - rewrite (write_all_lookup _ _ _ (column_value c r) Hnd) by (by apply elem_of_row_object).
    unfold column_value. by destruct (proj2 (gr_dom _ _ _ _ _ Hg c) Hc) as [v ->].
  - rewrite write_all_other by (by rewrite row_object_keys). rewrite lookup_empty. symmetry. apply eq_None_not_Some.
    intros H. by apply Hc, (gr_dom _ _ _ _ _ Hg).
Qed.
Lemma good_stamped k m r : good k m r → stamped k m r.
Proof using.
  clear synced. intros Hg. rewrite <-(good_write k m r Hg). destruct (full_row_key _ _ _ _ _ (gr_full _ _ _ _ _ Hg)) as (_ & Hm & _).
  split; [done|]. apply (full_modified_nonempty _ _ _ _ _ (gr_full _ _ _ _ _ Hg)).
Qed.
Lemma good_stamp k m r : good k m r → stamp r = Some m.
Proof using. clear synced. intros [Hm _]%good_stamped. unfold stamp, column_value. by rewrite Hm. Qed.
Lemma good_table_ok t : good_table sch tbl t → table_ok ts pk t.
Proof using.
  clear synced. intros Ht k r Hr. destruct (Ht k r Hr) as [m Hg]. rewrite <-(good_write k m r Hg).
  destruct (full_row_key _ _ _ _ _ (gr_full _ _ _ _ _ Hg)) as (Hk & _ & Hd). done.
Qed.
Lemma good_insert t k m r : good_table sch tbl t → good k m r → good_table sch tbl (<[k := r]> t).
Proof using. clear synced. intros Ht Hg k' r'. rewrite lookup_insert_Some. intros [[<- <-]|[_ Hr]]; [by exists m|by apply Ht]. Qed.
Lemma good_merge t k m r : good_table sch tbl t → good k m r → good_table sch tbl (lww_merge k m r t).
Proof using.
  clear synced. intros Ht Hg. unfold lww_merge. destruct (t !! k) as [old|]; [destruct (stale m old); [done|]|]; by eapply good_insert.
Qed.
Lemma good_stale t k m old m' : good_table sch tbl t → t !! k = Some old → stamp old = Some m' → stale m old = sleb m m'.
Proof using.
  clear synced. intros Ht Hold Hs. destruct (Ht k old Hold) as [m0 Hg]. rewrite (good_stamp _ _ _ Hg) in Hs. injection Hs as <-.
  apply (stale_stamped m k m0). by apply good_stamped.
Qed.

(** *** As a snapshot row *)
Lemma coerce_good k m r : good k m r → coerceRowValues (row_object ts r).*1 (row_object ts r) = row_object ts r.
Proof using.
  clear synced. intros Hg. pose proof (gr_full _ _ _ _ _ Hg) as Hf. pose proof (full_nodup _ _ _ _ _ Hf) as Hnd.
  unfold coerceRowValues. rewrite <-list_fmap_compose. rewrite <-(list_fmap_id (row_object ts r)) at 2.
  apply list_fmap_ext. intros i [c v] Hin%list_elem_of_lookup_2. cbn [compose fst]. unfold compose. cbn [fst].
  rewrite (fields_get_NoDup c v _ Hnd Hin). destruct (full_storable _ _ _ _ _ Hf c v Hin) as (_ & Hb & _). by destruct v.
Qed.
Lemma upsert_good t k m r : good_table sch tbl t → good k m r → unique_clash ts k r t = false →
  snapshot_upsert sch tbl (row_object ts r).*1 (row_object ts r) t = Ok (lww_merge k m r t).
Proof using.
  clear synced. intros Ht Hg Hu. pose proof (gr_full _ _ _ _ _ Hg) as Hf. unfold snapshot_upsert. cbv zeta. rewrite (coerce_good k m r Hg).
  assert (nonempty_insert (row_object ts r) = Ok tt) as ->.
  { pose proof (full_key _ _ _ _ _ Hf) as Hin. destruct (row_object ts r); [by apply not_elem_of_nil in Hin|done]. }
  cbn [result_bind]. unfold upsert_pk. rewrite (build_full _ _ _ k m Hf). cbn [result_bind]. unfold row_key.
  destruct (full_row_key _ _ _ _ _ Hf) as (-> & Hm & _). cbn [result_bind]. rewrite (good_write k m r Hg) in *.
  unfold lww_merge. destruct (t !! k) as [old|] eqn:Eold; [|by apply put_row_ok].
  destruct (Ht k old Eold) as [m' Hold]. rewrite (good_stale t k m old m' Ht Eold (good_stamp _ _ _ Hold)).
  assert (("modified_at", JStr m) ∈ fields_remove pk (row_object ts r)) as Hrest.
  { apply elem_of_fields_remove. split; [apply Hf|]. intros Heq. by apply (full_pk _ _ _ _ _ Hf). }
  assert (length (fields_remove pk (row_object ts r)) =? 0 = false)%nat as ->.
  { apply Nat.eqb_neq. intros Hlen%length_zero_iff_nil. rewrite Hlen in Hrest. by apply not_elem_of_nil in Hrest. }
  unfold excluded_newer. assert (existsb (seqb "modified_at") (row_object ts r).*1 = true) as ->.
  { apply existsb_elem. apply list_elem_of_fmap. exists ("modified_at", JStr m). split; [done|apply (full_modified _ _ _ _ _ Hf)]. }
  unfold column_value. rewrite Hm. destruct (good_stamped _ _ _ Hold) as [-> _]. cbn [default from_option id negb andb sql_gt].
  rewrite sltb_sleb. destruct (sleb m m'); [done|]. cbn [negb].
  pose proof (good_write k m r Hg) as Hwr. rewrite (update_full _ _ _ k m t old Hf (good_table_ok t Ht) Eold) by (by rewrite Hwr).
  cbn [result_bind]. by rewrite Hwr.
Qed.

(** A frame of rows: all of them at once. *)
Abbreviation kmr := (string * string * row)%type.
Definition good_rows (rows : list kmr) : Prop := Forall (λ x, good x.1.1 x.1.2 x.2) rows.
Lemma merge_good rows t : good_table sch tbl t → good_rows rows → good_table sch tbl (merge_all rows t).
Proof using.
  clear synced. intros Ht Hrows. revert t Ht. induction Hrows as [|[[k m] r] rows Hg _ IH]; intros t Ht; [done|].
  apply IH. by apply good_merge.
Qed.
Lemma batch_good rows t : good_table sch tbl t → good_rows rows → names_apart ts rows t →
  snapshot_batch sch tbl (ts_columns ts) ((λ x : kmr, row_object ts x.2) <$> rows) t = Ok (merge_all rows t).
Proof using.
  clear synced. intros Ht Hrows. revert t Ht. induction Hrows as [|[[k m] r] rows Hg _ IH]; intros t Ht Hap; [done|].
  apply names_apart_step in Hap as [Hu Hap].
  rewrite fmap_cons. cbn [snapshot_batch fst snd]. pose proof (upsert_good t k m r Ht Hg Hu) as Hup. rewrite row_object_keys in Hup.
  rewrite Hup. cbn [result_bind]. apply IH; [by apply good_merge|done].
Qed.
Lemma good_not_system k m r : good k m r → (if seqb tbl "messages" then negb (is_system_row (row_object ts r)) else true) = true.
Proof using.
  clear synced. intros Hg. destruct (seqb tbl "messages") eqn:E; [|done]. pose proof (gr_syncable _ _ _ _ _ Hg) as Hs.
  unfold syncableRowPredicate in Hs. rewrite E in Hs. unfold is_system_row.
  destruct (decide ("role" ∈ ts_columns ts)) as [Hc|Hc].
  - rewrite (fields_get_NoDup "role" (column_value "role" r)); [|apply (full_nodup _ _ _ _ _ (gr_full _ _ _ _ _ Hg))|by apply elem_of_row_object].
    by destruct (column_value "role" r).
  - assert (fields_get "role" (row_object ts r) = None) as ->; [|done].
    assert ("role" ∉ (row_object ts r).*1) as Hn by (by rewrite row_object_keys). clear -Hn.
    induction (row_object ts r) as [|[c v] fs IH]; [done|]. apply not_elem_of_cons in Hn as [H1 H2]. cbn [fields_get].
    rewrite (proj2 (seqb_false _ _)) by done. by apply IH.
Qed.
Lemma snapshot_good rows db : good_table sch tbl (table_of tbl db) → good_rows rows → names_apart ts rows (table_of tbl db) → rows ≠ [] →
  (applySnapshotRows sch tbl ((λ x : kmr, row_object ts x.2) <$> rows) db).1 = with_table tbl (merge_all rows (table_of tbl db)) db.
Proof using synced.
  intros Ht Hrows Hap Hne. unfold applySnapshotRows.
  rewrite synced_valid by done.
  cbn [negb].
  assert (∀ (l : list kmr), good_rows l → (if seqb tbl "messages" then List.filter (λ r, negb (is_system_row r)) ((λ x : kmr, row_object ts x.2) <$> l)
            else (λ x : kmr, row_object ts x.2) <$> l) = (λ x : kmr, row_object ts x.2) <$> l) as Hsys.
  { intros l Hl. destruct (seqb tbl "messages") eqn:E; [|done]. apply filter_bool_all. intros o Ho.
    apply list_elem_of_fmap in Ho as (x & -> & Hx). unfold good_rows in Hl. rewrite Forall_forall in Hl. pose proof (good_not_system _ _ _ (Hl x Hx)) as H. by rewrite E in H. }
  rewrite Hsys by done.
  assert (heal tbl <$> ((λ x : kmr, row_object ts x.2) <$> rows) = (λ x : kmr, row_object ts x.2) <$> rows) as ->.
  { rewrite <-list_fmap_compose. apply list_fmap_ext. intros i x Hx%list_elem_of_lookup_2. unfold good_rows in Hrows. rewrite Forall_forall in Hrows.
    apply (gr_healed _ _ _ _ _ (Hrows x Hx)). }
  pose proof (batch_good rows _ Ht Hrows Hap) as Hb. destruct rows as [|[[k m] r] rows]; [done|]. rewrite fmap_cons in *. cbn [fst snd] in *.
  cbv zeta. inversion Hrows as [|? ? Hg _]; subst. rewrite row_object_keys.
  assert (forallb valid_column_name (ts_columns ts) = true) as ->.
  { apply forallb_forall. intros c Hc%list_elem_of_In. pose proof (full_names _ _ _ _ _ (gr_full _ _ _ _ _ Hg)) as Hn.
    rewrite row_object_keys in Hn. rewrite Forall_forall in Hn. by apply Hn. }
  cbn [negb]. by rewrite Hb.
Qed.

(** *** As a change-log event *)
Definition logs (e : ChangeLogEntry) (x : kmr) : Prop :=
  cl_table_name e = tbl ∧ cl_row_id e = x.1.1 ∧ cl_row_data e = json_stringify (JObj (row_object ts x.2)).
Lemma parse_good e x : good x.1.1 x.1.2 x.2 → logs e x → parseReducerRowData e = Some (row_object ts x.2).
Proof using synced.
  intros Hg (Ht & _ & Hd). unfold parseReducerRowData. rewrite Ht, Hd.
  rewrite synced_valid by done.
  cbn [negb]. rewrite json_roundtrip; [done|]. apply json_wf_obj. split; [apply (full_nodup _ _ _ _ _ (gr_full _ _ _ _ _ Hg))|].
  apply Forall_forall. intros [c v] [Hc ->]%elem_of_row_object. by apply (gr_wf _ _ _ _ _ Hg).
Qed.
Lemma synced_append : fields_get tbl TABLE_REDUCER_MAP = Some AppendOnly → pk = "id".
Proof using. clear synced. unfold getPkColumn. intros H. destruct (seqb tbl "hosts") eqn:E1; [by apply seqb_true in E1 as ->|].
  by destruct (seqb tbl "cluster_config") eqn:E2; [apply seqb_true in E2 as ->|]. Qed.
Lemma update_applied_other pk0 sets k db db' b tbl' : update_applied sch tbl pk0 sets k db = Ok (db', b) → tbl' ≠ tbl →
  table_of tbl' db' = table_of tbl' db.
Proof using.
  clear synced. unfold update_applied. destruct (update_pk _ _ _ _ _) as [[t n]|]; [|done]. cbn [result_bind]. intros [= <- <-] Hne.
  by apply with_table_other.
Qed.
Lemma insert_or_nothing_other cols db db' b tbl' : insert_or_nothing sch tbl cols db = Ok (db', b) → tbl' ≠ tbl →
  table_of tbl' db' = table_of tbl' db.
Proof using.
  clear synced. unfold insert_or_nothing. destruct (nonempty_insert cols); [|done]. cbn [result_bind].
  destruct (insert_ignore_pk _ _ _ _) as [[t n]|]; [|done]. cbn [result_bind]. intros [= <- <-] Hne. by apply with_table_other.
Qed.
(** An event writes its own table only. *)
Lemma apply_other e db db' b tbl' : cl_table_name e = tbl → applyEvent sch e db = Ok (db', b) → tbl' ≠ tbl →
  table_of tbl' db' = table_of tbl' db.
Proof using.
  clear synced. intros He Happ Hne.
  assert (∀ (b0 : bool) db0, Ok (db0, b0) = Ok (db', b) → table_of tbl' db0 = table_of tbl' db → table_of tbl' db' = table_of tbl' db) as Hsame
    by (by intros b0 db0 [= <- <-]).
  assert (∀ (A : Type) (x : result A) f, (∀ a, f a = Ok (db', b) → table_of tbl' db' = table_of tbl' db) → result_bind x f = Ok (db', b) →
    table_of tbl' db' = table_of tbl' db) as Hbind by (intros A [a|] f Hf; [apply Hf|done]).
  assert (applyLWWReducer sch e db = Ok (db', b) → table_of tbl' db' = table_of tbl' db) as Hlww.
  { unfold applyLWWReducer. rewrite He. destruct (parseReducerRowData e) as [data|]; [|intros H; by apply (Hsame _ _ H)].
    cbv zeta. destruct (violatesMessageRoleInvariant _ _); [intros H; by apply (Hsame _ _ H)|].
    apply Hbind. intros k. destruct (match k with Some _ => _ | None => _ end) as [[k' old]|].
    + destruct (_ && _); [intros H; by apply (Hsame _ _ H)|]. destruct (_ =? _)%nat; [intros H; by apply (Hsame _ _ H)|intros H; by eapply update_applied_other].
    + destruct (result_bind _ _) as [t|]; intros H; apply (Hsame _ _ H); [by apply with_table_other|done]. }
  unfold applyEvent in Happ. rewrite He in Happ. destruct (fields_get tbl TABLE_REDUCER_MAP) as [[|]|]; [|by apply Hlww..].
  unfold applyAppendOnlyReducer in Happ. rewrite He in Happ. destruct (parseReducerRowData e) as [data|]; [|by apply (Hsame _ _ Happ)].
  cbv zeta in Happ. destruct (violatesMessageRoleInvariant _ _); [by apply (Hsame _ _ Happ)|].
  destruct (negb _); [by apply (Hsame _ _ Happ)|]. destruct (present _); [|by eapply insert_or_nothing_other].
  revert Happ. apply Hbind. intros k. destruct (match k with Some _ => _ | None => _ end) as [[k' old]|]; [|intros H; by eapply insert_or_nothing_other].
  destruct (incoming_not_newer _ _); [intros H; by apply (Hsame _ _ H)|intros H; by eapply update_applied_other].
Qed.
(** Both reducers merge a whole row the same way. *)
Lemma append_good e k m r db : fields_get tbl TABLE_REDUCER_MAP = Some AppendOnly → good k m r → logs e (k, m, r) →
  good_table sch tbl (table_of tbl db) → unique_clash ts k r (table_of tbl db) = false →
  ∃ db' b, applyAppendOnlyReducer sch e db = Ok (db', b) ∧ table_of tbl db' = lww_merge k m r (table_of tbl db).
Proof using synced.
  intros Happ Hg Hlog Ht Hu. pose proof (gr_full _ _ _ _ _ Hg) as Hf. pose proof (synced_append Happ) as Hid.
  unfold applyAppendOnlyReducer. rewrite (parse_good e (k, m, r) Hg Hlog). destruct Hlog as (-> & _ & _). cbn [snd]. cbv zeta.
  pose proof (good_not_system k m r Hg) as Hrole.
  assert (violatesMessageRoleInvariant tbl (row_object ts r) = false) as ->.
  { unfold violatesMessageRoleInvariant. destruct (seqb tbl "messages"); [|done]. by apply negb_true_iff in Hrole. }
  pose proof (full_names _ _ _ _ _ Hf) as Hn.
  assert (forallb valid_column_name (row_object ts r).*1 = true) as ->.
  { apply forallb_forall. intros c Hc%list_elem_of_In. rewrite Forall_forall in Hn. by apply Hn. }
  cbn [negb]. pose proof (full_nodup _ _ _ _ _ Hf) as Hnd.
  rewrite (fields_get_NoDup "modified_at" (JStr m) _ Hnd (full_modified _ _ _ _ _ Hf)). cbn [present].
  pose proof (fields_get_NoDup _ _ _ Hnd (full_key _ _ _ _ _ Hf)) as Hk. rewrite Hid in Hk. rewrite Hk.
  cbn [default from_option id key_param result_bind]. pose proof (good_write k m r Hg) as Hw. rewrite Hid in *.
  unfold lww_merge. destruct (table_of tbl db !! k) as [old|] eqn:Eold; cbn [fmap option_fmap option_map].
  - unfold incoming_not_newer. rewrite (fields_get_NoDup "modified_at" (JStr m) _ Hnd (full_modified _ _ _ _ _ Hf)).
    cbn [default from_option id js_truthy]. rewrite (full_modified_nonempty _ _ _ _ _ Hf), andb_true_r. fold (stale m old).
    destruct (stale m old); [by exists db, false|]. unfold update_applied.
    pose proof (good_table_ok _ Ht) as Hok. rewrite Hid in Hok. rewrite (update_full _ _ _ k m _ old Hf Hok Eold) by (by rewrite Hw). cbn [result_bind].
    eexists _, _. split; [done|]. by rewrite table_of_with, Hw.
  - unfold insert_or_nothing.
    assert (nonempty_insert (row_object ts r) = Ok tt) as ->.
    { pose proof (full_key _ _ _ _ _ Hf) as Hin. destruct (row_object ts r); [by apply not_elem_of_nil in Hin|done]. }
    cbn [result_bind]. unfold insert_ignore_pk. rewrite (build_full _ _ _ k m Hf). cbn [result_bind]. unfold row_key.
    destruct (full_row_key _ _ _ _ _ Hf) as (-> & _). cbn [result_bind]. rewrite Eold, Hw. unfold put_row. rewrite Hu. cbn [result_bind].
    eexists _, _. split; [done|]. by rewrite table_of_with.
Qed.
Lemma apply_good e k m r db : good k m r → logs e (k, m, r) → good_table sch tbl (table_of tbl db) →
  unique_clash ts k r (table_of tbl db) = false →
  ∃ db' b, applyEvent sch e db = Ok (db', b) ∧ table_of tbl db' = lww_merge k m r (table_of tbl db) ∧
    ∀ tbl', tbl' ≠ tbl → table_of tbl' db' = table_of tbl' db.
Proof using synced.
  intros Hg Hlog Ht Hu. pose proof (synced_valid tbl synced) as Hv.
  assert (∃ db' b, applyEvent sch e db = Ok (db', b) ∧ table_of tbl db' = lww_merge k m r (table_of tbl db)) as (db' & b & Happ & Htab).
  { destruct (fields_get tbl TABLE_REDUCER_MAP) as [[|]|] eqn:Ered.
    - unfold applyEvent. rewrite (proj1 Hlog), Ered. by apply append_good.
    - destruct (applyLWW_full sch tbl e k m r db) as (db' & b & Happ & Htab & _); [|by apply good_table_ok|done|by exists db', b].
      split; [apply Hlog|]. split; [done|]. exists (row_object ts r). split; [by apply (parse_good e (k, m, r))|].
      rewrite (gr_healed _ _ _ _ _ Hg). split; [apply (gr_full _ _ _ _ _ Hg)|]. by rewrite (good_write k m r Hg).
    - exfalso. clear -synced Ered. unfold SYNCED_TABLES in synced.
      repeat (apply elem_of_cons in synced as [->|synced]; [done|]). by apply not_elem_of_nil in synced. }
  exists db', b. split_and!; [done..|]. intros tbl' Hne. eapply apply_other; [apply Hlog|exact Happ|done].
Qed.
End Rows.

(** ** Rows of several tables *)
Abbreviation kmr := (string * string * row)%type.
Definition of_table (tbl : string) (l : list (string * kmr)) : list kmr :=
  omap (λ x, if seqb x.1 tbl then Some x.2 else None) l.
Definition good_tagged (sch : string → table_schema) (x : string * kmr) : Prop :=
  x.1 ∈ SYNCED_TABLES ∧ good_row sch x.1 x.2.1.1 x.2.1.2 x.2.2.
Definition good_db (sch : string → table_schema) (db : sdb) : Prop :=
  ∀ tbl, tbl ∈ SYNCED_TABLES → good_table sch tbl (table_of tbl db).

Section Tagged.
Context (sch : string → table_schema).
Lemma of_table_app tbl l1 l2 : of_table tbl (l1 ++ l2) = of_table tbl l1 ++ of_table tbl l2.
Proof using. apply omap_app. Qed.
Lemma of_table_cons tbl x l : of_table tbl (x :: l) = (if seqb x.1 tbl then [x.2] else []) ++ of_table tbl l.
Proof using. unfold of_table. cbn [omap list_omap]. by destruct (seqb _ _). Qed.
Lemma elem_of_table tbl l x : x ∈ of_table tbl l ↔ (tbl, x) ∈ l.
Proof using.
  unfold of_table. rewrite list_elem_of_omap. split.
  - intros ([t y] & Hin & H). simpl in H. destruct (seqb t tbl) eqn:E; [|done]. apply seqb_true in E as ->. by injection H as ->.
  - intros Hin. exists (tbl, x). simpl. by rewrite seqb_refl.
Qed.
Lemma merge_app rows1 rows2 t : merge_all (rows1 ++ rows2) t = merge_all rows2 (merge_all rows1 t).
Proof using. unfold merge_all. apply foldl_app. Qed.

(** The rows to come hold no UNIQUE value of another row, table by table. *)
Definition tagged_apart (l : list (string * kmr)) (db : sdb) : Prop :=
  ∀ tbl, tbl ∈ SYNCED_TABLES → names_apart (sch tbl) (of_table tbl l) (table_of tbl db).

(** The hub merges the rows of the events, table by table. *)
Lemma events_good es l db :
  Forall2 (λ e x, good_tagged sch x ∧ logs sch x.1 e x.2) es l → good_db sch db → tagged_apart l db →
  ∃ db', apply_events sch es db = Ok db' ∧ good_db sch db' ∧
    ∀ tbl, tbl ∈ SYNCED_TABLES → table_of tbl db' = merge_all (of_table tbl l) (table_of tbl db).
Proof using.
  intros H. revert db. induction H as [|e [t [[k m] r]] es l [[Hs Hg] Hlog] _ IH]; intros db Hdb Hap; [by exists db|].
  cbn [apply_events]. cbn [fst snd] in *.
  pose proof (Hap t Hs) as Hapt. rewrite of_table_cons in Hapt. cbn [fst snd] in Hapt. rewrite seqb_refl in Hapt.
  apply names_apart_step in Hapt as [Hu Hapt].
  destruct (apply_good sch t Hs e k m r db Hg Hlog (Hdb t Hs) Hu) as (db1 & b & -> & Ht & Hother). cbn [result_bind].
  assert (tagged_apart l db1) as Hap1.
  { intros t' Ht'. destruct (decide (t' = t)) as [->|Hne]; [by rewrite Ht|].
    specialize (Hap t' Ht'). rewrite of_table_cons in Hap. cbn [fst snd] in Hap. rewrite (proj2 (seqb_false t t')) in Hap by done.
    by rewrite Hother. }
  assert (good_db sch db1) as Hdb1.
  { intros t' Ht'. destruct (decide (t' = t)) as [->|Hne]; [rewrite Ht; by apply good_merge, Hg; apply Hdb|].
    rewrite Hother by done. by apply Hdb. }
  destruct (IH db1 Hdb1 Hap1) as (db2 & -> & Hdb2 & Hall). exists db2. split_and!; [done..|]. intros t' Ht'.
  rewrite Hall, of_table_cons by done. cbn [fst snd]. rewrite merge_app. destruct (seqb t t') eqn:E.
  - apply seqb_true in E as <-. by rewrite Ht.
  - apply seqb_false in E. by rewrite Hother.
Qed.

(** The spoke merges the rows of the frames, table by table. *)
Definition row_of (x : string * kmr) : string * fields := (x.1, row_object (sch x.1) x.2.2).
Lemma response_good r p l db :
  rows_of r = row_of <$> l → Forall (good_tagged sch) l → good_db sch db → tagged_apart l db →
  let db' := (handleRowPullResponse sch r None (db, p)).1.1 in
  good_db sch db' ∧ ∀ tbl, tbl ∈ SYNCED_TABLES → table_of tbl db' = merge_all (of_table tbl l) (table_of tbl db).
Proof using.
  intros Hr Hl Hdb Hap. unfold handleRowPullResponse. cbn [fst snd apply_chunk]. unfold rows_of in Hr.
  assert (l = (λ x, (rr_table r, x.2)) <$> l) as Htag.
  { clear -Hr. revert Hr. generalize (rr_rows r). induction l as [|x l IH]; intros rows Hr; [done|]. destruct rows as [|f rows]; [done|].
    rewrite !fmap_cons in Hr. injection Hr as H1 H2 H3. rewrite fmap_cons, <-(IH rows) by done. by rewrite H1, <-surjective_pairing. }
  assert (rr_rows r = (λ x, row_object (sch (rr_table r)) x.2.2) <$> l) as Hrows.
  { apply (f_equal (fmap snd)) in Hr. rewrite <-!list_fmap_compose, list_fmap_id in Hr. rewrite Hr, Htag, <-!list_fmap_compose. done. }
  destruct (rr_rows r) as [|f fs] eqn:Ef; cbn [fst snd].
  { destruct l; [|done]. split; [done|]. intros tbl _. done. }
  destruct l as [|x0 l0]; [done|]. assert (rr_table r ∈ SYNCED_TABLES) as Hs.
  { rewrite Htag in Hl. rewrite fmap_cons in Hl. inversion Hl as [|? ? [Hs _] _]; subst. done. }
  set (tb := rr_table r) in *. set (rows := (λ x : string * kmr, x.2) <$> (x0 :: l0)).
  assert (f :: fs = (λ x : kmr, row_object (sch tb) x.2) <$> rows) as -> by (rewrite Hrows; subst rows; by rewrite <-list_fmap_compose).
  assert (good_rows sch tb rows) as Hrows'.
  { unfold good_rows. subst rows. apply Forall_fmap. rewrite Htag in Hl. rewrite Forall_fmap in Hl. eapply Forall_impl; [exact Hl|]. by intros x [_ Hx]. }
  assert (of_table tb (x0 :: l0) = rows) as Hof.
  { rewrite Htag. subst rows. clear. induction (x0 :: l0) as [|x l IH]; [done|]. rewrite !fmap_cons, of_table_cons. cbn [fst snd]. by rewrite seqb_refl, IH. }
  pose proof (Hap tb Hs) as Hapt. rewrite Hof in Hapt.
  pose proof (snapshot_good sch tb Hs rows db (Hdb tb Hs) Hrows' Hapt ltac:(done)) as Hsnap.
  destruct (applySnapshotRows sch tb _ db) as [db1 n]. cbn [fst] in Hsnap. subst db1.
  assert (∀ tbl, tbl ≠ tb → of_table tbl (x0 :: l0) = []) as Hoff.
  { intros tbl Hne. rewrite Htag. clear -Hne. induction (x0 :: l0) as [|x l IH]; [done|]. rewrite fmap_cons, of_table_cons. cbn [fst snd].
    by rewrite (proj2 (seqb_false _ _)), IH by done. }
  cbn [fst]. split.
  - intros t Ht. destruct (decide (t = tb)) as [->|Hne]; [rewrite table_of_with; apply merge_good; [by apply Hdb|done]|].
    rewrite with_table_other by done. by apply Hdb.
  - intros t Ht. destruct (decide (t = tb)) as [->|Hne]; [by rewrite table_of_with, Hof|]. by rewrite with_table_other, Hoff.
Qed.
End Tagged.

Lemma responses_good sch rs p l db :
  mjoin (rows_of <$> rs) = row_of sch <$> l → Forall (good_tagged sch) l → good_db sch db → tagged_apart sch l db →
  let db' := (handle_responses sch rs (db, p)).1 in
  ∀ tbl, tbl ∈ SYNCED_TABLES → table_of tbl db' = merge_all (of_table tbl l) (table_of tbl db).
Proof.
  unfold handle_responses. revert p l db. induction rs as [|r rs IH]; intros p l db Hr Hl Hdb Hap; [by destruct l|].
  rewrite fmap_cons in Hr. cbn [mjoin list_join] in Hr. symmetry in Hr. apply fmap_app_inv in Hr as (l1 & l2 & H1 & H2 & ->).
  apply Forall_app in Hl as [Hl1 Hl2]. assert (tagged_apart sch l1 db ∧ ∀ t, t ∈ SYNCED_TABLES →
    names_apart (sch t) (of_table t l2) (merge_all (of_table t l1) (table_of t db))) as [Hap1 Hap2].
  { split; intros t Ht; specialize (Hap t Ht); rewrite of_table_app in Hap; by apply names_apart_app in Hap as []. }
  destruct (response_good sch r p l1 db H1 Hl1 Hdb Hap1) as [Hdb1 Ht1].
  cbn [foldl]. destruct (handleRowPullResponse sch r None (db, p)) as [[db1 p1] res]. cbn [fst] in *.
  intros tbl Htbl. rewrite of_table_app, merge_app, <-Ht1 by done. apply IH; [done..| |done].
  intros t Ht. rewrite Ht1 by done. by apply Hap2.
Qed.

(** Merging rows that all stand in one table: each key gets that table's row, or
    keeps the one it has if that is not older. *)
Definition newest (new : row) (old : option row) : row :=
  match old with Some o => if later new o then new else o | None => new end.
Lemma merge_source sch tbl (source : table) rows t k :
  good_table sch tbl source → good_table sch tbl t →
  (∀ x, x ∈ rows → source !! x.1.1 = Some x.2 ∧ good_row sch tbl x.1.1 x.1.2 x.2) →
  merge_all rows t !! k =
    match source !! k with
    | Some r => if existsb (λ x, seqb x.1.1 k) rows then Some (newest r (t !! k)) else t !! k
    | None => t !! k
    end.
Proof.
  intros Hsrc Ht Hrows. revert t Ht. induction rows as [|[[k0 m] r] rows IH] using rev_ind; intros t Ht.
  { simpl. by destruct (source !! k). }
  assert (∀ x, x ∈ rows → source !! x.1.1 = Some x.2 ∧ good_row sch tbl x.1.1 x.1.2 x.2) as Hrows' by (intros x Hx; apply Hrows, elem_of_app; by left).
  destruct (Hrows (k0, m, r)) as [Hr Hg]; [apply elem_of_app; right; by left|]. cbn [fst snd] in *.
  rewrite merge_app. cbn [merge_all foldl fst snd]. rewrite existsb_app. cbn [existsb fst]. rewrite orb_false_r.
  set (t1 := merge_all rows t). pose proof (IH Hrows' t Ht) as Hk. fold t1 in Hk.
  assert (good_table sch tbl t1) as Ht1.
  { apply merge_good; [done|]. apply Forall_forall. intros x Hx. by apply Hrows'. }
  change (foldl _ _ [(k0, m, r)]) with (lww_merge k0 m r t1). unfold lww_merge.
  destruct (decide (k0 = k)) as [->|Hne].
  2: { rewrite (proj2 (seqb_false k0 k)) by done. rewrite orb_false_r. rewrite <-Hk.
       destruct (t1 !! k0); [destruct (stale m _); [done|]|]; by rewrite lookup_insert_ne. }
  rewrite seqb_refl, orb_true_r. rewrite Hr in *.
  assert (∀ o, t1 !! k = Some o → (if stale m o then t1 else <[k:=r]> t1) !! k = Some (newest r (Some o))) as Hmerge.
  { intros o Ho. destruct (Ht1 k o Ho) as [m' Hg']. rewrite (good_stale sch tbl t1 k m o m' Ht1 Ho (good_stamp _ _ _ _ _ Hg')).
    unfold newest, later. rewrite (good_stamp _ _ _ _ _ Hg), (good_stamp _ _ _ _ _ Hg'), sltb_sleb.
    destruct (sleb m m'); cbn [negb]; [done|apply lookup_insert_eq]. }
  assert (newest r (Some r) = r) as Hself by (unfold newest; by destruct (later r r)).
  destruct (existsb _ rows).
  - rewrite Hk in *. rewrite (Hmerge _ eq_refl). f_equal. destruct (t !! k) as [o|]; [|done]. unfold newest at 2 3.
    destruct (later r o) eqn:E; [done|]. unfold newest. by rewrite E.
  - rewrite Hk in *. destruct (t !! k) as [o|] eqn:Eo; [by apply Hmerge|]. by rewrite lookup_insert_eq.
Qed.

(** ** What is pushed *)
Section Pushes.
Context (sha : string → string) (sch : string → table_schema).
Context (listener : ChangeLogEvent → option string) (now : nat → string) (siteId : string).
Hypothesis clock_ok : ∀ n, timestamp_ok (now n).
Hypothesis site_ok : no_us siteId = true.
Hypothesis listener_ok : ∀ e, listener e = None.

(** The world after the entries [es] were committed and announced. *)
Definition logged_to (es : list ChangeLogEntry) (w : world) : world :=
  set_db (MkSdb (tables (w_db w)) (change_log (w_db w) ++ es)) w.
Definition announced (es : list ChangeLogEntry) (w : world) : world :=
  MkWorld (MkSdb (tables (w_db w)) (change_log (w_db w) ++ es)) (w_scopes w) (w_delivered w ++ (event_of <$> es)).
Lemma announced_app es1 es2 w : announced es2 (announced es1 w) = announced (es1 ++ es2) w.
Proof using. unfold announced. simpl. by rewrite fmap_app, !app_assoc. Qed.
Lemma announced_nil w : announced [] w = w.
Proof using. unfold announced. simpl. rewrite !app_nil_r. by destruct w as [[]]. Qed.
(** The entries that log the rows [xs] of a table. *)
Definition entries_for (tbl : string) (es : list ChangeLogEntry) (xs : list kmr) : Prop :=
  Forall2 (logs sch tbl) es xs ∧ Forall (λ e, cl_site_id e = siteId ∧ cl_table_name e = tbl) es.
Lemma entries_app tbl es1 es2 xs1 xs2 : entries_for tbl es1 xs1 → entries_for tbl es2 xs2 → entries_for tbl (es1 ++ es2) (xs1 ++ xs2).
Proof using. intros [H1 H2] [H3 H4]. split; [by apply Forall2_app|by apply Forall_app]. Qed.

Lemma bind_ok {A C} (m : M A) (k : A → M C) w w' a : m w = (w', Ok a) → bind m k w = k a w'.
Proof using. unfold bind. by intros ->. Qed.
Lemma push_row_ok tbl k r n w :
  table_of tbl (w_db w) !! k = Some r → log_below n (change_log (w_db w)) → 0 ≤ n ≤ 65535 →
  ∃ e, push_row sch now siteId tbl k w = (logged_to [e] w, Ok [cl_hlc e]) ∧ cl_site_id e = siteId ∧ cl_table_name e = tbl ∧
    (∀ m, logs sch tbl e (k, m, r)) ∧ log_below (n + 1) (change_log (w_db w) ++ [e]).
Proof using clock_ok site_ok.
  intros Hr Hlog Hn. set (nw := now (length (change_log (w_db w)))).
  destruct (next_hlc_spec n nw siteId (change_log (w_db w)) tbl k (json_stringify (JObj (row_object (sch tbl) r)))) as [Hgt Hbelow];
    [done|lia|apply clock_ok|done|].
  set (h := generateHlc nw (last_hlc (change_log (w_db w))) siteId) in *.
  exists (MkChange h tbl k siteId nw (json_stringify (JObj (row_object (sch tbl) r)))). split_and!; [|done..|exact Hbelow].
  unfold push_row. rewrite (bind_ok get_db _ w w (w_db w)) by done. rewrite Hr.
  rewrite (bind_ok _ _ w (logged_to [MkChange h tbl k siteId nw (json_stringify (JObj (row_object (sch tbl) r)))] w) h); [done|].
  unfold createChangeLogEntry. rewrite (bind_ok get_db _ w w (w_db w)) by done. cbv zeta. change (truthy None) with false. cbv iota.
  assert (existsb (λ e, seqb (cl_hlc e) h) (change_log (w_db w)) = false) as Hfresh; [|fold nw; fold h; by rewrite Hfresh].
  apply not_true_iff_false. intros (e & He%list_elem_of_In & Heq%seqb_true)%existsb_exists. pose proof (Hgt e He) as Hlt.
  rewrite Heq in Hlt. by rewrite sltb_irrefl in Hlt.
Qed.
Lemma push_rows_ok tbl xs n w :
  Forall (λ x, table_of tbl (w_db w) !! x.1.1 = Some x.2) xs →
  log_below n (change_log (w_db w)) → 0 ≤ n → n + Z.of_nat (length xs) ≤ 65536 →
  ∃ es, push_rows sch now siteId tbl ((λ x : kmr, x.1.1) <$> xs) w = (logged_to es w, Ok (cl_hlc <$> es)) ∧
    entries_for tbl es xs ∧ log_below (n + Z.of_nat (length xs)) (change_log (w_db w) ++ es).
Proof using clock_ok site_ok.
  intros Hxs. revert n w Hxs. induction xs as [|[[k m] r] xs IH]; intros n w Hxs Hlog Hn Hlen.
  { exists []. unfold logged_to. rewrite app_nil_r. simpl. split_and!; [by destruct w as [[]]|split; constructor|by rewrite Z.add_0_r]. }
  inversion Hxs as [|? ? Hr Hrest]; subst. cbn [fst snd] in Hr. rewrite fmap_cons. cbn [push_rows fst snd].
  rewrite length_cons in Hlen. destruct (push_row_ok tbl k r n w Hr Hlog) as (e & He & Hsite & Htab & Hlogs & Hb); [lia|].
  rewrite (bind_ok _ _ _ _ _ He). destruct (IH (n + 1) (logged_to [e] w)) as (es & Hrun & [H1 H2] & Hb'); [exact Hrest|exact Hb|lia|lia|].
  rewrite (bind_ok _ _ _ _ _ Hrun). exists (e :: es). unfold ret. split_and!.
  - unfold logged_to. simpl. by rewrite <-app_assoc.
  - split; by constructor.
  - simpl in Hb'. rewrite <-app_assoc in Hb'. rewrite length_cons, Nat2Z.inj_succ.
    replace (n + Z.succ (Z.of_nat (length xs))) with (n + 1 + Z.of_nat (length xs)) by lia. exact Hb'.
Qed.
Lemma emit_ok tbl hs w :
  for_each (λ hlc, bus_emit (Some listener) (MkEvent hlc tbl siteId)) hs w =
  (MkWorld (w_db w) (w_scopes w) (w_delivered w ++ ((λ h, MkEvent h tbl siteId) <$> hs)), Ok tt).
Proof using listener_ok.
  revert w. induction hs as [|h hs IH]; intros w; [simpl; rewrite app_nil_r; by destruct w|].
  cbn [for_each]. erewrite bind_ok by (unfold bus_emit; by rewrite listener_ok). rewrite IH. simpl. by rewrite <-app_assoc.
Qed.
Lemma push_batch_ok tbl xs n w :
  Forall (λ x, table_of tbl (w_db w) !! x.1.1 = Some x.2) xs →
  log_below n (change_log (w_db w)) → 0 ≤ n → n + Z.of_nat (length xs) ≤ 65536 →
  ∃ es, push_batch sch listener now siteId tbl ((λ x : kmr, x.1.1) <$> xs) w = (announced es w, Ok (length xs)) ∧
    entries_for tbl es xs ∧ log_below (n + Z.of_nat (length xs)) (change_log (w_db w) ++ es).
Proof using clock_ok site_ok listener_ok.
  intros Hxs Hlog Hn Hlen. destruct (push_rows_ok tbl xs n w Hxs Hlog Hn Hlen) as (es & Hrun & [H1 H2] & Hb).
  exists es. split_and!; [|done..]. unfold push_batch. erewrite bind_ok by (unfold transaction; by rewrite Hrun).
  erewrite bind_ok by apply emit_ok. unfold ret, announced. rewrite length_fmap, (Forall2_length _ _ _ H1). f_equal. f_equal.
  simpl. f_equal. rewrite <-list_fmap_compose. clear -H2. induction H2 as [|e es [Hs Ht] _ IH]; [done|].
  rewrite !fmap_cons, IH. unfold event_of, compose. by rewrite Hs, Ht.
Qed.
Lemma push_batches_ok fuel tbl xs n w : (length xs ≤ fuel)%nat →
  Forall (λ x, table_of tbl (w_db w) !! x.1.1 = Some x.2) xs →
  log_below n (change_log (w_db w)) → 0 ≤ n → n + Z.of_nat (length xs) ≤ 65536 →
  ∃ es, push_batches sch listener now siteId fuel tbl ((λ x : kmr, x.1.1) <$> xs) w = (announced es w, Ok (length xs)) ∧
    entries_for tbl es xs ∧ log_below (n + Z.of_nat (length xs)) (change_log (w_db w) ++ es).
Proof using clock_ok site_ok listener_ok.
  revert xs n w. induction fuel as [|fuel IH]; intros xs n w Hf Hxs Hlog Hn Hlen.
  { destruct xs; [|simpl in Hf; lia]. exists []. rewrite announced_nil. simpl. split_and!; [done|split; constructor|by rewrite Z.add_0_r, app_nil_r]. }
  destruct xs as [|x xs'] eqn:Ex.
  { exists []. rewrite announced_nil. simpl. split_and!; [done|split; constructor|by rewrite Z.add_0_r, app_nil_r]. }
  rewrite <-Ex in *. cbn [push_batches]. destruct ((λ x : kmr, x.1.1) <$> xs) as [|k ks] eqn:Ek; [by rewrite Ex in Ek|]. rewrite <-Ek.
  rewrite <-fmap_take, <-fmap_drop. set (N := BACKFILL_BATCH_SIZE).
  assert (0 < N)%nat as HN by (subst N; unfold BACKFILL_BATCH_SIZE; lia).
  assert (length xs = length (take N xs) + length (drop N xs))%nat as Hsplit by (rewrite <-length_app; by rewrite take_drop).
  assert (0 < length (take N xs))%nat as Hpos by (rewrite length_take, Ex; simpl; lia).
  rewrite <-(take_drop N xs) in Hxs. apply Forall_app in Hxs as [Hx1 Hx2].
  destruct (push_batch_ok tbl (take N xs) n w Hx1 Hlog Hn) as (es1 & Hrun1 & He1 & Hb1); [lia|].
  rewrite (bind_ok _ _ _ _ _ Hrun1).
  destruct (IH (drop N xs) (n + Z.of_nat (length (take N xs))) (announced es1 w)) as (es2 & Hrun2 & He2 & Hb2); [lia|exact Hx2|exact Hb1|lia|lia|].
  rewrite (bind_ok _ _ _ _ _ Hrun2). exists (es1 ++ es2). rewrite announced_app. unfold ret. rewrite <-Hsplit. split_and!; [done| |].
  - rewrite <-(take_drop N xs). by apply entries_app.
  - simpl in Hb2. rewrite <-app_assoc in Hb2. replace (n + Z.of_nat (length xs)) with (n + Z.of_nat (length (take N xs)) + Z.of_nat (length (drop N xs))) by lia.
    exact Hb2.
Qed.
End Pushes.

(** ** One round *)
Lemma stable_insert_last {A} (lt : A → A → bool) x l : (∀ y, y ∈ l → lt x y = false) → stable_insert lt x l = l ++ [x].
Proof.
  induction l as [|y l IH]; intros H; [done|]. simpl. rewrite (H y) by (by left). f_equal. apply IH. intros z Hz. apply H. by right.
Qed.
Lemma stable_sort_sorted_id {A} (lt : A → A → bool) l : StronglySorted (λ a b, lt b a = false) l → stable_sort lt l = l.
Proof.
  intros Hs. unfold stable_sort. assert (∀ acc, StronglySorted (λ a b, lt b a = false) (acc ++ l) →
    foldl (λ acc x, stable_insert lt x acc) acc l = acc ++ l) as H; [|by apply (H [])].
  clear Hs. induction l as [|x l IH]; intros acc Hs; [by rewrite app_nil_r|]. simpl. rewrite stable_insert_last.
  - rewrite IH; by rewrite <-app_assoc.
  - intros y Hy. apply (StronglySorted_app_1_elem_of (λ a b, lt b a = false) acc (x :: l)); [done..|by left].
Qed.

Lemma sorted_weaken {A} (R R' : A → A → Prop) l : (∀ a b, R a b → R' a b) → StronglySorted R l → StronglySorted R' l.
Proof. intros H. induction 1 as [|x l _ IH Hall]; constructor; [done|]. eapply Forall_impl; [exact Hall|]. apply H. Qed.

Section RoundFacts.
Context (sha : string → string) (sch : string → table_schema).
Hypothesis sha_nonempty : ∀ s, nonempty (sha s) = true.
Hypothesis sha_injective : ∀ s s', sha s = sha s' → s = s'.
Context (spoke hub : sdb).
Hypothesis spoke_good : good_db sch spoke.
Hypothesis hub_good : good_db sch hub.

Abbreviation listing db tbl := (fresh_entry sha sch tbl <$> backfillable tbl db).
Definition diff_of (tbl : string) : ConsistencyDiff := mergeDiffEntries (listing spoke tbl) (listing hub tbl).
Definition push_list (tbl : string) : list string := df_localOnly (diff_of tbl) ++ df_localNewerMismatch (diff_of tbl).
Definition pull_list (tbl : string) : list string := df_remoteOnly (diff_of tbl) ++ df_remoteNewerMismatch (diff_of tbl).
(** The rows of a table under a list of keys, with their times. *)
Definition keyed_rows (t : table) (pks : list string) : list kmr :=
  omap (λ k, (λ r, (k, default "" (stamp r), r)) <$> t !! k) pks.

Lemma holds_good tbl db k r : good_db sch db → tbl ∈ SYNCED_TABLES → holds tbl db k r ↔ table_of tbl db !! k = Some r.
Proof using.
  clear. intros Hdb Htbl. split; [by intros [? _]|]. intros Hr. split; [done|]. destruct (Hdb tbl Htbl k r Hr) as [m Hg]. apply Hg.
Qed.
Lemma lacks_good tbl db k : good_db sch db → tbl ∈ SYNCED_TABLES → lacks tbl db k ↔ table_of tbl db !! k = None.
Proof using.
  clear. intros Hdb Htbl. unfold lacks. rewrite eq_None_not_Some. split.
  - intros H [r Hr]. apply (H r). by apply holds_good.
  - intros H r Hr%holds_good; [|done..]. apply H. by exists r.
Qed.
(** Which keys travel. *)
Lemma lists_exact tbl k : tbl ∈ SYNCED_TABLES →
  (k ∈ push_list tbl ↔ ∃ r, table_of tbl spoke !! k = Some r ∧
     match table_of tbl hub !! k with None => True | Some r' => ¬ same_content (sch tbl) r r' ∧ later r r' = true end) ∧
  (k ∈ pull_list tbl ↔ ∃ r', table_of tbl hub !! k = Some r' ∧
     match table_of tbl spoke !! k with None => True | Some r => ¬ same_content (sch tbl) r r' ∧ later r r' = false end).
Proof using sha_nonempty sha_injective spoke_good hub_good.
  intros Htbl. unfold push_list, pull_list. rewrite !elem_of_app.
  assert (∀ k r, holds tbl spoke k r ∨ holds tbl hub k r → object_wf (sch tbl) r) as Hwf.
  { intros k0 r [[Hr _]|[Hr _]]; [destruct (spoke_good tbl Htbl k0 r Hr) as [m Hg]|destruct (hub_good tbl Htbl k0 r Hr) as [m Hg]]; apply (gr_wf _ _ _ _ _ Hg). }
  destruct (decide (NoDup (ts_columns (sch tbl)))) as [Hnd|Hnd].
  2: { assert (∀ db, good_db sch db → table_of tbl db = ∅) as Hempty.
       { intros db Hdb. apply map_empty. intros k0. apply eq_None_not_Some. intros [r Hr]. destruct (Hdb tbl Htbl k0 r Hr) as [m Hg].
         apply Hnd. rewrite <-(row_object_keys (sch tbl) r). apply (full_nodup _ _ _ _ _ (gr_full _ _ _ _ _ Hg)). }
       assert (∀ db, good_db sch db → listing db tbl = []) as Hlist.
       { intros db Hdb. unfold backfillable, rows_by_key. rewrite Hempty by done. by rewrite map_to_list_empty. }
       unfold diff_of. rewrite !Hlist, !Hempty by done. simpl. rewrite lookup_empty. set_solver. }
  pose proof (classes_exact sha sch tbl spoke hub k sha_nonempty sha_injective Hnd Hwf) as (H1 & H2 & H3 & H4).
  unfold diff_of. rewrite H1, H2, H3, H4. setoid_rewrite (holds_good tbl spoke k); [|done..]. setoid_rewrite (holds_good tbl hub k); [|done..].
  rewrite !lacks_good by done. split.
  - destruct (table_of tbl hub !! k); naive_solver.
  - destruct (table_of tbl spoke !! k); naive_solver.
Qed.

Context (listener : ChangeLogEvent → option string) (now : nat → string) (siteId : string).
Hypothesis clock_ok : ∀ n, timestamp_ok (now n).
Hypothesis site_ok : no_us siteId = true.
Hypothesis listener_ok : ∀ e, listener e = None.

(** The plan of a table from the hub's whole listing. *)
Definition right_cache (cache : option hash_cache) : Prop := ∀ c, cache = Some c → cache_right sha sch spoke c.
Lemma table_same db tbl : tables db = tables spoke → table_of tbl db = table_of tbl spoke.
Proof using. clear. unfold table_of. by intros ->. Qed.
Lemma plan_exact tbl db cache : tables db = tables spoke → right_cache cache →
  ∃ cache', plan_table sha sch tbl (whole sha sch hub tbl) db cache = (push_list tbl, pull_list tbl, cache') ∧ right_cache cache'.
Proof using sha_nonempty.
  intros Hdb Hc. assert (∀ c, cache = Some c → cache_right sha sch db c) as Hc'.
  { intros c ->. specialize (Hc c eq_refl). intros t pk h r Hh. rewrite (table_same db t Hdb). by apply Hc. }
  unfold plan_table, whole, listed. cbn [co_entries].
  pose proof (entries_fresh sha sch sha_nonempty tbl db cache Hc') as He.
  assert (right_cache (getBackfillableEntriesSorted sha sch tbl db cache).2) as Hright.
  { unfold getBackfillableEntriesSorted. pose proof (lookup_spec sha sch tbl (backfillable tbl db).*1 db cache Hc') as H. cbv zeta.
    destruct (getCachedRowStateHashes _ _ _ _ _ _) as [ch c']. destruct H as (_ & H & _). cbn [snd].
    intros c Hcc t pk h r Hh. rewrite <-(table_same db t Hdb). by apply (H c Hcc). }
  destruct (getBackfillableEntriesSorted sha sch tbl db cache) as [es cache'] eqn:E. cbn [fst snd] in *. exists cache'. split; [|done].
  rewrite stable_sort_sorted_id.
  - rewrite take_ge by (by rewrite length_fmap). subst es. unfold push_list, pull_list, diff_of.
    assert (backfillable tbl db = backfillable tbl spoke) as -> by (unfold backfillable; by rewrite (table_same db tbl Hdb)). done.
  - rewrite take_ge by (by rewrite length_fmap). eapply sorted_weaken; [|apply (fresh_sorted sha sch tbl hub)].
    intros a b Hab. unfold entry_before. by apply sltb_asym.
Qed.

Lemma keyed_rows_keys t pks : (∀ k, k ∈ pks → is_Some (t !! k)) → (λ x : kmr, x.1.1) <$> keyed_rows t pks = pks.
Proof using.
  clear. intros H. induction pks as [|k pks IH]; [done|]. unfold keyed_rows in *. cbn [omap list_omap].
  destruct (H k) as [r ->]; [by left|]. cbn [fmap option_fmap option_map]. rewrite fmap_cons. cbn [fst]. f_equal. apply IH. intros k' Hk'. apply H. by right.
Qed.
Lemma elem_of_keyed t pks x : x ∈ keyed_rows t pks ↔ x.1.1 ∈ pks ∧ t !! x.1.1 = Some x.2 ∧ x.1.2 = default "" (stamp x.2).
Proof using.
  clear. unfold keyed_rows. rewrite list_elem_of_omap. split.
  - intros (k & Hk & Hx). destruct (t !! k) as [r|] eqn:E; [|done]. by injection Hx as <-.
  - destruct x as [[k m] r]. simpl. intros (Hk & Hr & ->). exists k. by rewrite Hr.
Qed.
Definition pushed_rows (tbl : string) : list kmr := keyed_rows (table_of tbl spoke) (push_list tbl).
Definition pulls_of (tbl : string) : list (string * list string) := if (0 <? length (pull_list tbl))%nat then [(tbl, pull_list tbl)] else [].
Abbreviation remote := (everything sha sch hub SYNCED_TABLES).
Lemma listed_whole tbl : tbl ∈ SYNCED_TABLES → remote !! tbl = Some (whole sha sch hub tbl).
Proof using.
  clear. intros H. unfold everything. apply elem_of_list_to_map_1.
  - rewrite <-list_fmap_compose. rewrite (list_fmap_ext _ id) by done. rewrite list_fmap_id. apply synced_nodup.
  - apply list_elem_of_fmap. by exists tbl.
Qed.

Lemma backfill_table_ok tbl acc n w cache :
  tbl ∈ SYNCED_TABLES → tables (w_db w) = tables spoke → right_cache cache → log_below n (change_log (w_db w)) → 0 ≤ n →
  n + Z.of_nat (length (pushed_rows tbl)) ≤ 65536 →
  ∃ es cache' tot, backfill_table sha sch listener now siteId remote tbl acc (w, cache) = ((announced es w, cache'), Ok tot) ∧
    Forall2 (λ e x, logs sch tbl e x) es (pushed_rows tbl) ∧ tt_remoteOnly tot = tt_remoteOnly acc ++ pulls_of tbl ∧
    tt_backfilled tot = (tt_backfilled acc + length es)%nat ∧ right_cache cache' ∧
    log_below (n + Z.of_nat (length (pushed_rows tbl))) (change_log (w_db w) ++ es).
Proof using sha_nonempty sha_injective spoke_good hub_good clock_ok site_ok listener_ok.
  intros Htbl Hw Hc Hlog Hn Hlen. unfold backfill_table. rewrite listed_whole by done. cbn [fst snd].
  destruct (plan_exact tbl (w_db w) cache Hw Hc) as (cache' & -> & Hc').
  assert (∀ k, k ∈ push_list tbl → is_Some (table_of tbl spoke !! k)) as Hpush.
  { intros k Hk. apply (lists_exact tbl k Htbl) in Hk as (r & -> & _). by eexists. }
  pose proof (keyed_rows_keys _ _ Hpush) as Hkeys. fold (pushed_rows tbl) in Hkeys.
  assert (length (push_list tbl) = length (pushed_rows tbl)) as Hlens by (rewrite <-Hkeys at 1; apply length_fmap).
  destruct (push_batches_ok sch listener now siteId clock_ok site_ok listener_ok (length (push_list tbl)) tbl (pushed_rows tbl) n w)
    as (es & Hrun & [Hes _] & Hb); [lia| |done..|].
  { apply Forall_forall. intros x Hx. apply elem_of_keyed in Hx as (_ & Hx & _). by rewrite (table_same _ _ Hw). }
  rewrite Hkeys in Hrun. exists es, cache'. eexists. split_and!; [unfold bbind, lift_world, bret; cbn [fst snd]; by rewrite Hrun|done|..|done|done].
  - cbn [tt_remoteOnly planned]. unfold pulls_of. destruct (_ <? _)%nat; [done|by rewrite app_nil_r].
  - cbn [tt_backfilled planned]. by rewrite (Forall2_length _ _ _ Hes).
Qed.

(** The rows pushed, table by table. *)
Definition pushes (tbls : list string) : list (string * kmr) := mjoin ((λ t, (t,.) <$> pushed_rows t) <$> tbls).
Lemma backfill_tables_ok tbls acc n w cache :
  (∀ t, t ∈ tbls → t ∈ SYNCED_TABLES) → tables (w_db w) = tables spoke → right_cache cache → log_below n (change_log (w_db w)) → 0 ≤ n →
  n + Z.of_nat (length (pushes tbls)) ≤ 65536 →
  ∃ es cache' tot, backfill_tables sha sch listener now siteId remote tbls acc (w, cache) = ((announced es w, cache'), Ok tot) ∧
    Forall2 (λ e x, logs sch x.1 e x.2) es (pushes tbls) ∧ tt_remoteOnly tot = tt_remoteOnly acc ++ mjoin (pulls_of <$> tbls) ∧
    tt_backfilled tot = (tt_backfilled acc + length es)%nat ∧ right_cache cache'.
Proof using sha_nonempty sha_injective spoke_good hub_good clock_ok site_ok listener_ok.
  revert acc n w cache. induction tbls as [|t tbls IH]; intros acc n w cache Hin Hw Hc Hlog Hn Hlen.
  { exists [], cache, acc. rewrite announced_nil. simpl. split_and!; [done|constructor|by rewrite app_nil_r|by rewrite Nat.add_0_r|done]. }
  change (pushes (t :: tbls)) with (((t,.) <$> pushed_rows t) ++ pushes tbls) in *. rewrite length_app, length_fmap in Hlen.
  destruct (backfill_table_ok t acc n w cache) as (es1 & c1 & tot1 & Hrun1 & Hes1 & Hr1 & Hn1 & Hc1 & Hb1); [by apply Hin; left|done..|lia|].
  destruct (IH tot1 (n + Z.of_nat (length (pushed_rows t))) (announced es1 w) c1) as (es2 & c2 & tot2 & Hrun2 & Hes2 & Hr2 & Hn2 & Hc2);
    [intros t' Ht'; by apply Hin; right|done|done|done|lia|lia|].
  exists (es1 ++ es2), c2, tot2. cbn [backfill_tables]. unfold bbind. rewrite Hrun1, Hrun2, announced_app. split_and!; [done|..|done].
  - apply Forall2_app; [|done]. rewrite Forall2_fmap_r. eapply Forall2_impl; [exact Hes1|]. done.
  - rewrite Hr2, Hr1, fmap_cons. cbn [mjoin list_join]. by rewrite app_assoc.
  - rewrite Hn2, Hn1, length_app. lia.
Qed.

(** The frames of the pull carry rows of the hub, one for every key asked for. *)
Definition from_hub (x : string * kmr) : Prop :=
  good_tagged sch x ∧ table_of x.1 hub !! x.2.1.1 = Some x.2.2 ∧ x.2.1.1 ∈ pull_list x.1.
Lemma row_of_inj t k m r k' m' r' :
  good_row sch t k m r → good_row sch t k' m' r' → row_object (sch t) r = row_object (sch t) r' → k = k' ∧ r = r'.
Proof using.
  clear. intros Hg Hg' Heq. assert (r = r') as <- by (rewrite <-(good_write _ _ _ _ _ Hg), <-(good_write _ _ _ _ _ Hg'); by rewrite Heq).
  split; [|done]. pose proof (full_row_key _ _ _ _ _ (gr_full _ _ _ _ _ Hg)) as (H1 & _ & _).
  pose proof (full_row_key _ _ _ _ _ (gr_full _ _ _ _ _ Hg')) as (H2 & _ & _). rewrite H1 in H2. by injection H2.
Qed.
Lemma list_preimage {A C} (f : A → C) (P : A → Prop) ys : (∀ y, y ∈ ys → ∃ x, P x ∧ f x = y) → ∃ xs, ys = f <$> xs ∧ Forall P xs.
Proof using.
  clear. induction ys as [|y ys IH]; intros H; [by exists []|].
  destruct (H y) as (x & Hx & <-); [by left|]. destruct IH as (xs & -> & Hxs); [intros z Hz; apply H; by right|].
  exists (x :: xs). split; [done|by constructor].
Qed.
Lemma pulled_rows_good : ∃ l, rows_left sch hub (mjoin (pulls_of <$> SYNCED_TABLES)) (0, 0)%nat = row_of sch <$> l ∧
  Forall from_hub l ∧ ∀ tbl k, tbl ∈ SYNCED_TABLES → k ∈ pull_list tbl → ∃ m r, (tbl, (k, m, r)) ∈ l.
Proof using sha_nonempty sha_injective spoke_good hub_good.
  set (wanted := rows_left _ _ _ _).
  assert (∀ t pks, (t, pks) ∈ mjoin (pulls_of <$> SYNCED_TABLES) ↔ t ∈ SYNCED_TABLES ∧ pks = pull_list t ∧ pks ≠ []) as Hpulls.
  { intros t pks. rewrite list_elem_of_join. setoid_rewrite list_elem_of_fmap. unfold pulls_of. split.
    - intros (l & Hin & t' & -> & Ht'). destruct (Nat.ltb_spec 0 (length (pull_list t'))) as [Hl|Hl]; [|by apply not_elem_of_nil in Hin].
      apply list_elem_of_singleton in Hin as [= -> ->]. split_and!; [done..|]. by destruct (pull_list t'); [simpl in Hl; lia|].
    - intros (Ht & -> & Hne). eexists. split; [|by exists t]. destruct (pull_list t); [done|]. by left. }
  assert (∀ t f, (t, f) ∈ wanted ↔ t ∈ SYNCED_TABLES ∧ ∃ k r, k ∈ pull_list t ∧ table_of t hub !! k = Some r ∧ f = row_object (sch t) r) as Hw.
  { intros t f. subst wanted. rewrite elem_of_wanted. setoid_rewrite Hpulls. split.
    - intros (pks & k & r & (Ht & -> & _) & Hk & Hr & ->). split; [done|]. by exists k, r.
    - intros (Ht & k & r & Hk & Hr & ->). exists (pull_list t), k, r. split_and!; [done|done| |done..]. intros H. rewrite H in Hk. by apply not_elem_of_nil in Hk. }
  destruct (list_preimage (row_of sch) from_hub wanted) as (l & Hl & Hall).
  { intros [t f] (Ht & k & r & Hk & Hr & ->)%Hw. destruct (hub_good t Ht k r Hr) as [m Hg]. exists (t, (k, m, r)). done. }
  exists l. split_and!; [done..|]. intros tbl k Htbl Hk. pose proof Hk as (r & Hr & _)%(lists_exact tbl k Htbl).
  assert ((tbl, row_object (sch tbl) r) ∈ wanted) as Hin by (apply Hw; split; [done|by exists k, r]).
  rewrite Hl in Hin. apply list_elem_of_fmap in Hin as ([t [[k' m'] r']] & Heq & Hx). unfold row_of in Heq. cbn [fst snd] in Heq.
  injection Heq as <- Hobj. rewrite Forall_forall in Hall. destruct (Hall _ Hx) as ([_ Hg'] & _ & _). cbn [fst snd] in Hg'.
  destruct (hub_good tbl Htbl k r Hr) as [m Hg]. destruct (row_of_inj tbl k m r k' m' r' Hg Hg' Hobj) as [<- <-]. by exists m', r.
Qed.
End RoundFacts.

(** What a round makes of a key: the rows before and after, at the spoke and at
    the hub. *)
Definition reconciled (ts : table_schema) (s h s' h' : option row) : Prop :=
  match s, h with
  | None, None => s' = None ∧ h' = None
  | Some r, None | None, Some r => s' = Some r ∧ h' = Some r
  | Some r, Some r' =>
      (same_content ts r r' ∧ s' = s ∧ h' = h) ∨
      (¬ same_content ts r r' ∧
       ((later r r' = true ∧ s' = Some r ∧ h' = Some r) ∨ (later r' r = true ∧ s' = Some r' ∧ h' = Some r') ∨
        (stamp r = stamp r' ∧ s' = s ∧ h' = h)))
  end.

Section RoundOutcome.
Context (sha : string → string) (sch : string → table_schema) (spoke hub : sdb).
Hypothesis sha_nonempty : ∀ s, nonempty (sha s) = true.
Hypothesis sha_injective : ∀ s s', sha s = sha s' → s = s'.
Hypothesis spoke_good : good_db sch spoke.
Hypothesis hub_good : good_db sch hub.

Lemma existsb_key (rows : list kmr) k : existsb (λ x, seqb x.1.1 k) rows = true ↔ ∃ m r, (k, m, r) ∈ rows.
Proof using.
  rewrite existsb_exists. split.
  - intros ([[k' m] r] & Hin%list_elem_of_In & Heq%seqb_true). simpl in Heq. subst. by exists m, r.
  - intros (m & r & Hin). exists (k, m, r). split; [by apply list_elem_of_In|apply seqb_refl].
Qed.
(** Merging rows of [source], those under the keys for which [sent] holds. *)
Lemma merged_rows tbl (source t : table) rows k (sent : Prop) :
  good_table sch tbl source → good_table sch tbl t →
  (∀ x, x ∈ rows → source !! x.1.1 = Some x.2 ∧ good_row sch tbl x.1.1 x.1.2 x.2) →
  ((∃ m r, (k, m, r) ∈ rows) ↔ sent) →
  (sent → ∃ r, source !! k = Some r ∧ merge_all rows t !! k = Some (newest r (t !! k))) ∧
  (¬ sent → merge_all rows t !! k = t !! k).
Proof using.
  intros Hs Ht Hrows Hsent. rewrite (merge_source sch tbl source rows t k Hs Ht Hrows). split.
  - intros Hk. apply Hsent in Hk. pose proof Hk as (m & r & Hin). destruct (Hrows _ Hin) as [Hr _]. simpl in Hr. rewrite Hr.
    exists r. split; [done|]. by rewrite (proj2 (existsb_key rows k) Hk).
  - intros Hk. destruct (source !! k); [|done]. destruct (existsb _ rows) eqn:E; [|done]. exfalso. by apply Hk, Hsent, existsb_key.
Qed.

Lemma stamps_total tbl k k' r r' m m' : good_row sch tbl k m r → good_row sch tbl k' m' r' →
  later r r' = false → later r' r = false → stamp r = stamp r'.
Proof using.
  intros Hg Hg'. unfold later. rewrite (good_stamp _ _ _ _ _ Hg), (good_stamp _ _ _ _ _ Hg'). intros H1 H2. f_equal.
  destruct (decide (m = m')) as [?|[Hlt|Hlt]%sltb_total]; [done|congruence..].
Qed.
Lemma round_reconciles tbl k (s' h' : option row) : tbl ∈ SYNCED_TABLES →
  (k ∈ pull_list sha sch spoke hub tbl → ∃ r, table_of tbl hub !! k = Some r ∧ s' = Some (newest r (table_of tbl spoke !! k))) →
  (¬ k ∈ pull_list sha sch spoke hub tbl → s' = table_of tbl spoke !! k) →
  (k ∈ push_list sha sch spoke hub tbl → ∃ r, table_of tbl spoke !! k = Some r ∧ h' = Some (newest r (table_of tbl hub !! k))) →
  (¬ k ∈ push_list sha sch spoke hub tbl → h' = table_of tbl hub !! k) →
  reconciled (sch tbl) (table_of tbl spoke !! k) (table_of tbl hub !! k) s' h'.
Proof using sha_nonempty sha_injective spoke_good hub_good.
  intros Htbl. destruct (lists_exact sha sch sha_nonempty sha_injective spoke hub spoke_good hub_good tbl k Htbl) as [Hpush Hpull].
  rewrite Hpush, Hpull. intros Hs1 Hs2 Hh1 Hh2.
  destruct (table_of tbl spoke !! k) as [r|] eqn:Er, (table_of tbl hub !! k) as [r'|] eqn:Er'; simpl.
  - destruct (spoke_good tbl Htbl k r Er) as [m Hg]. destruct (hub_good tbl Htbl k r' Er') as [m' Hg'].
    destruct (decide (row_hash sha sch tbl r = row_hash sha sch tbl r')) as [Hsame|Hdiff];
      rewrite (hash_identifies sha sch sha_injective tbl r r') in *
        by (apply (gr_wf _ _ _ _ _ Hg) || apply (gr_wf _ _ _ _ _ Hg') ||
            (rewrite <-(row_object_keys (sch tbl) r); apply (full_nodup _ _ _ _ _ (gr_full _ _ _ _ _ Hg)))).
    { left. split_and!; [done|apply Hs2|apply Hh2]; by intros (x & [= <-] & Hno & _). }
    right. split; [done|]. unfold newest in *. destruct (later r r') eqn:E1.
    + left. split_and!; [done|apply Hs2; intros (x & [= <-] & _ & Hno); congruence|]. destruct Hh1 as (x & [= <-] & ->); [by exists r|by rewrite E1].
    + destruct Hs1 as (x & [= <-] & ->); [by exists r'|]. rewrite Hh2 by (intros (x & [= <-] & _ & Hno); congruence).
      destruct (later r' r) eqn:E2; [by right; left|].
      right. right. split_and!; [by eapply (stamps_total tbl k k)|done..].
  - destruct Hh1 as (x & [= <-] & ->); [by exists r|]. split; [|done]. apply Hs2. by intros (x & Hno & _).
  - destruct Hs1 as (x & [= <-] & ->); [by exists r'|]. split; [done|]. apply Hh2. by intros (x & Hno & _).
  - split; [apply Hs2|apply Hh2]; by intros (x & Hno & _).
Qed.
End RoundOutcome.

(** No two rows of the hosts under different keys hold one UNIQUE value. *)
Definition tables_apart (ts : table_schema) (t1 t2 : table) : Prop :=
  let holds k r := t1 !! k = Some r ∨ t2 !! k = Some r in
  ∀ k r k' r', holds k r → holds k' r' → k ≠ k' → unique_conflict ts r r' = false.

(** C32: a round of reconciliation brings spoke and hub together.  Given the hub's
    whole listing, the round succeeds: it logs and announces one entry per row to
    push and changes no table.  When the hub has applied those entries and the
    spoke the frames that carry the rows it asked for, however they are cut into
    frames, then under every key of every synced table both hosts hold the row
    that only one of them had, or the one stamped later when the contents
    differed; only rows with different contents and the same stamp stay apart.
    Rows are whole and stamped, no two rows of the hosts under different keys
    share the value of a UNIQUE index, and the pushes fit the clock's counter.
    Two hosts that gave one name to rows of different ids do not come together
    ([same_name_stays_apart]). *)
Theorem backfill_reconciles sha sch listener now siteId spoke hub w cache n :
  (∀ s, nonempty (sha s) = true) → (∀ s s', sha s = sha s' → s = s') →
  (∀ i, timestamp_ok (now i)) → no_us siteId = true → (∀ e, listener e = None) →
  good_db sch spoke → good_db sch hub →
  (∀ tbl, tbl ∈ SYNCED_TABLES → tables_apart (sch tbl) (table_of tbl spoke) (table_of tbl hub)) →
  w_db w = spoke → right_cache sha sch spoke cache →
  log_below n (change_log spoke) → 0 ≤ n → n + Z.of_nat (length (pushes sha sch spoke hub SYNCED_TABLES)) ≤ 65536 →
  ∃ es cache' tot hub',
    executeBackfill sha sch listener now siteId (everything sha sch hub SYNCED_TABLES) (w, cache) = ((announced es w, cache'), Ok tot) ∧
    tt_backfilled tot = length es ∧ apply_events sch es hub = Ok hub' ∧
    ∀ rs p, mjoin (rows_of <$> rs) = rows_left sch hub (tt_remoteOnly tot) (0, 0)%nat →
    let spoke' := (handle_responses sch rs (w_db (announced es w), p)).1 in
    ∀ tbl k, tbl ∈ SYNCED_TABLES →
      reconciled (sch tbl) (table_of tbl spoke !! k) (table_of tbl hub !! k) (table_of tbl spoke' !! k) (table_of tbl hub' !! k).
Proof.
  intros Hne Hinj Hclock Hsite Hlis Hspoke Hhub Hapart Hw Hcache Hlog Hn Hlen.
  destruct (backfill_tables_ok sha sch Hne Hinj spoke hub Hspoke Hhub listener now siteId Hclock Hsite Hlis SYNCED_TABLES (MkTotals 0 0 []) n w cache)
    as (es & cache' & tot & Hrun & Hes & Hro & Hcount & _); [done|by rewrite Hw|done|by rewrite Hw|done|done|].
  assert (∀ x, x ∈ pushes sha sch spoke hub SYNCED_TABLES ↔
    x.1 ∈ SYNCED_TABLES ∧ x.2.1.1 ∈ push_list sha sch spoke hub x.1 ∧ table_of x.1 spoke !! x.2.1.1 = Some x.2.2 ∧ x.2.1.2 = default "" (stamp x.2.2)) as Hpush.
  { intros [t x]. unfold pushes. rewrite list_elem_of_join. setoid_rewrite list_elem_of_fmap. cbn [fst snd]. split.
    - intros (l & Hin & t' & -> & Ht'). apply list_elem_of_fmap in Hin as (x' & [= -> ->] & Hx'). split; [done|]. by apply elem_of_keyed.
    - intros (Ht & Hx). exists ((t,.) <$> pushed_rows sha sch spoke hub t). split; [|by exists t]. apply list_elem_of_fmap. exists x.
      split; [done|]. by apply elem_of_keyed. }
  assert (Forall (good_tagged sch) (pushes sha sch spoke hub SYNCED_TABLES)) as Hgood.
  { apply Forall_forall. intros [t [[k m] r]] (Ht & _ & Hr & Hm)%Hpush. cbn [fst snd] in *. destruct (Hspoke t Ht k r Hr) as [m' Hg].
    split; [done|]. cbn [fst snd]. rewrite Hm, (good_stamp _ _ _ _ _ Hg). exact Hg. }
  destruct (events_good sch es (pushes sha sch spoke hub SYNCED_TABLES) hub) as (hub' & Happly & _ & Hhub'); [|done| |].
  { clear -Hes Hgood. revert Hgood. induction Hes as [|e x es l He _ IH]; [constructor|]. intros [Hx Hl]%Forall_cons. constructor; [done|by apply IH]. }
  { intros t Ht k1 r1 k2 r2 H1 H2. apply (Hapart t Ht).
    - destruct H1 as [?|[m (_ & _ & ? & _)%elem_of_table%Hpush]]; [by right|by left].
    - destruct H2 as [?|[m (_ & _ & ? & _)%elem_of_table%Hpush]]; [by right|by left]. }
  exists es, cache', tot, hub'. split_and!; [exact Hrun|by rewrite Hcount|done|]. intros rs p Hrs spoke' tbl k Htbl.
  destruct (pulled_rows_good sha sch Hne Hinj spoke hub Hspoke Hhub) as (l & Hl & Hfrom & Hall).
  rewrite Hro in Hrs. cbn [tt_remoteOnly app] in Hrs. rewrite Hl in Hrs.
  assert (Forall (good_tagged sch) l) as Hlg by (eapply Forall_impl; [exact Hfrom|by intros x [? _]]).
  assert (∀ t, table_of t (w_db (announced es w)) = table_of t spoke) as Hsame by (intros t; unfold table_of, announced; simpl; by rewrite Hw).
  assert (good_db sch (w_db (announced es w))) as Hspoke1 by (intros t Ht; rewrite Hsame; by apply Hspoke).
  assert (tagged_apart sch l (w_db (announced es w))) as Hap1.
  { rewrite Forall_forall in Hfrom. intros t Ht k1 r1 k2 r2 H1 H2. rewrite Hsame in H1, H2. apply (Hapart t Ht).
    - destruct H1 as [?|[m Hx%elem_of_table]]; [by left|]. right. by destruct (Hfrom _ Hx) as (_ & ? & _).
    - destruct H2 as [?|[m Hx%elem_of_table]]; [by left|]. right. by destruct (Hfrom _ Hx) as (_ & ? & _). }
  pose proof (responses_good sch rs p l _ Hrs Hlg Hspoke1 Hap1 tbl Htbl) as Hs'. cbv zeta in Hs'. fold spoke' in Hs'. rewrite Hsame in Hs'.
  rewrite Hs', (Hhub' tbl Htbl). rewrite Forall_forall in Hfrom, Hgood.
  destruct (merged_rows sch tbl (table_of tbl hub) (table_of tbl spoke) (of_table tbl l) k (k ∈ pull_list sha sch spoke hub tbl)) as [Hs1 Hs2];
    [by apply Hhub|by apply Hspoke|intros x Hx%elem_of_table; by destruct (Hfrom _ Hx) as ([_ ?] & ? & _)| |].
  { setoid_rewrite elem_of_table. split; [intros (m & r & Hx); by destruct (Hfrom _ Hx) as (_ & _ & ?)|by apply Hall]. }
  destruct (merged_rows sch tbl (table_of tbl spoke) (table_of tbl hub) (of_table tbl (pushes sha sch spoke hub SYNCED_TABLES)) k
    (k ∈ push_list sha sch spoke hub tbl)) as [Hh1 Hh2];
    [by apply Hspoke|by apply Hhub|intros x Hx%elem_of_table; split; [by apply Hpush in Hx as (_ & _ & ? & _)|by apply (Hgood _ Hx)]| |].
  { setoid_rewrite elem_of_table. setoid_rewrite Hpush. cbn [fst snd]. split; [by intros (m & r & _ & ? & _)|]. intros Hk.
    pose proof Hk as (r & Hr & _)%(lists_exact sha sch Hne Hinj spoke hub Hspoke Hhub tbl k Htbl). by exists (default "" (stamp r)), r. }
  by apply (round_reconciles sha sch spoke hub Hne Hinj Hspoke Hhub tbl k).
Qed.

(** *** An example *)
Definition example_db (rows : list (string * row)) : sdb := MkSdb {["threads" := list_to_map rows]} [].
Definition example_spoke : sdb := example_db
  [("a", thread_row "a" "new" "2026-01-02"); ("b", thread_row "b" "x" "2026-01-01"); ("t", thread_row "t" "p" "2026-01-03")].
Definition example_hub : sdb := example_db
  [("a", thread_row "a" "old" "2026-01-01"); ("c", thread_row "c" "y" "2026-01-01"); ("t", thread_row "t" "q" "2026-01-03")].
Lemma thread_good k c m : nonempty m = true → good_row thread_schema "threads" k m (thread_row k c m).
Proof.
  intros Hm. assert (row_object (thread_schema "threads") (thread_row k c m) = thread_data k c m) as Hobj by done. split.
  - rewrite Hobj. by apply thread_full.
  - intros col. unfold thread_row, thread_data, write_all. cbn [foldl fst snd ts_columns thread_schema].
    rewrite !lookup_insert_is_Some, lookup_empty. unfold thread_columns. rewrite !elem_of_cons. unfold is_Some. set_solver.
  - intros col Hcol. repeat (apply elem_of_cons in Hcol as [->|Hcol]; [done|]). by apply not_elem_of_nil in Hcol.
  - done.
  - done.
Qed.
Lemma example_good rows : Forall (λ kr, ∃ c m, nonempty m = true ∧ kr.2 = thread_row kr.1 c m) rows → good_db thread_schema (example_db rows).
Proof.
  intros Hrows tbl Htbl k r. unfold table_of, example_db. cbn [tables]. destruct (decide ("threads" = tbl)) as [<-|Hne].
  - rewrite lookup_singleton_eq. simpl. intros Hr%elem_of_list_to_map_2. rewrite Forall_forall in Hrows.
    destruct (Hrows _ Hr) as (c & m & Hm & Heq). simpl in Heq. subst r. exists m. by apply thread_good.
  - rewrite lookup_singleton_ne by done. simpl. by rewrite lookup_empty.
Qed.
Lemma example_spoke_good : good_db thread_schema example_spoke.
Proof. apply example_good. repeat constructor; eexists _, _; (split; [|reflexivity]); done. Qed.
Lemma example_hub_good : good_db thread_schema example_hub.
Proof. apply example_good. repeat constructor; eexists _, _; (split; [|reflexivity]); done. Qed.
Lemma example_apart tbl : tbl ∈ SYNCED_TABLES → tables_apart (thread_schema tbl) (table_of tbl example_spoke) (table_of tbl example_hub).
Proof.
  intros _ k r k' r' Hr _ _. assert (tbl = "threads") as ->; [|done]. destruct (decide ("threads" = tbl)) as [->|Hne]; [done|]. exfalso.
  assert (∀ rows, table_of tbl (example_db rows) = ∅) as Hempty.
  { intros rows. unfold table_of, example_db. cbn [tables]. by rewrite lookup_singleton_ne. }
  unfold example_spoke, example_hub in Hr. rewrite !Hempty, !lookup_empty in Hr. by destruct Hr.
Qed.
Definition example_world : world := MkWorld example_spoke [] [].
Definition example_round : (world * option hash_cache) * result totals :=
  executeBackfill sample_sha thread_schema (λ _, None) (λ _, ts1) "s1"
    (everything sample_sha thread_schema example_hub SYNCED_TABLES) (example_world, Some ∅).

Lemma backfill_reconciles_witness :
  example_round.2 = Ok (MkTotals 2 1 [("threads", ["c"; "t"])]) ∧
  ∃ es cache' tot hub', example_round = ((announced es example_world, cache'), Ok tot) ∧ tt_backfilled tot = length es ∧
    apply_events thread_schema es example_hub = Ok hub' ∧
    ∀ rs p, mjoin (rows_of <$> rs) = rows_left thread_schema example_hub (tt_remoteOnly tot) (0, 0)%nat →
    let spoke' := (handle_responses thread_schema rs (w_db (announced es example_world), p)).1 in
    ∀ tbl k, tbl ∈ SYNCED_TABLES →
      reconciled (thread_schema tbl) (table_of tbl example_spoke !! k) (table_of tbl example_hub !! k)
        (table_of tbl spoke' !! k) (table_of tbl hub' !! k).
Proof.
  split; [by vm_compute|].
  apply (backfill_reconciles sample_sha thread_schema (λ _, None) (λ _, ts1) "s1" example_spoke example_hub example_world (Some ∅) 0
    (λ s, eq_refl) (λ s s' H, f_equal (λ x, match x with String _ y => y | _ => "" end) H) (λ _, eq_refl) eq_refl (λ _, eq_refl)
    example_spoke_good example_hub_good example_apart eq_refl).
  - intros c [= <-] tbl pk h r Hh. exact (False_ind _ (lookup_empty_Some _ _ Hh)).
  - constructor.
  - done.
  - by vm_compute.
Defined.

(** *** One name on two hosts

    Each host gave the name to a skill of its own: the hub refuses the spoke's
    row, the spoke cannot write the hub's, and every round finds the same
    difference. *)
Definition skill_db (id m : string) : sdb :=
  match apply_events named_schema [skill_event id "deploy" m "h"] (MkSdb ∅ []) with Ok db => db | Throw _ => MkSdb ∅ [] end.
Definition skills_of (db : sdb) : list string := (map_to_list (table_of "skills" db)).*1.
Example same_name_stays_apart :
  let spoke := skill_db "a" "2026-01-01" in
  let hub := skill_db "b" "2026-01-02" in
  let '((w', _), tot) := executeBackfill sample_sha named_schema (λ _, None) (λ _, ts1) "s1"
    (everything sample_sha named_schema hub SYNCED_TABLES) (MkWorld spoke [] [], None) in
  match tot, apply_events named_schema (change_log (w_db w')) hub with
  | Ok tot, Ok hub' =>
      tt_backfilled tot = 1%nat ∧ tt_remoteOnly tot = [("skills", ["b"])] ∧ skills_of hub' = ["b"] ∧
      skills_of (applySnapshotRows named_schema "skills" (snd <$> rows_left named_schema hub (tt_remoteOnly tot) (0, 0)%nat) (w_db w')).1 = ["a"]
  | _, _ => False
  end.
Proof. vm_compute. repeat split; reflexivity. Qed.

(** *** An acknowledged pull skips what was logged meanwhile

    The hub moves the peer's cursor to its own present, so an entry it had logged
    for the peer while the pull ran is no longer missed: it is not drained, and
    the row waits for the next comparison. *)
Example ack_skips_missed :
  let n := hub_node [sample_entry 1] ∅ in
  let ts := "2026-01-01T00:00:09.000Z" in
  missed "p" (last_sent_to "p" (nd_sync n)) (change_log (nd_db n)) = [sample_entry 1] ∧
  match handleRowPullAck toy_encrypt toy_nonces (λ _, true) true ts "s1" "p" n with
  | (n', Ok tt) => nd_sent n' = [] ∧ missed "p" (last_sent_to "p" (nd_sync n')) (change_log (nd_db n')) = []
  | _ => False
  end.
Proof. vm_compute. split; [reflexivity|split; reflexivity]. Qed.
