(* ===== verification/WarmCompaction.v ===== *)
(** * Compaction of the stored context (packages/agent/src/warm-compaction.ts)

    Between turns the loop keeps the messages it sent; when they outgrow the
    budget, old tool results are replaced by stubs and thinking blocks are
    dropped from old tool calls.  What is before the last user message may
    change, what is after it may not, and a second pass must change nothing: the
    provider caches the prefix by its bytes.  Contents are UTF-8 strings measured
    in UTF-16 code units; the count of tokens, [countContentTokens] with its memo
    tables left out, is an argument. *)
From Stdlib Require Import Ascii.
From S2P Require Import Prelude Json Text TokenCount Reducers.

Record warm_message : Type := MkWarm {
  wm_role : llm_role; wm_content : llm_content; wm_tool_use_id : option string
}.
Definition with_content (c : string) (m : warm_message) : warm_message := MkWarm (wm_role m) (CText c) (wm_tool_use_id m).

(** ** Thinking blocks *)
Definition quoted (s : string) : text := 34 :: lit s ++ [34].
Definition hasStrippableThinking (content : string) : bool :=
  includes_text (quoted "thinking") (utf16 content) || includes_text (quoted "redacted_thinking") (utf16 content).
(** [b && b.type !== "thinking" && b.type !== "redacted_thinking"]. *)
Definition kept_block (b : json) : bool :=
  js_truthy b && match as_string (json_get "type" b) with Some t => negb (seqb t "thinking") && negb (seqb t "redacted_thinking") | None => true end.
Definition stripThinkingFromToolCall (content : string) : string :=
  if negb (hasStrippableThinking content) then content
  else match json_parse content with
       | Some (JArr parsed) =>
           let kept := List.filter kept_block parsed in
           if (0 <? length kept)%nat && (length kept <? length parsed)%nat then json_stringify (JArr kept) else content
       | _ => content
       end.

(** ** Stubs *)
Definition COLD_COMPACTION_THRESHOLD : nat := 500.
Definition computeRecentWindow (contextWindow : Z) : Z := Z.max 4 (Z.min 20 (contextWindow / 2500)).

(** The bytes of code units; a surrogate without its partner is written alone. *)
Definition byte_of (z : Z) : ascii := ascii_of_nat (Z.to_nat z).
Definition utf8_point (c : Z) : list ascii :=
  if c <? 128 then [byte_of c]
  else if c <? 2048 then [byte_of (192 + c / 64); byte_of (128 + c mod 64)]
  else if c <? 65536 then [byte_of (224 + c / 4096); byte_of (128 + c / 64 mod 64); byte_of (128 + c mod 64)]
  else [byte_of (240 + c / 262144); byte_of (128 + c / 4096 mod 64); byte_of (128 + c / 64 mod 64); byte_of (128 + c mod 64)].
Fixpoint utf8_units (t : text) : list ascii :=
  match t with
  | [] => []
  | h :: t' =>
      match t' with
      | l :: t'' =>
          if (55296 <=? h) && (h <? 56320) && (56320 <=? l) && (l <? 57344)
          then utf8_point (65536 + (h - 55296) * 1024 + (l - 56320)) ++ utf8_units t''
          else utf8_point h ++ utf8_units t'
      | [] => utf8_point h
      end
  end.
Definition of_text (t : text) : string := of_chars (utf8_units t).
(** [s.slice(0, 200).trimEnd()]. *)
Definition preview (original : string) : string := of_text (reverse (drop_ws (reverse (take 200 (utf16 original))))).
Definition warmToolResultStub (toolUseId : string) (originalLength : Z) (original : string) : string :=
  "[Tool result truncated for inline display — " +:+ of_chars (print_Z originalLength) +:+
  " chars stored. Full content: query SELECT content FROM messages WHERE tool_name='" +:+ toolUseId +:+ "']" +:+
  String (ascii_of_nat 10) (preview original).

(** ** The compaction *)
Record CompactStoredMessagesOptions : Type := MkCompact {
  recentWindow : nat; contextWindow : Z; truncationTargetTokens : Z; precomputedEstimate : option Z
}.
Record CompactStoredMessagesResult : Type := MkCompacted { compacted : bool; tokensSaved : Z }.

Section Compaction.
Context (count : llm_content → Z).
Definition cost (m : warm_message) : Z := count (wm_content m).

Fixpoint last_user (i : nat) (ms : list warm_message) : option nat :=
  match ms with
  | [] => None
  | m :: ms' => match last_user (S i) ms' with
                | Some j => Some j
                | None => if bool_decide (wm_role m = RUser) then Some i else None
                end
  end.
Definition compaction_boundary (opts : CompactStoredMessagesOptions) (ms : list warm_message) : nat :=
  match last_user 0 ms with Some i => i | None => (length ms - recentWindow opts)%nat end.

(** The stub of an old tool result, and the rest of an old tool call. *)
Definition stubbed (m : warm_message) : option warm_message :=
  match wm_role m, wm_content m, wm_tool_use_id m with
  | RToolResult, CText content, Some id =>
      if (length (utf16 content) <=? COLD_COMPACTION_THRESHOLD)%nat then None
      else if nonempty id then Some (with_content (warmToolResultStub id (text_len (utf16 content)) content) m)
      else None
  | _, _, _ => None
  end.
Definition stripped (m : warm_message) : option warm_message :=
  match wm_role m, wm_content m with
  | RToolCall, CText content =>
      if negb (hasStrippableThinking content) then None
      else let c := stripThinkingFromToolCall content in if seqb c content then None else Some (with_content c m)
  | _, _ => None
  end.

Fixpoint truncate_results (n : nat) (ms : list warm_message) : list warm_message * CompactStoredMessagesResult :=
  match n, ms with
  | S n', m :: ms' =>
      let '(rest, r) := truncate_results n' ms' in
      match stubbed m with
      | Some m' => (m' :: rest, MkCompacted true (cost m - cost m' + tokensSaved r))
      | None => (m :: rest, r)
      end
  | _, _ => (ms, MkCompacted false 0)
  end.
Fixpoint strip_calls (n : nat) (ms : list warm_message) (threshold estimate : Z) : list warm_message * CompactStoredMessagesResult :=
  match n, ms with
  | S n', m :: ms' =>
      if estimate <=? threshold then (ms, MkCompacted false 0)
      else match stripped m with
           | Some m' =>
               let saved := cost m - cost m' in
               let '(rest, r) := strip_calls n' ms' threshold (estimate - saved) in
               (m' :: rest, MkCompacted true (saved + tokensSaved r))
           | None => let '(rest, r) := strip_calls n' ms' threshold estimate in (m :: rest, r)
           end
  | _, _ => (ms, MkCompacted false 0)
  end.
Definition tokens (ms : list warm_message) : Z := foldr (λ m acc, cost m + acc) 0 ms.

Definition compactStoredMessagesInPlace (ms : list warm_message) (opts : CompactStoredMessagesOptions)
    : list warm_message * CompactStoredMessagesResult :=
  let boundary := compaction_boundary opts ms in
  let '(ms1, r1) := truncate_results boundary ms in
  let estimate := match precomputedEstimate opts with Some e => e - tokensSaved r1 | None => tokens ms1 end in
  let '(ms2, r2) := strip_calls boundary ms1 (truncationTargetTokens opts) estimate in
  (ms2, MkCompacted (compacted r1 || compacted r2) (tokensSaved r1 + tokensSaved r2)).
End Compaction.

(** ** What a parse yields is in normal form *)
Lemma strip_zeros_wf n m e : (Z.to_nat (- e) ≤ n)%nat → e ≤ 0 → json_wf (strip_zeros n m e).
Proof.
  revert m e. induction n as [|n IH]; intros m e Hn He; cbn [strip_zeros]; [left; lia|].
  destruct (e <? 0) eqn:E; cbn [andb]; [|left; apply Z.ltb_ge in E; lia]. apply Z.ltb_lt in E.
  destruct (m mod 10 =? 0) eqn:Em; [apply IH; lia|right]. split; [done|by apply Z.eqb_neq].
Qed.
Lemma make_num_wf m e : json_wf (make_num m e).
Proof. unfold make_num. destruct (0 <=? e) eqn:E; [by left|]. apply Z.leb_gt in E. apply strip_zeros_wf; lia. Qed.
Lemma parse_num_wf s v r : parse_num s = Some (v, r) → json_wf v.
Proof.
  unfold parse_num. destruct (match s with c :: _ => _ | [] => _ end) as [neg s1]. destruct (span is_digit s1) as [ds s2].
  destruct (negb (int_digits ds)); [done|]. cbv zeta. destruct (match s2 with c :: _ => _ | [] => _ end) as [[fs s3]|]; [|done].
  destruct (parse_exp s3) as [[e s4]|]; [|done]. intros [= <- _]. apply make_num_wf.
Qed.
Lemma fields_set_wf k v fs : json_wf v → NoDup fs.*1 → Forall (λ kv : string * json, json_wf kv.2) fs →
  NoDup (fields_set k v fs).*1 ∧ Forall (λ kv, json_wf kv.2) (fields_set k v fs).
Proof.
  intros Hv Hnd Hall. split; [by apply fields_set_nodup|].
  clear Hnd. induction Hall as [|[k' v'] fs Hx Hf IH]; cbn [fields_set]; [constructor; [exact Hv|constructor]|]. destruct (seqb k' k); (constructor; [first [exact Hv|exact Hx]|assumption]).
Qed.
Lemma parse_wf n :
  (∀ s v r, parse_value n s = Some (v, r) → json_wf v) ∧
  (∀ s acc v r, Forall json_wf acc → parse_elems n s acc = Some (v, r) → json_wf v) ∧
  (∀ s acc v r, NoDup acc.*1 → Forall (λ kv, json_wf kv.2) acc → parse_members n s acc = Some (v, r) → json_wf v).
Proof.
  induction n as [|n (IHv & IHe & IHm)]; [done|]. split_and!.
  - intros s v r. cbn [parse_value]. destruct (skip_ws s) as [|c s1]; [done|].
    destruct (Ascii.eqb c dquote); [destruct (parse_chars s1) as [[t r']|]; [intros [= <- _]; exact I|done]|].
    destruct (Ascii.eqb c "["). { destruct (skip_ws s1) as [|d s2]; [done|]. destruct (Ascii.eqb d "]"); [intros [= <- _]; exact I|]. apply IHe. constructor. }
    destruct (Ascii.eqb c "{"). { destruct (skip_ws s1) as [|d s2]; [done|]. destruct (Ascii.eqb d "}"); [intros [= <- _]; by apply json_wf_obj; split; constructor|]. apply IHm; constructor. }
    destruct (Ascii.eqb c "n"); [destruct (strip_prefix _ s1); [intros [= <- _]; exact I|done]|].
    destruct (Ascii.eqb c "t"); [destruct (strip_prefix _ s1); [intros [= <- _]; exact I|done]|].
    destruct (Ascii.eqb c "f"); [destruct (strip_prefix _ s1); [intros [= <- _]; exact I|done]|]. apply parse_num_wf.
  - intros s acc v r Hacc. cbn [parse_elems]. destruct (parse_value n s) as [[x s1]|] eqn:Ex; [|done]. apply IHv in Ex.
    assert (Forall json_wf (acc ++ [x])) as Hacc' by (apply Forall_app; by repeat constructor).
    destruct (skip_ws s1) as [|d s2]; [done|]. destruct (Ascii.eqb d ","); [by apply IHe|]. destruct (Ascii.eqb d "]"); [|done].
    intros [= <- _]. by apply json_wf_arr.
  - intros s acc v r Hnd Hacc. cbn [parse_members]. destruct (skip_ws s) as [|q s1]; [done|]. destruct (Ascii.eqb q dquote); [|done].
    destruct (parse_chars s1) as [[k s2]|]; [|done]. destruct (skip_ws s2) as [|col s3]; [done|]. destruct (Ascii.eqb col ":"); [|done].
    destruct (parse_value n s3) as [[x s4]|] eqn:Ex; [|done]. apply IHv in Ex.
    destruct (fields_set_wf (of_chars k) x acc Ex Hnd Hacc) as [Hnd' Hacc'].
    destruct (skip_ws s4) as [|d s5]; [done|]. destruct (Ascii.eqb d ","); [by apply IHm|]. destruct (Ascii.eqb d "}"); [|done].
    intros [= <- _]. by apply json_wf_obj.
Qed.
Lemma json_parse_wf s v : json_parse s = Some v → json_wf v.
Proof.
  unfold json_parse. destruct (parse_value _ _) as [[x r]|] eqn:E; [|done]. apply parse_wf in E.
  destruct (skip_ws r); [|done]. by intros [= <-].
Qed.

(** ** Each rewrite happens once *)
Lemma strip_idem content : stripThinkingFromToolCall (stripThinkingFromToolCall content) = stripThinkingFromToolCall content.
Proof.
  assert (∀ kept, Forall json_wf kept → Forall (λ b, kept_block b = true) kept →
    stripThinkingFromToolCall (json_stringify (JArr kept)) = json_stringify (JArr kept)) as Hkept.
  { intros kept Hwf Hk. unfold stripThinkingFromToolCall. destruct (negb _); [done|].
    rewrite json_roundtrip by (by apply json_wf_arr). cbv zeta. rewrite filter_bool_all.
    - by rewrite Nat.ltb_irrefl, andb_false_r.
    - intros b Hb. rewrite Forall_forall in Hk. by apply Hk. }
  unfold stripThinkingFromToolCall at 2 3. destruct (negb (hasStrippableThinking content)) eqn:Eh.
  { unfold stripThinkingFromToolCall. by rewrite Eh. }
  destruct (json_parse content) as [v|] eqn:Ep; [|unfold stripThinkingFromToolCall; by rewrite Eh, Ep].
  destruct v as [| | | |parsed|]; try (unfold stripThinkingFromToolCall; by rewrite Eh, Ep).
  cbv zeta. destruct (_ && _) eqn:El; [|unfold stripThinkingFromToolCall; by rewrite Eh, Ep, El].
  apply json_parse_wf, json_wf_arr in Ep. apply Hkept.
  - apply Forall_forall. intros b [Hb _]%filter_In_iff. rewrite Forall_forall in Ep. by apply Ep.
  - apply Forall_forall. by intros b [_ Hb]%filter_In_iff.
Qed.

(** A stub short enough not to be a candidate itself. *)
Definition stub_fits (m : warm_message) : bool :=
  match wm_content m, wm_tool_use_id m with
  | CText content, Some id => (length (utf16 (warmToolResultStub id (text_len (utf16 content)) content)) <=? COLD_COMPACTION_THRESHOLD)%nat
  | _, _ => true
  end.
Lemma stubbed_once m m' : stub_fits m = true → stubbed m = Some m' → stubbed m' = None.
Proof.
  unfold stub_fits. intros Hfit Hs. assert (∃ c id, wm_role m = RToolResult ∧ wm_content m = CText c ∧ wm_tool_use_id m = Some id ∧
    m' = with_content (warmToolResultStub id (text_len (utf16 c)) c) m) as (c & id & Hr & Hc & Hi & ->).
  { unfold stubbed in Hs. destruct (wm_role m); try done. destruct (wm_content m) as [c|]; [|done]. destruct (wm_tool_use_id m) as [id|]; [|done].
    exists c, id. repeat case_match; try done. by injection Hs as <-. }
  rewrite Hc, Hi in Hfit. unfold stubbed. cbn [with_content wm_role wm_content wm_tool_use_id]. by rewrite Hr, Hi, Hfit.
Qed.
Lemma stripped_once m m' : stripped m = Some m' → stripped m' = None.
Proof.
  unfold stripped. destruct (wm_role m) eqn:Er; try done. destruct (wm_content m) as [c|]; [|done].
  destruct (negb _); [done|]. cbv zeta. destruct (seqb _ c); [done|]. intros [= <-]. cbn [with_content wm_role wm_content]. rewrite Er.
  destruct (negb _); [done|]. by rewrite strip_idem, seqb_refl.
Qed.
(** What a rewrite keeps. *)
Definition same_frame (m m' : warm_message) : Prop := wm_role m' = wm_role m ∧ wm_tool_use_id m' = wm_tool_use_id m.
Lemma stubbed_frame m m' : stubbed m = Some m' → same_frame m m' ∧ wm_role m = RToolResult.
Proof.
  unfold stubbed. destruct (wm_role m) eqn:Er; try done. destruct (wm_content m); [|done]. destruct (wm_tool_use_id m) eqn:Ei; [|done].
  repeat case_match; try done. intros [= <-]. split; [by split|done].
Qed.
Lemma stripped_frame m m' : stripped m = Some m' → same_frame m m' ∧ wm_role m = RToolCall.
Proof.
  unfold stripped. destruct (wm_role m) eqn:Er; try done. destruct (wm_content m); [|done]. destruct (negb _); [done|]. cbv zeta.
  destruct (seqb _ _); [done|]. intros [= <-]. split; [by split|done].
Qed.

Section Passes.
Context (count : llm_content → Z).
Abbreviation tok := (tokens count).
Abbreviation truncate := (truncate_results count).
Abbreviation strip := (strip_calls count).

(** The first pass: the stubs up to the boundary, the rest untouched. *)
Definition stub_of (m : warm_message) : warm_message := default m (stubbed m).
Lemma truncate_spec n ms :
  (truncate n ms).1 = (stub_of <$> take n ms) ++ drop n ms ∧ tok (truncate n ms).1 = tok ms - tokensSaved (truncate n ms).2 ∧
  (compacted (truncate n ms).2 = false → (truncate n ms).1 = ms).
Proof using.
  revert ms. induction n as [|n IH]; intros ms; [by split_and!; [|simpl; lia|]|]. destruct ms as [|m ms]; [by split_and!|].
  cbn [truncate_results take drop]. specialize (IH ms). destruct (truncate n ms) as [rest r]. cbn [fst snd] in IH. destruct IH as (H1 & H2 & H3).
  rewrite fmap_cons. unfold stub_of at 1. destruct (stubbed m) as [m'|]; cbn [fst snd default from_option id compacted tokensSaved tokens foldr].
  - fold tok. split_and!; [by rewrite H1|unfold tokens in *; lia|done].
  - split_and!; [by rewrite H1|unfold tokens in *; simpl; lia|]. intros Hc. by rewrite H3.
Qed.
Lemma truncate_none n ms : Forall (λ m, stubbed m = None) (take n ms) → truncate n ms = (ms, MkCompacted false 0).
Proof using.
  revert ms. induction n as [|n IH]; intros ms H; [done|]. destruct ms as [|m ms]; [done|]. cbn [take] in H.
  apply Forall_cons in H as [Hm H]. cbn [truncate_results]. by rewrite (IH ms H), Hm.
Qed.

(** The second pass: calls up to the boundary, until the estimate fits. *)
Definition rewritten (m m' : warm_message) : Prop := m' = m ∨ stripped m = Some m'.
Lemma rewritten_refl ms : Forall2 rewritten ms ms.
Proof using. induction ms; constructor; [by left|done]. Qed.
Lemma strip_spec n ms th est :
  let '(ms', r) := strip n ms th est in
  Forall2 rewritten ms ms' ∧ drop n ms' = drop n ms ∧ tok ms' = tok ms - tokensSaved r ∧ (compacted r = false → ms' = ms) ∧
  (est - tokensSaved r ≤ th ∨ Forall (λ m, stripped m = None) (take n ms')) ∧
  strip n ms' th (est - tokensSaved r) = (ms', MkCompacted false 0).
Proof using.
  revert ms est. induction n as [|n IH]; intros ms est.
  { cbn [strip_calls tokensSaved]. rewrite Z.sub_0_r. split_and!; [apply rewritten_refl|done|lia|done|by right|done]. }
  destruct ms as [|m ms]; [cbn; split_and!; [done..|lia|done|by right|done]|]. cbn [strip_calls].
  destruct (est <=? th) eqn:E.
  { cbn [tokensSaved compacted]. rewrite !Z.sub_0_r. split_and!; [apply rewritten_refl|done|lia|done|left; by apply Z.leb_le|].
    by rewrite E. }
  destruct (stripped m) as [m'|] eqn:Em.
  - specialize (IH ms (est - (cost count m - cost count m'))). destruct (strip n ms th _) as [rest r]. destruct IH as (H1 & H2 & H3 & H4 & H5 & H6).
    cbn [tokensSaved compacted]. split_and!; [constructor; [by right|done]|done|unfold tokens in *; simpl; lia|done| |].
    + destruct H5 as [H5|H5]; [left; lia|right]. cbn [take]. constructor; [by eapply stripped_once|done].
    + replace (est - (cost count m - cost count m' + tokensSaved r)) with (est - (cost count m - cost count m') - tokensSaved r) by lia.
      cbn [strip_calls]. rewrite (stripped_once _ _ Em), H6. by destruct (_ - _ <=? th).
  - specialize (IH ms est). destruct (strip n ms th est) as [rest r]. destruct IH as (H1 & H2 & H3 & H4 & H5 & H6).
    split_and!; [constructor; [by left|done]|done|unfold tokens in *; simpl; lia|intros Hc; by rewrite H4| |].
    + destruct H5 as [H5|H5]; [by left|right]. by constructor.
    + cbn [strip_calls]. rewrite Em, H6. by destruct (_ - _ <=? th).
Qed.
End Passes.

(** ** The boundary *)
Lemma last_user_roles i ms ms' : wm_role <$> ms = wm_role <$> ms' → last_user i ms = last_user i ms'.
Proof.
  revert i ms'. induction ms as [|m ms IH]; intros i [|m' ms'] H; try done. rewrite !fmap_cons in H. injection H as Hm H.
  cbn [last_user]. by rewrite (IH (S i) ms' H), Hm.
Qed.
Lemma last_user_app i ms extra : Forall (λ m, wm_role m ≠ RUser) extra → last_user i (ms ++ extra) = last_user i ms.
Proof.
  intros He. revert i. induction ms as [|m ms IH]; intros i; simpl; [|by rewrite IH].
  revert i. induction He as [|m extra Hm _ IH]; intros i; [done|]. cbn [last_user]. rewrite IH. by rewrite bool_decide_eq_false_2.
Qed.
Lemma last_user_lt i ms j : last_user i ms = Some j → (j < i + length ms)%nat.
Proof.
  revert i j. induction ms as [|m ms IH]; intros i j; [done|]. cbn [last_user length].
  destruct (last_user (S i) ms) as [j'|] eqn:E; [intros [= <-]; apply IH in E; lia|]. case_bool_decide; [|done]. intros [= <-]. lia.
Qed.
Lemma boundary_le opts ms : (compaction_boundary opts ms ≤ length ms)%nat.
Proof. unfold compaction_boundary. destruct (last_user 0 ms) as [j|] eqn:E; [apply last_user_lt in E|]; lia. Qed.
Lemma rewritten_frames ms ms' : Forall2 rewritten ms ms' → Forall2 same_frame ms ms'.
Proof. intros H. eapply Forall2_impl; [exact H|]. intros m m' [->|Hs]; [by split|by apply stripped_frame]. Qed.
Lemma stub_frame m : same_frame m (stub_of m).
Proof. unfold stub_of. destruct (stubbed m) eqn:E; [by apply stubbed_frame|by split]. Qed.
Lemma stub_frames ms : Forall2 same_frame ms (stub_of <$> ms).
Proof. induction ms; constructor; [apply stub_frame|done]. Qed.
Lemma frames_refl ms : Forall2 same_frame ms ms.
Proof. induction ms; constructor; [by split|done]. Qed.
Lemma frames_trans ms1 ms2 ms3 : Forall2 same_frame ms1 ms2 → Forall2 same_frame ms2 ms3 → Forall2 same_frame ms1 ms3.
Proof.
  intros H. revert ms3. induction H as [|m1 m2 l1 l2 [A1 A2] _ IH]; intros ms3 H3; inversion H3 as [|? m3 ? l3 [B1 B2] Hl]; subst; constructor; [split; congruence|by apply IH].
Qed.
Lemma frames_roles ms ms' : Forall2 same_frame ms ms' → wm_role <$> ms' = wm_role <$> ms.
Proof. induction 1 as [|m m' ms ms' [Hr _] _ IH]; [done|]. by rewrite !fmap_cons, IH, Hr. Qed.

(** The stubs stay as they are: neither a second pass nor the rewriting of calls
    changes a result that was already looked at. *)
Definition settled (n : nat) (ms : list warm_message) : Prop := Forall (λ m, stubbed m = None) (take n ms).
Lemma settled_stubs n ms : (n ≤ length ms)%nat → forallb stub_fits (take n ms) = true → settled n ((stub_of <$> take n ms) ++ drop n ms).
Proof.
  intros Hn Hfit. unfold settled. rewrite take_app_length' by (rewrite length_fmap, length_take; lia).
  apply Forall_fmap, Forall_forall. intros m Hm. simpl. rewrite forallb_forall in Hfit. unfold stub_of.
  destruct (stubbed m) as [m'|] eqn:E; [|done]. simpl. eapply stubbed_once; [|exact E]. apply Hfit. by apply list_elem_of_In.
Qed.
Lemma settled_rewritten n ms ms' : Forall2 rewritten ms ms' → settled n ms → settled n ms'.
Proof.
  unfold settled. intros H. revert n. induction H as [|m m' ms ms' Hm _ IH]; intros n; [done|]. destruct n as [|n]; [constructor|]. cbn [take].
  intros [Hs Hrest]%Forall_cons. constructor; [|by apply IH]. destruct Hm as [->|Hm]; [done|].
  destruct (stripped_frame _ _ Hm) as [[Hr _] Hcall]. unfold stubbed. by rewrite Hr, Hcall.
Qed.

(** C38: warm compaction is stable, when no stub is long enough to be a candidate
    itself (it is with an id of two hundred characters, Example long_id_drifts)
    and the caller's estimate, if given, is exact.  It saves exactly the tokens
    it reports, touches nothing after the last user message, keeps every role and
    tool-use id, and either fits the target or leaves no call to strip.  Run again
    on the same messages it changes nothing.  When messages are appended and none
    is a user message, a further pass, whatever its target, leaves every byte
    before them alone but the thinking of tool calls; a new user message moves
    the boundary, and the results before it become stubs. *)
Theorem compaction_stable count ms opts :
  let n := compaction_boundary opts ms in
  forallb stub_fits (take n ms) = true →
  precomputedEstimate opts = None ∨ precomputedEstimate opts = Some (tokens count ms) →
  let '(ms', r) := compactStoredMessagesInPlace count ms opts in
  tokens count ms' = tokens count ms - tokensSaved r ∧ (compacted r = false → ms' = ms) ∧
  drop n ms' = drop n ms ∧ Forall2 same_frame ms ms' ∧
  (tokens count ms' ≤ truncationTargetTokens opts ∨ Forall (λ m, stripped m = None) (take n ms')) ∧
  (∀ e, e = None ∨ e = Some (tokens count ms') →
     compactStoredMessagesInPlace count ms' (MkCompact (recentWindow opts) (contextWindow opts) (truncationTargetTokens opts) e) =
     (ms', MkCompacted false 0)) ∧
  (∀ extra opts', is_Some (last_user 0 ms) → Forall (λ m, wm_role m ≠ RUser) extra →
     ∃ pre, (compactStoredMessagesInPlace count (ms' ++ extra) opts').1 = pre ++ extra ∧ Forall2 rewritten ms' pre).
Proof.
  intros n Hfit Hest. unfold compactStoredMessagesInPlace at 1. fold n. pose proof (boundary_le opts ms) as Hn. fold n in Hn.
  destruct (truncate_spec count n ms) as (H1 & H2 & H3). destruct (truncate_results count n ms) as [ms1 r1]. cbn [fst snd] in *.
  assert (match precomputedEstimate opts with Some e => e - tokensSaved r1 | None => tokens count ms1 end = tokens count ms1) as ->.
  { destruct Hest as [->| ->]; lia. }
  pose proof (strip_spec count n ms1 (truncationTargetTokens opts) (tokens count ms1)) as Hs.
  destruct (strip_calls count n ms1 _ _) as [ms2 r2]. destruct Hs as (S1 & S2 & S3 & S4 & S5 & S6). rewrite <-S3 in S5, S6.
  cbn [compacted tokensSaved].
  assert (Forall2 same_frame ms ms1) as Hf1.
  { rewrite H1, <-(take_drop n ms) at 1. apply Forall2_app; [apply stub_frames|apply frames_refl]. }
  assert (Forall2 same_frame ms ms2) as Hf2.
  { eapply frames_trans; [exact Hf1|by apply rewritten_frames]. }
  assert (wm_role <$> ms2 = wm_role <$> ms) as Hroles by (by apply frames_roles).
  assert (length ms2 = length ms) as Hlen by (symmetry; by eapply Forall2_length).
  assert (settled n ms2) as Hset.
  { eapply settled_rewritten; [exact S1|]. rewrite H1. by apply settled_stubs. }
  split_and!.
  - lia.
  - intros [Hc1 Hc2]%orb_false_iff. rewrite (S4 Hc2). by apply H3.
  - rewrite S2, H1. rewrite drop_app_length'; [done|]. rewrite length_fmap, length_take. lia.
  - done.
  - done.
  - intros e He. unfold compactStoredMessagesInPlace.
    assert (compaction_boundary (MkCompact (recentWindow opts) (contextWindow opts) (truncationTargetTokens opts) e) ms2 = n) as ->.
    { unfold n, compaction_boundary. cbn [recentWindow]. by rewrite (last_user_roles 0 ms2 ms Hroles), Hlen. }
    rewrite truncate_none by done. cbn [precomputedEstimate truncationTargetTokens tokensSaved compacted].
    assert (match e with Some e0 => e0 - 0 | None => tokens count ms2 end = tokens count ms2) as -> by (destruct He as [->| ->]; lia).
    by rewrite S6.
  - intros extra opts' [j Hj] Hextra. unfold compactStoredMessagesInPlace.
    assert (compaction_boundary opts' (ms2 ++ extra) = n) as ->.
    { unfold n, compaction_boundary. by rewrite last_user_app, (last_user_roles 0 ms2 ms Hroles), Hj by done. }
    rewrite truncate_none by (by rewrite take_app_le by lia).
    match goal with |- context [strip_calls count n _ ?th ?est] =>
      pose proof (strip_spec count n (ms2 ++ extra) th est) as Hs; destruct (strip_calls count n (ms2 ++ extra) th est) as [ms3 r3] end.
    destruct Hs as (T1 & T2 & _). cbn [fst]. apply Forall2_app_inv_l in T1 as (pre & extra' & Hpre & Hext & ->).
    exists pre. split; [|done]. f_equal. pose proof (Forall2_length _ _ _ Hpre) as Hl.
    apply (f_equal (drop (length ms2 - n))) in T2. rewrite !drop_drop in T2.
    replace (n + (length ms2 - n))%nat with (length ms2) in T2 by lia. rewrite drop_app_length in T2. by rewrite Hl, drop_app_length in T2.
Qed.

(** *** Examples *)
Definition long_text (n : nat) : string := of_chars (replicate n "a"%char).
Definition sample_call : string :=
  json_stringify (JArr [JObj [("type", JStr "thinking"); ("thinking", JStr "hmm")]; JObj [("type", JStr "tool_use"); ("id", JStr "t1")]]).
Definition sample_thread (id : string) : list warm_message :=
  [MkWarm RUser (CText "list the files") None; MkWarm RToolCall (CText sample_call) None;
   MkWarm RToolResult (CText (long_text 600)) (Some id); MkWarm RAssistant (CText "done") None;
   MkWarm RUser (CText "and now?") None; MkWarm RToolCall (CText sample_call) None;
   MkWarm RToolResult (CText (long_text 700)) (Some "t2")].
Definition unit_count (c : llm_content) : Z := match c with CText s => text_len (utf16 s) | CBlocks _ => 10 end.
Definition sample_target : CompactStoredMessagesOptions := MkCompact 4 16000 100 None.

Lemma compaction_stable_witness :
  let '(ms', r) := compactStoredMessagesInPlace unit_count (sample_thread "t1") sample_target in
  compacted r = true ∧ tokens unit_count ms' = tokens unit_count (sample_thread "t1") - tokensSaved r ∧
  compactStoredMessagesInPlace unit_count ms' sample_target = (ms', MkCompacted false 0).
Proof.
  pose proof (compaction_stable unit_count (sample_thread "t1") sample_target ltac:(by vm_compute) (or_introl eq_refl)) as H.
  assert (compacted (compactStoredMessagesInPlace unit_count (sample_thread "t1") sample_target).2 = true) as Hc by (by vm_compute).
  destruct (compactStoredMessagesInPlace unit_count (sample_thread "t1") sample_target) as [ms' r].
  destruct H as (H1 & _ & _ & _ & _ & H6 & _). split; [exact Hc|]. split; [exact H1|]. exact (H6 None (or_introl eq_refl)).
Defined.

(** A tool-use id of two hundred characters makes the stub itself a candidate:
    the second pass writes another one. *)
Definition text_at (i : nat) (ms : list warm_message) : string :=
  match wm_content <$> ms !! i with Some (CText s) => s | _ => "" end.
Example long_id_drifts :
  let once := (compactStoredMessagesInPlace unit_count (sample_thread (long_text 200)) sample_target).1 in
  let '(twice, r) := compactStoredMessagesInPlace unit_count once sample_target in
  compacted r = true ∧ seqb (text_at 2 twice) (text_at 2 once) = false.
Proof. vm_compute. split; reflexivity. Qed.
