(* ===== verification/StreamParser.v ===== *)
(** * Stream parsing (packages/loop/src/stream-parser.ts)

    Turning the chunks of a model response into text, thinking and tool calls:
    the renaming of duplicate tool-use ids, the accumulation of arguments, and
    the removal of superseded drafts.  The fresh ids of [duplicateIdFactory] are
    a parameter; logging is left out.  [trim] removes ASCII white space. *)
From Stdlib Require Import Ascii.
From S2P Require Import Prelude Json Hlc.

(** ** Chunks *)
Inductive StreamChunk : Type :=
| Text (content : string)
| Thinking (content : string) (signature redacted_data reasoning_encrypted_content : option string)
| ToolUseStart (id name : string)
| ToolUseArgs (id partial_json : string)
| ToolUseEnd (id : string)
| Done (input_tokens output_tokens : Z) (cache_write_tokens cache_read_tokens : option Z) (estimated : bool)
    (cost_usd : option json) (finish_reason : option string)
| StreamError (error : string)
| Heartbeat.

Record ParsedToolCall : Type := MkCall {
  tc_id : string;
  tc_name : string;
  tc_input : json;
  tc_argsJson : string;
  tc_truncated : bool
}.

Record Usage : Type := MkUsage {
  inputTokens : Z;
  outputTokens : Z;
  cacheWriteTokens : option Z;
  cacheReadTokens : option Z;
  usageEstimated : bool
}.

Record ParsedResponse : Type := MkResponse {
  textContent : string;
  thinking : option string;
  thinkingSignature : option string;
  thinkingRedactedData : option string;
  thinkingEncryptedContent : option string;
  toolCalls : list ParsedToolCall;
  finishReason : option string;
  usage : Usage;
  costUsdFromHub : option json
}.

(** ** Renaming duplicate ids *)
Section Parse.
(** [fresh k id]: the k-th id the factory returns, asked for [id]. *)
Context (fresh : nat → string → string).

Fixpoint remap_chunks (chunks : list StreamChunk) (seenIds : list string) (idRemap : gmap string string) (k : nat)
    : list StreamChunk :=
  match chunks with
  | [] => []
  | ToolUseStart id name :: chunks' =>
      if existsb (seqb id) seenIds then
        let newId := fresh k id in
        ToolUseStart newId name :: remap_chunks chunks' (newId :: seenIds) (<[id := newId]> idRemap) (S k)
      else ToolUseStart id name :: remap_chunks chunks' (id :: seenIds) idRemap k
  | ToolUseArgs id pj :: chunks' =>
      let id' := if truthy (idRemap !! id) then default id (idRemap !! id) else id in
      ToolUseArgs id' pj :: remap_chunks chunks' seenIds idRemap k
  | ToolUseEnd id :: chunks' =>
      let id' := if truthy (idRemap !! id) then default id (idRemap !! id) else id in
      ToolUseEnd id' :: remap_chunks chunks' seenIds idRemap k
  | c :: chunks' => c :: remap_chunks chunks' seenIds idRemap k
  end.

(** ** The accumulator *)
Record parse_state : Type := MkParse {
  ps_text : string;
  ps_thinking : string;
  ps_signature : option string;
  ps_redacted : option string;
  ps_encrypted : option string;
  ps_calls : list ParsedToolCall;
  ps_args : gmap string string;        (* argsAccumulator *)
  ps_names : gmap string string;       (* nameMap *)
  ps_usage : Usage;
  ps_cost : option json;
  ps_finish : option string
}.

Definition initial_parse : parse_state :=
  MkParse "" "" None None None [] ∅ ∅ (MkUsage 0 0 None None false) None None.

Definition if_truthy (new old : option string) : option string := if truthy new then new else old.

Definition end_call (id : string) (args names : gmap string string) : ParsedToolCall :=
  let fullArgsJson := match args !! id with Some raw => if nonempty raw then raw else "{}" | None => "{}" end in
  let name := default id (names !! id) in
  match json_parse fullArgsJson with
  | Some input => MkCall id name input fullArgsJson false
  | None => MkCall id name (JObj []) fullArgsJson true
  end.

Definition parse_chunk (s : parse_state) (chunk : StreamChunk) : parse_state :=
  match s, chunk with
  | MkParse text th sg rd en calls args names us cost fin, Text c =>
      MkParse (text +:+ c) th sg rd en calls args names us cost fin
  | MkParse text th sg rd en calls args names us cost fin, Thinking c sg' rd' en' =>
      MkParse text (th +:+ c) (if_truthy sg' sg) (if_truthy rd' rd) (if_truthy en' en) calls args names us cost fin
  | MkParse text th sg rd en calls args names us cost fin, ToolUseStart id name =>
      MkParse text th sg rd en calls (<[id := ""]> args) (<[id := name]> names) us cost fin
  | MkParse text th sg rd en calls args names us cost fin, ToolUseArgs id pj =>
      MkParse text th sg rd en calls (<[id := default "" (args !! id) +:+ pj]> args) names us cost fin
  | MkParse text th sg rd en calls args names us cost fin, ToolUseEnd id =>
      MkParse text th sg rd en (calls ++ [end_call id args names]) args names us cost fin
  | MkParse text th sg rd en calls args names us cost fin, Done i o cw cr est cost' fin' =>
      MkParse text th sg rd en calls args names (MkUsage i o cw cr est) cost' fin'
  | s, StreamError _ => s
  | s, Heartbeat => s
  end.

(** ** Superseded drafts *)
Fixpoint trim_end (s : string) : string :=
  match s with
  | EmptyString => EmptyString
  | String c s' => match trim_end s' with
                   | EmptyString => if is_space c then EmptyString else String c EmptyString
                   | t => String c t
                   end
  end.
Definition trim (s : string) : string := trim_end (trim_start s).

Definition isEmptyObjectCall (call : ParsedToolCall) : bool :=
  negb (tc_truncated call) && seqb (trim (tc_argsJson call)) "{}" &&
  match tc_input call with JObj fs => (length fs =? 0)%nat | _ => true end.

Definition isSupersededToolCallDraft (earlier later : ParsedToolCall) (emptySameToolCount : nat) : bool :=
  if negb (seqb (tc_name earlier) (tc_name later)) then false
  else if tc_truncated later then false
  else
    let earlierArgs := trim (tc_argsJson earlier) in
    let laterArgs := trim (tc_argsJson later) in
    if tc_truncated earlier && (seqb earlierArgs "" || starts_with earlierArgs laterArgs) then true
    else (1 <? emptySameToolCount)%nat && isEmptyObjectCall earlier && negb (isEmptyObjectCall later).

(** [callsByTool]: groups of calls with their index, in order of first use. *)
Fixpoint group_add (name : string) (entry : ParsedToolCall * nat)
    (groups : list (string * list (ParsedToolCall * nat))) : list (string * list (ParsedToolCall * nat)) :=
  match groups with
  | [] => [(name, [entry])]
  | (n, g) :: groups' =>
      if seqb n name then (n, g ++ [entry]) :: groups' else (n, g) :: group_add name entry groups'
  end.

Fixpoint group_calls (index : nat) (calls : list ParsedToolCall)
    (groups : list (string * list (ParsedToolCall * nat))) (empties : gmap string nat)
    : list (string * list (ParsedToolCall * nat)) * gmap string nat :=
  match calls with
  | [] => (groups, empties)
  | call :: calls' =>
      group_calls (S index) calls' (group_add (tc_name call) (call, index) groups)
        (if isEmptyObjectCall call
         then <[tc_name call := S (default 0%nat (empties !! tc_name call))]> empties else empties)
  end.

(** The two inner loops: an entry superseded by a later one of its group is
    not kept. *)
Fixpoint mark_group (count : nat) (g : list (ParsedToolCall * nat)) (keep : list bool) : list bool :=
  match g with
  | [] => keep
  | (call, index) :: g' =>
      mark_group count g'
        (if existsb (λ later, isSupersededToolCallDraft call later.1 count) g'
         then <[index := false]> keep else keep)
  end.

Definition mark_groups (empties : gmap string nat) (groups : list (string * list (ParsedToolCall * nat)))
    (keep : list bool) : list bool :=
  foldl (λ keep ng, mark_group (default 0%nat (empties !! ng.1)) ng.2 keep) keep groups.

Fixpoint keep_calls (calls : list ParsedToolCall) (keep : list bool) : list ParsedToolCall :=
  match calls, keep with
  | c :: calls', k :: keep' => if k : bool then c :: keep_calls calls' keep' else keep_calls calls' keep'
  | _, _ => []
  end.

Definition dropSupersededToolCallDrafts (calls : list ParsedToolCall) : list ParsedToolCall :=
  if (length calls <? 2)%nat then calls
  else
    let '(groups, empties) := group_calls 0 calls [] ∅ in
    keep_calls calls (mark_groups empties groups ((λ _, true) <$> calls)).

(** ** parseResponseChunks *)
Definition null_if_empty (s : string) : option string := if nonempty s then Some s else None.

Definition parseResponseChunks (chunks : list StreamChunk) : ParsedResponse :=
  let s := foldl parse_chunk initial_parse (remap_chunks chunks [] ∅ 0) in
  MkResponse (ps_text s) (null_if_empty (ps_thinking s)) (ps_signature s) (ps_redacted s) (ps_encrypted s)
    (dropSupersededToolCallDrafts (ps_calls s)) (ps_finish s) (ps_usage s) (ps_cost s).
End Parse.

(** ** Dropping drafts is the pairwise rule *)

(** Empty-object calls of a tool in the whole turn. *)
Definition empty_count (all : list ParsedToolCall) (name : string) : nat :=
  length (List.filter (λ c, isEmptyObjectCall c && seqb (tc_name c) name) all).

(** The rule, without grouping: a call stays unless a later call supersedes it. *)
Fixpoint drop_reference (all calls : list ParsedToolCall) : list ParsedToolCall :=
  match calls with
  | [] => []
  | c :: later =>
      if existsb (λ l, isSupersededToolCallDraft c l (empty_count all (tc_name c))) later
      then drop_reference all later else c :: drop_reference all later
  end.

Abbreviation entry := (ParsedToolCall * nat)%type.
Definition named (n : string) (e : entry) : bool := seqb (tc_name e.1) n.
Definition groups_of (names : list string) (l : list entry) : list (string * list entry) :=
  (λ n, (n, List.filter (named n) l)) <$> names.

Lemma filter_named_snoc n l e :
  List.filter (named n) (l ++ [e]) = List.filter (named n) l ++ (if named n e then [e] else []).
Proof. rewrite List.filter_app. simpl. by destruct (named n e). Qed.

Lemma groups_of_other names l e :
  tc_name e.1 ∉ names → groups_of names (l ++ [e]) = groups_of names l.
Proof.
  intros Hn. unfold groups_of. apply list_fmap_ext. intros i n Hi%list_elem_of_lookup_2.
  rewrite filter_named_snoc. change (named n e) with (seqb (tc_name e.1) n).
  rewrite (proj2 (seqb_false _ _)); [by rewrite app_nil_r|]. by intros <-.
Qed.

Lemma groups_of_cons n names l :
  groups_of (n :: names) l = (n, List.filter (named n) l) :: groups_of names l.
Proof. done. Qed.

(** Adding an entry to the groups of a list gives the groups of the longer list. *)
Lemma group_add_spec names l e :
  NoDup names → (∀ e', e' ∈ l → tc_name e'.1 ∈ names ∨ tc_name e'.1 ≠ tc_name e.1) →
  group_add (tc_name e.1) e (groups_of names l) =
    groups_of (if existsb (seqb (tc_name e.1)) names then names else names ++ [tc_name e.1]) (l ++ [e]).
Proof.
  induction names as [|n names IH]; intros Hnd Hl.
  - simpl. unfold groups_of. simpl. rewrite filter_named_snoc. change (named (tc_name e.1) e) with (seqb (tc_name e.1) (tc_name e.1)).
    rewrite seqb_refl, filter_bool_none; [done|]. intros e' He'. apply seqb_false.
    destruct (Hl e' He') as [?%not_elem_of_nil|?]; done.
  - apply NoDup_cons in Hnd as [Hn Hnd]. rewrite groups_of_cons. cbn [group_add existsb].
    destruct (seqb n (tc_name e.1)) eqn:E.
    + apply seqb_true in E as ->. rewrite seqb_refl. cbn [orb]. rewrite groups_of_cons.
      rewrite filter_named_snoc. change (named (tc_name e.1) e) with (seqb (tc_name e.1) (tc_name e.1)).
      rewrite seqb_refl. f_equal. symmetry. by apply groups_of_other.
    + assert (seqb (tc_name e.1) n = false) as E' by (apply seqb_false; apply seqb_false in E; congruence).
      rewrite E'. cbn [orb].
      assert (∀ ns, groups_of (n :: ns) (l ++ [e]) = (n, List.filter (named n) l) :: groups_of ns (l ++ [e])) as Heq.
      { intros ns. rewrite groups_of_cons, filter_named_snoc.
        change (named n e) with (seqb (tc_name e.1) n). by rewrite E', app_nil_r. }
      rewrite IH; [|done|].
      * destruct (existsb _ names); cbn [app]; by rewrite Heq.
      * intros e' He'. destruct (Hl e' He') as [[->|?]%elem_of_cons|?]; auto.
        right. apply seqb_false in E. congruence.
Qed.

Fixpoint indexed (i : nat) (calls : list ParsedToolCall) : list entry :=
  match calls with [] => [] | c :: calls' => (c, i) :: indexed (S i) calls' end.

Lemma group_calls_spec i calls names l em :
  NoDup names → (∀ e, e ∈ l → tc_name e.1 ∈ names) →
  ∃ names' em', group_calls i calls (groups_of names l) em = (groups_of names' (l ++ indexed i calls), em') ∧
    NoDup names' ∧ (∀ e, e ∈ l ++ indexed i calls → tc_name e.1 ∈ names') ∧
    ∀ n, default 0%nat (em' !! n) = (default 0%nat (em !! n) + empty_count calls n)%nat.
Proof.
  revert i names l em. induction calls as [|c calls IH]; intros i names l em Hnd Hl.
  { exists names, em. simpl. rewrite app_nil_r. split_and!; [done..|]. intros n. unfold empty_count. simpl. lia. }
  cbn [group_calls indexed].
  assert (∀ e', e' ∈ l → tc_name e'.1 ∈ names ∨ tc_name e'.1 ≠ tc_name (c, i).1) as Hl' by auto.
  pose proof (group_add_spec names l (c, i) Hnd Hl') as Hadd.
  cbn [fst] in Hadd. rewrite Hadd.
  set (names1 := if existsb (seqb (tc_name c)) names then names else names ++ [tc_name c]).
  assert (NoDup names1 ∧ (∀ n, n ∈ names → n ∈ names1) ∧ tc_name c ∈ names1) as (Hnd1 & Hsub & Hc).
  { unfold names1. destruct (existsb _ names) eqn:E.
    - split_and!; [done|done|]. apply existsb_exists in E as (x & Hx%list_elem_of_In & ->%seqb_true). done.
    - split_and!; [|intros n Hn; apply elem_of_app; by left|apply elem_of_app; right; by apply list_elem_of_singleton].
      apply NoDup_app. split_and!; [done| |apply NoDup_singleton].
      intros n Hn ->%list_elem_of_singleton. apply not_true_iff_false in E. apply E, existsb_exists.
      exists (tc_name c). by rewrite <-list_elem_of_In, seqb_refl. }
  destruct (IH (S i) names1 (l ++ [(c, i)])
    (if isEmptyObjectCall c then <[tc_name c:=S (default 0%nat (em !! tc_name c))]> em else em) Hnd1)
    as (names' & em' & H1 & H2 & H3 & H4).
  { intros e [He| ->%list_elem_of_singleton]%elem_of_app; [by apply Hsub, Hl|done]. }
  exists names', em'. rewrite <-app_assoc in H1, H3. split_and!; [done|done|done|].
  intros n. rewrite H4. unfold empty_count. cbn [List.filter].
  destruct (isEmptyObjectCall c); cbn [andb]; [|done].
  destruct (seqb (tc_name c) n) eqn:E.
  - apply seqb_true in E as <-. rewrite lookup_insert_eq. simpl. lia.
  - rewrite lookup_insert_ne by (by apply seqb_false). done.
Qed.

(** An entry of the group is superseded by a later one of the group. *)
Fixpoint superseded_at (count : nat) (g : list entry) (i : nat) : bool :=
  match g with
  | [] => false
  | (call, index) :: g' =>
      (index =? i)%nat && existsb (λ later, isSupersededToolCallDraft call later.1 count) g'
      || superseded_at count g' i
  end.

Lemma mark_group_lookup count g keep i :
  (mark_group count g keep) !! i = (λ k, k && negb (superseded_at count g i)) <$> keep !! i.
Proof.
  revert keep. induction g as [|[call index] g IH]; intros keep; simpl.
  { destruct (keep !! i); simpl; [|done]. by rewrite andb_true_r. }
  rewrite IH. destruct (existsb _ g).
  - destruct (Nat.eqb_spec index i) as [->|Hne]; simpl.
    + destruct (decide (i < length keep)%nat).
      * rewrite list_lookup_insert_eq by done. destruct (lookup_lt_is_Some_2 keep i) as [k ->]; [done|].
        simpl. by rewrite andb_false_r.
      * rewrite !lookup_ge_None_2; [done|lia|rewrite length_insert; lia].
    + by rewrite list_lookup_insert_ne.
  - by rewrite andb_false_r.
Qed.

Lemma mark_groups_lookup em groups keep i :
  (mark_groups em groups keep) !! i =
    (λ k, k && negb (existsb (λ ng, superseded_at (default 0%nat (em !! ng.1)) ng.2 i) groups)) <$> keep !! i.
Proof.
  unfold mark_groups. revert keep. induction groups as [|ng groups IH]; intros keep; simpl.
  { destruct (keep !! i); simpl; [|done]. by rewrite andb_true_r. }
  rewrite IH, mark_group_lookup. destruct (keep !! i); simpl; [|done].
  by rewrite negb_orb, andb_assoc.
Qed.

Lemma mark_group_length count g keep : length (mark_group count g keep) = length keep.
Proof.
  revert keep. induction g as [|[call index] g IH]; intros keep; simpl; [done|]. rewrite IH.
  destruct (existsb _ g); [by rewrite length_insert|done].
Qed.
Lemma mark_groups_length em groups keep : length (mark_groups em groups keep) = length keep.
Proof.
  unfold mark_groups. revert keep. induction groups as [|ng groups IH]; intros keep; simpl; [done|].
  by rewrite IH, mark_group_length.
Qed.

Lemma superseded_at_app count g1 g2 i :
  (∀ e, e ∈ g1 → e.2 ≠ i) → superseded_at count (g1 ++ g2) i = superseded_at count g2 i.
Proof.
  induction g1 as [|[c j] g1 IH]; intros H; [done|]. simpl.
  rewrite (proj2 (Nat.eqb_neq j i)) by (apply (H (c, j)); left). simpl. apply IH.
  intros e He. apply H. by right.
Qed.
Lemma superseded_at_none count g i : (∀ e, e ∈ g → e.2 ≠ i) → superseded_at count g i = false.
Proof. intros H. rewrite <-(app_nil_r g). by rewrite superseded_at_app. Qed.

Lemma indexed_app i a b : indexed i (a ++ b) = indexed i a ++ indexed (i + length a) b.
Proof.
  revert i. induction a as [|c a IH]; intros i; simpl; [by rewrite Nat.add_0_r|].
  by rewrite IH, Nat.add_succ_r.
Qed.
Lemma indexed_range i calls e : e ∈ indexed i calls → (i ≤ e.2 < i + length calls)%nat.
Proof.
  revert i. induction calls as [|c calls IH]; intros i; simpl; [by intros ?%not_elem_of_nil|].
  intros [->|H]%elem_of_cons; [simpl; lia|]. apply IH in H. lia.
Qed.
Lemma existsb_indexed (f : ParsedToolCall → bool) i calls :
  existsb (λ e, f e.1) (indexed i calls) = existsb f calls.
Proof. revert i. induction calls as [|c calls IH]; intros i; simpl; [done|]. by rewrite IH. Qed.

Lemma superseded_name e l n : isSupersededToolCallDraft e l n = true → tc_name e = tc_name l.
Proof.
  unfold isSupersededToolCallDraft. destruct (seqb (tc_name e) (tc_name l)) eqn:E; [|done].
  by apply seqb_true in E.
Qed.

(** In its group, a call is superseded exactly when a later call of the turn
    supersedes it. *)
Lemma superseded_in_group count before c later n :
  superseded_at count (List.filter (named n) (indexed 0 (before ++ c :: later))) (length before) =
    seqb (tc_name c) n && existsb (λ l, isSupersededToolCallDraft c l count) later.
Proof.
  rewrite indexed_app. simpl. rewrite List.filter_app. cbn [List.filter].
  assert (∀ e, e ∈ List.filter (named n) (indexed (S (length before)) later) → e.2 ≠ length before) as Hlater.
  { intros e [He _]%filter_In_iff. apply indexed_range in He. lia. }
  rewrite superseded_at_app.
  2: { intros e [He _]%filter_In_iff. apply indexed_range in He. lia. }
  unfold named at 1. cbn [fst]. destruct (seqb (tc_name c) n) eqn:E; simpl.
  - rewrite Nat.eqb_refl, (superseded_at_none _ _ _ Hlater), orb_false_r. simpl.
    apply seqb_true in E. subst n.
    rewrite <-(existsb_indexed (λ l, isSupersededToolCallDraft c l count) (S (length before)) later).
    clear Hlater. induction (indexed (S (length before)) later) as [|e l IH]; [done|]. simpl.
    unfold named at 1. destruct (seqb (tc_name e.1) (tc_name c)) eqn:E; simpl; rewrite IH; [done|].
    destruct (isSupersededToolCallDraft c e.1 count) eqn:Es; [|done].
    apply superseded_name in Es. apply seqb_false in E. congruence.
  - by apply superseded_at_none.
Qed.

Lemma keep_calls_reference all calls keep :
  length keep = length calls →
  (∀ i c, calls !! i = Some c → keep !! i =
     Some (negb (existsb (λ l, isSupersededToolCallDraft c l (empty_count all (tc_name c))) (drop (S i) calls)))) →
  keep_calls calls keep = drop_reference all calls.
Proof.
  revert keep. induction calls as [|c calls IH]; intros [|k keep] Hlen H; try done.
  cbn [keep_calls drop_reference]. pose proof (H 0%nat c eq_refl) as H0. simpl in H0.
  rewrite drop_0 in H0. injection H0 as ->. rewrite <-IH with (keep := keep).
  - by destruct (existsb _ calls).
  - simpl in Hlen. lia.
  - intros i c' Hc'. apply (H (S i) c' Hc').
Qed.

Lemma existsb_one (names : list string) (n : string) (f : string → bool) :
  NoDup names → n ∈ names → existsb (λ m, seqb n m && f m) names = f n.
Proof.
  induction names as [|m names IH]; [by intros _ ?%not_elem_of_nil|].
  intros [Hm Hnd]%NoDup_cons [->|Hn]%elem_of_cons; simpl.
  - rewrite seqb_refl. simpl. destruct (f m); [done|]. simpl. apply not_true_is_false.
    intros (x & Hx%list_elem_of_In & [->%seqb_true _]%andb_prop)%existsb_exists. done.
  - rewrite (proj2 (seqb_false n m)) by (by intros ->). simpl. by apply IH.
Qed.

Lemma drop_is_reference calls : dropSupersededToolCallDrafts calls = drop_reference calls calls.
Proof.
  unfold dropSupersededToolCallDrafts.
  destruct (Nat.ltb_spec (length calls) 2) as [Hlt|_].
  { destruct calls as [|c [|]]; simpl in *; [done|done|lia]. }
  destruct (group_calls_spec 0 calls [] [] ∅ NoDup_nil_2) as (names & em & Hg & Hnd & Hin & Hem).
  { by intros e ?%not_elem_of_nil. }
  change (groups_of [] []) with (@nil (string * list entry)) in Hg. rewrite Hg. cbn [app] in Hin |- *.
  assert (∀ keep i, (mark_groups em (groups_of names (indexed 0 calls)) keep) !! i =
    (λ k, k && negb (existsb (λ n, superseded_at (empty_count calls n) (List.filter (named n) (indexed 0 calls)) i) names))
      <$> keep !! i) as Hmark.
  { intros keep i. rewrite mark_groups_lookup.
    replace (existsb (λ ng, superseded_at (default 0%nat (em !! ng.1)) ng.2 i) (groups_of names (indexed 0 calls)))
      with (existsb (λ n, superseded_at (empty_count calls n) (List.filter (named n) (indexed 0 calls)) i) names); [done|].
    clear Hnd Hin Hg. induction names as [|x ns IH]; [done|]. rewrite groups_of_cons. cbn [existsb fst snd].
    by rewrite IH, Hem. }
  apply (keep_calls_reference calls).
  - rewrite mark_groups_length. by rewrite length_fmap.
  - intros i c Hc. rewrite Hmark.
    assert (((λ _, true) <$> calls) !! i = Some true) as -> by (by rewrite list_lookup_fmap, Hc).
    cbn [fmap option_fmap option_map andb]. do 2 f_equal.
    assert (length (take i calls) = i) as Hi.
    { apply length_take_le. apply lookup_lt_Some in Hc. lia. }
    assert (∀ n, superseded_at (empty_count calls n) (List.filter (named n) (indexed 0 calls)) i =
      seqb (tc_name c) n && existsb (λ l, isSupersededToolCallDraft c l (empty_count calls n)) (drop (S i) calls)) as Hsup.
    { intros n. pose proof (superseded_in_group (empty_count calls n) (take i calls) c (drop (S i) calls) n) as H.
      by rewrite Hi, (take_drop_middle calls i c Hc) in H. }
    rewrite <-(existsb_one names (tc_name c)
      (λ n, existsb (λ l, isSupersededToolCallDraft c l (empty_count calls n)) (drop (S i) calls)) Hnd).
    + clear -Hsup. induction names as [|x ns IH]; [done|]. cbn [existsb]. by rewrite IH, Hsup.
    + assert ((c, i) ∈ indexed 0 calls) as Hci; [|by apply Hin in Hci].
      rewrite <-(take_drop_middle calls i c Hc), indexed_app, Hi. apply elem_of_app. right. left.
Qed.

Lemma drop_reference_sublist all calls : sublist (drop_reference all calls) calls.
Proof. induction calls as [|c calls IH]; simpl; [constructor|]. destruct (existsb _ calls); by constructor. Qed.

Lemma drop_reference_last all calls : last (drop_reference all calls) = last calls.
Proof.
  induction calls as [|c calls IH]; [done|]. cbn [drop_reference].
  destruct calls as [|c' calls]; [done|].
  change (last (c :: c' :: calls)) with (last (c' :: calls)).
  destruct (existsb _ (c' :: calls)); [done|].
  destruct (drop_reference all (c' :: calls)) as [|d ds] eqn:E; [|by rewrite <-IH].
  symmetry in IH. by apply last_None in IH.
Qed.

(** dropping drafts by tool group computes the pairwise rule on the whole
    turn: a call goes exactly when some later call supersedes it (truncated and
    extended by it, or one of several empty calls followed by a filled one);
    what stays keeps its order, and the last call always stays. *)
Theorem drop_superseded_spec calls :
  dropSupersededToolCallDrafts calls = drop_reference calls calls ∧
  sublist (dropSupersededToolCallDrafts calls) calls ∧
  last (dropSupersededToolCallDrafts calls) = last calls.
Proof.
  rewrite drop_is_reference. split_and!; [done|apply drop_reference_sublist|apply drop_reference_last].
Qed.

(** ** Streams of whole tool calls *)

(** What a provider streams: text, and tool calls given by their id, name and
    argument fragments. *)
Inductive item : Type :=
| IText (content : string)
| ICall (id name : string) (fragments : list string).

Definition emit (it : item) : list StreamChunk :=
  match it with
  | IText c => [Text c; Heartbeat]
  | ICall id name fs => ToolUseStart id name :: (ToolUseArgs id <$> fs) ++ [ToolUseEnd id]
  end.

Definition item_ids (items : list item) : list string :=
  omap (λ it, match it with ICall id _ _ => Some id | _ => None end) items.
Definition item_text (items : list item) : string :=
  sconcat ((λ it, match it with IText c => c | _ => "" end) <$> items).

(** The call the fragments of an item make, under the id [id']. *)
Definition made_call (id' name : string) (fs : list string) : ParsedToolCall :=
  end_call id' {[id' := sconcat fs]} {[id' := name]}.
Fixpoint made_calls (ids : list string) (items : list item) : list ParsedToolCall :=
  match items with
  | [] => []
  | IText _ :: items' => made_calls ids items'
  | ICall _ name fs :: items' =>
      match ids with
      | id' :: ids' => made_call id' name fs :: made_calls ids' items'
      | [] => []
      end
  end.

(** The factory returns non-empty ids that are new each time. *)
Definition fresh_ok (fresh : nat → string → string) (ids : list string) : Prop :=
  ∀ k id, fresh k id ∉ ids ∧ fresh k id ≠ "" ∧ ∀ k' id', k ≠ k' → fresh k id ≠ fresh k' id'.

(** The ids of the parsed calls: a call keeps its own, unless an earlier call of
    the stream had it; the repeats take the factory's ids in turn. *)
Fixpoint given_ids (fresh : nat → string → string) (earlier : list string) (k : nat) (ids : list string) : list string :=
  match ids with
  | [] => []
  | id :: ids' =>
      if existsb (seqb id) earlier then fresh k id :: given_ids fresh (id :: earlier) (S k) ids'
      else id :: given_ids fresh (id :: earlier) k ids'
  end.
Lemma given_ids_length fresh earlier k ids : length (given_ids fresh earlier k ids) = length ids.
Proof.
  revert earlier k. induction ids as [|id ids IH]; intros earlier k; [done|]. cbn [given_ids].
  destruct (existsb _ earlier); simpl; by rewrite IH.
Qed.

Section Stream.
Context (fresh : nat → string → string).

Lemma parse_args_run id fs s a :
  ps_args s !! id = Some a →
  ∃ args, foldl parse_chunk s (ToolUseArgs id <$> fs) =
    MkParse (ps_text s) (ps_thinking s) (ps_signature s) (ps_redacted s) (ps_encrypted s) (ps_calls s) args
      (ps_names s) (ps_usage s) (ps_cost s) (ps_finish s) ∧ args !! id = Some (a +:+ sconcat fs).
Proof.
  revert s a. induction fs as [|f fs IH]; intros s a Ha; cbn [fmap list_fmap foldl sconcat foldr].
  { exists (ps_args s). split; [by destruct s|]. by rewrite sapp_nil_r. }
  destruct s as [text th sg rd en calls args names us cost fin]. simpl in Ha |- *.
  destruct (IH (MkParse text th sg rd en calls (<[id:=default "" (args !! id) +:+ f]> args) names us cost fin)
    (a +:+ f)) as (args' & H & H').
  { simpl. by rewrite lookup_insert_eq, Ha. }
  exists args'. split; [exact H|]. by rewrite sapp_assoc in H'.
Qed.

(** A whole call, once renamed, appends the call it makes. *)
Lemma parse_call_run id name fs s :
  ∃ args names, foldl parse_chunk s (emit (ICall id name fs)) =
    MkParse (ps_text s) (ps_thinking s) (ps_signature s) (ps_redacted s) (ps_encrypted s)
      (ps_calls s ++ [made_call id name fs]) args names (ps_usage s) (ps_cost s) (ps_finish s).
Proof.
  destruct s as [text th sg rd en calls args names us cost fin]. cbn [emit foldl]. rewrite foldl_app. simpl parse_chunk.
  destruct (parse_args_run id fs (MkParse text th sg rd en calls (<[id:=""]> args) (<[id:=name]> names) us cost fin) "")
    as (args' & -> & Ha); [simpl; by rewrite lookup_insert_eq|].
  simpl. exists args', (<[id:=name]> names). do 2 f_equal.
  unfold made_call, end_call. rewrite Ha, lookup_insert_eq, !lookup_singleton_eq. done.
Qed.

Definition remapped (idRemap : gmap string string) (id : string) : string :=
  if truthy (idRemap !! id) then default id (idRemap !! id) else id.

Lemma remap_args_run id fs rest seen re k :
  remap_chunks fresh ((ToolUseArgs id <$> fs) ++ rest) seen re k =
    (ToolUseArgs (remapped re id) <$> fs) ++ remap_chunks fresh rest seen re k.
Proof. induction fs as [|f fs IH]; [done|]. cbn [fmap list_fmap app remap_chunks]. by rewrite <-IH. Qed.

(** The ids given to the calls are distinct, and the run appends the calls. *)
Lemma remap_stream items earlier seen re k ids :
  fresh_ok fresh ids → (∀ id, id ∈ item_ids items → id ∈ ids) →
  (∀ id, is_Some (re !! id) → id ∈ seen) →
  (∀ id, id ∈ seen → id ∈ ids ∨ ∃ j i, (j < k)%nat ∧ id = fresh j i) → (∀ id, id ∈ ids → id ∈ seen ↔ id ∈ earlier) →
  let newids := given_ids fresh earlier k (item_ids items) in
  NoDup newids ∧ (∀ id, id ∈ newids → id ∉ seen) ∧
    (∀ s, ∃ args names, foldl parse_chunk s (remap_chunks fresh (concat (emit <$> items)) seen re k) =
      MkParse (ps_text s +:+ item_text items) (ps_thinking s) (ps_signature s) (ps_redacted s) (ps_encrypted s)
        (ps_calls s ++ made_calls newids items) args names (ps_usage s) (ps_cost s) (ps_finish s)).
Proof.
  intros Hfresh. revert earlier seen re k.
  induction items as [|[c|id name fs] items IH]; intros earlier seen re k Hids Hre Hseen Hear newids.
  - split_and!; [apply NoDup_nil_2|by intros ? ?%not_elem_of_nil|].
    intros s. exists (ps_args s), (ps_names s). destruct s. unfold item_text. simpl. by rewrite sapp_nil_r, app_nil_r.
  - destruct (IH earlier seen re k) as (H2 & H3 & H4); [done..|]. cbv zeta in H4.
    split_and!; [done|done|]. intros s. cbn [fmap list_fmap concat emit app].
    cbn [remap_chunks foldl].
    destruct (H4 (parse_chunk (parse_chunk s (Text c)) Heartbeat)) as (args & names & Hrun).
    exists args, names. rewrite Hrun. destruct s. simpl. unfold item_text. simpl. by rewrite sapp_assoc.
  - cbn [fmap list_fmap concat emit]. rewrite <-app_comm_cons, <-app_assoc. cbn [remap_chunks app].
    assert (∀ id' seen' re' k', remapped re' id = id' → newids = id' :: given_ids fresh (id :: earlier) k' (item_ids items) →
      (∀ i, i ∈ ids → i ∈ seen' ↔ i ∈ id :: earlier) →
      (∀ i, i ∈ item_ids items → i ∈ ids) →
      (∀ i, is_Some (re' !! i) → i ∈ seen') → (∀ i, i ∈ seen' → i ∈ ids ∨ ∃ j x, (j < k')%nat ∧ i = fresh j x) →
      id' ∉ seen → (∀ i, i ∈ seen' ↔ i = id' ∨ i ∈ seen) →
      NoDup newids ∧ (∀ i, i ∈ newids → i ∉ seen) ∧ ∀ s, ∃ args names,
        foldl parse_chunk s (ToolUseStart id' name :: remap_chunks fresh
          ((ToolUseArgs id <$> fs) ++ [ToolUseEnd id] ++ concat (emit <$> items)) seen' re' k') =
        MkParse (ps_text s +:+ item_text (ICall id name fs :: items)) (ps_thinking s) (ps_signature s) (ps_redacted s)
          (ps_encrypted s) (ps_calls s ++ made_calls newids (ICall id name fs :: items)) args names (ps_usage s)
          (ps_cost s) (ps_finish s)) as Hstep.
    { intros id' seen' re' k' Hmap -> Hear' Hids' Hre' Hseen' Hnew Hiff.
      destruct (IH (id :: earlier) seen' re' k' Hids' Hre' Hseen' Hear') as (H2 & H3 & H4). cbv zeta in H4. split_and!.
      - apply NoDup_cons. split; [|done]. intros Hin. apply (H3 id' Hin), Hiff. by left.
      - intros i [->|Hi]%elem_of_cons; [done|]. intros Hs. apply (H3 i Hi), Hiff. by right.
      - intros s. rewrite remap_args_run, Hmap. cbn [app remap_chunks].
        fold (remapped re' id). rewrite Hmap.
        destruct (parse_call_run id' name fs s) as (args & names & Hcall). cbn [emit] in Hcall.
        destruct (H4 (foldl parse_chunk s (ToolUseStart id' name :: (ToolUseArgs id' <$> fs) ++ [ToolUseEnd id'])))
          as (args' & names' & Hrun).
        exists args', names'. rewrite Hcall in Hrun. simpl in Hrun.
        etransitivity; [|etransitivity; [exact Hrun|]].
        + rewrite <-Hcall, <-foldl_app. f_equal. rewrite <-!app_comm_cons, <-!app_assoc. done.
        + by rewrite <-app_assoc. }
    assert (id ∈ ids) as Hid by (apply Hids; left).
    assert (existsb (seqb id) earlier = existsb (seqb id) seen) as Hear0.
    { apply eq_true_iff_eq. rewrite !existsb_exists. pose proof (Hear id Hid) as Heq. split; intros (x & Hx%list_elem_of_In & ->%seqb_true);
        exists x; (split; [|apply seqb_refl]); apply list_elem_of_In; by apply Heq. }
    destruct (existsb (seqb id) seen) eqn:E; rewrite ?E in Hear0.
    + assert (id ∈ seen) as Hin by (apply existsb_exists in E as (x & Hx%list_elem_of_In & ->%seqb_true); done).
      destruct (Hfresh k id) as (Hf1 & Hf2 & Hf3).
      apply Hstep.
      * unfold remapped. rewrite lookup_insert_eq. simpl. unfold nonempty. by rewrite (proj2 (seqb_false _ _)).
      * subst newids. simpl. by rewrite Hear0.
      * intros i Hi. rewrite !elem_of_cons, (Hear i Hi). split; [|naive_solver].
        intros [->|?]; [by destruct Hf1|by right].
      * intros i Hi. apply Hids. by right.
      * intros i [x [[<- _]|[_ Hx]]%lookup_insert_Some]; apply elem_of_cons; right; [done|].
        apply Hre. by exists x.
      * intros i [->|Hi]%elem_of_cons; [right; exists k, id; split; [lia|done]|].
        destruct (Hseen i Hi) as [?|(j & x & ? & ?)]; [by left|right; exists j, x; split; [lia|done]].
      * intros Hs. destruct (Hseen _ Hs) as [?|(j & x & Hj & Heq)]; [done|]. apply (Hf3 j x); [lia|done].
      * intros i. rewrite elem_of_cons. done.
    + assert (id ∉ seen) as Hin.
      { intros Hin. apply not_true_iff_false in E. apply E, existsb_exists. exists id.
        by rewrite <-list_elem_of_In, seqb_refl. }
      apply Hstep.
      * unfold remapped. destruct (re !! id) eqn:Er; [|done]. exfalso. apply Hin, Hre. by eexists.
      * subst newids. simpl. by rewrite Hear0.
      * intros i Hi. by rewrite !elem_of_cons, (Hear i Hi).
      * intros i Hi. apply Hids. by right.
      * intros i Hi. apply elem_of_cons. right. by apply Hre.
      * intros i [->|Hi]%elem_of_cons; [by left|by apply Hseen].
      * done.
      * intros i. rewrite elem_of_cons. done.
Qed.
End Stream.

(** C29: parsing a stream of text and whole tool calls recovers them: the text is
    the concatenation of the text chunks; every call appears in order with its
    name and the concatenation of its argument fragments (read as JSON, or
    flagged as truncated), and what is returned are the calls no later one
    supersedes as a draft; a call keeps its id unless an earlier one had it, the
    repeats take the factory's ids in turn, and the ids are pairwise distinct. *)
Theorem parse_stream fresh items :
  fresh_ok fresh (item_ids items) →
  let r := parseResponseChunks fresh (concat (emit <$> items)) in
  let ids := given_ids fresh [] 0 (item_ids items) in
  textContent r = item_text items ∧ NoDup ids ∧ length ids = length (item_ids items) ∧
  toolCalls r = drop_reference (made_calls ids items) (made_calls ids items).
Proof.
  intros Hf. unfold parseResponseChunks.
  destruct (remap_stream fresh items [] [] ∅ 0 (item_ids items)) as (H2 & _ & H4).
  - done.
  - done.
  - intros id [x Hx]. by rewrite lookup_empty in Hx.
  - by intros id ?%not_elem_of_nil.
  - done.
  - destruct (H4 initial_parse) as (args & names & ->). cbn.
    split_and!; [done|done|apply given_ids_length|apply drop_is_reference].
Qed.

(** Of three whole calls of one tool, two with an empty object, the empty ones go. *)
Example empty_drafts_go :
  tc_argsJson <$> toolCalls (parseResponseChunks (λ _ id, id +:+ "'") (concat (emit <$>
    [ICall "t1" "read" ["{}"]; ICall "t2" "read" ["{}"];
     ICall "t3" "read" [json_stringify (JObj [("a", JInt 1)])]])))
  = [json_stringify (JObj [("a", JInt 1)])].
Proof. vm_compute. reflexivity. Qed.

Definition sample_fresh (k : nat) (id : string) : string := "dedup-" +:+ of_chars (repeat "x"%char k).

Lemma parse_stream_witness :
  let r := parseResponseChunks sample_fresh (concat (emit <$>
    [ICall "t1" "read" ["{"; "}"]; IText "hi"; ICall "t1" "read" ["[1]"]])) in
  textContent r = "hi" ∧ tc_id <$> toolCalls r = ["t1"; "dedup-"].
Proof.
  split; [|vm_compute; reflexivity].
  apply (parse_stream sample_fresh [ICall "t1" "read" ["{"; "}"]; IText "hi"; ICall "t1" "read" ["[1]"]]).
  assert (∀ a b, of_chars (repeat "x"%char a) = of_chars (repeat "x"%char b) → a = b) as Hinj.
  { induction a as [|a IH]; intros [|b] H; try done. f_equal. apply IH. by injection H. }
  intros k id. split; [|split].
  - simpl. intros H. apply elem_of_cons in H as [H|H]; [discriminate|].
    apply elem_of_cons in H as [H|H]; [discriminate|]. by apply not_elem_of_nil in H.
  - discriminate.
  - intros k' id' Hne H. apply Hne, Hinj. by injection H.
Defined.
