(* ===== verification/AgentLoop.v ===== *)
(** * The agent loop (packages/loop/src)

    The multi-turn loop of [ModularAgentLoop] with its circuit breakers
    (loop-guards.ts), error classification (error-classification.ts), degenerate
    turn recovery, transient retries and turn decisions; and the small policies
    retry-policy.ts and silence-timeout.ts.  The abstract methods (the model
    call, tool execution, persistence) and the abort and yield signals are
    oracles indexed by how often they were used; overridable hooks have the
    behaviour of the base class.  Spans, metrics and logging are left out. *)
From Stdlib Require Import Ascii.
From S2P Require Import Prelude Json Hlc Relations StreamParser.

Definition show (z : Z) : string := of_chars (print_Z z).
Definition quoted (s : string) : string := String dquote (s +:+ String dquote "").

(** ** loop-guards.ts *)
Record LoopGuardThresholds : Type := MkThresholds {
  maxConsecutiveTruncatedTurns : Z;
  maxConsecutiveDuplicateToolCalls : Z;
  maxConsecutiveErrorToolCalls : Z;
  errorSignatureNudgeAt : Z;
  maxConsecutiveRoutingErrorToolCalls : Z
}.
Definition DEFAULT_LOOP_GUARD_THRESHOLDS : LoopGuardThresholds := MkThresholds 5 12 12 5 3.

Definition truncateForNudge (content : string) : string :=
  let trimmed := trim content in
  if (String.length trimmed <=? 400)%nat then trimmed else String.substring 0 400 trimmed +:+ "…".

Definition NUL : string := String (ascii_of_nat 0) "".
Definition SOH : string := String (ascii_of_nat 1) "".

Definition toolCallSignature (toolCalls : list ParsedToolCall) : string :=
  join NUL ((λ tc, tc_name tc +:+ ":" +:+ tc_argsJson tc) <$> toolCalls).

Record LoopToolResult : Type := MkToolResult {
  tr_name : string;          (* toolCall.name *)
  tr_content : string;
  tr_exitCode : Z
}.

Definition toolErrorSignature (results : list LoopToolResult) : option string :=
  if (length results =? 0)%nat || negb (forallb (λ r, negb (tr_exitCode r =? 0)) results) then None
  else Some (join SOH ((λ r, tr_name r +:+ NUL +:+ tr_content r) <$> results)).

(** ** error-classification.ts *)
Inductive llm_error : Type :=
| LLMError (message : string) (statusCode : option Z)
| OtherError (message : string).

Definition err_message (e : llm_error) : string :=
  match e with LLMError m _ => m | OtherError m => m end.
Definition getLlmStatusCode (e : llm_error) : option Z :=
  match e with LLMError _ s => s | OtherError _ => None end.

Definition transient_message (errMsg : string) : bool :=
  includes errMsg "http2" || includes errMsg "ECONNRESET" || includes errMsg "socket hang up" ||
  includes errMsg "socket connection was closed" || includes errMsg "timed out" || includes errMsg "ETIMEDOUT".

Definition isTransientLLMError (error : llm_error) : bool :=
  match getLlmStatusCode error with
  | Some code =>
      if code =? 429 then false
      else if (400 <=? code) && (code <? 500) then false
      else if 500 <=? code then true
      else transient_message (err_message error)
  | None => transient_message (err_message error)
  end.

(** The regular expression of the quota messages: one of the words, between
    word boundaries, in any ASCII case. *)
Definition lower (c : ascii) : ascii :=
  let n := nat_of_ascii c in if ((65 <=? n) && (n <=? 90))%nat then ascii_of_nat (n + 32) else c.
Fixpoint to_lower (s : string) : string :=
  match s with EmptyString => EmptyString | String c s' => String (lower c) (to_lower s') end.
Definition word_char (c : ascii) : bool :=
  let n := nat_of_ascii c in
  ((48 <=? n) && (n <=? 57))%nat || ((65 <=? n) && (n <=? 90))%nat || ((97 <=? n) && (n <=? 122))%nat || (n =? 95)%nat.
Definition starts_word (s : string) : bool := match s with String c _ => word_char c | EmptyString => false end.
Definition match_word (w s : string) : bool :=
  starts_with w s && negb (starts_word (String.substring (String.length w) (String.length s - String.length w) s)).
Definition quota_words : list string := ["quota"; "usage limit"; "payment"; "billing"; "credit"; "credits"].
Fixpoint quota_search (prev_word : bool) (s : string) : bool :=
  (negb prev_word && existsb (λ w, match_word w s) quota_words) ||
  match s with EmptyString => false | String c s' => quota_search (word_char c) s' end.
Definition isQuotaCapMessage (message : string) : bool := quota_search false (to_lower message).

Definition isRateLimitStatus (statusCode : option Z) (message : string) : bool :=
  match statusCode with
  | Some c => (c =? 429) || (c =? 529) || (c =? 402)
  | None => isQuotaCapMessage message
  end.

(** ** retry-policy.ts and silence-timeout.ts *)
Record ToolAnnotations : Type := MkAnnotations { idempotent : option bool; readOnly : option bool }.
Definition is_true (b : option bool) : bool := match b with Some true => true | _ => false end.

Definition shouldRetryRelayCall (retriable definitely_not_executed : option bool) (attempt maxAttempts : Z)
    (aborted : bool) (annotations : option ToolAnnotations) : bool :=
  if aborted then false
  else if maxAttempts <=? attempt then false
  else if negb (is_true retriable) then false
  else if is_true definitely_not_executed then true
  else match annotations with
       | Some a => if is_true (readOnly a) then true else is_true (idempotent a)
       | None => false
       end.

(** A registered tool: its own annotations, or a resolver of them. *)
Record registered_tool : Type := MkTool {
  rt_resolve : option (json → ToolAnnotations);
  rt_annotations : ToolAnnotations
}.
Definition resolveToolAnnotations (registry : gmap string registered_tool) (toolName : string) (args : json)
    : ToolAnnotations :=
  match registry !! toolName with
  | None => MkAnnotations None None
  | Some tool => match rt_resolve tool with Some f => f args | None => rt_annotations tool end
  end.

Definition scaledSilenceTimeout (baseMs estimatedTokens : Z) : Z :=
  if estimatedTokens <=? 100000 then baseMs
  else baseMs + (estimatedTokens - 100000) / 50000 * 60000.

(** ** Guard state *)
Inductive LoopGuardReason : Type := truncated | duplicate | identical_error | routing_error.
Definition reason_text (r : LoopGuardReason) : string :=
  match r with
  | truncated => "truncated" | duplicate => "duplicate"
  | identical_error => "identical-error" | routing_error => "routing-error"
  end.

Record guard_state : Type := MkGuards {
  consecutiveTruncatedTurns : Z;
  lastTruncatedToolName : option string;
  consecutiveDuplicateToolCalls : Z;
  lastToolCallSignature : option string;
  consecutiveErrorSignature : Z;
  lastErrorSignature : option string;
  errorNudgeInjected : bool;
  consecutiveRoutingErrorSignature : Z;
  lastRoutingErrorSignature : option string
}.
Definition reset_guards : guard_state := MkGuards 0 None 0 None 0 None false 0 None.

Definition opt_is (o : option string) (s : string) : bool := match o with Some t => seqb t s | None => false end.

Definition track_truncated (g : guard_state) (first : option ParsedToolCall) : guard_state :=
  match g with
  | MkGuards ct lt cd ld ce le nudged cr lr =>
      match first with
      | Some tc => if opt_is lt (tc_name tc) then MkGuards (ct + 1) lt cd ld ce le nudged cr lr
                   else MkGuards 1 (Some (tc_name tc)) cd ld ce le nudged cr lr
      | None => MkGuards 0 None cd ld ce le nudged cr lr
      end
  end.
Definition track_duplicate (g : guard_state) (signature : string) : guard_state :=
  match g with
  | MkGuards ct lt cd ld ce le nudged cr lr =>
      if opt_is ld signature then MkGuards ct lt (cd + 1) ld ce le nudged cr lr
      else MkGuards ct lt 1 (Some signature) ce le nudged cr lr
  end.

Definition tool_names (names : list string) : string := join ", " (distinct [] names).

Definition guard_trip : Type := LoopGuardReason * string.

Definition duplicate_guard (t : LoopGuardThresholds) (toolCalls : list ParsedToolCall) (g : guard_state)
    : guard_state * option guard_trip :=
  let g2 := track_duplicate g (toolCallSignature toolCalls) in
  if maxConsecutiveDuplicateToolCalls t <=? consecutiveDuplicateToolCalls g2
  then (g2, Some (duplicate, "[Agent loop aborted] Detected " +:+ show (consecutiveDuplicateToolCalls g2) +:+
    " consecutive turns issuing the identical tool call(s) (" +:+ quoted (tool_names (tc_name <$> toolCalls)) +:+
    "). Aborting to prevent runaway token usage."))
  else (g2, None).

Definition runPreExecutionGuards (t : LoopGuardThresholds) (toolCalls : list ParsedToolCall) (g : guard_state)
    : guard_state * option guard_trip :=
  let firstTruncated := List.find tc_truncated toolCalls in
  let g1 := track_truncated g firstTruncated in
  match firstTruncated with
  | Some tc =>
      if maxConsecutiveTruncatedTurns t <=? consecutiveTruncatedTurns g1
      then (g1, Some (truncated, "[Agent loop aborted] Detected " +:+ show (consecutiveTruncatedTurns g1) +:+
        " consecutive turns with truncated " +:+ quoted (tc_name tc) +:+
        " tool calls. Aborting to prevent runaway token usage."))
      else duplicate_guard t toolCalls g1
  | None => duplicate_guard t toolCalls g1
  end.

(** [routing]: which results the host classifies as routing errors (none in the
    base class). *)
Definition recordToolErrorSignatures (routing : LoopToolResult → bool) (results : list LoopToolResult)
    (g : guard_state) : guard_state :=
  match g with
  | MkGuards ct lt cd ld ce le nudged cr lr =>
      let turnErrorSignature := toolErrorSignature results in
      let allRoutingErrors := (0 <? length results)%nat && forallb routing results in
      let turnRoutingErrorSignature := if allRoutingErrors then toolErrorSignature results else None in
      let '(cr', lr') :=
        match turnRoutingErrorSignature with
        | Some s => if opt_is lr s then (cr + 1, lr) else (1, Some s)
        | None => (0, None)
        end in
      match turnErrorSignature with
      | Some s =>
          if opt_is le s then MkGuards ct lt cd ld (ce + 1) le nudged cr' lr'
          else MkGuards ct lt cd ld 1 (Some s) false cr' lr'
      | None => MkGuards ct lt cd ld 0 None false cr' lr'
      end
  end.

Definition nudge_done (g : guard_state) : guard_state :=
  match g with MkGuards ct lt cd ld ce le _ cr lr => MkGuards ct lt cd ld ce le true cr lr end.

(** The guards' verdict, and the developer nudge pushed into the frame. *)
Definition runPostExecutionGuards (t : LoopGuardThresholds) (results : list LoopToolResult) (g : guard_state)
    : guard_state * option string * option guard_trip :=
  let lastError := truncateForNudge (match last results with Some r => tr_content r | None => "" end) in
  let errToolNames := quoted (tool_names (tr_name <$> results)) in
  if maxConsecutiveRoutingErrorToolCalls t <=? consecutiveRoutingErrorSignature g
  then (g, None, Some (routing_error, "[Agent loop aborted] The " +:+ errToolNames +:+
    " tool returned a cross-tool routing error " +:+ show (consecutiveRoutingErrorSignature g) +:+
    " turns in a row. Last error: " +:+ lastError))
  else if maxConsecutiveErrorToolCalls t <=? consecutiveErrorSignature g
  then (g, None, Some (identical_error, "[Agent loop aborted] The " +:+ errToolNames +:+
    " tool returned the identical error " +:+ show (consecutiveErrorSignature g) +:+
    " turns in a row. Last error: " +:+ lastError))
  else if negb (errorNudgeInjected g) && (errorSignatureNudgeAt t <=? consecutiveErrorSignature g)
  then (nudge_done g, Some ("[Loop guard] The " +:+ errToolNames +:+ " tool has returned the same error " +:+
    show (consecutiveErrorSignature g) +:+ " times in a row. Stop and re-read the error. Error: " +:+ lastError), None)
  else (g, None, None).

(** ** Assistant blocks *)
Inductive ContentBlock : Type :=
| ThinkingBlock (thinking : string) (signature redacted_data reasoning_encrypted_content : option string)
| TextBlock (text : string)
| ToolUseBlock (id name : string) (input : json).

Definition keep_truthy (o : option string) : option string := if truthy o then o else None.

Definition buildAssistantToolCallBlocks (text : string)
    (thinking signature redactedData encryptedContent : option string) (calls : list (string * string * json))
    : list ContentBlock :=
  (if truthy thinking || truthy redactedData || truthy encryptedContent
   then [ThinkingBlock (default "" thinking) (keep_truthy signature) (keep_truthy redactedData)
           (keep_truthy encryptedContent)] else []) ++
  (if nonempty text then [TextBlock text] else []) ++
  ((λ c, ToolUseBlock c.1.1 c.1.2 c.2) <$> calls).

(** ** Phases *)
Inductive AgentLoopState : Type :=
| IDLE | HYDRATE_FS | ASSEMBLE_CONTEXT | LLM_CALL | PARSE_RESPONSE | TOOL_EXECUTE | TOOL_PERSIST
| RESPONSE_PERSIST | FS_PERSIST | QUEUE_CHECK | ERROR_PERSIST | AWAIT_POLL | RELAY_WAIT | RELAY_STREAM.
#[export] Instance AgentLoopState_eq : EqDecision AgentLoopState.
Proof. solve_decision. Defined.

Definition VALID_TRANSITIONS (s : AgentLoopState) : list AgentLoopState :=
  match s with
  | IDLE => [HYDRATE_FS]
  | HYDRATE_FS => [ASSEMBLE_CONTEXT]
  | ASSEMBLE_CONTEXT => [LLM_CALL; RELAY_STREAM; ERROR_PERSIST; FS_PERSIST]
  | LLM_CALL => [LLM_CALL; PARSE_RESPONSE; ERROR_PERSIST]
  | PARSE_RESPONSE => [TOOL_EXECUTE; RESPONSE_PERSIST; FS_PERSIST]
  | TOOL_EXECUTE => [TOOL_PERSIST; RELAY_WAIT; ERROR_PERSIST]
  | TOOL_PERSIST => [LLM_CALL; RESPONSE_PERSIST; FS_PERSIST]
  | RESPONSE_PERSIST => [FS_PERSIST]
  | FS_PERSIST => [QUEUE_CHECK]
  | QUEUE_CHECK => [IDLE; ASSEMBLE_CONTEXT]
  | ERROR_PERSIST | AWAIT_POLL | RELAY_WAIT | RELAY_STREAM => []
  end.

(** The new phase, and whether [onInvalidPhaseTransition] is called: an invalid
    transition is reported and taken all the same. *)
Definition setPhase (validate : bool) (previous next : AgentLoopState) : AgentLoopState * bool :=
  (next, validate && negb (bool_decide (next ∈ VALID_TRANSITIONS previous))).

(** ** The loop *)
Inductive LoopTerminalOutcome : Type :=
| completed | aborted_outcome | yielded_outcome | model_resolution_failed | model_failed | max_turns
| guard_outcome (r : LoopGuardReason) | after_run_failed.

Record AgentLoopResult : Type := MkResult {
  outcome : LoopTerminalOutcome;
  error : option string;
  yielded : bool
}.

Inductive LoopTurnDecision : Type :=
| Continue
| Retry (rebuildFrame : bool)
| Stop (o : LoopTerminalOutcome) (reason : string)
| Yield
| Error (e : string).

Inductive LoopDecisionOutcome : Type :=
| OContinue
| ORetry (rebuildFrame : bool)
| OReturn (r : AgentLoopResult).

Inductive turn_status : Type := TurnSuccess | TurnError | TurnAborted.

Inductive LoopModelResolution : Type :=
| ResolutionError (message : option string)
| ResolutionNoWindow (modelId : string)
| Resolved.

(** The result of one model call: its chunks, and whether it stopped to yield. *)
Inductive model_outcome : Type :=
| ModelChunks (chunks : list StreamChunk) (yielding : bool)
| ModelError (e : llm_error).

Record host : Type := MkHost {
  h_fresh : nat → string → string;
  h_resolve : LoopModelResolution;
  h_model : nat → model_outcome;
  h_tools : nat → list LoopToolResult + llm_error;
  h_persist : nat → option llm_error;
  h_final : option llm_error;
  h_after : option string;
  h_abort : nat → bool;
  h_yield : nat → bool
}.

Record options : Type := MkOptions {
  o_maxTurns : option Z;
  o_maxTransientRetries : Z;
  o_degenerateRetryMax : Z;
  o_thresholds : LoopGuardThresholds
}.
Definition default_options : options := MkOptions None 3 2 DEFAULT_LOOP_GUARD_THRESHOLDS.

Record loop_state : Type := MkLoop {
  transportRetries : Z;
  degenerateRetries : Z;
  guards : guard_state;
  aborted : bool;
  ticks : nat;                                     (* abort and yield checks so far *)
  model_calls : nat;
  tool_rounds : nat;
  recorded : list (turn_status * ParsedResponse);  (* recordTurn *)
  alerts : list string;                            (* persistAlert *)
  nudges : list string;                            (* developer messages in the frame *)
  rebuilds : nat                                   (* prepareFrame calls after the first *)
}.

(** [resetResilienceState]; the abort flag and the host's rows survive. *)
Definition start_state (was_aborted : bool) : loop_state :=
  MkLoop 0 0 reset_guards was_aborted 0 0 0 [] [] [] 0.

Section Loop.
Context (h : host) (o : options).

Definition with_retries (t d : Z) (s : loop_state) : loop_state :=
  match s with MkLoop _ _ g ab ti mc tr rec al nu rb => MkLoop t d g ab ti mc tr rec al nu rb end.
Definition with_guards (g : guard_state) (s : loop_state) : loop_state :=
  match s with MkLoop t d _ ab ti mc tr rec al nu rb => MkLoop t d g ab ti mc tr rec al nu rb end.
Definition recordTurn (st : turn_status) (p : ParsedResponse) (s : loop_state) : loop_state :=
  match s with MkLoop t d g ab ti mc tr rec al nu rb => MkLoop t d g ab ti mc tr (rec ++ [(st, p)]) al nu rb end.
Definition persistAlert (a : string) (s : loop_state) : loop_state :=
  match s with MkLoop t d g ab ti mc tr rec al nu rb => MkLoop t d g ab ti mc tr rec (al ++ [a]) nu rb end.
Definition push_nudge (n : option string) (s : loop_state) : loop_state :=
  match s, n with
  | MkLoop t d g ab ti mc tr rec al nu rb, Some n => MkLoop t d g ab ti mc tr rec (al ++ [n]) (nu ++ [n]) rb
  | s, None => s
  end.
Definition rebuild (s : loop_state) : loop_state :=
  match s with MkLoop t d g ab ti mc tr rec al nu rb => MkLoop t d g ab ti mc tr rec al nu (S rb) end.

(** [shouldAbort]: the flag, set for good when the abort signal fires. *)
Definition shouldAbort (s : loop_state) : loop_state * bool :=
  match s with
  | MkLoop t d g ab ti mc tr rec al nu rb =>
      let ab' := ab || h_abort h ti in (MkLoop t d g ab' (S ti) mc tr rec al nu rb, ab')
  end.
Definition shouldYield (s : loop_state) : loop_state * bool :=
  match s with
  | MkLoop t d g ab ti mc tr rec al nu rb => (MkLoop t d g ab (S ti) mc tr rec al nu rb, h_yield h ti)
  end.
(** [callModel]: a stream cut short to yield sets the abort flag. *)
Definition callModel (s : loop_state) : loop_state * (list StreamChunk + llm_error) :=
  match s with
  | MkLoop t d g ab ti mc tr rec al nu rb =>
      match h_model h mc with
      | ModelChunks chunks y => (MkLoop t d g (ab || y) ti (S mc) tr rec al nu rb, inl chunks)
      | ModelError e => (MkLoop t d g ab ti (S mc) tr rec al nu rb, inr e)
      end
  end.
Definition next_round (s : loop_state) : loop_state :=
  match s with MkLoop t d g ab ti mc tr rec al nu rb => MkLoop t d g ab ti mc (S tr) rec al nu rb end.

Definition parse (chunks : list StreamChunk) : ParsedResponse := parseResponseChunks (h_fresh h) chunks.
Definition returns (oc : LoopTerminalOutcome) (e : option string) (y : bool) : LoopDecisionOutcome :=
  OReturn (MkResult oc e y).

(** *** Degenerate turns *)
Definition isDegenerateTurn (parsed : ParsedResponse) : bool :=
  if opt_is (finishReason parsed) "content-filter" then false
  else (truthy (thinking parsed) || truthy (thinkingRedactedData parsed) || truthy (thinkingEncryptedContent parsed)) &&
       (length (toolCalls parsed) =? 0)%nat && negb (nonempty (textContent parsed)).

Definition isTerminalDegenerateTurn (parsed : ParsedResponse) (s : loop_state) : bool :=
  isDegenerateTurn parsed && (o_degenerateRetryMax o <=? degenerateRetries s).

Definition checkDegenerateRetry (parsed : ParsedResponse) (s : loop_state) : loop_state * LoopTurnDecision :=
  if negb (isDegenerateTurn parsed) then (s, Continue)
  else if o_degenerateRetryMax o <=? degenerateRetries s
  then (s, Error ("Inference produced no actionable output (no text or tool call) after " +:+
              show (degenerateRetries s) +:+ " " +:+ (if degenerateRetries s =? 1 then "retry" else "retries") +:+ "."))
  else (with_retries (transportRetries s) (degenerateRetries s + 1) s, Retry true).

(** *** Model errors *)
Definition handleModelError (e : llm_error) (s : loop_state) : loop_state * LoopTurnDecision :=
  if isTransientLLMError e && (transportRetries s <? o_maxTransientRetries o)
  then (with_retries (transportRetries s + 1) (degenerateRetries s) s, Retry false)
  else (s, Continue).

Definition applyTurnDecision (d : LoopTurnDecision) : LoopDecisionOutcome :=
  match d with
  | Continue => OContinue
  | Retry rb => ORetry rb
  | Yield => returns yielded_outcome None true
  | Stop oc reason =>
      match oc with
      | guard_outcome _ => returns oc (Some reason) false
      | _ => returns oc None false
      end
  | Error e => returns completed (Some e) false
  end.

(** [handleTurnError]: [status] and the alert of an error that reached the turn. *)
Definition handleTurnError (e : llm_error) (chunks : list StreamChunk) (s : loop_state)
    : loop_state * LoopDecisionOutcome :=
  let message := err_message e in
  let '(s, ab) := shouldAbort s in
  (persistAlert ("Loop error: " +:+ message) (recordTurn (if ab then TurnAborted else TurnError) (parse chunks) s),
   returns model_failed (Some message) false).

Definition recordParsedTurn (parsed : ParsedResponse) (s : loop_state) : loop_state :=
  let '(s, ab) := shouldAbort s in
  recordTurn (if ab then TurnAborted else if isTerminalDegenerateTurn parsed s then TurnError else TurnSuccess) parsed s.

(** *** Tool calls *)
Definition tripGuard (trip : guard_trip) (s : loop_state) : loop_state * LoopTurnDecision :=
  let reason := reason_text trip.1 in
  (persistAlert ("[Agent loop guard] " +:+ reason) s,
   Stop (guard_outcome trip.1) ("loop guard tripped: " +:+ reason)).

Definition handleToolCalls (parsed : ParsedResponse) (s : loop_state) : loop_state * (LoopTurnDecision + llm_error) :=
  let '(g, trip) := runPreExecutionGuards (o_thresholds o) (toolCalls parsed) (guards s) in
  let s := with_guards g s in
  match trip with
  | Some trip => let '(s, d) := tripGuard trip s in (s, inl d)
  | None =>
      match h_tools h (tool_rounds s) with
      | inr e => (next_round s, inr e)
      | inl results =>
          let round := tool_rounds s in
          let s := next_round (with_guards (recordToolErrorSignatures (λ _, false) results (guards s)) s) in
          match h_persist h round with
          | Some e => (s, inr e)
          | None =>
              match runPostExecutionGuards (o_thresholds o) results (guards s) with
              | (g, _, Some trip) => let '(s, d) := tripGuard trip (with_guards g s) in (s, inl d)
              | (g, nudge, None) => (push_nudge nudge (with_guards g s), inl Continue)
              end
          end
      end
  end.

(** *** One turn *)
Definition runTurn (s : loop_state) : loop_state * LoopDecisionOutcome :=
  let '(s, ab) := shouldAbort s in
  if ab then
    let s := recordTurn TurnAborted (parse []) s in
    let '(s, y) := shouldYield s in
    (s, returns (if y then yielded_outcome else aborted_outcome) None y)
  else
    let '(s, y) := shouldYield s in
    if y then (s, returns yielded_outcome None true)
    else
      match callModel s with
      | (s, inr e) =>
          match handleModelError e s with
          | (s, Continue) => handleTurnError e [] s
          | (s, d) => (s, applyTurnDecision d)
          end
      | (s, inl chunks) =>
          let parsed := parse chunks in
          let s := recordParsedTurn parsed s in
          let '(s, d) := checkDegenerateRetry parsed s in
          match applyTurnDecision d with
          | OContinue =>
              if (length (toolCalls parsed) =? 0)%nat then
                match h_final h with
                | Some e => handleTurnError e chunks s
                | None => (s, returns completed None false)
                end
              else
                match handleToolCalls parsed s with
                | (s, inr e) => handleTurnError e chunks s
                | (s, inl d) => (s, applyTurnDecision d)
                end
          | out => (s, out)
          end
      end.

(** *** The run *)
Fixpoint run_loop (fuel : nat) (turn : Z) (s : loop_state) : option (loop_state * AgentLoopResult) :=
  match o_maxTurns o with
  | Some m =>
      if m <? turn then
        let error := "Loop exceeded maxTurns=" +:+ show m in
        Some (persistAlert error s, MkResult max_turns (Some error) false)
      else
        match fuel with
        | O => None
        | S fuel' =>
            match runTurn s with
            | (s, OReturn r) => Some (s, r)
            | (s, ORetry rb) => run_loop fuel' turn (if rb then rebuild s else s)
            | (s, OContinue) => run_loop fuel' (turn + 1) s
            end
        end
  | None =>
      match fuel with
      | O => None
      | S fuel' =>
          match runTurn s with
          | (s, OReturn r) => Some (s, r)
          | (s, ORetry rb) => run_loop fuel' turn (if rb then rebuild s else s)
          | (s, OContinue) => run_loop fuel' (turn + 1) s
          end
      end
  end.

(** The [finally] block: a failing [afterRun] changes the result that is
    recorded, not the one already returned. *)
Definition after_run (r : AgentLoopResult) : AgentLoopResult :=
  match h_after h with Some message => MkResult after_run_failed (Some message) false | None => r end.

(** The final state, the returned result and the recorded one. *)
Definition run (fuel : nat) (was_aborted : bool) : option (loop_state * AgentLoopResult * AgentLoopResult) :=
  let s := start_state was_aborted in
  let failed error := Some (persistAlert ("Loop error: " +:+ error) s, MkResult model_resolution_failed (Some error) false) in
  let returned :=
    match h_resolve h with
    | ResolutionError message => failed (default "model resolution failed" message)
    | ResolutionNoWindow modelId => failed ("Model " +:+ quoted modelId +:+ " resolved but advertises no context window")
    | Resolved => run_loop fuel 1 s
    end in
  match returned with Some (s, r) => Some (s, r, after_run r) | None => None end.
End Loop.

(** ** Retries *)
Section Facts.
Context (h : host) (o : options).

(** What a turn does to the retry budgets and the model-call count. *)
Definition turn_effect (s : loop_state) (s' : loop_state) (out : LoopDecisionOutcome) : Prop :=
  (model_calls s' ≤ S (model_calls s))%nat ∧
  match out with
  | ORetry true => transportRetries s' = transportRetries s ∧ degenerateRetries s' = degenerateRetries s + 1 ∧
                   degenerateRetries s < o_degenerateRetryMax o
  | ORetry false => degenerateRetries s' = degenerateRetries s ∧ transportRetries s' = transportRetries s + 1 ∧
                    transportRetries s < o_maxTransientRetries o
  | OContinue => transportRetries s' = transportRetries s ∧ degenerateRetries s' = degenerateRetries s
  | OReturn _ => True
  end.

Ltac open_state := match goal with s : loop_state |- _ => destruct s end.

Lemma shouldAbort_retries s : let s' := (shouldAbort h s).1 in
  transportRetries s' = transportRetries s ∧ degenerateRetries s' = degenerateRetries s ∧ model_calls s' = model_calls s.
Proof. by destruct s. Qed.
Lemma shouldYield_retries s : let s' := (shouldYield h s).1 in
  transportRetries s' = transportRetries s ∧ degenerateRetries s' = degenerateRetries s ∧ model_calls s' = model_calls s.
Proof. by destruct s. Qed.
Lemma recordTurn_retries st p s : let s' := recordTurn st p s in
  transportRetries s' = transportRetries s ∧ degenerateRetries s' = degenerateRetries s ∧ model_calls s' = model_calls s.
Proof. by destruct s. Qed.
Lemma recordParsed_retries p s : let s' := recordParsedTurn h o p s in
  transportRetries s' = transportRetries s ∧ degenerateRetries s' = degenerateRetries s ∧ model_calls s' = model_calls s.
Proof. by destruct s. Qed.
Lemma handleTurnError_spec e chunks s : let '(s', out) := handleTurnError h e chunks s in
  model_calls s' = model_calls s ∧ out = OReturn (MkResult model_failed (Some (err_message e)) false).
Proof. by destruct s. Qed.
Lemma handleToolCalls_retries p s : let s' := (handleToolCalls h o p s).1 in
  transportRetries s' = transportRetries s ∧ degenerateRetries s' = degenerateRetries s ∧ model_calls s' = model_calls s.
Proof.
  destruct s as [t d g ab ti mc tr rec al nu rb]. unfold handleToolCalls. cbn [guards toolCalls].
  destruct (runPreExecutionGuards _ _ g) as [g1 [trip|]]; [done|]. cbn [with_guards tool_rounds].
  destruct (h_tools h tr) as [results|e]; [|done]. cbn [with_guards guards next_round].
  destruct (h_persist h tr); [done|].
  destruct (runPostExecutionGuards _ _ _) as [[g2 nudge] [trip|]]; [done|]. by destruct nudge.
Qed.
Lemma handleToolCalls_decision p s : match (handleToolCalls h o p s).2 with
  | inl Continue | inl (Stop (guard_outcome _) _) | inr _ => True | _ => False end.
Proof.
  destruct s as [t d g ab ti mc tr rec al nu rb]. unfold handleToolCalls. cbn [guards toolCalls].
  destruct (runPreExecutionGuards _ _ g) as [g1 [trip|]]; [done|]. cbn [with_guards tool_rounds].
  destruct (h_tools h tr) as [results|e]; [|done]. cbn [with_guards guards next_round].
  destruct (h_persist h tr); [done|].
  destruct (runPostExecutionGuards _ _ _) as [[g2 nudge] [trip|]]; done.
Qed.

Lemma runTurn_effect s : let '(s', out) := runTurn h o s in turn_effect s s' out.
Proof.
  unfold runTurn. pose proof (shouldAbort_retries s) as Ha. destruct (shouldAbort h s) as [s1 ab]. cbn [fst] in Ha.
  destruct Ha as (Ha1 & Ha2 & Ha3). destruct ab.
  { pose proof (recordTurn_retries TurnAborted (parse h []) s1) as (_ & _ & Hr).
    pose proof (shouldYield_retries (recordTurn TurnAborted (parse h []) s1)) as Hy.
    destruct (shouldYield h _) as [s2 y]. cbn [fst] in Hy. split; [|done].
    rewrite (proj2 (proj2 Hy)), Hr, Ha3. lia. }
  pose proof (shouldYield_retries s1) as Hy. destruct (shouldYield h s1) as [s2 y]. cbn [fst] in Hy.
  destruct Hy as (Hy1 & Hy2 & Hy3). destruct y; [split; [lia|done]|].
  assert (∃ r, callModel h s2 = r ∧ transportRetries r.1 = transportRetries s2 ∧
    degenerateRetries r.1 = degenerateRetries s2 ∧ model_calls r.1 = S (model_calls s2)) as ([s3 out] & -> & Hc1 & Hc2 & Hc3).
  { exists (callModel h s2). destruct s2. cbn [callModel]. by destruct (h_model h _). }
  cbn [fst] in *. destruct out as [chunks|e].
  - cbv zeta. set (parsed := parse h chunks).
    pose proof (recordParsed_retries parsed s3) as (Hp1 & Hp2 & Hp3). set (s4 := recordParsedTurn h o parsed s3) in *.
    unfold checkDegenerateRetry. destruct (negb (isDegenerateTurn parsed)); cbn [applyTurnDecision].
    + destruct (length (toolCalls parsed) =? 0)%nat.
      * destruct (h_final h) as [e|]; [|split; [lia|done]].
        pose proof (handleTurnError_spec e chunks s4) as He. destruct (handleTurnError h e chunks s4) as [s5 out5].
        destruct He as [He ->]. split; [lia|done].
      * pose proof (handleToolCalls_retries parsed s4) as Ht. pose proof (handleToolCalls_decision parsed s4) as Hd.
        destruct (handleToolCalls h o parsed s4) as [s5 [d|e]]; cbn [fst snd] in *; destruct Ht as (Ht1 & Ht2 & Ht3).
        -- destruct d; try done; [split; [lia|split; lia]|]. destruct o0; try done. split; [lia|done].
        -- pose proof (handleTurnError_spec e chunks s5) as He. destruct (handleTurnError h e chunks s5) as [s6 out6].
           destruct He as [He ->]. split; [lia|done].
    + destruct (Z.leb_spec (o_degenerateRetryMax o) (degenerateRetries s4)); cbn [applyTurnDecision returns].
      * split; [lia|done].
      * destruct s4 as [t d g ab ti mc tr rec al nu rb]. simpl in *. split; [simpl; lia|split_and!; simpl; lia].
  - unfold handleModelError. destruct (isTransientLLMError e && (transportRetries s3 <? o_maxTransientRetries o)) eqn:E.
    + apply andb_prop in E as [_ E%Z.ltb_lt]. destruct s3 as [t d g ab ti mc tr rec al nu rb]. simpl in *.
      split; [simpl; lia|split_and!; simpl; lia].
    + pose proof (handleTurnError_spec e [] s3) as He. destruct (handleTurnError h e [] s3) as [s5 out5].
      destruct He as [He ->]. split; [lia|done].
Qed.

(** Turns and retries left. *)
Definition budget (m turn : Z) (s : loop_state) : Z :=
  Z.max 0 (m - turn + 1) + Z.max 0 (o_maxTransientRetries o - transportRetries s) +
  Z.max 0 (o_degenerateRetryMax o - degenerateRetries s).

Lemma rebuild_retries (b : bool) s : let s' := if b then rebuild s else s in
  transportRetries s' = transportRetries s ∧ degenerateRetries s' = degenerateRetries s ∧ model_calls s' = model_calls s.
Proof. by destruct s, b. Qed.

Lemma run_loop_total fuel m turn s :
  o_maxTurns o = Some m → budget m turn s < Z.of_nat fuel →
  ∃ s' r, run_loop h o fuel turn s = Some (s', r) ∧
    Z.of_nat (model_calls s') ≤ Z.of_nat (model_calls s) + budget m turn s.
Proof.
  intros Hm. revert turn s. induction fuel as [|fuel IH]; intros turn s Hf; [unfold budget in Hf; lia|].
  cbn [run_loop]. rewrite Hm. destruct (Z.ltb_spec m turn).
  { eexists _, _. split; [reflexivity|]. destruct s. simpl. unfold budget. simpl. lia. }
  pose proof (runTurn_effect s) as He. destruct (runTurn h o s) as [s1 out]. destruct He as [Hmc He].
  destruct out as [|rb|r].
  - destruct (IH (turn + 1) s1) as (s' & r & -> & Hc); [unfold budget in *; lia|].
    exists s', r. split; [done|]. unfold budget in *. lia.
  - pose proof (rebuild_retries rb s1) as (R1 & R2 & R3).
    destruct (IH turn (if rb then rebuild s1 else s1)) as (s' & r & -> & Hc).
    { unfold budget in *. rewrite R1, R2. destruct rb; lia. }
    exists s', r. split; [done|]. unfold budget in *. rewrite R1, R2 in Hc. destruct rb; lia.
  - exists s1, r. split; [done|]. unfold budget. lia.
Qed.
End Facts.

(** C30: a run with a turn limit terminates whatever the model, the tools and
    the signals do: it returns a result after at most [maxTurns] turns plus the
    transient and degenerate retry budgets, counted in model calls. *)
Theorem run_terminates h o m fuel was_aborted :
  o_maxTurns o = Some m → 0 ≤ m → 0 ≤ o_maxTransientRetries o → 0 ≤ o_degenerateRetryMax o →
  m + o_maxTransientRetries o + o_degenerateRetryMax o < Z.of_nat fuel →
  ∃ s r rec, run h o fuel was_aborted = Some (s, r, rec) ∧
    Z.of_nat (model_calls s) ≤ m + o_maxTransientRetries o + o_degenerateRetryMax o.
Proof.
  intros Hm H0 HT HD Hf. unfold run. cbv zeta.
  destruct (h_resolve h); [eexists _, _, _; split; [reflexivity|simpl; lia]..|].
  destruct (run_loop_total h o fuel m 1 (start_state was_aborted) Hm) as (s & r & -> & Hc).
  { unfold budget. simpl. lia. }
  eexists _, _, _. split; [reflexivity|]. unfold budget in Hc. simpl in Hc. lia.
Qed.

(** A host for the witnesses: the same model call every time, tools that answer. *)
Definition constant_host (chunks : list StreamChunk) (results : list LoopToolResult) : host :=
  MkHost (λ _ id, id +:+ "'") Resolved (λ _, ModelChunks chunks false) (λ _, inl results) (λ _, None) None None
    (λ _, false) (λ _, false).
Definition call_chunks : list StreamChunk := [ToolUseStart "t" "read"; ToolUseArgs "t" "{}"; ToolUseEnd "t"].
Definition thinking_chunks : list StreamChunk := [Thinking "hmm" None None None].

Lemma run_terminates_witness :
  ∃ s r rec, run (constant_host call_chunks [MkToolResult "read" "ok" 0])
      (MkOptions (Some 2) 3 2 DEFAULT_LOOP_GUARD_THRESHOLDS) 8 false = Some (s, r, rec) ∧
    Z.of_nat (model_calls s) ≤ 2 + 3 + 2.
Proof.
  apply (run_terminates (constant_host call_chunks [MkToolResult "read" "ok" 0])
    (MkOptions (Some 2) 3 2 DEFAULT_LOOP_GUARD_THRESHOLDS) 2 8 false); (reflexivity || (simpl; lia)).
Defined.

(** ** Degenerate turns *)

(** One step of the loop while turns are left. *)
Lemma run_loop_step h o fuel s :
  match o_maxTurns o with Some m => 1 ≤ m | None => True end →
  run_loop h o (S fuel) 1 s =
    match runTurn h o s with
    | (s, OReturn r) => Some (s, r)
    | (s, ORetry rb) => run_loop h o fuel 1 (if rb then rebuild s else s)
    | (s, OContinue) => run_loop h o fuel 2 s
    end.
Proof. intros H. cbn [run_loop]. destruct (o_maxTurns o) as [m|]; [|done]. by destruct (Z.ltb_spec m 1); [lia|]. Qed.

(** A degenerate turn is recorded and retried, or ends the run. *)
Lemma runTurn_degenerate h o s chunks :
  h_model h (model_calls s) = ModelChunks chunks false → isDegenerateTurn (parse h chunks) = true →
  (∀ k, h_abort h k = false) → (∀ k, h_yield h k = false) → aborted s = false →
  ∃ s', aborted s' = false ∧ model_calls s' = S (model_calls s) ∧ rebuilds s' = rebuilds s ∧
    if o_degenerateRetryMax o <=? degenerateRetries s
    then (∃ e, runTurn h o s = (s', OReturn (MkResult completed (Some e) false))) ∧
         (recorded s').*1 = (recorded s).*1 ++ [TurnError]
    else runTurn h o s = (s', ORetry true) ∧ degenerateRetries s' = degenerateRetries s + 1 ∧
         (recorded s').*1 = (recorded s).*1 ++ [TurnSuccess].
Proof.
  intros Hm Hd Habort Hyield Hab. destruct s as [t d g ab ti mc tr rec al nu rb]. simpl in *. subst ab.
  unfold runTurn. cbn [shouldAbort shouldYield]. rewrite Habort, Hyield. cbn [orb callModel]. rewrite Hm.
  cbv zeta. unfold recordParsedTurn. cbn [shouldAbort]. rewrite Habort. cbn [orb].
  unfold checkDegenerateRetry, isTerminalDegenerateTurn. cbn [recordTurn degenerateRetries]. rewrite Hd. cbn [negb andb].
  destruct (o_degenerateRetryMax o <=? d); cbn [applyTurnDecision returns].
  - eexists. split; [|split; [|split; [|split; [by eexists|]]]]; [done..|]. simpl. by rewrite fmap_app.
  - eexists. split; [|split; [|split; [|split; [reflexivity|]]]]; [done..|]. simpl. by rewrite fmap_app.
Qed.

(** a model that only thinks ends the run in an error: without aborts,
    yields or transient faults, each such turn is retried with a rebuilt frame
    until the retry budget is spent, then the run returns an error after
    exactly one call more than there are retries; every retried turn is
    recorded as a success and the last one as an error.  The result keeps the
    outcome [completed]. *)
Theorem degenerate_exhaustion h o D fuel :
  h_resolve h = Resolved → (∀ k, ∃ chunks, h_model h k = ModelChunks chunks false ∧ isDegenerateTurn (parse h chunks) = true) →
  (∀ k, h_abort h k = false) → (∀ k, h_yield h k = false) →
  o_degenerateRetryMax o = Z.of_nat D → (match o_maxTurns o with Some m => 1 ≤ m | None => True end) → (D < fuel)%nat →
  ∃ s e rec, run h o fuel false = Some (s, MkResult completed (Some e) false, rec) ∧
    model_calls s = S D ∧ rebuilds s = D ∧ (recorded s).*1 = replicate D TurnSuccess ++ [TurnError].
Proof.
  intros Hres Hmodel Habort Hyield HD Hmax Hfuel. unfold run. rewrite Hres. cbv zeta.
  assert (∀ n fuel s, degenerateRetries s + Z.of_nat n = Z.of_nat D → aborted s = false → (n < fuel)%nat →
    ∃ s' e, run_loop h o fuel 1 s = Some (s', MkResult completed (Some e) false) ∧
      model_calls s' = (model_calls s + S n)%nat ∧ rebuilds s' = (rebuilds s + n)%nat ∧
      (recorded s').*1 = (recorded s).*1 ++ replicate n TurnSuccess ++ [TurnError]) as Hrun.
  2: { destruct (Hrun D fuel (start_state false)) as (s' & e & -> & H1 & H2 & H3); [done..|].
       exists s', e. eexists. split; [reflexivity|]. done. }
  clear Hfuel. induction n as [|n IH]; intros [|fuel'] s Hn Hab Hf; try lia; rewrite run_loop_step by done.
  all: destruct (Hmodel (model_calls s)) as (chunks & Hm & Hd).
  all: destruct (runTurn_degenerate h o s chunks Hm Hd Habort Hyield Hab) as (s1 & Hab1 & Hmc & Hrb & Hout).
  all: rewrite HD in Hout; destruct (Z.leb_spec (Z.of_nat D) (degenerateRetries s)); try lia.
  - destruct Hout as [[e ->] Hrec]. exists s1, e. rewrite Hmc, Hrb, Hrec. split_and!; [done|lia|lia|done].
  - destruct Hout as (-> & Hd1 & Hrec).
    assert (∀ x, degenerateRetries (rebuild x) = degenerateRetries x ∧ aborted (rebuild x) = aborted x ∧
      model_calls (rebuild x) = model_calls x ∧ rebuilds (rebuild x) = S (rebuilds x) ∧
      recorded (rebuild x) = recorded x) as Hx by by intros [].
    destruct (Hx s1) as (X1 & X2 & X3 & X4 & X5).
    destruct (IH fuel' (rebuild s1)) as (s' & e & -> & H1 & H2 & H3); [lia|congruence|lia|].
    exists s', e. rewrite H1, H2, H3, X3, X4, X5, Hmc, Hrb, Hrec. simpl. rewrite <-app_assoc.
    split_and!; [done|lia|lia|done].
Qed.

Lemma degenerate_exhaustion_witness :
  ∃ s e rec, run (constant_host thinking_chunks []) default_options 3 false = Some (s, MkResult completed (Some e) false, rec) ∧
    model_calls s = 3%nat ∧ rebuilds s = 2%nat ∧ (recorded s).*1 = [TurnSuccess; TurnSuccess; TurnError].
Proof.
  apply (degenerate_exhaustion (constant_host thinking_chunks []) default_options 2 3); try reflexivity; try exact I; try lia.
  intros k. exists thinking_chunks. split; [reflexivity|vm_compute; reflexivity].
Defined.

(** ** The duplicate-call breaker *)

(** How many times the last element was repeated at the end. *)
Fixpoint run_length (x : string) (rev_l : list string) : Z :=
  match rev_l with
  | [] => 0
  | y :: l => if seqb y x then 1 + run_length x l else 0
  end.
Definition trailing_run (l : list string) : Z :=
  match reverse l with [] => 0 | x :: _ => run_length x (reverse l) end.

(** The guard state after a history of turns. *)
Definition guard_history (t : LoopGuardThresholds) (turns : list (list ParsedToolCall)) : guard_state :=
  foldl (λ g calls, (runPreExecutionGuards t calls g).1) reset_guards turns.

Definition none_truncated (calls : list ParsedToolCall) : bool := forallb (λ c, negb (tc_truncated c)) calls.

Lemma none_truncated_find calls : none_truncated calls = true → List.find tc_truncated calls = None.
Proof.
  induction calls as [|c calls IH]; [done|]. simpl. intros [Hc H]%andb_prop.
  apply negb_true_iff in Hc. rewrite Hc. by apply IH.
Qed.

Lemma pre_guards_untruncated t calls g :
  none_truncated calls = true →
  runPreExecutionGuards t calls g = duplicate_guard t calls (track_truncated g None).
Proof. intros H. unfold runPreExecutionGuards. by rewrite (none_truncated_find _ H). Qed.

Lemma trailing_run_snoc l x :
  trailing_run (l ++ [x]) = if opt_is (last l) x then trailing_run l + 1 else 1.
Proof.
  unfold trailing_run. rewrite reverse_snoc. cbn [run_length]. rewrite seqb_refl.
  destruct l as [|y l _] using rev_ind; [done|]. rewrite reverse_snoc, last_snoc. cbn [opt_is run_length].
  destruct (seqb y x) eqn:E; [|done]. apply seqb_true in E as ->. rewrite seqb_refl. lia.
Qed.

Lemma guard_history_counts t turns :
  Forall (λ c, none_truncated c = true) turns →
  consecutiveDuplicateToolCalls (guard_history t turns) = trailing_run (toolCallSignature <$> turns) ∧
  lastToolCallSignature (guard_history t turns) = last (toolCallSignature <$> turns).
Proof.
  intros H. induction turns as [|calls turns IH] using rev_ind; [done|].
  apply Forall_app in H as [H Hc]. apply Forall_cons_1 in Hc as [Hc _]. destruct (IH H) as [H1 H2].
  unfold guard_history in *. rewrite foldl_app. cbn [foldl]. rewrite (pre_guards_untruncated t calls _ Hc).
  destruct (foldl _ reset_guards turns) as [ct lt cd ld ce le nu cr lr]. cbn [consecutiveDuplicateToolCalls lastToolCallSignature] in *.
  rewrite fmap_app. simpl fmap. rewrite trailing_run_snoc, last_snoc, <-H2, <-H1.
  unfold duplicate_guard. cbn [track_truncated track_duplicate].
  destruct (opt_is ld (toolCallSignature calls)) eqn:E; cbn [consecutiveDuplicateToolCalls];
    destruct (_ <=? _); cbn [fst consecutiveDuplicateToolCalls lastToolCallSignature]; (split; [done|]); try done.
  all: destruct ld as [z|]; [|done]; simpl in E; apply seqb_true in E as ->; done.
Qed.

(** the duplicate-call breaker fires exactly on a spin: after any history of
    turns without truncated calls it stops the loop at a turn if and only if
    the turn and the ones before it end in a run of identical calls (by name
    and raw arguments) as long as the threshold; a turn whose calls differ from
    the previous turn's resets the count. *)
Theorem duplicate_guard_exact t turns calls :
  Forall (λ c, none_truncated c = true) (turns ++ [calls]) →
  (∃ detail, (runPreExecutionGuards t calls (guard_history t turns)).2 = Some (duplicate, detail)) ↔
  maxConsecutiveDuplicateToolCalls t ≤ trailing_run (toolCallSignature <$> (turns ++ [calls])).
Proof.
  intros H. pose proof (guard_history_counts t (turns ++ [calls]) H) as [Hc _].
  apply Forall_app in H as [_ H]. apply Forall_cons_1 in H as [H _]. rewrite <-Hc. unfold guard_history at 2. rewrite foldl_app.
  cbn [foldl]. fold (guard_history t turns).
  rewrite (pre_guards_untruncated t calls _ H). unfold duplicate_guard.
  destruct (Z.leb_spec (maxConsecutiveDuplicateToolCalls t) (consecutiveDuplicateToolCalls
    (track_duplicate (track_truncated (guard_history t turns) None) (toolCallSignature calls)))) as [Hle|Hlt]; cbn [fst snd].
  - split; [done|]. intros _. by eexists.
  - split; [by intros [d ?]|lia].
Qed.

Lemma duplicate_guard_exact_witness :
  let calls := [MkCall "t" "read" (JObj []) "{}" false] in
  ∃ detail, (runPreExecutionGuards (MkThresholds 5 3 12 5 3) calls
    (guard_history (MkThresholds 5 3 12 5 3) [calls; calls])).2 = Some (duplicate, detail).
Proof.
  apply (duplicate_guard_exact (MkThresholds 5 3 12 5 3)
    [[MkCall "t" "read" (JObj []) "{}" false]; [MkCall "t" "read" (JObj []) "{}" false]]
    [MkCall "t" "read" (JObj []) "{}" false]).
  - repeat (apply List.Forall_cons; [reflexivity|]). apply List.Forall_nil.
  - vm_compute. discriminate.
Defined.
