(* ===== verification/ToolPairs.v ===== *)
(** * Tool-pair sanitization (packages/agent/src/tool-pair-sanitize)

    Stage 3 of context assembly: the persisted message stream of a thread is
    made legal for the model providers, which want every tool call followed by
    its results.  [reorderPass] gathers the results of each call behind it,
    [repairPass] writes stubs for what is missing, and the two predicates of
    helpers.ts say what "legal" means.

    A JavaScript [Set] of strings is the list of its elements in insertion
    order.  A message pushed by [reorderPass] carries its index in the input
    until the end.  Ids of tool_use blocks that are not strings, which the
    TypeScript cast rules out, are ignored. *)
From S2P Require Import Prelude Json.

(** ** Sets of strings in insertion order *)
Definition set_has (n : string) (s : list string) : bool := existsb (seqb n) s.
Definition set_add (s : list string) (n : string) : list string := if set_has n s then s else s ++ [n].
Definition set_of (l : list string) : list string := fold_left set_add l [].
Definition set_delete (n : string) (s : list string) : list string := List.filter (λ m, negb (seqb m n)) s.

(** ** Messages *)
Record Message : Type := MkMessage {
  msg_id : string;
  thread_id : string;
  role : string;
  content : string;
  model_id : option string;
  tool_name : option string;
  created_at : string;
  modified_at : option string;
  host_origin : string;
  deleted : Z;
  exit_code : option Z;
  metadata : option string
}.
#[export] Instance Message_eq : EqDecision Message.
Proof. solve_decision. Defined.
Definition is_role (r : string) (m : Message) : bool := seqb (role m) r.
Definition is_call : Message → bool := is_role "tool_call".
Definition is_result : Message → bool := is_role "tool_result".

(** ** helpers.ts *)

(** [None]: a [null] block, on which reading [b.type] throws. *)
Fixpoint tool_use_ids (blocks : list json) : option (list string) :=
  match blocks with
  | [] => Some []
  | JNull :: _ => None
  | b :: blocks' =>
      match tool_use_ids blocks' with
      | None => None
      | Some ids =>
          match json_get "type" b, json_get "id" b with
          | Some (JStr t), Some (JStr i) => Some (if seqb t "tool_use" && nonempty i then i :: ids else ids)
          | _, _ => Some ids
          end
      end
  end.

Definition extractToolUseIds (c : string) : list string :=
  match json_parse c with
  | Some (JArr blocks) => default [] (tool_use_ids blocks)
  | _ => []
  end.
Definition ids_of (m : Message) : list string := extractToolUseIds (content m).

Fixpoint orphan_scan (knownIds : list string) (messages : list Message) : bool :=
  match messages with
  | [] => false
  | m :: ms =>
      if is_call m then orphan_scan (fold_left set_add (ids_of m) knownIds) ms
      else if is_result m then
        match tool_name m with
        | Some n => if negb (set_has n knownIds) then true else orphan_scan knownIds ms
        | None => orphan_scan knownIds ms
        end
      else orphan_scan knownIds ms
  end.
Definition hasOrphanedToolResult (messages : list Message) : bool := orphan_scan [] messages.

Definition is_empty {A} (l : list A) : bool := (length l =? 0)%nat.

(** One message of [hasUnclosedToolCall]; [None]: it returns true. *)
Definition unclosed_step (m : Message) (s : list string * bool) : option (list string * bool) :=
  let '(pending, inActiveCall) := s in
  if is_call m then
    if negb (is_empty pending) || inActiveCall then None
    else let pending := set_of (ids_of m) in Some (pending, is_empty pending)
  else if is_result m then
    let pending :=
      if truthy (tool_name m) && set_has (default "" (tool_name m)) pending
      then set_delete (default "" (tool_name m)) pending else pending in
    Some (pending, if is_empty pending then false else inActiveCall)
  else if negb (is_empty pending) || inActiveCall then None else Some s.
Fixpoint unclosed_scan (messages : list Message) (s : list string * bool) : option (list string * bool) :=
  match messages with
  | [] => Some s
  | m :: ms => match unclosed_step m s with None => None | Some s => unclosed_scan ms s end
  end.
Definition hasUnclosedToolCall (messages : list Message) : bool :=
  match unclosed_scan messages ([], false) with
  | None => true
  | Some (pending, inActiveCall) => negb (is_empty pending) || inActiveCall
  end.

(** ** Pass 1: reorder *)
Section Reorder.
Context (messages : list Message).

Definition index_add (idx : gmap string (list nat)) (km : nat * Message) : gmap string (list nat) :=
  if is_result km.2 && truthy (tool_name km.2) then
    let n := default "" (tool_name km.2) in
    match idx !! n with
    | Some arr => <[n := arr ++ [km.1]]> idx
    | None => <[n := [km.1]]> idx
    end
  else idx.
Definition enumerate : list (nat * Message) := imap pair messages.
Definition resultIndicesByName : gmap string (list nat) := fold_left index_add enumerate ∅.

(** The cursor moves past indices that are claimed or not after the boundary. *)
Fixpoint advance (consumed : gset nat) (afterIndex : nat) (rest : list nat) (c : nat) : nat :=
  match rest with
  | [] => c
  | k :: rest' =>
      if (k <=? afterIndex)%nat || bool_decide (k ∈ consumed) then advance consumed afterIndex rest' (S c) else c
  end.

Definition claimStraggler (consumed : gset nat) (name : string) (afterIndex : nat) (nameCursor : gmap string nat)
    : gmap string nat * option nat :=
  match resultIndicesByName !! name with
  | None => (nameCursor, None)
  | Some arr =>
      let c := default 0%nat (nameCursor !! name) in
      let c := advance consumed afterIndex (drop c arr) c in
      (<[name := c]> nameCursor, arr !! c)
  end.

Fixpoint claim_all (consumed : gset nat) (afterIndex : nat) (ids : list string) (nameCursor : gmap string nat)
    : gmap string nat * list nat :=
  match ids with
  | [] => (nameCursor, [])
  | i :: ids' =>
      let '(cur, found) := claimStraggler consumed i afterIndex nameCursor in
      let '(cur, more) := claim_all consumed afterIndex ids' cur in
      (cur, option_list found ++ more)
  end.

Record scan_state : Type := MkScan {
  matchIndices : list (nat * Message);
  nonTool : list (nat * Message);
  pendingToolUseIds : list string;
  boundaryIndex : option nat
}.

(** Phase 1: up to the next tool call, or the first other message after the
    last pending result. *)
Fixpoint scan (consumed : gset nat) (rest : list (nat * Message)) (matches others : list (nat * Message))
    (pending : list string) : scan_state :=
  match rest with
  | [] => MkScan matches others pending None
  | (j, m) :: rest' =>
      if bool_decide (j ∈ consumed) then scan consumed rest' matches others pending
      else if is_call m then
        MkScan matches others pending (if is_empty pending then None else Some j)
      else if is_result m then
        scan consumed rest' (matches ++ [(j, m)]) others
          (match tool_name m with Some n => if nonempty n then set_delete n pending else pending | None => pending end)
      else if negb (is_empty matches) && is_empty pending then MkScan matches others pending None
      else if negb (is_role "assistant" m) then scan consumed rest' matches (others ++ [(j, m)]) pending
      else scan consumed rest' matches others pending
  end.

(** Phase 2: the results past the boundary, in array order. *)
Definition stragglers (consumed : gset nat) (nameCursor : gmap string nat) (s : scan_state)
    : gmap string nat * list nat :=
  match boundaryIndex s with
  | Some b =>
      if is_empty (pendingToolUseIds s) then (nameCursor, [])
      else let '(cur, found) := claim_all consumed b (pendingToolUseIds s) nameCursor in
           (cur, merge_sort Nat.le found)
  | None => (nameCursor, [])
  end.

Definition fetch (k : nat) : list (nat * Message) :=
  match messages !! k with Some m => [(k, m)] | None => [] end.

Fixpoint reorder_loop (ms : list (nat * Message)) (consumed : gset nat) (nameCursor : gmap string nat)
    (reordered : list (nat * Message)) : list (nat * Message) :=
  match ms with
  | [] => reordered
  | (i, msg) :: rest =>
      if bool_decide (i ∈ consumed) then reorder_loop rest consumed nameCursor reordered
      else if negb (is_call msg) then reorder_loop rest consumed nameCursor (reordered ++ [(i, msg)])
      else
        let s := scan consumed rest [] [] (set_of (ids_of msg)) in
        let '(cur, found) := stragglers consumed nameCursor s in
        let matches := matchIndices s ++ (found ≫= fetch) in
        let consumed := consumed ∪ list_to_set (nonTool s).*1 ∪ list_to_set matches.*1 in
        reorder_loop rest consumed cur (reordered ++ nonTool s ++ [(i, msg)] ++ matches)
  end.

Definition reorderPass : list Message := (reorder_loop enumerate ∅ ∅ []).*2.
End Reorder.

(** ** Pass 2: repair *)
Definition synthetic_result (threadId nowIso id errContent : string) (tool : option string) : Message :=
  MkMessage id threadId "tool_result" errContent None tool nowIso (Some nowIso) "local" 0 None None.

Definition number (n : nat) : string := of_chars (print_Z (Z.of_nat n)).

Definition makeSyntheticResults (threadId nowIso lastToolId prefix : string) (toolUseIds : list string)
    (errContent : string) : list Message :=
  if is_empty toolUseIds
  then [synthetic_result threadId nowIso (prefix +:+ "-" +:+ lastToolId) errContent None]
  else imap (λ idx tuId,
         synthetic_result threadId nowIso (prefix +:+ "-" +:+ lastToolId +:+ "-" +:+ number idx) errContent (Some tuId))
       toolUseIds.

Definition unknown_block (toolUseId : string) : json :=
  JObj [("type", JStr "tool_use"); ("id", JStr toolUseId); ("name", JStr "unknown"); ("input", JObj [])].

Definition synthetic_call (threadId : string) (m : Message) (toolUseId : string) : Message :=
  MkMessage ("synthetic-" +:+ msg_id m) threadId "tool_call" (json_stringify (JArr [unknown_block toolUseId]))
    None (Some toolUseId) (created_at m) (modified_at m) (host_origin m) 0 None None.

Definition set_content (c : string) (m : Message) : Message :=
  match m with MkMessage i t r _ mo tn ca ma ho d ec me => MkMessage i t r c mo tn ca ma ho d ec me end.

Definition has_id (toolUseId : string) (b : json) : bool :=
  match json_get "id" b with Some (JStr i) => seqb i toolUseId | _ => false end.
(** The [try] block on the last synthetic call. *)
Definition extend_synthetic (toolUseId : string) (m : Message) : Message :=
  match json_parse (content m) with
  | Some (JArr blocks) =>
      if existsb (has_id toolUseId) blocks then m
      else set_content (json_stringify (JArr (blocks ++ [unknown_block toolUseId]))) m
  | _ => m
  end.

(** The messages are shared by reference: [lastSyntheticToolCall] is the
    position in [sanitized] of the object that is still written to. *)
Record repair_state : Type := MkRepair {
  sanitized : list Message;
  activePendingIds : list string;
  inActiveToolCall : bool;
  lastToolId : string;
  lastToolUseIds : list string;
  prevSanitizedRole : option string;
  lastSyntheticToolCall : option nat
}.

Section Repair.
Context (threadId nowIso : string).

Definition flushPendingIds (prefix errContent : string) (s : repair_state) : repair_state :=
  match s with
  | MkRepair out pending act tid ids prev syn =>
      if negb (is_empty pending)
      then MkRepair (out ++ makeSyntheticResults threadId nowIso tid prefix pending errContent) [] act tid ids prev syn
      else s
  end.

(** The pending results of the open call, before a message that is not a tool's
    and at the end. *)
Definition close_call (prefix errContent : string) (s : repair_state) : repair_state :=
  match s with
  | MkRepair out pending act tid ids prev syn =>
      if act
      then MkRepair (out ++ makeSyntheticResults threadId nowIso tid prefix ids errContent) [] false tid ids prev syn
      else flushPendingIds prefix errContent s
  end.

Definition INTERRUPTED : string := "Tool execution was interrupted".

Definition repair_step (s : repair_state) (msg : Message) : repair_state :=
  if is_call msg then
    match flushPendingIds "synthetic" INTERRUPTED s with
    | MkRepair out _ _ _ _ _ _ =>
        MkRepair (out ++ [msg]) (set_of (ids_of msg)) true (msg_id msg) (ids_of msg) (Some "tool_call") None
    end
  else if is_result msg then
    match s with
    | MkRepair out pending act tid ids prev syn =>
        if negb (is_empty pending) || act then
          let pending := match tool_name msg with
                         | Some n => if nonempty n then set_delete n pending else pending
                         | None => pending
                         end in
          MkRepair (out ++ [msg]) pending false tid ids (Some "tool_result") syn
        else
          let toolUseId := if truthy (tool_name msg) then default "" (tool_name msg)
                           else "synthetic-tc-" +:+ msg_id msg in
          match prev, syn with
          | Some "tool_result", Some k =>
              MkRepair (alter (extend_synthetic toolUseId) k out ++ [msg]) pending act tid ids prev syn
          | _, _ =>
              MkRepair (out ++ [synthetic_call threadId msg toolUseId; msg]) pending act tid ids
                (Some "tool_result") (Some (length out))
          end
    end
  else
    match close_call "synthetic" INTERRUPTED s with
    | MkRepair out pending act tid ids _ _ => MkRepair (out ++ [msg]) pending act tid ids (Some (role msg)) None
    end.

Definition repairPass (messages : list Message) : list Message :=
  sanitized (close_call "synthetic-close" "Tool execution completed"
    (fold_left repair_step messages (MkRepair [] [] false "" [] None None))).
End Repair.

Definition sanitizeToolPairs (messages : list Message) (threadId nowIso : string) : list Message :=
  repairPass threadId nowIso (reorderPass messages).

(** ** Sets *)
Lemma set_has_spec n s : set_has n s = true ↔ n ∈ s.
Proof.
  unfold set_has. rewrite existsb_exists. setoid_rewrite <- list_elem_of_In. split.
  - intros (m & Hm & E%seqb_true). by subst.
  - intros H. exists n. by rewrite seqb_refl.
Qed.
Lemma set_has_false n s : set_has n s = false ↔ n ∉ s.
Proof. rewrite <- set_has_spec. by destruct (set_has n s). Qed.
Lemma set_add_elem n m s : n ∈ set_add s m ↔ n = m ∨ n ∈ s.
Proof.
  unfold set_add. destruct (set_has m s) eqn:E; [|set_solver]. apply set_has_spec in E. naive_solver.
Qed.
Lemma set_adds_elem n l s : n ∈ fold_left set_add l s ↔ n ∈ s ∨ n ∈ l.
Proof.
  revert s. induction l as [|m l IH]; intros s; simpl; [set_solver|]. rewrite IH, set_add_elem. set_solver.
Qed.
Lemma set_of_elem n l : n ∈ set_of l ↔ n ∈ l.
Proof. unfold set_of. rewrite set_adds_elem. set_solver. Qed.
Lemma set_of_sub n l : n ∈ set_of l → n ∈ l.
Proof. apply set_of_elem. Qed.
Lemma set_of_NoDup l : NoDup (set_of l).
Proof.
  assert (∀ s, NoDup s → NoDup (fold_left set_add l s)) as H; [|apply H; constructor].
  induction l as [|m l IH]; intros s Hs; [done|]. simpl. apply IH. unfold set_add.
  destruct (set_has m s) eqn:E; [done|]. apply set_has_false in E. apply NoDup_app. set_solver by eauto using NoDup_singleton.
Qed.
Lemma set_delete_elem n m s : n ∈ set_delete m s ↔ n ∈ s ∧ n ≠ m.
Proof. unfold set_delete. rewrite filter_In_iff, negb_true_iff, seqb_false. done. Qed.
Lemma set_delete_NoDup n s : NoDup s → NoDup (set_delete n s).
Proof. intros H. eapply sublist_NoDup; [exact H|]. apply filter_sublist. Qed.
Lemma set_delete_absent n s : n ∉ s → set_delete n s = s.
Proof. intros H. apply filter_bool_all. intros m Hm. rewrite negb_true_iff, seqb_false. by intros ->. Qed.
Lemma is_empty_spec {A} (l : list A) : is_empty l = true ↔ l = [].
Proof. by destruct l. Qed.

(** ** Pass 1 against its quadratic reference

    [reference_scan] and [reference_loop] are the pass before it was optimised
    (kept as [reorderPassReference] in the property tests): one scan to the end
    of the array for every tool call. *)
Definition in_set (p : list string) (m : Message) : bool :=
  truthy (tool_name m) && set_has (default "" (tool_name m)) p.
Definition drop_name (m : Message) (p : list string) : list string :=
  match tool_name m with Some n => if nonempty n then set_delete n p else p | None => p end.

Fixpoint reference_scan (consumed : gset nat) (rest : list (nat * Message)) (crossed : bool)
    (matches others : list (nat * Message)) (pending : list string)
    : list (nat * Message) * list (nat * Message) :=
  match rest with
  | [] => (matches, others)
  | (j, m) :: rest' =>
      if bool_decide (j ∈ consumed) then reference_scan consumed rest' crossed matches others pending
      else if is_call m then
        if is_empty pending then (matches, others)
        else reference_scan consumed rest' true matches others pending
      else if is_result m then
        if crossed && negb (in_set pending m) then reference_scan consumed rest' crossed matches others pending
        else reference_scan consumed rest' crossed (matches ++ [(j, m)]) others (drop_name m pending)
      else if negb (is_empty matches) && is_empty pending then (matches, others)
      else if crossed then reference_scan consumed rest' crossed matches others pending
      else if negb (is_role "assistant" m)
      then reference_scan consumed rest' crossed matches (others ++ [(j, m)]) pending
      else reference_scan consumed rest' crossed matches others pending
  end.

Fixpoint reference_loop (ms : list (nat * Message)) (consumed : gset nat) : list (nat * Message) :=
  match ms with
  | [] => []
  | (i, msg) :: rest =>
      if bool_decide (i ∈ consumed) then reference_loop rest consumed
      else if negb (is_call msg) then (i, msg) :: reference_loop rest consumed
      else
        let '(matches, others) := reference_scan consumed rest false [] [] (set_of (ids_of msg)) in
        others ++ [(i, msg)] ++ matches ++
        reference_loop rest (consumed ∪ list_to_set others.*1 ∪ list_to_set matches.*1)
  end.
Definition reorderPassReference (messages : list Message) : list Message :=
  (reference_loop (enumerate messages) ∅).*2.

(** The results claimed past the boundary. *)
Fixpoint late (consumed : gset nat) (rest : list (nat * Message)) (pending : list string) : list (nat * Message) :=
  match rest with
  | [] => []
  | (j, m) :: rest' =>
      if negb (bool_decide (j ∈ consumed)) && is_result m && in_set pending m
      then (j, m) :: late consumed rest' (drop_name m pending)
      else late consumed rest' pending
  end.

Lemma call_not_result m : is_call m = true → is_result m = false.
Proof. unfold is_call, is_result, is_role. intros E%seqb_true. by rewrite E. Qed.
Lemma drop_name_elem n m p : n ∈ drop_name m p → n ∈ p.
Proof.
  unfold drop_name. destruct (tool_name m) as [t|]; [|done]. destruct (nonempty t); [|done].
  rewrite set_delete_elem. tauto.
Qed.
Lemma in_set_nil m : in_set [] m = false.
Proof. unfold in_set. by rewrite andb_false_r. Qed.
Lemma late_nil consumed rest : late consumed rest [] = [].
Proof.
  induction rest as [|[j m] rest IH]; [done|]. simpl. by rewrite in_set_nil, andb_false_r.
Qed.

Lemma reference_crossed consumed rest matches others p :
  reference_scan consumed rest true matches others p = (matches ++ late consumed rest p, others).
Proof.
  revert matches p. induction rest as [|[j m] rest IH]; intros matches p; simpl; [by rewrite app_nil_r|].
  case_bool_decide; simpl; [apply IH|]. destruct (is_call m) eqn:Ec.
  - rewrite (call_not_result m Ec). simpl. destruct (is_empty p) eqn:Ep; [|apply IH].
    apply is_empty_spec in Ep. subst. by rewrite late_nil, app_nil_r.
  - destruct (is_result m); simpl.
    + destruct (in_set p m); simpl; [|apply IH]. by rewrite IH, <- app_assoc.
    + destruct (negb (is_empty matches) && is_empty p) eqn:Ep; [|apply IH].
      apply andb_prop in Ep as [_ Ep%is_empty_spec]. subst. by rewrite late_nil, app_nil_r.
Qed.

(** The elements the first phase takes. *)
Definition claimable (consumed : gset nat) (km : nat * Message) : bool :=
  negb (bool_decide (km.1 ∈ consumed)) && is_result km.2.
Definition hoistable (consumed : gset nat) (km : nat * Message) : bool :=
  negb (bool_decide (km.1 ∈ consumed)) &&
  (negb (is_call km.2) && (negb (is_result km.2) && negb (is_role "assistant" km.2))).

Lemma filter_cons_app {A} (f : A → bool) x l acc :
  acc ++ List.filter f (x :: l) = (if f x then acc ++ [x] else acc) ++ List.filter f l.
Proof. simpl. destruct (f x); [by rewrite <- app_assoc|done]. Qed.

Lemma scan_spec consumed rest ms os p : ∃ pre post, rest = pre ++ post ∧
  let s := scan consumed rest ms os p in
  matchIndices s = ms ++ List.filter (claimable consumed) pre ∧
  nonTool s = os ++ List.filter (hoistable consumed) pre ∧
  Forall (λ km, km.1 ∈ consumed ∨ is_call km.2 = false) pre ∧
  (∀ n, n ∈ pendingToolUseIds s → n ∈ p) ∧
  reference_scan consumed rest false ms os p =
    (matchIndices s ++ match boundaryIndex s with Some b => late consumed (tail post) (pendingToolUseIds s) | None => [] end,
     nonTool s) ∧
  (∀ b, boundaryIndex s = Some b → ∃ m post', post = (b, m) :: post' ∧ b ∉ consumed ∧ is_call m = true).
Proof.
  revert ms os p. induction rest as [|[j m] rest IH]; intros ms os p; simpl.
  { exists [], []. simpl. rewrite !app_nil_r. by split_and!; try done; try constructor. }
  assert (∀ ms' os' p' (x := (j, m)),
    ms' = ms ++ List.filter (claimable consumed) [x] → os' = os ++ List.filter (hoistable consumed) [x] →
    (j ∈ consumed ∨ is_call m = false) → (∀ n, n ∈ p' → n ∈ p) →
    ∃ pre post, x :: rest = pre ++ post ∧ let s := scan consumed rest ms' os' p' in
      matchIndices s = ms ++ List.filter (claimable consumed) pre ∧
      nonTool s = os ++ List.filter (hoistable consumed) pre ∧
      Forall (λ km, km.1 ∈ consumed ∨ is_call km.2 = false) pre ∧
      (∀ n, n ∈ pendingToolUseIds s → n ∈ p) ∧
      reference_scan consumed rest false ms' os' p' =
        (matchIndices s ++ match boundaryIndex s with
           Some b => late consumed (tail post) (pendingToolUseIds s) | None => [] end, nonTool s) ∧
      (∀ b, boundaryIndex s = Some b → ∃ m' post', post = (b, m') :: post' ∧ b ∉ consumed ∧ is_call m' = true))
    as step.
  { intros ms' os' p' x -> -> Hx Hp. destruct (IH (ms ++ List.filter (claimable consumed) [x])
      (os ++ List.filter (hoistable consumed) [x]) p') as (pre & post & -> & H1 & H2 & H3 & H4 & H5 & H6).
    exists (x :: pre), post. split; [done|]. cbv zeta. rewrite H1, H2, <- !app_assoc, <- !List.filter_app. split_and!; try done.
    - by constructor.
    - intros n Hn. by apply Hp, H4.
    - rewrite H5. cbv zeta. by rewrite H1, H2, <- !app_assoc, <- !List.filter_app. }
  destruct (bool_decide (j ∈ consumed)) eqn:Ej.
  { apply bool_decide_eq_true in Ej. apply step; [..|by left|done];
      simpl; unfold claimable, hoistable; cbn [fst snd]; rewrite bool_decide_true by done; simpl; by rewrite app_nil_r. }
  apply bool_decide_eq_false in Ej. destruct (is_call m) eqn:Ec.
  { exists [], ((j, m) :: rest). simpl. rewrite !app_nil_r. destruct (is_empty p) eqn:Ep; simpl.
    - rewrite ?app_nil_r. by split_and!.
    - rewrite reference_crossed. split_and!; try done. intros b [= <-]. eauto. }
  destruct (is_result m) eqn:Er.
  { apply (step (ms ++ [(j, m)]) os (drop_name m p)); [..|by right|intros n; apply drop_name_elem];
      simpl; unfold claimable, hoistable; cbn [fst snd]; rewrite bool_decide_false, ?Ec, ?Er by done; simpl;
      by rewrite ?app_nil_r. }
  destruct (negb (is_empty ms) && is_empty p) eqn:Eb.
  { exists [], ((j, m) :: rest). simpl. rewrite !app_nil_r. by split_and!. }
  destruct (is_role "assistant" m) eqn:Ea; simpl; apply step;
    try (by right); try done; simpl; unfold claimable, hoistable; cbn [fst snd];
    rewrite bool_decide_false, ?Ec, ?Er, ?Ea by done; simpl; by rewrite ?app_nil_r.
Qed.

(** *** Lookups by name *)
Definition named (n : string) (km : nat * Message) : bool :=
  is_result km.2 && (truthy (tool_name km.2) && seqb (default "" (tool_name km.2)) n).
Definition fresh_after (consumed : gset nat) (b k : nat) : bool := negb ((k <=? b)%nat || bool_decide (k ∈ consumed)).

Lemma advance_find consumed b (l pre : list nat) :
  (pre ++ l) !! advance consumed b l (length pre) = List.find (fresh_after consumed b) l.
Proof.
  revert pre. induction l as [|k l IH]; intros pre; simpl.
  - rewrite app_nil_r. by apply lookup_ge_None_2.
  - unfold fresh_after at 1. destruct ((k <=? b)%nat || bool_decide (k ∈ consumed)); simpl.
    + specialize (IH (pre ++ [k])). rewrite length_app, <- app_assoc in IH. simpl in IH. by rewrite Nat.add_1_r in IH.
    + by rewrite lookup_app_r, Nat.sub_diag by done.
Qed.
Lemma advance_skipped consumed b (l pre : list nat) q k :
  (length pre ≤ q < advance consumed b l (length pre))%nat → (pre ++ l) !! q = Some k → fresh_after consumed b k = false.
Proof.
  revert pre. induction l as [|k' l IH]; intros pre; simpl; [lia|].
  destruct ((k' <=? b)%nat || bool_decide (k' ∈ consumed)) eqn:E; [|lia]. intros Hq Hk.
  destruct (decide (q = length pre)) as [->|].
  - rewrite lookup_app_r, Nat.sub_diag in Hk by done. simplify_eq/=. unfold fresh_after. by rewrite E.
  - apply (IH (pre ++ [k'])); [rewrite length_app; simpl; rewrite ?Nat.add_1_r; lia|by rewrite <- app_assoc].
Qed.

Lemma index_lookup l idx n : n ≠ "" →
  fold_left index_add l idx !! n =
    match (List.filter (named n) l).*1 with
    | [] => idx !! n
    | ks => Some (default [] (idx !! n) ++ ks)
    end.
Proof.
  intros Hn. revert idx. induction l as [|[k m] l IH]; intros idx; [done|]. cbn [fold_left]. rewrite IH.
  unfold index_add. cbn [fst snd].
  change (List.filter (named n) ((k, m) :: l)) with
    (if named n (k, m) then (k, m) :: List.filter (named n) l else List.filter (named n) l).
  destruct (named n (k, m)) eqn:E; unfold named in E; cbn [fst snd] in E.
  - apply andb_prop in E as [Er [Et En%seqb_true]%andb_prop]. rewrite Er, Et. cbn [andb]. rewrite En. cbn [fmap list_fmap fst].
    destruct (idx !! n) as [arr|] eqn:Ei; rewrite lookup_insert_eq; cbn [default from_option];
      destruct ((List.filter (named n) l).*1); unfold id; rewrite <- ?app_assoc; done.
  - destruct (is_result m && truthy (tool_name m)) eqn:Er; [|done]. apply andb_prop in Er as [Er Et].
    rewrite Er, Et in E. cbn [andb] in E. apply seqb_false in E.
    destruct (idx !! default "" (tool_name m)) as [arr|]; by rewrite lookup_insert_ne.
Qed.

Section Fast.
Context (messages : list Message).

Lemma enumerate_indices : (enumerate messages).*1 = seq 0 (length messages).
Proof.
  unfold enumerate. enough (∀ i, (imap (λ k m, ((i + k)%nat, m)) messages).*1 = seq i (length messages)) as H.
  { rewrite <- (H 0%nat). done. }
  induction messages as [|m ms IH]; intros i; [done|]. simpl. rewrite Nat.add_0_r. f_equal. rewrite <- (IH (S i)). f_equal.
  apply imap_ext. intros k x _. simpl. f_equal. lia.
Qed.
Lemma enumerate_elem k m : (k, m) ∈ enumerate messages ↔ messages !! k = Some m.
Proof.
  unfold enumerate. rewrite elem_of_lookup_imap. split; [intros (i & x & [= <- <-] & H); done|eauto].
Qed.
Lemma enumerate_sorted : StronglySorted lt (enumerate messages).*1.
Proof.
  rewrite enumerate_indices. generalize 0%nat. induction (length messages) as [|n IH]; intros i; simpl; constructor; [done|].
  apply Forall_forall. intros k Hk%elem_of_seq. lia.
Qed.
Lemma split_order pre b m post : enumerate messages = pre ++ (b, m) :: post →
  (∀ km, km ∈ pre → (km.1 < b)%nat) ∧ (∀ km, km ∈ post → (b < km.1)%nat).
Proof.
  intros E. pose proof enumerate_sorted as H. rewrite E, fmap_app in H. cbn [fmap list_fmap fst] in H.
  apply StronglySorted_app in H as (H1 & _ & H2). split; intros km Hkm.
  - apply H1; [by apply list_elem_of_fmap_2|]. left.
  - inversion H2 as [|? ? _ Hb]; subst. rewrite Forall_forall in Hb. apply Hb. by apply list_elem_of_fmap_2.
Qed.

(** What has been passed over will not be wanted again. *)
Definition passed (consumed : gset nat) (b : nat) (cur : gmap string nat) : Prop :=
  ∀ n c arr q k, cur !! n = Some c → resultIndicesByName messages !! n = Some arr →
    (q < c)%nat → arr !! q = Some k → fresh_after consumed b k = false.

Definition first_after (consumed : gset nat) (b : nat) (n : string) : option (nat * Message) :=
  List.find (λ km, named n km && fresh_after consumed b km.1) (enumerate messages).

Lemma claimStraggler_spec consumed b n cur cur' r : n ≠ "" → passed consumed b cur →
  claimStraggler messages consumed n b cur = (cur', r) →
  passed consumed b cur' ∧ r = fst <$> first_after consumed b n.
Proof.
  intros Hn Hp. unfold claimStraggler. pose proof (index_lookup (enumerate messages) ∅ n Hn) as Hi.
  fold (resultIndicesByName messages) in Hi. rewrite lookup_empty in Hi. cbn [default from_option app] in Hi.
  assert (first_after consumed b n = List.find (λ km, fresh_after consumed b km.1) (List.filter (named n) (enumerate messages)))
    as Hf by (by rewrite find_filter).
  assert (fst <$> first_after consumed b n =
    List.find (fresh_after consumed b) (List.filter (named n) (enumerate messages)).*1) as Hf' by (by rewrite find_fmap, Hf).
  destruct ((List.filter (named n) (enumerate messages)).*1) as [|k0 ks0] eqn:E.
  { rewrite Hi. intros [= <- <-]. split; [done|]. by rewrite Hf'. }
  rewrite Hi. set (arr := k0 :: ks0) in *. set (c := default 0%nat (cur !! n)). intros [= <- <-].
  set (c0 := Nat.min c (length arr)).
  assert (∀ q k, (q < c)%nat → arr !! q = Some k → fresh_after consumed b k = false) as Hc.
  { intros q k Hq Hk. unfold c in Hq. destruct (cur !! n) as [c1|] eqn:Ec; simpl in Hq; [|lia].
    apply (Hp n c1 arr q k); done. }
  destruct (decide (c ≤ length arr)%nat) as [Hle|Hgt].
  - assert (length (take c arr) = c) as Hlen by (rewrite length_take; lia).
    pose proof (advance_find consumed b (drop c arr) (take c arr)) as Ha. rewrite take_drop, Hlen in Ha.
    split.
    + intros n' c' arr' q k Hn' Harr Hq Hk. destruct (decide (n' = n)) as [->|]; [|rewrite lookup_insert_ne in Hn'; by eauto].
      rewrite lookup_insert_eq in Hn'. injection Hn' as <-. rewrite Hi in Harr. injection Harr as <-.
      destruct (decide (q < c)%nat); [by eauto|].
      apply (advance_skipped consumed b (drop c arr) (take c arr) q k); rewrite ?Hlen, ?take_drop; [lia|done].
    + rewrite Ha, Hf'. rewrite <- (take_drop c arr) at 2. rewrite find_app, (find_none_all _ (take c arr)); [done|].
      intros k (q & Hk)%list_elem_of_lookup. pose proof (lookup_lt_Some _ _ _ Hk) as Hlt. rewrite Hlen in Hlt.
      rewrite lookup_take_lt in Hk by lia. by eauto.
  - rewrite drop_ge by lia. simpl. split.
    + intros n' c' arr' q k Hn' Harr Hq Hk. destruct (decide (n' = n)) as [->|]; [|rewrite lookup_insert_ne in Hn'; by eauto].
      rewrite lookup_insert_eq in Hn'. injection Hn' as <-. rewrite Hi in Harr. injection Harr as <-. by eauto.
    + rewrite lookup_ge_None_2 by lia. rewrite Hf'. rewrite find_none_all; [done|].
      intros k (q & Hk)%list_elem_of_lookup. pose proof (lookup_lt_Some _ _ _ Hk) as Hlt. apply (Hc q k); [lia|done].
Qed.

Lemma claim_all_spec consumed b ids cur cur' ks : Forall (λ n, n ≠ "") ids → passed consumed b cur →
  claim_all messages consumed b ids cur = (cur', ks) →
  passed consumed b cur' ∧ ks = (omap (first_after consumed b) ids).*1.
Proof.
  revert cur cur' ks. induction ids as [|n ids IH]; intros cur cur' ks Hn Hp; simpl; [by intros [= <- <-]|].
  inversion Hn as [|? ? Hn1 Hn2]; subst.
  destruct (claimStraggler messages consumed n b cur) as [cur1 r] eqn:E1.
  destruct (claimStraggler_spec _ _ _ _ _ _ Hn1 Hp E1) as [Hp1 ->].
  destruct (claim_all messages consumed b ids cur1) as [cur2 ks2] eqn:E2. intros [= <- <-].
  destruct (IH _ _ _ Hn2 Hp1 E2) as [Hp2 ->]. split; [done|]. by destruct (first_after consumed b n).
Qed.
End Fast.

Lemma set_delete_perm n p : NoDup p → n ∈ p → p ≡ₚ n :: set_delete n p.
Proof.
  intros Hp Hn. apply NoDup_Permutation; [done|..].
  - constructor; [|by apply set_delete_NoDup]. rewrite set_delete_elem. tauto.
  - intros m. rewrite elem_of_cons, set_delete_elem. destruct (decide (m = n)); naive_solver.
Qed.

Definition wanted (consumed : gset nat) (n : string) (km : nat * Message) : bool :=
  named n km && negb (bool_decide (km.1 ∈ consumed)).

Lemma late_perm consumed rest p : NoDup p →
  late consumed rest p ≡ₚ omap (λ n, List.find (wanted consumed n) rest) p.
Proof.
  revert p. induction rest as [|[j m] rest IH]; intros p Hp; simpl.
  { clear Hp. by induction p. }
  unfold wanted at 1, named. cbn [fst snd].
  destruct (negb (bool_decide (j ∈ consumed)) && is_result m && in_set p m) eqn:E.
  - apply andb_prop in E as [[Ej Er]%andb_prop [Et Hin%set_has_spec]%andb_prop].
    rewrite Ej, Er, Et. cbn [andb]. set (n0 := default "" (tool_name m)) in *.
    assert (drop_name m p = set_delete n0 p) as ->.
    { unfold drop_name, n0, truthy in *. destruct (tool_name m); [|done]. by rewrite Et. }
    rewrite (IH (set_delete n0 p)) by by apply set_delete_NoDup.
    rewrite (set_delete_perm n0 p) at 2 by done. csimpl. rewrite seqb_refl. cbn [andb]. apply Permutation_skip.
    apply (reflexive_eq (R := Permutation)), omap_ext_elem. intros n [_ Hne]%set_delete_elem.
    assert (seqb n0 n = false) as -> by (apply seqb_false; congruence). done.
  - rewrite (IH p) by done. apply (reflexive_eq (R := Permutation)), omap_ext_elem. intros n Hn.
    destruct (is_result m) eqn:Er; [|done]. destruct (truthy (tool_name m)) eqn:Et; [|done]. cbn [andb].
    destruct (seqb (default "" (tool_name m)) n) eqn:En; [|done]. apply seqb_true in En. cbn [andb].
    destruct (bool_decide (j ∈ consumed)); [done|]. exfalso. unfold in_set in E. rewrite Et, En in E. cbn [negb andb] in E.
    by apply set_has_false in E.
Qed.

Lemma late_sublist consumed rest p : sublist (late consumed rest p) rest.
Proof.
  revert p. induction rest as [|[j m] rest IH]; intros p; simpl; [constructor|]. split_test; by constructor.
Qed.

Lemma sorted_sublist (l k : list nat) : sublist l k → StronglySorted lt k → StronglySorted lt l.
Proof.
  induction 1 as [|x l k Hs IH|x l k Hs IH]; intros Hk; [constructor|..]; inversion Hk; subst; [|by auto].
  constructor; [by auto|]. eapply sublist_Forall; eauto.
Qed.
Lemma sorted_lt_le (l : list nat) : StronglySorted lt l → StronglySorted le l.
Proof. induction 1 as [|x l Hl IH Hx]; constructor; [done|]. eapply Forall_impl; [exact Hx|]. simpl. lia. Qed.

Section Fast2.
Context (messages : list Message).

Lemma fetch_pairs l : (∀ km, km ∈ l → km ∈ enumerate messages) → l.*1 ≫= fetch messages = l.
Proof.
  induction l as [|[k m] l IH]; intros H; [done|]. csimpl. unfold fetch at 1.
  assert (messages !! k = Some m) as -> by (apply enumerate_elem, H; left). simpl. f_equal. apply IH. set_solver.
Qed.

(** Phase 2 by lookups is phase 2 by scanning. *)
Lemma stragglers_spec consumed cur pre b m post p os ms cur' found :
  enumerate messages = pre ++ (b, m) :: post → NoDup p → Forall (λ n, n ≠ "") p → passed messages consumed b cur →
  stragglers messages consumed cur (MkScan ms os p (Some b)) = (cur', found) →
  passed messages consumed b cur' ∧ found ≫= fetch messages = late consumed post p.
Proof.
  intros E Hp Hne Hpass. unfold stragglers. cbn [boundaryIndex pendingToolUseIds].
  destruct (is_empty p) eqn:Ep; [apply is_empty_spec in Ep; subst; intros [= <- <-]; by rewrite late_nil|].
  destruct (claim_all messages consumed b p cur) as [cur1 ks] eqn:Ec. intros [= <- <-].
  destruct (claim_all_spec _ _ _ _ _ _ _ Hne Hpass Ec) as [Hpass' ->]. split; [done|].
  destruct (split_order _ _ _ _ _ E) as [Hpre Hpost].
  assert (omap (first_after messages consumed b) p = omap (λ n, List.find (wanted consumed n) post) p) as Hom.
  { apply omap_ext_elem. intros n _. unfold first_after. rewrite E, find_app, find_none_all.
    - simpl. unfold fresh_after at 1. rewrite Nat.leb_refl. cbn [orb negb]. rewrite andb_false_r.
      apply find_ext. intros km Hkm. unfold wanted, fresh_after. specialize (Hpost _ Hkm).
      assert ((km.1 <=? b)%nat = false) as -> by (apply Nat.leb_gt; lia). done.
    - intros km Hkm. specialize (Hpre _ Hkm). unfold fresh_after.
      assert ((km.1 <=? b)%nat = true) as -> by (apply Nat.leb_le; lia). cbn [orb negb]. by rewrite andb_false_r. }
  rewrite Hom. pose proof (late_perm consumed post p Hp) as HP.
  assert (merge_sort Nat.le (omap (λ n, List.find (wanted consumed n) post) p).*1 = (late consumed post p).*1) as ->.
  { apply (Sorted_unique Nat.le).
    - apply (Sorted_merge_sort Nat.le).
    - apply StronglySorted_Sorted, sorted_lt_le. eapply sorted_sublist; [apply sublist_fmap, late_sublist|].
      pose proof (enumerate_sorted messages) as Hs. rewrite E, fmap_app in Hs. cbn [fmap list_fmap fst] in Hs.
      apply StronglySorted_app in Hs as (_ & _ & Hs). by inversion Hs.
    - rewrite merge_sort_Permutation. apply fmap_Permutation. by symmetry. }
  apply fetch_pairs. intros km Hkm. rewrite E. apply elem_of_app. right. right.
  eapply sublist_elem; [apply late_sublist|exact Hkm].
Qed.
End Fast2.

Lemma tool_use_ids_nonempty blocks ids : tool_use_ids blocks = Some ids → Forall (λ n, n ≠ "") ids.
Proof.
  revert ids. induction blocks as [|b blocks IH]; intros ids; simpl; [intros [= <-]; constructor|].
  destruct (tool_use_ids blocks) as [ids'|]; [|by destruct b]. specialize (IH ids' eq_refl).
  assert (∀ o1 o2 : option json, match o1, o2 with
    | Some (JStr t), Some (JStr i) => Some (if seqb t "tool_use" && nonempty i then i :: ids' else ids')
    | _, _ => Some ids' end = Some ids → Forall (λ n, n ≠ "") ids) as H.
  { intros [[]|] [[]|]; try by intros [= <-]. intros [= <-]. destruct (seqb _ _); [|done]. simpl.
    destruct (nonempty s0) eqn:E; [|done]. constructor; [|done]. intros ->. done. }
  destruct b; try apply H; done.
Qed.
Lemma ids_nonempty m : Forall (λ n, n ≠ "") (ids_of m).
Proof.
  unfold ids_of, extractToolUseIds. destruct (json_parse (content m)) as [[]|]; try constructor.
  destruct (tool_use_ids l) eqn:E; [|constructor]. simpl. by eapply tool_use_ids_nonempty.
Qed.
Lemma scan_NoDup consumed rest ms os p : NoDup p → NoDup (pendingToolUseIds (scan consumed rest ms os p)).
Proof.
  revert ms os p. induction rest as [|[j m] rest IH]; intros ms os p Hp; simpl; [done|].
  repeat (split_test; simpl; auto); apply IH; auto. by apply set_delete_NoDup.
Qed.

Section Equivalence.
Context (messages : list Message).

Lemma passed_mono consumed consumed' b b' cur : (b ≤ b')%nat → consumed ⊆ consumed' →
  passed messages consumed b cur → passed messages consumed' b' cur.
Proof.
  intros Hb Hc Hp n c arr q k H1 H2 H3 H4. specialize (Hp n c arr q k H1 H2 H3 H4). unfold fresh_after in *.
  apply negb_false_iff, orb_prop in Hp. apply negb_false_iff, orb_true_iff. destruct Hp as [H%Nat.leb_le|H%bool_decide_eq_true].
  - left. apply Nat.leb_le. lia.
  - right. apply bool_decide_eq_true. set_solver.
Qed.

Definition only_others (consumed : gset nat) : Prop :=
  ∀ k m, k ∈ consumed → (k, m) ∈ enumerate messages → is_call m = false.

Lemma claimed_others consumed (l : list (nat * Message)) : only_others consumed →
  (∀ km, km ∈ l → is_call km.2 = false ∧ km ∈ enumerate messages) → only_others (consumed ∪ list_to_set l.*1).
Proof.
  intros H Hl k m Hk Hm. apply elem_of_union in Hk as [Hk|Hk]; [by eapply H|].
  apply elem_of_list_to_set, list_elem_of_fmap in Hk as ([k' m'] & -> & Hkm). apply Hl in Hkm as [Hc Hkm]. simpl in *.
  apply enumerate_elem in Hm, Hkm. congruence.
Qed.

Lemma filters_others consumed pre km : km ∈ List.filter (claimable consumed) pre ∨ km ∈ List.filter (hoistable consumed) pre →
  is_call km.2 = false ∧ km ∈ pre ∧ km.1 ∉ consumed.
Proof.
  intros [[H1 [H2 H3]%andb_prop]%filter_In_iff|[H1 [H2 [H3 _]%andb_prop]%andb_prop]%filter_In_iff];
    apply negb_true_iff, bool_decide_eq_false in H2; split_and!; try done.
  - destruct (is_call km.2) eqn:E; [|done]. by rewrite (call_not_result _ E) in H3.
  - by apply negb_true_iff.
Qed.
Lemma late_elem consumed rest p km : km ∈ late consumed rest p →
  is_result km.2 = true ∧ km.1 ∉ consumed ∧ in_set p km.2 = true.
Proof.
  revert p. induction rest as [|[j m] rest IH]; intros p; simpl; [set_solver|].
  destruct (negb (bool_decide (j ∈ consumed)) && is_result m && in_set p m) eqn:E; [|apply IH].
  apply andb_prop in E as [[E1%negb_true_iff%bool_decide_eq_false E2]%andb_prop E3].
  intros [->|H]%elem_of_cons; [done|]. apply IH in H as (H1 & H2 & [H3 H4%set_has_spec]%andb_prop). split_and!; try done.
  unfold in_set. rewrite H3. apply set_has_spec. by eapply drop_name_elem.
Qed.
Lemma result_not_call m : is_result m = true → is_call m = false.
Proof. destruct (is_call m) eqn:E; [|done]. by rewrite (call_not_result _ E). Qed.

Lemma reorder_loop_reference ms pre consumed cur out :
  enumerate messages = pre ++ ms → only_others consumed →
  (∀ j m, (j, m) ∈ ms → is_call m = true → passed messages consumed j cur) →
  reorder_loop messages ms consumed cur out = out ++ reference_loop ms consumed.
Proof.
  revert pre consumed cur out. induction ms as [|[i msg] rest IH]; intros pre consumed cur out E Ho Hp; simpl.
  { by rewrite app_nil_r. }
  assert (enumerate messages = (pre ++ [(i, msg)]) ++ rest) as E' by by rewrite <- app_assoc.
  destruct (bool_decide (i ∈ consumed)); [eapply IH; eauto; intros j m Hj; apply Hp; by right|].
  destruct (is_call msg) eqn:Ec; simpl.
  2:{ rewrite (IH _ _ _ _ E' Ho) by (intros j m Hj; apply Hp; by right). by rewrite <- app_assoc. }
  destruct (scan_spec consumed rest [] [] (set_of (ids_of msg))) as (pre1 & post & Hr & Hm & Hn & Hpre & Hpd & Href & Hb).
  pose proof (scan_NoDup consumed rest [] [] _ (set_of_NoDup (ids_of msg))) as Hnd.
  set (s := scan consumed rest [] [] (set_of (ids_of msg))) in *. rewrite Href.
  destruct (stragglers messages consumed cur s) as [cur' found] eqn:Es.
  set (late_ms := match boundaryIndex s with Some b => late consumed (tail post) (pendingToolUseIds s) | None => [] end).
  set (cons' := consumed ∪ list_to_set (nonTool s).*1 ∪ list_to_set (matchIndices s ++ late_ms).*1).
  assert (Hrest : ∀ km, km ∈ rest → km ∈ enumerate messages) by (intros km Hkm; rewrite E'; set_solver).
  assert (only_others cons') as Ho'.
  { apply claimed_others; [apply claimed_others; [done|]|].
    - intros km Hkm. rewrite Hn in Hkm. destruct (filters_others consumed pre1 km (or_intror Hkm)) as (? & ? & ?).
      split; [done|]. apply Hrest. rewrite Hr. set_solver.
    - intros km [Hkm|Hkm]%elem_of_app.
      + rewrite Hm in Hkm. destruct (filters_others consumed pre1 km (or_introl Hkm)) as (? & ? & ?).
        split; [done|]. apply Hrest. rewrite Hr. set_solver.
      + unfold late_ms in Hkm. destruct (boundaryIndex s); [|set_solver]. split; [by apply result_not_call, (late_elem _ _ _ _ Hkm)|].
        apply Hrest. rewrite Hr. apply (sublist_elem _ _ _ (late_sublist _ _ _)) in Hkm. destruct post; set_solver. }
  assert (found ≫= fetch messages = late_ms ∧ ∀ j m, (j, m) ∈ rest → is_call m = true → passed messages consumed j cur') as [Hf Hp'].
  { unfold late_ms. destruct (boundaryIndex s) as [b|] eqn:Eb.
    - destruct (Hb b eq_refl) as (m & post' & -> & Hbc & Hbm). cbn [tail].
      assert (enumerate messages = (pre ++ (i, msg) :: pre1) ++ (b, m) :: post') as E2
        by (rewrite E, Hr, <- app_assoc; done).
      assert (i < b)%nat as Hib by (apply (proj1 (split_order _ _ _ _ _ E2) (i, msg)); set_solver).
      destruct s as [M O p bi]. cbn [boundaryIndex pendingToolUseIds] in Eb, Hnd, Hpd. subst bi.
      destruct (stragglers_spec messages consumed cur (pre ++ (i, msg) :: pre1) b m post' p O M cur' found) as [Hp1 Hf]; try done.
      + apply Forall_forall. intros n Hn1. apply Hpd, set_of_sub in Hn1.
        pose proof (ids_nonempty msg) as Hne. rewrite Forall_forall in Hne. by apply Hne.
      + apply (passed_mono consumed consumed i b); [lia|done|]. apply (Hp i msg); [by left|done].
      + split; [done|]. intros j m' Hj Hm'. apply (passed_mono consumed consumed b j); [|done|done].
        rewrite Hr in Hj. apply elem_of_app in Hj as [Hj|[Hj|Hj]%elem_of_cons].
        * rewrite Forall_forall in Hpre. destruct (Hpre _ Hj) as [Hj'|Hj']; simpl in *; [|congruence].
          assert (is_call m' = false) by (apply (Ho j); [done|]; apply Hrest; rewrite Hr; set_solver). congruence.
        * by simplify_eq.
        * apply (proj2 (split_order _ _ _ _ _ E2)) in Hj. simpl in Hj. lia.
    - unfold stragglers in Es. rewrite Eb in Es. simplify_eq. split; [done|]. intros j m Hj. apply Hp. by right. }
  rewrite Hf. fold cons'. rewrite (IH _ cons' cur' _ E' Ho').
  - rewrite <- !app_assoc. cbn [app]. by rewrite <- app_assoc.
  - intros j m Hj Hm'. apply (passed_mono consumed cons' j j); [done|set_solver|by eauto].
Qed.

Lemma reorder_is_reference : reorderPass messages = reorderPassReference messages.
Proof.
  unfold reorderPass, reorderPassReference. f_equal. rewrite (reorder_loop_reference (enumerate messages) []); [done..|].
  intros j m _ _ n c arr q k H. by rewrite lookup_empty in H.
Qed.
End Equivalence.

(** ** What the first pass keeps *)
Definition unconsumed (consumed : gset nat) (km : nat * Message) : bool := negb (bool_decide (km.1 ∈ consumed)).
(** Tool calls and assistant messages stay in their order. *)
Definition stays (m : Message) : bool := is_call m || is_role "assistant" m.

Lemma unconsumed_elem consumed l km : km ∈ List.filter (unconsumed consumed) l ↔ km ∈ l ∧ km.1 ∉ consumed.
Proof. rewrite filter_In_iff. unfold unconsumed. by rewrite negb_true_iff, bool_decide_eq_false. Qed.

Lemma reference_scan_spec consumed rest p : ∃ pre post M, rest = pre ++ post ∧
  reference_scan consumed rest false [] [] p =
    (List.filter (claimable consumed) pre ++ M, List.filter (hoistable consumed) pre) ∧
  Forall (λ km, km.1 ∈ consumed ∨ is_call km.2 = false) pre ∧ sublist M post ∧
  (∀ km, km ∈ M → is_result km.2 = true ∧ km.1 ∉ consumed ∧ in_set p km.2 = true).
Proof.
  destruct (scan_spec consumed rest [] [] p) as (pre & post & Hr & Hm & Hn & Hpre & Hpd & Href & _).
  set (s := scan consumed rest [] [] p) in *.
  exists pre, post, (match boundaryIndex s with Some b => late consumed (tail post) (pendingToolUseIds s) | None => [] end).
  rewrite Href, Hm, Hn. split_and!; try done.
  - destruct (boundaryIndex s); [|apply sublist_nil_l].
    transitivity (tail post); [apply late_sublist|]. destruct post; simpl; by constructor.
  - intros km Hkm. destruct (boundaryIndex s); [|set_solver].
    destruct (late_elem _ _ _ _ Hkm) as (H1 & H2 & [H3 H4%set_has_spec]%andb_prop). split_and!; try done.
    unfold in_set. rewrite H3. by apply set_has_spec, Hpd.
Qed.

Lemma NoDup_index (l : list (nat * Message)) km km' : NoDup l.*1 → km ∈ l → km' ∈ l → km.1 = km'.1 → km = km'.
Proof.
  intros Hn (i & Hi)%list_elem_of_lookup (j & Hj)%list_elem_of_lookup E.
  assert (i = j) as ->; [|congruence]. apply (NoDup_lookup l.*1 i j km.1); [done|..]; rewrite list_lookup_fmap, ?Hi, ?Hj; simpl; congruence.
Qed.

Section Kept.
Context (consumed : gset nat) (pre post M : list (nat * Message)) (p : list string).
Context (Hnd : NoDup (pre ++ post).*1) (HM : sublist M post)
  (HMr : ∀ km, km ∈ M → is_result km.2 = true ∧ km.1 ∉ consumed ∧ in_set p km.2 = true).
Let O := List.filter (hoistable consumed) pre.
Let C := List.filter (claimable consumed) pre ++ M.
Let consumed' := consumed ∪ list_to_set O.*1 ∪ list_to_set C.*1.

Lemma taken_elem km : km ∈ O ++ C → km ∈ pre ++ post ∧ km.1 ∉ consumed ∧ stays km.2 = false.
Proof using HM HMr.
  clear Hnd. intros [[H1 H2]%filter_In_iff|[[H1 H2]%filter_In_iff|H]%elem_of_app]%elem_of_app.
  - unfold hoistable in H2. apply andb_prop in H2 as [H2%negb_true_iff%bool_decide_eq_false [H3 [_ H4]%andb_prop]%andb_prop].
    split_and!; [set_solver|done|]. unfold stays. apply negb_true_iff in H3, H4. by rewrite H3, H4.
  - unfold claimable in H2. apply andb_prop in H2 as [H2%negb_true_iff%bool_decide_eq_false H3].
    split_and!; [set_solver|done|]. unfold stays. rewrite (result_not_call _ H3). unfold is_result, is_role in *.
    apply seqb_true in H3. by rewrite H3.
  - destruct (HMr _ H) as (H3 & H2 & _). apply (sublist_elem _ _ _ HM) in H.
    split_and!; [set_solver|done|]. unfold stays. rewrite (result_not_call _ H3). unfold is_result, is_role in *.
    apply seqb_true in H3. by rewrite H3.
Qed.
Lemma taken_NoDup : NoDup (O ++ C).
Proof using Hnd HM.
  assert (NoDup (pre ++ post)) as H by by eapply NoDup_fmap_1.
  apply NoDup_app in H as (Hpre & Hd & Hpost). unfold O, C. rewrite app_assoc. apply NoDup_app. split_and!.
  - apply NoDup_app. split_and!; [eapply sublist_NoDup; [|apply filter_sublist]; done| |].
    + intros km [_ H1]%filter_In_iff [_ H2]%filter_In_iff. unfold hoistable, claimable in *.
      apply andb_prop in H1 as [_ [_ [H1%negb_true_iff _]%andb_prop]%andb_prop]. apply andb_prop in H2 as [_ H2]. congruence.
    + eapply sublist_NoDup; [|apply filter_sublist]; done.
  - intros km Hkm HkM. apply (sublist_elem _ _ _ HM) in HkM. apply (Hd km); [|done].
    apply elem_of_app in Hkm as [[? _]%filter_In_iff|[? _]%filter_In_iff]; done.
  - by eapply sublist_NoDup.
Qed.
Lemma consumed'_elem k : k ∈ consumed' ↔ k ∈ consumed ∨ ∃ km, km ∈ O ++ C ∧ km.1 = k.
Proof using.
  clear HM HMr Hnd p. unfold consumed'. rewrite !elem_of_union, !elem_of_list_to_set, !list_elem_of_fmap. setoid_rewrite elem_of_app.
  naive_solver.
Qed.
Lemma taken_perm : O ++ C ++ List.filter (unconsumed consumed') (pre ++ post) ≡ₚ List.filter (unconsumed consumed) (pre ++ post).
Proof using Hnd HM HMr.
  assert (NoDup (pre ++ post)) as H by by eapply NoDup_fmap_1. rewrite app_assoc. apply NoDup_Permutation.
  - apply NoDup_app. split_and!; [apply taken_NoDup| |eapply sublist_NoDup; [|apply filter_sublist]; done].
    intros km Hkm [_ Hu]%unconsumed_elem. apply Hu, consumed'_elem. eauto.
  - eapply sublist_NoDup; [|apply filter_sublist]; done.
  - intros km. rewrite elem_of_app, !unconsumed_elem, consumed'_elem. split.
    + intros [Hk|[Hk Hu]]; [by apply taken_elem in Hk as (? & ? & _)|]. split; [done|]. tauto.
    + intros [Hk Hu]. destruct (decide (km ∈ O ++ C)) as [|Hn]; [by left|]. right. split; [done|].
      intros [?|(km' & Hk' & E)]; [done|]. apply Hn. destruct (taken_elem _ Hk') as [Hk2 _].
      by rewrite (NoDup_index _ _ _ Hnd Hk Hk2 (eq_sym E)).
Qed.
Lemma stays_unconsumed : (∀ km, km ∈ pre ++ post → stays km.2 = true → km.1 ∉ consumed) →
  ∀ km, km ∈ pre ++ post → stays km.2 = true → km.1 ∉ consumed'.
Proof using Hnd HM HMr.
  intros H km Hk Hs [?|(km' & Hk' & E)]%consumed'_elem; [by eapply H|]. destruct (taken_elem _ Hk') as (Hk2 & _ & Hs2).
  rewrite (NoDup_index _ _ _ Hnd Hk Hk2 (eq_sym E)) in Hs. congruence.
Qed.
Lemma taken_stays : List.filter (λ km, stays km.2) (O ++ C) = [].
Proof using HM HMr. apply filter_bool_none. intros km Hk. by apply taken_elem in Hk as (_ & _ & ?). Qed.
End Kept.

Lemma reference_perm ms consumed : NoDup ms.*1 → reference_loop ms consumed ≡ₚ List.filter (unconsumed consumed) ms.
Proof.
  revert consumed. induction ms as [|[i msg] rest IH]; intros consumed Hnd; [done|].
  cbn [reference_loop List.filter]. unfold unconsumed at 1. cbn [fst]. inversion Hnd; subst.
  destruct (bool_decide (i ∈ consumed)); cbn [negb]; [by apply IH|]. destruct (is_call msg); cbn [negb]; [|f_equiv; by apply IH].
  destruct (reference_scan_spec consumed rest (set_of (ids_of msg))) as (pre & post & M & Hr & -> & _ & HM & HMr).
  rewrite IH by done. rewrite Hr in *. rewrite <- (taken_perm consumed pre post M _ ltac:(done) HM HMr).
  symmetry. apply Permutation_middle.
Qed.

Lemma reference_stays ms consumed : NoDup ms.*1 → (∀ km, km ∈ ms → stays km.2 = true → km.1 ∉ consumed) →
  List.filter (λ km, stays km.2) (reference_loop ms consumed) = List.filter (λ km, stays km.2) ms.
Proof.
  revert consumed. induction ms as [|[i msg] rest IH]; intros consumed Hnd Hs; [done|].
  cbn [reference_loop]. inversion Hnd; subst.
  assert (∀ km, km ∈ rest → stays km.2 = true → km.1 ∉ consumed) as Hs' by (intros; apply Hs; [by right|done]).
  destruct (bool_decide (i ∈ consumed)) eqn:Ei.
  { apply bool_decide_eq_true in Ei. rewrite IH by done. simpl. destruct (stays msg) eqn:E; [|done].
    destruct (Hs (i, msg)); [left|done..]. }
  destruct (is_call msg) eqn:Ec; cbn [negb]; [|simpl; by rewrite IH].
  destruct (reference_scan_spec consumed rest (set_of (ids_of msg))) as (pre & post & M & Hr & -> & _ & HM & HMr).
  rewrite Hr in *. rewrite !List.filter_app, IH; [|done|by eapply stays_unconsumed]. cbn [List.filter snd].
  pose proof (taken_stays consumed pre post M _ HM HMr) as Ht. rewrite !List.filter_app in Ht.
  apply app_eq_nil in Ht as [-> [-> ->]%app_eq_nil].
  unfold stays at 1 3. rewrite Ec. cbn [orb app]. by rewrite List.filter_app.
Qed.

(** *** Declared results

    [anchored calls l]: after the calls [calls], every named result of [l] is
    declared by a call before it, or no call precedes it. *)
Definition declared (calls : list Message) (n : string) : Prop := ∃ c, c ∈ calls ∧ n ∈ ids_of c.
Fixpoint anchored (calls : list Message) (l : list Message) : Prop :=
  match l with
  | [] => True
  | m :: l' =>
      (is_result m = true → ∀ n, tool_name m = Some n → calls = [] ∨ declared calls n) ∧
      anchored (if is_call m then calls ++ [m] else calls) l'
  end.

Lemma anchored_app calls l1 l2 :
  anchored calls (l1 ++ l2) ↔ anchored calls l1 ∧ anchored (calls ++ List.filter is_call l1) l2.
Proof.
  revert calls. induction l1 as [|m l1 IH]; intros calls; simpl; [by rewrite app_nil_r; tauto|].
  rewrite IH. destruct (is_call m); [rewrite <- app_assoc|]; simpl; tauto.
Qed.
Lemma anchored_nocalls calls l : Forall (λ m, is_call m = false) l → anchored calls l →
  ∀ m n, m ∈ l → is_result m = true → tool_name m = Some n → calls = [] ∨ declared calls n.
Proof.
  intros Hl. induction Hl as [|x l Hx Hl IH]; [set_solver|]. simpl. rewrite Hx. intros [H1 H2] m n [->|Hm]%elem_of_cons; eauto.
Qed.
Lemma anchored_declared calls l : Forall (λ m, is_call m = false) l →
  (∀ m n, m ∈ l → is_result m = true → tool_name m = Some n → declared calls n) → anchored calls l.
Proof.
  intros Hl. induction Hl as [|x l Hx Hl IH]; intros H; [done|]. simpl. rewrite Hx. split.
  - intros Hr n Hn. right. apply (H x n); [left|done..].
  - apply IH. intros m n Hm. apply H. by right.
Qed.

Lemma filter_fmap_none {A B} (f : B → bool) (g : A → B) l : (∀ x, x ∈ l → f (g x) = false) → List.filter f (g <$> l) = [].
Proof. intros H. apply filter_bool_none. intros y (x & -> & Hx)%list_elem_of_fmap. by apply H. Qed.

Lemma reference_anchored ms consumed calls : NoDup ms.*1 → (∀ km, km ∈ ms → stays km.2 = true → km.1 ∉ consumed) →
  anchored calls ms.*2 → anchored calls (reference_loop ms consumed).*2.
Proof.
  revert consumed calls. induction ms as [|[i msg] rest IH]; intros consumed calls Hnd Hs; [done|].
  cbn [reference_loop fmap list_fmap snd anchored]. intros [Ha1 Ha2]. inversion Hnd; subst.
  assert (∀ km, km ∈ rest → stays km.2 = true → km.1 ∉ consumed) as Hs' by (intros; apply Hs; [by right|done]).
  destruct (bool_decide (i ∈ consumed)) eqn:Ei.
  { apply bool_decide_eq_true in Ei. destruct (is_call msg) eqn:Ec; [|by apply IH].
    destruct (Hs (i, msg)); [left| |done]. unfold stays. simpl. by rewrite Ec. }
  destruct (is_call msg) eqn:Ec; cbn [negb]; [|cbn [fmap list_fmap snd anchored]; rewrite Ec; split; [done|by apply IH]].
  destruct (reference_scan_spec consumed rest (set_of (ids_of msg))) as (pre & post & M & Hr & -> & Hpre & HM & HMr).
  assert (Forall (λ m, is_call m = false) pre.*2) as Hnc.
  { apply Forall_fmap, Forall_forall. intros km Hkm. rewrite Forall_forall in Hpre.
    destruct (Hpre km Hkm) as [Hc|]; [|done]. simpl. destruct (is_call km.2) eqn:E; [|done].
    destruct (Hs' km); [rewrite Hr; set_solver|unfold stays; by rewrite E|done]. }
  assert (∀ km, km ∈ List.filter (hoistable consumed) pre → is_call km.2 = false ∧ is_result km.2 = false) as HO.
  { intros km [_ [_ [H3%negb_true_iff [H5%negb_true_iff _]%andb_prop]%andb_prop]%andb_prop]%filter_In_iff. done. }
  rewrite !(fmap_app snd), !anchored_app. split; [|split; [|split]].
  - apply anchored_declared.
    + apply Forall_fmap, Forall_forall. intros km Hkm. by apply HO.
    + intros m n (km & -> & Hkm)%list_elem_of_fmap E. apply HO in Hkm as [_ E2]. congruence.
  - cbn [fmap list_fmap snd anchored]. rewrite (call_not_result _ Ec). done.
  - rewrite filter_fmap_none by (intros; by apply HO). cbn [fmap list_fmap snd List.filter]. rewrite Ec, app_nil_r.
    rewrite Hr, fmap_app, anchored_app in Ha2. destruct Ha2 as [Ha2 _]. split; [|].
    + apply anchored_declared; [|].
      * apply Forall_fmap, Forall_forall. intros km [Hkm _]%filter_In_iff. rewrite Forall_fmap, Forall_forall in Hnc. by apply Hnc.
      * intros m n (km & -> & [Hkm _]%filter_In_iff)%list_elem_of_fmap Er En.
        destruct (anchored_nocalls _ _ Hnc Ha2 km.2 n) as [E|]; [by apply list_elem_of_fmap_2|done..| |done].
        by destruct calls.
    + apply anchored_declared.
      * apply Forall_fmap, Forall_forall. intros km Hkm. by apply result_not_call, HMr.
      * intros m n (km & -> & Hkm)%list_elem_of_fmap Er En. destruct (HMr _ Hkm) as (_ & _ & Hin).
        unfold in_set in Hin. rewrite En in Hin. apply andb_prop in Hin as [_ Hin%set_has_spec]. apply set_of_sub in Hin.
        exists msg. split; [set_solver|done].
  - rewrite !filter_fmap_none by (intros; by apply HO). cbn [fmap list_fmap snd List.filter]. rewrite Ec.
    rewrite List.filter_app, !filter_fmap_none, !app_nil_r.
    + rewrite Hr in *. apply IH; [done|by eapply stays_unconsumed|done].
    + intros km Hkm. by apply result_not_call, HMr.
    + intros km [_ [_ Hkm]%andb_prop]%filter_In_iff. by apply result_not_call.
Qed.

(** ** Synthetic messages *)
Definition block_content (D : list string) : string := json_stringify (JArr (unknown_block <$> D)).

Lemma block_content_parse D : json_parse (block_content D) = Some (JArr (unknown_block <$> D)).
Proof.
  apply json_roundtrip, json_wf_arr, Forall_fmap, Forall_forall. intros n _. apply json_wf_obj. split.
  - apply (bool_decide_unpack _). by vm_compute.
  - repeat constructor.
Qed.
Lemma tool_use_ids_blocks D : Forall (λ n, n ≠ "") D → tool_use_ids (unknown_block <$> D) = Some D.
Proof.
  induction 1 as [|n D Hn HD IH]; [done|]. csimpl. rewrite IH. cbn [json_get fields_get seqb String.eqb Ascii.eqb eqb andb].
  unfold nonempty. by rewrite (proj2 (seqb_false n "") Hn).
Qed.
Lemma block_content_ids D : Forall (λ n, n ≠ "") D → extractToolUseIds (block_content D) = D.
Proof. intros H. unfold extractToolUseIds. by rewrite block_content_parse, tool_use_ids_blocks. Qed.

(** The last synthetic call: what its object holds. *)
Definition declares (D : list string) (c : Message) : Prop :=
  is_call c = true ∧ content c = block_content D ∧ Forall (λ n, n ≠ "") D ∧ NoDup D ∧ D ≠ [].
Lemma declares_ids D c : declares D c → ids_of c = D.
Proof. intros (_ & Hc & HD & _). unfold ids_of. rewrite Hc. by apply block_content_ids. Qed.

Lemma existsb_has_id x D : existsb (has_id x) (unknown_block <$> D) = set_has x D.
Proof.
  unfold set_has. induction D as [|n D IH]; [done|]. csimpl. rewrite <- IH. f_equal. cbn [has_id json_get fields_get seqb String.eqb Ascii.eqb eqb].
  unfold seqb. apply String.eqb_sym.
Qed.
Lemma extend_declares x D c : declares D c → x ≠ "" → declares (set_add D x) (extend_synthetic x c).
Proof.
  intros (Hc & Hco & HD & Hnd & Hne) Hx. unfold extend_synthetic, set_add. rewrite Hco, block_content_parse, existsb_has_id.
  destruct (set_has x D) eqn:E; [by split_and!|]. apply set_has_false in E. destruct c. split_and!; try done.
  - simpl. unfold block_content. by rewrite fmap_app.
  - apply Forall_app. split; [done|]. by constructor.
  - apply NoDup_app. split_and!; [done| |apply NoDup_singleton]. intros y Hy ->%list_elem_of_singleton. done.
  - by destruct D.
Qed.
Lemma synthetic_declares t m x : x ≠ "" → declares [x] (synthetic_call t m x).
Proof. intros Hx. split_and!; try done; [by constructor|apply NoDup_singleton]. Qed.

Lemma makeSynthetic_results t now tid pre ids err :
  Forall (λ m, is_result m = true) (makeSyntheticResults t now tid pre ids err).
Proof.
  unfold makeSyntheticResults. destruct (is_empty ids); [by constructor|]. apply Forall_forall.
  intros m (i & x & -> & _)%elem_of_lookup_imap. done.
Qed.
Lemma makeSynthetic_names t now tid pre ids err : ids ≠ [] →
  tool_name <$> makeSyntheticResults t now tid pre ids err = Some <$> ids.
Proof.
  intros Hne. unfold makeSyntheticResults. destruct (is_empty ids) eqn:E; [by apply is_empty_spec in E|].
  clear. apply list_eq. intros i. rewrite !list_lookup_fmap, list_lookup_imap. by destruct (ids !! i).
Qed.

(** The name a result claims in the pending set. *)
Definition tool_use_of (m : Message) : string :=
  if truthy (tool_name m) then default "" (tool_name m) else "synthetic-tc-" +:+ msg_id m.
Lemma tool_use_of_nonempty m : tool_use_of m ≠ "".
Proof. unfold tool_use_of, truthy. destruct (tool_name m) as [n|]; [|done]. destruct (nonempty n) eqn:E; [|done]. simpl. by intros ->. Qed.
Lemma tool_use_of_named m n : tool_name m = Some n → n ≠ "" → tool_use_of m = n.
Proof. intros E Hn. unfold tool_use_of. rewrite E. simpl. unfold nonempty. by rewrite (proj2 (seqb_false n "") Hn). Qed.

(** ** What the second pass keeps *)
Section RepairFacts.
Context (threadId nowIso : string).
Abbreviation step := (repair_step threadId nowIso).
Abbreviation close := (close_call threadId nowIso).

(** The shape of the state after the messages [l]. *)
Record shape (l : list Message) (s : repair_state) : Prop := MkShape {
  sh_kept : sublist l (sanitized s);
  sh_pending : Forall (λ n, n ≠ "" ∧ n ∈ lastToolUseIds s) (activePendingIds s);
  sh_last : Forall (λ n, n ≠ "") (lastToolUseIds s);
  sh_idle : lastSyntheticToolCall s ≠ None → activePendingIds s = [] ∧ inActiveToolCall s = false;
  sh_synthetic : ∀ k, lastSyntheticToolCall s = Some k → ∃ pre c rs D l1 l2,
    sanitized s = pre ++ c :: rs ∧ length pre = k ∧ declares D c ∧ l = l1 ++ l2 ∧ sublist l1 pre ∧ sublist l2 rs
}.

Lemma alter_middle (f : Message → Message) pre c rs k : length pre = k → alter f k (pre ++ c :: rs) = pre ++ f c :: rs.
Proof. intros <-. rewrite list_alter_fmap_mid || induction pre; csimpl; congruence. Qed.

Lemma sublist_snoc {A} (l k : list A) x : sublist l k → sublist (l ++ [x]) (k ++ [x]).
Proof. intros H. by apply sublist_app. Qed.
Lemma sublist_app_more {A} (l k k' : list A) : sublist l k → sublist l (k ++ k').
Proof. intros H. etrans; [exact H|]. apply sublist_inserts_r. done. Qed.

Lemma shape_flush l s pre err : shape l s → shape l (flushPendingIds threadId nowIso pre err s).
Proof.
  intros [Hk Hp Hl Hi Hs]. destruct s as [out pending act tid ids prev syn]. simpl in *.
  destruct (is_empty pending) eqn:E; simpl; [by split|].
  assert (syn = None) as -> by (destruct syn; [destruct Hi as [-> _]; done|done]).
  split; simpl; [by apply sublist_app_more|constructor|done..].
Qed.
Lemma shape_close l s pre err : shape l s → shape l (close pre err s).
Proof.
  intros H. pose proof (shape_flush l s pre err H) as Hf. destruct H as [Hk Hp Hl Hi Hs].
  destruct s as [out pending act tid ids prev syn]. simpl in *. destruct act; [|done].
  assert (syn = None) as -> by (destruct syn; [destruct Hi as [_ ?]; done|done]).
  split; simpl; [by apply sublist_app_more|constructor|done..].
Qed.
Lemma pending_after m pending (ids : list string) : Forall (λ n, n ≠ "" ∧ n ∈ ids) pending →
  Forall (λ n, n ≠ "" ∧ n ∈ ids) (drop_name m pending).
Proof. rewrite !Forall_forall. intros H n Hn%drop_name_elem. by apply H. Qed.

Lemma shape_step l s m : shape l s → shape (l ++ [m]) (step s m).
Proof.
  intros H. unfold repair_step. destruct (is_call m) eqn:Ec; [|destruct (is_result m) eqn:Er].
  - apply (shape_flush l s "synthetic" INTERRUPTED) in H as [Hk _ _ _ _].
    destruct (flushPendingIds _ _ _ _ s) as [out pending act tid ids prev syn]. simpl in *.
    split; simpl; [by apply sublist_snoc| |apply ids_nonempty|naive_solver..].
    apply Forall_forall. intros n Hn%set_of_sub. split; [|done]. pose proof (ids_nonempty m) as Hne.
    rewrite Forall_forall in Hne. by apply Hne.
  - destruct H as [Hk Hp Hl Hi Hs]. destruct s as [out pending act tid ids prev syn]. simpl in *.
    destruct (negb (is_empty pending) || act) eqn:Eo.
    + assert (syn = None) as -> by (destruct syn; [destruct Hi as [-> ->]; done|done]).
      split; simpl; [by apply sublist_snoc|by apply (pending_after m)|naive_solver..].
    + apply orb_false_elim in Eo as [Ep%negb_false_iff%is_empty_spec ->]. subst pending.
      fold (tool_use_of m).
      assert (shape (l ++ [m]) (MkRepair (out ++ [synthetic_call threadId m (tool_use_of m); m]) [] false tid ids
        (Some "tool_result") (Some (length out)))) as Hnew.
      { split; simpl; [|done..|].
        - change [synthetic_call threadId m (tool_use_of m); m] with ([synthetic_call threadId m (tool_use_of m)] ++ [m]).
          rewrite app_assoc. by apply sublist_snoc, sublist_app_more.
        - intros k [= <-]. exists out, (synthetic_call threadId m (tool_use_of m)), [m], [tool_use_of m], l, [m].
          split_and!; try done. apply synthetic_declares, tool_use_of_nonempty. }
      destruct syn as [k|]; [|by destruct prev as [[]|]; repeat split_test].
      destruct (Hs k eq_refl) as (pre & c & rs & D & l1 & l2 & -> & Hlen & HD & -> & H1 & H2).
      assert (shape ((l1 ++ l2) ++ [m]) (MkRepair (alter (extend_synthetic (tool_use_of m)) k (pre ++ c :: rs) ++ [m]) [] false
        tid ids prev (Some k))) as Hext.
      { rewrite alter_middle by done. rewrite <- !app_assoc. cbn [app]. split; simpl; [|done..|].
        - apply sublist_app; [done|]. constructor. by apply sublist_snoc.
        - intros k' [= <-]. exists pre, (extend_synthetic (tool_use_of m) c), (rs ++ [m]), (set_add D (tool_use_of m)), l1, (l2 ++ [m]).
          split_and!; try done; [by apply extend_declares, tool_use_of_nonempty|by apply sublist_snoc]. }
      by repeat split_test.
  - apply (shape_close l s "synthetic" INTERRUPTED) in H as [Hk Hp Hl _ _].
    destruct (close _ _ s) as [out pending act tid ids prev syn]. simpl in *.
    split; simpl; [by apply sublist_snoc|naive_solver..].
Qed.
End RepairFacts.

Lemma repair_shape threadId nowIso l :
  shape l (fold_left (repair_step threadId nowIso) l (MkRepair [] [] false "" [] None None)).
Proof.
  induction l as [|m l IH] using rev_ind; [by split; simpl; try constructor|].
  rewrite fold_left_app. simpl. by apply shape_step.
Qed.

(** *** Every result is declared *)
Fixpoint settled (calls : list Message) (l : list Message) : Prop :=
  match l with
  | [] => True
  | m :: l' =>
      (is_result m = true → ∀ n, tool_name m = Some n → declared calls n) ∧
      settled (if is_call m then calls ++ [m] else calls) l'
  end.
Lemma settled_app calls l1 l2 :
  settled calls (l1 ++ l2) ↔ settled calls l1 ∧ settled (calls ++ List.filter is_call l1) l2.
Proof.
  revert calls. induction l1 as [|m l1 IH]; intros calls; simpl; [by rewrite app_nil_r; tauto|].
  rewrite IH. destruct (is_call m); [rewrite <- app_assoc|]; simpl; tauto.
Qed.
Lemma declared_app calls calls' n : declared (calls ++ calls') n ↔ declared calls n ∨ declared calls' n.
Proof. unfold declared. setoid_rewrite elem_of_app. naive_solver. Qed.
Lemma settled_mono calls calls' l : (∀ n, declared calls n → declared calls' n) → settled calls l → settled calls' l.
Proof.
  revert calls calls'. induction l as [|m l IH]; intros calls calls' H; [done|]. simpl. intros [H1 H2]. split; [by eauto|].
  eapply IH; [|exact H2]. intros n. destruct (is_call m); [|by apply H]. rewrite !declared_app. naive_solver.
Qed.
Lemma settled_names calls l : Forall (λ m, is_result m = true) l →
  (∀ n, Some n ∈ tool_name <$> l → declared calls n) → settled calls l.
Proof.
  induction 1 as [|m l Hm Hl IH]; intros H; [done|]. simpl. rewrite (result_not_call _ Hm). split.
  - intros _ n Hn. apply H. csimpl. rewrite Hn. left.
  - apply IH. intros n Hn. apply H. by right.
Qed.
Lemma settled_scan calls K l : (∀ n, declared calls n → n ∈ K) → settled calls l → orphan_scan K l = false.
Proof.
  revert calls K. induction l as [|m l IH]; intros calls K HK; [done|]. simpl. intros [H1 H2].
  destruct (is_call m) eqn:Ec.
  - eapply IH; [|exact H2]. intros n [Hn|(c & ->%list_elem_of_singleton & Hn)]%declared_app; apply set_adds_elem; auto.
  - destruct (is_result m); [|by eapply IH]. destruct (tool_name m) as [n|]; [|by eapply IH].
    assert (set_has n K = true) as -> by (apply set_has_spec; eauto). by eapply IH.
Qed.

Section Sound.
Context (threadId nowIso : string).
Abbreviation step := (repair_step threadId nowIso).
Abbreviation close := (close_call threadId nowIso).

Record sound (calls : list Message) (s : repair_state) : Prop := MkSound {
  so_out : settled [] (sanitized s);
  so_calls : ∀ n, declared calls n ∨ n ∈ lastToolUseIds s → declared (List.filter is_call (sanitized s)) n;
  so_start : calls = [] → activePendingIds s = [] ∧ inActiveToolCall s = false
}.

Lemma results_nocall l : Forall (λ m, is_result m = true) l → List.filter is_call l = [].
Proof.
  intros H. apply filter_bool_none. intros m Hm. rewrite Forall_forall in H. by apply result_not_call, H.
Qed.
Lemma sound_results calls out rs ids pending act tid prev syn pending' act' ids' prev' :
  sound calls (MkRepair out pending act tid ids prev syn) → Forall (λ m, is_result m = true) rs →
  (∀ n, Some n ∈ tool_name <$> rs → n ∈ ids ∨ declared calls n) →
  (∀ n, n ∈ ids' → n ∈ ids) → (calls = [] → pending' = [] ∧ act' = false) →
  sound calls (MkRepair (out ++ rs) pending' act' tid ids' prev' syn).
Proof.
  intros [H1 H2 H3] Hrs Hn Hids Hst. simpl in *. split; simpl; [..|done].
  - apply settled_app. split; [done|]. apply settled_names; [done|]. intros n [?|?]%Hn; apply H2; tauto.
  - intros n Hd. rewrite List.filter_app, (results_nocall rs), app_nil_r by done. apply H2. naive_solver.
Qed.
Lemma sound_flush l calls s pre err : shape l s → sound calls s → sound calls (flushPendingIds threadId nowIso pre err s).
Proof.
  intros Hsh H. destruct s as [out pending act tid ids prev syn]. simpl. destruct (is_empty pending) eqn:E; [done|]. simpl.
  assert (pending ≠ []) as Hne by by intros ->.
  eapply sound_results; [exact H|apply makeSynthetic_results| |done|].
  - intros n. rewrite makeSynthetic_names by done. intros (n' & [= <-] & Hn)%list_elem_of_fmap. left.
    apply sh_pending in Hsh. simpl in Hsh. rewrite Forall_forall in Hsh. by apply Hsh.
  - intros Hc. split; [done|]. by apply (so_start _ _ H) in Hc as [? ?].
Qed.
Lemma sound_close l calls s pre err : shape l s → sound calls s → sound calls (close pre err s).
Proof.
  intros Hsh H. destruct s as [out pending act tid ids prev syn]. destruct act; [|by apply (sound_flush l)]. simpl.
  eapply sound_results; [exact H|apply makeSynthetic_results| |done|done].
  intros n Hn. destruct ids as [|i ids]; [by apply list_elem_of_singleton in Hn|]. rewrite makeSynthetic_names in Hn by done.
  apply list_elem_of_fmap in Hn as (n' & [= <-] & Hn). by left.
Qed.

Lemma sound_step l calls s m : shape l s → sound calls s →
  (is_result m = true → ∀ n, tool_name m = Some n → n ≠ "" ∧ (calls = [] ∨ declared calls n)) →
  sound (if is_call m then calls ++ [m] else calls) (step s m).
Proof.
  intros Hsh H Hm. unfold repair_step. destruct (is_call m) eqn:Ec; [|destruct (is_result m) eqn:Er].
  - pose proof (sound_flush l calls s "synthetic" INTERRUPTED Hsh H) as [H1 H2 _].
    destruct (flushPendingIds _ _ _ _ s) as [out pending act tid ids prev syn]. simpl in *. split; simpl.
    + apply settled_app. split; [done|]. simpl. by rewrite (call_not_result _ Ec).
    + intros n Hn. rewrite List.filter_app. simpl. rewrite Ec. apply declared_app. rewrite declared_app in Hn.
      assert (∀ x, x ∈ ids_of m → declared [m] x) as Hd by (intros x Hx; exists m; split; [left|done]). naive_solver.
    + intros E. by destruct calls.
  - specialize (Hm eq_refl). destruct s as [out pending act tid ids prev syn] eqn:Es. rewrite <- Es in Hsh.
    destruct (negb (is_empty pending) || act) eqn:Eo.
    + eapply sound_results; [exact H|by constructor| |done|].
      * intros n Hn%list_elem_of_singleton. destruct (Hm n) as [_ [->|?]]; [done| |by right].
        destruct (so_start _ _ H eq_refl) as [E1 E2]. simpl in *. by subst.
      * intros Hc. destruct (so_start _ _ H Hc) as [E1 E2]. simpl in *. by subst.
    + apply orb_false_elim in Eo as [Ep%negb_false_iff%is_empty_spec ->]. subst pending. fold (tool_use_of m).
      destruct H as [H1 H2 H3]. simpl in H1, H2.
      assert (∀ c calls', declares [tool_use_of m] c ∨ (∃ D, declares D c ∧ tool_use_of m ∈ D) →
        settled (calls' ++ [c]) [m]) as Hlast.
      { intros c calls' Hc. simpl. split; [|done]. intros _ n Hn. destruct (Hm n Hn) as [Hne _].
        apply declared_app. right. exists c. split; [left|]. rewrite <- (tool_use_of_named _ _ Hn Hne).
        destruct Hc as [Hc|(D & Hc & Hi)]; rewrite (declares_ids _ _ Hc); [left|done]. }
      assert (∀ prev', sound calls (MkRepair (out ++ [synthetic_call threadId m (tool_use_of m); m]) [] false tid ids
        prev' (Some (length out)))) as Hnew.
      { intros prev'. split; simpl; [..|done].
        - apply settled_app. split; [done|].
          change [?a; ?b] with ([a] ++ [b]). apply settled_app. split; [done|]. cbn [List.filter]. simpl.
          split; [|done]. intros _ n Hn. destruct (Hm n Hn) as [Hne _]. apply declared_app. right.
          eexists. split; [left|]. rewrite (declares_ids [tool_use_of m]) by apply synthetic_declares, tool_use_of_nonempty.
          rewrite (tool_use_of_named _ _ Hn Hne). left.
        - intros n Hn. rewrite List.filter_app. apply declared_app. left. by apply H2. }
      destruct syn as [k|]; [|by repeat split_test].
      destruct (sh_synthetic _ _ Hsh k) as (pre & c & rs & D & l1 & l2 & Ho & Hlen & HD & _); [by rewrite Es|].
      assert (∀ prev', sound calls (MkRepair (alter (extend_synthetic (tool_use_of m)) k out ++ [m]) [] false
        tid ids prev' (Some k))) as Hext.
      { intros prev'. rewrite Es in Ho. simpl in Ho. subst out. rewrite alter_middle by done.
        pose proof (extend_declares (tool_use_of m) D c HD (tool_use_of_nonempty m)) as HD'.
        set (c' := extend_synthetic (tool_use_of m) c) in *. pose proof (proj1 HD) as Hcc. pose proof (proj1 HD') as Hcc'.
        assert (∀ n, declared [c] n → declared [c'] n) as Hcm.
        { intros n (x & ->%list_elem_of_singleton & Hx). exists c'. split; [left|].
          rewrite (declares_ids _ _ HD'). rewrite (declares_ids _ _ HD) in Hx. apply set_add_elem. by right. }
        apply settled_app in H1 as [Hp1 Hp2]. simpl in Hp2. rewrite Hcc in Hp2. destruct Hp2 as [_ Hp2].
        split; simpl; [..|done].
        - rewrite <- app_assoc. apply settled_app. split; [done|]. simpl. rewrite Hcc'.
          split; [by rewrite (call_not_result _ Hcc')|]. apply settled_app. split.
          + eapply settled_mono; [|exact Hp2]. intros n. rewrite !declared_app. naive_solver.
          + simpl. split; [|done]. intros _ n Hn. destruct (Hm n Hn) as [Hne _]. rewrite !declared_app. left. right.
            exists c'. split; [left|]. rewrite (declares_ids _ _ HD'), <- (tool_use_of_named _ _ Hn Hne). apply set_add_elem. by left.
        - intros n Hn. apply H2 in Hn. rewrite !List.filter_app in *. simpl in *. rewrite Hcc in Hn. rewrite Hcc'.
          change (c :: ?x) with ([c] ++ x) in Hn. change (c' :: ?x) with ([c'] ++ x). rewrite !declared_app in *. naive_solver. }
      by repeat split_test.
  - pose proof (sound_close l calls s "synthetic" INTERRUPTED Hsh H) as [H1 H2 H3].
    destruct (close _ _ s) as [out pending act tid ids prev syn]. simpl in *. split; simpl; [| |done].
    + apply settled_app. split; [done|]. simpl. by rewrite Er.
    + intros n Hn. rewrite List.filter_app. apply declared_app. left. by apply H2.
Qed.
End Sound.

Lemma repair_settled threadId nowIso l : anchored [] l →
  Forall (λ m, is_result m = true → tool_name m ≠ Some "") l → settled [] (repairPass threadId nowIso l).
Proof.
  intros Ha Hn. unfold repairPass.
  enough (sound (List.filter is_call l) (fold_left (repair_step threadId nowIso) l (MkRepair [] [] false "" [] None None))) as H.
  { exact (so_out _ _ (sound_close threadId nowIso l _ _ _ _ (repair_shape threadId nowIso l) H)). }
  induction l as [|m l IH] using rev_ind; [by split; simpl; try done; intros n [(? & ?%elem_of_nil & _)|?%elem_of_nil]|].
  apply anchored_app in Ha as [Ha1 [Ha2 _]]. apply Forall_app in Hn as [Hn1 [Hn2 _]%Forall_cons_1].
  rewrite fold_left_app, List.filter_app. simpl.
  pose proof (sound_step threadId nowIso l (List.filter is_call l) _ m (repair_shape threadId nowIso l) (IH Ha1 Hn1)) as H.
  destruct (is_call m) eqn:Ec; [|rewrite app_nil_r]; apply H; intros Er n En; (split; [|by apply Ha2]);
    intros ->; by apply Hn2.
Qed.

(** *** Every call is closed *)
Lemma unclosed_scan_app l1 l2 s :
  unclosed_scan (l1 ++ l2) s = match unclosed_scan l1 s with Some s' => unclosed_scan l2 s' | None => None end.
Proof. revert s. induction l1 as [|m l1 IH]; intros s; [done|]. simpl. destruct (unclosed_step m s); [apply IH|done]. Qed.
Lemma unclosed_result m p : is_result m = true → unclosed_step m (p, false) = Some (drop_name m p, false).
Proof.
  intros Er. unfold unclosed_step. rewrite (result_not_call _ Er), Er. unfold drop_name, truthy.
  destruct (tool_name m) as [n|]; simpl; [|by destruct (is_empty p)].
  destruct (nonempty n); simpl; [|by destruct (is_empty p)]. destruct (set_has n p) eqn:E; [by destruct (is_empty _)|].
  rewrite set_delete_absent by by apply set_has_false. by destruct (is_empty p).
Qed.
Lemma unclosed_results rs p : Forall (λ m, is_result m = true) rs → Forall (λ n, n ≠ "") p →
  ∃ p', unclosed_scan rs (p, false) = Some (p', false) ∧ ∀ n, n ∈ p' ↔ n ∈ p ∧ Some n ∉ tool_name <$> rs.
Proof.
  intros Hrs. revert p. induction Hrs as [|m rs Hm Hrs IH]; intros p Hp.
  { exists p. split; [done|]. intros n. rewrite elem_of_nil. tauto. }
  cbn [unclosed_scan]. rewrite unclosed_result by done.
  assert (∀ n, n ∈ drop_name m p ↔ n ∈ p ∧ Some n ≠ tool_name m) as Hd.
  { intros n. unfold drop_name. destruct (tool_name m) as [t|]; [|naive_solver]. destruct (nonempty t) eqn:E.
    - rewrite set_delete_elem. naive_solver.
    - split; [|tauto]. intros Hn. split; [done|]. intros [= <-]. rewrite Forall_forall in Hp. apply Hp in Hn.
      unfold nonempty in E. by rewrite (proj2 (seqb_false n "") Hn) in E. }
  destruct (IH (drop_name m p)) as (p' & -> & Hp').
  { rewrite Forall_forall in *. intros n Hn. apply Hp. by apply drop_name_elem in Hn. }
  exists p'. split; [done|]. intros n. rewrite Hp', Hd. csimpl. rewrite not_elem_of_cons. tauto.
Qed.
Lemma unclosed_covered rs p : Forall (λ m, is_result m = true) rs → Forall (λ n, n ≠ "") p →
  (∀ n, n ∈ p → Some n ∈ tool_name <$> rs) → unclosed_scan rs (p, false) = Some ([], false).
Proof.
  intros H1 H2 H3. destruct (unclosed_results rs p H1 H2) as (p' & -> & Hp'). do 2 f_equal.
  destruct p' as [|n p']; [done|]. destruct (proj1 (Hp' n) (list_elem_of_here _ _)) as [Hn []]. by apply H3.
Qed.
Lemma unclosed_declares c rs D : declares D c → Forall (λ m, is_result m = true) rs →
  (∀ n, n ∈ D → Some n ∈ tool_name <$> rs) → unclosed_scan (c :: rs) ([], false) = Some ([], false).
Proof.
  intros HD Hrs Hn. pose proof HD as (Hc & _ & Hne & Hnd & Hne'). cbn [unclosed_scan unclosed_step]. rewrite Hc. cbn [is_empty length Nat.eqb negb orb].
  rewrite (declares_ids _ _ HD). destruct (is_empty (set_of D)) eqn:E.
  { apply is_empty_spec in E. destruct D as [|n D]; [done|]. assert (n ∈ set_of (n :: D)) as H by (apply set_of_elem; left).
    rewrite E in H. by apply elem_of_nil in H. }
  apply unclosed_covered; [done|..].
  - apply Forall_forall. intros n Hin%set_of_sub. rewrite Forall_forall in Hne. by apply Hne.
  - intros n Hin%set_of_sub. by apply Hn.
Qed.

Section Closed.
Context (threadId nowIso : string).
Abbreviation step := (repair_step threadId nowIso).
Abbreviation close := (close_call threadId nowIso).

Record closed (s : repair_state) : Prop := MkClosed {
  cl_scan : unclosed_scan (sanitized s) ([], false) = Some (activePendingIds s, false);
  cl_active : inActiveToolCall s = true → activePendingIds s = set_of (lastToolUseIds s) ∧ lastToolUseIds s ≠ [];
  cl_synthetic : ∀ k, lastSyntheticToolCall s = Some k → ∃ pre c rs D,
    sanitized s = pre ++ c :: rs ∧ length pre = k ∧ declares D c ∧ unclosed_scan pre ([], false) = Some ([], false) ∧
    Forall (λ m, is_result m = true) rs ∧ (∀ n, n ∈ D → Some n ∈ tool_name <$> rs)
}.

Lemma closed_flush l s pre err : shape l s → closed s → let s' := flushPendingIds threadId nowIso pre err s in
  unclosed_scan (sanitized s') ([], false) = Some ([], false) ∧ activePendingIds s' = [].
Proof.
  intros Hsh [H1 H2 H3]. destruct s as [out pending act tid ids prev syn]. simpl in *.
  destruct (is_empty pending) eqn:E; simpl; [apply is_empty_spec in E; by subst|].
  assert (pending ≠ []) as Hne by by intros ->. split; [|done]. rewrite unclosed_scan_app, H1.
  apply unclosed_covered; [apply makeSynthetic_results|..].
  - apply sh_pending in Hsh. simpl in Hsh. eapply Forall_impl; [exact Hsh|]. naive_solver.
  - intros n Hn. rewrite makeSynthetic_names by done. by apply list_elem_of_fmap_2.
Qed.
Lemma closed_close l s pre err : shape l s → closed s → let s' := close pre err s in
  unclosed_scan (sanitized s') ([], false) = Some ([], false) ∧ activePendingIds s' = [] ∧ inActiveToolCall s' = false.
Proof.
  intros Hsh H. pose proof (closed_flush l s pre err Hsh H) as Hf. destruct H as [H1 H2 H3].
  destruct s as [out pending act tid ids prev syn]. simpl in *. destruct act; simpl.
  - destruct (H2 eq_refl) as [-> Hne]. split_and!; [|done..]. rewrite unclosed_scan_app, H1.
    apply unclosed_covered; [apply makeSynthetic_results|..].
    + apply Forall_forall. intros n Hn%set_of_sub. apply sh_last in Hsh. simpl in Hsh. rewrite Forall_forall in Hsh. by apply Hsh.
    + intros n Hn%set_of_sub. rewrite makeSynthetic_names by done. by apply list_elem_of_fmap_2.
  - destruct Hf as [? ?]. split_and!; [done..|]. by destruct (is_empty pending).
Qed.

Lemma closed_step l s m : shape l s → closed s → (is_call m = true → ids_of m ≠ []) →
  (is_result m = true → ∃ n, tool_name m = Some n ∧ n ≠ "") → closed (step s m).
Proof.
  intros Hsh H Hc Hr. unfold repair_step. destruct (is_call m) eqn:Ec; [|destruct (is_result m) eqn:Er].
  - specialize (Hc eq_refl).
    pose proof (closed_flush l s "synthetic" INTERRUPTED Hsh H) as [H1 H2].
    destruct (flushPendingIds _ _ _ _ s) as [out pending act tid ids prev syn]. simpl in *. split; simpl; [|done..].
    rewrite unclosed_scan_app, H1. simpl. rewrite Ec. simpl. destruct (is_empty (set_of (ids_of m))) eqn:E; [|done].
    apply is_empty_spec in E. destruct (ids_of m) as [|n ids']; [done|].
    assert (n ∈ set_of (n :: ids')) as Hn by (apply set_of_elem; left). rewrite E in Hn. by apply elem_of_nil in Hn.
  - destruct (Hr eq_refl) as (n0 & En0 & Hn0). destruct s as [out pending act tid ids prev syn] eqn:Es. rewrite <- Es in Hsh.
    destruct (negb (is_empty pending) || act) eqn:Eo.
    + destruct H as [H1 H2 H3]. simpl in *. split; simpl; [|done|].
      * rewrite unclosed_scan_app, H1. cbn [unclosed_scan]. by rewrite unclosed_result.
      * intros k ->. assert (lastSyntheticToolCall s ≠ None) as Hi by by rewrite Es.
        apply (sh_idle _ _ Hsh) in Hi as [E1 E2]. rewrite Es in E1, E2. simpl in *. by subst.
    + apply orb_false_elim in Eo as [Ep%negb_false_iff%is_empty_spec ->]. subst pending. fold (tool_use_of m).
      rewrite (tool_use_of_named _ _ En0 Hn0). destruct H as [H1 H2 H3]. simpl in H1, H3.
      assert (∀ prev', closed (MkRepair (out ++ [synthetic_call threadId m n0; m]) [] false tid ids
        prev' (Some (length out)))) as Hnew.
      { intros prev'. pose proof (synthetic_declares threadId m n0 Hn0) as HD.
        assert (∀ n, n ∈ [n0] → Some n ∈ tool_name <$> [m]) as Hin.
        { intros n ->%list_elem_of_singleton. csimpl. rewrite En0. left. }
        split; simpl; [|done|].
        - rewrite unclosed_scan_app, H1. apply (unclosed_declares _ _ [n0]); [done|by constructor|done].
        - intros k [= <-]. exists out, (synthetic_call threadId m n0), [m], [n0]. split_and!; try done. by constructor. }
      destruct syn as [k|]; [|by repeat split_test].
      destruct (H3 k eq_refl) as (pre & c & rs & D & -> & Hlen & HD & Hpre & Hrs & Hin).
      assert (∀ prev', closed (MkRepair (alter (extend_synthetic n0) k (pre ++ c :: rs) ++ [m]) [] false
        tid ids prev' (Some k))) as Hext.
      { intros prev'. rewrite alter_middle, <- app_assoc by done. cbn [app].
        pose proof (extend_declares n0 D c HD Hn0) as HD'.
        assert (Forall (λ m, is_result m = true) (rs ++ [m])) as Hrs' by (apply Forall_app; split; [done|by constructor]).
        assert (∀ n, n ∈ set_add D n0 → Some n ∈ tool_name <$> rs ++ [m]) as Hin'.
        { intros n Hn%set_add_elem. rewrite fmap_app, elem_of_app. destruct Hn as [->|Hn]; [right; csimpl; rewrite En0; left|left; by apply Hin]. }
        split; simpl; [|done|].
        - rewrite unclosed_scan_app, Hpre. by apply (unclosed_declares _ _ (set_add D n0)).
        - intros k' [= <-]. exists pre, (extend_synthetic n0 c), (rs ++ [m]), (set_add D n0). by split_and!. }
      by repeat split_test.
  - pose proof (closed_close l s "synthetic" INTERRUPTED Hsh H) as (H1 & H2 & H3).
    destruct (close _ _ s) as [out pending act tid ids prev syn]. simpl in *. subst. split; simpl; [|done..].
    rewrite unclosed_scan_app, H1. simpl. by rewrite Ec, Er.
Qed.
End Closed.

(** A message the pass has no legacy fallback for: a call that names at least
    one tool use, a result that names its own. *)
Definition well_named (m : Message) : bool :=
  (negb (is_call m) || negb (is_empty (ids_of m))) && (negb (is_result m) || truthy (tool_name m)).

Lemma repair_closed threadId nowIso l : Forall (λ m, well_named m = true) l →
  hasUnclosedToolCall (repairPass threadId nowIso l) = false.
Proof.
  intros Hn. unfold hasUnclosedToolCall, repairPass.
  enough (closed (fold_left (repair_step threadId nowIso) l (MkRepair [] [] false "" [] None None))) as H.
  { destruct (closed_close threadId nowIso l _ "synthetic-close" "Tool execution completed" (repair_shape _ _ l) H) as [-> _]. done. }
  induction l as [|m l IH] using rev_ind; [by split|]. apply Forall_app in Hn as [Hn1 [Hn2 _]%Forall_cons_1].
  rewrite fold_left_app. simpl. apply andb_prop in Hn2 as [Hc Hr]. eapply closed_step; [apply repair_shape|by apply IH|..].
  - intros E. rewrite E in Hc. intros E2. by rewrite E2 in Hc.
  - intros E. rewrite E in Hr. unfold truthy in Hr. destruct (tool_name m) as [n|]; [|done]. exists n. split; [done|].
    by intros ->.
Qed.

(** ** The sanitizer *)
Lemma reorder_perm messages : reorderPass messages ≡ₚ messages.
Proof.
  rewrite reorder_is_reference. unfold reorderPassReference.
  assert (NoDup (enumerate messages).*1) as Hnd by (rewrite enumerate_indices; apply NoDup_seq).
  rewrite (reference_perm _ ∅ Hnd), filter_bool_all.
  - apply reflexive_eq. unfold enumerate. apply list_eq. intros i. rewrite list_lookup_fmap, list_lookup_imap.
    by destruct (messages !! i).
  - intros km _. unfold unconsumed. by rewrite bool_decide_false by set_solver.
Qed.
Lemma enumerate_messages messages : (enumerate messages).*2 = messages.
Proof.
  apply list_eq. intros i. unfold enumerate. rewrite list_lookup_fmap, list_lookup_imap. by destruct (messages !! i).
Qed.
Lemma reorder_stays messages : List.filter stays (reorderPass messages) = List.filter stays messages.
Proof.
  rewrite reorder_is_reference. unfold reorderPassReference.
  assert (∀ l : list (nat * Message), List.filter stays l.*2 = (List.filter (λ km, stays km.2) l).*2) as Hf.
  { induction l as [|[k m] l IH]; [done|]. csimpl. destruct (stays m); csimpl; by rewrite IH. }
  rewrite Hf, reference_stays, <- Hf, enumerate_messages; [done|by rewrite enumerate_indices; apply NoDup_seq|set_solver].
Qed.
Lemma reorder_anchored messages : anchored [] messages → anchored [] (reorderPass messages).
Proof.
  intros H. rewrite reorder_is_reference. apply reference_anchored; [rewrite enumerate_indices; apply NoDup_seq|set_solver|].
  by rewrite enumerate_messages.
Qed.

(** The only orphaned results are those before the first call, where a cut
    through the thread leaves them. *)
Fixpoint orphans_lead (messages : list Message) : bool :=
  match messages with
  | [] => true
  | m :: ms => if is_call m then negb (hasOrphanedToolResult messages) else orphans_lead ms
  end.
Lemma orphan_scan_anchored calls K l : (∀ n, n ∈ K → declared calls n) → orphan_scan K l = false → anchored calls l.
Proof.
  revert calls K. induction l as [|m l IH]; intros calls K HK; [done|]. simpl. intros H.
  destruct (is_call m) eqn:Ec.
  - rewrite (call_not_result _ Ec). split; [done|]. eapply IH; [|exact H].
    intros n [Hn|Hn]%set_adds_elem; apply declared_app; [left; by apply HK|right]. exists m. split; [left|done].
  - destruct (is_result m); [|split; [done|by eapply IH]]. destruct (tool_name m) as [t|]; [|split; [done|by eapply IH]].
    destruct (set_has t K) eqn:E; [|done]. simpl in H. split; [|by eapply IH].
    intros _ n [= <-]. right. by apply HK, set_has_spec.
Qed.
Lemma orphans_lead_anchored l : orphans_lead l = true → anchored [] l.
Proof.
  induction l as [|m l IH]; [done|]. cbn [orphans_lead]. destruct (is_call m) eqn:Ec.
  - intros H%negb_true_iff. eapply orphan_scan_anchored; [|exact H]. intros n Hn. by apply elem_of_nil in Hn.
  - intros H. simpl. rewrite Ec. split; [by left|by apply IH].
Qed.

(** C31: [reorderPass], which resolves results past a tool-call boundary by keyed
    lookups with monotone cursors, computes on every message list exactly what
    the quadratic pass it replaced computes. *)
Theorem reorder_reference messages : reorderPass messages = reorderPassReference messages.
Proof. apply reorder_is_reference. Qed.

(** Sanitizing loses nothing: some reordering of the messages, in which the
    tool calls and the assistant messages keep their order, occurs in the
    result in that order; all the rest of the result are stubs. *)
Theorem sanitize_keeps messages threadId nowIso :
  ∃ reordered, reordered ≡ₚ messages ∧ List.filter stays reordered = List.filter stays messages ∧
    sublist reordered (sanitizeToolPairs messages threadId nowIso).
Proof.
  exists (reorderPass messages). split_and!; [apply reorder_perm|apply reorder_stays|].
  unfold sanitizeToolPairs, repairPass. apply sh_kept, shape_close, repair_shape.
Qed.

(** When every call names a tool use and every result the use it answers, the
    sanitized stream leaves no call unanswered before the conversation goes on. *)
Theorem sanitize_closed messages threadId nowIso : Forall (λ m, well_named m = true) messages →
  hasUnclosedToolCall (sanitizeToolPairs messages threadId nowIso) = false.
Proof. intros H. apply repair_closed. by rewrite reorder_perm. Qed.

(** When the results without a call are those a cut through the thread left
    before its first call, the sanitized stream has no result without a call
    before it, although both passes move messages. *)
Theorem sanitize_no_orphans messages threadId nowIso :
  Forall (λ m, well_named m = true) messages → orphans_lead messages = true →
  hasOrphanedToolResult (sanitizeToolPairs messages threadId nowIso) = false.
Proof.
  intros Hn Hl. eapply (settled_scan []); [by intros n (? & ?%elem_of_nil & _)|]. apply repair_settled.
  - by apply reorder_anchored, orphans_lead_anchored.
  - rewrite reorder_perm. eapply Forall_impl; [exact Hn|]. simpl. intros m Hm Er E. unfold well_named in Hm.
    rewrite Er, E in Hm. simpl in Hm. by rewrite andb_false_r in Hm.
Qed.

(** A thread cut inside a parallel call, with a developer note between a call
    and its result, a result that arrives after the next call, and an
    interrupted call. *)
Definition sample_message (i r c : string) (t : option string) : Message :=
  MkMessage i "thread" r c None t "now" None "host" 0 None None.
Definition sample_thread : list Message :=
  [sample_message "r1" "tool_result" "" (Some "a"); sample_message "r2" "tool_result" "" (Some "b");
   sample_message "u1" "user" "" None; sample_message "c1" "tool_call" (block_content ["c"; "d"]) None;
   sample_message "n1" "developer" "" None; sample_message "r3" "tool_result" "" (Some "d");
   sample_message "c2" "tool_call" (block_content ["e"]) None; sample_message "r4" "tool_result" "" (Some "c");
   sample_message "u2" "user" "" None].

Lemma sanitize_closed_witness :
  hasUnclosedToolCall sample_thread = true ∧
  hasUnclosedToolCall (sanitizeToolPairs sample_thread "thread" "now") = false.
Proof. split; [by vm_compute|]. apply sanitize_closed. repeat constructor. Defined.

Lemma sanitize_no_orphans_witness :
  hasOrphanedToolResult sample_thread = true ∧
  hasOrphanedToolResult (sanitizeToolPairs sample_thread "thread" "now") = false ∧
  msg_id <$> sanitizeToolPairs sample_thread "thread" "now" =
    ["synthetic-r1"; "r1"; "r2"; "u1"; "n1"; "c1"; "r3"; "r4"; "u2"; "c2"; "synthetic-close-c2-0"].
Proof.
  split_and!; [by vm_compute| |by vm_compute]. apply sanitize_no_orphans; [repeat constructor|by vm_compute].
Defined.

(** Without the side conditions the contract fails: a result that no call
    declares, arriving inside an open call, stays without one; a call whose
    content names no tool use stays open before the next call; and two orphaned
    results of one tool use make a second run add a stub. *)
Example sanitize_foreign_result :
  hasOrphanedToolResult (sanitizeToolPairs [sample_message "c" "tool_call" (block_content ["a"]) None;
    sample_message "r" "tool_result" "" (Some "b")] "thread" "now") = true.
Proof. by vm_compute. Qed.
Example sanitize_legacy_call :
  hasUnclosedToolCall (sanitizeToolPairs [sample_message "c" "tool_call" "legacy" None;
    sample_message "d" "tool_call" (block_content ["a"]) None; sample_message "r" "tool_result" "" (Some "a")]
    "thread" "now") = true.
Proof. by vm_compute. Qed.
Example sanitize_not_idempotent : let once := sanitizeToolPairs
    [sample_message "r1" "tool_result" "" (Some "a"); sample_message "r2" "tool_result" "" (Some "a")] "thread" "now" in
  length once = 3%nat ∧ length (sanitizeToolPairs once "thread" "now") = 4%nat.
Proof. by vm_compute. Qed.
