(* ===== verification/Cron.v ===== *)
(** * Cron schedules (packages/agent/src/task-resolution.ts)

    The five-field cron parser and the search for the next run time
    ([parseCron], [parseCronField], [parseCronNumber], [computeNextRunAt]), with
    the UTC calendar of the JavaScript [Date] object the search reads.  Instants
    are milliseconds since the epoch.  Decimal tokens are exact integers; the
    code's numbers are exact below 2^53. *)
From Stdlib Require Import Ascii.
From S2P Require Import Prelude Json.
Local Open Scope bound_scope.

(** ** The proleptic Gregorian calendar of [Date] *)
Definition minute_ms : Z := 60000.
Definition day_ms : Z := 86400000.

(** Days since the epoch of a year, month (1-12) and day; a day past the end of
    its month counts into the next one, as [Date]'s setters do. *)
Definition days_from_civil (y m d : Z) : Z :=
  let y' := if m <=? 2 then y - 1 else y in
  let era := y' / 400 in
  let yoe := y' mod 400 in
  let doy := (153 * (if m <=? 2 then m + 9 else m - 3) + 2) / 5 + d - 1 in
  era * 146097 + (yoe * 365 + yoe / 4 - yoe / 100 + doy) - 719468.

(** Year of the 400-year era, month and day of a day of the era. *)
Definition civil_of_era_day (doe : Z) : Z * Z * Z :=
  let yoe := (doe - doe / 1460 + doe / 36524 - doe / 146096) / 365 in
  let doy := doe - (365 * yoe + yoe / 4 - yoe / 100) in
  let mp := (5 * doy + 2) / 153 in
  let d := doy - (153 * mp + 2) / 5 + 1 in
  if mp <? 10 then (yoe, mp + 3, d) else (yoe + 1, mp - 9, d).
Definition civil_from_days (z : Z) : Z * Z * Z :=
  let z' := z + 719468 in
  let '(y, m, d) := civil_of_era_day (z' mod 146097) in
  (y + z' / 146097 * 400, m, d).

Definition getUTCMinutes (t : Z) : Z := t / minute_ms mod 60.
Definition getUTCHours (t : Z) : Z := t / 3600000 mod 24.
Definition getUTCDay (t : Z) : Z := (t / day_ms + 4) mod 7.
Definition getUTCFullYear (t : Z) : Z := (civil_from_days (t / day_ms)).1.1.
(** [getUTCMonth() + 1]. *)
Definition getUTCMonth1 (t : Z) : Z := (civil_from_days (t / day_ms)).1.2.
Definition getUTCDate (t : Z) : Z := (civil_from_days (t / day_ms)).2.
Definition setUTCFullYear (t y : Z) : Z :=
  days_from_civil y (getUTCMonth1 t) (getUTCDate t) * day_ms + t mod day_ms.

(** ** Splitting strings *)
Fixpoint split_on (c : ascii) (s : list ascii) : list (list ascii) :=
  match s with
  | [] => [[]]
  | x :: s' =>
      if Ascii.eqb x c then [] :: split_on c s'
      else match split_on c s' with
           | p :: ps => (x :: p) :: ps
           | [] => [[x]]
           end
  end.
Definition has_char (c : ascii) (s : list ascii) : bool := existsb (Ascii.eqb c) s.

(** The number of bytes of the white space character (of [trim] and of the
    pattern class) that starts a UTF-8 string, 0 when there is none. *)
Definition white_len (s : list ascii) : nat :=
  match nat_of_ascii <$> take 3 s with
  | 9 :: _ | 10 :: _ | 11 :: _ | 12 :: _ | 13 :: _ | 32 :: _ => 1
  | 194 :: 160 :: _ => 2
  | 225 :: 154 :: 128 :: _ => 3
  | [226; 128; n] =>
      if (128 <=? n)%nat && (n <=? 138)%nat || (n =? 168)%nat || (n =? 169)%nat || (n =? 175)%nat then 3 else 0
  | [226; 129; 159] | [227; 128; 128] | [239; 187; 191] => 3
  | _ => 0
  end%nat.

(** [s.trim().split(/\s+/)]: the words between runs of white space; the trimmed
    empty string is one empty word. *)
Fixpoint words_from (n : nat) (s : list ascii) (word : list ascii) : list (list ascii) :=
  let flush := match word with [] => [] | _ => [rev word] end in
  match n with
  | O => flush
  | S n' =>
      match s with
      | [] => flush
      | x :: s' =>
          match white_len s with
          | O => words_from n' s' (x :: word)
          | k => flush ++ words_from n' (drop k s) []
          end
      end
  end.
Definition trim_split (s : list ascii) : list (list ascii) :=
  match words_from (S (length s)) s [] with [] => [[]] | ws => ws end.

(** ** Fields *)
Definition parseCronNumber (token : list ascii) : result Z :=
  match token with
  | [] => Throw "Invalid numeric value: "
  | _ => if forallb is_digit token then Ok (digits_value token)
         else Throw ("Invalid numeric value: " +:+ of_chars token)
  end.

(** A match of [^-?\d+$] as a number. *)
Definition signed_number (token : list ascii) : option Z :=
  let '(neg, ds) := match token with
                    | c :: r => if Ascii.eqb c "-" then (true, r) else (false, token)
                    | [] => (false, [])
                    end in
  match ds with
  | [] => None
  | _ => if forallb is_digit ds then Some (if neg then - digits_value ds else digits_value ds) else None
  end.

(** [for (let i = start; i <= end; i += step)]. *)
Definition count_up (start end_ step : Z) : list Z :=
  if end_ <? start then [] else (λ k, start + step * Z.of_nat k) <$> seq 0 (Z.to_nat ((end_ - start) / step + 1)).
Definition in_bounds (lo hi i : Z) : bool := (lo <=? i) && (i <=? hi).
Definition field_values (lo hi : Z) (l : list Z) : gset Z := list_to_set (List.filter (in_bounds lo hi) l).

Definition star : list ascii := ["*"%char].
Definition is_star (s : list ascii) : bool := bool_decide (s = star).

Definition step_field (field : list ascii) (lo hi : Z) : result (gset Z) :=
  let parts := split_on "/" field in
  let range := default [] (parts !! 0%nat) in
  let step := default [] (parts !! 1%nat) in
  match signed_number step with
  | None => Throw ("Invalid step value: " +:+ of_chars step)
  | Some stepNum =>
      if stepNum <=? 0 then Throw ("Invalid step value: " +:+ of_chars step)
      else
        let! bounds :=
          (if is_star range then Ok (lo, hi)
           else
             let rangeParts := split_on "-" range in
             if (2 <? length rangeParts)%nat then Throw ("Invalid range: " +:+ of_chars range)
             else
               let! start := parseCronNumber (default [] (rangeParts !! 0%nat)) in
               let! end_ := match default [] (rangeParts !! 1%nat) with
                            | [] => Ok hi
                            | e => parseCronNumber e
                            end in
               Ok (start, end_)) in
        Ok (field_values lo hi (count_up bounds.1 bounds.2 stepNum))
  end.

Definition range_field (field : list ascii) (lo hi : Z) : result (gset Z) :=
  match split_on "-" field with
  | [a; b] =>
      let! start := parseCronNumber a in
      let! end_ := parseCronNumber b in
      Ok (field_values lo hi (count_up start end_ 1))
  | _ => Throw ("Invalid range: " +:+ of_chars field)
  end.

Definition number_field (field : list ascii) (lo hi : Z) : result (gset Z) :=
  let! num := parseCronNumber field in
  if (num <? lo) || (hi <? num)
  then Throw ("Invalid cron field: " +:+ of_chars field +:+ " (must be " +:+ of_chars (print_Z lo) +:+ "-"
              +:+ of_chars (print_Z hi) +:+ ")")
  else Ok {[num]}.

(** A field without a comma. *)
Definition plain_field (field : list ascii) (lo hi : Z) : result (gset Z) :=
  if is_star field then Ok (list_to_set (count_up lo hi 1))
  else if has_char "/" field then step_field field lo hi
  else if has_char "-" field then range_field field lo hi
  else number_field field lo hi.

(** [for (const part of ...)] collecting the values of each part. *)
Fixpoint union_fields (parse : list ascii → result (gset Z)) (parts : list (list ascii)) (acc : gset Z)
  : result (gset Z) :=
  match parts with
  | [] => Ok acc
  | part :: rest => let! values := parse part in union_fields parse rest (acc ∪ values)
  end.

Definition parseCronField (field : list ascii) (lo hi : Z) : result (gset Z) :=
  if has_char "," field
  then union_fields (λ part, plain_field part lo hi) (split_on "," field) ∅
  else plain_field field lo hi.

(** ** The search *)
Record CronSpec : Type := MkCron {
  c_minute : gset Z; c_hour : gset Z; c_day : gset Z; c_month : gset Z; c_weekday : gset Z;
  c_dayWildcard : bool; c_weekdayWildcard : bool }.

Definition has (s : gset Z) (i : Z) : bool := bool_decide (i ∈ s).

Definition cron_matches (c : CronSpec) (t : Z) : bool :=
  let dayMatch := has (c_day c) (getUTCDate t) in
  let weekdayMatch := has (c_weekday c) (getUTCDay t) in
  let calendarDayMatch :=
    if c_dayWildcard c then weekdayMatch
    else if c_weekdayWildcard c then dayMatch
    else dayMatch || weekdayMatch in
  let dateMatch := calendarDayMatch && has (c_month c) (getUTCMonth1 t) in
  has (c_minute c) (getUTCMinutes t) && has (c_hour c) (getUTCHours t) && dateMatch.

Definition cron_fields (cronExpr : string) : result CronSpec :=
  let fields := trim_split (chars cronExpr) in
  match fields with
  | [minuteStr; hourStr; dayStr; monthStr; weekdayStr] =>
      let! minute := parseCronField minuteStr 0 59 in
      let! hour := parseCronField hourStr 0 23 in
      let! day := parseCronField dayStr 1 31 in
      let! month := parseCronField monthStr 1 12 in
      let! weekday := parseCronField weekdayStr 0 6 in
      Ok (MkCron minute hour day month weekday (is_star dayStr) (is_star weekdayStr))
  | _ => Throw ("Invalid cron expression: expected 5 fields, got "
                +:+ of_chars (print_Z (Z.of_nat (length fields))))
  end.

(** The first minute after [from]: seconds and milliseconds cleared, one minute
    added. *)
Definition first_minute (from : Z) : Z := from / minute_ms * minute_ms + minute_ms.
Definition max_date (from : Z) : Z := setUTCFullYear from (getUTCFullYear from + 4).

(** [while (next <= maxDate)], the fuel counting the minutes left. *)
Fixpoint search_minute (fuel : nat) (c : CronSpec) (maxDate next : Z) : result Z :=
  match fuel with
  | O => Throw "out of fuel"
  | S fuel' =>
      if next <=? maxDate then
        if cron_matches c next then Ok next
        else search_minute fuel' c maxDate (next + minute_ms)
      else Throw "Could not find next cron execution time"
  end.
Definition search_fuel (maxDate next : Z) : nat := S (S (Z.to_nat ((maxDate - next) / minute_ms))).

Definition parseCron (cronExpr : string) (from : Z) : result Z :=
  let! c := cron_fields cronExpr in
  let next := first_minute from in
  let maxDate := max_date from in
  search_minute (search_fuel maxDate next) c maxDate next.

Definition computeNextRunAt (cronExpr : string) (from : Z) : result Z :=
  match parseCron cronExpr from with
  | Ok t => Ok t
  | Throw e => Throw ("Failed to parse cron expression " +:+ of_chars [dquote] +:+ cronExpr +:+ of_chars [dquote]
                      +:+ ": " +:+ e)
  end.

(** * Lemmas *)
Local Ltac Zify.zify_post_hook ::= Z.to_euclidean_division_equations.

(** ** The calendar *)
Lemma era_day_range doe : 0 ≤ doe < 146097 →
  let yoe := (doe - doe / 1460 + doe / 36524 - doe / 146096) / 365 in
  0 ≤ yoe < 400 ∧ 0 ≤ doe - (365 * yoe + yoe / 4 - yoe / 100) ≤ 365.
Proof.
  intros H yoe.
  assert (0 ≤ yoe < 400) as Hy by (unfold yoe; lia).
  split; [done|].
  assert (∃ b, b = doe / 36524 ∧ (b = 0 ∨ b = 1 ∨ b = 2 ∨ b = 3 ∨ b = 4)) as (b & Hb & Hbs).
  { eexists. split; [done|]. lia. }
  assert (∃ c, c = doe / 146096 ∧ (c = 0 ∨ c = 1)) as (c & Hc & Hcs).
  { eexists. split; [done|]. lia. }
  assert (∃ f, f = yoe / 100 ∧ (f = 0 ∨ f = 1 ∨ f = 2 ∨ f = 3)) as (f & Hf & Hfs).
  { eexists. split; [done|]. lia. }
  assert (yoe = (doe - doe / 1460 + b - c) / 365) as Hyo by (by subst).
  rewrite <-Hf. clearbody yoe.
  destruct Hbs as [->|[->|[->|[->| ->]]]], Hcs as [->| ->], Hfs as [->|[->|[->| ->]]]; lia.
Qed.

Lemma civil_of_era_day_spec doe y m d : 0 ≤ doe < 146097 → civil_of_era_day doe = (y, m, d) →
  1 ≤ m ≤ 12 ∧ 1 ≤ d ≤ 31 ∧ days_from_civil y m d = doe - 719468.
Proof.
  intros H. pose proof (era_day_range doe H) as Hr. cbv zeta in Hr. unfold civil_of_era_day.
  set (yoe := (doe - doe / 1460 + doe / 36524 - doe / 146096) / 365) in *.
  remember (doe - (365 * yoe + yoe / 4 - yoe / 100)) as doy eqn:Hdoy.
  clearbody yoe. destruct Hr as [Hy Hd].
  assert (0 ≤ (5 * doy + 2) / 153 ≤ 11) as Hmp by lia.
  assert (1 ≤ doy - (153 * ((5 * doy + 2) / 153) + 2) / 5 + 1 ≤ 31) as Hday by lia.
  remember ((5 * doy + 2) / 153) as mp. unfold days_from_civil.
  destruct (mp <? 10) eqn:E; bool_props; intros [= <- <- <-]; (split; [lia|split; [lia|]]).
  - rewrite (proj2 (Z.leb_gt (mp + 3) 2)) by lia.
    rewrite (Z.div_small yoe), (Z.mod_small yoe) by lia.
    replace (mp + 3 - 3) with mp by lia. lia.
  - rewrite (proj2 (Z.leb_le (mp - 9) 2)) by lia.
    replace (yoe + 1 - 1) with yoe by lia.
    rewrite (Z.div_small yoe), (Z.mod_small yoe) by lia.
    replace (mp - 9 + 9) with mp by lia. lia.
Qed.

Lemma days_from_civil_era y m d k : days_from_civil (y + k * 400) m d = days_from_civil y m d + k * 146097.
Proof.
  unfold days_from_civil. cbv zeta.
  replace (if m <=? 2 then y + k * 400 - 1 else y + k * 400)
    with ((if m <=? 2 then y - 1 else y) + k * 400) by (destruct (m <=? 2); lia).
  rewrite Z.div_add, Z.mod_add by done. lia.
Qed.

(** The calendar date of a day counts back to that day. *)
Lemma civil_roundtrip z y m d : civil_from_days z = (y, m, d) →
  1 ≤ m ≤ 12 ∧ 1 ≤ d ≤ 31 ∧ days_from_civil y m d = z.
Proof.
  unfold civil_from_days. destruct (civil_of_era_day _) as [[y' m'] d'] eqn:E.
  intros [= <- <- <-].
  apply civil_of_era_day_spec in E as (Hm & Hd & He); [|apply Z.mod_pos_bound; lia].
  split; [done|split; [done|]]. rewrite days_from_civil_era, He. lia.
Qed.

(** ** Fields *)
Lemma field_values_elem lo hi l i : i ∈ field_values lo hi l ↔ i ∈ l ∧ lo ≤ i ≤ hi.
Proof.
  unfold field_values. rewrite elem_of_list_to_set, filter_In_iff. unfold in_bounds.
  rewrite andb_true_iff, !Z.leb_le. tauto.
Qed.

Lemma count_up_elem start end_ step i : 0 < step →
  i ∈ count_up start end_ step ↔ start ≤ i ≤ end_ ∧ (step | i - start).
Proof.
  intros Hs. unfold count_up. destruct (end_ <? start) eqn:E; bool_props.
  { split; [set_solver|]. intros [? _]. lia. }
  rewrite list_elem_of_fmap. split.
  - intros (k & -> & Hk). apply elem_of_seq in Hk. split.
    + assert (Z.of_nat k ≤ (end_ - start) / step) as Hle by lia.
      assert (step * Z.of_nat k ≤ end_ - start); [|lia].
      etrans; [apply Z.mul_le_mono_nonneg_l; [lia|exact Hle]|]. by apply Z.mul_div_le.
    + exists (Z.of_nat k). lia.
  - intros [Hb [q Hq]]. assert (0 ≤ q) as Hq0 by nia.
    exists (Z.to_nat q). split; [rewrite Z2Nat.id by done; lia|].
    apply elem_of_seq. assert (q ≤ (end_ - start) / step); [|lia].
    apply Z.div_le_lower_bound; [done|]. lia.
Qed.

Lemma union_fields_elem parse parts acc s : union_fields parse parts acc = Ok s →
  ∀ i, i ∈ s ↔ i ∈ acc ∨ ∃ part v, part ∈ parts ∧ parse part = Ok v ∧ i ∈ v.
Proof.
  revert acc. induction parts as [|p ps IH]; intros acc H i; simpl in H.
  { injection H as <-. set_solver. }
  apply result_bind_ok in H as (v & Hv & H). rewrite (IH _ H i), elem_of_union. split.
  - intros [[?|?]|(q & w & ? & ? & ?)]; [by left|right; exists p, v|right; exists q, w]; set_solver.
  - intros [?|(q & w & Hq & Hw & ?)]; [by left; left|].
    apply elem_of_cons in Hq as [->|Hq]; [|by right; exists q, w].
    rewrite Hv in Hw. injection Hw as <-. by left; right.
Qed.

Lemma parseCronNumber_ok token n : parseCronNumber token = Ok n → n = digits_value token.
Proof. unfold parseCronNumber. destruct token; [done|]. by case_match; intros [= <-]. Qed.

Lemma plain_field_bounds field lo hi s : plain_field field lo hi = Ok s → ∀ i, i ∈ s → lo ≤ i ≤ hi.
Proof.
  unfold plain_field. case_match.
  { intros [= <-] i. rewrite elem_of_list_to_set, count_up_elem by lia. tauto. }
  case_match; [|case_match].
  - unfold step_field. repeat case_match; try done.
    all: intros (? & ? & [= <-])%result_bind_ok i; rewrite field_values_elem; tauto.
  - unfold range_field. repeat case_match; try done.
    intros (? & ? & (? & ? & [= <-])%result_bind_ok)%result_bind_ok i. rewrite field_values_elem. tauto.
  - unfold number_field. intros (n & _ & Hn)%result_bind_ok i.
    destruct (_ || _) eqn:E; [done|]. injection Hn as <-. bool_props.
    intros ->%elem_of_singleton. lia.
Qed.

Lemma parseCronField_bounds field lo hi s : parseCronField field lo hi = Ok s → ∀ i, i ∈ s → lo ≤ i ≤ hi.
Proof.
  unfold parseCronField. case_match; [|apply plain_field_bounds].
  intros Hs i. rewrite (union_fields_elem _ _ _ _ Hs i).
  intros [?|(p & v & _ & Hv & Hi)]; [set_solver|]. by apply (plain_field_bounds _ _ _ _ Hv).
Qed.

Lemma parseCronField_parts field lo hi s : parseCronField field lo hi = Ok s →
  ∀ i, i ∈ s ↔ ∃ part v, part ∈ (if has_char "," field then split_on "," field else [field]) ∧
                         plain_field part lo hi = Ok v ∧ i ∈ v.
Proof.
  unfold parseCronField. case_match; intros Hs i.
  - rewrite (union_fields_elem _ _ _ _ Hs i). set_solver.
  - split; [intros ?; exists field, s; set_solver|].
    intros (p & v & Hp & Hv & ?). apply list_elem_of_singleton in Hp as ->.
    rewrite Hs in Hv. by injection Hv as <-.
Qed.

(** The parts of a split contain no separator, so the code's call on each part
    never splits again. *)
Lemma split_on_parts c s p : p ∈ split_on c s → has_char c p = false.
Proof.
  revert p. induction s as [|x s IH]; intros p; simpl.
  { intros ->%list_elem_of_singleton. done. }
  destruct (Ascii.eqb x c) eqn:E.
  { intros [->|?]%elem_of_cons; [done|auto]. }
  destruct (split_on c s) as [|q qs] eqn:Hs.
  { intros ->%list_elem_of_singleton. unfold has_char. simpl. rewrite Ascii.eqb_sym, E. done. }
  intros [->|?]%elem_of_cons; [|apply IH; set_solver].
  unfold has_char. simpl. rewrite Ascii.eqb_sym, E. apply (IH q). set_solver.
Qed.

Lemma union_fields_ext f g parts acc : (∀ p, p ∈ parts → f p = g p) →
  union_fields f parts acc = union_fields g parts acc.
Proof.
  revert acc. induction parts as [|p ps IH]; intros acc H; [done|]. simpl.
  rewrite H by set_solver. destruct (g p); [|done]. simpl. apply IH. set_solver.
Qed.

Lemma parseCronField_recursive field lo hi :
  parseCronField field lo hi =
  (if is_star field then Ok (list_to_set (count_up lo hi 1))
   else if has_char "," field
   then union_fields (λ part, parseCronField part lo hi) (split_on "," field) ∅
   else if has_char "/" field then step_field field lo hi
   else if has_char "-" field then range_field field lo hi
   else number_field field lo hi).
Proof.
  unfold parseCronField at 1. destruct (has_char "," field) eqn:E.
  - replace (is_star field) with false.
    2: { symmetry. apply bool_decide_eq_false_2. intros ->. done. }
    apply union_fields_ext. intros p Hp%split_on_parts. unfold parseCronField. by rewrite Hp.
  - unfold plain_field. done.
Qed.

(** ** The search *)
Definition aligned (t : Z) : Prop := (minute_ms | t).
(** The instants at which a schedule may fire next after [from]. *)
Definition firing (c : CronSpec) (from t : Z) : Prop :=
  aligned t ∧ from < t ≤ max_date from ∧ cron_matches c t = true.
Definition no_next : string := "Could not find next cron execution time".

Lemma aligned_step t u : aligned t → aligned u → t < u → t + minute_ms ≤ u.
Proof. unfold aligned, minute_ms. intros [a ->] [b ->]. lia. Qed.

Lemma first_minute_spec from : aligned (first_minute from) ∧ from < first_minute from ∧
  ∀ t, aligned t → from < t → first_minute from ≤ t.
Proof.
  unfold aligned, first_minute, minute_ms. split; [exists (from / 60000 + 1); lia|split; [lia|]].
  intros t [k ->]. lia.
Qed.

Lemma search_minute_spec fuel c maxDate next :
  (0 < fuel)%nat → maxDate - next < minute_ms * (Z.of_nat fuel - 1) → aligned next →
  match search_minute fuel c maxDate next with
  | Ok t => aligned t ∧ next ≤ t ≤ maxDate ∧ cron_matches c t = true ∧
            ∀ u, aligned u → next ≤ u → cron_matches c u = true → t ≤ u
  | Throw e => e = no_next ∧ ∀ u, aligned u → next ≤ u ≤ maxDate → cron_matches c u = false
  end.
Proof.
  revert next. induction fuel as [|fuel IH]; intros next Hf Hlt Ha; [lia|]. cbn [search_minute].
  destruct (next <=? maxDate) eqn:Hle; bool_props.
  2: { split; [done|]. intros u _ ?. lia. }
  destruct (cron_matches c next) eqn:Hm; [split; [done|]; split; [lia|]; done|].
  assert (aligned (next + minute_ms)) as Ha'.
  { destruct Ha as [k ->]. exists (k + 1). unfold minute_ms. lia. }
  specialize (IH (next + minute_ms)). unfold minute_ms in Hlt, IH at 2 3.
  ospecialize (IH _ _ Ha'); [lia|unfold minute_ms in *; lia|].
  assert (∀ u, aligned u → next ≤ u → u = next ∨ next + minute_ms ≤ u) as Hnext.
  { intros u Hu ?. destruct (decide (u = next)); [by left|right; apply aligned_step; auto; lia]. }
  destruct (search_minute fuel c maxDate _) as [t|e].
  - destruct IH as (? & ? & ? & Hmin). split; [done|]. split; [unfold minute_ms in *; lia|].
    split; [done|]. intros u Hu Hge Hmu. destruct (Hnext u Hu Hge) as [->|?]; [congruence|auto].
  - destruct IH as [? Hnone]. split; [done|]. intros u Hu Hb.
    destruct (Hnext u Hu) as [->|?]; [lia|done|]. apply Hnone; [done|lia].
Qed.

Lemma parseCron_search c from :
  match search_minute (search_fuel (max_date from) (first_minute from)) c (max_date from) (first_minute from) with
  | Ok t => firing c from t ∧ ∀ u, firing c from u → t ≤ u
  | Throw e => e = no_next ∧ ∀ u, ¬ firing c from u
  end.
Proof.
  destruct (first_minute_spec from) as (Ha & Hlt & Hmin).
  pose proof (search_minute_spec (search_fuel (max_date from) (first_minute from)) c (max_date from)
    (first_minute from)) as H.
  ospecialize (H _ _ Ha); [unfold search_fuel, minute_ms; lia..|].
  destruct (search_minute _ c _ _) as [t|e].
  - destruct H as (? & ? & ? & Hleast). split; [split; [done|split; [lia|done]]|].
    intros u (Hu & [? ?] & ?). auto.
  - destruct H as [? Hnone]. split; [done|]. intros u (Hu & [? ?] & Hm).
    rewrite (Hnone u Hu) in Hm; [done|]. split; [auto|lia].
Qed.

(** The error message of a failed call. *)
Definition cron_error (cronExpr reason : string) : string :=
  "Failed to parse cron expression " +:+ of_chars [dquote] +:+ cronExpr +:+ of_chars [dquote] +:+ ": " +:+ reason.

(** * Theorems *)

(** C16: [computeNextRunAt] returns [t] exactly when the expression is well formed
    and [t] is the least instant strictly after [from], within four calendar
    years, that is on a minute boundary and matches the minute, hour, month and
    day fields under the code's day-of-month/day-of-week rule. *)
Theorem computeNextRunAt_least cronExpr from t :
  computeNextRunAt cronExpr from = Ok t ↔
  ∃ c, cron_fields cronExpr = Ok c ∧ firing c from t ∧ ∀ u, firing c from u → t ≤ u.
Proof.
  unfold computeNextRunAt, parseCron. destruct (cron_fields cronExpr) as [c|e]; cbn [result_bind].
  2: { split; [done|]. by intros (c & ? & _). }
  pose proof (parseCron_search c from) as H. destruct (search_minute _ _ _ _) as [t'|e]; simpl.
  - destruct H as [Ht' Hmin]. split; [intros [= ->]; by exists c|].
    intros (? & [= <-] & Ht & Hleast). f_equal. apply Z.le_antisymm; auto.
  - destruct H as [_ Hnone]. split; [done|]. intros (? & [= <-] & Ht & _). by destruct (Hnone t).
Qed.

(** [computeNextRunAt] throws exactly when the expression does not parse,
    carrying the parser's reason, or when no instant of the four-year window
    fires; the search itself never runs out of steps. *)
Theorem computeNextRunAt_error cronExpr from e :
  computeNextRunAt cronExpr from = Throw e ↔
  (∃ reason, cron_fields cronExpr = Throw reason ∧ e = cron_error cronExpr reason) ∨
  (∃ c, cron_fields cronExpr = Ok c ∧ (∀ u, ¬ firing c from u) ∧ e = cron_error cronExpr no_next).
Proof.
  unfold computeNextRunAt, parseCron. destruct (cron_fields cronExpr) as [c|r]; cbn [result_bind].
  2: { split; [intros [= <-]; left; by exists r|].
       intros [(? & [= ->] & ->)|(c & ? & _)]; done. }
  pose proof (parseCron_search c from) as H. destruct (search_minute _ _ _ _) as [t|r]; simpl.
  - destruct H as [Ht _]. split; [done|].
    intros [(? & ? & _)|(? & [= <-] & Hnone & _)]; [done|]. by destruct (Hnone t).
  - destruct H as [-> Hnone]. split; [intros [= <-]; right; by exists c|].
    intros [(? & ? & _)|(? & _ & _ & ->)]; done.
Qed.

(** C40: the values of a parsed expression are calendar values: minutes 0-59,
    hours 0-23, days 1-31, months 1-12 and weekdays 0-6. *)
Theorem cron_fields_typed cronExpr c : cron_fields cronExpr = Ok c →
  (∀ i, i ∈ c_minute c → 0 ≤ i ≤ 59) ∧ (∀ i, i ∈ c_hour c → 0 ≤ i ≤ 23) ∧
  (∀ i, i ∈ c_day c → 1 ≤ i ≤ 31) ∧ (∀ i, i ∈ c_month c → 1 ≤ i ≤ 12) ∧ (∀ i, i ∈ c_weekday c → 0 ≤ i ≤ 6).
Proof.
  unfold cron_fields. do 6 (case_match; try done).
  intros (mi & Hmi & (h & Hh & (d & Hd & (mo & Hmo & (w & Hw & [= <-])
    %result_bind_ok)%result_bind_ok)%result_bind_ok)%result_bind_ok)%result_bind_ok.
  simpl. split_and!; eapply parseCronField_bounds; eassumption.
Qed.

Lemma cron_fields_typed_witness :
  ∃ c, cron_fields "0 9-17/4 1,15 * 1" = Ok c ∧ c_hour c = {[9; 13; 17]} ∧ (∀ i, i ∈ c_hour c → 0 ≤ i ≤ 23).
Proof.
  destruct (cron_fields "0 9-17/4 1,15 * 1") as [c|e] eqn:E; [|exfalso; vm_compute in E; discriminate E].
  exists c. split; [reflexivity|].
  split; [vm_compute in E; injection E as <-; reflexivity|].
  apply (cron_fields_typed "0 9-17/4 1,15 * 1" c E).
Defined.
