(* ===== verification/Tasks.v ===== *)
(** * The task table (packages/shared/src/types.ts, packages/core/src/repositories/tasks.ts)

    The rows the scheduler works on and the writes it makes: [tasks] beside the
    durable work spool, hosts, threads, messages, advisories and turns of one
    replica.  A [Task] is split into its definition, the columns no scheduler
    operation assigns, and its state.  [updateRow], [updateRowIf] and
    [insertRow] are the typed form of the change-log writes of ChangeLog.v: they
    stamp [modified_at] and append the row to the outbox; the compare-and-set
    claims are raw UPDATEs that append an entry without stamping the row.
    Instants are milliseconds since the epoch. *)
From Stdlib Require Import QArith.
From S2P Require Import Prelude Sql Json DurableWork.
Local Open Scope Z_scope.

(** ** Data *)
Inductive TaskType : Type :=
| Cron | Deferred | Event | Heartbeat | Consolidation | OtherType (name : string).
#[export] Instance task_type_eq_dec : EqDecision TaskType.
Proof. solve_decision. Defined.
Definition type_name (ty : TaskType) : string :=
  match ty with
  | Cron => "cron" | Deferred => "deferred" | Event => "event" | Heartbeat => "heartbeat"
  | Consolidation => "consolidation" | OtherType n => n
  end.
Definition is_type (ty ty' : TaskType) : bool := bool_decide (ty = ty').

Inductive TaskStatus : Type := TPending | TClaimed | TRunning | TCompleted | TFailed | TCancelled.
#[export] Instance task_status_eq_dec : EqDecision TaskStatus.
Proof. solve_decision. Defined.

Record TaskDef : Type := MkTaskDef {
  td_id : string;
  td_type : TaskType;
  td_trigger_spec : string;
  td_payload : option string;
  td_requires : option string;
  td_model_hint : option string;
  td_depends_on : option string;
  td_require_success : bool;
  td_alert_threshold : Z;
  td_no_quiescence : bool;
  td_system_prompt_addition : option string;
  td_max_runs : option Z;
  td_inject_mode : string;
  td_event_depth : Z;
  td_origin_thread_id : option string;
  td_created_at : Z;
  td_created_by : option string
}.

Record TaskState : Type := MkTaskState {
  ts_status : TaskStatus;
  ts_claimed_by : option string;
  ts_claimed_at : option Z;
  ts_lease_id : option string;
  ts_next_run_at : option Z;
  ts_last_run_at : option Z;
  ts_heartbeat_at : option Z;
  ts_run_count : Z;
  ts_consecutive_failures : Z;
  ts_result : option string;
  ts_error : option string;
  ts_thread_id : option string;
  ts_no_history : bool;
  ts_modified_at : Z;
  ts_deleted : bool
}.

Record Task : Type := MkTask { t_def : TaskDef; t_st : TaskState }.

Definition t_id (t : Task) : string := td_id (t_def t).
Definition t_type (t : Task) : TaskType := td_type (t_def t).
Definition t_status (t : Task) : TaskStatus := ts_status (t_st t).
Definition t_lease (t : Task) : option string := ts_lease_id (t_st t).
Definition t_next (t : Task) : option Z := ts_next_run_at (t_st t).
Definition t_deleted (t : Task) : bool := ts_deleted (t_st t).
Definition has_status (s : TaskStatus) (t : Task) : bool := bool_decide (t_status t = s).

(** ** Assignments *)
Inductive task_set : Type :=
| SetStatus (s : TaskStatus)
| SetClaimedBy (o : option string)
| SetClaimedAt (o : option Z)
| SetLease (o : option string)
| SetNextRun (o : option Z)
| SetLastRun (o : option Z)
| SetHeartbeat (o : option Z)
| SetRunCount (n : Z)
| SetFailures (n : Z)
| SetResult (o : option string)
| SetError (o : option string)
| SetThread (o : option string)
| SetNoHistory (b : bool)
| SetModified (at_ : Z).

Definition apply_set (s : TaskState) (a : task_set) : TaskState :=
  let '(MkTaskState st cb ca le nr lr hb rc cf re er th nh mo de) := s in
  match a with
  | SetStatus st => MkTaskState st cb ca le nr lr hb rc cf re er th nh mo de
  | SetClaimedBy cb => MkTaskState st cb ca le nr lr hb rc cf re er th nh mo de
  | SetClaimedAt ca => MkTaskState st cb ca le nr lr hb rc cf re er th nh mo de
  | SetLease le => MkTaskState st cb ca le nr lr hb rc cf re er th nh mo de
  | SetNextRun nr => MkTaskState st cb ca le nr lr hb rc cf re er th nh mo de
  | SetLastRun lr => MkTaskState st cb ca le nr lr hb rc cf re er th nh mo de
  | SetHeartbeat hb => MkTaskState st cb ca le nr lr hb rc cf re er th nh mo de
  | SetRunCount rc => MkTaskState st cb ca le nr lr hb rc cf re er th nh mo de
  | SetFailures cf => MkTaskState st cb ca le nr lr hb rc cf re er th nh mo de
  | SetResult re => MkTaskState st cb ca le nr lr hb rc cf re er th nh mo de
  | SetError er => MkTaskState st cb ca le nr lr hb rc cf re er th nh mo de
  | SetThread th => MkTaskState st cb ca le nr lr hb rc cf re er th nh mo de
  | SetNoHistory nh => MkTaskState st cb ca le nr lr hb rc cf re er th nh mo de
  | SetModified mo => MkTaskState st cb ca le nr lr hb rc cf re er th nh mo de
  end.
Definition assign (sets : list task_set) (t : Task) : Task := MkTask (t_def t) (foldl apply_set (t_st t) sets).

(** ** One replica *)
Record HostRow : Type := MkHost {
  h_site_id : string; h_host_name : option string; h_online_at : option Z; h_modified_at : option Z;
  h_deleted : bool }.
Record ThreadRow : Type := MkThread {
  th_id : string; th_user_id : string; th_interface : string; th_host_origin : string;
  th_created_at : Z; th_model_hint : option string }.
Record MessageRow : Type := MkMessage {
  m_id : string; m_thread_id : string; m_role : string; m_content : string; m_tool_name : option string;
  m_created_at : Z; m_host_origin : string }.
Record AdvisoryRow : Type := MkAdvisory {
  av_title : string; av_detail : string; av_evidence : string; av_thread_id : option string }.
Record TurnRow : Type := MkTurn { tn_created_at : Z; tn_cost_usd : Q }.

Record replica : Type := MkReplica {
  r_tasks : list Task;
  r_durable : dw_table;
  r_hosts : list HostRow;
  r_threads : list ThreadRow;
  r_messages : list MessageRow;
  r_advisories : list AdvisoryRow;
  r_turns : list TurnRow;
  r_emergency_stop : bool;
  r_outbox : list (string * string)
}.

Definition with_tasks (ts : list Task) (id : string) (r : replica) : replica :=
  MkReplica ts (r_durable r) (r_hosts r) (r_threads r) (r_messages r) (r_advisories r) (r_turns r)
    (r_emergency_stop r) (r_outbox r ++ [("tasks", id)]).
Definition with_durable (d : dw_table) (r : replica) : replica :=
  MkReplica (r_tasks r) d (r_hosts r) (r_threads r) (r_messages r) (r_advisories r) (r_turns r)
    (r_emergency_stop r) (r_outbox r).
Definition with_thread (th : ThreadRow) (r : replica) : replica :=
  MkReplica (r_tasks r) (r_durable r) (r_hosts r) (r_threads r ++ [th]) (r_messages r) (r_advisories r) (r_turns r)
    (r_emergency_stop r) (r_outbox r ++ [("threads", th_id th)]).
Definition with_message (m : MessageRow) (r : replica) : replica :=
  MkReplica (r_tasks r) (r_durable r) (r_hosts r) (r_threads r) (r_messages r ++ [m]) (r_advisories r) (r_turns r)
    (r_emergency_stop r) (r_outbox r ++ [("messages", m_id m)]).
Definition with_advisory (id : string) (a : AdvisoryRow) (r : replica) : replica :=
  MkReplica (r_tasks r) (r_durable r) (r_hosts r) (r_threads r) (r_messages r) (r_advisories r ++ [a]) (r_turns r)
    (r_emergency_stop r) (r_outbox r ++ [("advisories", id)]).

Definition task_at (id : string) (r : replica) : option Task := row_at t_id id (r_tasks r).

(** ** Writes *)
Definition set_where (p : Task → bool) (sets : list task_set) (id : string) (r : replica) : replica :=
  with_tasks (sql_update (λ t, seqb (t_id t) id && p t) (assign sets) (r_tasks r)) id r.

Definition updateRow (now : Z) (id : string) (sets : list task_set) (r : replica) : result replica :=
  match task_at id r with
  | Some _ => Ok (set_where (λ _, true) (sets ++ [SetModified now]) id r)
  | None => Throw ("updateRow: Row " +:+ id +:+ " disappeared")
  end.

(** [UPDATE ... WHERE id = ? AND p], whether a row changed, and the outbox entry
    when one did. *)
Definition update_cas (p : Task → bool) (sets : list task_set) (id : string) (r : replica) : replica * bool :=
  match task_at id r with
  | Some t => if p t then (set_where p sets id r, true) else (r, false)
  | None => (r, false)
  end.
Definition updateRowIf (now : Z) (p : Task → bool) (id : string) (sets : list task_set) (r : replica)
  : replica * bool := update_cas p (sets ++ [SetModified now]) id r.

Definition has_lease (lease : string) (t : Task) : bool := bool_decide (t_lease t = Some lease).

Definition insert_task (t : Task) (r : replica) : result replica :=
  match task_at (t_id t) r with
  | Some _ => Throw "UNIQUE constraint failed: tasks.id"
  | None => Ok (with_tasks (r_tasks r ++ [t]) (t_id t) r)
  end.
Definition insert_thread (th : ThreadRow) (r : replica) : result replica :=
  if existsb (λ x, seqb (th_id x) (th_id th)) (r_threads r) then Throw "UNIQUE constraint failed: threads.id"
  else Ok (with_thread th r).
Definition insert_message (m : MessageRow) (r : replica) : result replica :=
  if existsb (λ x, seqb (m_id x) (m_id m)) (r_messages r) then Throw "UNIQUE constraint failed: messages.id"
  else Ok (with_message m r).

(** * Lemmas *)
Definition tasks_wf (r : replica) : Prop := keys_unique t_id (r_tasks r).

Lemma assign_id sets t : t_id (assign sets t) = t_id t.
Proof. done. Qed.
Lemma assign_def sets t : t_def (assign sets t) = t_def t.
Proof. done. Qed.

Lemma task_at_id id r t : task_at id r = Some t → t_id t = id.
Proof. intros H. by apply row_at_Some in H as [_ ?]. Qed.

Lemma set_where_at p sets id r j :
  task_at j (set_where p sets id r) = (λ t, if seqb j id && p t then assign sets t else t) <$> task_at j r.
Proof.
  unfold task_at, set_where. simpl. rewrite row_at_update by done.
  destruct (row_at t_id j (r_tasks r)) as [t|] eqn:E; [|done]. by apply row_at_Some in E as [_ <-].
Qed.

(** What a write leaves at a key. *)
Lemma updateRow_at now id sets r r' j : updateRow now id sets r = Ok r' →
  task_at j r' = (λ t, if seqb j id then assign (sets ++ [SetModified now]) t else t) <$> task_at j r.
Proof.
  unfold updateRow. case_match; [|done]. intros [= <-]. rewrite set_where_at.
  destruct (task_at j r); [|done]. simpl. by rewrite andb_true_r.
Qed.

Lemma updateRow_ok now id sets r t : task_at id r = Some t → ∃ r', updateRow now id sets r = Ok r'.
Proof. intros H. unfold updateRow. rewrite H. eauto. Qed.

Lemma update_cas_at p sets id r r' b j : update_cas p sets id r = (r', b) →
  task_at j r' = (λ t, if seqb j id && p t then assign sets t else t) <$> task_at j r.
Proof.
  unfold update_cas. destruct (task_at id r) as [t|] eqn:E; [destruct (p t) eqn:Hp|]; intros [= <- <-].
  1: apply set_where_at.
  all: destruct (seqb j id) eqn:Hj; [apply seqb_true in Hj as ->|by destruct (task_at j r)].
  - rewrite E. simpl. by rewrite Hp.
  - by rewrite E.
Qed.

Lemma update_cas_won p sets id r r' b : update_cas p sets id r = (r', b) →
  (b = true ↔ ∃ t, task_at id r = Some t ∧ p t = true) ∧ (b = false → r' = r).
Proof.
  unfold update_cas. destruct (task_at id r) as [t|]; [destruct (p t) eqn:Hp|]; intros [= <- <-].
  - split; [split; [by exists t|done]|done].
  - split; [|done]. split; [done|]. intros (? & [= <-] & ?). congruence.
  - split; [|done]. split; [done|]. by intros (? & ? & _).
Qed.

Lemma set_where_wf p sets id r : tasks_wf r → tasks_wf (set_where p sets id r).
Proof. unfold tasks_wf, keys_unique, set_where. simpl. by rewrite update_fmap. Qed.
Lemma updateRow_wf now id sets r r' : updateRow now id sets r = Ok r' → tasks_wf r → tasks_wf r'.
Proof. unfold updateRow. case_match; [|done]. intros [= <-]. apply set_where_wf. Qed.
Lemma update_cas_wf p sets id r r' b : update_cas p sets id r = (r', b) → tasks_wf r → tasks_wf r'.
Proof. unfold update_cas. repeat case_match; intros [= <- <-]; auto using set_where_wf. Qed.
