(* ===== verification/TaskResolution.v ===== *)
(** * Which host runs a task (packages/agent/src/task-resolution.ts)

    Deterministic ids of a firing and its wakeup messages (with
    [deterministicUUID] of packages/shared/src/uuid.ts), the leaderless
    rendezvous that names one host per firing, the dependency and affinity
    gates, the lease check and the seeding of the system tasks.  SHA-1 is an
    argument.  Host names are ASCII. *)
From Stdlib Require Import Ascii.
From S2P Require Import Prelude Sql Json DurableWork Cron Tasks.
Local Open Scope bound_scope.
Local Open Scope Z_scope.

(** ** [toISOString] and [deterministicUUID] *)
Definition pad_left (n : nat) (l : list ascii) : list ascii := replicate (n - length l) "0"%char ++ l.
Definition decimal (n : nat) (z : Z) : list ascii := pad_left n (print_nonneg z).
Definition iso_year (y : Z) : list ascii :=
  if y <? 0 then "-"%char :: decimal 6 (- y)
  else if 9999 <? y then "+"%char :: decimal 6 y else decimal 4 y.
Definition toISOString (t : Z) : string :=
  of_chars (iso_year (getUTCFullYear t) ++ ["-"%char] ++ decimal 2 (getUTCMonth1 t) ++ ["-"%char]
    ++ decimal 2 (getUTCDate t) ++ ["T"%char] ++ decimal 2 (getUTCHours t) ++ [":"%char]
    ++ decimal 2 (getUTCMinutes t) ++ [":"%char] ++ decimal 2 (t / 1000 mod 60) ++ ["."%char]
    ++ decimal 3 (t mod 1000) ++ ["Z"%char]).

Definition BOUND_NAMESPACE : string := "a1b2c3d4-e5f6-7890-abcd-ef1234567890".

Definition byte_hex (b : Z) : list ascii :=
  [hex_digit (Z.to_nat (b / 16)); hex_digit (Z.to_nat (b mod 16))].
Definition slice (a b : nat) (l : list ascii) : list ascii := take (b - a) (drop a l).
Definition bytesToUuid (bytes : list Z) : list ascii :=
  let hex := mjoin (byte_hex <$> bytes) in
  sep_by ["-"%char] [slice 0 8 hex; slice 8 12 hex; slice 12 16 hex; slice 16 20 hex; slice 20 32 hex].

Definition utf8_bytes (s : string) : list Z := (λ c, Z.of_nat (nat_of_ascii c)) <$> chars s.

Section Sha1.
Context (sha1 : list Z → list Z).

Definition deterministicUUID (namespace name : string) : string :=
  let digest := sha1 (utf8_bytes namespace ++ utf8_bytes name) in
  let digest := alter (λ b, Z.lor (Z.land b 15) 80) 6%nat digest in
  let digest := alter (λ b, Z.lor (Z.land b 63) 128) 8%nat digest in
  of_chars (bytesToUuid digest).

(** ** Firing keys *)
Definition computeFiringKey (taskId : string) (scheduledRunAt : option Z) : option string :=
  (λ at_, "firing:" +:+ taskId +:+ ":" +:+ toISOString at_) <$> scheduledRunAt.

Record FiringWakeupIds : Type := MkWakeupIds {
  wakeupMessageId : string; toolCallMessageId : string; toolResultMessageId : string; toolUseId : string }.

Definition deriveFiringArtifactId (firingKey artifact : string) : string :=
  deterministicUUID BOUND_NAMESPACE (firingKey +:+ ":" +:+ artifact).

(** [.replace(/-/g, "").slice(0, 22)]. *)
Definition tool_use_body (uuid : string) : list ascii :=
  take 22 (List.filter (λ c, negb (Ascii.eqb c "-")) (chars uuid)).
Definition tool_use_id (uuid : string) : string := of_chars (chars "tooluse_" ++ tool_use_body uuid).

Definition deriveFiringWakeupIds (firingKey : string) : FiringWakeupIds :=
  MkWakeupIds (deterministicUUID BOUND_NAMESPACE (firingKey +:+ ":wakeup"))
    (deterministicUUID BOUND_NAMESPACE (firingKey +:+ ":toolcall"))
    (deterministicUUID BOUND_NAMESPACE (firingKey +:+ ":toolresult"))
    (tool_use_id (deterministicUUID BOUND_NAMESPACE (firingKey +:+ ":tooluse"))).

(** ** Rendezvous *)
Definition firing_score (firingKey siteId : string) : string :=
  deterministicUUID BOUND_NAMESPACE (firingKey +:+ ":" +:+ siteId).

Record FiringCandidateHost : Type := MkCandidate { fc_siteId : string; fc_hostName : string }.

Definition select_step (firingKey : string) (winner : option string * string) (c : FiringCandidateHost)
  : option string * string :=
  let score := firing_score firingKey (fc_siteId c) in
  match winner.1 with
  | None => (Some (fc_siteId c), score)
  | Some w =>
      if sltb winner.2 score || (seqb score winner.2 && sltb w (fc_siteId c))
      then (Some (fc_siteId c), score) else winner
  end.
Definition selectFiringHost (firingKey : string) (candidates : list FiringCandidateHost) : option string :=
  (foldl (select_step firingKey) (None, ""%string) candidates).1.

(** ** Dependencies and affinity *)
(** A bound parameter compared with the TEXT column [id]. *)
Definition id_text (v : json) : option string :=
  match v with
  | JStr s => Some s
  | JNum m e => Some (of_chars (print_num m e))
  | JBool b => Some (if b then "1" else "0")
  | _ => None
  end.

Definition dependency_done (r : replica) (requireSuccess : bool) (depId : json) : bool :=
  match match id_text depId with Some i => task_at i r | None => None end with
  | None => false
  | Some dep =>
      if requireSuccess && has_status TFailed dep then false
      else has_status TCompleted dep
  end.

Definition isDependencySatisfied (r : replica) (t : Task) : bool :=
  match td_depends_on (t_def t) with
  | None => true
  | Some s =>
      if negb (nonempty s) then true
      else
        match match json_parse s with Some v => v | None => JArr [JStr s] end with
        | JArr ids => forallb (dependency_done r (td_require_success (t_def t))) ids
        | _ => false
        end
  end.

(** The pattern of a host glob: [*] stands for any sequence and, the other
    characters being copied into the regular expression, [.] for any character
    but a line end. *)
Definition line_end (c : ascii) : bool := (nat_of_ascii c =? 10)%nat || (nat_of_ascii c =? 13)%nat.
Fixpoint glob_match (pattern : list ascii) (s : list ascii) : bool :=
  match pattern with
  | [] => match s with [] => true | _ => false end
  | p :: ps =>
      if Ascii.eqb p "*" then
        (fix any (s : list ascii) : bool :=
           glob_match ps s || match s with c :: s' => negb (line_end c) && any s' | [] => false end) s
      else match s with
           | c :: s' => (if Ascii.eqb p "." then negb (line_end c) else Ascii.eqb p c) && glob_match ps s'
           | [] => false
           end
  end.
Definition regexp_special (c : ascii) : bool :=
  existsb (Ascii.eqb c) (chars "\^$+?()[]{}|").
End Sha1.

Section Affinity.
(** [new RegExp(source).test] of the patterns that use other special
    characters; [None] when the source is not a regular expression. *)
Context (otherRegExp : string → option (string → bool)).

Definition host_pattern (hostReq : string) : option (string → bool) :=
  if existsb regexp_special (chars hostReq) then otherRegExp hostReq
  else Some (λ host, glob_match (chars hostReq) (chars host)).

Definition host_allowed (hostReq : json) (hostName : string) : option bool :=
  match hostReq with
  | JStr req =>
      if has_char "*" (chars req) then (λ test, test hostName) <$> host_pattern req
      else Some (seqb req hostName)
  | JArr hosts => Some (existsb (λ v, match v with JStr h => seqb h hostName | _ => false end) hosts)
  | _ => Some true
  end.

(** The check of [requires]; an exception inside it skips what is left of it. *)
Definition affinity_allows (requires : json) (hostName siteId : string) : bool :=
  let site_ok := match json_get "site_id" requires with Some (JStr s) => seqb s siteId | _ => true end in
  match json_get "host" requires with
  | None => site_ok
  | Some hostReq =>
      match host_allowed hostReq hostName with
      | None => true
      | Some ok => ok && site_ok
      end
  end.

Definition canRunHere (r : replica) (t : Task) (hostName siteId : string) : bool :=
  if negb (isDependencySatisfied r t) then false
  else if truthy (td_requires (t_def t)) then
    match json_parse (default "" (td_requires (t_def t))) with
    | Some v => affinity_allows v hostName siteId
    | None => true
    end
  else true.

(** ** The dispatch gate *)
Definition FIRING_HOST_STALE_MS : Z := 5 * 60 * 1000.

Definition listHostsWithLiveness (r : replica) : list HostRow := List.filter (λ h, negb (h_deleted h)) (r_hosts r).

Definition host_alive (cutoff : Z) (h : HostRow) : bool :=
  match (match h_modified_at h with Some m => Some m | None => h_online_at h end) with
  | Some ts => negb (ts <? cutoff)
  | None => false
  end.
Definition peer_name (h : HostRow) : string := default (h_site_id h) (h_host_name h).

(** [for (const row of rows)]: the live, eligible hosts not yet seen. *)
Fixpoint collect_candidates (r : replica) (t : Task) (cutoff : Z) (rows : list HostRow) (seen : list string)
  : list FiringCandidateHost :=
  match rows with
  | [] => []
  | row :: rest =>
      if existsb (seqb (h_site_id row)) seen then collect_candidates r t cutoff rest seen
      else if negb (host_alive cutoff row) then collect_candidates r t cutoff rest seen
      else if negb (canRunHere r t (peer_name row) (h_site_id row)) then collect_candidates r t cutoff rest seen
      else MkCandidate (h_site_id row) (peer_name row)
             :: collect_candidates r t cutoff rest (h_site_id row :: seen)
  end.

Definition firing_candidates (now : Z) (r : replica) (t : Task) (hostName siteId : string) (staleMs : Z)
  : list FiringCandidateHost :=
  let peers := collect_candidates r t (now - staleMs) (listHostsWithLiveness r) [] in
  if existsb (λ c, seqb (fc_siteId c) siteId) peers then peers else peers ++ [MkCandidate siteId hostName].

Definition shouldDispatchHere (sha1 : list Z → list Z) (now : Z) (r : replica) (t : Task) (hostName siteId : string)
    (staleMs : Z) : bool :=
  if negb (canRunHere r t hostName siteId) then false
  else
    match computeFiringKey (t_id t) (t_next t) with
    | None => true
    | Some firingKey =>
        let candidates := firing_candidates now r t hostName siteId staleMs in
        if (length candidates <=? 1)%nat then true
        else bool_decide (selectFiringHost sha1 firingKey candidates = Some siteId)
    end.
End Affinity.

(** ** The lease *)
Inductive lease_reason : Type :=
| row_missing | row_deleted | claimed_by_mismatch | lease_id_mismatch | status_not_running.
Inductive lease_check : Type := Held | NotHeld (reason : lease_reason) (actual : option Task).

Definition verifyLeaseStillHeld (r : replica) (taskId expectedSiteId expectedLeaseId : string) : lease_check :=
  match task_at taskId r with
  | None => NotHeld row_missing None
  | Some row =>
      if t_deleted row then NotHeld row_deleted (Some row)
      else if negb (bool_decide (ts_claimed_by (t_st row) = Some expectedSiteId))
      then NotHeld claimed_by_mismatch (Some row)
      else if negb (bool_decide (t_lease row = Some expectedLeaseId)) then NotHeld lease_id_mismatch (Some row)
      else if negb (has_status TRunning row) then NotHeld status_not_running (Some row)
      else Held
  end.

(** ** System tasks *)
Definition DEFAULT_HEARTBEAT_INTERVAL_MS : Z := 1800000.
Definition DEFAULT_CONSOLIDATION_INTERVAL_MS : Z := 14400000.

(** [Math.ceil(a / b) * b]. *)
Definition ceil_to (b a : Z) : Z := - (- a / b) * b.

Definition system_task (id : string) (ty : TaskType) (intervalMs now : Z) : Task :=
  MkTask
    (MkTaskDef id ty (json_stringify (JObj [("type", JStr (type_name ty)); ("interval_ms", JInt intervalMs)]))
       None None None None false 5 false None None "status" 0 None now (Some "system"))
    (MkTaskState TPending None None None (Some (ceil_to intervalMs now)) None None 0 0 None None None true now false).

(** [INSERT] when absent, then [UPDATE tasks SET no_history = 1 WHERE type = ?
    AND no_history = 0], which the outbox does not record. *)
Definition seed_system_task (id : string) (ty : TaskType) (intervalMs now : Z) (r : replica) : result replica :=
  let! r := (match task_at id r with
             | Some _ => Ok r
             | None => insert_task (system_task id ty intervalMs now) r
             end) in
  Ok (MkReplica
        (sql_update (λ t, is_type (t_type t) ty && negb (ts_no_history (t_st t))) (assign [SetNoHistory true]) (r_tasks r))
        (r_durable r) (r_hosts r) (r_threads r) (r_messages r) (r_advisories r) (r_turns r) (r_emergency_stop r)
        (r_outbox r)).
Definition seedHeartbeat (sha1 : list Z → list Z) (now : Z) : replica → result replica :=
  seed_system_task (deterministicUUID sha1 BOUND_NAMESPACE "heartbeat") Heartbeat DEFAULT_HEARTBEAT_INTERVAL_MS now.
Definition seedConsolidation (sha1 : list Z → list Z) (now : Z) : replica → result replica :=
  seed_system_task (deterministicUUID sha1 BOUND_NAMESPACE "consolidation") Consolidation
    DEFAULT_CONSOLIDATION_INTERVAL_MS now.

(** * Lemmas *)

(** ** Identifiers *)
Definition digest_like (d : list Z) : Prop := length d = 20%nat ∧ Forall (λ b, 0 ≤ b < 256) d.
Definition hex_char (c : ascii) : bool :=
  is_digit c || ((97 <=? nat_of_ascii c)%nat && (nat_of_ascii c <=? 102)%nat).

Lemma hex_digit_char (n : nat) : (n < 16)%nat → hex_char (hex_digit n) = true.
Proof. intros H. do 16 (destruct n as [|n]; [done|]). lia. Qed.

Lemma byte_hex_chars b : 0 ≤ b < 256 → Forall (λ c, hex_char c = true) (byte_hex b).
Proof.
  intros H. repeat constructor; apply hex_digit_char.
  - pose proof (Z.div_lt_upper_bound b 16 16). pose proof (Z.div_pos b 16). lia.
  - pose proof (Z.mod_pos_bound b 16). lia.
Qed.

Lemma hex_join_chars bs : Forall (λ b, 0 ≤ b < 256) bs →
  Forall (λ c, hex_char c = true) (mjoin (byte_hex <$> bs)) ∧
  length (mjoin (byte_hex <$> bs)) = (2 * length bs)%nat.
Proof.
  induction 1 as [|b bs Hb _ [IH1 IH2]]; [done|].
  change (mjoin (byte_hex <$> b :: bs)) with (byte_hex b ++ mjoin (byte_hex <$> bs)). split.
  - apply Forall_app. split; [by apply byte_hex_chars|done].
  - rewrite length_app, IH2. simpl. lia.
Qed.

Lemma lor_land_range b m k n : 0 ≤ b → 0 ≤ m < 2 ^ n → 0 ≤ k < 2 ^ n → 0 ≤ n → 0 ≤ Z.lor (Z.land b m) k < 2 ^ n.
Proof.
  intros Hb Hm Hk Hn.
  assert (0 ≤ Z.land b m) by (apply Z.land_nonneg; lia).
  split; [apply Z.lor_nonneg; lia|].
  destruct (decide (Z.lor (Z.land b m) k = 0)) as [->|Hne]; [lia|].
  assert (0 ≤ Z.lor (Z.land b m) k) by (apply Z.lor_nonneg; lia).
  apply Z.log2_lt_pow2; [lia|]. rewrite Z.log2_lor by lia.
  assert (∀ x, 0 ≤ x < 2 ^ n → x = 0 ∨ Z.log2 x < n) as Hlog.
  { intros x Hx. destruct (decide (x = 0)); [by left|right]. apply Z.log2_lt_pow2; lia. }
  assert (Z.log2 (Z.land b m) ≤ Z.log2 m) as Hl.
  { etrans; [by apply Z.log2_land; lia|]. lia. }
  destruct (decide (n = 0)) as [->|]; [|].
  { assert (k = 0 ∧ m = 0) as [-> ->] by lia. by rewrite Z.land_0_r in Hne. }
  destruct (Hlog m Hm) as [->|]; destruct (Hlog k Hk) as [->|]; simpl in *; rewrite ?Z.log2_nonpos by lia; lia.
Qed.

Lemma alter_digest f i d : (∀ b, 0 ≤ b < 256 → 0 ≤ f b < 256) → digest_like d → digest_like (alter f i d).
Proof.
  intros Hf [Hl Hd]. split; [by rewrite length_alter|]. by apply Forall_alter; [|auto].
Qed.

(** The 32 hexadecimal digits of a digest, dashes taken out. *)
Definition undashed (l : list ascii) : list ascii := List.filter (λ c, negb (Ascii.eqb c "-")) l.

Lemma hex_not_dash c : hex_char c = true → Ascii.eqb c "-" = false.
Proof. intros H. destruct (Ascii.eqb c "-") eqn:E; [|done]. apply Ascii.eqb_eq in E as ->. done. Qed.

Lemma undashed_hex l : Forall (λ c, hex_char c = true) l → undashed l = l.
Proof.
  intros H. apply filter_bool_all. intros c Hc. rewrite Forall_forall in H. by rewrite hex_not_dash by auto.
Qed.

Lemma undashed_app l k : undashed (l ++ k) = undashed l ++ undashed k.
Proof. apply List.filter_app. Qed.

Lemma slice_hex a b l : Forall (λ c, hex_char c = true) l → Forall (λ c, hex_char c = true) (slice a b l).
Proof. intros H. unfold slice. by apply Forall_take, Forall_drop. Qed.

Lemma length_slice a b (l : list ascii) : (a ≤ b)%nat → (b ≤ length l)%nat → length (slice a b l) = (b - a)%nat.
Proof. intros. unfold slice. rewrite length_take, length_drop. lia. Qed.

Lemma bytesToUuid_shape d : digest_like d →
  ∃ s1 s2 s3 s4 s5, bytesToUuid d = s1 ++ "-"%char :: s2 ++ "-"%char :: s3 ++ "-"%char :: s4 ++ "-"%char :: s5 ∧
    length s1 = 8%nat ∧ length s2 = 4%nat ∧ length s3 = 4%nat ∧ length s4 = 4%nat ∧ length s5 = 12%nat ∧
    Forall (λ c, hex_char c = true) (s1 ++ s2 ++ s3 ++ s4 ++ s5).
Proof.
  intros [Hl Hd]. destruct (hex_join_chars d Hd) as [Hc Hlen]. unfold bytesToUuid.
  set (h := mjoin _) in *. clearbody h. rewrite Hl in Hlen. simpl in Hlen.
  do 5 eexists. split; [simpl; reflexivity|].
  rewrite !length_slice by lia. split_and!; [done..|].
  rewrite !Forall_app. auto 10 using slice_hex.
Qed.

Lemma deterministicUUID_shape sha1 ns name : (∀ m, digest_like (sha1 m)) →
  ∃ s1 s2 s3 s4 s5, chars (deterministicUUID sha1 ns name)
      = s1 ++ "-"%char :: s2 ++ "-"%char :: s3 ++ "-"%char :: s4 ++ "-"%char :: s5 ∧
    length s1 = 8%nat ∧ length s2 = 4%nat ∧ length s3 = 4%nat ∧ length s4 = 4%nat ∧ length s5 = 12%nat ∧
    Forall (λ c, hex_char c = true) (s1 ++ s2 ++ s3 ++ s4 ++ s5).
Proof.
  intros Hsha. unfold deterministicUUID. rewrite chars_of_chars. apply bytesToUuid_shape.
  do 2 (apply alter_digest; [intros b Hb; apply (lor_land_range b _ _ 8); lia|]). apply Hsha.
Qed.

(** ** Rendezvous *)
Section Rendezvous.
Context (sha1 : list Z → list Z) (key : string).
Let score := firing_score sha1 key.

(** [a] outranks [b]: a higher score, or an equal one and a greater site id. *)
Definition outranks (a b : string) : Prop :=
  firing_score sha1 key b <s firing_score sha1 key a ∨
  (firing_score sha1 key a = firing_score sha1 key b ∧ b <s a).

Lemma outranks_irrefl a : ¬ outranks a a.
Proof. intros [H|[_ H]]; by rewrite sltb_irrefl in H. Qed.
Lemma outranks_trans a b c : outranks a b → outranks b c → outranks a c.
Proof.
  intros [H1|[H1 H1']] [H2|[H2 H2']]; unfold outranks.
  - left. by eapply sltb_trans.
  - left. by rewrite <-H2.
  - left. by rewrite H1.
  - right. split; [congruence|by eapply sltb_trans].
Qed.
Lemma outranks_total a b : a ≠ b → outranks a b ∨ outranks b a.
Proof.
  intros Hne. unfold outranks.
  destruct (decide (firing_score sha1 key a = firing_score sha1 key b)) as [He|Hs].
  - destruct (sltb_total a b Hne) as [?|?]; [right; right|left; right]; done.
  - destruct (sltb_total _ _ Hs) as [?|?]; [right; left|left; left]; done.
Qed.

Lemma select_test w c :
  sltb (score w) (score c) || (seqb (score c) (score w) && sltb w c) = true ↔ outranks c w.
Proof. unfold outranks. rewrite orb_true_iff, andb_true_iff, seqb_true. done. Qed.

(** The winner after any prefix, with its score. *)
Lemma select_fold cs :
  match foldl (select_step sha1 key) (None, "") cs with
  | (None, _) => cs = []
  | (Some w, sc) => sc = score w ∧ w ∈ (fc_siteId <$> cs) ∧
                    ∀ s, s ∈ (fc_siteId <$> cs) → s = w ∨ outranks w s
  end.
Proof.
  induction cs as [|c cs IH] using rev_ind; [done|]. rewrite foldl_app. simpl.
  destruct (foldl _ _ cs) as [[w|] sc]; unfold select_step; simpl; fold score.
  - destruct IH as (-> & Hin & Hmax).
    change (firing_score sha1 key (fc_siteId c)) with (score (fc_siteId c)).
    destruct (_ || _) eqn:E.
    + apply select_test in E. split_and!; [done|set_solver|]. rewrite fmap_app. simpl.
      intros s [Hs| ->%list_elem_of_singleton]%elem_of_app; [|by left].
      destruct (Hmax s Hs) as [->|Hw]; right; [done|by eapply outranks_trans].
    + split_and!; [done|set_solver|]. rewrite fmap_app. simpl.
      intros s [Hs| ->%list_elem_of_singleton]%elem_of_app; [auto|].
      destruct (decide (fc_siteId c = w)) as [|Hne]; [by left|right].
      destruct (outranks_total _ _ Hne) as [H%select_test|]; [|done].
      unfold score in *. congruence.
  - subst cs. simpl. split_and!; [done|set_solver|]. intros s ->%list_elem_of_singleton. by left.
Qed.

Lemma selectFiringHost_spec cs w :
  selectFiringHost sha1 key cs = Some w ↔
  w ∈ (fc_siteId <$> cs) ∧ ∀ s, s ∈ (fc_siteId <$> cs) → s = w ∨ outranks w s.
Proof.
  pose proof (select_fold cs) as H. unfold selectFiringHost.
  destruct (foldl _ _ cs) as [[v|] sc]; simpl.
  - destruct H as (_ & Hin & Hmax). split; [by intros [= <-]|].
    intros [Hw Hmaxw]. f_equal. destruct (Hmax w Hw) as [|Hvw]; [done|].
    destruct (Hmaxw v Hin) as [|Hwv]; [done|].
    destruct (outranks_irrefl v). by eapply outranks_trans.
  - subst cs. split; [done|]. by intros [Hw%not_elem_of_nil _].
Qed.

Lemma selectFiringHost_some cs : cs ≠ [] → is_Some (selectFiringHost sha1 key cs).
Proof.
  intros Hne. pose proof (select_fold cs) as H. unfold selectFiringHost.
  destruct (foldl _ _ cs) as [[v|] sc]; [by eexists|done].
Qed.
End Rendezvous.

(** ** Candidates *)
Lemma collect_candidates_seen o r t cutoff rows seen c :
  c ∈ collect_candidates o r t cutoff rows seen → fc_siteId c ∉ seen.
Proof.
  revert seen. induction rows as [|row rows IH]; intros seen; simpl; [set_solver|].
  destruct (existsb _ _) eqn:E; [apply IH|]. repeat case_match; try apply IH.
  intros [->|Hc]%elem_of_cons; simpl.
  - intros Hin. assert (existsb (seqb (h_site_id row)) seen = true) as Ht; [|congruence].
    apply existsb_exists. exists (h_site_id row). rewrite <-list_elem_of_In, seqb_refl. done.
  - apply IH in Hc. set_solver.
Qed.

Lemma collect_candidates_NoDup o r t cutoff rows seen :
  NoDup (fc_siteId <$> collect_candidates o r t cutoff rows seen).
Proof.
  revert seen. induction rows as [|row rows IH]; intros seen; simpl; [constructor|].
  repeat case_match; auto. csimpl. constructor; [|done].
  intros (c & Hc & Hin)%list_elem_of_fmap. apply collect_candidates_seen in Hin. set_solver.
Qed.

Lemma collect_candidates_can o r t cutoff rows seen c :
  c ∈ collect_candidates o r t cutoff rows seen → canRunHere o r t (fc_hostName c) (fc_siteId c) = true.
Proof.
  revert seen. induction rows as [|row rows IH]; intros seen; simpl; [set_solver|].
  repeat case_match; try apply IH. intros [->|Hc]%elem_of_cons; [|by eapply IH].
  simpl. by match goal with H : negb _ = false |- _ => apply negb_false_iff in H end.
Qed.

(** The candidates one host's own table gives, its own row included. *)
Definition live_candidates (o : string → option (string → bool)) (now : Z) (r : replica) (t : Task) (staleMs : Z)
  : list FiringCandidateHost :=
  collect_candidates o r t (now - staleMs) (listHostsWithLiveness r) [].

Lemma firing_candidates_listed o now r t staleMs c : c ∈ live_candidates o now r t staleMs →
  firing_candidates o now r t (fc_hostName c) (fc_siteId c) staleMs = live_candidates o now r t staleMs.
Proof.
  intros Hc. unfold firing_candidates, live_candidates in *.
  rewrite (proj2 (existsb_exists _ _)); [done|].
  exists c. rewrite <-list_elem_of_In, seqb_refl. done.
Qed.

(** * Theorems *)

(** rendezvous selects the site that outranks every other candidate, so the
    winner depends on the set of candidate sites alone, not on their order or
    multiplicity. *)
Theorem selectFiringHost_max sha1 key cs w :
  selectFiringHost sha1 key cs = Some w ↔
  w ∈ (fc_siteId <$> cs) ∧ ∀ s, s ∈ (fc_siteId <$> cs) → s = w ∨ outranks sha1 key w s.
Proof. apply selectFiringHost_spec. Qed.

(** membership churn moves only the firings it must: when a host that is not
    the winner leaves, the winner stays, and when a host joins, the new winner
    is the old one or the newcomer. *)
Theorem rendezvous_stability sha1 key cs w :
  selectFiringHost sha1 key cs = Some w →
  (∀ gone, gone ≠ w →
     selectFiringHost sha1 key (List.filter (λ c, negb (seqb (fc_siteId c) gone)) cs) = Some w) ∧
  (∀ new, selectFiringHost sha1 key (cs ++ [new]) = Some w ∨
          selectFiringHost sha1 key (cs ++ [new]) = Some (fc_siteId new)).
Proof.
  intros [Hin Hmax]%selectFiringHost_spec. split.
  - intros gone Hne. apply selectFiringHost_spec. split.
    + apply list_elem_of_fmap in Hin as (c & -> & Hc). apply list_elem_of_fmap_2.
      apply filter_In_iff. split; [done|]. by apply negb_true_iff, seqb_false.
    + intros s (c & -> & [Hc _]%filter_In_iff)%list_elem_of_fmap. apply Hmax. by apply list_elem_of_fmap_2.
  - intros new.
    assert (cs ++ [new] ≠ []) as Hne by (by destruct cs).
    destruct (selectFiringHost_some sha1 key (cs ++ [new]) Hne) as [v Hv]. rewrite Hv.
    apply selectFiringHost_spec in Hv as [Hvin Hvmax]. rewrite fmap_app in Hvin, Hvmax.
    apply elem_of_app in Hvin as [Hv|Hv]; [|by apply list_elem_of_singleton in Hv as ->; right].
    left. f_equal. destruct (Hmax v Hv) as [|Hwv]; [done|].
    destruct (Hvmax w) as [->|Hvw]; [set_solver|done|].
    destruct (outranks_irrefl sha1 key v). by eapply outranks_trans.
Qed.

(** C17: among live hosts that share one view of the cluster, a scheduled firing
    is dispatched by exactly one: some candidate's gate opens and no other
    candidate's does. *)
Theorem single_dispatcher sha1 o now r t staleMs at_ :
  t_next t = Some at_ → live_candidates o now r t staleMs ≠ [] →
  ∃ c, c ∈ live_candidates o now r t staleMs ∧
    ∀ c', c' ∈ live_candidates o now r t staleMs →
      shouldDispatchHere o sha1 now r t (fc_hostName c') (fc_siteId c') staleMs = true ↔ c' = c.
Proof.
  intros Hat Hne. set (C := live_candidates o now r t staleMs) in *.
  assert (NoDup (fc_siteId <$> C)) as Hnd by apply collect_candidates_NoDup.
  destruct (selectFiringHost_some sha1 ("firing:" +:+ t_id t +:+ ":" +:+ toISOString at_) C Hne) as [w Hw].
  pose proof (proj1 (selectFiringHost_spec _ _ _ _) Hw) as [(c & -> & Hc)%list_elem_of_fmap _].
  exists c. split; [done|]. intros c' Hc'. unfold shouldDispatchHere.
  rewrite (collect_candidates_can _ _ _ _ _ _ _ Hc'). simpl. rewrite Hat. simpl.
  rewrite firing_candidates_listed by done. fold C. rewrite Hw.
  assert (∀ a b, a ∈ C → b ∈ C → fc_siteId a = fc_siteId b → a = b) as Hinj.
  { intros a b [i Hi]%list_elem_of_lookup [j Hj]%list_elem_of_lookup Hab.
    assert (i = j) as ->; [|congruence].
    eapply NoDup_lookup; [done| |]; rewrite list_lookup_fmap; [by rewrite Hi|by rewrite Hj; simpl; rewrite <-Hab]. }
  destruct (length C <=? 1)%nat eqn:Hlen.
  - split; [|done]. intros _. destruct C as [|a [|b C']]; simpl in Hlen; [done| |done].
    apply list_elem_of_singleton in Hc as ->. by apply list_elem_of_singleton in Hc'.
  - rewrite bool_decide_eq_true. split; [|by intros ->]. intros [= Heq]. by apply Hinj.
Qed.

(** The charset every provider accepts in a tool call id. *)
Definition portable_char (c : ascii) : bool :=
  let n := nat_of_ascii c in
  is_digit c || ((97 <=? n)%nat && (n <=? 122)%nat) || ((65 <=? n)%nat && (n <=? 90)%nat)
  || Ascii.eqb c "_" || Ascii.eqb c "-".

Lemma hex_portable c : hex_char c = true → portable_char c = true.
Proof.
  unfold hex_char, portable_char. cbv zeta. destruct (is_digit c); [done|].
  rewrite !orb_false_l, andb_true_iff, !Nat.leb_le. intros [H1 H2].
  rewrite (proj2 (Nat.leb_le 97 _) H1), (proj2 (Nat.leb_le _ 122)) by lia. done.
Qed.

Lemma shape_undashed s1 s2 s3 s4 s5 : Forall (λ c, hex_char c = true) (s1 ++ s2 ++ s3 ++ s4 ++ s5) →
  undashed (s1 ++ "-"%char :: s2 ++ "-"%char :: s3 ++ "-"%char :: s4 ++ "-"%char :: s5) = s1 ++ s2 ++ s3 ++ s4 ++ s5.
Proof.
  rewrite !Forall_app. intros (H1 & H2 & H3 & H4 & H5).
  rewrite undashed_app. change (undashed ("-"%char :: ?x)) with (undashed x).
  repeat (rewrite undashed_app; change (undashed ("-"%char :: ?x)) with (undashed x)).
  by rewrite !undashed_hex.
Qed.

(** with a hash of 20 bytes, the three message ids of a wakeup are 36
    characters long and its tool call id is [tooluse_] followed by 22
    hexadecimal digits: 30 characters, within the 64 and the charset every
    provider accepts. *)
Theorem wakeup_ids_typed sha1 key : (∀ m, digest_like (sha1 m)) →
  let ids := deriveFiringWakeupIds sha1 key in
  Forall (λ i, length (chars i) = 36%nat) [wakeupMessageId ids; toolCallMessageId ids; toolResultMessageId ids] ∧
  ∃ body, chars (toolUseId ids) = chars "tooluse_" ++ body ∧ length body = 22%nat ∧
    Forall (λ c, hex_char c = true) body ∧ Forall (λ c, portable_char c = true) (chars (toolUseId ids)).
Proof.
  intros Hsha ids. split.
  - assert (∀ name, length (chars (deterministicUUID sha1 BOUND_NAMESPACE name)) = 36%nat) as Hlen.
    { intros name. destruct (deterministicUUID_shape sha1 BOUND_NAMESPACE name Hsha)
        as (s1 & s2 & s3 & s4 & s5 & -> & ? & ? & ? & ? & ? & _).
      rewrite !length_app. simpl. rewrite !length_app. simpl. rewrite !length_app. simpl.
      rewrite length_app. simpl. lia. }
    repeat constructor; apply Hlen.
  - unfold ids, deriveFiringWakeupIds, tool_use_id, toolUseId. rewrite chars_of_chars. eexists. split; [done|].
    unfold tool_use_body.
    destruct (deterministicUUID_shape sha1 BOUND_NAMESPACE (key +:+ ":tooluse") Hsha)
      as (s1 & s2 & s3 & s4 & s5 & -> & ? & ? & ? & ? & ? & Hhex).
    fold (undashed (s1 ++ "-"%char :: s2 ++ "-"%char :: s3 ++ "-"%char :: s4 ++ "-"%char :: s5)).
    rewrite shape_undashed by done.
    assert (Forall (λ c, hex_char c = true) (take 22 (s1 ++ s2 ++ s3 ++ s4 ++ s5))) as Ht by (by apply Forall_take).
    split; [rewrite length_take, !length_app; lia|]. split; [done|].
    apply Forall_app. split; [by repeat constructor|].
    eapply Forall_impl; [exact Ht|]. apply hex_portable.
Qed.

Definition sample_sha1 (m : list Z) : list Z := (λ k, Z.of_nat (k + length m) * 7 mod 256) <$> seq 0 20.
Lemma sample_sha1_digest m : digest_like (sample_sha1 m).
Proof.
  unfold sample_sha1. split; [done|]. apply Forall_fmap, Forall_true. intros k.
  apply Z.mod_pos_bound. lia.
Qed.

Lemma wakeup_ids_typed_witness :
  ∃ body, chars (toolUseId (deriveFiringWakeupIds sample_sha1 "firing:t:1")) = chars "tooluse_" ++ body ∧
          length body = 22%nat.
Proof.
  destruct (wakeup_ids_typed sample_sha1 "firing:t:1" sample_sha1_digest) as [_ (body & Hb & Hl & _)].
  exists body. split; [exact Hb|exact Hl].
Defined.

(** seeding a system task twice is seeding it once, whatever time passed:
    the row is not inserted again and nothing is logged. *)
Theorem seed_idempotent id ty interval interval' now now' r r' :
  seed_system_task id ty interval now r = Ok r' → seed_system_task id ty interval' now' r' = Ok r'.
Proof.
  unfold seed_system_task. intros (r0 & Hr0 & [= <-])%result_bind_ok.
  assert (is_Some (task_at id r0)) as [t0 Ht0].
  { unfold insert_task in Hr0. destruct (task_at id r) as [t|] eqn:E; [injection Hr0 as <-; by eexists|].
    change (t_id (system_task id ty interval now)) with id in Hr0. rewrite E in Hr0. injection Hr0 as <-.
    unfold task_at, with_tasks. simpl. rewrite row_at_app. fold (task_at id r). rewrite E.
    rewrite row_at_cons. change (t_id (system_task id ty interval now)) with id. rewrite seqb_refl. by eexists. }
  set (p := λ t, is_type (t_type t) ty && negb (ts_no_history (t_st t))).
  assert (task_at id (MkReplica (sql_update p (assign [SetNoHistory true]) (r_tasks r0)) (r_durable r0) (r_hosts r0)
    (r_threads r0) (r_messages r0) (r_advisories r0) (r_turns r0) (r_emergency_stop r0) (r_outbox r0))
    = Some (if p t0 then assign [SetNoHistory true] t0 else t0)) as Hat.
  { unfold task_at. simpl. rewrite row_at_update by done. fold (task_at id r0). by rewrite Ht0. }
  cbv zeta. rewrite Hat. simpl. do 2 f_equal. apply sql_update_none.
  intros t (t1 & _ & ->)%elem_of_update. destruct (p t1) eqn:Hp; [|done].
  unfold p. simpl. destruct (t_st t1). simpl. by rewrite andb_false_r.
Qed.

Definition empty_replica : replica := MkReplica [] [] [] [] [] [] [] false [].

Lemma seed_idempotent_witness :
  ∃ r', seedHeartbeat sample_sha1 1000 empty_replica = Ok r' ∧ seedHeartbeat sample_sha1 99999999 r' = Ok r' ∧
        length (r_tasks r') = 1%nat.
Proof.
  destruct (seedHeartbeat sample_sha1 1000 empty_replica) as [r'|e] eqn:E; [|vm_compute in E; discriminate E].
  exists r'. split; [reflexivity|]. split; [|vm_compute in E; injection E as <-; reflexivity].
  unfold seedHeartbeat in *.
  apply (seed_idempotent _ _ DEFAULT_HEARTBEAT_INTERVAL_MS _ 1000 _ _ _ E).
Defined.

Definition sample_candidates : list FiringCandidateHost := [MkCandidate "a" "A"; MkCandidate "b" "B"; MkCandidate "c" "C"].

(** A hash that tells the sample sites apart. *)
Definition spread_sha1 (m : list Z) : list Z := (λ k, (foldr Z.add 0 m * 41 + Z.of_nat k) mod 256) <$> seq 0 20.

Lemma rendezvous_stability_witness :
  ∃ w, selectFiringHost spread_sha1 "k" sample_candidates = Some w ∧
    ∀ gone, gone ≠ w →
      selectFiringHost spread_sha1 "k" (List.filter (λ c, negb (seqb (fc_siteId c) gone)) sample_candidates) = Some w.
Proof.
  destruct (selectFiringHost spread_sha1 "k" sample_candidates) as [w|] eqn:E; [|vm_compute in E; discriminate E].
  exists w. split; [reflexivity|]. apply (rendezvous_stability _ _ _ _ E).
Defined.

Definition sample_task (id : string) (ty : TaskType) (next : option Z) : Task :=
  MkTask (MkTaskDef id ty "0 * * * *" None None None None false 3 false None None "results" 0 None 0 (Some "u"))
    (MkTaskState TPending None None None next None None 0 0 None None None false 0 false).
Definition two_hosts : replica :=
  MkReplica [sample_task "t" Cron (Some 1000)] []
    [MkHost "a" (Some "A") (Some 0) (Some 900) false; MkHost "b" None (Some 800) None false]
    [] [] [] [] false [].
Definition no_regexp (_ : string) : option (string → bool) := None.

Lemma single_dispatcher_witness :
  ∃ c, c ∈ live_candidates no_regexp 1000 two_hosts (sample_task "t" Cron (Some 1000)) FIRING_HOST_STALE_MS ∧
    ∀ c', c' ∈ live_candidates no_regexp 1000 two_hosts (sample_task "t" Cron (Some 1000)) FIRING_HOST_STALE_MS →
      shouldDispatchHere no_regexp spread_sha1 1000 two_hosts (sample_task "t" Cron (Some 1000))
        (fc_hostName c') (fc_siteId c') FIRING_HOST_STALE_MS = true ↔ c' = c.
Proof.
  apply (single_dispatcher spread_sha1 no_regexp 1000 two_hosts (sample_task "t" Cron (Some 1000))
    FIRING_HOST_STALE_MS 1000 eq_refl).
  vm_compute. discriminate.
Defined.
