(* ===== verification/EventPayload.v ===== *)
(** * Event wakeups (packages/agent/src/event-payload.ts)

    The content of an event task's wakeup: the pending intake rows of the task's
    thread in the durable work spool are folded oldest first into one envelope
    and claimed, each under its own token, for the caller to acknowledge once
    the wakeup messages are stored.  [escapeXmlAttr] is from
    packages/shared/src/strings.ts.  Column values that are instants print as
    ISO strings. *)
From Stdlib Require Import Ascii.
From S2P Require Import Prelude Sql Json DurableWork Cron Tasks TaskResolution.
Local Open Scope bound_scope.
Local Open Scope Z_scope.

Definition PASSIVE_INTAKE_KINDS : list string := ["webhook_intake"; "rss_intake"; "connector_intake"].

(** ** Repository reads *)
Definition intake_for (refId : string) (r : DurableWorkRow) : bool :=
  bool_decide (dw_ref_id r = Some refId) && existsb (seqb (dw_kind r)) PASSIVE_INTAKE_KINDS && in_state Pending r.
Definition intake_time (r : DurableWorkRow) : Z := default (dw_created_at r) (dw_received_at r).
Definition listPendingIntakeDurableWorkForRef (refId : string) (t : dw_table) : list DurableWorkRow :=
  order_by intake_time (sql_select (intake_for refId) t).
Definition countPendingIntakeDurableWork (refId : string) (t : dw_table) : nat := sql_count (intake_for refId) t.

(** ** Rendering *)
Definition quoted (s : string) : string := of_chars [dquote] +:+ s +:+ of_chars [dquote].
Definition nl : string := of_chars [ascii_of_nat 10].
Definition escape_xml_char (c : ascii) : string :=
  if Ascii.eqb c "&" then "&amp;"
  else if Ascii.eqb c "<" then "&lt;"
  else if Ascii.eqb c ">" then "&gt;"
  else if Ascii.eqb c dquote then "&quot;"
  else if Ascii.eqb c "'" then "&apos;"
  else of_chars [c].
Definition escapeXmlAttr (value : string) : string := sconcat (escape_xml_char <$> chars value).

Definition inlineWebhookEnvelopeBody (rawPayload : string) : string :=
  match json_parse rawPayload with
  | Some (JObj env) =>
      match fields_get "body" env with
      | Some (JStr body) =>
          match json_parse body with
          | Some (JObj _ as parsedBody) | Some (JArr _ as parsedBody) =>
              json_stringify (JObj (fields_set "body" parsedBody env))
          | _ => rawPayload
          end
      | _ => rawPayload
      end
  | _ => rawPayload
  end.

Definition event_node (i : nat) (row : DurableWorkRow) : string :=
  "<event index=" +:+ quoted (of_chars (print_Z (Z.of_nat (S i))))
  +:+ " received=" +:+ quoted (escapeXmlAttr (toISOString (intake_time row)))
  +:+ " kind=" +:+ quoted (escapeXmlAttr (dw_kind row))
  +:+ " source-site=" +:+ quoted (escapeXmlAttr (default "" (dw_source_site row))) +:+ ">" +:+ nl
  +:+ inlineWebhookEnvelopeBody (dw_payload row) +:+ nl +:+ "</event>".

Fixpoint join_lines (l : list string) : string :=
  match l with
  | [] => ""
  | [x] => x
  | x :: l' => x +:+ nl +:+ join_lines l'
  end.

Definition render_events (task : Task) (folded : list DurableWorkRow) : string :=
  let triggerSpec :=
    if nonempty (td_trigger_spec (t_def task)) then td_trigger_spec (t_def task) else "(unspecified)" in
  "<connector-events trigger=" +:+ quoted (escapeXmlAttr triggerSpec)
  +:+ " count=" +:+ quoted (of_chars (print_Z (Z.of_nat (length folded)))) +:+ ">" +:+ nl
  +:+ join_lines (imap event_node folded) +:+ nl +:+ "</connector-events>"
  +:+ match td_payload (t_def task) with
      | Some p => if nonempty p then nl +:+ nl +:+ "Standing task payload:" +:+ nl +:+ p else ""
      | None => ""
      end.

(** ** buildEventWakeupContent *)
Record DurableWakeupClaim : Type := MkWakeupClaim { wc_id : string; wc_token : string }.
Record EventWakeupContent : Type := MkWakeupContent {
  ew_content : string; ew_durableClaims : list DurableWakeupClaim }.

Definition DEFAULT_FALLBACK : string := "Execute scheduled task.".
Definition fallback (task : Task) : string := default DEFAULT_FALLBACK (td_payload (t_def task)).

(** The row of [claimed] with an id: [new Map(claimedRows.map(...)).get]. *)
Definition claim_of (claimed : list DurableWorkRow) (i : string) : option string :=
  row_at dw_id i claimed ≫= dw_claim_token.

Definition buildEventWakeupContent (uuid : nat → string) (now : Z) (task : Task) (targetSiteId : string) (t : dw_table)
  : dw_table * EventWakeupContent :=
  let nothing := MkWakeupContent (fallback task) [] in
  if negb (is_type (t_type task) Event) || negb (truthy (ts_thread_id (t_st task))) then (t, nothing)
  else
    let durableRows := listPendingIntakeDurableWorkForRef (default "" (ts_thread_id (t_st task))) t in
    let merged := order_by intake_time durableRows in
    if (length merged =? 0)%nat then (t, nothing)
    else
      let '(t', claimedRows) := claimDurableWorkByIds uuid now (dw_id <$> merged) targetSiteId t in
      let folded := List.filter (λ row, bool_decide (is_Some (claim_of claimedRows (dw_id row)))) merged in
      if (length folded =? 0)%nat then (t', nothing)
      else (t', MkWakeupContent (render_events task folded)
                  ((λ row, MkWakeupClaim (dw_id row) (default "" (claim_of claimedRows (dw_id row)))) <$> folded)).

(** The caller's acknowledgement of the claims. *)
Fixpoint acknowledge_claims (now : Z) (claims : list DurableWakeupClaim) (t : dw_table) : dw_table :=
  match claims with
  | [] => t
  | c :: cs => acknowledge_claims now cs (acknowledgeDurableWork now (wc_id c) (wc_token c) t).1
  end.

(** * Lemmas *)
Lemma claim_each_spec uuid now rows t :
  NoDup (dw_id <$> rows) →
  (∀ r, r ∈ rows → row_at dw_id (dw_id r) t = Some r ∧ dw_claim_state r = Pending) → keys_unique dw_id t →
  let '(t', claimed) := claim_each uuid now rows t in
  keys_unique dw_id t' ∧
  (∀ r, r ∈ rows → ∃ tok, claim_of claimed (dw_id r) = Some tok ∧ row_at dw_id (dw_id r) t' = Some (claim_set tok now r)) ∧
  (∀ j, j ∉ (dw_id <$> rows) → claim_of claimed j = None ∧ row_at dw_id j t' = row_at dw_id j t).
Proof.
  revert uuid t. induction rows as [|row rows IH]; intros uuid t Hnd Hin Hk; simpl.
  { split_and!; [done|set_solver|done]. }
  rewrite fmap_cons in Hnd. apply NoDup_cons in Hnd as [Hrow Hnd].
  assert (∀ r, r ∈ rows → dw_id r ≠ dw_id row) as Hne.
  { intros r Hr Hid. apply Hrow. rewrite <-Hid. by apply list_elem_of_fmap_2. }
  set (t1 := claim_row (uuid 0%nat) now (dw_id row) t).
  specialize (IH (λ n, uuid (S n)) t1).
  destruct (claim_each _ now rows t1) as [t' claimed]. destruct IH as (Hk' & Hsel & Hoth).
  - done.
  - intros r Hr. destruct (Hin r) as [Hat Hp]; [set_solver|]. split; [|done].
    unfold t1. rewrite claim_row_row, Hat. simpl. by apply Hne, seqb_false in Hr as ->.
  - by apply claim_row_keys.
  - unfold claim_of in *. split_and!; [done| |].
    + intros r [->|Hr]%elem_of_cons.
      * exists (uuid 0%nat). rewrite row_at_cons. simpl. rewrite seqb_refl. split; [done|].
        destruct (Hin row) as [Hat Hp]; [set_solver|]. destruct (Hoth (dw_id row) Hrow) as [_ ->].
        unfold t1. rewrite claim_row_row, Hat. simpl. rewrite seqb_refl. by apply in_state_true in Hp as ->.
      * rewrite row_at_cons. simpl. destruct (seqb (dw_id row) (dw_id r)) eqn:E; [|by apply Hsel].
        apply seqb_true in E. by destruct (Hne r Hr).
    + intros j [Hj1 Hj2]%not_elem_of_cons. destruct (Hoth j Hj2) as [Hc ->].
      rewrite row_at_cons. simpl. destruct (seqb (dw_id row) j) eqn:E; [apply seqb_true in E; congruence|].
      split; [done|]. unfold t1. rewrite claim_row_row. destruct (row_at dw_id j t); [|done]. simpl.
      by apply seqb_false in Hj1 as ->.
Qed.

Lemma acknowledge_claims_spec now claims t :
  NoDup (wc_id <$> claims) → keys_unique dw_id t →
  (∀ c, c ∈ claims → ∃ r, row_at dw_id (wc_id c) t = Some r ∧ dw_claim_state r = Processing ∧
                          dw_claim_token r = Some (wc_token c)) →
  ∀ j, row_at dw_id j (acknowledge_claims now claims t) =
    if decide (j ∈ (wc_id <$> claims)) then consume_set now <$> row_at dw_id j t else row_at dw_id j t.
Proof.
  revert t. induction claims as [|c cs IH]; intros t Hnd Hk Hheld j; [done|]. cbn [acknowledge_claims].
  rewrite fmap_cons in Hnd. apply NoDup_cons in Hnd as [Hc Hnd].
  destruct (acknowledgeDurableWork now (wc_id c) (wc_token c) t) as [t1 b] eqn:Hack.
  destruct (acknowledge_spec now (wc_id c) (wc_token c) t t1 b Hk Hack) as (Hb & Hhit & Hmiss & Hk1).
  assert (b = true) as Ht by (apply Hb, Hheld; set_solver). cbn [fst].
  rewrite IH; [|done|done|].
  - destruct (decide (j = wc_id c)) as [->|Hne].
    + rewrite decide_False by done. rewrite decide_True by set_solver. auto.
    + rewrite Hmiss by done. destruct (decide (j ∈ wc_id <$> cs)) as [Hin|Hin].
      * rewrite decide_True by set_solver. done.
      * rewrite decide_False by set_solver. done.
  - intros d Hd. rewrite Hmiss; [apply Hheld; set_solver|].
    intros Heq. apply Hc. rewrite <-Heq. by apply list_elem_of_fmap_2.
Qed.

Lemma select_rows p t : keys_unique dw_id t →
  NoDup (dw_id <$> sql_select p t) ∧ ∀ r, r ∈ sql_select p t → row_at dw_id (dw_id r) t = Some r ∧ p r = true.
Proof.
  intros Hk. split; [by apply NoDup_fmap_filter|]. intros r [Hr Hp]%elem_of_select.
  split; [by apply row_at_elem|done].
Qed.

Lemma id_in_true ids r : id_in ids r = true ↔ dw_id r ∈ ids.
Proof.
  unfold id_in. rewrite existsb_exists. setoid_rewrite <-list_elem_of_In. split.
  - by intros (x & Hx & ->%seqb_true).
  - intros H. exists (dw_id r). by rewrite seqb_refl.
Qed.

Definition folded_row (th site : string) (r : DurableWorkRow) : bool := intake_for th r && targets site r.

(** The claims of a wakeup and what they leave in the spool. *)
Lemma wakeup_claims_spec uuid now task site t th t' c :
  dw_wf t → t_type task = Event → ts_thread_id (t_st task) = Some th → nonempty th = true →
  buildEventWakeupContent uuid now task site t = (t', c) →
  keys_unique dw_id t' ∧ NoDup (wc_id <$> ew_durableClaims c) ∧
  (∀ i, i ∈ (wc_id <$> ew_durableClaims c) ↔ ∃ r, row_at dw_id i t = Some r ∧ folded_row th site r = true) ∧
  (∀ d, d ∈ ew_durableClaims c → ∃ r, row_at dw_id (wc_id d) t = Some r ∧
     row_at dw_id (wc_id d) t' = Some (claim_set (wc_token d) now r)) ∧
  (∀ j, j ∉ (wc_id <$> ew_durableClaims c) → row_at dw_id j t' = row_at dw_id j t).
Proof.
  intros (Hk & _ & _) Hev Hth Hne. unfold buildEventWakeupContent. rewrite Hth. simpl.
  rewrite Hev, Hne. simpl.
  set (merged := order_by intake_time (listPendingIntakeDurableWorkForRef th t)).
  assert (merged ≡ₚ sql_select (intake_for th) t) as Hperm.
  { unfold merged, listPendingIntakeDurableWorkForRef. by rewrite !order_by_perm. }
  destruct (select_rows (intake_for th) t Hk) as [Hnd Hsel].
  assert (NoDup (dw_id <$> merged)) as Hndm by (by rewrite Hperm).
  assert (∀ r, r ∈ merged ↔ r ∈ t ∧ intake_for th r = true) as Hm.
  { intros r. by rewrite Hperm, elem_of_select. }
  clearbody merged.
  destruct (length merged =? 0)%nat eqn:Hlen.
  { apply Nat.eqb_eq, length_zero_iff_nil in Hlen as ->. intros [= <- <-]. simpl.
    split_and!; [done|constructor| |set_solver|done].
    intros i. split; [set_solver|]. intros (r & [Hr _]%row_at_Some & [Hf _]%andb_prop).
    assert (r ∈ []) as []%not_elem_of_nil. by apply Hm. }
  unfold claimDurableWorkByIds. rewrite length_fmap, Hlen.
  set (rows := sql_select _ t).
  assert (∀ r, r ∈ rows ↔ r ∈ t ∧ folded_row th site r = true) as Hrows.
  { intros r. unfold rows, folded_row. rewrite elem_of_select, !andb_true_iff, id_in_true. split.
    - intros (Hr & (Hs & Hp) & (r' & Hid & [Hr' Hi]%Hm)%list_elem_of_fmap).
      assert (Some r = Some r') as [= <-]; [|done].
      rewrite <-(row_at_elem dw_id (dw_id r) t r Hk Hr eq_refl). by apply row_at_elem.
    - intros (Hr & Hi & Hs). split; [done|]. split; [|by apply list_elem_of_fmap_2, Hm].
      split; [done|]. unfold intake_for in Hi. by apply andb_prop in Hi as [_ ?]. }
  destruct (select_rows _ t Hk : NoDup (dw_id <$> rows) ∧ _) as [Hndr Hrat].
  pose proof (claim_each_spec uuid now rows t Hndr) as Hclaim.
  destruct (claim_each uuid now rows t) as [t1 claimed].
  destruct Hclaim as (Hk1 & Hin & Hout); [|done|].
  { intros r Hr. split; [by apply Hrat|]. apply Hrows in Hr as [_ Hf].
    unfold folded_row, intake_for in Hf. bool_props. by apply in_state_true. }
  set (folded := List.filter _ merged).
  assert (∀ r, r ∈ folded ↔ r ∈ rows) as Hfold.
  { intros r. unfold folded. rewrite filter_In_iff, bool_decide_eq_true, Hm. split.
    - intros [[Hr Hi] [tok Htok]]. destruct (decide (dw_id r ∈ (dw_id <$> rows))) as [Hid|Hid].
      + apply list_elem_of_fmap in Hid as (r' & Hid & Hr').
        assert (Some r = Some r') as [= ->]; [|done].
        rewrite <-(row_at_elem dw_id (dw_id r) t r Hk Hr eq_refl). rewrite Hid. by apply Hrat.
      + destruct (Hout _ Hid) as [Hnone _]. congruence.
    - intros Hr. destruct (Hin r Hr) as (tok & -> & _). apply Hrows in Hr as [? [? _]%andb_prop]. eauto. }
  assert (∀ i, i ∈ (dw_id <$> folded) ↔ ∃ r, row_at dw_id i t = Some r ∧ folded_row th site r = true) as Hids.
  { intros i. rewrite list_elem_of_fmap. split.
    - intros (r & -> & Hr%Hfold). exists r. split; [by apply Hrat|]. by apply Hrows in Hr as [_ ?].
    - intros (r & [Hr <-]%row_at_Some & Hf). exists r. split; [done|]. by apply Hfold, Hrows. }
  assert (∀ j, j ∉ (dw_id <$> folded) → row_at dw_id j t1 = row_at dw_id j t) as Hother.
  { intros j Hj. apply Hout. intros (r & -> & Hr)%list_elem_of_fmap. apply Hj, list_elem_of_fmap_2. by apply Hfold. }
  assert (NoDup (dw_id <$> folded)) as Hndf by (by apply NoDup_fmap_filter).
  destruct (length folded =? 0)%nat eqn:Hf0.
  - apply Nat.eqb_eq, length_zero_iff_nil in Hf0. rewrite Hf0 in *. intros [= <- <-]. simpl.
    split_and!; [done|constructor|exact Hids|set_solver|exact Hother].
  - intros [= <- <-]. simpl.
    assert (wc_id <$> ((λ row, MkWakeupClaim (dw_id row) (default "" (claim_of claimed (dw_id row)))) <$> folded)
      = dw_id <$> folded) as Heq by (by rewrite <-list_fmap_compose).
    rewrite Heq. split_and!; [done|done|done| |done].
    intros d (r & -> & Hr)%list_elem_of_fmap. simpl. apply Hfold in Hr.
    destruct (Hin r Hr) as (tok & -> & Hat). exists r. split; [by apply Hrat|done].
Qed.

(** * Theorems *)

(** a wakeup consumes exactly the events it shows: after an event task's
    wakeup is built and its claims acknowledged, the pending intake rows of its
    thread that target this site are consumed, and no other row of the spool
    has changed. *)
Theorem wakeup_consumes_folded uuid now ack task site t th t' c :
  dw_wf t → t_type task = Event → ts_thread_id (t_st task) = Some th → nonempty th = true →
  buildEventWakeupContent uuid now task site t = (t', c) →
  ∀ j, row_at dw_id j (acknowledge_claims ack (ew_durableClaims c) t') =
    (λ r, if folded_row th site r then consume_set ack (claim_set "" now r) else r) <$> row_at dw_id j t.
Proof.
  intros Hwf Hev Hth Hne Hb j.
  destruct (wakeup_claims_spec _ _ _ _ _ _ _ _ Hwf Hev Hth Hne Hb) as (Hk & Hnd & Hids & Hheld & Hoth).
  rewrite acknowledge_claims_spec; [|done|done|].
  2: { intros d Hd. destruct (Hheld d Hd) as (r & _ & ->). eauto. }
  destruct (decide (j ∈ wc_id <$> ew_durableClaims c)) as [Hin|Hout].
  - pose proof (proj1 (Hids j) Hin) as (r & Hr & Hf). rewrite Hr. simpl. rewrite Hf.
    apply list_elem_of_fmap in Hin as (d & -> & Hd). destruct (Hheld d Hd) as (r' & Hr' & ->).
    rewrite Hr in Hr'. injection Hr' as <-. done.
  - rewrite Hoth by done. destruct (row_at dw_id j t) as [r|] eqn:E; [|done]. simpl.
    destruct (folded_row th site r) eqn:Hf; [|done]. destruct Hout. apply Hids. eauto.
Qed.

Definition intake_work (i : string) (at_ : Z) : NewDurableWork :=
  MkNewWork i "here" "webhook_intake" "{}" i None (Some "th") (Some "src") (Some at_) None None.
Definition intake_table : dw_table :=
  dw_run [OpInsert false false 10 (intake_work "w2" 9); OpInsert false false 11 (intake_work "w1" 5)] [].
Definition event_task : Task :=
  MkTask (MkTaskDef "e" Event "webhook:x" None None None None false 3 false None None "results" 0 None 0 None)
    (MkTaskState TPending None None None None None None 0 0 None None (Some "th") false 0 false).

Definition sample_uuid (n : nat) : string := if (n =? 0)%nat then "u0" else "u1".

Lemma wakeup_consumes_folded_witness :
  row_at dw_id "w1" (acknowledge_claims 30
      (ew_durableClaims (buildEventWakeupContent sample_uuid 20 event_task "here" intake_table).2)
      (buildEventWakeupContent sample_uuid 20 event_task "here" intake_table).1) =
    (λ r, if folded_row "th" "here" r then consume_set 30 (claim_set "" 20 r) else r) <$> row_at dw_id "w1" intake_table.
Proof.
  apply (wakeup_consumes_folded sample_uuid 20 30 event_task "here" intake_table "th").
  - apply run_wf, dw_wf_nil.
  - reflexivity.
  - reflexivity.
  - reflexivity.
  - vm_compute. reflexivity.
Defined.

Example fold_oldest_first :
  wc_id <$> ew_durableClaims (buildEventWakeupContent sample_uuid 20 event_task "here"
    intake_table).2 = ["w1"; "w2"].
Proof. vm_compute. reflexivity. Qed.
