(* ===== verification/Scheduler.v ===== *)
(** * The scheduler's rescheduling and recovery (packages/agent/src/scheduler.ts)

    The module functions the scheduler ends every run with and repairs rows
    with: cron and heartbeat rescheduling, parking, the retry of deferred tasks,
    the reset of event tasks, the healer of stuck rows, peer eviction (phase 0)
    and the quiescence tables.  [new Date()] is the argument [now], one reading
    per synchronous call; [uuid] is [randomUUID] at the store it is called on.
    Logging is left out.  Ticks and runs are in TaskRun.v. *)
From Stdlib Require Import Ascii QArith.
From S2P Require Import Prelude Sql Json DurableWork Cron Tasks TaskResolution EventPayload.
Local Open Scope bound_scope.
Local Open Scope Z_scope.

(** ** Constants *)
Definition LEASE_DURATION : Z := 300000.
Definition EVICTION_TIMEOUT : Z := 600000.
Definition HOST_HEARTBEAT_INTERVAL : Z := 120000.
Definition HOST_OFFLINE_TIMEOUT : Z := Z.max EVICTION_TIMEOUT (2 * HOST_HEARTBEAT_INTERVAL).
Definition STUCK_THRESHOLD : Z := 2 * EVICTION_TIMEOUT.
Definition ORPHAN_HEARTBEAT_TIMEOUT : Z := 2 * EVICTION_TIMEOUT.
Definition DEFERRED_MAX_RETRIES : Z := 2.
Definition DEFERRED_RETRY_BACKOFF_MS_DEFAULT : Z := 5000.
Definition MAX_EVENT_TASK_FAILURE_BACKOFFS : Z := 5.
Definition QUIESCENCE_TIERS : list (Z * Z) :=
  [(0, 1); (1800000, 2); (3600000, 3); (14400000, 5); (43200000, 10)].

(** ** Pure helpers *)
Definition extractCronExpression (triggerSpec : string) : string :=
  match json_parse triggerSpec with
  | Some v => match json_get "expression" v with Some (JStr e) => e | _ => triggerSpec end
  | None => triggerSpec
  end.

Definition CONNECTIVITY_ERROR_SIGNATURES : list string :=
  ["not available on any remote host"; "eligible host(s) timed out"; "fetch failed"; "getaddrinfo"; "enotfound";
   "eai_again"; "econnrefused"; "econnreset"; "etimedout"; "socket hang up"; "network error"; "unable to connect";
   "connection refused"].
Definition isConnectivityFailure (error : string) : bool :=
  existsb (includes (toLowerCase error)) CONNECTIVITY_ERROR_SIGNATURES.

(** The loop over the tiers from the last to the first. *)
Definition computeQuiescenceMultiplier (now lastUserInteractionAt : Z) : Z :=
  let inactivityMs := now - lastUserInteractionAt in
  match List.find (λ tier, tier.1 <=? inactivityMs) (rev QUIESCENCE_TIERS) with
  | Some tier => tier.2
  | None => 1
  end.

Definition show_Z (z : Z) : string := of_chars (print_Z z).
Definition formatIdleDuration (ms : Z) : string :=
  let hours := ms / 3600000 in
  let minutes := Z.rem ms 3600000 / 60000 in
  if 0 <? hours then show_Z hours +:+ "h " +:+ show_Z minutes +:+ "m" else show_Z minutes +:+ "m".

(** The number [m * 10^e] as a numerator and a positive denominator. *)
Definition ratio (m e : Z) : Z * Z := if 0 <=? e then (m * 10 ^ e, 1) else (m, 10 ^ (- e)).
(** [interval_ms] of a trigger; 0 when it is not a number. *)
Definition interval_of (spec : json) : Z * Z :=
  match json_get "interval_ms" spec with Some (JNum m e) => ratio m e | _ => (0, 1) end.
Definition interval_valid (i : Z * Z) : bool := negb (i.1 =? 0) && negb (i.1 <? 60000 * i.2).

(** [Math.ceil(now / effectiveInterval) * effectiveInterval] as the instant
    [new Date] makes of it, and [toISOString]'s check of the range of dates. *)
Definition next_boundary (now : Z) (i : Z * Z) (multiplier : Z) : Z :=
  Z.quot (ceil_to (i.1 * multiplier) (now * i.2)) i.2.
Definition date_in_range (t : Z) : bool := Z.abs t <=? 8640000000000000.

Definition computeHeartbeatNextRunAt (now : Z) (task : Task) (lastUserInteractionAt : Z) : result Z :=
  match json_parse (td_trigger_spec (t_def task)) with
  | None => Ok now
  | Some JNull => Throw "null is not an object"
  | Some spec =>
      let i := interval_of spec in
      if negb (interval_valid i) then Ok now
      else
        let multiplier :=
          if is_type (t_type task) Consolidation then 1
          else computeQuiescenceMultiplier now lastUserInteractionAt in
        let t := next_boundary now i multiplier in
        if date_in_range t then Ok t else Throw "Invalid Date"
  end.

(** ** Rescheduling *)
Definition release_claim : list task_set := [SetClaimedBy None; SetClaimedAt None; SetLease None].

(** A [try] around a write: a throw leaves the store as it was. *)
Definition attempt (r : replica) (w : result replica) : replica := match w with Ok r' => r' | Throw _ => r end.

Definition rescheduleCronTask (now : Z) (task : Task) (context : string) (expectedLease : option string)
    (r : replica) : replica :=
  if negb (is_type (t_type task) Cron) || negb (nonempty (td_trigger_spec (t_def task))) then r
  else
    match computeNextRunAt (extractCronExpression (td_trigger_spec (t_def task))) now with
    | Throw _ => r
    | Ok nextRunAt =>
        let updates := SetNextRun (Some nextRunAt) :: SetStatus TPending :: release_claim
                       ++ (if seqb context "completion" then [SetError (Some "")] else []) in
        match expectedLease with
        | None => attempt r (updateRow now (t_id task) updates r)
        | Some lease => (updateRowIf now (has_lease lease) (t_id task) updates r).1
        end
    end.

Definition parkTask (now : Z) (task : Task) (errorMsg : string) (expectedLease : option string) (r : replica)
    : replica :=
  match expectedLease with
  | None => r
  | Some lease =>
      (updateRowIf now (has_lease lease) (t_id task)
         (SetStatus TFailed :: SetNextRun None :: release_claim
          ++ [SetError (Some ("parked (model unresolvable cluster-wide): " +:+ errorMsg))]) r).1
  end.

Definition retryDeferredTask (now : Z) (task : Task) (consecutiveFailures retryBackoffMs : Z) (r : replica)
    : replica * bool :=
  if negb (is_type (t_type task) Deferred) then (r, false)
  else if DEFERRED_MAX_RETRIES <? consecutiveFailures then (r, false)
  else
    match updateRow now (t_id task)
            (SetStatus TPending :: SetNextRun (Some (now + retryBackoffMs * consecutiveFailures))
             :: SetFailures consecutiveFailures :: release_claim) r with
    | Ok r' => (r', true)
    | Throw _ => (r, false)
    end.

Definition is_completion (context : string) : bool :=
  seqb context "completion" || seqb context "template completion".

Definition resetEventTask (now : Z) (task : Task) (context : string) (r : replica) : result replica :=
  if negb (is_type (t_type task) Event) then Ok r
  else
    match task_at (t_id task) r with
    | None => Ok r
    | Some current =>
        if t_deleted current || has_status TCancelled current then Ok r
        else
          let pending := match ts_thread_id (t_st task) with
                         | Some th => if nonempty th then countPendingIntakeDurableWork th (r_durable r) else 0%nat
                         | None => 0%nat
                         end in
          let nextRunAt :=
            if (0 <? pending)%nat then
              if is_completion context then Some now
              else if ts_consecutive_failures (t_st current) <? MAX_EVENT_TASK_FAILURE_BACKOFFS
              then Some (now + 60000) else None
            else None in
          updateRow now (t_id task) (SetStatus TPending :: release_claim ++ [SetNextRun nextRunAt]) r
    end.

Definition rescheduleHeartbeat (now : Z) (task : Task) (context : string) (lastUserInteractionAt : Z) (r : replica)
    : result replica :=
  if negb (is_type (t_type task) Heartbeat) && negb (is_type (t_type task) Consolidation) then Ok r
  else
    match json_parse (td_trigger_spec (t_def task)) with
    | None => Ok r
    | Some JNull => Throw "null is not an object"
    | Some spec =>
        if negb (interval_valid (interval_of spec)) then Ok r
        else
          let! nextRunAt := computeHeartbeatNextRunAt now task lastUserInteractionAt in
          updateRow now (t_id task)
            (SetNextRun (Some nextRunAt) :: SetStatus TPending
             :: (if seqb context "completion" then [SetError (Some "")] else [])) r
    end.

(** ** The healer *)
Definition before (o : option Z) (t : Z) : bool := match o with Some v => v <? t | None => false end.

Definition stuck (threshold : Z) (t : Task) : bool :=
  negb (t_deleted t) && bool_decide (is_Some (ts_claimed_by (t_st t))) && before (ts_claimed_at (t_st t)) threshold &&
  match t_type t with
  | Heartbeat => has_status TFailed t || has_status TCancelled t || has_status TCompleted t
  | Event => has_status TFailed t || has_status TCompleted t
  | Cron => has_status TFailed t
  | Deferred => has_status TFailed t && (ts_consecutive_failures (t_st t) <? DEFERRED_MAX_RETRIES)
  | _ => false
  end.

(** The [switch] on the type; a throw leaves the row and counts nothing. *)
Definition heal_one (now lastUserInteractionAt : Z) (task : Task) (r : replica) : replica * nat :=
  let context := "stuck-row healer" in
  let guarded w := match w with Ok r' => (r', 1%nat) | Throw _ => (r, 0%nat) end in
  match t_type task with
  | Cron => (rescheduleCronTask now task context None r, 1%nat)
  | Heartbeat | Consolidation => guarded (rescheduleHeartbeat now task context lastUserInteractionAt r)
  | Event => guarded (resetEventTask now task context r)
  | Deferred =>
      ((retryDeferredTask now task (ts_consecutive_failures (t_st task) + 1) DEFERRED_RETRY_BACKOFF_MS_DEFAULT r).1, 1%nat)
  | OtherType _ => (r, 0%nat)
  end.
Fixpoint heal_each (now lastUserInteractionAt : Z) (tasks : list Task) (r : replica) : replica * nat :=
  match tasks with
  | [] => (r, 0%nat)
  | t :: ts =>
      let '(r', n) := heal_one now lastUserInteractionAt t r in
      let '(r'', m) := heal_each now lastUserInteractionAt ts r' in
      (r'', (n + m)%nat)
  end.
Definition healStuckTasks (now lastUserInteractionAt : Z) (r : replica) : replica * nat :=
  heal_each now lastUserInteractionAt (sql_select (stuck (now - STUCK_THRESHOLD)) (r_tasks r)) r.

(** ** Advisories *)
Definition slice_error (n : nat) (s : string) : string := of_chars (take n (chars s)).
Definition triggerFailureAdvisory (uuid : replica → string) (task : Task) (error : string) (failures : Z) (r : replica)
    : replica :=
  if isConnectivityFailure error then r
  else
    with_advisory (uuid r)
      (MkAdvisory ("Task has failed " +:+ show_Z failures +:+ " times consecutively")
         ("Task " +:+ t_id task +:+ " has failed " +:+ show_Z failures +:+ " consecutive times. Latest error: "
          +:+ slice_error 500 error)
         (json_stringify (JObj [("taskId", JStr (t_id task)); ("consecutiveFailures", JInt failures);
                                ("error", JStr (slice_error 500 error))]))
         (ts_thread_id (t_st task))) r.

(** ** Phase 0: eviction *)

(** The row a LEFT JOIN on [site_id = claimed_by] finds. *)
Definition holder_of (hosts : list HostRow) (t : Task) : option HostRow :=
  ts_claimed_by (t_st t) ≫= λ s, row_at h_site_id s hosts.
Definition last_seen (h : HostRow) : option Z := match h_modified_at h with Some m => Some m | None => h_online_at h end.

(** [EVICTION_SELECTOR_SQL]. *)
Definition evictable (hosts : list HostRow) (evictionTime hostOffline orphan : Z) (t : Task) : bool :=
  has_status TRunning t && negb (t_deleted t) && before (ts_heartbeat_at (t_st t)) evictionTime &&
  match holder_of hosts t with
  | None => true
  | Some h => before (last_seen h) hostOffline || before (ts_heartbeat_at (t_st t)) orphan
  end.

(** The next run of an evicted task, by type. *)
Definition eviction_next (now lastUserInteractionAt failures : Z) (task : Task) : result (option Z) :=
  match t_type task with
  | Cron =>
      if nonempty (td_trigger_spec (t_def task)) then
        match computeNextRunAt (extractCronExpression (td_trigger_spec (t_def task))) now with
        | Ok t => Ok (Some t)
        | Throw _ => Ok None
        end
      else Ok None
  | Heartbeat | Consolidation =>
      let! t := computeHeartbeatNextRunAt now task lastUserInteractionAt in Ok (Some t)
  | Event => Ok None
  | Deferred =>
      if DEFERRED_MAX_RETRIES <? failures then Ok None
      else Ok (Some (now + DEFERRED_RETRY_BACKOFF_MS_DEFAULT * failures))
  | OtherType name => Throw ("Unknown task type: " +:+ name)
  end.

Definition eviction_error : string := "evicted due to heartbeat timeout".

Definition evict_one (uuid : replica → string) (now lastUserInteractionAt : Z) (task : Task) (r : replica) : replica :=
  let newConsecutiveFailures := ts_consecutive_failures (t_st task) + 1 in
  match eviction_next now lastUserInteractionAt newConsecutiveFailures task with
  | Throw _ => r
  | Ok nextRunAt =>
      let '(r', committed) :=
        updateRowIf now (has_status TRunning) (t_id task)
          (SetStatus TPending :: SetError (Some eviction_error) :: SetFailures newConsecutiveFailures
           :: SetNextRun nextRunAt :: release_claim) r in
      if committed && (newConsecutiveFailures =? td_alert_threshold (t_def task))
      then triggerFailureAdvisory uuid task eviction_error newConsecutiveFailures r' else r'
  end.

(** A claim older than the lease goes back to pending; the row was read in the
    same turn, so the write finds it. *)
Definition stale_claimed (leaseExpiry : Z) (t : Task) : bool :=
  has_status TClaimed t && negb (t_deleted t) && before (ts_claimed_at (t_st t)) leaseExpiry.
Definition expire_one (now : Z) (task : Task) (r : replica) : replica :=
  attempt r (updateRow now (t_id task) (SetStatus TPending :: release_claim) r).

Definition each_task (f : Task → replica → replica) (tasks : list Task) (r : replica) : replica :=
  foldl (λ r t, f t r) r tasks.

Definition phase0Eviction (uuid : replica → string) (now lastUserInteractionAt : Z) (r : replica) : replica :=
  let r1 := each_task (expire_one now) (sql_select (stale_claimed (now - LEASE_DURATION)) (r_tasks r)) r in
  let r2 := each_task (evict_one uuid now lastUserInteractionAt)
              (sql_select (evictable (r_hosts r1) (now - EVICTION_TIMEOUT) (now - HOST_OFFLINE_TIMEOUT)
                             (now - ORPHAN_HEARTBEAT_TIMEOUT)) (r_tasks r1)) r1 in
  (healStuckTasks now lastUserInteractionAt r2).1.
