(* ===== verification/TaskRun.v ===== *)
(** * Ticks and runs of the scheduler (packages/agent/src/scheduler.ts)

    The [Scheduler] class: the phases of a tick, the durable lane that turns a
    due firing into a run ([enqueueTaskFire], [processPendingTaskFire]), the
    lease-guarded start of a run, its two halves around the agent loop
    ([begin_run], [finish_run]), event claims, lease refreshes and the poll
    interval; with the [cancel] tool (packages/agent/src/tools/cancel.ts) and
    the web route that cancel a task.  The agent loop is the argument [outcome]
    of [finish_run]: other synchronous work may happen between the halves.
    Context builders, the model validator, [RegExp], [Date.parse] and SHA-1 are
    arguments.  Spans, metrics, logs and the comparison telemetry are left out. *)
From Stdlib Require Import Ascii QArith.
From S2P Require Import Prelude Sql Json DurableWork Cron Tasks TaskResolution EventPayload Scheduler.
Local Open Scope bound_scope.
Local Open Scope Z_scope.

(** ** A store that throws *)
Definition St (A : Type) : Type := replica → replica * result A.
Definition sret {A} (a : A) : St A := λ r, (r, Ok a).
Definition sbind {A B} (m : St A) (k : A → St B) : St B :=
  λ r, match m r with (r', Ok a) => k a r' | (r', Throw e) => (r', Throw e) end.
Definition swrite (w : replica → result replica) : St unit :=
  λ r, match w r with Ok r' => (r', Ok tt) | Throw e => (r, Throw e) end.
Definition smodify (f : replica → replica) : St unit := λ r, (f r, Ok tt).
Definition sget {A} (f : replica → A) : St A := λ r, (r, Ok (f r)).
Declare Scope sched_scope.
Notation "'do*' x := m 'in' k" := (sbind m (fun x => k))
  (at level 10, x pattern, m at level 100, k at level 200) : sched_scope.
Local Open Scope sched_scope.

(** ** Configuration *)
Inductive TaskFireMode : Type := ModeLegacy | ModeCompare | ModeDurable.
Definition parseTaskFireMode (raw : option string) : TaskFireMode :=
  match toLowerCase <$> raw with
  | Some "legacy" => ModeLegacy
  | Some "durable" => ModeDurable
  | Some "compare" => ModeCompare
  | _ => ModeDurable
  end.

Inductive validation : Type := Valid | Invalid (error : string) (permanent : bool).

Record SchedulerEnv : Type := MkEnv {
  e_siteId : string;
  e_hostName : string;
  e_operatorUserId : string;
  e_mode : TaskFireMode;
  e_modelValidator : option (string → validation);
  e_retryBackoffMs : option Z;
  e_basePollIntervalMs : option Z;
  e_dailyBudget : option Q;
  e_sha1 : list Z → list Z;
  e_regExp : string → option (string → bool);
  e_parseDate : string → option Z;
  e_heartbeatContext : replica → option Z → string;
  e_consolidationContext : replica → string;
  e_uuid : replica → string;
  e_uuids : replica → nat → string
}.

Definition CRON_THREAD_ROTATION_THRESHOLD : nat := 200.
Definition TASK_FIRE_TTL_MS : Z := 5 * 60 * 1000.
Definition TASK_FIRE_MAX_ATTEMPTS : Z := 3.
Definition POLL_INTERVAL : Z := 5000.
Definition MAX_EVENT_DEPTH : Z := 5.
Definition QUIESCENCE_NOTE_THRESHOLD : Z := 1800000.

(** The fields of the scheduler object. *)
Record scheduler : Type := MkScheduler {
  s_running : bool;
  s_lastUserInteractionAt : Z;
  s_eventDepth : Z;
  s_runningTasks : gmap string string
}.
Definition set_running_tasks (m : gmap string string) (s : scheduler) : scheduler :=
  MkScheduler (s_running s) (s_lastUserInteractionAt s) (s_eventDepth s) m.

Section Scheduler.
Context (env : SchedulerEnv).

(** ** Claims *)

(** The [pending -> claimed] and [claimed -> running] compare-and-set UPDATEs. *)
Definition claim_cas (claimedAt : Z) (id : string) : replica → replica * bool :=
  update_cas (has_status TPending)
    [SetStatus TClaimed; SetClaimedBy (Some (e_siteId env)); SetClaimedAt (Some claimedAt)] id.
Definition claimed_by_us (t : Task) : bool :=
  has_status TClaimed t && bool_decide (ts_claimed_by (t_st t) = Some (e_siteId env)).
Definition run_cas (now : Z) (leaseId id : string) : replica → replica * bool :=
  update_cas claimed_by_us [SetStatus TRunning; SetLease (Some leaseId); SetHeartbeat (Some now)] id.

(** ** The durable lane *)
Record TaskFirePayload : Type := MkFire { tf_task_id : string; tf_scheduled_at : string }.
Definition taskFireIdempotencyKey (p : TaskFirePayload) : string :=
  "task-fire:" +:+ tf_task_id p +:+ ":" +:+ tf_scheduled_at p.
Definition fire_payload (p : TaskFirePayload) : json :=
  JObj [("task_id", JStr (tf_task_id p)); ("scheduled_at", JStr (tf_scheduled_at p))].

Definition fire_of (task : Task) (at_ : Z) : TaskFirePayload := MkFire (t_id task) (toISOString at_).
Definition fire_work (uuid : string) (now : Z) (p : TaskFirePayload) : NewDurableWork :=
  MkNewWork uuid (e_siteId env) "task_fire" (json_stringify (fire_payload p)) (taskFireIdempotencyKey p)
    (Some (now + TASK_FIRE_TTL_MS)) None None None None None.

Definition enqueueTaskFire (now : Z) (task : Task) (r : replica) : result (replica * bool) :=
  match t_next task with
  | None => Ok (r, false)
  | Some scheduledAt =>
      let! (t, inserted, _) :=
        insertDurableWork true false now (fire_work (e_uuid env r) now (fire_of task scheduledAt)) (r_durable r) in
      Ok (with_durable t r, inserted)
  end.

Definition parseTaskFirePayload (raw : string) : string + TaskFirePayload :=
  match json_parse raw with
  | None => inl "payload is not valid JSON"
  | Some (JObj _ as v) | Some (JArr _ as v) =>
      match json_get "task_id" v with
      | Some (JStr task_id) =>
          if negb (nonempty task_id) then inl "task_id must be a non-empty string"
          else
            match json_get "scheduled_at" v with
            | Some (JStr scheduled_at) =>
                if negb (nonempty scheduled_at) then inl "scheduled_at must be a non-empty string"
                else match e_parseDate env scheduled_at with
                     | None => inl "scheduled_at must be a valid ISO-8601 timestamp"
                     | Some _ => inr (MkFire task_id scheduled_at)
                     end
            | _ => inl "scheduled_at must be a non-empty string"
            end
      | _ => inl "task_id must be a non-empty string"
      end
  | Some _ => inl "payload must be an object"
  end.

Inductive stale_reason : Type := binding_missing | event_task_binding | binding_not_pending | next_run_at_moved.
Definition classifyStaleFiring (task : option Task) (p : TaskFirePayload) : option stale_reason :=
  match task with
  | None => Some binding_missing
  | Some t =>
      match t_next t with
      | None => Some event_task_binding
      | Some next =>
          if negb (has_status TPending t) then Some binding_not_pending
          else if negb (bool_decide (Some next = e_parseDate env (tf_scheduled_at p))) then Some next_run_at_moved
          else None
      end
  end.

(** ** Budget *)
Definition day_start (t : Z) : Z := t / day_ms * day_ms.
Definition today_spend (now : Z) (turns : list TurnRow) : Q :=
  foldr Qplus 0%Q (tn_cost_usd <$> List.filter (λ x, (day_start now <=? tn_created_at x)
                                                   && (tn_created_at x <? day_start (now + day_ms))) turns).
Definition shouldSkipDueToBudget (now : Z) (task : Task) (r : replica) : bool :=
  let isInteractive := match td_created_by (t_def task) with Some c => negb (seqb c "system") | None => false end in
  if isInteractive then false
  else match e_dailyBudget env with
       | None => false
       | Some dailyBudget => Qle_bool dailyBudget (today_spend now (r_turns r))
       end.
Definition release_over_budget (now : Z) (id : string) : replica → result replica :=
  updateRow now id [SetStatus TPending; SetClaimedBy None; SetClaimedAt None].

(** ** Starting a run *)

(** A run waiting in [setImmediate]: the task as it was claimed, and the lease. *)
Record job : Type := MkJob { j_task : Task; j_lease : string }.

(** [runTask]'s synchronous part. *)
Definition runTask (now : Z) (task : Task) (r : replica) : replica * option job :=
  let leaseId := e_uuid env r in
  let '(r', won) := run_cas now leaseId (t_id task) r in
  (r', if won then Some (MkJob task leaseId) else None).

(** ** processPendingTaskFire *)
Definition ack (now : Z) (i token : string) (r : replica) : replica :=
  with_durable (acknowledgeDurableWork now i token (r_durable r)).1 r.
Definition release (i token : string) (r : replica) : replica :=
  with_durable (releaseDurableWorkClaim i token (r_durable r)).1 r.
Definition dead_letter (now : Z) (i token error : string) (r : replica) : replica :=
  with_durable (deadLetterClaimedDurableWork i token error now (r_durable r)).1 r.

(** Where an infrastructure failure interrupts the pass. *)
Inductive fire_stage : Type := AtBinding | AtBridge | AtBudget | AtRun.
#[export] Instance fire_stage_eq_dec : EqDecision fire_stage.
Proof. solve_decision. Defined.

Inductive disposition : Type :=
| NoFiring
| Malformed (error : string)
| SelfClaimed
| Stale (reason : stale_reason)
| BridgeLost
| OverBudget
| Fired (j : option job)
| Interrupted (stage : fire_stage) (exhausted : bool).

Definition self_owned_crash_window (stale : stale_reason) (task : option Task) : bool :=
  match stale, task with
  | binding_not_pending, Some t =>
      (has_status TClaimed t || has_status TRunning t) && bool_decide (ts_claimed_by (t_st t) = Some (e_siteId env))
  | _, _ => false
  end.

(** [SELECT * FROM tasks WHERE id = ? AND deleted = 0]. *)
Definition live_task (id : string) (r : replica) : option Task :=
  match task_at id r with Some t => if t_deleted t then None else Some t | None => None end.

Definition interrupted (now : Z) (c : DurableWorkRow) (token : string) (stage : fire_stage) (error : string) (r : replica)
  : replica * disposition :=
  if TASK_FIRE_MAX_ATTEMPTS <=? dw_attempt_count c
  then (dead_letter now (dw_id c) token error r, Interrupted stage true)
  else (r, Interrupted stage false).

Definition faults (fault : option (fire_stage * string)) (stage : fire_stage) : option string :=
  match fault with Some (s, e) => if decide (s = stage) then Some e else None | None => None end.

(** The bridge of a live, due task into [runTask]. *)
Definition bridge (now : Z) (fault : option (fire_stage * string)) (c : DurableWorkRow) (token : string) (due : Task)
    (r : replica) : replica * disposition :=
  match faults fault AtBridge with
  | Some e => interrupted now c token AtBridge e r
  | None =>
      let '(r1, bridged) := claim_cas now (t_id due) r in
      if negb bridged then (ack now (dw_id c) token r1, BridgeLost)
      else
        let claimedTask :=
          assign [SetStatus TClaimed; SetClaimedBy (Some (e_siteId env)); SetClaimedAt (Some now)] due in
        match faults fault AtBudget with
        | Some e => interrupted now c token AtBudget e r1
        | None =>
            if shouldSkipDueToBudget now claimedTask r1
            then (release (dw_id c) token (attempt r1 (release_over_budget now (t_id due) r1)), OverBudget)
            else
              match faults fault AtRun with
              | Some e => interrupted now c token AtRun e r1
              | None =>
                  let '(r2, j) := runTask now claimedTask r1 in
                  (ack now (dw_id c) token r2, Fired j)
              end
        end
  end.

Definition processPendingTaskFire (now : Z) (fault : option (fire_stage * string)) (r : replica)
    : replica * disposition :=
  let '(t, claimed) := claimLocalDurableWork (e_uuid env r) now (e_siteId env) (Some "task_fire") (r_durable r) in
  match claimed with
  | None => (r, NoFiring)
  | Some c =>
      let r0 := with_durable t r in
      let token := default "" (dw_claim_token c) in
      match parseTaskFirePayload (dw_payload c) with
      | inl error =>
          (dead_letter now (dw_id c) token ("malformed task_fire payload: " +:+ error) r0, Malformed error)
      | inr payload =>
          match faults fault AtBinding with
          | Some e => interrupted now c token AtBinding e r0
          | None =>
              let task := live_task (tf_task_id payload) r0 in
              match classifyStaleFiring task payload, task with
              | Some stale, _ =>
                  if self_owned_crash_window stale task then (release (dw_id c) token r0, SelfClaimed)
                  else (ack now (dw_id c) token r0, Stale stale)
              | None, Some due => bridge now fault c token due r0
              | None, None => (r0, NoFiring)
              end
          end
      end
  end.

(** ** Phase 1 and phase 3 *)
Definition due_pending (now : Z) (t : Task) : bool :=
  has_status TPending t && negb (t_deleted t) && match t_next t with Some n => n <=? now | None => false end.
Definition due_tasks (now : Z) (r : replica) : list Task :=
  take 100 (order_by (λ t, default 0 (t_next t)) (sql_select (due_pending now) (r_tasks r))).

Definition dispatch_here (now : Z) (r : replica) (t : Task) : bool :=
  shouldDispatchHere (e_regExp env) (e_sha1 env) now r t (e_hostName env) (e_siteId env) FIRING_HOST_STALE_MS.

Definition schedule_one (now : Z) (task : Task) : St unit :=
  do* dispatched := sget (λ r, dispatch_here now r task) in
  if negb dispatched then sret tt
  else match e_mode env with
       | ModeDurable => swrite (λ r, let! (r', _) := enqueueTaskFire now task r in Ok r')
       | _ => smodify (λ r, (claim_cas now (t_id task) r).1)
       end.
Fixpoint for_tasks (f : Task → St unit) (ts : list Task) : St unit :=
  match ts with
  | [] => sret tt
  | t :: ts' => do* _ := f t in for_tasks f ts'
  end.
Definition phase1Schedule (now : Z) : St unit :=
  do* ts := sget (due_tasks now) in for_tasks (schedule_one now) ts.

Definition claimed_tasks (r : replica) : list Task :=
  take 10 (order_by (λ t, td_created_at (t_def t)) (sql_select claimed_by_us (r_tasks r))).
Fixpoint run_each (now : Z) (ts : list Task) (r : replica) : replica * list job :=
  match ts with
  | [] => (r, [])
  | t :: ts' =>
      if shouldSkipDueToBudget now t r
      then run_each now ts' (attempt r (release_over_budget now (t_id t) r))
      else
        let '(r1, j) := runTask now t r in
        let '(r2, js) := run_each now ts' r1 in
        (r2, match j with Some j => j :: js | None => js end)
  end.
Definition phase3Run (now : Z) (r : replica) : replica * list job := run_each now (claimed_tasks r) r.

(** ** The tick *)
Definition start_jobs (js : list job) (s : scheduler) : scheduler :=
  set_running_tasks (foldl (λ m j, <[t_id (j_task j) := j_lease j]> m) (s_runningTasks s) js) s.

(** The synchronous tick; the jobs it queued wait for their turn.  A throw in
    phase 1 ends the tick. *)
Definition tick (now : Z) (fault : option (fire_stage * string)) (s : scheduler) (r : replica)
    : scheduler * replica * list job :=
  if negb (s_running s) || r_emergency_stop r then (s, r, [])
  else
    let r1 := phase0Eviction (e_uuid env) now (s_lastUserInteractionAt s) r in
    match phase1Schedule now r1 with
    | (r2, Throw _) => (s, r2, [])
    | (r2, Ok _) =>
        let '(r3, js) := phase3Run now r2 in
        let '(r4, d) := processPendingTaskFire now fault r3 in
        let js' := js ++ match d with Fired (Some j) => [j] | _ => [] end in
        (start_jobs js' s, r4, js')
    end.

(** ** Failures *)

(** [consecutive_failures = consecutive_failures + 1 ... WHERE id = ? AND
    lease_id = ?]: the new count, [None] when the lease is gone. *)
Definition fail_cas (now : Z) (leaseId error : string) (extra : Task → list task_set) (id : string) (r : replica)
  : replica * option Z :=
  match task_at id r with
  | Some t =>
      let n := ts_consecutive_failures (t_st t) + 1 in
      let '(r', changed) :=
        update_cas (has_lease leaseId)
          (SetStatus TFailed :: SetError (Some error) :: extra t ++ [SetFailures n; SetModified now]) id r in
      (r', if changed then Some n else None)
  | None => (r, None)
  end.

Definition advise (task : Task) (error : string) (failures : Z) (r : replica) : replica :=
  if failures =? td_alert_threshold (t_def task) then triggerFailureAdvisory (e_uuid env) task error failures r else r.

(** The four helpers every failing run ends with; each acts on its own types. *)
Definition rearm (now lastUserInteractionAt : Z) (task : Task) (context : string) (lease : string) (failures : Z)
  : St unit :=
  do* _ := smodify (rescheduleCronTask now task context (Some lease)) in
  do* _ := swrite (rescheduleHeartbeat now task context lastUserInteractionAt) in
  do* _ := smodify (λ r, (retryDeferredTask now task failures
                            (default DEFERRED_RETRY_BACKOFF_MS_DEFAULT (e_retryBackoffMs env)) r).1) in
  swrite (resetEventTask now task context).

Definition lease_matches (j : job) (r : replica) : bool :=
  match task_at (t_id (j_task j)) r with Some t => has_lease (j_lease j) t | None => false end.

Definition firing_artifact (task : Task) (artifact : string) (r : replica) : string :=
  match computeFiringKey (t_id task) (t_next task) with
  | Some key => deriveFiringArtifactId (e_sha1 env) key artifact
  | None => e_uuid env r
  end.

(** The [catch] block of a run. *)
Definition hard_failure (now lastUserInteractionAt : Z) (j : job) (error : string) : St unit :=
  do* held := sget (lease_matches j) in
  if negb held then sret tt
  else
    do* failed := (λ r, let '(r', n) := fail_cas now (j_lease j) error (λ _, []) (t_id (j_task j)) r in (r', Ok n)) in
    match failed with
    | None => sret tt
    | Some failures =>
        let task := j_task j in
        do* _ := smodify (advise task error failures) in
        do* _ := smodify (λ r,
          match ts_thread_id (t_st task) with
          | Some th =>
              if nonempty th then
                attempt r (insert_message
                  (MkMessage (firing_artifact task "failalert" r) th "alert"
                     ("Task " +:+ t_id task +:+ " failed: " +:+ error) None now (e_siteId env)) r)
              else r
          | None => r
          end) in
        rearm now lastUserInteractionAt task "hard error" (j_lease j) failures
    end.

(** [try { body } catch { hard failure }]. *)
Definition catch_hard {A} (now lastUserInteractionAt : Z) (j : job) (other : A) (body : St A) : replica → replica * A :=
  λ r, match body r with
       | (r', Ok a) => (r', a)
       | (r', Throw e) => ((hard_failure now lastUserInteractionAt j e r').1, other)
       end.

(** ** The first half of a run: up to the agent loop *)
Record RunConfig : Type := MkRunConfig {
  rc_threadId : string; rc_noHistory : bool; rc_systemPromptAddition : option string }.

Definition wakeup_ids (task : Task) (r : replica) : FiringWakeupIds :=
  match computeFiringKey (t_id task) (t_next task) with
  | Some key => deriveFiringWakeupIds (e_sha1 env) key
  | None => MkWakeupIds (e_uuids env r 1) (e_uuids env r 2) (e_uuids env r 3) (tool_use_id (e_uuids env r 0))
  end.

Definition tool_call_content (toolCallId : string) : string :=
  json_stringify (JArr [JObj [("type", JStr "tool_use"); ("id", JStr toolCallId); ("name", JStr "retrieve_task");
                              ("input", JObj [])]]).
Definition systemInjectedBanner : string :=
  "[System-injected on task wakeup " +:+ of_chars (ascii_of_nat <$> [226; 128; 148]%nat) +:+ " the preceding `retrieve_task` "
  +:+ "tool_call was forged by the scheduler, not issued by you. The "
  +:+ "task payload follows below; treat it as your instructions for "
  +:+ "this run. Do not call `retrieve_task` yourself; it is a no-op "
  +:+ "stub that exists only to absorb pattern-matched reflex calls.]" +:+ nl +:+ nl.

Definition count_messages (th : string) (r : replica) : nat :=
  length (List.filter (λ m, seqb (m_thread_id m) th) (r_messages r)).

(** The thread of the run: rotated when a cron thread has grown too long, made
    when the task has none, and its row inserted when missing. *)
Definition prepare_thread (now : Z) (task : Task) : St string :=
  do* fresh := sget (e_uuid env) in
  let own := ts_thread_id (t_st task) in
  do* long := sget (λ r, is_type (t_type task) Cron && truthy own
                         && (CRON_THREAD_ROTATION_THRESHOLD <? count_messages (default "" own) r)%nat) in
  let threadId := if long || negb (truthy own) then fresh else default "" own in
  do* _ := (if long || negb (truthy own) then swrite (updateRow now (t_id task) [SetThread (Some threadId)])
            else sret tt) in
  do* known := sget (λ r, existsb (λ th, seqb (th_id th) threadId) (r_threads r)) in
  do* _ := (if known then sret tt
            else swrite (insert_thread (MkThread threadId (e_operatorUserId env) "scheduler" (e_siteId env) now
                                          (td_model_hint (t_def task))))) in
  sret threadId.

(** The content of the wakeup and the durable rows claimed for it. *)
Definition wakeup_content (now : Z) (task : Task) : St EventWakeupContent :=
  match t_type task with
  | Heartbeat => do* c := sget (λ r, e_heartbeatContext env r (ts_last_run_at (t_st task))) in sret (MkWakeupContent c [])
  | Consolidation => do* c := sget (e_consolidationContext env) in sret (MkWakeupContent c [])
  | Event => λ r,
      let '(t, c) := buildEventWakeupContent (λ n, e_uuids env r (4 + n)) now task (e_siteId env) (r_durable r) in
      (with_durable t r, Ok c)
  | _ => sret (MkWakeupContent (default DEFAULT_FALLBACK (td_payload (t_def task))) [])
  end.

Definition message (now : Z) (id th role content : string) (toolName : option string) : MessageRow :=
  MkMessage id th role content toolName now (e_siteId env).

(** [Math.round(ms / 60_000)] of the number [n / d]. *)
Definition round_minutes (n d : Z) : Z := (2 * n + 60000 * d) / (120000 * d).

Definition quiescence_note (now lastUserInteractionAt : Z) (task : Task) : option string :=
  let idleMs := now - lastUserInteractionAt in
  if negb (is_type (t_type task) Heartbeat || is_type (t_type task) Cron) then None
  else if idleMs <? QUIESCENCE_NOTE_THRESHOLD then None
  else
    let multiplier := computeQuiescenceMultiplier now lastUserInteractionAt in
    let '(base, effective) :=
      if is_type (t_type task) Heartbeat then
        let '(n, d) := match json_parse (td_trigger_spec (t_def task)) ≫= json_get "interval_ms" with
                       | Some (JNum m e) => ratio m e
                       | _ => (1800000, 1)
                       end in
        (show_Z (round_minutes n d) +:+ "min", show_Z (round_minutes (n * multiplier) d) +:+ "min")
      else (extractCronExpression (td_trigger_spec (t_def task)),
            "schedule stretched by " +:+ show_Z multiplier +:+ "x") in
    Some ("[System note: Quiescence is active (idle " +:+ formatIdleDuration idleMs
          +:+ "). Task intervals are stretched by " +:+ show_Z multiplier +:+ "x. Normal interval: " +:+ base
          +:+ ", effective: " +:+ effective +:+ ".]").

(** The model hint was rejected: fail the task, then park it when the model is
    gone for good, else schedule a retry. *)
Definition model_rejected (now lastUserInteractionAt : Z) (j : job) (error : string) (permanent : bool) : St unit :=
  do* held := sget (lease_matches j) in
  if negb held then sret tt
  else
    do* failed := (λ r, let '(r', n) := fail_cas now (j_lease j) error (λ _, []) (t_id (j_task j)) r in (r', Ok n)) in
    match failed with
    | None => sret tt
    | Some failures =>
        let task := j_task j in
        do* _ := smodify (advise task error failures) in
        if permanent && negb (is_type (t_type task) Heartbeat) && negb (is_type (t_type task) Consolidation)
        then smodify (parkTask now task error (Some (j_lease j)))
        else rearm now lastUserInteractionAt task "model validation failure" (j_lease j) failures
    end.

(** The rest of the first half, once the content is known. *)
Definition deliver_wakeup (now lastUserInteractionAt : Z) (j : job) (threadId : string) (ids : FiringWakeupIds)
    (c : EventWakeupContent) : St (option RunConfig) :=
  let task := j_task j in
  do* _ := swrite (insert_message (message now (wakeupMessageId ids) threadId "developer"
             ("[Task wakeup] Scheduled " +:+ type_name (t_type task) +:+ " task " +:+ t_id task +:+ " triggered.") None)) in
  do* _ := swrite (insert_message (message now (toolCallMessageId ids) threadId "tool_call"
             (tool_call_content (toolUseId ids)) None)) in
  do* _ := swrite (insert_message (message now (toolResultMessageId ids) threadId "tool_result"
             (systemInjectedBanner +:+ ew_content c) (Some (toolUseId ids)))) in
  do* _ := smodify (λ r, with_durable (acknowledge_claims now (ew_durableClaims c) (r_durable r)) r) in
  do* _ := match quiescence_note now lastUserInteractionAt task with
           | Some note => swrite (λ r, insert_message (message now (firing_artifact task "quiescence" r) threadId
                                                         "developer" note None) r)
           | None => sret tt
           end in
  match e_modelValidator env with
  | Some validate =>
      if truthy (td_model_hint (t_def task)) then
        match validate (default "" (td_model_hint (t_def task))) with
        | Invalid error permanent =>
            do* _ := model_rejected now lastUserInteractionAt j error permanent in sret None
        | Valid => sret (Some (MkRunConfig threadId (ts_no_history (t_st task)) (td_system_prompt_addition (t_def task))))
        end
      else sret (Some (MkRunConfig threadId (ts_no_history (t_st task)) (td_system_prompt_addition (t_def task))))
  | None => sret (Some (MkRunConfig threadId (ts_no_history (t_st task)) (td_system_prompt_addition (t_def task))))
  end.

Definition run_body (now lastUserInteractionAt : Z) (j : job) : St (option RunConfig) :=
  let task := j_task j in
  do* threadId := prepare_thread now task in
  do* ids := sget (wakeup_ids task) in
  do* c := wakeup_content now task in
  if is_type (t_type task) Event && (0 <? ts_run_count (t_st task)) && (length (ew_durableClaims c) =? 0)%nat
  then do* _ := swrite (resetEventTask now task "empty re-arm") in sret None
  else deliver_wakeup now lastUserInteractionAt j threadId ids c.

(** After the settle wait: the lease is checked again before anything is
    written.  [None]: the run is over. *)
Definition begin_run (now lastUserInteractionAt : Z) (j : job) (r : replica) : replica * option RunConfig :=
  match verifyLeaseStillHeld r (t_id (j_task j)) (e_siteId env) (j_lease j) with
  | NotHeld _ _ => (r, None)
  | Held => catch_hard now lastUserInteractionAt j None (run_body now lastUserInteractionAt j) r
  end.

(** ** The second half: what the agent loop returned or threw *)
Inductive loop_outcome : Type :=
| Returned (error : option string) (resultStr : string)
| Threw (error : string).

Definition soft_failure (now lastUserInteractionAt : Z) (j : job) (error resultStr : string) : St unit :=
  do* failed := (λ r, let '(r', n) := fail_cas now (j_lease j) error
                        (λ t, [SetResult (Some resultStr); SetRunCount (ts_run_count (t_st t) + 1); SetLastRun (Some now)])
                        (t_id (j_task j)) r in (r', Ok n)) in
  match failed with
  | None => sret tt
  | Some failures =>
      do* _ := smodify (advise (j_task j) error failures) in
      rearm now lastUserInteractionAt (j_task j) "soft error" (j_lease j) failures
  end.

Definition running_lease (lease : string) (t : Task) : bool := has_status TRunning t && has_lease lease t.

Definition completion (now lastUserInteractionAt : Z) (j : job) (resultStr : string) : St unit :=
  let task := j_task j in
  do* _ := smodify (λ r,
    (updateRowIf now (running_lease (j_lease j)) (t_id task)
       [SetStatus TCompleted; SetResult (Some resultStr); SetError (Some "");
        SetRunCount (ts_run_count (t_st task) + 1); SetLastRun (Some now); SetFailures 0] r).1) in
  do* _ := smodify (rescheduleCronTask now task "completion" (Some (j_lease j))) in
  do* _ := swrite (rescheduleHeartbeat now task "completion" lastUserInteractionAt) in
  swrite (resetEventTask now task "completion").

Definition finish_body (now lastUserInteractionAt : Z) (j : job) (outcome : loop_outcome) : St unit :=
  match outcome with
  | Threw e => λ r, (r, Throw e)
  | Returned error resultStr =>
      do* held := sget (lease_matches j) in
      if negb held then sret tt
      else if truthy error then soft_failure now lastUserInteractionAt j (default "" error) resultStr
      else completion now lastUserInteractionAt j resultStr
  end.
Definition finish_run (now lastUserInteractionAt : Z) (j : job) (outcome : loop_outcome) (r : replica) : replica :=
  (catch_hard now lastUserInteractionAt j tt (finish_body now lastUserInteractionAt j outcome) r).1.

(** [onActivity] and the interval's [updateHeartbeats]. *)
Definition refresh_lease (now : Z) (id lease : string) (r : replica) : replica :=
  (updateRowIf now (has_lease lease) id [SetHeartbeat (Some now)] r).1.
Definition updateHeartbeats (now : Z) (s : scheduler) (r : replica) : replica :=
  if negb (s_running s) then r
  else foldl (λ r info, refresh_lease now info.1 info.2 r) r (map_to_list (s_runningTasks s)).

(** ** Events, user activity, polling *)
Definition event_waiting (eventType : string) (t : Task) : bool :=
  is_type (t_type t) Event && has_status TPending t && negb (t_deleted t) && seqb (td_trigger_spec (t_def t)) eventType.
Definition model_servable (task : Task) : bool :=
  match e_modelValidator env with
  | Some validate => match validate (default "" (td_model_hint (t_def task))) with Valid => true | Invalid _ _ => false end
  | None => true
  end.
Definition claim_event (now : Z) (task : Task) (r : replica) : replica :=
  if negb (dispatch_here now r task) then r
  else if negb (model_servable task) then r
  else (claim_cas now (t_id task) r).1.
Definition onEvent (now : Z) (eventType : string) (s : scheduler) (r : replica) : replica :=
  if MAX_EVENT_DEPTH <=? s_eventDepth s then r
  else each_task (claim_event now) (sql_select (event_waiting eventType) (r_tasks r)) r.

Definition onUserInteraction (now : Z) (s : scheduler) : scheduler :=
  MkScheduler (s_running s) now 0 (s_runningTasks s).

Definition getEffectivePollInterval (now : Z) (s : scheduler) (r : replica) : Z :=
  let baseInterval := default POLL_INTERVAL (e_basePollIntervalMs env) in
  if (0 <? sql_count (λ t, has_status TPending t && td_no_quiescence (t_def t)) (r_tasks r))%nat then baseInterval
  else baseInterval * computeQuiescenceMultiplier now (s_lastUserInteractionAt s).
End Scheduler.

(** ** Cancelling *)

(** The [cancel] tool with a task id; [binding] is [findTaskInfraBinding], the
    kind and label of a live webhook or connector the task backs. *)
Definition cancel_by_id (binding : string → option (string * string)) (now : Z) (id : string) (r : replica)
  : replica * string :=
  match live_task id r with
  | None => (r, "Error: Task not found: " +:+ id)
  | Some t =>
      if is_type (t_type t) Heartbeat then (r, "Error: Cannot cancel heartbeat tasks (uncancellable by design)")
      else match binding id with
           | Some (kind, label) =>
               (r, "Error: Cannot cancel task " +:+ id +:+ ": it backs " +:+ kind +:+ " '" +:+ label +:+ "' ("
                   +:+ (if seqb kind "webhook" then "delete the webhook to retire its task"
                        else "detach the connector handle to retire its task")
                   +:+ "; uncancellable while the binding is live)")
           | None =>
               match updateRow now id [SetStatus TCancelled] r with
               | Ok r' => (r', "Task cancelled: " +:+ id)
               | Throw e => (r, "Error: " +:+ e)
               end
           end
  end.

(** The [cancel] tool with a payload substring: [matches] is [payload LIKE ?]. *)
Definition payload_cancellable (matches : string → bool) (t : Task) : bool :=
  matches (default "" (td_payload (t_def t))) && bool_decide (is_Some (td_payload (t_def t)))
  && negb (is_type (t_type t) Heartbeat) && (has_status TPending t || has_status TClaimed t) && negb (t_deleted t).
Definition cancel_matching (binding : string → option (string * string)) (matches : string → bool) (now : Z) (r : replica)
  : replica :=
  each_task (λ t r, attempt r (updateRow now (t_id t) [SetStatus TCancelled] r))
    (List.filter (λ t, bool_decide (binding (t_id t) = None)) (sql_select (payload_cancellable matches) (r_tasks r))) r.

(** The web route: 404, 400, or the row cancelled. *)
Inductive http_result : Type := NotFound | BadRequest | OkCancelled.
Definition cancel_route (now : Z) (id : string) (r : replica) : replica * http_result :=
  match live_task id r with
  | None => (r, NotFound)
  | Some t =>
      if negb (has_status TPending t || has_status TRunning t || has_status TClaimed t) then (r, BadRequest)
      else (attempt r (updateRow now id [SetStatus TCancelled] r), OkCancelled)
  end.
