(* ===== verification/LifeCycle.v ===== *)
(** * The task life cycle: what each act of the scheduler may do to a row

    The abstract specification of packages/agent/src/scheduler.ts.  An edge is
    one write to one task row, with the state the row must be in before the
    write and what the write leaves; [tick_edge] are the edges of a tick,
    [run_edge] those of a run that holds its lease, and [refreshed], [claimed],
    [cancelled] the single writes of the other acts.  [reaches R] lifts a guarded
    edge to the task table: no row appears or goes, and each row moves along a
    path of edges [R] licenses for it. *)
From Stdlib Require Import Ascii QArith.
From S2P Require Import Prelude Sql Json DurableWork Cron Tasks TaskResolution EventPayload Scheduler TaskRun.
Local Open Scope bound_scope.
Local Open Scope Z_scope.

(** ** Row states *)
Definition system_type (ty : TaskType) : bool := is_type ty Heartbeat || is_type ty Consolidation.

(** What no write of the scheduler changes. *)
Definition same_binding (t t' : Task) : Prop := t_def t' = t_def t ∧ t_deleted t' = t_deleted t.
Definition same_claim (t t' : Task) : Prop :=
  ts_claimed_by (t_st t') = ts_claimed_by (t_st t) ∧ ts_claimed_at (t_st t') = ts_claimed_at (t_st t) ∧
  t_lease t' = t_lease t.
Definition no_claim (t : Task) : Prop :=
  ts_claimed_by (t_st t) = None ∧ ts_claimed_at (t_st t) = None ∧ t_lease t = None.
Lemma assign_binding sets t : same_binding t (assign sets t).
Proof.
  split; [done|]. unfold t_deleted, assign. simpl. generalize (t_st t) as s. induction sets as [|a sets IH]; intros s; [done|].
  simpl. rewrite IH. by destruct s, a.
Qed.
Definition runs (t : Task) : Z := ts_run_count (t_st t).
Definition failures (t : Task) : Z := ts_consecutive_failures (t_st t).
Definition same_runs (t t' : Task) : Prop := runs t' = runs t.
Definition same_plan (t t' : Task) : Prop := t_next t' = t_next t ∧ same_runs t t' ∧ failures t' = failures t.

(** Set back to pending: with the claim given up, or, for the rows of the
    system's own tasks, with the claim columns left as they are. *)
Definition rearmed (t t' : Task) : Prop := t_status t' = TPending ∧ no_claim t' ∧ same_runs t t'.
Definition beaten (t t' : Task) : Prop :=
  t_status t' = TPending ∧ same_claim t t' ∧ same_runs t t' ∧ failures t' = failures t.
Definition claimed_for (site : string) (now : Z) (t t' : Task) : Prop :=
  t_status t' = TClaimed ∧ ts_claimed_by (t_st t') = Some site ∧ ts_claimed_at (t_st t') = Some now ∧
  t_lease t' = t_lease t ∧ same_plan t t'.
Definition cancelled (t t' : Task) : Prop := t_status t' = TCancelled ∧ same_claim t t' ∧ same_plan t t'.

(** ** The edges of a tick *)

(** A claim or a refresh that is [age] old or older. *)
Definition older (o : option Z) (age now : Z) : Prop := ∃ v, o = Some v ∧ v < now - age.

(** The holder of a running row is unknown, silent for its offline time, or has
    left this run without a refresh for the orphan time. *)
Definition abandoned (hosts : list HostRow) (now : Z) (t : Task) : Prop :=
  ∀ h, holder_of hosts t = Some h → older (last_seen h) 600000 now ∨ older (ts_heartbeat_at (t_st t)) 1200000 now.

(** A settled row whose claim was never given up: what a crash between the end of
    a run and its rescheduling leaves.  Cancelled rows count for heartbeats only. *)
Definition left_settled (t : Task) : Prop :=
  (t_status t = TFailed ∨ t_status t = TCompleted ∨ t_status t = TCancelled) ∧
  (t_status t = TCancelled → t_type t = Heartbeat) ∧
  (t_status t = TCompleted → t_type t = Heartbeat ∨ t_type t = Event) ∧ is_Some (ts_claimed_by (t_st t)).

Inductive tick_edge (site : string) (hosts : list HostRow) (now : Z) (t t' : Task) : Prop :=
| edge_expire :
    t_status t = TClaimed → t_deleted t = false → older (ts_claimed_at (t_st t)) 300000 now →
    rearmed t t' → same_plan t t' → tick_edge site hosts now t t'
| edge_evict :
    t_status t = TRunning → t_deleted t = false → older (ts_heartbeat_at (t_st t)) 600000 now →
    abandoned hosts now t → rearmed t t' → failures t' = failures t + 1 → tick_edge site hosts now t t'
| edge_heal :
    left_settled t → t_deleted t = false → older (ts_claimed_at (t_st t)) 1200000 now →
    rearmed t t' ∨ system_type (t_type t) = true ∧ beaten t t' → tick_edge site hosts now t t'
| edge_claim :
    t_status t = TPending → t_deleted t = false → is_Some (t_next t) → claimed_for site now t t' →
    tick_edge site hosts now t t'
| edge_start :
    t_status t = TClaimed → ts_claimed_by (t_st t) = Some site → t_status t' = TRunning → is_Some (t_lease t') →
    ts_heartbeat_at (t_st t') = Some now → ts_claimed_by (t_st t') = Some site →
    ts_claimed_at (t_st t') = ts_claimed_at (t_st t) → same_plan t t' → tick_edge site hosts now t t'
| edge_defer :
    t_status t = TClaimed → ts_claimed_by (t_st t) = Some site → t_status t' = TPending →
    ts_claimed_by (t_st t') = None → ts_claimed_at (t_st t') = None → t_lease t' = t_lease t → same_plan t t' →
    tick_edge site hosts now t t'.

(** ** The edges of a run, and of a refresh of its lease *)
Inductive run_edge (j : job) (t t' : Task) : Prop :=
| edge_thread :
    t_status t = TRunning → t_status t' = TRunning → same_claim t t' → ts_heartbeat_at (t_st t') = ts_heartbeat_at (t_st t) →
    same_plan t t' → run_edge j t t'
| edge_complete :
    t_status t = TRunning → t_status t' = TCompleted → same_claim t t' → t_next t' = t_next t → failures t' = 0 →
    runs t' = runs (j_task j) + 1 → run_edge j t t'
| edge_fail :
    t_status t' = TFailed → same_claim t t' → t_next t' = t_next t → failures t' = failures t + 1 →
    runs t ≤ runs t' ≤ runs t + 1 → run_edge j t t'
| edge_rearm :
    system_type (t_type t) = false → (t_status t = TCancelled → t_type t = Cron) → rearmed t t' → run_edge j t t'
| edge_beat :
    system_type (t_type t) = true → beaten t t' → run_edge j t t'
| edge_park :
    system_type (t_type t) = false → t_status t = TFailed → t_status t' = TFailed → no_claim t' → t_next t' = None →
    same_runs t t' → run_edge j t t'.

(** A run writes its own row only, and only while the row carries its lease. *)
Definition run_row (j : job) (id : string) (t t' : Task) : Prop :=
  id = t_id (j_task j) ∧ t_lease t = Some (j_lease j) ∧ run_edge j t t'.

Definition refreshed (now : Z) (lease : string) (t t' : Task) : Prop :=
  t_lease t = Some lease ∧ t_status t' = t_status t ∧ same_claim t t' ∧ ts_heartbeat_at (t_st t') = Some now ∧
  same_plan t t'.

(** ** Guarded edges over the table *)
Definition guarded : Type := string → Task → Task → Prop.
Definition edge (R : guarded) (id : string) (t t' : Task) : Prop := same_binding t t' ∧ R id t t'.

(** [r'] is reached from [r] by edges, row by row: no row appears or goes. *)
Definition row_paths (R : guarded) (r r' : replica) : Prop :=
  ∀ j, match task_at j r with
       | Some t => ∃ t', task_at j r' = Some t' ∧ rtc (edge R j) t t'
       | None => task_at j r' = None
       end.
Definition reaches (R : guarded) (r r' : replica) : Prop :=
  row_paths R r r' ∧ t_id <$> r_tasks r' = t_id <$> r_tasks r.
#[export] Instance reaches_preorder R : PreOrder (reaches R).
Proof.
  split.
  - intros r. split; [|done]. intros j. destruct (task_at j r); [|done]. eexists. split; [done|]. reflexivity.
  - intros r1 r2 r3 [H1 E1] [H2 E2]. split; [|congruence]. intros j. specialize (H1 j). specialize (H2 j).
    destruct (task_at j r1) as [t|]; [|by rewrite H1 in H2].
    destruct H1 as (t' & Ht' & Hp). rewrite Ht' in H2. destruct H2 as (t'' & ? & ?).
    exists t''. split; [done|]. by etrans.
Qed.

Lemma reaches_mono (R R' : guarded) r r' :
  (∀ id t t', R id t t' → R' id t t') → reaches R r r' → reaches R' r r'.
Proof.
  intros HR [Hp Hids]. split; [|done]. intros j. specialize (Hp j). destruct (task_at j r) as [t|]; [|done].
  destruct Hp as (t' & Ht' & Hp). exists t'. split; [done|]. clear Ht'.
  induction Hp as [|t1 t2 t3 [Hs He] _ IH]; [reflexivity|]. eapply rtc_l; [|exact IH]. split; auto.
Qed.

Section Reaches.
Context {R : guarded}.

Lemma reaches_tasks r r' : r_tasks r' = r_tasks r → reaches R r r'.
Proof.
  intros H. split; [|by rewrite H]. intros j. unfold task_at. rewrite H. destruct (row_at t_id j (r_tasks r)); [|done].
  eexists. split; [done|]. reflexivity.
Qed.

Lemma reaches_wf r r' : reaches R r r' → tasks_wf r → tasks_wf r'.
Proof. unfold tasks_wf, keys_unique. by intros [_ ->]. Qed.
Lemma reaches_row r r' j t : reaches R r r' → task_at j r = Some t → ∃ t', task_at j r' = Some t' ∧ rtc (edge R j) t t'.
Proof. intros [H _] Ht. specialize (H j). by rewrite Ht in H. Qed.
Lemma reaches_none r r' j : reaches R r r' → task_at j r = None → task_at j r' = None.
Proof. intros [H _] Ht. specialize (H j). by rewrite Ht in H. Qed.

Lemma reaches_set p sets id r :
  (∀ t, task_at id r = Some t → p t = true → edge R id t (assign sets t)) → reaches R r (set_where p sets id r).
Proof.
  intros H. split; [|by apply update_fmap].
  intros j. rewrite set_where_at. destruct (task_at j r) as [t|] eqn:E; [|done]. simpl.
  eexists. split; [done|]. destruct (seqb j id) eqn:Hj; simpl; [|reflexivity].
  destruct (p t) eqn:Hp; [|reflexivity]. apply seqb_true in Hj as ->. apply rtc_once. auto.
Qed.
Lemma reaches_cas p sets id r :
  (∀ t, task_at id r = Some t → p t = true → edge R id t (assign sets t)) → reaches R r (update_cas p sets id r).1.
Proof.
  intros H. unfold update_cas. destruct (task_at id r) as [t|] eqn:E; [destruct (p t)|]; simpl; [|reflexivity..].
  apply reaches_set. by rewrite E.
Qed.
Lemma reaches_update now id sets r r' :
  (∀ t, task_at id r = Some t → edge R id t (assign (sets ++ [SetModified now]) t)) →
  updateRow now id sets r = Ok r' → reaches R r r'.
Proof.
  intros H. unfold updateRow. destruct (task_at id r) as [t|] eqn:E; [|done]. intros [= <-].
  apply reaches_set. rewrite E. auto.
Qed.
Lemma reaches_attempt now id sets r :
  (∀ t, task_at id r = Some t → edge R id t (assign (sets ++ [SetModified now]) t)) →
  reaches R r (attempt r (updateRow now id sets r)).
Proof.
  intros H. destruct (updateRow now id sets r) as [r'|] eqn:E; simpl; [by eapply reaches_update|reflexivity].
Qed.

Lemma edges_binding j t t' : rtc (edge R j) t t' → same_binding t t'.
Proof. induction 1 as [t|t1 t2 t3 [[? ?] _] _ [? ?]]; [done|]. split; congruence. Qed.
End Reaches.

(** ** Frames: a helper called for one task writes that task's row only *)
Definition frame (id : string) (r r' : replica) : Prop := ∀ j, j ≠ id → task_at j r' = task_at j r.
#[export] Instance frame_preorder id : PreOrder (frame id).
Proof. split; [by intros r j|]. intros r1 r2 r3 H1 H2 j Hj. by rewrite H2, H1. Qed.
Lemma frame_tasks id r r' : r_tasks r' = r_tasks r → frame id r r'.
Proof. intros H j _. unfold task_at. by rewrite H. Qed.
Lemma frame_set p sets id r : frame id r (set_where p sets id r).
Proof.
  intros j Hj. rewrite set_where_at. destruct (task_at j r); [|done]. simpl.
  by apply seqb_false in Hj as ->.
Qed.
Lemma frame_update now id sets r r' : updateRow now id sets r = Ok r' → frame id r r'.
Proof. unfold updateRow. case_match; [|done]. intros [= <-]. apply frame_set. Qed.
Lemma frame_cas p sets id r : frame id r (update_cas p sets id r).1.
Proof. unfold update_cas. repeat case_match; simpl; try done; apply frame_set. Qed.
Lemma frame_attempt id r w : (∀ r', w = Ok r' → frame id r r') → frame id r (attempt r w).
Proof. intros H. destruct w; simpl; [by apply H|done]. Qed.
Lemma frame_attempt_update now id sets r : frame id r (attempt r (updateRow now id sets r)).
Proof. apply frame_attempt. intros r'. apply frame_update. Qed.

(** The row a helper works on still has the definition the caller holds. *)
Definition bound_to (task : Task) (r : replica) : Prop :=
  ∀ t, task_at (t_id task) r = Some t → t_def t = t_def task.

Lemma bound_reaches R task r r' : reaches R r r' → bound_to task r → bound_to task r'.
Proof.
  intros Hr Hb t' Ht'. destruct (task_at (t_id task) r) as [t|] eqn:E.
  2: { pose proof (reaches_none _ _ _ Hr E). congruence. }
  destruct (reaches_row _ _ _ _ Hr E) as (t2 & Ht2 & [Hd _]%edges_binding). rewrite Ht2 in Ht'. injection Ht' as ->.
  rewrite Hd. by apply Hb.
Qed.

Lemma bound_self task r : task_at (t_id task) r = Some task → bound_to task r.
Proof. intros H t Ht. congruence. Qed.

Lemma row_bound r t : tasks_wf r → t ∈ r_tasks r → task_at (t_id t) r = Some t.
Proof. intros Hk Ht. by apply row_at_elem. Qed.

(** A loop over distinct rows of the table: each is still what was read when its
    turn comes. *)
Definition rows_here (ts : list Task) (r : replica) : Prop := ∀ t, t ∈ ts → task_at (t_id t) r = Some t.

Lemma rows_here_next t ts r r' :
  NoDup (t_id <$> t :: ts) → rows_here (t :: ts) r → frame (t_id t) r r' → rows_here ts r'.
Proof.
  rewrite fmap_cons. intros [Ht _]%NoDup_cons Hat Hf t' Ht'. rewrite (Hf (t_id t')); [apply Hat; set_solver|].
  intros Heq. apply Ht. rewrite <-Heq. by apply list_elem_of_fmap_2.
Qed.

Lemma each_task_reaches R f ts r :
  NoDup (t_id <$> ts) → rows_here ts r → (∀ t r, t ∈ ts → frame (t_id t) r (f t r)) →
  (∀ t r, t ∈ ts → task_at (t_id t) r = Some t → reaches R r (f t r)) → reaches R r (each_task f ts r).
Proof.
  revert r. induction ts as [|t ts IH]; intros r Hnd Hat Hf Hstep; [reflexivity|]. simpl.
  etrans; [apply (Hstep t); [set_solver|apply Hat; set_solver]|]. apply IH; [| |set_solver|set_solver].
  - rewrite fmap_cons in Hnd. by apply NoDup_cons in Hnd as [_ ?].
  - eapply rows_here_next; [exact Hnd|exact Hat|]. apply Hf. set_solver.
Qed.

Lemma NoDup_take {A} (l : list A) n : NoDup l → NoDup (take n l).
Proof. intros H. rewrite <-(take_drop n l) in H. by apply NoDup_app in H as (? & _). Qed.

Lemma select_tasks p r : tasks_wf r →
  NoDup (t_id <$> sql_select p (r_tasks r)) ∧ rows_here (sql_select p (r_tasks r)) r ∧
  ∀ t, t ∈ sql_select p (r_tasks r) → p t = true.
Proof.
  intros Hk. split; [by apply NoDup_fmap_filter|]. split; [|by intros t [_ ?]%elem_of_select].
  intros t [Ht _]%elem_of_select. by apply row_bound.
Qed.

(** An [ORDER BY ... LIMIT] selection of tasks. *)
Lemma taken_tasks n key p r : tasks_wf r →
  let ts := take n (order_by key (sql_select p (r_tasks r))) in
  NoDup (t_id <$> ts) ∧ rows_here ts r ∧ ∀ t, t ∈ ts → p t = true.
Proof.
  intros Hk. destruct (select_tasks p r Hk) as (Hnd & Hat & Hp). simpl. split.
  { rewrite fmap_take. apply NoDup_take. by rewrite order_by_perm. }
  assert (∀ t, t ∈ take n (order_by key (sql_select p (r_tasks r))) → t ∈ sql_select p (r_tasks r)) as Hin.
  { intros t (i & Hi & _)%elem_of_take. by apply list_elem_of_lookup_2, elem_of_order_by in Hi. }
  split; [intros t Ht|intros t Ht]; auto.
Qed.
