(* ===== verification/SchedulerProps.v ===== *)
(** * Properties of the scheduler

    Every act of the scheduler refines the task life cycle of LifeCycle.v: it
    moves each task row along edges licensed for that act, whose guards the row
    meets when it is written.  The well-formedness of rows is preserved by every
    licensed edge, hence by every act.  Then the transition system of a host and
    its two main theorems. *)
From Stdlib Require Import Ascii QArith.
From S2P Require Import Prelude Sql Json DurableWork Cron Tasks TaskResolution EventPayload Scheduler TaskRun LifeCycle.
Local Open Scope bound_scope.
Local Open Scope Z_scope.

(** An edge given by a list of assignments: the row is taken apart, and what the
    edge asks of it computed. *)
Ltac open_rows :=
  unfold has_status, has_lease, is_type, rearmed, beaten, claimed_for, cancelled, refreshed, same_binding, same_claim,
    no_claim, same_plan, same_runs, runs, failures, t_status, t_lease, t_next, t_deleted in *;
  cbn in *; bool_props; simplify_eq.
Ltac by_row := open_rows; split_and?; try done; eauto; try lia.

Lemma is_type_eq ty ty' : is_type ty ty' = true ↔ ty = ty'.
Proof. apply bool_decide_eq_true. Qed.
Lemma system_type_spec ty : system_type ty = true ↔ ty = Heartbeat ∨ ty = Consolidation.
Proof. unfold system_type. by rewrite orb_true_iff, !is_type_eq. Qed.
Lemma bound_type task r t : bound_to task r → task_at (t_id task) r = Some t → t_type t = t_type task.
Proof. intros Hb Ht. unfold t_type. by rewrite (Hb t Ht). Qed.
Lemma before_older o age now : before o (now - age) = true → older o age now.
Proof. unfold before, older. destruct o as [v|]; [|done]. intros ?%Z.ltb_lt. by exists v. Qed.

(** ** The helpers

    Each lemma says which row a helper may write and how; what it means for the
    life cycle is the caller's. *)
Section Helpers.
Context {R : guarded}.

Lemma reschedule_cron_reaches now task context lease r :
  (∀ t t', task_at (t_id task) r = Some t → t_type task = Cron → (∀ l, lease = Some l → t_lease t = Some l) →
           same_binding t t' → rearmed t t' → R (t_id task) t t') →
  reaches R r (rescheduleCronTask now task context lease r).
Proof.
  intros HR. unfold rescheduleCronTask. destruct (negb (is_type _ _)) eqn:Hg; [reflexivity|].
  apply negb_false_iff, is_type_eq in Hg. destruct (negb _); [reflexivity|]. cbn [orb].
  case_match; [|reflexivity].
  assert (∀ t, (∀ l, lease = Some l → t_lease t = Some l) → task_at (t_id task) r = Some t →
    edge R (t_id task) t (assign ((SetNextRun (Some a) :: SetStatus TPending :: release_claim
      ++ (if seqb context "completion" then [SetError (Some "")] else [])) ++ [SetModified now]) t)) as He.
  { intros t Hl Ht. split; [apply assign_binding|]. apply HR; [done..| |].
    - apply assign_binding.
    - destruct (seqb context "completion"); destruct t as [? []]; by_row. }
  destruct lease as [l|]; [apply reaches_cas; intros t Ht Hl|apply reaches_attempt; intros t Ht]; apply He; try done.
  intros ? [= <-]. unfold has_lease in Hl. by bool_props.
Qed.
Lemma reschedule_cron_frame now task context lease r : frame (t_id task) r (rescheduleCronTask now task context lease r).
Proof.
  unfold rescheduleCronTask. case_match; [done|]. case_match; [|done].
  destruct lease; [apply frame_cas|apply frame_attempt_update].
Qed.
Lemma reschedule_cron_other now task context lease r :
  t_type task ≠ Cron → rescheduleCronTask now task context lease r = r.
Proof. intros H. unfold rescheduleCronTask. destruct (is_type _ _) eqn:E; [by apply is_type_eq in E|done]. Qed.

Lemma retry_reaches now task n backoff r :
  (∀ t t', task_at (t_id task) r = Some t → t_type task = Deferred → same_binding t t' → rearmed t t' → R (t_id task) t t') →
  reaches R r (retryDeferredTask now task n backoff r).1.
Proof.
  intros HR. unfold retryDeferredTask. destruct (negb _) eqn:Hg; [reflexivity|]. case_match; [reflexivity|].
  apply negb_false_iff, is_type_eq in Hg.
  destruct (updateRow _ _ _ r) as [r'|] eqn:E; [|reflexivity]. eapply reaches_update, E.
  intros t Ht. split; [apply assign_binding|]. apply HR; [done..|apply assign_binding|]. destruct t as [? []]; by_row.
Qed.
Lemma retry_frame now task n backoff r : frame (t_id task) r (retryDeferredTask now task n backoff r).1.
Proof.
  unfold retryDeferredTask. repeat case_match; try done. simpl. by eapply frame_update.
Qed.
Lemma retry_other now task n backoff r : t_type task ≠ Deferred → retryDeferredTask now task n backoff r = (r, false).
Proof. intros H. unfold retryDeferredTask. destruct (is_type _ _) eqn:E; [by apply is_type_eq in E|done]. Qed.

Lemma reset_reaches now task context r r' :
  (∀ t t', task_at (t_id task) r = Some t → t_type task = Event → t_status t ≠ TCancelled → same_binding t t' →
           rearmed t t' → R (t_id task) t t') →
  resetEventTask now task context r = Ok r' → reaches R r r'.
Proof.
  intros HR. unfold resetEventTask. destruct (negb _) eqn:Hg; [by intros [= ->]|].
  apply negb_false_iff, is_type_eq in Hg.
  destruct (task_at _ r) as [cur|] eqn:Hcur; [|by intros [= ->]].
  destruct (_ || _) eqn:Hc; [by intros [= ->]|]. apply reaches_update.
  intros t Ht. assert (t = cur) as -> by congruence. split; [apply assign_binding|].
  apply HR; [done..| |apply assign_binding|]; [unfold has_status in Hc; by bool_props|].
  destruct cur as [? []]; by_row.
Qed.
Lemma reset_frame now task context r r' : resetEventTask now task context r = Ok r' → frame (t_id task) r r'.
Proof.
  unfold resetEventTask. case_match; [by intros [= ->]|]. case_match; [|by intros [= ->]].
  case_match; [by intros [= ->]|]. apply frame_update.
Qed.
Lemma reset_other now task context r : t_type task ≠ Event → resetEventTask now task context r = Ok r.
Proof. intros H. unfold resetEventTask. destruct (is_type _ _) eqn:E; [by apply is_type_eq in E|done]. Qed.

Lemma heartbeat_reaches now task context last r r' :
  (∀ t t', task_at (t_id task) r = Some t → system_type (t_type task) = true → same_binding t t' → beaten t t' →
           R (t_id task) t t') →
  rescheduleHeartbeat now task context last r = Ok r' → reaches R r r'.
Proof.
  intros HR. unfold rescheduleHeartbeat. destruct (_ && _) eqn:Hg; [by intros [= ->]|].
  rewrite <-negb_orb in Hg. apply negb_false_iff in Hg.
  destruct (json_parse _) as [v|]; [|by intros [= ->]].
  assert (∀ upd next, updateRow now (t_id task) (SetNextRun next :: SetStatus TPending
            :: (if seqb context "completion" then [SetError (Some "")] else [])) r = Ok upd → reaches R r upd) as Hw.
  { intros upd next. apply reaches_update. intros t Ht. split; [apply assign_binding|].
    apply HR; [done..|apply assign_binding|].
    destruct (seqb context "completion"); destruct t as [? []]; by_row. }
  destruct v; (try done); (destruct (negb (interval_valid _)); [by intros [= ->]|]);
    intros (? & _ & Hu)%result_bind_ok; by eapply Hw.
Qed.
Lemma heartbeat_frame now task context last r r' :
  rescheduleHeartbeat now task context last r = Ok r' → frame (t_id task) r r'.
Proof.
  unfold rescheduleHeartbeat. case_match; [by intros [= ->]|]. case_match; [|by intros [= ->]].
  case_match; try done; (destruct (negb (interval_valid _)); [by intros [= ->]|]);
    intros (? & _ & Hu)%result_bind_ok; by eapply frame_update.
Qed.
Lemma heartbeat_other now task context last r :
  system_type (t_type task) = false → rescheduleHeartbeat now task context last r = Ok r.
Proof. unfold system_type, rescheduleHeartbeat. rewrite <-negb_orb. by intros ->. Qed.

Lemma advisory_reaches uuid task e n r : reaches R r (triggerFailureAdvisory uuid task e n r).
Proof. apply reaches_tasks. unfold triggerFailureAdvisory. by case_match. Qed.
Lemma advise_reaches env t e n r : reaches R r (advise env t e n r).
Proof. unfold advise. case_match; [apply advisory_reaches|reflexivity]. Qed.
Lemma with_durable_reaches r d : reaches R r (with_durable d r).
Proof. by apply reaches_tasks. Qed.
Lemma insert_message_reaches m r r' : insert_message m r = Ok r' → reaches R r r'.
Proof. unfold insert_message. case_match; [done|]. intros [= <-]. by apply reaches_tasks. Qed.
Lemma insert_thread_reaches th r r' : insert_thread th r = Ok r' → reaches R r r'.
Proof. unfold insert_thread. case_match; [done|]. intros [= <-]. by apply reaches_tasks. Qed.

(** The compare-and-set that wins is the only write. *)
Lemma claim_reaches env at_ id r :
  (∀ t t', task_at id r = Some t → t_status t = TPending → claimed_for (e_siteId env) at_ t t' → R id t t') →
  reaches R r (claim_cas env at_ id r).1.
Proof.
  intros HR. apply reaches_cas. intros t Ht Hp. split; [apply assign_binding|].
  apply HR; [done|unfold has_status in Hp; by bool_props|]. destruct t as [? []]; by_row.
Qed.
Lemma cancel_reaches now id r r' :
  (∀ t t', task_at id r = Some t → cancelled t t' → R id t t') → updateRow now id [SetStatus TCancelled] r = Ok r' →
  reaches R r r'.
Proof.
  intros HR. apply reaches_update. intros t Ht. split; [apply assign_binding|]. apply HR; [done|]. destruct t as [? []]; by_row.
Qed.
Lemma refresh_reaches now id lease r :
  (∀ t t', task_at id r = Some t → refreshed now lease t t' → R id t t') → reaches R r (refresh_lease now id lease r).
Proof.
  intros HR. apply reaches_cas. intros t Ht Hl. split; [apply assign_binding|]. apply HR; [done|]. destruct t as [? []]; by_row.
Qed.
End Helpers.

(** ** Phase 0 *)
Section Phase0.
Context (site : string) (hosts : list HostRow) (now : Z).
Notation tick_row := (λ _, tick_edge site hosts now).

Lemma expire_reaches t r :
  task_at (t_id t) r = Some t → stale_claimed (now - LEASE_DURATION) t = true → reaches tick_row r (expire_one now t r).
Proof.
  intros Ht Hst. apply reaches_attempt. intros t' Ht'. assert (t' = t) as -> by congruence. split; [apply assign_binding|].
  unfold stale_claimed in Hst. bool_props. apply edge_expire; [by open_rows|done|by apply before_older| |];
    destruct t as [? []]; by_row.
Qed.
Lemma each_expire_hosts ts r : r_hosts (each_task (expire_one now) ts r) = r_hosts r.
Proof.
  revert r. induction ts as [|t ts IH]; intros r; [done|]. simpl. rewrite IH. unfold expire_one, attempt, updateRow.
  by destruct (task_at (t_id t) r).
Qed.

Lemma evictable_spec t :
  evictable hosts (now - EVICTION_TIMEOUT) (now - HOST_OFFLINE_TIMEOUT) (now - ORPHAN_HEARTBEAT_TIMEOUT) t = true →
  t_status t = TRunning ∧ t_deleted t = false ∧ older (ts_heartbeat_at (t_st t)) 600000 now ∧ abandoned hosts now t.
Proof.
  unfold evictable, abandoned. intros [[[Hs Hd]%andb_prop Hb]%andb_prop Hh]%andb_prop.
  split; [unfold has_status in Hs; by bool_props|]. split; [by bool_props|]. split; [by apply before_older|].
  intros h Hhold. rewrite Hhold in Hh. apply orb_prop in Hh as [Hh|Hh]; [left|right]; by apply before_older.
Qed.

(** The compare-and-set on the running status decides, not the row read. *)
Lemma evict_not_running uuid last task r t :
  task_at (t_id task) r = Some t → t_status t ≠ TRunning → evict_one uuid now last task r = r.
Proof.
  intros Ht Hs. unfold evict_one, updateRowIf, update_cas. case_match; [|done]. rewrite Ht.
  replace (has_status TRunning t) with false; [done|]. symmetry. by apply bool_decide_eq_false.
Qed.
Lemma evict_reaches uuid last t r :
  task_at (t_id t) r = Some t →
  evictable hosts (now - EVICTION_TIMEOUT) (now - HOST_OFFLINE_TIMEOUT) (now - ORPHAN_HEARTBEAT_TIMEOUT) t = true →
  reaches tick_row r (evict_one uuid now last t r).
Proof.
  intros Ht (Hs & Hd & Hh & Ha)%evictable_spec. unfold evict_one. case_match; [|reflexivity].
  assert (reaches tick_row r (updateRowIf now (has_status TRunning) (t_id t)
          (SetStatus TPending :: SetError (Some eviction_error) :: SetFailures (ts_consecutive_failures (t_st t) + 1)
           :: SetNextRun a :: release_claim) r).1) as Hw.
  { apply reaches_cas. intros t' Ht' _. assert (t' = t) as -> by congruence. split; [apply assign_binding|].
    apply edge_evict; [done..| |]; destruct t as [? []]; by_row. }
  destruct (updateRowIf _ _ _ _ r) as [r' b]. simpl in Hw.
  case_match; [|done]. etrans; [exact Hw|]. apply advisory_reaches.
Qed.
Lemma evict_frame uuid last t r : frame (t_id t) r (evict_one uuid now last t r).
Proof.
  unfold evict_one. case_match; [|done].
  pose proof (frame_cas (has_status TRunning) ((SetStatus TPending :: SetError (Some eviction_error)
    :: SetFailures (ts_consecutive_failures (t_st t) + 1) :: SetNextRun a :: release_claim) ++ [SetModified now]) (t_id t) r) as Hw.
  unfold updateRowIf. destruct (update_cas _ _ _ r) as [r' b]. simpl in Hw.
  case_match; [|done]. etrans; [exact Hw|]. apply frame_tasks. unfold triggerFailureAdvisory. by case_match.
Qed.

Lemma stuck_spec t :
  stuck (now - STUCK_THRESHOLD) t = true → left_settled t ∧ t_deleted t = false ∧ older (ts_claimed_at (t_st t)) 1200000 now.
Proof.
  unfold stuck, left_settled. intros [[[Hd Hc]%andb_prop Hb]%andb_prop Hh]%andb_prop.
  assert (is_Some (ts_claimed_by (t_st t))) as Hcl by by_row. split_and!; [..|by bool_props|by apply before_older]; try done;
    destruct (t_type t) eqn:Hty; try done; unfold has_status in Hh; destruct (t_status t) eqn:Hs; try done;
    try (by cbn in Hh); eauto; try (by intros; bool_props).
Qed.

Lemma heal_one_frame last t r : frame (t_id t) r (heal_one now last t r).1.
Proof.
  unfold heal_one. destruct (t_type t); simpl.
  - apply reschedule_cron_frame.
  - apply retry_frame.
  - destruct (resetEventTask _ _ _ _) eqn:E; [by eapply reset_frame|done].
  - destruct (rescheduleHeartbeat _ _ _ _ _) eqn:E; [by eapply heartbeat_frame|done].
  - destruct (rescheduleHeartbeat _ _ _ _ _) eqn:E; [by eapply heartbeat_frame|done].
  - done.
Qed.
Lemma heal_one_reaches last t r :
  task_at (t_id t) r = Some t → stuck (now - STUCK_THRESHOLD) t = true → reaches tick_row r (heal_one now last t r).1.
Proof.
  intros Ht (Hl & Hd & Ho)%stuck_spec.
  assert (∀ u t', task_at (t_id t) r = Some u → rearmed u t' ∨ system_type (t_type t) = true ∧ beaten u t' →
    tick_edge site hosts now u t') as He.
  { intros u t' Hu Hw. assert (u = t) as -> by congruence. by apply edge_heal. }
  unfold heal_one. destruct (t_type t) eqn:Hty; simpl.
  - apply reschedule_cron_reaches. eauto.
  - apply retry_reaches. eauto.
  - destruct (resetEventTask _ _ _ _) eqn:E; [|reflexivity]. eapply reset_reaches, E. eauto.
  - destruct (rescheduleHeartbeat _ _ _ _ _) eqn:E; [|reflexivity]. eapply heartbeat_reaches, E. rewrite Hty. eauto.
  - destruct (rescheduleHeartbeat _ _ _ _ _) eqn:E; [|reflexivity]. eapply heartbeat_reaches, E. rewrite Hty. eauto.
  - reflexivity.
Qed.
Lemma heal_each_fst last ts r : (heal_each now last ts r).1 = each_task (λ t r, (heal_one now last t r).1) ts r.
Proof.
  revert r. induction ts as [|t ts IH]; intros r; [done|]. simpl.
  rewrite <-IH. destruct (heal_one now last t r) as [r' n]. simpl. by destruct (heal_each now last ts r').
Qed.
Lemma heal_reaches last r : tasks_wf r → reaches tick_row r (healStuckTasks now last r).1.
Proof.
  intros Hk. unfold healStuckTasks. rewrite heal_each_fst.
  destruct (select_tasks (stuck (now - STUCK_THRESHOLD)) r Hk) as (Hnd & Hat & Hp).
  apply each_task_reaches; [done..|intros; apply heal_one_frame|]. intros t r' Hin Ht. auto using heal_one_reaches.
Qed.
End Phase0.

Lemma expiry_reaches site hosts now r : tasks_wf r →
  reaches (λ _, tick_edge site hosts now) r
    (each_task (expire_one now) (sql_select (stale_claimed (now - LEASE_DURATION)) (r_tasks r)) r).
Proof.
  intros Hk. destruct (select_tasks (stale_claimed (now - LEASE_DURATION)) r Hk) as (Hnd & Hat & Hp).
  apply each_task_reaches; [done..|intros; apply frame_attempt_update|]. intros t r' Hin Ht. auto using expire_reaches.
Qed.

Lemma evictions_reach site hosts uuid now last r :
  let p := evictable hosts (now - EVICTION_TIMEOUT) (now - HOST_OFFLINE_TIMEOUT) (now - ORPHAN_HEARTBEAT_TIMEOUT) in
  tasks_wf r →
  reaches (λ _, tick_edge site hosts now) r (each_task (evict_one uuid now last) (sql_select p (r_tasks r)) r).
Proof.
  intros p Hk. destruct (select_tasks p r Hk) as (Hnd & Hat & Hp).
  apply each_task_reaches; [done..|intros; apply evict_frame|].
  intros t r' Hin Ht. apply evict_reaches; [done|]. by apply Hp.
Qed.

Lemma phase0_reaches site uuid now last r :
  tasks_wf r → reaches (λ _, tick_edge site (r_hosts r) now) r (phase0Eviction uuid now last r).
Proof.
  intros Hk. unfold phase0Eviction. pose proof (expiry_reaches site (r_hosts r) now r Hk) as H1.
  pose proof (each_expire_hosts now (sql_select (stale_claimed (now - LEASE_DURATION)) (r_tasks r)) r) as Hh.
  set (r1 := each_task (expire_one now) _ r) in *. rewrite Hh. pose proof (reaches_wf _ _ H1 Hk) as Hk1.
  pose proof (evictions_reach site (r_hosts r) uuid now last r1 Hk1) as H2. cbv zeta in H2.
  etrans; [exact H1|]. etrans; [exact H2|]. apply heal_reaches. by eapply reaches_wf.
Qed.

(** ** Claims and runs *)
Section Runs.
Context (env : SchedulerEnv) (hosts : list HostRow) (now : Z).
Notation tick_row := (λ _, tick_edge (e_siteId env) hosts now).

(** The compare-and-set on the claim decides, not the row read. *)
Lemma run_unclaimed task r t :
  task_at (t_id task) r = Some t → t_status t ≠ TClaimed ∨ ts_claimed_by (t_st t) ≠ Some (e_siteId env) →
  runTask env now task r = (r, None).
Proof.
  intros Ht Hs. unfold runTask, run_cas, update_cas. rewrite Ht.
  replace (claimed_by_us env t) with false; [done|]. symmetry. unfold claimed_by_us, has_status.
  apply andb_false_iff. by destruct Hs as [?|?]; [left|right]; apply bool_decide_eq_false.
Qed.
Lemma claimed_by_us_spec t :
  claimed_by_us env t = true ↔ t_status t = TClaimed ∧ ts_claimed_by (t_st t) = Some (e_siteId env).
Proof. unfold claimed_by_us, has_status. by rewrite andb_true_iff, !bool_decide_eq_true. Qed.

Lemma runTask_reaches t r : reaches tick_row r (runTask env now t r).1.
Proof.
  unfold runTask, run_cas.
  assert (reaches tick_row r (update_cas (claimed_by_us env) [SetStatus TRunning; SetLease (Some (e_uuid env r));
    SetHeartbeat (Some now)] (t_id t) r).1) as Hr.
  { apply reaches_cas. intros t' _ [Hs Hc]%claimed_by_us_spec. split; [apply assign_binding|].
    apply edge_start; [done..| | | | | |]; destruct t' as [? []]; by_row. }
  by destruct (update_cas _ _ _ r).
Qed.
Lemma runTask_frame t r : frame (t_id t) r (runTask env now t r).1.
Proof.
  unfold runTask, run_cas.
  pose proof (frame_cas (claimed_by_us env) [SetStatus TRunning; SetLease (Some (e_uuid env r)); SetHeartbeat (Some now)] (t_id t) r).
  by destruct (update_cas _ _ _ r).
Qed.

Lemma release_budget_reaches id t r :
  task_at id r = Some t → claimed_by_us env t = true → reaches tick_row r (attempt r (release_over_budget now id r)).
Proof.
  intros Ht [Hs Hc]%claimed_by_us_spec. apply reaches_attempt. intros t' Ht'. assert (t' = t) as -> by congruence.
  split; [apply assign_binding|]. apply edge_defer; [done..| | | | |]; destruct t as [? []]; by_row.
Qed.

(** ** The tick *)
Lemma enqueue_reaches R t r r' b : enqueueTaskFire env now t r = Ok (r', b) → reaches R r r'.
Proof.
  unfold enqueueTaskFire. case_match; [|by intros [= -> _]].
  intros ([[? ?] ?] & _ & [= <- _])%result_bind_ok. apply with_durable_reaches.
Qed.

Lemma claim_tick t r :
  task_at (t_id t) r = Some t → t_deleted t = false → is_Some (t_next t) →
  reaches tick_row r (claim_cas env now (t_id t) r).1.
Proof.
  intros Ht Hd Hn. apply claim_reaches. intros u t' Hu Hs Hc. assert (u = t) as -> by congruence. by apply edge_claim.
Qed.
Lemma schedule_one_reaches t r :
  task_at (t_id t) r = Some t → due_pending now t = true → reaches tick_row r (schedule_one env now t r).1.
Proof.
  intros Ht Hdue. unfold due_pending in Hdue. apply andb_prop in Hdue as [[Hs Hd]%andb_prop Hn].
  assert (is_Some (t_next t)) as Hnext by (by destruct (t_next t)). apply negb_true_iff in Hd. clear Hn.
  unfold schedule_one, sbind, sget. simpl. destruct (negb _); [reflexivity|].
  destruct (e_mode env); simpl; [by apply claim_tick..|].
  unfold swrite. destruct (enqueueTaskFire env now t r) as [[r' b]|] eqn:E; simpl; [by eapply enqueue_reaches|reflexivity].
Qed.
Lemma schedule_one_frame t r : frame (t_id t) r (schedule_one env now t r).1.
Proof.
  unfold schedule_one, sbind, sget. simpl. destruct (negb _); [reflexivity|].
  destruct (e_mode env); simpl; [apply frame_cas..|].
  unfold swrite. destruct (enqueueTaskFire env now t r) as [[r' b]|] eqn:E; simpl; [|done].
  unfold enqueueTaskFire in E. destruct (t_next t); [|by injection E as -> _].
  apply result_bind_ok in E as ([[? ?] ?] & _ & [= <- _]). by apply frame_tasks.
Qed.
Lemma for_tasks_reaches R f ts r :
  NoDup (t_id <$> ts) → rows_here ts r → (∀ t r, t ∈ ts → frame (t_id t) r (f t r).1) →
  (∀ t r, t ∈ ts → task_at (t_id t) r = Some t → reaches R r (f t r).1) → reaches R r (for_tasks f ts r).1.
Proof.
  revert r. induction ts as [|t ts IH]; intros r Hnd Hat Hf Hstep; [reflexivity|]. cbn [for_tasks]. unfold sbind.
  assert (reaches R r (f t r).1) as H1 by (apply Hstep; [|apply Hat]; set_solver).
  assert (rows_here ts (f t r).1) as Hat' by (eapply rows_here_next; [exact Hnd|exact Hat|apply Hf; set_solver]).
  rewrite fmap_cons in Hnd. apply NoDup_cons in Hnd as [_ Hnd].
  destruct (f t r) as [r' [[]|e]]; simpl in *; [|done]. etrans; [exact H1|]. apply IH; [done..|set_solver|set_solver].
Qed.
Lemma phase1_reaches r : tasks_wf r → reaches tick_row r (phase1Schedule env now r).1.
Proof.
  intros Hk. unfold phase1Schedule, sbind, sget, due_tasks.
  destruct (taken_tasks 100 (λ t, default 0 (t_next t)) (due_pending now) r Hk) as (Hnd & Hat & Hp).
  apply for_tasks_reaches; [done..|intros; apply schedule_one_frame|]. intros t r' Hin Ht. auto using schedule_one_reaches.
Qed.

Lemma run_each_reaches ts r :
  NoDup (t_id <$> ts) → rows_here ts r → (∀ t, t ∈ ts → claimed_by_us env t = true) →
  reaches tick_row r (run_each env now ts r).1.
Proof.
  revert r. induction ts as [|t ts IH]; intros r Hnd Hat Hp; [reflexivity|]. cbn [run_each].
  pose proof (λ r', rows_here_next t ts r r' Hnd Hat) as Hnext.
  rewrite fmap_cons in Hnd. apply NoDup_cons in Hnd as [_ Hnd].
  assert (∀ t', t' ∈ ts → claimed_by_us env t' = true) as Hp' by (intros; apply Hp; set_solver).
  destruct (shouldSkipDueToBudget _ _ _ _).
  - etrans; [apply (release_budget_reaches (t_id t) t); [apply Hat|apply Hp]; set_solver|].
    apply IH; [done| |done]. apply Hnext, frame_attempt_update.
  - pose proof (runTask_reaches t r) as H1. pose proof (runTask_frame t r) as Hf.
    destruct (runTask env now t r) as [r1 j]. simpl in *.
    specialize (IH r1 Hnd (Hnext r1 Hf) Hp'). destruct (run_each env now ts r1) as [r2 js]. simpl in *.
    by etrans.
Qed.

Lemma phase3_reaches r : tasks_wf r → reaches tick_row r (phase3Run env now r).1.
Proof.
  intros Hk. destruct (taken_tasks 10 (λ t, td_created_at (t_def t)) (claimed_by_us env) r Hk) as (Hnd & Hat & Hp).
  by apply run_each_reaches.
Qed.

Lemma interrupted_reaches R c tok st e r : reaches R r (interrupted now c tok st e r).1.
Proof. unfold interrupted. case_match; [|reflexivity]. apply with_durable_reaches. Qed.

Lemma bridge_reaches fault c tok due r :
  task_at (t_id due) r = Some due → t_deleted due = false → is_Some (t_next due) →
  reaches tick_row r (bridge env now fault c tok due r).1.
Proof.
  intros Hat0 Hd Hn. unfold bridge. case_match; [apply interrupted_reaches|].
  pose proof (claim_tick due r Hat0 Hd Hn) as H1.
  pose proof (update_cas_won (has_status TPending)
    [SetStatus TClaimed; SetClaimedBy (Some (e_siteId env)); SetClaimedAt (Some now)] (t_id due) r) as Hw.
  pose proof (update_cas_at (has_status TPending)
    [SetStatus TClaimed; SetClaimedBy (Some (e_siteId env)); SetClaimedAt (Some now)] (t_id due) r) as Hat.
  unfold claim_cas in *. destruct (update_cas _ _ _ r) as [r1 b]. simpl in H1.
  destruct (Hw r1 b eq_refl) as [Hb _]. destruct b; simpl; [|etrans; [exact H1|]; apply with_durable_reaches].
  destruct (proj1 Hb eq_refl) as (t & Ht & Hpt). specialize (Hat r1 true (t_id due) eq_refl).
  rewrite Ht in Hat. simpl in Hat. rewrite seqb_refl, Hpt in Hat. simpl in Hat.
  case_match; [etrans; [exact H1|]; apply interrupted_reaches|].
  case_match.
  { simpl. etrans; [exact H1|]. etrans; [|apply with_durable_reaches].
    eapply release_budget_reaches; [exact Hat|]. apply claimed_by_us_spec. by destruct t as [? []]. }
  case_match; [etrans; [exact H1|]; apply interrupted_reaches|].
  match goal with |- context [runTask env now ?t r1] => pose proof (runTask_reaches t r1) as Hrun; destruct (runTask env now t r1) end.
  simpl in *. etrans; [exact H1|]. etrans; [exact Hrun|]. apply with_durable_reaches.
Qed.

Lemma live_task_at id r t : live_task id r = Some t → task_at (t_id t) r = Some t ∧ t_deleted t = false.
Proof.
  unfold live_task. destruct (task_at id r) as [t0|] eqn:E; [|done]. case_match; [done|]. intros [= ->].
  split; [|done]. by rewrite (task_at_id _ _ _ E).
Qed.
Lemma process_reaches fault r : reaches tick_row r (processPendingTaskFire env now fault r).1.
Proof.
  unfold processPendingTaskFire. destruct (claimLocalDurableWork _ _ _ _ _) as [d [c|]]; [|reflexivity].
  etrans; [apply (with_durable_reaches r d)|]. set (r0 := with_durable d r).
  case_match; [apply with_durable_reaches|]. case_match; [apply interrupted_reaches|].
  destruct (classifyStaleFiring _ _ _) eqn:Hst; [case_match; apply with_durable_reaches|].
  destruct (live_task _ r0) as [due|] eqn:Hdue; [|reflexivity]. apply live_task_at in Hdue as [Hat Hd].
  apply bridge_reaches; [done..|]. unfold classifyStaleFiring in Hst. by destruct (t_next due).
Qed.
End Runs.

(** ** The two halves of a run

    [held j P r]: the job's row, if it is there, carries the job's lease and
    meets [P].  A half starts there, and every write of it but the last keeps it. *)
Definition held (j : job) (P : Task → Prop) (r : replica) : Prop :=
  ∀ t, task_at (t_id (j_task j)) r = Some t → t_def t = t_def (j_task j) ∧ t_lease t = Some (j_lease j) ∧ P t.
Definition anyhow (t : Task) : Prop := True.

Section Halves.
Context (env : SchedulerEnv) (now last : Z) (j : job).
Notation task := (j_task j).
Local Open Scope sched_scope.

(** [m] writes the job's row by run edges only; [keeps]: and leaves it held. *)
Definition writes_run {A} (P : Task → Prop) (m : St A) : Prop := ∀ r, held j P r → reaches (run_row j) r (m r).1.
Definition keeps_run {A} (P Q : Task → Prop) (m : St A) : Prop :=
  ∀ r, held j P r → reaches (run_row j) r (m r).1 ∧ ∀ a, (m r).2 = Ok a → held j Q (m r).1.

Lemma held_weaken (P Q : Task → Prop) r : (∀ t, P t → Q t) → held j P r → held j Q r.
Proof. intros H Hh t Ht. destruct (Hh t Ht) as (? & ? & ?). auto. Qed.
Lemma held_tasks P r r' : r_tasks r' = r_tasks r → held j P r → held j P r'.
Proof. intros H Hh t. unfold task_at. rewrite H. apply Hh. Qed.
Lemma held_bound P r : held j P r → bound_to task r.
Proof. intros Hh t Ht. by apply Hh. Qed.
Lemma held_edge P r t t' : held j P r → task_at (t_id task) r = Some t →
  (t_type t = t_type task → P t → run_edge j t t') → run_row j (t_id task) t t'.
Proof.
  intros Hh Ht He. destruct (Hh t Ht) as (Hd & Hl & Hp). split; [done|]. split; [done|]. apply He; [|done].
  unfold t_type. by rewrite Hd.
Qed.
Lemma lease_matches_held r : bound_to task r → lease_matches j r = true → held j anyhow r.
Proof.
  unfold lease_matches. intros Hb Hl t Ht. rewrite Ht in Hl. split; [by apply Hb|]. split; [|done].
  unfold has_lease in Hl. by bool_props.
Qed.

Lemma run_keeps_bind {A B} P Q (m : St A) (k : A → St B) :
  keeps_run P Q m → (∀ a, writes_run Q (k a)) → writes_run P (sbind m k).
Proof.
  intros Hm Hk r Hh. unfold sbind. destruct (Hm r Hh) as [H1 H2]. destruct (m r) as [r' [a|e]]; [|done]. simpl in *.
  etrans; [exact H1|]. apply Hk. by eapply H2.
Qed.
Lemma run_keeps_bind2 {A B} P Q Q' (m : St A) (k : A → St B) :
  keeps_run P Q m → (∀ a, keeps_run Q Q' (k a)) → keeps_run P Q' (sbind m k).
Proof.
  intros Hm Hk r Hh. unfold sbind. destruct (Hm r Hh) as [H1 H2]. destruct (m r) as [r' [a|e]]; [|done]. simpl in *.
  destruct (Hk a r') as [H3 H4]; [by eapply H2|]. split; [by etrans|done].
Qed.
Lemma keeps_same {A} P (m : St A) : (∀ r, r_tasks (m r).1 = r_tasks r) → keeps_run P P m.
Proof. intros H r Hh. split; [apply reaches_tasks, H|]. intros a _. eapply held_tasks; [apply H|done]. Qed.
Lemma run_keeps_ret {A} P (a : A) : keeps_run P P (sret a).
Proof. by apply keeps_same. Qed.
Lemma run_keeps_get {A} P (f : replica → A) : keeps_run P P (sget f).
Proof. by apply keeps_same. Qed.
Lemma writes_ret {A} P (a : A) : writes_run P (sret a).
Proof. intros r _. reflexivity. Qed.

Lemma insert_message_tasks (m : replica → MessageRow) P : keeps_run P P (swrite (λ r, insert_message (m r) r)).
Proof. apply keeps_same. intros r. unfold swrite, insert_message. by destruct (existsb _ _). Qed.
Lemma keeps_thread o :
  keeps_run (λ t, t_status t = TRunning) (λ t, t_status t = TRunning) (swrite (updateRow now (t_id task) [SetThread o])).
Proof.
  intros r Hh. unfold swrite. destruct (updateRow _ _ _ r) as [r'|] eqn:E; simpl; [|by split; [reflexivity|]].
  split.
  - eapply reaches_update, E. intros t Ht. split; [apply assign_binding|]. eapply held_edge; [done..|]. intros _ Hs.
    apply edge_thread; [done|..]; destruct t as [? []]; by_row.
  - intros _ _ t Ht. rewrite (updateRow_at _ _ _ _ _ _ E) in Ht. destruct (task_at _ r) as [u|] eqn:Hu; [|done].
    rewrite seqb_refl in Ht. injection Ht as <-. destruct (Hh u Hu) as (? & ? & ?). split; [done|].
    split; by destruct u as [? []].
Qed.

(** The failure write: the row is then failed, and still held. *)
Lemma keeps_fail error extra (A := option Z) :
  extra = (λ _, []) ∨ (∃ res, extra = (λ t, [SetResult res; SetRunCount (ts_run_count (t_st t) + 1); SetLastRun (Some now)])) →
  keeps_run anyhow (λ t, t_status t = TFailed)
    (λ r, let '(r', n) := fail_cas now (j_lease j) error extra (t_id task) r in (r', Ok n)).
Proof.
  intros Hx r Hh. unfold fail_cas. destruct (task_at (t_id task) r) as [t|] eqn:Ht.
  2: { split; [reflexivity|]. intros a _ t' Ht'. simpl in *. congruence. }
  destruct (Hh t Ht) as (Hd & Hl & _).
  set (sets := SetStatus TFailed :: _).
  assert (t_status (assign sets t) = TFailed ∧ t_lease (assign sets t) = t_lease t ∧ edge (run_row j) (t_id task) t (assign sets t))
    as (Hs & Hl' & He).
  { unfold sets. destruct Hx as [-> |[res ->]]; destruct t as [? []]; (split; [done|]; split; [done|]; split; [apply assign_binding|]);
      (split; [done|]; split; [done|]); apply edge_fail; by_row. }
  pose proof (reaches_cas (R := run_row j) (has_lease (j_lease j)) sets (t_id task) r) as Hr.
  pose proof (update_cas_at (has_lease (j_lease j)) sets (t_id task) r) as Hat.
  destruct (update_cas _ _ _ r) as [r' b]. simpl in *. split.
  - apply Hr. intros t' Ht' _. assert (t' = t) as -> by congruence. done.
  - intros _ _ t' Ht'. rewrite (Hat r' b _ eq_refl), Ht in Ht'. simpl in Ht'. rewrite seqb_refl in Ht'.
    replace (has_lease (j_lease j) t) with true in Ht' by (symmetry; by apply bool_decide_eq_true).
    injection Ht' as <-. rewrite Hl'. done.
Qed.

(** The helpers that end a run: each acts on its own types, so one of them writes. *)
Lemma cron_run P context r : held j P r → reaches (run_row j) r (rescheduleCronTask now task context (Some (j_lease j)) r).
Proof.
  intros Hh. apply reschedule_cron_reaches. intros t t' Ht Hty _ _ Hr. eapply held_edge; [done..|].
  intros Hty' _. rewrite Hty in Hty'. apply edge_rearm; [by rewrite Hty'|done|done].
Qed.
Lemma beat_run P context r r' : held j P r → rescheduleHeartbeat now task context last r = Ok r' → reaches (run_row j) r r'.
Proof.
  intros Hh. apply heartbeat_reaches. intros t t' Ht Hty _ Hr. eapply held_edge; [done..|].
  intros Hty' _. apply edge_beat; [by rewrite Hty'|done].
Qed.
Lemma reset_run P context r r' : held j P r → resetEventTask now task context r = Ok r' → reaches (run_row j) r r'.
Proof.
  intros Hh. apply reset_reaches. intros t t' Ht Hty Hs _ Hr. eapply held_edge; [done..|].
  intros Hty' _. rewrite Hty in Hty'. apply edge_rearm; [by rewrite Hty'|done|done].
Qed.
Lemma retry_run n backoff r :
  held j (λ t, t_status t = TFailed) r → reaches (run_row j) r (retryDeferredTask now task n backoff r).1.
Proof.
  intros Hh. apply retry_reaches. intros t t' Ht Hty _ Hr. eapply held_edge; [done..|].
  intros Hty' Hs. rewrite Hty in Hty'. apply edge_rearm; [by rewrite Hty'|by rewrite Hs|done].
Qed.
Lemma write_reaches {A} (w : replica → result replica) (k : unit → St A) r :
  (∀ r', w r = Ok r' → reaches (run_row j) r r' ∧ reaches (run_row j) r' (k tt r').1) →
  reaches (run_row j) r (sbind (swrite w) k r).1.
Proof.
  intros H. unfold sbind, swrite. destruct (w r) as [r'|] eqn:E; simpl; [|reflexivity].
  destruct (H r' eq_refl). by etrans.
Qed.

Lemma rearm_writes context n : writes_run (λ t, t_status t = TFailed) (rearm env now last task context (j_lease j) n).
Proof.
  intros r Hh. unfold rearm. unfold sbind at 1, smodify at 1. cbn [fst snd].
  destruct (t_type task) eqn:Hty.
  all: try (rewrite reschedule_cron_other by (by rewrite Hty)).
  - etrans; [eapply (cron_run _ context), Hh|].
    unfold sbind, swrite, smodify. rewrite heartbeat_other by (by rewrite Hty). cbn.
    rewrite retry_other, reset_other by (by rewrite Hty). reflexivity.
  - unfold sbind, swrite, smodify. rewrite heartbeat_other by (by rewrite Hty). cbn.
    rewrite reset_other by (by rewrite Hty). by apply retry_run.
  - unfold sbind, swrite, smodify. rewrite heartbeat_other by (by rewrite Hty). cbn. rewrite retry_other by (by rewrite Hty). cbn.
    destruct (resetEventTask now task context r) eqn:E; [by eapply reset_run|reflexivity].
  - apply write_reaches. intros r' E. split; [by eapply beat_run|].
    unfold sbind, swrite, smodify. rewrite retry_other, reset_other by (by rewrite Hty). reflexivity.
  - apply write_reaches. intros r' E. split; [by eapply beat_run|].
    unfold sbind, swrite, smodify. rewrite retry_other, reset_other by (by rewrite Hty). reflexivity.
  - unfold sbind, swrite, smodify. rewrite heartbeat_other by (by rewrite Hty). cbn.
    rewrite retry_other, reset_other by (by rewrite Hty). reflexivity.
Qed.

(** A half whose row may have been given up: it looks before it writes. *)
Lemma when_held {A} (other : A) (m : St A) r :
  bound_to task r → writes_run anyhow m →
  reaches (run_row j) r ((do* held := sget (lease_matches j) in if negb held then sret other else m) r).1.
Proof.
  intros Hb Hm. unfold sbind, sget. destruct (lease_matches j r) eqn:Hl; [|reflexivity]. by apply Hm, lease_matches_held.
Qed.

Lemma failing_writes {A} (m : St (option Z)) (other : A) (k : Z → St A) :
  keeps_run anyhow (λ t, t_status t = TFailed) m → (∀ n, writes_run (λ t, t_status t = TFailed) (k n)) →
  writes_run anyhow (do* failed := m in match failed with None => sret other | Some n => k n end).
Proof. intros Hm Hk. eapply run_keeps_bind; [exact Hm|]. intros [n|]; [apply Hk|apply writes_ret]. Qed.

Lemma keeps_advise P t e n : keeps_run P P (smodify (advise env t e n)).
Proof. apply keeps_same. intros r. unfold smodify, advise, triggerFailureAdvisory. simpl. by repeat case_match. Qed.

Lemma hard_failure_writes e r : bound_to task r → reaches (run_row j) r (hard_failure env now last j e r).1.
Proof.
  intros Hb. apply when_held; [done|]. apply failing_writes; [apply keeps_fail; by left|]. intros n.
  eapply run_keeps_bind; [apply keeps_advise|intros _]. eapply run_keeps_bind; [|intros _; apply rearm_writes].
  apply keeps_same. intros r'. unfold smodify, attempt, insert_message. simpl. by repeat case_match; simplify_eq.
Qed.

Lemma catch_hard_writes {A} (other : A) P body r :
  writes_run P body → held j P r → reaches (run_row j) r (catch_hard env now last j other body r).1.
Proof.
  intros Hbody Hh. unfold catch_hard. specialize (Hbody r Hh). destruct (body r) as [r' [a|e]]; [done|]. simpl in *.
  etrans; [exact Hbody|]. apply hard_failure_writes. eapply bound_reaches; [exact Hbody|]. by eapply held_bound.
Qed.

Notation running := (λ t : Task, t_status t = TRunning).

Lemma prepare_keeps : keeps_run running running (prepare_thread env now task).
Proof.
  unfold prepare_thread. eapply run_keeps_bind2; [apply run_keeps_get|intros fresh].
  eapply run_keeps_bind2; [apply run_keeps_get|intros long]. eapply run_keeps_bind2.
  { instantiate (1 := running). case_match; [apply keeps_thread|apply run_keeps_ret]. }
  intros _. eapply run_keeps_bind2; [apply run_keeps_get|intros known]. eapply run_keeps_bind2; [|intros; apply run_keeps_ret].
  case_match; [apply run_keeps_ret|]. apply keeps_same. intros r. unfold swrite, insert_thread. by destruct (existsb _ _).
Qed.

Lemma content_keeps P : keeps_run P P (wakeup_content env now task).
Proof.
  apply keeps_same. intros r. unfold wakeup_content, sbind, sget, sret. case_match; try done.
  by destruct (buildEventWakeupContent _ _ _ _ _).
Qed.

Lemma rejected_writes e perm r : bound_to task r → reaches (run_row j) r (model_rejected env now last j e perm r).1.
Proof.
  intros Hb. apply when_held; [done|]. apply failing_writes; [apply keeps_fail; by left|]. intros n.
  eapply run_keeps_bind; [apply keeps_advise|intros _]. destruct (_ && _) eqn:Hp; [|apply rearm_writes].
  intros r' Hh. unfold smodify, parkTask. simpl. apply reaches_cas. intros t Ht Hl. split; [apply assign_binding|].
  eapply held_edge; [done..|]. intros Hty Hs. apply edge_park; [|done|by destruct t as [? []]; by_row..].
  rewrite Hty. unfold system_type. bool_props. apply orb_false_iff. by split.
Qed.

Lemma deliver_writes P th ids c : writes_run P (deliver_wakeup env now last j th ids c).
Proof.
  unfold deliver_wakeup. do 3 (eapply run_keeps_bind; [apply (insert_message_tasks (λ _, _))|intros _]).
  eapply run_keeps_bind; [by apply keeps_same|intros _].
  eapply run_keeps_bind; [case_match; [apply insert_message_tasks|apply run_keeps_ret]|]. intros _.
  repeat case_match; try apply writes_ret.
  intros r Hh. unfold sbind. pose proof (rejected_writes error permanent r (held_bound _ _ Hh)) as Hr.
  by destruct (model_rejected _ _ _ _ _ _ r) as [r' [[]|]].
Qed.

Lemma run_body_writes : writes_run running (run_body env now last j).
Proof.
  unfold run_body. eapply run_keeps_bind; [apply prepare_keeps|intros th].
  eapply run_keeps_bind; [apply run_keeps_get|intros ids]. eapply run_keeps_bind; [apply content_keeps|intros c].
  case_match; [|apply deliver_writes]. intros r Hh. apply write_reaches. intros r' E. split; [by eapply reset_run|reflexivity].
Qed.

Lemma begin_reaches r : bound_to task r → reaches (run_row j) r (begin_run env now last j r).1.
Proof.
  intros Hb. unfold begin_run. destruct (verifyLeaseStillHeld _ _ _ _) eqn:Hv; [|reflexivity].
  eapply catch_hard_writes; [apply run_body_writes|]. unfold verifyLeaseStillHeld in Hv. intros t Ht. rewrite Ht in Hv.
  destruct (t_deleted t); [done|]. destruct (negb (bool_decide (ts_claimed_by _ = _))); [done|].
  destruct (negb (bool_decide (t_lease t = _))) eqn:Hl; [done|].
  destruct (negb (has_status _ _)) eqn:Hs; [done|]. split; [by apply Hb|]. unfold has_status in Hs. by bool_props.
Qed.

(** ** The second half *)
Lemma complete_keeps res :
  keeps_run anyhow anyhow (smodify (λ r,
    (updateRowIf now (running_lease (j_lease j)) (t_id task)
       [SetStatus TCompleted; SetResult (Some res); SetError (Some "");
        SetRunCount (ts_run_count (t_st task) + 1); SetLastRun (Some now); SetFailures 0] r).1)).
Proof.
  intros r Hh. unfold smodify, updateRowIf. simpl. set (sets := SetStatus TCompleted :: _).
  pose proof (update_cas_at (running_lease (j_lease j)) sets (t_id task) r) as Hat. split.
  - apply reaches_cas. intros t Ht [Hs Hl]%andb_prop. split; [apply assign_binding|]. eapply held_edge; [done..|].
    intros _ _. unfold has_status in Hs. bool_props. apply edge_complete; [done|..]; destruct t as [? []]; by_row.
  - intros _ _ t Ht. destruct (update_cas _ _ _ r) as [r' b]. simpl in Ht. rewrite (Hat r' b _ eq_refl) in Ht.
    destruct (task_at (t_id task) r) as [u|] eqn:Hu; [|done]. destruct (Hh u Hu) as (Hd & Hl & _).
    simpl in Ht. injection Ht as <-. case_match; split; try done; split; try done. by destruct u as [? []].
Qed.

Lemma completion_writes res : writes_run anyhow (completion now last j res).
Proof.
  unfold completion. eapply run_keeps_bind; [apply complete_keeps|intros _]. intros r Hh.
  unfold sbind at 1, smodify at 1. cbn [fst snd]. destruct (decide (t_type task = Cron)) as [Hty|Hty].
  - etrans; [eapply (cron_run _ "completion"), Hh|]. unfold sbind, swrite.
    rewrite heartbeat_other by (by rewrite Hty). rewrite reset_other by (by rewrite Hty). reflexivity.
  - rewrite reschedule_cron_other by done. destruct (system_type (t_type task)) eqn:Hsys.
    + apply write_reaches. intros r' E. split; [by eapply beat_run|].
      unfold swrite. rewrite reset_other; [reflexivity|]. by intros Hev; rewrite Hev in Hsys.
    + unfold sbind, swrite. rewrite heartbeat_other by done.
      destruct (resetEventTask now task _ r) eqn:E; [by eapply reset_run|reflexivity].
Qed.

Lemma finish_reaches outcome r : bound_to task r → reaches (run_row j) r (finish_run env now last j outcome r).
Proof.
  intros Hb. unfold finish_run, catch_hard.
  assert (reaches (run_row j) r (finish_body env now last j outcome r).1) as Hr.
  { unfold finish_body. destruct outcome as [error res|e]; [|reflexivity]. apply when_held; [done|].
    case_match; [|apply completion_writes]. apply failing_writes; [apply keeps_fail; right; by exists (Some res)|].
    intros n. eapply run_keeps_bind; [apply keeps_advise|intros _; apply rearm_writes]. }
  destruct (finish_body env now last j outcome r) as [r' [a|e]]; [done|]. simpl in *.
  etrans; [exact Hr|]. apply hard_failure_writes. by eapply bound_reaches.
Qed.
End Halves.

(** ** The well-formedness of a task row *)
Definition task_ok (t : Task) : Prop :=
  match t_status t with
  | TRunning => is_Some (ts_claimed_by (t_st t)) ∧ is_Some (ts_claimed_at (t_st t)) ∧ is_Some (t_lease t) ∧
                is_Some (ts_heartbeat_at (t_st t))
  | TClaimed => is_Some (ts_claimed_by (t_st t)) ∧ is_Some (ts_claimed_at (t_st t)) ∧
                (system_type (t_type t) = false → t_lease t = None)
  | TPending => system_type (t_type t) = false → no_claim t
  | _ => True
  end.

(** A row keeps its well-formedness, whatever its binding, along an edge [R]. *)
Definition keeps_ok (R : guarded) : Prop := ∀ id t t', edge R id t t' → task_ok t → task_ok t'.

Lemma tick_edge_ok site hosts now : keeps_ok (λ _, tick_edge site hosts now).
Proof.
  intros _ t t' [[Hdef _] He]. assert (t_type t' = t_type t) as Hty by (unfold t_type; by rewrite Hdef).
  unfold task_ok. rewrite Hty.
  destruct He as [_ _ _ (-> & Hn & _) _|_ _ _ _ (-> & Hn & _) _|_ _ _ [(-> & Hn & _)|[Hsys (-> & _)]]
    |Hs _ _ (-> & Hb & Ha & Hl & _)|Hs Hc -> Hl Hh Hb Ha _|Hs _ -> Hb Ha Hl _]; try done.
  - by rewrite Hsys.
  - rewrite Hs. intros Hp. split_and!; [by eexists..|]. intros Hsys. rewrite Hl. by destruct (Hp Hsys) as (_ & _ & ?).
  - rewrite Hs. intros (? & ? & _). rewrite Hb, Hh, Ha. split_and!; [by eexists|done|done|by eexists].
  - rewrite Hs. intros (_ & _ & Hp) Hsys. split_and!; [done..|]. rewrite Hl. auto.
Qed.
Lemma run_row_ok j : keeps_ok (run_row j).
Proof.
  intros id t t' [[Hdef _] (_ & _ & He)]. assert (t_type t' = t_type t) as Hty by (unfold t_type; by rewrite Hdef).
  unfold task_ok. rewrite Hty.
  destruct He as [Hs -> (Hb & Ha & Hl) Hh _|_ -> _ _ _ _| -> _ _ _ _|_ _ (-> & ? & _)|Hsys (-> & _)|_ _ -> _ _ _]; try done.
  - by rewrite Hs, Hb, Ha, Hl, Hh.
  - by rewrite Hsys.
Qed.
Lemma refreshed_ok now (lease : string → string → Prop) : keeps_ok (λ id t t', ∃ l, lease id l ∧ refreshed now l t t').
Proof.
  intros id t t' [[Hdef _] (l & _ & Hl0 & Hs & (Hb & Ha & Hl) & Hh & _)].
  assert (t_type t' = t_type t) as Hty by (unfold t_type; by rewrite Hdef).
  unfold task_ok, no_claim. rewrite Hty, Hs, Hb, Ha, Hl, Hh. destruct (t_status t); naive_solver.
Qed.
Lemma claimed_ok site now (P : Task → Prop) : keeps_ok (λ _ t t', t_status t = TPending ∧ P t ∧ claimed_for site now t t').
Proof.
  intros id t t' [[Hdef _] (Hs & _ & Hs' & Hb & Ha & Hl & _)] Hok.
  assert (t_type t' = t_type t) as Hty by (unfold t_type; by rewrite Hdef).
  unfold task_ok in *. rewrite Hs in Hok. rewrite Hty, Hs', Hb, Ha, Hl. split_and!; [by eexists..|].
  intros Hsys. by destruct (Hok Hsys) as (_ & _ & ?).
Qed.
Lemma cancelled_ok (P : string → Task → Prop) : keeps_ok (λ id t t', P id t ∧ cancelled t t').
Proof. intros id t t' [_ (_ & Hs & _)] _. unfold task_ok. by rewrite Hs. Qed.

Lemma edges_ok R id t t' : keeps_ok R → rtc (edge R id) t t' → task_ok t → task_ok t'.
Proof. intros HR. induction 1; [done|]. eauto. Qed.

Definition rows_ok (r : replica) : Prop := tasks_wf r ∧ ∀ id t, task_at id r = Some t → task_ok t.
Lemma reaches_ok R r r' : keeps_ok R → reaches R r r' → rows_ok r → rows_ok r'.
Proof.
  intros HR Hr [Hk Hok]. split; [by eapply reaches_wf|]. intros id t' Ht'.
  destruct (task_at id r) as [t|] eqn:E.
  - destruct (reaches_row _ _ _ _ Hr E) as (t2 & Ht2 & Hp). assert (t2 = t') as -> by congruence. eauto using edges_ok.
  - pose proof (reaches_none _ _ _ Hr E). congruence.
Qed.

(** ** The scheduler as a transition system *)
Record sworld : Type := MkWorld {
  w_sched : scheduler;
  w_rep : replica;
  w_queued : list job;
  w_active : list job
}.

Definition job_ok (r : replica) (j : job) : Prop :=
  ∃ t, task_at (t_id (j_task j)) r = Some t ∧ t_def t = t_def (j_task j).
Lemma job_ok_bound r j : job_ok r j → bound_to (j_task j) r.
Proof. intros (t & Ht & Hd) t' Ht'. congruence. Qed.
Lemma job_ok_reaches R r r' j : reaches R r r' → job_ok r j → job_ok r' j.
Proof.
  intros Hr (t & Ht & Hd). destruct (reaches_row _ _ _ _ Hr Ht) as (t' & Ht' & [Hd' _]%edges_binding).
  exists t'. split; [done|congruence].
Qed.

Definition stop_running (id : string) (s : scheduler) : scheduler := set_running_tasks (delete id (s_runningTasks s)) s.

Section System.
Context (env : SchedulerEnv).

(** What a host may do next: a tick; the two halves of a queued run; the refreshes
    of its leases; an event; a user's message; the three ways to cancel; a new task. *)
Inductive act : Type :=
| ActTick (now : Z) (fault : option (fire_stage * string))
| ActBegin (now : Z) (j : job)
| ActFinish (now : Z) (j : job) (outcome : loop_outcome)
| ActActivity (now : Z) (j : job)
| ActHeartbeats (now : Z)
| ActEvent (now : Z) (eventType : string)
| ActUser (now : Z)
| ActCancel (binding : string → option (string * string)) (now : Z) (id : string)
| ActCancelMatching (binding : string → option (string * string)) (matches : string → bool) (now : Z)
| ActCancelRoute (now : Z) (id : string)
| ActNew (t : Task).

Inductive act_step (w : sworld) : act → sworld → Prop :=
| step_tick now fault s' r' js :
    tick env now fault (w_sched w) (w_rep w) = (s', r', js) →
    act_step w (ActTick now fault) (MkWorld s' r' (w_queued w ++ js) (w_active w))
| step_begin now j rest r' c :
    w_queued w ≡ₚ j :: rest → begin_run env now (s_lastUserInteractionAt (w_sched w)) j (w_rep w) = (r', Some c) →
    act_step w (ActBegin now j) (MkWorld (w_sched w) r' rest (j :: w_active w))
| step_end now j rest r' :
    w_queued w ≡ₚ j :: rest → begin_run env now (s_lastUserInteractionAt (w_sched w)) j (w_rep w) = (r', None) →
    act_step w (ActBegin now j) (MkWorld (stop_running (t_id (j_task j)) (w_sched w)) r' rest (w_active w))
| step_finish now j rest outcome :
    w_active w ≡ₚ j :: rest →
    act_step w (ActFinish now j outcome) (MkWorld (stop_running (t_id (j_task j)) (w_sched w))
      (finish_run env now (s_lastUserInteractionAt (w_sched w)) j outcome (w_rep w)) (w_queued w) rest)
| step_activity now j :
    j ∈ w_active w →
    act_step w (ActActivity now j)
      (MkWorld (w_sched w) (refresh_lease now (t_id (j_task j)) (j_lease j) (w_rep w)) (w_queued w) (w_active w))
| step_heartbeats now :
    act_step w (ActHeartbeats now)
      (MkWorld (w_sched w) (updateHeartbeats now (w_sched w) (w_rep w)) (w_queued w) (w_active w))
| step_event now ev :
    act_step w (ActEvent now ev) (MkWorld (w_sched w) (onEvent env now ev (w_sched w) (w_rep w)) (w_queued w) (w_active w))
| step_user now :
    act_step w (ActUser now) (MkWorld (onUserInteraction now (w_sched w)) (w_rep w) (w_queued w) (w_active w))
| step_cancel binding now id :
    act_step w (ActCancel binding now id)
      (MkWorld (w_sched w) (cancel_by_id binding now id (w_rep w)).1 (w_queued w) (w_active w))
| step_cancel_matching binding matches now :
    act_step w (ActCancelMatching binding matches now)
      (MkWorld (w_sched w) (cancel_matching binding matches now (w_rep w)) (w_queued w) (w_active w))
| step_cancel_route now id :
    act_step w (ActCancelRoute now id) (MkWorld (w_sched w) (cancel_route now id (w_rep w)).1 (w_queued w) (w_active w))
| step_new t r' :
    t_status t = TPending → no_claim t → insert_task t (w_rep w) = Ok r' →
    act_step w (ActNew t) (MkWorld (w_sched w) r' (w_queued w) (w_active w)).
Definition sched_step (w w' : sworld) : Prop := ∃ a, act_step w a w'.

(** What an act may do to the row [id]: the guards are those of the row when it is
    written, whatever was read before. *)
Definition licence (w : sworld) (a : act) : guarded := λ id t t',
  match a with
  | ActTick now _ =>
      s_running (w_sched w) = true ∧ r_emergency_stop (w_rep w) = false ∧ tick_edge (e_siteId env) (r_hosts (w_rep w)) now t t'
  | ActBegin _ j | ActFinish _ j _ => run_row j id t t'
  | ActActivity now j => ∃ lease, (id = t_id (j_task j) ∧ lease = j_lease j) ∧ refreshed now lease t t'
  | ActHeartbeats now => ∃ lease, s_runningTasks (w_sched w) !! id = Some lease ∧ refreshed now lease t t'
  | ActEvent now ev =>
      t_status t = TPending ∧ (t_deleted t = false ∧ t_type t = Event ∧ td_trigger_spec (t_def t) = ev) ∧
      claimed_for (e_siteId env) now t t'
  | ActUser _ | ActNew _ => False
  | ActCancel binding _ id' =>
      (id = id' ∧ t_deleted t = false ∧ t_type t ≠ Heartbeat ∧ binding id = None) ∧ cancelled t t'
  | ActCancelMatching binding _ _ =>
      ((t_status t = TPending ∨ t_status t = TClaimed) ∧ t_deleted t = false ∧ t_type t ≠ Heartbeat ∧ binding id = None) ∧
      cancelled t t'
  | ActCancelRoute _ id' =>
      (id = id' ∧ t_deleted t = false ∧ (t_status t = TPending ∨ t_status t = TRunning ∨ t_status t = TClaimed)) ∧
      cancelled t t'
  end.

Lemma licence_ok w a : keeps_ok (licence w a).
Proof.
  intros id t t' [Hb Hl]. destruct a; simpl in Hl; try done.
  - destruct Hl as (_ & _ & He). by apply (tick_edge_ok (e_siteId env) (r_hosts (w_rep w)) now id).
  - by apply (run_row_ok j id).
  - by apply (run_row_ok j id).
  - by apply (refreshed_ok now (λ id lease, id = t_id (j_task j) ∧ lease = j_lease j) id).
  - by apply (refreshed_ok now (λ id lease, s_runningTasks (w_sched w) !! id = Some lease) id).
  - by apply (claimed_ok (e_siteId env) now (λ t, t_deleted t = false ∧ t_type t = Event ∧ td_trigger_spec (t_def t) = eventType) id).
  - by apply (cancelled_ok (λ i t, i = id0 ∧ t_deleted t = false ∧ t_type t ≠ Heartbeat ∧ binding i = None) id).
  - by apply (cancelled_ok (λ i t, (t_status t = TPending ∨ t_status t = TClaimed) ∧ t_deleted t = false
                                  ∧ t_type t ≠ Heartbeat ∧ binding i = None) id).
  - by apply (cancelled_ok (λ i t, i = id0 ∧ t_deleted t = false
                                  ∧ (t_status t = TPending ∨ t_status t = TRunning ∨ t_status t = TClaimed)) id).
Qed.

Definition world_ok (w : sworld) : Prop :=
  rows_ok (w_rep w) ∧ Forall (job_ok (w_rep w)) (w_queued w) ∧ Forall (job_ok (w_rep w)) (w_active w).

(** The jobs a tick queues name rows of the table. *)
Lemma runTask_job now t r r' j : task_at (t_id t) r = Some t → runTask env now t r = (r', Some j) → job_ok r' j.
Proof.
  intros Ht Hrun. pose proof (runTask_reaches env (r_hosts r) now t r) as Hr. rewrite Hrun in Hr. simpl in Hr.
  eapply job_ok_reaches; [exact Hr|]. unfold runTask in Hrun. destruct (run_cas _ _ _ _ r) as [r1 []]; [|done].
  injection Hrun as _ <-. by exists t.
Qed.

Lemma run_each_jobs now ts r :
  NoDup (t_id <$> ts) → rows_here ts r → (∀ t, t ∈ ts → claimed_by_us env t = true) →
  Forall (job_ok (run_each env now ts r).1) (run_each env now ts r).2.
Proof.
  revert r. induction ts as [|t ts IH]; intros r Hnd Hat Hp; [constructor|]. cbn [run_each].
  pose proof (λ r', rows_here_next t ts r r' Hnd Hat) as Hnext.
  rewrite fmap_cons in Hnd. apply NoDup_cons in Hnd as [_ Hnd].
  assert (∀ t', t' ∈ ts → claimed_by_us env t' = true) as Hp' by (intros; apply Hp; set_solver).
  destruct (shouldSkipDueToBudget _ _ _ _); [apply IH; [done| |done]; apply Hnext, frame_attempt_update|].
  destruct (runTask env now t r) as [r1 j] eqn:Hrun.
  pose proof (runTask_frame env now t r) as Hf. rewrite Hrun in Hf. specialize (Hnext r1 Hf).
  specialize (IH r1 Hnd Hnext Hp'). pose proof (run_each_reaches env (r_hosts r) now ts r1 Hnd Hnext Hp') as Hr2.
  destruct (run_each env now ts r1) as [r2 js]. simpl in *.
  destruct j as [j|]; [|done]. constructor; [|done].
  eapply job_ok_reaches; [exact Hr2|]. eapply runTask_job; [|exact Hrun]. apply Hat. set_solver.
Qed.

Lemma process_job now fault r r' j :
  processPendingTaskFire env now fault r = (r', Fired (Some j)) → job_ok r' j.
Proof.
  intros Hp. pose proof (process_reaches env (r_hosts r) now fault r) as Hr. rewrite Hp in Hr. simpl in Hr.
  eapply job_ok_reaches; [exact Hr|]. clear Hr. revert Hp.
  unfold processPendingTaskFire. destruct (claimLocalDurableWork _ _ _ _ _) as [d [c|]]; [|done].
  case_match; [done|]. case_match; [unfold interrupted; by case_match|].
  set (r0 := with_durable d r). case_match; [by case_match|].
  destruct (live_task _ r0) as [due|] eqn:Hdue; [|done].
  assert (task_at (t_id due) r = Some due) as Hat by (by apply live_task_at in Hdue as [? _]).
  unfold bridge. case_match; [unfold interrupted; by case_match|].
  destruct (claim_cas _ _ _ _) as [r1 []]; [|done]. simpl.
  case_match; [unfold interrupted; by case_match|]. case_match; [done|].
  case_match; [unfold interrupted; by case_match|].
  unfold runTask. destruct (run_cas _ _ _ _ r1) as [r2 []]; [|done]. intros [= _ <-].
  exists due. split; [done|]. done.
Qed.

(** The phases after the first keep the hosts table. *)
Lemma tick_ok w now fault s' r' js :
  tasks_wf (w_rep w) → tick env now fault (w_sched w) (w_rep w) = (s', r', js) →
  reaches (licence w (ActTick now fault)) (w_rep w) r' ∧ Forall (job_ok r') js.
Proof.
  intros Hk. set (r := w_rep w) in *. set (T := λ _ : string, tick_edge (e_siteId env) (r_hosts r) now). unfold tick.
  destruct (_ || _) eqn:Hon; [intros [= <- <- <-]; split; [reflexivity|constructor]|].
  assert (∀ x, reaches T r x → reaches (licence w (ActTick now fault)) r x) as Hlift.
  { intros x. apply reaches_mono. intros id t t' He. bool_props. by split; [|split]. }
  pose proof (phase0_reaches (e_siteId env) (e_uuid env) now (s_lastUserInteractionAt (w_sched w)) r Hk) as H0.
  set (r1 := phase0Eviction _ _ _ r) in *. pose proof (reaches_wf _ _ H0 Hk) as Hk1.
  pose proof (phase1_reaches env (r_hosts r) now r1 Hk1) as H1.
  destruct (phase1Schedule env now r1) as [r2 [[]|e]]; simpl in H1.
  2: { intros [= <- <- <-]. split; [|constructor]. apply Hlift. etrans; [exact H0|exact H1]. }
  assert (reaches T r r2) as H2 by (etrans; [exact H0|exact H1]). pose proof (reaches_wf _ _ H2 Hk) as Hk2.
  pose proof (phase3_reaches env (r_hosts r) now r2 Hk2) as H3.
  assert (Forall (job_ok (phase3Run env now r2).1) (phase3Run env now r2).2) as Hj3.
  { destruct (taken_tasks 10 (λ t, td_created_at (t_def t)) (claimed_by_us env) r2 Hk2) as (Hnd & Hat & Hp).
    by apply run_each_jobs. }
  destruct (phase3Run env now r2) as [r3 js3]. simpl in *.
  pose proof (process_reaches env (r_hosts r) now fault r3) as H4. pose proof (process_job now fault r3) as Hpj.
  destruct (processPendingTaskFire env now fault r3) as [r4 d]. simpl in *. intros [= <- <- <-].
  split; [apply Hlift; etrans; [exact H2|]; etrans; [exact H3|exact H4]|]. apply Forall_app. split.
  - eapply Forall_impl; [exact Hj3|]. intros j. by apply (job_ok_reaches _ _ _ _ H4).
  - destruct d as [| | | | | |[j|]|]; constructor; [|constructor]. by apply Hpj.
Qed.

Lemma insert_task_rows t r r' : insert_task t r = Ok r' →
  task_at (t_id t) r = None ∧ r_tasks r' = r_tasks r ++ [t] ∧
  (∀ j, j ≠ t_id t → task_at j r' = task_at j r) ∧ task_at (t_id t) r' = Some t.
Proof.
  unfold insert_task. destruct (task_at (t_id t) r) eqn:E; [done|]. intros [= <-]. split; [done|]. split; [done|].
  unfold task_at in *. simpl. split.
  - intros j Hj. rewrite row_at_app. destruct (row_at t_id j (r_tasks r)); [done|]. rewrite row_at_cons.
    destruct (seqb (t_id t) j) eqn:Hs; [|done]. apply seqb_true in Hs. congruence.
  - rewrite row_at_app, E, row_at_cons. by rewrite seqb_refl.
Qed.

Lemma Forall_jobs R r r' js : reaches R r r' → Forall (job_ok r) js → Forall (job_ok r') js.
Proof. intros Hr Hf. eapply Forall_impl; [exact Hf|]. intros j. by apply (job_ok_reaches _ _ _ _ Hr). Qed.

Definition keeps_rows (R : guarded) (r r' : replica) : Prop :=
  ∀ j t, task_at j r = Some t → ∃ t', task_at j r' = Some t' ∧ rtc (edge R j) t t'.

Lemma world_reaches w a s r' q act :
  reaches (licence w a) (w_rep w) r' → rows_ok (w_rep w) → Forall (job_ok r') q → Forall (job_ok r') act →
  world_ok (MkWorld s r' q act) ∧ keeps_rows (licence w a) (w_rep w) r'.
Proof.
  intros Hr Hok Hq Ha. split; [|intros j t; by apply reaches_row]. split; [|done].
  eapply reaches_ok; [apply licence_ok|exact Hr|done].
Qed.

(** The acts between ticks. *)
Lemma heartbeats_reaches w now :
  reaches (licence w (ActHeartbeats now)) (w_rep w) (updateHeartbeats now (w_sched w) (w_rep w)).
Proof.
  unfold updateHeartbeats. destruct (negb _); [reflexivity|].
  assert (∀ i, i ∈ map_to_list (s_runningTasks (w_sched w)) → s_runningTasks (w_sched w) !! i.1 = Some i.2) as Hin.
  { intros [i l] Hi. by apply elem_of_map_to_list in Hi. }
  revert Hin. generalize (map_to_list (s_runningTasks (w_sched w))) as l. generalize (w_rep w) as r.
  intros r l. revert r. induction l as [|x l IH]; intros r Hin; [reflexivity|]. simpl.
  etrans; [|apply IH; set_solver]. apply refresh_reaches. intros t t' Ht Hr. exists x.2. split; [|done]. apply Hin. set_solver.
Qed.

Lemma claim_event_frame now t r : frame (t_id t) r (claim_event env now t r).
Proof. unfold claim_event. case_match; [done|]. case_match; [done|]. apply frame_cas. Qed.
Lemma on_event_reaches w now ev :
  tasks_wf (w_rep w) → reaches (licence w (ActEvent now ev)) (w_rep w) (onEvent env now ev (w_sched w) (w_rep w)).
Proof.
  intros Hk. unfold onEvent. destruct (_ <=? _); [reflexivity|].
  destruct (select_tasks (event_waiting ev) (w_rep w) Hk) as (Hnd & Hat & Hp).
  apply each_task_reaches; [done..|intros; apply claim_event_frame|].
  intros t r' Hin Ht. unfold claim_event. destruct (negb _); [reflexivity|]. destruct (negb _); [reflexivity|].
  apply claim_reaches. intros u t' Hu Hs Hc. assert (u = t) as -> by congruence.
  specialize (Hp t Hin). unfold event_waiting in Hp. apply andb_prop in Hp as [[[Hty _]%andb_prop Hd]%andb_prop Hspec].
  apply is_type_eq in Hty. apply seqb_true in Hspec. bool_props. split; [done|]. by split; [split|].
Qed.

Lemma cancel_id_reaches w binding now id :
  reaches (licence w (ActCancel binding now id)) (w_rep w) (cancel_by_id binding now id (w_rep w)).1.
Proof.
  unfold cancel_by_id. destruct (live_task id (w_rep w)) as [t|] eqn:Hl; [|reflexivity].
  destruct (is_type (t_type t) Heartbeat) eqn:Hty; [reflexivity|].
  destruct (binding id) as [[? ?]|] eqn:Hb; [reflexivity|].
  destruct (updateRow _ _ _ _) eqn:E; [|reflexivity]. eapply cancel_reaches, E. intros u t' Hu Hc.
  pose proof Hl as [Hat Hd]%live_task_at. assert (u = t) as ->.
  { unfold live_task in Hl. rewrite Hu in Hl. destruct (t_deleted u); congruence. }
  split; [|done]. split_and!; [done..| |done]. intros Heq%is_type_eq. congruence.
Qed.
Lemma cancel_matching_reaches w binding m now :
  tasks_wf (w_rep w) → reaches (licence w (ActCancelMatching binding m now)) (w_rep w) (cancel_matching binding m now (w_rep w)).
Proof.
  intros Hk. unfold cancel_matching. destruct (select_tasks (payload_cancellable m) (w_rep w) Hk) as (Hnd & Hat & Hp).
  apply each_task_reaches.
  - by apply NoDup_fmap_filter.
  - intros t [Ht _]%filter_In_iff. by apply Hat.
  - intros. apply frame_attempt_update.
  - intros t r' [Hin Hbind]%filter_In_iff Ht. destruct (updateRow _ _ _ r') eqn:E; [|reflexivity].
    eapply cancel_reaches, E. intros u t' Hu Hc. assert (u = t) as -> by congruence.
    specialize (Hp t Hin). unfold payload_cancellable in Hp.
    apply andb_prop in Hp as [[[_ Hty]%andb_prop Hst]%andb_prop Hd]. apply negb_true_iff in Hty.
    split; [|done]. bool_props. split_and!; [|done| |done].
    + apply orb_prop in Hst as [Hst|Hst]; unfold has_status in Hst; bool_props; auto.
    + intros Heq%is_type_eq. congruence.
Qed.
Lemma cancel_route_reaches w now id :
  reaches (licence w (ActCancelRoute now id)) (w_rep w) (cancel_route now id (w_rep w)).1.
Proof.
  unfold cancel_route. destruct (live_task id (w_rep w)) as [t|] eqn:Hl; [|reflexivity].
  destruct (negb _) eqn:Hst; [reflexivity|]. simpl. destruct (updateRow _ _ _ _) eqn:E; [|reflexivity].
  eapply cancel_reaches, E. intros u t' Hu Hc. pose proof Hl as [Hat Hd]%live_task_at. assert (u = t) as ->.
  { unfold live_task in Hl. rewrite Hu in Hl. destruct (t_deleted u); congruence. }
  split; [|done]. split_and!; [done..|]. apply negb_false_iff in Hst. unfold has_status in Hst.
  destruct (t_status t); auto; done.
Qed.

Lemma new_task_ok w t r' q a :
  rows_ok (w_rep w) → Forall (job_ok (w_rep w)) (w_queued w) → Forall (job_ok (w_rep w)) (w_active w) →
  t_status t = TPending → no_claim t → insert_task t (w_rep w) = Ok r' → q = w_queued w → a = w_active w →
  world_ok (MkWorld (w_sched w) r' q a) ∧ keeps_rows (licence w (ActNew t)) (w_rep w) r'.
Proof.
  intros Hok Hq Ha Hst Hnc Hins -> ->. pose proof (proj1 Hok) as Hk.
  destruct (insert_task_rows t _ _ Hins) as (Hnone & Htasks & Hother & Hnew).
  assert (∀ id x, task_at id (w_rep w) = Some x → task_at id r' = Some x) as Hkeep.
  { intros id x Hx. rewrite Hother; [done|]. intros ->. congruence. }
  assert (∀ js, Forall (job_ok (w_rep w)) js → Forall (job_ok r') js) as Hjs.
  { intros js Hf. eapply Forall_impl; [exact Hf|]. intros j (x & Hx & Hd). exists x. auto. }
  split; [|intros id x Hx; exists x; split; [auto|reflexivity]].
  split; [|split; auto]. split.
  - unfold tasks_wf, keys_unique in *. simpl. rewrite Htasks, fmap_app. apply NoDup_app. split_and!; [done| |apply NoDup_singleton].
    intros i Hi ->%list_elem_of_singleton. apply list_elem_of_fmap in Hi as (x & Hid & Hx).
    unfold task_at in Hnone. rewrite row_at_None in Hnone. by eapply Hnone.
  - intros id x Hx. destruct (decide (id = t_id t)) as [->|Hne].
    + assert (x = t) as -> by (simpl in *; congruence). unfold task_ok. by rewrite Hst.
    + rewrite Hother in Hx by done. by eapply (proj2 Hok).
Qed.

Lemma step_ok w a w' : world_ok w → act_step w a w' → world_ok w' ∧ keeps_rows (licence w a) (w_rep w) (w_rep w').
Proof.
  intros (Hok & Hq & Ha) Hstep. pose proof (proj1 Hok) as Hk.
  assert (∀ j l rest, Forall (job_ok (w_rep w)) l → l ≡ₚ j :: rest →
            job_ok (w_rep w) j ∧ Forall (job_ok (w_rep w)) rest) as Hsplit.
  { intros j l rest Hl Hp. rewrite Hp in Hl. by apply Forall_cons in Hl. }
  assert (∀ s r' q x, reaches (licence w a) (w_rep w) r' → Forall (job_ok (w_rep w)) q → Forall (job_ok (w_rep w)) x →
            world_ok (MkWorld s r' q x) ∧ keeps_rows (licence w a) (w_rep w) r') as Hjust.
  { intros s r' q x Hr Hq' Hx. apply world_reaches; [done|done|by eapply Forall_jobs..]. }
  destruct Hstep as [now fault s' r' js Htick|now j rest r' c Hp Hb|now j rest r' Hp Hb|now j rest outcome Hp
    |now j Hj|now|now ev|now|binding now id|binding matches now|now id|t r' Hst Hnc Hins]; simpl.
  - destruct (tick_ok _ _ _ _ _ _ Hk Htick) as [Hr Hjs].
    apply world_reaches; [done|done|apply Forall_app; split; [by eapply Forall_jobs|done]|by eapply Forall_jobs].
  - destruct (Hsplit j _ rest Hq Hp) as [Hj Hrest].
    pose proof (begin_reaches env now (s_lastUserInteractionAt (w_sched w)) j (w_rep w) (job_ok_bound _ _ Hj)) as Hr.
    rewrite Hb in Hr. simpl in Hr. apply Hjust; [done..|]. by constructor.
  - destruct (Hsplit j _ rest Hq Hp) as [Hj Hrest].
    pose proof (begin_reaches env now (s_lastUserInteractionAt (w_sched w)) j (w_rep w) (job_ok_bound _ _ Hj)) as Hr.
    rewrite Hb in Hr. simpl in Hr. by apply Hjust.
  - destruct (Hsplit j _ rest Ha Hp) as [Hj Hrest]. apply Hjust; [|done..].
    by apply finish_reaches, job_ok_bound.
  - apply Hjust; [|done..]. apply refresh_reaches. intros t t' Ht Hr. by exists (j_lease j).
  - apply Hjust; [|done..]. apply heartbeats_reaches.
  - apply Hjust; [|done..]. by apply on_event_reaches.
  - by apply Hjust.
  - apply Hjust; [|done..]. apply cancel_id_reaches.
  - apply Hjust; [|done..]. by apply cancel_matching_reaches.
  - apply Hjust; [|done..]. apply cancel_route_reaches.
  - by eapply new_task_ok.
Qed.
End System.

(** * Theorems *)

(** C9: every act of the scheduler refines the task life cycle.  Each task row
    moves along a path of the edges licensed for that act, every edge guarded by
    the row's state when it is written: in a tick a claim goes from pending of a
    due row, a start from claimed by this host, the expiry of a claim from claimed
    for over five minutes, an eviction from running with a refresh over ten
    minutes old and a silent or absent holder, a healing from a settled row whose
    claim is over twenty minutes old; a run writes its own row only, while the row
    carries its lease; a cancellation only what its route admits.  No row
    disappears, and its definition and tombstone never change.  Starting a run and
    evicting decide on the row itself, not on the copy read before: a row that is
    not claimed by this host is not started, one that is not running not evicted. *)
Theorem scheduler_refines_life_cycle env w a w' id t :
  world_ok w → act_step env w a w' → task_at id (w_rep w) = Some t →
  (∃ t', task_at id (w_rep w') = Some t' ∧ rtc (edge (licence env w a) id) t t' ∧ same_binding t t') ∧
  (∀ now copy, t_id copy = id → t_status t ≠ TClaimed ∨ ts_claimed_by (t_st t) ≠ Some (e_siteId env) →
     runTask env now copy (w_rep w) = (w_rep w, None)) ∧
  (∀ now last copy, t_id copy = id → t_status t ≠ TRunning →
     evict_one (e_uuid env) now last copy (w_rep w) = w_rep w).
Proof.
  intros Hok Hstep Ht. split; [|split].
  - destruct (step_ok env w a w' Hok Hstep) as [_ Hk].
    destruct (Hk id t Ht) as (t' & Ht' & Hp). exists t'. split_and!; [done..|]. by eapply edges_binding.
  - intros now copy <- Hs. by eapply run_unclaimed.
  - intros now last copy <- Hs. by eapply evict_not_running.
Qed.

(** C18: from a well-formed state every reachable state has distinct task ids and
    well-formed rows: a running task has an owner, a claim time, a lease and a
    heartbeat, a claimed one an owner and a claim time, and a pending task other
    than a heartbeat or consolidation carries no claim. *)
Theorem reachable_rows_ok env w w' : world_ok w → rtc (sched_step env) w w' → rows_ok (w_rep w').
Proof.
  intros Hok Hsteps. assert (world_ok w') as (? & _); [|done].
  induction Hsteps as [|w1 w2 w3 [a Hs] _ IH]; [done|]. apply IH. by eapply step_ok.
Qed.

(** ** A concrete run *)
Definition sample_env : SchedulerEnv :=
  MkEnv "a" "A" "op" ModeDurable None None None None sample_sha1 no_regexp
    (λ s, if decide (s = toISOString 3600000) then Some 3600000 else None) (λ _ _, "hb") (λ _, "co")
    (λ r, String.append "u" (of_chars (print_nonneg (Z.of_nat (length (r_outbox r))))))
    (λ r n, String.append "v" (of_chars (print_nonneg (Z.of_nat (length (r_outbox r) + n))))).
Definition one_task (t : Task) : replica := MkReplica [t] [] [] [] [] [] [] false [].
Definition hourly : Task := sample_task "t" Cron (Some 3600000).
Definition start_world : sworld := MkWorld (MkScheduler true 0 0 ∅) (one_task hourly) [] [].

Lemma start_world_ok : world_ok start_world.
Proof.
  split; [|by split]. split; [apply NoDup_singleton|].
  intros id t. unfold task_at. simpl. rewrite row_at_cons. case_match; [|done]. by intros [= <-].
Qed.
Definition ticked : scheduler * replica * list job := tick sample_env 3600500 None (w_sched start_world) (w_rep start_world).

Lemma reachable_rows_ok_witness : rows_ok ticked.1.2 ∧ length ticked.2 = 1%nat.
Proof.
  split; [|vm_compute; reflexivity].
  apply (reachable_rows_ok sample_env start_world
    (MkWorld ticked.1.1 ticked.1.2 ([] ++ ticked.2) []) start_world_ok).
  apply rtc_once. exists (ActTick 3600500 None). apply (step_tick sample_env start_world 3600500 None).
  unfold ticked. destruct (tick _ _ _ _ _) as [[s r] js]. reflexivity.
Defined.

Definition ticked_world : sworld := MkWorld ticked.1.1 ticked.1.2 ([] ++ ticked.2) [].
Lemma scheduler_refines_life_cycle_witness :
  ∃ t', task_at "t" (w_rep ticked_world) = Some t' ∧
    rtc (edge (licence sample_env start_world (ActTick 3600500 None)) "t") hourly t' ∧ same_binding hourly t'.
Proof.
  apply (scheduler_refines_life_cycle sample_env start_world (ActTick 3600500 None) ticked_world "t" hourly start_world_ok).
  - unfold ticked_world. apply (step_tick sample_env start_world 3600500 None).
    unfold ticked. destruct (tick _ _ _ _ _) as [[s r] js]. reflexivity.
  - vm_compute. reflexivity.
Defined.

(** A running row with a fresh refresh is in no edge of a tick. *)
Example fresh_run_is_left_alone env w now fault id t t' h :
  t_status t = TRunning → ts_heartbeat_at (t_st t) = Some h → now - 600000 <= h →
  rtc (edge (licence env w (ActTick now fault)) id) t t' → t' = t.
Proof.
  intros Hs Hh Hn Hp. destruct Hp as [|t1 t2 t3 [_ (_ & _ & He)] _]; [done|].
  destruct He as [|_ _ (v & Hv & Hlt) _ _ _|([?|[?|?]] & _)| | |]; try congruence.
  rewrite Hh in Hv. injection Hv as ->. lia.
Qed.

Example due_task_starts : t_status <$> task_at "t" ticked.1.2 = Some TRunning.
Proof. vm_compute. reflexivity. Qed.
