(* ===== verification/RunProps.v ===== *)
(** * Outcomes of runs, eviction and healing

    What a finished run leaves in its task row, by task type; that a run without
    its lease writes nothing; which rows eviction and the healer touch and which
    they leave; and two behaviours at odds with the code's comments: a run that
    re-arms a cancelled cron task, and an evicted deferred task out of retries
    that waits forever. *)
From Stdlib Require Import Ascii QArith.
From S2P Require Import Prelude Sql Json DurableWork Cron Tasks TaskResolution EventPayload Scheduler TaskRun LifeCycle SchedulerProps.
Local Open Scope bound_scope.
Local Open Scope Z_scope.

(** ** Rows after writes *)
Lemma update_row_hit now id sets r t : task_at id r = Some t →
  ∃ r', updateRow now id sets r = Ok r' ∧ task_at id r' = Some (assign (sets ++ [SetModified now]) t) ∧
        r_durable r' = r_durable r ∧ r_hosts r' = r_hosts r.
Proof.
  intros Ht. destruct (updateRow_ok now id sets r t Ht) as [r' Hr']. exists r'. split; [done|].
  rewrite (updateRow_at _ _ _ _ _ id Hr'), Ht. simpl. rewrite seqb_refl.
  unfold updateRow in Hr'. rewrite Ht in Hr'. by injection Hr' as <-.
Qed.

Lemma cas_hit p sets id r t : task_at id r = Some t → p t = true →
  update_cas p sets id r = (set_where p sets id r, true) ∧ task_at id (set_where p sets id r) = Some (assign sets t).
Proof.
  intros Ht Hp. unfold update_cas. rewrite Ht, Hp. split; [done|]. rewrite set_where_at, Ht. simpl.
  by rewrite seqb_refl, Hp.
Qed.
Lemma cas_miss p sets id r t : task_at id r = Some t → p t = false → update_cas p sets id r = (r, false).
Proof. intros Ht Hp. unfold update_cas. by rewrite Ht, Hp. Qed.

Lemma each_task_other f ts r id :
  (∀ t r, t ∈ ts → frame (t_id t) r (f t r)) → id ∉ (t_id <$> ts) → task_at id (each_task f ts r) = task_at id r.
Proof.
  revert r. induction ts as [|t ts IH]; intros r Hf Hid; [done|]. simpl.
  rewrite fmap_cons in Hid. apply not_elem_of_cons in Hid as [Hne Hid].
  rewrite IH; [|set_solver|done]. apply Hf; [set_solver|done].
Qed.

Lemma not_selected p r id t :
  tasks_wf r → task_at id r = Some t → p t = false → id ∉ (t_id <$> sql_select p (r_tasks r)).
Proof.
  intros Hk Ht Hp (t' & -> & [Hin Hp']%elem_of_select)%list_elem_of_fmap.
  pose proof (row_bound r t' Hk Hin). congruence.
Qed.

(** ** The type-directed helpers of a completing run *)

(** The status and next run a completed run of a task ends with. *)
Inductive completes (env : SchedulerEnv) (now last : Z) (task : Task) (r : replica) : TaskStatus → option Z → Prop :=
| completes_cron n :
    t_type task = Cron → nonempty (td_trigger_spec (t_def task)) = true →
    computeNextRunAt (extractCronExpression (td_trigger_spec (t_def task))) now = Ok n →
    completes env now last task r TPending (Some n)
| completes_beat v n :
    system_type (t_type task) = true → json_parse (td_trigger_spec (t_def task)) = Some v → v ≠ JNull →
    interval_valid (interval_of v) = true → computeHeartbeatNextRunAt now task last = Ok n →
    completes env now last task r TPending (Some n)
| completes_event :
    t_type task = Event →
    completes env now last task r TPending
      (if (0 <? match ts_thread_id (t_st task) with
                | Some th => if nonempty th then countPendingIntakeDurableWork th (r_durable r) else 0%nat
                | None => 0%nat
                end)%nat then Some now else None)
| completes_deferred :
    t_type task = Deferred → completes env now last task r TCompleted (t_next task).

Definition completed_sets (now : Z) (task : Task) (resultStr : string) : list task_set :=
  [SetStatus TCompleted; SetResult (Some resultStr); SetError (Some ""); SetRunCount (ts_run_count (t_st task) + 1);
   SetLastRun (Some now); SetFailures 0; SetModified now].

Lemma cron_other now task context lease r : t_type task ≠ Cron → rescheduleCronTask now task context lease r = r.
Proof. intros H. unfold rescheduleCronTask, is_type. by rewrite bool_decide_eq_false_2. Qed.
Lemma beat_other now task context last r :
  system_type (t_type task) = false → rescheduleHeartbeat now task context last r = Ok r.
Proof.
  unfold system_type, rescheduleHeartbeat. intros [-> ->]%orb_false_elim. done.
Qed.
Lemma event_other now task context r : t_type task ≠ Event → resetEventTask now task context r = Ok r.
Proof. intros H. unfold resetEventTask, is_type. by rewrite bool_decide_eq_false_2. Qed.

Lemma cron_rearms now task context lease n r t :
  t_type task = Cron → nonempty (td_trigger_spec (t_def task)) = true →
  computeNextRunAt (extractCronExpression (td_trigger_spec (t_def task))) now = Ok n →
  task_at (t_id task) r = Some t → t_lease t = Some lease →
  ∃ t', task_at (t_id task) (rescheduleCronTask now task context (Some lease) r) = Some t' ∧
    t_status t' = TPending ∧ t_next t' = Some n ∧ no_claim t' ∧ runs t' = runs t ∧ failures t' = failures t ∧
    ts_result (t_st t') = ts_result (t_st t).
Proof.
  intros Hty Hspec Hn Ht Hl. unfold rescheduleCronTask, is_type. rewrite bool_decide_eq_true_2, Hspec, Hn by done. simpl.
  unfold updateRowIf. set (sets := (_ ++ [SetModified now])%list).
  destruct (cas_hit (has_lease lease) sets (t_id task) r t Ht) as [-> Hrow].
  { unfold has_lease. by apply bool_decide_eq_true_2. }
  simpl. eexists. split; [exact Hrow|]. subst sets. destruct t as [? []].
  destruct (seqb context "completion"); simpl; by repeat split.
Qed.

Lemma beat_rearms now task context last v n r t :
  system_type (t_type task) = true → json_parse (td_trigger_spec (t_def task)) = Some v → v ≠ JNull →
  interval_valid (interval_of v) = true → computeHeartbeatNextRunAt now task last = Ok n →
  task_at (t_id task) r = Some t →
  ∃ r' t', rescheduleHeartbeat now task context last r = Ok r' ∧ task_at (t_id task) r' = Some t' ∧
    t_status t' = TPending ∧ t_next t' = Some n ∧ runs t' = runs t ∧ failures t' = failures t ∧
    ts_result (t_st t') = ts_result (t_st t).
Proof.
  intros Hty Hv Hnn Hval Hn Ht. unfold rescheduleHeartbeat.
  replace (negb (is_type (t_type task) Heartbeat) && negb (is_type (t_type task) Consolidation)) with false.
  2: { unfold system_type in Hty. destruct (is_type _ Heartbeat), (is_type _ Consolidation); done. }
  rewrite Hv. set (sets := SetNextRun (Some n) :: SetStatus TPending
    :: (if seqb context "completion" then [SetError (Some "")] else [])).
  destruct (update_row_hit now (t_id task) sets r t Ht) as (r' & Hr' & Hrow & _).
  exists r'. eexists. split; [|split; [exact Hrow|]].
  - destruct v; try done; rewrite Hval, Hn; exact Hr'.
  - subst sets. destruct t as [? []]. destruct (seqb context "completion"); simpl; by repeat split.
Qed.

Lemma event_rearms now task context r t :
  t_type task = Event → task_at (t_id task) r = Some t → t_deleted t = false → t_status t ≠ TCancelled →
  is_completion context = true →
  ∃ r' t', resetEventTask now task context r = Ok r' ∧ task_at (t_id task) r' = Some t' ∧
    t_status t' = TPending ∧ no_claim t' ∧ runs t' = runs t ∧ failures t' = failures t ∧
    ts_result (t_st t') = ts_result (t_st t) ∧
    t_next t' = (if (0 <? match ts_thread_id (t_st task) with
                | Some th => if nonempty th then countPendingIntakeDurableWork th (r_durable r) else 0%nat
                | None => 0%nat
                end)%nat then Some now else None).
Proof.
  intros Hty Ht Hd Hc Hctx. unfold resetEventTask, is_type. rewrite bool_decide_eq_true_2 by done. simpl.
  rewrite Ht, Hd, Hctx. unfold has_status. rewrite bool_decide_eq_false_2 by done. simpl.
  match goal with |- context [SetNextRun ?next] =>
    destruct (update_row_hit now (t_id task) (SetStatus TPending :: release_claim ++ [SetNextRun next]) r t Ht)
      as (r' & Hr' & Hrow & _)
  end.
  exists r'. eexists. split; [exact Hr'|]. split; [exact Hrow|]. destruct t as [? []]. simpl. by repeat split.
Qed.

(** * Theorems *)

(** the lease fences a run: once the row no longer carries the run's lease,
    neither half of the run writes anything, whatever the agent loop did. *)
Theorem lost_lease_writes_nothing env now last j outcome r :
  lease_matches j r = false → finish_run env now last j outcome r = r ∧ begin_run env now last j r = (r, None).
Proof.
  intros H. split.
  - unfold finish_run, catch_hard, finish_body. destruct outcome as [error res|e].
    + unfold sbind, sget. by rewrite H.
    + unfold hard_failure, sbind, sget. by rewrite H.
  - unfold begin_run, verifyLeaseStillHeld. unfold lease_matches, has_lease in H.
    destruct (task_at _ r) as [t|]; [|done]. destruct (t_deleted t); [done|].
    destruct (negb (bool_decide (ts_claimed_by (t_st t) = _))); [done|]. by rewrite H.
Qed.

(** a run that completes while it holds the lease leaves its row completed
    and then re-armed by its type: a cron task pending at the next matching
    minute with its claim dropped, a heartbeat or consolidation pending at its
    next boundary, an event task pending (at once when intake is waiting), a
    deferred task completed; the result is stored, one run is counted and the
    failure count is cleared. *)
Theorem completed_run env now last j r t resultStr status next :
  let task := j_task j in
  task_at (t_id task) r = Some t → running_lease (j_lease j) t = true → t_deleted t = false →
  t_next t = t_next task → completes env now last task r status next →
  ∃ t', task_at (t_id task) (finish_run env now last j (Returned None resultStr) r) = Some t' ∧
    t_status t' = status ∧ t_next t' = next ∧ runs t' = runs task + 1 ∧ failures t' = 0 ∧
    ts_result (t_st t') = Some resultStr.
Proof.
  intros task Ht Hrl Hdel Hnx Hc. pose proof Hrl as Hl. unfold running_lease in Hl. apply andb_prop in Hl as [_ Hl].
  unfold finish_run, catch_hard, finish_body, sbind, sget, lease_matches. fold task. rewrite Ht, Hl. simpl.
  unfold completion, sbind, smodify, swrite, updateRowIf. fold task.
  destruct (cas_hit (running_lease (j_lease j)) (completed_sets now task resultStr) (t_id task) r t Ht Hrl) as [Hcas Hrow].
  unfold completed_sets in *. simpl app. rewrite Hcas. cbn [fst].
  set (r1 := set_where _ _ _ r) in *. set (t1 := assign _ t) in *.
  assert (t_status t1 = TCompleted ∧ t_next t1 = t_next task ∧ runs t1 = runs task + 1 ∧ failures t1 = 0 ∧
    ts_result (t_st t1) = Some resultStr ∧ t_lease t1 = t_lease t ∧ t_deleted t1 = false) as (Hs1 & Hn1 & Hr1 & Hf1 & Hres1 & Hl1 & Hd1).
  { rewrite <-Hnx. subst t1. unfold runs at 1. destruct t as [? []]. by repeat split. }
  clearbody t1. assert (r_durable r1 = r_durable r) as Hdur by done. clearbody r1.
  unfold has_lease in Hl. apply bool_decide_eq_true_1 in Hl.
  destruct Hc as [n Hty Hspec Hn|v n Hty Hv Hnn Hval Hn|Hty|Hty].
  - rewrite beat_other by (by rewrite Hty). simpl. rewrite event_other by (by rewrite Hty). simpl.
    destruct (cron_rearms now task "completion" (j_lease j) n r1 t1) as (t' & Hat & ? & ? & _ & ? & ? & ?); [done..|congruence|].
    exists t'. split; [exact Hat|]. split_and!; congruence.
  - assert (t_type task ≠ Cron ∧ t_type task ≠ Event) as [Hnc Hne].
    { split; intros Heq; by rewrite Heq in Hty. }
    rewrite cron_other by done.
    destruct (beat_rearms now task "completion" last v n r1 t1) as (r2 & t' & -> & Hat & ? & ? & ? & ? & ?); [done..|].
    simpl. rewrite event_other by done. simpl. exists t'. split; [exact Hat|]. split_and!; congruence.
  - rewrite cron_other by (by rewrite Hty). rewrite beat_other by (by rewrite Hty). simpl.
    destruct (event_rearms now task "completion" r1 t1) as (r2 & t' & -> & Hat & ? & _ & ? & ? & ? & Hnext); [done..|congruence|done|].
    simpl. exists t'. split; [exact Hat|]. rewrite Hdur in Hnext. split_and!; congruence.
  - rewrite cron_other by (by rewrite Hty). rewrite beat_other by (by rewrite Hty). simpl.
    rewrite event_other by (by rewrite Hty). simpl. exists t1. by split_and!.
Qed.

Definition held_cron : Task :=
  MkTask (t_def hourly)
    (MkTaskState TRunning (Some "a") (Some 3600500) (Some "L") (Some 3600000) None (Some 3600500) 4 2 None None None false 0 false).
Definition held_job : job := MkJob held_cron "L".

Lemma lost_lease_writes_nothing_witness :
  finish_run sample_env 3700000 0 (MkJob held_cron "M") (Threw "late") (one_task held_cron) = one_task held_cron ∧
  begin_run sample_env 3700000 0 (MkJob held_cron "M") (one_task held_cron) = (one_task held_cron, None).
Proof. apply lost_lease_writes_nothing. vm_compute. reflexivity. Defined.

Lemma completed_run_witness :
  ∃ t', task_at "t" (finish_run sample_env 3700000 0 held_job (Returned None "{}") (one_task held_cron)) = Some t' ∧
    t_status t' = TPending ∧ t_next t' = Some 7200000 ∧ runs t' = 5 ∧ failures t' = 0 ∧ ts_result (t_st t') = Some "{}".
Proof.
  apply (completed_run sample_env 3700000 0 held_job (one_task held_cron) held_cron "{}" TPending (Some 7200000)).
  - vm_compute. reflexivity.
  - vm_compute. reflexivity.
  - reflexivity.
  - reflexivity.
  - apply completes_cron; [reflexivity|reflexivity|vm_compute; reflexivity].
Defined.

(** cancelling a running cron task through the web route does not stop its
    schedule: the route sets the status and leaves the lease, so when the run
    completes the completion write misses but the reschedule, guarded by the
    lease alone, sets the cancelled task back to pending at its next minute. *)
Theorem cancelled_cron_rearmed env now now' last j r t resultStr n :
  let task := j_task j in
  task_at (t_id task) r = Some t → running_lease (j_lease j) t = true → t_deleted t = false →
  t_type task = Cron → nonempty (td_trigger_spec (t_def task)) = true →
  computeNextRunAt (extractCronExpression (td_trigger_spec (t_def task))) now' = Ok n →
  (cancel_route now (t_id task) r).2 = OkCancelled ∧
  t_status <$> task_at (t_id task) (cancel_route now (t_id task) r).1 = Some TCancelled ∧
  ∃ t', task_at (t_id task) (finish_run env now' last j (Returned None resultStr) (cancel_route now (t_id task) r).1) = Some t' ∧
    t_status t' = TPending ∧ t_next t' = Some n.
Proof.
  intros task Ht Hrl Hdel Hty Hspec Hn. unfold running_lease in Hrl. apply andb_prop in Hrl as [Hrun Hl].
  unfold cancel_route, live_task. rewrite Ht, Hdel. unfold has_status in *.
  rewrite Hrun, orb_true_r. simpl.
  destruct (update_row_hit now (t_id task) [SetStatus TCancelled] r t Ht) as (r1 & -> & Hrow & _). simpl attempt.
  set (t1 := assign _ t) in *.
  assert (t_status t1 = TCancelled ∧ t_lease t1 = t_lease t) as [Hs1 Hl1] by (by destruct t as [? []]).
  clearbody t1. unfold has_lease in Hl. apply bool_decide_eq_true_1 in Hl. cbn [fst snd].
  split; [done|]. split; [by rewrite Hrow; simpl; rewrite Hs1|].
  unfold finish_run, catch_hard, finish_body, sbind, sget, lease_matches. fold task. rewrite Hrow.
  unfold has_lease at 1. rewrite (bool_decide_eq_true_2 (t_lease t1 = _)) by congruence. simpl.
  unfold completion, sbind, smodify, swrite, updateRowIf. fold task.
  rewrite (cas_miss (running_lease (j_lease j)) _ (t_id task) r1 t1 Hrow).
  2: { unfold running_lease, has_status. rewrite Hs1. done. }
  cbn [fst]. rewrite beat_other by (by rewrite Hty). simpl. rewrite event_other by (by rewrite Hty). simpl.
  destruct (cron_rearms now' task "completion" (j_lease j) n r1 t1) as (t' & Hat & ? & ? & _); [done..|congruence|].
  by exists t'.
Qed.

Lemma cancelled_cron_rearmed_witness :
  (cancel_route 3650000 "t" (one_task held_cron)).2 = OkCancelled ∧
  t_status <$> task_at "t" (cancel_route 3650000 "t" (one_task held_cron)).1 = Some TCancelled ∧
  ∃ t', task_at "t" (finish_run sample_env 3700000 0 held_job (Returned None "{}") (cancel_route 3650000 "t" (one_task held_cron)).1)
      = Some t' ∧ t_status t' = TPending ∧ t_next t' = Some 7200000.
Proof.
  apply (cancelled_cron_rearmed sample_env 3650000 3700000 0 held_job (one_task held_cron) held_cron "{}" 7200000).
  - vm_compute. reflexivity.
  - vm_compute. reflexivity.
  - reflexivity.
  - reflexivity.
  - reflexivity.
  - vm_compute. reflexivity.
Defined.

(** ** Failing runs *)
Inductive fails : loop_outcome → string → Prop :=
| fails_soft e res : nonempty e = true → fails (Returned (Some e) res) e
| fails_hard e : fails (Threw e) e.

Lemma fail_cas_hit now lease e extra id r t : task_at id r = Some t → t_lease t = Some lease →
  let n := ts_consecutive_failures (t_st t) + 1 in
  let r' := set_where (has_lease lease) (SetStatus TFailed :: SetError (Some e) :: extra t ++ [SetFailures n; SetModified now]) id r in
  fail_cas now lease e extra id r = (r', Some n) ∧
  task_at id r' = Some (assign (SetStatus TFailed :: SetError (Some e) :: extra t ++ [SetFailures n; SetModified now]) t).
Proof.
  intros Ht Hl n r'. unfold fail_cas. rewrite Ht. cbv zeta. fold n.
  destruct (cas_hit (has_lease lease) (SetStatus TFailed :: SetError (Some e) :: extra t ++ [SetFailures n; SetModified now]) id r t Ht)
    as [-> Hrow]; [unfold has_lease; by apply bool_decide_eq_true_2|]. done.
Qed.

Lemma advise_task env task e n r id : task_at id (advise env task e n r) = task_at id r.
Proof. unfold advise, triggerFailureAdvisory. by repeat case_match. Qed.
Lemma attempt_message_task m r id : task_at id (attempt r (insert_message m r)) = task_at id r.
Proof. unfold insert_message. by case_match. Qed.

(** a deferred task is retried at most twice: a failing run that holds the
    lease raises the failure count to [n]; up to [DEFERRED_MAX_RETRIES] the task
    waits [n] backoffs and is pending again without a claim, beyond that it
    stays failed at the same next run. *)
Theorem deferred_failure env now last j r t outcome e :
  let task := j_task j in
  let n := failures t + 1 in
  t_type task = Deferred → task_at (t_id task) r = Some t → t_lease t = Some (j_lease j) → fails outcome e →
  ∃ t', task_at (t_id task) (finish_run env now last j outcome r) = Some t' ∧ failures t' = n ∧
    if n <=? DEFERRED_MAX_RETRIES
    then t_status t' = TPending ∧ no_claim t' ∧
         t_next t' = Some (now + default DEFERRED_RETRY_BACKOFF_MS_DEFAULT (e_retryBackoffMs env) * n)
    else t_status t' = TFailed ∧ t_next t' = t_next t ∧ t_lease t' = t_lease t.
Proof.
  intros task n Hty Ht Hl Hout.
  assert (lease_matches j r = true) as Hm.
  { unfold lease_matches. fold task. rewrite Ht. unfold has_lease. by apply bool_decide_eq_true_2. }
  (* the four helpers on a failed row *)
  assert (∀ context r1 t1, task_at (t_id task) r1 = Some t1 → failures t1 = n → t_status t1 = TFailed →
      t_next t1 = t_next t → t_lease t1 = t_lease t →
      ∃ r2 t', rearm env now last task context (j_lease j) n r1 = (r2, Ok tt) ∧ task_at (t_id task) r2 = Some t' ∧ failures t' = n ∧
      if n <=? DEFERRED_MAX_RETRIES
      then t_status t' = TPending ∧ no_claim t' ∧
           t_next t' = Some (now + default DEFERRED_RETRY_BACKOFF_MS_DEFAULT (e_retryBackoffMs env) * n)
      else t_status t' = TFailed ∧ t_next t' = t_next t ∧ t_lease t' = t_lease t) as Hrearm.
  { intros context r1 t1 Hat Hf Hs Hnx Hlx. unfold rearm, sbind, smodify, swrite.
    rewrite cron_other by (by rewrite Hty). rewrite beat_other by (by rewrite Hty).
    unfold retryDeferredTask, is_type. rewrite bool_decide_eq_true_2 by done. simpl negb. cbn [negb].
    destruct (n <=? DEFERRED_MAX_RETRIES) eqn:Hle; bool_props.
    - rewrite (proj2 (Z.ltb_ge _ _)) by lia.
      match goal with |- context [updateRow now (t_id task) ?sets r1] =>
        destruct (update_row_hit now (t_id task) sets r1 t1 Hat) as (r2 & -> & Hrow & _) end.
      cbn [fst]. rewrite event_other by (by rewrite Hty). eexists r2, _. split; [done|]. split; [exact Hrow|].
      destruct t1 as [? []]. by repeat split.
    - rewrite (proj2 (Z.ltb_lt _ _)) by lia. cbn [fst]. rewrite event_other by (by rewrite Hty).
      exists r1, t1. by split_and!. }
  unfold finish_run, catch_hard, finish_body. destruct Hout as [e res He|e].
  - unfold sbind at 1, sget. rewrite Hm. simpl. rewrite He.
    unfold soft_failure, sbind, smodify. fold task.
    destruct (fail_cas_hit now (j_lease j) e
      (λ t, [SetResult (Some res); SetRunCount (ts_run_count (t_st t) + 1); SetLastRun (Some now)]) (t_id task) r t Ht Hl)
      as [-> Hrow].
    match goal with |- context [rearm _ _ _ _ ?c _ _ ?r1] => destruct (Hrearm c r1
      (assign (SetStatus TFailed :: SetError (Some e) :: [SetResult (Some res); SetRunCount (ts_run_count (t_st t) + 1); SetLastRun (Some now)]
        ++ [SetFailures n; SetModified now]) t)) as (r2 & t' & Heq & Hat & Hrest) end.
    + rewrite advise_task. exact Hrow.
    + by destruct t as [? []].
    + by destruct t as [? []].
    + by destruct t as [? []].
    + by destruct t as [? []].
    + unfold n, failures in *. rewrite Heq. simpl. exists t'. auto.
  - unfold hard_failure, sbind, sget, smodify. rewrite Hm. simpl. fold task.
    destruct (fail_cas_hit now (j_lease j) e (λ _, []) (t_id task) r t Ht Hl) as [-> Hrow].
    match goal with |- context [rearm _ _ _ _ ?c _ _ ?r1] => destruct (Hrearm c r1
      (assign (SetStatus TFailed :: SetError (Some e) :: [] ++ [SetFailures n; SetModified now]) t))
      as (r2 & t' & Heq & Hat & Hrest) end.
    + destruct (ts_thread_id (t_st task)) as [th|]; [destruct (nonempty th)|];
        rewrite ?attempt_message_task, advise_task; exact Hrow.
    + by destruct t as [? []].
    + by destruct t as [? []].
    + by destruct t as [? []].
    + by destruct t as [? []].
    + unfold n, failures in *. rewrite Heq. simpl. exists t'. auto.
Qed.

Definition held_deferred : Task :=
  MkTask (t_def (sample_task "d" Deferred None))
    (MkTaskState TRunning (Some "a") (Some 100) (Some "L") (Some 90) None (Some 100) 0 1 None None None false 0 false).

Lemma deferred_failure_witness :
  ∃ t', task_at "d" (finish_run sample_env 1000 0 (MkJob held_deferred "L") (Threw "boom") (one_task held_deferred)) = Some t' ∧
    failures t' = 2 ∧ t_status t' = TPending ∧ t_next t' = Some 11000.
Proof.
  destruct (deferred_failure sample_env 1000 0 (MkJob held_deferred "L") (one_task held_deferred) held_deferred (Threw "boom") "boom")
    as (t' & Hat & Hf & Hs & _ & Hn); [reflexivity|vm_compute; reflexivity|reflexivity|apply fails_hard|].
  exists t'. split; [exact Hat|]. split; [exact Hf|]. split; [exact Hs|exact Hn].
Defined.

(** ** Phase 0, row by row *)
Lemma each_task_at f ts r t :
  NoDup (t_id <$> ts) → (∀ t, t ∈ ts → task_at (t_id t) r = Some t) → (∀ t r, t ∈ ts → frame (t_id t) r (f t r)) →
  t ∈ ts → ∃ r1, task_at (t_id t) r1 = Some t ∧ task_at (t_id t) (each_task f ts r) = task_at (t_id t) (f t r1).
Proof.
  revert r. induction ts as [|x ts IH]; intros r Hnd Hat Hf Ht; [set_solver|].
  rewrite fmap_cons in Hnd. apply NoDup_cons in Hnd as [Hx Hnd]. simpl.
  apply elem_of_cons in Ht as [->|Ht].
  - exists r. split; [apply Hat; set_solver|]. apply each_task_other; [set_solver|done].
  - apply IH; [done| |set_solver|done]. intros t' Ht'. rewrite (Hf x r); [apply Hat; set_solver|set_solver|].
    intros Heq. apply Hx. rewrite <-Heq. by apply list_elem_of_fmap_2.
Qed.

Section PhaseZero.
Context (uuid : replica → string) (now last : Z) (r : replica) (Hk : tasks_wf r).

Definition expired : replica := each_task (expire_one now) (sql_select (stale_claimed (now - LEASE_DURATION)) (r_tasks r)) r.
Definition to_evict (t : Task) : bool :=
  evictable (r_hosts r) (now - EVICTION_TIMEOUT) (now - HOST_OFFLINE_TIMEOUT) (now - ORPHAN_HEARTBEAT_TIMEOUT) t.
Definition evicted : replica := each_task (evict_one uuid now last) (sql_select to_evict (r_tasks expired)) expired.

Lemma phase0_parts : phase0Eviction uuid now last r = (healStuckTasks now last evicted).1.
Proof. unfold phase0Eviction, evicted, to_evict, expired. cbv zeta. by rewrite each_expire_hosts. Qed.

Lemma expired_wf : tasks_wf expired.
Proof using Hk. by apply (reaches_wf _ _ (expiry_reaches "" (r_hosts r) now r Hk)). Qed.
Lemma evicted_wf : tasks_wf evicted.
Proof using Hk. apply (reaches_wf _ _ (evictions_reach "" (r_hosts r) uuid now last expired expired_wf) expired_wf). Qed.

Lemma expired_other id t : task_at id r = Some t → stale_claimed (now - LEASE_DURATION) t = false →
  task_at id expired = Some t.
Proof using Hk.
  intros Ht Hs. unfold expired. rewrite each_task_other; [done|intros; apply frame_attempt_update|].
  by eapply not_selected.
Qed.
Lemma evicted_other id t : task_at id expired = Some t → to_evict t = false → task_at id evicted = Some t.
Proof using Hk.
  intros Ht Hs. unfold evicted. rewrite each_task_other; [done|intros; apply evict_frame|].
  eapply not_selected; [apply expired_wf|done..].
Qed.
Lemma healed_other id t r' : tasks_wf r' → task_at id r' = Some t → stuck (now - STUCK_THRESHOLD) t = false →
  task_at id (healStuckTasks now last r').1 = Some t.
Proof.
  intros Hk' Ht Hs. unfold healStuckTasks. rewrite heal_each_fst, each_task_other; [done|intros; apply heal_one_frame|].
  by eapply not_selected.
Qed.

Lemma stuck_status th t : stuck th t = true → t_status t = TFailed ∨ t_status t = TCancelled ∨ t_status t = TCompleted.
Proof.
  unfold stuck, has_status. intros H. bool_props. destruct (t_type t); bool_props; try done; auto.
  all: repeat match goal with H : _ || _ = true |- _ => apply orb_prop in H as [H|H] end; bool_props; auto.
Qed.
Lemma live_not_stuck th t : t_status t = TRunning ∨ t_status t = TPending ∨ t_status t = TClaimed → stuck th t = false.
Proof.
  intros Hs. destruct (stuck th t) eqn:E; [|done]. apply stuck_status in E.
  destruct Hs as [Hs|[Hs|Hs]], E as [E|[E|E]]; congruence.
Qed.
Lemma running_not_claimed th t : t_status t = TRunning → stale_claimed th t = false.
Proof. intros Hs. unfold stale_claimed, has_status. by rewrite bool_decide_eq_false_2 by congruence. Qed.

(** The write of an eviction on the row it selected. *)
Lemma evict_row t r1 next : task_at (t_id t) r1 = Some t → t_status t = TRunning →
  eviction_next now last (failures t + 1) t = Ok next →
  ∃ t', task_at (t_id t) (evict_one uuid now last t r1) = Some t' ∧ t_status t' = TPending ∧ no_claim t' ∧
    failures t' = failures t + 1 ∧ t_next t' = next ∧ t_type t' = t_type t ∧ runs t' = runs t.
Proof.
  intros Ht Hs Hn. unfold evict_one. fold (failures t). rewrite Hn. unfold updateRowIf.
  match goal with |- context [update_cas ?p ?sets ?id r1] =>
    destruct (cas_hit p sets id r1 t Ht) as [-> Hrow] end.
  { unfold has_status. by apply bool_decide_eq_true_2. }
  eexists. split.
  - case_match; [|exact Hrow]. etrans; [|exact Hrow].
    unfold triggerFailureAdvisory. by case_match.
  - destruct t as [? []]. by repeat split.
Qed.
End PhaseZero.

(** a running task is safe from eviction while its lease is refreshed: phase
    0 changes a running row only when its heartbeat is ten minutes old, and then
    only when its holder is unknown or was last seen ten minutes ago, or the
    heartbeat is twenty minutes old. *)
Theorem phase0_spares_live uuid now last r id t :
  tasks_wf r → task_at id r = Some t → t_status t = TRunning →
  task_at id (phase0Eviction uuid now last r) ≠ Some t →
  before (ts_heartbeat_at (t_st t)) (now - 600000) = true ∧
  (holder_of (r_hosts r) t = None ∨
   (∃ h, holder_of (r_hosts r) t = Some h ∧ before (last_seen h) (now - 600000) = true) ∨
   before (ts_heartbeat_at (t_st t)) (now - 1200000) = true).
Proof.
  intros Hk Ht Hs Hchanged. destruct (to_evict now r t) eqn:He.
  - unfold to_evict, evictable in He. bool_props. split; [done|].
    destruct (holder_of (r_hosts r) t) as [h|]; [|by left]. right.
    match goal with H : _ || _ = true |- _ => apply orb_prop in H as [?|?] end; [left; by exists h|by right].
  - destruct Hchanged. rewrite phase0_parts. apply healed_other.
    + by apply evicted_wf.
    + apply evicted_other; [done| |done]. apply expired_other; [done|done|]. by apply running_not_claimed.
    + apply live_not_stuck. by left.
Qed.

(** an orphaned run is recovered in one tick: a live running row whose
    heartbeat is twenty minutes old is pending again after phase 0, unclaimed,
    with one more failure and the next run its type computes, whatever its
    holder's host reports. *)
Theorem orphan_evicted uuid now last r id t hb next :
  tasks_wf r → task_at id r = Some t → t_status t = TRunning → t_deleted t = false →
  ts_heartbeat_at (t_st t) = Some hb → hb < now - ORPHAN_HEARTBEAT_TIMEOUT →
  eviction_next now last (failures t + 1) t = Ok next →
  ∃ t', task_at id (phase0Eviction uuid now last r) = Some t' ∧ t_status t' = TPending ∧ no_claim t' ∧
    failures t' = failures t + 1 ∧ t_next t' = next.
Proof.
  intros Hk Ht Hs Hd Hhb Hold Hn. pose proof (task_at_id _ _ _ Ht) as Hid. subst id.
  pose proof (expired_other now r Hk _ t Ht (running_not_claimed _ t Hs)) as Hexp.
  assert (to_evict now r t = true) as He.
  { unfold to_evict, evictable, has_status, ORPHAN_HEARTBEAT_TIMEOUT, EVICTION_TIMEOUT in *. rewrite Hhb, Hd. simpl.
    rewrite (bool_decide_eq_true_2 _ Hs), (proj2 (Z.ltb_lt hb (now - 600000))) by lia. simpl.
    destruct (holder_of (r_hosts r) t); [|done].
    rewrite (proj2 (Z.ltb_lt hb _)) by lia. by rewrite orb_true_r. }
  destruct (select_tasks (to_evict now r) (expired now r) (expired_wf now r Hk)) as [Hnd Hsel].
  assert (t ∈ sql_select (to_evict now r) (r_tasks (expired now r))) as Hin.
  { apply elem_of_select. split; [|done]. by apply row_at_Some in Hexp as [? _]. }
  destruct (each_task_at (evict_one uuid now last) _ (expired now r) t Hnd) as (r1 & Hr1 & Hrow);
    [by apply Hsel|intros; apply evict_frame|done|].
  destruct (evict_row uuid now last t r1 next Hr1 Hs Hn) as (t' & Hat & Hst & Hnc & Hf & Hnx & _).
  exists t'. rewrite phase0_parts. split; [|done]. apply healed_other; [by apply evicted_wf| |apply live_not_stuck; auto].
  unfold evicted. by rewrite Hrow.
Qed.

(** an evicted deferred task that is out of retries is stranded: eviction
    leaves it pending, not failed, with no next run, so no later tick, however
    late, finds it due, and the healer does not select it either. *)
Theorem evicted_deferred_stranded uuid now last r id t hb :
  tasks_wf r → task_at id r = Some t → t_status t = TRunning → t_deleted t = false → t_type t = Deferred →
  ts_heartbeat_at (t_st t) = Some hb → hb < now - ORPHAN_HEARTBEAT_TIMEOUT → DEFERRED_MAX_RETRIES ≤ failures t →
  ∃ t', task_at id (phase0Eviction uuid now last r) = Some t' ∧ t_status t' = TPending ∧ t_next t' = None ∧
    ∀ later threshold, due_pending later t' = false ∧ stuck threshold t' = false.
Proof.
  intros Hk Ht Hs Hd Hty Hhb Hold Hf.
  assert (eviction_next now last (failures t + 1) t = Ok None) as Hn.
  { unfold eviction_next. rewrite Hty. by rewrite (proj2 (Z.ltb_lt _ _)) by lia. }
  destruct (orphan_evicted uuid now last r id t hb None) as (t' & Hat & Hst & _ & _ & Hnx); [done..|].
  exists t'. split_and!; [done..|]. intros later th. split; [|apply live_not_stuck; auto].
  unfold due_pending. rewrite Hnx. by rewrite !andb_false_r.
Qed.

(** the healer revives only what is recoverable: a row whose claim is not
    old, or that is cancelled and not a heartbeat, or completed and neither a
    heartbeat nor an event task, or of another type, is left as it was.  In
    particular no consolidation task is ever healed. *)
Theorem healer_scope now last r id t :
  tasks_wf r → task_at id r = Some t →
  (t_type t ≠ Heartbeat ∧ t_status t = TCancelled) ∨
  (t_type t ≠ Heartbeat ∧ t_type t ≠ Event ∧ t_status t = TCompleted) ∨
  (t_type t = Deferred ∧ DEFERRED_MAX_RETRIES ≤ failures t) ∨
  t_type t = Consolidation ∨
  before (ts_claimed_at (t_st t)) (now - STUCK_THRESHOLD) = false →
  task_at id (healStuckTasks now last r).1 = Some t.
Proof.
  intros Hk Ht Hcases. apply healed_other; [done..|]. unfold stuck, has_status, failures in *.
  destruct Hcases as [[Hty Hs]|[(Hty & Hty' & Hs)|[[Hty Hf]|[Hty|Hb]]]].
  - rewrite Hs. destruct (t_type t); try done; simpl; by rewrite ?andb_false_r.
  - rewrite Hs. destruct (t_type t); try done; simpl; by rewrite ?andb_false_r.
  - rewrite Hty. rewrite (proj2 (Z.ltb_ge _ _)) by lia. by rewrite !andb_false_r.
  - rewrite Hty. by rewrite andb_false_r.
  - rewrite Hb. by rewrite andb_false_r.
Qed.

(** ** Instances *)
Lemma one_task_wf t : tasks_wf (one_task t).
Proof. apply NoDup_singleton. Qed.

Definition orphan_deferred : Task :=
  MkTask (t_def (sample_task "d" Deferred None))
    (MkTaskState TRunning (Some "b") (Some 100) (Some "L") (Some 90) None (Some 100) 0 2 None None None false 0 false).
Definition orphan_now : Z := 2000000.

Lemma phase0_spares_live_witness :
  before (ts_heartbeat_at (t_st orphan_deferred)) (orphan_now - 600000) = true.
Proof.
  apply (phase0_spares_live (λ _, "u") orphan_now 0 (one_task orphan_deferred) "d" orphan_deferred (one_task_wf _));
    vm_compute; [reflexivity|reflexivity|discriminate].
Defined.

Lemma orphan_evicted_witness :
  ∃ t', task_at "d" (phase0Eviction (λ _, "u") orphan_now 0 (one_task orphan_deferred)) = Some t' ∧
    t_status t' = TPending ∧ no_claim t' ∧ failures t' = 3 ∧ t_next t' = None.
Proof.
  apply (orphan_evicted (λ _, "u") orphan_now 0 (one_task orphan_deferred) "d" orphan_deferred 100 None (one_task_wf _));
    vm_compute; reflexivity.
Defined.

Lemma evicted_deferred_stranded_witness :
  ∃ t', task_at "d" (phase0Eviction (λ _, "u") orphan_now 0 (one_task orphan_deferred)) = Some t' ∧
    t_status t' = TPending ∧ t_next t' = None ∧ ∀ later threshold, due_pending later t' = false ∧ stuck threshold t' = false.
Proof.
  apply (evicted_deferred_stranded (λ _, "u") orphan_now 0 (one_task orphan_deferred) "d" orphan_deferred 100 (one_task_wf _));
    vm_compute; try reflexivity; discriminate.
Defined.

Definition failed_consolidation : Task :=
  MkTask (t_def (system_task "co" Consolidation 14400000 0))
    (MkTaskState TFailed (Some "b") (Some 100) (Some "L") (Some 90) None (Some 100) 0 2 None None None false 0 false).

Lemma healer_scope_witness :
  task_at "co" (healStuckTasks 100000000 0 (one_task failed_consolidation)).1 = Some failed_consolidation.
Proof.
  apply (healer_scope 100000000 0 (one_task failed_consolidation) "co" failed_consolidation (one_task_wf _)).
  - vm_compute. reflexivity.
  - right; right; right; left. reflexivity.
Defined.

(** A heartbeat failed in the same way is healed. *)
Example heartbeat_healed :
  t_status <$> task_at "hb" (healStuckTasks 100000000 0 (one_task
    (MkTask (t_def (system_task "hb" Heartbeat 1800000 0)) (t_st failed_consolidation)))).1 = Some TPending.
Proof. vm_compute. reflexivity. Qed.

(** ** Boundaries *)
Lemma ratio_den m e : 0 < (ratio m e).2.
Proof. unfold ratio. destruct (0 <=? e) eqn:E; bool_props; simpl; [lia|]. apply Z.pow_pos_nonneg; lia. Qed.
Lemma interval_den spec : 0 < (interval_of spec).2.
Proof. unfold interval_of. repeat case_match; simpl; try lia. apply ratio_den. Qed.

Lemma multiplier_cases now last : computeQuiescenceMultiplier now last ∈ [1; 2; 3; 5; 10].
Proof.
  unfold computeQuiescenceMultiplier. cbn [QUIESCENCE_TIERS rev app List.find fst snd].
  repeat match goal with |- context [if ?b then _ else _] => destruct b end; set_solver.
Qed.

Lemma ceil_to_bounds b a : 0 < b → a ≤ ceil_to b a < a + b ∧ (b | ceil_to b a).
Proof.
  intros Hb. unfold ceil_to. pose proof (Z.div_mod (- a) b) as Hd. pose proof (Z.mod_pos_bound (- a) b Hb).
  split; [nia|]. exists (- (- a / b)). lia.
Qed.

(** the next heartbeat is on the clock: for a valid interval the next run is
    at or after now and before now plus the interval stretched by the
    quiescence multiplier (1, 2, 3, 5 or 10; always 1 for consolidation), and
    for an interval in whole milliseconds it is a multiple of that. *)
Theorem heartbeat_boundary now task last v t :
  0 ≤ now → json_parse (td_trigger_spec (t_def task)) = Some v → interval_valid (interval_of v) = true → v ≠ JNull →
  computeHeartbeatNextRunAt now task last = Ok t →
  ∃ k, k ∈ [1; 2; 3; 5; 10] ∧ (t_type task = Consolidation → k = 1) ∧
    let '(m, d) := interval_of v in
    now ≤ t ∧ t * d < now * d + m * k ∧ (d = 1 → (m * k | t)).
Proof.
  intros Hnow Hv Hval Hnn. unfold computeHeartbeatNextRunAt. rewrite Hv.
  set (k := if is_type (t_type task) Consolidation then 1 else computeQuiescenceMultiplier now last).
  assert (k ∈ [1; 2; 3; 5; 10] ∧ (t_type task = Consolidation → k = 1)) as [Hk Hk1].
  { unfold k, is_type. case_bool_decide; split; [set_solver|done|apply multiplier_cases|done]. }
  clearbody k. intros Ht.
  assert (t = next_boundary now (interval_of v) k) as ->.
  { destruct v; try done; rewrite Hval in Ht; simpl negb in Ht; cbv zeta iota in Ht;
      (destruct (date_in_range _); [by injection Ht|done]). }
  exists k. split; [done|]. split; [done|]. pose proof (interval_den v) as Hd. unfold next_boundary, interval_valid in *.
  destruct (interval_of v) as [m d]. simpl in *. bool_props.
  assert (0 < m * k) as Hb by (set_unfold in Hk; nia).
  destruct (ceil_to_bounds (m * k) (now * d) Hb) as [Hc Hdiv].
  assert (0 ≤ ceil_to (m * k) (now * d)) as Hc0 by nia.
  rewrite Z.quot_div_nonneg by lia. pose proof (Z.div_mod (ceil_to (m * k) (now * d)) d) as Hdm.
  pose proof (Z.mod_pos_bound (ceil_to (m * k) (now * d)) d Hd). split_and!.
  - apply Z.div_le_lower_bound; lia.
  - nia.
  - intros ->. by rewrite Z.div_1_r.
Qed.

Lemma heartbeat_boundary_witness :
  ∃ k, k ∈ [1; 2; 3; 5; 10] ∧ (Heartbeat = Consolidation → k = 1) ∧
    3700000 ≤ 5400000 ∧ 5400000 * 1 < 3700000 * 1 + 1800000 * k ∧ (1 = 1 → (1800000 * k | 5400000)).
Proof.
  apply (heartbeat_boundary 3700000 (system_task "hb" Heartbeat 1800000 0) 3600000
    (JObj [("type", JStr "heartbeat"); ("interval_ms", JInt 1800000)]) 5400000); try (vm_compute; reflexivity); discriminate.
Defined.
