(* ===== verification/FiringProps.v ===== *)
(** * The durable firing lane

    How a pass of [processPendingTaskFire] settles the firing it claims, and the
    composition of the producer, the spool and the lane: a due firing enqueued
    by this host runs once, and its instant is not enqueued again while the
    consumed row stands. *)
From Stdlib Require Import Ascii QArith.
From S2P Require Import Prelude Sql Json DurableWork Cron Tasks TaskResolution EventPayload Scheduler TaskRun LifeCycle SchedulerProps RunProps.
Local Open Scope bound_scope.
Local Open Scope Z_scope.

(** ** Settling a held claim *)
Definition held (i tok : string) (t : dw_table) (c : DurableWorkRow) : Prop :=
  row_at dw_id i t = Some c ∧ dw_claim_state c = Processing ∧ dw_claim_token c = Some tok.

Lemma settle_row f i tok t c : keys_unique dw_id t → (∀ r, dw_id (f r) = dw_id r) → held i tok t c →
  row_at dw_id i (sql_update (owned_by Processing i tok) f t) = Some (f c) ∧
  ∀ j, j ≠ i → row_at dw_id j (sql_update (owned_by Processing i tok) f t) = row_at dw_id j t.
Proof.
  intros Hk Hf (Hc & Hs & Ht).
  destruct (update_id_spec (λ r, in_state Processing r && holds_token tok r) f i t Hk Hf) as [_ Hrow].
  unfold owned_by. split.
  - rewrite Hrow, Hc. simpl. rewrite seqb_refl.
    by rewrite (proj2 (in_state_true Processing c) Hs), (proj2 (holds_token_true tok c) Ht).
  - intros j Hj. rewrite Hrow. destruct (row_at dw_id j t); [|done]. simpl. by apply seqb_false in Hj as ->.
Qed.

(** The claim takes a claimable row, or there is none. *)
Lemma claim_local_cases token now target kind t : dw_wf t →
  (claimLocalDurableWork token now target kind t = (t, None) ∧ ∀ r, r ∈ t → ¬ claimable target kind r) ∨
  ∃ row, row_at dw_id (dw_id row) t = Some row ∧ claimable target kind row ∧
    claimLocalDurableWork token now target kind t = (claim_row token now (dw_id row) t, Some (claim_set token now row)).
Proof.
  intros (Hk & _ & _). unfold claimLocalDurableWork.
  set (cand := if truthy kind then _ else _).
  assert (∀ r, r ∈ order_by dw_created_at cand ↔ r ∈ t ∧ claimable target kind r) as Ho.
  { intros r. rewrite elem_of_order_by. apply candidates_spec. }
  destruct (order_by dw_created_at cand) as [|row rest]; simpl.
  - left. split; [done|]. intros r Hr Hcl. assert (r ∈ []) as []%not_elem_of_nil; by apply Ho.
  - right. exists row. destruct (proj1 (Ho row)) as [Hin Hcl]; [set_solver|]. split; [by apply row_at_elem|done].
Qed.

(** What a settled firing's row becomes, by disposition. *)
Definition settled (c : DurableWorkRow) (d : disposition) (c' : DurableWorkRow) : Prop :=
  match d with
  | NoFiring => False
  | Malformed _ | Interrupted _ true => dw_claim_state c' = DeadLetter
  | SelfClaimed | OverBudget => dw_claim_state c' = Pending ∧ dw_attempt_count c' = dw_attempt_count c
  | Stale _ | BridgeLost | Fired _ => dw_claim_state c' = Consumed
  | Interrupted _ false => dw_claim_state c' = Processing ∧ dw_attempt_count c' = dw_attempt_count c + 1
  end.

(** Which dispositions may have written a task row. *)
Definition writes_tasks (d : disposition) : bool :=
  match d with OverBudget | Fired _ | Interrupted AtBudget _ | Interrupted AtRun _ => true | _ => false end.

Section Lane.
Context (env : SchedulerEnv).

(** The spool after a settlement of the claim [c], held in [t]. *)
Inductive settles (t : dw_table) (c : DurableWorkRow) : dw_table → disposition → Prop :=
| settles_dead d now e :
    (∃ e', d = Malformed e') ∨ (∃ st, d = Interrupted st true) →
    settles t c (sql_update (owned_by Processing (dw_id c) (default "" (dw_claim_token c))) (dead_set now (Some e) false) t) d
| settles_release d :
    d = SelfClaimed ∨ d = OverBudget →
    settles t c (sql_update (owned_by Processing (dw_id c) (default "" (dw_claim_token c))) release_set t) d
| settles_ack d now :
    (∃ s, d = Stale s) ∨ d = BridgeLost ∨ (∃ j, d = Fired j) →
    settles t c (sql_update (owned_by Processing (dw_id c) (default "" (dw_claim_token c))) (consume_set now) t) d
| settles_leave st : settles t c t (Interrupted st false).

Lemma interrupted_settles now c st e r :
  let '(r', d) := interrupted now c (default "" (dw_claim_token c)) st e r in
  settles (r_durable r) c (r_durable r') d ∧ r_tasks r' = r_tasks r ∧ ∃ b, d = Interrupted st b.
Proof.
  unfold interrupted. destruct (_ <=? _).
  - split; [|split; [done|by exists true]]. apply settles_dead. right. by exists st.
  - split; [constructor|]. split; [done|by exists false].
Qed.

Lemma update_cas_durable p sets id r : r_durable (update_cas p sets id r).1 = r_durable r.
Proof. unfold update_cas. by repeat case_match. Qed.
Lemma attempt_durable now id sets r : r_durable (attempt r (updateRow now id sets r)) = r_durable r.
Proof. unfold updateRow. by case_match. Qed.

Lemma bridge_settles now fault c due r :
  let '(r', d) := bridge env now fault c (default "" (dw_claim_token c)) due r in
  settles (r_durable r) c (r_durable r') d ∧ (writes_tasks d = false → r_tasks r' = r_tasks r).
Proof.
  unfold bridge. destruct (faults fault AtBridge) as [e|].
  { pose proof (interrupted_settles now c AtBridge e r) as Hi. destruct (interrupted _ _ _ _ _ r) as [r' d].
    destruct Hi as (? & ? & _). done. }
  pose proof (update_cas_durable (has_status TPending)
    [SetStatus TClaimed; SetClaimedBy (Some (e_siteId env)); SetClaimedAt (Some now)] (t_id due) r) as Hd.
  pose proof (update_cas_won (has_status TPending)
    [SetStatus TClaimed; SetClaimedBy (Some (e_siteId env)); SetClaimedAt (Some now)] (t_id due) r) as Hw.
  unfold claim_cas. destruct (update_cas _ _ _ r) as [r1 b]. simpl in Hd. destruct (Hw r1 b eq_refl) as [_ Hlost].
  rewrite <-Hd. destruct b; simpl negb; cbv iota.
  2: { split; [apply settles_ack; auto|]. intros _. by rewrite Hlost. }
  destruct (faults fault AtBudget) as [e|].
  { pose proof (interrupted_settles now c AtBudget e r1) as Hi. destruct (interrupted _ _ _ _ _ r1) as [r' d].
    destruct Hi as (? & _ & [b ->]). done. }
  destruct (shouldSkipDueToBudget _ _ _ _).
  { split; [|done]. pose proof (attempt_durable now (t_id due) [SetStatus TPending; SetClaimedBy None; SetClaimedAt None] r1) as Hb.
    unfold release_over_budget. rewrite <-Hb. apply settles_release. auto. }
  destruct (faults fault AtRun) as [e|].
  { pose proof (interrupted_settles now c AtRun e r1) as Hi. destruct (interrupted _ _ _ _ _ r1) as [r' d].
    destruct Hi as (? & _ & [b ->]). done. }
  unfold runTask, run_cas.
  match goal with |- context [update_cas ?p ?sets ?id r1] =>
    pose proof (update_cas_durable p sets id r1) as Hd2; destruct (update_cas p sets id r1) as [r2 won] end.
  simpl in Hd2. split; [|done]. rewrite <-Hd2. apply settles_ack. right. right. by eexists.
Qed.

Lemma process_settles now fault r :
  let '(t1, claimed) := claimLocalDurableWork (e_uuid env r) now (e_siteId env) (Some "task_fire") (r_durable r) in
  let '(r', d) := processPendingTaskFire env now fault r in
  match claimed with
  | None => r' = r ∧ d = NoFiring
  | Some c => settles t1 c (r_durable r') d ∧ (writes_tasks d = false → r_tasks r' = r_tasks r)
  end.
Proof.
  unfold processPendingTaskFire. destruct (claimLocalDurableWork _ _ _ _ _) as [t1 [c|]]; [|done].
  set (r0 := with_durable t1 r). change t1 with (r_durable r0). change (r_tasks r) with (r_tasks r0). clearbody r0.
  destruct (parseTaskFirePayload env _) as [err|payload]; [split; [|done]; apply settles_dead; left; by eexists|].
  destruct (faults fault AtBinding) as [e|].
  { pose proof (interrupted_settles now c AtBinding e r0) as Hi. destruct (interrupted _ _ _ _ _ r0) as [r' d].
    destruct Hi as (? & ? & _). done. }
  destruct (live_task _ r0) as [due|] eqn:Hlive; destruct (classifyStaleFiring _ _) as [stale|] eqn:Hcl; cbv iota beta.
  - destruct (self_owned_crash_window env stale _);
      (split; [|done]); [apply settles_release; auto|apply settles_ack; left; by eexists].
  - apply bridge_settles.
  - destruct (self_owned_crash_window env stale _);
      (split; [|done]); [apply settles_release; auto|apply settles_ack; left; by eexists].
  - done.
Qed.

Lemma settles_settled t c0 tok now t' d :
  keys_unique dw_id t → held (dw_id c0) tok t (claim_set tok now c0) → 0 ≤ dw_attempt_count c0 →
  settles t (claim_set tok now c0) t' d →
  ∃ c', row_at dw_id (dw_id c0) t' = Some c' ∧ settled c0 d c' ∧
        ∀ j, j ≠ dw_id c0 → row_at dw_id j t' = row_at dw_id j t.
Proof.
  intros Hk Hh Ha Hs. destruct Hs as [d now' e Hd|d Hd|d now' Hd|st]; simpl in *.
  - destruct (settle_row (dead_set now' (Some e) false) (dw_id c0) tok t _ Hk (λ _, eq_refl) Hh) as [Hr Ho].
    eexists. split; [exact Hr|]. split; [|exact Ho]. destruct Hd as [[? ->]|[? ->]]; done.
  - destruct (settle_row release_set (dw_id c0) tok t _ Hk (λ _, eq_refl) Hh) as [Hr Ho].
    eexists. split; [exact Hr|]. split; [|exact Ho]. destruct Hd as [-> | ->]; simpl; (split; [done|lia]).
  - destruct (settle_row (consume_set now') (dw_id c0) tok t _ Hk (λ _, eq_refl) Hh) as [Hr Ho].
    eexists. split; [exact Hr|]. split; [|exact Ho]. destruct Hd as [[? ->]|[->|[? ->]]]; done.
  - eexists. split; [apply Hh|]. by split.
Qed.
End Lane.

(** * Theorems *)

(** C21: the disposition matrix of the firing lane: a pass either finds nothing to
    claim and changes nothing, or settles exactly one pending firing of this
    host by its disposition: malformed and exhausted ones are dead-lettered,
    stale, lost and executed ones consumed, deferred ones returned to pending
    with their attempt given back, interrupted ones left claimed with the
    attempt charged; every other row of the spool keeps its state, and only a
    bridged firing touches the tasks. *)
Theorem disposition_matrix env now fault r r' d :
  dw_wf (r_durable r) → processPendingTaskFire env now fault r = (r', d) →
  (d = NoFiring ∧ r' = r ∧ ∀ x, x ∈ r_durable r → ¬ claimable (e_siteId env) (Some "task_fire") x) ∨
  (∃ c c', row_at dw_id (dw_id c) (r_durable r) = Some c ∧ claimable (e_siteId env) (Some "task_fire") c ∧
     row_at dw_id (dw_id c) (r_durable r') = Some c' ∧ settled c d c' ∧
     (∀ j, j ≠ dw_id c → row_at dw_id j (r_durable r') = row_at dw_id j (r_durable r)) ∧
     (writes_tasks d = false → r_tasks r' = r_tasks r)).
Proof.
  intros Hwf Hp. pose proof (process_settles env now fault r) as Hs. rewrite Hp in Hs.
  destruct (claim_local_cases (e_uuid env r) now (e_siteId env) (Some "task_fire") (r_durable r) Hwf)
    as [[Heq Hnone]|(c & Hc & Hcl & Heq)]; rewrite Heq in Hs.
  - left. destruct Hs as [-> ->]. done.
  - right. destruct Hs as [Hset Htasks].
    pose proof (proj1 Hwf) as Hk. pose proof (claim_row_keys (e_uuid env r) now (dw_id c) _ Hk) as Hk1.
    assert (row_at dw_id (dw_id c) (claim_row (e_uuid env r) now (dw_id c) (r_durable r))
      = Some (claim_set (e_uuid env r) now c)) as Hrow.
    { rewrite claim_row_row, Hc. simpl. rewrite seqb_refl. destruct Hcl as (Hst & _ & _).
      by rewrite (proj2 (in_state_true Pending c) Hst). }
    destruct (settles_settled _ c (e_uuid env r) now (r_durable r') d Hk1) as (c' & Hc' & Hd & Hoth); [by split|..|exact Hset|].
    { destruct Hwf as (_ & _ & Hall). rewrite Forall_forall in Hall. apply row_at_Some in Hc as [Hin _].
      by destruct (Hall c Hin) as (_ & _ & _ & _ & _ & ? & _). }
    exists c, c'. split_and!; [done..| |done].
    intros j Hj. rewrite Hoth by done. rewrite claim_row_row. destruct (row_at dw_id j (r_durable r)); [|done]. simpl.
    by apply seqb_false in Hj as ->.
Qed.

(** ** From the due task to the run *)
Section Fire.
Context (env : SchedulerEnv).

Lemma fire_payload_parses p : nonempty (tf_task_id p) = true → nonempty (tf_scheduled_at p) = true →
  is_Some (e_parseDate env (tf_scheduled_at p)) →
  parseTaskFirePayload env (json_stringify (fire_payload p)) = inr p.
Proof.
  intros Hi Ha [t Ht]. unfold parseTaskFirePayload. rewrite json_roundtrip.
  2: { simpl. split; [|done]. repeat constructor; set_solver. }
  destruct p as [i a]. simpl in *. by rewrite Hi, Ha, Ht.
Qed.

Lemma enqueue_inserts now t at_ r r1 : t_next t = Some at_ → enqueueTaskFire env now t r = Ok (r1, true) →
  let row := new_row now (fire_work env (e_uuid env r) now (fire_of t at_)) in
  r1 = with_durable (r_durable r ++ [row]) r ∧ ∀ old, old ∈ r_durable r → dw_clash old row = false.
Proof.
  intros Hn. unfold enqueueTaskFire. rewrite Hn. unfold insertDurableWork.
  destruct (validateDurableWork _) as [[]|]; [|done]. cbn [result_bind].
  destruct (insert_or_ignore_cases dw_clash (new_row now (fire_work env (e_uuid env r) now (fire_of t at_))) (r_durable r))
    as [[-> _]|[-> Hc]]; cbn; [done|]. by intros [= <-].
Qed.

Lemma enqueue_fenced now t at_ r row : t_next t = Some at_ → row ∈ r_durable r → dw_kind row = "task_fire" →
  dw_idempotency_key row = taskFireIdempotencyKey (fire_of t at_) →
  ∀ r' b, enqueueTaskFire env now t r = Ok (r', b) → b = false ∧ r_durable r' = r_durable r.
Proof.
  intros Hn Hrow Hkind Hkey r' b. unfold enqueueTaskFire. rewrite Hn. unfold insertDurableWork.
  destruct (validateDurableWork _) as [[]|]; [|done]. cbn [result_bind].
  destruct (insert_or_ignore_cases dw_clash (new_row now (fire_work env (e_uuid env r) now (fire_of t at_))) (r_durable r))
    as [[-> _]|[_ Hc]]; cbn; [by intros [= <- <-]|].
  specialize (Hc row Hrow). unfold dw_clash in Hc. simpl in Hc. by rewrite Hkind, Hkey, !seqb_refl, orb_true_r in Hc.
Qed.

Lemma budget_cong now t t' r r' : t_def t' = t_def t → r_turns r' = r_turns r →
  shouldSkipDueToBudget env now t' r' = shouldSkipDueToBudget env now t r.
Proof. intros Hd Ht. unfold shouldSkipDueToBudget. by rewrite Hd, Ht. Qed.

(** A started row: claimed by this host, running under a lease drawn from the uuid
    supply at the store the claim left. *)
Definition started (now : Z) (t : Task) (r2 : replica) (j : job) : Prop :=
  ∃ rs tc, task_at (t_id t) rs = Some tc ∧ t_status tc = TClaimed ∧ ts_claimed_by (t_st tc) = Some (e_siteId env) ∧
    t_lease tc = t_lease t ∧ j = MkJob tc (e_uuid env rs) ∧
    task_at (t_id t) r2
      = Some (assign [SetStatus TRunning; SetLease (Some (e_uuid env rs)); SetHeartbeat (Some now)] tc).

(** With nothing claimable the lane changes nothing. *)
Lemma idle_lane now fault r : dw_wf (r_durable r) →
  (∀ x, x ∈ r_durable r → ¬ claimable (e_siteId env) (Some "task_fire") x) →
  processPendingTaskFire env now fault r = (r, NoFiring).
Proof.
  intros Hwf Hno. unfold processPendingTaskFire.
  destruct (claim_local_cases (e_uuid env r) now (e_siteId env) (Some "task_fire") (r_durable r) Hwf)
    as [[-> _]|(c & Hc & Hcl & _)]; [done|]. apply row_at_Some in Hc as [Hin _]. by destruct (Hno c Hin).
Qed.

(** A live, pending task whose claim and start meet no obstacle is started. *)
Lemma bridge_starts now c tok t r : task_at (t_id t) r = Some t → t_status t = TPending →
  shouldSkipDueToBudget env now t r = false →
  ∃ r2 j, bridge env now None c tok t r = (ack now (dw_id c) tok r2, Fired (Some j)) ∧ r_durable r2 = r_durable r ∧
    started now t r2 j.
Proof.
  intros Ht Hs Hbud. unfold bridge, claim_cas. cbn [faults].
  match goal with |- context [update_cas ?p ?sets ?id r] => destruct (cas_hit p sets id r t Ht) as [-> Hrow] end.
  { unfold has_status. by apply bool_decide_eq_true_2. }
  simpl negb. cbv iota. set (r1 := set_where _ _ _ r) in *.
  rewrite (budget_cong now t _ r r1) by done. rewrite Hbud. unfold runTask, run_cas.
  match goal with |- context [update_cas ?p ?sets ?id r1] =>
    destruct (cas_hit p sets id r1 _ Hrow) as [Hcas Hrow2]; [|] end.
  { unfold claimed_by_us, has_status. destruct t as [? []]. by rewrite !bool_decide_eq_true_2. }
  rewrite Hcas. eexists _, _. split; [done|]. split; [done|].
  eexists r1, _. split; [exact Hrow|]. split; [by destruct t as [? []]|]. split; [by destruct t as [? []]|].
  split; [by destruct t as [? []]|]. split; [done|exact Hrow2].
Qed.
End Fire.

(** C22: a due firing runs, once: when the producer enqueues the firing of a live
    pending task, no other firing is waiting for this host, the budget does not
    stop it and the pass meets no fault, the next pass claims it, consumes it and
    starts the task: claimed by this host, then running under a lease drawn from
    the uuid supply at that moment (another than the row had, if the supply does
    not repeat it).  Then the lane has nothing left to do, and as long as the
    consumed row stands, whatever else was written to the spool, no attempt
    enqueues the same instant of the task again. *)
Theorem firing_runs_once env now now' r t at_ r1 :
  dw_wf (r_durable r) → (∀ x, x ∈ r_durable r → ¬ claimable (e_siteId env) (Some "task_fire") x) →
  task_at (t_id t) r = Some t → t_status t = TPending → t_deleted t = false → t_next t = Some at_ →
  nonempty (t_id t) = true → nonempty (toISOString at_) = true → e_parseDate env (toISOString at_) = Some at_ →
  shouldSkipDueToBudget env now' t r = false → enqueueTaskFire env now t r = Ok (r1, true) →
  ∃ r2 j fired, processPendingTaskFire env now' None r1 = (r2, Fired (Some j)) ∧
    started env now' t r2 j ∧ ((∀ x, t_lease t ≠ Some (e_uuid env x)) → t_lease t ≠ Some (j_lease j)) ∧
    (∀ later fault, processPendingTaskFire env later fault r2 = (r2, NoFiring)) ∧
    fired ∈ r_durable r2 ∧ dw_claim_state fired = Consumed ∧
    ∀ later t2 r3 r4 b, fired ∈ r_durable r3 → t_id t2 = t_id t → t_next t2 = Some at_ →
      enqueueTaskFire env later t2 r3 = Ok (r4, b) → b = false ∧ r_durable r4 = r_durable r3.
Proof.
  intros Hwf Hnone Ht Hs Hd Hn Hid Hiso Hparse Hbud Henq.
  destruct (enqueue_inserts env now t at_ r r1 Hn Henq) as [-> Hclash].
  set (row := new_row now _) in *.
  assert (dw_wf (r_durable r ++ [row])) as Hwf1.
  { unfold enqueueTaskFire in Henq. rewrite Hn in Henq. destruct (insertDurableWork _ _ _ _ _) as [[[d b] evs]|] eqn:Hins; [|done].
    injection Henq as Hdur _. rewrite <-Hdur. eapply shape_wf; [by eapply insert_shape|done]. }
  assert (claimable (e_siteId env) (Some "task_fire") row) as Hrow by (by repeat split).
  set (ra := with_durable (r_durable r ++ [row]) r) in *. set (tok := e_uuid env ra).
  destruct (claim_local_cases tok now' (e_siteId env) (Some "task_fire") (r_durable r ++ [row]) Hwf1)
    as [[_ Hno]|(c & Hc & Hcl & Heq)]; [by destruct (Hno row); [set_solver|]|].
  assert (c = row) as ->.
  { apply row_at_Some in Hc as [[Hin|Hin]%elem_of_app _]; [by destruct (Hnone c Hin)|by apply list_elem_of_singleton in Hin]. }
  set (t1 := claim_row tok now' (dw_id row) (r_durable r ++ [row])) in *.
  assert (dw_exec (OpClaimLocal tok now' (e_siteId env) (Some "task_fire")) (r_durable r ++ [row])%list = t1) as Hclaimed
    by (cbn [dw_exec]; by rewrite Heq).
  set (rb := with_durable t1 ra).
  destruct (bridge_starts env now' (claim_set tok now' row) tok t rb) as (r2 & j & Hbr & Hdur & Hstart);
    [done|done|by rewrite (budget_cong env now' t t r rb)|].
  assert (processPendingTaskFire env now' None ra = (ack now' (dw_id row) tok r2, Fired (Some j))) as Hproc.
  { unfold processPendingTaskFire. change (r_durable ra) with (r_durable r ++ [row])%list. fold tok. rewrite Heq.
    change (dw_payload (claim_set tok now' row)) with (json_stringify (fire_payload (fire_of t at_))).
    rewrite fire_payload_parses by (simpl; eauto). cbn [faults].
    change (tf_task_id (fire_of t at_)) with (t_id t). unfold live_task.
    change (task_at (t_id t) (with_durable t1 ra)) with (task_at (t_id t) r). rewrite Ht, Hd.
    unfold classifyStaleFiring. rewrite Hn. unfold has_status. rewrite (bool_decide_eq_true_2 _ Hs). simpl negb.
    change (tf_scheduled_at (fire_of t at_)) with (toISOString at_). rewrite Hparse, bool_decide_eq_true_2 by done.
    exact Hbr. }
  pose proof (proj1 Hwf1) as Hk1. pose proof (claim_row_keys tok now' (dw_id row) _ Hk1) as Hkc. fold t1 in Hkc.
  assert (row_at dw_id (dw_id row) t1 = Some (claim_set tok now' row)) as Hheld.
  { unfold t1. rewrite claim_row_row, Hc. simpl. by rewrite seqb_refl. }
  destruct (settle_row (consume_set now') (dw_id row) tok t1 (claim_set tok now' row) Hkc (λ _, eq_refl)) as [Hcons Hoth]; [by split|].
  assert (r_durable (ack now' (dw_id row) tok r2) = sql_update (owned_by Processing (dw_id row) tok) (consume_set now') t1) as Hfin.
  { unfold ack. simpl. by rewrite Hdur. }
  assert (∀ x, x ∈ sql_update (owned_by Processing (dw_id row) tok) (consume_set now') t1 →
    ¬ claimable (e_siteId env) (Some "task_fire") x) as Hidle.
  { intros x Hx (Hst & Htg & Hkd).
    assert (keys_unique dw_id (sql_update (owned_by Processing (dw_id row) tok) (consume_set now') t1)) as Hkf.
    { unfold keys_unique. by rewrite update_fmap. }
    pose proof (row_at_elem dw_id (dw_id x) _ x Hkf Hx eq_refl) as Hxr.
    destruct (decide (dw_id x = dw_id row)) as [He|Hne].
    + rewrite He, Hcons in Hxr. injection Hxr as <-. done.
    + rewrite Hoth in Hxr by done. unfold t1 in Hxr. rewrite claim_row_row in Hxr.
      destruct (row_at dw_id (dw_id x) (r_durable r ++ [row])) as [y|] eqn:Hy; [|done]. simpl in Hxr.
      apply seqb_false in Hne as Hsq. simpl in Hsq. rewrite Hsq in Hxr. injection Hxr as ->.
      apply row_at_Some in Hy as [[Hy|Hy]%elem_of_app _]; [by destruct (Hnone x Hy)|].
      apply list_elem_of_singleton in Hy. by subst x. }
  exists (ack now' (dw_id row) tok r2), j, (consume_set now' (claim_set tok now' row)).
  split; [exact Hproc|]. split; [exact Hstart|]. split.
  { intros Hfresh. destruct Hstart as (rs & tc & _ & _ & _ & _ & -> & _). apply Hfresh. }
  split; [|split; [|split; [done|]]].
  - intros later fault. apply idle_lane; [|by rewrite Hfin]. unfold ack. simpl. rewrite Hdur.
    apply (shape_wf _ _ (exec_shape (OpAcknowledge now' (dw_id row) tok) t1)). rewrite <-Hclaimed. simpl.
    exact (shape_wf _ _ (exec_shape (OpClaimLocal tok now' (e_siteId env) (Some "task_fire")) _) Hwf1).
  - rewrite Hfin. by apply row_at_Some in Hcons as [? _].
  - intros later t2 r3 r4 b Hr3 Hid2 Hn2 Henq2.
    eapply (enqueue_fenced env later t2 at_ r3 (consume_set now' (claim_set tok now' row))); [done..| |exact Henq2].
    unfold fire_of. by rewrite Hid2.
Qed.

(** ** Instances *)
Definition due_world : replica := one_task hourly.

Definition enqueued_world : replica :=
  match enqueueTaskFire sample_env 3600500 hourly due_world with Ok (r1, _) => r1 | Throw _ => due_world end.

Lemma firing_runs_once_witness :
  ∃ r2 j fired, processPendingTaskFire sample_env 3600600 None enqueued_world = (r2, Fired (Some j)) ∧
    started sample_env 3600600 hourly r2 j ∧ t_lease hourly ≠ Some (j_lease j) ∧ fired ∈ r_durable r2 ∧
    dw_claim_state fired = Consumed.
Proof.
  destruct (firing_runs_once sample_env 3600500 3600600 due_world hourly 3600000 enqueued_world)
    as (r2 & j & fired & H1 & H2 & H3 & _ & H4 & H5 & _).
  - exact dw_wf_nil.
  - intros x Hx. inversion Hx.
  - vm_compute. reflexivity.
  - reflexivity.
  - reflexivity.
  - reflexivity.
  - reflexivity.
  - vm_compute. reflexivity.
  - vm_compute. reflexivity.
  - vm_compute. reflexivity.
  - vm_compute. reflexivity.
  - exists r2, j, fired. split_and!; try assumption. apply H3. intros x H. vm_compute in H. discriminate H.
Defined.

Definition malformed_world : replica :=
  with_durable (dw_run [OpInsert false false 5 (MkNewWork "w" "a" "task_fire" "[]" "k" None None None None None None)] [])
    due_world.

Lemma disposition_matrix_witness :
  let '(r', d) := processPendingTaskFire sample_env 3600600 None malformed_world in
  d = Malformed "task_id must be a non-empty string" ∧
  ∃ c c', row_at dw_id (dw_id c) (r_durable malformed_world) = Some c ∧
    row_at dw_id (dw_id c) (r_durable r') = Some c' ∧ settled c d c' ∧ r_tasks r' = r_tasks malformed_world.
Proof.
  destruct (processPendingTaskFire sample_env 3600600 None malformed_world) as [r' d] eqn:E.
  assert (d = Malformed "task_id must be a non-empty string") as Hd.
  { vm_compute in E. injection E as _ <-. reflexivity. }
  split; [exact Hd|].
  destruct (disposition_matrix sample_env 3600600 None malformed_world r' d) as [(H & _ & _)|(c & c' & H1 & _ & H2 & H3 & _ & H4)].
  - apply run_wf, dw_wf_nil.
  - exact E.
  - rewrite Hd in H. discriminate H.
  - exists c, c'. split; [exact H1|]. split; [exact H2|]. split; [exact H3|]. apply H4. rewrite Hd. reflexivity.
Defined.
