(* ===== verification/LeaderElection.v ===== *)
(** * Platform leadership (packages/platforms/src/leader-election.ts)

    One host's elector for one platform as an event-driven machine over its
    replica of [cluster_config] and [hosts].  The code between two awaits runs
    without interruption, so an event is a call of [start] or [stop], the firing
    of an interval timer, the settlement of the connector's [connect] or
    [disconnect], or a change of the replica by synchronization.  Timers have
    identities: a handle that is overwritten leaves its timer running.  Spans,
    metrics and logging are left out; [HOST_HEARTBEAT_INTERVAL] is that of
    packages/core/src/host-heartbeat.ts. *)
From S2P Require Import Prelude Tasks Scheduler.

Record ConfigRow := MkConfig { cc_value : string; cc_modified_at : Z; cc_deleted : bool }.
Record LeaderHost := MkLeaderHost { lh_modified_at : Z; lh_deleted : bool }.
(** The row of the platform's leader key, the hosts, and the values written to
    the outbox for the key. *)
Record election_db := MkElection {
  leader_row : option ConfigRow; host_rows : gmap string LeaderHost; leader_log : list (string * Z) }.

Inductive timer_kind := Staleness | Ownership.
Inductive await_kind := Connecting | Disconnecting.
Record elector := MkElector {
  isLeaderFlag : bool; stalenessTimer : option nat; ownershipTimer : option nat;
  live_timers : list (nat * timer_kind); next_timer : nat; awaiting : list await_kind }.
Definition new_elector : elector := MkElector false None None [] 0 [].

Section elector.
Context (siteId : string) (failover_threshold_ms : Z).

Definition live_value (db : election_db) : option string :=
  match leader_row db with Some r => if cc_deleted r then None else Some (cc_value r) | None => None end.
(** The join of the live leader row with the live host it names. *)
Definition leader_modified_at (db : election_db) : option Z :=
  match live_value db with
  | Some v => match host_rows db !! v with Some h => if lh_deleted h then None else Some (lh_modified_at h) | None => None end
  | None => None
  end.

Definition set_timer (k : timer_kind) (e : elector) : elector :=
  let live := (next_timer e, k) :: live_timers e in
  match k with
  | Staleness => MkElector (isLeaderFlag e) (Some (next_timer e)) (ownershipTimer e) live (S (next_timer e)) (awaiting e)
  | Ownership => MkElector (isLeaderFlag e) (stalenessTimer e) (Some (next_timer e)) live (S (next_timer e)) (awaiting e)
  end.
Definition cancel (t : option nat) (l : list (nat * timer_kind)) : list (nat * timer_kind) :=
  match t with Some i => List.filter (λ p, negb (p.1 =? i)%nat) l | None => l end.
Definition clear_timer (k : timer_kind) (e : elector) : elector :=
  match k with
  | Staleness => MkElector (isLeaderFlag e) None (ownershipTimer e) (cancel (stalenessTimer e) (live_timers e)) (next_timer e) (awaiting e)
  | Ownership => MkElector (isLeaderFlag e) (stalenessTimer e) None (cancel (ownershipTimer e) (live_timers e)) (next_timer e) (awaiting e)
  end.
Definition set_leader (b : bool) (e : elector) : elector :=
  MkElector b (stalenessTimer e) (ownershipTimer e) (live_timers e) (next_timer e) (awaiting e).
Definition await_ (k : await_kind) (e : elector) : elector :=
  MkElector (isLeaderFlag e) (stalenessTimer e) (ownershipTimer e) (live_timers e) (next_timer e) (k :: awaiting e).
Fixpoint remove_one (k : await_kind) (l : list await_kind) : option (list await_kind) :=
  match l with
  | [] => None
  | x :: l' => match x, k with
               | Connecting, Connecting | Disconnecting, Disconnecting => Some l'
               | _, _ => match remove_one k l' with Some l'' => Some (x :: l'') | None => None end
               end
  end.
Definition settled (k : await_kind) (e : elector) : option elector :=
  match remove_one k (awaiting e) with
  | Some l => Some (MkElector (isLeaderFlag e) (stalenessTimer e) (ownershipTimer e) (live_timers e) (next_timer e) l)
  | None => None
  end.

(** Up to the await of [connect]. *)
Definition claimLeadership (now : Z) (e : elector) (db : election_db) : elector * election_db :=
  (await_ Connecting (set_leader true e),
   MkElection (Some (MkConfig siteId now false)) (host_rows db) (leader_log db ++ [(siteId, now)])).
Definition startStalenessCheck (e : elector) : elector := set_timer Staleness (set_leader false e).
Definition startOwnershipWatch (e : elector) : elector := set_timer Ownership e.

Definition start (now : Z) (e : elector) (db : election_db) : elector * election_db :=
  match live_value db with
  | None => claimLeadership now e db
  | Some v => if seqb v siteId then claimLeadership now e db else (startStalenessCheck e, db)
  end.
Definition stop (e : elector) : elector := set_leader false (clear_timer Ownership (clear_timer Staleness e)).

Definition staleness_tick (now : Z) (e : elector) (db : election_db) : elector * election_db :=
  match leader_modified_at db with
  | None => claimLeadership now (clear_timer Staleness e) db
  | Some m => if failover_threshold_ms <? now - m then claimLeadership now (clear_timer Staleness e) db else (e, db)
  end.
Definition ownership_tick (e : elector) (db : election_db) : elector :=
  match live_value db with
  | None => e
  | Some v => if seqb v siteId then e else await_ Disconnecting (set_leader false (clear_timer Ownership e))
  end.

Inductive election_event :=
| EStart (now : Z)
| EStop
| ETimer (id : nat) (now : Z)
| EConnected (ok : bool)
| EDisconnected
| ESync (row : option ConfigRow) (hosts : gmap string LeaderHost).

(** An event that cannot happen (a dead timer, nothing to settle) changes
    nothing. *)
Definition election_step (ev : election_event) (s : elector * election_db) : elector * election_db :=
  let '(e, db) := s in
  match ev with
  | EStart now => start now e db
  | EStop => (stop e, db)
  | ETimer id now =>
      match List.find (λ p, (p.1 =? id)%nat) (live_timers e) with
      | Some (_, Staleness) => staleness_tick now e db
      | Some (_, Ownership) => (ownership_tick e db, db)
      | None => s
      end
  | EConnected ok =>
      match settled Connecting e with
      | Some e' => ((if ok then startOwnershipWatch e' else set_leader false e'), db)
      | None => s
      end
  | EDisconnected =>
      match settled Disconnecting e with Some e' => (startStalenessCheck e', db) | None => s end
  | ESync row hosts => (e, MkElection row hosts (leader_log db))
  end.
Definition election_run (evs : list election_event) (s : elector * election_db) : elector * election_db :=
  foldl (λ s ev, election_step ev s) s evs.

(** ** The phases of an elector *)
Inductive phase := Standby (t : nat) | Claiming | Leading (t : nat) | SteppingDown | Idle.
Definition phase_state (p : phase) (n : nat) : elector :=
  match p with
  | Standby t => MkElector false (Some t) None [(t, Staleness)] n []
  | Claiming => MkElector true None None [] n [Connecting]
  | Leading t => MkElector true None (Some t) [(t, Ownership)] n []
  | SteppingDown => MkElector false None None [] n [Disconnecting]
  | Idle => MkElector false None None [] n []
  end.
Definition in_phase (e : elector) : Prop := ∃ p n, e = phase_state p n.

(** The life of an elector that is started once. *)
Definition one_life (ev : election_event) : Prop := match ev with EStart _ | EStop => False | _ => True end.

Lemma staleness_phase t n now db : in_phase (staleness_tick now (phase_state (Standby t) n) db).1.
Proof using.
  unfold staleness_tick. assert (in_phase (claimLeadership now (clear_timer Staleness (phase_state (Standby t) n)) db).1) as Hc.
  { exists Claiming, n. unfold claimLeadership, clear_timer, cancel. simpl. by rewrite Nat.eqb_refl. }
  destruct (leader_modified_at db) as [m|]; [|done]. destruct (_ <? _); [done|]. by exists (Standby t), n.
Qed.
Lemma ownership_phase t n db : in_phase (ownership_tick (phase_state (Leading t) n) db).
Proof using.
  unfold ownership_tick. destruct (live_value db) as [v|]; [|by exists (Leading t), n].
  destruct (seqb v siteId); [by exists (Leading t), n|]. exists SteppingDown, n. unfold clear_timer, cancel. simpl.
  by rewrite Nat.eqb_refl.
Qed.
Lemma phase_step ev s : one_life ev → in_phase s.1 → in_phase (election_step ev s).1.
Proof using.
  intros Hev (p & n & Hp). destruct s as [e db]. simpl in Hp. subst e.
  destruct ev as [now| |id now|ok| |row hosts]; simpl in Hev; [done|done| | | |by exists p, n].
  - unfold election_step. destruct p as [t| |t| |]; cbn [phase_state live_timers List.find fst].
    + destruct (t =? id)%nat; [apply staleness_phase|by exists (Standby t), n].
    + by exists Claiming, n.
    + destruct (t =? id)%nat; [apply ownership_phase|by exists (Leading t), n].
    + by exists SteppingDown, n.
    + by exists Idle, n.
  - destruct p as [t| |t| |]; simpl; [by exists (Standby t), n| |by exists (Leading t), n|by exists SteppingDown, n|by exists Idle, n].
    destruct ok; [by exists (Leading n), (S n)|by exists Idle, n].
  - destruct p as [t| |t| |]; simpl; [by exists (Standby t), n|by exists Claiming, n|by exists (Leading t), n| |by exists Idle, n].
    by exists (Standby n), (S n).
Qed.
Lemma phase_run evs s : Forall one_life evs → in_phase s.1 → in_phase (election_run evs s).1.
Proof using. intros H. revert s. induction H as [|ev evs Hev _ IH]; intros s Hs; [done|]. apply IH. by apply phase_step. Qed.

(** An elector that is started once is always in one of five phases: standing
    by with the staleness timer, claiming with its connect outstanding, leading
    with the ownership timer, stepping down with its disconnect outstanding, or
    idle; no timer runs without its handle, and never two. *)
Theorem elector_phases now evs db : Forall one_life evs → in_phase (election_run evs (start now new_elector db)).1.
Proof using.
  intros H. apply phase_run; [done|]. unfold start. assert (in_phase (claimLeadership now new_elector db).1) as Hc by by exists Claiming, 0%nat.
  destruct (live_value db) as [v|]; [|done]. destruct (seqb v siteId); [done|]. by exists (Standby 0), 1%nat.
Qed.

(** A standby takes over exactly when the leader row or its host is gone or
    the host was last heard of longer ago than the threshold; the new row names
    this host, and the takeover is in the outbox. *)
Theorem takeover_exact t n now db :
  let e := phase_state (Standby t) n in
  let '(e', db') := election_step (ETimer t now) (e, db) in
  if match leader_modified_at db with Some m => failover_threshold_ms <? now - m | None => true end
  then e' = phase_state Claiming n ∧ live_value db' = Some siteId ∧ leader_log db' = leader_log db ++ [(siteId, now)]
  else e' = e ∧ db' = db.
Proof using.
  cbv zeta. unfold election_step. cbn [phase_state live_timers List.find fst]. rewrite Nat.eqb_refl. unfold staleness_tick.
  assert (claimLeadership now (clear_timer Staleness (phase_state (Standby t) n)) db =
    (phase_state Claiming n, MkElection (Some (MkConfig siteId now false)) (host_rows db) (leader_log db ++ [(siteId, now)]))) as Hc.
  { unfold claimLeadership, clear_timer, cancel. simpl. by rewrite Nat.eqb_refl. }
  cbn [phase_state] in Hc.
  destruct (leader_modified_at db) as [m|]; [destruct (failover_threshold_ms <? now - m)|];
    rewrite ?Hc; split_and!; reflexivity.
Qed.

(** A leader that finds another host in the leader row stops leading at once
    and disconnects, and stands by when the disconnect has settled. *)
Theorem deposed_steps_down t n now v db :
  live_value db = Some v → v ≠ siteId →
  let s := election_step (ETimer t now) (phase_state (Leading t) n, db) in
  s = (phase_state SteppingDown n, db) ∧
  election_step EDisconnected s = (phase_state (Standby n) (S n), db).
Proof using.
  intros Hv Hne. cbv zeta. unfold election_step at 1 3. cbn [phase_state live_timers List.find fst]. rewrite Nat.eqb_refl.
  unfold ownership_tick. rewrite Hv, (proj2 (seqb_false v siteId) Hne).
  assert (await_ Disconnecting (set_leader false (clear_timer Ownership (phase_state (Leading t) n))) = phase_state SteppingDown n) as Hd.
  { unfold clear_timer, cancel. simpl. by rewrite Nat.eqb_refl. }
  cbn [phase_state] in Hd. rewrite Hd. done.
Qed.

(** A connect that fails leaves an elector that never acts again: it holds no
    timer, so that whatever happens afterwards, short of a new start, it neither
    leads nor stands by, while the leader row still names its host. *)
Theorem failed_connect_idle n db evs :
  Forall one_life evs →
  (election_run (EConnected false :: evs) (phase_state Claiming n, db)).1 = phase_state Idle n.
Proof using.
  intros H. simpl. cut (∀ db, (election_run evs (phase_state Idle n, db)).1 = phase_state Idle n); [by intros Hc|].
  induction H as [|ev evs Hev _ IH]; intros db'; [done|]. simpl. destruct ev; simpl in Hev; try done; apply IH.
Qed.
End elector.

(** ** Two hosts *)

(** The default of [failover_threshold_ms]. *)
Definition DEFAULT_FAILOVER_MS : Z := 30000.

(** With the default threshold a healthy leader is deposed: its heartbeats
    come every two minutes, and from thirty seconds after each of them until the
    next every check of a standby takes the leadership over. *)
Theorem healthy_leader_deposed siteId leader beat now t n db m :
  leader_row db = Some (MkConfig leader m false) → host_rows db !! leader = Some (MkLeaderHost beat false) →
  beat + DEFAULT_FAILOVER_MS < now < beat + HOST_HEARTBEAT_INTERVAL →
  let '(e', db') := election_step siteId DEFAULT_FAILOVER_MS (ETimer t now) (phase_state (Standby t) n, db) in
  e' = phase_state Claiming n ∧ live_value db' = Some siteId.
Proof.
  intros Hrow Hhost Hnow. unfold election_step. cbn [phase_state live_timers List.find fst]. rewrite Nat.eqb_refl.
  unfold staleness_tick, leader_modified_at, live_value. rewrite Hrow. cbn [cc_deleted cc_value]. rewrite Hhost. cbn [lh_deleted lh_modified_at].
  assert (DEFAULT_FAILOVER_MS <? now - beat = true) as -> by (apply Z.ltb_lt; lia).
  unfold claimLeadership, clear_timer, cancel. simpl. by rewrite Nat.eqb_refl.
Qed.

(** The electors of a cluster, each over its own replica. *)
Definition leads (s : elector * election_db) : Prop := isLeaderFlag s.1 = true.

(** C0: Once the replicas agree on the leader row and every leading host has made
    its ownership check, at most the named host leads. *)
Theorem agreed_row_single_leader threshold now v (cluster : list (string * nat * nat * election_db)) site t n db :
  (site, t, n, db) ∈ cluster → (∀ c, c ∈ cluster → live_value c.2 = Some v) →
  leads (election_step site threshold (ETimer t now) (phase_state (Leading t) n, db)) → site = v.
Proof.
  intros Hin Hagree. specialize (Hagree _ Hin). simpl in Hagree. unfold leads, election_step.
  cbn [phase_state live_timers List.find fst]. rewrite Nat.eqb_refl. unfold ownership_tick. rewrite Hagree.
  destruct (seqb v site) eqn:E; [by apply seqb_true in E|done].
Qed.

(** ** Concrete runs *)
Definition two_hosts (beat : Z) : election_db :=
  MkElection (Some (MkConfig "a" 0 false)) {["a" := MkLeaderHost beat false; "b" := MkLeaderHost beat false]} [].

Lemma elector_phases_witness :
  in_phase (election_run "b" 30000 [ETimer 0 20000; ETimer 0 40000; EConnected true; ETimer 1 50000]
    (start "b" 0 new_elector (two_hosts 0))).1.
Proof. apply (elector_phases "b" 30000 0 [ETimer 0 20000; ETimer 0 40000; EConnected true; ETimer 1 50000] (two_hosts 0)). repeat constructor. Defined.

Lemma deposed_steps_down_witness :
  let s := election_step "b" 30000 (ETimer 1 50000) (phase_state (Leading 1) 2, two_hosts 0) in
  s = (phase_state SteppingDown 2, two_hosts 0) ∧
  election_step "b" 30000 EDisconnected s = (phase_state (Standby 2) 3, two_hosts 0).
Proof. apply (deposed_steps_down "b" 30000 1 2 50000 "a" (two_hosts 0)); [reflexivity|discriminate]. Defined.

Lemma failed_connect_idle_witness :
  (election_run "b" 30000 [EConnected false; ETimer 0 999999; EDisconnected] (phase_state Claiming 1, two_hosts 0)).1 = phase_state Idle 1.
Proof. apply (failed_connect_idle "b" 30000 1 (two_hosts 0) [ETimer 0 999999; EDisconnected]). repeat constructor. Defined.

Lemma healthy_leader_deposed_witness :
  let '(e', db') := election_step "b" DEFAULT_FAILOVER_MS (ETimer 0 40000) (phase_state (Standby 0) 1, two_hosts 0) in
  e' = phase_state Claiming 1 ∧ live_value db' = Some "b".
Proof. apply (healthy_leader_deposed "b" "a" 0 40000 0 1 (two_hosts 0) 0); [reflexivity|reflexivity|unfold DEFAULT_FAILOVER_MS, HOST_HEARTBEAT_INTERVAL; lia]. Defined.

(** A stop while the connect is outstanding: the settlement still starts the
    ownership timer, which nothing stops any more. *)
Example stop_during_connect :
  let e := (election_run "b" 30000 [EStop; EConnected true] (start "b" 0 new_elector (MkElection None ∅ []))).1 in
  isLeaderFlag e = false ∧ live_timers e = [(0%nat, Ownership)].
Proof. vm_compute. done. Qed.
