(* ===== verification/Annotation.v ===== *)
(** * Annotation of messages (packages/agent/src/annotation/annotate.ts)

    Stage 5 of context assembly: the rows of a thread become the messages the
    model reads.  A user message gets an envelope with its time (and, when its
    metadata have them, the sender's name, role and offset), a change of model
    gets a marker, and a tool result gets the id of the call it answers.  The
    provider caches the prefix of the wire by its bytes, so that a row must be
    rendered the same way whatever follows it, and at any time of the year.
    The instant a timestamp denotes, [Date.parse], and the token count are
    arguments; an offset that is not a whole number of minutes prints in plain
    decimal notation. *)
From Stdlib Require Import Ascii.
From S2P Require Import Prelude Json Cron TokenCount Reducers ToolPairs.

(** An [LLMMessage]: [None] is [undefined], and the ids of tool uses come out of
    parsed JSON as they are. *)
Record wire_message : Type := MkWire {
  w_role : string; w_content : llm_content; w_model_id : option string; w_host_origin : option string; w_tool_use_id : option json
}.

(** ** Instants (context-assembly.ts) *)
Definition MONTHS : list string := ["Jan"; "Feb"; "Mar"; "Apr"; "May"; "Jun"; "Jul"; "Aug"; "Sep"; "Oct"; "Nov"; "Dec"].
(** [s.padStart(2, "0")] and [s.slice(-2)]. *)
Definition pad2 (s : string) : string := of_chars (replicate (2 - String.length s) "0"%char) +:+ s.
Definition last2 (s : string) : string := of_chars (drop (String.length s - 2) (chars s)).
Definition show (z : Z) : string := of_chars (print_Z z).

(** A finite number is [m / 10^k]; its offset is read in minutes. *)
Record offset : Type := MkOffset { of_num : Z; of_den : Z }.
Definition number_of (v : option json) : option offset :=
  match v with Some (JNum m e) => Some (MkOffset (m * 10 ^ Z.max 0 e) (10 ^ Z.max 0 (- e))) | _ => None end.
(** The digits behind the point, for a denominator that is a power of ten. *)
Definition show_fraction (m den : Z) : string :=
  if den =? 1 then "" else "." +:+ of_chars (drop 1 (print_Z (den + m mod den))).
Definition formatUtcOffset (o : offset) : string :=
  let sign := if of_num o <? 0 then "-" else "+" in
  let a := Z.abs (of_num o) in
  let hh := pad2 (show (a / of_den o / 60)) in
  let mm := a - 60 * of_den o * (a / of_den o / 60) in
  "UTC" +:+ sign +:+ hh +:+ ":" +:+ pad2 (show (mm / of_den o) +:+ show_fraction mm (of_den o)).
(** [new Date(t)] of an instant that is a fraction: cut towards zero, and no
    date outside of the range of time values. *)
Definition time_clip (t : Z) : option Z := if Z.abs t <=? 8640000000000000 then Some t else None.
Definition shifted (utc : option Z) (o : option offset) : option Z :=
  match utc, o with
  | Some t, Some o => time_clip (Z.quot (t * of_den o + of_num o * minute_ms) (of_den o))
  | _, _ => utc
  end.
Section Instants.
Context (parse_date : string → option Z).
Definition formatInstant (isoTimestamp : string) (offsetMinutes : option offset) (nowMs : Z) : string :=
  let d := shifted (parse_date isoTimestamp) offsetMinutes in
  let suffix := match offsetMinutes with Some o => " " +:+ formatUtcOffset o | None => " UTC" end in
  match d with
  | None => "undefined NaN 'aN, NaN:NaN" +:+ suffix
  | Some t =>
      let month := nth (Z.to_nat (getUTCMonth1 t - 1)) MONTHS "undefined" in
      let clock := pad2 (show (getUTCHours t)) +:+ ":" +:+ pad2 (show (getUTCMinutes t)) +:+ suffix in
      if negb (getUTCFullYear t =? getUTCFullYear nowMs)
      then month +:+ " " +:+ show (getUTCDate t) +:+ " '" +:+ last2 (show (getUTCFullYear t)) +:+ ", " +:+ clock
      else month +:+ " " +:+ show (getUTCDate t) +:+ ", " +:+ clock
  end.

(** ** The envelope *)
Definition MODEL_SWITCH_CAP : nat := 3.
Definition USER_MESSAGE_TAG : string := "user-message".
(** [JSON.parse(metadata)[key]], with every failure read as [undefined]. *)
Definition read_metadata (key : string) (metadata : option string) : option json :=
  match metadata with
  | Some t => if nonempty t then match json_parse t with Some v => json_get key v | None => None end else None
  | None => None
  end.
Definition read_name (key : string) (metadata : option string) : option string :=
  match as_string (read_metadata key metadata) with Some s => if nonempty s then Some s else None | None => None end.
Definition readUserName : option string → option string := read_name "user_name".
Definition readSenderRole : option string → option string := read_name "sender_role".
Definition readTzOffsetMinutes (metadata : option string) : option offset := number_of (read_metadata "tz_offset" metadata).
Definition replace_all (c : ascii) (by_text : string) (s : string) : string :=
  of_chars (c' ← chars s; if Ascii.eqb c' c then chars by_text else [c']).
Definition escapeXmlAttr (s : string) : string :=
  replace_all dquote "&quot;" (replace_all ">" "&gt;" (replace_all "<" "&lt;" (replace_all "&" "&amp;" s))).

Definition formatUserMessageSentAt (m : Message) (nowMs : Z) : option string :=
  if nonempty (created_at m) then Some (formatInstant (created_at m) (readTzOffsetMinutes (metadata m)) nowMs) else None.
Definition attribute (name value : string) : string := name +:+ "=" +:+ of_chars [dquote] +:+ value +:+ of_chars [dquote].
Definition buildUserMessageAttributes (m : Message) (nowMs : Z) : string :=
  let attrs :=
    match readUserName (metadata m) with Some from => [attribute "from" (escapeXmlAttr from)] | None => [] end ++
    match readSenderRole (metadata m) with Some r => [attribute "role" (escapeXmlAttr r)] | None => [] end ++
    match formatUserMessageSentAt m nowMs with Some sentAt => [attribute "sent" sentAt] | None => [] end in
  sconcat ((λ a, " " +:+ a) <$> attrs).

Definition text_block (s : string) : json := JObj [("type", JStr "text"); ("text", JStr s)].
(** [null.type] throws. *)
Fixpoint label_images (sentAt : option string) (blocks : list json) : result (list json) :=
  match blocks with
  | [] => Ok []
  | JNull :: _ => Throw "null is not an object (evaluating 'block.type')"
  | b :: blocks' =>
      let! rest := label_images sentAt blocks' in
      match json_get "type" b, sentAt with
      | Some (JStr t), Some at_ =>
          Ok ((if seqb t "image"
               then [text_block ("[Image attachment sent " +:+ at_ +:+ ". It belongs to this historical user message, not the latest message.]"); b]
               else [b]) ++ rest)
      | _, _ => Ok (b :: rest)
      end
  end.
Definition newline : string := String (ascii_of_nat 10) "".
Definition envelope (m : Message) (nowMs : Z) (c : llm_content) : result llm_content :=
  let attrs := buildUserMessageAttributes m nowMs in
  let opening := "<" +:+ USER_MESSAGE_TAG +:+ attrs +:+ ">" in
  let closing := "</" +:+ USER_MESSAGE_TAG +:+ ">" in
  match c with
  | CText s => Ok (CText (opening +:+ newline +:+ s +:+ newline +:+ closing))
  | CBlocks blocks =>
      let! inner := label_images (formatUserMessageSentAt m nowMs) blocks in
      Ok (CBlocks (text_block opening :: inner ++ [text_block closing]))
  end.

(** A text that is a JSON array whose first element has a type. *)
Definition parsed_content (m : Message) : llm_content :=
  if existsb (seqb (role m)) ["user"; "assistant"; "tool_result"] then
    match json_parse (content m) with
    | Some (JArr (b :: blocks)) => if js_truthy (default JNull (json_get "type" b)) then CBlocks (b :: blocks) else CText (content m)
    | _ => CText (content m)
    end
  else CText (content m).

(** ** The ids of tool uses *)
(** The ids up to the first [null] element, on which the loop stops, and whether
    it came to the end. *)
Fixpoint block_ids (blocks : list json) : list json * bool :=
  match blocks with
  | [] => ([], true)
  | JNull :: _ => ([], false)
  | b :: blocks' =>
      let '(ids, whole) := block_ids blocks' in
      let id := default JNull (json_get "id" b) in
      (if js_truthy id then id :: ids else ids, whole)
  end.
Record tool_ids : Type := MkIds { toolCallIdToToolUseId : gmap string json; knownToolUseIds : list json }.
Definition call_blocks (m : Message) : list json :=
  if is_call m then match json_parse (content m) with Some (JArr blocks) => blocks | _ => [] end else [].
Definition note_call (t : tool_ids) (m : Message) : tool_ids :=
  let blocks := call_blocks m in
  let '(ids, whole) := block_ids blocks in
  let first := match blocks with b :: _ => default JNull (json_get "id" b) | [] => JNull end in
  MkIds (if whole && js_truthy first then <[msg_id m := first]> (toolCallIdToToolUseId t) else toolCallIdToToolUseId t)
    (knownToolUseIds t ++ ids).
Definition tool_ids_of (messages : list Message) : tool_ids := foldl note_call (MkIds ∅ []) messages.
Definition known_id (t : tool_ids) (id : string) : bool :=
  existsb (λ v, match v with JStr s => seqb s id | _ => false end) (knownToolUseIds t).

(** ** One row *)
Definition LLM_COMPATIBLE_ROLES : list string := ["user"; "assistant"; "system"; "developer"; "tool_call"; "tool_result"].
Definition compatible (m : Message) : bool := existsb (seqb (role m)) LLM_COMPATIBLE_ROLES.
Record ann_state : Type := MkAnn { lastAssistantModel : option string; lastToolCallMsgId : option string; modelSwitchCount : nat }.
Definition ann_start : ann_state := MkAnn None None 0.

Definition nonempty_id (o : option string) : option string := if truthy o then o else None.
Definition tool_use_id_of (t : tool_ids) (st : ann_state) (m : Message) : json :=
  match nonempty_id (tool_name m) with
  | Some n => if known_id t n then JStr n
              else default (JStr ("synthetic-" +:+ msg_id m)) (nonempty_id (lastToolCallMsgId st) ≫= λ id, toolCallIdToToolUseId t !! id)
  | None => default (JStr ("synthetic-" +:+ msg_id m)) (nonempty_id (lastToolCallMsgId st) ≫= λ id, toolCallIdToToolUseId t !! id)
  end.
Definition switch_marker (old_model new_model : string) : wire_message :=
  MkWire "developer" (CText ("Model switched from " +:+ old_model +:+ " to " +:+ new_model)) None None None.
(** The marker before a row and the state behind it. *)
Definition model_switch (st : ann_state) (m : Message) : list wire_message * ann_state :=
  match (if is_role "assistant" m then nonempty_id (model_id m) else None) with
  | None => ([], st)
  | Some new_model =>
      let next n := MkAnn (Some new_model) (lastToolCallMsgId st) n in
      match nonempty_id (lastAssistantModel st) with
      | Some old_model =>
          if negb (seqb old_model new_model) && (modelSwitchCount st <? MODEL_SWITCH_CAP)%nat
          then ([switch_marker old_model new_model], next (S (modelSwitchCount st)))
          else ([], next (modelSwitchCount st))
      | None => ([], next (modelSwitchCount st))
      end
  end.

Section Annotate.
Context (countContent : llm_content → Z) (countById : string → string → llm_content → Z) (nowMs : Z).
Definition annotate_one (t : tool_ids) (st : ann_state) (m : Message) : result (list (wire_message * Z) * ann_state) :=
  if negb (compatible m) then Ok ([], st)
  else
    let st1 := if is_call m then MkAnn (lastAssistantModel st) (Some (msg_id m)) (modelSwitchCount st) else st in
    let '(markers, st2) := model_switch st1 m in
    let! c := if is_role "user" m && nonempty (created_at m) then envelope m nowMs (parsed_content m) else Ok (parsed_content m) in
    let msg := MkWire (role m) c (nonempty_id (model_id m)) (Some (host_origin m))
                 (if is_result m then Some (tool_use_id_of t st2 m) else None) in
    Ok (((λ w, (w, countContent (w_content w))) <$> markers) ++ [(msg, countById (msg_id m) (default "" (modified_at m)) c)], st2).
Fixpoint annotate_rows (t : tool_ids) (st : ann_state) (messages : list Message) : result (list (wire_message * Z)) :=
  match messages with
  | [] => Ok []
  | m :: messages' =>
      let! r := annotate_one t st m in
      let! rest := annotate_rows t r.2 messages' in
      Ok (r.1 ++ rest)
  end.
(** The messages and, aligned with them, their token counts. *)
Definition annotateMessagesWithTokens (messages : list Message) : result (list wire_message * list Z) :=
  let! annotated := annotate_rows (tool_ids_of messages) ann_start messages in
  Ok (annotated.*1, annotated.*2).
Definition annotateMessages (messages : list Message) : result (list wire_message) :=
  let! r := annotateMessagesWithTokens messages in Ok r.1.
End Annotate.
End Instants.

(** A marker has no row: rows always carry their host. *)
Definition isInjected (w : wire_message) : bool :=
  seqb (w_role w) "developer" && match w_host_origin w with None => true | Some _ => false end.

(** Every id that a result names and some call behind it declares is declared by
    a call before it as well. *)
Fixpoint answers_in_order (before rows : list Message) : bool :=
  match rows with
  | [] => true
  | m :: rows' =>
      match (if is_result m then tool_name m else None) with
      | Some n => negb (known_id (tool_ids_of rows') n) || known_id (tool_ids_of before) n
      | None => true
      end && answers_in_order (before ++ [m]) rows'
  end.

(** ** The ids of a longer list *)
Lemma known_app t1 t2 n :
  existsb (λ v, match v with JStr s => seqb s n | _ => false end) (t1 ++ t2) =
  existsb (λ v, match v with JStr s => seqb s n | _ => false end) t1 || existsb (λ v, match v with JStr s => seqb s n | _ => false end) t2.
Proof. apply existsb_app. Qed.
Lemma note_call_known t m : knownToolUseIds (note_call t m) = knownToolUseIds t ++ (block_ids (call_blocks m)).1.
Proof. unfold note_call. by destruct (block_ids _). Qed.
Lemma notes_known t ms : knownToolUseIds (foldl note_call t ms) = knownToolUseIds t ++ (ms ≫= λ m, (block_ids (call_blocks m)).1).
Proof.
  revert t. induction ms as [|m ms IH]; intros t; [by rewrite app_nil_r|]. simpl. rewrite IH, note_call_known, <-app_assoc. done.
Qed.
Lemma known_ids_app a b n : known_id (tool_ids_of (a ++ b)) n = known_id (tool_ids_of a) n || known_id (tool_ids_of b) n.
Proof. unfold known_id, tool_ids_of. rewrite !notes_known. simpl. rewrite bind_app. apply known_app. Qed.
Lemma notes_first t ms id : id ∉ (msg_id <$> ms) → toolCallIdToToolUseId (foldl note_call t ms) !! id = toolCallIdToToolUseId t !! id.
Proof.
  revert t. induction ms as [|m ms IH]; intros t H; [done|]. simpl in H |- *. rewrite not_elem_of_cons in H. destruct H as [Hne H].
  rewrite IH by done. unfold note_call. destruct (block_ids _) as [ids whole]. cbn [toolCallIdToToolUseId].
  destruct (whole && _); [by rewrite lookup_insert_ne|done].
Qed.
Lemma ids_first_app a b id : NoDup (msg_id <$> a ++ b) → id ∈ (msg_id <$> a) →
  toolCallIdToToolUseId (tool_ids_of (a ++ b)) !! id = toolCallIdToToolUseId (tool_ids_of a) !! id.
Proof.
  rewrite fmap_app, NoDup_app. intros (_ & Hd & _) Hid. unfold tool_ids_of. rewrite foldl_app. apply notes_first. by apply Hd.
Qed.
Lemma answers_app before a b : answers_in_order before (a ++ b) = true → answers_in_order (before ++ a) b = true.
Proof.
  revert before. induction a as [|m a IH]; intros before; [by rewrite app_nil_r|]. simpl. intros [_ H]%andb_prop.
  apply IH in H. by rewrite <-app_assoc in H.
Qed.
(** What a result in the first part names is known of both or of neither. *)
Lemma answers_known a b m n : answers_in_order [] (a ++ b) = true → m ∈ a → is_result m = true → tool_name m = Some n →
  known_id (tool_ids_of (a ++ b)) n = known_id (tool_ids_of a) n.
Proof.
  intros H [i Hi]%list_elem_of_lookup Hm Hn. pose proof (take_drop_middle _ _ _ Hi) as Ha. set (a1 := take i a) in *. set (a2 := drop (S i) a) in *.
  rewrite known_ids_app. destruct (known_id (tool_ids_of b) n) eqn:Eb; [|by rewrite orb_false_r]. rewrite orb_true_r. symmetry.
  rewrite <-Ha in H. rewrite <-app_assoc in H. apply (answers_app [] a1 ((m :: a2) ++ b)) in H.
  change ([] ++ a1) with a1 in H. change ((m :: a2) ++ b) with (m :: a2 ++ b) in H. cbn [answers_in_order] in H. rewrite Hm, Hn in H.
  apply andb_prop in H as [H _]. rewrite known_ids_app, Eb, orb_true_r in H. simpl in H. by rewrite <-Ha, known_ids_app, H.
Qed.

(** ** Rows are rendered one by one *)
Section Rendering.
Context (parse_date : string → option Z) (countContent : llm_content → Z) (countById : string → string → llm_content → Z).
Abbreviation one := (annotate_one parse_date countContent countById).
Abbreviation rows_of := (annotate_rows parse_date countContent countById).

Definition next_state (st : ann_state) (m : Message) : ann_state :=
  if compatible m then (model_switch (if is_call m then MkAnn (lastAssistantModel st) (Some (msg_id m)) (modelSwitchCount st) else st) m).2 else st.
(** What a row becomes: at most one marker and, for a role of the wire, itself. *)
Definition rendered (st : ann_state) (m : Message) (out : list wire_message) : Prop :=
  if compatible m
  then ∃ marks w, out = marks ++ [w] ∧ isInjected w = false ∧ w_role w = role m ∧
    (marks = [] ∧ modelSwitchCount (next_state st m) = modelSwitchCount st ∨
     (∃ k, marks = [k] ∧ isInjected k = true) ∧ modelSwitchCount (next_state st m) = S (modelSwitchCount st) ∧
       (modelSwitchCount st < MODEL_SWITCH_CAP)%nat ∧ is_Some (lastAssistantModel st))
  else out = [].
Lemma model_switch_cases st m :
  (model_switch st m).1 = [] ∧ modelSwitchCount (model_switch st m).2 = modelSwitchCount st ∨
  (∃ k, (model_switch st m).1 = [k] ∧ isInjected k = true) ∧ modelSwitchCount (model_switch st m).2 = S (modelSwitchCount st) ∧
    (modelSwitchCount st < MODEL_SWITCH_CAP)%nat ∧ is_Some (lastAssistantModel st).
Proof using.
  unfold model_switch. destruct (if is_role _ m then _ else _) as [nm|]; [|by left]. destruct (nonempty_id (lastAssistantModel st)) as [om|] eqn:Eo; [|by left].
  destruct (negb _ && _) eqn:E; [|by left]. right. apply andb_prop in E as [_ E]. apply Nat.ltb_lt in E. split_and!; [by eexists|done|done|].
  unfold nonempty_id, truthy in Eo. destruct (lastAssistantModel st); [by eexists|done].
Qed.
Lemma one_spec now t st m r : one now t st m = Ok r → r.2 = next_state st m ∧ rendered st m (r.1).*1.
Proof using.
  unfold annotate_one, next_state, rendered, next_state. destruct (compatible m) eqn:Ec; cbn [negb]; [|by intros [= <-]].
  set (st1 := if is_call m then _ else st).
  assert (modelSwitchCount st1 = modelSwitchCount st ∧ lastAssistantModel st1 = lastAssistantModel st) as [Hn Hl] by (unfold st1; by destruct (is_call m)).
  pose proof (model_switch_cases st1 m) as Hsw. rewrite Hn, Hl in Hsw. destruct (model_switch st1 m) as [marks st2]. cbn [fst snd] in Hsw |- *.
  destruct (if is_role "user" m && _ then _ else _) as [c|]; [|done]. cbn [result_bind]. intros [= <-]. split; [done|]. cbn [fst].
  rewrite fmap_app, <-list_fmap_compose. rewrite (list_fmap_ext _ id _ (λ _ _ _, eq_refl)), list_fmap_id. eexists _, _. split; [done|].
  split; [unfold isInjected; simpl; by rewrite andb_false_r|]. by split.
Qed.
Lemma rows_app now t st a b : rows_of now t st (a ++ b) =
  result_bind (rows_of now t st a) (λ ra, result_bind (rows_of now t (foldl next_state st a) b) (λ rb, Ok (ra ++ rb))).
Proof using.
  revert st. induction a as [|m a IH]; intros st; [simpl; by destruct (rows_of now t st b)|]. cbn [annotate_rows app foldl].
  destruct (one now t st m) as [r|] eqn:E; [|done]. cbn [result_bind]. apply one_spec in E as [E _]. rewrite IH, E.
  destruct (rows_of now t (next_state st m) a); [|done]. cbn [result_bind]. destruct (rows_of now t _ b); [|done]. cbn [result_bind]. by rewrite app_assoc.
Qed.

(** Tables that agree on the calls of the rows give the same messages. *)
Definition same_calls (t1 t2 : tool_ids) (ids : list string) : Prop :=
  ∀ id, id ∈ ids → toolCallIdToToolUseId t1 !! id = toolCallIdToToolUseId t2 !! id.
Lemma model_switch_call st m : lastToolCallMsgId (model_switch st m).2 = lastToolCallMsgId st.
Proof using.
  unfold model_switch. destruct (if is_role _ m then _ else _); [|done]. destruct (nonempty_id _); [|done]. by destruct (_ && _).
Qed.
Lemma next_call st m : lastToolCallMsgId (next_state st m) = lastToolCallMsgId st ∨ lastToolCallMsgId (next_state st m) = Some (msg_id m).
Proof using. unfold next_state. destruct (compatible m); [|by left]. rewrite model_switch_call. destruct (is_call m); [by right|by left]. Qed.
Lemma one_tables now t1 t2 st m :
  (∀ n, is_result m = true → tool_name m = Some n → known_id t1 n = known_id t2 n) →
  (∀ id, lastToolCallMsgId st = Some id ∨ id = msg_id m → toolCallIdToToolUseId t1 !! id = toolCallIdToToolUseId t2 !! id) →
  one now t1 st m = one now t2 st m.
Proof using.
  intros Hk Hc. unfold annotate_one. destruct (negb (compatible m)); [done|]. set (st1 := if is_call m then _ else st).
  pose proof (model_switch_call st1 m) as Hl. destruct (model_switch st1 m) as [marks st2]. cbn [snd] in Hl. f_equal.
  destruct (is_result m) eqn:Er; [|done].
  assert (tool_use_id_of t1 st2 m = tool_use_id_of t2 st2 m) as ->; [|done].
  assert (nonempty_id (lastToolCallMsgId st2) ≫= (λ id, toolCallIdToToolUseId t1 !! id) =
          nonempty_id (lastToolCallMsgId st2) ≫= (λ id, toolCallIdToToolUseId t2 !! id)) as Hlast.
  { rewrite Hl. unfold nonempty_id, st1. destruct (truthy _); [|done]. destruct (is_call m); simpl; [apply Hc; by right|].
    destruct (lastToolCallMsgId st); [|done]. simpl. apply Hc. by left. }
  unfold tool_use_id_of. rewrite Hlast. unfold nonempty_id at 1 4. destruct (truthy (tool_name m)); [|done].
  destruct (tool_name m) as [n|]; [|done]. by rewrite (Hk n).
Qed.
Lemma rows_tables now t1 t2 ms st ids :
  (∀ m n, m ∈ ms → is_result m = true → tool_name m = Some n → known_id t1 n = known_id t2 n) → same_calls t1 t2 ids →
  (∀ id, lastToolCallMsgId st = Some id → id ∈ ids) → (msg_id <$> ms) ⊆ ids → rows_of now t1 st ms = rows_of now t2 st ms.
Proof using.
  intros Hk Hs. revert st. induction ms as [|m ms IH]; intros st Hst Hms; [done|]. cbn [annotate_rows].
  rewrite (one_tables now t1 t2 st m).
  - destruct (one now t2 st m) as [r|] eqn:E; [|done]. cbn [result_bind]. apply one_spec in E as [E _]. rewrite IH; [done|..].
    + intros m' n Hm'. apply Hk. by right.
    + rewrite E. intros id. destruct (next_call st m) as [->| ->]; [apply Hst|]. intros [= <-]. apply Hms. left.
    + intros id Hid. apply Hms. by right.
  - intros n. apply Hk. left.
  - intros id [Hid| ->]; apply Hs; [by apply Hst|apply Hms; left].
Qed.

(** The time of rendering counts by its year. *)
Lemma instant_year now now' iso o : getUTCFullYear now = getUTCFullYear now' → formatInstant parse_date iso o now = formatInstant parse_date iso o now'.
Proof using. intros H. unfold formatInstant. by rewrite H. Qed.
Lemma envelope_year now now' m c : getUTCFullYear now = getUTCFullYear now' → envelope parse_date m now c = envelope parse_date m now' c.
Proof using.
  intros H. unfold envelope, buildUserMessageAttributes, formatUserMessageSentAt.
  rewrite (instant_year now now' (created_at m) (readTzOffsetMinutes (metadata m)) H). done.
Qed.
Lemma one_year now now' t st m : getUTCFullYear now = getUTCFullYear now' → one now t st m = one now' t st m.
Proof using. intros H. unfold annotate_one. by rewrite (envelope_year now now' m _ H). Qed.
Lemma rows_year now now' t st ms : getUTCFullYear now = getUTCFullYear now' → rows_of now t st ms = rows_of now' t st ms.
Proof using.
  intros H. revert st. induction ms as [|m ms IH]; intros st; [done|]. cbn [annotate_rows]. rewrite (one_year now now' t st m H).
  destruct (one now' t st m) as [r|]; [|done]. cbn [result_bind]. by rewrite IH.
Qed.

(** What is behind a row does not change how it is rendered. *)
Lemma rows_prefix now a b : NoDup (msg_id <$> a ++ b) → answers_in_order [] (a ++ b) = true →
  rows_of now (tool_ids_of (a ++ b)) ann_start a = rows_of now (tool_ids_of a) ann_start a.
Proof using.
  intros Hnd Ho. apply (rows_tables now _ _ a ann_start (msg_id <$> a)); [|intros id; by apply ids_first_app|done|done].
  intros m n Hm Hr Hn. by apply (answers_known a b m).
Qed.
Lemma annotate_split now a b ws ks : NoDup (msg_id <$> a ++ b) → answers_in_order [] (a ++ b) = true →
  annotateMessagesWithTokens parse_date countContent countById now (a ++ b) = Ok (ws, ks) →
  ∃ la lb, rows_of now (tool_ids_of a) ann_start a = Ok la ∧
    rows_of now (tool_ids_of (a ++ b)) (foldl next_state ann_start a) b = Ok lb ∧ ws = la.*1 ++ lb.*1 ∧ ks = la.*2 ++ lb.*2.
Proof using.
  intros Hnd Ho. unfold annotateMessagesWithTokens. rewrite rows_app, rows_prefix by done.
  destruct (rows_of now (tool_ids_of a) ann_start a) as [la|]; [|done]. cbn [result_bind].
  destruct (rows_of now (tool_ids_of (a ++ b)) _ b) as [lb|]; [|done]. cbn [result_bind]. rewrite !fmap_app. intros [= <- <-]. by eexists _, _.
Qed.

(** The messages that are not markers are the rows of the wire's roles, in
    order; there are at most three markers. *)
Lemma rows_shape now t st ms l : rows_of now t st ms = Ok l →
  w_role <$> List.filter (λ w, negb (isInjected w)) l.*1 = role <$> List.filter compatible ms ∧
  (length (List.filter isInjected l.*1) + modelSwitchCount st ≤ Nat.max (modelSwitchCount st) MODEL_SWITCH_CAP)%nat.
Proof using.
  revert st l. induction ms as [|m ms IH]; intros st l; cbn [annotate_rows]; [intros [= <-]; split; [done|simpl; lia]|].
  destruct (one now t st m) as [r|] eqn:E; [|done]. cbn [result_bind]. apply one_spec in E as [E Hr]. rewrite E.
  destruct (rows_of now t (next_state st m) ms) as [rest|] eqn:Er; [|done]. cbn [result_bind]. intros [= <-].
  apply IH in Er as [IH1 IH2]. rewrite fmap_app, !List.filter_app, fmap_app, IH1, length_app. unfold rendered in Hr. cbn [List.filter].
  destruct (compatible m) eqn:Ec.
  - destruct Hr as (marks & w & -> & Hw & Hrole & Hcase). rewrite !List.filter_app, fmap_app. cbn [List.filter]. rewrite Hw. cbn [negb].
    destruct Hcase as [[-> Hn]|((k & -> & Hk) & Hn & Hlt & _)]; cbn [List.filter]; rewrite Hn in IH2.
    + split; [by rewrite fmap_cons, Hrole|simpl; lia].
    + rewrite Hk. cbn [negb]. split; [by rewrite fmap_cons, Hrole|simpl; lia].
  - rewrite Hr. simpl. split; [done|]. assert (next_state st m = st) as Hst by (unfold next_state; by rewrite Ec). rewrite Hst in IH2. lia.
Qed.
End Rendering.

(** C20: Rows appended to a thread leave every byte of what was rendered before
    as it is, and so does the passing of time within a year: the messages (and
    their counts, one for each) of a prefix of the rows begin the messages of
    the whole, when ids are unique and calls come before their results.  Apart
    from at most three markers they are the rows of the wire's roles in order. *)
Theorem annotation_stable parse_date countContent countById now now' rows more messages counts :
  NoDup (msg_id <$> rows ++ more) → answers_in_order [] (rows ++ more) = true → getUTCFullYear now = getUTCFullYear now' →
  annotateMessagesWithTokens parse_date countContent countById now (rows ++ more) = Ok (messages, counts) →
  ∃ ws ks messages2 counts2,
    annotateMessagesWithTokens parse_date countContent countById now' rows = Ok (ws, ks) ∧
    messages = ws ++ messages2 ∧ counts = ks ++ counts2 ∧ length ws = length ks ∧
    w_role <$> List.filter (λ w, negb (isInjected w)) ws = role <$> List.filter compatible rows ∧
    (length (List.filter isInjected ws) ≤ MODEL_SWITCH_CAP)%nat.
Proof.
  intros Hnd Ho Hy H. apply annotate_split in H as (la & lb & Ha & _ & -> & ->); [|done..].
  exists la.*1, la.*2, lb.*1, lb.*2. unfold annotateMessagesWithTokens. rewrite <-(rows_year _ _ _ now now') by done. rewrite Ha.
  apply rows_shape in Ha as [Hs Hm]. split_and!; [done|done|done|by rewrite !length_fmap|done|]. simpl in Hm. lia.
Qed.

Module Examples.
Definition row (id role content : string) (model tool : option string) (at_ : string) : Message :=
  MkMessage id "t" role content model tool at_ None "host" 0 None None.
Definition calls (ids : list string) : string :=
  json_stringify (JArr ((λ i, JObj [("type", JStr "tool_use"); ("id", JStr i)]) <$> ids)).
(** The fourth of April 2024, half past two. *)
Definition parse_any (s : string) : option Z := if seqb s "bad" then None else Some 1712241000000.
Definition now : Z := 1717200000000.
Definition unit_count (c : llm_content) : Z := 1.
Definition annotated (rows : list Message) : result (list wire_message) :=
  annotateMessages parse_any unit_count (λ _ _ _, 2) now rows.
Definition thread : list Message :=
  [row "1" "user" "hi" None None "a"; row "2" "tool_call" (calls ["c1"]) (Some "m1") None "b";
   row "3" "tool_result" "done" None (Some "c1") "c"; row "4" "assistant" "so" (Some "m1") None "d"].
Definition answer : list Message := [row "5" "user" "and" None None "e"; row "6" "assistant" "yes" (Some "m2") None "f"].
Definition instant (at_ : string) (minutes : option json) (now : Z) : string := formatInstant parse_any at_ (number_of minutes) now.

Example instants :
  instant "x" None now = "Apr 4, 14:30 UTC" ∧ instant "x" (Some (JInt (-240))) now = "Apr 4, 10:30 UTC-04:00" ∧
  instant "x" (Some (JNum 3305 (-1))) 1750000000000 = "Apr 4 '24, 20:00 UTC+05:30.5" ∧ instant "bad" None now = "undefined NaN 'aN, NaN:NaN UTC".
Proof. split_and!; vm_compute; reflexivity. Qed.
Example escaped : escapeXmlAttr "a<b>&c" = "a&lt;b&gt;&amp;c".
Proof. vm_compute. reflexivity. Qed.
(** A [null] block behind the first one of a user's content makes the whole
    context throw. *)
Example null_block :
  annotated [row "1" "user" (json_stringify (JArr [text_block "x"; JNull])) None None "a"] = Throw "null is not an object (evaluating 'block.type')".
Proof. vm_compute. reflexivity. Qed.

(** A result is given the id its tool name says as soon as any call of the
    thread declares it; until then it gets the id of the call before it. *)
Definition reused : list Message :=
  [row "1" "tool_call" (calls ["c1"]) None None "a"; row "2" "tool_result" "r" None (Some "c2") "b"].
Definition use_ids (r : result (list wire_message)) : list (option json) := match r with Ok l => w_tool_use_id <$> l | Throw _ => [] end.
Example late_call : use_ids (annotated reused) = [None; Some (JStr "c1")] ∧
  use_ids (annotated (reused ++ [row "3" "tool_call" (calls ["c2"]) None None "c"])) = [None; Some (JStr "c2"); None].
Proof. split; vm_compute; reflexivity. Qed.
End Examples.
Import Examples.

Lemma annotation_stable_witness : ∃ ws ks messages2 counts2,
  annotateMessagesWithTokens parse_any unit_count (λ _ _ _, 2) (now + 86400000) thread = Ok (ws, ks) ∧
  annotateMessagesWithTokens parse_any unit_count (λ _ _ _, 2) now (thread ++ answer) = Ok (ws ++ messages2, ks ++ counts2) ∧
  length ws = length ks.
Proof.
  destruct (annotateMessagesWithTokens parse_any unit_count (λ _ _ _, 2) now (thread ++ answer)) as [[messages counts]|e] eqn:E; [|by vm_compute in E].
  destruct (annotation_stable parse_any unit_count (λ _ _ _, 2) now (now + 86400000) thread answer messages counts) as (ws & ks & m2 & c2 & H1 & -> & -> & H2 & _).
  - by apply (bool_decide_unpack _); vm_compute.
  - by vm_compute.
  - by vm_compute.
  - exact E.
  - by exists ws, ks, m2, c2.
Defined.
