(* ===== verification/Purge.v ===== *)
(** * Purge substitution (packages/agent/src/purge-substitution/substitute.ts)

    Stage 2 of context assembly: a row of role purge names messages the agent
    wants out of its context; they are dropped, with the other half of every
    tool pair they belong to, and one stub with the agent's summary stands where
    the first of them was.  Stage 2.5 (context-assembly.ts) then drops the roles
    the models do not know.  A JavaScript [Set] of JSON values is the list of its
    distinct elements: strings, numbers and booleans are compared by value, and
    two objects or arrays are never the same. *)
From Stdlib Require Import Ascii.
From S2P Require Import Prelude Json Text Dispatch ToolPairs Annotation.
Local Open Scope bound_scope.

(** ** Purge groups *)
Record PurgeGroup : Type := MkGroup { ids : list json; summary : json }.
Definition same_value (a b : json) : bool :=
  match a, b with
  | JStr s, JStr t => seqb s t
  | JNum m e, JNum m' e' => (m =? m') && (e =? e')
  | JBool b, JBool b' => Bool.eqb b b'
  | JNull, JNull => true
  | _, _ => false
  end.
Definition value_set (l : list json) : list json := foldl (λ acc v, if existsb (same_value v) acc then acc else acc ++ [v]) [] l.
Definition has_id (id : string) (l : list json) : bool := existsb (same_value (JStr id)) l.

(** The code points of a string, which is what iterating it yields: a
    continuation byte belongs to the byte before it. *)
Fixpoint code_points (s : list ascii) : list (list ascii) :=
  match s with
  | [] => []
  | c :: s' =>
      match code_points s' with
      | ((d :: _) as p) :: ps => if (nat_of_ascii d / 64 =? 2)%nat then (c :: p) :: ps else [c] :: p :: ps
      | ps => [c] :: ps
      end
  end.
(** [target_ids], where it has a positive length and can be iterated; every
    other content is skipped. *)
Definition target_ids (purgeData : json) : option (list json) :=
  match json_get "target_ids" purgeData with
  | Some (JArr (x :: l)) => Some (x :: l)
  | Some (JStr s) => if nonempty s then Some ((λ p, JStr (of_chars p)) <$> code_points (chars s)) else None
  | _ => None
  end.
Definition purge_summary (purgeData : json) : json :=
  match json_get "summary" purgeData with Some JNull | None => JStr "Messages purged from conversation" | Some v => v end.
Definition is_purge : Message → bool := is_role "purge".
Definition purge_group (m : Message) : option PurgeGroup :=
  match json_parse (content m) with
  | Some purgeData => (λ l, MkGroup (value_set l) (purge_summary purgeData)) <$> target_ids purgeData
  | None => None
  end.
Definition purge_groups (messages : list Message) : list PurgeGroup := omap purge_group (List.filter is_purge messages).

(** ** Tool pairs *)
Definition callMsgIdByToolUseId (messages : list Message) : gmap string string :=
  foldl (λ idx m, if is_call m then foldl (λ i t, <[t := msg_id m]> i) idx (ids_of m) else idx) ∅ messages.
Record pairing : Type := MkPairing {
  nearestPrecedingCallId : option string; toolCallToResults : gmap string (list string); toolResultToCall : gmap string string
}.
Definition pair_step (byToolUse : gmap string string) (p : pairing) (m : Message) : pairing :=
  if is_call m then MkPairing (Some (msg_id m)) (toolCallToResults p) (toolResultToCall p)
  else if negb (is_result m) then p
  else
    let idMatchedCall := if truthy (tool_name m) then byToolUse !! default "" (tool_name m) else None in
    match (match idMatchedCall with Some c => Some c | None => nearestPrecedingCallId p end) with
    | None => p
    | Some callId =>
        MkPairing (nearestPrecedingCallId p)
          (<[callId := default [] (toolCallToResults p !! callId) ++ [msg_id m]]> (toolCallToResults p))
          (<[msg_id m := callId]> (toolResultToCall p))
    end.
Definition pairs_of (messages : list Message) : pairing :=
  foldl (pair_step (callMsgIdByToolUseId messages)) (MkPairing None ∅ ∅) messages.

(** ** Symmetric expansion *)
Definition results_of (p : pairing) (id : string) : list string := default [] (toolCallToResults p !! id).
(** What one member of a group adds to it. *)
Definition additional_ids (p : pairing) (group : list json) (id : json) : list string :=
  match id with
  | JStr i =>
      List.filter (λ r, negb (has_id r group)) (results_of p i) ++
      match toolResultToCall p !! i with
      | Some call => if has_id call group then [] else call :: List.filter (λ r, negb (has_id r group)) (results_of p call)
      | None => []
      end
  | _ => []
  end.
Definition expand_group (p : pairing) (g : PurgeGroup) : PurgeGroup :=
  MkGroup (ids g ++ value_set (JStr <$> (ids g ≫= additional_ids p (ids g)))) (summary g).
Definition expanded_groups (messages : list Message) : list PurgeGroup := expand_group (pairs_of messages) <$> purge_groups messages.

(** ** The walk *)
Definition in_group (id : string) (g : PurgeGroup) : bool := has_id id (ids g).
Definition group_index (groups : list PurgeGroup) (id : string) : option nat := fst <$> list_find (λ g, in_group id g = true) groups.
Definition summary_stub (threadId : string) (groupIndex : nat) (g : PurgeGroup) (m : Message) : Message :=
  MkMessage ("purge-summary-" +:+ of_chars (print_Z (Z.of_nat groupIndex))) threadId "developer"
    ("(purged " +:+ of_chars (print_Z (Z.of_nat (length (ids g)))) +:+
     " messages — agent-authored summary, unverified; verify against source tables before relying) " +:+ js_string (summary g))
    None None (created_at m) (modified_at m) "local" 0 None None.
(** The keys of [purgeIdToSummary] are the members of the groups. *)
Fixpoint purge_walk (threadId : string) (groups : list PurgeGroup) (purgeMessageIds : list string) (processedPurgeGroups : list nat)
    (messages : list Message) : list Message :=
  match messages with
  | [] => []
  | m :: messages' =>
      if existsb (seqb (msg_id m)) purgeMessageIds then purge_walk threadId groups purgeMessageIds processedPurgeGroups messages'
      else match group_index groups (msg_id m) with
           | None => m :: purge_walk threadId groups purgeMessageIds processedPurgeGroups messages'
           | Some i =>
               match groups !! i with
               | Some g =>
                   if existsb (Nat.eqb i) processedPurgeGroups then purge_walk threadId groups purgeMessageIds processedPurgeGroups messages'
                   else summary_stub threadId i g m :: purge_walk threadId groups purgeMessageIds (i :: processedPurgeGroups) messages'
               | None => purge_walk threadId groups purgeMessageIds processedPurgeGroups messages'
               end
           end
  end.
Definition substitutePurgedMessages (messages : list Message) (threadId : string) : list Message :=
  purge_walk threadId (expanded_groups messages) (msg_id <$> List.filter is_purge messages) [] messages.

(** ** Stage 2.5 *)
Definition DROP_ROLES : list string := ["purge"; "system"].
Definition alert_as_developer (m : Message) : Message :=
  if is_role "alert" m
  then MkMessage (msg_id m) (thread_id m) "developer" ("[system alert] " +:+ content m) (model_id m) (tool_name m) (created_at m) (modified_at m)
         (host_origin m) (deleted m) (exit_code m) (metadata m)
  else m.
Definition filter_roles (messagesAfterPurge : list Message) : list Message :=
  alert_as_developer <$> List.filter (λ m, negb (existsb (seqb (role m)) DROP_ROLES)) messagesAfterPurge.

(** ** Sets of values *)
Lemma same_value_str i v : same_value (JStr i) v = true ↔ v = JStr i.
Proof. destruct v; simpl; try (by split). rewrite seqb_true. split; [by intros ->|by intros [= ->]]. Qed.
Lemma has_id_spec i l : has_id i l = true ↔ JStr i ∈ l.
Proof.
  unfold has_id. rewrite existsb_exists. split.
  - intros (v & Hv & ->%same_value_str). by apply list_elem_of_In.
  - intros H. exists (JStr i). split; [by apply list_elem_of_In|by apply same_value_str].
Qed.
Lemma has_id_false i l : has_id i l = false ↔ JStr i ∉ l.
Proof. rewrite <-has_id_spec. by destruct (has_id i l). Qed.
#[local] Instance has_id_dec i (l : list json) : Decision (JStr i ∈ l).
Proof. refine (cast_if (decide (has_id i l = true))); by rewrite <-has_id_spec. Defined.
Lemma value_set_str i l : JStr i ∈ value_set l ↔ JStr i ∈ l.
Proof.
  unfold value_set. enough (∀ acc, JStr i ∈ foldl (λ acc v, if existsb (same_value v) acc then acc else acc ++ [v]) acc l ↔ JStr i ∈ acc ∨ JStr i ∈ l) as H.
  { rewrite H. set_solver. }
  induction l as [|v l IH]; intros acc; [simpl; set_solver|]. cbn [foldl]. rewrite IH. destruct (existsb (same_value v) acc) eqn:E; [|set_solver].
  split; [set_solver|]. intros [?|[Hv|?]%elem_of_cons]; [by left| |by right]. left. subst v. by apply has_id_spec.
Qed.
(** Where the members of an expanded group come from. *)
Lemma expanded_member p g i : JStr i ∈ ids (expand_group p g) ↔ JStr i ∈ ids g ∨ ∃ x, JStr x ∈ ids g ∧ i ∈ additional_ids p (ids g) (JStr x).
Proof.
  cbn [expand_group ids]. rewrite elem_of_app, value_set_str, list_elem_of_fmap. apply or_iff_compat_l. split.
  - intros (y & [= <-] & (v & Hv & Hx)%list_elem_of_bind). destruct v as [| | |x| |]; try (by apply not_elem_of_nil in Hv). by exists x.
  - intros (x & Hx & Hi). exists i. split; [done|]. apply list_elem_of_bind. by exists (JStr x).
Qed.

(** ** The pairs of a thread with distinct ids *)
Definition call_id (messages : list Message) (c : string) : Prop := ∃ m, m ∈ messages ∧ is_call m = true ∧ msg_id m = c.
Definition result_id (messages : list Message) (r : string) : Prop := ∃ m, m ∈ messages ∧ is_result m = true ∧ msg_id m = r.
Lemma not_both m : is_call m = true → is_result m = true → False.
Proof. unfold is_call, is_result, is_role. intros H1%seqb_true H2%seqb_true. congruence. Qed.
Lemma same_id messages m m' : NoDup (msg_id <$> messages) → m ∈ messages → m' ∈ messages → msg_id m = msg_id m' → m = m'.
Proof.
  intros Hnd [j Hj]%list_elem_of_lookup [k Hk]%list_elem_of_lookup He. assert (j = k) as ->; [|congruence].
  apply (NoDup_lookup (msg_id <$> messages) j k (msg_id m)); [done|by rewrite list_lookup_fmap, Hj|by rewrite list_lookup_fmap, Hk, He].
Qed.
Lemma ids_disjoint messages i : NoDup (msg_id <$> messages) → call_id messages i → result_id messages i → False.
Proof.
  intros Hnd (m & Hm & Hc & <-) (m' & Hm' & Hr & He). apply (same_id messages) in He as ->; [by eapply not_both|done..].
Qed.
Lemma by_tool_use_calls messages t c : callMsgIdByToolUseId messages !! t = Some c → call_id messages c.
Proof.
  unfold callMsgIdByToolUseId. set (step := λ (idx : gmap string string) (m : Message), _).
  enough (∀ l idx, (∀ t c, idx !! t = Some c → call_id messages c) → l ⊆ messages → ∀ t c, foldl step idx l !! t = Some c → call_id messages c) as H.
  { apply (H messages ∅); [|done]. intros ??. by rewrite lookup_empty. }
  clear t c. induction l as [|m l IH]; intros idx Hidx Hl; [done|]. cbn [foldl]. apply IH; [|set_solver]. subst step. cbn beta. destruct (is_call m) eqn:Em; [|done].
  assert (call_id messages (msg_id m)) as Hm by (exists m; split_and!; [apply Hl; left|done|done]). clear -Hidx Hm.
  revert idx Hidx. induction (ids_of m) as [|t ts IH]; intros idx Hidx; [done|]. cbn [foldl]. apply IH. intros t' c'.
  destruct (decide (t = t')) as [->|]; [rewrite lookup_insert_eq; by intros [= <-]|rewrite lookup_insert_ne by done; apply Hidx].
Qed.
Record pairing_ok (messages seen : list Message) (p : pairing) : Prop := {
  ok_results : ∀ c r, r ∈ results_of p c ↔ toolResultToCall p !! r = Some c;
  ok_seen : ∀ r c, toolResultToCall p !! r = Some c → result_id seen r ∧ call_id messages c;
  ok_nearest : ∀ c, nearestPrecedingCallId p = Some c → call_id messages c
}.
Lemma pair_step_ok messages seen p m : NoDup (msg_id <$> messages) → (seen ++ [m]) ⊆ messages → msg_id m ∉ (msg_id <$> seen) →
  pairing_ok messages seen p → pairing_ok messages (seen ++ [m]) (pair_step (callMsgIdByToolUseId messages) p m).
Proof.
  intros Hnd Hsub Hnew [Hres Hseen Hnear].
  assert (∀ r, result_id seen r → result_id (seen ++ [m]) r) as Hgrow by (intros r (x & Hx & ?); exists x; split; [set_solver|done]).
  assert (m ∈ messages) as Hmm by set_solver.
  unfold pair_step. destruct (is_call m) eqn:Ec.
  { split; cbn [nearestPrecedingCallId toolResultToCall]; [exact Hres|intros r c H; split; [apply Hgrow|]; by apply (Hseen r c)|].
    intros c [= <-]. by exists m. }
  destruct (is_result m) eqn:Er; cbn [negb].
  2: { split; [exact Hres|intros r c H; split; [apply Hgrow|]; by apply (Hseen r c)|exact Hnear]. }
  destruct (match _ with Some c => Some c | None => nearestPrecedingCallId p end) as [callId|] eqn:Ecall.
  2: { split; [exact Hres|intros r c H; split; [apply Hgrow|]; by apply (Hseen r c)|exact Hnear]. }
  assert (call_id messages callId) as Hcall.
  { destruct (truthy (tool_name m)); [|by apply Hnear]. destruct (callMsgIdByToolUseId messages !! _) eqn:E; [|by apply Hnear].
    injection Ecall as ->. by eapply by_tool_use_calls. }
  assert (toolResultToCall p !! msg_id m = None) as Hnone.
  { destruct (toolResultToCall p !! msg_id m) as [c|] eqn:E; [|done]. apply Hseen in E as [(x & Hx & _ & He) _].
    exfalso. apply Hnew. rewrite <-He. by apply list_elem_of_fmap_2. }
  split; cbn [nearestPrecedingCallId toolResultToCall toolCallToResults results_of]; [| |exact Hnear].
  - intros c r. destruct (decide (c = callId)) as [->|Hc].
    + unfold results_of. cbn [toolCallToResults]. rewrite lookup_insert_eq. cbn [default from_option id]. rewrite elem_of_app, list_elem_of_singleton. fold (results_of p callId). rewrite Hres.
      destruct (decide (r = msg_id m)) as [->|Hr]; [rewrite lookup_insert_eq; split; [done|by right]|rewrite lookup_insert_ne by done]. split; [by intros [?|?]|by left].
    + unfold results_of. cbn [toolCallToResults]. rewrite lookup_insert_ne by done. fold (results_of p c). rewrite Hres.
      destruct (decide (r = msg_id m)) as [->|Hr]; [rewrite lookup_insert_eq, Hnone; split; [done|by intros [= ->]]|by rewrite lookup_insert_ne].
  - intros r c. destruct (decide (r = msg_id m)) as [->|Hr].
    + rewrite lookup_insert_eq. intros [= <-]. split; [|done]. exists m. split; [set_solver|done].
    + rewrite lookup_insert_ne by done. intros H. split; [apply Hgrow|]; by apply (Hseen r c).
Qed.
Lemma pairs_ok messages : NoDup (msg_id <$> messages) → pairing_ok messages messages (pairs_of messages).
Proof.
  intros Hnd. unfold pairs_of.
  enough (∀ l seen p, messages = seen ++ l → pairing_ok messages seen p → pairing_ok messages messages (foldl (pair_step (callMsgIdByToolUseId messages)) p l)) as H.
  { apply (H messages []); [done|]. split; cbn; [|intros ??; by rewrite lookup_empty|done].
    intros c r. unfold results_of. cbn. rewrite !lookup_empty. split; [by intros ?%not_elem_of_nil|done]. }
  induction l as [|m l IH]; intros seen p Heq Hp; [by rewrite app_nil_r in Heq; subst seen|]. cbn [foldl].
  apply (IH (seen ++ [m])); [by rewrite <-app_assoc|]. apply pair_step_ok; [done| | |done].
  - rewrite Heq. set_solver.
  - rewrite Heq, fmap_app, NoDup_app in Hnd. destruct Hnd as (_ & Hd & _). intros H. apply (Hd _ H). left.
Qed.

(** A pair is purged whole or not at all. *)
Lemma expansion_closed messages g r c : NoDup (msg_id <$> messages) → toolResultToCall (pairs_of messages) !! r = Some c →
  JStr r ∈ ids (expand_group (pairs_of messages) g) ↔ JStr c ∈ ids (expand_group (pairs_of messages) g).
Proof.
  intros Hnd Hrc. pose proof (pairs_ok messages Hnd) as [Hres Hseen _]. set (p := pairs_of messages) in *.
  assert (∀ x c', toolResultToCall p !! x = Some c' → ∀ y, toolResultToCall p !! c' ≠ Some y) as Hdisj.
  { intros x c' H1 y H2. apply Hseen in H1 as [_ H1], H2 as [H2 _]. by apply (ids_disjoint messages c'). }
  assert (∀ i x, i ∈ additional_ids p (ids g) (JStr x) ↔ JStr i ∉ ids g ∧
    (toolResultToCall p !! i = Some x ∨ ∃ c', toolResultToCall p !! x = Some c' ∧ JStr c' ∉ ids g ∧ (i = c' ∨ toolResultToCall p !! i = Some c'))) as Hadd.
  { intros i x. cbn [additional_ids]. rewrite elem_of_app, filter_In_iff, Hres, negb_true_iff, has_id_false.
    destruct (toolResultToCall p !! x) as [c'|] eqn:Ex.
    - destruct (has_id c' (ids g)) eqn:Eg.
      + apply has_id_spec in Eg. split; [intros [?|?%not_elem_of_nil]; [tauto|done]|]. intros (H1 & [H2|(c'' & [= <-] & H3 & _)]); [by left|done].
      + apply has_id_false in Eg. rewrite elem_of_cons, filter_In_iff, Hres, negb_true_iff, has_id_false.
        split; [intros [[??]|[->|[??]]]; naive_solver|]. intros (H1 & [H2|(c'' & [= <-] & H3 & [->|H4])]); naive_solver.
    - split; [intros [[??]|?%not_elem_of_nil]; [by auto|done]|]. intros (H1 & [H2|(c'' & [=] & _)]). by left. }
  rewrite !expanded_member. setoid_rewrite Hadd. destruct (decide (JStr c ∈ ids g)) as [Hc|Hc], (decide (JStr r ∈ ids g)) as [Hr|Hr].
  - split; by left.
  - split; [by left|]. intros _. right. exists c. split; [done|]. split; [done|by left].
  - split; [|by left]. intros _. right. exists r. split; [done|]. split; [done|]. right. exists c. split_and!; [done|done|by left].
  - split; (intros [?|(x & Hx & _ & [H|(c' & H1 & H2 & [H3|H3])])]; [done|..]).
    + rewrite Hrc in H. injection H as ->. done.
    + subst c'. by destruct (Hdisj x r H1 c).
    + rewrite Hrc in H3. injection H3 as <-. right. exists x. split; [done|]. split; [done|]. right. exists c. split_and!; [done|done|by left].
    + by destruct (Hdisj r c Hrc x).
    + subst c'. right. exists x. split; [done|]. split; [done|]. right. exists c. split_and!; [done|done|by right].
    + by destruct (Hdisj r c Hrc c').
Qed.

(** ** The walk *)
Section Walk.
Context (threadId : string) (groups : list PurgeGroup) (purgeMessageIds : list string).
Abbreviation walk := (purge_walk threadId groups purgeMessageIds).
(** The group a message is replaced for, and the messages that stay. *)
Definition hit (m : Message) : option nat := if existsb (seqb (msg_id m)) purgeMessageIds then None else group_index groups (msg_id m).
Definition survives (m : Message) : bool :=
  negb (existsb (seqb (msg_id m)) purgeMessageIds) && match group_index groups (msg_id m) with None => true | Some _ => false end.
Lemma hit_survives m : hit m ≠ None → survives m = false.
Proof using. unfold hit, survives. destruct (existsb _ purgeMessageIds); [done|]. by destruct (group_index groups (msg_id m)). Qed.
Lemma walk_step done m ms : walk done (m :: ms) =
  match hit m with
  | None => if survives m then m :: walk done ms else walk done ms
  | Some i =>
      match groups !! i with
      | Some g => if existsb (Nat.eqb i) done then walk done ms else summary_stub threadId i g m :: walk (i :: done) ms
      | None => walk done ms
      end
  end.
Proof using.
  unfold hit, survives. cbn [purge_walk]. destruct (existsb (seqb (msg_id m)) purgeMessageIds); [done|]. by destruct (group_index groups (msg_id m)).
Qed.
(** The first message of its group. *)
Definition first_hit (i : nat) (ms : list Message) (m : Message) : Prop :=
  ∃ l1 l2, ms = l1 ++ m :: l2 ∧ hit m = Some i ∧ Forall (λ m', hit m' ≠ Some i) l1.
Lemma first_hit_cons i m ms m' : first_hit i (m :: ms) m' ↔ (m' = m ∧ hit m = Some i) ∨ (hit m ≠ Some i ∧ first_hit i ms m').
Proof using.
  split.
  - intros ([|x l1] & l2 & [= -> ->] & Hh & Hl); [by left|]. apply Forall_cons in Hl as [Hx Hl]. right. split; [done|]. by exists l1, l2.
  - intros [[-> Hh]|(Hm & l1 & l2 & -> & Hh & Hl)]; [by exists [], ms|]. exists (m :: l1), l2. split; [done|]. split; [done|]. by constructor.
Qed.
Lemma existsb_nat i done : existsb (Nat.eqb i) done = true ↔ i ∈ done.
Proof using.
  rewrite existsb_exists. split; [intros (x & Hx & ->%Nat.eqb_eq); by apply list_elem_of_In|]. intros H. exists i. split; [by apply list_elem_of_In|apply Nat.eqb_refl].
Qed.
Lemma walk_members done ms x : x ∈ walk done ms ↔
  (x ∈ ms ∧ survives x = true) ∨ ∃ i g m, i ∉ done ∧ groups !! i = Some g ∧ first_hit i ms m ∧ x = summary_stub threadId i g m.
Proof using.
  revert done. induction ms as [|m ms IH]; intros done.
  { simpl. split; [by intros ?%not_elem_of_nil|]. intros [[H _]|(i & g & m & _ & _ & ([|??] & l2 & H & _) & _)]; [by apply not_elem_of_nil in H|done|done]. }
  rewrite walk_step. setoid_rewrite first_hit_cons. pose proof (hit_survives m) as Hs. destruct (hit m) as [i|] eqn:Eh.
  - specialize (Hs ltac:(done)). destruct (groups !! i) as [g|] eqn:Eg.
    + destruct (existsb (Nat.eqb i) done) eqn:Ed.
      * apply existsb_nat in Ed. rewrite IH. split.
        -- intros [[??]|(j & h & m' & Hj & Hg & Hf & ->)]; [left; split; [by right|done]|]. right. exists j, h, m'. split_and!; [done|done|right; split; [naive_solver|done]|done].
        -- intros [[[->|?]%elem_of_cons ?]|(j & h & m' & Hj & Hg & [[-> [= ->]]|[Hne Hf]] & ->)]; [congruence|by left|done|]. right. by exists j, h, m'.
      * assert (i ∉ done) as Hi by (intros H%existsb_nat; congruence). rewrite elem_of_cons, IH. split.
        -- intros [->|[[??]|(j & h & m' & Hj & Hg & Hf & ->)]]; [right; exists i, g, m; split_and!; [done|done|by left|done]|left; split; [by right|done]|].
           right. exists j, h, m'. rewrite not_elem_of_cons in Hj. destruct Hj as [Hj1 Hj2]. split_and!; [done|done|right; split; [congruence|done]|done].
        -- intros [[[->|?]%elem_of_cons ?]|(j & h & m' & Hj & Hg & [[-> [= ->]]|[Hne Hf]] & ->)]; [congruence|right; by left|left; congruence|].
           right. right. exists j, h, m'. rewrite not_elem_of_cons. split_and!; [congruence|done|done|done|done].
    + rewrite IH. split.
      * intros [[??]|(j & h & m' & Hj & Hg & Hf & ->)]; [left; split; [by right|done]|]. right. exists j, h, m'. split_and!; [done|done|right; split; [congruence|done]|done].
      * intros [[[->|?]%elem_of_cons ?]|(j & h & m' & Hj & Hg & [[-> [= ->]]|[Hne Hf]] & ->)]; [congruence|by left|congruence|]. right. by exists j, h, m'.
  - destruct (survives m) eqn:Em; rewrite ?elem_of_cons, IH; split.
    + intros [->|[[??]|(j & h & m' & Hj & Hg & Hf & ->)]]; [left; split; [by left|done]|left; split; [by right|done]|]. right. exists j, h, m'. split_and!; [done|done|right; split; [congruence|done]|done].
    + intros [[[->|?] ?]|(j & h & m' & Hj & Hg & [[-> [=]]|[Hne Hf]] & ->)]; [by left|right; by left|]. right. right. by exists j, h, m'.
    + intros [[??]|(j & h & m' & Hj & Hg & Hf & ->)]; [left; split; [by right|done]|]. right. exists j, h, m'. split_and!; [done|done|right; split; [congruence|done]|done].
    + intros [[[->|?] ?]|(j & h & m' & Hj & Hg & [[-> [=]]|[Hne Hf]] & ->)]; [congruence|by left|]. right. by exists j, h, m'.
Qed.
Lemma walk_order done ms : sublist (List.filter survives ms) (walk done ms).
Proof using.
  revert done. induction ms as [|m ms IH]; intros done; [constructor|]. rewrite walk_step. cbn [List.filter]. pose proof (hit_survives m) as Hs.
  destruct (hit m) as [i|]; [rewrite Hs by done|].
  - destruct (groups !! i); [destruct (existsb (Nat.eqb i) done)|]; [done|by apply sublist_cons|done].
  - destruct (survives m); [by constructor|done].
Qed.

(** The walk message by message: [before] are the messages in front. *)
Definition stands (before : list Message) (m : Message) : list Message :=
  match hit m with
  | None => if survives m then [m] else []
  | Some i =>
      match groups !! i with
      | Some g => if existsb (λ m', bool_decide (hit m' = Some i)) before then [] else [summary_stub threadId i g m]
      | None => []
      end
  end.
Lemma walk_positions dn before ms :
  (∀ i, is_Some (groups !! i) → i ∈ dn ↔ ∃ m, m ∈ before ∧ hit m = Some i) →
  walk dn ms = mjoin (imap (λ k m, stands (before ++ take k ms) m) ms).
Proof using.
  revert dn before. induction ms as [|m ms IH]; intros dn before Hd; [done|]. rewrite walk_step.
  cbn [imap mjoin list_join]. rewrite take_0, app_nil_r.
  assert (∀ k, before ++ take (S k) (m :: ms) = (before ++ [m]) ++ take k ms) as Ht by (intros k; by rewrite <-app_assoc).
  assert (∀ dn', (∀ i, is_Some (groups !! i) → i ∈ dn' ↔ ∃ x, x ∈ before ++ [m] ∧ hit x = Some i) →
    walk dn' ms = mjoin (imap ((λ k x, stands (before ++ take k (m :: ms)) x) ∘ S) ms)) as Hrest.
  { intros dn' Hd'. rewrite (IH dn' (before ++ [m]) Hd'). f_equal. apply imap_ext. intros k x _. unfold compose. by rewrite Ht. }
  assert (∀ i, (∃ x, x ∈ before ++ [m] ∧ hit x = Some i) ↔ (∃ x, x ∈ before ∧ hit x = Some i) ∨ hit m = Some i) as Happ.
  { intros i. setoid_rewrite elem_of_app. setoid_rewrite list_elem_of_singleton. naive_solver. }
  unfold stands at 1. destruct (hit m) as [i|] eqn:Eh.
  - destruct (groups !! i) as [g|] eqn:Eg.
    + assert (existsb (λ m', bool_decide (hit m' = Some i)) before = existsb (Nat.eqb i) dn) as ->.
      { apply eq_iff_eq_true. rewrite existsb_nat, Hd by eauto. rewrite existsb_exists. setoid_rewrite bool_decide_eq_true.
        by setoid_rewrite list_elem_of_In. }
      destruct (existsb (Nat.eqb i) dn) eqn:Ed; cbn [app]; [|f_equal]; apply Hrest; intros j Hj; rewrite Happ, <-(Hd j Hj).
      * split; [by left|]. intros [?|[= ->]]; [done|by apply existsb_nat].
      * rewrite elem_of_cons. naive_solver.
    + apply Hrest. intros j Hj. rewrite Happ, <-(Hd j Hj). split; [by left|]. intros [?|[= ->]]; [done|]. by destruct Hj as [? ?]; simplify_eq.
  - destruct (survives m); cbn [app]; [f_equal|]; apply Hrest; intros j Hj; rewrite Happ, <-(Hd j Hj); naive_solver.
Qed.

(** The ids of stubs are distinct, and stay apart from the ids of messages that
    do not look like them. *)
Definition stub_id (i : nat) : string := "purge-summary-" +:+ of_chars (print_Z (Z.of_nat i)).
Lemma stub_id_inj i j : stub_id i = stub_id j → i = j.
Proof using.
  unfold stub_id. intros H. apply (inj (String.append "purge-summary-")) in H. apply (f_equal chars) in H. rewrite !chars_of_chars in H. apply (f_equal ascii_text) in H.
  pose proof (dec_digits (Z.of_nat i) ltac:(lia)) as (_ & Hi & _). pose proof (dec_digits (Z.of_nat j) ltac:(lia)) as (_ & Hj & _).
  unfold dec in Hi, Hj. rewrite H in Hi. lia.
Qed.
Lemma walk_nodup done ms : NoDup (msg_id <$> ms) → (∀ m i, m ∈ ms → msg_id m ≠ stub_id i) → NoDup (msg_id <$> walk done ms).
Proof using.
  revert done. induction ms as [|m ms IH]; intros done Hnd Hids; [constructor|]. rewrite fmap_cons in Hnd. apply NoDup_cons in Hnd as [Hm Hnd].
  assert (∀ done, NoDup (msg_id <$> walk done ms)) as IH' by (intros d; apply IH; [done|]; intros x i Hx; apply Hids; by right). clear IH.
  rewrite walk_step. destruct (hit m) as [i|].
  - destruct (groups !! i) as [g|]; [|apply IH']. destruct (existsb (Nat.eqb i) done); [apply IH'|]. rewrite fmap_cons. constructor; [|apply IH'].
    intros (x & Hx & [[H _]|(j & h & m' & Hj & _ & _ & ->)]%walk_members)%list_elem_of_fmap.
    + apply (Hids x i); [by right|]. symmetry. exact Hx.
    + apply stub_id_inj in Hx. subst j. apply Hj. left.
  - destruct (survives m); [|apply IH']. rewrite fmap_cons. constructor; [|apply IH'].
    intros (x & Hx & [[H _]|(j & h & m' & Hj & _ & _ & ->)]%walk_members)%list_elem_of_fmap.
    + apply Hm. rewrite Hx. by apply list_elem_of_fmap_2.
    + apply (Hids m j); [left|]. exact Hx.
Qed.
End Walk.
Lemma group_index_none groups i : group_index groups i = None ↔ ∀ g, g ∈ groups → JStr i ∉ ids g.
Proof.
  unfold group_index. destruct (list_find _ groups) as [[n g]|] eqn:E; simpl.
  - split; [done|]. intros H. apply list_find_Some in E as (Hg & Hi & _). apply has_id_spec in Hi. exfalso. apply (H g); [|done]. by eapply list_elem_of_lookup_2.
  - split; [|done]. intros _ g Hg Hi. apply list_find_None in E. rewrite Forall_forall in E. apply (E g Hg). by apply has_id_spec.
Qed.
Lemma purge_id_spec messages m : NoDup (msg_id <$> messages) → m ∈ messages → existsb (seqb (msg_id m)) (msg_id <$> List.filter is_purge messages) = is_purge m.
Proof.
  intros Hnd Hm. destruct (is_purge m) eqn:Ep.
  - apply existsb_exists. exists (msg_id m). split; [|apply seqb_refl]. apply list_elem_of_In, list_elem_of_fmap_2. by apply filter_In_iff.
  - apply not_true_iff_false. intros (i & Hi & <-%seqb_true)%existsb_exists. apply list_elem_of_In, list_elem_of_fmap in Hi as (m' & He & [Hm' Hp]%filter_In_iff).
    apply (same_id messages) in He as ->; [congruence|done..].
Qed.

(** The roles of stored messages (shared/src/types.ts). *)
Definition MESSAGE_ROLES : list string := ["user"; "assistant"; "system"; "developer"; "alert"; "tool_call"; "tool_result"; "purge"].
Definition well_roled (m : Message) : Prop := role m ∈ MESSAGE_ROLES.
Lemma filter_roles_spec ms : Forall well_roled ms → Forall (λ m, compatible m = true ∧ role m ≠ "system") (filter_roles ms) ∧
  msg_id <$> filter_roles ms = msg_id <$> List.filter (λ m, negb (existsb (seqb (role m)) DROP_ROLES)) ms.
Proof.
  intros Hr. unfold filter_roles. split.
  - apply Forall_forall. intros x (m & -> & [Hm Hd]%filter_In_iff)%list_elem_of_fmap. rewrite Forall_forall in Hr. specialize (Hr m Hm). unfold well_roled, MESSAGE_ROLES in Hr.
    unfold alert_as_developer, compatible, is_role. repeat (apply elem_of_cons in Hr as [Hr|Hr]; [destruct m; simpl in *; subst; by simpl in *|]). by apply not_elem_of_nil in Hr.
  - rewrite <-list_fmap_compose. apply list_fmap_ext. intros i m _. unfold compose, alert_as_developer. by destruct (is_role "alert" m).
Qed.

(** What stands in the output at the place of the message [m] of the thread,
    with [before] in front of it: the message itself where no group names it,
    the stub of the first group that names it where no message in front belongs
    to that group, and nothing elsewhere or for a purge row. *)
Definition standing (messages : list Message) (threadId : string) (before : list Message) (m : Message) : list Message :=
  let groups := expanded_groups messages in
  if is_purge m then []
  else match group_index groups (msg_id m) with
       | None => [m]
       | Some i =>
           if existsb (λ m', negb (is_purge m') && bool_decide (group_index groups (msg_id m') = Some i)) before then []
           else match groups !! i with Some g => [summary_stub threadId i g m] | None => [] end
       end.
Lemma substitute_positions messages threadId : NoDup (msg_id <$> messages) →
  substitutePurgedMessages messages threadId =
    mjoin (imap (λ k m, standing messages threadId (take k messages) m) messages).
Proof.
  intros Hnd. unfold substitutePurgedMessages. rewrite (walk_positions _ _ _ [] []) by set_solver. f_equal. apply imap_ext. intros k m Hm.
  apply list_elem_of_lookup_2 in Hm as Hin. unfold stands, standing, hit, survives. cbn [app]. cbv zeta.
  rewrite (purge_id_spec messages m Hnd Hin). destruct (is_purge m); [done|]. cbn [negb andb].
  destruct (group_index (expanded_groups messages) (msg_id m)) as [i|]; [|done]. destruct (expanded_groups messages !! i) as [g|].
  - assert (∀ l, l ⊆ messages → existsb (λ m', bool_decide ((if existsb (seqb (msg_id m')) (msg_id <$> List.filter is_purge messages) then None
        else group_index (expanded_groups messages) (msg_id m')) = Some i)) l =
      existsb (λ m', negb (is_purge m') && bool_decide (group_index (expanded_groups messages) (msg_id m') = Some i)) l) as Hex; [|rewrite (Hex (take k messages)); [done|]; intros x Hx; rewrite <-(take_drop k messages); set_solver].
    induction l as [|x l IH]; intros Hl; [done|]. cbn [existsb]. rewrite IH by set_solver.
    rewrite (purge_id_spec messages x Hnd) by set_solver. by destruct (is_purge x).
  - by destruct (existsb _ _).
Qed.

(** C19: Purging a thread with distinct ids, none of which looks like the id of a
    stub, replaces each message in place: a message no group names stays; the
    first message of a group (the first group that names it) becomes that
    group's stub, which says the summary is the agent's own; every other named
    message and every purge row is dropped, with the other halves of tool pairs.
    So what is left keeps its order, ids stay distinct, and a tool result is
    dropped if and only if its call is; what the next stage passes on has a role
    of the wire.  A group whose messages all belong to earlier groups has no
    stub ([second_summary_lost]). *)
Theorem purge_contract messages threadId :
  let groups := expanded_groups messages in
  let purge_ids := msg_id <$> List.filter is_purge messages in
  let out := substitutePurgedMessages messages threadId in
  NoDup (msg_id <$> messages) → (∀ m i, m ∈ messages → msg_id m ≠ stub_id i) → Forall well_roled messages →
  out = mjoin (imap (λ k m, standing messages threadId (take k messages) m) messages) ∧
  (∀ x, x ∈ out ↔
    (x ∈ messages ∧ is_purge x = false ∧ ∀ g, g ∈ groups → JStr (msg_id x) ∉ ids g) ∨
    ∃ i g m, groups !! i = Some g ∧ first_hit groups purge_ids i messages m ∧ x = summary_stub threadId i g m) ∧
  sublist (List.filter (survives groups purge_ids) messages) out ∧ NoDup (msg_id <$> out) ∧
  (∀ r c, r ∈ messages → c ∈ messages → toolResultToCall (pairs_of messages) !! msg_id r = Some (msg_id c) → (r ∈ out ↔ c ∈ out)) ∧
  Forall (λ m, compatible m = true ∧ role m ≠ "system") (filter_roles out).
Proof.
  intros groups purge_ids out Hnd Hids Hroles.
  assert (∀ x, x ∈ messages → (survives groups purge_ids x = true ↔ is_purge x = false ∧ ∀ g, g ∈ groups → JStr (msg_id x) ∉ ids g)) as Hsurv.
  { intros x Hx. unfold survives, purge_ids. rewrite (purge_id_spec messages x Hnd Hx), andb_true_iff, negb_true_iff, <-group_index_none.
    destruct (group_index groups (msg_id x)); naive_solver. }
  assert (∀ x, x ∈ out ↔ (x ∈ messages ∧ is_purge x = false ∧ ∀ g, g ∈ groups → JStr (msg_id x) ∉ ids g) ∨
    ∃ i g m, groups !! i = Some g ∧ first_hit groups purge_ids i messages m ∧ x = summary_stub threadId i g m) as Hout.
  { intros x. unfold out, substitutePurgedMessages. rewrite walk_members. fold groups purge_ids. apply Morphisms_Prop.or_iff_morphism.
    - split; intros [Hx H]; (split; [done|]); by apply (Hsurv x Hx).
    - split; [intros (i & g & m & _ & ?); by exists i, g, m|intros (i & g & m & ?); exists i, g, m; split; [by intros ?%not_elem_of_nil|done]]. }
  assert (∀ x, x ∈ messages → (x ∈ out ↔ is_purge x = false ∧ ∀ g, g ∈ groups → JStr (msg_id x) ∉ ids g)) as Hstay.
  { intros x Hx. rewrite Hout. split; [|by auto]. intros [[_ H]|(i & g & m & _ & _ & ->)]; [done|]. exfalso. by apply (Hids _ i Hx). }
  split_and!; [by apply substitute_positions|done|apply walk_order|by apply walk_nodup| |].
  - intros r c Hr Hc Hp. rewrite (Hstay r Hr), (Hstay c Hc). pose proof (pairs_ok messages Hnd) as [_ Hseen _].
    apply Hseen in Hp as Hrc. destruct Hrc as [(r' & Hr' & Hrr & Er) (c' & Hc' & Hcc & Ec)].
    apply (same_id messages) in Er as ->; [|done..]. apply (same_id messages) in Ec as ->; [|done..].
    assert (is_purge r = false ∧ is_purge c = false) as [-> ->].
    { unfold is_purge, is_result, is_call, is_role in *. apply seqb_true in Hrr, Hcc. by rewrite Hrr, Hcc. }
    apply and_iff_compat_l. unfold groups, expanded_groups.
    split; intros H g (g0 & -> & Hg)%list_elem_of_fmap; specialize (H (expand_group (pairs_of messages) g0) (list_elem_of_fmap_2 _ _ _ Hg));
      by rewrite (expansion_closed messages g0 (msg_id r) (msg_id c) Hnd Hp) in *.
  - apply filter_roles_spec. apply Forall_forall. intros x [[Hx _]|(i & g & m & _ & _ & ->)]%Hout.
    + rewrite Forall_forall in Hroles. by apply Hroles.
    + unfold well_roled, MESSAGE_ROLES. cbn [role summary_stub]. set_solver.
Qed.

Module PurgeExamples.
Import Annotation.Examples.
Definition uses (ids : list string) : string := json_stringify (JArr ((λ i, JObj [("type", JStr "tool_use"); ("id", JStr i)]) <$> ids)).
Definition purge_of (id : string) (targets : list string) (s : string) : Message :=
  row id "purge" (json_stringify (JObj [("target_ids", JArr (JStr <$> targets)); ("summary", JStr s)])) None None "z".
Definition chat : list Message :=
  [row "1" "user" "hi" None None "a"; row "2" "tool_call" (uses ["c1"; "c2"]) None None "b"; row "3" "tool_result" "x" None (Some "c1") "c";
   row "4" "tool_result" "y" None (Some "c2") "d"; row "5" "alert" "oops" None None "e"; row "6" "assistant" "so" None None "f"].
Definition seen (ms : list Message) : list (string * string) := (λ m, (msg_id m, role m)) <$> filter_roles (substitutePurgedMessages ms "t").

Example one_result_purged : seen (chat ++ [purge_of "p" ["4"] "gone"]) =
  [("1", "user"); ("purge-summary-0", "developer"); ("5", "developer"); ("6", "assistant")].
Proof. vm_compute. reflexivity. Qed.
(** A group whose messages all belong to an earlier group has no stub: its
    summary is not shown. *)
Example second_summary_lost : seen (chat ++ [purge_of "p" ["1"; "6"] "first"; purge_of "q" ["6"] "second"]) =
  [("purge-summary-0", "developer"); ("2", "tool_call"); ("3", "tool_result"); ("4", "tool_result"); ("5", "developer")].
Proof. vm_compute. reflexivity. Qed.
(** The number in the stub counts ids that no message has. *)
Example count_of_absent : content <$> substitutePurgedMessages (take 1 chat ++ [purge_of "p" ["1"; "nowhere"] "gone"]) "t" =
  ["(purged 2 messages — agent-authored summary, unverified; verify against source tables before relying) gone"].
Proof. vm_compute. reflexivity. Qed.
(** A row that is no purge is kept, and so is the thread when its purge rows
    cannot be read. *)
Example malformed_purge : seen (chat ++ [row "p" "purge" "{" None None "z"; row "q" "purge" "null" None None "z"]) =
  [("1", "user"); ("2", "tool_call"); ("3", "tool_result"); ("4", "tool_result"); ("5", "developer"); ("6", "assistant")].
Proof. vm_compute. reflexivity. Qed.
End PurgeExamples.
Import PurgeExamples Annotation.Examples.

Lemma purge_contract_witness :
  let messages := chat ++ [purge_of "p" ["4"] "gone"] in
  NoDup (msg_id <$> substitutePurgedMessages messages "t") ∧
  (row "3" "tool_result" "x" None (Some "c1") "c" ∈ substitutePurgedMessages messages "t" ↔
   row "2" "tool_call" (uses ["c1"; "c2"]) None None "b" ∈ substitutePurgedMessages messages "t").
Proof.
  intros messages. destruct (purge_contract messages "t") as (_ & _ & _ & H3 & H4 & _).
  - by apply (bool_decide_unpack _); vm_compute.
  - intros m i Hm Heq. assert (starts_with "p" (msg_id m) = true → msg_id m = "p") as Hp.
    { revert Hm. apply (proj1 (Forall_forall (λ m, starts_with "p" (msg_id m) = true → msg_id m = "p") messages)). repeat constructor; by vm_compute. }
    rewrite Heq in Hp. by specialize (Hp eq_refl).
  - by apply (bool_decide_unpack _); vm_compute.
  - split; [exact H3|]. apply H4; [by apply (bool_decide_unpack _); vm_compute..|by vm_compute].
Defined.
