(* ===== verification/DelegationSegments.v ===== *)
(** * Segments of a delegated context (packages/agent/src/delegation-segments.ts)

    A turn that runs on another host's model ships its context as segments: one
    pointer to the longest prefix of the thread that the other host is known to
    have, and the rest verbatim.  The other host reads its own replica and
    renders the rows again.  The comment promises that it gets the producer's
    messages byte for byte; [segments_roundtrip] says when it does and what it
    gets when it does not. *)
From Stdlib Require Import Ascii.
From S2P Require Import Prelude Json Cron TokenCount Reducers ToolPairs Annotation.
Local Open Scope bound_scope.

(** ** The rows of a thread (repositories/messages.ts, yard-client-rows.ts) *)
Definition HARD_LIMIT : nat := 100000.
Definition YARD_CLIENT_CALL_ID_PREFIX : string := "yard-client-".
Definition isYardClientBookkeepingRow (m : Message) : bool :=
  is_result m && match tool_name m with Some n => starts_with YARD_CLIENT_CALL_ID_PREFIX n | None => false end.
(** The columns of the projection; what it leaves out reads as [undefined]. *)
Definition projection (m : Message) : Message :=
  MkMessage (msg_id m) (thread_id m) (role m) (content m) (model_id m) (tool_name m) (created_at m) (modified_at m) (host_origin m) 0 None None.
Definition live_in (threadId : string) (m : Message) : bool := seqb (thread_id m) threadId && (deleted m =? 0).
Definition created_before (a b : Message) : bool := sltb (created_at a) (created_at b).
(** [ORDER BY created_at DESC, rowid DESC LIMIT ?] over a table in rowid order. *)
Definition listLiveMessageProjectionByThreadNewestFirst (db : list Message) (threadId : string) (limit : nat) : list Message :=
  take limit (reverse (stable_sort created_before (projection <$> List.filter (live_in threadId) db))).
Definition loadRowsAsc (db : list Message) (threadId : string) : list Message :=
  List.filter (λ m, negb (isYardClientBookkeepingRow m)) (reverse (listLiveMessageProjectionByThreadNewestFirst db threadId HARD_LIMIT)).

(** ** The wire *)
Definition content_json (c : llm_content) : json := match c with CText s => JStr s | CBlocks bs => JArr bs end.
(** The object the annotator builds; a key that is [undefined] is not printed. *)
Definition message_json (w : wire_message) : json :=
  JObj ([("role", JStr (w_role w)); ("content", content_json (w_content w))] ++
        match w_model_id w with Some m => [("model_id", JStr m)] | None => [] end ++
        match w_host_origin w with Some h => [("host_origin", JStr h)] | None => [] end ++
        match w_tool_use_id w with Some i => [("tool_use_id", i)] | None => [] end).
Definition bytesEqual (a b : json) : bool := seqb (json_stringify a) (json_stringify b).
Inductive ContextSegment : Type :=
| Inline (message : json)
| Range (thread_id anchor_created_at : string) (count : nat).

(** ** The producer *)
Section Producer.
Context (isRangeCoverable : Message → bool).
(** The walk over both lists: how many messages the range covers, and how many
    rows they come from. *)
Fixpoint leading_run (rows : list Message) (annotated : list wire_message) (producer : list json) : nat * nat :=
  match annotated, producer with
  | a :: annotated', p :: producer' =>
      if negb (bytesEqual p (message_json a)) then (0%nat, 0%nat)
      else if isInjected a then let '(k, n) := leading_run rows annotated' producer' in (S k, n)
      else match rows with
           | r :: rows' =>
               if isRangeCoverable r then let '(k, n) := leading_run rows' annotated' producer' in (S k, S n) else (0%nat, 0%nat)
           | [] => (0%nat, 0%nat)
           end
  | _, _ => (0%nat, 0%nat)
  end.
End Producer.

Section Codec.
Context (parse_date : string → option Z) (nowMs : Z).
(** The token counts of the annotator are not looked at. *)
Definition annotate (rows : list Message) : result (list wire_message) := annotateMessages parse_date (λ _, 0) (λ _ _ _, 0) nowMs rows.

Definition segmentAssembledMessages (db : list Message) (threadId : string) (producerMessages : list json) (isRangeCoverable : Message → bool)
    : result (list ContextSegment) :=
  let rows := loadRowsAsc db threadId in
  let! annotatedRows := annotate rows in
  let '(runLen, rowCursor) := leading_run isRangeCoverable rows annotatedRows producerMessages in
  if (runLen =? 0)%nat then Ok (Inline <$> producerMessages)
  else match last (take rowCursor rows) with
       | None => Throw "undefined is not an object (evaluating 'rows[rowCursor - 1].created_at')"
       | Some anchor => Ok (Range threadId (created_at anchor) rowCursor :: (Inline <$> drop runLen producerMessages))
       end.

(** ** The consumer *)
Definition show_count (n : nat) : string := of_chars (print_Z (Z.of_nat n)).
Definition resolve_one (db : list Message) (segment : ContextSegment) : result (list json) :=
  match segment with
  | Inline message => Ok [message]
  | Range threadId anchor count =>
      let upToAnchor := List.filter (λ r, sleb (created_at r) anchor) (loadRowsAsc db threadId) in
      if (length upToAnchor <? count)%nat then
        Throw ("resolveSegments: range for thread " +:+ threadId +:+ " expects " +:+ show_count count +:+ " rows up to " +:+ anchor +:+
               " but only " +:+ show_count (length upToAnchor) +:+ " are present (R-UD10: confirmed-synced prefix missing on consumer)")
      else let! ms := annotate (take count upToAnchor) in Ok (message_json <$> ms)
  end.
Fixpoint resolveSegments (segments : list ContextSegment) (db : list Message) : result (list json) :=
  match segments with
  | [] => Ok []
  | segment :: segments' =>
      let! out := resolve_one db segment in
      let! rest := resolveSegments segments' db in
      Ok (out ++ rest)
  end.
End Codec.

(** ** What the loader returns *)
Lemma load_sublist db threadId :
  sublist (loadRowsAsc db threadId) (stable_sort created_before (projection <$> List.filter (live_in threadId) db)).
Proof.
  unfold loadRowsAsc, listLiveMessageProjectionByThreadNewestFirst. etrans; [apply filter_sublist|].
  rewrite take_reverse, reverse_involutive. apply sublist_drop.
Qed.
Lemma load_nodup db threadId : NoDup (msg_id <$> db) → NoDup (msg_id <$> loadRowsAsc db threadId).
Proof.
  intros H. eapply sublist_NoDup; [|apply sublist_fmap, load_sublist]. rewrite stable_sort_perm, <-list_fmap_compose.
  by apply NoDup_fmap_filter.
Qed.
Lemma load_sorted db threadId : StronglySorted (λ a b, created_at a ≤s created_at b) (loadRowsAsc db threadId).
Proof.
  eapply sublist_StronglySorted; [apply load_sublist|].
  assert (StronglySorted (cmp_le created_before) (stable_sort created_before (projection <$> List.filter (live_in threadId) db))) as H.
  { apply stable_sort_sorted; unfold created_before.
    - intros a b c. rewrite !sltb_sleb, !negb_false_iff. intros ??. by eapply sleb_trans.
    - intros a b. apply sltb_asym. }
  induction H as [|x l _ IH Hx]; constructor; [done|]. eapply Forall_impl; [exact Hx|]. intros y Hy.
  unfold cmp_le, created_before in Hy. rewrite sltb_sleb in Hy. by apply negb_false_iff.
Qed.
(** The anchor of a prefix does not cut into it. *)
Lemma anchored_prefix rows n r : StronglySorted (λ a b, created_at a ≤s created_at b) rows → last (take n rows) = Some r →
  take n (List.filter (λ m, sleb (created_at m) (created_at r)) rows) = take n rows.
Proof.
  intros Hs Hl. rewrite <-(take_drop n rows) in Hs |- * at 1. rewrite List.filter_app.
  rewrite (filter_bool_all _ (take n rows)).
  - destruct (decide (length rows ≤ n)%nat) as [Hn|Hn].
    + by rewrite (drop_ge rows), app_nil_r, take_idemp by done.
    + rewrite take_app_le by (rewrite length_take; lia). by rewrite take_idemp.
  - intros x Hx. apply last_Some in Hl as [l Hl]. rewrite Hl in Hx, Hs. apply StronglySorted_app_1_l in Hs.
    apply elem_of_app in Hx as [Hx|Hx%list_elem_of_singleton]; [|subst; apply sleb_refl].
    refine (StronglySorted_app_1_elem_of (λ a b, created_at a ≤s created_at b) l [r] x r Hs Hx _). by left.
Qed.

(** ** Markers *)
(** Behind a marker there is a row, and the first message is one. *)
Definition spaced (ws : list wire_message) : Prop :=
  ∀ i w, ws !! i = Some w → isInjected w = true → ∃ w', ws !! S i = Some w' ∧ isInjected w' = false.
Definition rows_only (ws : list wire_message) : list wire_message := List.filter (λ w, negb (isInjected w)) ws.
Lemma spaced_cons w ws : isInjected w = false → spaced ws → spaced (w :: ws).
Proof. intros Hw Hs [|i] x Hx Hi; [simpl in Hx; congruence|]. exact (Hs i x Hx Hi). Qed.
Lemma spaced_marked k w ws : isInjected w = false → spaced ws → spaced (k :: w :: ws).
Proof. intros Hw Hs [|i] x Hx Hi; [by exists w|]. exact (spaced_cons w ws Hw Hs i x Hx Hi). Qed.
Section Markers.
Context (parse_date : string → option Z) (now : Z).
Abbreviation render := (annotate_rows parse_date (λ _, 0) (λ _ _ _, 0) now).
Lemma render_spaced t st ms l : render t st ms = Ok l →
  spaced l.*1 ∧ (lastAssistantModel st = None → ∀ w, l.*1 !! 0%nat = Some w → isInjected w = false).
Proof using.
  revert st l. induction ms as [|m ms IH]; intros st l; cbn [annotate_rows]; [by intros [= <-]|].
  destruct (annotate_one _ _ _ _ _ _ _) as [r|] eqn:E; [|done]. cbn [result_bind]. apply one_spec in E as [E Hr]. rewrite E.
  destruct (render t (next_state st m) ms) as [rest|] eqn:Er; [|done]. cbn [result_bind]. intros [= <-]. apply IH in Er as [IH1 IH2].
  rewrite fmap_app. unfold rendered in Hr. destruct (compatible m) eqn:Ec.
  - destruct Hr as (marks & w & -> & Hw & _ & [[-> _]|((k & -> & Hk) & _ & _ & Hsome)]); simpl.
    + split; [by apply spaced_cons|]. intros _ w' [= <-]. done.
    + split; [by apply spaced_marked|]. intros Hn. rewrite Hn in Hsome. by destruct Hsome.
  - rewrite Hr. split; [done|]. intros Hn. apply IH2. unfold next_state. by rewrite Ec.
Qed.
End Markers.
Lemma spaced_last ws : spaced ws → ws ≠ [] → ∃ ws' w, ws = ws' ++ [w] ∧ isInjected w = false.
Proof.
  intros Hs Hne. destruct (last ws) as [w|] eqn:E; [|by apply last_None in E]. apply last_Some in E as [ws' ->]. exists ws', w. split; [done|].
  destruct (isInjected w) eqn:Ei; [|done]. destruct (Hs (length ws') w) as (w' & Hw' & _); [by rewrite lookup_app_r, Nat.sub_diag by lia|done|].
  apply lookup_lt_Some in Hw'. rewrite length_app in Hw'. simpl in Hw'. lia.
Qed.
(** A prefix with all the rows of the first part ends with that part or with the
    marker behind it. *)
Lemma prefix_of_parts la lb k n : spaced la → spaced lb → length (rows_only la) = n → (k ≤ length (la ++ lb))%nat →
  length (rows_only (take k (la ++ lb))) = n →
  take k (la ++ lb) = la ∨ ∃ w, take k (la ++ lb) = la ++ [w] ∧ isInjected w = true.
Proof.
  intros Hsa Hsb Hn Hk Hc. destruct (decide (length la ≤ k)%nat) as [Hle|Hlt].
  - rewrite take_app_ge in Hc |- * by done. unfold rows_only in Hc, Hn. rewrite List.filter_app, length_app, Hn in Hc.
    assert (List.filter (λ w, negb (isInjected w)) (take (k - length la) lb) = []) as Hnil by (apply length_zero_iff_nil; lia).
    destruct (k - length la)%nat as [|[|j]] eqn:Ej; [left; by rewrite take_0, app_nil_r|..]; (destruct lb as [|w lb]; [left; by rewrite take_nil, app_nil_r|]).
    + right. exists w. split; [done|]. simpl in Hnil. by destruct (isInjected w).
    + cbn [take List.filter] in Hnil. destruct (isInjected w) eqn:Ew; [|done]. destruct (Hsb 0%nat w eq_refl Ew) as (w' & Hw' & Hi').
      destruct lb as [|w2 lb]; [done|]. simpl in Hw'. injection Hw' as ->. cbn [negb take List.filter] in Hnil. by rewrite Hi' in Hnil.
  - exfalso. destruct (spaced_last la Hsa) as (la' & w & -> & Hw); [by intros ->; simpl in Hlt; lia|].
    rewrite length_app in Hlt. simpl in Hlt. rewrite <-app_assoc in Hc. rewrite take_app_le in Hc by lia.
    unfold rows_only in Hn, Hc. rewrite List.filter_app, length_app in Hn. cbn [List.filter] in Hn. rewrite Hw in Hn. simpl in Hn.
    assert (length (List.filter (λ w, negb (isInjected w)) (take k la')) ≤ length (List.filter (λ w, negb (isInjected w)) la'))%nat as Hsub; [|lia].
    rewrite <-(take_drop k la') at 2. rewrite List.filter_app, length_app. lia.
Qed.

(** ** The walk *)
(** Where the walk stops: at the end of a list, at a message of other bytes, or
    at a row that is not covered. *)
Definition run_stops (coverable : Message → bool) (rows : list Message) (annotated : list wire_message) (producer : list json) (k n : nat) : Prop :=
  ∀ a p, annotated !! k = Some a → producer !! k = Some p → bytesEqual p (message_json a) = true →
    isInjected a = false ∧ ∀ r, rows !! n = Some r → coverable r = false.
Lemma leading_run_spec coverable rows annotated producer k n : leading_run coverable rows annotated producer = (k, n) →
  Forall (λ r, coverable r = true) (take n rows) ∧ (n ≤ length rows)%nat ∧ (k ≤ length annotated)%nat ∧ length (rows_only (take k annotated)) = n ∧
  json_stringify <$> take k producer = json_stringify <$> (message_json <$> take k annotated) ∧ run_stops coverable rows annotated producer k n.
Proof.
  revert rows producer k n. induction annotated as [|a annotated IH]; intros rows producer k n.
  { cbn [leading_run]. intros [= <- <-]. split_and!; [constructor|lia|done|done|done|by intros a p]. }
  destruct producer as [|p producer].
  { cbn [leading_run]. intros [= <- <-]. split_and!; [constructor|lia|simpl; lia|done|done|by intros ???]. }
  cbn [leading_run]. unfold run_stops.
  destruct (bytesEqual p (message_json a)) eqn:Ep; cbn [negb].
  2: { intros [= <- <-]. split_and!; [constructor|lia|simpl; lia|done|done|]. intros a' p' [= <-] [= <-]. by rewrite Ep. }
  destruct (isInjected a) eqn:Ea.
  - destruct (leading_run coverable rows annotated producer) as [k' n'] eqn:E. intros [= <- <-]. apply IH in E as (H1 & H2 & H3 & H4 & H5 & H6).
    split_and!; [done|done|simpl; lia|unfold rows_only in *; simpl; by rewrite Ea|simpl; f_equal; [by apply seqb_true|done]|exact H6].
  - destruct rows as [|r rows].
    { intros [= <- <-]. split_and!; [constructor|simpl; lia|simpl; lia|done|done|]. intros a' p' [= <-] _ _. done. }
    destruct (coverable r) eqn:Er.
    + destruct (leading_run coverable rows annotated producer) as [k' n'] eqn:E. intros [= <- <-]. apply IH in E as (H1 & H2 & H3 & H4 & H5 & H6).
      split_and!; [by constructor|simpl; lia|simpl; lia|unfold rows_only in *; simpl; rewrite Ea; simpl; by rewrite H4|simpl; f_equal; [by apply seqb_true|done]|exact H6].
    + intros [= <- <-]. split_and!; [constructor|simpl; lia|simpl; lia|done|done|]. intros a' p' [= <-] _ _. split; [done|]. intros r' [= <-]. done.
Qed.
Lemma resolve_inline parse_date now db messages : resolveSegments parse_date now (Inline <$> messages) db = Ok messages.
Proof. induction messages as [|m messages IH]; [done|]. rewrite fmap_cons. cbn [resolveSegments resolve_one result_bind]. by rewrite IH. Qed.
Lemma resolve_range parse_date now db threadId r n messages rows ws :
  last (take n rows) = Some r → length (take n rows) = n →
  take n (List.filter (λ m, sleb (created_at m) (created_at r)) (loadRowsAsc db threadId)) = take n rows → annotate parse_date now (take n rows) = Ok ws →
  resolveSegments parse_date now (Range threadId (created_at r) n :: (Inline <$> messages)) db = Ok ((message_json <$> ws) ++ messages).
Proof.
  intros Hl Hlen Hp Ha. cbn [resolveSegments resolve_one]. cbv zeta.
  assert ((length (List.filter (λ m, sleb (created_at m) (created_at r)) (loadRowsAsc db threadId)) <? n)%nat = false) as ->.
  { apply Nat.ltb_ge. rewrite <-Hlen, <-Hp, length_take at 1. lia. }
  rewrite Hp, Ha. cbn [result_bind]. by rewrite resolve_inline.
Qed.

(** The rows and messages of a range: what the other host renders is what the
    run covered, less a marker at its end. *)
Definition ends_in_marker (annotated : list wire_message) (k : nat) : bool :=
  match last (take k annotated) with Some w => isInjected w | None => false end.
Definition kept_run (annotated : list wire_message) (k : nat) : nat := if ends_in_marker annotated k then Nat.pred k else k.
Lemma run_renders parse_date now rows coverable annotated messages k n :
  NoDup (msg_id <$> rows) → answers_in_order [] rows = true → annotate parse_date now rows = Ok annotated →
  leading_run coverable rows annotated messages = (k, n) → forallb compatible (take n rows) = true →
  annotate parse_date now (take n rows) = Ok (take (kept_run annotated k) annotated) ∧ ((0 < k)%nat → (0 < n)%nat).
Proof.
  intros Hnd Ho Ha Hrun Hc. apply leading_run_spec in Hrun as (_ & Hnl & Hk & Hcount & _). rewrite <-(take_drop n rows) in Hnd, Ho, Ha.
  unfold annotate, annotateMessages in Ha |- *.
  destruct (annotateMessagesWithTokens _ _ _ _ (take n rows ++ drop n rows)) as [[ws ks]|] eqn:E; [|done]. cbn [result_bind fst] in Ha. injection Ha as <-.
  apply annotate_split in E as (la & lb & Hla & Hlb & -> & ->); [|done..].
  unfold annotateMessagesWithTokens. rewrite Hla. cbn [result_bind fst].
  pose proof (rows_shape _ _ _ _ _ _ _ _ Hla) as [Hshape _]. apply (f_equal length) in Hshape. rewrite !length_fmap in Hshape.
  rewrite (filter_bool_all compatible) in Hshape by (intros x Hx; rewrite forallb_forall in Hc; apply Hc; by apply list_elem_of_In). rewrite length_take_le in Hshape by done.
  pose proof (render_spaced _ _ _ _ _ _ Hla) as [Hsa _]. apply render_spaced in Hlb as [Hsb Hfb].
  pose proof (prefix_of_parts la.*1 lb.*1 k n Hsa Hsb Hshape Hk Hcount) as Hparts. split.
  - unfold kept_run, ends_in_marker. destruct Hparts as [Hp|(w & Hp & Hw)]; rewrite Hp.
    + assert (match last la.*1 with Some w => isInjected w | None => false end = false) as ->.
      { destruct (decide (la.*1 = [])) as [->|Hne]; [done|]. destruct (spaced_last _ Hsa Hne) as (l' & w & -> & Hw). by rewrite last_snoc. }
      by rewrite Hp.
    + rewrite last_snoc, Hw. assert (Nat.pred k = length la.*1) as ->; [|by rewrite take_app_length].
      apply (f_equal length) in Hp. rewrite length_take_le, length_app in Hp by done. simpl in Hp. lia.
  - intros Hk0. destruct n; [|lia]. exfalso. cbn in Hla. injection Hla as <-. cbn in Hk, Hcount, Hfb. destruct lb as [|b lb]; [simpl in Hk; lia|]. destruct k; [lia|]. cbn in Hcount. rewrite (Hfb eq_refl b.1 eq_refl) in Hcount. done.
Qed.

(** C14: The segments of a context cover the longest prefix that is rendered
    from confirmed rows, and a host that resolves them gets the producer's
    messages byte for byte, short of a marker on which the covered run ends,
    which is lost (Example marker_lost).  This holds under the conditions the code
    relies on: ids are unique and results come after their calls; the covered
    rows have roles of the wire, none a purge tombstone (Example purge_misaligns);
    and the host reads the producer's own database, or a replica whose rows up to
    the anchor begin with the covered ones, without a row of a third host among
    them (Example unseen_row_shifts).  A host with fewer rows up to the anchor
    than the range counts raises an error; that is the only lack it notices. *)
Theorem segments_roundtrip parse_date now producer consumer threadId messages coverable annotated k n :
  let rows := loadRowsAsc producer threadId in
  let up_to r := List.filter (λ m, sleb (created_at m) (created_at r)) (loadRowsAsc consumer threadId) in
  NoDup (msg_id <$> producer) → answers_in_order [] rows = true → annotate parse_date now rows = Ok annotated →
  leading_run coverable rows annotated messages = (k, n) → forallb compatible (take n rows) = true →
  (consumer = producer ∨ ∀ r, last (take n rows) = Some r → take n (up_to r) = take n rows) →
  ∃ segments out,
    segmentAssembledMessages parse_date now producer threadId messages coverable = Ok segments ∧
    (segments = (Inline <$> messages) ∧ k = 0%nat ∨
     (∃ anchor, segments = Range threadId anchor n :: (Inline <$> drop k messages)) ∧ (0 < n)%nat) ∧
    Forall (λ r, coverable r = true) (take n rows) ∧ run_stops coverable rows annotated messages k n ∧
    resolveSegments parse_date now segments consumer = Ok out ∧
    json_stringify <$> out = json_stringify <$> (take (kept_run annotated k) messages ++ drop k messages) ∧
    (∀ other r, last (take n rows) = Some r → (0 < k)%nat →
      (length (List.filter (λ m, sleb (created_at m) (created_at r)) (loadRowsAsc other threadId)) < n)%nat →
      ∃ e, resolveSegments parse_date now segments other = Throw e).
Proof.
  intros rows up_to Hnd Ho Ha Hrun Hc Hheld. pose proof (load_nodup producer threadId Hnd) as Hids.
  pose proof (run_renders _ _ _ _ _ _ _ _ Hids Ho Ha Hrun Hc) as [Hr Hpos].
  pose proof (leading_run_spec _ _ _ _ _ _ Hrun) as (Hcov & Hn & Hk & _ & Hbytes & Hstop).
  unfold segmentAssembledMessages. fold rows. rewrite Ha. cbn [result_bind]. rewrite Hrun.
  destruct (Nat.eqb_spec k 0) as [->|Hk0].
  { exists (Inline <$> messages), messages. split_and!; [done|by left|done|done|apply resolve_inline| |intros; lia].
    unfold kept_run, ends_in_marker. by rewrite take_0, drop_0. }
  destruct (last (take n rows)) as [r|] eqn:Er.
  2: { exfalso. apply last_None in Er. apply (f_equal length) in Er. rewrite length_take_le in Er by done. simpl in Er. lia. }
  assert (take n (up_to r) = take n rows) as Hp.
  { destruct Hheld as [->|Hheld]; [|by apply Hheld]. apply anchored_prefix; [apply load_sorted|done]. }
  eexists _, _. split; [done|]. split; [right; split; [by eexists|lia]|]. split; [done|]. split; [done|]. split.
  - by apply (resolve_range _ _ _ _ r n _ rows _ Er (length_take_le _ _ Hn) Hp Hr).
  - split.
    + rewrite !fmap_app. f_equal. apply (f_equal (take (kept_run annotated k))) in Hbytes. rewrite <-!fmap_take, !take_take in Hbytes.
      assert (kept_run annotated k `min` k = kept_run annotated k)%nat as Hmin by (unfold kept_run; destruct (ends_in_marker _ _); lia). by rewrite Hmin in Hbytes.
    + intros other r' [= <-] _ Hshort. cbn [resolveSegments resolve_one]. rewrite (proj2 (Nat.ltb_lt _ _) Hshort). cbn [result_bind]. by eexists.
Qed.

Module SegmentExamples.
Import Annotation.Examples.
(** A thread whose model changes with its last row, which the other host has not
    confirmed. *)
Definition segmented (db : list Message) (coverable : Message → bool) (tail : list json) : result (list ContextSegment) :=
  let! ws := annotate parse_any now (loadRowsAsc db "t") in
  segmentAssembledMessages parse_any now db "t" ((message_json <$> ws) ++ tail) coverable.
Definition resolved (db replica : list Message) (coverable : Message → bool) : result (list string) :=
  let! segments := segmented db coverable [JStr "tail"] in
  let! out := resolveSegments parse_any now segments replica in
  Ok ((λ m, match json_get "role" m with Some (JStr r) => r | _ => "other" end) <$> out).
Definition confirmed (last_id : string) (m : Message) : bool := sltb (msg_id m) last_id.
Definition messages_of (db : list Message) : list json :=
  match annotate parse_any now (loadRowsAsc db "t") with Ok ws => message_json <$> ws | Throw _ => [] end.

(** All of it is covered, and comes back. *)
Example all_covered : resolved (thread ++ answer) (thread ++ answer) (confirmed "9") =
  Ok ["user"; "tool_call"; "tool_result"; "assistant"; "user"; "developer"; "assistant"; "other"].
Proof. vm_compute. reflexivity. Qed.
(** Without the last row the run ends on its marker, which the other host does
    not render: the message about the model is gone. *)
Example marker_lost : resolved (thread ++ answer) (thread ++ answer) (confirmed "6") =
  Ok ["user"; "tool_call"; "tool_result"; "assistant"; "user"; "assistant"; "other"].
Proof. vm_compute. reflexivity. Qed.
(** A tombstone among the rows counts for the range but renders nothing: the
    last covered message is gone. *)
Definition with_purge : list Message := row "0" "purge" "{}" None None "A" :: thread.
Example purge_misaligns : resolved with_purge with_purge (confirmed "9") = Ok ["user"; "tool_call"; "tool_result"; "other"].
Proof. vm_compute. reflexivity. Qed.
(** A row that only the replica has, written on a third host, takes the place of
    a covered one; the count is right, so that nothing is raised. *)
Definition unseen : Message := row "7" "user" "from elsewhere" None None "ab".
Example unseen_row_shifts : resolved thread (thread ++ [unseen]) (confirmed "9") = Ok ["user"; "user"; "tool_call"; "tool_result"; "other"].
Proof. vm_compute. reflexivity. Qed.
(** A replica that lacks rows is refused. *)
Example rows_missing : ∃ e, resolved thread (take 2 thread) (confirmed "9") = Throw e.
Proof. eexists. vm_compute. reflexivity. Qed.
(** What the table has of a sender's name and offset is not among the columns
    that are read. *)
Definition stamped_row : Message :=
  MkMessage "1" "t" "user" "hi" None None "a" None "host" 0 None (Some (json_stringify (JObj [("user_name", JStr "Kara"); ("tz_offset", JInt 120)]))).
Example metadata_unread :
  buildUserMessageAttributes parse_any stamped_row now = " " +:+ attribute "from" "Kara" +:+ " " +:+ attribute "sent" "Apr 4, 16:30 UTC+02:00" ∧
  (λ m, buildUserMessageAttributes parse_any m now) <$> loadRowsAsc [stamped_row] "t" = [" " +:+ attribute "sent" "Apr 4, 14:30 UTC"].
Proof. split; vm_compute; reflexivity. Qed.
End SegmentExamples.
Import SegmentExamples Annotation.Examples.

Lemma segments_roundtrip_witness :
  let db := thread ++ answer in
  ∃ segments out, segmentAssembledMessages parse_any now db "t" (messages_of db) (confirmed "9") = Ok segments ∧
    resolveSegments parse_any now segments db = Ok out ∧ json_stringify <$> out = json_stringify <$> messages_of db ∧ length segments = 1%nat.
Proof.
  intros db. unfold messages_of. destruct (annotate parse_any now (loadRowsAsc db "t")) as [ws|e] eqn:Ea; [|by vm_compute in Ea].
  pose proof Ea as Ew. vm_compute in Ew. injection Ew as Ew.
  destruct (segments_roundtrip parse_any now db db "t" (message_json <$> ws) (confirmed "9") ws 7 6) as (segments & out & H1 & H2 & _ & _ & H3 & H4 & _).
  - by apply (bool_decide_unpack _); vm_compute.
  - by vm_compute.
  - exact Ea.
  - by subst ws; vm_compute.
  - by vm_compute.
  - by left.
  - exists segments, out. split_and!; [done|done| |].
    + rewrite H4. subst ws. vm_compute. reflexivity.
    + destruct H2 as [[_ H2]|[[anchor ->] _]]; [done|]. subst ws. vm_compute. reflexivity.
Defined.
