(* ===== verification/WorkspaceFiles.v ===== *)
(** * Persisting the agent's files (packages/sandbox/src/fs-persist.ts, cluster-fs.ts)

    An agent works on an in-memory file system; when its run ends, the files that
    changed are written to the synced table [files].  [snapshotWorkspace] hashes
    the files before and after, [diffWorkspaceAsync] finds what changed, and
    [persistWorkspaceChanges] writes it in one transaction through the outbox,
    comparing the stored content with the snapshot on the way;  [persistFs] of
    agent-factory.ts keeps the snapshot.  The hash, the file system, [Date.parse]
    and the row SQLite finds first among those of one path are arguments. *)
From Stdlib Require Import Ascii.
From S2P Require Import Prelude Json Store ToolPairs ChangeLog.
Local Open Scope bound_scope.

(** ** Snapshots *)
Record fs_error : Type := MkFsError { fe_code : option string; fe_message : string }.
Inductive fs_read : Type :=
| Content (s : string)
| Failed (e : fs_error).
Definition expected_code (e : fs_error) : bool :=
  match fe_code e with Some c => seqb c "ENOENT" || seqb c "EISDIR" | None => false end.
Definition isExpectedFsError (e : fs_error) : bool :=
  expected_code e || starts_with "ENOENT:" (fe_message e) || starts_with "EISDIR:" (fe_message e).
(** A [Map] in insertion order. *)
Abbreviation snapshot := (list (string * string)).

Section Snapshots.
Context (sha256 : string → string).
Fixpoint snapshot_paths (read : string → fs_read) (paths : list string) (acc : snapshot) : result snapshot :=
  match paths with
  | [] => Ok acc
  | p :: paths' =>
      match read p with
      | Content s => snapshot_paths read paths' (fields_set p (sha256 s) acc)
      | Failed e => if isExpectedFsError e then snapshot_paths read paths' acc else Throw (fe_message e)
      end
  end.
Definition snapshotWorkspace (read : string → fs_read) (paths : list string) : result snapshot := snapshot_paths read paths [].
End Snapshots.

(** ** Changes *)
Inductive file_operation : Type := Created | Modified | Deleted.
Record FileChange : Type := MkFileChange {
  fc_path : string; fc_operation : file_operation; fc_content : option string; fc_sizeBytes : option Z
}.
Definition all_paths (before after : snapshot) : list string := set_of (before.*1 ++ after.*1).
Definition operation_of (beforeHash afterHash : option string) : option file_operation :=
  match truthy beforeHash, truthy afterHash with
  | false, true => Some Created
  | true, false => Some Deleted
  | true, true => if bool_decide (beforeHash = afterHash) then None else Some Modified
  | false, false => None
  end.
(** The content of a changed file, unless there is no file system or the file is
    gone. *)
Definition read_content (read : option (string → fs_read)) (path : string) : result (option string) :=
  match read with
  | None => Ok None
  | Some f =>
      match f path with
      | Content s => Ok (Some s)
      | Failed e => if expected_code e then Ok None else Throw (fe_message e)
      end
  end.
Definition byte_length (s : string) : Z := Z.of_nat (String.length s).
Fixpoint diff_paths (read : option (string → fs_read)) (before after : snapshot) (paths : list string) : result (list FileChange) :=
  match paths with
  | [] => Ok []
  | p :: paths' =>
      let! changed :=
        match operation_of (fields_get p before) (fields_get p after) with
        | None => Ok []
        | Some Deleted => Ok [MkFileChange p Deleted None None]
        | Some op => let! c := read_content read p in Ok [MkFileChange p op c (byte_length <$> c)]
        end in
      let! rest := diff_paths read before after paths' in
      Ok (changed ++ rest)
  end.
Definition diffWorkspaceAsync (before after : snapshot) (read : option (string → fs_read)) : result (list FileChange) :=
  diff_paths read before after (all_paths before after).
(** The same without contents. *)
Definition diffWorkspace (before after : snapshot) : list FileChange :=
  omap (λ p, (λ op, MkFileChange p op None None) <$> operation_of (fields_get p before) (fields_get p after)) (all_paths before after).

(** ** Writing them *)
Record PersistOptions : Type := MkPersistOptions { maxFileSizeBytes : option Z; maxTotalSizeBytes : option Z }.
Record PersistResult : Type := MkPersist { pr_changes : nat; pr_conflicts : nat; conflictPaths : list string }.
Abbreviation file_event := (string * file_operation)%type.
(** A size limit is an error value; the events are given to the bus after the
    commit. *)
Inductive persist_outcome : Type :=
| Persisted (r : PersistResult) (events : list file_event)
| TooLarge (message : string) (failedPaths : list string).

Section Persist.
Context (sch : string → table_schema) (bus : option (ChangeLogEvent → option string)).
Context (sha256 : string → string) (parse_date : string → option Z).
Context (pick : gmap string row → option row).

Definition files (db : sdb) : table := table_of "files" db.
Definition has_path (p : string) (kr : string * row) : Prop := sql_eq (column_value "path" kr.2) (JStr p) = true.
#[local] Instance has_path_dec p kr : Decision (has_path p kr).
Proof. unfold has_path. apply _. Defined.
Definition findFileByPath (db : sdb) (p : string) : option row := pick (filter (has_path p) (files db)).
Definition text_column (c : string) (r : row) : string := match column_value c r with JStr s => s | _ => "" end.

Definition conflicts_with (preHash : option string) (dbRow : option row) : bool :=
  match dbRow, preHash with
  | Some r, Some h => nonempty h && negb (seqb h (sha256 (text_column "content" r)))
  | _, _ => false
  end.
Definition db_newer (now : string) (dbRow : option row) : bool :=
  match dbRow with
  | Some r => match parse_date (text_column "modified_at" r), parse_date now with Some t, Some n => n <? t | _, _ => false end
  | None => false
  end.
Definition size_of (c : FileChange) : Z := default 0 (fc_sizeBytes c).
Definition new_file (now : string) (path content : string) (size : Z) : list (string * json) :=
  [("id", JStr path); ("path", JStr path); ("content", JStr content); ("is_binary", JInt 0); ("deleted", JInt 0); ("size_bytes", JInt size);
   ("created_at", JStr now); ("modified_at", JStr now); ("created_by", JNull); ("host_origin", JNull)].
(** The write of one change, and whether there was one. *)
Definition apply_change (now siteId : string) (dbRow : option row) (c : FileChange) : M bool :=
  match fc_operation c with
  | Deleted =>
      match dbRow with
      | Some _ => do! _ := softDelete sch bus now "files" (fc_path c) siteId in ret true
      | None => ret false
      end
  | _ =>
      match fc_content c with
      | None => ret false
      | Some t =>
          do! _ := match dbRow with
                   | Some _ => updateRow sch bus now "files" (fc_path c)
                                 [("content", JStr t); ("modified_at", JStr now); ("size_bytes", JInt (size_of c))] siteId
                   | None => insertRow sch bus now "files" (new_file now (fc_path c) t (size_of c)) siteId
                   end in
          ret true
      end
  end.
Definition note_conflict (p : string) (r : PersistResult) : PersistResult :=
  MkPersist (pr_changes r) (S (pr_conflicts r)) (conflictPaths r ++ [p]).
Definition persist_one (now siteId : string) (pre : snapshot) (c : FileChange) (acc : PersistResult * list file_event)
    : M (PersistResult * list file_event) :=
  do! db := get_db in
  let dbRow := findFileByPath db (fc_path c) in
  let conflict := conflicts_with (fields_get (fc_path c) pre) dbRow in
  let r := if conflict then note_conflict (fc_path c) acc.1 else acc.1 in
  if conflict && db_newer now dbRow then ret (r, acc.2)
  else
    do! wrote := apply_change now siteId dbRow c in
    ret (MkPersist (if wrote then S (pr_changes r) else pr_changes r) (pr_conflicts r) (conflictPaths r), acc.2 ++ [(fc_path c, fc_operation c)]).
Fixpoint persist_all (now siteId : string) (pre : snapshot) (changes : list FileChange) (acc : PersistResult * list file_event)
    : M (PersistResult * list file_event) :=
  match changes with
  | [] => ret acc
  | c :: changes' => do! acc' := persist_one now siteId pre c acc in persist_all now siteId pre changes' acc'
  end.
Definition too_large (options : PersistOptions) (changes : list FileChange) : list string :=
  fc_path <$> List.filter (λ c, default (1024 * 1024) (maxFileSizeBytes options) <? size_of c) changes.
Definition persistWorkspaceChanges (now siteId : string) (pre post : snapshot) (options : PersistOptions) (read : option (string → fs_read))
    : M persist_outcome :=
  do! changes := lift (diffWorkspaceAsync pre post read) in
  if (length changes =? 0)%nat then ret (Persisted (MkPersist 0 0 []) [])
  else
    let failedPaths := too_large options changes in
    if (0 <? length failedPaths)%nat then ret (TooLarge "Files exceed individual size limit" failedPaths)
    else if default (50 * 1024 * 1024) (maxTotalSizeBytes options) <? sum_list_Z (size_of <$> changes)
    then ret (TooLarge "Total workspace size exceeds limit" (fc_path <$> changes))
    else
      do! acc := transaction (persist_all now siteId pre changes (MkPersist 0 0 [], [])) in
      ret (Persisted acc.1 acc.2).

(** ** The end of a run (cli/src/commands/start/agent-factory.ts) *)
(** The options are [undefined] in both calls, which leaves the limits at their
    defaults. *)
Definition persistFs (options : PersistOptions) (now siteId : string) (preSnapshot : option snapshot) (read : string → fs_read) (paths : list string) (w : world)
    : world * option snapshot * result (nat * list string) :=
  match preSnapshot with
  | None => (w, None, Ok (0%nat, []))
  | Some pre =>
      match snapshotWorkspace sha256 read paths with
      | Throw e => (w, preSnapshot, Throw e)
      | Ok post =>
          match persistWorkspaceChanges now siteId pre post options (Some read) w with
          | (w', Throw e) => (w', preSnapshot, Throw e)
          | (w', Ok (TooLarge _ _)) => (w', Some post, Ok (0%nat, []))
          | (w', Ok (Persisted r _)) => (w', Some post, Ok (pr_changes r, fc_path <$> diffWorkspace pre post))
          end
      end
  end.
End Persist.

(** ** What one write does to the table *)
Section Writes.
Context (sch : string → table_schema) (bus : option (ChangeLogEvent → option string)).
(** A log entry of the file [p] with that data. *)
Definition file_entry (site p : string) (data : list (string * json)) (e : ChangeLogEntry) : Prop :=
  cl_table_name e = "files" ∧ cl_row_id e = p ∧ cl_site_id e = site ∧ cl_row_data e = json_stringify (JObj data).
(** The row was written and one entry logged for it. *)
Definition wrote (site : string) (data : list (string * json)) (k : string) (r : row) (db db' : sdb) : Prop :=
  ∃ e, file_entry site k data e ∧ db' = MkSdb (<["files" := <[k := r]> (files db)]> (tables db)) (change_log db ++ [e]).
Lemma emit_db h site w w' a : emitWrittenChangeLogEvent bus "files" site (Some h) w = (w', a) → w_db w' = w_db w.
Proof using. intros H. cbn [emitWrittenChangeLogEvent] in H. pose proof (emit_notified bus (MkEvent h "files" site) w) as [Hn _]. by rewrite H in Hn. Qed.
Lemma log_snapshot_db now p site missing w w' h : log_snapshot sch now "files" p site missing w = (w', Ok h) →
  ∃ r e, files (w_db w) !! p = Some r ∧ file_entry site p (row_object (sch "files") r) e ∧ w_db w' = MkSdb (tables (w_db w)) (change_log (w_db w) ++ [e]).
Proof using.
  unfold log_snapshot, bind at 1, get_db. fold (files (w_db w)). destruct (files (w_db w) !! p) as [r|]; [|done].
  pose proof (create_shape now "files" p site (row_object (sch "files") r) w) as Hc. intros H. rewrite H in Hc. destruct Hc as [-> _].
  eexists r, _. split; [done|]. split; [|reflexivity]. by split_and!.
Qed.
Lemma transaction_ok {A} (m : M A) w w' a : transaction m w = (w', Ok a) → m w = (w', Ok a).
Proof using. unfold transaction. by destruct (m w) as [w1 [x|]]. Qed.
(** An UPDATE by primary key with its snapshot, when it does not throw. *)
Lemma update_ok now sets p site missing w w' h : keyed "id" (files (w_db w)) → "id" ∉ sets.*1 →
  (do! db := get_db in
   do! (t, _) := lift (update_pk (sch "files") (getPkColumn "files") sets p (table_of "files" db)) in
   do! _ := put_db (with_table "files" t db) in
   log_snapshot sch now "files" p site missing) w = (w', Ok h) →
  ∃ old r, files (w_db w) !! p = Some old ∧ store_columns (sch "files") sets old = Ok r ∧ wrote site (row_object (sch "files") r) p r (w_db w) (w_db w').
Proof using.
  intros Hk Hid. unfold bind, get_db, lift, put_db. change (getPkColumn "files") with "id". fold (files (w_db w)).
  destruct (update_pk (sch "files") "id" sets p (files (w_db w))) as [[t n]|] eqn:E; [|done]. intros H.
  apply log_snapshot_db in H as Hdb. destruct Hdb as (x & e & Hx & He & Hdb).
  destruct (files (w_db w) !! p) as [old|] eqn:Eo.
  - destruct (update_pk_fixed _ _ _ _ _ _ _ _ E Eo (Hk _ _ Eo) Hid) as (r & _ & Hs & _ & -> & _). exists old, r. split; [done|]. split; [done|]. exists e.
    unfold files in Hx. cbn [w_db set_db] in Hx. rewrite table_of_with, lookup_insert_eq in Hx. injection Hx as <-. by split.
  - exfalso. apply update_pk_spec in E as [(_ & -> & _)|(o & ? & ? & _ & Ho & _)]; [|congruence].
    unfold log_snapshot, bind at 1, get_db in H. cbn [w_db set_db] in H. rewrite table_of_with, Eo in H. done.
Qed.
Lemma softDelete_ok now p site w w' a : keyed "id" (files (w_db w)) → softDelete sch bus now "files" p site w = (w', Ok a) →
  ∃ old r, files (w_db w) !! p = Some old ∧ store_columns (sch "files") [("deleted", JInt 1); ("modified_at", JStr now)] old = Ok r ∧
    wrote site (row_object (sch "files") r) p r (w_db w) (w_db w').
Proof using.
  intros Hk. unfold softDelete, bind at 1.
  destruct (transaction _ w) as [w1 [h|]] eqn:E; [|done]. apply transaction_ok in E. intros H.
  apply emit_db in H. rewrite H. eapply update_ok; [done| |exact E]. set_solver.
Qed.
Lemma file_update_ok now p u site w w' a : keyed "id" (files (w_db w)) → "id" ∉ (with_modified_at now u).*1 →
  updateRow sch bus now "files" p u site w = (w', Ok a) →
  ∃ old r, files (w_db w) !! p = Some old ∧ store_columns (sch "files") (with_modified_at now u) old = Ok r ∧
    wrote site (row_object (sch "files") r) p r (w_db w) (w_db w').
Proof using.
  intros Hk Hid. unfold updateRow. cbv zeta. unfold bind at 1.
  match goal with |- match transaction (bind (for_each _ ?n) (λ _, ?m)) w with _ => _ end = _ → _ => destruct (transaction_for_each n m w) as [-> |[msg ->]]; [|done] end.
  destruct (transaction _ w) as [w1 [h|]] eqn:E; [|done]. apply transaction_ok in E. intros H.
  apply emit_db in H. rewrite H. by eapply update_ok.
Qed.
Lemma insertRow_ok now d site k w w' a : fields_get "id" d = Some (JStr k) → insertRow sch bus now "files" d site w = (w', Ok a) →
  ∃ r k', build_row (sch "files") d = Ok r ∧ row_key "id" r = Ok k' ∧ files (w_db w) !! k' = None ∧ (k' = k → wrote site d k r (w_db w) (w_db w')).
Proof using.
  intros Hid. unfold insertRow. cbn [andb seqb]. change (seqb "files" "messages") with false. cbv iota zeta beta delta [andb].
  match goal with |- (do! _ := for_each _ ?n in ?m) w = _ → _ => destruct (bind_for_each n m w) as [-> |[msg ->]]; [|done] end.
  unfold transaction, bind, get_db, lift, put_db. change (getPkColumn "files") with "id". rewrite Hid. fold (files (w_db w)).
  destruct (insert_abort _ _ _ _) as [t|] eqn:Ei; [|done]. unfold insert_abort in Ei.
  destruct (build_row _ d) as [r|]; [|done]. cbn [result_bind] in Ei. destruct (row_key "id" r) as [k'|] eqn:Ek; [|done]. cbn [result_bind] in Ei.
  destruct (files (w_db w) !! k') eqn:Ef; [done|]. apply put_row_ok in Ei as [_ ->].
  match goal with |- context [createChangeLogEntry now "files" ?i site d None ?w0] =>
    pose proof (create_shape now "files" i site d w0) as Hc; destruct (createChangeLogEntry now "files" i site d None w0) as [w1 [h|]]; [|done] end.
  destruct Hc as [-> _]. intros H. apply emit_db in H. exists r, k'. split_and!; [done..|]. intros ->. rewrite H. eexists. split; [|done]. by split_and!.
Qed.
End Writes.

(** What the files table's columns make of a value: text columns and the flag
    store it as it is. *)
Record files_schema (ts : table_schema) : Prop := {
  fs_nodup : NoDup (ts_columns ts);
  fs_text : ∀ c s, c ∈ ["id"; "path"; "content"] → ts_store ts c (JStr s) = Some (JStr s);
  fs_flag : ∀ z, ts_store ts "deleted" (JInt z) = Some (JInt z)
}.
Section Steps.
Context (sch : string → table_schema) (bus : option (ChangeLogEvent → option string)).
Hypothesis schema : files_schema (sch "files").
Context (now site : string).

(** Whether a change writes its row. *)
Definition change_writes (dbRow : option row) (c : FileChange) : bool :=
  match fc_operation c with
  | Deleted => match dbRow with Some _ => true | None => false end
  | _ => match fc_content c with Some _ => true | None => false end
  end.
(** What its log entry says: the row afterwards, or the columns of a new one. *)
Definition logged_data (dbRow : option row) (t' : table) (c : FileChange) : list (string * json) :=
  match dbRow with
  | Some _ => row_object (sch "files") (default ∅ (t' !! fc_path c))
  | None => new_file now (fc_path c) (default "" (fc_content c)) (size_of c)
  end.
(** The row of a change after it was written. *)
Definition stored (c : FileChange) (dbRow : option row) (t t' : table) : Prop :=
  match fc_operation c, fc_content c, dbRow with
  | Deleted, _, Some _ => is_Some (t !! fc_path c) ∧ ∃ r, t' !! fc_path c = Some r ∧ r !! "deleted" = Some (JInt 1)
  | Deleted, _, None | _, None, _ => t' !! fc_path c = t !! fc_path c
  | _, Some x, Some _ => ∃ old r, t !! fc_path c = Some old ∧ t' !! fc_path c = Some r ∧ r !! "content" = Some (JStr x) ∧ r !! "deleted" = old !! "deleted"
  | _, Some x, None =>
      t !! fc_path c = None ∧ ∃ r, t' !! fc_path c = Some r ∧ r !! "content" = Some (JStr x) ∧ r !! "deleted" = Some (JInt 0) ∧ r !! "path" = Some (JStr (fc_path c))
  end.
(** At most one row is written, under the path, and one entry logged. *)
Definition one_write (p : string) (data : list (string * json)) (n : bool) (db db' : sdb) : Prop :=
  if n then ∃ r, wrote site data p r db db' ∧ r !! "id" = Some (JStr p) ∧
    (∀ old, files db !! p = Some old → r !! "path" = old !! "path") ∧ (files db !! p = None → r !! "path" = Some (JStr p))
  else db' = db.
Lemma wrote_files data k r db db' : wrote site data k r db db' → files db' = <[k := r]> (files db).
Proof using. intros (e & _ & ->). unfold files, table_of. simpl. by rewrite lookup_insert_eq. Qed.
Lemma updated_columns sets old r p : store_columns (sch "files") sets old = Ok r → old !! "id" = Some (JStr p) → "id" ∉ sets.*1 → "path" ∉ sets.*1 →
  r !! "id" = Some (JStr p) ∧ r !! "path" = old !! "path".
Proof using. intros Hs Hid Hi Hp. apply store_columns_spec in Hs as [Hs _]. by rewrite !Hs. Qed.
Lemma stored_text sets base r c s : store_columns (sch "files") sets base = Ok r → NoDup sets.*1 → (c, JStr s) ∈ sets →
  c ∈ ["id"; "path"; "content"] → r !! c = Some (JStr s).
Proof using schema.
  intros Hs Hnd Hin Hc. destruct (store_columns_lookup _ _ _ _ _ _ Hs Hnd Hin) as (b & v & [= <-] & Hv & ->). by rewrite (fs_text _ schema) in Hv by done.
Qed.
Lemma stored_flag sets base r z : store_columns (sch "files") sets base = Ok r → NoDup sets.*1 → ("deleted", JInt z) ∈ sets → r !! "deleted" = Some (JInt z).
Proof using schema.
  intros Hs Hnd Hin. destruct (store_columns_lookup _ _ _ _ _ _ Hs Hnd Hin) as (b & v & [= <-] & Hv & ->). by rewrite (fs_flag _ schema) in Hv.
Qed.
Lemma given_columns_nodup cols : NoDup cols.*1 → NoDup (cols ++ missing_columns (sch "files") cols).*1.
Proof using schema.
  intros Hc. rewrite fmap_app. unfold missing_columns. rewrite <-list_fmap_compose.
  rewrite (list_fmap_ext _ id _ (λ _ _ _, eq_refl)), list_fmap_id. apply NoDup_app. split_and!; [done| |].
  - intros c Hin [_ Hn]%filter_In_iff. apply negb_true_iff in Hn. apply not_true_iff_false in Hn. apply Hn, existsb_exists.
    exists c. split; [by apply list_elem_of_In|apply seqb_refl].
  - eapply sublist_NoDup; [apply (fs_nodup _ schema)|apply filter_sublist].
Qed.
Lemma new_file_row p x size r : build_row (sch "files") (new_file now p x size) = Ok r →
  r !! "id" = Some (JStr p) ∧ r !! "path" = Some (JStr p) ∧ r !! "content" = Some (JStr x) ∧ r !! "deleted" = Some (JInt 0).
Proof using schema.
  unfold build_row. destruct (store_columns _ _ ∅) as [r'|] eqn:Es; [|done]. cbn [result_bind]. unfold check_row. destruct (ts_check _ r'); [|done]. intros [= ->].
  assert (NoDup (new_file now p x size ++ missing_columns (sch "files") (new_file now p x size)).*1) as Hnd.
  { apply given_columns_nodup. apply (bool_decide_unpack _). vm_compute. exact I. }
  split_and!; [eapply stored_text..|eapply stored_flag]; try done; try (apply elem_of_app; left; unfold new_file; set_solver); set_solver.
Qed.
Lemma change_sets_nodup x (c : FileChange) : NoDup (with_modified_at now [("content", JStr x); ("modified_at", JStr now); ("size_bytes", JInt (size_of c))]).*1.
Proof using. apply (bool_decide_unpack _). vm_compute. exact I. Qed.
Lemma apply_change_ok dbRow c w w' b : keyed "id" (files (w_db w)) → apply_change sch bus now site dbRow c w = (w', Ok b) →
  b = change_writes dbRow c ∧ one_write (fc_path c) (logged_data dbRow (files (w_db w')) c) b (w_db w) (w_db w') ∧ stored c dbRow (files (w_db w)) (files (w_db w')).
Proof using schema.
  intros Hk H. unfold apply_change, stored, change_writes in *.
  assert (∀ x, fc_content c = Some x → (do! _ := match dbRow with
       | Some _ => updateRow sch bus now "files" (fc_path c) [("content", JStr x); ("modified_at", JStr now); ("size_bytes", JInt (size_of c))] site
       | None => insertRow sch bus now "files" (new_file now (fc_path c) x (size_of c)) site end in ret true) w = (w', Ok b) →
     b = true ∧ one_write (fc_path c) (logged_data dbRow (files (w_db w')) c) b (w_db w) (w_db w') ∧
     match dbRow with
     | Some _ => ∃ old r, files (w_db w) !! fc_path c = Some old ∧ files (w_db w') !! fc_path c = Some r ∧ r !! "content" = Some (JStr x) ∧ r !! "deleted" = old !! "deleted"
     | None => files (w_db w) !! fc_path c = None ∧ ∃ r, files (w_db w') !! fc_path c = Some r ∧ r !! "content" = Some (JStr x) ∧ r !! "deleted" = Some (JInt 0) ∧ r !! "path" = Some (JStr (fc_path c))
     end) as Hwrite.
  { intros x Hx. unfold bind, ret, logged_data. destruct dbRow as [r0|].
    - destruct (updateRow _ _ _ _ _ _ _ w) as [w1 [u|]] eqn:E; [|done]. intros [= <- <-]. apply file_update_ok in E as (old & r & Ho & Hs & Hw); [|done|vm_compute; set_solver].
      destruct (updated_columns _ _ _ (fc_path c) Hs (Hk _ _ Ho)) as [Hi Hp]; [vm_compute; set_solver..|].
      rewrite (wrote_files _ _ _ _ _ Hw), lookup_insert_eq. cbn [default from_option id].
      split; [done|]. split; [exists r; split_and!; [done|done|intros ? [= <-]%(eq_trans (eq_sym Ho)); done|intros Hn; congruence]|].
      exists old, r. split_and!; [done|done|eapply (stored_text _ _ _ _ _ Hs); [apply (change_sets_nodup _ c)|vm_compute; set_solver|set_solver]|].
      apply store_columns_spec in Hs as [Hs _]. apply Hs. vm_compute. set_solver.
    - destruct (insertRow _ _ _ _ _ _ w) as [w1 [u|]] eqn:E; [|done]. intros [= <- <-]. apply (insertRow_ok _ _ _ _ _ (fc_path c)) in E as (r & k & Hb & Hkey & Hn & Hw); [|done].
      destruct (new_file_row _ _ _ _ Hb) as (Hid & Hp & Hc & Hd). unfold row_key in Hkey. rewrite Hid in Hkey. injection Hkey as <-. specialize (Hw eq_refl).
      rewrite Hx. split; [done|]. split; [exists r; split_and!; [done|done|intros old Ho; congruence|done]|]. split; [done|].
      exists r. by rewrite (wrote_files _ _ _ _ _ Hw), lookup_insert_eq. }
  destruct (fc_operation c), (fc_content c) as [x|]; try (by apply Hwrite); try (by injection H as <- <-).
  all: destruct dbRow as [r0|]; [|by injection H as <- <-]; unfold bind, ret in H;
    destruct (softDelete _ _ _ _ _ _ w) as [w1 [u|]] eqn:E; [|done]; injection H as <- <-; apply softDelete_ok in E as (old & r & Ho & Hs & Hw); [|done];
    destruct (updated_columns _ _ _ (fc_path c) Hs (Hk _ _ Ho)) as [Hi Hp]; [vm_compute; set_solver..|];
    unfold logged_data; rewrite (wrote_files _ _ _ _ _ Hw), lookup_insert_eq; cbn [default from_option id]; (split; [done|]);
    (split; [exists r; split_and!; [done|done|intros ? [= <-]%(eq_trans (eq_sym Ho)); done|intros Hn; congruence]|]);
    (split; [by eexists|]); exists r; (split; [done|]);
    eapply (stored_flag _ _ _ _ Hs); [apply (bool_decide_unpack _); vm_compute; exact I|set_solver].
Qed.
End Steps.

(** ** The loop *)
Lemma filter_bool_ext {A} (f g : A → bool) l : (∀ x, x ∈ l → f x = g x) → List.filter f l = List.filter g l.
Proof.
  induction l as [|x l IH]; intros H; [done|]. simpl. rewrite H by set_solver. rewrite IH; [done|]. set_solver.
Qed.
Section Loop.
Context (sch : string → table_schema) (bus : option (ChangeLogEvent → option string)).
Context (sha256 : string → string) (parse_date : string → option Z) (pick : gmap string row → option row).
Hypothesis schema : files_schema (sch "files").
Context (now site : string) (pre : snapshot).
(** A row stored under a path has that path. *)
Definition own_path (db : sdb) (p : string) : Prop := ∀ r, files db !! p = Some r → r !! "path" = Some (JStr p).
Definition conflicting (db : sdb) (c : FileChange) : bool := conflicts_with sha256 (fields_get (fc_path c) pre) (findFileByPath pick db (fc_path c)).
Definition skipped (db : sdb) (c : FileChange) : bool := conflicting db c && db_newer parse_date now (findFileByPath pick db (fc_path c)).
Definition writes (db : sdb) (c : FileChange) : bool :=
  negb (skipped db c) && change_writes (findFileByPath pick db (fc_path c)) c.
(** The log entry of a change. *)
Definition logs_change (db db' : sdb) (c : FileChange) (e : ChangeLogEntry) : Prop :=
  file_entry site (fc_path c) (logged_data sch now (findFileByPath pick db (fc_path c)) (files db') c) e.
(** What became of a change. *)
Definition settled_change (db db' : sdb) (c : FileChange) : Prop :=
  if skipped db c then files db' !! fc_path c = files db !! fc_path c
  else stored c (findFileByPath pick db (fc_path c)) (files db) (files db').
Lemma stored_ext c dbRow t1 t2 t1' t2' : t1 !! fc_path c = t2 !! fc_path c → t1' !! fc_path c = t2' !! fc_path c → stored c dbRow t1 t1' → stored c dbRow t2 t2'.
Proof using. unfold stored. intros -> ->. done. Qed.
Lemma one_write_other p data n db db' k : one_write site p data n db db' → k ≠ p → files db' !! k = files db !! k.
Proof using. destruct n; [|by intros ->]. intros (r & Hw & _) Hk. rewrite (wrote_files _ _ _ _ _ _ Hw). by rewrite lookup_insert_ne. Qed.
Lemma one_write_keyed p data n db db' : one_write site p data n db db' → keyed "id" (files db) → keyed "id" (files db').
Proof using. destruct n; [|by intros ->]. intros (r & Hw & Hid & _) Hk. rewrite (wrote_files _ _ _ _ _ _ Hw). by apply keyed_insert. Qed.
Lemma one_write_path p data n db db' r : one_write site p data n db db' → own_path db p → files db' !! p = Some r → r !! "path" = Some (JStr p).
Proof using.
  destruct n; [|intros ->; by auto]. intros (r' & Hw & _ & Hold & Hnew) Ho. rewrite (wrote_files _ _ _ _ _ _ Hw), lookup_insert_eq. intros [= <-].
  destruct (files db !! p) as [old|] eqn:E; [|by apply Hnew]. rewrite (Hold old) by done. by apply Ho.
Qed.
Lemma one_write_own p data n db db' q : one_write site p data n db db' → own_path db p → own_path db q → own_path db' q.
Proof using.
  intros Hw Hp Hq r Hr. destruct (decide (q = p)) as [->|Hne]; [by eapply one_write_path|]. apply Hq. by rewrite <-(one_write_other _ _ _ _ _ _ Hw Hne).
Qed.
Lemma one_write_find p data n db db' q : one_write site p data n db db' → own_path db p → q ≠ p → findFileByPath pick db' q = findFileByPath pick db q.
Proof using.
  intros Hw Hp Hq. unfold findFileByPath. f_equal. destruct n; [|by simpl in Hw; subst]. pose proof (one_write_path p data true db db') as Hpath. destruct Hw as (r & Hw & Hrest).
  assert (∀ r', r' !! "path" = Some (JStr p) → ¬ has_path q (p, r')) as Hnot.
  { intros r' Hr'. unfold has_path, column_value. cbn [snd]. rewrite Hr'. cbn. intros Hs%seqb_true. by apply Hq. }
  specialize (λ r', Hpath r' (ex_intro _ r (conj Hw Hrest)) Hp). rewrite (wrote_files _ _ _ _ _ _ Hw) in Hpath |- *. apply map_filter_insert_not'.
  - apply Hnot, Hpath. by rewrite lookup_insert_eq.
  - intros y Hy. by apply Hnot, Hp.
Qed.
Lemma one_write_log p data n db db' : one_write site p data n db db' →
  if n then ∃ e, file_entry site p data e ∧ change_log db' = change_log db ++ [e] else change_log db' = change_log db.
Proof using. destruct n; [|by intros ->]. intros (r & (e & He & ->) & _). by exists e. Qed.
Lemma one_write_tables p data n db db' t : one_write site p data n db db' → t ≠ "files" → tables db' !! t = tables db !! t.
Proof using. destruct n; [|by intros ->]. intros (r & (e & _ & ->) & _) Ht. cbn [tables]. by rewrite lookup_insert_ne. Qed.

Abbreviation step := (persist_one sch bus sha256 parse_date pick now site pre).
Abbreviation run := (persist_all sch bus sha256 parse_date pick now site pre).
Lemma persist_step_ok c acc w w' acc' : keyed "id" (files (w_db w)) → step c acc w = (w', Ok acc') →
  one_write site (fc_path c) (logged_data sch now (findFileByPath pick (w_db w) (fc_path c)) (files (w_db w')) c) (writes (w_db w) c) (w_db w) (w_db w') ∧
  settled_change (w_db w) (w_db w') c ∧
    acc' = (MkPersist (pr_changes acc.1 + (if writes (w_db w) c then 1 else 0)) (pr_conflicts acc.1 + (if conflicting (w_db w) c then 1 else 0))
              (conflictPaths acc.1 ++ if conflicting (w_db w) c then [fc_path c] else []),
            acc.2 ++ if skipped (w_db w) c then [] else [(fc_path c, fc_operation c)]).
Proof using schema.
  intros Hk. unfold persist_one, settled_change, writes, skipped. unfold bind at 1, get_db. cbv zeta. fold (conflicting (w_db w) c).
  set (dbRow := findFileByPath pick (w_db w) (fc_path c)). set (r1 := if conflicting (w_db w) c then _ else acc.1).
  assert (pr_changes r1 = pr_changes acc.1 ∧ pr_conflicts r1 = (pr_conflicts acc.1 + if conflicting (w_db w) c then 1 else 0)%nat ∧
    conflictPaths r1 = conflictPaths acc.1 ++ if conflicting (w_db w) c then [fc_path c] else []) as (H1 & H2 & H3).
  { unfold r1. destruct (conflicting (w_db w) c); cbn; rewrite ?app_nil_r; split_and!; lia || done. }
  destruct (conflicting (w_db w) c && db_newer parse_date now dbRow).
  { intros [= <- <-]. cbn [negb andb]. split; [done|]. split; [done|]. rewrite app_nil_r, Nat.add_0_r, <-H1, <-H2, <-H3. by destruct r1. }
  unfold bind. destruct (apply_change sch bus now site dbRow c w) as [w1 [b|]] eqn:E; [|done]. intros [= <- <-].
  apply apply_change_ok in E as (-> & Hw & Hs); [|done..]. cbn [negb andb]. split; [done|]. split; [done|]. rewrite H1, H2, H3. do 2 f_equal.
  fold dbRow. destruct (change_writes dbRow c); lia.
Qed.
Lemma run_ok changes acc w w' acc' : keyed "id" (files (w_db w)) → NoDup (fc_path <$> changes) → Forall (λ c, own_path (w_db w) (fc_path c)) changes →
  run changes acc w = (w', Ok acc') →
  Forall (settled_change (w_db w) (w_db w')) changes ∧ (∀ k, k ∉ fc_path <$> changes → files (w_db w') !! k = files (w_db w) !! k) ∧
  (∀ t, t ≠ "files" → tables (w_db w') !! t = tables (w_db w) !! t) ∧
  (∃ entries, change_log (w_db w') = change_log (w_db w) ++ entries ∧
     Forall2 (logs_change (w_db w) (w_db w')) (List.filter (writes (w_db w)) changes) entries ∧
     pr_changes acc'.1 = (pr_changes acc.1 + length entries)%nat) ∧
  conflictPaths acc'.1 = conflictPaths acc.1 ++ (fc_path <$> List.filter (conflicting (w_db w)) changes) ∧
  acc'.2 = acc.2 ++ ((λ c, (fc_path c, fc_operation c)) <$> List.filter (λ c, negb (skipped (w_db w) c)) changes).
Proof using schema.
  revert acc w. induction changes as [|c changes IH]; intros acc w Hk Hnd Hown.
  { cbn [persist_all]. intros [= <- <-]. cbn. rewrite !app_nil_r. split_and!; try done. exists []. rewrite app_nil_r, Nat.add_0_r. by split_and!. }
  cbn [persist_all]. unfold bind at 1. destruct (step c acc w) as [w1 [acc1|]] eqn:E; [|done]. intros H.
  apply persist_step_ok in E as (Hw & Hset & ->); [|done]. rewrite fmap_cons in Hnd. apply NoDup_cons in Hnd as [Hc Hnd]. apply Forall_cons in Hown as [Hp Hown].
  apply IH in H as (I1 & I2 & I3 & I4 & I5 & I6).
  2: by eapply one_write_keyed. 2: done.
  2: { eapply Forall_impl; [exact Hown|]. intros c'. by apply (one_write_own _ _ _ _ _ _ Hw). }
  assert (∀ c', c' ∈ changes → fc_path c' ≠ fc_path c) as Hne by (intros c' Hc' He; apply Hc; rewrite <-He; by apply list_elem_of_fmap_2).
  assert (∀ c', c' ∈ changes → findFileByPath pick (w_db w1) (fc_path c') = findFileByPath pick (w_db w) (fc_path c')) as Hfind.
  { intros c' Hc'. apply (one_write_find _ _ _ _ _ _ Hw); [done|]. by apply Hne. }
  assert (∀ c', c' ∈ changes → conflicting (w_db w1) c' = conflicting (w_db w) c') as Hconf by (intros c' Hc'; unfold conflicting; by rewrite Hfind).
  assert (∀ c', c' ∈ changes → skipped (w_db w1) c' = skipped (w_db w) c') as Hskip by (intros c' Hc'; unfold skipped; by rewrite Hconf, Hfind).
  cbn [fst snd pr_changes pr_conflicts conflictPaths] in *. split_and!.
  - constructor.
    + unfold settled_change in Hset |- *. destruct (skipped (w_db w) c); [by rewrite I2|]. eapply stored_ext; [done| |exact Hset]. symmetry. by apply I2.
    + rewrite Forall_forall in I1 |- *. intros c' Hc'. specialize (I1 c' Hc'). unfold settled_change in I1 |- *. rewrite Hskip, Hfind in I1 by done.
      pose proof (one_write_other _ _ _ _ _ (fc_path c') Hw (Hne c' Hc')) as Ho. destruct (skipped (w_db w) c'); [congruence|]. by eapply stored_ext; [exact Ho|done|].
  - intros k Hk'. rewrite fmap_cons, not_elem_of_cons in Hk'. destruct Hk' as [Hk1 Hk2]. rewrite I2 by done. by apply (one_write_other _ _ _ _ _ _ Hw).
  - intros t Ht. rewrite I3 by done. by eapply one_write_tables.
  - destruct I4 as (entries & Hlog & Hall & Hn). pose proof (one_write_log _ _ _ _ _ Hw) as Hl.
    assert (List.filter (writes (w_db w1)) changes = List.filter (writes (w_db w)) changes) as Hfw.
    { apply filter_bool_ext. intros c' Hc'. unfold writes. by rewrite Hskip, Hfind. }
    rewrite Hfw in Hall. cbn [List.filter].
    assert (Forall2 (logs_change (w_db w) (w_db w')) (List.filter (writes (w_db w)) changes) entries) as Hall'.
    { clear -Hall Hfind. revert Hall. generalize entries. assert (∀ c', c' ∈ List.filter (writes (w_db w)) changes → c' ∈ changes) as Hsub
        by (intros c' [? _]%filter_In_iff; done). induction (List.filter (writes (w_db w)) changes) as [|x l IH]; intros es H; inversion H; subst; constructor.
      - unfold logs_change in *. rewrite <-Hfind; [done|]. apply Hsub. left.
      - apply IH; [|done]. intros c' Hc'. apply Hsub. by right. }
    destruct (writes (w_db w) c).
    + destruct Hl as (e & He & Hle). exists (e :: entries). rewrite Hlog, Hle, <-app_assoc. split; [done|]. split; [|simpl; lia].
      constructor; [|done]. unfold logs_change. unfold logged_data in He |- *. by rewrite I2.
    + exists entries. rewrite Hlog, Hl. split; [done|]. split; [done|]. lia.
  - rewrite I5. cbn [List.filter]. rewrite <-app_assoc. f_equal.
    assert (List.filter (conflicting (w_db w1)) changes = List.filter (conflicting (w_db w)) changes) as -> by (by apply filter_bool_ext).
    by destruct (conflicting (w_db w) c).
  - rewrite I6. cbn [List.filter]. rewrite <-app_assoc. f_equal.
    assert (List.filter (λ c, negb (skipped (w_db w1) c)) changes = List.filter (λ c, negb (skipped (w_db w) c)) changes) as ->.
    { apply filter_bool_ext. intros c' Hc'. by rewrite Hskip. }
    by destruct (skipped (w_db w) c).
Qed.
End Loop.

(** ** What changed *)
Lemma operation_none_absent p m : p ∉ m.*1 → fields_get (V:=string) p m = None.
Proof.
  induction m as [|[k v] m IH]; [done|]. rewrite fmap_cons, not_elem_of_cons. intros [Hne H]. cbn [fields_get]. rewrite (proj2 (seqb_false k p)) by done. by apply IH.
Qed.
Lemma diff_paths_spec read before after paths changes : diff_paths read before after paths = Ok changes → NoDup paths →
  NoDup (fc_path <$> changes) ∧ (∀ p, p ∈ fc_path <$> changes ↔ p ∈ paths ∧ operation_of (fields_get p before) (fields_get p after) ≠ None) ∧
  Forall (λ c, operation_of (fields_get (fc_path c) before) (fields_get (fc_path c) after) = Some (fc_operation c)) changes.
Proof.
  revert changes. induction paths as [|p paths IH]; intros changes; cbn [diff_paths].
  { intros [= <-] _. split_and!; [constructor| |constructor]. intros p. simpl. split; [by intros ?%not_elem_of_nil|by intros [?%not_elem_of_nil _]]. }
  intros H [Hp Hnd]%NoDup_cons.
  destruct (operation_of (fields_get p before) (fields_get p after)) as [op|] eqn:Eo.
  - assert (∃ c rest, changes = c :: rest ∧ fc_path c = p ∧ fc_operation c = op ∧ diff_paths read before after paths = Ok rest) as (c & rest & -> & Hc & Hop & Hr).
    { destruct op; cbn [result_bind] in H.
      all: try (destruct (read_content read p) as [x|]; [|done]; cbn [result_bind] in H).
      all: destruct (diff_paths read before after paths) as [rest|]; [|done]; cbn [result_bind] in H; injection H as <-; by eexists _, rest. }
    apply IH in Hr as (I1 & I2 & I3); [|done]. rewrite fmap_cons. split_and!.
    + constructor; [|done]. rewrite Hc, I2. by intros [? _].
    + intros q. rewrite elem_of_cons, I2, elem_of_cons, Hc. naive_solver.
    + constructor; [by rewrite Hc, Hop|done].
  - cbn [result_bind] in H. destruct (diff_paths read before after paths) as [rest|]; [|done]. cbn [result_bind app] in H. injection H as <-.
    destruct (IH rest eq_refl Hnd) as (I1 & I2 & I3). split_and!; [done| |done]. intros q. rewrite I2, elem_of_cons. naive_solver.
Qed.
Lemma diff_spec before after read changes : diffWorkspaceAsync before after read = Ok changes →
  NoDup (fc_path <$> changes) ∧ ∀ p, p ∈ fc_path <$> changes ↔ operation_of (fields_get p before) (fields_get p after) ≠ None.
Proof.
  unfold diffWorkspaceAsync, all_paths. intros H. apply diff_paths_spec in H as (H1 & H2 & _); [|apply set_of_NoDup]. split; [done|].
  intros p. rewrite H2, set_of_elem, elem_of_app. split; [by intros [_ ?]|]. intros Ho. split; [|done].
  destruct (decide (p ∈ before.*1)) as [?|Hb]; [by left|]. destruct (decide (p ∈ after.*1)) as [?|Ha]; [by right|].
  by rewrite !operation_none_absent in Ho.
Qed.

(** C37: Persisting is all or nothing.  The changes are exactly the files whose
    hash differs.  When it succeeds, each of them was written (its content is in
    the table, or its row is marked deleted) unless it was skipped, because the
    stored row differs from the snapshot and is newer, or there was nothing to
    write: a content that could not be read, or a deletion of no row.  The log
    grows by exactly one entry per file written, in order, naming the file, this
    site and the row; no other row or table is touched; and the conflicts are
    the files whose stored content is not the snapshot's.  A size limit writes
    nothing, a failure leaves the database as it was, and a changed file whose
    row has an id of its own makes everything fail. *)
Theorem persist_exact sch bus sha256 parse_date pick now site pre post options read changes w :
  files_schema (sch "files") → keyed "id" (files (w_db w)) → Forall (λ c, own_path (w_db w) (fc_path c)) changes →
  diffWorkspaceAsync pre post read = Ok changes →
  let '(w', res) := persistWorkspaceChanges sch bus sha256 parse_date pick now site pre post options read w in
  NoDup (fc_path <$> changes) ∧
  (∀ p, p ∈ fc_path <$> changes ↔ operation_of (fields_get p pre) (fields_get p post) ≠ None) ∧
  match res with
  | Throw _ => w_db w' = w_db w
  | Ok (TooLarge _ failed) => w' = w ∧ failed ≠ [] ∧ ∀ p, p ∈ failed → p ∈ fc_path <$> changes
  | Ok (Persisted r events) =>
      too_large options changes = [] ∧
      Forall (settled_change sha256 parse_date pick now pre (w_db w) (w_db w')) changes ∧
      (∀ k, k ∉ fc_path <$> changes → files (w_db w') !! k = files (w_db w) !! k) ∧
      (∀ t, t ≠ "files" → tables (w_db w') !! t = tables (w_db w) !! t) ∧
      (∃ entries, change_log (w_db w') = change_log (w_db w) ++ entries ∧ pr_changes r = length entries ∧
         Forall2 (logs_change sch pick now site (w_db w) (w_db w'))
           (List.filter (writes sha256 parse_date pick now pre (w_db w)) changes) entries) ∧
      conflictPaths r = fc_path <$> List.filter (conflicting sha256 pick pre (w_db w)) changes ∧
      events = (λ c, (fc_path c, fc_operation c)) <$> List.filter (λ c, negb (skipped sha256 parse_date pick now pre (w_db w) c)) changes
  end ∧
  (∀ c, c ∈ changes → skipped sha256 parse_date pick now pre (w_db w) c = false → is_Some (findFileByPath pick (w_db w) (fc_path c)) →
    fc_operation c = Deleted ∨ is_Some (fc_content c) → files (w_db w) !! fc_path c = None → ∀ r events, res ≠ Ok (Persisted r events)).
Proof.
  intros Hs Hk Hown Hdiff. destruct (diff_spec _ _ _ _ Hdiff) as [Hnd Hpaths].
  destruct (persistWorkspaceChanges _ _ _ _ _ _ _ _ _ _ _ _) as [w' res] eqn:E.
  assert (match res with
          | Throw _ => w_db w' = w_db w
          | Ok (TooLarge _ failed) => w' = w ∧ failed ≠ [] ∧ ∀ p, p ∈ failed → p ∈ fc_path <$> changes
          | Ok (Persisted r events) => too_large options changes = [] ∧
              persist_all sch bus sha256 parse_date pick now site pre changes (MkPersist 0 0 [], []) w = (w', Ok (r, events))
          end) as Hrun.
  { unfold persistWorkspaceChanges in E. unfold bind at 1, lift in E. rewrite Hdiff in E.
    destruct (Nat.eqb_spec (length changes) 0) as [Hz|Hz]; [injection E as <- <-; by destruct changes|].
    destruct (Nat.ltb_spec 0 (length (too_large options changes))) as [Hl|Hl].
    { injection E as <- <-. split; [done|]. split; [by intros Hn; rewrite Hn in Hl; simpl in Hl; lia|].
      intros p (c & -> & [Hc _]%filter_In_iff)%list_elem_of_fmap. by apply list_elem_of_fmap_2. }
    destruct (_ <? sum_list_Z _).
    { injection E as <- <-. split_and!; [done| |done]. by destruct changes. }
    unfold bind, transaction in E. destruct (persist_all _ _ _ _ _ _ _ _ _ _ w) as [w1 [acc|]]; injection E as <- <-; [|done].
    split; [apply length_zero_iff_nil; lia|]. by destruct acc. }
  split; [done|]. split; [done|].
  destruct res as [[r events|m failed]|e]; [|by split|by split]. destruct Hrun as [Htl Hrun].
  apply run_ok in Hrun as (H1 & H2 & H3 & H4 & H5 & H6); [|done..]. cbn [fst snd pr_changes conflictPaths] in *.
  split; [split_and!; [done..| |done|done]; destruct H4 as (entries & ? & ? & ?); by exists entries|].
  intros c Hc Hskip [r0 Hr0] Hw Hnone _ _ _. rewrite Forall_forall in H1. specialize (H1 c Hc). unfold settled_change in H1. rewrite Hskip, Hr0 in H1. unfold stored in H1.
  rewrite Hnone in H1. destruct (fc_operation c), (fc_content c); naive_solver.
Qed.

Module FilesExamples.
Definition file_schema (tbl : string) : table_schema :=
  MkSchema ["id"; "path"; "content"; "is_binary"; "size_bytes"; "created_at"; "modified_at"; "deleted"; "created_by"; "host_origin"]
    (λ _, JNull) (λ _ v, Some v) (λ _, true) (unique_indexes tbl).
Definition t0 : string := "2026-01-01T00:00:00.000Z".
Definition t1 : string := "2026-01-01T01:00:00.000Z".
(** A hash of its own for every content; the order of instants is that of the
    strings; the first row of the map. *)
Definition tag (s : string) : string := "h" +:+ s.
Definition hour (s : string) : option Z := if seqb s t0 then Some 0 else if seqb s t1 then Some 3600000 else None.
Definition first_row (m : gmap string row) : option row := head (map_to_list m).*2.
Definition file_row (id path content : string) : list (string * json) := fields_set "id" (JStr id) (new_file t0 path content 1).
Definition with_files (rows : list (list (string * json))) : world :=
  foldl (λ w d, (insertRow file_schema None t0 "files" d "s1" w).1) (MkWorld (MkSdb ∅ []) [] []) rows.
Definition reader (now : snapshot) (p : string) : fs_read :=
  match fields_get p now with Some c => Content c | None => Failed (MkFsError None "ENOENT: no such file") end.
Definition snap (fs : snapshot) : snapshot := (λ kv, (kv.1, tag kv.2)) <$> fs.
Definition persist (w : world) (before after : snapshot) : world * result persist_outcome :=
  persistWorkspaceChanges file_schema (Some (λ _, None)) tag hour first_row t1 "s1" (snap before) (snap after) (MkPersistOptions None None) (Some (reader after)) w.
Definition content_of (w : world) (id : string) : option (json * json) :=
  (λ r, (column_value "content" r, column_value "deleted" r)) <$> files (w_db w) !! id.
Definition failed {A} (r : result A) : bool := match r with Throw _ => true | Ok _ => false end.

(** A file the web server stored has an id that is not its path: a turn that
    edits it persists nothing, not even its other files, and the events of what
    was rolled back are out already. *)
Definition uploaded : world := with_files [file_row "u1" "/home/user/uploads/x" "old"].
Example upload_blocks :
  let '(w, r) := persist uploaded [("/home/user/uploads/x", "old")] [("/home/user/n", "new"); ("/home/user/uploads/x", "edited")] in
  failed r = true ∧ content_of w "u1" = Some (JStr "old", JInt 0).
Proof. vm_compute. split; reflexivity. Qed.
Example events_before_commit :
  let '(w, r) := persist uploaded [("/a", "1")] [("/a", "2"); ("/home/user/uploads/x", "y")] in
  failed r = true ∧ content_of w "/a" = None ∧ ce_table <$> w_delivered w = ["files"].
Proof. vm_compute. repeat split; reflexivity. Qed.
(** A file that was deleted and is made again keeps its deletion mark. *)
Example recreated_stays_deleted :
  let w0 := with_files [file_row "/home/user/a" "/home/user/a" "one"] in
  let w1 := (persist w0 [("/home/user/a", "one")] []).1 in
  let w2 := (persist w1 [] [("/home/user/a", "two")]).1 in
  content_of w1 "/home/user/a" = Some (JStr "one", JInt 1) ∧ content_of w2 "/home/user/a" = Some (JStr "two", JInt 1).
Proof. vm_compute. split; reflexivity. Qed.
(** What another host stored since the snapshot is counted as a conflict and
    written over. *)
Example conflict_overwritten :
  let '(w, r) := persist (with_files [file_row "/home/user/a" "/home/user/a" "theirs"]) [("/home/user/a", "one")] [("/home/user/a", "mine")] in
  content_of w "/home/user/a" = Some (JStr "mine", JInt 0) ∧
  match r with Ok (Persisted r _) => conflictPaths r = ["/home/user/a"] | _ => False end.
Proof. vm_compute. split; reflexivity. Qed.
(** One file over the limit, and the small one of the same run is not persisted
    either: the next call starts from the snapshot of the failed one. *)
Example limit_loses_others :
  let fs := [("/home/user/small", "new"); ("/home/user/big", "too long")] in
  let end_of_run pre w := persistFs file_schema None tag hour first_row (MkPersistOptions (Some 5) None) t1 "s1" pre (reader fs) fs.*1 w in
  let '(w1, pre1, r1) := end_of_run (Some []) (with_files []) in
  let '(w2, pre2, r2) := end_of_run pre1 w1 in
  match r1, r2 with Ok (n1, _), Ok (n2, paths) => (n1, n2, paths) = (0%nat, 0%nat, []) | _, _ => False end ∧ content_of w2 "/home/user/small" = None.
Proof. vm_compute. split; reflexivity. Qed.
End FilesExamples.
Import FilesExamples.

Lemma persist_exact_witness :
  let w := with_files [file_row "/home/user/a" "/home/user/a" "one"] in
  let '(w', res) := persist w [("/home/user/a", "one")] [("/home/user/a", "two"); ("/home/user/b", "new")] in
  match res with
  | Ok (Persisted r _) => pr_changes r = 2%nat ∧ ∃ entries, change_log (w_db w') = change_log (w_db w) ++ entries ∧ length entries = 2%nat
  | _ => False
  end.
Proof.
  intros w. unfold persist.
  set (before := [("/home/user/a", "one")]). set (after := [("/home/user/a", "two"); ("/home/user/b", "new")]).
  set (changes := [MkFileChange "/home/user/a" Modified (Some "two") (Some 3); MkFileChange "/home/user/b" Created (Some "new") (Some 3)]).
  assert (files (w_db w) = <["/home/user/a" := match build_row (file_schema "files") (file_row "/home/user/a" "/home/user/a" "one") with Ok r => r | Throw _ => ∅ end]> ∅)
    as Hfiles by (vm_compute; reflexivity).
  pose proof (persist_exact file_schema (Some (λ _, None)) tag hour first_row t1 "s1" (snap before) (snap after) (MkPersistOptions None None) (Some (reader after)) changes w) as H.
  destruct (persistWorkspaceChanges _ _ _ _ _ _ _ _ _ _ _ w) as [w' res] eqn:E.
  assert (∃ r events, res = Ok (Persisted r events) ∧ pr_changes r = 2%nat) as (r & events & -> & Hn).
  { vm_compute in E. injection E as _ <-. by eexists _, _. }
  destruct H as (_ & _ & (_ & _ & _ & _ & (entries & H & Hl & _) & _) & _).
  - split; [by apply (bool_decide_unpack _); vm_compute|done|done].
  - rewrite Hfiles. apply keyed_insert; [apply keyed_empty|by vm_compute].
  - repeat constructor; intros x; rewrite Hfiles.
    + change (fc_path _) with "/home/user/a". rewrite lookup_insert_eq. intros [= <-]. by vm_compute.
    + change (fc_path _) with "/home/user/b". rewrite lookup_insert_ne by done. by rewrite lookup_empty.
  - by vm_compute.
  - split; [exact Hn|]. exists entries. split; [exact H|exact (eq_trans (eq_sym Hl) Hn)].
Defined.
